(* ===== verification/_CoqProject ===== *)
-Q . S2P
Prelude.v
TaskStates.v
Dag.v
Planner.v
PlannerLemmas.v
PlannerProps.v
PlannerExamples.v
Catchup.v
RunCreation.v
Scheduler.v
SchedulerProps.v
SchedulerWalk.v
AlertProps.v
Leader.v
LeaderProps.v
Reaper.v
ReaperProps.v
SqlStore.v
SqlStoreProps.v
SqlBatch.v
Js.v
Playwright.v
UiSmoke.v
UiSmokeProps.v
SsoLogin.v
SsoLoginProps.v
Search.v
SearchProps.v
UiStreams.v
Json.v
TurboStream.v
TurboEncode.v
TurboText.v
TurboDecode.v
TurboCopies.v
TurboRounds.v
TurboWire.v
TurboProps.v
RegExp.v
Router.v
RouterMatch.v
RouterRank.v
RouterLink.v
RouterProps.v
Modules.v
UiLogs.v
UiMemo.v
UiKeys.v
Axios.v
EditorLoader.v
Highlighter.v
MdChunks.v
MdHast.v
MdPrint.v
YamlLexer.v
YamlLexerProps.v
YamlScalars.v
YamlScalarsProps.v
YamlBlock.v
YamlPrint.v
YamlPrintProps.v
YamlErrors.v
YamlParser.v
YamlParserProps.v
YamlTags.v
YamlCompose.v
YamlComposeProps.v
YamlNodes.v
YamlNodesProps.v
YamlNodesTotal.v
YamlRoundTrip.v
