(* ===== verification/Prelude.v ===== *)
(** * Leoflow: a verification development

    Leoflow is a workflow scheduler that serves the Airflow web UI.  A Go control
    plane decides which runs to create and which tasks to start; the UI is a
    bundled JavaScript application; two browser scripts guard releases; the API
    documentation ships a search page.  This development models the decision code
    of the control plane, both scripts, the search, and the parts of the UI that
    handle its data (logs, streams, headers, Markdown, YAML), as executable
    definitions translated from the sources under [src/].

    ** The control plane (Go)

    - [TaskStates]: the states of [internal/domain/state.go] as inductive types,
      the transition tables and trigger rules of
      [internal/scheduler/state_machine.go].  The evaluator of trigger rules is
      proved to implement a decision table, and compared with what [dag.go] says of
      each rule: [one_success] and [one_failed] wait until every upstream has settled,
      which their comments do not say.
    - [Dag]: [validateGraph] and the three-color search of
      [internal/domain/graph.go].  Validation is total and exact: it accepts the
      lists with distinct ids, declared dependencies and no cycle, and otherwise
      names a real defect.  The search gets as fuel one more than the number of
      tasks, the depth it cannot exceed ([visit_correct]).
    - [Planner]: [PlanRun] and [FinalizeRun] of [internal/scheduler/plan.go] with
      [dispatch_backoff.go], over the planning view of a run.  [PlannerLemmas]
      gives the two loops in closed form, [PlannerProps] the properties (at most
      one transition per task, admission and pool budgets, only final failures
      condemn, legal transitions, agreement of planning and finalization, no
      deadlock of a validated run, the back-off), [PlannerExamples] sample runs.
    - [Catchup]: the enumeration of due slots of [internal/scheduler/catchup.go].
      The cron library is a parameter, whose [Next] is assumed to return a later
      instant.  With a step of at least one nanosecond the fuel needed is bounded
      by the span to cover; on a schedule without a next slot the loop is shown
      to run forever.
    - [RunCreation]: [createDueRuns] of [internal/scheduler/scheduler.go] and
      [internal/domain/schedule.go], with the store as a parameter.
    - [Scheduler]: the rest of [scheduler.go]: a tick of the leader that reads the
      active runs, advances each of them (plan, dispatch, resets, the batch of plain
      transitions, finalization, alerts) and creates new ones, with the budgets
      threaded from run to run, leadership and the heartbeat.  Store, dispatcher,
      alerter and clock are the class [Host]; each call may fail or panic and is
      recorded.  A computation returns, panics or diverges (run creation out of
      fuel); alerts in goroutines are a list of deliveries under way, which may end
      whenever the scheduler looks ([settle]).
    - [SchedulerProps]: for every host, a run that fails or panics keeps no other
      from being advanced, the caps on tasks and pools hold across the runs of a tick
      unless a write fails (a breach is shown), and a follower makes no call.  A tick
      ends, whatever fails or panics, unless a DAG with a last run and a start date has
      a cron date that never comes, which is shown to keep it from ending.
    - [SchedulerWalk] and [AlertProps]: an invariant kept by each call is kept by the
      scheduler (class [Invariant]); with it, alerts are justified and bounded in
      every reachable state.
    - [Leader] and [LeaderProps]: the election of the replica that schedules
      ([leader.go], [leader_health.go], the campaign and the watchdog in
      [cmd/dexaflow-server/main.go]) as a step relation over replicas, sessions and the
      advisory lock (class [Locks]).  At most one replica leads with the session that
      took the lock, one that lost it is stopped after three checks at most; that the
      flag of a leader outlives its lock is shown by a run without failures.
    - [Reaper] and [ReaperProps]: the reapers that fail runs and tasks which went dark
      and delete their pods ([internal/executor/reaper.go], [reap.go] and the four
      [*_reap.go]), over store, cluster, clock and leadership as a class of their own.
      A destructive call comes right after an open gate, in a settled tick, and has its
      cause in answers read before; a reaper that panics stops no other; that a failed
      list of warm workers fails attempts of live workers is shown by a concrete host.
    - [SqlStore]: [internal/storage/scheduler_store.go] and its statements
      ([queries/runs.sql]) on tables of rows, as an instance of [Host].
      [SqlStoreProps] and [SqlBatch] compose the scheduler with it: writing
      transitions in groups leaves the same tables as writing each in order; a failed
      run is never looked at again, so its alert is not retried; a reopened run is
      never set running; scheduled runs are made for one tenant only.

    Planner and run creation meet in the tick: it reads runs from the store as
    [RunState]s and asks it for new ones.  A Go map is a [gmap] read with [mget],
    which gives the zero value for an absent key; a time is a count of nanoseconds.

    ** The browser scripts (JavaScript)

    - [Js]: strings as lists of UTF-16 code units, JSON values, property access
      with its errors, string conversion.
    - [Playwright]: the interface between a script and the browser with the server
      behind it, as a class [Host] that answers each call, may reject it and raises
      page events; scripts are programs of a state-and-exception monad.
    - [UiSmoke] and [UiSmokeProps]: [test/e2e/ui-smoke.js], every step.  Exit 0 is
      characterised exactly, and is the verdict the script promises when the login
      raised no crash; the steps' contracts are spelled out, and two gaps of the
      script (a crash during the login is one) are shown by concrete runs.
    - [SsoLogin] and [SsoLoginProps]: [test/e2e/sso-login-page.js].  Status 0
      implies every assertion on the answers received, in order, for both kinds of
      deployment.

    ** The documentation search (JavaScript)

    - [Search] and [SearchProps]: the driver of
      [website/static/python-api/search.js] and the parts of elasticlunr it uses.
      Which documents are found is characterised exactly, for a built and for a
      loaded index, whatever the floating-point scores ([Float] is a class with
      the operations used).  A search may throw (no result): it does when a document
      found has no name, and does not when every document has one.

    ** The web UI (JavaScript, the bundle [internal/ui/assets/assets/index-DHyr8oiy.js])

    - [UiStreams]: the splitter of streamed responses into lines, the refresh of
      the task summaries and the string list field.  Lines and queued summaries do
      not depend on how the network cuts a response.  An update of the summaries runs
      when the page is rendered, where its exceptions go; that a [null] line breaks the
      rendering is shown.  The field stores the lines of its text.
    - [Json], [TurboStream], [TurboWire]: the codec with which the router sends the data
      of routes ([UP] to [XXe] of the bundle): an object graph is numbered and written
      as lines of JSON, a promise gets a line when it settles, and the decoder builds
      the graph again with a work list.  Values live in a heap; [JSON.parse] and the
      JSON text are those of the language; numbers are the class [JsNum]; loops of the
      decoder get the number of references in the slots plus one as fuel, the encoder
      the number of objects plus two.  [TurboEncode] shows that every number stands for
      a value and that encoding ends, [TurboText] that lines are JSON, [TurboDecode] the
      invariant of the work list, [TurboCopies] that what is built copies what was
      sent, [TurboRounds] that the two ends agree after each line, and [TurboProps] the
      round trip from values to bytes and back, in whatever order promises settle.
      Five defects are shown by concrete values.
    - [RegExp], [Router]: route matching of the router ([RM] to [cJe] of the bundle):
      paths, the branches of a route table with scores and rank, the expression of a
      pattern and its match, links and relative links.  [RegExp] has the expressions of
      the language the patterns need, with backtracking; its parser gets the length of
      the text plus one as fuel, which [RouterMatch] shows to be enough for patterns of
      literals, parameters and a splat: they match segment by segment.  [RouterRank]
      shows that the rank is by score and then by declaration, [RouterLink] that links
      decode and match to their values, and [RouterProps] has the theorems and four
      defects on concrete tables.
    - [Modules]: the wrappers of [chunk-zsgVPwQN.js] that run a module when it is first
      required.  Whatever modules require one another, loading ends, no body runs
      twice, and every call returns the last value the body made ([made] records the
      values for the statement); the number of modules is enough fuel.
    - [UiLogs]: reading, filtering, grouping and downloading task logs.  The view
      is rendered for well-formed messages and shows every message outside the filters
      once, in order when at most one section is left open; three defects for other
      logs are shown.
    - [UiMemo], [UiKeys]: the memo helpers of tables and virtual lists (transparent
      when the result depends on the dependencies only), and the key combination
      hook of the graph as a state machine over keyboard events, compared with the keys
      that are down by the events alone.
    - [Axios]: header parsing and the header object, adapter choice and error
      stacks of the HTTP client.  No stored value has a line break; printed plain headers
      parse back, names that every object inherits apart.
    - [EditorLoader]: configuration and loading of the code editor; the script is
      inserted at most once whatever the order of calls.
    - [Highlighter]: the rows of highlighted code.  The row loop gets twice the
      number of elements as fuel.
    - [MdChunks], [MdHast], [MdPrint]: Markdown: preprocessing into chunks and back,
      the translation to HTML with the filter of addresses (no raw HTML, only safe
      protocols; footnotes get the number of references as fuel), and the printing
      of tables, code, definitions, headings and breaks.

    ** The YAML library of the UI (JavaScript, the same bundle)

    A text goes through the lexer, the parser and the composer; a value goes through
    the printer of nodes, which uses the printer of strings.

    - [YamlLexer] and [YamlLexerProps]: the lexer class, every method.  On every
      input it ends and loses no character.  The inner loops get the length of the
      buffer plus a constant as fuel; the outer loop twice the length plus two,
      since each turn moves forward or goes from the stream mode to the document
      mode ([measure]).
    - [YamlParser] and [YamlParserProps]: the parser class over the lexemes, with
      its stack of open tokens.  It ends on every text without an exception and
      each lexeme is in exactly one token, yielded or dropped ([lost] records what
      the code drops); the weight of a text in the tokens is the invariant of every
      handler.  Closing a token and a step get one more than the height of the
      stack as fuel.  Two defects are shown by concrete texts.
    - [YamlTags], [YamlCompose], [YamlComposeProps]: tags and directives, the
      composition of nodes and documents and the reader of a text.  Reading always
      ends with a document, and what can be said of a text read without errors is
      spelled out (one document, expected tokens, no key twice).  The composer is
      structural over the tokens and needs no fuel; numbers are an interface; errors
      have a position and a code but no message, the value of a date is its text.
      Two defects are shown by concrete texts.
    - [YamlErrors]: line and column of an offset by the binary search over the line
      starts (fuel: their number plus one) and the excerpt of an error message.
    - [YamlScalars] and [YamlScalarsProps]: resolution of plain and quoted scalars,
      printing of quoted scalars with line folding.  Printing and resolving is the
      identity when lines are not folded, apart from a defect shown by a concrete
      text; a second one is shown for folding, a third for invalid escapes.
    - [YamlBlock]: resolution of block scalars; a literal block holds its lines.
    - [YamlPrint] and [YamlPrintProps]: comments, block strings and the choice of a
      style, with the value the resolvers of each style give back.  The loop over more
      indented lines gets twice the length plus two.
    - [YamlNodes], [YamlNodesProps], [YamlNodesTotal]: the printer of nodes, pairs,
      collections and documents.  Printing succeeds, and every line is blank or
      indented at least as far as its node.
    - [YamlRoundTrip]: printer and reader together: a document of a string of one line,
      printed plain or quoted, is read back by lexer, parser and composer to this string.
      Four texts that are not read back are shown.

    ** Not modelled

    The executors and the pod reconciler (Kubernetes and process I/O), and
    their statements; the HTTP API and authentication; the command line and the compiler;
    the time between the checks of a leader.  Of the UI bundle:
    the values and aliases of YAML documents, the choice of a language for the
    highlighter, the Markdown tokenizer, the adapters of the HTTP client, the
    plugins of the data stream, partial matches of routes, and the vendored rest (React, charts, graph layout). *)

From Stdlib Require Import ZArith Lia.
From stdpp Require Import base numbers strings gmap option list.

Open Scope Z_scope.

(** ** Generic tactics *)

(** Case on the scrutinee of the first [match]/[if] found in the goal or in a
    hypothesis, remembering the equation. *)
Ltac case_goal :=
  match goal with
  | |- context [match ?x with _ => _ end] => destruct x eqn:?
  end.

Ltac case_hyp H :=
  match type of H with
  | context [match ?x with _ => _ end] => destruct x eqn:?
  end.

(** Turn boolean tests on integers into propositions. *)
Ltac zbool :=
  repeat match goal with
  | H : (_ =? _)%Z = true |- _ => apply Z.eqb_eq in H
  | H : (_ =? _)%Z = false |- _ => apply Z.eqb_neq in H
  | H : (_ <? _)%Z = true |- _ => apply Z.ltb_lt in H
  | H : (_ <? _)%Z = false |- _ => apply Z.ltb_ge in H
  | H : (_ <=? _)%Z = true |- _ => apply Z.leb_le in H
  | H : (_ <=? _)%Z = false |- _ => apply Z.leb_gt in H
  | H : _ && _ = true |- _ => apply andb_true_iff in H; destruct H
  | H : _ || _ = false |- _ => apply orb_false_iff in H; destruct H
  | H : negb _ = true |- _ => apply negb_true_iff in H
  | H : negb _ = false |- _ => apply negb_false_iff in H
  | H : bool_decide _ = true |- _ => apply bool_decide_eq_true in H
  | H : bool_decide _ = false |- _ => apply bool_decide_eq_false in H
  end.

(** ** Go maps

    A Go map read of an absent key yields the zero value of the element type. *)
Definition mget {A} (d : A) (m : gmap string A) (k : string) : A :=
  default d (m !! k).

Lemma mget_insert_eq {A} (d x : A) m k : mget d (<[k:=x]> m) k = x.
Proof. unfold mget. by rewrite lookup_insert_eq. Qed.

Lemma mget_insert_ne {A} (d x : A) m k k' :
  k ≠ k' → mget d (<[k:=x]> m) k' = mget d m k'.
Proof. intros. unfold mget. by rewrite lookup_insert_ne. Qed.

Lemma mget_insert {A} (d x : A) m k k' :
  mget d (<[k:=x]> m) k' = if decide (k = k') then x else mget d m k'.
Proof. unfold mget. rewrite lookup_insert. by case_decide. Qed.

Lemma mget_empty {A} (d : A) k : mget d ∅ k = d.
Proof. unfold mget. by rewrite lookup_empty. Qed.

Create HintDb gomap.
#[export] Hint Rewrite @mget_insert_eq @mget_empty : gomap.
#[export] Hint Rewrite @mget_insert_ne using done : gomap.

(** ** Text *)

(** A string literal as its list of code units (all literals here are ASCII). *)
Fixpoint runes (s : string) : list Z :=
  match s with
  | EmptyString => []
  | String c r => Z.of_N (Ascii.N_of_ascii c) :: runes r
  end.
Arguments runes : simpl never.

(** ** Machine integers *)

(** Two's complement reduction to a Go [int] / [int64]. *)
Definition wrap64 (z : Z) : Z := (z + 2 ^ 63) mod 2 ^ 64 - 2 ^ 63.

Definition max_int64 : Z := 2 ^ 63 - 1.

Lemma wrap64_id z : - 2 ^ 63 <= z < 2 ^ 63 → wrap64 z = z.
Proof. intros. unfold wrap64. rewrite Z.mod_small; lia. Qed.

Lemma wrap64_range z : - 2 ^ 63 <= wrap64 z < 2 ^ 63.
Proof.
  unfold wrap64. pose proof (Z.mod_pos_bound (z + 2 ^ 63) (2 ^ 64)). lia.
Qed.

(** ** Counting *)

(** The number of elements of [l] that satisfy [p], as an integer. *)
Fixpoint countb {A} (p : A → bool) (l : list A) : Z :=
  match l with
  | [] => 0
  | x :: r => (if p x then 1 else 0) + countb p r
  end.

Lemma countb_nonneg {A} (p : A → bool) l : 0 <= countb p l.
Proof. induction l as [|x r IH]; simpl; [lia|]. destruct (p x); lia. Qed.

Lemma countb_app {A} (p : A → bool) l1 l2 :
  countb p (l1 ++ l2) = countb p l1 + countb p l2.
Proof. induction l1 as [|x r IH]; simpl; lia. Qed.

Lemma countb_pos {A} (p : A → bool) l :
  0 < countb p l ↔ ∃ x, x ∈ l ∧ p x = true.
Proof.
  induction l as [|x r IH]; simpl.
  - split; [lia|]. intros (x & Hx & _). by apply not_elem_of_nil in Hx.
  - pose proof (countb_nonneg p r). destruct (p x) eqn:E.
    + split; [|lia]. intros _. exists x. split; [left|done].
    + rewrite Z.add_0_l, IH. split.
      * intros (y & Hy & Hp). exists y. split; [by right|done].
      * intros (y & Hy & Hp). apply elem_of_cons in Hy as [->|Hy]; [congruence|].
        by exists y.
Qed.

Lemma countb_zero {A} (p : A → bool) l :
  countb p l = 0 ↔ ∀ x, x ∈ l → p x = false.
Proof.
  pose proof (countb_nonneg p l). pose proof (countb_pos p l) as Hp. split.
  - intros H0 x Hx. destruct (p x) eqn:E; [|done].
    assert (0 < countb p l) by (apply Hp; eauto). lia.
  - intros Hall. destruct (decide (0 < countb p l)) as [Hlt|]; [|lia].
    apply Hp in Hlt as (x & Hx & Hpx). rewrite Hall in Hpx; done.
Qed.

Lemma countb_le {A} (p : A → bool) l : countb p l <= Z.of_nat (length l).
Proof. induction l as [|x r IH]; simpl; [lia|]. destruct (p x); lia. Qed.

Lemma countb_length {A} (p : A → bool) l :
  countb p l = Z.of_nat (length l) ↔ ∀ x, x ∈ l → p x = true.
Proof.
  induction l as [|x r IH]; simpl.
  - split; [|done]. intros _ x Hx. by apply not_elem_of_nil in Hx.
  - pose proof (countb_le p r). destruct (p x) eqn:E.
    + split.
      * intros Hc y Hy. apply elem_of_cons in Hy as [->|Hy]; [done|].
        apply IH; [lia|done].
      * intros Hall. assert (countb p r = Z.of_nat (length r)); [|lia].
        apply IH. intros y Hy. apply Hall. by right.
    + split; [lia|]. intros Hall.
      assert (p x = true) by (apply Hall; left). congruence.
Qed.

(** ** Generic list facts *)

Lemma Forall_elem {A} (P : A → Prop) l x : Forall P l → x ∈ l → P x.
Proof. induction 1 as [|y r Hy Hr IH]; intros Hin; [by apply not_elem_of_nil in Hin|].
  apply elem_of_cons in Hin as [->|Hin]; auto.
Qed.

(** A non-empty list on which a well-founded measure is defined has an element
    of least measure. *)
Lemma least_measure {A} (f : A → nat) (P : A → Prop) (l : list A) (x : A) :
  x ∈ l → P x → (∀ y, Decision (P y)) →
  ∃ y, y ∈ l ∧ P y ∧ ∀ z, z ∈ l → P z → (f y <= f z)%nat.
Proof.
  intros Hx HP Hdec. remember (f x) as n eqn:En.
  revert x Hx HP En. induction (lt_wf n) as [n _ IH]; intros x Hx HP ->.
  destruct (decide (Exists (λ z, P z ∧ (f z < f x)%nat) l)) as [He|Hn].
  - apply list.Exists_exists in He as (z & Hz & HPz & Hlt). by eapply IH.
  - exists x. split_and!; [done..|]. intros z Hz HPz.
    destruct (decide (f z < f x)%nat); [|lia].
    exfalso. apply Hn, list.Exists_exists. eauto.
Qed.

(** Counting the elements of a list that satisfy a decidable property. *)
Section count_filter.
Context {A} (P Q : A → Prop) `{!∀ x, Decision (P x), !∀ x, Decision (Q x)}.
Context (HPQ : ∀ x, P x → Q x).

Lemma count_filter_le l : (length (filter P l) <= length (filter Q l))%nat.
Proof.
  induction l as [|x l IH]; [done|]. rewrite !filter_cons.
  destruct (decide (P x)) as [E|E].
  - rewrite decide_True by auto. simpl. lia.
  - destruct (decide (Q x)); simpl; lia.
Qed.

Lemma count_filter_lt l x :
  x ∈ l → Q x → ¬ P x → (length (filter P l) < length (filter Q l))%nat.
Proof.
  intros Hx HQ HP. induction l as [|y l IH]; [by apply not_elem_of_nil in Hx|].
  pose proof (count_filter_le l). rewrite !filter_cons.
  apply elem_of_cons in Hx as [->|Hx].
  - rewrite decide_False by done. rewrite decide_True by done. simpl. lia.
  - specialize (IH Hx). destruct (decide (P y)) as [E|E].
    + rewrite decide_True by auto. simpl. lia.
    + destruct (decide (Q y)); simpl; lia.
Qed.

End count_filter.
