(* ===== verification/TaskStates.v ===== *)
(** * Task and run life cycles

    The task and dag-run states of [internal/domain/state.go], the transition
    tables and the trigger rules of [internal/scheduler/state_machine.go].

    A Go string enum is an inductive type with the source's constants as
    constructors.  Reading an absent key of a [map[string]TaskState] gives the
    empty string, which is none of the constants: [TaskStateZero]. *)

From Stdlib Require Import ZArith Lia.
From stdpp Require Import base numbers strings gmap option list.
From S2P Require Import Prelude.

Open Scope Z_scope.

Inductive TaskState :=
  | TaskStateNone
  | TaskStateScheduled
  | TaskStateQueued
  | TaskStateRunning
  | TaskStateSuccess
  | TaskStateFailed
  | TaskStateSkipped
  | TaskStateUpstreamFailed
  | TaskStateUpForRetry
  | TaskStateUpForReschedule
  | TaskStateZero.

#[export] Instance TaskState_eq_dec : EqDecision TaskState.
Proof. solve_decision. Defined.

Definition IsTerminal (s : TaskState) : bool :=
  match s with
  | TaskStateSuccess | TaskStateFailed | TaskStateSkipped | TaskStateUpstreamFailed => true
  | _ => false
  end.

Inductive DagRunState :=
  | DagRunStateQueued
  | DagRunStateRunning
  | DagRunStateSuccess
  | DagRunStateFailed.

#[export] Instance DagRunState_eq_dec : EqDecision DagRunState.
Proof. solve_decision. Defined.

Definition DagRunIsTerminal (s : DagRunState) : bool :=
  bool_decide (s = DagRunStateSuccess) || bool_decide (s = DagRunStateFailed).

(** ** Transition tables *)

(** The row of [taskTransitions] for a source state: the targets mapped to
    [true].  A state without a row has no legal transition. *)
Definition taskTransitions (from : TaskState) : list TaskState :=
  match from with
  | TaskStateNone => [TaskStateScheduled; TaskStateSkipped; TaskStateUpstreamFailed]
  | TaskStateScheduled => [TaskStateQueued]
  | TaskStateQueued => [TaskStateRunning; TaskStateFailed; TaskStateUpForRetry]
  | TaskStateRunning =>
      [TaskStateSuccess; TaskStateFailed; TaskStateUpForRetry; TaskStateUpForReschedule]
  | TaskStateUpForRetry => [TaskStateScheduled; TaskStateQueued; TaskStateNone]
  | TaskStateUpForReschedule => [TaskStateScheduled; TaskStateQueued; TaskStateNone]
  | TaskStateSuccess => [TaskStateNone]
  | TaskStateFailed => [TaskStateNone]
  | TaskStateSkipped => [TaskStateNone]
  | TaskStateUpstreamFailed => [TaskStateNone]
  | TaskStateZero => []
  end.

Definition CanTransition (from to : TaskState) : bool :=
  bool_decide (to ∈ taskTransitions from).

Definition dagRunTransitions (from : DagRunState) : list DagRunState :=
  match from with
  | DagRunStateQueued => [DagRunStateRunning; DagRunStateFailed]
  | DagRunStateRunning => [DagRunStateSuccess; DagRunStateFailed]
  | DagRunStateSuccess => [DagRunStateQueued]
  | DagRunStateFailed => [DagRunStateQueued]
  end.

Definition CanTransitionDagRun (from to : DagRunState) : bool :=
  bool_decide (to ∈ dagRunTransitions from).

(** ** Trigger rules *)

(** [TriggerRuleUnset] is the empty string, [TriggerRuleOther] any other string
    that is not one of the five constants. *)
Inductive TriggerRule :=
  | TriggerRuleUnset
  | TriggerRuleAllSuccess
  | TriggerRuleAllFailed
  | TriggerRuleAllDone
  | TriggerRuleOneSuccess
  | TriggerRuleOneFailed
  | TriggerRuleOther (s : string).

#[export] Instance TriggerRule_eq_dec : EqDecision TriggerRule.
Proof. solve_decision. Defined.

Inductive TriggerDecision :=
  | DecisionWait
  | DecisionSchedule
  | DecisionSkip
  | DecisionUpstreamFailed.

#[export] Instance TriggerDecision_eq_dec : EqDecision TriggerDecision.
Proof. solve_decision. Defined.

Record upstreamCounts := {
  c_total : Z;
  c_success : Z;
  c_failed : Z;
  c_skipped : Z;
  c_upstreamFailed : Z;
  c_active : Z;
}.

(** One iteration of the counting loop. *)
Definition countUpstream (c : upstreamCounts) (s : TaskState) : upstreamCounts :=
  let '(Build_upstreamCounts t su f sk u a) := c in
  match s with
  | TaskStateSuccess => Build_upstreamCounts t (su + 1) f sk u a
  | TaskStateFailed => Build_upstreamCounts t su (f + 1) sk u a
  | TaskStateSkipped => Build_upstreamCounts t su f (sk + 1) u a
  | TaskStateUpstreamFailed => Build_upstreamCounts t su f sk (u + 1) a
  | _ => Build_upstreamCounts t su f sk u (a + 1)
  end.

Definition countUpstreams (upstreams : list TaskState) : upstreamCounts :=
  fold_left countUpstream upstreams
    (Build_upstreamCounts (Z.of_nat (length upstreams)) 0 0 0 0 0).

Definition evalAllSuccess (c : upstreamCounts) : TriggerDecision :=
  if 0 <? c_failed c then DecisionUpstreamFailed
  else if 0 <? c_skipped c then DecisionSkip
  else if 0 <? c_active c then DecisionWait
  else DecisionSchedule.

Definition evalAllFailed (c : upstreamCounts) : TriggerDecision :=
  if 0 <? c_active c then DecisionWait
  else if c_failed c =? c_total c then DecisionSchedule
  else DecisionSkip.

Definition evalAllDone (c : upstreamCounts) : TriggerDecision :=
  if 0 <? c_active c then DecisionWait else DecisionSchedule.

Definition evalOneOf (c : upstreamCounts) (hits : Z) : TriggerDecision :=
  if 0 <? c_active c then DecisionWait
  else if 0 <? hits then DecisionSchedule
  else DecisionSkip.

Definition EvaluateTriggerRule (rule : TriggerRule) (upstreams : list TaskState)
    : TriggerDecision :=
  match upstreams with
  | [] => DecisionSchedule
  | _ =>
    let c := countUpstreams upstreams in
    if bool_decide (rule ≠ TriggerRuleAllDone) && (0 <? c_upstreamFailed c)
    then DecisionUpstreamFailed
    else match rule with
    | TriggerRuleAllSuccess => evalAllSuccess c
    | TriggerRuleAllFailed => evalAllFailed c
    | TriggerRuleAllDone => evalAllDone c
    | TriggerRuleOneSuccess => evalOneOf c (c_success c)
    | TriggerRuleOneFailed => evalOneOf c (c_failed c)
    | _ => DecisionWait
    end
  end.

(** ** The counting loop computes the five tallies *)

Definition is_state (s t : TaskState) : bool := bool_decide (t = s).
Definition is_active (t : TaskState) : bool := negb (IsTerminal t).

Lemma countUpstream_fold l c :
  fold_left countUpstream l c =
  {| c_total := c_total c;
     c_success := c_success c + countb (is_state TaskStateSuccess) l;
     c_failed := c_failed c + countb (is_state TaskStateFailed) l;
     c_skipped := c_skipped c + countb (is_state TaskStateSkipped) l;
     c_upstreamFailed := c_upstreamFailed c + countb (is_state TaskStateUpstreamFailed) l;
     c_active := c_active c + countb is_active l |}.
Proof.
  revert c. induction l as [|s l IH]; intros [t su f sk u a]; simpl.
  - f_equal; lia.
  - rewrite IH. destruct s; simpl; f_equal; lia.
Qed.

Lemma countUpstreams_spec l :
  countUpstreams l =
  {| c_total := Z.of_nat (length l);
     c_success := countb (is_state TaskStateSuccess) l;
     c_failed := countb (is_state TaskStateFailed) l;
     c_skipped := countb (is_state TaskStateSkipped) l;
     c_upstreamFailed := countb (is_state TaskStateUpstreamFailed) l;
     c_active := countb is_active l |}.
Proof. unfold countUpstreams. by rewrite countUpstream_fold. Qed.

(** ** The decision table

    What each rule promises, in terms of the upstream states alone. *)

Definition some_up (P : TaskState → Prop) (ups : list TaskState) : Prop :=
  ∃ s, s ∈ ups ∧ P s.
Definition all_up (P : TaskState → Prop) (ups : list TaskState) : Prop :=
  ∀ s, s ∈ ups → P s.
Definition settled (ups : list TaskState) : Prop :=
  all_up (λ s, IsTerminal s = true) ups.

(** The declarative reading of a rule on a non-empty upstream list, as the
    relation between the list and the decision. *)
Inductive rule_decides (ups : list TaskState) : TriggerRule → TriggerDecision → Prop :=
  | rd_propagate r :
      r ≠ TriggerRuleAllDone →
      some_up (λ s, s = TaskStateUpstreamFailed) ups →
      rule_decides ups r DecisionUpstreamFailed
  | rd_as_failed :
      ¬ some_up (λ s, s = TaskStateUpstreamFailed) ups →
      some_up (λ s, s = TaskStateFailed) ups →
      rule_decides ups TriggerRuleAllSuccess DecisionUpstreamFailed
  | rd_as_skip :
      all_up (λ s, s ≠ TaskStateUpstreamFailed ∧ s ≠ TaskStateFailed) ups →
      some_up (λ s, s = TaskStateSkipped) ups →
      rule_decides ups TriggerRuleAllSuccess DecisionSkip
  | rd_as_wait :
      all_up (λ s, s = TaskStateSuccess ∨ IsTerminal s = false) ups →
      some_up (λ s, IsTerminal s = false) ups →
      rule_decides ups TriggerRuleAllSuccess DecisionWait
  | rd_as_go :
      all_up (λ s, s = TaskStateSuccess) ups →
      rule_decides ups TriggerRuleAllSuccess DecisionSchedule
  | rd_wait r :
      r ∈ [TriggerRuleAllFailed; TriggerRuleOneSuccess; TriggerRuleOneFailed] →
      ¬ some_up (λ s, s = TaskStateUpstreamFailed) ups →
      some_up (λ s, IsTerminal s = false) ups →
      rule_decides ups r DecisionWait
  | rd_af_go :
      all_up (λ s, s = TaskStateFailed) ups →
      rule_decides ups TriggerRuleAllFailed DecisionSchedule
  | rd_af_skip :
      settled ups →
      ¬ some_up (λ s, s = TaskStateUpstreamFailed) ups →
      some_up (λ s, s ≠ TaskStateFailed) ups →
      rule_decides ups TriggerRuleAllFailed DecisionSkip
  | rd_ad_wait :
      some_up (λ s, IsTerminal s = false) ups →
      rule_decides ups TriggerRuleAllDone DecisionWait
  | rd_ad_go :
      settled ups →
      rule_decides ups TriggerRuleAllDone DecisionSchedule
  | rd_one_go r s :
      (r, s) ∈ [(TriggerRuleOneSuccess, TaskStateSuccess); (TriggerRuleOneFailed, TaskStateFailed)] →
      settled ups →
      ¬ some_up (λ s, s = TaskStateUpstreamFailed) ups →
      s ∈ ups →
      rule_decides ups r DecisionSchedule
  | rd_one_skip r s :
      (r, s) ∈ [(TriggerRuleOneSuccess, TaskStateSuccess); (TriggerRuleOneFailed, TaskStateFailed)] →
      settled ups →
      ¬ some_up (λ s, s = TaskStateUpstreamFailed) ups →
      s ∉ ups →
      rule_decides ups r DecisionSkip
  | rd_other r :
      (∀ k, r = k → k = TriggerRuleUnset ∨ ∃ s, k = TriggerRuleOther s) →
      ¬ some_up (λ s, s = TaskStateUpstreamFailed) ups →
      rule_decides ups r DecisionWait.

Lemma tally_some (p : TaskState → bool) (P : TaskState → Prop) ups :
  (∀ s, p s = true ↔ P s) → (0 <? countb p ups) = true ↔ some_up P ups.
Proof.
  intros Hp. rewrite Z.ltb_lt, countb_pos. unfold some_up.
  split; intros (s & Hs & H); exists s; by rewrite Hp in *.
Qed.

Lemma is_state_spec s t : is_state s t = true ↔ t = s.
Proof. unfold is_state. by rewrite bool_decide_eq_true. Qed.

Lemma is_active_spec t : is_active t = true ↔ IsTerminal t = false.
Proof. unfold is_active. by rewrite negb_true_iff. Qed.

Definition tally_state s ups := tally_some _ _ ups (is_state_spec s).
Definition tally_active ups := tally_some _ _ ups is_active_spec.

Lemma not_some_settled ups :
  ¬ some_up (λ s, IsTerminal s = false) ups ↔ settled ups.
Proof.
  unfold some_up, settled, all_up. split.
  - intros H s Hs. destruct (IsTerminal s) eqn:E; [done|]. destruct H. eauto.
  - intros H (s & Hs & Hf). rewrite H in Hf; done.
Qed.

(** Evaluating the Go code on a non-empty list, by the truth values of the
    four "some upstream is ..." tests. *)
Ltac eval_rule :=
  unfold EvaluateTriggerRule, evalAllSuccess, evalAllFailed, evalAllDone, evalOneOf;
  rewrite ?countUpstreams_spec; simpl.

Ltac tally :=
  repeat match goal with
  | H : (0 <? countb (is_state _) _) = true |- _ => apply tally_state in H
  | H : (0 <? countb is_active _) = true |- _ => apply tally_active in H
  | H : (0 <? countb (is_state _) _) = false |- _ =>
      apply not_true_iff_false in H; rewrite tally_state in H
  | H : (0 <? countb is_active _) = false |- _ =>
      apply not_true_iff_false in H; rewrite tally_active, not_some_settled in H
  end.

Lemma all_failed_test ups :
  (countb (is_state TaskStateFailed) ups =? Z.of_nat (length ups)) = true ↔
  all_up (λ s, s = TaskStateFailed) ups.
Proof.
  rewrite Z.eqb_eq, countb_length. unfold all_up.
  split; intros H s Hs; specialize (H s Hs); by apply is_state_spec.
Qed.

(** Each evaluator, once no upstream is [upstream_failed]. *)
Section evaluators.
Context (ups : list TaskState) (Hup : ¬ some_up (λ s, s = TaskStateUpstreamFailed) ups).

Lemma evalAllSuccess_sound :
  rule_decides ups TriggerRuleAllSuccess (evalAllSuccess (countUpstreams ups)).
Proof.
  unfold evalAllSuccess. rewrite countUpstreams_spec; simpl.
  destruct (0 <? countb (is_state TaskStateFailed) ups) eqn:Ef; tally;
    [by apply rd_as_failed|].
  destruct (0 <? countb (is_state TaskStateSkipped) ups) eqn:Es; tally.
  { apply rd_as_skip; [|done]. intros s Hs. split; intros ->.
    - destruct Hup. by exists TaskStateUpstreamFailed.
    - destruct Ef. by exists TaskStateFailed. }
  assert (Hall : ∀ s, s ∈ ups → s = TaskStateSuccess ∨ IsTerminal s = false).
  { intros s Hs. destruct s; simpl; auto; exfalso;
      [destruct Ef | destruct Es | destruct Hup]; eexists; eauto. }
  destruct (0 <? countb is_active ups) eqn:Ea; tally; [by apply rd_as_wait|].
  apply rd_as_go. intros s Hs. destruct (Hall s Hs) as [->|Hf]; [done|].
  by rewrite Ea in Hf.
Qed.

Lemma evalAllFailed_sound :
  rule_decides ups TriggerRuleAllFailed (evalAllFailed (countUpstreams ups)).
Proof.
  unfold evalAllFailed. rewrite countUpstreams_spec; simpl.
  destruct (0 <? countb is_active ups) eqn:Ea; tally;
    [apply rd_wait; [set_solver|done..]|].
  destruct (countb _ ups =? _) eqn:Ec; [by apply rd_af_go, all_failed_test|].
  apply rd_af_skip; [done..|].
  destruct (decide (Exists (λ s, s ≠ TaskStateFailed) ups)) as [He|Hn].
  - apply list.Exists_exists in He as (s & ? & ?). by exists s.
  - apply not_true_iff_false in Ec; rewrite all_failed_test in Ec. destruct Ec.
    intros s Hs. destruct (decide (s = TaskStateFailed)); [done|].
    destruct Hn. apply list.Exists_exists. eauto.
Qed.

Lemma evalOneOf_sound r s :
  (r, s) ∈ [(TriggerRuleOneSuccess, TaskStateSuccess); (TriggerRuleOneFailed, TaskStateFailed)] →
  rule_decides ups r (evalOneOf (countUpstreams ups) (countb (is_state s) ups)).
Proof.
  intros Hrs. unfold evalOneOf. rewrite countUpstreams_spec; simpl.
  destruct (0 <? countb is_active ups) eqn:Ea; tally;
    [apply rd_wait; [set_solver|done..]|].
  destruct (0 <? countb (is_state s) ups) eqn:Es; tally.
  - destruct Es as (? & Hs & ->). by eapply rd_one_go.
  - eapply rd_one_skip; [done..|]. intros Hs. destruct Es. by exists s.
Qed.

End evaluators.

Lemma evalAllDone_sound ups :
  rule_decides ups TriggerRuleAllDone (evalAllDone (countUpstreams ups)).
Proof.
  unfold evalAllDone. rewrite countUpstreams_spec; simpl.
  destruct (0 <? countb is_active ups) eqn:Ea; tally; by constructor.
Qed.

Lemma trigger_rule_sound rule ups :
  ups ≠ [] → rule_decides ups rule (EvaluateTriggerRule rule ups).
Proof.
  intros Hne. unfold EvaluateTriggerRule. destruct ups as [|u ups']; [done|].
  generalize (u :: ups'); clear u ups' Hne; intros ups; cbv zeta.
  destruct (0 <? c_upstreamFailed (countUpstreams ups)) eqn:Eu;
    rewrite countUpstreams_spec in Eu; simpl in Eu; tally.
  - rewrite andb_true_r. case_bool_decide as Hr; [by apply rd_propagate|].
    destruct (decide (rule = TriggerRuleAllDone)) as [->|]; [|done].
    apply evalAllDone_sound.
  - rewrite andb_false_r. destruct rule.
    + apply rd_other; [|done]. intros ? <-. by left.
    + by apply evalAllSuccess_sound.
    + by apply evalAllFailed_sound.
    + apply evalAllDone_sound.
    + rewrite countUpstreams_spec at 2. apply evalOneOf_sound; [done|left].
    + rewrite countUpstreams_spec at 2. apply evalOneOf_sound; [done|right; left].
    + apply rd_other; [|done]. intros ? <-. right. eauto.
Qed.

(** Refute a test that came out the wrong way: some upstream in a state that
    the other hypotheses exclude. *)
Ltac refute_tally :=
  exfalso; unfold settled, some_up, all_up in *;
  repeat match goal with
  | H : ∃ _, _ ∧ _ |- _ => destruct H as (? & ? & ?); subst
  | H : ¬ (∃ _, _ ∧ _), H' : ?x ∈ ?l |- False =>
      by (apply H; exists x; split; [exact H'|first [done|congruence]])
  | H : ∀ s, s ∈ ?l → _, H' : ?x ∈ ?l |- _ =>
      let T := type of (H x H') in
      let T' := eval cbv beta in T in
      lazymatch goal with
      | _ : T' |- _ => fail
      | _ => assert T' by exact (H x H')
      end
  end;
  repeat match goal with
  | H : _ ∨ _ |- _ => destruct H
  | H : _ ∧ _ |- _ => destruct H
  end; first [done | congruence | (subst; simpl in *; congruence)].

Ltac run_tests :=
  repeat match goal with
  | |- context [0 <? countb ?p ?l] =>
      destruct (0 <? countb p l) eqn:?; tally; simpl; try done; try (by refute_tally)
  end.

Lemma rule_decides_complete rule ups d :
  ups ≠ [] → rule_decides ups rule d → EvaluateTriggerRule rule ups = d.
Proof.
  intros Hne Hd. unfold EvaluateTriggerRule. destruct ups as [|u ups']; [done|].
  assert (Hu : u ∈ u :: ups') by left.
  generalize dependent (u :: ups'); clear ups'; intros ups Hne Hd Hu.
  cbv zeta. unfold evalAllSuccess, evalAllFailed, evalAllDone, evalOneOf.
  rewrite !countUpstreams_spec. cbn [c_total c_success c_failed c_skipped c_upstreamFailed c_active].
  destruct Hd as [r Hr| | | | | r Hr | Hf | Hs Hn Hf | | | r s Hrs | r s Hrs | r Hr].
  - rewrite bool_decide_eq_true_2 by done. by run_tests.
  - by run_tests.
  - by run_tests.
  - by run_tests.
  - by run_tests.
  - repeat (apply elem_of_cons in Hr as [->|Hr]); try by apply not_elem_of_nil in Hr.
    all: by run_tests.
  - run_tests. by rewrite (proj2 (all_failed_test ups)).
  - run_tests. destruct (countb _ ups =? _) eqn:E; [|done].
    apply all_failed_test in E. refute_tally.
  - by run_tests.
  - by run_tests.
  - repeat (apply elem_of_cons in Hrs as [[= -> ->]|Hrs]); try by apply not_elem_of_nil in Hrs.
    all: by run_tests.
  - repeat (apply elem_of_cons in Hrs as [[= -> ->]|Hrs]); try by apply not_elem_of_nil in Hrs.
    all: by run_tests.
  - destruct (Hr r eq_refl) as [->|[? ->]]; by run_tests.
Qed.

(** The evaluator and the table agree. *)
Lemma EvaluateTriggerRule_refines rule ups d :
  EvaluateTriggerRule rule ups = d ↔
  (ups = [] ∧ d = DecisionSchedule) ∨ (ups ≠ [] ∧ rule_decides ups rule d).
Proof.
  split.
  - intros <-. destruct ups as [|u l]; [by left|right].
    split; [done|by apply trigger_rule_sound].
  - intros [[-> ->]|[Hne Hd]]; [done|by apply rule_decides_complete].
Qed.

(** The rules the compiler can emit. *)
Definition known_rule (r : TriggerRule) : Prop :=
  match r with
  | TriggerRuleUnset | TriggerRuleOther _ => False
  | _ => True
  end.

(** Once every upstream is terminal a known rule takes a decision. *)
Lemma settled_decides rule ups :
  known_rule rule → settled ups → EvaluateTriggerRule rule ups ≠ DecisionWait.
Proof.
  intros Hk Hs Hw. destruct ups as [|u l]; [done|].
  assert (Hd := trigger_rule_sound rule (u :: l) ltac:(done)). rewrite Hw in Hd.
  apply not_some_settled in Hs. inversion Hd as [| | |? Hs'| |? ? ? Hs'| | |Hs'| | | |r Hr]; subst; try done.
  by destruct (Hr rule eq_refl) as [->|[? ->]].
Qed.

(** [upstream_failed] is decided only for a failure that is already there. *)
Lemma upstream_failed_cause rule ups :
  EvaluateTriggerRule rule ups = DecisionUpstreamFailed →
  ∃ s, s ∈ ups ∧ (s = TaskStateUpstreamFailed ∨ s = TaskStateFailed).
Proof.
  intros He. destruct ups as [|u l]; [done|].
  assert (Hd := trigger_rule_sound rule (u :: l) ltac:(done)). rewrite He in Hd.
  inversion Hd as [? ? (s & ? & ->)|? (s & ? & ->)| | | | | | | | | | |]; subst; eauto.
Qed.

(** ** The rules as documented

    When a task runs by the comments of the constants in [internal/domain/dag.go]. *)
Definition documentedRuns (rule : TriggerRule) (ups : list TaskState) : Prop :=
  match rule with
  | TriggerRuleAllSuccess => all_up (λ s, s = TaskStateSuccess) ups
  | TriggerRuleAllFailed => all_up (λ s, s = TaskStateFailed) ups
  | TriggerRuleAllDone => settled ups
  | TriggerRuleOneSuccess => TaskStateSuccess ∈ ups
  | TriggerRuleOneFailed => TaskStateFailed ∈ ups
  | TriggerRuleUnset | TriggerRuleOther _ => False
  end.

(** The two rules that ask for one upstream. *)
Definition oneOf (rule : TriggerRule) : bool :=
  match rule with TriggerRuleOneSuccess | TriggerRuleOneFailed => true | _ => false end.

(** What the code asks for besides: everything settled, and nothing [upstream_failed]. *)
Definition quiet (ups : list TaskState) : Prop := settled ups ∧ ¬ some_up (λ s, s = TaskStateUpstreamFailed) ups.

Lemma table_schedules rule ups :
  rule_decides ups rule DecisionSchedule ↔ known_rule rule ∧ documentedRuns rule ups ∧ (oneOf rule = true → quiet ups).
Proof.
  split.
  - inversion 1 as [| | | |Hg| |Hf| | |Hs|r s Hrs Hs Hn Hin| |]; subst; simpl; try done.
    repeat (apply elem_of_cons in Hrs as [[= -> ->]|Hrs]); try (by apply not_elem_of_nil in Hrs); done.
  - intros (Hk & Hd & Hq). destruct rule; simpl in *; try done; try (by constructor).
    + destruct (Hq eq_refl). eapply rd_one_go; [left|done..].
    + destruct (Hq eq_refl). eapply rd_one_go; [right; left|done..].
Qed.

