(* ===== verification/Dag.v ===== *)
(** * Task graphs

    [DAGSpec.validateGraph] and [findTaskCycle] of [internal/domain/graph.go]:
    the checks that reject duplicate task ids, unknown dependencies and cycles.
    The depth-first search is total, the cycle it reports is one, and a graph it
    accepts has a well-founded dependency relation. *)

From Stdlib Require Import ZArith Lia.
From stdpp Require Import base numbers strings gmap option list.
From S2P Require Import Prelude TaskStates.

(** The planner's view of a task: its fields of [domain.TaskSpec]. *)
Record TaskSpec := {
  TaskID : string;
  DependsOn : list string;
  Rule : TriggerRule;
  Pool : string;
  Retries : option Z;
  SpecRetryDelay : option Z;
}.

Inductive GraphError :=
  | ErrDuplicateTaskID (id : string)
  | ErrUnknownDependency (id dep : string)
  | ErrCyclicDAG (cycle : list string).

(** ** The three-colour search *)

Inductive Color := white | gray | black.

#[export] Instance Color_eq_dec : EqDecision Color.
Proof. solve_decision. Defined.

(** The variables [color] and [stack] captured by the [visit] closure. *)
Record dfs := { color : gmap string Color; stack : list string }.

Definition colorOf (s : dfs) (id : string) : Color := mget white (color s) id.

(** [slices.Index]: the position of the first occurrence, [None] for -1. *)
Fixpoint slices_Index (l : list string) (x : string) : option nat :=
  match l with
  | [] => None
  | y :: r => if decide (y = x) then Some O else S <$> slices_Index r x
  end.

(** The path reported when [dep] is met again while on the stack. *)
Definition closeCycle (stk : list string) (dep : string) : list string :=
  match slices_Index stk dep with
  | Some i => drop i stk ++ [dep]
  | None => [dep; dep]
  end.

Section findTaskCycle.
Context (deps : gmap string (list string)).

(** The [range deps[id]] loop of [visit] and the two statements after it, with
    the recursive call as [v].  [None] is out of fuel, otherwise the state left
    behind and the cycle found ([None] for [nil]). *)
Fixpoint visitDeps (v : string → dfs → option (dfs * option (list string)))
    (id : string) (ds : list string) (s : dfs) : option (dfs * option (list string)) :=
  match ds with
  | [] =>
    Some ({| color := <[id := black]> (color s); stack := removelast (stack s) |}, None)
  | dep :: ds' =>
    match colorOf s dep with
    | gray => Some (s, Some (closeCycle (stack s) dep))
    | white =>
      match v dep s with
      | None => None
      | Some (s', Some c) => Some (s', Some c)
      | Some (s', None) => visitDeps v id ds' s'
      end
    | black => visitDeps v id ds' s
    end
  end.

Fixpoint visit (fuel : nat) (id : string) (s : dfs) : option (dfs * option (list string)) :=
  match fuel with
  | O => None
  | S fuel' =>
    visitDeps (visit fuel') id (mget [] deps id)
      {| color := <[id := gray]> (color s); stack := stack s ++ [id] |}
  end.

Fixpoint visitAll (fuel : nat) (order : list string) (s : dfs)
    : option (dfs * option (list string)) :=
  match order with
  | [] => Some (s, None)
  | id :: rest =>
    if decide (colorOf s id = white) then
      match visit fuel id s with
      | None => None
      | Some (s', Some c) => Some (s', Some c)
      | Some (s', None) => visitAll fuel rest s'
      end
    else visitAll fuel rest s
  end.

(** [None] is out of fuel: see [findTaskCycle_total]. *)
Definition findTaskCycle (order : list string) : option (option (list string)) :=
  snd <$> visitAll (S (length order)) order {| color := ∅; stack := [] |}.

End findTaskCycle.

(** ** Validation *)

(** The first loop: [byID] and [order], or the duplicate id. *)
Fixpoint collectTasks (ts : list TaskSpec) (byID : gmap string (list string))
    (order : list string) : GraphError + (gmap string (list string) * list string) :=
  match ts with
  | [] => inr (byID, order)
  | t :: rest =>
    match byID !! TaskID t with
    | Some _ => inl (ErrDuplicateTaskID (TaskID t))
    | None => collectTasks rest (<[TaskID t := DependsOn t]> byID) (order ++ [TaskID t])
    end
  end.

(** The second loop: the first dependency that names no task. *)
Definition unknownDep (byID : gmap string (list string)) (id : string) : option GraphError :=
  ErrUnknownDependency id <$>
    head (filter (λ dep, byID !! dep = None) (mget [] byID id)).

Definition firstUnknown (byID : gmap string (list string)) (order : list string)
    : option GraphError :=
  head (omap (unknownDep byID) order).

(** [Some None] is the [nil] error, [None] is out of fuel. *)
Definition validateGraph (ts : list TaskSpec) : option (option GraphError) :=
  match collectTasks ts ∅ [] with
  | inl e => Some (Some e)
  | inr (byID, order) =>
    match firstUnknown byID order with
    | Some e => Some (Some e)
    | None => (λ c : option (list string), ErrCyclicDAG <$> c) <$> findTaskCycle byID order
    end
  end.

(** ** Paths and cycles *)

(** [dep_of deps d x]: task [x] lists [d] in its dependencies. *)
Definition dep_of (deps : gmap string (list string)) (d x : string) : Prop :=
  d ∈ mget [] deps x.

Section paths.
Context (R : string → string → Prop).

Definition is_path (l : list string) : Prop :=
  ∀ l1 x y l2, l = l1 ++ x :: y :: l2 → R y x.

(** A closed walk along dependencies. *)
Definition is_cycle (l : list string) : Prop :=
  is_path l ∧ ∃ x m, l = x :: m ++ [x].

Lemma is_path_suffix l1 l2 : is_path (l1 ++ l2) → is_path l2.
Proof. intros H k x y m ->. apply (H (l1 ++ k) x y m). by rewrite app_assoc. Qed.

Lemma is_path_snoc l x y : is_path (l ++ [x]) → R y x → is_path ((l ++ [x]) ++ [y]).
Proof.
  intros Hp Hd l1 a b l2 Heq.
  destruct l2 as [|c l2 _] using rev_ind.
  - replace (l1 ++ [a; b]) with ((l1 ++ [a]) ++ [b]) in Heq by (by rewrite <- app_assoc).
    apply app_inj_tail in Heq as [Heq ->]. apply app_inj_tail in Heq as [_ ->]. done.
  - replace (l1 ++ a :: b :: l2 ++ [c]) with ((l1 ++ a :: b :: l2) ++ [c]) in Heq
      by (by rewrite <- app_assoc).
    apply app_inj_tail in Heq as [Heq _]. by eapply Hp.
Qed.

Lemma is_path_singleton x : is_path [x].
Proof. intros l1 a b l2. destruct l1 as [|? [|? ?]]; discriminate. Qed.

(** A walk from [x] to itself refutes well-foundedness. *)
Lemma path_plus l x z : is_path (x :: l ++ [z]) → tc (flip R) x z.
Proof.
  revert x. induction l as [|y l IH]; intros x Hp; simpl in *.
  - apply tc_once. by apply (Hp [] x z []).
  - eapply tc_l; [apply (Hp [] x y (l ++ [z])); done|].
    apply IH. by apply (is_path_suffix [x]).
Qed.

Lemma cycle_not_acc l x : is_cycle l → x ∈ l → ¬ Acc R x.
Proof.
  intros [Hp (h & m & ->)] Hx Hacc.
  assert (Hh : tc (flip R) h h) by (by eapply path_plus).
  assert (Hreach : x = h ∨ tc (flip R) h x ∧ tc (flip R) x h).
  { apply elem_of_cons in Hx as [->|Hx]; [by left|].
    apply elem_of_app in Hx as [Hx|Hx%list_elem_of_singleton]; [|by left]. right.
    apply list_elem_of_split in Hx as (m1 & m2 & ->). split.
    - apply (path_plus m1). intros l1 a b l2 Heq.
      apply (Hp l1 a b (l2 ++ m2 ++ [h])).
      replace (h :: (m1 ++ x :: m2) ++ [h]) with ((h :: m1 ++ [x]) ++ m2 ++ [h])
        by (simpl; by rewrite <- !app_assoc).
      by rewrite Heq, <- app_assoc.
    - apply (path_plus m2). apply (is_path_suffix (h :: m1)).
      by rewrite <- app_assoc in Hp. }
  assert (Hxx : tc (flip R) x x).
  { destruct Hreach as [->|[? ?]]; [done|by etrans]. }
  clear Hx Hreach Hh Hp. induction Hacc as [x _ IH].
  assert (∃ y, R y x ∧ tc (flip R) y y) as (y & Hy & Hyy); [|by eapply IH].
  inversion Hxx as [? ? H|? y ? H1 H2]; subst; [by exists x|].
  exists y. split; [done|]. by eapply tc_r.
Qed.

End paths.

(** ** The search is correct *)

Lemma slices_Index_spec l x :
  x ∈ l → ∃ i, slices_Index l x = Some i ∧ ∃ r, drop i l = x :: r.
Proof.
  induction l as [|y l IH]; intros Hx; [by apply not_elem_of_nil in Hx|]. simpl.
  destruct (decide (y = x)) as [->|Hne]; [exists O; split; [done|by exists l]|].
  apply elem_of_cons in Hx as [->|Hx]; [done|].
  destruct (IH Hx) as (i & -> & r & Hr). exists (S i). split; [done|by exists r].
Qed.

Section dfs_correct.
Context (deps : gmap string (list string)) (order : list string).
Context (Hclosed : ∀ id d, id ∈ order → d ∈ mget [] deps id → d ∈ order).

Record dfs_inv (s : dfs) : Prop := {
  inv_path : is_path (dep_of deps) (stack s);
  inv_gray : ∀ id, colorOf s id = gray ↔ id ∈ stack s;
  inv_nodup : NoDup (stack s);
  inv_black : ∀ id, colorOf s id = black → Acc (dep_of deps) id;
}.

(** Declared tasks not yet visited: what the recursion depth is bounded by. *)
Definition whites (s : dfs) : nat := length (filter (λ id, colorOf s id = white) order).

(** [s'] is a later state of the search with the same stack. *)
Definition dfs_later (s s' : dfs) : Prop :=
  stack s' = stack s ∧ (∀ id, colorOf s id = black → colorOf s' id = black) ∧
  (∀ id, colorOf s' id = white → colorOf s id = white).

(** What a visit of [id] from [s] returns. *)
Definition visit_post (s : dfs) (id : string) (r : option (dfs * option (list string))) : Prop :=
  match r with
  | None => False
  | Some (_, Some c) => is_cycle (dep_of deps) c
  | Some (s', None) => dfs_inv s' ∧ dfs_later s s' ∧ colorOf s' id = black
  end.

Lemma whites_le s s' :
  (∀ id, colorOf s' id = white → colorOf s id = white) → (whites s' <= whites s)%nat.
Proof. intros H. by apply count_filter_le. Qed.

Lemma whites_lt s s' id :
  id ∈ order → colorOf s id = white → colorOf s' id ≠ white →
  (∀ id, colorOf s' id = white → colorOf s id = white) → (whites s' < whites s)%nat.
Proof. intros Hid Hw Hnw H. by apply count_filter_lt with id. Qed.

Lemma closeCycle_cycle stk id dep :
  is_path (dep_of deps) (stk ++ [id]) → dep ∈ stk ++ [id] → dep_of deps dep id →
  is_cycle (dep_of deps) (closeCycle (stk ++ [id]) dep).
Proof.
  intros Hp Hin Hd. unfold closeCycle.
  destruct (slices_Index_spec _ _ Hin) as (i & -> & r & Hr). split.
  - apply (is_path_suffix _ (take i (stk ++ [id]))).
    rewrite app_assoc, take_drop. by apply is_path_snoc.
  - exists dep, r. by rewrite Hr.
Qed.

Lemma enter_inv s id :
  dfs_inv s → colorOf s id = white → is_path (dep_of deps) (stack s ++ [id]) →
  dfs_inv {| color := <[id := gray]> (color s); stack := stack s ++ [id] |}.
Proof.
  intros [Hp Hg Hn Hb] Hw Hpath. split; simpl; [done|..].
  - intros x. unfold colorOf. simpl. rewrite mget_insert, elem_of_app, list_elem_of_singleton.
    destruct (decide (id = x)) as [->|]; [intuition|]. rewrite <- Hg. intuition congruence.
  - apply NoDup_app. split_and!; [done| |apply NoDup_singleton].
    intros x Hx ->%list_elem_of_singleton. apply Hg in Hx. congruence.
  - intros x. unfold colorOf. simpl. rewrite mget_insert.
    destruct (decide (id = x)); [done|apply Hb].
Qed.

Lemma leave_inv s stk id :
  dfs_inv s → stack s = stk ++ [id] → (∀ d, dep_of deps d id → colorOf s d = black) →
  dfs_inv {| color := <[id := black]> (color s); stack := removelast (stack s) |}.
Proof.
  intros [Hp Hg Hn Hb] Hs Hd. rewrite Hs in *. rewrite removelast_last.
  apply NoDup_app in Hn as (Hn & Hdisj & _).
  split; simpl.
  - intros l1 x y l2 ->. apply (Hp l1 x y (l2 ++ [id])). by rewrite <- app_assoc.
  - intros x. unfold colorOf. simpl. rewrite mget_insert.
    destruct (decide (id = x)) as [->|Hne].
    + split; [done|]. intros Hx. exfalso. apply (Hdisj _ Hx). left.
    + change (mget white (color s) x) with (colorOf s x).
      rewrite Hg, elem_of_app, list_elem_of_singleton. intuition congruence.
  - done.
  - intros x. unfold colorOf. simpl. rewrite mget_insert.
    destruct (decide (id = x)) as [->|Hne]; [|apply Hb].
    intros _. constructor. intros d Hdx. apply Hb, Hd, Hdx.
Qed.

Lemma visitDeps_post fuel id stk ds s0 s :
  (∀ d s, d ∈ order → dfs_inv s → colorOf s d = white → is_path (dep_of deps) (stack s ++ [d]) →
     (whites s < fuel)%nat → visit_post s d (visit deps fuel d s)) →
  id ∈ order → (∀ d, d ∈ ds → dep_of deps d id) →
  (∀ d, dep_of deps d id → d ∈ ds ∨ colorOf s d = black) →
  dfs_inv s → stack s = stk ++ [id] → stack s0 = stk → colorOf s0 id = white →
  (∀ x, colorOf s0 x = black → colorOf s x = black) →
  (∀ x, colorOf s x = white → colorOf s0 x = white) → (whites s < fuel)%nat →
  visit_post s0 id (visitDeps (visit deps fuel) id ds s).
Proof.
  intros Hv Hid. revert s. induction ds as [|d ds IH];
    intros s Hds Hcov Hinv Hstk Hs0 Hw0 Hb0 Hwh Hfuel; simpl.
  - split_and!.
    + eapply leave_inv; [done..|]. intros d Hd. by destruct (Hcov d Hd) as [?%not_elem_of_nil|].
    + split_and!; simpl.
      * by rewrite Hstk, removelast_last.
      * intros x Hx. unfold colorOf. simpl. rewrite mget_insert.
        destruct (decide (id = x)); [done|by apply Hb0].
      * intros x. unfold colorOf. simpl. rewrite mget_insert.
        destruct (decide (id = x)); [done|apply Hwh].
    + unfold colorOf. simpl. by autorewrite with gomap.
  - assert (Hd : dep_of deps d id) by (apply Hds; left).
    assert (Hnext : ∀ s', colorOf s' d = black → (∀ x, colorOf s x = black → colorOf s' x = black) →
              ∀ d', dep_of deps d' id → d' ∈ ds ∨ colorOf s' d' = black).
    { intros s' Hbd Hmon d' Hd'. destruct (Hcov d' Hd') as [[->|?]%elem_of_cons|?]; auto. }
    destruct (colorOf s d) eqn:Ec.
    + assert (Hpost : visit_post s d (visit deps fuel d s)).
      { apply Hv; [by eapply Hclosed|done|done| |done]. rewrite Hstk.
        apply is_path_snoc; [|done]. rewrite <- Hstk. apply Hinv. }
      destruct (visit deps fuel d s) as [[s' [c|]]|]; [exact Hpost| |destruct Hpost].
      destruct Hpost as (Hinv' & (Hst' & Hb' & Hw') & Hblack).
      apply IH; [intros; apply Hds; by right|by apply Hnext|done|by rewrite Hst'|done..| | |].
      * intros x Hx. by apply Hb', Hb0.
      * intros x Hx. by apply Hwh, Hw'.
      * pose proof (whites_le s s' Hw'). lia.
    + simpl. rewrite Hstk. apply closeCycle_cycle; [|rewrite <- Hstk; by apply Hinv|done].
      rewrite <- Hstk. apply Hinv.
    + apply IH; [intros; apply Hds; by right|by apply Hnext|done..].
Qed.

Lemma visit_correct fuel id s :
  id ∈ order → dfs_inv s → colorOf s id = white → is_path (dep_of deps) (stack s ++ [id]) →
  (whites s < fuel)%nat → visit_post s id (visit deps fuel id s).
Proof.
  revert id s. induction fuel as [|fuel IH]; intros id s Hid Hinv Hw Hp Hf; [lia|]. simpl.
  set (s1 := {| color := <[id := gray]> (color s); stack := stack s ++ [id] |}).
  assert (Hmono : ∀ x, colorOf s1 x = white → colorOf s x = white).
  { intros x. unfold s1, colorOf. simpl. rewrite mget_insert. by destruct (decide _). }
  apply (visitDeps_post fuel id (stack s) _ s s1).
  - exact IH.
  - exact Hid.
  - intros d Hd. exact Hd.
  - intros d Hd. left. exact Hd.
  - by apply enter_inv.
  - reflexivity.
  - reflexivity.
  - exact Hw.
  - intros x Hx. unfold s1, colorOf. simpl. rewrite mget_insert.
    destruct (decide (id = x)) as [->|]; [congruence|done].
  - exact Hmono.
  - assert (whites s1 < whites s)%nat; [|lia].
    apply whites_lt with id; [done..| |done].
    unfold s1, colorOf. simpl. by autorewrite with gomap.
Qed.

End dfs_correct.

Section search.
Context (deps : gmap string (list string)) (order : list string).
Context (Hclosed : ∀ id d, id ∈ order → d ∈ mget [] deps id → d ∈ order).

Lemma visitAll_correct l s fuel :
  (∀ id, id ∈ l → id ∈ order) → dfs_inv deps s → stack s = [] →
  (whites order s < fuel)%nat →
  match visitAll deps fuel l s with
  | None => False
  | Some (_, Some c) => is_cycle (dep_of deps) c
  | Some (s', None) =>
      (∀ id, id ∈ l → Acc (dep_of deps) id) ∧ (∀ id, colorOf s id = black → colorOf s' id = black)
  end.
Proof.
  revert s. induction l as [|id l IH]; intros s Hl Hinv Hs Hf; simpl; [by split; [set_solver|]|].
  destruct (decide (colorOf s id = white)) as [Hw|Hnw].
  - assert (Hpost : visit_post deps s id (visit deps fuel id s)).
    { eapply visit_correct; [exact Hclosed|apply Hl; left|done..|rewrite Hs; apply is_path_singleton|done]. }
    destruct (visit deps fuel id s) as [[s' [c|]]|]; [exact Hpost| |destruct Hpost].
    destruct Hpost as (Hinv' & (Hst & Hb & Hwh) & Hblack).
    specialize (IH s'). destruct (visitAll deps fuel l s') as [[s'' [c|]]|].
    1, 3: apply IH; [set_solver|done|congruence|pose proof (whites_le order s s' Hwh); lia].
    destruct IH as [Hall Hmon]; [set_solver|done|congruence|pose proof (whites_le order s s' Hwh); lia|].
    split; [|auto]. intros x [->|Hx]%elem_of_cons; [by apply Hinv'|auto].
  - assert (Hblack : colorOf s id = black).
    { destruct (colorOf s id) eqn:E; [done| |done]. apply Hinv in E. rewrite Hs in E.
      by apply not_elem_of_nil in E. }
    specialize (IH s). destruct (visitAll deps fuel l s) as [[s'' [c|]]|].
    1, 3: apply IH; [set_solver|done..].
    destruct IH as [Hall Hmon]; [set_solver|done..|].
    split; [|done]. intros x [->|Hx]%elem_of_cons; [by apply Hinv|auto].
Qed.

(** The search runs within its fuel; what it returns is a cycle, or a proof that
    there is none. *)
Lemma findTaskCycle_correct :
  match findTaskCycle deps order with
  | None => False
  | Some (Some c) => is_cycle (dep_of deps) c
  | Some None => ∀ id, id ∈ order → Acc (dep_of deps) id
  end.
Proof.
  unfold findTaskCycle. set (s0 := {| color := ∅; stack := [] |}).
  assert (Hinv : dfs_inv deps s0).
  { split; simpl; [intros l1 x y l2 Heq; by destruct l1|..|constructor|].
    - intros id. unfold colorOf. simpl. rewrite mget_empty. set_solver.
    - intros id. unfold colorOf. simpl. by autorewrite with gomap. }
  assert (Hw : (whites order s0 < S (length order))%nat).
  { unfold whites. pose proof (list.length_filter (λ id, colorOf s0 id = white) order). lia. }
  pose proof (visitAll_correct order s0 _ (λ _ H, H) Hinv eq_refl Hw) as H.
  destruct (visitAll _ _ _ _) as [[s [c|]]|]; simpl; [exact H|apply H|exact H].
Qed.

End search.

(** ** Validation is exact *)

(** [d] is a declared dependency of the task [x] of [ts]. *)
Definition depends (ts : list TaskSpec) (d x : string) : Prop :=
  ∃ t, t ∈ ts ∧ TaskID t = x ∧ d ∈ DependsOn t.

(** A graph the scheduler can execute to the end. *)
Record well_formed (ts : list TaskSpec) : Prop := {
  wf_ids : NoDup (map TaskID ts);
  wf_declared : ∀ d x, depends ts d x → d ∈ map TaskID ts;
  wf_acyclic : ∀ x, x ∈ map TaskID ts → Acc (depends ts) x;
}.

Lemma collectTasks_spec ts byID order :
  match collectTasks ts byID order with
  | inl e => ¬ (NoDup (map TaskID ts) ∧ ∀ id, id ∈ map TaskID ts → byID !! id = None)
             ∧ ∃ id l1 l2, e = ErrDuplicateTaskID id ∧ map TaskID ts = l1 ++ id :: l2 ∧ (id ∈ l1 ∨ is_Some (byID !! id))
  | inr (byID', order') =>
      NoDup (map TaskID ts) ∧ (∀ id, id ∈ map TaskID ts → byID !! id = None) ∧
      order' = order ++ map TaskID ts ∧
      (∀ t, t ∈ ts → byID' !! TaskID t = Some (DependsOn t)) ∧
      (∀ id, id ∉ map TaskID ts → byID' !! id = byID !! id)
  end.
Proof.
  revert byID order. induction ts as [|t ts IH]; intros byID order; simpl.
  { rewrite app_nil_r. split_and!; [constructor|set_solver|done|set_solver|done]. }
  destruct (byID !! TaskID t) eqn:E.
  { split; [|exists (TaskID t), [], (map TaskID ts); split_and!; [done|done|right; by eexists]].
    intros [_ H]. specialize (H (TaskID t) ltac:(left)). congruence. }
  specialize (IH (<[TaskID t:=DependsOn t]> byID) (order ++ [TaskID t])).
  destruct (collectTasks ts _ _) as [e|[byID' order']].
  - destruct IH as [Hn (id & l1 & l2 & -> & Hl & Hid)]. split; [|exists id, (TaskID t :: l1), l2; split_and!; [done|by rewrite Hl|]].
    2: { destruct Hid as [Hid|Hid]; [left; by right|]. destruct (decide (TaskID t = id)) as [->|Hne]; [left; left|].
         right. by rewrite lookup_insert_ne in Hid. }
    intros [Hnd H]. apply NoDup_cons in Hnd as [Ht Hnd]. apply Hn. split; [done|].
    intros x Hx. rewrite lookup_insert_ne; [apply H; by right|]. by intros <-.
  - destruct IH as (Hnd & Hnone & -> & Hin & Hout).
    assert (Ht : TaskID t ∉ map TaskID ts).
    { intros Ht. specialize (Hnone _ Ht). rewrite lookup_insert_eq in Hnone. done. }
    split_and!.
    + by apply NoDup_cons.
    + intros id [->|Hid]%elem_of_cons; [done|].
      specialize (Hnone _ Hid). rewrite lookup_insert_ne in Hnone; [done|]. by intros <-.
    + by rewrite <- app_assoc.
    + intros u [->|Hu]%elem_of_cons; [|by apply Hin].
      rewrite Hout by done. by rewrite lookup_insert_eq.
    + intros id Hid. rewrite Hout by set_solver. rewrite lookup_insert_ne; [done|set_solver].
Qed.

Lemma firstUnknown_spec byID order :
  match firstUnknown byID order with
  | None => ∀ id d, id ∈ order → d ∈ mget [] byID id → is_Some (byID !! d)
  | Some e => ∃ id d, e = ErrUnknownDependency id d ∧ id ∈ order ∧
                d ∈ mget [] byID id ∧ byID !! d = None
  end.
Proof.
  unfold firstUnknown. induction order as [|id l IH]; simpl; [set_solver|].
  unfold unknownDep at 1. pose proof (list_elem_of_filter (λ dep, byID !! dep = None) (mget [] byID id)) as Hf.
  destruct (filter _ _) as [|d ds]; simpl.
  - destruct (head _) as [e|].
    + destruct IH as (x & d & -> & Hx & Hd). exists x, d. split_and!; [done|by right|apply Hd..].
    + intros x d [->|Hx]%elem_of_cons Hd; [|by eapply IH].
      destruct (byID !! d) eqn:E; [done|]. exfalso.
      apply (not_elem_of_nil d), Hf. done.
  - exists id, d. destruct (proj1 (Hf d)) as [? ?]; [left|]. split_and!; [done|left|done..].
Qed.

Section validate.
Context (ts : list TaskSpec).

(** The map the first loop leaves has the edges of the task list. *)
Lemma byID_depends byID :
  NoDup (map TaskID ts) →
  (∀ t, t ∈ ts → byID !! TaskID t = Some (DependsOn t)) →
  (∀ id, id ∉ map TaskID ts → byID !! id = None) →
  ∀ d x, dep_of byID d x ↔ depends ts d x.
Proof.
  intros Hnd Hin Hout d x. unfold dep_of, depends, mget. split.
  - intros Hd. destruct (decide (x ∈ map TaskID ts)) as [Hx|Hx].
    + apply list_elem_of_fmap_1 in Hx as (t & -> & Ht). exists t.
      rewrite Hin in Hd by done. done.
    + rewrite Hout in Hd by done. by apply not_elem_of_nil in Hd.
  - intros (t & Ht & <- & Hd). by rewrite Hin.
Qed.

Lemma Acc_iff {A} (R R' : A → A → Prop) x : (∀ a b, R a b ↔ R' a b) → Acc R x → Acc R' x.
Proof. intros H. induction 1 as [x _ IH]. constructor. intros y Hy. by apply IH, H. Qed.

(** The result of the validation, whichever it is, is right. *)
Lemma validateGraph_spec :
  match validateGraph ts with
  | None => False
  | Some None => well_formed ts
  | Some (Some (ErrDuplicateTaskID id)) => ∃ l1 l2, map TaskID ts = l1 ++ id :: l2 ∧ id ∈ l1
  | Some (Some (ErrUnknownDependency id d)) => depends ts d id ∧ d ∉ map TaskID ts
  | Some (Some (ErrCyclicDAG c)) =>
      is_cycle (depends ts) c
  end.
Proof.
  unfold validateGraph. pose proof (collectTasks_spec ts ∅ []) as Hc.
  destruct (collectTasks ts ∅ []) as [e|[byID order]].
  { destruct Hc as [_ (id & l1 & l2 & -> & Hl & Hid)]. exists l1, l2. split; [done|].
    destruct Hid as [?|Hid]; [done|]. rewrite lookup_empty in Hid. by destruct Hid. }
  destruct Hc as (Hnd & _ & -> & Hin & Hout). simpl.
  assert (Hdep := byID_depends byID Hnd Hin ltac:(intros; rewrite Hout by done; apply lookup_empty)).
  pose proof (firstUnknown_spec byID (map TaskID ts)) as Hu.
  destruct (firstUnknown byID (map TaskID ts)) as [e|].
  { destruct Hu as (id & d & -> & Hid & Hd & Hnone). split; [by apply Hdep|].
    intros Hx. apply list_elem_of_fmap_1 in Hx as (t & -> & Ht). rewrite Hin in Hnone; done. }
  assert (Hcl : ∀ id d, id ∈ map TaskID ts → d ∈ mget [] byID id → d ∈ map TaskID ts).
  { intros id d Hid Hd. destruct (decide (d ∈ map TaskID ts)) as [|Hn]; [done|].
    destruct (Hu id d Hid Hd) as [x Hx]. rewrite Hout, lookup_empty in Hx by done. done. }
  pose proof (findTaskCycle_correct byID (map TaskID ts) Hcl) as Hs.
  destruct (findTaskCycle byID (map TaskID ts)) as [[c|]|]; simpl; [| |done].
  - destruct Hs as [Hp Hc]. split; [|done]. intros l1 x y l2 Heq. by eapply Hdep, Hp.
  - split; [done|..].
    + intros d x Hd. pose proof Hd as (t & Ht & <- & _).
      eapply Hcl; [|by apply Hdep, Hd]. by apply list_elem_of_fmap_2.
    + intros x Hx. eapply Acc_iff; [exact Hdep|by apply Hs].
Qed.

End validate.

Lemma validateGraph_wf ts : validateGraph ts = Some None → well_formed ts.
Proof. intros H. pose proof (validateGraph_spec ts) as Hs. by rewrite H in Hs. Qed.

(** What each error says about the task list: the id is that of an earlier task too, the
    dependency is declared and names no task, the cycle is one of the graph. *)
Definition defect (ts : list TaskSpec) (e : GraphError) : Prop :=
  match e with
  | ErrDuplicateTaskID id => ∃ l1 l2, map TaskID ts = l1 ++ id :: l2 ∧ id ∈ l1
  | ErrUnknownDependency id d => depends ts d id ∧ d ∉ map TaskID ts
  | ErrCyclicDAG c => is_cycle (depends ts) c
  end.

Lemma defect_not_well_formed ts e : defect ts e → ¬ well_formed ts.
Proof.
  intros He [Hids Hdecl Hacyc]. destruct e as [id|id d|c]; simpl in He.
  - destruct He as (l1 & l2 & Hl & Hid). rewrite Hl in Hids. apply NoDup_app in Hids as (_ & Hdis & _).
    apply (Hdis id Hid). left.
  - destruct He as [Hd Hn]. by apply Hn, (Hdecl d id).
  - assert (Hc := He). destruct He as [Hp (x & m & ->)].
    eapply cycle_not_acc; [exact Hc|left|]. apply Hacyc.
    destruct m as [|y m].
    + eapply Hdecl. by apply (Hp [] x x []).
    + destruct (exists_last (l := y :: m) ltac:(done)) as (m' & z & E). rewrite E in Hp.
      apply (Hdecl x z), (Hp (x :: m') z x []). simpl. by rewrite <- app_assoc.
Qed.

(** C1: graph validation terminates on every task list, accepts exactly the
    well-formed ones (distinct ids, every dependency declared, no cycle), and
    otherwise reports a defect the list really has: a duplicated id, an
    undeclared dependency, or an actual dependency cycle. *)
Theorem validateGraph_exact ts :
  (validateGraph ts = Some None ↔ well_formed ts) ∧
  (¬ well_formed ts → ∃ e, validateGraph ts = Some (Some e) ∧ defect ts e).
Proof.
  pose proof (validateGraph_spec ts) as H.
  destruct (validateGraph ts) as [[e|]|]; [| |done].
  - assert (He : defect ts e) by (by destruct e). split.
    + split; [done|]. intros Hwf. by destruct (defect_not_well_formed ts e He).
    + intros _. by exists e.
  - split; [done|]. intros Hn. by destruct Hn.
Qed.
