(* ===== verification/Planner.v ===== *)
(** * The run planner

    [internal/scheduler/plan.go] (PlanRun, FinalizeRun and their gates) and
    [internal/scheduler/dispatch_backoff.go], over the planning view of a run
    ([RunState] in [internal/scheduler/scheduler.go]).

    A [time.Time] is its distance in nanoseconds from Go's zero time, so
    [IsZero] is equality with 0 and [Before] is [<]; a [time.Duration] is a
    64-bit count of nanoseconds.  Go maps are finite maps read with [mget]; a
    map of pointers holds an entry exactly for the non-nil ones. *)

From Stdlib Require Import ZArith Lia.
From stdpp Require Import base numbers strings gmap option list.
From S2P Require Import Prelude TaskStates Dag.

Open Scope Z_scope.

(** ** Data *)

Record RunState := {
  RunID : string;
  DagID : string;
  TenantID : string;
  Tasks : list TaskSpec;
  States : gmap string TaskState;
  Tries : gmap string Z;
  MaxTries : gmap string Z;
  EndedAt : gmap string Z;
  RetryDelaySeconds : gmap string Z;
  RescheduleAt : gmap string Z;
  NextDispatchAt : gmap string Z;
  DispatchAttempts : gmap string Z;
  InfraFailed : gmap string bool;
  InfraAttempts : gmap string Z;
  Now : Z;
  MaxActiveTasks : Z;
  ActiveTaskCount : Z;
  PoolsEnabled : bool;
  PoolBudgets : gmap string Z;
  PoolActive : gmap string Z;
}.

Record PlannedTransition := { pt_task : string; pt_to : TaskState }.

#[export] Instance PlannedTransition_eq_dec : EqDecision PlannedTransition.
Proof. solve_decision. Defined.

(** ** Durations and back-off *)

Definition Nanosecond : Z := 1.
Definition Second : Z := 1000000000.
Definition Minute : Z := 60 * Second.

Definition dispatchBackoffBase : Z := 5 * Second.
Definition dispatchBackoffCap : Z := 5 * Minute.
Definition dispatchMaxAttempts : Z := 6.
Definition infraMaxAttempts : Z := 6.

(** The [for i := 1; i < attempts; i++] loop with [n] iterations to go. *)
Fixpoint dispatchBackoff_loop (n : nat) (d : Z) : Z :=
  match n with
  | O => d
  | S n' =>
    let d := d * 2 in
    if dispatchBackoffCap <=? d then dispatchBackoffCap
    else dispatchBackoff_loop n' d
  end.

Definition dispatchBackoff (attempts : Z) : Z :=
  dispatchBackoff_loop (Z.to_nat (attempts - 1)) dispatchBackoffBase.

Definition infraReplaceJitterWindow : Z := 30 * Second.

Definition InfraReplaceMaxDelay : Z :=
  dispatchBackoff infraMaxAttempts + infraReplaceJitterWindow.

(** [hash/fnv]'s 64-bit FNV-1a over the bytes of a string. *)
Definition fnv_offset64 : Z := 14695981039346656037.
Definition fnv_prime64 : Z := 1099511628211.

Definition fnv64a (s : string) : Z :=
  fold_left
    (λ h c, (Z.lxor h (Z.of_N (Ascii.N_of_ascii c)) * fnv_prime64) mod 2 ^ 64)
    (String.list_ascii_of_string s) fnv_offset64.

Definition NUL : string := String (Ascii.ascii_of_nat 0) EmptyString.

Definition infraReplaceJitter (runID taskID : string) : Z :=
  fnv64a (runID +:+ NUL +:+ taskID) mod infraReplaceJitterWindow.

(** ** Gates *)

Definition retriable (run : RunState) (taskID : string) : bool :=
  mget 0 (Tries run) taskID <? mget 0 (MaxTries run) taskID.

Definition IsZero (t : Z) : bool := t =? 0.
Definition Before (t u : Z) : bool := t <? u.

Definition readyToRetry (run : RunState) (taskID : string) : bool :=
  let delay := mget 0 (RetryDelaySeconds run) taskID in
  if delay <=? 0 then true
  else match EndedAt run !! taskID with
  | None => true
  | Some ended =>
    if IsZero (Now run) then true
    else negb (Before (Now run) (ended + wrap64 (delay * Second)))
  end.

Definition readyToDispatch (run : RunState) (taskID : string) : bool :=
  match NextDispatchAt run !! taskID with
  | None => true
  | Some at_ =>
    if IsZero (Now run) then true else negb (Before (Now run) at_)
  end.

Definition readyToReschedule (run : RunState) (taskID : string) : bool :=
  match RescheduleAt run !! taskID with
  | None => true
  | Some at_ =>
    if IsZero (Now run) then true else negb (Before (Now run) at_)
  end.

Definition infraReplaceable (run : RunState) (taskID : string) : bool :=
  mget false (InfraFailed run) taskID &&
  (mget 0 (InfraAttempts run) taskID <? infraMaxAttempts).

Definition readyToInfraReplace (run : RunState) (taskID : string) : bool :=
  match EndedAt run !! taskID with
  | None => true
  | Some ended =>
    if IsZero (Now run) then true
    else
      let delay := dispatchBackoff (mget 0 (InfraAttempts run) taskID + 1)
                   + infraReplaceJitter (RunID run) taskID in
      negb (Before (Now run) (ended + delay))
  end.

Definition admissionHeadroom (run : RunState) : Z :=
  if MaxActiveTasks run <=? 0 then max_int64
  else
    let headroom := MaxActiveTasks run - ActiveTaskCount run in
    if 0 <? headroom then headroom else 0.

(** ** Pools *)

Definition defaultPoolName : string := "default_pool".

Definition PoolKey (tenant pool : string) : string := tenant +:+ NUL +:+ pool.

Definition resolvePool (pool : string) : string :=
  if bool_decide (pool = "") then defaultPoolName else pool.

Definition poolKeyFor (run : RunState) (t : TaskSpec) : string :=
  if negb (PoolsEnabled run) then ""
  else PoolKey (TenantID run) (resolvePool (Pool t)).

Definition poolHasSlot (run : RunState) (poolKey : string)
    (promotedByPool : gmap string Z) : bool :=
  if bool_decide (poolKey = "") then true
  else
    let budget := mget 0 (PoolBudgets run) poolKey in
    if budget <=? 0 then true
    else mget 0 (PoolActive run) poolKey + mget 0 promotedByPool poolKey <? budget.

(** ** The retry rail *)

Record retryAcc := {
  ra_out : list PlannedTransition;
  ra_effective : gmap string TaskState;
  ra_decided : gset string;
}.

(** One iteration of the loop of [planRetryTransitions]. *)
Definition planRetryTask (run : RunState) (acc : retryAcc) (t : TaskSpec) : retryAcc :=
  let id := TaskID t in
  let '(Build_retryAcc out eff dec) := acc in
  let release :=
    {| ra_out := out ++ [{| pt_task := id; pt_to := TaskStateNone |}];
       ra_effective := <[id := TaskStateNone]> eff;
       ra_decided := {[id]} ∪ dec |} in
  let hold := {| ra_out := out; ra_effective := eff; ra_decided := {[id]} ∪ dec |} in
  match mget TaskStateZero (States run) id with
  | TaskStateFailed =>
    if mget false (InfraFailed run) id then
      if infraReplaceable run id then
        if readyToInfraReplace run id then release
        else {| ra_out := out;
                ra_effective := <[id := TaskStateUpForRetry]> eff;
                ra_decided := {[id]} ∪ dec |}
      else hold
    else if retriable run id then
      {| ra_out := out ++ [{| pt_task := id; pt_to := TaskStateUpForRetry |}];
         ra_effective := <[id := TaskStateUpForRetry]> eff;
         ra_decided := {[id]} ∪ dec |}
    else acc
  | TaskStateUpForRetry => if negb (readyToRetry run id) then hold else release
  | TaskStateUpForReschedule => if negb (readyToReschedule run id) then hold else release
  | _ => acc
  end.

Definition planRetryTransitions (run : RunState) : retryAcc :=
  fold_left (planRetryTask run) (Tasks run)
    {| ra_out := []; ra_effective := States run; ra_decided := ∅ |}.

(** ** The main loop *)

Definition triggerRuleOf (t : TaskSpec) : TriggerRule :=
  match Rule t with
  | TriggerRuleUnset => TriggerRuleAllSuccess
  | r => r
  end.

Definition decideStart (t : TaskSpec) (deps : list string)
    (states : gmap string TaskState) : option TaskState :=
  match EvaluateTriggerRule (triggerRuleOf t)
          (map (mget TaskStateZero states) deps) with
  | DecisionSchedule => Some TaskStateScheduled
  | DecisionSkip => Some TaskStateSkipped
  | DecisionUpstreamFailed => Some TaskStateUpstreamFailed
  | DecisionWait => None
  end.

(** The [upstreams] map: a later task with the same id overwrites. *)
Definition upstreamsOf (run : RunState) : gmap string (list string) :=
  fold_left (λ m t, <[TaskID t := DependsOn t]> m) (Tasks run) ∅.

Record planAcc := {
  pa_out : list PlannedTransition;
  pa_promoted : Z;
  pa_poolPromoted : gmap string Z;
}.

(** One iteration of the main loop of [PlanRun]. *)
Definition planTask (run : RunState) (effective : gmap string TaskState)
    (decided : gset string) (upstreams : gmap string (list string)) (headroom : Z)
    (acc : planAcc) (t : TaskSpec) : planAcc :=
  let id := TaskID t in
  if bool_decide (id ∈ decided) then acc
  else match mget TaskStateZero effective id with
  | TaskStateNone =>
    match decideStart t (mget [] upstreams id) effective with
    | Some to =>
      {| pa_out := pa_out acc ++ [{| pt_task := id; pt_to := to |}];
         pa_promoted := pa_promoted acc;
         pa_poolPromoted := pa_poolPromoted acc |}
    | None => acc
    end
  | TaskStateScheduled =>
    if negb (readyToDispatch run id) then acc
    else if headroom <=? pa_promoted acc then acc
    else
      let pk := poolKeyFor run t in
      if negb (poolHasSlot run pk (pa_poolPromoted acc)) then acc
      else
        {| pa_out := pa_out acc ++ [{| pt_task := id; pt_to := TaskStateQueued |}];
           pa_promoted := pa_promoted acc + 1;
           pa_poolPromoted :=
             if bool_decide (pk = "") then pa_poolPromoted acc
             else <[pk := mget 0 (pa_poolPromoted acc) pk + 1]> (pa_poolPromoted acc) |}
  | _ => acc
  end.

Definition planMain (run : RunState) : planAcc :=
  let r := planRetryTransitions run in
  fold_left
    (planTask run (ra_effective r) (ra_decided r) (upstreamsOf run) (admissionHeadroom run))
    (Tasks run)
    {| pa_out := ra_out r; pa_promoted := 0; pa_poolPromoted := ∅ |}.

Definition PlanRun (run : RunState) : list PlannedTransition := pa_out (planMain run).

(** ** Finalization *)

(** The loop of [FinalizeRun] over the remaining tasks; [None] is the [false]
    result, [Some] the terminal state of the run. *)
Fixpoint FinalizeRun_loop (run : RunState) (ts : list TaskSpec) (anyFailed : bool)
    : option DagRunState :=
  match ts with
  | [] => Some (if anyFailed then DagRunStateFailed else DagRunStateSuccess)
  | t :: rest =>
    let id := TaskID t in
    let st := mget TaskStateZero (States run) id in
    let recoverable :=
      if bool_decide (st = TaskStateFailed) then
        if mget false (InfraFailed run) id then infraReplaceable run id
        else retriable run id
      else false in
    if recoverable then None
    else if negb (IsTerminal st) then None
    else
      FinalizeRun_loop run rest
        (if bool_decide (st = TaskStateFailed) || bool_decide (st = TaskStateUpstreamFailed)
         then true else anyFailed)
  end.

Definition FinalizeRun (run : RunState) : option DagRunState :=
  FinalizeRun_loop run (Tasks run) false.
