(* ===== verification/PlannerLemmas.v ===== *)
(** * The planner in closed form

    The two loops of [PlanRun] mutate maps and slices; this file computes what
    they leave behind: the effective state of every task, the set of tasks the
    retry rail decides, the transitions each loop emits, and the counters of the
    admission gates.  The properties of [PlannerProps] rest on these lemmas. *)

From Stdlib Require Import ZArith Lia.
From stdpp Require Import base numbers strings gmap option list.
From S2P Require Import Prelude TaskStates Dag Planner.

Open Scope Z_scope.

Definition stateOf (run : RunState) (id : string) : TaskState :=
  mget TaskStateZero (States run) id.

(** A failed task the planner will still bring back: an infra failure within
    its re-place budget, or an application failure within its retry budget. *)
Definition recoverable (run : RunState) (id : string) : bool :=
  bool_decide (stateOf run id = TaskStateFailed) &&
  (if mget false (InfraFailed run) id then infraReplaceable run id else retriable run id).

(** What the retry rail does with one task. *)
Definition retryDecision (run : RunState) (id : string)
    : option TaskState (* transition *) * TaskState (* effective *) * bool (* decided *) :=
  let st := stateOf run id in
  match st with
  | TaskStateFailed =>
    if mget false (InfraFailed run) id then
      if infraReplaceable run id then
        if readyToInfraReplace run id
        then (Some TaskStateNone, TaskStateNone, true)
        else (None, TaskStateUpForRetry, true)
      else (None, TaskStateFailed, true)
    else if retriable run id then (Some TaskStateUpForRetry, TaskStateUpForRetry, true)
    else (None, TaskStateFailed, false)
  | TaskStateUpForRetry =>
    if readyToRetry run id then (Some TaskStateNone, TaskStateNone, true)
    else (None, TaskStateUpForRetry, true)
  | TaskStateUpForReschedule =>
    if readyToReschedule run id then (Some TaskStateNone, TaskStateNone, true)
    else (None, TaskStateUpForReschedule, true)
  | _ => (None, st, false)
  end.

Definition retryTransition run id := (retryDecision run id).1.1.
Definition effectiveOf run id := (retryDecision run id).1.2.
Definition decidedOf run id := (retryDecision run id).2.

Definition emit (id : string) (o : option TaskState) : list PlannedTransition :=
  match o with
  | Some to => [{| pt_task := id; pt_to := to |}]
  | None => []
  end.

Lemma planRetryTask_spec run acc t :
  ra_out (planRetryTask run acc t) = ra_out acc ++ emit (TaskID t) (retryTransition run (TaskID t))
  ∧ ra_decided (planRetryTask run acc t) =
      (if decidedOf run (TaskID t) then {[TaskID t]} ∪ ra_decided acc else ra_decided acc)
  ∧ (mget TaskStateZero (ra_effective acc) (TaskID t) ∈ [stateOf run (TaskID t); effectiveOf run (TaskID t)] →
     ∀ id, mget TaskStateZero (ra_effective (planRetryTask run acc t)) id =
       if decide (TaskID t = id) then effectiveOf run id
       else mget TaskStateZero (ra_effective acc) id).
Proof.
  destruct acc as [out eff dec].
  unfold planRetryTask, retryTransition, effectiveOf, decidedOf, retryDecision, stateOf.
  simpl.
  destruct (mget TaskStateZero (States run) (TaskID t)) eqn:E; simpl;
    repeat case_goal; simpl; rewrite ?app_nil_r; split_and!; try done;
    intros Hin id; destruct (decide (TaskID t = id)) as [<-|Hne]; try done;
    autorewrite with gomap; try done;
    rewrite ?E; repeat case_goal; simplify_eq/=; try done;
    apply elem_of_cons in Hin as [->|Hin]; try done; by apply list_elem_of_singleton in Hin.
Qed.

Lemma planRetry_fold run ts acc :
  (∀ id, mget TaskStateZero (ra_effective acc) id ∈ [stateOf run id; effectiveOf run id]) →
  let acc' := fold_left (planRetryTask run) ts acc in
  ra_out acc' = ra_out acc ++ concat (map (λ t, emit (TaskID t) (retryTransition run (TaskID t))) ts)
  ∧ (∀ id, id ∈ ra_decided acc' ↔
       id ∈ ra_decided acc ∨ (id ∈ map TaskID ts ∧ decidedOf run id = true))
  ∧ (∀ id, mget TaskStateZero (ra_effective acc') id =
       if decide (id ∈ map TaskID ts) then effectiveOf run id
       else mget TaskStateZero (ra_effective acc) id).
Proof.
  revert acc. induction ts as [|t ts IH]; intros acc Hacc; simpl.
  - rewrite app_nil_r. split_and!; [done|set_solver|done].
  - destruct (planRetryTask_spec run acc t) as (Ho & Hd & He).
    specialize (He (Hacc _)).
    destruct (IH (planRetryTask run acc t)) as (Ho' & Hd' & He').
    { intros id. rewrite He. destruct (decide _); [set_solver|apply Hacc]. }
    split_and!.
    + rewrite Ho', Ho, <- app_assoc. done.
    + intros id. rewrite Hd', Hd, elem_of_cons.
      destruct (decidedOf run (TaskID t)) eqn:E;
        rewrite ?elem_of_union, ?elem_of_singleton; split;
        intuition (subst; auto; congruence).
    + intros id. rewrite He', He.
      destruct (decide (id ∈ TaskID t :: map TaskID ts)) as [Hin|Hnin].
      * destruct (decide (id ∈ map TaskID ts)); [done|].
        apply elem_of_cons in Hin as [->|]; [|done]. by rewrite decide_True.
      * rewrite decide_False by set_solver. rewrite decide_False by set_solver. done.
Qed.

Section closed_form.
Context (run : RunState).

Definition retryOut : list PlannedTransition :=
  concat (map (λ t, emit (TaskID t) (retryTransition run (TaskID t))) (Tasks run)).

Lemma planRetry_out : ra_out (planRetryTransitions run) = retryOut.
Proof.
  unfold planRetryTransitions. edestruct planRetry_fold as (-> & _ & _); [|done].
  intros id. simpl. set_solver.
Qed.

Lemma planRetry_decided id :
  id ∈ ra_decided (planRetryTransitions run) ↔
  id ∈ map TaskID (Tasks run) ∧ decidedOf run id = true.
Proof.
  unfold planRetryTransitions. edestruct planRetry_fold as (_ & -> & _); simpl.
  - intros ?. set_solver.
  - set_solver.
Qed.

Lemma planRetry_effective id :
  mget TaskStateZero (ra_effective (planRetryTransitions run)) id =
  if decide (id ∈ map TaskID (Tasks run)) then effectiveOf run id else stateOf run id.
Proof.
  unfold planRetryTransitions. edestruct planRetry_fold as (_ & _ & ->); [|done].
  intros ?. simpl. set_solver.
Qed.

End closed_form.

(** An undecided task keeps its state. *)
Lemma undecided_effective run id :
  decidedOf run id = false → effectiveOf run id = stateOf run id ∧ retryTransition run id = None.
Proof.
  unfold decidedOf, effectiveOf, retryTransition, retryDecision.
  destruct (stateOf run id) eqn:E; repeat case_goal; simpl; intros; by simplify_eq/=.
Qed.

(** The effective state is terminal only for a task that stays as it is. *)
Lemma effective_terminal run id :
  IsTerminal (effectiveOf run id) = true →
  effectiveOf run id = stateOf run id ∧ recoverable run id = false.
Proof.
  unfold effectiveOf, retryDecision, recoverable.
  destruct (stateOf run id) eqn:E; repeat case_goal; simpl; intros; simplify_eq/=; done.
Qed.

(** ** The main loop *)

Section main_loop.
Context (run : RunState).

Definition step (acc : planAcc) (t : TaskSpec) : planAcc :=
  planTask run (ra_effective (planRetryTransitions run))
    (ra_decided (planRetryTransitions run)) (upstreamsOf run) (admissionHeadroom run) acc t.

Definition acc0 : planAcc :=
  {| pa_out := ra_out (planRetryTransitions run); pa_promoted := 0; pa_poolPromoted := ∅ |}.

Lemma planMain_unfold : planMain run = fold_left step (Tasks run) acc0.
Proof. done. Qed.

(** Rule induction over the main loop: [I done acc] holds of the tasks already
    visited and the accumulator. *)
Lemma planMain_ind (I : list TaskSpec → planAcc → Prop) :
  I [] acc0 →
  (∀ seen t rest acc, Tasks run = seen ++ t :: rest → I seen acc → I (seen ++ [t]) (step acc t)) →
  I (Tasks run) (planMain run).
Proof.
  intros H0 Hs. rewrite planMain_unfold.
  assert (Hgen : ∀ rest seen acc, Tasks run = seen ++ rest → I seen acc →
            I (Tasks run) (fold_left step rest acc)).
  { induction rest as [|t rest IH]; intros seen acc Heq HI; simpl.
    - by rewrite app_nil_r in Heq; subst.
    - apply (IH (seen ++ [t])); [by rewrite <- app_assoc|by eapply Hs]. }
  by apply (Hgen _ []).
Qed.

(** What one iteration may do. *)
Inductive step_case (acc : planAcc) (t : TaskSpec) : planAcc → Prop :=
  | sc_skip : step_case acc t acc
  | sc_start to :
      decidedOf run (TaskID t) = false →
      stateOf run (TaskID t) = TaskStateNone →
      decideStart t (mget [] (upstreamsOf run) (TaskID t))
        (ra_effective (planRetryTransitions run)) = Some to →
      step_case acc t
        {| pa_out := pa_out acc ++ [{| pt_task := TaskID t; pt_to := to |}];
           pa_promoted := pa_promoted acc;
           pa_poolPromoted := pa_poolPromoted acc |}
  | sc_queue :
      decidedOf run (TaskID t) = false →
      stateOf run (TaskID t) = TaskStateScheduled →
      readyToDispatch run (TaskID t) = true →
      pa_promoted acc < admissionHeadroom run →
      poolHasSlot run (poolKeyFor run t) (pa_poolPromoted acc) = true →
      step_case acc t
        {| pa_out := pa_out acc ++ [{| pt_task := TaskID t; pt_to := TaskStateQueued |}];
           pa_promoted := pa_promoted acc + 1;
           pa_poolPromoted :=
             if bool_decide (poolKeyFor run t = "") then pa_poolPromoted acc
             else <[poolKeyFor run t := mget 0 (pa_poolPromoted acc) (poolKeyFor run t) + 1]>
                    (pa_poolPromoted acc) |}.

Lemma step_cases acc t : t ∈ Tasks run → step_case acc t (step acc t).
Proof.
  intros Ht.
  assert (Hid : TaskID t ∈ map TaskID (Tasks run)) by (by apply list_elem_of_fmap_2).
  unfold step, planTask. cbv zeta.
  case_bool_decide as Hd; [constructor|].
  assert (decidedOf run (TaskID t) = false) as Hdec.
  { destruct (decidedOf run (TaskID t)) eqn:E; [|done].
    destruct Hd. by apply planRetry_decided. }
  destruct (undecided_effective run (TaskID t) Hdec) as [Heff _].
  rewrite planRetry_effective, decide_True, Heff by done.
  destruct (stateOf run (TaskID t)) eqn:E; try constructor.
  - destruct (decideStart _ _ _) eqn:Es; [by apply sc_start|constructor].
  - destruct (readyToDispatch run (TaskID t)) eqn:Er; simpl; [|constructor].
    destruct (admissionHeadroom run <=? pa_promoted acc) eqn:Eh; [constructor|].
    destruct (poolHasSlot _ _ _) eqn:Ep; simpl; [|constructor].
    zbool. by apply sc_queue.
Qed.

End main_loop.

(** ** Task ids *)

Lemma fold_insert_deps ts m id :
  id ∉ map TaskID ts →
  fold_left (λ m t, <[TaskID t := DependsOn t]> m) ts m !! id = (m : gmap string (list string)) !! id.
Proof.
  revert m. induction ts as [|t ts IH]; intros m Hid; simpl; [done|].
  simpl in Hid. rewrite IH by set_solver. rewrite lookup_insert_ne; [done|set_solver].
Qed.

Lemma upstreamsOf_lookup run t :
  NoDup (map TaskID (Tasks run)) → t ∈ Tasks run →
  mget [] (upstreamsOf run) (TaskID t) = DependsOn t.
Proof.
  intros Hnd Ht. unfold upstreamsOf. generalize (∅ : gmap string (list string)).
  revert Hnd Ht. induction (Tasks run) as [|u ts IH]; intros Hnd Ht m; simpl.
  - by apply not_elem_of_nil in Ht.
  - simpl in Hnd. apply NoDup_cons in Hnd as [Hu Hnd].
    apply elem_of_cons in Ht as [->|Ht]; [|by apply IH].
    unfold mget. rewrite fold_insert_deps by done. by rewrite lookup_insert_eq.
Qed.

Lemma retryOut_elem run x :
  x ∈ retryOut run ↔
  ∃ t, t ∈ Tasks run ∧ pt_task x = TaskID t ∧ retryTransition run (TaskID t) = Some (pt_to x).
Proof.
  unfold retryOut. induction (Tasks run) as [|u ts IH]; simpl.
  - split; [intros []%not_elem_of_nil|]. intros (t & []%not_elem_of_nil & _).
  - rewrite elem_of_app, IH. split.
    + intros [Hx|(t & Ht & Hr)].
      * unfold emit in Hx. destruct (retryTransition run (TaskID u)) eqn:E;
          [|by apply not_elem_of_nil in Hx].
        apply list_elem_of_singleton in Hx as ->. exists u. split; [left|done].
      * exists t. split; [by right|done].
    + intros (t & Ht & Hid & Hr). apply elem_of_cons in Ht as [->|Ht].
      * left. rewrite Hr. destruct x; simpl in *; subst. left.
      * right. eauto.
Qed.

Lemma retryOut_decided run x : x ∈ retryOut run → decidedOf run (pt_task x) = true.
Proof.
  rewrite retryOut_elem. intros (t & _ & -> & Hr).
  destruct (decidedOf run (TaskID t)) eqn:E; [done|].
  apply undecided_effective in E as [_ E]. congruence.
Qed.

(** ** What is planned *)

(** The main loop only appends. *)
Lemma step_prefix run acc t : t ∈ Tasks run → ∃ l, pa_out (step run acc t) = pa_out acc ++ l.
Proof.
  intros Ht. destruct (step_cases run acc t Ht); simpl; eauto. exists []. by rewrite app_nil_r.
Qed.

Lemma fold_step_prefix run rest acc :
  (∀ t, t ∈ rest → t ∈ Tasks run) →
  ∃ l, pa_out (fold_left (step run) rest acc) = pa_out acc ++ l.
Proof.
  revert acc. induction rest as [|t rest IH]; intros acc Hin; simpl.
  { exists []. by rewrite app_nil_r. }
  destruct (step_prefix run acc t) as [l1 H1]; [apply Hin; left|].
  destruct (IH (step run acc t)) as [l2 H2]; [intros; apply Hin; by right|].
  exists (l1 ++ l2). by rewrite H2, H1, app_assoc.
Qed.

Lemma retryOut_planned run x : x ∈ retryOut run → x ∈ PlanRun run.
Proof.
  intros Hx. unfold PlanRun. rewrite planMain_unfold.
  destruct (fold_step_prefix run (Tasks run) (acc0 run)) as [l ->]; [done|].
  simpl. rewrite planRetry_out. set_solver.
Qed.

(** Where a planned transition comes from. *)
Inductive planned_by (run : RunState) (x : PlannedTransition) : Prop :=
  | by_retry : x ∈ retryOut run → planned_by run x
  | by_start t :
      t ∈ Tasks run → pt_task x = TaskID t → stateOf run (TaskID t) = TaskStateNone →
      decideStart t (mget [] (upstreamsOf run) (TaskID t))
        (ra_effective (planRetryTransitions run)) = Some (pt_to x) →
      planned_by run x
  | by_queue t :
      t ∈ Tasks run → pt_task x = TaskID t → stateOf run (TaskID t) = TaskStateScheduled →
      pt_to x = TaskStateQueued → readyToDispatch run (TaskID t) = true →
      planned_by run x.

Lemma PlanRun_elem run x : x ∈ PlanRun run → planned_by run x.
Proof.
  unfold PlanRun. revert x.
  apply (planMain_ind run (λ _ acc, ∀ x, x ∈ pa_out acc → planned_by run x)).
  - simpl. rewrite planRetry_out. apply by_retry.
  - intros seen t rest acc Htasks IH x.
    assert (Ht : t ∈ Tasks run) by (rewrite Htasks; set_solver).
    destruct (step_cases run acc t Ht) as [|to ? ? ?|]; simpl; [apply IH|..].
    all: intros [Hx|Hx%list_elem_of_singleton]%elem_of_app; [by apply IH|subst x].
    + by eapply by_start.
    + by eapply by_queue.
Qed.

(** If nothing is planned, no iteration found anything to do. *)
Lemma PlanRun_nil run t :
  PlanRun run = [] → t ∈ Tasks run → step run {| pa_out := []; pa_promoted := 0; pa_poolPromoted := ∅ |} t
    = {| pa_out := []; pa_promoted := 0; pa_poolPromoted := ∅ |}.
Proof.
  intros Hnil Ht.
  assert (Hacc0 : acc0 run = {| pa_out := []; pa_promoted := 0; pa_poolPromoted := ∅ |}).
  { unfold acc0. f_equal. destruct (ra_out _) as [|x l] eqn:E; [done|].
    assert (x ∈ PlanRun run); [|rewrite Hnil in *; by apply not_elem_of_nil in H].
    apply retryOut_planned. rewrite <- planRetry_out, E. left. }
  unfold PlanRun in Hnil. rewrite planMain_unfold, Hacc0 in Hnil.
  apply list_elem_of_split in Ht as (l1 & l2 & Ht). rewrite Ht in Hnil.
  assert (Hsub : ∀ u, u ∈ l1 ++ t :: l2 → u ∈ Tasks run) by (by rewrite Ht).
  clear Ht Hacc0. induction l1 as [|u l1 IH]; simpl in Hnil.
  - destruct (step_cases run {| pa_out := []; pa_promoted := 0; pa_poolPromoted := ∅ |} t);
      [apply Hsub; left|done|..]; exfalso;
      edestruct fold_step_prefix as [l Hl]; try (by rewrite Hl in Hnil); set_solver.
  - destruct (step_cases run {| pa_out := []; pa_promoted := 0; pa_poolPromoted := ∅ |} u);
      [apply Hsub; left|..].
    1: by apply IH; [|intros; apply Hsub; right].
    all: exfalso; edestruct fold_step_prefix as [l Hl]; try (by rewrite Hl in Hnil); set_solver.
Qed.
