(* ===== verification/PlannerProps.v ===== *)
(** * Properties of the run planner

    What [PlanRun] promises: at most one transition per task, admission within
    both budgets, no premature [upstream_failed], only legal transitions apart
    from the retry step, agreement with [FinalizeRun], and no deadlock. *)

From Stdlib Require Import ZArith Lia.
From stdpp Require Import base numbers strings gmap option list.
From S2P Require Import Prelude TaskStates Dag Planner PlannerLemmas.

Open Scope Z_scope.

Definition is_queued (x : PlannedTransition) : bool :=
  bool_decide (pt_to x = TaskStateQueued).

Lemma retryOut_not_queued run : countb is_queued (retryOut run) = 0.
Proof.
  apply countb_zero. intros x (t & _ & _ & Hr)%retryOut_elem.
  unfold is_queued. case_bool_decide as E; [|done]. exfalso. revert Hr. rewrite E.
  unfold retryTransition, retryDecision. destruct (stateOf run (TaskID t)); repeat case_goal; done.
Qed.

Lemma decideStart_not_queued t deps st to :
  decideStart t deps st = Some to → to ≠ TaskStateQueued.
Proof. unfold decideStart. intros H ->. by repeat case_match. Qed.

Lemma fresh_of_split (ts seen rest : list TaskSpec) t :
  NoDup (map TaskID ts) → ts = seen ++ t :: rest → TaskID t ∉ map TaskID seen.
Proof.
  intros Hnd ->. rewrite map_app in Hnd. simpl in Hnd.
  apply NoDup_app in Hnd as (_ & Hnd & _). intros Hc. apply (Hnd _ Hc). left.
Qed.

(** ** One transition per task *)

Lemma retryOut_nodup run :
  NoDup (map TaskID (Tasks run)) → NoDup (map pt_task (retryOut run)).
Proof.
  unfold retryOut. induction (Tasks run) as [|t ts IH]; simpl; intros Hnd; [constructor|].
  apply NoDup_cons in Hnd as [Ht Hnd]. rewrite map_app.
  assert (Hsub : ∀ id, id ∈ map pt_task (concat (map (λ t0, emit (TaskID t0)
            (retryTransition run (TaskID t0))) ts)) → id ∈ map TaskID ts).
  { clear. induction ts as [|u ts IH]; simpl; [done|]. intros id.
    rewrite map_app, elem_of_app, elem_of_cons.
    destruct (retryTransition run (TaskID u)); simpl; [|rewrite elem_of_nil; naive_solver].
    rewrite list_elem_of_singleton. naive_solver. }
  destruct (retryTransition run (TaskID t)); simpl; [|by apply IH].
  apply NoDup_cons. split; [|by apply IH]. naive_solver.
Qed.

(** a tick plans at most one transition for each task instance. *)
Theorem plan_one_transition_per_task run :
  NoDup (map TaskID (Tasks run)) → NoDup (map pt_task (PlanRun run)).
Proof.
  intros Hnd. unfold PlanRun.
  cut (NoDup (map pt_task (pa_out (planMain run))) ∧
       ∀ id, id ∈ map pt_task (pa_out (planMain run)) →
         decidedOf run id = true ∨ id ∈ map TaskID (Tasks run)); [tauto|].
  apply (planMain_ind run (λ seen acc, NoDup (map pt_task (pa_out acc)) ∧
    ∀ id, id ∈ map pt_task (pa_out acc) → decidedOf run id = true ∨ id ∈ map TaskID seen)).
  - simpl. rewrite planRetry_out. split; [by apply retryOut_nodup|].
    intros id Hid. left. apply list_elem_of_fmap_1 in Hid as (x & -> & Hx).
    by apply retryOut_decided.
  - intros seen t rest acc Htasks [IH Hin].
    pose proof (fresh_of_split _ _ _ _ Hnd Htasks) as Hfresh.
    rewrite map_app. simpl.
    assert (Happ : ∀ id, decidedOf run id = true ∨ id ∈ map TaskID seen →
      decidedOf run id = true ∨ id ∈ map TaskID seen ++ [TaskID t]) by (intros; set_solver).
    assert (Ht : t ∈ Tasks run) by (rewrite Htasks; set_solver).
    destruct (step_cases run acc t Ht) as [|to Hd|Hd]; simpl; [split; auto|..];
      rewrite map_app; simpl.
    all: split; [|intros id [Hid|Hid%list_elem_of_singleton]%elem_of_app; [auto|set_solver]].
    all: apply NoDup_app; split_and!; [done| |apply NoDup_singleton].
    all: intros id Hid ->%list_elem_of_singleton; destruct (Hin _ Hid); [congruence|done].
Qed.

(** ** Admission *)

(** planning never admits past the per-DAG cap: the tasks already active
    plus the ones this plan promotes to [queued] stay within [max_active_tasks],
    or within the number already active when that is larger. *)
Theorem plan_respects_max_active_tasks run :
  0 < MaxActiveTasks run →
  ActiveTaskCount run + countb is_queued (PlanRun run) <=
    Z.max (MaxActiveTasks run) (ActiveTaskCount run).
Proof.
  intros Hmax.
  assert (pa_promoted (planMain run) = countb is_queued (PlanRun run) ∧
          0 <= pa_promoted (planMain run) <= Z.max 0 (admissionHeadroom run)) as [Hp Hb].
  { unfold PlanRun. apply (planMain_ind run (λ _ acc,
      pa_promoted acc = countb is_queued (pa_out acc) ∧
      0 <= pa_promoted acc <= Z.max 0 (admissionHeadroom run))).
    - simpl. rewrite planRetry_out, retryOut_not_queued. lia.
    - intros seen t rest acc Htasks [Heq Hle].
      assert (Ht : t ∈ Tasks run) by (rewrite Htasks; set_solver).
      destruct (step_cases run acc t Ht) as [|to Hd Hs Hst|Hd]; simpl; [lia|..];
        rewrite countb_app; simpl; [|lia].
      unfold is_queued at 2. simpl. apply decideStart_not_queued in Hst.
      rewrite bool_decide_eq_false_2 by done. lia. }
  rewrite <- Hp. unfold admissionHeadroom in Hb. repeat case_match; zbool; lia.
Qed.

(** [t] is promoted by the transitions [out] and draws on pool key [k]. *)
Definition promotes_into (run : RunState) (out : list PlannedTransition) (k : string)
    (t : TaskSpec) : bool :=
  bool_decide (poolKeyFor run t = k) &&
  bool_decide ({| pt_task := TaskID t; pt_to := TaskStateQueued |} ∈ out).

(** Appending a transition of another task changes no membership. *)
Lemma promotes_into_app run out k ts id to :
  id ∉ map TaskID ts →
  countb (promotes_into run (out ++ [{| pt_task := id; pt_to := to |}]) k) ts =
  countb (promotes_into run out k) ts.
Proof.
  induction ts as [|t ts IH]; intros Hid; simpl; [done|]. simpl in Hid.
  rewrite IH by set_solver. f_equal. unfold promotes_into.
  assert (TaskID t ≠ id) by set_solver.
  assert (Hiff : {| pt_task := TaskID t; pt_to := TaskStateQueued |} ∈
            out ++ [{| pt_task := id; pt_to := to |}] ↔
            {| pt_task := TaskID t; pt_to := TaskStateQueued |} ∈ out).
  { rewrite elem_of_app, list_elem_of_singleton. split; [|tauto].
    intros [?|[= ??]]; [done|congruence]. }
  by rewrite (bool_decide_ext _ _ Hiff).
Qed.

Lemma promotes_into_absent run out k t :
  {| pt_task := TaskID t; pt_to := TaskStateQueued |} ∉ out → promotes_into run out k t = false.
Proof.
  intros H. unfold promotes_into. rewrite (bool_decide_eq_false_2 (_ ∈ _)) by done.
  apply andb_false_r.
Qed.

Lemma promotes_into_last run out k t :
  promotes_into run (out ++ [{| pt_task := TaskID t; pt_to := TaskStateQueued |}]) k t
  = bool_decide (poolKeyFor run t = k).
Proof.
  unfold promotes_into. rewrite (bool_decide_eq_true_2 (_ ∈ _)) by set_solver.
  apply andb_true_r.
Qed.

Lemma stateOf_retry_queued run id : {| pt_task := id; pt_to := TaskStateQueued |} ∉ retryOut run.
Proof.
  intros Hin. pose proof (retryOut_not_queued run) as Hz. rewrite countb_zero in Hz.
  specialize (Hz _ Hin). done.
Qed.

Lemma pool_slot_lt run k m :
  k ≠ "" → 0 < mget 0 (PoolBudgets run) k → poolHasSlot run k m = true →
  mget 0 (PoolActive run) k + mget 0 m k < mget 0 (PoolBudgets run) k.
Proof.
  intros Hk Hb. unfold poolHasSlot. rewrite bool_decide_eq_false_2 by done.
  destruct (_ <=? 0) eqn:E; zbool; [lia|]. intros. by zbool.
Qed.

(** The invariant of the main loop that gives the pool bound: the counter of
    [k] is the number of tasks of [k] promoted so far and stays in budget. *)
Definition pool_inv (run : RunState) (k : string) (seen : list TaskSpec) (acc : planAcc) : Prop :=
  mget 0 (pa_poolPromoted acc) k = countb (promotes_into run (pa_out acc) k) seen ∧
  (mget 0 (pa_poolPromoted acc) k = 0 ∨
   mget 0 (PoolActive run) k + mget 0 (pa_poolPromoted acc) k <= mget 0 (PoolBudgets run) k) ∧
  (∀ id, {| pt_task := id; pt_to := TaskStateQueued |} ∈ pa_out acc → id ∈ map TaskID seen).

Section pool_step.
Context (run : RunState) (k : string) (seen : list TaskSpec) (acc : planAcc) (t : TaskSpec).
Context (Hk : k ≠ "") (Hb : 0 < mget 0 (PoolBudgets run) k).
Context (Hfresh : TaskID t ∉ map TaskID seen).
Context (HI : pool_inv run k seen acc).

Lemma pool_step_skip : pool_inv run k (seen ++ [t]) acc.
Proof.
  destruct HI as (Heq & Hle & Hin). unfold pool_inv.
  rewrite countb_app, map_app. simpl.
  rewrite (promotes_into_absent _ _ _ t) by (intros Hc; by apply Hfresh, Hin).
  split_and!; [lia|done|]. intros id Hid. apply Hin in Hid. set_solver.
Qed.

Lemma pool_step_start to :
  to ≠ TaskStateQueued →
  pool_inv run k (seen ++ [t])
    {| pa_out := pa_out acc ++ [{| pt_task := TaskID t; pt_to := to |}];
       pa_promoted := pa_promoted acc; pa_poolPromoted := pa_poolPromoted acc |}.
Proof.
  intros Hto. destruct HI as (Heq & Hle & Hin). unfold pool_inv. simpl.
  assert (Hin' : ∀ id, {| pt_task := id; pt_to := TaskStateQueued |} ∈
      pa_out acc ++ [{| pt_task := TaskID t; pt_to := to |}] → id ∈ map TaskID seen).
  { intros id [?|[= ??]%list_elem_of_singleton]%elem_of_app; [auto|congruence]. }
  rewrite countb_app, map_app, promotes_into_app by done. simpl.
  rewrite (promotes_into_absent _ _ _ t) by (intros Hc; by apply Hfresh, Hin').
  split_and!; [lia|done|]. intros id Hid. apply Hin' in Hid. set_solver.
Qed.

Lemma pool_step_queue n :
  poolHasSlot run (poolKeyFor run t) (pa_poolPromoted acc) = true →
  pool_inv run k (seen ++ [t])
    {| pa_out := pa_out acc ++ [{| pt_task := TaskID t; pt_to := TaskStateQueued |}];
       pa_promoted := n;
       pa_poolPromoted :=
         if bool_decide (poolKeyFor run t = "") then pa_poolPromoted acc
         else <[poolKeyFor run t := mget 0 (pa_poolPromoted acc) (poolKeyFor run t) + 1]>
                (pa_poolPromoted acc) |}.
Proof.
  intros Hslot. destruct HI as (Heq & Hle & Hin). unfold pool_inv. simpl.
  rewrite countb_app, map_app, promotes_into_app by done. simpl.
  rewrite promotes_into_last. split_and!.
  - case_bool_decide as Hk0; [rewrite bool_decide_eq_false_2 by congruence; lia|].
    rewrite mget_insert. destruct (decide _) as [E|Hne].
    + rewrite bool_decide_eq_true_2, E by done. lia.
    + rewrite bool_decide_eq_false_2 by done. lia.
  - case_bool_decide as Hk0; [done|].
    rewrite mget_insert. destruct (decide _) as [E|Hne]; [|done].
    rewrite E in *. right. pose proof (pool_slot_lt run k _ Hk Hb Hslot). lia.
  - intros id [?%Hin|[= ->]%list_elem_of_singleton]%elem_of_app; set_solver.
Qed.

End pool_step.

(** planning never over-fills a named pool: the slots already occupied plus
    the tasks promoted into the pool stay within its budget, or within the number
    already occupied when that is larger. *)
Theorem plan_respects_pool_budget run k :
  NoDup (map TaskID (Tasks run)) → k ≠ "" → 0 < mget 0 (PoolBudgets run) k →
  mget 0 (PoolActive run) k + countb (promotes_into run (PlanRun run) k) (Tasks run) <=
    Z.max (mget 0 (PoolBudgets run) k) (mget 0 (PoolActive run) k).
Proof.
  intros Hnd Hk Hb.
  assert (pool_inv run k (Tasks run) (planMain run)) as (Hp & Hle & _);
    [|unfold PlanRun; lia].
  apply planMain_ind.
  - unfold pool_inv. simpl. rewrite mget_empty, planRetry_out.
    split_and!; [done|by left|]. intros id Hin. by apply stateOf_retry_queued in Hin.
  - intros seen t rest acc Htasks HI.
    pose proof (fresh_of_split _ _ _ _ Hnd Htasks) as Hfresh.
    assert (Ht : t ∈ Tasks run) by (rewrite Htasks; set_solver).
    destruct (step_cases run acc t Ht) as [|to Hd Hs Hst|].
    + by apply pool_step_skip.
    + apply pool_step_start; [done..|by eapply decideStart_not_queued].
    + by apply pool_step_queue.
Qed.

(** ** Failures are propagated only when final *)

(** The effective state of a dependency, as [decideStart] sees it. *)
Lemma dep_state run d :
  mget TaskStateZero (ra_effective (planRetryTransitions run)) d =
  if decide (d ∈ map TaskID (Tasks run)) then effectiveOf run d else stateOf run d.
Proof. apply planRetry_effective. Qed.

(** C4: [upstream_failed] is planned only downstream of a failure that is final:
    the condemned task depends on a task that failed (or was itself condemned)
    and that neither a retry nor an infrastructure re-placement can still
    recover. *)
Theorem plan_condemns_only_final_failures run id :
  NoDup (map TaskID (Tasks run)) →
  {| pt_task := id; pt_to := TaskStateUpstreamFailed |} ∈ PlanRun run →
  ∃ t d, t ∈ Tasks run ∧ TaskID t = id ∧ d ∈ DependsOn t ∧
    (stateOf run d = TaskStateUpstreamFailed ∨ stateOf run d = TaskStateFailed) ∧
    (d ∈ map TaskID (Tasks run) → recoverable run d = false).
Proof.
  intros Hnd Hin. destruct (PlanRun_elem _ _ Hin) as [Hr|t Ht Hid Hs Hd|t ? ? ? ?]; [|simpl in *|done].
  { apply retryOut_elem in Hr as (t & _ & _ & Hr). simpl in Hr. exfalso. revert Hr.
    unfold retryTransition, retryDecision. destruct (stateOf run (TaskID t)); repeat case_goal; done. }
  rewrite upstreamsOf_lookup in Hd by done. unfold decideStart in Hd.
  destruct (EvaluateTriggerRule _ _) eqn:E; try discriminate.
  apply upstream_failed_cause in E as (s & Hsd & Hcase).
  apply list_elem_of_fmap_1 in Hsd as (d & -> & Hd').
  exists t, d. rewrite dep_state in Hcase.
  destruct (decide (d ∈ map TaskID (Tasks run))) as [Hdt|Hdt].
  - assert (IsTerminal (effectiveOf run d) = true) as Hterm by (by destruct Hcase as [->| ->]).
    apply effective_terminal in Hterm as [He Hrec]. rewrite He in Hcase. done.
  - split_and!; done.
Qed.

(** ** Legal transitions *)

(** C40: every planned transition is one the task state machine allows, with one
    exception: a failed task with tries left is moved straight to [up_for_retry],
    a transition the table does not list. *)
Theorem plan_transitions_legal run x :
  x ∈ PlanRun run →
  CanTransition (stateOf run (pt_task x)) (pt_to x) = true ∨
  (stateOf run (pt_task x) = TaskStateFailed ∧ pt_to x = TaskStateUpForRetry ∧
   mget false (InfraFailed run) (pt_task x) = false ∧ retriable run (pt_task x) = true).
Proof.
  intros Hx. destruct (PlanRun_elem _ _ Hx) as [Hr|t Ht -> Hs Hd|t Ht -> Hs -> _].
  - apply retryOut_elem in Hr as (t & _ & -> & Hr). revert Hr.
    unfold retryTransition, retryDecision.
    destruct (stateOf run (TaskID t)); repeat case_goal; intros [= <-]; simplify_eq/=;
      first [left; reflexivity | right; split_and!; done].
  - left. rewrite Hs. unfold decideStart in Hd.
    destruct (EvaluateTriggerRule _ _); inversion Hd; reflexivity.
  - left. by rewrite Hs.
Qed.

(** ** Finalization *)

Lemma FinalizeRun_loop_spec run ts b :
  match FinalizeRun_loop run ts b with
  | None => ∃ t, t ∈ ts ∧ (recoverable run (TaskID t) = true ∨
                           IsTerminal (stateOf run (TaskID t)) = false)
  | Some st =>
      (∀ t, t ∈ ts → IsTerminal (stateOf run (TaskID t)) = true ∧ recoverable run (TaskID t) = false) ∧
      (st = DagRunStateFailed ∧ (b = true ∨ ∃ t, t ∈ ts ∧
         (stateOf run (TaskID t) = TaskStateFailed ∨ stateOf run (TaskID t) = TaskStateUpstreamFailed)) ∨
       st = DagRunStateSuccess ∧ b = false ∧ ∀ t, t ∈ ts →
         stateOf run (TaskID t) = TaskStateSuccess ∨ stateOf run (TaskID t) = TaskStateSkipped)
  end.
Proof.
  revert b. induction ts as [|t ts IH]; intros b; simpl.
  { split; [set_solver|]. destruct b; [by left; auto|right]. split_and!; [done..|set_solver]. }
  fold (stateOf run (TaskID t)).
  assert (Hrec : (if bool_decide (stateOf run (TaskID t) = TaskStateFailed)
                  then if mget false (InfraFailed run) (TaskID t)
                       then infraReplaceable run (TaskID t) else retriable run (TaskID t)
                  else false) = recoverable run (TaskID t)).
  { unfold recoverable. by case_bool_decide. }
  rewrite Hrec. destruct (recoverable run (TaskID t)) eqn:Er.
  { exists t. split; [left|by left]. }
  destruct (IsTerminal (stateOf run (TaskID t))) eqn:Et; simpl.
  2: { exists t. split; [left|by right]. }
  specialize (IH (if bool_decide (stateOf run (TaskID t) = TaskStateFailed) ||
                     bool_decide (stateOf run (TaskID t) = TaskStateUpstreamFailed) then true else b)).
  destruct (FinalizeRun_loop _ _ _) as [st|].
  2: { destruct IH as (u & Hu & H). exists u. split; [by right|done]. }
  destruct IH as [Hall Hst]. split.
  { intros u [->|Hu]%elem_of_cons; auto. }
  destruct Hst as [(-> & Hor)|(-> & Hb & Hok)]; [left|right].
  - split; [done|].
    assert (Hrest : (∃ u, u ∈ ts ∧ (stateOf run (TaskID u) = TaskStateFailed ∨
              stateOf run (TaskID u) = TaskStateUpstreamFailed)) →
            ∃ u, u ∈ t :: ts ∧ (stateOf run (TaskID u) = TaskStateFailed ∨
              stateOf run (TaskID u) = TaskStateUpstreamFailed)).
    { intros (u & Hu & Hf). exists u. split; [by right|done]. }
    destruct (stateOf run (TaskID t)) eqn:Es; try discriminate; simpl in Hor.
    1, 3: destruct Hor; auto.
    all: right; exists t; split; [left|auto].
  - destruct (stateOf run (TaskID t)) eqn:Es; try discriminate; simpl in Hb; try discriminate.
    all: split_and!; [done..|intros u [->|Hu]%elem_of_cons; auto].
Qed.

(** C14: a run is finalized only when nothing is left to plan for it, and as
    failed exactly when some task failed or was condemned. *)
Theorem finalized_run_is_quiet run st :
  FinalizeRun run = Some st →
  PlanRun run = [] ∧
  (st = DagRunStateFailed ↔ ∃ t, t ∈ Tasks run ∧
     (stateOf run (TaskID t) = TaskStateFailed ∨ stateOf run (TaskID t) = TaskStateUpstreamFailed)).
Proof.
  intros Hf. pose proof (FinalizeRun_loop_spec run (Tasks run) false) as H.
  unfold FinalizeRun in Hf. rewrite Hf in H. destruct H as [Hall Hst]. split.
  - destruct (PlanRun run) as [|x l] eqn:E; [done|]. exfalso.
    assert (x ∈ PlanRun run) as Hx by (rewrite E; left).
    destruct (PlanRun_elem _ _ Hx) as [Hr|t Ht _ Hs _|t Ht _ Hs _ _].
    2,3: destruct (Hall t Ht) as [Hterm _]; by rewrite Hs in Hterm.
    apply retryOut_elem in Hr as (t & Ht & _ & Hr). destruct (Hall t Ht) as [Hterm Hrec].
    revert Hr. unfold retryTransition, retryDecision.
    unfold recoverable in Hrec. destruct (stateOf run (TaskID t)) eqn:Es; try done.
    rewrite bool_decide_eq_true_2 in Hrec by done. simpl in Hrec.
    destruct (mget false (InfraFailed run) (TaskID t)); by rewrite Hrec.
  - destruct Hst as [(-> & [?|Hex])|(-> & _ & Hok)]; [done|done|].
    split; [done|]. intros (t & Ht & Hb). destruct (Hok t Ht), Hb; congruence.
Qed.

(** ** No deadlock *)

(** Every time gate has elapsed and both admission gates have room. *)
Record gates_open (run : RunState) : Prop := {
  go_retry : ∀ id, readyToRetry run id = true;
  go_reschedule : ∀ id, readyToReschedule run id = true;
  go_infra : ∀ id, readyToInfraReplace run id = true;
  go_dispatch : ∀ id, readyToDispatch run id = true;
  go_headroom : 0 < admissionHeadroom run;
  go_pool : ∀ t, t ∈ Tasks run → poolHasSlot run (poolKeyFor run t) ∅ = true;
}.

Definition in_flight (s : TaskState) : bool :=
  bool_decide (s = TaskStateQueued) || bool_decide (s = TaskStateRunning).

(** A run whose task instances exist and that nothing is executing. *)
Record idle_run (run : RunState) : Prop := {
  ir_materialized : ∀ t, t ∈ Tasks run → stateOf run (TaskID t) ≠ TaskStateZero;
  ir_idle : ∀ t, t ∈ Tasks run → in_flight (stateOf run (TaskID t)) = false;
  ir_rules : ∀ t, t ∈ Tasks run → known_rule (triggerRuleOf t);
}.

(** If nothing is planned with the gates open, only tasks in state [none] are
    unsettled. *)
Lemma nothing_planned_none run t :
  gates_open run → idle_run run → PlanRun run = [] → t ∈ Tasks run →
  recoverable run (TaskID t) = true ∨ IsTerminal (stateOf run (TaskID t)) = false →
  stateOf run (TaskID t) = TaskStateNone.
Proof.
  intros Hg Hi Hnil Ht Hun.
  assert (Hnone : retryTransition run (TaskID t) = None).
  { destruct (retryTransition run (TaskID t)) as [to|] eqn:E; [|done]. exfalso.
    assert ({| pt_task := TaskID t; pt_to := to |} ∈ PlanRun run) as Hin.
    { apply retryOut_planned, retryOut_elem. by exists t. }
    rewrite Hnil in Hin. by apply not_elem_of_nil in Hin. }
  pose proof (PlanRun_nil run t Hnil Ht) as Hstep.
  pose proof (ir_materialized run Hi t Ht). pose proof (ir_idle run Hi t Ht).
  unfold retryTransition, retryDecision in Hnone. unfold recoverable in Hun.
  destruct (stateOf run (TaskID t)) eqn:Es; try done; simpl in *.
  - exfalso. revert Hstep. unfold step, planTask. cbv zeta.
    assert (Hdec : decidedOf run (TaskID t) = false)
      by (unfold decidedOf, retryDecision; by rewrite Es).
    rewrite bool_decide_eq_false_2 by (rewrite planRetry_decided, Hdec; intros [_ ?]; done).
    rewrite planRetry_effective, decide_True by (by apply list_elem_of_fmap_2).
    destruct (undecided_effective run _ Hdec) as [-> _]. rewrite Es.
    rewrite (go_dispatch run Hg). simpl.
    destruct (admissionHeadroom run <=? 0) eqn:E; [pose proof (go_headroom run Hg); zbool; lia|].
    by rewrite (go_pool run Hg t Ht).
  - by destruct Hun.
  - exfalso. destruct Hun as [Hr|]; [|done].
    destruct (mget false (InfraFailed run) (TaskID t)).
    + by rewrite Hr, (go_infra run Hg) in Hnone.
    + by rewrite Hr in Hnone.
  - by destruct Hun.
  - by destruct Hun.
  - by rewrite (go_retry run Hg) in Hnone.
  - by rewrite (go_reschedule run Hg) in Hnone.
Qed.

(** A task in [none] whose dependencies are all settled is planned. *)
Lemma ready_task_planned run t :
  idle_run run → PlanRun run = [] → t ∈ Tasks run → stateOf run (TaskID t) = TaskStateNone →
  NoDup (map TaskID (Tasks run)) →
  (∀ d, d ∈ DependsOn t → d ∈ map TaskID (Tasks run) ∧
     IsTerminal (stateOf run d) = true ∧ recoverable run d = false) → False.
Proof.
  intros Hi Hnil Ht Hs Hnd Hdeps.
  pose proof (PlanRun_nil run t Hnil Ht) as Hstep. revert Hstep. unfold step, planTask. cbv zeta.
  assert (Hdec : decidedOf run (TaskID t) = false)
    by (unfold decidedOf, retryDecision; by rewrite Hs).
  rewrite bool_decide_eq_false_2 by (rewrite planRetry_decided, Hdec; intros [_ ?]; done).
  rewrite planRetry_effective, decide_True by (by apply list_elem_of_fmap_2).
  destruct (undecided_effective run _ Hdec) as [-> _]. rewrite Hs, upstreamsOf_lookup by done.
  unfold decideStart.
  destruct (EvaluateTriggerRule _ _) eqn:E; try done. exfalso. revert E.
  apply settled_decides; [by apply Hi|].
  intros s (d & -> & Hd)%list_elem_of_fmap_1. destruct (Hdeps d Hd) as (Hdt & Hterm & Hrec).
  rewrite planRetry_effective, decide_True by done.
  revert Hterm Hrec. unfold effectiveOf, retryDecision, recoverable.
  destruct (stateOf run d) eqn:Ed; simpl; try done.
  intros _. destruct (mget false (InfraFailed run) d); by intros ->.
Qed.

(** C2: no deadlock: on a validated graph, a materialised run with nothing in
    flight, every retry, dispatch and admission gate open and known trigger rules
    is either finalized or makes progress. *)
Theorem plan_never_deadlocks run :
  validateGraph (Tasks run) = Some None →
  idle_run run → gates_open run →
  FinalizeRun run = None → PlanRun run ≠ [].
Proof.
  intros Hv Hi Hg Hfin Hnil. destruct (validateGraph_wf _ Hv) as [Hnd Hdecl Hacc].
  pose proof (FinalizeRun_loop_spec run (Tasks run) false) as Hf.
  unfold FinalizeRun in Hfin. rewrite Hfin in Hf. destruct Hf as (t0 & Ht0 & Hun0).
  assert (Hid0 : TaskID t0 ∈ map TaskID (Tasks run)) by (by apply list_elem_of_fmap_2).
  pose proof (Hacc _ Hid0) as Ha. remember (TaskID t0) as x eqn:Ex.
  revert t0 Ht0 Hun0 Ex Hid0. induction Ha as [x _ IH]. intros t Ht Hun -> _.
  pose proof (nothing_planned_none run t Hg Hi Hnil Ht Hun) as Hs.
  eapply (ready_task_planned run t); [done..|]. intros d Hd.
  assert (Hdx : depends (Tasks run) d (TaskID t)) by (by exists t).
  assert (Hdt := Hdecl _ _ Hdx). split; [done|].
  apply list_elem_of_fmap_1 in Hdt as (u & -> & Hu).
  destruct (recoverable run (TaskID u)) eqn:Er, (IsTerminal (stateOf run (TaskID u))) eqn:Et;
    [..|done|]; exfalso; eapply (IH _ Hdx u); eauto; by apply list_elem_of_fmap_2.
Qed.

(** ** Back-off and jitter *)

Lemma dispatchBackoff_loop_min n d :
  0 < d → dispatchBackoff_loop n d = Z.min (d * 2 ^ Z.of_nat n) (Z.max d dispatchBackoffCap) ∨
  dispatchBackoffCap <= d.
Proof.
  revert d. induction n as [|n IH]; intros d Hd.
  { destruct (decide (dispatchBackoffCap <= d)); [by right|left]. simpl. lia. }
  destruct (decide (dispatchBackoffCap <= d)); [by right|left].
  cbn [dispatchBackoff_loop]. rewrite Nat2Z.inj_succ, Z.pow_succ_r by lia.
  pose proof (Z.pow_pos_nonneg 2 (Z.of_nat n) ltac:(lia) ltac:(lia)).
  destruct (dispatchBackoffCap <=? d * 2) eqn:E; zbool.
  - nia.
  - destruct (IH (d * 2)) as [->|]; [lia| |lia]. nia.
Qed.

Lemma Z2Nat_max0 z : Z.of_nat (Z.to_nat z) = Z.max 0 z.
Proof. lia. Qed.

Lemma dispatchBackoff_min attempts :
  dispatchBackoff attempts =
    Z.min (dispatchBackoffBase * 2 ^ Z.max 0 (attempts - 1)) dispatchBackoffCap.
Proof.
  unfold dispatchBackoff.
  destruct (dispatchBackoff_loop_min (Z.to_nat (attempts - 1)) dispatchBackoffBase) as [->|H].
  - done.
  - rewrite Z2Nat_max0. unfold dispatchBackoffBase, dispatchBackoffCap, Minute, Second. lia.
  - done.
Qed.

(** the dispatch back-off is the base doubled once per earlier attempt and
    capped, never below the base and never decreasing, for every attempt count. *)
Theorem dispatchBackoff_closed_form attempts :
  dispatchBackoff attempts =
    Z.min (dispatchBackoffBase * 2 ^ Z.max 0 (attempts - 1)) dispatchBackoffCap ∧
  dispatchBackoffBase <= dispatchBackoff attempts <= dispatchBackoff (attempts + 1).
Proof.
  rewrite !dispatchBackoff_min.
  assert (1 <= 2 ^ Z.max 0 (attempts - 1)).
  { apply (Z.pow_le_mono_r 2 0); lia. }
  assert (2 ^ Z.max 0 (attempts - 1) <= 2 ^ Z.max 0 (attempts + 1 - 1)).
  { apply Z.pow_le_mono_r; lia. }
  unfold dispatchBackoffBase, dispatchBackoffCap, Minute, Second. lia.
Qed.

Lemma dispatchBackoff_mono a b : a <= b → dispatchBackoff a <= dispatchBackoff b.
Proof.
  intros Hab. rewrite !dispatchBackoff_min.
  assert (2 ^ Z.max 0 (a - 1) <= 2 ^ Z.max 0 (b - 1)) by (apply Z.pow_le_mono_r; lia).
  unfold dispatchBackoffBase, Second. lia.
Qed.

Lemma infraReplaceJitter_range r t : 0 <= infraReplaceJitter r t < infraReplaceJitterWindow.
Proof. apply Z.mod_pos_bound. done. Qed.

(** an infrastructure failure with attempts left is released for
    re-placement no later than [InfraReplaceMaxDelay] after it ended, jitter
    included. *)
Theorem infra_replace_within_ceiling run id ended :
  mget 0 (InfraAttempts run) id < infraMaxAttempts →
  EndedAt run !! id = Some ended →
  ended + InfraReplaceMaxDelay <= Now run →
  readyToInfraReplace run id = true.
Proof.
  intros Hatt Hend Hnow. unfold readyToInfraReplace. rewrite Hend.
  destruct (IsZero (Now run)); [done|]. unfold Before.
  assert (dispatchBackoff (mget 0 (InfraAttempts run) id + 1) <= dispatchBackoff infraMaxAttempts)
    by (apply dispatchBackoff_mono; lia).
  pose proof (infraReplaceJitter_range (RunID run) id).
  unfold InfraReplaceMaxDelay in Hnow. apply negb_true_iff, Z.ltb_ge. lia.
Qed.
