(* ===== verification/PlannerExamples.v ===== *)
(** * Planner: sample runs

    Concrete runs on which the hypotheses of the planner's theorems hold. *)

From Stdlib Require Import ZArith Lia.
From stdpp Require Import base numbers strings gmap option list.
From S2P Require Import Prelude TaskStates Dag Planner PlannerLemmas PlannerProps.

Open Scope Z_scope.

Definition task (id : string) (deps : list string) : TaskSpec :=
  {| TaskID := id; DependsOn := deps; Rule := TriggerRuleAllSuccess; Pool := ""; Retries := None; SpecRetryDelay := None |}.

(** A diamond [a -> b], [a -> c] beside two independent tasks. *)
Definition sampleTasks : list TaskSpec :=
  [task "a" []; task "b" ["a"]; task "c" ["a"]; task "d" []; task "e" []].

Definition runWith (states : gmap string TaskState) (tries : gmap string Z) : RunState := {|
  RunID := "r"; DagID := "etl"; TenantID := "t"; Tasks := sampleTasks; States := states;
  Tries := tries; MaxTries := {["a" := 2]}; EndedAt := {["a" := 1000]};
  RetryDelaySeconds := ∅; RescheduleAt := ∅; NextDispatchAt := ∅; DispatchAttempts := ∅;
  InfraFailed := ∅; InfraAttempts := ∅; Now := 1000000000000; MaxActiveTasks := 2;
  ActiveTaskCount := 1; PoolsEnabled := true;
  PoolBudgets := {[PoolKey "t" "default_pool" := 4]}; PoolActive := {[PoolKey "t" "default_pool" := 3]};
|}.

Definition allNone : gmap string TaskState :=
  {["b" := TaskStateNone; "c" := TaskStateNone; "d" := TaskStateNone; "e" := TaskStateNone]}.

(** [a] failed for good; [b] and [c] wait, [d] and [e] compete for one slot. *)
Definition failedRun : RunState := runWith (<["a" := TaskStateFailed]> allNone) {["a" := 2]}.

(** [a] failed with a try left. *)
Definition retryRun : RunState := runWith (<["a" := TaskStateFailed]> allNone) {["a" := 1]}.

Definition doneRun : RunState :=
  runWith {["a" := TaskStateFailed; "b" := TaskStateUpstreamFailed; "c" := TaskStateUpstreamFailed;
            "d" := TaskStateSuccess; "e" := TaskStateSkipped]} {["a" := 2]}.

Definition freshRun : RunState := runWith (<["a" := TaskStateNone]> allNone) ∅.

Example failedRun_plan : PlanRun failedRun =
  [{| pt_task := "b"; pt_to := TaskStateUpstreamFailed |}; {| pt_task := "c"; pt_to := TaskStateUpstreamFailed |};
   {| pt_task := "d"; pt_to := TaskStateScheduled |}; {| pt_task := "e"; pt_to := TaskStateScheduled |}].
Proof. vm_compute. reflexivity. Qed.

(** the planner takes a failed task with tries left to [up_for_retry], which
    the table of legal transitions rejects. *)
Theorem retry_transition_not_in_table :
  {| pt_task := "a"; pt_to := TaskStateUpForRetry |} ∈ PlanRun retryRun ∧
  stateOf retryRun "a" = TaskStateFailed ∧
  CanTransition TaskStateFailed TaskStateUpForRetry = false.
Proof.
  split_and!; [|reflexivity|reflexivity].
  apply (bool_decide_unpack _). vm_compute. exact I.
Qed.

Lemma sample_ids : NoDup (map TaskID sampleTasks).
Proof. apply (bool_decide_unpack _). vm_compute. exact I. Qed.

Lemma plan_one_transition_per_task_witness : NoDup (map pt_task (PlanRun failedRun)).
Proof. apply plan_one_transition_per_task. exact sample_ids. Defined.

Lemma plan_respects_max_active_tasks_witness :
  1 + countb is_queued (PlanRun failedRun) <= Z.max 2 1.
Proof. apply (plan_respects_max_active_tasks failedRun). reflexivity. Defined.

Lemma plan_respects_pool_budget_witness :
  mget 0 (PoolActive failedRun) (PoolKey "t" "default_pool")
    + countb (promotes_into failedRun (PlanRun failedRun) (PoolKey "t" "default_pool")) sampleTasks <=
  Z.max (mget 0 (PoolBudgets failedRun) (PoolKey "t" "default_pool"))
    (mget 0 (PoolActive failedRun) (PoolKey "t" "default_pool")).
Proof.
  apply (plan_respects_pool_budget failedRun); [exact sample_ids|discriminate|vm_compute; reflexivity].
Defined.

Lemma plan_condemns_only_final_failures_witness :
  ∃ t d, t ∈ sampleTasks ∧ TaskID t = "b" ∧ d ∈ DependsOn t ∧
    (stateOf failedRun d = TaskStateUpstreamFailed ∨ stateOf failedRun d = TaskStateFailed) ∧
    (d ∈ map TaskID sampleTasks → recoverable failedRun d = false).
Proof.
  apply (plan_condemns_only_final_failures failedRun "b"); [exact sample_ids|].
  rewrite failedRun_plan. left.
Defined.

Lemma plan_transitions_legal_witness :
  CanTransition (stateOf failedRun "b") TaskStateUpstreamFailed = true ∨
  (stateOf failedRun "b" = TaskStateFailed ∧ TaskStateUpstreamFailed = TaskStateUpForRetry ∧
   mget false (InfraFailed failedRun) "b" = false ∧ retriable failedRun "b" = true).
Proof.
  apply (plan_transitions_legal failedRun {| pt_task := "b"; pt_to := TaskStateUpstreamFailed |}).
  rewrite failedRun_plan. left.
Defined.

Lemma finalized_run_is_quiet_witness :
  PlanRun doneRun = [] ∧
  (DagRunStateFailed = DagRunStateFailed ↔ ∃ t, t ∈ sampleTasks ∧
     (stateOf doneRun (TaskID t) = TaskStateFailed ∨ stateOf doneRun (TaskID t) = TaskStateUpstreamFailed)).
Proof. apply (finalized_run_is_quiet doneRun). vm_compute. reflexivity. Defined.

Lemma freshRun_each (P : TaskSpec → Prop) `{!∀ t, Decision (P t)} :
  bool_decide (Forall P sampleTasks) = true → ∀ t, t ∈ sampleTasks → P t.
Proof. intros Hb. apply bool_decide_eq_true in Hb. by apply list.Forall_forall. Qed.

Lemma plan_never_deadlocks_witness : PlanRun freshRun ≠ [].
Proof.
  apply plan_never_deadlocks.
  - vm_compute. reflexivity.
  - split.
    + apply (freshRun_each (λ t, stateOf freshRun (TaskID t) ≠ TaskStateZero)). vm_compute. reflexivity.
    + apply (freshRun_each (λ t, in_flight (stateOf freshRun (TaskID t)) = false)). vm_compute. reflexivity.
    + intros t Ht. simpl in Ht. unfold sampleTasks in Ht.
      repeat (apply elem_of_cons in Ht as [->|Ht]; [exact I|]). by apply not_elem_of_nil in Ht.
  - split.
    + intros id. reflexivity.
    + intros id. reflexivity.
    + intros id. unfold readyToInfraReplace. cbn [EndedAt freshRun runWith].
      destruct ({["a" := 1000]} !! id) as [e|] eqn:E; [|reflexivity].
      apply lookup_singleton_Some in E as [<- <-]. vm_compute. reflexivity.
    + intros id. reflexivity.
    + reflexivity.
    + apply (freshRun_each (λ t, poolHasSlot freshRun (poolKeyFor freshRun t) ∅ = true)).
      vm_compute. reflexivity.
  - vm_compute. reflexivity.
Defined.

Lemma infra_replace_within_ceiling_witness : readyToInfraReplace failedRun "a" = true.
Proof.
  apply (infra_replace_within_ceiling failedRun "a" 1000); [reflexivity|reflexivity|].
  vm_compute. discriminate.
Defined.
