(* ===== verification/Catchup.v ===== *)
(** * Cron slots

    [internal/scheduler/catchup.go] and [internal/scheduler/cron.go].

    The cron library (robfig/cron) is a parameter: [parse] is [ParseStandard]
    and a parsed schedule is its [Next] function.  Times are instants in
    nanoseconds, 0 being Go's zero time; every caller converts to UTC first, so
    [Next] is a function of the instant alone.  A cron expression is its list of
    code points. *)

From Stdlib Require Import ZArith Lia.
From stdpp Require Import base numbers strings gmap option list sorting.
From S2P Require Import Prelude.

Open Scope Z_scope.

(** ** Enumerating due slots *)

Section slots.
Context (next : Z → Z).

Definition schedulePeriod (now : Z) : Z :=
  let a := next now in
  let b := next a in
  b - a.

(** [None] is the [ok = false] result. *)
Definition catchupSeed (lastLogical startDate : option Z) (now : Z) : option Z :=
  match lastLogical with
  | Some l => Some l
  | None =>
    match startDate with
    | Some s =>
      let period := schedulePeriod now in
      if period <=? 0 then None else Some (s - period)
    | None => None
    end
  end.

(** The [for] loop of [dueScheduledSlots]; [None] is out of fuel. *)
Fixpoint slotLoop (fuel : nat) (startDate : option Z) (now : Z) (maxSlots : Z)
    (cursor : Z) (slots : list Z) : option (list Z) :=
  match fuel with
  | O => None
  | S fuel' =>
    let cursor := next cursor in
    if now <? cursor then Some slots
    else if match startDate with Some s => cursor <? s | None => false end
    then slotLoop fuel' startDate now maxSlots cursor slots
    else
      let slots := slots ++ [cursor] in
      if maxSlots <=? Z.of_nat (length slots) then Some slots
      else slotLoop fuel' startDate now maxSlots cursor slots
  end.

(** [slots[len(slots)-1:]] *)
Definition lastOnly (slots : list Z) : list Z := drop (length slots - 1) slots.

Definition dueSlots (fuel : nat) (lastLogical startDate : option Z) (now : Z)
    (catchup : bool) (maxSlots : Z) : option (list Z) :=
  match catchupSeed lastLogical startDate now with
  | None => Some []
  | Some seed =>
    slots ← slotLoop fuel startDate now maxSlots seed [];
    Some (match slots with
          | [] => []
          | _ => if negb catchup then lastOnly slots else slots
          end)
  end.

(** [None] is [due = false]. *)
Definition mostRecentSlot (now : Z) : option Z :=
  let n1 := next now in
  let period := next n1 - n1 in
  if period <=? 0 then None
  else
    let prev := next (now - period) in
    if now <? prev then None else Some prev.

Definition nextRun (last : option Z) (now : Z) : option Z :=
  match last with
  | None => mostRecentSlot now
  | Some l =>
    let n := next l in
    if now <? n then None else Some n
  end.

End slots.

Definition dueScheduledSlots (parse : list Z → option (Z → Z)) (fuel : nat) (expr : list Z)
    (lastLogical startDate : option Z) (now : Z) (catchup : bool) (maxSlots : Z)
    : option (list Z) :=
  match parse expr with
  | None => Some []
  | Some next => dueSlots next fuel lastLogical startDate now catchup maxSlots
  end.

Definition nextScheduledRun (parse : list Z → option (Z → Z)) (expr : list Z)
    (last : option Z) (now : Z) : option Z :=
  next ← parse expr; nextRun next last now.

Definition scheduleParseable (parse : list Z → option (Z → Z)) (expr : list Z) : bool :=
  bool_decide (is_Some (parse expr)).

(** ** What the library promises of [Next] *)

(** [Next] returns the first activation strictly after its argument. *)
Record cron_live (next : Z → Z) : Prop := {
  next_after : ∀ t, t < next t;
  next_least : ∀ t u, t < next u → next t <= next u;
}.

(** The activations of a schedule. *)
Definition activation (next : Z → Z) (s : Z) : Prop := ∃ t, next t = s.

(** The slots a run is due for: activations after the seed, not after [now] and
    not before the start date. *)
Definition due (next : Z → Z) (seed : Z) (startDate : option Z) (now s : Z) : Prop :=
  activation next s ∧ seed < s ∧ s <= now ∧
  match startDate with Some d => d <= s | None => True end.

Section slot_facts.
Context (next : Z → Z) (Hcron : cron_live next).
Context (startDate : option Z) (now maxSlots : Z).

(** No activation lies strictly between an instant and its [Next]. *)
Lemma next_gap c s : activation next s → c < s → next c <= s.
Proof. intros [u <-] Hc. by apply next_least. Qed.

Lemma due_step c s :
  due next c startDate now s ↔
  (s = next c ∧ next c <= now ∧ match startDate with Some d => d <= next c | None => True end) ∨
  due next (next c) startDate now s.
Proof.
  pose proof (next_after _ Hcron c) as Hn. unfold due. split.
  - intros (Ha & Hc & Hnow & Hd). pose proof (next_gap c s Ha Hc).
    destruct (decide (s = next c)) as [->|]; [by left|right]. split_and!; try done. lia.
  - intros [(-> & Hnow & Hd)|(Ha & Hc & Hnow & Hd)].
    + split_and!; try done. by exists c.
    + split_and!; try done. lia.
Qed.

(** The loop from [cursor] appends due slots in order, all of them unless it
    stops at the cap; it needs one unit of fuel per instant at most. *)
Lemma slotLoop_spec fuel cursor slots :
  (Z.to_nat (now - cursor) < fuel)%nat → Z.of_nat (length slots) < maxSlots →
  ∃ more, slotLoop next fuel startDate now maxSlots cursor slots = Some (slots ++ more) ∧
    StronglySorted Z.lt more ∧ (∀ s, s ∈ more → due next cursor startDate now s) ∧
    (Z.of_nat (length (slots ++ more)) <= maxSlots) ∧
    (∀ s, due next cursor startDate now s →
       s ∈ more ∨ (Z.of_nat (length (slots ++ more)) = maxSlots ∧ ∀ m, m ∈ more → m < s)).
Proof.
  revert cursor slots. induction fuel as [|fuel IH]; intros cursor slots Hf Hlen; [lia|].
  pose proof (next_after _ Hcron cursor) as Hn. simpl.
  destruct (now <? next cursor) eqn:Enow; zbool.
  { exists []. rewrite app_nil_r. split_and!; [done|constructor|set_solver|lia|].
    intros s Hs. apply due_step in Hs as [(-> & ? & _)|(_ & ? & ? & _)]; lia. }
  destruct (match startDate with Some s => next cursor <? s | None => false end) eqn:Esd.
  { destruct (IH (next cursor) slots) as (more & Hl & Hsort & Hdue & Hle & Hall); [lia|done|].
    exists more. split_and!; try done.
    - intros s Hs. apply due_step. right. by apply Hdue.
    - intros s Hs. apply due_step in Hs as [(-> & _ & Hd)|Hs]; [|by apply Hall].
      destruct startDate; [zbool; lia|done]. }
  assert (Hok : match startDate with Some d => d <= next cursor | None => True end).
  { destruct startDate; [by zbool|done]. }
  assert (Hcdue : due next cursor startDate now (next cursor)) by (apply due_step; by left).
  rewrite length_app. simpl.
  destruct (maxSlots <=? Z.of_nat (length slots + 1)) eqn:Ecap; zbool.
  { exists [next cursor]. rewrite length_app. simpl. split_and!; [done| | |lia|].
    - repeat constructor.
    - intros s ->%list_elem_of_singleton. done.
    - intros s Hs. apply due_step in Hs as [(-> & _)|(_ & Hs & _)]; [left; left|right].
      split; [lia|]. by intros m ->%list_elem_of_singleton. }
  destruct (IH (next cursor) (slots ++ [next cursor])) as (more & Hl & Hsort & Hdue & Hle & Hall).
  { lia. }
  { rewrite length_app. simpl. lia. }
  exists (next cursor :: more). replace (slots ++ next cursor :: more)
    with ((slots ++ [next cursor]) ++ more) by (by rewrite <- app_assoc).
  split_and!; try done.
  - constructor; [done|]. apply list.Forall_forall. intros s Hs. by apply Hdue in Hs as (_ & ? & _).
  - intros s [->|Hs]%elem_of_cons; [done|]. apply due_step. right. by apply Hdue.
  - intros s Hs. apply due_step in Hs as [(-> & _)|Hs]; [left; left|].
    destruct (Hall s Hs) as [?|[Hcap Hlt]]; [left; by right|right]. split; [done|].
    intros m [->|Hm]%elem_of_cons; [by destruct Hs as (_ & ? & _)|auto].
Qed.

End slot_facts.

(** ** The slot enumeration is exact *)

(** The due slots in order, each once, as many as the cap allows: the list
    [dueSlots] computes with catch-up on. *)
Definition first_due (next : Z → Z) (seed : Z) (startDate : option Z) (now maxSlots : Z)
    (slots : list Z) : Prop :=
  StronglySorted Z.lt slots ∧
  (∀ s, s ∈ slots → due next seed startDate now s) ∧
  Z.of_nat (length slots) <= maxSlots ∧
  (∀ s, due next seed startDate now s →
     s ∈ slots ∨ (Z.of_nat (length slots) = maxSlots ∧ ∀ m, m ∈ slots → m < s)).

Section due_slots.
Context (next : Z → Z) (Hcron : cron_live next).
Context (lastLogical startDate : option Z) (now maxSlots seed : Z) (fuel : nat).
Context (Hseed : catchupSeed next lastLogical startDate now = Some seed).
Context (Hmax : 0 < maxSlots) (Hfuel : (Z.to_nat (now - seed) < fuel)%nat).

Lemma dueSlots_raw : ∃ slots,
  slotLoop next fuel startDate now maxSlots seed [] = Some slots ∧
  first_due next seed startDate now maxSlots slots.
Proof.
  destruct (slotLoop_spec next Hcron startDate now maxSlots fuel seed []) as (l & ? & ?);
    [done|simpl; lia|]. by exists l.
Qed.

(** The greatest element of a sorted list is its last one. *)
Lemma lastOnly_sorted (l : list Z) :
  StronglySorted Z.lt l → l ≠ [] →
  ∃ s, lastOnly l = [s] ∧ s ∈ l ∧ ∀ m, m ∈ l → m <= s.
Proof.
  unfold lastOnly. induction 1 as [|x l Hs IH Hx]; [done|]. intros _.
  destruct l as [|y l].
  { exists x. simpl. split_and!; [done|left|]. by intros m ->%list_elem_of_singleton. }
  destruct IH as (s & Hd & Hin & Hge); [done|]. exists s.
  replace (length (x :: y :: l) - 1)%nat with (S (length (y :: l) - 1)) by (simpl; lia).
  rewrite skipn_cons. split_and!; [done|by right|].
  intros m [->|Hm]%elem_of_cons; [|by apply Hge].
  pose proof (Forall_elem _ _ _ Hx Hin). lia.
Qed.

Lemma dueSlots_catchup : ∃ slots,
  dueSlots next fuel lastLogical startDate now true maxSlots = Some slots ∧
  first_due next seed startDate now maxSlots slots.
Proof.
  destruct dueSlots_raw as (slots & Hl & Hf). exists slots. split; [|done].
  unfold dueSlots. rewrite Hseed, Hl. simpl. by destruct slots.
Qed.

Lemma dueSlots_latest : ∃ slots,
  first_due next seed startDate now maxSlots slots ∧
  ((slots = [] ∧ dueSlots next fuel lastLogical startDate now false maxSlots = Some []) ∨
   (∃ s, s ∈ slots ∧ (∀ m, m ∈ slots → m <= s) ∧
      dueSlots next fuel lastLogical startDate now false maxSlots = Some [s])).
Proof.
  destruct dueSlots_raw as (slots & Hl & Hf). exists slots. split; [done|].
  unfold dueSlots. rewrite Hseed, Hl. simpl. destruct slots as [|a l]; [by left|right].
  destruct (lastOnly_sorted (a :: l)) as (s & Hd & Hin & Hge); [apply Hf|done|].
  exists s. rewrite Hd. done.
Qed.

End due_slots.

(** ** Properties *)

(** C18: catch-up enumeration is total and exact for every schedule whose [Next]
    advances: with fuel for the instants between the seed and [now], the loop
    returns the due slots (activations after the last logical date, not after
    [now], not before the start date) in strictly increasing order, without
    repetition, all of them up to the per-tick cap, and when the cap cuts the
    list it keeps the earliest ones. *)
Theorem catchup_slots_exact next lastLogical startDate now maxSlots seed fuel :
  cron_live next → catchupSeed next lastLogical startDate now = Some seed →
  0 < maxSlots → (Z.to_nat (now - seed) < fuel)%nat →
  ∃ slots, dueSlots next fuel lastLogical startDate now true maxSlots = Some slots ∧
    first_due next seed startDate now maxSlots slots.
Proof. intros. by apply dueSlots_catchup. Qed.

(** without catch-up at most one slot is returned; it is the most recent
    due slot when fewer than [maxSlots] slots are due, nothing is returned only
    when nothing is due, and otherwise the slot returned is the last of the
    [maxSlots] earliest due ones. *)
Theorem no_catchup_single_slot next lastLogical startDate now maxSlots seed fuel :
  cron_live next → catchupSeed next lastLogical startDate now = Some seed →
  0 < maxSlots → (Z.to_nat (now - seed) < fuel)%nat →
  ∃ res, dueSlots next fuel lastLogical startDate now false maxSlots = Some res ∧
    match res with
    | [] => ∀ s, ¬ due next seed startDate now s
    | [s] => due next seed startDate now s ∧
        ((∀ u, due next seed startDate now u → u <= s) ∨
         ∃ first, first_due next seed startDate now maxSlots first ∧
           Z.of_nat (length first) = maxSlots ∧ s ∈ first ∧ ∀ m, m ∈ first → m <= s)
    | _ => False
    end.
Proof.
  intros Hc Hseed Hmax Hfuel.
  destruct (dueSlots_latest next Hc lastLogical startDate now maxSlots seed fuel)
    as (slots & Hf & [[-> He]|(s & Hin & Hge & He)]); [done..| |].
  - exists []. split; [done|]. intros s Hs.
    destruct Hf as (_ & _ & _ & Hall). simpl in Hall.
    destruct (Hall s Hs) as [Hn|[? _]]; [by apply not_elem_of_nil in Hn|lia].
  - exists [s]. split; [done|]. pose proof Hf as (_ & Hdue & _ & Hall). split; [by apply Hdue|].
    destruct (decide (Z.of_nat (length slots) = maxSlots)); [right; by exists slots|left].
    intros u Hu. destruct (Hall u Hu) as [?|[? _]]; [by apply Hge|done].
Qed.

(** The hourly schedule, in minutes. *)
Definition hourly (t : Z) : Z := (t / 60 + 1) * 60.

Lemma hourly_live : cron_live hourly.
Proof. split; unfold hourly; intros; Z.to_euclidean_division_equations; lia. Qed.

Lemma catchup_slots_exact_witness :
  ∃ slots, dueSlots hourly 400 (Some 0) (Some 120) 300 true 100 = Some slots ∧
    first_due hourly 0 (Some 120) 300 100 slots.
Proof. apply catchup_slots_exact; [apply hourly_live|reflexivity|lia|lia]. Defined.

Lemma no_catchup_single_slot_witness :
  ∃ res, dueSlots hourly 400 (Some 0) (Some 120) 300 false 100 = Some res ∧
    match res with
    | [] => ∀ s, ¬ due hourly 0 (Some 120) 300 s
    | [s] => due hourly 0 (Some 120) 300 s ∧
        ((∀ u, due hourly 0 (Some 120) 300 u → u <= s) ∨
         ∃ first, first_due hourly 0 (Some 120) 300 100 first ∧
           Z.of_nat (length first) = 100 ∧ s ∈ first ∧ ∀ m, m ∈ first → m <= s)
    | _ => False
    end.
Proof. apply no_catchup_single_slot; [apply hourly_live|reflexivity|lia|lia]. Defined.

(** The slots enumerated for three missed hours, with and without catch-up. *)
Example hourly_catchup :
  dueSlots hourly 10 (Some 0) (Some 120) 300 true 100 = Some [120; 180; 240; 300].
Proof. reflexivity. Qed.

Example hourly_no_catchup :
  dueSlots hourly 10 (Some 0) (Some 120) 300 false 100 = Some [300].
Proof. reflexivity. Qed.

(** with more missed slots than the per-tick cap the slot fired without
    catch-up is not the most recent one: after 150 missed hourly slots and a cap
    of 100, slot 100 is fired although slot 150 is due. *)
Theorem no_catchup_not_most_recent :
  dueSlots hourly 200 (Some 0) None (150 * 60) false 100 = Some [100 * 60] ∧
  due hourly 0 None (150 * 60) (150 * 60).
Proof.
  split; [vm_compute; reflexivity|]. unfold due. split_and!; [|lia|lia|done].
  exists (149 * 60). reflexivity.
Qed.

(** [Next] returns the zero time for a date that never comes (30 February).
    With a last logical date and a start date set the enumeration never leaves
    its loop, whatever the fuel: the zero time is neither after [now] nor past
    the floor. *)
Theorem impossible_date_diverges fuel last start now catchup maxSlots :
  0 <= now → 0 < start →
  dueSlots (λ _, 0) fuel (Some last) (Some start) now catchup maxSlots = None.
Proof.
  intros Hnow Hstart. unfold dueSlots. simpl.
  assert (Hloop : ∀ c sl, slotLoop (λ _, 0) fuel (Some start) now maxSlots c sl = None).
  { induction fuel as [|f IH]; intros c sl; [done|]. simpl.
    replace (now <? 0) with false by lia. replace (0 <? start) with true by lia. apply IH. }
  by rewrite Hloop.
Qed.

Lemma impossible_date_diverges_witness :
  dueSlots (λ _, 0) 1000 (Some 5) (Some 3) 9 true 100 = None.
Proof. apply impossible_date_diverges; lia. Defined.

(** ** The enumeration ends *)

(** More fuel changes nothing. *)
Lemma slotLoop_more next startDate now maxSlots fuel fuel' cursor slots l : (fuel <= fuel')%nat →
  slotLoop next fuel startDate now maxSlots cursor slots = Some l →
  slotLoop next fuel' startDate now maxSlots cursor slots = Some l.
Proof.
  revert fuel' cursor slots. induction fuel as [|fuel IH]; intros [|fuel'] cursor slots Hf; try done; [lia|]. cbn [slotLoop].
  repeat case_match; try done; apply IH; lia.
Qed.

Lemma dueSlots_more next fuel fuel' last startDate now catchup maxSlots l : (fuel <= fuel')%nat →
  dueSlots next fuel last startDate now catchup maxSlots = Some l →
  dueSlots next fuel' last startDate now catchup maxSlots = Some l.
Proof.
  intros Hf. unfold dueSlots. destruct (catchupSeed _ _ _ _) as [seed|]; [|done].
  destruct (slotLoop next fuel _ _ _ _ _) as [sl|] eqn:E; [|done]. by rewrite (slotLoop_more _ _ _ _ _ _ _ _ _ Hf E).
Qed.

(** A date that never comes, unless the zero time is before the start date: the zero time is
    taken for a slot until the cap is reached. *)
Lemma slotLoop_never startDate now maxSlots fuel cursor slots :
  now < 0 ∨ match startDate with Some s => s <= 0 | None => True end →
  (Z.to_nat (maxSlots - Z.of_nat (length slots)) < fuel)%nat →
  is_Some (slotLoop (λ _, 0) fuel startDate now maxSlots cursor slots).
Proof.
  intros Hs. revert cursor slots. induction fuel as [|fuel IH]; intros cursor slots Hf; [lia|]. cbn [slotLoop].
  destruct (now <? 0) eqn:En; [by eexists|].
  assert ((match startDate with Some s => 0 <? s | None => false end) = false) as ->
    by (destruct startDate; [apply Z.ltb_ge; destruct Hs; lia|done]).
  destruct (maxSlots <=? Z.of_nat (length (slots ++ [0]))) eqn:Ec; [by eexists|]. apply Z.leb_gt in Ec.
  apply IH. rewrite length_app in *. cbn [length] in *. lia.
Qed.

(** The two kinds of schedules the cron library makes: [Next] is the first activation after
    its argument, or the zero time when no date ever comes. *)
Definition cron_schedule (next : Z → Z) : Prop := cron_live next ∨ ∀ t, next t = 0.

(** A schedule without a next date that has a last run and a positive start date. *)
Definition stuck (next : Z → Z) (last startDate : option Z) : Prop :=
  (∀ t, next t = 0) ∧ is_Some last ∧ ∃ s, startDate = Some s ∧ 0 < s.

Lemma slotLoop_ext next next' fuel startDate now maxSlots cursor slots : (∀ t, next t = next' t) →
  slotLoop next fuel startDate now maxSlots cursor slots = slotLoop next' fuel startDate now maxSlots cursor slots.
Proof.
  intros H. revert cursor slots. induction fuel as [|fuel IH]; intros cursor slots; [done|]. cbn [slotLoop]. rewrite H.
  repeat case_match; done.
Qed.

Lemma dueSlots_ends next last startDate now catchup maxSlots : cron_schedule next → 0 < maxSlots →
  now < 0 ∨ ¬ stuck next last startDate →
  ∃ fuel, is_Some (dueSlots next fuel last startDate now catchup maxSlots).
Proof.
  intros Hc Hm Hs. unfold dueSlots. destruct (catchupSeed next last startDate now) as [seed|] eqn:Es; [|by exists 0%nat; eexists].
  assert (∃ fuel, is_Some (slotLoop next fuel startDate now maxSlots seed [])) as (fuel & l & E).
  { destruct Hc as [Hc|Hz].
    - exists (S (Z.to_nat (now - seed))). destruct (slotLoop_spec next Hc startDate now maxSlots (S (Z.to_nat (now - seed))) seed []) as (l & -> & _);
        [lia|simpl; lia|]. by eexists.
    - exists (S (Z.to_nat maxSlots)). rewrite (slotLoop_ext next (λ _, 0)) by done. apply slotLoop_never; [|simpl; lia].
      destruct Hs as [|Hs]; [by left|right]. destruct startDate as [s|]; [|done]. destruct (Z.le_gt_cases s 0); [done|]. exfalso.
      destruct last as [x|]; [apply Hs; split; [done|]; split; [by eexists|by exists s]|].
      unfold catchupSeed, schedulePeriod in Es. rewrite !Hz in Es. done. }
  exists fuel. rewrite E. by eexists.
Qed.
