(* ===== verification/RunCreation.v ===== *)
(** * Creating the due runs of a tick

    [createDueRuns], [hasHeadroom], [recordCapSkip] and [createScheduledRun] of
    [internal/scheduler/scheduler.go], with the schedule tests of
    [internal/domain/schedule.go].

    The store is a parameter: [CreateScheduledRun] maps a store state, a DAG and
    a logical date to a new state and whether it returned no error.  The cron
    parser is the parameter of [Catchup].  What the tick does is the log of its
    creation attempts, the decisions it records and the warnings it keeps. *)

From Stdlib Require Import ZArith Lia.
From stdpp Require Import base numbers strings gmap option list.
From S2P Require Import Prelude Catchup.

Open Scope Z_scope.

(** ** Schedules that are not cron *)

(** [unicode.IsSpace] *)
Definition isSpace (c : Z) : bool :=
  bool_decide (c ∈ [9; 10; 11; 12; 13; 32; 133; 160; 5760; 8232; 8233; 8239; 8287; 12288])
  || ((8192 <=? c) && (c <=? 8202)).

Fixpoint trimLeft (s : list Z) : list Z :=
  match s with
  | [] => []
  | c :: r => if isSpace c then trimLeft r else s
  end.

(** [strings.TrimSpace] *)
Definition trimSpace (s : list Z) : list Z := reverse (trimLeft (reverse (trimLeft s))).

Definition lowerAscii (c : Z) : Z := if (65 <=? c) && (c <=? 90) then c + 32 else c.

(** [unicode.ToLower], on the code points whose lower case is ASCII: the ASCII
    capitals, the dotted capital I and the Kelvin sign.  Every other code point
    has a lower case outside ASCII and is left as it is, which no comparison with
    an ASCII literal can observe. *)
Definition lowerRune (c : Z) : Z :=
  if c =? 304 then 105 else if c =? 8490 then 107 else lowerAscii c.

Definition IsCronlessSchedule (expr : list Z) : bool :=
  let e := map lowerRune (trimSpace expr) in
  bool_decide (e = []) || bool_decide (e = runes "@once") || bool_decide (e = runes "@continuous").

(** [strings.EqualFold] against a literal with no letter that folds outside
    ASCII. *)
Definition IsOnceSchedule (expr : list Z) : bool :=
  bool_decide (map lowerAscii (trimSpace expr) = runes "@once").

Definition ValidateSchedule (parse : list Z → option (Z → Z)) (schedule : option (list Z)) : bool :=
  match schedule with
  | None => true
  | Some s =>
    let expr := trimSpace s in
    if IsCronlessSchedule expr then true else bool_decide (is_Some (parse expr))
  end.

(** ** The tick *)

Record ScheduledDAG := {
  DagID : string;
  Schedule : list Z;
  LastLogical : option Z;
  StartDate : option Z;
  SdCatchup : bool;
  MaxActiveRuns : Z;
}.

Definition maxCatchupSlotsPerTick : Z := 100.

Inductive Decision :=
  | max_active_runs_cap
  | create_run
  | create_run_error.

#[export] Instance Decision_eq_dec : EqDecision Decision.
Proof. solve_decision. Defined.

Section create.
Context {Store : Type}.
Context (CreateScheduledRun : Store → string → Z → Store * bool).
Context (parse : list Z → option (Z → Z)) (fuel : nat) (now : Z).
Context (activeByDAG : gmap string Z).

Record Tick := {
  store : Store;
  createdThisTick : gmap string Z;
  attempts : list (string * Z);
  decisions : list Decision;
  warnedSchedules : gmap string (list Z);
}.

Definition hasHeadroom (d : ScheduledDAG) (justCreated : gmap string Z) : bool :=
  if MaxActiveRuns d <=? 0 then true
  else mget 0 activeByDAG (DagID d) + mget 0 justCreated (DagID d) <? MaxActiveRuns d.

Definition record (t : Tick) (x : Decision) : Tick :=
  {| store := store t; createdThisTick := createdThisTick t; attempts := attempts t;
     decisions := decisions t ++ [x]; warnedSchedules := warnedSchedules t |}.

Definition recordCapSkip (t : Tick) : Tick := record t max_active_runs_cap.

Definition createScheduledRun (t : Tick) (dag : string) (logical : Z) : Tick :=
  let '(s, ok) := CreateScheduledRun (store t) dag logical in
  let t := {| store := s; createdThisTick := createdThisTick t;
              attempts := attempts t ++ [(dag, logical)];
              decisions := decisions t; warnedSchedules := warnedSchedules t |} in
  if ok then record t create_run else record t create_run_error.

(** [createdThisTick[dagID]++] *)
Definition countCreated (t : Tick) (dag : string) : Tick :=
  {| store := store t;
     createdThisTick := <[dag := mget 0 (createdThisTick t) dag + 1]> (createdThisTick t);
     attempts := attempts t; decisions := decisions t; warnedSchedules := warnedSchedules t |}.

Definition createAndCount (t : Tick) (dag : string) (logical : Z) : Tick :=
  countCreated (createScheduledRun t dag logical) dag.

Definition warnSchedule (t : Tick) (d : ScheduledDAG) : Tick :=
  if bool_decide (mget [] (warnedSchedules t) (DagID d) ≠ Schedule d)
  then {| store := store t; createdThisTick := createdThisTick t; attempts := attempts t;
          decisions := decisions t;
          warnedSchedules := <[DagID d := Schedule d]> (warnedSchedules t) |}
  else t.

(** The inner loop over the due slots, left by [break] when the cap is reached. *)
Fixpoint createSlots (t : Tick) (d : ScheduledDAG) (slots : list Z) : Tick :=
  match slots with
  | [] => t
  | logical :: rest =>
    if hasHeadroom d (createdThisTick t)
    then createSlots (createAndCount t (DagID d) logical) d rest
    else recordCapSkip t
  end.

(** One iteration over a scheduled DAG; [None] is a slot enumeration out of
    fuel. *)
Definition createForDag (t : Tick) (d : ScheduledDAG) : option Tick :=
  if IsOnceSchedule (Schedule d) then
    Some (match LastLogical d with
          | None => createAndCount t (DagID d) now
          | Some _ => t
          end)
  else if IsCronlessSchedule (Schedule d) then Some t
  else if negb (scheduleParseable parse (Schedule d)) then Some (warnSchedule t d)
  else
    match LastLogical d, StartDate d with
    | None, None =>
      match nextScheduledRun parse (Schedule d) (LastLogical d) now with
      | None => Some t
      | Some logical =>
        Some (if hasHeadroom d (createdThisTick t)
              then createAndCount t (DagID d) logical
              else recordCapSkip t)
      end
    | _, _ =>
      slots ← dueScheduledSlots parse fuel (Schedule d) (LastLogical d) (StartDate d) now
                (SdCatchup d) maxCatchupSlotsPerTick;
      Some (createSlots t d slots)
    end.

Fixpoint createLoop (t : Tick) (dags : list ScheduledDAG) : option Tick :=
  match dags with
  | [] => Some t
  | d :: rest => t ← createForDag t d; createLoop t rest
  end.

(** [createDueRuns] once [ScheduledDAGs] has answered [dags]. *)
Definition createDueRuns (s : Store) (warned : gmap string (list Z)) (dags : list ScheduledDAG)
    : option Tick :=
  createLoop {| store := s; createdThisTick := ∅; attempts := []; decisions := [];
                warnedSchedules := warned |} dags.

End create.

Arguments Tick : clear implicits.

(** ** What one tick attempts *)

Section tick_facts.
Context {St : Type} (create : St → string → Z → St * bool).
Context (parse : list Z → option (Z → Z)) (fuel : nat) (now : Z).
Context (active : gmap string Z).

(** How many runs of a DAG the tick has asked the store for. *)
Definition attemptsOf (id : string) (t : Tick St) : Z :=
  countb (λ a, bool_decide (a.1 = id)) (attempts t).

(** The counter the cap is tested against is the number of attempts. *)
Definition counted (t : Tick St) : Prop :=
  ∀ id, mget 0 (createdThisTick t) id = attemptsOf id t.

Lemma attempts_createAndCount t dag logical :
  attempts (createAndCount create t dag logical) = attempts t ++ [(dag, logical)].
Proof.
  unfold createAndCount, createScheduledRun. destruct (create _ _ _) as [s []]; done.
Qed.

Lemma attemptsOf_createAndCount t dag logical id :
  attemptsOf id (createAndCount create t dag logical) =
  attemptsOf id t + (if bool_decide (dag = id) then 1 else 0).
Proof. unfold attemptsOf. rewrite attempts_createAndCount, countb_app. simpl. lia. Qed.

Lemma created_createAndCount t dag logical id :
  mget 0 (createdThisTick (createAndCount create t dag logical)) id =
  mget 0 (createdThisTick t) id + (if bool_decide (dag = id) then 1 else 0).
Proof.
  unfold createAndCount, createScheduledRun.
  destruct (create _ _ _) as [s []]; simpl; rewrite mget_insert;
    (case_bool_decide; [subst; rewrite decide_True by done; done|rewrite decide_False by done; lia]).
Qed.

Lemma counted_createAndCount t dag logical :
  counted t → counted (createAndCount create t dag logical).
Proof. intros H id. by rewrite created_createAndCount, attemptsOf_createAndCount, H. Qed.

Lemma counted_createSlots t d slots : counted t → counted (createSlots create active t d slots).
Proof.
  revert t. induction slots as [|l slots IH]; intros t Ht; [done|]. simpl.
  case_goal; [by apply IH, counted_createAndCount|done].
Qed.

(** A run is asked for only below the cap. *)
Definition within_cap (d : ScheduledDAG) (before after : Tick St) : Prop :=
  mget 0 active (DagID d) + attemptsOf (DagID d) after <=
  Z.max (mget 0 active (DagID d) + attemptsOf (DagID d) before) (MaxActiveRuns d).

Lemma within_cap_create t d l :
  counted t → 0 < MaxActiveRuns d → hasHeadroom active d (createdThisTick t) = true →
  within_cap d t (createAndCount create t (DagID d) l).
Proof.
  intros Hc Hm. unfold hasHeadroom, within_cap.
  rewrite (proj2 (Z.leb_gt _ _) Hm), Hc, attemptsOf_createAndCount, bool_decide_true by done.
  intros ?%Z.ltb_lt. lia.
Qed.

Lemma within_cap_slots t d slots :
  counted t → 0 < MaxActiveRuns d → within_cap d t (createSlots create active t d slots).
Proof.
  revert t. induction slots as [|l slots IH]; intros t Hc Hm; simpl.
  { unfold within_cap. lia. }
  destruct (hasHeadroom active d (createdThisTick t)) eqn:Eh; [|unfold within_cap, attemptsOf; simpl; lia].
  specialize (IH _ (counted_createAndCount t (DagID d) l Hc) Hm).
  pose proof (within_cap_create t d l Hc Hm Eh). unfold within_cap in *. lia.
Qed.

(** Creating for one DAG leaves the others alone. *)
Lemma attemptsOf_createSlots_ne t d slots id :
  DagID d ≠ id → attemptsOf id (createSlots create active t d slots) = attemptsOf id t.
Proof.
  intros Hne. revert t. induction slots as [|l slots IH]; intros t; simpl; [done|].
  case_goal; [|done]. rewrite IH, attemptsOf_createAndCount, bool_decide_false by done. lia.
Qed.

Lemma createForDag_cases t d t' :
  createForDag create parse fuel now active t d = Some t' →
  (createdThisTick t' = createdThisTick t ∧ attempts t' = attempts t) ∨
  (IsOnceSchedule (Schedule d) = true ∧ LastLogical d = None ∧ t' = createAndCount create t (DagID d) now) ∨
  (IsOnceSchedule (Schedule d) = false ∧ ∃ slots, t' = createSlots create active t d slots).
Proof.
  unfold createForDag. destruct (IsOnceSchedule _) eqn:Eo.
  { intros [= <-]. destruct (LastLogical d); [by left|]. right; left. done. }
  case_goal; [intros [= <-]; by left|].
  case_goal.
  { intros [= <-]. left. unfold warnSchedule. by case_goal. }
  assert (Hsl : ∀ o : option (list Z), (slots ← o; Some (createSlots create active t d slots)) = Some t' →
    ∃ slots, t' = createSlots create active t d slots).
  { intros [slots|] H; [|done]. simpl in H. injection H as <-. by exists slots. }
  destruct (LastLogical d) as [l|]; [intros Hd; right; right; split; eauto|].
  destruct (StartDate d) as [s|]; [intros Hd; right; right; split; eauto|].
  destruct (nextScheduledRun _ _ _ _) as [l|]; intros [= <-]; [|by left].
  right; right. split; [done|]. exists [l]. done.
Qed.

Lemma createForDag_facts t d t' :
  counted t → createForDag create parse fuel now active t d = Some t' →
  counted t' ∧ (∀ id, DagID d ≠ id → attemptsOf id t' = attemptsOf id t) ∧
  (IsOnceSchedule (Schedule d) = false → 0 < MaxActiveRuns d → within_cap d t t').
Proof.
  intros Hc [[Hm Ha]|[(Ho & Hn & ->)|(Ho & slots & ->)]]%createForDag_cases.
  - split_and!.
    + intros id. unfold counted, attemptsOf in *. by rewrite Hm, Ha.
    + intros. unfold attemptsOf. by rewrite Ha.
    + intros. unfold within_cap, attemptsOf. rewrite Ha. lia.
  - split_and!; [by apply counted_createAndCount| |congruence].
    intros id Hne. rewrite attemptsOf_createAndCount, bool_decide_false by done. lia.
  - split_and!; [by apply counted_createSlots|intros; by apply attemptsOf_createSlots_ne|].
    intros. by apply within_cap_slots.
Qed.

(** The attempts for a DAG are those of its own iteration. *)
Lemma createLoop_other t dags t' id :
  counted t → createLoop create parse fuel now active t dags = Some t' →
  id ∉ DagID <$> dags → attemptsOf id t' = attemptsOf id t.
Proof.
  revert t. induction dags as [|d dags IH]; intros t Hc; simpl; [by intros [= <-]|].
  destruct (createForDag _ _ _ _ _ t d) as [t1|] eqn:E; [|done]. simpl.
  intros Hl [Hne Hnin]%not_elem_of_cons.
  destruct (createForDag_facts _ _ _ Hc E) as (Hc1 & Hoth & _).
  rewrite (IH t1) by done. by apply Hoth.
Qed.

Lemma createLoop_own t dags t' d :
  counted t → NoDup (DagID <$> dags) → d ∈ dags →
  createLoop create parse fuel now active t dags = Some t' →
  ∃ t1 t2, counted t1 ∧ createForDag create parse fuel now active t1 d = Some t2 ∧
    attemptsOf (DagID d) t1 = attemptsOf (DagID d) t ∧
    attemptsOf (DagID d) t' = attemptsOf (DagID d) t2.
Proof.
  revert t. induction dags as [|e dags IH]; intros t Hc Hnd Hin; [by apply not_elem_of_nil in Hin|].
  simpl. destruct (createForDag _ _ _ _ _ t e) as [t1|] eqn:E; [|done]. simpl. intros Hl.
  rewrite fmap_cons in Hnd. apply NoDup_cons in Hnd as [Hni Hnd].
  destruct (createForDag_facts _ _ _ Hc E) as (Hc1 & Hoth & _).
  apply elem_of_cons in Hin as [->|Hin].
  - exists t, t1. split_and!; try done. by eapply createLoop_other.
  - destruct (IH t1) as (u1 & u2 & ? & ? & H1 & ?); [done..|].
    exists u1, u2. split_and!; try done. rewrite H1. apply Hoth.
    intros Heq. apply Hni. rewrite Heq. by apply list_elem_of_fmap_2.
Qed.

End tick_facts.

Lemma counted_start {St} (s : St) w :
  counted {| store := s; createdThisTick := ∅; attempts := []; decisions := []; warnedSchedules := w |}.
Proof. intros id. apply mget_empty. Qed.

(** ** Properties *)

(** *** The tick ends *)

(** A DAG whose cron date never comes, with a last run and a positive start date. *)
Definition neverDue (parse : list Z → option (Z → Z)) (d : ScheduledDAG) : Prop :=
  IsOnceSchedule (Schedule d) = false ∧ IsCronlessSchedule (Schedule d) = false ∧
  ∃ next, parse (Schedule d) = Some next ∧ stuck next (LastLogical d) (StartDate d).

(** What the library promises of every expression it accepts. *)
Definition cron_library (parse : list Z → option (Z → Z)) : Prop := ∀ e next, parse e = Some next → cron_schedule next.

Section ends.
Context {St : Type} (create : St → string → Z → St * bool).
Context (parse : list Z → option (Z → Z)) (now : Z) (active : gmap string Z).

Lemma createForDag_more fuel fuel' t d t' : (fuel <= fuel')%nat →
  createForDag create parse fuel now active t d = Some t' → createForDag create parse fuel' now active t d = Some t'.
Proof.
  intros Hf. unfold createForDag. do 3 (case_match; [done|]).
  assert (∀ A (o o' : option A) (f : A → Tick St), (∀ l, o = Some l → o' = Some l) → (x ← o; Some (f x)) = Some t' → (x ← o'; Some (f x)) = Some t') as Hb.
  { intros A [l|] o' f Ho; [|done]. by rewrite (Ho l eq_refl). }
  assert (∀ l, dueScheduledSlots parse fuel (Schedule d) (LastLogical d) (StartDate d) now (SdCatchup d) maxCatchupSlotsPerTick = Some l →
    dueScheduledSlots parse fuel' (Schedule d) (LastLogical d) (StartDate d) now (SdCatchup d) maxCatchupSlotsPerTick = Some l) as Hd.
  { intros l. unfold dueScheduledSlots. case_match; [|done]. by apply dueSlots_more. }
  destruct (LastLogical d), (StartDate d); try done; by apply Hb.
Qed.

Lemma createForDag_ends t d : cron_library parse → now < 0 ∨ ¬ neverDue parse d →
  ∃ fuel, ∀ fuel', (fuel <= fuel')%nat → is_Some (createForDag create parse fuel' now active t d).
Proof.
  intros Hp Hn. enough (∃ fuel, is_Some (createForDag create parse fuel now active t d)) as (fuel & t' & E).
  { exists fuel. intros fuel' Hf. exists t'. by eapply createForDag_more. }
  unfold createForDag. destruct (IsOnceSchedule (Schedule d)) eqn:Eo; [by exists 0%nat; eexists|].
  destruct (IsCronlessSchedule (Schedule d)) eqn:Ec; [by exists 0%nat; eexists|].
  destruct (negb (scheduleParseable parse (Schedule d))) eqn:En; [by exists 0%nat; eexists|].
  assert (∃ fuel, is_Some (dueScheduledSlots parse fuel (Schedule d) (LastLogical d) (StartDate d) now (SdCatchup d) maxCatchupSlotsPerTick)) as (fuel & l & E).
  { unfold dueScheduledSlots. destruct (parse (Schedule d)) as [next|] eqn:Ep; [|by exists 0%nat; eexists].
    apply dueSlots_ends; [by eapply Hp|done|]. destruct Hn as [|Hn]; [by left|right]. intros Hs. apply Hn. split_and!; [done..|]. by exists next. }
  exists fuel. rewrite E. destruct (LastLogical d), (StartDate d); try by eexists. case_match; by eexists.
Qed.

Lemma createLoop_ends t dags : cron_library parse → (now < 0 ∨ ∀ d, d ∈ dags → ¬ neverDue parse d) →
  ∃ fuel, ∀ fuel', (fuel <= fuel')%nat → is_Some (createLoop create parse fuel' now active t dags).
Proof.
  intros Hp. revert t. induction dags as [|d dags IH]; intros t Hn; [by exists 0%nat; eexists|].
  destruct (createForDag_ends t d Hp) as (f1 & H1); [destruct Hn as [|Hn]; [by left|right; apply Hn; left]|].
  destruct (H1 f1) as [t1 E1]; [done|]. destruct (IH t1) as (f2 & H2); [destruct Hn as [|Hn]; [by left|right; intros x Hx; apply Hn; by right]|].
  exists (f1 `max` f2)%nat. intros fuel' Hf. cbn [createLoop]. rewrite (createForDag_more f1 fuel' t d t1); [|lia|done]. apply H2. lia.
Qed.

(** The runs asked for under an id stay within a cap that none of its DAGs exceeds. *)
Definition capped (id : string) (m : Z) (t : Tick St) : Prop :=
  mget 0 active id + attemptsOf id t <= Z.max (mget 0 active id) m.

Lemma createLoop_capped fuel id m dags t t' : counted t → capped id m t →
  (∀ d, d ∈ dags → DagID d = id → IsOnceSchedule (Schedule d) = false ∧ 0 < MaxActiveRuns d <= m) →
  createLoop create parse fuel now active t dags = Some t' → capped id m t'.
Proof.
  revert t. induction dags as [|d dags IH]; intros t Hc Hm Hd; cbn [createLoop]; [by intros [= <-]|].
  destruct (createForDag create parse fuel now active t d) as [t1|] eqn:E; [|done]. cbn [mbind option_bind].
  destruct (createForDag_facts create parse fuel now active _ _ _ Hc E) as (Hc1 & Hoth & Hcap). apply IH; [done| |by intros x Hx; apply Hd; right].
  unfold capped, within_cap in *. destruct (decide (DagID d = id)) as [<-|Hne]; [|by rewrite Hoth].
  destruct (Hd d) as [Ho Hmd]; [left|done|]. specialize (Hcap Ho ltac:(lia)). lia.
Qed.

End ends.


(** an [@once] DAG is run exactly one time: the tick asks for one run when
    the DAG has none and for no run ever after, independently of its cap. *)
Theorem once_schedule_fires_once {St} (create : St → string → Z → St * bool)
    parse fuel now active s warned dags t d :
  NoDup (DagID <$> dags) → d ∈ dags → IsOnceSchedule (Schedule d) = true →
  createDueRuns create parse fuel now active s warned dags = Some t →
  attemptsOf (DagID d) t = match LastLogical d with Some _ => 0 | None => 1 end.
Proof.
  intros Hnd Hin Ho Hrun.
  destruct (createLoop_own create parse fuel now active _ _ _ d (counted_start s warned) Hnd Hin Hrun)
    as (t1 & t2 & Hc1 & Hd & Ht1 & ->).
  unfold createForDag in Hd. rewrite Ho in Hd. injection Hd as <-.
  destruct (LastLogical d); [done|].
  by rewrite attemptsOf_createAndCount, bool_decide_true, Ht1 by done.
Qed.

(** Two ticks that agree on what the guards read. *)
Definition same_plan {A B} (t : Tick A) (u : Tick B) : Prop :=
  createdThisTick t = createdThisTick u ∧ attempts t = attempts u ∧
  warnedSchedules t = warnedSchedules u.

Section two_stores.
Context {A B : Type} (ca : A → string → Z → A * bool) (cb : B → string → Z → B * bool).
Context (parse : list Z → option (Z → Z)) (fuel : nat) (now : Z) (active : gmap string Z).

Lemma same_plan_create t u dag l :
  same_plan t u → same_plan (createAndCount ca t dag l) (createAndCount cb u dag l).
Proof.
  intros (H1 & H2 & H3). unfold createAndCount, createScheduledRun.
  destruct (ca _ _ _) as [? []], (cb _ _ _) as [? []]; unfold same_plan; simpl; by rewrite H1, H2.
Qed.

Lemma same_plan_slots t u d slots :
  same_plan t u → same_plan (createSlots ca active t d slots) (createSlots cb active u d slots).
Proof.
  revert t u. induction slots as [|l slots IH]; intros t u H; [done|]. simpl.
  destruct H as (H1 & H2 & H3). rewrite H1. case_goal; [|done].
  by apply IH, same_plan_create.
Qed.

Lemma same_plan_dag t u d : same_plan t u →
  option_relation same_plan (λ _, False) (λ _, False)
    (createForDag ca parse fuel now active t d) (createForDag cb parse fuel now active u d).
Proof.
  intros H. pose proof H as (H1 & H2 & H3). unfold createForDag.
  destruct (IsOnceSchedule _); [destruct (LastLogical d); [done|by apply same_plan_create]|].
  destruct (IsCronlessSchedule _); [done|].
  destruct (negb _). { unfold warnSchedule. rewrite H3. case_goal; [|done]. unfold same_plan. simpl.
    by rewrite H1, H2. }
  assert (Hs : ∀ o : option (list Z), option_relation same_plan (λ _, False) (λ _, False)
    (slots ← o; Some (createSlots ca active t d slots)) (slots ← o; Some (createSlots cb active u d slots))).
  { intros [slots|]; [|done]. by apply same_plan_slots. }
  destruct (LastLogical d), (StartDate d); try apply Hs.
  destruct (nextScheduledRun _ _ _ _); [|done]. simpl. rewrite H1.
  destruct (hasHeadroom _ _ _); [by apply same_plan_create|done].
Qed.

Lemma same_plan_loop t u dags : same_plan t u →
  option_relation same_plan (λ _, False) (λ _, False)
    (createLoop ca parse fuel now active t dags) (createLoop cb parse fuel now active u dags).
Proof.
  revert t u. induction dags as [|d dags IH]; intros t u H; [done|]. simpl.
  pose proof (same_plan_dag t u d H) as Hd.
  destruct (createForDag ca _ _ _ _ t d), (createForDag cb _ _ _ _ u d); try done.
  by apply IH.
Qed.

End two_stores.

(** creation failures are isolated: the runs a tick asks for do not depend on
    which of its requests the store refuses, so one DAG's error never costs
    another DAG (or a later slot of the same DAG) its run. *)
Theorem creation_errors_are_isolated {A B} (ca : A → string → Z → A * bool)
    (cb : B → string → Z → B * bool) parse fuel now active sa sb warned dags :
  attempts <$> createDueRuns ca parse fuel now active sa warned dags =
  attempts <$> createDueRuns cb parse fuel now active sb warned dags.
Proof.
  unfold createDueRuns.
  match goal with |- attempts <$> createLoop _ _ _ _ _ ?t _ = attempts <$> createLoop _ _ _ _ _ ?u _ =>
    pose proof (same_plan_loop ca cb parse fuel now active t u dags) as H end.
  specialize (H ltac:(done)).
  destruct (createLoop ca _ _ _ _ _ _), (createLoop cb _ _ _ _ _ _); try done.
  simpl. f_equal. apply H.
Qed.

(** schedule validation and the scheduler disagree on white space: an
    expression the parser accepts trimmed and rejects as written (the descriptor
    [@daily] after a space) passes [ValidateSchedule] and is then warned about
    and never run. *)
Theorem validated_schedule_never_runs {St} (create : St → string → Z → St * bool)
    parse fuel now active (t : Tick St) d :
  IsCronlessSchedule (trimSpace (Schedule d)) = false →
  IsOnceSchedule (Schedule d) = false → IsCronlessSchedule (Schedule d) = false →
  is_Some (parse (trimSpace (Schedule d))) → parse (Schedule d) = None →
  ValidateSchedule parse (Some (Schedule d)) = true ∧
  createForDag create parse fuel now active t d = Some (warnSchedule t d) ∧
  attempts (warnSchedule t d) = attempts t.
Proof.
  intros H1 H2 H3 H4 H5. split_and!.
  - unfold ValidateSchedule. rewrite H1. by apply bool_decide_eq_true.
  - unfold createForDag, scheduleParseable. rewrite H2, H3, H5. done.
  - unfold warnSchedule. by case_goal.
Qed.

(** ** Witnesses *)

(** A store that refuses every request, and one DAG of each kind. *)
Definition refusing (n : nat) (_ : string) (_ : Z) : nat * bool := (S n, false).

Definition onlyHourly (e : list Z) : option (Z → Z) :=
  if bool_decide (e = runes "@hourly") then Some hourly else None.

Definition backfillDag : ScheduledDAG :=
  {| DagID := "etl"; Schedule := runes "@hourly"; LastLogical := Some 0; StartDate := None;
     SdCatchup := true; MaxActiveRuns := 3 |}.

Definition onceDag : ScheduledDAG :=
  {| DagID := "boot"; Schedule := runes " @Once"; LastLogical := None; StartDate := None;
     SdCatchup := false; MaxActiveRuns := 1 |}.

Definition spacedDag : ScheduledDAG :=
  {| DagID := "gap"; Schedule := runes " @hourly"; LastLogical := None; StartDate := None;
     SdCatchup := false; MaxActiveRuns := 1 |}.

Definition sampleTick : option (Tick nat) :=
  createDueRuns refusing onlyHourly 20 600 {["etl" := 1]} 0%nat ∅ [backfillDag; onceDag; spacedDag].

Example sampleTick_attempts :
  attempts <$> sampleTick = Some [("etl", 60); ("etl", 120); ("boot", 600)].
Proof. vm_compute. reflexivity. Qed.

Lemma onlyHourly_library : cron_library onlyHourly.
Proof. intros e next. unfold onlyHourly. case_match; [|done]. intros [= <-]. left. apply hourly_live. Defined.

Lemma onlyHourly_due d : ¬ neverDue onlyHourly d.
Proof.
  intros (_ & _ & next & Hn & Hz & _). unfold onlyHourly in Hn. case_match; [|done]. injection Hn as <-. specialize (Hz 0). done.
Defined.


Lemma once_schedule_fires_once_witness : ∃ t, sampleTick = Some t ∧ attemptsOf "boot" t = 1.
Proof.
  destruct sampleTick as [t|] eqn:E; [|vm_compute in E; discriminate E].
  exists t. split; [reflexivity|].
  apply (once_schedule_fires_once refusing onlyHourly 20 600 {["etl" := 1]} 0%nat ∅
           [backfillDag; onceDag; spacedDag] t onceDag); [|right; left|reflexivity|exact E].
  apply (bool_decide_unpack _). vm_compute. exact I.
Defined.

Definition t0 : Tick nat :=
  {| store := 0%nat; createdThisTick := ∅; attempts := []; decisions := []; warnedSchedules := ∅ |}.

Lemma validated_schedule_never_runs_witness :
  ValidateSchedule onlyHourly (Some (Schedule spacedDag)) = true ∧
  createForDag refusing onlyHourly 20 600 ∅ t0 spacedDag = Some (warnSchedule t0 spacedDag) ∧
  attempts (warnSchedule t0 spacedDag) = [].
Proof.
  apply validated_schedule_never_runs; try reflexivity. exists hourly. reflexivity.
Defined.
