(* ===== verification/Scheduler.v ===== *)
(** * The scheduler tick

    [internal/scheduler/scheduler.go]: the tick of the control plane, from [Run]'s body
    [tick] down to the calls it makes.  The store, the dispatcher and the alerter are the
    Go interfaces [Store], [Dispatcher] and [Alerter], here one class [Host] whose
    operations act on a world of their own and may fail or panic.  A computation of the
    scheduler threads its state and can panic, which [advanceSafely] and [tick] recover
    from, or run forever (see Catchup.v).

    The state keeps, besides the fields of the Go struct, the calls made to the host in
    order and the metrics recorded.  Log lines and the words of errors are left out.  An
    alert is sent by a goroutine of its own: those under way are a list, and the host
    says which have ended by the time the scheduler next asks for a slot. *)

From Stdlib Require Import ZArith Lia.
From stdpp Require Import base numbers strings gmap option list.
From S2P Require Import Prelude TaskStates Dag RunCreation Planner.

Open Scope Z_scope.

(** ** Data *)

(** A run as [ActiveRuns] answers it: the view of the planner with the fields only the
    tick reads.  Of an alert rule the tick reads the type. *)
Record Run := {
  plan : RunState;
  State : DagRunState;
  DagVersionID : string;
  Alerts : option (list string);
}.

(** [run.ActiveTaskCount = …] and the three assignments after it *)
Definition withBudgets (active : Z) (enabled : bool) (budgets occupied : gmap string Z) (r : Run) : Run :=
  {| plan :=
       {| RunID := RunID (plan r); DagID := DagID (plan r); TenantID := TenantID (plan r);
          Tasks := Tasks (plan r); States := States (plan r); Tries := Tries (plan r); MaxTries := MaxTries (plan r);
          EndedAt := EndedAt (plan r); RetryDelaySeconds := RetryDelaySeconds (plan r);
          RescheduleAt := RescheduleAt (plan r); NextDispatchAt := NextDispatchAt (plan r);
          DispatchAttempts := DispatchAttempts (plan r); InfraFailed := InfraFailed (plan r);
          InfraAttempts := InfraAttempts (plan r); Now := Now (plan r); MaxActiveTasks := MaxActiveTasks (plan r);
          ActiveTaskCount := active; PoolsEnabled := enabled; PoolBudgets := budgets; PoolActive := occupied |};
     State := State r; DagVersionID := DagVersionID r; Alerts := Alerts r |}.

Inductive Disposition := Dispatched | Backpressure | Rejected.

(** What [Dispatch] returns: no error, or an error with its disposition. *)
Inductive dispatchAnswer := Launched | Refused (d : Disposition).

(** A call may return or panic. *)
Inductive returns (A : Type) := Returned (a : A) | Panicked.
Arguments Returned {A}. Arguments Panicked {A}.

(** The interfaces of the scheduler.  [None] is an error; creating a run and what the
    alert goroutine calls are taken not to panic. *)
Class Host (W : Type) := {
  ActiveRuns : W → W * returns (option (list Run));
  LoadPoolBudgets : W → W * returns (option (gmap string Z));
  MaterializeTasks : string → list TaskSpec → W → W * returns (option unit);
  SetRunState : string → DagRunState → W → W * returns (option unit);
  ApplyTransition : string → string → TaskState → W → W * returns (option unit);
  ApplyTransitions : string → list string → TaskState → W → W * returns (option unit);
  ResetForRetry : string → string → W → W * returns (option bool);
  ResetForInfraReplace : string → string → W → W * returns (option bool);
  RedispatchReschedule : string → string → W → W * returns (option unit);
  RecordDispatchFailure : string → string → Z → W → W * returns (option unit);
  RecordDispatchBackpressure : string → string → Z → W → W * returns (option unit);
  FailDispatchExhausted : string → string → W → W * returns (option unit);
  SetTaskNote : string → string → W → W * returns (option unit);
  ClaimAlertAttempt : string → Z → Z → W → W * returns (option Z);
  MarkRunAlertDelivered : string → Z → W → W * option unit;
  ScheduledDAGs : W → W * returns (option (list RunCreation.ScheduledDAG));
  CreateScheduledRun : W → string → Z → W * bool;
  Dispatch : string → string → string → TaskSpec → W → W * returns dispatchAnswer;
  AlertRunFailed : Run → W → W * bool;
  (** the clock, and which of the alerts under way have ended by now *)
  TimeNow : W → W * Z;
  Ended : W → W * list bool;
}.

(** How a call ended: for [Dispatch], refused is [Failing]. *)
Inductive ending := Fine | Failing | Panicking.

#[global] Instance ending_eq_dec : EqDecision ending.
Proof. solve_decision. Defined.

(** The calls of the scheduler; for [Dispatch] with the tenant of the run. *)
Inductive Call :=
  | CActiveRuns | CPoolBudgets | CScheduledDAGs
  | CMaterialize (run : string) (tasks : list TaskSpec)
  | CSetRun (run : string) (st : DagRunState)
  | CApply (run task : string) (to : TaskState)
  | CApplyMany (run : string) (tasks : list string) (to : TaskState)
  | CRetry (run task : string) | CInfraReplace (run task : string) | CRedispatch (run task : string)
  | CDispatchFailure (run task : string) (next : Z) | CBackpressure (run task : string) (next : Z)
  | CDispatchExhausted (run task : string) | CNote (run task : string)
  | CClaim (run : string) | CDelivered (run : string) (attempt : Z)
  | CCreateRuns (l : list (string * Z))
  | CDispatch (run dag tenant : string) (task : TaskSpec) | CAlert (run : string).

Inductive decision :=
  | DPanic | DRunError | DCreate (d : RunCreation.Decision) | DTo (to : TaskState)
  | DRetry | DRetryNoop | DInfraReplace | DInfraReplaceNoop | DReschedule.

Inductive metric :=
  | SchedulerDecision (d : decision)
  | TaskTransition (from to : TaskState) (dag : string)
  | Undispatchable
  | StepDown (reason : string)
  | Reacquire (d : Z)
  | AlertDropped (dag type : string).

(** The errors, by the function and message that wraps them. *)
Inductive error :=
  | listing_active_runs | loading_pool_budgets | listing_scheduled_dags
  | materializing_tasks | starting_run | finalizing_run
  | applying_transitions (to : TaskState) | applying_transition (task : string)
  | resetting_for_retry (task : string) | replacing_infra_failed (task : string)
  | redispatching_rescheduled (task : string) | task_not_found (task : string).

(** [transitionBatch] *)
Record transitionBatch := { order : list TaskState; byState : TaskState → option (list string) }.

Definition newTransitionBatch : transitionBatch := {| order := []; byState := λ _, None |}.

Definition add (b : transitionBatch) (to : TaskState) (taskID : string) : transitionBatch :=
  {| order := match byState b to with None => order b ++ [to] | Some _ => order b end;
     byState := λ s, if bool_decide (s = to) then Some (default [] (byState b to) ++ [taskID]) else byState b s |}.

Definition batchOf (b : transitionBatch) (to : TaskState) : list string := default [] (byState b to).

(** ** Constants *)

Definition alertMaxAttempts : Z := 5.
Definition alertRetryBackoff : Z := 2 * Minute.
Definition alertAttemptUnknown : Z := -1.
Definition defaultAlertConcurrency : nat := 8.

Definition defaultStepTimeout (interval : Z) : Z := if 30 * Second <? 30 * interval then 30 * interval else 30 * Second.

(** ** The counts of a tick *)

Definition increment (m : gmap string Z) (k : string) (n : Z) : gmap string Z := <[k := mget 0 m k + n]> m.

Definition occupies (s : TaskState) : bool := bool_decide (s = TaskStateQueued) || bool_decide (s = TaskStateRunning).

(** One state of a run; a map is ranged over in any order. *)
Definition countState (dag : string) (counts : gmap string Z) (x : string * TaskState) : gmap string Z :=
  if occupies (snd x) then increment counts dag 1 else counts.

Definition activeTaskCounts (runs : list Run) : gmap string Z :=
  foldl (λ counts r, foldl (countState (DagID (plan r))) counts (map_to_list (States (plan r)))) ∅ runs.

Definition countPool (r : RunState) (counts : gmap string Z) (t : TaskSpec) : gmap string Z :=
  if occupies (mget TaskStateZero (States r) (TaskID t))
  then increment counts (PoolKey (TenantID r) (resolvePool (Pool t))) 1 else counts.

Definition activePoolCounts (runs : list Run) : gmap string Z :=
  foldl (λ counts r, foldl (countPool (plan r)) counts (Tasks (plan r))) ∅ runs.

(** [None] when the gate is off *)
Definition taskPools (r : RunState) : option (gmap string string) :=
  if negb (PoolsEnabled r) then None
  else Some (foldl (λ m t, <[TaskID t := PoolKey (TenantID r) (resolvePool (Pool t))]> m) ∅ (Tasks r)).

Definition findTask (tasks : list TaskSpec) (taskID : string) : option TaskSpec :=
  snd <$> list_find (λ t, TaskID t = taskID) tasks.

(** ** The state and its effects *)

(** What is set before the scheduler starts to tick. *)
Record Config := {
  hasRecorder : bool;
  hasDispatcher : bool;
  hasAlerter : bool;
  poolsEnabled : bool;
  alertSem : nat;
  interval : Z;
}.

Inductive outcome (A : Type) := Ret (a : A) | Panics | Diverges.
Arguments Ret {A}. Arguments Panics {A}. Arguments Diverges {A}.

Record Sys (W : Type) := {
  world : W;
  calls : list (Call * ending);
  metrics : list metric;
  inflight : list (Run * Z);
  warned : gmap string (list Z);
  lastTick : Z;
  leaderSince : Z;
  leading : bool;
  steppingDown : bool;
}.
Arguments world {W}. Arguments calls {W}. Arguments metrics {W}. Arguments inflight {W}. Arguments warned {W}.
Arguments lastTick {W}. Arguments leaderSince {W}. Arguments leading {W}. Arguments steppingDown {W}.

Section scheduler.
Context {W : Type} `{HW : Host W} (cfg : Config).
Context (parse : list Z → option (Z → Z)) (fuel : nat).

Definition M (A : Type) : Type := Sys W → Sys W * outcome A.

#[global] Instance sched_ret : MRet M := λ A a s, (s, Ret a).
#[global] Instance sched_bind : MBind M := λ A B f m s,
  let '(s, o) := m s in match o with Ret a => f a s | Panics => (s, Panics) | Diverges => (s, Diverges) end.

Definition onSys (f : Sys W → Sys W) : M unit := λ s, (f s, Ret tt).

Definition setWorld (w : W) (l : list (Call * ending)) (s : Sys W) : Sys W :=
  {| world := w; calls := calls s ++ l; metrics := metrics s; inflight := inflight s; warned := warned s;
     lastTick := lastTick s; leaderSince := leaderSince s; leading := leading s; steppingDown := steppingDown s |}.
Definition addMetrics (l : list metric) (s : Sys W) : Sys W :=
  {| world := world s; calls := calls s; metrics := metrics s ++ l; inflight := inflight s; warned := warned s;
     lastTick := lastTick s; leaderSince := leaderSince s; leading := leading s; steppingDown := steppingDown s |}.
Definition setInflight (l : list (Run * Z)) (s : Sys W) : Sys W :=
  {| world := world s; calls := calls s; metrics := metrics s; inflight := l; warned := warned s;
     lastTick := lastTick s; leaderSince := leaderSince s; leading := leading s; steppingDown := steppingDown s |}.
Definition setWarned (m : gmap string (list Z)) (s : Sys W) : Sys W :=
  {| world := world s; calls := calls s; metrics := metrics s; inflight := inflight s; warned := m;
     lastTick := lastTick s; leaderSince := leaderSince s; leading := leading s; steppingDown := steppingDown s |}.
Definition setClocks (tick since : Z) (lead down : bool) (s : Sys W) : Sys W :=
  {| world := world s; calls := calls s; metrics := metrics s; inflight := inflight s; warned := warned s;
     lastTick := tick; leaderSince := since; leading := lead; steppingDown := down |}.

(** A call of the host, recorded with its ending. *)
Definition ask {A} (c : Call) (ok : A → bool) (f : W → W * returns A) : M A := λ s,
  let '(w, r) := f (world s) in
  match r with
  | Returned a => (setWorld w [(c, if ok a then Fine else Failing)] s, Ret a)
  | Panicked => (setWorld w [(c, Panicking)] s, Panics)
  end.

Definition isOk {A} (x : option A) : bool := match x with Some _ => true | None => false end.

Definition try {A} (c : Call) (f : W → W * returns (option A)) : M (option A) := ask c isOk f.

Definition clock : M Z := λ s, let '(w, t) := TimeNow (world s) in (setWorld w [] s, Ret t).

(** [if s.recorder != nil] *)
Definition meter (l : list metric) : M unit := onSys (addMetrics (if hasRecorder cfg then l else [])).

Definition record (d : decision) : M unit := meter [SchedulerDecision d].

(** [defer recover()] around [m] *)
Definition recovering {A} (m h : M A) : M A := λ s,
  let '(s', o) := m s in match o with Panics => h s' | o => (s', o) end.

(** ** Applying a plan *)

Definition stateIn (r : Run) (taskID : string) : TaskState := mget TaskStateZero (States (plan r)) taskID.

Definition recordTransition (r : Run) (taskID : string) (to : TaskState) : M (option error) :=
  x ← try (CApply (RunID (plan r)) taskID to) (ApplyTransition (RunID (plan r)) taskID to);
  match x with
  | None => mret (Some (applying_transition taskID))
  | Some _ =>
    meter [SchedulerDecision (DTo to); TaskTransition (stateIn r taskID) to (DagID (plan r))];; mret None
  end.

Definition failUndispatchable (r : Run) (taskID : string) : M (option error) :=
  meter [Undispatchable];;
  try (CNote (RunID (plan r)) taskID) (SetTaskNote (RunID (plan r)) taskID);;
  recordTransition r taskID TaskStateFailed.

(** [run.Now], or the clock when it is the zero time *)
Definition nowOf (r : Run) : M Z := if IsZero (Now (plan r)) then clock else mret (Now (plan r)).

Definition backoffBackpressure (r : Run) (taskID : string) : M (option error) :=
  now ← nowOf r;
  let nextAt := now + dispatchBackoff (mget 0 (DispatchAttempts (plan r)) taskID + 1) in
  try (CBackpressure (RunID (plan r)) taskID nextAt) (RecordDispatchBackpressure (RunID (plan r)) taskID nextAt);;
  mret None.

Definition handleDispatchFailure (r : Run) (taskID : string) (disp : Disposition) : M (option error) :=
  match disp with
  | Backpressure => backoffBackpressure r taskID
  | _ =>
    let attempts := mget 0 (DispatchAttempts (plan r)) taskID + 1 in
    if dispatchMaxAttempts <=? attempts then
      try (CDispatchExhausted (RunID (plan r)) taskID) (FailDispatchExhausted (RunID (plan r)) taskID);; mret None
    else
      now ← nowOf r;
      let nextAt := now + dispatchBackoff attempts in
      try (CDispatchFailure (RunID (plan r)) taskID nextAt) (RecordDispatchFailure (RunID (plan r)) taskID nextAt);;
      mret None
  end.

Definition launched (a : dispatchAnswer) : bool := match a with Launched => true | Refused _ => false end.

Definition launchQueued (r : Run) (taskID : string) : M (option error) :=
  match findTask (Tasks (plan r)) taskID with
  | None => mret (Some (task_not_found taskID))
  | Some task =>
    if hasDispatcher cfg then
      a ← ask (CDispatch (RunID (plan r)) (DagID (plan r)) (TenantID (plan r)) task) launched
            (Dispatch (RunID (plan r)) (DagID (plan r)) (DagVersionID r) task);
      match a with
      | Refused disp => handleDispatchFailure r taskID disp
      | Launched => recordTransition r taskID TaskStateQueued
      end
    else failUndispatchable r taskID
  end.

Definition redispatchReschedule (r : Run) (taskID : string) : M (option error) :=
  x ← try (CRedispatch (RunID (plan r)) taskID) (RedispatchReschedule (RunID (plan r)) taskID);
  match x with
  | None => mret (Some (redispatching_rescheduled taskID))
  | Some _ =>
    meter [SchedulerDecision DReschedule; TaskTransition (stateIn r taskID) TaskStateNone (DagID (plan r))];; mret None
  end.

Definition resetForInfraReplace (r : Run) (taskID : string) : M (option error) :=
  x ← try (CInfraReplace (RunID (plan r)) taskID) (ResetForInfraReplace (RunID (plan r)) taskID);
  match x with
  | None => mret (Some (replacing_infra_failed taskID))
  | Some false => meter [SchedulerDecision DInfraReplaceNoop];; mret None
  | Some true =>
    meter [SchedulerDecision DInfraReplace; TaskTransition (stateIn r taskID) TaskStateNone (DagID (plan r))];; mret None
  end.

Definition resetForRetry (r : Run) (taskID : string) : M (option error) :=
  x ← try (CRetry (RunID (plan r)) taskID) (ResetForRetry (RunID (plan r)) taskID);
  match x with
  | None => mret (Some (resetting_for_retry taskID))
  | Some false => meter [SchedulerDecision DRetryNoop];; mret None
  | Some true =>
    meter [SchedulerDecision DRetry; TaskTransition (stateIn r taskID) TaskStateNone (DagID (plan r))];; mret None
  end.

Definition applyPlanned (r : Run) (t : PlannedTransition) (batch : transitionBatch) : M (transitionBatch * option error) :=
  match pt_to t with
  | TaskStateQueued => e ← launchQueued r (pt_task t); mret (batch, e)
  | TaskStateNone =>
    e ← (if bool_decide (stateIn r (pt_task t) = TaskStateUpForReschedule) then redispatchReschedule r (pt_task t)
         else if bool_decide (stateIn r (pt_task t) = TaskStateFailed) && mget false (InfraFailed (plan r)) (pt_task t)
         then resetForInfraReplace r (pt_task t)
         else resetForRetry r (pt_task t));
    mret (batch, e)
  | to => mret (add batch to (pt_task t), None)
  end.

Fixpoint flushTransitions (r : Run) (b : transitionBatch) (l : list TaskState) : M (option error) :=
  match l with
  | [] => mret None
  | to :: l =>
    let taskIDs := batchOf b to in
    x ← try (CApplyMany (RunID (plan r)) taskIDs to) (ApplyTransitions (RunID (plan r)) taskIDs to);
    match x with
    | None => mret (Some (applying_transitions to))
    | Some _ =>
      meter (concat (map (λ id, [SchedulerDecision (DTo to); TaskTransition (stateIn r id) to (DagID (plan r))]) taskIDs));;
      flushTransitions r b l
    end
  end.

(** ** Alerts *)

(** The goroutine that sends one alert and stamps its delivery. *)
Definition deliver (x : Run * Z) : M unit :=
  let '(r, attempt) := x in
  b ← ask (CAlert (RunID (plan r))) (λ b : bool, b) (λ w, let '(w, b) := AlertRunFailed r w in (w, Returned b));
  match b with
  | true =>
    try (CDelivered (RunID (plan r)) attempt)
      (λ w, let '(w, b) := MarkRunAlertDelivered (RunID (plan r)) attempt w in (w, Returned b));;
    mret tt
  | false => mret tt
  end.

(** The alerts under way that have ended run to their end and leave their slots. *)
Fixpoint settleLoop (l : list (Run * Z)) (ended : list bool) : M (list (Run * Z)) :=
  match l, ended with
  | x :: l, true :: ended => deliver x;; settleLoop l ended
  | x :: l, false :: ended => l ← settleLoop l ended; mret (x :: l)
  | _, _ => mret l
  end.

Definition settle : M unit := λ s,
  let '(w, ended) := Ended (world s) in
  (l ← settleLoop (inflight s) ended; onSys (setInflight l)) (setWorld w [] s).

(** The [select]: a free slot starts the goroutine, otherwise the alert is dropped. *)
Definition takeSlot (r : Run) (attempt : Z) (rules : list string) : M unit := λ s,
  if (length (inflight s) <? alertSem cfg)%nat then onSys (setInflight (inflight s ++ [(r, attempt)])) s
  else meter (map (AlertDropped (DagID (plan r))) rules) s.

Definition maybeAlertFailure (state : DagRunState) (r : Run) : M unit :=
  if negb (bool_decide (state = DagRunStateFailed)) || negb (hasAlerter cfg) then mret tt
  else
    match Alerts r with
    | None | Some [] => mret tt
    | Some rules =>
      c ← try (CClaim (RunID (plan r))) (ClaimAlertAttempt (RunID (plan r)) alertMaxAttempts alertRetryBackoff);
      if bool_decide (c = Some 0) then mret tt
      else
        let attempt := default alertAttemptUnknown c in
        settle;; takeSlot r attempt rules
    end.

(** ** Advancing a run *)

(** The admissions of a run: how many, and how many for each pool. *)
Record Admissions := { admitted : Z; byPool : gmap string Z }.

Definition noneAdmitted : Admissions := {| admitted := 0; byPool := ∅ |}.

Definition admitTask (poolOf : option (gmap string string)) (t : PlannedTransition) (a : Admissions) : Admissions :=
  if bool_decide (pt_to t = TaskStateQueued) then
    {| admitted := admitted a + 1;
       byPool := match poolOf with
                 | Some m => increment (byPool a) (mget "" m (pt_task t)) 1
                 | None => byPool a
                 end |}
  else a.

Fixpoint applyLoop (r : Run) (poolOf : option (gmap string string)) (l : list PlannedTransition) (a : Admissions)
    (batch : transitionBatch) : M (Admissions * (transitionBatch + error)) :=
  match l with
  | [] => mret (a, inl batch)
  | t :: l =>
    let a := admitTask poolOf t a in
    x ← applyPlanned r t batch;
    match snd x with
    | Some e => mret (a, inr e)
    | None => applyLoop r poolOf l a (fst x)
    end
  end.

Definition finalize (r : Run) : M (option error) :=
  match FinalizeRun (plan r) with
  | None => mret None
  | Some state =>
    x ← try (CSetRun (RunID (plan r)) state) (SetRunState (RunID (plan r)) state);
    match x with
    | None => mret (Some finalizing_run)
    | Some _ => maybeAlertFailure state r;; mret None
    end
  end.

Definition startRun (r : Run) : M (option error) :=
  x ← try (CMaterialize (RunID (plan r)) (Tasks (plan r))) (MaterializeTasks (RunID (plan r)) (Tasks (plan r)));
  match x with
  | None => mret (Some materializing_tasks)
  | Some _ =>
    y ← try (CSetRun (RunID (plan r)) DagRunStateRunning) (SetRunState (RunID (plan r)) DagRunStateRunning);
    mret (match y with None => Some starting_run | Some _ => None end)
  end.

Definition advance (r : Run) : M (Admissions * option error) :=
  if bool_decide (State r = DagRunStateQueued) && bool_decide (States (plan r) = ∅) then
    e ← startRun r; mret (noneAdmitted, e)
  else
    x ← applyLoop r (taskPools (plan r)) (PlanRun (plan r)) noneAdmitted newTransitionBatch;
    match snd x with
    | inr e => mret (fst x, Some e)
    | inl batch =>
      e ← flushTransitions r batch (order batch);
      match e with
      | Some e => mret (fst x, Some e)
      | None => e ← finalize r; mret (fst x, e)
      end
    end.

Definition advanceSafely (r : Run) : M Admissions :=
  recovering
    (x ← advance r;
     match snd x with
     | Some _ => record DRunError;; mret noneAdmitted
     | None => mret (fst x)
     end)
    (record DPanic;; mret noneAdmitted).

(** ** The tick *)

(** The variables of [Step]. *)
Record Counts := {
  activeByDAG : gmap string Z;
  admittedTasksByDAG : gmap string Z;
  poolOccupied : gmap string Z;
}.

(** [for k, n := range admittedByPool { poolOccupied[k] += n }] *)
Definition addPools (occupied m : gmap string Z) : gmap string Z := foldl (λ o x, increment o x.1 x.2) occupied (map_to_list m).

(** A run with the budgets left by the runs before it. *)
Definition budgeted (active budgets : gmap string Z) (c : Counts) (r : Run) : Run :=
  withBudgets (mget 0 active (DagID (plan r)) + mget 0 (admittedTasksByDAG c) (DagID (plan r)))
    (poolsEnabled cfg) budgets (poolOccupied c) r.

Definition countRun (c : Counts) (r : Run) (a : Admissions) : Counts :=
  {| activeByDAG := increment (activeByDAG c) (DagID (plan r)) 1;
     admittedTasksByDAG := increment (admittedTasksByDAG c) (DagID (plan r)) (admitted a);
     poolOccupied := addPools (poolOccupied c) (byPool a) |}.

Fixpoint advanceAll (active budgets : gmap string Z) (c : Counts) (runs : list Run) : M Counts :=
  match runs with
  | [] => mret c
  | r :: runs =>
    a ← advanceSafely (budgeted active budgets c r);
    advanceAll active budgets (countRun c r a) runs
  end.

(** The loop of run creation on the store of the host (RunCreation.v). *)
Definition runCreation (active : gmap string Z) (dags : list ScheduledDAG) (now : Z) : M unit := λ s,
  match createDueRuns CreateScheduledRun parse fuel now active (world s) (warned s) dags with
  | None => (s, Diverges)
  | Some t =>
    meter (map (λ d, SchedulerDecision (DCreate d)) (decisions t))
      (setWarned (warnedSchedules t) (setWorld (store t) [(CCreateRuns (attempts t), Fine)] s))
  end.

Definition createDue (active : gmap string Z) : M (option error) :=
  dags ← try CScheduledDAGs ScheduledDAGs;
  match dags with
  | None => mret (Some listing_scheduled_dags)
  | Some dags => now ← clock; runCreation active dags now;; mret None
  end.

Definition loadPoolBudget (runs : list Run) : M (option (gmap string Z * gmap string Z)) :=
  if negb (poolsEnabled cfg) then mret (Some (∅, ∅))
  else
    b ← try CPoolBudgets LoadPoolBudgets;
    mret (match b with None => None | Some budgets => Some (budgets, activePoolCounts runs) end).

Definition stampTick : M unit := now ← clock; onSys (λ s, setClocks now (leaderSince s) (leading s) (steppingDown s) s).

Definition isLeading : M bool := λ s, (s, Ret (leading s)).

Definition startCounts (occupied : gmap string Z) : Counts :=
  {| activeByDAG := ∅; admittedTasksByDAG := ∅; poolOccupied := occupied |}.

Definition Step : M (option error) :=
  stampTick;;
  lead ← isLeading;
  match lead with
  | false => mret None
  | true =>
    runs ← try CActiveRuns ActiveRuns;
    match runs with
    | None => mret (Some listing_active_runs)
    | Some runs =>
      pools ← loadPoolBudget runs;
      match pools with
      | None => mret (Some loading_pool_budgets)
      | Some (budgets, occupied) =>
        c ← advanceAll (activeTaskCounts runs) budgets (startCounts occupied) runs;
        createDue (activeByDAG c)
      end
    end
  end.

Definition tick : M unit := recovering (Step;; mret tt) (record DPanic).

(** ** Leadership and health *)

Definition SetLeading (on : bool) : M unit :=
  if on then
    now ← clock; onSys (λ s, setClocks 0 now true (steppingDown s) s)
  else onSys (λ s, setClocks (lastTick s) 0 false (steppingDown s) s).

Definition MarkSteppingDown (reason : string) : M unit :=
  onSys (λ s, setClocks (lastTick s) (leaderSince s) (leading s) true s);; meter [StepDown reason].

Definition ClearSteppingDown : M unit := onSys (λ s, setClocks (lastTick s) (leaderSince s) (leading s) false s).

(** The zero time is 0. *)
Definition RecordReacquireSince (stepDownAt : Z) : M unit :=
  if IsZero stepDownAt then mret tt
  else if negb (hasRecorder cfg) then mret tt
  else now ← clock; meter [Reacquire (now - stepDownAt)].

Definition LeaderSince (s : Sys W) : Z := leaderSince s.

Definition Heartbeat (s : Sys W) (now : Z) : bool * Z :=
  if negb (leading s) then (true, now)
  else if lastTick s =? 0 then (true, now)
  else (now - lastTick s <=? 3 * interval cfg + Second, lastTick s).

(** What happens to a scheduler: ticks of [Run], alerts that end between them, and the
    calls of the campaign for leadership. *)
Inductive sysStep : Sys W → Sys W → Prop :=
  | step_tick s s' : tick s = (s', Ret tt) → sysStep s s'
  | step_settle s s' : settle s = (s', Ret tt) → sysStep s s'
  | step_leading b s s' : SetLeading b s = (s', Ret tt) → sysStep s s'
  | step_stepping reason s s' : MarkSteppingDown reason s = (s', Ret tt) → sysStep s s'
  | step_clear s s' : ClearSteppingDown s = (s', Ret tt) → sysStep s s'
  | step_reacquire t s s' : RecordReacquireSince t s = (s', Ret tt) → sysStep s s'.

Definition newSys (w : W) : Sys W :=
  {| world := w; calls := []; metrics := []; inflight := []; warned := ∅; lastTick := 0; leaderSince := 0;
     leading := false; steppingDown := false |}.

Definition reachable (w : W) (s : Sys W) : Prop := rtc sysStep (newSys w) s.

End scheduler.

Arguments M : clear implicits.
