(* ===== verification/SchedulerProps.v ===== *)
(** * Properties of the scheduler tick

    The calls of a tick, for every store, dispatcher and alerter (the class [Host] of
    Scheduler.v): a tick of a follower makes none; a run that fails or panics does not
    keep the others from being advanced, nor new runs from being created; the caps hold
    across the runs of a tick, unless a run fails half way, when a breach is shown; and
    a DAG whose date never comes keeps the tick from ending.

    A computation is described by the calls it makes and how it ends ([does]), composed
    along [bind]. *)

From Stdlib Require Import ZArith Lia.
From stdpp Require Import base numbers strings gmap option list.
From S2P Require Import Prelude TaskStates Dag Catchup RunCreation Planner PlannerLemmas PlannerProps Scheduler.

Open Scope Z_scope.

Definition trace : Type := list (Call * ending).

Section props.
Context {W : Type} `{HW : Host W} (cfg : Config).
Context (parse : list Z → option (Z → Z)) (fuel : nat).

(** ** What a computation does *)

Definition does {A} (m : M W A) (P : trace → outcome A → Prop) : Prop :=
  ∀ s, ∃ l, calls (m s).1 = calls s ++ l ∧ P l (m s).2.

Lemma does_mono {A} (m : M W A) (P Q : trace → outcome A → Prop) : does m P → (∀ l o, P l o → Q l o) → does m Q.
Proof. intros H HPQ s. destruct (H s) as (l & Hl & HP). eauto. Qed.

Lemma does_ret {A} (a : A) (P : trace → outcome A → Prop) : P [] (Ret a) → does (mret a) P.
Proof. intros H s. exists []. by rewrite app_nil_r. Qed.

Lemma does_bind {A B} (m : M W A) (f : A → M W B) (P : trace → outcome A → Prop) (Q : trace → outcome B → Prop) :
  does m P →
  (∀ l a, P l (Ret a) → does (f a) (λ l' o, Q (l ++ l') o)) →
  (∀ l, P l Panics → Q l Panics) → (∀ l, P l Diverges → Q l Diverges) →
  does (m ≫= f) Q.
Proof.
  intros Hm Hf Hp Hd s. destruct (Hm s) as (l & Hl & HP). unfold mbind, sched_bind. destruct (m s) as [s1 [a| |]]; simpl in *.
  - destruct (Hf l a HP s1) as (l' & Hl' & HQ). exists (l ++ l'). split; [by rewrite Hl', Hl, (assoc app)|done].
  - eauto.
  - eauto.
Qed.

Lemma does_ask {A} c (ok : A → bool) (f : W → W * returns A) (P : trace → outcome A → Prop) :
  (∀ a, P [(c, if ok a then Fine else Failing)] (Ret a)) → P [(c, Panicking)] Panics → does (ask c ok f) P.
Proof.
  intros Hr Hp s. unfold ask. destruct (f (world s)) as [w [a|]]; simpl; eexists; split; [done|apply Hr|done|done].
Qed.

(** A computation that makes no call and returns. *)
Lemma does_quiet {A} (m : M W A) (P : trace → outcome A → Prop) :
  (∀ s, calls (m s).1 = calls s ∧ ∃ a, (m s).2 = Ret a ∧ P [] (Ret a)) → does m P.
Proof.
  intros H s. destruct (H s) as (Hc & a & Ha & HP). exists []. rewrite app_nil_r. split; [done|]. by rewrite Ha.
Qed.

Lemma does_clock P : (∀ t, P [] (Ret t)) → does (clock : M W Z) P.
Proof.
  intros H. apply does_quiet. intros s. unfold clock. destruct (TimeNow (world s)) as [w t]. simpl. rewrite app_nil_r. eauto.
Qed.

Lemma does_meter l P : P [] (Ret tt) → does (meter cfg l : M W unit) P.
Proof. intros H. apply does_quiet. intros s. simpl. eauto. Qed.

Lemma does_recover {A} (m h : M W A) (P Q : trace → outcome A → Prop) :
  does m P → (∀ l a, P l (Ret a) → Q l (Ret a)) → (∀ l, P l Diverges → Q l Diverges) →
  (∀ l, P l Panics → does h (λ l' o, Q (l ++ l') o)) → does (recovering m h) Q.
Proof.
  intros Hm Hr Hd Hh s. destruct (Hm s) as (l & Hl & HP). unfold recovering. destruct (m s) as [s1 [a| |]]; simpl in *.
  - eauto.
  - destruct (Hh l HP s1) as (l' & Hl' & HQ). exists (l ++ l'). split; [by rewrite Hl', Hl, (assoc app)|done].
  - eauto.
Qed.

(** ** The calls of one run *)

(** The dispatches of a kind of tasks, by tenant and specification. *)
Section counted.
Context (q : string → TaskSpec → bool).

Definition isDispatch (c : Call) : bool := match c with CDispatch _ _ tenant t => q tenant t | _ => false end.

Definition dispatched (l : trace) : Z := countb (λ x, isDispatch x.1) l.

Definition plainCall (c : Call) : bool := match c with CDispatch _ _ _ _ => false | _ => true end.

(** A task dispatched for a run is one of its tasks. *)
Definition launchOf (r : Run) (c : Call) : Prop :=
  match c with
  | CDispatch run dag tenant t =>
    run = RunID (plan r) ∧ dag = DagID (plan r) ∧ tenant = TenantID (plan r) ∧ t ∈ Tasks (plan r)
  | _ => True
  end.

(** The calls whose failure the tick goes on after. *)
Definition tolerated (c : Call) : bool :=
  match c with
  | CDispatch _ _ _ _ | CDispatchFailure _ _ _ | CBackpressure _ _ _ | CDispatchExhausted _ _ | CNote _ _
  | CClaim _ | CAlert _ | CDelivered _ _ => true
  | _ => false
  end.

(** No call panicked and none failed but the tolerated ones. *)
Definition smooth (l : trace) : Prop := Forall (λ x, x.2 = Fine ∨ (x.2 = Failing ∧ tolerated x.1 = true)) l.

Definition steady {A} (r : Run) (n : Z) (ok : A → Prop) (l : trace) (o : outcome A) : Prop :=
  dispatched l <= n ∧ Forall (λ x, launchOf r x.1) l ∧ (smooth l → ∃ a, o = Ret a ∧ ok a) ∧ o ≠ Diverges.

Definition none (e : option error) : Prop := e = None.

Lemma dispatched_app l l' : dispatched (l ++ l') = dispatched l + dispatched l'.
Proof. apply countb_app. Qed.

Lemma smooth_app l l' : smooth (l ++ l') ↔ smooth l ∧ smooth l'.
Proof. apply Forall_app. Qed.

Lemma smooth_app_3 l l' l'' : smooth (l ++ l' ++ l'') → smooth l ∧ smooth l' ∧ smooth l''.
Proof. rewrite !smooth_app. tauto. Qed.

Lemma dispatched_nonneg l : 0 <= dispatched l.
Proof. apply countb_nonneg. Qed.

Lemma steady_ret {A} r n ok (a : A) : 0 <= n → ok a → does (mret a : M W A) (steady r n ok).
Proof. intros Hn Ha. apply does_ret. split_and!; [done|constructor|eauto|done]. Qed.

Lemma steady_mono {A} r n n' (ok ok' : A → Prop) (m : M W A) :
  does m (steady r n ok) → n <= n' → (∀ a, ok a → ok' a) → does m (steady r n' ok').
Proof.
  intros H Hn Hok. eapply does_mono; [exact H|]. intros l o (H1 & H2 & H3 & H4). split_and!; [lia|done| |done].
  intros Hs. destruct (H3 Hs) as (a & -> & Ha). eauto.
Qed.

Lemma steady_bind {A B} r n n' (ok : A → Prop) (ok' : B → Prop) (m : M W A) (f : A → M W B) :
  does m (steady r n ok) → 0 <= n' → (∀ a, does (f a) (steady r n' (λ b, ok a → ok' b))) →
  does (m ≫= f) (steady r (n + n') ok').
Proof.
  intros Hm Hn Hf. eapply does_bind; [exact Hm|..].
  - intros l a (H1 & H2 & H3 & H4). eapply does_mono; [apply Hf|]. intros l' o (G1 & G2 & G3 & G4).
    split_and!; [rewrite dispatched_app; lia|by apply Forall_app| |done].
    intros [Hs Hs']%smooth_app. destruct (H3 Hs) as (a' & [= <-] & Ha). destruct (G3 Hs') as (b & -> & Hb). eauto.
  - intros l (H1 & H2 & H3 & _). split_and!; [lia|done| |done]. intros Hs. by destruct (H3 Hs) as (a & ? & _).
  - intros l (_ & _ & _ & H4). done.
Qed.

(** Without dispatches on the left. *)
Lemma steady_then {A B} r n (ok : A → Prop) (ok' : B → Prop) (m : M W A) (f : A → M W B) :
  does m (steady r 0 ok) → 0 <= n → (∀ a, does (f a) (steady r n (λ b, ok a → ok' b))) →
  does (m ≫= f) (steady r n ok').
Proof. intros Hm Hn Hf. by apply (steady_bind r 0 n ok). Qed.

Lemma steady_call {A} r c e (ok : A → Prop) (o : outcome A) :
  plainCall c = true → o ≠ Diverges → ((e = Fine ∨ (e = Failing ∧ tolerated c = true)) → ∃ a, o = Ret a ∧ ok a) →
  steady r 0 ok [(c, e)] o.
Proof.
  intros Hc Ho H. split_and!; [|constructor; [by destruct c|done]| |done].
  - by destruct c.
  - intros Hs%Forall_inv. by apply H.
Qed.

(** A call that dispatches nothing; its failure is an error of the computation. *)
Lemma steady_try {A} r c (f : W → W * returns (option A)) :
  plainCall c = true → tolerated c = false → does (try c f) (steady r 0 is_Some).
Proof.
  intros Hc Ht. apply does_ask.
  - intros a. apply steady_call; [done..|]. rewrite Ht. destruct a; simpl; [eauto|naive_solver].
  - apply steady_call; [done..|]. naive_solver.
Qed.

(** A call whose failure does not matter. *)
Lemma steady_ask {A} r c (ok : A → bool) (f : W → W * returns A) :
  plainCall c = true → does (ask c ok f) (steady r 0 (λ _, True)).
Proof.
  intros Hc. apply does_ask.
  - intros a. apply steady_call; [done..|]. eauto.
  - apply steady_call; [done..|]. naive_solver.
Qed.

Lemma steady_meter r l : does (meter cfg l : M W unit) (steady r 0 (λ _, True)).
Proof. apply does_meter. split_and!; [done|constructor|eauto|done]. Qed.

Lemma steady_weaken {A} r n (ok ok' : A → Prop) (m : M W A) :
  does m (steady r n ok) → (∀ a, ok a → ok' a) → does m (steady r n ok').
Proof. intros H ?. by eapply steady_mono. Qed.

(** The end of a handler: metrics, then no error. *)
Lemma steady_done r l : does (meter cfg l;; mret None : M W (option error)) (steady r 0 none).
Proof. eapply steady_then; [apply steady_meter|done|]. intros u. by apply steady_ret. Qed.

Lemma recordTransition_steady r id to : does (recordTransition cfg r id to) (steady r 0 none).
Proof.
  eapply steady_then; [by apply steady_try|done|]. intros [x|].
  - eapply steady_weaken; [apply steady_done|done].
  - apply steady_ret; [done|]. by intros [? ?].
Qed.

(** A call whose failure is passed over, then no error. *)
Lemma steady_ignored {A} r c (f : W → W * returns (option A)) :
  plainCall c = true → does (try c f;; mret None : M W (option error)) (steady r 0 none).
Proof. intros Hc. eapply steady_then; [by apply steady_ask|done|]. intros u. by apply steady_ret. Qed.

Lemma steady_now r : does (nowOf r : M W Z) (steady r 0 (λ _, True)).
Proof.
  unfold nowOf. case_match; [|by apply steady_ret]. apply does_clock. intros t. split_and!; [done|constructor|eauto|done].
Qed.

Lemma failUndispatchable_steady r id : does (failUndispatchable cfg r id : M W _) (steady r 0 none).
Proof.
  eapply steady_then; [apply steady_meter|done|]. intros _u. eapply steady_then; [by apply steady_ask|done|].
  intros _v. eapply steady_weaken; [apply recordTransition_steady|done].
Qed.

Lemma handleDispatchFailure_steady r id d : does (handleDispatchFailure r id d : M W _) (steady r 0 none).
Proof.
  assert (does (backoffBackpressure r id : M W _) (steady r 0 none)) as Hb.
  { eapply steady_then; [apply steady_now|done|]. intros t. eapply steady_weaken; [by apply steady_ignored|done]. }
  destruct d; [|exact Hb|]; unfold handleDispatchFailure; (case_match; [by apply steady_ignored|]).
  all: eapply steady_then; [apply steady_now|done|]; intros t; eapply steady_weaken; [by apply steady_ignored|done].
Qed.

Lemma findTask_Some l id t : findTask l id = Some t → t ∈ l ∧ TaskID t = id.
Proof.
  unfold findTask. intros ([i x] & Hf & [= ->])%fmap_Some. apply list_find_Some in Hf as (Hi & Hx & _).
  split; [by eapply list_elem_of_lookup_2|done].
Qed.

Lemma findTask_is_Some l id : id ∈ map TaskID l → is_Some (findTask l id).
Proof.
  intros (t & -> & Ht)%list_elem_of_fmap. unfold findTask. rewrite fmap_is_Some. by eapply list_find_elem_of.
Qed.

Definition counts (r : Run) (id : string) : Z :=
  match findTask (Tasks (plan r)) id with Some t => if q (TenantID (plan r)) t then 1 else 0 | None => 0 end.

Lemma launchQueued_steady r id :
  does (launchQueued cfg r id : M W _) (steady r (counts r id) (λ e, id ∈ map TaskID (Tasks (plan r)) → e = None)).
Proof.
  unfold launchQueued, counts. destruct (findTask (Tasks (plan r)) id) as [t|] eqn:Ef.
  2: { apply steady_ret; [lia|]. intros Hin. destruct (findTask_is_Some _ _ Hin). congruence. }
  destruct (hasDispatcher cfg).
  2: { eapply steady_mono; [apply failUndispatchable_steady|by case_match|done]. }
  rewrite <- (Z.add_0_r (if q (TenantID (plan r)) t then 1 else 0)). eapply (steady_bind r _ 0 (λ _, True)); [|done|].
  - apply findTask_Some in Ef as [Hin _]. apply does_ask; [intros a|].
    + split_and!; [unfold dispatched; simpl; lia|by constructor|eauto|done].
    + split_and!; [unfold dispatched; simpl; lia|by constructor| |done]. intros Hs%Forall_inv. simpl in Hs. naive_solver.
  - intros []; (eapply steady_weaken; [first [apply recordTransition_steady|apply handleDispatchFailure_steady]|done]).
Qed.

Lemma redispatchReschedule_steady r id : does (redispatchReschedule cfg r id : M W _) (steady r 0 none).
Proof.
  eapply steady_then; [by apply steady_try|done|]. intros [x|].
  - eapply steady_weaken; [apply steady_done|done].
  - apply steady_ret; [done|]. by intros [? ?].
Qed.

Lemma resetForRetry_steady r id : does (resetForRetry cfg r id : M W _) (steady r 0 none).
Proof.
  eapply steady_then; [by apply steady_try|done|]. intros [[]|]; [eapply steady_weaken; [apply steady_done|done]..|].
  apply steady_ret; [done|]. by intros [? ?].
Qed.

Lemma resetForInfraReplace_steady r id : does (resetForInfraReplace cfg r id : M W _) (steady r 0 none).
Proof.
  eapply steady_then; [by apply steady_try|done|]. intros [[]|]; [eapply steady_weaken; [apply steady_done|done]..|].
  apply steady_ret; [done|]. by intros [? ?].
Qed.

(** What a planned transition adds to the admissions. *)
Definition queues (r : Run) (t : PlannedTransition) : bool :=
  is_queued t && match findTask (Tasks (plan r)) (pt_task t) with Some x => q (TenantID (plan r)) x | None => false end.

Lemma applyPlanned_steady r t b :
  does (applyPlanned cfg r t b : M W _) (steady r (if queues r t then 1 else 0) (λ x, pt_task t ∈ map TaskID (Tasks (plan r)) → x.2 = None)).
Proof.
  unfold applyPlanned, queues, is_queued.
  destruct (pt_to t); simpl; try (apply steady_ret; done).
  - eapply steady_then; [|done|].
    + instantiate (1 := none). repeat case_match; [apply redispatchReschedule_steady|apply resetForInfraReplace_steady|apply resetForRetry_steady].
    + intros e. by apply steady_ret.
  - apply (steady_mono r (counts r (pt_task t) + 0) _ (λ x, pt_task t ∈ map TaskID (Tasks (plan r)) → x.2 = None));
      [|unfold counts; repeat case_match; lia|done].
    eapply steady_bind; [apply launchQueued_steady|done|]. intros e. by apply steady_ret.
Qed.

Definition admitAll (poolOf : option (gmap string string)) (l : list PlannedTransition) (a : Admissions) : Admissions :=
  foldl (λ a t, admitTask poolOf t a) a l.

Definition planned (r : Run) (l : list PlannedTransition) : Prop := Forall (λ t, pt_task t ∈ map TaskID (Tasks (plan r))) l.

Lemma applyLoop_steady r pools l a b :
  does (applyLoop cfg r pools l a b : M W _)
    (steady r (countb (queues r) l) (λ x, planned r l → (∃ b', x.2 = inl b') ∧ x.1 = admitAll pools l a)).
Proof.
  revert a b. induction l as [|t l IH]; intros a b; [apply steady_ret; [done|]; eauto|].
  apply (steady_bind r (if queues r t then 1 else 0) (countb (queues r) l) (λ x, pt_task t ∈ map TaskID (Tasks (plan r)) → x.2 = None));
    [apply applyPlanned_steady|apply countb_nonneg|].
  intros [b' [e|]]; simpl.
  - apply steady_ret; [apply countb_nonneg|]. intros Ht [Hin _]%Forall_cons. by specialize (Ht Hin).
  - eapply steady_weaken; [apply IH|]. intros x Hx _ [_ Hl]%Forall_cons. by apply Hx.
Qed.

Lemma flushTransitions_steady r b l : does (flushTransitions cfg r b l : M W _) (steady r 0 none).
Proof.
  induction l as [|to l IH]; [by apply steady_ret|]. eapply steady_then; [by apply steady_try|done|]. intros [x|].
  - eapply steady_then; [apply steady_meter|done|]. intros u. eapply steady_weaken; [exact IH|done].
  - apply steady_ret; [done|]. by intros [? ?].
Qed.

Lemma deliver_steady r x : does (deliver x : M W _) (steady r 0 (λ _, True)).
Proof.
  destruct x as [r' n]. eapply steady_then; [by apply steady_ask|done|]. intros [|]; [|by apply steady_ret].
  eapply steady_then; [by apply steady_ask|done|]. intros u. by apply steady_ret.
Qed.

Lemma settleLoop_steady r l ended : does (settleLoop l ended : M W _) (steady r 0 (λ _, True)).
Proof.
  revert ended. induction l as [|x l IH]; intros [|[] ended]; try by apply steady_ret.
  - eapply steady_then; [apply deliver_steady|done|]. intros u. eapply steady_weaken; [apply IH|done].
  - eapply steady_then; [apply IH|done|]. intros u. by apply steady_ret.
Qed.

Lemma does_after_world {A} (m : M W A) (f : Sys W → Sys W) P :
  does m P → (∀ s, calls (f s) = calls s) → does (λ s, m (f s)) P.
Proof. intros H Hf s. destruct (H (f s)) as (l & Hl & HP). exists l. by rewrite Hl, Hf. Qed.

Lemma steady_onSys r (f : Sys W → Sys W) : (∀ s, calls (f s) = calls s) → does (onSys f) (steady r 0 (λ _, True)).
Proof. intros H. apply does_quiet. intros s. split; [apply H|]. eexists. split; [done|]. split_and!; [done|constructor|eauto|done]. Qed.

Lemma settle_steady r : does (settle : M W _) (steady r 0 (λ _, True)).
Proof.
  intros s. unfold settle. destruct (Ended (world s)) as [w ended].
  destruct (steady_then r 0 (λ _, True) (λ _, True) (settleLoop (inflight s) ended) (λ l, onSys (setInflight l))
    (settleLoop_steady r _ _) ltac:(done)
    ltac:(intros l; eapply steady_weaken; [by apply steady_onSys|done]) (setWorld w [] s)) as (l & Hl & HP).
  exists l. rewrite Hl. simpl. by rewrite app_nil_r.
Qed.

Lemma takeSlot_steady r r' n rules : does (takeSlot cfg r' n rules : M W _) (steady r 0 (λ _, True)).
Proof.
  apply does_quiet. intros s. unfold takeSlot. case_match; simpl; (split; [done|]); eexists; (split; [done|]).
  all: split_and!; [done|constructor|eauto|done].
Qed.

Lemma maybeAlertFailure_steady r st : does (maybeAlertFailure cfg st r : M W _) (steady r 0 (λ _, True)).
Proof.
  unfold maybeAlertFailure. case_match; [by apply steady_ret|]. case_match; [|by apply steady_ret].
  case_match; [by apply steady_ret|]. eapply steady_then; [by apply steady_ask|done|]. intros c.
  case_match; [by apply steady_ret|]. eapply steady_then; [apply settle_steady|done|].
  intros u. eapply steady_weaken; [apply takeSlot_steady|done].
Qed.

Lemma finalize_steady r : does (finalize cfg r : M W _) (steady r 0 none).
Proof.
  unfold finalize. case_match; [|by apply steady_ret]. eapply steady_then; [by apply steady_try|done|]. intros [x|].
  - eapply steady_then; [apply maybeAlertFailure_steady|done|]. intros u. by apply steady_ret.
  - apply steady_ret; [done|]. by intros [? ?].
Qed.

Lemma startRun_steady r : does (startRun r : M W _) (steady r 0 none).
Proof.
  eapply steady_then; [by apply steady_try|done|]. intros [x|]; [|apply steady_ret; [done|]; by intros [? ?]].
  eapply steady_then; [by apply steady_try|done|]. intros [y|]; (apply steady_ret; [done|]); [done|by intros [? ?]].
Qed.

Lemma PlanRun_planned r : planned r (PlanRun (plan r)).
Proof.
  apply Forall_forall. intros x Hx. apply list_elem_of_fmap.
  destruct (PlanRun_elem _ _ Hx) as [Hr|t Ht -> _ _|t Ht -> _ _ _]; [|by exists t..].
  apply retryOut_elem in Hr as (t & Ht & -> & _). by exists t.
Qed.

(** What a run advanced without an error has admitted. *)
Definition admits (r : Run) : Admissions :=
  if bool_decide (State r = DagRunStateQueued) && bool_decide (States (plan r) = ∅) then noneAdmitted
  else admitAll (taskPools (plan r)) (PlanRun (plan r)) noneAdmitted.

Definition launches (r : Run) : Z :=
  if bool_decide (State r = DagRunStateQueued) && bool_decide (States (plan r) = ∅) then 0
  else countb (queues r) (PlanRun (plan r)).

Lemma launches_nonneg r : 0 <= launches r.
Proof. unfold launches. case_match; [done|apply countb_nonneg]. Qed.

Lemma advance_steady r : does (advance cfg r : M W _) (steady r (launches r) (λ x, x = (admits r, None))).
Proof.
  unfold advance, launches, admits. case_match.
  - eapply steady_then; [apply startRun_steady|done|]. intros e. apply steady_ret; [done|]. by intros ->.
  - rewrite <- (Z.add_0_r (countb _ _)). eapply steady_bind; [apply applyLoop_steady|done|].
    intros [a [b|e]]; simpl.
    + eapply steady_then; [apply flushTransitions_steady|done|]. intros [e|]; [apply steady_ret; done|].
      eapply steady_then; [apply finalize_steady|done|]. intros e. apply steady_ret; [done|].
      intros -> _ Hx. destruct (Hx (PlanRun_planned r)) as [_ ->]. done.
    + apply steady_ret; [done|]. intros Hx. by destruct (Hx (PlanRun_planned r)) as [[? ?] _].
Qed.

(** An advanced run always gives the tick back the control; unless a call went wrong, with
    what it admitted. *)
Lemma advanceSafely_does r :
  does (advanceSafely cfg r : M W _)
    (λ l o, (∃ a, o = Ret a) ∧ dispatched l <= launches r ∧ Forall (λ x, launchOf r x.1) l ∧ (smooth l → o = Ret (admits r))).
Proof.
  apply does_recover with (P := steady r (launches r) (λ a, a = admits r)).
  - rewrite <- (Z.add_0_r (launches r)). eapply steady_bind; [apply advance_steady|done|]. intros [a [e|]]; simpl.
    + eapply steady_then; [apply steady_meter|done|]. intros u. by apply steady_ret.
    + apply steady_ret; [done|]. by intros [= ->].
  - intros l a (H1 & H2 & H3 & _). split_and!; [eauto|done|done|]. intros Hs. destruct (H3 Hs) as (a' & [= ->] & ->). done.
  - by intros l (_ & _ & _ & ?).
  - intros l (H1 & H2 & H3 & _). eapply does_bind with (P := λ l o, l = [] ∧ ∃ a, o = Ret a);
      [apply does_meter; eauto|..]; [|naive_solver..].
    intros l' u [-> _]. apply does_ret. rewrite !app_nil_r. split_and!; [eauto|done|done|].
    intros Hs. by destruct (H3 Hs) as (? & ? & _).
Qed.

End counted.

(** ** All runs of a tick *)

(** Every dispatch counts. *)
Definition every (tenant : string) (t : TaskSpec) : bool := true.

Definition runsOf (dag : string) (runs : list Run) : Z := countb (λ r, bool_decide (DagID (plan r) = dag)) runs.

Lemma mget_increment m k n k' : mget 0 (increment m k n) k' = mget 0 m k' + if decide (k = k') then n else 0.
Proof. unfold increment. rewrite mget_insert. case_decide; subst; lia. Qed.

(** The calls of a run are those of its [advance], whatever it returns. *)
Lemma advanceSafely_calls r s : calls (advanceSafely cfg r s).1 = calls (advance cfg r s).1.
Proof.
  unfold advanceSafely, recovering, mbind, sched_bind. destruct (advance cfg r s) as [s1 [[a [e|]]| |]]; simpl; done.
Qed.

Section loop.
Context (active budgets : gmap string Z).

(** A run of the tick is advanced in some state, with the budgets left by then. *)
Definition advancedOnce (r : Run) (seg : trace) : Prop :=
  ∃ c s, calls (advance cfg (budgeted cfg active budgets c r) s).1 = calls s ++ seg.

Lemma advanceAll_isolated c runs :
  does (advanceAll cfg active budgets c runs : M W _) (λ l o, ∃ c' segs,
    o = Ret c' ∧ l = concat segs ∧ Forall2 advancedOnce runs segs ∧
    ∀ dag, mget 0 (activeByDAG c') dag = mget 0 (activeByDAG c) dag + runsOf dag runs).
Proof.
  revert c. induction runs as [|r runs IH]; intros c.
  { apply does_ret. exists c, []. split_and!; [done..|constructor|]. intros dag. unfold runsOf. simpl. lia. }
  eapply does_bind with (P := λ l o, (∃ a, o = Ret a) ∧ advancedOnce r l).
  - intros s. destruct (advanceSafely_does every (budgeted cfg active budgets c r) s) as (l & Hl & Ha & _).
    exists l. split; [done|]. split; [done|]. exists c, s. by rewrite <- advanceSafely_calls.
  - intros l a [_ Hl]. eapply does_mono; [apply IH|]. intros l' o (c' & segs & -> & -> & Hf & Hc).
    exists c', (l :: segs). split_and!; [done..|by constructor|]. intros dag. rewrite Hc. unfold countRun. simpl.
    rewrite mget_increment. unfold runsOf. cbn [countb]. case_decide; case_bool_decide; try done; lia.
  - by intros l [[? ?] _].
  - by intros l [[? ?] _].
Qed.

(** ** The cap on the tasks of a DAG *)

Definition dispatchedFor (dag : string) (l : trace) : Z :=
  countb (λ x, match x.1 with CDispatch _ d _ _ => bool_decide (d = dag) | _ => false end) l.

Lemma dispatchedFor_app dag l l' : dispatchedFor dag (l ++ l') = dispatchedFor dag l + dispatchedFor dag l'.
Proof. apply countb_app. Qed.

Lemma dispatchedFor_run r dag l : Forall (λ x, launchOf r x.1) l →
  dispatchedFor dag l = if decide (DagID (plan r) = dag) then dispatched every l else 0.
Proof.
  unfold dispatchedFor, dispatched. induction 1 as [|[c e] l Hc _ IH]; simpl; [by case_decide|]. rewrite IH.
  destruct c; simpl in *; try (by case_decide; lia). destruct Hc as (_ & -> & _). case_decide; case_bool_decide; try done; lia.
Qed.

Lemma admitAll_admitted pools l a : admitted (admitAll pools l a) = admitted a + countb is_queued l.
Proof.
  revert a. induction l as [|t l IH]; intros a; simpl; [lia|]. rewrite IH. unfold admitTask, is_queued. case_bool_decide; simpl; lia.
Qed.

Lemma countb_ext {A} (p p' : A → bool) l : (∀ x, x ∈ l → p x = p' x) → countb p l = countb p' l.
Proof. induction l as [|x l IH]; intros H; [done|]. simpl. rewrite (H x), IH; [done|set_solver..]. Qed.

Lemma launches_every r : launches every r =
  if bool_decide (State r = DagRunStateQueued) && bool_decide (States (plan r) = ∅) then 0 else countb is_queued (PlanRun (plan r)).
Proof.
  unfold launches. case_match; [done|]. apply countb_ext. intros x Hx. unfold queues.
  pose proof (proj1 (Forall_forall _ _) (PlanRun_planned r) x Hx) as Hp. destruct (findTask_is_Some _ _ Hp) as [t ->].
  apply andb_true_r.
Qed.

Lemma admits_admitted r : admitted (admits r) = launches every r.
Proof. rewrite launches_every. unfold admits. case_match; [done|]. by rewrite admitAll_admitted. Qed.

Lemma launches_capped r : 0 < MaxActiveTasks (plan r) →
  ActiveTaskCount (plan r) + launches every r <= Z.max (MaxActiveTasks (plan r)) (ActiveTaskCount (plan r)).
Proof. intros H. rewrite launches_every. case_match; [lia|]. by apply plan_respects_max_active_tasks. Qed.

Lemma advanceAll_capped dag m c runs :
  0 < m → (∀ r, r ∈ runs → DagID (plan r) = dag → MaxActiveTasks (plan r) = m) →
  let before := mget 0 active dag + mget 0 (admittedTasksByDAG c) dag in
  does (advanceAll cfg active budgets c runs : M W _) (λ l _, smooth l → before + dispatchedFor dag l <= Z.max m before).
Proof.
  intros Hm. revert c. induction runs as [|r runs IH]; intros c Hcap before; subst before.
  { apply does_ret. intros _. unfold dispatchedFor. simpl. lia. }
  eapply does_bind; [apply (advanceSafely_does every (budgeted cfg active budgets c r))|..]; [|by intros l [[? ?] _]..].
  intros l a (_ & H1 & H2 & H3). eapply does_mono; [apply IH; set_solver|]. cbn zeta. intros l' o Hl' [Hs Hs']%smooth_app.
  specialize (Hl' Hs'). injection (H3 Hs) as ->. rewrite dispatchedFor_app, (dispatchedFor_run _ _ _ H2).
  pose proof (launches_capped (budgeted cfg active budgets c r)) as Hc.
  unfold countRun in Hl'. cbn [admittedTasksByDAG] in Hl'. rewrite mget_increment, admits_admitted in Hl'.
  change (DagID (plan (budgeted _ _ _ _ _))) with (DagID (plan r)).
  change (MaxActiveTasks (plan (budgeted _ _ _ _ _))) with (MaxActiveTasks (plan r)) in Hc.
  change (ActiveTaskCount (plan (budgeted _ _ _ _ _))) with
    (mget 0 active (DagID (plan r)) + mget 0 (admittedTasksByDAG c) (DagID (plan r))) in Hc.
  case_decide as Hd; [|lia]. rewrite (Hcap r ltac:(set_solver) Hd), Hd in Hc. specialize (Hc Hm). lia.
Qed.

(** ** The slots of a pool *)

Definition drawsOn (k tenant : string) (t : TaskSpec) : bool := bool_decide (PoolKey tenant (resolvePool (Pool t)) = k).

Lemma countb_filter {A} (p : A → bool) l : countb p l = Z.of_nat (length (filter (λ x, p x = true) l)).
Proof.
  induction l as [|x l IH]; [done|]. simpl. rewrite filter_cons, IH. destruct (p x); case_decide; simpl; try done; lia.
Qed.

Lemma taskPools_find r id t m : NoDup (map TaskID (Tasks r)) → taskPools r = Some m → findTask (Tasks r) id = Some t →
  mget "" m id = PoolKey (TenantID r) (resolvePool (Pool t)).
Proof.
  unfold taskPools. destruct (PoolsEnabled r); [|done]. simpl. intros Hnd [= <-] [Ht <-]%findTask_Some.
  revert Hnd Ht. induction (Tasks r) as [|x l IH] using rev_ind; intros Hnd Ht; [by apply elem_of_nil in Ht|].
  rewrite foldl_app. simpl. rewrite map_app in Hnd. apply NoDup_app in Hnd as (Hnd & Hx & _).
  rewrite mget_insert. apply elem_of_app in Ht as [Ht| ->%list_elem_of_singleton]; [|by case_decide].
  rewrite decide_False; [by apply IH|]. intros Heq. apply (Hx (TaskID t)); [by apply list_elem_of_fmap_2|].
  rewrite <- Heq. simpl. set_solver.
Qed.

Lemma admitAll_pool r m k l a : NoDup (map TaskID (Tasks (plan r))) → taskPools (plan r) = Some m → planned r l →
  mget 0 (byPool (admitAll (Some m) l a)) k = mget 0 (byPool a) k + countb (queues (drawsOn k) r) l.
Proof.
  intros Hnd Hm. revert a. induction l as [|t l IH]; intros a Hp; simpl; [lia|]. apply Forall_cons in Hp as [Ht Hp].
  rewrite IH by done. destruct (findTask_is_Some _ _ Ht) as [x Hx]. unfold admitTask, queues, is_queued at 2. rewrite Hx.
  case_bool_decide; simpl; [|lia]. rewrite mget_increment, (taskPools_find _ _ _ _ Hnd Hm Hx). unfold drawsOn.
  case_decide; case_bool_decide; try done; lia.
Qed.

Lemma admits_pool r k : PoolsEnabled (plan r) = true → NoDup (map TaskID (Tasks (plan r))) →
  mget 0 (byPool (admits r)) k = launches (drawsOn k) r.
Proof.
  intros He Hnd. unfold admits, launches. case_match; [done|].
  assert (∃ m, taskPools (plan r) = Some m) as [m Hm] by (unfold taskPools; rewrite He; eauto).
  rewrite Hm, (admitAll_pool r m k) by (done || apply PlanRun_planned). done.
Qed.

Lemma launches_promoted r k : PoolsEnabled (plan r) = true → NoDup (map TaskID (Tasks (plan r))) →
  launches (drawsOn k) r <= countb (promotes_into (plan r) (PlanRun (plan r)) k) (Tasks (plan r)).
Proof.
  intros He Hnd. unfold launches. case_match; [apply countb_nonneg|]. rewrite !countb_filter.
  set (L := filter _ (PlanRun _)). set (T := filter _ (Tasks _)).
  cut (map pt_task L ⊆+ map TaskID T); [intros Hs%submseteq_length; rewrite !length_map in Hs; lia|].
  apply NoDup_submseteq.
  - eapply sublist_NoDup; [apply (plan_one_transition_per_task _ Hnd)|]. apply fmap_sublist, sublist_filter.
  - intros id ([tid to] & -> & [Hq Hx]%list_elem_of_filter)%list_elem_of_fmap. unfold queues in Hq. simpl in *.
    apply andb_true_iff in Hq as [Hto%bool_decide_eq_true Hq]. simpl in Hto. subst to. destruct (findTask _ _) as [t|] eqn:Ef; [|done].
    apply findTask_Some in Ef as [Ht <-]. apply list_elem_of_fmap_2, list_elem_of_filter. split; [|done].
    unfold promotes_into, poolKeyFor. rewrite He. simpl. apply andb_true_iff. split; [done|]. by apply bool_decide_eq_true.
Qed.

Lemma addPools_mget o m k : mget 0 (addPools o m) k = mget 0 o k + mget 0 m k.
Proof.
  unfold addPools. unfold mget at 3. rewrite <- (list_to_map_to_list m) at 2.
  pose proof (NoDup_fst_map_to_list m) as Hnd. revert o Hnd. induction (map_to_list m) as [|[k' n] l IH]; intros o Hnd; simpl.
  - rewrite lookup_empty. simpl. lia.
  - apply NoDup_cons in Hnd as [Hk Hnd]. rewrite IH, mget_increment by done. rewrite lookup_insert.
    case_decide as E; simpl; [|lia]. subst. rewrite not_elem_of_list_to_map_1 by done. simpl. lia.
Qed.

Lemma launches_pooled r k : PoolsEnabled (plan r) = true → NoDup (map TaskID (Tasks (plan r))) → k ≠ "" →
  0 < mget 0 (PoolBudgets (plan r)) k →
  mget 0 (PoolActive (plan r)) k + launches (drawsOn k) r <= Z.max (mget 0 (PoolBudgets (plan r)) k) (mget 0 (PoolActive (plan r)) k).
Proof.
  intros He Hnd Hk Hb. pose proof (launches_promoted r k He Hnd). pose proof (plan_respects_pool_budget _ _ Hnd Hk Hb). lia.
Qed.

Lemma advanceAll_pooled k c runs :
  poolsEnabled cfg = true → k ≠ "" → 0 < mget 0 budgets k → Forall (λ r, NoDup (map TaskID (Tasks (plan r)))) runs →
  let before := mget 0 (poolOccupied c) k in
  does (advanceAll cfg active budgets c runs : M W _)
    (λ l _, smooth l → before + dispatched (drawsOn k) l <= Z.max (mget 0 budgets k) before).
Proof.
  intros He Hk Hb Hnd. revert c. induction Hnd as [|r runs Hr _ IH]; intros c before; subst before.
  { apply does_ret. intros _. unfold dispatched. simpl. lia. }
  eapply does_bind; [apply (advanceSafely_does (drawsOn k) (budgeted cfg active budgets c r))|..]; [|by intros l [[? ?] _]..].
  intros l a (_ & H1 & H2 & H3). eapply does_mono; [apply IH|]. cbn zeta. intros l' o Hl' [Hs Hs']%smooth_app.
  specialize (Hl' Hs'). injection (H3 Hs) as ->. rewrite dispatched_app.
  pose proof (launches_pooled (budgeted cfg active budgets c r) k He Hr Hk Hb) as Hc.
  unfold countRun in Hl'. cbn [poolOccupied] in Hl'. rewrite addPools_mget, admits_pool in Hl' by done.
  change (PoolBudgets (plan (budgeted _ _ _ _ _))) with budgets in Hc.
  change (PoolActive (plan (budgeted _ _ _ _ _))) with (poolOccupied c) in Hc. lia.
Qed.

End loop.

(** ** The tick *)

(** The tasks of a DAG that are queued or running, over its runs. *)
Fixpoint occupying (dag : string) (runs : list Run) : Z :=
  match runs with
  | [] => 0
  | r :: runs =>
    (if decide (DagID (plan r) = dag) then countb (λ x, occupies x.2) (map_to_list (States (plan r))) else 0) + occupying dag runs
  end.

Lemma countState_fold dag k counts l : mget 0 (foldl (countState k) counts l) dag =
  mget 0 counts dag + if decide (k = dag) then countb (λ x, occupies x.2) l else 0.
Proof.
  revert counts. induction l as [|x l IH]; intros counts; simpl; [case_decide; lia|]. rewrite IH. unfold countState.
  destruct (occupies x.2); [rewrite mget_increment|]; case_decide; lia.
Qed.

Lemma activeTaskCounts_occupying dag runs : mget 0 (activeTaskCounts runs) dag = occupying dag runs.
Proof.
  unfold activeTaskCounts. assert (∀ counts, mget 0 (foldl (λ counts r, foldl (countState (DagID (plan r))) counts
    (map_to_list (States (plan r)))) counts runs) dag = mget 0 counts dag + occupying dag runs) as H.
  { induction runs as [|r runs IH]; intros counts; simpl; [lia|]. rewrite IH, countState_fold. lia. }
  rewrite H. done.
Qed.

(** The slots of a pool that are taken, over all runs. *)
Definition holdsSlot (k : string) (r : RunState) (t : TaskSpec) : bool :=
  drawsOn k (TenantID r) t && occupies (mget TaskStateZero (States r) (TaskID t)).

Fixpoint holding (k : string) (runs : list Run) : Z :=
  match runs with [] => 0 | r :: runs => countb (holdsSlot k (plan r)) (Tasks (plan r)) + holding k runs end.

Lemma countPool_fold k r counts l :
  mget 0 (foldl (countPool r) counts l) k = mget 0 counts k + countb (holdsSlot k r) l.
Proof.
  revert counts. induction l as [|t l IH]; intros counts; simpl; [lia|]. rewrite IH. unfold countPool, holdsSlot at 2, drawsOn.
  destruct (occupies _); [rewrite mget_increment; case_decide; case_bool_decide; try done; simpl; lia|].
  rewrite andb_false_r. lia.
Qed.

Lemma activePoolCounts_holding k runs : mget 0 (activePoolCounts runs) k = holding k runs.
Proof.
  unfold activePoolCounts. assert (∀ counts, mget 0 (foldl (λ counts r, foldl (countPool (plan r)) counts (Tasks (plan r)))
    counts runs) k = mget 0 counts k + holding k runs) as H.
  { induction runs as [|r runs IH]; intros counts; simpl; [lia|]. rewrite IH, countPool_fold. lia. }
  rewrite H. done.
Qed.

(** No dispatch among the calls, of any kind of task. *)
Definition undispatched (l : trace) : Prop := Forall (λ x, plainCall x.1 = true) l.

Lemma undispatched_for dag l : undispatched l → dispatchedFor dag l = 0.
Proof. intros H. apply countb_zero. intros [[] e] Hx; try done. by pose proof (proj1 (Forall_forall _ _) H _ Hx). Qed.

Lemma undispatched_zero q l : undispatched l → dispatched q l = 0.
Proof. intros H. apply countb_zero. intros [[] e] Hx; try done. by pose proof (proj1 (Forall_forall _ _) H _ Hx). Qed.

Lemma try_plain {A} c (f : W → W * returns (option A)) : plainCall c = true → does (try c f) (λ l _, undispatched l).
Proof. intros Hc. apply does_ask; [intros a|]; by constructor. Qed.

Lemma plain_bind {A B} (m : M W A) (f : A → M W B) :
  does m (λ l _, undispatched l) → (∀ a, does (f a) (λ l _, undispatched l)) → does (m ≫= f) (λ l _, undispatched l).
Proof.
  intros Hm Hf. eapply does_bind; [exact Hm|..]; [|done..]. intros l a Hl. eapply does_mono; [apply Hf|].
  intros l' o Hl'. by apply Forall_app_2.
Qed.

Lemma plain_ret {A} (a : A) : does (mret a : M W A) (λ l _, undispatched l).
Proof. apply does_ret. constructor. Qed.

Lemma createDue_plain active : does (createDue cfg parse fuel active : M W _) (λ l _, undispatched l).
Proof.
  apply plain_bind; [by apply try_plain|]. intros [dags|]; [|apply plain_ret].
  apply plain_bind; [apply does_clock; intros _; constructor|]. intros now. apply plain_bind; [|intros u; apply plain_ret].
  intros s. unfold runCreation. case_match; simpl; eexists; (split; [|shelve]); [done|symmetry; apply app_nil_r].
  Unshelve. all: by constructor.
Qed.

(** A tick of the leader that gets the runs, and the budgets when pools are on. *)
Definition tickReads (s : Sys W) (runs : list Run) (budgets : gmap string Z) : Prop :=
  ∃ w, ActiveRuns (TimeNow (world s)).1 = (w, Returned (Some runs)) ∧
  if poolsEnabled cfg then ∃ w', LoadPoolBudgets w = (w', Returned (Some budgets)) else budgets = ∅.

Definition occupiedSlots (runs : list Run) : gmap string Z := if poolsEnabled cfg then activePoolCounts runs else ∅.

Lemma Step_runs s runs budgets : leading s = true → tickReads s runs budgets → ∃ s1 pre,
  Step cfg parse fuel s = (c ← advanceAll cfg (activeTaskCounts runs) budgets (startCounts (occupiedSlots runs)) runs;
                           createDue cfg parse fuel (activeByDAG c)) s1 ∧
  calls s1 = calls s ++ pre ∧ undispatched pre.
Proof.
  intros Hlead (w & Ha & Hb). unfold occupiedSlots, Step, stampTick, clock, mbind, sched_bind.
  destruct (TimeNow (world s)) as [w0 t]. simpl in Ha |- *. rewrite Hlead. unfold try, ask. simpl. rewrite Ha. simpl.
  unfold loadPoolBudget. destruct (poolsEnabled cfg); simpl.
  - destruct Hb as [w' Hb]. unfold mbind, sched_bind, try, ask. simpl. rewrite Hb. simpl. eexists _, _. split; [reflexivity|].
    simpl. rewrite app_nil_r, <- (assoc app). split; [done|]. by repeat constructor.
  - subst. eexists _, _. split; [reflexivity|]. simpl. rewrite app_nil_r. split; [done|]. by repeat constructor.
Qed.

Lemma Step_counted s runs budgets (count : trace → Z) (P : trace → Prop) :
  leading s = true → tickReads s runs budgets →
  (∀ l l', count (l ++ l') = count l + count l') → (∀ l, undispatched l → count l = 0) →
  does (advanceAll cfg (activeTaskCounts runs) budgets (startCounts (occupiedSlots runs)) runs : M W _) (λ l _, smooth l → P l) →
  (∀ l l', count l = count l' → P l → P l') →
  ∃ l, calls (Step cfg parse fuel s).1 = calls s ++ l ∧ (smooth l → P l).
Proof.
  intros Hlead Hr Happ H0 Hadv HP. destruct (Step_runs s runs budgets Hlead Hr) as (s1 & pre & -> & Hpre & Hu).
  destruct (does_bind _ (λ c, createDue cfg parse fuel (activeByDAG c)) _
    (λ l _, ∃ l1 l2, l = l1 ++ l2 ∧ (smooth l1 → P l1) ∧ undispatched l2) Hadv) with (s := s1) as (l & Hl & l1 & l2 & -> & H1 & H2).
  - intros l c Hl. eapply does_mono; [apply createDue_plain|]. intros l' o Hl'. by exists l, l'.
  - intros l Hl. exists l, []. rewrite app_nil_r. split_and!; [done..|constructor].
  - intros l Hl. exists l, []. rewrite app_nil_r. split_and!; [done..|constructor].
  - exists (pre ++ l1 ++ l2). split; [by rewrite Hl, Hpre, <- (assoc app)|]. intros (_ & Hs & _)%smooth_app_3.
    eapply HP; [|by apply H1]. rewrite !Happ, (H0 pre), (H0 l2) by done. lia.
Qed.

(** C6: a run that fails or panics keeps no other run from being advanced: a tick that
    reads its runs advances each of them once, in order, and then goes on to the creation
    of new runs with the exact number of active runs of each DAG. *)
Theorem tick_isolates_runs s runs budgets : leading s = true → tickReads s runs budgets →
  ∃ s' c pre segs, Step cfg parse fuel s = createDue cfg parse fuel (activeByDAG c) s' ∧
    calls s' = calls s ++ pre ++ concat segs ∧
    Forall2 (advancedOnce (activeTaskCounts runs) budgets) runs segs ∧
    ∀ dag, mget 0 (activeByDAG c) dag = runsOf dag runs.
Proof.
  intros Hlead Hr. destruct (Step_runs s runs budgets Hlead Hr) as (s1 & pre & -> & Hpre & _).
  destruct (advanceAll_isolated (activeTaskCounts runs) budgets (startCounts (occupiedSlots runs)) runs s1)
    as (l & Hl & c & segs & Ho & -> & Hf & Hc).
  unfold mbind, sched_bind. destruct (advanceAll _ _ _ _ _ s1) as [s2 o]. simpl in *. subst o.
  exists s2, c, pre, segs. split_and!; [done|by rewrite Hl, Hpre, <- (assoc app)|done|]. intros dag. by rewrite Hc.
Qed.

(** C5: a tick respects the cap on the tasks of a DAG across its runs: the tasks queued or
    running in all of them when it starts plus those it dispatches are at most the cap, or
    the number it found when that is larger, unless a call panics or one fails that is not
    among the tolerated ones. *)
Theorem tick_respects_task_cap s runs budgets dag m :
  leading s = true → tickReads s runs budgets → 0 < m →
  (∀ r, r ∈ runs → DagID (plan r) = dag → MaxActiveTasks (plan r) = m) →
  ∃ l, calls (Step cfg parse fuel s).1 = calls s ++ l ∧
    (smooth l → occupying dag runs + dispatchedFor dag l <= Z.max m (occupying dag runs)).
Proof.
  intros Hlead Hr Hm Hcap. eapply (Step_counted s runs budgets (dispatchedFor dag)); [done..| | | |].
  - apply dispatchedFor_app.
  - apply undispatched_for.
  - eapply does_mono; [by apply (advanceAll_capped _ _ dag m)|]. intros l o Hl Hs. specialize (Hl Hs).
    simpl in Hl. rewrite <- activeTaskCounts_occupying. unfold startCounts in Hl. simpl in Hl.
    change (mget 0 ∅ dag) with 0 in Hl. by rewrite Z.add_0_r in Hl.
  - intros l l' He Hl. by rewrite <- He.
Qed.

(** C12: a tick respects the slots of a named pool across the runs and DAGs that share it: the
    slots taken when it starts plus the tasks it dispatches into the pool are at most the
    slots of the pool, or the number it found taken when that is larger, unless a call
    panics or one fails that is not among the tolerated ones. *)
Theorem tick_respects_pool_slots s runs budgets k :
  leading s = true → tickReads s runs budgets → poolsEnabled cfg = true → k ≠ "" → 0 < mget 0 budgets k →
  Forall (λ r, NoDup (map TaskID (Tasks (plan r)))) runs →
  ∃ l, calls (Step cfg parse fuel s).1 = calls s ++ l ∧
    (smooth l → holding k runs + dispatched (drawsOn k) l <= Z.max (mget 0 budgets k) (holding k runs)).
Proof.
  intros Hlead Hr Hp Hk Hb Hnd. eapply (Step_counted s runs budgets (dispatched (drawsOn k))); [done..| | | |].
  - apply dispatched_app.
  - apply undispatched_zero.
  - eapply does_mono; [by apply (advanceAll_pooled (activeTaskCounts runs) budgets k)|]. intros l o Hl Hs. specialize (Hl Hs).
    rewrite <- activePoolCounts_holding. unfold startCounts, occupiedSlots in Hl. by rewrite Hp in Hl.
  - intros l l' He Hl. by rewrite <- He.
Qed.

(** A follower makes no call. *)
Theorem follower_is_inert s : leading s = false →
  (Step cfg parse fuel s).2 = Ret None ∧ calls (Step cfg parse fuel s).1 = calls s ∧
  metrics (Step cfg parse fuel s).1 = metrics s ∧ inflight (Step cfg parse fuel s).1 = inflight s.
Proof.
  intros Hf. unfold Step, stampTick, clock, mbind, sched_bind. destruct (TimeNow (world s)) as [w t]. simpl. rewrite Hf. simpl.
  by rewrite app_nil_r.
Qed.

Lemma createLoop_stuck {St} (create : St → string → Z → St * bool) now active d dags t :
  d ∈ dags → (∀ t, createForDag create parse fuel now active t d = None) →
  createLoop create parse fuel now active t dags = None.
Proof.
  intros Hd Hn. revert t. induction dags as [|x dags IH]; intros t; [by apply elem_of_nil in Hd|].
  apply elem_of_cons in Hd as [<-|Hd]; cbn [createLoop].
  - by rewrite Hn.
  - destruct (createForDag _ _ _ _ _ _ x); simpl; [by apply IH|done].
Qed.

Lemma createForDag_stuck {St} (create : St → string → Z → St * bool) now active d t :
  neverDue parse d → 0 <= now → createForDag create parse fuel now active t d = None.
Proof.
  intros (Ho & Hc & next & Hp & Hz & [last Hl] & start & Hs & Hpos) Hn. unfold createForDag, scheduleParseable, dueScheduledSlots.
  rewrite Ho, Hc, Hp, Hl, Hs. rewrite bool_decide_true by by eexists. simpl. pose proof (impossible_date_diverges fuel last start now (SdCatchup d) maxCatchupSlotsPerTick Hn Hpos) as Hd.
  unfold dueSlots in *. simpl in *. rewrite (slotLoop_ext next (λ _, 0)) by done. by destruct (slotLoop (λ _, 0) _ _ _ _ _ _).
Qed.

(** A DAG that is never due stops the scheduler: when the list of scheduled DAGs has it, a
    tick of the leader that reads its runs does not end, whatever the fuel. *)
Lemma never_due_dag_stops_tick s runs budgets d : leading s = true → tickReads s runs budgets → neverDue parse d →
  (∀ w : W, 0 <= (TimeNow w).2) → (∀ w, ∃ w' dags, ScheduledDAGs w = (w', Returned (Some dags)) ∧ d ∈ dags) →
  (tick cfg parse fuel s).2 = Diverges.
Proof.
  intros Hlead Hr Hd Ht Hs. destruct (Step_runs s runs budgets Hlead Hr) as (s1 & pre & He & _).
  destruct (advanceAll_isolated (activeTaskCounts runs) budgets (startCounts (occupiedSlots runs)) runs s1) as (l & _ & c & _ & Ho & _).
  unfold tick, recovering, mbind, sched_bind in *. rewrite He. clear He. destruct (advanceAll _ _ _ _ _ s1) as [s2 o]. simpl in Ho. subst o.
  unfold createDue, mbind, sched_bind, try, ask. destruct (Hs (world s2)) as (w' & dags & -> & Hin). simpl.
  unfold clock. simpl. specialize (Ht w'). destruct (TimeNow w') as [w2 now]. simpl in Ht |- *.
  unfold runCreation, createDueRuns. simpl. by rewrite (createLoop_stuck _ _ _ d) by eauto using createForDag_stuck.
Qed.

End props.

(** ** A tick ends *)

Section ends.
Context {W : Type} `{HW : Host W} (cfg : Config) (parse : list Z → option (Z → Z)).

(** A computation that ends with enough fuel, and how. *)
Definition ends {A} (m : nat → M W A) (s : Sys W) : Prop := ∃ fuel, ∀ fuel', (fuel <= fuel')%nat → (m fuel' s).2 ≠ Diverges.

Lemma ends_bind {A B} (m : M W A) (k : nat → A → M W B) s : (m s).2 ≠ Diverges →
  (∀ a s', m s = (s', Ret a) → ends (λ fuel, k fuel a) s') → ends (λ fuel, m ≫= k fuel) s.
Proof.
  intros Hm Hk. unfold ends, mbind, sched_bind in *. destruct (m s) as [s' [a| |]]; [by apply Hk|by exists 0%nat|done].
Qed.

Lemma stampTick_ends s : (stampTick (W := W) s).2 ≠ Diverges.
Proof. unfold stampTick, clock, mbind, sched_bind. by destruct (TimeNow (world s)). Qed.

Lemma try_ends {A} c (f : W → W * returns (option A)) s : (try c f s).2 ≠ Diverges.
Proof. unfold try, ask. by destruct (f (world s)) as [w [x|]]. Qed.

Lemma loadPoolBudget_ends runs s : (loadPoolBudget cfg runs s).2 ≠ Diverges.
Proof.
  unfold loadPoolBudget. destruct (poolsEnabled cfg); [|done]. unfold mbind, sched_bind. simpl. pose proof (try_ends CPoolBudgets LoadPoolBudgets s).
  destruct (try CPoolBudgets LoadPoolBudgets s) as [s' [x| |]]; done.
Qed.

Lemma createDue_ends active s : cron_library parse →
  (∀ w w' dags d, ScheduledDAGs w = (w', Returned (Some dags)) → d ∈ dags → ¬ neverDue parse d) →
  ends (λ fuel, createDue cfg parse fuel active) s.
Proof.
  intros Hp Hn. unfold ends, createDue, mbind, sched_bind, try, ask. destruct (ScheduledDAGs (world s)) as [w' [[dags|]|]] eqn:Es;
    try (by exists 0%nat). simpl. unfold clock. simpl. destruct (TimeNow w') as [w2 now]. simpl. unfold runCreation, createDueRuns. simpl.
  match goal with |- context [createLoop ?c ?p _ ?n ?a ?t ?ds] => destruct (createLoop_ends c p n a t ds Hp) as (fuel & Hf) end.
  { right. intros d Hd. by eapply Hn. }
  exists fuel. intros fuel' Hle. destruct (Hf fuel' Hle) as [t ->]. done.
Qed.

(** What comes before the creation of runs does not depend on the fuel. *)
Lemma Step_ends s : cron_library parse →
  (∀ w w' dags d, ScheduledDAGs w = (w', Returned (Some dags)) → d ∈ dags → ¬ neverDue parse d) →
  ends (λ fuel, Step cfg parse fuel) s.
Proof.
  intros Hp Hn. unfold Step. apply ends_bind; [apply stampTick_ends|]. intros _ s1 _. apply ends_bind; [done|]. intros [|] s2 _; [|by exists 0%nat].
  apply ends_bind; [apply try_ends|]. intros [runs|] s3 _; [|by exists 0%nat]. apply ends_bind; [apply loadPoolBudget_ends|].
  intros [[budgets occ]|] s4 _; [|by exists 0%nat]. apply ends_bind; [|intros c s5 _; by apply createDue_ends].
  by destruct (advanceAll_isolated cfg (activeTaskCounts runs) budgets (startCounts occ) runs s4) as (l & _ & c & segs & -> & _).
Qed.


End ends.

(** ** A run that fails half way *)

(** A store whose writes of one run fail, and whose runs never change. *)
Definition sampleTask (id : string) : TaskSpec :=
  {| TaskID := id; DependsOn := []; Rule := TriggerRuleAllSuccess; Pool := "gpu"; Retries := None; SpecRetryDelay := None |}.

Definition runWith (id : string) (st : TaskState) (alerts : option (list string)) : Run :=
  {| plan :=
       {| RunID := id; DagID := "etl"; TenantID := "acme"; Tasks := [sampleTask "load"];
          States := {[ "load" := st ]}; Tries := ∅; MaxTries := ∅; EndedAt := ∅; RetryDelaySeconds := ∅;
          RescheduleAt := ∅; NextDispatchAt := ∅; DispatchAttempts := ∅; InfraFailed := ∅; InfraAttempts := ∅; Now := 1;
          MaxActiveTasks := 1; ActiveTaskCount := 0; PoolsEnabled := false; PoolBudgets := ∅; PoolActive := ∅ |};
     State := DagRunStateRunning; DagVersionID := "v1"; Alerts := alerts |}.

Definition sampleRun (id : string) : Run := runWith id TaskStateScheduled None.
Definition sampleRuns : list Run := [sampleRun "r1"; sampleRun "r2"].

Definition gpu : string := PoolKey "acme" "gpu".

Definition fails (b : bool) (w : unit) : unit * returns (option unit) := (w, Returned (if b then None else Some tt)).

Definition sampleHost (runs : list Run) (bad : string) : Host unit := {|
  ActiveRuns w := (w, Returned (Some runs));
  LoadPoolBudgets w := (w, Returned (Some {[ gpu := 1 ]}));
  MaterializeTasks _ _ := fails false;
  SetRunState _ _ := fails false;
  ApplyTransition run _ _ := fails (bool_decide (run = bad));
  ApplyTransitions run _ _ := fails (bool_decide (run = bad));
  ResetForRetry _ _ w := (w, Returned (Some true));
  ResetForInfraReplace _ _ w := (w, Returned (Some true));
  RedispatchReschedule _ _ := fails false;
  RecordDispatchFailure _ _ _ := fails false;
  RecordDispatchBackpressure _ _ _ := fails false;
  FailDispatchExhausted _ _ := fails false;
  SetTaskNote _ _ := fails false;
  ClaimAlertAttempt _ _ _ w := (w, Returned (Some 1));
  MarkRunAlertDelivered _ _ w := (w, Some tt);
  ScheduledDAGs w := (w, Returned (Some []));
  CreateScheduledRun w _ _ := (w, true);
  Dispatch _ _ _ _ w := (w, Returned Launched);
  AlertRunFailed _ w := (w, true);
  TimeNow w := (w, 1);
  Ended w := (w, []);
|}.

Definition sampleConfig (pools : bool) : Config :=
  {| hasRecorder := true; hasDispatcher := true; hasAlerter := true; poolsEnabled := pools;
     alertSem := defaultAlertConcurrency; interval := Second |}.

Definition sampleSys : Sys unit := (@SetLeading unit (sampleHost sampleRuns "") true (newSys tt)).1.

Definition sampleStep (bad : string) (pools : bool) : Sys unit * outcome (option error) :=
  @Step unit (sampleHost sampleRuns bad) (sampleConfig pools) (λ _, None) 1 sampleSys.

(** When the store fails after a task of a run was dispatched, the run counts as having
    admitted nothing: the next run of the DAG dispatches too, past a cap of one and past a
    pool of one slot. *)
Theorem cap_breached_after_error :
  let l := calls (sampleStep "r1" true).1 in
  occupying "etl" sampleRuns = 0 ∧ MaxActiveTasks (plan (sampleRun "r1")) = 1 ∧
  dispatchedFor "etl" l = 2 ∧ dispatched (drawsOn gpu) l = 2.
Proof. vm_compute. done. Qed.

Lemma tick_isolates_runs_witness : ∃ s' c,
  sampleStep "r1" false = @createDue unit (sampleHost sampleRuns "r1") (sampleConfig false) (λ _, None) 1 (activeByDAG c) s' ∧
  mget 0 (activeByDAG c) "etl" = 2.
Proof.
  destruct (@tick_isolates_runs unit (sampleHost sampleRuns "r1") (sampleConfig false) (λ _, None) 1 sampleSys
    sampleRuns ∅ eq_refl) as (s' & c & _ & _ & H & _ & _ & Hc).
  - exists tt. done.
  - exists s', c. split; [exact H|]. rewrite Hc. vm_compute. reflexivity.
Defined.

Lemma tick_respects_task_cap_witness :
  ∃ l, calls (sampleStep "" false).1 = calls sampleSys ++ l ∧ dispatchedFor "etl" l <= 1.
Proof.
  destruct (@tick_respects_task_cap unit (sampleHost sampleRuns "") (sampleConfig false) (λ _, None) 1 sampleSys
    sampleRuns ∅ "etl" 1 eq_refl) as (l & Hl & H).
  - exists tt. done.
  - lia.
  - intros r Hr _. unfold sampleRuns in Hr. repeat (apply elem_of_cons in Hr as [->|Hr]; [reflexivity|]). by apply elem_of_nil in Hr.
  - exists l. split; [exact Hl|]. change (occupying _ _) with 0 in H. apply H.
    vm_compute in Hl. subst l. repeat constructor.
Defined.

Lemma tick_respects_pool_slots_witness :
  ∃ l, calls (sampleStep "" true).1 = calls sampleSys ++ l ∧ dispatched (drawsOn gpu) l <= 1.
Proof.
  destruct (@tick_respects_pool_slots unit (sampleHost sampleRuns "") (sampleConfig true) (λ _, None) 1 sampleSys
    sampleRuns {[ gpu := 1 ]} gpu eq_refl) as (l & Hl & H).
  - exists tt. split; [reflexivity|]. exists tt. reflexivity.
  - reflexivity.
  - done.
  - vm_compute. reflexivity.
  - repeat constructor; set_solver.
  - exists l. split; [exact Hl|]. change (holding _ _) with 0 in H. apply H.
    vm_compute in Hl. subst l. repeat constructor.
Defined.

(** A DAG for the thirtieth of February. *)
Definition february : RunCreation.ScheduledDAG :=
  {| RunCreation.DagID := "report"; Schedule := runes "0 0 30 2 *"; LastLogical := Some 5; StartDate := Some 3;
     SdCatchup := true; MaxActiveRuns := 0 |}.

Definition februaryHost : Host unit :=
  let h := sampleHost sampleRuns "" in {|
  ActiveRuns := @ActiveRuns _ h; LoadPoolBudgets := @LoadPoolBudgets _ h; MaterializeTasks := @MaterializeTasks _ h;
  SetRunState := @SetRunState _ h; ApplyTransition := @ApplyTransition _ h; ApplyTransitions := @ApplyTransitions _ h;
  ResetForRetry := @ResetForRetry _ h; ResetForInfraReplace := @ResetForInfraReplace _ h;
  RedispatchReschedule := @RedispatchReschedule _ h; RecordDispatchFailure := @RecordDispatchFailure _ h;
  RecordDispatchBackpressure := @RecordDispatchBackpressure _ h; FailDispatchExhausted := @FailDispatchExhausted _ h;
  SetTaskNote := @SetTaskNote _ h; ClaimAlertAttempt := @ClaimAlertAttempt _ h; MarkRunAlertDelivered := @MarkRunAlertDelivered _ h;
  ScheduledDAGs w := (w, Returned (Some [february])); CreateScheduledRun := @CreateScheduledRun _ h; Dispatch := @Dispatch _ h;
  AlertRunFailed := @AlertRunFailed _ h; TimeNow := @TimeNow _ h; Ended := @Ended _ h |}.


Lemma never_due_dag_stops_sample :
  (@tick unit februaryHost (sampleConfig false) (λ _, Some (λ _, 0)) 1000 sampleSys).2 = Diverges.
Proof.
  apply (@never_due_dag_stops_tick unit februaryHost (sampleConfig false) (λ _, Some (λ _, 0)) 1000 sampleSys sampleRuns ∅ february).
  - reflexivity.
  - exists tt. done.
  - split_and!; [reflexivity|reflexivity|]. exists (λ _, 0). split; [reflexivity|]. split; [done|]. split; [by eexists|]. exists 3. done.
  - done.
  - intros w. exists w, [february]. split; [reflexivity|]. constructor.
Qed.
