(* ===== verification/SchedulerWalk.v ===== *)
(** * Invariants of the scheduler

    A tick of Scheduler.v as a sequence of calls of the host, each with the condition under
    which it is made ([opOf]).  What every call keeps, under a fact on the runs that were
    read, the tick keeps ([stays_tick]): the properties of a particular store are proved
    call by call. *)

From Stdlib Require Import ZArith Lia.
From stdpp Require Import base numbers strings gmap option list.
From S2P Require Import Prelude TaskStates Dag RunCreation Planner Scheduler.

Open Scope Z_scope.

(** A run is started when it is seen first. *)
Definition starting (r : Run) : bool := bool_decide (State r = DagRunStateQueued) && bool_decide (States (plan r) = ∅).

Section walk.
Context {W : Type} `{HW : Host W} (cfg : Config).
Context (parse : list Z → option (Z → Z)) (fuel : nat).

(** The calls made for a run, with the operation of the host. *)
Inductive opOf (r : Run) : ∀ A : Type, Call → (W → W * returns A) → Prop :=
  | op_materialize : starting r = true →
      opOf r _ (CMaterialize (RunID (plan r)) (Tasks (plan r))) (MaterializeTasks (RunID (plan r)) (Tasks (plan r)))
  | op_start : starting r = true →
      opOf r _ (CSetRun (RunID (plan r)) DagRunStateRunning) (SetRunState (RunID (plan r)) DagRunStateRunning)
  | op_final st : starting r = false → FinalizeRun (plan r) = Some st →
      opOf r _ (CSetRun (RunID (plan r)) st) (SetRunState (RunID (plan r)) st)
  | op_apply t to : opOf r _ (CApply (RunID (plan r)) t to) (ApplyTransition (RunID (plan r)) t to)
  | op_apply_many ts to : opOf r _ (CApplyMany (RunID (plan r)) ts to) (ApplyTransitions (RunID (plan r)) ts to)
  | op_retry t : opOf r _ (CRetry (RunID (plan r)) t) (ResetForRetry (RunID (plan r)) t)
  | op_infra t : opOf r _ (CInfraReplace (RunID (plan r)) t) (ResetForInfraReplace (RunID (plan r)) t)
  | op_redispatch t : opOf r _ (CRedispatch (RunID (plan r)) t) (RedispatchReschedule (RunID (plan r)) t)
  | op_failure t n : opOf r _ (CDispatchFailure (RunID (plan r)) t n) (RecordDispatchFailure (RunID (plan r)) t n)
  | op_backpressure t n : opOf r _ (CBackpressure (RunID (plan r)) t n) (RecordDispatchBackpressure (RunID (plan r)) t n)
  | op_exhausted t : opOf r _ (CDispatchExhausted (RunID (plan r)) t) (FailDispatchExhausted (RunID (plan r)) t)
  | op_note t : opOf r _ (CNote (RunID (plan r)) t) (SetTaskNote (RunID (plan r)) t)
  | op_claim : FinalizeRun (plan r) = Some DagRunStateFailed →
      opOf r _ (CClaim (RunID (plan r))) (ClaimAlertAttempt (RunID (plan r)) alertMaxAttempts alertRetryBackoff)
  | op_dispatch t : opOf r _ (CDispatch (RunID (plan r)) (DagID (plan r)) (TenantID (plan r)) t)
      (Dispatch (RunID (plan r)) (DagID (plan r)) (DagVersionID r) t)
  | op_alert r' : opOf r _ (CAlert (RunID (plan r'))) (λ w, let '(w, b) := AlertRunFailed r' w in (w, Returned b))
  | op_delivered r' n : opOf r _ (CDelivered (RunID (plan r')) n)
      (λ w, let '(w, b) := MarkRunAlertDelivered (RunID (plan r')) n w in (w, Returned b)).

(** An invariant of the scheduler, and a fact on the runs it reads. *)
Class Invariant (I : Sys W → Prop) (F : Run → Prop) : Prop := {
  inv_op : ∀ r (A : Type) c (ok : A → bool) f s, F r → opOf r A c f → I s → I (ask c ok f s).1;
  inv_quiet : ∀ s s', calls s' = calls s → world s' = world s → I s → I s';
  inv_clock : ∀ s, I s → I (clock s).1;
  inv_ended : ∀ s, I s → I (setWorld (Ended (world s)).1 [] s);
  inv_runs : ∀ s, I s → I (try CActiveRuns ActiveRuns s).1 ∧
    ∀ runs, (try CActiveRuns ActiveRuns s).2 = Ret (Some runs) → Forall F runs;
  inv_pools : ∀ s, I s → I (try CPoolBudgets LoadPoolBudgets s).1;
  inv_dags : ∀ s, I s → I (try CScheduledDAGs ScheduledDAGs s).1;
  inv_create : ∀ active now dags s t, I s →
    createDueRuns CreateScheduledRun parse fuel now active (world s) (warned s) dags = Some t →
    I (setWorld (store t) [(CCreateRuns (attempts t), Fine)] s);
  inv_budgets : ∀ r a e b o, F r → F (withBudgets a e b o r);
}.

Context (I : Sys W → Prop) (F : Run → Prop) `{!Invariant I F}.

Definition stays {A} (m : M W A) : Prop := ∀ s, I s → I (m s).1.

Lemma stays_ret {A} (a : A) : stays (mret a).
Proof. by intros s Hs. Qed.

Lemma stays_bind {A B} (m : M W A) (f : A → M W B) : stays m → (∀ a, stays (f a)) → stays (m ≫= f).
Proof. intros Hm Hf s Hs. specialize (Hm s Hs). unfold mbind, sched_bind. destruct (m s) as [s1 [a| |]]; [by apply Hf|done..]. Qed.

Lemma stays_recover {A} (m h : M W A) : stays m → stays h → stays (recovering m h).
Proof. intros Hm Hh s Hs. specialize (Hm s Hs). unfold recovering. destruct (m s) as [s1 [a| |]]; [done|by apply Hh|done]. Qed.

Lemma stays_onSys f : (∀ s, calls (f s) = calls s) → (∀ s, world (f s) = world s) → stays (onSys f).
Proof. intros Hc Hw s Hs. eapply inv_quiet; [apply Hc|apply Hw|done]. Qed.

Lemma stays_meter l : stays (meter cfg l).
Proof. by apply stays_onSys. Qed.

Lemma stays_clock : stays clock.
Proof. intros s Hs. by apply inv_clock. Qed.

Lemma stays_op r {A} c (ok : A → bool) f : F r → opOf r A c f → stays (ask c ok f).
Proof. intros Hr Ho s Hs. by eapply inv_op. Qed.

End walk.

Create HintDb walk.
#[export] Hint Resolve stays_ret stays_meter stays_clock : walk.

(** Along the structure of a computation, call by call. *)
Ltac walk :=
  repeat first
    [ progress (eauto 2 with walk)
    | apply stays_bind; [|intros ?]
    | eapply stays_op; [done|done|by constructor]
    | apply stays_onSys; [done|intros ?; reflexivity..]
    | case_match ].

Section operations.
Context {W : Type} `{HW : Host W} (cfg : Config).
Context (parse : list Z → option (Z → Z)) (fuel : nat).
Context (I : Sys W → Prop) (F : Run → Prop) `{HI : !Invariant parse fuel I F}.

#[local] Abbreviation stays := (stays I).

Section run.
Context (r : Run) (Hr : F r).

Lemma stays_ask {A} c (ok : A → bool) f : opOf r A c f → stays (ask c ok f).
Proof. intros Ho. by eapply stays_op. Qed.

Lemma stays_nowOf : stays (nowOf r).
Proof. unfold nowOf. case_match; [by eapply stays_clock|apply stays_ret]. Qed.

Lemma stays_quiet l : stays (meter cfg l).
Proof. by eapply stays_meter. Qed.

#[local] Hint Resolve stays_nowOf stays_quiet : walk.
#[local] Hint Extern 1 (stays (ask _ _ _)) => apply stays_ask; by constructor : walk.

Lemma stays_recordTransition id to : stays (recordTransition cfg r id to).
Proof. unfold recordTransition, try. walk. Qed.

#[local] Hint Resolve stays_recordTransition : walk.

Lemma stays_launchQueued id : stays (launchQueued cfg r id).
Proof. unfold launchQueued, failUndispatchable, handleDispatchFailure, backoffBackpressure, try. walk. Qed.

#[local] Hint Resolve stays_launchQueued : walk.

Lemma stays_applyPlanned t b : stays (applyPlanned cfg r t b).
Proof. unfold applyPlanned, redispatchReschedule, resetForInfraReplace, resetForRetry, try. walk. Qed.

#[local] Hint Resolve stays_applyPlanned : walk.

Lemma stays_applyLoop pools l a b : stays (applyLoop cfg r pools l a b).
Proof. revert a b. induction l as [|t l IH]; intros a b; simpl; walk. Qed.

Lemma stays_flush b l : stays (flushTransitions cfg r b l).
Proof. induction l as [|to l IH]; simpl; unfold try; walk. Qed.

Lemma stays_deliver x : stays (deliver x).
Proof. destruct x as [r' n]. unfold deliver, try. walk. Qed.

#[local] Hint Resolve stays_deliver : walk.

Lemma stays_settleLoop l ended : stays (settleLoop l ended).
Proof. revert ended. induction l as [|x l IH]; intros [|[] ended]; simpl; walk. Qed.

Lemma stays_settle : stays settle.
Proof.
  intros s Hs. pose proof (inv_ended (F := F) parse fuel s Hs) as He. unfold settle.
  destruct (Ended (world s)) as [w ended]. simpl in He. revert He. generalize (setWorld w [] s).
  change (stays (settleLoop (inflight s) ended ≫= λ l, onSys (setInflight l))).
  apply stays_bind; [apply stays_settleLoop|]. intros l. by eapply stays_onSys.
Qed.

#[local] Hint Resolve stays_settle : walk.

Lemma stays_takeSlot n rules : stays (takeSlot cfg r n rules).
Proof.
  intros s Hs. unfold takeSlot. case_match; [|by apply stays_quiet].
  by eapply (inv_quiet (F := F) parse fuel s).
Qed.

#[local] Hint Resolve stays_takeSlot : walk.

Lemma stays_maybeAlert st : FinalizeRun (plan r) = Some st → stays (maybeAlertFailure cfg st r).
Proof.
  intros Hf. unfold maybeAlertFailure, try. case_match eqn:E; [apply stays_ret|].
  apply orb_false_iff in E as [E%negb_false_iff%bool_decide_eq_true _]. subst st. walk.
Qed.

Lemma stays_finalize : starting r = false → stays (finalize cfg r).
Proof.
  intros Hs. unfold finalize, try. case_match eqn:E; [|apply stays_ret].
  apply stays_bind; [apply stays_ask; by constructor|]. intros [x|]; [|apply stays_ret].
  apply stays_bind; [by apply stays_maybeAlert|]. intros u. apply stays_ret.
Qed.

#[local] Hint Resolve stays_finalize stays_flush stays_applyLoop : walk.

Lemma stays_advance : stays (advance cfg r).
Proof. unfold advance. fold (starting r). destruct (starting r) eqn:E; [unfold startRun, try|]; walk. Qed.

Lemma stays_advanceSafely : stays (advanceSafely cfg r).
Proof. pose proof stays_advance. apply stays_recover; unfold record; walk. Qed.

End run.

Lemma stays_advanceAll a b c runs : Forall F runs → stays (advanceAll cfg a b c runs).
Proof.
  intros Hf. revert c. induction Hf as [|r runs Hr _ IH]; intros c; simpl; [apply stays_ret|].
  apply stays_bind; [|intros x; apply IH]. by apply stays_advanceSafely, (inv_budgets (I := I) parse fuel).
Qed.

Lemma stays_createDue active : stays (createDue cfg parse fuel active).
Proof.
  unfold createDue. apply stays_bind; [intros s Hs; by apply (inv_dags (F := F) parse fuel)|].
  intros [dags|]; [|apply stays_ret]. apply stays_bind; [by eapply stays_clock|]. intros now.
  apply stays_bind; [|intros u; apply stays_ret]. intros s Hs. unfold runCreation.
  destruct (createDueRuns _ _ _ _ _ _ _ _) as [t|] eqn:E; [|done]. eapply stays_meter; [exact HI|].
  eapply (inv_quiet (F := F) parse fuel); [| |by eapply (inv_create (F := F) parse fuel) in E]; done.
Qed.

Lemma stays_Step : stays (Step cfg parse fuel).
Proof.
  unfold Step, stampTick. apply stays_bind.
  { apply stays_bind; [by eapply stays_clock|]. intros now. by eapply stays_onSys. }
  intros u. apply stays_bind; [by intros s Hs|]. intros []; [|apply stays_ret]. intros s Hs.
  destruct (inv_runs (F := F) parse fuel s Hs) as [Hs1 HF]. unfold mbind at 1, sched_bind at 1.
  destruct (try CActiveRuns ActiveRuns s) as [s1 [[runs|]| |]]; simpl in *; [|done..]. specialize (HF runs eq_refl).
  revert s1 Hs1. apply stays_bind.
  - unfold loadPoolBudget. case_match; [apply stays_ret|].
    apply stays_bind; [intros s1 Hs1; by apply (inv_pools (F := F) parse fuel)|]. intros b. apply stays_ret.
  - intros [[b o]|]; [|apply stays_ret]. apply stays_bind; [by apply stays_advanceAll|]. intros c. apply stays_createDue.
Qed.

Lemma stays_tick : stays (tick cfg parse fuel).
Proof.
  apply stays_recover; [|by eapply stays_meter]. apply stays_bind; [apply stays_Step|]. intros e. apply stays_ret.
Qed.

(** A run of which the fact holds is needed for the goroutines of alerts. *)
Lemma stays_sysStep r s s' : F r → sysStep cfg parse fuel s s' → I s → I s'.
Proof.
  intros Hr. assert (∀ A (m : M W A) s s' a, stays m → m s = (s', Ret a) → I s → I s') as H.
  { intros A m s1 s2 a Hk E Hs. specialize (Hk s1 Hs). by rewrite E in Hk. }
  assert (∀ f, (∀ s, calls (f s) = calls s) → (∀ s, world (f s) = world s) → stays (onSys f)) as Hq
    by (intros f Hc Hw; by eapply stays_onSys).
  assert (stays clock) as Hclock by (by eapply stays_clock). assert (∀ l, stays (meter cfg l)) as Hm by (intros l; by eapply stays_meter).
  destruct 1 as [s s' E|s s' E|b s s' E|reason s s' E|s s' E|t s s' E]; revert E; apply H.
  - apply stays_tick.
  - by eapply stays_settle.
  - unfold SetLeading. case_match; [|by apply Hq]. apply stays_bind; [done|]. intros t. by apply Hq.
  - unfold MarkSteppingDown. apply stays_bind; [by apply Hq|]. by intros u.
  - by apply Hq.
  - unfold RecordReacquireSince. repeat case_match; try apply stays_ret. apply stays_bind; [done|]. by intros now.
Qed.

End operations.

(** What creating a run keeps, the loop of run creation keeps. *)
Section creation.
Context {W : Type} (create : W → string → Z → W * bool) (parse : list Z → option (Z → Z)) (fuel : nat) (now : Z).
Context (active : gmap string Z) (J : W → Prop) (HJ : ∀ w d l, J w → J (create w d l).1).

Lemma createAndCount_keeps t d l : J (store t) → J (store (createAndCount create t d l)).
Proof.
  intros Ht. unfold createAndCount, createScheduledRun. specialize (HJ (store t) d l Ht).
  destruct (create (store t) d l) as [w []]; done.
Qed.

Lemma createSlots_keeps t d slots : J (store t) → J (store (createSlots create active t d slots)).
Proof.
  revert t. induction slots as [|x slots IH]; intros t Ht; simpl; [done|]. case_match; [|done].
  by apply IH, createAndCount_keeps.
Qed.

Lemma createForDag_keeps t d t' : J (store t) → createForDag create parse fuel now active t d = Some t' → J (store t').
Proof.
  intros Ht. unfold createForDag, warnSchedule. repeat case_match; intros Hx; simplify_eq/=; try done; try (by apply createAndCount_keeps).
  all: apply bind_Some in Hx as (slots & _ & [= <-]); by apply createSlots_keeps.
Qed.

Lemma createDueRuns_keeps w warned dags t : J w → createDueRuns create parse fuel now active w warned dags = Some t → J (store t).
Proof.
  intros Hw. unfold createDueRuns. cut (∀ u, J (store u) → createLoop create parse fuel now active u dags = Some t → J (store t)); [intros H; by apply H|].
  induction dags as [|d dags IH]; intros u Hu; simpl; [by intros [= <-]|].
  destruct (createForDag _ _ _ _ _ _ _) as [u'|] eqn:E; [|done]. simpl. apply IH. by eapply createForDag_keeps.
Qed.

End creation.
