(* ===== verification/AlertProps.v ===== *)
(** * Alerts of the scheduler

    The alerts sent by the scheduler of Scheduler.v, over everything that can happen to it
    ([sysStep]): a bounded number is under way at any time, one is sent only for a run
    that was set to failed, and its delivery is stamped only when it was delivered. *)

From Stdlib Require Import ZArith Lia.
From stdpp Require Import base numbers strings gmap option list.
From S2P Require Import Prelude TaskStates Dag RunCreation Planner Scheduler SchedulerProps.

Open Scope Z_scope.

Section alerts.
Context {W : Type} `{HW : Host W} (cfg : Config).
Context (parse : list Z → option (Z → Z)) (fuel : nat).

(** ** The invariant *)

Definition failedRun (id : string) : Call * ending := (CSetRun id DagRunStateFailed, Fine).

Record alertsOk (s : Sys W) : Prop := {
  within_slots : (length (inflight s) <= alertSem cfg)%nat;
  under_way : ∀ r n, (r, n) ∈ inflight s → failedRun (RunID (plan r)) ∈ calls s;
  sent : ∀ id e, (CAlert id, e) ∈ calls s → failedRun id ∈ calls s;
  stamped : ∀ id n e, (CDelivered id n, e) ∈ calls s → (CAlert id, Fine) ∈ calls s;
}.

(** The invariant, and calls known to have been made. *)
Definition holdsWith (made : trace) (s : Sys W) : Prop := alertsOk s ∧ made ⊆ calls s.

Definition keeps {A} (made : trace) (m : M W A) : Prop := ∀ s, holdsWith made s → holdsWith made (m s).1.

Lemma keeps_ret {A} made (a : A) : keeps made (mret a).
Proof. by intros s Hs. Qed.

Lemma keeps_bind {A B} made (m : M W A) (f : A → M W B) : keeps made m → (∀ a, keeps made (f a)) → keeps made (m ≫= f).
Proof. intros Hm Hf s Hs. specialize (Hm s Hs). unfold mbind, sched_bind. destruct (m s) as [s1 [a| |]]; [by apply Hf|done..]. Qed.

Lemma keeps_recover {A} made (m h : M W A) : keeps made m → keeps made h → keeps made (recovering m h).
Proof. intros Hm Hh s Hs. specialize (Hm s Hs). unfold recovering. destruct (m s) as [s1 [a| |]]; [done|by apply Hh|done]. Qed.

(** Calls that have nothing to do with alerts. *)
Definition otherCall (c : Call) : bool := match c with CAlert _ | CDelivered _ _ => false | _ => true end.

(** A call may be made when what it needs was done before. *)
Definition justified (l : trace) (c : Call) : Prop :=
  match c with CAlert id => failedRun id ∈ l | CDelivered id _ => (CAlert id, Fine) ∈ l | _ => True end.

Lemma holds_call made w c e s : justified (calls s) c → holdsWith made s → holdsWith ((c, e) :: made) (setWorld w [(c, e)] s).
Proof.
  intros Hj [[H1 H2 H3 H4] Hm]. set (s' := setWorld _ _ _).
  assert (∀ x, x ∈ calls s → x ∈ calls s') as Hin by (intros x Hx; apply elem_of_app; by left).
  split; [split; [done|intros r n Hr; by eapply Hin, H2|..]|].
  - intros id e' [Hx|[= <- _]%list_elem_of_singleton]%elem_of_app; [by eapply Hin, H3|by apply Hin].
  - intros id n e' [Hx|[= <- _]%list_elem_of_singleton]%elem_of_app; [by eapply Hin, H4|by apply Hin].
  - intros x [->|Hx]%elem_of_cons; [apply elem_of_app; right; by apply list_elem_of_singleton|by apply Hin, Hm].
Qed.

Lemma holds_fewer made made' s : made ⊆ made' → holdsWith made' s → holdsWith made s.
Proof. intros H [Ha Hm]. split; [done|]. by etrans. Qed.

Lemma holds_world made w s : holdsWith made s → holdsWith made (setWorld w [] s).
Proof. intros [[H1 H2 H3 H4] Hm]. unfold holdsWith. split; [split|]; simpl; by rewrite ?app_nil_r. Qed.

Lemma holds_same made s s' : calls s' = calls s → inflight s' = inflight s → holdsWith made s → holdsWith made s'.
Proof. intros Hc Hi [[H1 H2 H3 H4] Hm]. unfold holdsWith. rewrite Hc. split; [split; rewrite ?Hc, ?Hi; done|done]. Qed.

Lemma keeps_ask {A} made c (ok : A → bool) f : otherCall c = true → keeps made (ask (W:=W) c ok f).
Proof.
  intros Hc s Hs. unfold ask. destruct (f (world s)) as [w [a|]]; simpl.
  all: eapply holds_fewer; [|apply holds_call; [|exact Hs]]; [set_solver|by destruct c].
Qed.

Lemma keeps_clock made : keeps made (clock (W:=W)).
Proof. intros s Hs. unfold clock. destruct (TimeNow (world s)). by apply holds_world. Qed.

Lemma keeps_onSys made f : (∀ s, calls (f s) = calls s) → (∀ s, inflight (f s) = inflight s) → keeps made (onSys (W:=W) f).
Proof. intros Hc Hi s Hs. eapply holds_same; [apply Hc|apply Hi|done]. Qed.

Lemma keeps_meter made l : keeps made (meter (W:=W) cfg l).
Proof. by apply keeps_onSys. Qed.

End alerts.

Create HintDb alerts.
#[export] Hint Resolve keeps_ret keeps_clock keeps_meter : alerts.

(** Along the structure of a computation. *)
Ltac keep :=
  repeat first
    [ progress (eauto 1 with alerts)
    | apply keeps_bind; [|intros ?]
    | apply keeps_ask; reflexivity
    | apply keeps_onSys; intros ?; reflexivity
    | case_match ].

Section invariant.
Context {W : Type} `{HW : Host W} (cfg : Config).
Context (parse : list Z → option (Z → Z)) (fuel : nat).

(** ** Every operation keeps it *)

Lemma keeps_nowOf made r : keeps cfg made (nowOf (W:=W) r).
Proof. unfold nowOf. keep. Qed.

Lemma keeps_recordTransition made r id to : keeps cfg made (recordTransition (W:=W) cfg r id to).
Proof. unfold recordTransition, try. keep. Qed.

#[local] Hint Resolve keeps_nowOf keeps_recordTransition : alerts.

Lemma keeps_launchQueued made r id : keeps cfg made (launchQueued (W:=W) cfg r id).
Proof. unfold launchQueued, failUndispatchable, handleDispatchFailure, backoffBackpressure, try. keep. Qed.

#[local] Hint Resolve keeps_launchQueued : alerts.

Lemma keeps_applyPlanned made r t b : keeps cfg made (applyPlanned (W:=W) cfg r t b).
Proof. unfold applyPlanned, redispatchReschedule, resetForInfraReplace, resetForRetry, try. keep. Qed.

#[local] Hint Resolve keeps_applyPlanned : alerts.

Lemma keeps_applyLoop made r pools l a b : keeps cfg made (applyLoop (W:=W) cfg r pools l a b).
Proof. revert a b. induction l as [|t l IH]; intros a b; simpl; keep. Qed.

Lemma keeps_flush made r b l : keeps cfg made (flushTransitions (W:=W) cfg r b l).
Proof. unfold try. induction l as [|to l IH]; simpl; unfold try; keep. Qed.

(** The goroutine of an alert that is under way. *)
Lemma keeps_deliver made r n : failedRun (RunID (plan r)) ∈ made → keeps cfg made (deliver (W:=W) (r, n)).
Proof.
  intros Hr s Hs. unfold deliver, mbind, sched_bind, ask. destruct (AlertRunFailed r (world s)) as [w b]. simpl.
  apply (holds_call cfg made w (CAlert (RunID (plan r))) (if b then Fine else Failing)) in Hs; [|by apply Hs].
  destruct b; simpl; [|eapply holds_fewer; [|exact Hs]; set_solver].
  unfold try, ask. simpl. destruct (MarkRunAlertDelivered _ n w) as [w' x]. simpl.
  eapply holds_fewer; [|apply holds_call; [|exact Hs]]; [set_solver|]. apply Hs. set_solver.
Qed.

(** The slots after a change of the alerts under way. *)
Lemma holds_inflight made l (s : Sys W) : (length l <= alertSem cfg)%nat → (∀ r n, (r, n) ∈ l → failedRun (RunID (plan r)) ∈ made) →
  holdsWith cfg made s → holdsWith cfg made (setInflight l s).
Proof. intros Hl Hr [[H1 H2 H3 H4] Hm]. split; [split; simpl; try done|done]. intros r n Hn. by eapply Hm, Hr. Qed.

Lemma settleLoop_sublist l ended s l' : (settleLoop (W:=W) l ended s).2 = Ret l' → l' `sublist_of` l.
Proof.
  revert ended s l'. induction l as [|x l IH]; intros [|[] ended] s l'; simpl; try (by intros [= <-]).
  - unfold mbind, sched_bind. destruct (deliver x s) as [s1 [u| |]]; simpl; [|done..]. intros H. by apply sublist_cons, (IH ended s1).
  - unfold mbind, sched_bind. destruct (settleLoop l ended s) as [s1 [l2| |]] eqn:E; simpl; [|done..]. intros [= <-].
    apply sublist_skip. apply (IH ended s). by rewrite E.
Qed.

Lemma keeps_settleLoop made l ended : (∀ r n, (r, n) ∈ l → failedRun (RunID (plan r)) ∈ made) →
  keeps cfg made (settleLoop (W:=W) l ended).
Proof.
  revert ended. induction l as [|[r n] l IH]; intros [|[] ended] Hl; simpl; try apply keeps_ret.
  - apply keeps_bind; [apply keeps_deliver; set_solver|]. intros u. apply IH. set_solver.
  - apply keeps_bind; [apply IH; set_solver|]. intros l2. apply keeps_ret.
Qed.

Lemma keeps_settle made : keeps cfg made (settle (W:=W)).
Proof.
  intros s [Hs Hm]. unfold settle. destruct (Ended (world s)) as [w ended].
  set (made' := made ++ map (λ x, failedRun (RunID (plan x.1))) (inflight s)).
  assert (holdsWith cfg made' (setWorld w [] s)) as Hs'.
  { apply holds_world. split; [done|]. intros x [Hx|Hx]%elem_of_app; [by apply Hm|].
    apply list_elem_of_fmap in Hx as ([r n] & -> & Hr). by eapply under_way. }
  assert (∀ r n, (r, n) ∈ inflight s → failedRun (RunID (plan r)) ∈ made') as Hin.
  { intros r n Hr. apply elem_of_app. right. apply list_elem_of_fmap. by exists (r, n). }
  pose proof (keeps_settleLoop made' (inflight s) ended Hin _ Hs') as Hl.
  pose proof (settleLoop_sublist (inflight s) ended (setWorld w [] s)) as Hsub.
  unfold mbind, sched_bind. destruct (settleLoop (inflight s) ended (setWorld w [] s)) as [s1 [l| |]]; simpl in *;
    (eapply holds_fewer; [|first [exact Hl|apply (holds_inflight made')]]; [set_solver|..]); [| |done].
  - specialize (Hsub l eq_refl). pose proof (sublist_length _ _ Hsub). pose proof (within_slots _ _ Hs). lia.
  - intros r n Hr. apply (Hin r n). eapply elem_of_submseteq; [exact Hr|]. by apply sublist_submseteq, Hsub.
Qed.

Lemma keeps_takeSlot made r n rules : failedRun (RunID (plan r)) ∈ made → keeps cfg made (takeSlot (W:=W) cfg r n rules).
Proof.
  intros Hr s Hs. unfold takeSlot. case_match eqn:E; [|by apply keeps_meter]. apply Nat.ltb_lt in E.
  apply (holds_fewer cfg made (made ++ map (λ x, failedRun (RunID (plan x.1))) (inflight s))); [set_solver|].
  simpl. apply holds_inflight; [rewrite length_app; simpl; lia| |].
  - intros r' n' [Hx|[= -> _]%list_elem_of_singleton]%elem_of_app; apply elem_of_app; [right|by left].
    apply list_elem_of_fmap. by exists (r', n').
  - destruct Hs as [Hs Hm]. split; [done|]. intros x [Hx|Hx]%elem_of_app; [by apply Hm|].
    apply list_elem_of_fmap in Hx as ([r' n'] & -> & Hx). by eapply under_way.
Qed.

Lemma keeps_maybeAlert made st r : (st = DagRunStateFailed → failedRun (RunID (plan r)) ∈ made) →
  keeps cfg made (maybeAlertFailure (W:=W) cfg st r).
Proof.
  intros Hr. unfold maybeAlertFailure, try. case_match eqn:E; [apply keeps_ret|].
  apply orb_false_iff in E as [E%negb_false_iff _]. apply bool_decide_eq_true in E.
  case_match; [|apply keeps_ret]. case_match; [apply keeps_ret|]. apply keeps_bind; [by apply keeps_ask|]. intros c.
  case_match; [apply keeps_ret|]. apply keeps_bind; [apply keeps_settle|]. intros u. apply keeps_takeSlot. by apply Hr.
Qed.

Lemma keeps_finalize made r : keeps cfg made (finalize (W:=W) cfg r).
Proof.
  unfold finalize, try. case_match; [|apply keeps_ret]. intros s Hs. unfold mbind, sched_bind, ask.
  destruct (SetRunState _ _ _) as [w [[[]|]|]]; simpl.
  all: assert (∀ e, holdsWith cfg ((CSetRun (RunID (plan r)) d, e) :: made) (setWorld w [(CSetRun (RunID (plan r)) d, e)] s)) as Hw
    by (intros e; by apply holds_call).
  - apply (holds_fewer cfg made ((CSetRun (RunID (plan r)) d, Fine) :: made)); [set_solver|].
    pose proof (keeps_maybeAlert ((CSetRun (RunID (plan r)) d, Fine) :: made) d r ltac:(intros ->; by constructor) _ (Hw Fine)) as Hk.
    by destruct (maybeAlertFailure cfg d r _) as [s1 [?| |]].
  - eapply holds_fewer; [|apply (Hw Failing)]. set_solver.
  - eapply holds_fewer; [|apply (Hw Panicking)]. set_solver.
Qed.

#[local] Hint Resolve keeps_finalize keeps_flush keeps_applyLoop keeps_settle : alerts.

Lemma keeps_advanceSafely made r : keeps cfg made (advanceSafely (W:=W) cfg r).
Proof. apply keeps_recover; unfold advance, startRun, try, record; keep. Qed.

#[local] Hint Resolve keeps_advanceSafely : alerts.

Lemma keeps_advanceAll made a b c runs : keeps cfg made (advanceAll (W:=W) cfg a b c runs).
Proof. revert c. induction runs as [|r runs IH]; intros c; simpl; keep. Qed.

#[local] Hint Resolve keeps_advanceAll : alerts.

Lemma keeps_createDue made active : keeps cfg made (createDue (W:=W) cfg parse fuel active).
Proof.
  unfold createDue, try. apply keeps_bind; [by apply keeps_ask|]. intros [dags|]; [|apply keeps_ret].
  apply keeps_bind; [apply keeps_clock|]. intros now. apply keeps_bind; [|intros u; apply keeps_ret].
  intros s Hs. unfold runCreation. case_match; [|done]. apply keeps_meter.
  apply (holds_same cfg made (setWorld (store t) [(CCreateRuns (attempts t), Fine)] s)); [done..|].
  apply (holds_fewer cfg made ((CCreateRuns (attempts t), Fine) :: made)); [set_solver|by apply holds_call].
Qed.

#[local] Hint Resolve keeps_createDue : alerts.

Lemma keeps_tick made : keeps cfg made (tick (W:=W) cfg parse fuel).
Proof.
  apply keeps_recover; [|unfold record; keep]. unfold Step, stampTick, loadPoolBudget, try.
  apply keeps_bind; [|keep]. apply keeps_bind; [keep|]. intros u.
  apply keeps_bind; [by intros s Hs|]. intros []; keep.
Qed.

Lemma keeps_step made (s s' : Sys W) : sysStep cfg parse fuel s s' → holdsWith cfg made s → holdsWith cfg made s'.
Proof.
  assert (∀ A (m : M W A) s s' a, keeps cfg made m → m s = (s', Ret a) → holdsWith cfg made s → holdsWith cfg made s') as H.
  { intros A m s1 s2 a Hk E Hs. specialize (Hk s1 Hs). by rewrite E in Hk. }
  destruct 1; eapply H; eauto; [apply keeps_tick|apply keeps_settle|..].
  - unfold SetLeading. keep.
  - unfold MarkSteppingDown. keep.
  - unfold ClearSteppingDown. keep.
  - unfold RecordReacquireSince. keep.
Qed.

(** The empty scheduler. *)
Lemma new_ok w : alertsOk cfg (newSys (W:=W) w).
Proof. split; simpl; [lia|set_solver..]. Qed.

(** C11: whatever happens to a scheduler, at most the configured number of alerts is under way
    at a time, an alert is sent only for a run that the scheduler has set to failed, and the
    store is told of a delivery only after the alert was delivered. *)
Theorem alerts_are_justified w s : reachable cfg parse fuel w s → alertsOk cfg s.
Proof.
  intros Hr. cut (holdsWith cfg [] s); [by intros [? _]|]. revert Hr. unfold reachable.
  apply (rtc_ind_r (λ s, holdsWith cfg [] s)).
  - split; [apply new_ok|set_solver].
  - intros s1 s2 _ H12. by apply keeps_step.
Qed.

End invariant.

(** A run that fails with an alert. *)
Definition failingRuns : list Run := [runWith "r1" TaskStateFailed (Some ["slack"])].

Lemma alerts_are_justified_witness : ∃ s : Sys unit, alertsOk (sampleConfig false) s ∧ length (inflight s) = 1%nat.
Proof.
  set (s1 := (@SetLeading unit (sampleHost failingRuns "") true (newSys tt)).1).
  set (s2 := (@tick unit (sampleHost failingRuns "") (sampleConfig false) (λ _, None) 1 s1).1).
  exists s2. split; [|vm_compute; reflexivity].
  apply (@alerts_are_justified unit (sampleHost failingRuns "") (sampleConfig false) (λ _, None) 1 tt).
  eapply rtc_l; [|eapply rtc_l; [|apply rtc_refl]].
  - apply (step_leading _ _ _ true). reflexivity.
  - apply step_tick. vm_compute. reflexivity.
Defined.
