(* ===== verification/Leader.v ===== *)
(** * Leadership of the scheduler

    The election of one replica by a Postgres advisory lock: [internal/scheduler/leader.go],
    [leader_health.go], and the campaign with its watchdog in [cmd/dexaflow-server/main.go].

    Replicas run side by side.  Each has the goroutine of the campaign and, while it leads,
    the one of the watchdog; a step of the system is a step of one of them, a query of a
    replica that the database answers, or an event from outside: the end of a session at the
    server, a new connection of a pool, the shutdown of a process.  What Postgres promises of
    advisory locks is the class [Locks]. *)

From Stdlib Require Import ZArith Lia.
From stdpp Require Import base numbers gmap option list.
From S2P Require Import Prelude.

Open Scope Z_scope.

(** ** The lock *)

Definition LockID : Z := 0x4C656F466C6F77.

(** A row of [pg_locks]; identifiers of objects are unsigned. *)
Record LockRow := { advisory : bool; classid : Z; objid : Z; objsubid : Z; pid : nat }.

(** [int32(x)] *)
Definition int32 (x : Z) : Z := let y := x mod 2 ^ 32 in if y <? 2 ^ 31 then y else y - 2 ^ 32.

(** The query of [HoldsLock] on the rows of [pg_locks], with the session that asks. *)
Definition holdsQuery (rows : list LockRow) (backend : nat) : bool :=
  let c := int32 (Z.shiftr LockID 32) in
  let o := int32 (Z.land LockID 0xFFFFFFFF) in
  existsb (λ r, advisory r && (classid r =? c) && (objid r =? o) && (objsubid r =? 1) && (pid r =? backend)%nat) rows.

(** The query of [LeaderHealthReader.Heartbeat]; a query that fails is [None]. *)
Definition healthQuery (rows : list LockRow) : bool :=
  let c := int32 (Z.shiftr LockID 32) in
  let o := int32 (Z.land LockID 0xFFFFFFFF) in
  existsb (λ r, advisory r && (classid r =? c) && (objid r =? o) && (objsubid r =? 1)) rows.

Definition HealthHeartbeat (rows : option (list LockRow)) : bool := match rows with Some rows => healthQuery rows | None => false end.

(** A session has the lock of a 64-bit key: the view shows the upper half of the key, its
    lower half, and the mark 1. *)
Definition rowOf (s : nat) (k : Z) : LockRow := {| advisory := true; classid := k / 2 ^ 32; objid := k mod 2 ^ 32; objsubid := 1; pid := s |}.

(** The advisory locks of a session: taken without waiting, again by the same session too,
    given back one time for each time they were taken, and freed with the session. *)
Class Locks (DB : Type) := {
  pg_locks : DB → list LockRow;
  tryLock : nat → Z → DB → DB * bool;
  unlock : nat → Z → DB → DB;
  endSession : nat → DB → DB;
  fresh : DB }.

Definition holds {DB} `{Locks DB} (d : DB) (s : nat) (k : Z) : Prop := rowOf s k ∈ pg_locks d.

Class LocksLaws (DB : Type) `{Locks DB} : Prop := {
  holds_one d s1 s2 k : holds d s1 k → holds d s2 k → s1 = s2;
  tryLock_true s k d d' : tryLock s k d = (d', true) → holds d' s k ∧ ∀ s' k', (s', k') ≠ (s, k) → (holds d' s' k' ↔ holds d s' k');
  tryLock_false s k d d' : tryLock s k d = (d', false) → ∀ s' k', holds d' s' k' ↔ holds d s' k';
  tryLock_free s k d : (∀ s', s' ≠ s → ¬ holds d s' k) → (tryLock s k d).2 = true;
  unlock_other s k d s' k' : (s', k') ≠ (s, k) → (holds (unlock s k d) s' k' ↔ holds d s' k');
  endSession_self s k d : ¬ holds (endSession s d) s k;
  endSession_other s d s' k : s' ≠ s → (holds (endSession s d) s' k ↔ holds d s' k);
  fresh_none s k : ¬ holds fresh s k }.

(** ** Replicas *)

Inductive answer := AErr | AHeld (held : bool).

#[export] Instance answer_eq_dec : EqDecision answer.
Proof. solve_decision. Defined.

(** Where the campaign is: before [TryAcquire], with the lock, in the loop of [Run], in a
    tick, after [Run] at the wait for the watchdog, before and after [releaseLeader], at the
    wait for the next try, and at the end. *)
Inductive phase := Campaign | Won | Running | Ticking | Stopped | Releasing | Released | Pausing | Finished.

#[export] Instance phase_eq_dec : EqDecision phase.
Proof. solve_decision. Defined.

(** Where the watchdog is: not started, at its [select], with an answer, and at its end. *)
Inductive watchdog := WOff | WIdle | WAnswer (a : answer) | WDone.

#[export] Instance watchdog_eq_dec : EqDecision watchdog.
Proof. solve_decision. Defined.

(** [session] is the connection of the pool.  [lost] and [since] are for the proofs: whether
    the session that took the lock is gone, and how many checks were made since. *)
Record Replica := {
  session : nat; at_ : phase; watch : watchdog; failures : nat; canceled : bool; shutdown : bool; leading : bool;
  lost : bool; since : nat }.

Definition newReplica (s : nat) : Replica :=
  {| session := s; at_ := Campaign; watch := WOff; failures := 0; canceled := false; shutdown := false; leading := false; lost := false; since := 0 |}.

Definition maxLeaderCheckFailures : nat := 3.

Definition goTo (p : phase) (r : Replica) : Replica :=
  {| session := session r; at_ := p; watch := watch r; failures := failures r; canceled := canceled r; shutdown := shutdown r; leading := leading r;
     lost := lost r; since := since r |}.

Definition setWatch (w : watchdog) (f : nat) (c : bool) (r : Replica) : Replica :=
  {| session := session r; at_ := at_ r; watch := w; failures := f; canceled := c; shutdown := shutdown r; leading := leading r;
     lost := lost r; since := since r |}.

Definition setLeading (on : bool) (r : Replica) : Replica :=
  {| session := session r; at_ := at_ r; watch := watch r; failures := failures r; canceled := canceled r; shutdown := shutdown r; leading := on;
     lost := lost r; since := since r |}.

(** The run context is canceled, by [cancel] or with the context of the process. *)
Definition ctxDone (r : Replica) : bool := canceled r || shutdown r.

(** [TryAcquire] returned. *)
Definition acquired (got : bool) (r : Replica) : Replica :=
  if got then {| session := session r; at_ := Won; watch := WOff; failures := failures r; canceled := canceled r; shutdown := shutdown r; leading := leading r;
                 lost := false; since := 0 |}
  else goTo Pausing r.

(** The start of [runAsLeader]. *)
Definition lead (r : Replica) : Replica := setLeading true (goTo Running (setWatch WIdle 0 false r)).

(** [Run] returned: the run is canceled. *)
Definition stopped (r : Replica) : Replica := goTo Stopped (setWatch (watch r) (failures r) true r).

(** The end of [runAsLeader], with its deferred call, and of a turn of [campaignAndRun]. *)
Definition leave (r : Replica) : Replica := setLeading false (goTo (if shutdown r then Finished else Pausing) r).

(** [watchLeadership]: a check, and what is made of its answer. *)
Definition asked (a : answer) (r : Replica) : Replica :=
  {| session := session r; at_ := at_ r; watch := WAnswer a; failures := failures r; canceled := canceled r; shutdown := shutdown r; leading := leading r;
     lost := lost r; since := if lost r then S (since r) else since r |}.

Definition judged (a : answer) (r : Replica) : Replica :=
  match a with
  | AErr =>
    if ctxDone r then setWatch WDone (failures r) (canceled r) r
    else if (maxLeaderCheckFailures <=? S (failures r))%nat then setWatch WDone (S (failures r)) true r
    else setWatch WIdle (S (failures r)) (canceled r) r
  | AHeld false => setWatch WDone (failures r) true r
  | AHeld true => setWatch WIdle 0 (canceled r) r
  end.

(** The session of a replica is gone, or its pool has a new one. *)
Definition bereft (s : nat) (r : Replica) : Replica :=
  {| session := s; at_ := at_ r; watch := watch r; failures := failures r; canceled := canceled r; shutdown := shutdown r; leading := leading r;
     lost := true; since := if lost r then since r else 0 |}.

Definition stop (r : Replica) : Replica :=
  {| session := session r; at_ := at_ r; watch := watch r; failures := failures r; canceled := canceled r; shutdown := true; leading := leading r;
     lost := lost r; since := since r |}.

(** ** The system *)

Section system.
Context {DB : Type} `{HL : Locks DB}.

Record World := { db : DB; alive : gset nat; next : nat; reps : list Replica }.

Definition start (n : nat) : World :=
  {| db := fresh; alive := list_to_set (seq 0 n); next := n; reps := map newReplica (seq 0 n) |}.

Definition setRep (i : nat) (r : Replica) (w : World) : World := {| db := db w; alive := alive w; next := next w; reps := <[i := r]> (reps w) |}.

Definition setDb (d : DB) (w : World) : World := {| db := d; alive := alive w; next := next w; reps := reps w |}.

(** A step of the replica [i], which is [r]. *)
Inductive rstep (w : World) (i : nat) (r : Replica) : World → Prop :=
  (** a query that fails may have had its effect *)
  | step_acquire_fails d : at_ r = Campaign → d = db w ∨ d = (tryLock (session r) LockID (db w)).1 → rstep w i r (setDb d (setRep i (goTo Pausing r) w))
  | step_acquire d got : at_ r = Campaign → session r ∈ alive w → tryLock (session r) LockID (db w) = (d, got) →
      rstep w i r (setDb d (setRep i (acquired got r) w))
  | step_lead : at_ r = Won → rstep w i r (setRep i (lead r) w)
  | step_tick : at_ r = Running → rstep w i r (setRep i (goTo Ticking r) w)
  | step_ticked : at_ r = Ticking → rstep w i r (setRep i (goTo Running r) w)
  | step_return : at_ r = Running → ctxDone r = true → rstep w i r (setRep i (stopped r) w)
  | step_joined : at_ r = Stopped → watch r = WDone → rstep w i r (setRep i (goTo Releasing r) w)
  | step_release_fails d : at_ r = Releasing → d = db w ∨ d = unlock (session r) LockID (db w) → rstep w i r (setDb d (setRep i (goTo Released r) w))
  | step_release : at_ r = Releasing → session r ∈ alive w → rstep w i r (setDb (unlock (session r) LockID (db w)) (setRep i (goTo Released r) w))
  | step_leave : at_ r = Released → rstep w i r (setRep i (leave r) w)
  | step_again : at_ r = Pausing → rstep w i r (setRep i (goTo Campaign r) w)
  | step_end : at_ r = Pausing → shutdown r = true → rstep w i r (setRep i (goTo Finished r) w)
  (** the watchdog *)
  | step_watch_done : watch r = WIdle → ctxDone r = true → rstep w i r (setRep i (setWatch WDone (failures r) (canceled r) r) w)
  | step_check_fails : watch r = WIdle → rstep w i r (setRep i (asked AErr r) w)
  | step_check : watch r = WIdle → session r ∈ alive w → rstep w i r (setRep i (asked (AHeld (holdsQuery (pg_locks (db w)) (session r))) r) w)
  | step_judge a : watch r = WAnswer a → rstep w i r (setRep i (judged a r) w).

(** A step of the system. *)
Inductive step (w : World) : World → Prop :=
  | step_replica i r w' : reps w !! i = Some r → rstep w i r w' → step w w'
  | step_shutdown i r : reps w !! i = Some r → step w (setRep i (stop r) w)
  | step_session_ends s :
      step w {| db := endSession s (db w); alive := alive w ∖ {[s]}; next := next w; reps := map (λ r, if (session r =? s)%nat then bereft s r else r) (reps w) |}
  | step_reconnect i r : reps w !! i = Some r →
      step w {| db := db w; alive := {[next w]} ∪ alive w; next := S (next w); reps := <[i := bereft (next w) r]> (reps w) |}.

Definition reachable (n : nat) (w : World) : Prop := rtc step (start n) w.

(** The steps by name, to run them. *)
Inductive event :=
  | EAcquire | EAcquireFails | ELead | ETick | ETicked | EReturn | EJoined | ERelease | EReleaseFails | ELeave | EAgain | EEnd
  | EWatchDone | ECheck | ECheckFails | EJudge | EShutdown | ESessionEnds | EReconnect.

Definition perform (i : nat) (e : event) (w : World) : option World :=
  r ← reps w !! i;
  let when (b : bool) (w' : World) := if b then Some w' else None in
  let up := bool_decide (session r ∈ alive w) in
  let inPhase p := bool_decide (at_ r = p) in
  let idle := bool_decide (watch r = WIdle) in
  match e with
  | EAcquire => let '(d, got) := tryLock (session r) LockID (db w) in when (inPhase Campaign && up) (setDb d (setRep i (acquired got r) w))
  | EAcquireFails => when (inPhase Campaign) (setDb (db w) (setRep i (goTo Pausing r) w))
  | ELead => when (inPhase Won) (setRep i (lead r) w)
  | ETick => when (inPhase Running) (setRep i (goTo Ticking r) w)
  | ETicked => when (inPhase Ticking) (setRep i (goTo Running r) w)
  | EReturn => when (inPhase Running && ctxDone r) (setRep i (stopped r) w)
  | EJoined => when (inPhase Stopped && bool_decide (watch r = WDone)) (setRep i (goTo Releasing r) w)
  | ERelease => when (inPhase Releasing && up) (setDb (unlock (session r) LockID (db w)) (setRep i (goTo Released r) w))
  | EReleaseFails => when (inPhase Releasing) (setDb (db w) (setRep i (goTo Released r) w))
  | ELeave => when (inPhase Released) (setRep i (leave r) w)
  | EAgain => when (inPhase Pausing) (setRep i (goTo Campaign r) w)
  | EEnd => when (inPhase Pausing && shutdown r) (setRep i (goTo Finished r) w)
  | EWatchDone => when (idle && ctxDone r) (setRep i (setWatch WDone (failures r) (canceled r) r) w)
  | ECheck => when (idle && up) (setRep i (asked (AHeld (holdsQuery (pg_locks (db w)) (session r))) r) w)
  | ECheckFails => when idle (setRep i (asked AErr r) w)
  | EJudge => match watch r with WAnswer a => Some (setRep i (judged a r) w) | _ => None end
  | EShutdown => Some (setRep i (stop r) w)
  | ESessionEnds =>
    Some {| db := endSession (session r) (db w); alive := alive w ∖ {[session r]}; next := next w;
            reps := map (λ x, if (session x =? session r)%nat then bereft (session r) x else x) (reps w) |}
  | EReconnect => Some {| db := db w; alive := {[next w]} ∪ alive w; next := S (next w); reps := <[i := bereft (next w) r]> (reps w) |}
  end.

Fixpoint performAll (l : list (nat * event)) (w : World) : option World :=
  match l with [] => Some w | x :: l => w' ← perform x.1 x.2 w; performAll l w' end.

End system.

(** A replica between the lock and its release: the loop of the scheduler runs only here. *)
Definition leads (p : phase) : bool := match p with Won | Running | Ticking | Stopped | Releasing => true | _ => false end.

Definition inSection (r : Replica) : Prop := leads (at_ r) = true.
