(* ===== verification/LeaderProps.v ===== *)
(** * Leadership of the scheduler: what holds

    Two replicas that lead at the same time have lost a session between them, and a replica
    that lost its session is stopped by its watchdog after at most three checks.  Then what
    goes wrong: the flag of a leader outlives its lock. *)

From Stdlib Require Import ZArith Lia.
From stdpp Require Import base numbers gmap option list.
From S2P Require Import Prelude Leader.

Open Scope Z_scope.

(** ** The queries *)

Section queries.
Context {DB : Type} `{HL : Locks DB}.

Lemma holdsQuery_spec (d : DB) s : holdsQuery (pg_locks d) s = true ↔ holds d s LockID.
Proof.
  unfold holdsQuery, holds. rewrite existsb_exists. split.
  - intros (r & Hin & H). apply list_elem_of_In in Hin. repeat (apply andb_true_iff in H as [H ?]). destruct r as [a c o b p]. simpl in *. zbool.
    apply Nat.eqb_eq in H0. subst. done.
  - intros Hin. exists (rowOf s LockID). split; [by apply list_elem_of_In|]. simpl. by rewrite Nat.eqb_refl.
Qed.

(** The row of a key is the row of no other key of 64 bits. *)
Lemma rowOf_inj s s' k k' : rowOf s k = rowOf s' k' → s = s' ∧ k = k'.
Proof. unfold rowOf. intros [= H1 H2 ->]. split; [done|]. rewrite (Z.div_mod k (2 ^ 32)), (Z.div_mod k' (2 ^ 32)) by done. congruence. Qed.

(** The health of the scheduler seen by another process: some session has the lock. *)
Lemma health_exact (d : DB) : HealthHeartbeat (Some (pg_locks d)) = true ↔ ∃ s, holds d s LockID.
Proof.
  unfold HealthHeartbeat, healthQuery, holds. rewrite existsb_exists. split.
  - intros (r & Hin & H). apply list_elem_of_In in Hin. repeat (apply andb_true_iff in H as [H ?]). destruct r as [a c o b p]. simpl in *. zbool. subst. by exists p.
  - intros [s Hin]. exists (rowOf s LockID). split; [by apply list_elem_of_In|done].
Qed.

End queries.

(** ** The invariant *)

Section invariant.
Context {DB : Type} `{HL : Locks DB} `{HLL : !LocksLaws DB}.

(** The phases in which the watchdog can be at work. *)
Definition watched (p : phase) : bool := match p with Running | Ticking | Stopped => true | _ => false end.

(** The watchdog runs with the loop; it has made as many checks since the loss of the session
    as failed. *)
Definition watchOk (r : Replica) : Prop :=
  match watch r with
  | WOff => since r = 0%nat ∧ (leads (at_ r) = true → at_ r = Won)
  | WIdle => watched (at_ r) = true ∧ (failures r < 3)%nat ∧ (lost r = true → (since r <= failures r)%nat)
  | WAnswer a => watched (at_ r) = true ∧ (failures r < 3)%nat ∧
      (lost r = true → (since r <= S (failures r))%nat) ∧
      match a with AErr => True | AHeld true => lost r = true → since r = 0%nat | AHeld false => lost r = true end
  | WDone => at_ r ≠ Won ∧ (inSection r → ctxDone r = true)
  end.

(** Why a run was canceled. *)
Definition cancelOk (r : Replica) : Prop :=
  watch r ≠ WOff → inSection r → canceled r = true → lost r = true ∨ shutdown r = true ∨ (3 <= failures r)%nat.

(** The lock belongs to the replica that leads with the session it took it with. *)
Definition lockOk (d : DB) (r : Replica) : Prop :=
  inSection r → if lost r then ¬ holds d (session r) LockID else holds d (session r) LockID.

Definition Good (d : DB) (n : nat) (r : Replica) : Prop := (session r < n)%nat ∧ lockOk d r ∧ watchOk r ∧ cancelOk r.

Definition Inv (w : World) : Prop :=
  (∀ i r, reps w !! i = Some r → Good (db w) (next w) r) ∧
  (∀ i j ri rj, reps w !! i = Some ri → reps w !! j = Some rj → session ri = session rj → i = j) ∧
  (∀ s k, holds (db w) s k → (s < next w)%nat).

(** A replica that changes, and the database on its behalf. *)
Lemma Inv_set w i r r' d : Inv w → reps w !! i = Some r → session r' = session r →
  (∀ s k, (s, k) ≠ (session r, LockID) → (holds d s k ↔ holds (db w) s k)) → (lockOk d r' ∧ watchOk r' ∧ cancelOk r') → Inv (setDb d (setRep i r' w)).
Proof.
  intros (Hg & Hd & Hn) Hi Hs Hh H'. assert (session r < next w)%nat as Hlt by (by destruct (Hg i r Hi)). split_and!.
  - intros j rj Hj. simpl in *. destruct (decide (i = j)) as [<-|Hij].
    + rewrite list_lookup_insert_eq in Hj by (by eapply lookup_lt_Some). simplify_eq. split; [lia|done].
    + rewrite list_lookup_insert_ne in Hj by done. destruct (Hg j rj Hj) as (H1 & H2 & H3 & H4). split_and!; try done.
      assert (session rj ≠ session r) as Hne by (intros E; apply Hij; symmetry; by eapply Hd). intros Hin. specialize (H2 Hin).
      destruct (lost rj); rewrite Hh; congruence.
  - assert (∀ j rj, <[i := r']> (reps w) !! j = Some rj → ∃ r0, reps w !! j = Some r0 ∧ session r0 = session rj) as Hold.
    { intros j rj Hj. destruct (decide (i = j)) as [<-|Hij].
      - rewrite list_lookup_insert_eq in Hj by (by eapply lookup_lt_Some). simplify_eq. by exists r.
      - rewrite list_lookup_insert_ne in Hj by done. by exists rj. }
    intros j k rj rk (rj' & Hj & Ej)%Hold (rk' & Hk & Ek)%Hold E. eapply Hd; [exact Hj|exact Hk|congruence].
  - intros s k Hk. simpl in *. destruct (decide ((s, k) = (session r, LockID))) as [[= -> ->]|Hne]; [done|]. apply Hh in Hk; [|done]. by eapply Hn.
Qed.

Lemma holds_tryLock s d d' got : tryLock s LockID d = (d', got) → ∀ s' k', (s', k') ≠ (s, LockID) → (holds d' s' k' ↔ holds d s' k').
Proof. intros E. destruct got; [by apply (tryLock_true s LockID)|]. intros s' k' _. by eapply tryLock_false. Qed.

(** *** The steps of a replica *)

(** Case on what a replica keeps. *)
Ltac replica := unfold lockOk, watchOk, cancelOk, inSection, ctxDone in *; simpl in *; split_and?; intros; simpl in *; first [done | lia | solve [intuition (congruence || lia)]].

(** What a replica keeps after a step of its own, which leaves the lock as it is. *)
Definition kept (d : DB) (r : Replica) : Prop := lockOk d r ∧ watchOk r ∧ cancelOk r.

Lemma kept_lead d r : kept d r → at_ r = Won → kept d (lead r).
Proof. destruct r as [s p wd f c sh le lo si]. unfold kept. intros (Hl & Hw & Hc) Hp. simpl in Hp. subst p. destruct wd as [| |[|[]]|], lo; replica. Qed.

Lemma kept_tick d r p : kept d r → (at_ r, p) ∈ [(Running, Ticking); (Ticking, Running)] → kept d (goTo p r).
Proof.
  destruct r as [s q wd f c sh le lo si]. unfold kept. intros (Hl & Hw & Hc) Hp. simpl in Hp. rewrite !elem_of_cons, elem_of_nil in Hp.
  destruct Hp as [[= -> ->]|[[= -> ->]|[]]]; destruct wd as [| |[|[]]|], lo; replica.
Qed.

Lemma kept_stopped d r : kept d r → at_ r = Running → ctxDone r = true → kept d (stopped r).
Proof.
  destruct r as [s q wd f c sh le lo si]. unfold kept. intros (Hl & Hw & Hc) Hp Hd. simpl in Hp. subst q. destruct wd as [| |[|[]]|], lo, sh, c; replica.
Qed.

Lemma kept_joined d r : kept d r → at_ r = Stopped → watch r = WDone → kept d (goTo Releasing r).
Proof.
  destruct r as [s q wd f c sh le lo si]. unfold kept. intros (Hl & Hw & Hc) Hp Hd. simpl in Hp, Hd. subst q wd. destruct lo, sh, c; replica.
Qed.

(** Outside of the section there is nothing to show, but that the watchdog is at rest. *)
Lemma kept_outside d d' r p : kept d r → at_ r ∈ [Campaign; Releasing; Released; Pausing] → p ∈ [Released; Pausing; Campaign; Finished] → kept d' (goTo p r).
Proof.
  destruct r as [s q wd f c sh le lo si]. unfold kept. intros (Hl & Hw & Hc) Hq Hp. simpl in Hq. rewrite !elem_of_cons, elem_of_nil in Hq, Hp.
  destruct Hq as [->|[->|[->|[->|[]]]]]; destruct Hp as [->|[->|[->|[->|[]]]]]; destruct wd as [| |[|[]]|], lo; replica.
Qed.

Lemma kept_flag d r b : kept d r → kept d (setLeading b r).
Proof. by destruct r. Qed.

Lemma kept_acquired d r : at_ r = Campaign → holds d (session r) LockID → kept d (acquired true r).
Proof. destruct r as [s q wd f c sh le lo si]. unfold kept. simpl. intros -> Hd. replica. Qed.

Lemma kept_watch_done d r : kept d r → watch r = WIdle → ctxDone r = true → kept d (setWatch WDone (failures r) (canceled r) r).
Proof.
  destruct r as [s q wd f c sh le lo si]. unfold kept. intros (Hl & Hw & Hc) Hp Hd. simpl in Hp. subst wd. destruct q, lo, sh, c; replica.
Qed.

Lemma kept_asked d r : kept d r → watch r = WIdle → kept d (asked AErr r) ∧ kept d (asked (AHeld (holdsQuery (pg_locks d) (session r))) r).
Proof.
  destruct r as [s q wd f c sh le lo si]. unfold kept. intros (Hl & Hw & Hc) Hp. simpl in Hp. subst wd.
  split; [destruct q, lo; replica|]. cbn [session]. destruct (holdsQuery (pg_locks d) s) eqn:Eh; simpl.
  - apply holdsQuery_spec in Eh. destruct q, lo; replica.
  - assert (¬ holds d s LockID) as Hn by (rewrite <- holdsQuery_spec; congruence). destruct q, lo; replica.
Qed.

Lemma kept_judged d r a : kept d r → watch r = WAnswer a → kept d (judged a r).
Proof.
  destruct r as [s q wd f c sh le lo si]. unfold kept. intros (Hl & Hw & Hc) Hp. simpl in Hp. subst wd. destruct a as [|[]]; unfold judged, maxLeaderCheckFailures; simpl.
  - destruct c, sh; simpl; [destruct q, lo; replica..|]. destruct f as [|[|f]]; simpl; destruct q, lo; replica.
  - destruct q, lo, c; replica.
  - destruct q, lo; replica.
Qed.

Lemma Inv_rstep w i r w' : Inv w → reps w !! i = Some r → rstep w i r w' → Inv w'.
Proof.
  intros HI Hi Hstep. assert (kept (db w) r) as Hk by (destruct HI as (HG & _); by destruct (HG i r Hi)).
  assert (∀ r', session r' = session r → kept (db w) r' → Inv (setRep i r' w)) as Hset.
  { intros r' Hs Hr'. change (setRep i r' w) with (setDb (db w) (setRep i r' w)). by eapply Inv_set. }
  assert (∀ d r', session r' = session r → d = db w ∨ d = (tryLock (session r) LockID (db w)).1 ∨ d = unlock (session r) LockID (db w) → kept d r' →
    Inv (setDb d (setRep i r' w))) as Hset'.
  { intros d r' Hs Hd Hr'. eapply Inv_set; [done|done|done| |done]. intros s k Hne. destruct Hd as [->|[->| ->]]; [done| |by apply unlock_other].
    destruct (tryLock (session r) LockID (db w)) as [d' got] eqn:E. by eapply holds_tryLock. }
  destruct Hstep as [d Hp Hd|d got Hp Ha E|Hp|Hp|Hp|Hp Hc|Hp Hw|d Hp Hd|Hp Ha|Hp|Hp|Hp Hs|Hw Hc|Hw|Hw Ha|a Hw].
  - apply Hset'; [done|tauto|]. eapply kept_outside; [done|rewrite Hp; set_solver|set_solver].
  - apply Hset'; [by destruct got|right; left; by rewrite E|]. destruct got; [apply kept_acquired; [done|]; exact (proj1 (tryLock_true _ _ _ _ E))|].
    eapply kept_outside; [done|rewrite Hp; set_solver|set_solver].
  - apply Hset; [done|by apply kept_lead].
  - apply Hset; [done|apply kept_tick; [done|rewrite Hp; set_solver]].
  - apply Hset; [done|apply kept_tick; [done|rewrite Hp; set_solver]].
  - apply Hset; [done|by apply kept_stopped].
  - apply Hset; [done|by apply kept_joined].
  - apply Hset'; [done|tauto|]. eapply kept_outside; [done|rewrite Hp; set_solver|set_solver].
  - apply Hset'; [done|tauto|]. eapply kept_outside; [done|rewrite Hp; set_solver|set_solver].
  - apply Hset; [by destruct r|]. apply kept_flag. eapply kept_outside; [done|rewrite Hp; set_solver|destruct (shutdown r); set_solver].
  - apply Hset; [done|]. eapply kept_outside; [done|rewrite Hp; set_solver|set_solver].
  - apply Hset; [done|]. eapply kept_outside; [done|rewrite Hp; set_solver|set_solver].
  - apply Hset; [done|by apply kept_watch_done].
  - apply Hset; [done|by apply kept_asked].
  - apply Hset; [done|by apply kept_asked].
  - apply Hset; [|by apply kept_judged]. unfold judged. destruct a as [|[]]; [|done|done]. destruct (ctxDone r); [done|]. by destruct (_ <=? _)%nat.
Qed.

(** *** Events from outside *)

Lemma kept_stop d r : kept d r → kept d (stop r).
Proof. destruct r as [s q wd f c sh le lo si]. unfold kept. intros (Hl & Hw & Hc). destruct wd as [| |[|[]]|], q, lo, c; replica. Qed.

Lemma kept_bereft d d' r s : kept d r → ¬ holds d' s LockID → kept d' (bereft s r).
Proof. destruct r as [s' q wd f c sh le lo si]. unfold kept. intros (Hl & Hw & Hc) Hn. destruct wd as [| |[|[]]|], q, lo; replica. Qed.

Lemma Inv_step w w' : Inv w → step w w' → Inv w'.
Proof.
  intros HI Hstep. destruct Hstep as [i r w' Hi Hr|i r Hi|s|i r Hi]; [by eapply Inv_rstep| | |]; destruct HI as (HG & HD & HN).
  - change (setRep i (stop r) w) with (setDb (db w) (setRep i (stop r) w)). eapply Inv_set; [done|done|done|done|]. apply kept_stop. by destruct (HG i r Hi).
  - split_and!; simpl.
    + intros j r. rewrite list_lookup_fmap. destruct (reps w !! j) as [r0|] eqn:Hj; [|done]. intros [= <-]. destruct (HG j r0 Hj) as (Hlt & Hk).
      destruct (Nat.eqb_spec (session r0) s) as [<-|Hne].
      * split; [done|]. eapply kept_bereft; [exact Hk|]. apply endSession_self.
      * split; [done|]. destruct Hk as (Hl & Hk). split; [|done]. intros Hin. specialize (Hl Hin). destruct (lost r0); by rewrite endSession_other.
    + intros j k rj rk. rewrite !list_lookup_fmap. destruct (reps w !! j) as [rj0|] eqn:Hj, (reps w !! k) as [rk0|] eqn:Hk; try done. intros [= <-] [= <-] E.
      eapply HD; [exact Hj|exact Hk|]. destruct (Nat.eqb_spec (session rj0) s), (Nat.eqb_spec (session rk0) s); simpl in E; congruence.
    + intros s' k Hh. destruct (decide (s' = s)) as [->|Hne]; [by apply endSession_self in Hh|]. apply endSession_other in Hh; [|done]. by eapply HN.
  - split_and!; simpl.
    + intros j rj Hj. destruct (decide (i = j)) as [<-|Hij].
      * rewrite list_lookup_insert_eq in Hj by (by eapply lookup_lt_Some). simplify_eq. split; [simpl; lia|]. eapply kept_bereft; [by destruct (HG i r Hi)|].
        intros Hh%HN. lia.
      * rewrite list_lookup_insert_ne in Hj by done. destruct (HG j rj Hj) as (Hlt & Hk). split; [lia|done].
    + assert (∀ j rj, <[i := bereft (next w) r]> (reps w) !! j = Some rj → (j = i ∧ session rj = next w) ∨ (j ≠ i ∧ reps w !! j = Some rj)) as Hold.
      { intros j rj Hj. destruct (decide (i = j)) as [<-|Hij]; [rewrite list_lookup_insert_eq in Hj by (by eapply lookup_lt_Some)|rewrite list_lookup_insert_ne in Hj by done]; naive_solver. }
      intros j k rj rk [[-> Ej]|[Hj Hj']]%Hold [[-> Ek]|[Hk Hk']]%Hold E; [done|..].
      * destruct (HG k rk Hk') as (Hlt & _). lia.
      * destruct (HG j rj Hj') as (Hlt & _). lia.
      * by eapply HD.
    + intros s k Hh%HN. lia.
Qed.

Lemma Inv_reachable n w : reachable n w → Inv w.
Proof.
  unfold reachable. intros Hr. assert (Inv (start n)) as H0.
  { split_and!; simpl.
    - intros i r Hi. rewrite list_lookup_fmap in Hi. destruct (seq 0 n !! i) as [s|] eqn:E; [|done]. simplify_eq/=. apply lookup_seq in E as [-> Hlt].
      split; [simpl; lia|]. split; [done|]. split; [done|]. done.
    - intros i j ri rj Hi Hj. rewrite list_lookup_fmap in Hi, Hj. destruct (seq 0 n !! i) as [s|] eqn:Ei, (seq 0 n !! j) as [t|] eqn:Ej; try done. simplify_eq/=.
      apply lookup_seq in Ei as [-> _], Ej as [-> _]. simpl. lia.
    - intros s k Hh. by apply fresh_none in Hh. }
  revert H0. induction Hr as [|w1 w2 w3 Hs _ IH]; [done|]. intros H1. apply IH. by eapply Inv_step.
Qed.

Lemma perform_step i e w w' : perform i e w = Some w' → step w w'.
Proof.
  unfold perform. destruct (reps w !! i) as [r|] eqn:Hi; [|done]. cbn [mbind option_bind]. intros H.
  destruct e; repeat match type of H with context [match ?x with _ => _ end] => destruct x eqn:? end; try done; simplify_eq; zbool;
    try (by (apply step_shutdown || apply step_session_ends || apply step_reconnect)); (eapply step_replica; [exact Hi|]); try (by constructor; auto).
Qed.

Lemma performAll_reachable n l w : performAll l (start n) = Some w → reachable n w.
Proof.
  unfold reachable. generalize (start n) as w0. induction l as [|x l IH]; intros w0; cbn [performAll]; [intros [= ->]; apply rtc_refl|].
  destruct (perform x.1 x.2 w0) as [w1|] eqn:E; [|done]. cbn [mbind option_bind]. intros H. eapply rtc_l; [by eapply perform_step|by apply IH].
Qed.

(** C7: One replica schedules at a time, as far as sessions go.  In every state the replicas
    can reach, whatever fails and whenever sessions end: of the replicas between taking the
    lock and giving it back at most one still has the session that took it; a replica that
    lost this session and whose run is not canceled has made at most three checks since; and
    a run is canceled only by a shutdown, by the loss of the session or by three checks that
    failed one after the other. *)
Theorem leaders_overlap_bounded n w : reachable n w →
  (∀ i j ri rj, reps w !! i = Some ri → reps w !! j = Some rj → inSection ri → inSection rj → lost ri = false → lost rj = false → i = j) ∧
  (∀ i r, reps w !! i = Some r → inSection r → lost r = true → ctxDone r = true ∨ (since r <= maxLeaderCheckFailures)%nat) ∧
  (∀ i r, reps w !! i = Some r → inSection r → at_ r ≠ Won → canceled r = true → lost r = true ∨ shutdown r = true ∨ (maxLeaderCheckFailures <= failures r)%nat).
Proof.
  intros (HG & HD & _)%Inv_reachable. split_and!.
  - intros i j ri rj Hi Hj Si Sj Li Lj. destruct (HG i ri Hi) as (_ & Hl & _), (HG j rj Hj) as (_ & Hl' & _). specialize (Hl Si). specialize (Hl' Sj). rewrite Li in Hl. rewrite Lj in Hl'.
    eapply HD; [exact Hi|exact Hj|]. by eapply holds_one.
  - intros i r Hi Hs Hlost. destruct (HG i r Hi) as (_ & _ & Hw & _). unfold watchOk in Hw. unfold maxLeaderCheckFailures. destruct (watch r) as [| |a|].
    + right. lia.
    + right. destruct Hw as (_ & Hf & Hs'). specialize (Hs' Hlost). lia.
    + right. destruct Hw as (_ & Hf & Hs' & _). specialize (Hs' Hlost). lia.
    + left. by apply Hw.
  - intros i r Hi Hs Hne Hc. destruct (HG i r Hi) as (_ & _ & Hw & Hcan). apply Hcan; [|done|done]. intros E. unfold watchOk in Hw. rewrite E in Hw. by apply Hne, Hw.
Qed.

(** A follower takes over once nobody else has the lock. *)
Lemma follower_takes_over w i r : reps w !! i = Some r → at_ r = Campaign → session r ∈ alive w → (∀ s, s ≠ session r → ¬ holds (db w) s LockID) →
  ∃ w', step w w' ∧ reps w' !! i = Some (acquired true r).
Proof.
  intros Hi Hp Ha Hf. apply tryLock_free in Hf. destruct (tryLock (session r) LockID (db w)) as [d got] eqn:E. simpl in Hf. subst got.
  eexists. split; [eapply step_replica; [exact Hi|]; by eapply step_acquire|]. simpl. apply list_lookup_insert_eq. by eapply lookup_lt_Some.
Qed.

End invariant.

(** ** A database *)

(** Each key with the session that has it and how often. *)
#[local] Abbreviation LockTable := (gmap Z (nat * nat)).

#[export] Instance lockTable : Locks LockTable := {
  pg_locks d := map (λ x, rowOf x.2.1 x.1) (map_to_list d);
  tryLock s k d :=
    match d !! k with
    | None => (<[k := (s, 1%nat)]> d, true)
    | Some (s', n) => if (s' =? s)%nat then (<[k := (s, S n)]> d, true) else (d, false)
    end;
  unlock s k d :=
    match d !! k with
    | Some (s', n) => if (s' =? s)%nat then (if (n <=? 1)%nat then delete k d else <[k := (s, pred n)]> d) else d
    | None => d
    end;
  endSession s d := filter (λ x, x.2.1 ≠ s) d;
  fresh := ∅ }.

Lemma table_holds (d : LockTable) s k : holds d s k ↔ fst <$> d !! k = Some s.
Proof.
  unfold holds, pg_locks. cbn. rewrite list_elem_of_fmap, fmap_Some. split.
  - intros ([k' [s' n]] & [-> ->]%rowOf_inj & Hin). apply elem_of_map_to_list in Hin. by exists (s', n).
  - intros ([s' n] & Hn & ->). exists (k, (s', n)). split; [done|]. by apply elem_of_map_to_list.
Qed.

(** A key that is set or cleared for its own session. *)
Lemma table_other (d d' : LockTable) s k s' k' : (s', k') ≠ (s, k) → (fst <$> d !! k = Some s ∨ d !! k = None) →
  (d' !! k = None ∨ fst <$> d' !! k = Some s) → (∀ k0, k0 ≠ k → d' !! k0 = d !! k0) → (holds d' s' k' ↔ holds d s' k').
Proof.
  intros Hne Hd Hd' Hk. rewrite !table_holds. destruct (decide (k' = k)) as [->|Hkk]; [|by rewrite Hk].
  assert (s' ≠ s) as Hs by congruence. destruct Hd as [Hd|Hd], Hd' as [Hd'|Hd']; rewrite ?Hd, ?Hd'; simpl; split; intros; congruence.
Qed.

#[export] Instance lockTable_laws : LocksLaws LockTable.
Proof.
  constructor.
  - intros d s1 s2 k. rewrite !table_holds. congruence.
  - intros s k d d'. cbn. intros E. assert (d' !! k = Some (s, default 1%nat (S ∘ snd <$> d !! k)) ∧ (fst <$> d !! k = Some s ∨ d !! k = None) ∧ ∀ k0, k0 ≠ k → d' !! k0 = d !! k0) as (H1 & H2 & H3).
    { destruct (d !! k) as [[s0 n]|]; [destruct (Nat.eqb_spec s0 s) as [->|]; [|done]|]; injection E as <-; rewrite lookup_insert_eq; (split_and!; [done|auto|]); intros k0 Hk; by rewrite lookup_insert_ne. }
    split; [apply table_holds; by rewrite H1|]. intros s' k' Hne. apply (table_other d d' s k); try done. right. by rewrite H1.
  - intros s k d d'. cbn. destruct (d !! k) as [[s0 n]|]; [destruct (s0 =? s)%nat|]; by intros [= <-].
  - intros s k d Hf. cbn. destruct (d !! k) as [[s0 n]|] eqn:E; [|done]. destruct (Nat.eqb_spec s0 s) as [->|Hne]; [done|]. exfalso. apply (Hf s0 Hne). apply table_holds. by rewrite E.
  - intros s k d s' k' Hne. cbn. destruct (d !! k) as [[s0 n]|] eqn:E; [|done]. destruct (Nat.eqb_spec s0 s) as [->|]; [|done].
    apply (table_other d _ s k); [done|left; by rewrite E|..]; destruct (n <=? 1)%nat; rewrite ?lookup_delete_eq, ?lookup_insert_eq; auto;
      intros k0 Hk; by rewrite ?lookup_delete_ne, ?lookup_insert_ne.
  - intros s k d. rewrite table_holds, fmap_Some. cbn. intros ([s' n] & Hn & ->). apply map_lookup_filter_Some in Hn as [_ Hn]. done.
  - intros s d s' k Hne. rewrite !table_holds, !fmap_Some. cbn. split; intros ([s0 n] & Hn & ->); exists (s0, n); (split; [|done]);
      [by apply map_lookup_filter_Some in Hn as [? _]|]. apply map_lookup_filter_Some. done.
  - intros s k. rewrite table_holds. cbn. by rewrite lookup_empty.
Qed.

(** ** On two replicas *)

(** The first replica leads, its session ends, the second takes over, and the first goes on:
    three of its checks fail. *)
Definition overlap : list (nat * event) :=
  [(0, EAcquire); (0, ELead); (0, ETick); (0, ESessionEnds); (1, EAcquire); (1, ELead); (1, ETick); (0, ECheckFails); (0, EJudge); (0, ECheckFails); (0, EJudge); (0, ECheckFails)]%nat.

Definition after (l : list (nat * event)) : World (DB := LockTable) := default (start 2) (performAll l (start 2)).

Lemma leaders_overlap_bounded_witness :
  map at_ (reps (after overlap)) = [Ticking; Ticking] ∧ map lost (reps (after overlap)) = [true; false] ∧ map since (reps (after overlap)) = [3; 0]%nat ∧
  (∀ i j ri rj, reps (after overlap) !! i = Some ri → reps (after overlap) !! j = Some rj → inSection ri → inSection rj → lost ri = false → lost rj = false → i = j).
Proof.
  split; [vm_compute; reflexivity|]. split; [vm_compute; reflexivity|]. split; [vm_compute; reflexivity|].
  apply (leaders_overlap_bounded 2 (after overlap)). apply (performAll_reachable 2 overlap). vm_compute. reflexivity.
Defined.

(** ** What goes wrong *)

(** The first replica is shut down; the second takes over. *)
Definition handover : list (nat * event) :=
  [(0, EAcquire); (0, ELead); (0, EShutdown); (0, EReturn); (0, EWatchDone); (0, EJoined); (0, ERelease); (1, EAcquire); (1, ELead)]%nat.

(** Without any failure two replicas are leading at the same time: the first one is shut down
    and gives the lock back before its flag, which the background sweeps look at, is cleared
    by the deferred call. *)
Lemma two_leading_flags :
  reachable 2 (after handover) ∧ map leading (reps (after handover)) = [true; true] ∧ map lost (reps (after handover)) = [false; false].
Proof. split; [|split; by vm_compute]. apply (performAll_reachable 2 handover). by vm_compute. Qed.
