(* ===== verification/Reaper.v ===== *)
(** * The execution reapers

    [internal/executor/reaper.go] and the five reapers it drives ([reap.go],
    [heartbeat_reap.go], [stale_queued_reap.go], [pod_lost_reap.go],
    [warm_worker_lost_reap.go]): the backstops that fail runs and tasks that went dark and
    tear down their pods.

    The store, the cluster, the log sink, the clock and what the scheduler reports of its
    leadership are the class [Host]; a call may fail or panic, and may see something else each
    time.  Calls are recorded with their answers in the order they are made.  An error is
    [None] or [false], a nil field is a flag of [Config], the zero time is [None].  Log lines
    are left out. *)

From Stdlib Require Import ZArith Lia.
From stdpp Require Import base numbers strings gmap option list.
From S2P Require Import Prelude.

Open Scope Z_scope.

(** ** Candidates *)

Record ReapCandidate := { rRun : string; rDag : string; LastActivity : option Z }.
Record AgentLostCandidate := { aTI : string; aTenant : string; aRun : string; aDag : string; aTask : string; aTry : Z; LastHeartbeat : option Z }.
Record StaleQueuedCandidate := { qTI : string; qRun : string; qDag : string; qTask : string; qTry : Z; QueuedAt : option Z; qWarm : string }.
Record PodLostCandidate := { pTI : string; pRun : string; pDag : string; pTask : string; pTry : Z; RunningSince : option Z }.
Record WarmBoundTI := { wTI : string; wRun : string; wTask : string; wTry : Z; wWorker : string }.
Record WarmPodInfo := { warmName : string; warmTerminal : bool }.

Inductive PodPresence := PodPresenceLive | PodPresenceTerminal | PodPresenceAbsent.

(** A difference of times is cut to 64 bits. *)
Definition Sub (t u : Z) : Z := Z.max (- 2 ^ 63) (Z.min (2 ^ 63 - 1) (t - u)).

Definition IsOrphaned (c : ReapCandidate) (threshold now : Z) : bool :=
  match LastActivity c with None => true | Some t => threshold <=? Sub now t end.

(** The three other tests: no stamp is no reason. *)
Definition past (stamp : option Z) (threshold now : Z) : bool := match stamp with None => false | Some t => threshold <=? Sub now t end.

Definition IsAgentLost (c : AgentLostCandidate) (threshold now : Z) : bool := past (LastHeartbeat c) threshold now.
Definition IsDispatchLost (c : StaleQueuedCandidate) (threshold now : Z) : bool := past (QueuedAt c) threshold now.
Definition IsPodLostCandidate (c : PodLostCandidate) (grace now : Z) : bool := past (RunningSince c) grace now.

(** The warm pods that can serve. *)
Definition liveNames (pods : list WarmPodInfo) : list string := map warmName (filter (λ p, warmTerminal p = false) pods).

(** ** Calls *)

Inductive returns (A : Type) := Returned (a : A) | Panicked.
Arguments Returned {A}. Arguments Panicked {A}.

(** An attempt of a task. *)
Definition Attempt : Type := string * string * Z.

Inductive Ev :=
  | EvCtx (x : bool) | EvStepDown (x : bool) | EvLeading (x : bool)
  | EvNow (t : Z) | EvSince (t : option Z) | EvSynced (x : bool) | EvSweep (t : option Z)
  | EvListRuns (x : returns (option (list ReapCandidate))) | EvReapRun (run : string) (x : returns bool) | EvDeleteRun (run : string) (x : returns bool)
  | EvListSilent (x : returns (option (list AgentLostCandidate))) | EvMarkSilent (ti : string) (x : returns (option bool)) | EvMarker (c : AgentLostCandidate) (x : returns bool)
  | EvListQueued (x : returns (option (list StaleQueuedCandidate))) | EvMarkQueued (ti : string) (x : returns bool)
  | EvListRunning (x : returns (option (list PodLostCandidate))) | EvMarkPodLost (ti : string) (x : returns (option bool))
  | EvListBound (x : returns (option (list WarmBoundTI))) | EvWarmPods (x : returns (option (list WarmPodInfo)))
  | EvPresence (a : Attempt) (x : returns (option PodPresence)) | EvCached (a : Attempt) (x : returns bool)
  | EvDeletePod (a : Attempt) (x : returns bool).

Class Host (W : Type) := {
  CtxErr : W → W * bool;
  InStepDown : W → W * bool;
  IsLeading : W → W * bool;
  Now : W → W * Z;
  LeaderSince : W → W * option Z;
  InformerSynced : W → W * bool;
  LastSweepCompleted : W → W * option Z;
  ListReapCandidates : W → W * returns (option (list ReapCandidate));
  ReapRun : string → W → W * returns bool;
  DeleteRunPods : string → W → W * returns bool;
  ListAgentLostCandidates : W → W * returns (option (list AgentLostCandidate));
  MarkTaskAgentLost : string → W → W * returns (option bool);
  AppendEvent : AgentLostCandidate → W → W * returns bool;
  ListStaleQueuedCandidates : W → W * returns (option (list StaleQueuedCandidate));
  MarkTaskDispatchLost : string → W → W * returns bool;
  ListRunningTasks : Z → W → W * returns (option (list PodLostCandidate));
  MarkTaskPodLost : string → W → W * returns (option bool);
  ListWarmBoundRunningTIs : W → W * returns (option (list WarmBoundTI));
  ListWarmPods : W → W * returns (option (list WarmPodInfo));
  TaskPodPresence : Attempt → W → W * returns (option PodPresence);
  CachedPodActive : Attempt → W → W * returns bool;
  DeleteTaskPod : Attempt → W → W * returns bool }.

Record Config := {
  OrphanThreshold : Z; AgentLostThreshold : Z; DispatchLostThreshold : Z; PodLostGrace : Z; SettlingGrace : Z;
  hasRecorder : bool; hasPods : bool; hasCache : bool; hasWarm : bool; hasSink : bool; hasStepDown : bool; hasLeading : bool;
  hasSince : bool; hasSynced : bool; hasSweep : bool }.

Inductive outcome (A : Type) := Ret (a : A) | Panics.
Arguments Ret {A}. Arguments Panics {A}.

Record Sys (W : Type) := { world : W; trace : list Ev; metrics : list string }.
Arguments world {W}. Arguments trace {W}. Arguments metrics {W}.

Section reaper.
Context {W : Type} `{HW : Host W} (cfg : Config).

Definition M (A : Type) : Type := Sys W → Sys W * outcome A.

#[global] Instance reaper_ret : MRet M := λ A a s, (s, Ret a).
#[global] Instance reaper_bind : MBind M := λ A B f m s, let '(s, o) := m s in match o with Ret a => f a s | Panics => (s, Panics) end.

(** [if r.rec != nil] *)
Definition record (d : string) : M unit := λ s,
  ({| world := world s; trace := trace s; metrics := metrics s ++ (if hasRecorder cfg then [d] else []) |}, Ret tt).

Definition note (e : Ev) (w : W) (s : Sys W) : Sys W := {| world := w; trace := trace s ++ [e]; metrics := metrics s |}.

(** A read that cannot fail, and a call. *)
Definition look {A} (e : A → Ev) (f : W → W * A) : M A := λ s, let '(w, a) := f (world s) in (note (e a) w s, Ret a).

Definition call {A} (e : returns A → Ev) (f : W → W * returns A) : M A := λ s,
  let '(w, x) := f (world s) in (note (e x) w s, match x with Returned a => Ret a | Panicked => Panics end).

(** [defer recover()], with the metric of the reaper. *)
Definition recovering (d : string) (m : M bool) : M bool := λ s,
  let '(s', o) := m s in match o with Panics => (record d;; mret true) s' | o => (s', o) end.

Fixpoint forEach {A} (f : A → M unit) (l : list A) : M unit := match l with [] => mret tt | x :: l => f x;; forEach f l end.

(** ** The gates *)

(** [mayReap] *)
Definition mayReap : M bool :=
  d ← look EvCtx CtxErr;
  if (d : bool) then mret false else
  sd ← (if hasStepDown cfg then look EvStepDown InStepDown else mret false);
  if (sd : bool) then mret false else
  l ← (if hasLeading cfg then look EvLeading IsLeading else mret true);
  mret l.

Record settlingVerdict := { hold : bool; valve : bool }.

(** [settlingPending]: a condition is pending *)
Definition settlingPending (since elapsed : Z) : M bool :=
  if elapsed <? SettlingGrace cfg then mret true else
  sy ← (if hasSynced cfg then look EvSynced InformerSynced else mret true);
  if negb sy then mret true else
  if hasSweep cfg then sw ← look EvSweep LastSweepCompleted; mret (match sw with None => true | Some t => t <? since end)
  else mret false.

Definition settling (now : Z) : M settlingVerdict :=
  if negb (hasSince cfg) || (SettlingGrace cfg <=? 0) then mret {| hold := false; valve := false |} else
  since ← look EvSince LeaderSince;
  match since with
  | None => mret {| hold := false; valve := false |}
  | Some since =>
    let elapsed := Sub now since in
    p ← settlingPending since elapsed;
    mret (if negb p then {| hold := false; valve := false |}
          else if wrap64 (2 * SettlingGrace cfg) <=? elapsed then {| hold := false; valve := true |}
          else {| hold := true; valve := false |})
  end.

(** ** The orphan reaper *)

Definition orphanOne (c : ReapCandidate) : M unit :=
  g ← mayReap;
  if negb g then record "orphan_gate_skip" else
  ok ← call (EvReapRun (rRun c)) (ReapRun (rRun c));
  if negb ok then record "orphan_reap_error" else
  record "orphan_reaped";;
  if negb (hasPods cfg) then mret tt else
  g ← mayReap;
  if negb g then record "orphan_teardown_gate_skip" else
  ok ← call (EvDeleteRun (rRun c)) (DeleteRunPods (rRun c));
  if negb ok then record "orphan_pod_delete_error" else mret tt.

(** [false] is an error of the list. *)
Definition orphanRun : M bool :=
  recovering "orphan_panic" (
    l ← call EvListRuns ListReapCandidates;
    match l with
    | None => mret false
    | Some l =>
      now ← look EvNow Now;
      forEach (λ c, if IsOrphaned c (OrphanThreshold cfg) now then orphanOne c else mret tt) l;;
      mret true
    end).

(** ** The agent-lost reaper *)

(** The teardown of an attempt, with the metrics of the reaper. *)
Definition teardown (a : Attempt) (skipped failed : string) : M unit :=
  g ← mayReap;
  if negb g then record skipped else
  ok ← call (EvDeletePod a) (DeleteTaskPod a);
  if negb ok then record failed else mret tt.

Definition writeAgentLostMarker (c : AgentLostCandidate) : M unit :=
  if negb (hasSink cfg) then mret tt else
  ok ← call (EvMarker c) (AppendEvent c);
  if negb ok then record "agent_lost_log_marker_error" else mret tt.

Definition agentOne (c : AgentLostCandidate) : M unit :=
  g ← mayReap;
  if negb g then record "agent_lost_gate_skip" else
  applied ← call (EvMarkSilent (aTI c)) (MarkTaskAgentLost (aTI c));
  match applied with
  | None => record "agent_lost_error"
  | Some false => record "agent_lost_noop"
  | Some true =>
    record "agent_lost";;
    writeAgentLostMarker c;;
    if negb (hasPods cfg) then mret tt else
    teardown (aRun c, aTask c, aTry c) "agent_lost_teardown_gate_skip" "agent_lost_pod_delete_error"
  end.

Definition agentRun : M bool :=
  recovering "agent_lost_panic" (
    now ← look EvNow Now;
    l ← call EvListSilent ListAgentLostCandidates;
    match l with
    | None => mret false
    | Some l =>
      forEach (λ c, if IsAgentLost c (AgentLostThreshold cfg) now then agentOne c else mret tt) l;;
      mret true
    end).

(** ** The dispatch-lost reaper *)

(** [liveWarmPodNames]: empty without a lister, and when the list fails *)
Definition liveWarmPodNames : M (list string) :=
  if negb (hasWarm cfg) then mret [] else
  l ← call EvWarmPods ListWarmPods;
  mret (match l with None => [] | Some pods => liveNames pods end).

Definition dispatchOne (c : StaleQueuedCandidate) : M unit :=
  g ← mayReap;
  if negb g then record "dispatch_lost_gate_skip" else
  ok ← call (EvMarkQueued (qTI c)) (MarkTaskDispatchLost (qTI c));
  if negb ok then record "dispatch_lost_error" else
  record "dispatch_lost";;
  if negb (hasPods cfg) then mret tt else
  teardown (qRun c, qTask c, qTry c) "dispatch_lost_teardown_gate_skip" "dispatch_lost_pod_delete_error".

Definition dispatchCandidate (liveWarm : list string) (now : Z) (c : StaleQueuedCandidate) : M unit :=
  if negb (IsDispatchLost c (DispatchLostThreshold cfg) now) then mret tt
  else if bool_decide (qWarm c ≠ EmptyString ∧ qWarm c ∈ liveWarm) then record "dispatch_lost_warm_deferred"
  else
    let a := (qRun c, qTask c, qTry c) in
    cached ← (if hasCache cfg then call (EvCached a) (CachedPodActive a) else mret false);
    if (cached : bool) then record "dispatch_lost_cache_active"
    else if negb (hasPods cfg) then dispatchOne c
    else
      x ← call (EvPresence a) (TaskPodPresence a);
      match x with
      | None => record "dispatch_lost_pod_query_error"
      | Some PodPresenceLive => record "dispatch_lost_deferred"
      | Some _ => dispatchOne c
      end.

Definition dispatchRun : M bool :=
  recovering "dispatch_lost_panic" (
    l ← call EvListQueued ListStaleQueuedCandidates;
    match l with
    | None => mret false
    | Some l =>
      liveWarm ← liveWarmPodNames;
      now ← look EvNow Now;
      forEach (dispatchCandidate liveWarm now) l;;
      mret true
    end).

(** ** The pod-lost reaper *)

Definition podOne (c : PodLostCandidate) : M unit :=
  g ← mayReap;
  if negb g then record "pod_lost_gate_skip" else
  applied ← call (EvMarkPodLost (pTI c)) (MarkTaskPodLost (pTI c));
  match applied with
  | None => record "pod_lost_error"
  | Some false => record "pod_lost_noop"
  | Some true => record "pod_lost";; teardown (pRun c, pTask c, pTry c) "pod_lost_teardown_gate_skip" "pod_lost_pod_delete_error"
  end.

Definition podCandidate (now : Z) (c : PodLostCandidate) : M unit :=
  if negb (IsPodLostCandidate c (PodLostGrace cfg) now) then mret tt
  else
    let a := (pRun c, pTask c, pTry c) in
    cached ← (if hasCache cfg then call (EvCached a) (CachedPodActive a) else mret false);
    if (cached : bool) then record "pod_lost_cache_active"
    else
      x ← call (EvPresence a) (TaskPodPresence a);
      match x with
      | None => record "pod_lost_pod_query_error"
      | Some PodPresenceLive => mret tt
      | Some PodPresenceTerminal => record "pod_lost_terminal_pod_defer"
      | Some PodPresenceAbsent => podOne c
      end.

Definition podRun : M bool :=
  recovering "pod_lost_panic" (
    if negb (hasPods cfg) then mret true else
    now ← look EvNow Now;
    l ← call EvListRunning (ListRunningTasks (PodLostGrace cfg));
    match l with
    | None => mret false
    | Some l => forEach (podCandidate now) l;; mret true
    end).

(** ** The warm-worker-lost reaper *)

Definition warmOne (live : list string) (ti : WarmBoundTI) : M unit :=
  if bool_decide (wWorker ti ∈ live) then mret tt else
  g ← mayReap;
  if negb g then record "warm_worker_lost_gate_skip" else
  applied ← call (EvMarkPodLost (wTI ti)) (MarkTaskPodLost (wTI ti));
  match applied with
  | None => record "warm_worker_lost_error"
  | Some false => record "warm_worker_lost_noop"
  | Some true => record "warm_worker_lost"
  end.

Definition warmRun : M bool :=
  recovering "warm_worker_lost_panic" (
    if negb (hasWarm cfg) then mret true else
    l ← call EvListBound ListWarmBoundRunningTIs;
    match l with
    | None => mret false
    | Some [] => mret true
    | Some l =>
      x ← call EvWarmPods ListWarmPods;
      match x with
      | None => record "warm_worker_lost_list_pods_error";; mret true
      | Some pods => forEach (warmOne (liveNames pods)) l;; mret true
      end
    end).

(** ** A tick *)

Definition reporting (d : string) (m : M bool) : M unit := ok ← m; if negb ok then record d else mret tt.

Definition reapAll : M unit :=
  reporting "orphan_list_error" orphanRun;;
  reporting "agent_lost_list_error" agentRun;;
  reporting "dispatch_lost_list_error" dispatchRun;;
  reporting "pod_lost_list_error" podRun;;
  reporting "warm_worker_lost_list_error" warmRun.

Definition ReapOnce : M unit :=
  g ← mayReap;
  if negb g then record "reap_gate_skip" else
  now ← look EvNow Now;
  v ← settling now;
  if hold v then record "reap_settling_skip" else
  (if valve v then record "reap_settling_valve_open" else mret tt);;
  reapAll.

End reaper.

(** [DefaultReaperConfig], with every subsystem wired. *)
Definition DefaultReaperConfig : Config :=
  {| OrphanThreshold := 300 * 10 ^ 9; AgentLostThreshold := 90 * 10 ^ 9; DispatchLostThreshold := 180 * 10 ^ 9; PodLostGrace := 60 * 10 ^ 9; SettlingGrace := 180 * 10 ^ 9;
     hasRecorder := true; hasPods := true; hasCache := true; hasWarm := true; hasSink := true; hasStepDown := true; hasLeading := true; hasSince := true; hasSynced := true; hasSweep := true |}.
