(* ===== verification/ReaperProps.v ===== *)
(** * The execution reapers: what holds

    For every host, whatever it answers and whenever leadership changes: each destructive call
    of a tick comes right after the gate was found open, and has its cause in answers that
    were read before in the tick ([causal]: a computation adds such calls only).  No failure
    of one reaper stops the others.  Then a false reap, shown by a concrete host. *)

From Stdlib Require Import ZArith Lia.
From stdpp Require Import base numbers strings gmap option list.
From S2P Require Import Prelude Reaper.

Open Scope Z_scope.

Section props.
Context {W : Type} `{HW : Host W} (cfg : Config).

#[local] Abbreviation M := (M (W := W)).

(** ** Causes *)

Definition destructive (e : Ev) : bool :=
  match e with EvReapRun _ _ | EvDeleteRun _ _ | EvMarkSilent _ _ | EvMarkQueued _ _ | EvMarkPodLost _ _ | EvDeletePod _ _ => true | _ => false end.

(** The reads of a gate that is open. *)
Definition gateReads : list Ev :=
  EvCtx false :: (if hasStepDown cfg then [EvStepDown false] else []) ++ (if hasLeading cfg then [EvLeading true] else []).

Definition gated (t : list Ev) : Prop := ∃ p, t = p ++ gateReads.

(** The warm pods that are taken to be live. *)
Definition warmRead (t : list Ev) (live : list string) : Prop :=
  if hasWarm cfg then ∃ x, EvWarmPods (Returned x) ∈ t ∧ live = match x with Some pods => liveNames pods | None => [] end else live = [].

(** Why a call is made, from the answers before it. *)
Inductive cause (t : list Ev) : Ev → Prop :=
  | cause_run l c now x : EvListRuns (Returned (Some l)) ∈ t → c ∈ l → EvNow now ∈ t → IsOrphaned c (OrphanThreshold cfg) now = true →
      cause t (EvReapRun (rRun c) x)
  | cause_run_pods run x : EvReapRun run (Returned true) ∈ t → cause t (EvDeleteRun run x)
  | cause_silent l c now x : EvListSilent (Returned (Some l)) ∈ t → c ∈ l → EvNow now ∈ t → IsAgentLost c (AgentLostThreshold cfg) now = true →
      cause t (EvMarkSilent (aTI c) x)
  | cause_queued l c now live x : EvListQueued (Returned (Some l)) ∈ t → c ∈ l → EvNow now ∈ t → IsDispatchLost c (DispatchLostThreshold cfg) now = true →
      warmRead t live → (qWarm c = EmptyString ∨ qWarm c ∉ live) →
      (hasPods cfg = true → ∃ q, EvPresence (qRun c, qTask c, qTry c) (Returned (Some q)) ∈ t ∧ q ≠ PodPresenceLive) →
      cause t (EvMarkQueued (qTI c) x)
  | cause_pod l c now x : EvListRunning (Returned (Some l)) ∈ t → c ∈ l → EvNow now ∈ t → IsPodLostCandidate c (PodLostGrace cfg) now = true →
      EvPresence (pRun c, pTask c, pTry c) (Returned (Some PodPresenceAbsent)) ∈ t →
      cause t (EvMarkPodLost (pTI c) x)
  | cause_warm l ti pods x : EvListBound (Returned (Some l)) ∈ t → ti ∈ l → EvWarmPods (Returned (Some pods)) ∈ t → wWorker ti ∉ liveNames pods →
      cause t (EvMarkPodLost (wTI ti) x)
  | cause_silent_pod l c x : EvListSilent (Returned (Some l)) ∈ t → c ∈ l → EvMarkSilent (aTI c) (Returned (Some true)) ∈ t →
      cause t (EvDeletePod (aRun c, aTask c, aTry c) x)
  | cause_queued_pod l c x : EvListQueued (Returned (Some l)) ∈ t → c ∈ l → EvMarkQueued (qTI c) (Returned true) ∈ t →
      cause t (EvDeletePod (qRun c, qTask c, qTry c) x)
  | cause_pod_pod l c x : EvListRunning (Returned (Some l)) ∈ t → c ∈ l → EvMarkPodLost (pTI c) (Returned (Some true)) ∈ t →
      cause t (EvDeletePod (pRun c, pTask c, pTry c) x).

Lemma cause_mono (f t : list Ev) e : (∀ x, x ∈ f → x ∈ t) → cause f e → cause t e.
Proof.
  intros H Hc. assert (∀ live, warmRead f live → warmRead t live) as Hw.
  { unfold warmRead. intros live. destruct (hasWarm cfg); [|done]. intros (x & Hx & ->). exists x. auto. }
  destruct Hc; econstructor; eauto. intros Hp. naive_solver.
Qed.

Definition good (t : list Ev) : Prop := ∀ p e q, t = p ++ e :: q → destructive e = true → gated p ∧ cause p e.

Lemma good_snoc t e : good t → (destructive e = true → gated t ∧ cause t e) → good (t ++ [e]).
Proof.
  intros Ht He p e' q E Hd. destruct q as [|x q] using rev_ind.
  - apply app_inj_tail in E as [<- <-]. by apply He.
  - clear IHq. rewrite app_comm_cons, app_assoc in E. apply app_inj_tail in E as [E _]. by eapply Ht.
Qed.

(** ** Computations *)

(** From a trace that has the events [f] a computation goes on with causes, and leaves the
    events [g] in the trace when it returns. *)
Definition causal {A} (f : list Ev) (m : M A) (g : A → list Ev) : Prop := ∀ s, good (trace s) → (∀ x, x ∈ f → x ∈ trace s) →
  good (trace (m s).1) ∧ (∃ l, trace (m s).1 = trace s ++ l) ∧ match (m s).2 with Ret a => ∀ x, x ∈ g a → x ∈ trace (m s).1 | Panics => True end.

(** The same right after an open gate. *)
Definition causalGated {A} (f : list Ev) (m : M A) (g : A → list Ev) : Prop := ∀ s, gated (trace s) → good (trace s) → (∀ x, x ∈ f → x ∈ trace s) →
  good (trace (m s).1) ∧ (∃ l, trace (m s).1 = trace s ++ l) ∧ match (m s).2 with Ret a => ∀ x, x ∈ g a → x ∈ trace (m s).1 | Panics => True end.

Lemma causal_ret {A} f (a : A) : causal f (mret a) (λ _, f).
Proof. intros s Hg Hf. split_and!; [done|exists []; by rewrite app_nil_r|done]. Qed.

Lemma causal_weaken {A} f f' (m : M A) g g' : causal f m g → (∀ x, x ∈ f → x ∈ f') → (∀ a x, x ∈ g' a → x ∈ g a) → causal f' m g'.
Proof. intros Hm Hf Hg s Hs Hf'. destruct (Hm s Hs) as (H1 & H2 & H3); [auto|]. split_and!; [done|done|]. destruct ((m s).2); [auto|done]. Qed.

Lemma causal_bind {A B} f (m : M A) (k : A → M B) g h : causal f m g → (∀ a, causal (g a) (k a) h) → causal f (m ≫= k) h.
Proof.
  intros Hm Hk s Hs Hf. specialize (Hm s Hs Hf) as (H1 & (l & H2) & H3). unfold mbind, reaper_bind. destruct (m s) as [s1 [a|]]; simpl in *; [|split_and!; [done|by exists l|done]].
  destruct (Hk a s1 H1 H3) as (H4 & (l' & H5) & H6). split_and!; [done|exists (l ++ l'); by rewrite H5, H2, app_assoc|done].
Qed.

Lemma causalGated_bind {A B} f (m : M A) (k : A → M B) g h : causalGated f m g → (∀ a, causal (g a) (k a) h) → causalGated f (m ≫= k) h.
Proof.
  intros Hm Hk s Hgt Hs Hf. specialize (Hm s Hgt Hs Hf) as (H1 & (l & H2) & H3). unfold mbind, reaper_bind.
  destruct (m s) as [s1 [a|]]; simpl in *; [|split_and!; [done|by exists l|done]].
  destruct (Hk a s1 H1 H3) as (H4 & (l' & H5) & H6). split_and!; [done|exists (l ++ l'); by rewrite H5, H2, app_assoc|done].
Qed.

Lemma causal_record f d : causal f (record cfg d) (λ _, f).
Proof. intros s Hg Hf. split_and!; [done|exists []; by rewrite app_nil_r|done]. Qed.

Lemma causal_look {A} f (e : A → Ev) (op : W → W * A) : (∀ a, destructive (e a) = false) → causal f (look e op) (λ a, e a :: f).
Proof.
  intros He s Hg Hf. unfold look. destruct (op (world s)) as [w a]. simpl. split_and!; [apply good_snoc; [done|by rewrite He]|by eexists|].
  intros x [->|Hx]%elem_of_cons; apply elem_of_app; [right; left|left; auto].
Qed.

Lemma causal_call {A} f (e : returns A → Ev) op : (∀ a, destructive (e a) = false) → causal f (call e op) (λ a, e (Returned a) :: f).
Proof.
  intros He s Hg Hf. unfold call. destruct (op (world s)) as [w x]. simpl. split_and!; [apply good_snoc; [done|by rewrite He]|by eexists|].
  destruct x as [a|]; [|done]. intros x [->|Hx]%elem_of_cons; apply elem_of_app; [right; left|left; auto].
Qed.

(** A destructive call needs the gate and a cause. *)
Lemma causal_destroy {A} f (e : returns A → Ev) op : (∀ a, cause f (e a)) → causalGated f (call e op) (λ a, e (Returned a) :: f).
Proof.
  intros He s Hgt Hg Hf. unfold call. destruct (op (world s)) as [w x]. simpl. split_and!; [apply good_snoc; [done|]; intros _; split; [done|]; by eapply cause_mono|by eexists|].
  destruct x as [a|]; [|done]. intros x [->|Hx]%elem_of_cons; apply elem_of_app; [right; left|left; auto].
Qed.

(** The gate: what it leaves in the trace. *)
Lemma mayReap_trace s : ∃ b w l, mayReap cfg s = ({| world := w; trace := trace s ++ l; metrics := metrics s |}, Ret b) ∧
  Forall (λ e, destructive e = false) l ∧ (b = true → l = gateReads).
Proof.
  unfold mayReap, look, gateReads, mbind, reaper_bind, mret, reaper_ret, note. destruct (CtxErr (world s)) as [w1 [|]]; [by eexists false, w1, [EvCtx true]; split_and!; [|repeat constructor|]|].
  destruct (hasStepDown cfg); cbn.
  - destruct (InStepDown w1) as [w2 [|]]; cbn; [eexists false, w2, [EvCtx false; EvStepDown true]; split_and!; [by rewrite <- app_assoc|repeat constructor|done]|].
    destruct (hasLeading cfg); cbn.
    + destruct (IsLeading w2) as [w3 b]. eexists b, w3, [EvCtx false; EvStepDown false; EvLeading b]. split_and!; [by rewrite <- !app_assoc|repeat constructor|by intros ->].
    + eexists true, w2, [EvCtx false; EvStepDown false]. split_and!; [by rewrite <- app_assoc|repeat constructor|done].
  - destruct (hasLeading cfg); cbn.
    + destruct (IsLeading w1) as [w3 b]. eexists b, w3, [EvCtx false; EvLeading b]. split_and!; [by rewrite <- !app_assoc|repeat constructor|by intros ->].
    + eexists true, w1, [EvCtx false]. split_and!; [done|repeat constructor|done].
Qed.

Lemma good_quiet t l : good t → Forall (λ e, destructive e = false) l → good (t ++ l).
Proof.
  intros Ht Hl. revert t Ht. induction Hl as [|e l He _ IH]; intros t Ht; [by rewrite app_nil_r|]. change (e :: l) with ([e] ++ l). rewrite app_assoc. apply IH.
  apply good_snoc; [done|congruence].
Qed.

Lemma causal_gate {B} f (no yes : M B) h : causal f no h → causalGated f yes h → causal f (g ← mayReap cfg; if negb g then no else yes) h.
Proof.
  intros Hno Hyes s Hs Hf. destruct (mayReap_trace s) as (b & w & l & E & Hl & Hb).
  set (s1 := {| world := w; trace := trace s ++ l; metrics := metrics s |}).
  assert ((g ← mayReap cfg; if negb g then no else yes) s = (if negb b then no else yes) s1) as -> by (unfold mbind, reaper_bind; by rewrite E).
  assert (good (trace s1)) as Hs1 by (by apply good_quiet). assert (∀ x, x ∈ f → x ∈ trace s1) as Hf1 by (intros x Hx; apply elem_of_app; left; auto).
  destruct b; cbn [negb].
  - destruct (Hyes s1) as (H1 & (l' & H2) & H3); [by exists (trace s); simpl; rewrite Hb|done|done|]. split_and!; [done|exists (l ++ l'); by rewrite H2, app_assoc|done].
  - destruct (Hno s1 Hs1 Hf1) as (H1 & (l' & H2) & H3). split_and!; [done|exists (l ++ l'); by rewrite H2, app_assoc|done].
Qed.

Lemma causal_forEach {A} f (k : A → M unit) l : (∀ x, x ∈ l → causal f (k x) (λ _, f)) → causal f (forEach k l) (λ _, f).
Proof.
  induction l as [|x l IH]; intros Hk; [apply causal_ret|]. cbn [forEach]. eapply causal_bind; [apply Hk; left|]. intros ?. cbn beta. apply IH. intros y Hy. apply Hk. by right.
Qed.

Lemma causal_recovering f d (m : M bool) : causal f m (λ _, f) → causal f (recovering cfg d m) (λ _, f).
Proof.
  intros Hm s Hs Hf. specialize (Hm s Hs Hf) as (H1 & (l & H2) & H3). unfold recovering. destruct (m s) as [s1 [a|]]; simpl in *; [split_and!; [done|by exists l|done]|].
  split_and!; [done|by exists l|]. intros x Hx. simpl. rewrite H2. apply elem_of_app. left. auto.
Qed.

(** ** The reapers *)

Create HintDb reaper.
#[local] Hint Resolve causal_ret causal_record : reaper.

Lemma causal_quiet {A} f (m : M A) g : causal f m g → (∀ a x, x ∈ f → x ∈ g a) → causal f m (λ _, f).
Proof. intros Hm Hg. eapply causal_weaken; eauto. Qed.

(** A computation of which nothing is used later. *)
Lemma causal_less {A} f f' (m : M A) : causal f m (λ _, f) → (∀ x, x ∈ f' → x ∈ f) → causal f m (λ _, f').
Proof. intros Hm Hf. eapply causal_weaken; [exact Hm|done|]. intros a. exact Hf. Qed.

Ltac less := let x := fresh in let H := fresh in intros x H; repeat first [exact H | apply elem_of_cons; right].

Lemma causal_if {A} f (b : bool) (m n : M A) g : causal f m g → causal f n g → causal f (if b then m else n) g.
Proof. by destruct b. Qed.

Lemma causal_teardown f a sk fl : (∀ x, cause f (EvDeletePod a x)) → causal f (teardown cfg a sk fl) (λ _, f).
Proof.
  intros Hc. apply causal_gate; [apply causal_record|]. eapply causalGated_bind; [by apply causal_destroy|]. intros ok. cbn beta.
  apply (causal_less (EvDeletePod a (Returned ok) :: f)); [|less]. apply causal_if; auto with reaper.
Qed.

Section orphan.
Context (l : list ReapCandidate) (now : Z).

Lemma causal_orphanOne f c : EvListRuns (Returned (Some l)) ∈ f → c ∈ l → EvNow now ∈ f → IsOrphaned c (OrphanThreshold cfg) now = true →
  causal f (orphanOne cfg c) (λ _, f).
Proof.
  intros Hl Hc Hn Ho. apply causal_gate; [apply causal_record|]. eapply causalGated_bind; [apply causal_destroy; by econstructor|]. intros ok. cbn beta.
  apply (causal_less (EvReapRun (rRun c) (Returned ok) :: f)); [|less]. destruct ok; cbn [negb]; [|apply causal_record].
  eapply causal_bind; [apply causal_record|]. intros ?. cbn beta. apply causal_if; [apply causal_ret|]. apply causal_gate; [apply causal_record|].
  eapply causalGated_bind; [apply causal_destroy; intros x; apply cause_run_pods; left|]. intros ok. cbn beta.
  eapply causal_less; [|less]. apply causal_if; auto with reaper.
Qed.

End orphan.

Lemma causal_orphanRun f : causal f (orphanRun cfg) (λ _, f).
Proof.
  apply causal_recovering. eapply causal_bind; [by apply causal_call|]. intros [l|]; [|eapply causal_less; [apply causal_ret|less]].
  eapply causal_bind; [by apply causal_look|]. intros now. cbn beta. apply (causal_less (EvNow now :: EvListRuns (Returned (Some l)) :: f)); [|less].
  eapply causal_bind; [|intros ?; apply causal_ret]. apply causal_forEach. intros c Hc. destruct (IsOrphaned c (OrphanThreshold cfg) now) eqn:Ho; [|apply causal_ret].
  eapply causal_orphanOne; [right; left|done|left|done].
Qed.

Lemma causal_marker f c : causal f (writeAgentLostMarker cfg c) (λ _, f).
Proof.
  unfold writeAgentLostMarker. apply causal_if; [apply causal_ret|]. eapply causal_bind; [by apply causal_call|]. intros ok. cbn beta. eapply causal_less; [|less]. apply causal_if; auto with reaper.
Qed.

Lemma causal_agentOne f l c now : EvListSilent (Returned (Some l)) ∈ f → c ∈ l → EvNow now ∈ f → IsAgentLost c (AgentLostThreshold cfg) now = true →
  causal f (agentOne cfg c) (λ _, f).
Proof.
  intros Hl Hc Hn Ho. apply causal_gate; [apply causal_record|]. eapply causalGated_bind; [apply causal_destroy; by econstructor|]. intros ok. cbn beta.
  apply (causal_less (EvMarkSilent (aTI c) (Returned ok) :: f)); [|less]. destruct ok as [[|]|]; [|apply causal_record|apply causal_record].
  eapply causal_bind; [apply causal_record|]. intros ?. cbn beta. eapply causal_bind; [apply causal_marker|]. intros ?. cbn beta. apply causal_if; [apply causal_ret|].
  apply causal_teardown. intros x. eapply cause_silent_pod; [right; exact Hl|done|left].
Qed.

Lemma causal_agentRun f : causal f (agentRun cfg) (λ _, f).
Proof.
  apply causal_recovering. eapply causal_bind; [by apply causal_look|]. intros now. cbn beta. eapply causal_bind; [by apply causal_call|]. cbn beta. intros [l|]; [|eapply causal_less; [apply causal_ret|less]].
  apply (causal_less (EvListSilent (Returned (Some l)) :: EvNow now :: f)); [|less]. eapply causal_bind; [|intros ?; apply causal_ret]. apply causal_forEach. intros c Hc.
  destruct (IsAgentLost c (AgentLostThreshold cfg) now) eqn:Ho; [|apply causal_ret]. eapply causal_agentOne; [left|done|right; left|done].
Qed.

Lemma causal_podOne f l c now : EvListRunning (Returned (Some l)) ∈ f → c ∈ l → EvNow now ∈ f → IsPodLostCandidate c (PodLostGrace cfg) now = true →
  EvPresence (pRun c, pTask c, pTry c) (Returned (Some PodPresenceAbsent)) ∈ f → causal f (podOne cfg c) (λ _, f).
Proof.
  intros Hl Hc Hn Ho Hp. apply causal_gate; [apply causal_record|]. eapply causalGated_bind; [apply causal_destroy; by econstructor|]. intros ok. cbn beta.
  apply (causal_less (EvMarkPodLost (pTI c) (Returned ok) :: f)); [|less]. destruct ok as [[|]|]; [|apply causal_record|apply causal_record].
  eapply causal_bind; [apply causal_record|]. intros ?. cbn beta. apply causal_teardown. intros x. eapply cause_pod_pod; [right; exact Hl|done|left].
Qed.

(** What the cache says is used to do nothing only. *)
Lemma causal_cached f a : causal f (if hasCache cfg then call (EvCached a) (CachedPodActive a) else mret false) (λ _, f).
Proof. apply causal_if; [|apply causal_ret]. eapply causal_quiet; [by apply causal_call|]. intros x. less. Qed.

Lemma causal_podRun f : causal f (podRun cfg) (λ _, f).
Proof.
  apply causal_recovering. apply causal_if; [apply causal_ret|]. eapply causal_bind; [by apply causal_look|]. intros now. cbn beta. eapply causal_bind; [by apply causal_call|]. cbn beta.
  intros [l|]; [|eapply causal_less; [apply causal_ret|less]]. apply (causal_less (EvListRunning (Returned (Some l)) :: EvNow now :: f)); [|less].
  eapply causal_bind; [|intros ?; apply causal_ret]. apply causal_forEach. intros c Hc. unfold podCandidate.
  destruct (IsPodLostCandidate c (PodLostGrace cfg) now) eqn:Ho; cbn [negb]; [|apply causal_ret].
  eapply causal_bind; [apply causal_cached|]. intros cached. apply causal_if; [apply causal_record|]. eapply causal_bind; [by apply causal_call|]. cbn beta. intros x.
  eapply causal_less; [|less]. destruct x as [[| |]|]; auto with reaper. eapply causal_podOne; [right; left|done|right; right; left|done|left].
Qed.

Lemma causal_dispatchOne f l c now live : EvListQueued (Returned (Some l)) ∈ f → c ∈ l → EvNow now ∈ f → IsDispatchLost c (DispatchLostThreshold cfg) now = true →
  warmRead f live → (qWarm c = EmptyString ∨ qWarm c ∉ live) →
  (hasPods cfg = true → ∃ q, EvPresence (qRun c, qTask c, qTry c) (Returned (Some q)) ∈ f ∧ q ≠ PodPresenceLive) → causal f (dispatchOne cfg c) (λ _, f).
Proof.
  intros Hl Hc Hn Ho Hw Hlive Hp. apply causal_gate; [apply causal_record|]. eapply causalGated_bind; [apply causal_destroy; by econstructor|]. intros ok. cbn beta.
  apply (causal_less (EvMarkQueued (qTI c) (Returned ok) :: f)); [|less]. destruct ok; cbn [negb]; [|apply causal_record].
  eapply causal_bind; [apply causal_record|]. intros ?. cbn beta. apply causal_if; [apply causal_ret|]. apply causal_teardown. intros x. eapply cause_queued_pod; [right; exact Hl|done|left].
Qed.

Lemma warmRead_mono f t live : (∀ x, x ∈ f → x ∈ t) → warmRead f live → warmRead t live.
Proof. unfold warmRead. intros H. destruct (hasWarm cfg); [|done]. intros (x & Hx & ->). exists x. auto. Qed.

(** What is known of the warm pods. *)
Definition warmEvents (live : option (option (list WarmPodInfo))) : list Ev := match live with Some x => [EvWarmPods (Returned x)] | None => [] end.

Lemma causal_candidate f l c now live : EvListQueued (Returned (Some l)) ∈ f → c ∈ l → EvNow now ∈ f → warmRead f live →
  causal f (dispatchCandidate cfg live now c) (λ _, f).
Proof.
  intros Hl Hc Hn Hw. unfold dispatchCandidate. destruct (IsDispatchLost c (DispatchLostThreshold cfg) now) eqn:Ho; cbn [negb]; [|apply causal_ret].
  case_bool_decide as Hwarm; [apply causal_record|]. assert (qWarm c = EmptyString ∨ qWarm c ∉ live) as Hl'.
  { destruct (decide (qWarm c = EmptyString)); [by left|]. destruct (decide (qWarm c ∈ live)); [by exfalso; apply Hwarm|by right]. }
  eapply causal_bind; [apply causal_cached|]. intros cached. apply causal_if; [apply causal_record|].
  destruct (hasPods cfg) eqn:Hp; cbn [negb]; [|eapply causal_dispatchOne; eauto; congruence]. eapply causal_bind; [by apply causal_call|]. cbn beta. intros x. eapply causal_less; [|less].
  set (a := (qRun c, qTask c, qTry c)) in *.
  assert (∀ q, q ≠ PodPresenceLive → causal (EvPresence a (Returned (Some q)) :: f) (dispatchOne cfg c) (λ _, EvPresence a (Returned (Some q)) :: f)) as Hone.
  { intros q Hq. eapply (causal_dispatchOne _ l c now live); [by right|done|by right|done|eapply warmRead_mono; [|exact Hw]; by right|done|].
    intros _. exists q. split; [left|done]. }
  destruct x as [[| |]|]; auto with reaper; by apply Hone.
Qed.

Lemma causal_dispatchRun f : causal f (dispatchRun cfg) (λ _, f).
Proof.
  apply causal_recovering. eapply causal_bind; [by apply causal_call|]. intros [l|]; [|eapply causal_less; [apply causal_ret|less]]. cbn beta.
  set (f1 := EvListQueued (Returned (Some l)) :: f). apply (causal_less f1); [|less].
  assert (∀ f2 live, (∀ x, x ∈ f1 → x ∈ f2) → warmRead f2 live → causal f2 (now ← look EvNow Now; forEach (dispatchCandidate cfg live now) l;; mret true) (λ _, f1)) as Hrest.
  { intros f2 live Hf Hw. eapply causal_bind; [by apply causal_look|]. intros now. cbn beta. apply (causal_less (EvNow now :: f2)); [|intros x Hx; right; auto].
    eapply causal_bind; [|intros ?; apply causal_ret]. apply causal_forEach. intros c Hc.
    eapply causal_candidate; [right; apply Hf; left|done|left|eapply warmRead_mono; [|exact Hw]; by right]. }
  unfold liveWarmPodNames. assert (∀ live, hasWarm cfg = false → warmRead f1 live ↔ live = []) as Hoff by (intros live E; unfold warmRead; by rewrite E).
  destruct (hasWarm cfg) eqn:Ew; cbn [negb].
  - intros s Hs Hf. assert (∀ k : list string → M bool, (v ← (y ← call EvWarmPods ListWarmPods; mret (match y with None => [] | Some pods => liveNames pods end)); k v) s =
      (y ← call EvWarmPods ListWarmPods; k (match y with None => [] | Some pods => liveNames pods end)) s) as ->.
    { intros k. unfold mbind, reaper_bind. destruct (call EvWarmPods ListWarmPods s) as [s1 [y|]]; done. }
    revert s Hs Hf. change (causal f1 (y ← call EvWarmPods ListWarmPods; now ← look EvNow Now; forEach (dispatchCandidate cfg (match y with None => [] | Some pods => liveNames pods end) now) l;; mret true) (λ _, f1)).
    eapply causal_bind; [by apply causal_call|]. cbn beta. intros y. apply Hrest; [by right|]. unfold warmRead. rewrite Ew. exists y. split; [left|done].
  - change (causal f1 (now ← look EvNow Now; forEach (dispatchCandidate cfg [] now) l;; mret true) (λ _, f1)). apply Hrest; [done|]. by apply Hoff.
Qed.

Lemma causal_warmRun f : causal f (warmRun cfg) (λ _, f).
Proof.
  apply causal_recovering. apply causal_if; [apply causal_ret|]. eapply causal_bind; [by apply causal_call|]. cbn beta. intros [[|ti l]|]; [eapply causal_less; [apply causal_ret|less]| |eapply causal_less; [apply causal_ret|less]].
  eapply causal_bind; [by apply causal_call|]. cbn beta. intros [pods|]; (eapply causal_less; [|less]); (eapply causal_bind; [|intros ?; apply causal_ret]); [|apply causal_record].
  apply causal_forEach. intros c Hc. unfold warmOne. case_bool_decide as Hl; [apply causal_ret|]. apply causal_gate; [apply causal_record|].
  eapply causalGated_bind; [apply causal_destroy; intros x; eapply cause_warm; [right; left|exact Hc|left|exact Hl]|]. intros ok. cbn beta. eapply causal_less; [|less].
  destruct ok as [[|]|]; apply causal_record.
Qed.

Lemma causal_reporting f d m : causal f m (λ _, f) → causal f (reporting cfg d m) (λ _, f).
Proof. intros Hm. eapply causal_bind; [exact Hm|]. intros ok. apply causal_if; auto with reaper. Qed.

Lemma causal_reapAll f : causal f (reapAll cfg) (λ _, f).
Proof.
  unfold reapAll. repeat (eapply causal_bind; [apply causal_reporting|intros ?; cbn beta]); [apply causal_orphanRun|apply causal_agentRun|apply causal_dispatchRun|apply causal_podRun|].
  apply causal_reporting, causal_warmRun.
Qed.

(** ** The settling gate *)

(** The reads [l] show that the leader has settled, or that it did not for twice the grace. *)
Definition settledBy (now : Z) (l : list Ev) : Prop :=
  hasSince cfg = false ∨ SettlingGrace cfg <= 0 ∨ EvSince None ∈ l ∨
  ∃ since, EvSince (Some since) ∈ l ∧
    (wrap64 (2 * SettlingGrace cfg) <= Sub now since ∨
     SettlingGrace cfg <= Sub now since ∧ (hasSynced cfg = true → EvSynced true ∈ l) ∧ (hasSweep cfg = true → ∃ t, EvSweep (Some t) ∈ l ∧ since <= t)).

(** A computation that only looks. *)
Definition looks {A} (m : M A) (P : A → list Ev → Prop) : Prop := ∀ s, ∃ a w l,
  m s = ({| world := w; trace := trace s ++ l; metrics := metrics s |}, Ret a) ∧ Forall (λ e, destructive e = false) l ∧ P a l.

Lemma looks_ret {A} (a : A) (P : A → list Ev → Prop) : P a [] → looks (mret a) P.
Proof. intros H s. exists a, (world s), []. split_and!; [destruct s; simpl; by rewrite app_nil_r|constructor|done]. Qed.

Lemma looks_look {A B} (e : A → Ev) op (k : A → M B) P : (∀ a, destructive (e a) = false) → (∀ a, looks (k a) (λ b l, P b (e a :: l))) → looks (look e op ≫= k) P.
Proof.
  intros He Hk s. unfold mbind, reaper_bind, look. destruct (op (world s)) as [w a]. destruct (Hk a (note (e a) w s)) as (b & w' & l & E & Hl & HP). rewrite E.
  exists b, w', (e a :: l). split_and!; [simpl; by rewrite <- app_assoc|by constructor|done].
Qed.

Lemma looks_if {A} (b : bool) (m n : M A) P : (b = true → looks m P) → (b = false → looks n P) → looks (if b then m else n) P.
Proof. destruct b; auto. Qed.

Lemma settling_looks now : looks (settling cfg now) (λ v l, hold v = false → settledBy now l).
Proof.
  unfold settling. destruct (negb (hasSince cfg) || (SettlingGrace cfg <=? 0)) eqn:E0.
  { apply looks_ret. intros _. apply orb_true_iff in E0 as [E0|E0]; [left; by destruct (hasSince cfg)|right; left; lia]. }
  apply looks_look; [done|]. intros [since|]; [|apply looks_ret; intros _; right; right; left; left].
  assert (∀ (p : bool) l, (p = false → SettlingGrace cfg <= Sub now since ∧ (hasSynced cfg = true → EvSynced true ∈ l) ∧ (hasSweep cfg = true → ∃ t, EvSweep (Some t) ∈ l ∧ since <= t)) →
    hold (if negb p then {| hold := false; valve := false |} else if wrap64 (2 * SettlingGrace cfg) <=? Sub now since then {| hold := false; valve := true |} else {| hold := true; valve := false |}) = false →
    settledBy now (EvSince (Some since) :: l)) as Hp.
  { intros p l Hl Hh. do 3 right. exists since. split; [left|]. destruct p; cbn [negb] in Hh.
    - left. destruct (Z.leb_spec (wrap64 (2 * SettlingGrace cfg)) (Sub now since)); [done|by simpl in Hh].
    - right. destruct (Hl eq_refl) as (H1 & H2 & H3). split_and!; [done|intros E; right; auto|]. intros E. destruct (H3 E) as (t & Ht & Hle). exists t. split; [by right|done]. }
  unfold settlingPending. destruct (Z.ltb_spec (Sub now since) (SettlingGrace cfg)) as [Hlt|Hge]; [apply looks_ret; by apply Hp|].
  assert (∀ l, (hasSynced cfg = true → EvSynced true ∈ l) → looks (p ← (if hasSweep cfg then sw ← look EvSweep LastSweepCompleted; mret (match sw with None => true | Some t => t <? since end) else mret false);
    mret (if negb p then {| hold := false; valve := false |} else if wrap64 (2 * SettlingGrace cfg) <=? Sub now since then {| hold := false; valve := true |} else {| hold := true; valve := false |}))
    (λ v l', hold v = false → settledBy now (EvSince (Some since) :: l ++ l'))) as Hsweep.
  { intros l Hl. destruct (hasSweep cfg) eqn:Esw.
    - intros s. unfold mbind at 2, reaper_bind at 2. unfold mbind, reaper_bind, look, mret, reaper_ret. destruct (LastSweepCompleted (world s)) as [w sw]. eexists _, w, [EvSweep sw].
      split_and!; [done|by repeat constructor|]. apply Hp. intros Hsw. split_and!; [done|intros E; apply elem_of_app; left; auto|]. intros _. destruct sw as [t|]; [|done].
      exists t. split; [apply elem_of_app; right; left|lia].
    - apply (looks_ret _ (λ v l', hold v = false → settledBy now (EvSince (Some since) :: l ++ l'))). apply Hp. intros _. split_and!; [done|intros E; apply elem_of_app; left; auto|done]. }
  destruct (hasSynced cfg) eqn:Esy.
  - intros s. unfold mbind at 1 2, reaper_bind at 1 2. unfold mbind at 1, reaper_bind at 1. unfold look at 1. destruct (InformerSynced (world s)) as [w sy].
    destruct sy; cbn [negb].
    + destruct (Hsweep [EvSynced true] ltac:(left) (note (EvSynced true) w s)) as (v & w' & l & E & Hl & HP). unfold mbind, reaper_bind in E. rewrite E.
      exists v, w', (EvSynced true :: l). split_and!; [simpl; by rewrite <- app_assoc|by constructor|done].
    + eexists _, w, [EvSynced false]. split_and!; [done|by repeat constructor|]. by apply Hp.
  - apply (Hsweep []). done.
Qed.

(** ** A tick *)

Definition startOf (w : W) : Sys W := {| world := w; trace := []; metrics := [] |}.

(** What comes before a destructive call: an open gate, and reads that show a settled leader. *)
Definition settled (t : list Ev) : Prop := ∃ now l rest, t = gateReads ++ EvNow now :: l ++ rest ∧ settledBy now l.

Lemma bind_returns {A B} (m : M A) (k : A → M B) s s1 a : m s = (s1, Ret a) → (m ≫= k) s = k a s1.
Proof. unfold mbind, reaper_bind. by intros ->. Qed.

(** The events of a tick that goes on, up to the reapers, and the reapers. *)
Lemma tick_trace w : let s := (ReapOnce cfg (startOf w)).1 in
  Forall (λ e, destructive e = false) (trace s) ∨
  ∃ now l s1, settledBy now l ∧ trace s1 = gateReads ++ EvNow now :: l ∧ Forall (λ e, destructive e = false) (trace s1) ∧ s = (reapAll cfg s1).1.
Proof.
  cbn zeta. unfold ReapOnce. destruct (mayReap_trace (startOf w)) as (b & w1 & l0 & E & Hl & Hb). rewrite (bind_returns _ _ _ _ _ E). cbn [startOf trace metrics app].
  destruct b; cbn [negb]; [|by left]. rewrite (Hb eq_refl) in *. clear E Hb l0.
  destruct (Now w1) as [w2 now] eqn:En. set (s0 := {| world := w1; trace := gateReads; metrics := [] |}).
  assert (look EvNow Now s0 = (note (EvNow now) w2 s0, Ret now)) as E0 by (unfold look, s0; simpl; by rewrite En). rewrite (bind_returns _ _ _ _ _ E0).
  destruct (settling_looks now (note (EvNow now) w2 s0)) as (v & w3 & l & E3 & Hl3 & Hv). rewrite (bind_returns _ _ _ _ _ E3). cbn [note trace metrics s0].
  assert (Forall (λ e, destructive e = false) ((gateReads ++ [EvNow now]) ++ l)) as Hq by (apply Forall_app; split; [apply Forall_app; split; [done|by constructor]|done]).
  destruct (hold v) eqn:Eh; [by left|]. right. exists now, l. specialize (Hv eq_refl).
  assert ((gateReads ++ [EvNow now]) ++ l = gateReads ++ EvNow now :: l) as Eq by (by rewrite <- app_assoc). rewrite Eq in *.
  destruct (valve v); (eexists; split_and!; [exact Hv| | |rewrite (bind_returns _ _ _ _ tt eq_refl); reflexivity]); done.
Qed.

(** C8: A reap is justified.  Whatever the store and the cluster answer, and whenever a
    shutdown, a step-down or a loss of leadership comes in between: every call of a tick that
    fails a run or a task or deletes pods comes right after the gate was read and found open,
    in a tick whose leader had settled (or did not for twice the grace), and has its cause in
    answers read before in the tick - a run or task listed and past its threshold; for a lost
    pod that its attempt has no pod at all; for a lost dispatch that no live pod was found and
    its worker was not among those listed (a list that fails counts as an empty one); for a
    lost worker that the list of workers was read and does not have it; and for the
    deletion of pods that this very run or attempt was failed before. *)
Theorem reaps_are_justified w p e q : trace (ReapOnce cfg (startOf w)).1 = p ++ e :: q → destructive e = true → gated p ∧ cause p e ∧ settled p.
Proof.
  intros Ht He. destruct (tick_trace w) as [Hq|(now & l & s1 & Hset & E1 & Hq & E)].
  - rewrite Ht in Hq. apply Forall_app in Hq as [_ [Hd _]%Forall_cons]. congruence.
  - rewrite E in Ht. assert (good (trace s1)) as Hs1.
    { intros p' e' q' E' Hd. rewrite E' in Hq. apply Forall_app in Hq as [_ [Hd' _]%Forall_cons]. congruence. }
    destruct (causal_reapAll [] s1 Hs1) as (Hg & (l' & El) & _); [by intros x ?%elem_of_nil|]. destruct (Hg p e q Ht He) as [H1 H2]. split_and!; [done|done|].
    rewrite El in Ht. apply app_eq_inv in Ht as [(k & E2 & E3)|(k & E2 & E3)].
    + destruct k as [|x k]; [exists now, l, []; rewrite !app_nil_r in *; by rewrite <- E2|]. simpl in E3. injection E3 as <- E3. rewrite E2 in Hq. apply Forall_app in Hq as [_ [Hd _]%Forall_cons]. congruence.
    + exists now, l, k. split; [|done]. rewrite E2, E1. by rewrite <- app_assoc.
Qed.

(** ** A panic stops one reaper and not the tick *)

Definition grows {A} (m : M A) : Prop := ∀ s, ∃ l, trace (m s).1 = trace s ++ l.

Lemma grows_ret {A} (a : A) : grows (mret a).
Proof. intros s. exists []. by rewrite app_nil_r. Qed.

Lemma grows_record d : grows (record cfg d).
Proof. intros s. exists []. by rewrite app_nil_r. Qed.

Lemma grows_look {A} (e : A → Ev) op : grows (look e op).
Proof. intros s. unfold look. destruct (op (world s)) as [w a]. by eexists. Qed.

Lemma grows_call {A} (e : returns A → Ev) op : grows (call e op).
Proof. intros s. unfold call. destruct (op (world s)) as [w a]. by eexists. Qed.

Lemma grows_bind {A B} (m : M A) (k : A → M B) : grows m → (∀ a, grows (k a)) → grows (m ≫= k).
Proof.
  intros Hm Hk s. destruct (Hm s) as [l E]. unfold mbind, reaper_bind. destruct (m s) as [s1 [a|]]; simpl in *; [|by exists l].
  destruct (Hk a s1) as [l' E']. exists (l ++ l'). by rewrite E', E, app_assoc.
Qed.

Lemma grows_forEach {A} (k : A → M unit) l : (∀ x, grows (k x)) → grows (forEach k l).
Proof. intros Hk. induction l as [|x l IH]; [apply grows_ret|]. apply grows_bind; [apply Hk|]. by intros ?. Qed.

Ltac grow := repeat first [apply grows_ret | apply grows_record | apply grows_look | apply grows_call | apply grows_forEach; intros ? | apply grows_bind; [|intros ?] | case_match].

Lemma grows_mayReap : grows (mayReap cfg).
Proof. unfold mayReap. grow. Qed.

Ltac grow_all := repeat first [apply grows_mayReap | progress grow].

(** The computation returns, with one of the events [P] in the trace. *)
Definition asks {A} (P : Ev → Prop) (m : M A) : Prop := ∀ s, ∃ e, e ∈ trace (m s).1 ∧ P e.

Lemma asks_call {A B} (P : Ev → Prop) (e : returns A → Ev) op (k : A → M B) : (∀ x, P (e x)) → (∀ a, grows (k a)) → asks P (call e op ≫= k).
Proof.
  intros He Hk s. unfold mbind, reaper_bind, call. destruct (op (world s)) as [w x]. exists (e x). split; [|done].
  destruct x as [a|]; [|apply elem_of_app; right; left]. destruct (Hk a (note (e (Returned a)) w s)) as [l E]. rewrite E.
  apply elem_of_app. left. apply elem_of_app. right. left.
Qed.

Lemma asks_look {A B} (P : Ev → Prop) (e : A → Ev) op (k : A → M B) : (∀ a, asks P (k a)) → asks P (look e op ≫= k).
Proof. intros Hk s. unfold mbind, reaper_bind, look. destruct (op (world s)) as [w a]. apply Hk. Qed.

(** A computation that cannot panic. *)
Definition unfailing {A} (m : M A) : Prop := grows m ∧ ∀ s, ∃ a, (m s).2 = Ret a.

Lemma unfailing_bind {A B} (m : M A) (k : A → M B) : unfailing m → (∀ a, unfailing (k a)) → unfailing (m ≫= k).
Proof.
  intros (Hg & Hr) Hk. split; [apply grows_bind; [done|apply Hk]|]. intros s. destruct (Hr s) as (a & E). unfold mbind, reaper_bind.
  destruct (m s) as [s1 o]. simpl in E. subst. apply Hk.
Qed.

Lemma asks_first {A B} P (m : M A) (k : A → M B) : asks P m → unfailing m → (∀ a, grows (k a)) → asks P (m ≫= k).
Proof.
  intros Ha (_ & Hr) Hk s. destruct (Hr s) as (a & E), (Ha s) as (e & He & HP). exists e. split; [|done]. unfold mbind, reaper_bind.
  destruct (m s) as [s1 o]. simpl in *. subst. destruct (Hk a s1) as [l ->]. apply elem_of_app. by left.
Qed.

Lemma asks_later {A B} P (m : M A) (k : A → M B) : unfailing m → (∀ a, asks P (k a)) → asks P (m ≫= k).
Proof. intros (_ & Hr) Hk s. destruct (Hr s) as (a & E). unfold mbind, reaper_bind. destruct (m s) as [s1 o]. simpl in *. subst. apply Hk. Qed.

Lemma unfailing_recovering d (m : M bool) : grows m → unfailing (recovering cfg d m).
Proof. intros Hg. split; intros s; [destruct (Hg s) as (l & E)|]; unfold recovering; destruct (m s) as [s1 [a|]]; simpl in *; eauto. Qed.

Lemma asks_recovering P d (m : M bool) : asks P m → asks P (recovering cfg d m).
Proof. intros Ha s. destruct (Ha s) as (e & He & HP). unfold recovering. destruct (m s) as [s1 [a|]]; simpl in *; eauto. Qed.

Lemma unfailing_reporting d (m : M bool) : unfailing m → unfailing (reporting cfg d m).
Proof. intros Hm. apply unfailing_bind; [done|]. intros [|]; (split; [grow|by eexists]). Qed.

Lemma asks_reporting P d (m : M bool) : asks P m → unfailing m → asks P (reporting cfg d m).
Proof. intros Ha Hm. apply asks_first; [done|done|]. intros ok. grow. Qed.

Ltac unfold_reapers := unfold orphanOne, agentOne, writeAgentLostMarker, liveWarmPodNames, dispatchCandidate, dispatchOne, podCandidate, podOne, warmOne, teardown.

Lemma orphan_unfailing : unfailing (orphanRun cfg).
Proof. apply unfailing_recovering. unfold_reapers. grow_all. Qed.

Lemma agent_unfailing : unfailing (agentRun cfg).
Proof. apply unfailing_recovering. unfold_reapers. grow_all. Qed.

Lemma dispatch_unfailing : unfailing (dispatchRun cfg).
Proof. apply unfailing_recovering. unfold_reapers. grow_all. Qed.

Lemma pod_unfailing : unfailing (podRun cfg).
Proof. apply unfailing_recovering. unfold_reapers. grow_all. Qed.

Lemma warm_unfailing : unfailing (warmRun cfg).
Proof. apply unfailing_recovering. unfold_reapers. grow_all. Qed.

#[local] Hint Resolve unfailing_reporting orphan_unfailing agent_unfailing dispatch_unfailing pod_unfailing warm_unfailing : reaper.

Lemma unfailing_grows {A} (m : M A) : unfailing m → grows m.
Proof. by intros []. Qed.

(** What the reapers ask for first. *)
Lemma orphan_asks : asks (λ e, ∃ x, e = EvListRuns x) (orphanRun cfg).
Proof. apply asks_recovering, asks_call; [by eexists|]. intros a. unfold_reapers. grow_all. Qed.

Lemma agent_asks : asks (λ e, ∃ x, e = EvListSilent x) (agentRun cfg).
Proof. apply asks_recovering, asks_look. intros now. apply asks_call; [by eexists|]. intros a. unfold_reapers. grow_all. Qed.

Lemma dispatch_asks : asks (λ e, ∃ x, e = EvListQueued x) (dispatchRun cfg).
Proof. apply asks_recovering, asks_call; [by eexists|]. intros a. unfold_reapers. grow_all. Qed.

Lemma pod_asks : hasPods cfg = true → asks (λ e, ∃ x, e = EvListRunning x) (podRun cfg).
Proof. intros E. unfold podRun. rewrite E. apply asks_recovering, asks_look. intros now. apply asks_call; [by eexists|]. intros a. unfold_reapers. grow_all. Qed.

Lemma warm_asks : hasWarm cfg = true → asks (λ e, ∃ x, e = EvListBound x) (warmRun cfg).
Proof. intros E. unfold warmRun. rewrite E. apply asks_recovering, asks_call; [by eexists|]. intros a. unfold_reapers. grow_all. Qed.

Ltac chain := repeat first [apply unfailing_reporting; solve [auto with reaper] | apply unfailing_bind; [|intros ?]].

(** The chain of the five: what one of them asks for is asked in the tick. *)
Lemma reapAll_unfailing : unfailing (reapAll cfg).
Proof. unfold reapAll. chain. Qed.

Ltac in_chain := unfold reapAll; repeat first
  [ apply asks_reporting; [assumption|solve [auto with reaper]] | apply asks_first; [apply asks_reporting; [assumption|solve [auto with reaper]]|chain|intros ?; apply unfailing_grows; chain]
  | apply asks_later; [chain|intros ?] ].

Lemma every_reaper_asks P : asks P (orphanRun cfg) ∨ asks P (agentRun cfg) ∨ asks P (dispatchRun cfg) ∨ asks P (podRun cfg) ∨ asks P (warmRun cfg) → asks P (reapAll cfg).
Proof. intros [H|[H|[H|[H|H]]]]; in_chain. Qed.

(** C9: No reaper keeps another from its work.  Whatever fails or panics on the way, the
    round of the five reapers comes to its end, and every reaper whose subsystem is wired has
    asked for its candidates. *)
Theorem every_reaper_runs s : let t := trace (reapAll cfg s).1 in
  (reapAll cfg s).2 = Ret tt ∧ (∃ x, EvListRuns x ∈ t) ∧ (∃ x, EvListSilent x ∈ t) ∧ (∃ x, EvListQueued x ∈ t) ∧
  (hasPods cfg = true → ∃ x, EvListRunning x ∈ t) ∧ (hasWarm cfg = true → ∃ x, EvListBound x ∈ t).
Proof.
  assert (∀ P, asks P (reapAll cfg) → ∃ e, e ∈ trace (reapAll cfg s).1 ∧ P e) as Ht by auto. cbn zeta. split_and!.
  - destruct reapAll_unfailing as [_ Hr]. by destruct (Hr s) as [[] ->].
  - destruct (Ht _ (every_reaper_asks _ (or_introl orphan_asks))) as (e & He & x & ->). by exists x.
  - destruct (Ht _ (every_reaper_asks _ (or_intror (or_introl agent_asks)))) as (e & He & x & ->). by exists x.
  - destruct (Ht _ (every_reaper_asks _ (or_intror (or_intror (or_introl dispatch_asks))))) as (e & He & x & ->). by exists x.
  - intros Hp. destruct (Ht _ (every_reaper_asks _ (or_intror (or_intror (or_intror (or_introl (pod_asks Hp))))))) as (e & He & x & ->). by exists x.
  - intros Hw. destruct (Ht _ (every_reaper_asks _ (or_intror (or_intror (or_intror (or_intror (warm_asks Hw))))))) as (e & He & x & ->). by exists x.
Qed.

End props.

(** ** A concrete host

    A pod of a task is gone, and an attempt waits at a warm worker that is alive. *)

Record Scene := { warmList : option (list WarmPodInfo); queuedList : list StaleQueuedCandidate; runningList : list PodLostCandidate }.

#[global] Instance scene_host : Host Scene := {|
  CtxErr w := (w, false); InStepDown w := (w, false); IsLeading w := (w, true);
  Now w := (w, 1000 * 10 ^ 9); LeaderSince w := (w, Some 0); InformerSynced w := (w, true); LastSweepCompleted w := (w, Some (500 * 10 ^ 9));
  ListReapCandidates w := (w, Returned None); ReapRun _ w := (w, Returned true); DeleteRunPods _ w := (w, Returned true);
  ListAgentLostCandidates w := (w, Panicked); MarkTaskAgentLost _ w := (w, Returned (Some true)); AppendEvent _ w := (w, Returned true);
  ListStaleQueuedCandidates w := (w, Returned (Some (queuedList w))); MarkTaskDispatchLost _ w := (w, Returned true);
  ListRunningTasks _ w := (w, Returned (Some (runningList w))); MarkTaskPodLost _ w := (w, Returned (Some true));
  ListWarmBoundRunningTIs w := (w, Returned (Some [])); ListWarmPods w := (w, Returned (warmList w));
  TaskPodPresence _ w := (w, Returned (Some PodPresenceAbsent)); CachedPodActive _ w := (w, Returned false); DeleteTaskPod _ w := (w, Returned true) |}.

Definition gone : PodLostCandidate := {| pTI := "ti"; pRun := "r"; pDag := "d"; pTask := "t"; pTry := 1; RunningSince := Some (900 * 10 ^ 9) |}.
Definition waiting : StaleQueuedCandidate := {| qTI := "tj"; qRun := "r"; qDag := "d"; qTask := "u"; qTry := 1; QueuedAt := Some (100 * 10 ^ 9); qWarm := "warm-1" |}.
Definition worker : WarmPodInfo := {| warmName := "warm-1"; warmTerminal := false |}.

Lemma reaps_are_justified_witness : let w := {| warmList := Some []; queuedList := []; runningList := [gone] |} in
  ∃ p q, trace (ReapOnce DefaultReaperConfig (startOf w)).1 = p ++ EvMarkPodLost "ti" (Returned (Some true)) :: q ∧
    cause DefaultReaperConfig p (EvMarkPodLost "ti" (Returned (Some true))) ∧ settled DefaultReaperConfig p.
Proof.
  cbn zeta. set (w := {| warmList := Some []; queuedList := []; runningList := [gone] |}).
  exists (take 20 (trace (ReapOnce DefaultReaperConfig (startOf w)).1)), (drop 21 (trace (ReapOnce DefaultReaperConfig (startOf w)).1)).
  assert (trace (ReapOnce DefaultReaperConfig (startOf w)).1 = take 20 (trace (ReapOnce DefaultReaperConfig (startOf w)).1) ++ EvMarkPodLost "ti" (Returned (Some true)) :: drop 21 (trace (ReapOnce DefaultReaperConfig (startOf w)).1)) as E by (vm_compute; reflexivity).
  split; [exact E|]. eapply (reaps_are_justified (HW := scene_host)); [exact E|reflexivity].
Defined.

Lemma every_reaper_runs_witness : let w := {| warmList := Some []; queuedList := []; runningList := [gone] |} in
  let t := trace (reapAll DefaultReaperConfig (startOf w)).1 in EvListSilent Panicked ∈ t ∧ ∃ x, EvListBound x ∈ t.
Proof.
  cbn zeta. split; [apply (list_elem_of_lookup_2 _ 2); by vm_compute|]. by apply (every_reaper_runs (HW := scene_host)).
Defined.

(** An attempt in the queue whose worker is alive is left alone when the workers can be
    listed, and failed when they cannot: the list that failed counts as an empty one, and
    the attempt has no pod of its own that would speak for it. *)
Lemma failed_list_reaps_live_worker :
  let w pods := {| warmList := pods; queuedList := [waiting]; runningList := [] |} in
  let t pods := trace (ReapOnce DefaultReaperConfig (startOf (w pods))).1 in
  existsb destructive (t (Some [worker])) = false ∧ EvMarkQueued "tj" (Returned true) ∈ t None.
Proof.
  cbn zeta. split; [by vm_compute|]. apply (list_elem_of_lookup_2 _ 18). by vm_compute.
Qed.
