(* ===== verification/SqlStore.v ===== *)
(** * The scheduler's store

    [internal/storage/scheduler_store.go] with the statements it runs
    ([internal/storage/queries/runs.sql]), on tables as lists of rows: the part of
    [SchedulerStore] behind the interface [Host] of Scheduler.v.  A statement maps the
    rows its [WHERE] selects.  Columns that only the UI or an executor reads are left
    out.

    Around the tables, a world gives what is not of the store: which of its calls fail,
    what the dispatcher and the alerter answer, and the identifiers the database makes. *)

From Stdlib Require Import ZArith Lia.
From stdpp Require Import base numbers strings gmap option list sorting.
From S2P Require Import Prelude TaskStates Dag RunCreation Planner Scheduler.

Open Scope Z_scope.

(** ** Tables *)

(** [task_instances] *)
Record TaskInstance := {
  ti_id : string;
  ti_run : string;
  ti_task : string;
  ti_state : TaskState;
  try_number : Z;
  max_tries : Z;
  scheduled_at : option Z;
  queued_at : option Z;
  started_at : option Z;
  ended_at : option Z;
  dispatch_attempts : Z;
  next_dispatch_at : option Z;
  reschedule_at : option Z;
  first_reschedule_at : option Z;
  last_failure_kind : option string;
  infra_attempts : Z;
}.

(** [dag_runs] *)
Record DagRun := {
  dr_id : string;
  dr_tenant : string;
  dr_dag : string;
  dr_version : string;
  dr_run_id : string;
  dr_logical : Z;
  dr_state : DagRunState;
  dr_queued_at : Z;
  dr_started_at : option Z;
  dr_ended_at : option Z;
  alerted_at : option Z;
  alert_attempts : Z;
  next_alert_attempt_at : option Z;
}.

(** [dags], with the name of the tenant that owns the row *)
Record DagRow := {
  d_tenant : string;
  d_dag : string;
  d_schedule : option (list Z);
  d_catchup : bool;
  d_start : option Z;
  d_max_active_runs : Z;
  is_active : bool;
  is_paused : bool;
  current_version : option string;
}.

(** The decoded specification of a version. *)
Record DAGSpec := {
  spec_dag : string;
  spec_tasks : list TaskSpec;
  default_retries : option Z;
  spec_alerts : option (list string);
  spec_max_active_tasks : Z;
}.

(** A row of [pools], with its key. *)
Record DB := {
  task_instances : list TaskInstance;
  history : list TaskInstance;
  dag_runs : list DagRun;
  dags : list DagRow;
  versions : gmap string DAGSpec;
  pools : list (string * string * Z);
  nextID : nat;
}.

Definition setTasks (l h : list TaskInstance) (d : DB) : DB :=
  {| task_instances := l; history := h; dag_runs := dag_runs d; dags := dags d; versions := versions d; pools := pools d;
     nextID := nextID d |}.
Definition setRuns (l : list DagRun) (d : DB) : DB :=
  {| task_instances := task_instances d; history := history d; dag_runs := l; dags := dags d; versions := versions d;
     pools := pools d; nextID := nextID d |}.
Definition setID (n : nat) (d : DB) : DB :=
  {| task_instances := task_instances d; history := history d; dag_runs := dag_runs d; dags := dags d;
     versions := versions d; pools := pools d; nextID := n |}.

(** [UPDATE … SET f WHERE p] *)
Definition update {A} (p : A → bool) (f : A → A) (l : list A) : list A := map (λ x, if p x then f x else x) l.
Definition select {A} (p : A → bool) (l : list A) : list A := filter (λ x, p x = true) l.

(** ** Statements on task instances *)

Definition ofTask (run task : string) (t : TaskInstance) : bool :=
  bool_decide (ti_run t = run) && bool_decide (ti_task t = task).

Definition inState (s : TaskState) (t : TaskInstance) : bool := bool_decide (ti_state t = s).

(** [CASE WHEN $state = s AND column IS NULL THEN now() ELSE column END] *)
Definition stampOn (s to : TaskState) (now : Z) (column : option Z) : option Z :=
  match column with None => if bool_decide (to = s) then Some now else None | c => c end.

Definition stamped (now : Z) (to : TaskState) (t : TaskInstance) : TaskInstance :=
  {| ti_id := ti_id t; ti_run := ti_run t; ti_task := ti_task t; ti_state := to; try_number := try_number t;
     max_tries := max_tries t;
     scheduled_at := stampOn TaskStateScheduled to now (scheduled_at t);
     queued_at := stampOn TaskStateQueued to now (queued_at t);
     started_at := stampOn TaskStateRunning to now (started_at t);
     ended_at := ended_at t; dispatch_attempts := dispatch_attempts t; next_dispatch_at := next_dispatch_at t;
     reschedule_at := reschedule_at t; first_reschedule_at := first_reschedule_at t;
     last_failure_kind := last_failure_kind t; infra_attempts := infra_attempts t |}.

Definition UpdateTaskInstanceStateByRunTask (now : Z) (run task : string) (to : TaskState) (l : list TaskInstance) : list TaskInstance :=
  update (ofTask run task) (stamped now to) l.

Definition UpdateTaskInstanceStatesByRunTasks (now : Z) (run : string) (tasks : list string) (to : TaskState) (l : list TaskInstance) :
    list TaskInstance :=
  update (λ t, bool_decide (ti_run t = run) && bool_decide (ti_task t ∈ tasks)) (stamped now to) l.

(** The columns all resets to [none] clear. *)
Definition cleared (try infra attempts : Z) (next first : option Z) (t : TaskInstance) : TaskInstance :=
  {| ti_id := ti_id t; ti_run := ti_run t; ti_task := ti_task t; ti_state := TaskStateNone; try_number := try;
     max_tries := max_tries t; scheduled_at := None; queued_at := None; started_at := None; ended_at := None;
     dispatch_attempts := attempts; next_dispatch_at := next; reschedule_at := None; first_reschedule_at := first;
     last_failure_kind := None; infra_attempts := infra |}.

Definition forRetry (t : TaskInstance) : TaskInstance := cleared (try_number t + 1) (infra_attempts t) 0 None None t.
Definition forInfra (t : TaskInstance) : TaskInstance := cleared (try_number t) (infra_attempts t + 1) 0 None None t.
Definition forReschedule (t : TaskInstance) : TaskInstance :=
  cleared (try_number t) (infra_attempts t) (dispatch_attempts t) (next_dispatch_at t) (first_reschedule_at t) t.

(** [ON CONFLICT (task_instance_id, try_number) DO NOTHING] *)
Definition archive1 (h : list TaskInstance) (t : TaskInstance) : list TaskInstance :=
  if existsb (λ x, bool_decide (ti_id x = ti_id t) && bool_decide (try_number x = try_number t)) h then h else h ++ [t].

Definition archive (rows h : list TaskInstance) : list TaskInstance := foldl archive1 h rows.

(** A reset that archives the rows it changes; the number of rows. *)
Definition resetArchived (p : TaskInstance → bool) (f : TaskInstance → TaskInstance) (d : DB) : DB * Z :=
  (setTasks (update p f (task_instances d)) (archive (select p (task_instances d)) (history d)) d,
   Z.of_nat (length (select p (task_instances d)))).

Definition ResetTaskInstanceForRetry (run task : string) : DB → DB * Z :=
  resetArchived (λ t, ofTask run task t && inState TaskStateUpForRetry t) forRetry.

Definition ResetTaskInstanceInfraReplace (run task : string) : DB → DB * Z :=
  resetArchived
    (λ t, ofTask run task t && inState TaskStateFailed t && bool_decide (last_failure_kind t = Some "infra")) forInfra.

Definition RedispatchRescheduledTaskInstance (run task : string) (l : list TaskInstance) : list TaskInstance :=
  update (λ t, ofTask run task t && inState TaskStateUpForReschedule t) forReschedule l.

Definition dispatching (st : TaskState) (ended : option Z) (attempts : Z) (next : option Z) (t : TaskInstance) : TaskInstance :=
  {| ti_id := ti_id t; ti_run := ti_run t; ti_task := ti_task t; ti_state := st; try_number := try_number t;
     max_tries := max_tries t; scheduled_at := scheduled_at t; queued_at := queued_at t; started_at := started_at t;
     ended_at := ended; dispatch_attempts := attempts; next_dispatch_at := next; reschedule_at := reschedule_at t;
     first_reschedule_at := first_reschedule_at t; last_failure_kind := last_failure_kind t;
     infra_attempts := infra_attempts t |}.

Definition dispatchFailed (next : Z) (t : TaskInstance) : TaskInstance :=
  dispatching (ti_state t) (ended_at t) (dispatch_attempts t + 1) (Some next) t.
Definition dispatchDelayed (next : Z) (t : TaskInstance) : TaskInstance :=
  dispatching (ti_state t) (ended_at t) (dispatch_attempts t) (Some next) t.
Definition dispatchExhausted (now : Z) (t : TaskInstance) : TaskInstance :=
  dispatching TaskStateFailed (Some now) (dispatch_attempts t) None t.

(** The three statements on a task the dispatcher refused, guarded to [scheduled]. *)
Definition onScheduled (f : TaskInstance → TaskInstance) (run task : string) (l : list TaskInstance) : list TaskInstance :=
  update (λ t, ofTask run task t && inState TaskStateScheduled t) f l.

(** ** Statements on runs *)

Definition ofRun (run : string) (r : DagRun) : bool := bool_decide (dr_id r = run).

Definition stampedRun (now : Z) (st : DagRunState) (r : DagRun) : DagRun :=
  {| dr_id := dr_id r; dr_tenant := dr_tenant r; dr_dag := dr_dag r; dr_version := dr_version r; dr_run_id := dr_run_id r;
     dr_logical := dr_logical r; dr_state := st; dr_queued_at := dr_queued_at r;
     dr_started_at := match dr_started_at r with
                      | None => if bool_decide (st = DagRunStateRunning) then Some now else None
                      | c => c
                      end;
     dr_ended_at := if DagRunIsTerminal st then Some now else dr_ended_at r;
     alerted_at := alerted_at r; alert_attempts := alert_attempts r; next_alert_attempt_at := next_alert_attempt_at r |}.

Definition withAlert (at_ : option Z) (n : Z) (next : option Z) (r : DagRun) : DagRun :=
  {| dr_id := dr_id r; dr_tenant := dr_tenant r; dr_dag := dr_dag r; dr_version := dr_version r; dr_run_id := dr_run_id r;
     dr_logical := dr_logical r; dr_state := dr_state r; dr_queued_at := dr_queued_at r; dr_started_at := dr_started_at r;
     dr_ended_at := dr_ended_at r; alerted_at := at_; alert_attempts := n; next_alert_attempt_at := next |}.

Definition StampDagRunState (now : Z) (run : string) (st : DagRunState) (l : list DagRun) : list DagRun :=
  update (ofRun run) (stampedRun now st) l.

Definition claimable (now : Z) (run : string) (max : Z) (r : DagRun) : bool :=
  ofRun run r && bool_decide (alerted_at r = None) && (alert_attempts r <? max)
  && match next_alert_attempt_at r with None => true | Some t => t <=? now end.

Definition claimed (now backoff : Z) (r : DagRun) : DagRun :=
  withAlert (alerted_at r) (alert_attempts r + 1) (Some (now + backoff)) r.

(** The rows and the attempt of the row changed; no row gives 0. *)
Definition ClaimAttempt (now : Z) (run : string) (max backoff : Z) (l : list DagRun) : list DagRun * Z :=
  (update (claimable now run max) (claimed now backoff) l,
   match select (claimable now run max) l with [] => 0 | r :: _ => alert_attempts r + 1 end).

Definition MarkDelivered (now : Z) (run : string) (attempt : Z) (l : list DagRun) : list DagRun :=
  update (λ r, ofRun run r && (alert_attempts r =? attempt)) (λ r, withAlert (Some now) (alert_attempts r) None r) l.

(** [ReopenDagRunKeepingVersion], which a clear of the user interface runs *)
Definition ReopenDagRunKeepingVersion (run : string) (l : list DagRun) : list DagRun :=
  update (ofRun run)
    (λ r, {| dr_id := dr_id r; dr_tenant := dr_tenant r; dr_dag := dr_dag r; dr_version := dr_version r;
             dr_run_id := dr_run_id r; dr_logical := dr_logical r; dr_state := DagRunStateQueued;
             dr_queued_at := dr_queued_at r; dr_started_at := None; dr_ended_at := None; alerted_at := None;
             alert_attempts := 0; next_alert_attempt_at := None |}) l.

Definition queuedBefore (a b : DagRun) : Prop := dr_queued_at a <= dr_queued_at b.

#[global] Instance queuedBefore_dec : RelDecision queuedBefore.
Proof. intros a b. unfold queuedBefore. apply _. Defined.

Definition isActiveRun (r : DagRun) : bool :=
  bool_decide (dr_state r = DagRunStateQueued) || bool_decide (dr_state r = DagRunStateRunning).

Definition ListActiveDagRuns (l : list DagRun) : list DagRun := merge_sort queuedBefore (select isActiveRun l).

(** ** The store *)

(** [taskInstanceMaps]: one map per column, of the rows that set it. *)
Definition column {A} (f : TaskInstance → option A) (l : list TaskInstance) : gmap string A :=
  foldl (λ m t, match f t with Some x => <[ti_task t := x]> m | None => m end) ∅ l.

Definition positive (n : Z) : option Z := if 0 <? n then Some n else None.

Definition infraFailed (t : TaskInstance) : option bool :=
  if bool_decide (last_failure_kind t = Some "infra") && inState TaskStateFailed t then Some true else None.

(** [applyDefaultRetries] *)
Definition withDefaultRetries (default : option Z) (t : TaskSpec) : TaskSpec :=
  match default, Retries t with
  | Some r, None =>
    {| TaskID := TaskID t; DependsOn := DependsOn t; Rule := Rule t; Pool := Pool t; Retries := Some r;
       SpecRetryDelay := SpecRetryDelay t |}
  | _, _ => t
  end.

(** The specification a run loads; a version is never missing (a foreign key). *)
Definition noSpec : DAGSpec :=
  {| spec_dag := ""; spec_tasks := []; default_retries := None; spec_alerts := None; spec_max_active_tasks := 0 |}.

Definition loadTasks (sp : DAGSpec) : list TaskSpec := map (withDefaultRetries (default_retries sp)) (spec_tasks sp).

Definition retryDelays (l : list TaskSpec) : gmap string Z :=
  foldl (λ m t, match SpecRetryDelay t with Some n => <[TaskID t := n]> m | None => m end) ∅ l.

Definition tasksOf (d : DB) (run : string) : list TaskInstance := select (λ t, bool_decide (ti_run t = run)) (task_instances d).

(** The body of the loop of [ActiveRuns]; the budgets are filled in by the tick. *)
Definition loadRun (now : Z) (d : DB) (r : DagRun) : Run :=
  let sp := default noSpec (versions d !! dr_version r) in
  let tis := tasksOf d (dr_id r) in
  {| plan :=
       {| RunID := dr_id r; DagID := spec_dag sp; TenantID := dr_tenant r; Tasks := loadTasks sp;
          States := column (λ t, Some (ti_state t)) tis;
          Tries := column (λ t, Some (try_number t)) tis;
          MaxTries := column (λ t, Some (max_tries t)) tis;
          EndedAt := column ended_at tis;
          RetryDelaySeconds := retryDelays (loadTasks sp);
          RescheduleAt := column reschedule_at tis;
          NextDispatchAt := column next_dispatch_at tis;
          DispatchAttempts := column (λ t, positive (dispatch_attempts t)) tis;
          InfraFailed := column infraFailed tis;
          InfraAttempts := column (λ t, positive (infra_attempts t)) tis;
          Now := now; MaxActiveTasks := spec_max_active_tasks sp; ActiveTaskCount := 0; PoolsEnabled := false;
          PoolBudgets := ∅; PoolActive := ∅ |};
     State := dr_state r; DagVersionID := dr_version r; Alerts := spec_alerts sp |}.

Definition loadActiveRuns (now : Z) (d : DB) : list Run := map (loadRun now d) (ListActiveDagRuns (dag_runs d)).

(** [ListScheduledDags] and [ScheduledDAGs]; the latest logical date is over the runs of
    the DAG's row. *)
Definition ofDag (g : DagRow) (r : DagRun) : bool := bool_decide (dr_tenant r = d_tenant g) && bool_decide (dr_dag r = d_dag g).

Definition lastLogical (d : DB) (g : DagRow) : option Z :=
  foldl (λ m r, Some (match m with None => dr_logical r | Some x => Z.max x (dr_logical r) end)) None (select (ofDag g) (dag_runs d)).

Definition isScheduled (g : DagRow) : bool :=
  is_active g && negb (is_paused g) && bool_decide (is_Some (d_schedule g)) && bool_decide (is_Some (current_version g)).

Definition loadScheduled (d : DB) : list ScheduledDAG :=
  map (λ g, {| RunCreation.DagID := d_dag g; Schedule := default [] (d_schedule g); LastLogical := lastLogical d g;
               StartDate := d_start g; SdCatchup := d_catchup g; MaxActiveRuns := d_max_active_runs g |})
    (select isScheduled (dags d)).

(** [CreateScheduledRun]: the rows of [dags] of the tenant ["default"] with a version; a
    run of the DAG with the same name is kept. *)
Section creation.
Context (uuid : nat → string) (runName : Z → string).

Definition newRun (now logical : Z) (d : DB) (g : DagRow) (v : string) : DagRun :=
  {| dr_id := uuid (nextID d); dr_tenant := d_tenant g; dr_dag := d_dag g; dr_version := v; dr_run_id := runName logical;
     dr_logical := logical; dr_state := DagRunStateQueued; dr_queued_at := now; dr_started_at := None; dr_ended_at := None;
     alerted_at := None; alert_attempts := 0; next_alert_attempt_at := None |}.

Definition createRun (now logical : Z) (d : DB) (g : DagRow) : DB :=
  match current_version g with
  | None => d
  | Some v =>
    if existsb (λ r, ofDag g r && bool_decide (dr_run_id r = runName logical)) (dag_runs d) then d
    else setID (S (nextID d)) (setRuns (dag_runs d ++ [newRun now logical d g v]) d)
  end.

Definition createScheduled (now : Z) (dag : string) (logical : Z) (d : DB) : DB :=
  foldl (createRun now logical) d
    (select (λ g, bool_decide (d_tenant g = "default") && bool_decide (d_dag g = dag)) (dags d)).

(** [MaterializeTasks] *)
Definition toInt32 (n : Z) : Z := if n <? 0 then 0 else if 2147483647 <? n then 2147483647 else n.

Definition maxTriesOf (t : TaskSpec) : Z := match Retries t with None => 1 | Some r => toInt32 (r + 1) end.

Definition newTask (run : string) (d : DB) (t : TaskSpec) : TaskInstance :=
  {| ti_id := uuid (nextID d); ti_run := run; ti_task := TaskID t; ti_state := TaskStateNone; try_number := 1;
     max_tries := maxTriesOf t; scheduled_at := None; queued_at := None; started_at := None; ended_at := None;
     dispatch_attempts := 0; next_dispatch_at := None; reschedule_at := None; first_reschedule_at := None;
     last_failure_kind := None; infra_attempts := 0 |}.

Definition materialize1 (run : string) (d : DB) (t : TaskSpec) : DB :=
  setID (S (nextID d)) (setTasks (task_instances d ++ [newTask run d t]) (history d) d).

(** Loading a run that is not there is an error, and so is a task instance that is (a
    unique constraint); the rows go in together. *)
Definition materialize (run : string) (tasks : list TaskSpec) (d : DB) : option DB :=
  match tasks with
  | [] => Some d
  | _ =>
    if negb (existsb (ofRun run) (dag_runs d)) then None
    else if existsb (λ t, existsb (λ x, ofTask run (TaskID t) x && (try_number x =? 1)) (task_instances d)) tasks
            || negb (bool_decide (NoDup (map TaskID tasks))) then None
    else Some (foldl (materialize1 run) d tasks)
  end.

End creation.

(** ** The world of the scheduler *)

Record World := {
  db : DB;
  time : Z;
  (** which of the next calls of the store fail, then none *)
  faults : list bool;
  (** what the dispatcher answers, then [Launched] *)
  answers : list dispatchAnswer;
  (** whether the next alerts are delivered, then none is *)
  sends : list bool;
  (** which alerts under way have ended, at each look *)
  ends : list (list bool);
}.

Section world.
Context (uuid : nat → string) (runName : Z → string).

Definition withDB (d : DB) (w : World) : World :=
  {| db := d; time := time w; faults := tail (faults w); answers := answers w; sends := sends w; ends := ends w |}.

(** A call of the store: a fault changes nothing. *)
Definition query {A} (f : DB → DB * option A) (w : World) : World * returns (option A) :=
  if default false (head (faults w)) then (withDB (db w) w, Returned None)
  else let '(d, a) := f (db w) in (withDB d w, Returned a).

Definition onTasks (f : list TaskInstance → list TaskInstance) (w : World) : World * returns (option unit) :=
  query (λ d, (setTasks (f (task_instances d)) (history d) d, Some tt)) w.

Definition onRuns (f : list DagRun → list DagRun) (w : World) : World * returns (option unit) :=
  query (λ d, (setRuns (f (dag_runs d)) d, Some tt)) w.

Definition oneRow (x : DB * Z) : DB * option bool := (x.1, Some (x.2 =? 1)).

#[export] Instance SqlHost : Host World := {|
  ActiveRuns w := query (λ d, (d, Some (loadActiveRuns (time w) d))) w;
  LoadPoolBudgets := query (λ d, (d, Some (foldl (λ m '(t, n, k), <[PoolKey t n := k]> m) ∅ (pools d))));
  MaterializeTasks run tasks :=
    query (λ d, match materialize uuid run tasks d with Some d' => (d', Some tt) | None => (d, None) end);
  SetRunState run st w := onRuns (StampDagRunState (time w) run st) w;
  ApplyTransition run task to w := onTasks (UpdateTaskInstanceStateByRunTask (time w) run task to) w;
  ApplyTransitions run tasks to w :=
    match tasks with
    | [] => (w, Returned (Some tt))
    | _ => onTasks (UpdateTaskInstanceStatesByRunTasks (time w) run tasks to) w
    end;
  ResetForRetry run task := query (λ d, oneRow (ResetTaskInstanceForRetry run task d));
  ResetForInfraReplace run task := query (λ d, oneRow (ResetTaskInstanceInfraReplace run task d));
  RedispatchReschedule run task := onTasks (RedispatchRescheduledTaskInstance run task);
  RecordDispatchFailure run task next := onTasks (onScheduled (dispatchFailed next) run task);
  RecordDispatchBackpressure run task next := onTasks (onScheduled (dispatchDelayed next) run task);
  FailDispatchExhausted run task w := onTasks (onScheduled (dispatchExhausted (time w)) run task) w;
  SetTaskNote run task := onTasks (λ l, l);
  ClaimAlertAttempt run max backoff w :=
    query (λ d, let '(l, n) := ClaimAttempt (time w) run max backoff (dag_runs d) in (setRuns l d, Some n)) w;
  MarkRunAlertDelivered run attempt w :=
    match onRuns (MarkDelivered (time w) run attempt) w with (w, Returned x) => (w, x) | (w, Panicked) => (w, None) end;
  ScheduledDAGs := query (λ d, (d, Some (loadScheduled d)));
  CreateScheduledRun w dag logical :=
    match query (λ d, (createScheduled uuid runName (time w) dag logical d, Some tt)) w with
    | (w, Returned (Some _)) => (w, true)
    | (w, _) => (w, false)
    end;
  Dispatch _ _ _ _ w :=
    ({| db := db w; time := time w; faults := faults w; answers := tail (answers w); sends := sends w; ends := ends w |},
     Returned (default Launched (head (answers w))));
  AlertRunFailed _ w :=
    ({| db := db w; time := time w; faults := faults w; answers := answers w; sends := tail (sends w); ends := ends w |},
     default false (head (sends w)));
  TimeNow w := (w, time w);
  Ended w :=
    ({| db := db w; time := time w; faults := faults w; answers := answers w; sends := sends w; ends := tail (ends w) |},
     default [] (head (ends w)));
|}.

End world.

(** ** Sample tables *)

Module Sample.

Definition task (id : string) (deps : list string) : TaskSpec :=
  {| TaskID := id; DependsOn := deps; Rule := TriggerRuleAllSuccess; Pool := ""; Retries := None; SpecRetryDelay := None |}.

Definition spec : DAGSpec :=
  {| spec_dag := "etl"; spec_tasks := [task "extract" []; task "load" ["extract"]; task "report" []]; default_retries := None;
     spec_alerts := Some ["slack"]; spec_max_active_tasks := 16 |}.

Definition run (id : string) (st : DagRunState) : DagRun :=
  {| dr_id := id; dr_tenant := "default"; dr_dag := "etl"; dr_version := "v1"; dr_run_id := id; dr_logical := 0;
     dr_state := st; dr_queued_at := 0; dr_started_at := None; dr_ended_at := None; alerted_at := None; alert_attempts := 0;
     next_alert_attempt_at := None |}.

Definition instance (id task : string) (st : TaskState) : TaskInstance :=
  {| ti_id := task; ti_run := id; ti_task := task; ti_state := st; try_number := 1; max_tries := 1; scheduled_at := None;
     queued_at := None; started_at := None; ended_at := None; dispatch_attempts := 0; next_dispatch_at := None;
     reschedule_at := None; first_reschedule_at := None; last_failure_kind := None; infra_attempts := 0 |}.

Definition tables (runs : list DagRun) (tis : list TaskInstance) (ds : list DagRow) : DB :=
  {| task_instances := tis; history := []; dag_runs := runs; dags := ds; versions := {[ "v1" := spec ]}; pools := []; nextID := 0 |}.

Definition world (t : Z) (d : DB) : World :=
  {| db := d; time := t; faults := []; answers := []; sends := []; ends := [] |}.

Definition config : Config :=
  {| hasRecorder := true; hasDispatcher := true; hasAlerter := true; poolsEnabled := false;
     alertSem := defaultAlertConcurrency; interval := Second |}.

(** Identifiers and names, in unary. *)
Fixpoint uuid (n : nat) : string := match n with O => "id" | S n => "i" +:+ uuid n end.
Definition runName (t : Z) : string := uuid (Z.to_nat t).

#[local] Instance sampleHost : Host World := SqlHost uuid runName.

Definition leader (w : World) : Sys World := (SetLeading true (newSys w)).1.

(** A tick at a time; no schedule is a cron expression, and the alerts under way end. *)
Definition at_ (t : Z) (s : Sys World) : Sys World :=
  setWorld {| db := db (Scheduler.world s); time := t; faults := []; answers := []; sends := []; ends := [] |} [] s.

Definition tickAt (t : Z) (s : Sys World) : Sys World := (tick config (λ _, None) 10 (at_ t s)).1.

Definition endAlerts (s : Sys World) : Sys World :=
  let w := Scheduler.world s in
  (settle (setWorld {| db := db w; time := time w; faults := faults w; answers := answers w; sends := sends w; ends := [[true]] |} [] s)).1.

End Sample.
