(* ===== verification/SqlStoreProps.v ===== *)
(** * Properties of the scheduler on its store

    The scheduler of Scheduler.v on the tables of SqlStore.v, with whatever else changes
    them between its steps: a batch of transitions leaves the rows that one transition at
    a time leaves; an alert whose sending failed is not tried again, since a failed run is
    no longer listed; a run that is reopened is never set to running; and a scheduled DAG
    of another tenant gets no run. *)

From Stdlib Require Import ZArith Lia.
From stdpp Require Import base numbers strings gmap option list sorting.
From S2P Require Import Prelude TaskStates Dag RunCreation Planner PlannerLemmas PlannerProps Scheduler SchedulerProps SchedulerWalk SqlStore.

Open Scope Z_scope.

Section store.
Context (uuid : nat → string) (runName : Z → string).
Context (cfg : Config) (parse : list Z → option (Z → Z)) (fuel : nat).

#[local] Existing Instance SqlHost.
#[local] Instance host : Host World := SqlHost uuid runName.

(** ** What happens to the tables *)

(** Others let time pass, report on task instances and register DAGs: no run or task
    instance comes or goes. *)
Definition othersMay (w w' : World) : Prop :=
  dag_runs (db w') = dag_runs (db w) ∧ nextID (db w') = nextID (db w) ∧
  map ti_run (task_instances (db w')) = map ti_run (task_instances (db w)).

Inductive dbStep : Sys World → Sys World → Prop :=
  | db_scheduler s s' : sysStep cfg parse fuel s s' → dbStep s s'
  | db_others s w : othersMay (world s) w → dbStep s (setWorld w [] s).

(** ** Invariants of the tables *)

Lemma update_map {A B} (g : A → B) p (f : A → A) l : (∀ x, p x = true → g (f x) = g x) → map g (update p f l) = map g l.
Proof.
  intros H. unfold update. rewrite map_map. apply map_ext. intros x. destruct (p x) eqn:E; [by apply H|done].
Qed.

(** What an alert does not change of a run. *)
Definition runKey (r : DagRun) : string * DagRunState := (dr_id r, dr_state r).

Class TableInvariant (K : DB → Prop) (F : Run → Prop) (B : Call → bool) : Prop := {
  k_same : ∀ d d', dag_runs d' = dag_runs d → nextID d' = nextID d →
    map ti_run (task_instances d') = map ti_run (task_instances d) → K d → K d';
  k_alerts : ∀ d l, map runKey l = map runKey (dag_runs d) → K d → K (setRuns l d);
  k_task : ∀ r d t, F r → K d → K (materialize1 uuid (RunID (plan r)) d t);
  k_start : ∀ r d now, F r → starting r = true → K d → K (setRuns (StampDagRunState now (RunID (plan r)) DagRunStateRunning (dag_runs d)) d);
  k_final : ∀ r d now st, F r → FinalizeRun (plan r) = Some st → K d →
    K (setRuns (StampDagRunState now (RunID (plan r)) st (dag_runs d)) d);
  k_create : ∀ now logical d g, K d → K (createRun uuid runName now logical d g);
  k_read : ∀ now d, K d → Forall F (loadActiveRuns now d);
  k_calls : ∀ r A c (f : World → World * returns A), F r → opOf r A c f → B c = false;
  k_others : B CActiveRuns = false ∧ B CPoolBudgets = false ∧ B CScheduledDAGs = false ∧ ∀ l, B (CCreateRuns l) = false;
  k_budgets : ∀ r a e b o, F r → F (withBudgets a e b o r);
}.

Section invariant.
Context (K : DB → Prop) (F : Run → Prop) (B : Call → bool) `{HK : !TableInvariant K F B}.

(** The tables are good and the counted calls are as many as they were. *)
Definition holdsTables (n : Z) (s : Sys World) : Prop := K (db (world s)) ∧ countb (λ x, B x.1) (calls s) = n.

Lemma query_keeps {A} (f : DB → DB * option A) w : K (db w) → (∀ d, K d → K (f d).1) → K (db (query f w).1).
Proof.
  intros Hw Hf. unfold query. case_match; [done|]. specialize (Hf (db w) Hw). by destruct (f (db w)).
Qed.

Lemma onTasks_keeps f w : K (db w) → (∀ l, map ti_run (f l) = map ti_run l) → K (db (onTasks f w).1).
Proof. intros Hw Hf. apply query_keeps; [done|]. intros d Hd. eapply k_same; [..|exact Hd]; [done..|apply Hf]. Qed.

Lemma onRuns_keeps f w : K (db w) → (∀ d, K d → K (setRuns (f (dag_runs d)) d)) → K (db (onRuns f w).1).
Proof. intros Hw Hf. by apply query_keeps. Qed.

Lemma resetArchived_keeps p f d : (∀ t, ti_run (f t) = ti_run t) → K d → K (resetArchived p f d).1.
Proof. intros Hf Hd. eapply k_same; [..|exact Hd]; [done..|]. by apply update_map. Qed.

Lemma materialize_keeps r d : F r → K d → K (default d (materialize uuid (RunID (plan r)) (Tasks (plan r)) d)).
Proof.
  intros Hr Hd. assert (∀ ts d, K d → K (foldl (materialize1 uuid (RunID (plan r))) d ts)) as Hf.
  { intros ts. induction ts as [|x ts IH]; intros d' Hd'; simpl; [done|]. apply IH. by apply (k_task r). }
  unfold materialize. repeat case_match; try done. by apply (Hf (_ :: _)).
Qed.

(** Every call made for a run keeps the tables good. *)
Lemma op_keeps r A c (f : World → World * returns A) w : F r → opOf r A c f → K (db w) → K (db (f w).1).
Proof.
  intros Hr Ho Hw. destruct Ho; simpl.
  - apply query_keeps; [done|]. intros d Hd. pose proof (materialize_keeps r d Hr Hd) as Hm.
    by destruct (materialize _ _ _ d).
  - apply onRuns_keeps; [done|]. intros d Hd. by eapply k_start.
  - apply onRuns_keeps; [done|]. intros d Hd. by eapply k_final.
  - apply onTasks_keeps; [done|]. intros l. by apply update_map.
  - case_match; [done|]. apply onTasks_keeps; [done|]. intros l'. by apply update_map.
  - apply query_keeps; [done|]. intros d Hd. by apply resetArchived_keeps.
  - apply query_keeps; [done|]. intros d Hd. by apply resetArchived_keeps.
  - apply onTasks_keeps; [done|]. intros l. by apply update_map.
  - apply onTasks_keeps; [done|]. intros l. by apply update_map.
  - apply onTasks_keeps; [done|]. intros l. by apply update_map.
  - apply onTasks_keeps; [done|]. intros l. by apply update_map.
  - by apply onTasks_keeps.
  - apply query_keeps; [done|]. intros d Hd. simpl. apply k_alerts; [|done]. by apply update_map.
  - done.
  - done.
  - pose proof (onRuns_keeps (MarkDelivered (time w) (RunID (plan r')) n) w Hw) as H.
    destruct (onRuns _ w) as [w' [x|]]; simpl in *; apply H; intros d Hd; (apply k_alerts; [by apply update_map|done]).
Qed.

Lemma query_read {A} (f : DB → option A) (w : World) : db (query (λ d, (d, f d)) w).1 = db w.
Proof. unfold query. by case_match. Qed.

Lemma ask_holds {A} n c (ok : A → bool) f s :
  B c = false → K (db (f (world s)).1) → holdsTables n s → holdsTables n (ask c ok f s).1.
Proof.
  intros Hc Hk [_ Hn]. unfold ask. destruct (f (world s)) as [w [a|]]; (split; [done|]); simpl; rewrite countb_app, Hn; simpl; rewrite Hc; lia.
Qed.

Lemma createScheduled_keeps now dag logical d : K d → K (createScheduled uuid runName now dag logical d).
Proof.
  unfold createScheduled. generalize (select (λ g, bool_decide (d_tenant g = "default") && bool_decide (d_dag g = dag)) (dags d)).
  intros gs. revert d. induction gs as [|g gs IH]; intros d Hd; simpl; [done|]. apply IH. by apply k_create.
Qed.

#[export] Instance table_invariant n : Invariant parse fuel (holdsTables n) F.
Proof.
  destruct (k_others (TableInvariant := HK)) as (B1 & B2 & B3 & B4). split.
  - intros r A c ok f s Hr Ho Hs. apply ask_holds; [by eapply k_calls| |done]. eapply op_keeps; [done..|apply Hs].
  - intros s s' Hc Hw [Hk Hn]. unfold holdsTables. by rewrite Hc, Hw.
  - intros s [Hk Hn]. split; [done|]. simpl. by rewrite app_nil_r.
  - intros s [Hk Hn]. split; [done|]. simpl. by rewrite app_nil_r.
  - intros s Hs. split; [apply ask_holds; [done| |done]; simpl; rewrite query_read; apply Hs|].
    intros runs. unfold try, ask. simpl. unfold query. destruct (default false _); simpl; [done|]. intros [= <-]. apply k_read, Hs.
  - intros s Hs. apply ask_holds; [done| |done]. simpl. rewrite query_read. apply Hs.
  - intros s Hs. apply ask_holds; [done| |done]. simpl. rewrite query_read. apply Hs.
  - intros active now dags s t [Hk Hn] Ht. split; [|simpl; rewrite countb_app, Hn; simpl; rewrite B4; lia]. simpl.
    revert Ht. apply createDueRuns_keeps with (J := λ w, K (db w)); [|done]. intros w d l Hw. simpl.
    pose proof (query_keeps (λ d0, (createScheduled uuid runName (time w) d l d0, Some tt)) w Hw) as H.
    destruct (query _ w) as [w' [[x|]|]]; simpl in *; apply H; intros d' Hd'; by apply createScheduled_keeps.
  - intros. by apply k_budgets.
Qed.

(** What keeps the tables good keeps them so along everything that happens. *)
Lemma dbStep_holds r n s s' : F r → dbStep s s' → holdsTables n s → holdsTables n s'.
Proof.
  intros Hr Hstep Hs. destruct Hstep as [s s' Hs'|s w (H1 & H2 & H3)].
  - eapply (stays_sysStep cfg parse fuel (holdsTables n) F r); done.
  - destruct Hs as [Hk Hn]. split; [by eapply k_same|]. simpl. by rewrite app_nil_r.
Qed.

Lemma dbSteps_count r s s' : F r → rtc dbStep s s' → K (db (world s)) →
  countb (λ x, B x.1) (calls s') = countb (λ x, B x.1) (calls s).
Proof.
  intros Hr Hrtc Hk. assert (holdsTables (countb (λ x, B x.1) (calls s)) s') as [_ H]; [|done].
  revert Hrtc. apply rtc_ind_r with (P := λ s', holdsTables (countb (λ x, B x.1) (calls s)) s'); [done|].
  intros s1 s2 _ H12. by apply (dbStep_holds r).
Qed.

End invariant.

(** ** A failed run is not listed *)

Definition finished (run : string) (d : DB) : Prop :=
  (∀ r, r ∈ dag_runs d → dr_id r = run → DagRunIsTerminal (dr_state r) = true) ∧
  (** the database makes no identifier twice *)
  ∀ n, (nextID d <= n)%nat → uuid n ≠ run.

Definition isClaim (run : string) (c : Call) : bool := match c with CClaim r => bool_decide (r = run) | _ => false end.

Lemma loadActiveRuns_elem now d r : r ∈ loadActiveRuns now d →
  ∃ x, x ∈ dag_runs d ∧ isActiveRun x = true ∧ r = loadRun now d x.
Proof.
  unfold loadActiveRuns, ListActiveDagRuns, select. intros (x & -> & Hx)%list_elem_of_fmap.
  rewrite merge_sort_Permutation in Hx. apply list_elem_of_filter in Hx as [Ha Hx]. eauto.
Qed.

Lemma finished_stamp run id now st d : id ≠ run → finished run d → finished run (setRuns (StampDagRunState now id st (dag_runs d)) d).
Proof.
  intros Hid [Hd Hu]. split; [|done]. intros r (x & -> & Hx)%list_elem_of_fmap. unfold ofRun.
  case_bool_decide; [simpl; congruence|]. by apply Hd.
Qed.

Instance finished_invariant run : TableInvariant (finished run) (λ r, RunID (plan r) ≠ run) (isClaim run).
Proof.
  split.
  - intros d d' H1 H2 _ [Hd Hu]. split; [by rewrite H1|by rewrite H2].
  - intros d l Hl [Hd Hu]. split; [|done]. simpl. intros r Hr <-.
    assert (runKey r ∈ map runKey (dag_runs d)) as Hk by (rewrite <- Hl; by apply list_elem_of_fmap_2).
    apply list_elem_of_fmap in Hk as (x & [= H1 H2] & Hx). rewrite H2. by apply Hd.
  - intros r d t _ [Hd Hu]. split; [done|]. simpl. intros n Hn. apply Hu. lia.
  - intros r d now Hr _. by apply finished_stamp.
  - intros r d now st Hr _. by apply finished_stamp.
  - intros now logical d g [Hd Hu]. unfold createRun. repeat case_match; try done. split; simpl.
    + intros r [Hr| ->%list_elem_of_singleton]%elem_of_app; [by apply Hd|]. simpl. intros Hx. by destruct (Hu (nextID d)).
    + intros n Hn. apply Hu. lia.
  - intros now d [Hd _]. apply Forall_forall. intros r (x & Hx & Ha & ->)%loadActiveRuns_elem Hid. simpl in Hid.
    specialize (Hd x Hx Hid). unfold isActiveRun in Ha. by destruct (dr_state x).
  - intros r A c f Hr Ho. destruct Ho; try done. simpl. by apply bool_decide_false.
  - done.
  - done.
Qed.

(** A run that was set to failed is never again the subject of an alert: whatever happens
    afterwards, no attempt is claimed for it.  An alert whose sending failed is lost. *)
Theorem failed_alert_is_not_retried run s s' :
  finished run (db (world s)) → rtc dbStep s s' →
  countb (λ x, isClaim run x.1) (calls s') = countb (λ x, isClaim run x.1) (calls s).
Proof.
  intros Hf Hs. eapply (dbSteps_count (finished run) _ (isClaim run) (runWith ("x" +:+ run) TaskStateNone None)); [|done..].
  intros H%(f_equal String.length). change (S (String.length run) = String.length run) in H. lia.
Qed.

(** ** A reopened run *)

Definition hasTasks (run : string) (d : DB) : Prop := run ∈ map ti_run (task_instances d).

Definition isStart (run : string) (c : Call) : bool :=
  match c with CSetRun r DagRunStateRunning => bool_decide (r = run) | _ => false end.

(** The states of a run with task instances are not empty. *)
Lemma column_nonempty {A} (f : TaskInstance → A) l : l ≠ [] → column (λ t, Some (f t)) l ≠ ∅.
Proof.
  intros Hl. unfold column. destruct l as [|t l _] using rev_ind; [done|]. rewrite foldl_app. simpl. apply insert_non_empty.
Qed.

Lemma FinalizeRun_terminal r st : FinalizeRun r = Some st → st ≠ DagRunStateRunning.
Proof.
  unfold FinalizeRun. generalize false. induction (Tasks r) as [|t ts IH]; intros b; cbn [FinalizeRun_loop].
  - destruct b; by intros [= <-].
  - cbv zeta. match goal with |- (if ?c then _ else _) = _ → _ => destruct c; [done|] end. case_match; [done|]. apply IH.
Qed.

Instance hasTasks_invariant run :
  TableInvariant (hasTasks run) (λ r, RunID (plan r) = run → States (plan r) ≠ ∅) (isStart run).
Proof.
  split; unfold hasTasks.
  - intros d d' _ _ H3 Hd. by rewrite H3.
  - done.
  - intros r d t _ Hd. simpl. rewrite map_app. apply elem_of_app. by left.
  - done.
  - done.
  - intros now logical d g Hd. unfold createRun. by repeat case_match.
  - intros now d Hd. apply Forall_forall. intros r (x & _ & _ & ->)%loadActiveRuns_elem. simpl. intros <-.
    apply column_nonempty. intros Hnil. apply list_elem_of_fmap in Hd as (t & Ht & Hin).
    assert (t ∈ tasksOf d (dr_id x)) as Hx; [|rewrite Hnil in Hx; by apply elem_of_nil in Hx].
    apply list_elem_of_filter. split; [by apply bool_decide_true|done].
  - intros r A c f Hr Ho. destruct Ho as [| |st _ Hst| | | | | | | | | | | | |]; try done; simpl.
    + apply bool_decide_false. intros Hrun. unfold starting in H. apply andb_true_iff in H as [_ H%bool_decide_eq_true]. by apply Hr.
    + apply FinalizeRun_terminal in Hst. by destruct st.
  - done.
  - done.
Qed.

(** A run that has task instances is never set to running: one that a user has reopened
    stays queued until it is finalized. *)
Theorem reopened_run_never_starts run s s' :
  hasTasks run (db (world s)) → rtc dbStep s s' →
  countb (λ x, isStart run x.1) (calls s') = countb (λ x, isStart run x.1) (calls s).
Proof.
  intros Hf Hs. eapply (dbSteps_count (hasTasks run) _ (isStart run) (runWith run TaskStateNone None)); [|done..].
  intros _. apply insert_non_empty.
Qed.

End store.

(** ** The scheduler on sample tables *)

Section samples.
Import Sample.
#[local] Existing Instance Sample.sampleHost.

Definition runRow (s : Sys World) : option DagRun := head (dag_runs (db (Scheduler.world s))).

(** The alert of a failed run cannot be sent; when it could be tried again, and at any
    later tick, nothing is tried: one attempt of five was made and nobody was paged. *)
Definition failingSys : Sys World :=
  leader (Sample.world Second (tables [Sample.run "r1" DagRunStateRunning]
    [instance "r1" "extract" TaskStateFailed; instance "r1" "load" TaskStateUpstreamFailed; instance "r1" "report" TaskStateSuccess] [])).

Theorem lost_alert : ∃ r,
  runRow (tickAt (40 * Minute) (tickAt (20 * Minute) (endAlerts (tickAt (2 * Second) failingSys)))) = Some r ∧
  dr_state r = DagRunStateFailed ∧ alerted_at r = None ∧ alert_attempts r = 1 ∧ next_alert_attempt_at r = Some (2 * Second + alertRetryBackoff).
Proof. eexists. split; [vm_compute; reflexivity|]. vm_compute. done. Qed.

(** A finished run whose tasks succeeded again after it was reopened goes from queued to
    success, a transition the table of run states forbids, and has no start. *)
Definition reopenedSys : Sys World :=
  leader (Sample.world Second (tables (ReopenDagRunKeepingVersion "r1" [Sample.run "r1" DagRunStateFailed])
    [instance "r1" "extract" TaskStateSuccess; instance "r1" "load" TaskStateSuccess; instance "r1" "report" TaskStateSuccess] [])).

Theorem reopened_run_ends_unstarted : ∃ r, runRow (tickAt (2 * Second) reopenedSys) = Some r ∧
  dr_state r = DagRunStateSuccess ∧ dr_started_at r = None ∧ dr_ended_at r = Some (2 * Second) ∧
  (dr_state <$> runRow reopenedSys) = Some DagRunStateQueued ∧ CanTransitionDagRun DagRunStateQueued DagRunStateSuccess = false.
Proof. eexists. split; [vm_compute; reflexivity|]. vm_compute. done. Qed.

(** A DAG of another tenant with the schedule [@once] never gets its run, so it is due at
    every tick; the runs are made for the DAG of that name of the tenant [default], which
    is paused and has no schedule. *)
Definition dagRow (tenant : string) (sched : option (list Z)) (paused : bool) : DagRow :=
  {| d_tenant := tenant; d_dag := "etl"; d_schedule := sched; d_catchup := false; d_start := None; d_max_active_runs := 1;
     is_active := true; is_paused := paused; current_version := Some "v1" |}.

Definition tenantsSys : Sys World :=
  leader (Sample.world 1 (tables [] [] [dagRow "acme" (Some (runes "@once")) false; dagRow "default" None true])).

Theorem other_tenant_floods :
  map (λ r, (dr_tenant r, dr_dag r)) (dag_runs (db (Scheduler.world (tickAt 4 (tickAt 3 (tickAt 2 tenantsSys)))))) =
  [("default", "etl"); ("default", "etl"); ("default", "etl")].
Proof. vm_compute. done. Qed.

End samples.

(** A run made for a schedule belongs to the tenant [default]. *)
Theorem other_tenants_get_no_run uuid runName now dag logical d r :
  r ∈ dag_runs (createScheduled uuid runName now dag logical d) → r ∈ dag_runs d ∨ dr_tenant r = "default".
Proof.
  unfold createScheduled. assert (Forall (λ g, d_tenant g = "default")
    (select (λ g, bool_decide (d_tenant g = "default") && bool_decide (d_dag g = dag)) (dags d))) as Hg.
  { apply Forall_forall. intros g [[Hg%bool_decide_eq_true _]%andb_true_iff _]%list_elem_of_filter. done. }
  revert d Hg. intros d. generalize (select (λ g, bool_decide (d_tenant g = "default") && bool_decide (d_dag g = dag)) (dags d)) as gs.
  intros gs Hg. revert d. induction Hg as [|g gs Hg _ IH]; intros d; simpl; [by left|]. intros [Hr|Hr]%IH; [|by right].
  revert Hr. unfold createRun. repeat case_match; [by left| |by left]. simpl. intros [Hr| ->%list_elem_of_singleton]%elem_of_app; [by left|by right].
Qed.
