(* ===== verification/SqlBatch.v ===== *)
(** * Batched transitions

    [advance] collects the plain transitions of a run and writes each group with one
    statement after the others (Scheduler.v).  Here it is compared with a version that
    writes every transition in the order of the plan, on the tables of SqlStore.v: when no
    call fails, both leave the same world. *)

From Stdlib Require Import ZArith Lia.
From stdpp Require Import base numbers strings gmap option list.
From S2P Require Import Prelude TaskStates Dag RunCreation Planner PlannerLemmas PlannerProps Scheduler SchedulerProps SqlStore.

Open Scope Z_scope.

(** ** Rows of one task *)

Definition sameKey (f : TaskInstance → TaskInstance) : Prop := ∀ t, ti_run (f t) = ti_run t ∧ ti_task (f t) = ti_task t.

Definition within (run task : string) (p : TaskInstance → bool) : Prop := ∀ t, p t = true → ofTask run task t = true.

Lemma ofTask_key f run task t : sameKey f → ofTask run task (f t) = ofTask run task t.
Proof. intros H. unfold ofTask. by destruct (H t) as [-> ->]. Qed.

Lemma ofTask_ne run task task' t : task ≠ task' → ofTask run task t = true → ofTask run task' t = false.
Proof.
  unfold ofTask. intros Hne [_ H%bool_decide_eq_true]%andb_true_iff. apply andb_false_iff. right. apply bool_decide_false. congruence.
Qed.

Section rows.
Context (run task task' : string) (Hne : task ≠ task').
Context (p p' : TaskInstance → bool) (f f' : TaskInstance → TaskInstance).
Context (Hp : within run task p) (Hp' : within run task' p') (Hf : sameKey f) (Hf' : sameKey f').

(** A row of one task is not selected for the other, before and after. *)
Lemma other_row t : p t = true → p' t = false ∧ p' (f t) = false.
Proof.
  intros H%Hp. split; apply not_true_iff_false; intros H'%Hp'; [|rewrite ofTask_key in H' by done].
  all: by rewrite (ofTask_ne _ _ _ _ Hne H) in H'.
Qed.

End rows.

Lemma update_comm run task task' p p' f f' l : task ≠ task' → within run task p → within run task' p' → sameKey f → sameKey f' →
  update p f (update p' f' l) = update p' f' (update p f l).
Proof.
  intros Hne Hp Hp' Hf Hf'. unfold update. rewrite !map_map. apply map_ext. intros t.
  destruct (p t) eqn:E, (p' t) eqn:E'.
  - by destruct (other_row run task task' Hne p p' f Hp Hp' Hf t E) as [? _]; congruence.
  - rewrite E. by destruct (other_row run task task' Hne p p' f Hp Hp' Hf t E) as [_ ->].
  - by destruct (other_row run task' task (not_eq_sym Hne) p' p f' Hp' Hp Hf' t E') as [_ ->].
  - by rewrite E.
Qed.

Lemma select_update run task task' p p' f' l : task ≠ task' → within run task p → within run task' p' → sameKey f' →
  select p (update p' f' l) = select p l.
Proof.
  intros Hne Hp Hp' Hf'. unfold select, update. induction l as [|t l IH]; [done|]. simpl. rewrite !filter_cons, IH.
  destruct (p' t) eqn:E'; [|done].
  destruct (other_row run task' task (not_eq_sym Hne) p' p f' Hp' Hp Hf' t E') as [-> ->]. done.
Qed.

Lemma within_ofTask run task : within run task (ofTask run task).
Proof. by intros t. Qed.

Lemma within_and run task q : within run task (λ t, ofTask run task t && q t).
Proof. intros t [? _]%andb_true_iff. done. Qed.

Lemma within_and2 run task q q' : within run task (λ t, ofTask run task t && q t && q' t).
Proof. intros t [[? _]%andb_true_iff _]%andb_true_iff. done. Qed.

(** ** Effects on the world *)

Definition rows (f : list TaskInstance → list TaskInstance) (w : World) : World :=
  withDB (setTasks (f (task_instances (db w))) (history (db w)) (db w)) w.

(** One transition, as its statement leaves the world. *)
Definition single (run : string) (x : string * TaskState) (w : World) : World :=
  rows (UpdateTaskInstanceStateByRunTask (time w) run x.1 x.2) w.

(** An effect that concerns one task only: it does not matter whether a transition of
    another task comes before or after it. *)
Definition localTo (run task : string) (e : World → World) : Prop :=
  ∀ x w, x.1 ≠ task → e (single run x w) = single run x (e w).

Lemma local_rows run task (p : World → TaskInstance → bool) (f : World → TaskInstance → TaskInstance) :
  (∀ w, within run task (p w)) → (∀ w, sameKey (f w)) → (∀ x w, p (single run x w) = p w) → (∀ x w, f (single run x w) = f w) →
  localTo run task (λ w, rows (update (p w) (f w)) w).
Proof.
  intros Hp Hf Ep Ef x w Hx. rewrite Ep, Ef. unfold single, rows, withDB, setTasks, UpdateTaskInstanceStateByRunTask. simpl.
  f_equal. f_equal. apply (update_comm run task x.1); [congruence|done|apply within_ofTask|done|]. by intros t.
Qed.

Lemma local_archived run task p f :
  within run task p → sameKey f → localTo run task (λ w, withDB (resetArchived p f (db w)).1 w).
Proof.
  intros Hp Hf x w Hx. unfold single, rows, withDB, resetArchived, setTasks, UpdateTaskInstanceStateByRunTask. simpl.
  rewrite (select_update run task x.1); [|congruence|done|apply within_ofTask|by intros t].
  f_equal. f_equal. apply (update_comm run task x.1); [congruence|done|apply within_ofTask|done|]. by intros t.
Qed.

Lemma local_compose run task e e' : localTo run task e → localTo run task e' → localTo run task (λ w, e' (e w)).
Proof. intros He He' x w Hx. by rewrite He, He'. Qed.

(** ** States that differ in what was recorded *)

Section alike.
Context {W : Type} `{HW : Host W} (cfg : Config).

(** Calls and metrics are records, and not read. *)
Definition aside (s : Sys W) : list (Run * Z) * gmap string (list Z) * Z * Z * bool * bool :=
  (inflight s, warned s, lastTick s, leaderSince s, leading s, steppingDown s).

Definition alike (s s' : Sys W) : Prop := world s = world s' ∧ aside s = aside s'.

#[global] Instance alike_equiv : Equivalence alike.
Proof.
  split; [done|intros s s' [H1 H2]; by split|]. intros s1 s2 s3 [H1 H2] [H3 H4]. split; congruence.
Qed.

(** A computation that does not read the records. *)
Definition respects {A} (m : M W A) : Prop := Proper (alike ==> prod_relation alike eq) m.

Lemma respects_ret {A} (a : A) : respects (mret a).
Proof. intros s s' Hs. by split. Qed.

Lemma respects_bind {A B} (m : M W A) (f : A → M W B) : respects m → (∀ a, respects (f a)) → respects (m ≫= f).
Proof.
  intros Hm Hf s s' Hs. unfold mbind, sched_bind. destruct (Hm s s' Hs) as [H1 H2].
  destruct (m s) as [s1 o], (m s') as [s1' o']. simpl in *. subst o'. destruct o; [by apply Hf|by split..].
Qed.

Lemma respects_ask {A} c (ok : A → bool) f : respects (ask c ok f).
Proof. intros s s' [Hw Ha]. unfold ask. rewrite Hw. by destruct (f (world s')) as [w [a|]]. Qed.

Lemma respects_meter l : respects (meter cfg l).
Proof. intros s s' [Hw Ha]. by split. Qed.

Lemma respects_setInflight l : respects (onSys (setInflight l)).
Proof. intros s s' [Hw Ha]. split; [|done]. split; [done|]. unfold aside in *. simpl. congruence. Qed.

Lemma respects_deliver x : respects (deliver x).
Proof.
  destruct x as [r n]. unfold deliver. apply respects_bind; [apply respects_ask|]. intros []; [|apply respects_ret].
  apply respects_bind; [apply respects_ask|]. intros u. apply respects_ret.
Qed.

Lemma respects_settleLoop l ended : respects (settleLoop l ended).
Proof.
  revert ended. induction l as [|x l IH]; intros [|[] ended]; try apply respects_ret.
  - apply respects_bind; [apply respects_deliver|]. intros u. apply IH.
  - apply respects_bind; [apply IH|]. intros l'. apply respects_ret.
Qed.

Lemma respects_settle : respects settle.
Proof.
  intros s s' [Hw Ha]. unfold settle. rewrite Hw. destruct (Ended (world s')) as [w ended].
  assert (inflight s = inflight s') as Hi by (unfold aside in Ha; congruence). rewrite Hi.
  apply respects_bind; [apply respects_settleLoop|intros l; apply respects_setInflight|]. by split.
Qed.

Lemma respects_takeSlot r n rules : respects (takeSlot cfg r n rules).
Proof.
  intros s s' Hs. unfold takeSlot. assert (inflight s = inflight s') as Hi by (destruct Hs as [_ Ha]; unfold aside in Ha; congruence).
  rewrite Hi. case_match; [by apply respects_setInflight|by apply respects_meter].
Qed.

Lemma respects_maybeAlert st r : respects (maybeAlertFailure cfg st r).
Proof.
  unfold maybeAlertFailure, try. repeat case_match; try apply respects_ret.
  apply respects_bind; [apply respects_ask|]. intros c. case_match; [apply respects_ret|].
  apply respects_bind; [apply respects_settle|]. intros u. apply respects_takeSlot.
Qed.

Lemma respects_finalize r : respects (finalize cfg r).
Proof.
  unfold finalize, try. case_match; [|apply respects_ret]. apply respects_bind; [apply respects_ask|].
  intros [x|]; [|apply respects_ret]. apply respects_bind; [apply respects_maybeAlert|]. intros u. apply respects_ret.
Qed.

End alike.

(** ** What the operations do when nothing fails *)

Section effects.
Context (uuid : nat → string) (runName : Z → string) (cfg : Config).
#[local] Instance batchHost : Host World := SqlHost uuid runName.

Definition faultless (w : World) : Prop := faults w = [].

(** A computation that changes the world by [e] and returns [v] of the world before. *)
Definition yields {A} (m : M World A) (e : World → World) (v : World → A) : Prop :=
  ∀ s, faultless (world s) →
    world (m s).1 = e (world s) ∧ aside (m s).1 = aside s ∧ (m s).2 = Ret (v (world s)) ∧ faultless (world (m s).1).

Definition acts {A} (m : M World A) (e : World → World) (a : A) : Prop := yields m e (λ _, a).

Lemma acts_ret {A} (a : A) : acts (mret a) id a.
Proof. by intros s Hs. Qed.

Lemma yields_bind {A B} (m : M World A) (f : A → M World B) e e' v (b : B) :
  yields m e v → (∀ w, acts (f (v w)) (e' (v w)) b) → acts (m ≫= f) (λ w, e' (v w) (e w)) b.
Proof.
  intros Hm Hf s Hs. destruct (Hm s Hs) as (H1 & H2 & H3 & H4). unfold mbind, sched_bind.
  destruct (m s) as [s1 o]. simpl in *. subst o. destruct (Hf (world s) s1 H4) as (G1 & G2 & G3 & G4).
  split_and!; [by rewrite G1, H1|congruence|done..].
Qed.

Lemma acts_bind {A B} (m : M World A) (f : A → M World B) e e' a b :
  acts m e a → acts (f a) e' b → acts (m ≫= f) (λ w, e' (e w)) b.
Proof.
  intros Hm Hf s Hs. destruct (Hm s Hs) as (H1 & H2 & H3 & H4). unfold mbind, sched_bind.
  destruct (m s) as [s1 o]. simpl in *. subst o. destruct (Hf s1 H4) as (G1 & G2 & G3 & G4). split_and!; [by rewrite G1, H1|congruence|done..].
Qed.

Lemma acts_ext {A} (m : M World A) e e' a : acts m e a → (∀ w, faultless w → e w = e' w) → acts m e' a.
Proof. intros Hm He s Hs. destruct (Hm s Hs) as (H1 & H2 & H3 & H4). by rewrite <- He. Qed.

(** Metrics, then the result. *)
Lemma acts_done {A} l (a : A) : acts (meter cfg l;; mret a) id a.
Proof. by intros s Hs. Qed.

Lemma yields_query {A} c (f : World → DB → DB * option A) :
  yields (try c (λ w, query (f w) w)) (λ w, withDB (f w (db w)).1 w) (λ w, (f w (db w)).2).
Proof.
  intros s Hs. unfold try, ask, query. unfold faultless in Hs. rewrite Hs. simpl.
  destruct (f (world s) (db (world s))) as [d x]. simpl. split_and!; try done. unfold faultless. simpl. by rewrite Hs.
Qed.

Lemma acts_rows c f : acts (try c (λ w, onTasks (f w) w)) (λ w, rows (f w) w) (Some tt).
Proof. exact (yields_query c (λ w d, (setTasks (f w (task_instances d)) (history d) d, Some tt))). Qed.

Lemma recordTransition_acts r id to : acts (recordTransition cfg r id to) (single (RunID (plan r)) (id, to)) None.
Proof.
  eapply (acts_bind _ _ _ (λ w, w));
    [apply (acts_rows _ (λ w, UpdateTaskInstanceStateByRunTask (time w) (RunID (plan r)) id to))|]. apply acts_done.
Qed.

(** A statement whose failure would be passed over. *)
Lemma ignored_acts c f : acts (try c (λ w, onTasks (f w) w);; mret (@None error)) (λ w, rows (f w) w) None.
Proof. eapply (acts_bind _ _ _ (λ w, w)); [apply acts_rows|apply acts_ret]. Qed.

(** ** The effect of a planned transition *)

Definition popAnswer (w : World) : World :=
  {| db := db w; time := time w; faults := faults w; answers := tail (answers w); sends := sends w; ends := ends w |}.

Definition nowW (r : Run) (w : World) : Z := if IsZero (Now (plan r)) then time w else Now (plan r).

Definition refusedW (r : Run) (id : string) (d : Disposition) (w : World) : World :=
  let attempts := mget 0 (DispatchAttempts (plan r)) id + 1 in
  let next := nowW r w + dispatchBackoff attempts in
  match d with
  | Backpressure => rows (onScheduled (dispatchDelayed next) (RunID (plan r)) id) w
  | _ =>
    if dispatchMaxAttempts <=? attempts then rows (onScheduled (dispatchExhausted (time w)) (RunID (plan r)) id) w
    else rows (onScheduled (dispatchFailed next) (RunID (plan r)) id) w
  end.

Definition launchW (r : Run) (id : string) (w : World) : World :=
  if hasDispatcher cfg then
    match default Launched (head (answers w)) with
    | Launched => single (RunID (plan r)) (id, TaskStateQueued) (popAnswer w)
    | Refused d => refusedW r id d (popAnswer w)
    end
  else single (RunID (plan r)) (id, TaskStateFailed) (rows (λ l, l) w).

Definition resetW (r : Run) (id : string) (w : World) : World :=
  if bool_decide (stateIn r id = TaskStateUpForReschedule) then rows (RedispatchRescheduledTaskInstance (RunID (plan r)) id) w
  else if bool_decide (stateIn r id = TaskStateFailed) && mget false (InfraFailed (plan r)) id
  then withDB (ResetTaskInstanceInfraReplace (RunID (plan r)) id (db w)).1 w
  else withDB (ResetTaskInstanceForRetry (RunID (plan r)) id (db w)).1 w.

Lemma nowOf_yields r : yields (nowOf r) (λ w, w) (nowW r).
Proof.
  intros s Hs. unfold nowOf, nowW. destruct (IsZero _); [|done]. unfold clock. simpl. split_and!; try done.
Qed.

Lemma refused_acts r id d : acts (handleDispatchFailure r id d) (refusedW r id d) None.
Proof.
  assert (∀ c g, acts (now ← nowOf r; try (c now) (onTasks (onScheduled (g now) (RunID (plan r)) id));; mret (@None error))
    (λ w, rows (onScheduled (g (nowW r w)) (RunID (plan r)) id) w) None) as Hn.
  { intros c g. apply (yields_bind _ _ _ (λ now, rows (onScheduled (g now) (RunID (plan r)) id))); [apply nowOf_yields|].
    intros w. apply (ignored_acts _ (λ _, onScheduled (g (nowW r w)) (RunID (plan r)) id)). }
  destruct d; unfold handleDispatchFailure, refusedW; cbv zeta.
  2: { exact (Hn (λ n, CBackpressure _ _ (n + _)) (λ n, dispatchDelayed (n + _))). }
  all: case_match; [apply (ignored_acts _ (λ w, onScheduled (dispatchExhausted (time w)) (RunID (plan r)) id))|].
  all: exact (Hn (λ n, CDispatchFailure _ _ (n + _)) (λ n, dispatchFailed (n + _))).
Qed.

Lemma launch_acts r id : id ∈ map TaskID (Tasks (plan r)) → acts (launchQueued cfg r id) (launchW r id) None.
Proof.
  intros [t Ht]%findTask_is_Some. unfold launchQueued, launchW. rewrite Ht. destruct (hasDispatcher cfg).
  - eapply acts_ext; [eapply (yields_bind _ _ popAnswer (λ a, match a with
      | Launched => single (RunID (plan r)) (id, TaskStateQueued) | Refused d => refusedW r id d end) (λ w, default Launched (head (answers w))))|].
    + intros s Hs. by split_and!.
    + intros w. destruct (default Launched _); [apply recordTransition_acts|apply refused_acts].
    + intros w _. cbv beta. by destruct (default Launched _).
  - unfold failUndispatchable. intros s Hs.
    exact (acts_bind (try (CNote (RunID (plan r)) id) (SetTaskNote (RunID (plan r)) id)) (λ _, recordTransition cfg r id TaskStateFailed)
      (λ w, rows (λ l, l) w) (single (RunID (plan r)) (id, TaskStateFailed)) (Some tt) None (acts_rows _ (λ _ l, l))
      (recordTransition_acts r id TaskStateFailed) (addMetrics (if hasRecorder cfg then [Undispatchable] else []) s) Hs).
Qed.

Lemma reset_acts r id :
  acts (if bool_decide (stateIn r id = TaskStateUpForReschedule) then redispatchReschedule cfg r id
        else if bool_decide (stateIn r id = TaskStateFailed) && mget false (InfraFailed (plan r)) id
        then resetForInfraReplace cfg r id else resetForRetry cfg r id) (resetW r id) None.
Proof.
  unfold resetW. destruct (bool_decide (stateIn r id = TaskStateUpForReschedule));
    [|destruct (bool_decide (stateIn r id = TaskStateFailed) && mget false (InfraFailed (plan r)) id)].
  - eapply (acts_bind _ _ _ (λ w, w)); [apply (acts_rows _ (λ _, RedispatchRescheduledTaskInstance (RunID (plan r)) id))|]. apply acts_done.
  - apply (yields_bind _ _ _ (λ _ w, w) _ _
      (yields_query _ (λ _ d, oneRow (ResetTaskInstanceInfraReplace (RunID (plan r)) id d)))).
    intros w. unfold oneRow. simpl. destruct (_ =? 1); apply acts_done.
  - apply (yields_bind _ _ _ (λ _ w, w) _ _
      (yields_query _ (λ _ d, oneRow (ResetTaskInstanceForRetry (RunID (plan r)) id d)))).
    intros w. unfold oneRow. simpl. destruct (_ =? 1); apply acts_done.
Qed.

(** ** Transitions of different tasks *)

Lemma single_local run id to : localTo run id (single run (id, to)).
Proof. apply (local_rows run id (λ _, ofTask run id) (λ w, stamped (time w) to)); [intros _; apply within_ofTask|by intros w t|done..]. Qed.

Lemma scheduled_local run id (g : World → TaskInstance → TaskInstance) :
  (∀ w, sameKey (g w)) → (∀ x w, g (single run x w) = g w) → localTo run id (λ w, rows (onScheduled (g w) run id) w).
Proof. intros Hg Eg. apply (local_rows run id (λ _, _) g); [intros _; apply within_and|done..]. Qed.

Lemma refused_local r id d : localTo (RunID (plan r)) id (refusedW r id d).
Proof.
  assert (∀ x w, nowW r (single (RunID (plan r)) x w) = nowW r w) as Hn by done.
  destruct d; unfold refusedW; cbv zeta.
  2: by apply (scheduled_local _ _ (λ w, dispatchDelayed (nowW r w + _))).
  all: case_match; [by apply (scheduled_local _ _ (λ w, dispatchExhausted (time w)))|].
  all: by apply (scheduled_local _ _ (λ w, dispatchFailed (nowW r w + _))).
Qed.

Lemma launch_local r id : localTo (RunID (plan r)) id (launchW r id).
Proof.
  intros x w Hx. unfold launchW. destruct (hasDispatcher cfg).
  - change (answers (single _ x w)) with (answers w). change (popAnswer (single ?run x w)) with (single run x (popAnswer w)).
    destruct (default Launched _); [by apply single_local|by apply refused_local].
  - change (rows (λ l, l) (single ?run x w)) with (single run x (rows (λ l, l) w)). by apply single_local.
Qed.

Lemma reset_local r id : localTo (RunID (plan r)) id (resetW r id).
Proof.
  unfold resetW. case_match; [|case_match].
  - apply (local_rows _ _ (λ _, _) (λ _, forReschedule)); [intros _; apply within_and|by intros _ t|done..].
  - apply local_archived; [apply within_and2|by intros t].
  - apply local_archived; [apply within_and|by intros t].
Qed.

(** The effect of a planned transition written at once. *)
Definition effect (r : Run) (x : PlannedTransition) : World → World :=
  match pt_to x with
  | TaskStateQueued => launchW r (pt_task x)
  | TaskStateNone => resetW r (pt_task x)
  | to => single (RunID (plan r)) (pt_task x, to)
  end.

Definition isPlain (x : PlannedTransition) : bool :=
  match pt_to x with TaskStateQueued | TaskStateNone => false | _ => true end.

Definition pairOf (x : PlannedTransition) : string * TaskState := (pt_task x, pt_to x).

Lemma effect_local r x : localTo (RunID (plan r)) (pt_task x) (effect r x).
Proof. unfold effect. destruct (pt_to x); first [apply launch_local|apply reset_local|apply single_local]. Qed.

Lemma effect_plain r x : isPlain x = true → effect r x = single (RunID (plan r)) (pairOf x).
Proof. unfold isPlain, effect, pairOf. by destruct (pt_to x). Qed.

Definition singles (run : string) (l : list (string * TaskState)) (w : World) : World := foldl (λ w x, single run x w) w l.

Lemma singles_perm run l l' w : l ≡ₚ l' → NoDup (map fst l) → singles run l w = singles run l' w.
Proof.
  intros Hp. revert w. induction Hp as [|x l l' _ IH|x y l|l l' l'' H1 IH1 _ IH2]; intros w Hnd; [done|..]; unfold singles in *; simpl in *.
  - apply NoDup_cons in Hnd as [_ Hnd]. by apply IH.
  - apply NoDup_cons in Hnd as [Hy _]. f_equal. destruct x as [i to], y as [j to']. symmetry.
    apply (single_local run j to'). simpl in *. set_solver.
  - rewrite IH1 by done. apply IH2. by rewrite <- H1.
Qed.

(** A transition of another task may come after the effects. *)
Lemma effects_single r y l w : y.1 ∉ map pt_task l →
  foldl (λ w x, effect r x w) (single (RunID (plan r)) y w) l = single (RunID (plan r)) y (foldl (λ w x, effect r x w) w l).
Proof.
  revert w. induction l as [|x l IH]; intros w Hy; [done|]. simpl in *. apply not_elem_of_cons in Hy as [Hx Hy].
  by rewrite (effect_local r x y w Hx), IH.
Qed.

(** The plain transitions may all come last. *)
Lemma effects_split r l w : NoDup (map pt_task l) →
  foldl (λ w x, effect r x w) w l =
  singles (RunID (plan r)) (map pairOf (filter (λ x, isPlain x = true) l))
    (foldl (λ w x, effect r x w) w (filter (λ x, isPlain x = false) l)).
Proof.
  revert w. induction l as [|x l IH]; intros w Hnd; [done|]. simpl. apply NoDup_cons in Hnd as [Hx Hnd]. rewrite IH by done.
  rewrite !filter_cons. destruct (isPlain x) eqn:E; simpl; [|done].
  rewrite (effect_plain r x E), effects_single; [done|]. simpl. intros Hin. apply Hx.
  apply list_elem_of_fmap in Hin as (z & Hz & [_ Hin]%list_elem_of_filter). apply list_elem_of_fmap. eauto.
Qed.

(** ** The batch *)

Definition pairs (b : transitionBatch) : list (string * TaskState) :=
  concat (map (λ to, map (λ id, (id, to)) (batchOf b to)) (order b)).

(** The order lists the states that have a group, each once, and no group is empty. *)
Definition batchOk (b : transitionBatch) : Prop :=
  NoDup (order b) ∧ (∀ to, to ∈ order b ↔ is_Some (byState b to)) ∧ ∀ to, to ∈ order b → batchOf b to ≠ [].

Lemma batchOf_add b to id to' : batchOf (add b to id) to' = if decide (to' = to) then batchOf b to ++ [id] else batchOf b to'.
Proof. unfold batchOf, add. simpl. case_decide; case_bool_decide; try done. Qed.

Lemma groups_add b to id l : NoDup l →
  concat (map (λ to', map (λ id', (id', to')) (batchOf (add b to id) to')) l) ≡ₚ
  concat (map (λ to', map (λ id', (id', to')) (batchOf b to')) l) ++ (if decide (to ∈ l) then [(id, to)] else []).
Proof.
  induction 1 as [|to' l Hto _ IH]; [done|]. cbn [map concat]. rewrite IH, batchOf_add. destruct (decide (to' = to)) as [->|Hne].
  - rewrite map_app, decide_False, app_nil_r, decide_True by set_solver. cbn [map]. rewrite <- !(assoc app). f_equiv. apply Permutation_app_comm.
  - rewrite <- (assoc app). f_equiv. f_equiv. by destruct (decide (to ∈ l)), (decide (to ∈ to' :: l)); set_solver.
Qed.

Lemma add_ok b to id : batchOk b → batchOk (add b to id) ∧ to ∈ order (add b to id).
Proof.
  intros (Hnd & Hin & Hne). unfold batchOk.
  assert (∀ x, x ∈ order (add b to id) ↔ x ∈ order b ∨ x = to) as Ho.
  { intros x. unfold add. simpl. destruct (byState b to) eqn:E; [|set_solver].
    split; [by left|]. intros [?| ->]; [done|]. by apply Hin. }
  split_and!; [| | |set_solver].
  - unfold add. simpl. destruct (byState b to) eqn:E; [done|]. apply NoDup_app. split_and!; [done| |apply NoDup_singleton].
    intros x Hx ->%list_elem_of_singleton. apply Hin in Hx as [? ?]. congruence.
  - intros x. rewrite Ho, Hin. unfold add. simpl. case_bool_decide; split; naive_solver.
  - intros x. rewrite Ho, batchOf_add. case_decide; [by intros _ ?%app_eq_nil; naive_solver|]. intros [?| ->]; [by apply Hne|done].
Qed.

Lemma pairs_add b to id : batchOk b → pairs (add b to id) ≡ₚ pairs b ++ [(id, to)].
Proof.
  intros Hb. destruct (add_ok b to id Hb) as [(Hnd & _) Hto]. unfold pairs. rewrite groups_add, decide_True by done.
  f_equiv. unfold add. simpl. destruct (byState b to) eqn:E; [done|]. rewrite map_app, concat_app. simpl. unfold batchOf at 2. rewrite E. simpl. by rewrite app_nil_r.
Qed.

Definition batchAll (l : list PlannedTransition) (b : transitionBatch) : transitionBatch :=
  foldl (λ b x, if isPlain x then add b (pt_to x) (pt_task x) else b) b l.

Lemma batchAll_pairs l b : batchOk b →
  batchOk (batchAll l b) ∧ pairs (batchAll l b) ≡ₚ pairs b ++ map pairOf (filter (λ x, isPlain x = true) l).
Proof.
  revert b. induction l as [|x l IH]; intros b Hb; [split; [done|by rewrite app_nil_r]|]. unfold batchAll in *. simpl.
  rewrite filter_cons. destruct (isPlain x) eqn:E; simpl; [|by apply IH].
  destruct (IH _ (proj1 (add_ok b (pt_to x) (pt_task x) Hb))) as [H1 H2]. split; [done|].
  by rewrite H2, pairs_add, <- (assoc app).
Qed.

(** One statement for a group is one statement for each of its tasks. *)
Lemma stamped_twice now to t : SqlStore.stamped now to (SqlStore.stamped now to t) = SqlStore.stamped now to t.
Proof. unfold SqlStore.stamped. simpl. f_equal; unfold stampOn; repeat case_match; congruence. Qed.

Lemma batch_statement now run ids to l :
  UpdateTaskInstanceStatesByRunTasks now run ids to l = foldl (λ l id, UpdateTaskInstanceStateByRunTask now run id to l) l ids.
Proof.
  unfold UpdateTaskInstanceStatesByRunTasks, UpdateTaskInstanceStateByRunTask, update.
  revert l. induction ids as [|id ids IH]; intros l; simpl.
  - rewrite <- (map_id l) at 2. apply map_ext. intros t. by rewrite andb_false_r.
  - rewrite <- IH, map_map. apply map_ext. intros t. unfold ofTask.
    destruct (bool_decide (ti_run t = run)) eqn:Er; simpl; [|by rewrite Er].
    destruct (decide (ti_task t = id)) as [<-|Hid].
    + rewrite (bool_decide_true (_ ∈ _ :: _)), (bool_decide_true (ti_task t = _)) by set_solver. simpl. rewrite Er. simpl.
      case_match; [by rewrite stamped_twice|done].
    + rewrite (bool_decide_false (ti_task t = _)) by done. simpl. rewrite Er. simpl.
      by rewrite (bool_decide_ext (ti_task t ∈ id :: ids) (ti_task t ∈ ids)) by set_solver.
Qed.

Lemma rows_singles run ids to w : faultless w →
  rows (UpdateTaskInstanceStatesByRunTasks (time w) run ids to) w = singles run (map (λ id, (id, to)) ids) w.
Proof.
  intros Hw. unfold rows. rewrite batch_statement. revert w Hw. induction ids as [|id ids IH]; intros w Hw; simpl.
  - destruct w as [[] t f]. unfold faultless in Hw. simpl in Hw. by subst f.
  - unfold singles in *. simpl. rewrite <- IH by (unfold faultless in *; simpl; by rewrite Hw).
    unfold single, rows, withDB, setTasks. simpl. by rewrite Hw.
Qed.

Lemma flush_acts r b l : batchOk b → (∀ to, to ∈ l → to ∈ order b) →
  acts (flushTransitions cfg r b l)
    (singles (RunID (plan r)) (concat (map (λ to, map (λ id, (id, to)) (batchOf b to)) l))) None.
Proof.
  intros (Hnd & Hin & Hne). induction l as [|to l IH]; intros Hl; [apply acts_ret|]. cbn [flushTransitions map concat].
  specialize (Hne to ltac:(set_solver)). destruct (batchOf b to) as [|id ids] eqn:E; [done|]. rewrite <- E in *.
  eapply acts_ext; [eapply (acts_bind _ _ (singles (RunID (plan r)) (map (λ id, (id, to)) (batchOf b to)))
      (singles (RunID (plan r)) (concat (map (λ to, map (λ id, (id, to)) (batchOf b to)) l))) (Some tt))|].
  - eapply acts_ext; [|intros w Hw; apply (rows_singles _ (batchOf b to) to w Hw)].
    simpl. rewrite E. apply (acts_rows _ (λ w, UpdateTaskInstanceStatesByRunTasks (time w) (RunID (plan r)) (id :: ids) to)).
  - eapply (acts_bind _ _ (λ w, w)); [intros s Hs; by split_and!|]. apply IH. set_solver.
  - intros w _. unfold singles. by rewrite foldl_app.
Qed.

Lemma applyPlanned_acts r x b : pt_task x ∈ map TaskID (Tasks (plan r)) →
  acts (applyPlanned cfg r x b) (if isPlain x then λ w, w else effect r x)
    (if isPlain x then add b (pt_to x) (pt_task x) else b, None).
Proof.
  intros Hx. unfold applyPlanned, isPlain, effect. destruct (pt_to x); try apply acts_ret.
  - eapply (acts_bind _ _ _ (λ w, w)); [apply reset_acts|apply acts_ret].
  - eapply (acts_bind _ _ _ (λ w, w)); [by apply launch_acts|apply acts_ret].
Qed.

Lemma applyLoop_acts r pools l a b : planned r l →
  acts (applyLoop cfg r pools l a b) (λ w, foldl (λ w x, effect r x w) w (filter (λ x, isPlain x = false) l))
    (admitAll pools l a, inl (batchAll l b)).
Proof.
  intros Hl. revert a b. induction Hl as [|x l Hx _ IH]; intros a b; [apply acts_ret|]. cbn [applyLoop].
  eapply acts_ext; [eapply acts_bind; [by apply applyPlanned_acts|apply IH]|].
  intros w _. rewrite filter_cons. by destruct (isPlain x).
Qed.

End effects.

(** ** One transition at a time *)

(** [applyLoop] and [advance] with every transition written when it is planned. *)
Section unbatched.
Context {W : Type} `{HW : Host W} (cfg : Config).

Definition applyNow (r : Run) (x : PlannedTransition) : M W (option error) :=
  if isPlain x then recordTransition cfg r (pt_task x) (pt_to x)
  else y ← applyPlanned cfg r x newTransitionBatch; mret (snd y).

Fixpoint applyEach (r : Run) (poolOf : option (gmap string string)) (l : list PlannedTransition) (a : Admissions) : M W (Admissions * option error) :=
  match l with
  | [] => mret (a, None)
  | x :: l =>
    let a := admitTask poolOf x a in
    e ← applyNow r x;
    match e with
    | Some e => mret (a, Some e)
    | None => applyEach r poolOf l a
    end
  end.

Definition advanceEach (r : Run) : M W (Admissions * option error) :=
  if bool_decide (State r = DagRunStateQueued) && bool_decide (States (plan r) = ∅) then
    e ← startRun r; mret (noneAdmitted, e)
  else
    x ← applyEach r (taskPools (plan r)) (PlanRun (plan r)) noneAdmitted;
    match snd x with
    | Some e => mret (fst x, Some e)
    | None => e ← finalize cfg r; mret (fst x, e)
    end.

End unbatched.

Section equivalence.
Context (uuid : nat → string) (runName : Z → string) (cfg : Config).
#[local] Instance theHost : Host World := SqlHost uuid runName.

Lemma applyEach_acts r pools l a : planned r l →
  acts (applyEach cfg r pools l a) (λ w, foldl (λ w x, effect cfg r x w) w l) (admitAll pools l a, None).
Proof.
  intros Hl. revert a. induction Hl as [|x l Hx _ IH]; intros a; [apply acts_ret|]. cbn [applyEach].
  apply (acts_bind _ _ (effect cfg r x) (λ w, foldl (λ w x, effect cfg r x w) w l) None); [|apply IH]. unfold applyNow. destruct (isPlain x) eqn:E.
  - rewrite (effect_plain cfg r x E). apply (recordTransition_acts uuid runName cfg r (pt_task x) (pt_to x)).
  - pose proof (applyPlanned_acts uuid runName cfg r x newTransitionBatch Hx) as H. rewrite E in H.
    eapply (acts_bind _ _ _ (λ w, w)); [exact H|apply acts_ret].
Qed.

Lemma newBatch_ok : batchOk newTransitionBatch.
Proof. split_and!; [constructor| |set_solver]. intros to. split; [set_solver|]. by intros [? ?]. Qed.

(** C10: writing the plain transitions of a run grouped by target state after the others
    leaves the same tables, alerts and result as writing each transition in the order of
    the plan, when no call of the store fails, whatever the dispatcher answers. *)
Theorem batching_changes_nothing r s :
  faultless (world s) → NoDup (map TaskID (Tasks (plan r))) →
  alike (advance cfg r s).1 (advanceEach cfg r s).1 ∧ (advance cfg r s).2 = (advanceEach cfg r s).2.
Proof.
  intros Hs Hnd. unfold advance, advanceEach. destruct (bool_decide _ && bool_decide _); [done|].
  pose proof (plan_one_transition_per_task _ Hnd) as Hone. pose proof (PlanRun_planned r) as Hp.
  destruct (batchAll_pairs (PlanRun (plan r)) newTransitionBatch newBatch_ok) as [Hb Hpairs].
  pose proof (applyLoop_acts uuid runName cfg r (taskPools (plan r)) (PlanRun (plan r)) noneAdmitted newTransitionBatch Hp s Hs) as (L1 & L2 & L3 & L4).
  pose proof (applyEach_acts r (taskPools (plan r)) (PlanRun (plan r)) noneAdmitted Hp s Hs) as (G1 & G2 & G3 & _).
  unfold mbind, sched_bind. destruct (applyLoop cfg r _ _ _ _ s) as [s1 o1]. simpl in L1, L2, L3, L4. subst o1. cbn beta iota zeta delta [fst snd].
  pose proof (flush_acts uuid runName cfg r _ _ Hb (λ _ H, H) s1 L4) as (H1 & H2 & H3 & _).
  destruct (flushTransitions cfg r _ _ s1) as [s2 o2]. simpl in H1, H2, H3. subst o2.
  destruct (applyEach cfg r _ _ _ s) as [s3 o3]. simpl in G1, G2, G3. subst o3. cbn beta iota zeta delta [fst snd].
  assert (alike s2 s3) as Ha.
  { split; [|congruence]. rewrite H1, L1, G1, (effects_split cfg r _ _ Hone). apply singles_perm; [by apply Hpairs|].
    rewrite Hpairs. unfold pairs. simpl. rewrite map_map. simpl.
    eapply sublist_NoDup; [exact Hone|]. apply fmap_sublist, sublist_filter. }
  destruct (respects_finalize cfg r s2 s3 Ha) as [Hf Ho]. destruct (finalize cfg r s2) as [s4 o4], (finalize cfg r s3) as [s5 o5].
  simpl in *. subst o5. by destruct o4.
Qed.

End equivalence.

(** A run with two tasks to schedule, one to skip behind a failed one, and one to launch. *)
Section sample.
Import Sample.

Definition batchRun : Run := loadRun Second (tables [] [instance "r1" "extract" TaskStateScheduled; instance "r1" "load" TaskStateNone;
  instance "r1" "report" TaskStateNone] []) (Sample.run "r1" DagRunStateRunning).

Definition batchSys : Sys World := leader (Sample.world Second (tables [Sample.run "r1" DagRunStateRunning]
  [instance "r1" "extract" TaskStateScheduled; instance "r1" "load" TaskStateNone; instance "r1" "report" TaskStateNone] [])).

Lemma batching_changes_nothing_witness :
  alike (@advance World (SqlHost uuid runName) config batchRun batchSys).1 (@advanceEach World (SqlHost uuid runName) config batchRun batchSys).1 ∧
  map pt_to (PlanRun (plan batchRun)) = [TaskStateQueued; TaskStateScheduled].
Proof.
  split; [|vm_compute; reflexivity].
  apply (batching_changes_nothing uuid runName config batchRun batchSys); [reflexivity|].
  repeat (constructor; [vm_compute; intros H; repeat (apply elem_of_cons in H as [H|H]; [discriminate|]); by apply elem_of_nil in H|]).
  constructor.
Defined.

End sample.
