(* ===== verification/Js.v ===== *)
(** * JavaScript strings and JSON values

    The parts of the language the scripts use: strings as lists of UTF-16 code
    units with the methods called on them, the values [JSON.parse] returns,
    property access with its [TypeError]s, truthiness and string conversion. *)

From Stdlib Require Import ZArith Lia.
From stdpp Require Import base numbers strings pretty gmap option list sorting.
From S2P Require Import Prelude.

Open Scope Z_scope.

(** ** Strings *)

Abbreviation jstr := (list Z).

Definition NL : Z := 10.

Fixpoint startsWith (p s : jstr) : bool :=
  match p, s with
  | [], _ => true
  | a :: p, b :: s => (a =? b) && startsWith p s
  | _, [] => false
  end.

(** [s.includes(p)] *)
Fixpoint includes (p s : jstr) : bool :=
  startsWith p s || match s with [] => false | _ :: r => includes p r end.

(** [s.split(c)] for a one-unit separator. *)
Fixpoint split (c : Z) (s : jstr) : list jstr :=
  match s with
  | [] => [[]]
  | x :: r =>
    if x =? c then [] :: split c r
    else match split c r with
         | [] => [[x]]
         | p :: ps => (x :: p) :: ps
         end
  end.

Fixpoint join (sep : jstr) (l : list jstr) : jstr :=
  match l with
  | [] => []
  | [x] => x
  | x :: r => x ++ sep ++ join sep r
  end.

(** [s.slice(0, n)] *)
Definition slice0 {A} (n : nat) (s : list A) : list A := take n s.

(** [s.split('\n')[0]] *)
Definition firstLine (s : jstr) : jstr := default [] (head (split NL s)).

Definition lowerUnit (c : Z) : Z := if (65 <=? c) && (c <=? 90) then c + 32 else c.

(** [toLowerCase], on the code units whose lower case is ASCII: the capitals, the
    dotted capital I (which becomes i and a combining dot) and the Kelvin sign.
    Every other unit has a lower case outside ASCII and is left as it is, which a
    search for an ASCII literal cannot observe. *)
Definition toLowerCase (s : jstr) : jstr :=
  s ≫= λ c, if c =? 304 then [105; 775] else if c =? 8490 then [107] else [lowerUnit c].

(** White space of [\s] and [trim]. *)
Definition isSpaceJs (c : Z) : bool :=
  bool_decide (c ∈ [9; 10; 11; 12; 13; 32; 160; 5760; 8232; 8233; 8239; 8287; 12288; 65279])
  || ((8192 <=? c) && (c <=? 8202)).

Fixpoint trimStart (s : jstr) : jstr :=
  match s with [] => [] | c :: r => if isSpaceJs c then trimStart r else s end.

Definition trim (s : jstr) : jstr := reverse (trimStart (reverse (trimStart s))).

(** Order of [Array.prototype.sort]: by code units. *)
Fixpoint str_leb (a b : jstr) : bool :=
  match a, b with
  | [], _ => true
  | _, [] => false
  | x :: a, y :: b => (x <? y) || ((x =? y) && str_leb a b)
  end.

Definition decimal (n : nat) : jstr := runes (pretty n).

Lemma toLowerCase_idem s : toLowerCase (toLowerCase s) = toLowerCase s.
Proof.
  unfold toLowerCase. induction s as [|c s IH]; [done|]. csimpl. rewrite bind_app, IH. f_equal.
  destruct (c =? 304) eqn:E1; [done|]. destruct (c =? 8490) eqn:E2; [done|]. csimpl.
  unfold lowerUnit. destruct ((65 <=? c) && (c <=? 90)) eqn:E3; [|by rewrite E1, E2, E3].
  apply andb_prop in E3 as [?%Z.leb_le ?%Z.leb_le].
  replace (c + 32 =? 304) with false by (symmetry; apply Z.eqb_neq; lia).
  replace (c + 32 =? 8490) with false by (symmetry; apply Z.eqb_neq; lia).
  replace (c + 32 <=? 90) with false by (symmetry; apply Z.leb_gt; lia).
  by rewrite andb_false_r.
Qed.

Lemma startsWith_spec p s : startsWith p s = true ↔ ∃ r, s = p ++ r.
Proof.
  revert s. induction p as [|a p IH]; intros [|b s]; simpl.
  - split; eauto.
  - split; eauto.
  - split; [done|]. by intros [r ?].
  - rewrite andb_true_iff, IH, Z.eqb_eq. split.
    + intros [-> [r ->]]. by exists r.
    + intros [r [= -> ->]]. eauto.
Qed.

Lemma includes_spec p s : includes p s = true ↔ ∃ l r, s = l ++ p ++ r.
Proof.
  induction s as [|x s IH]; simpl.
  - rewrite orb_true_iff, startsWith_spec. split.
    + intros [[r ->]|?]; [by exists []; exists r|done].
    + intros (l & r & H). destruct l; [|done]. left. by exists r.
  - rewrite orb_true_iff, startsWith_spec, IH. split.
    + intros [[r Hr]|(l & r & ->)]; [by exists [], r|by exists (x :: l), r].
    + intros (l & r & H). destruct l as [|y l]; [left; by exists r|right].
      simplify_eq/=. eauto.
Qed.

Lemma includes_elem c s : includes [c] s = true ↔ c ∈ s.
Proof.
  rewrite includes_spec. split.
  - intros (l & r & ->). apply elem_of_app. right. left.
  - intros (l & r & ->)%list_elem_of_split. by exists l, r.
Qed.

Lemma split_nonempty c s : split c s ≠ [].
Proof. destruct s as [|x r]; simpl; [done|]. destruct (x =? c), (split c r); done. Qed.

Lemma split_cons_ne c x s : x ≠ c →
  ∃ p ps, split c s = p :: ps ∧ split c (x :: s) = (x :: p) :: ps.
Proof.
  intros Hx. pose proof (split_nonempty c s). destruct (split c s) as [|p ps] eqn:E; [done|].
  exists p, ps. simpl. apply Z.eqb_neq in Hx. by rewrite Hx, E.
Qed.

(** Joining the parts of a split gives the text back. *)
Lemma join_cons sep x xs : xs ≠ [] → join sep (x :: xs) = x ++ sep ++ join sep xs.
Proof. by destruct xs. Qed.

Lemma join_split c s : join [c] (split c s) = s.
Proof.
  induction s as [|x s IH]; [done|]. simpl. destruct (x =? c) eqn:E.
  - apply Z.eqb_eq in E as ->. rewrite join_cons by apply split_nonempty. simpl. by rewrite IH.
  - pose proof (split_nonempty c s). destruct (split c s) as [|p [|q ps]]; simpl in *; congruence.
Qed.

Lemma split_single c s : c ∉ s → split c s = [s].
Proof.
  induction s as [|x s IH]; [done|]. rewrite not_elem_of_cons. intros [Hx Hs]. simpl.
  rewrite IH by done. destruct (x =? c) eqn:E; [|done]. apply Z.eqb_eq in E. congruence.
Qed.

(** Splitting a concatenation: the last part of the first text continues with the
    first part of the second. *)
Lemma split_app c s t : ∃ ps p q qs,
  split c s = ps ++ [p] ∧ split c t = q :: qs ∧ split c (s ++ t) = ps ++ (p ++ q) :: qs.
Proof.
  pose proof (split_nonempty c t). destruct (split c t) as [|q qs] eqn:Et; [done|].
  induction s as [|x s (ps & p & q' & qs' & Es & [= <- <-] & Ea)].
  - exists [], [], q, qs. simpl. by rewrite Et.
  - simpl. rewrite Es, Ea. destruct (x =? c) eqn:E.
    + by exists ([] :: ps), p, q, qs.
    + destruct ps as [|p0 ps]; simpl; [by exists [], (x :: p), q, qs|by exists ((x :: p0) :: ps), p, q, qs].
Qed.

Lemma split_no_sep c s p : p ∈ split c s → c ∉ p.
Proof.
  revert p. induction s as [|x s IH]; simpl; intros p Hp.
  - apply list_elem_of_singleton in Hp as ->. apply not_elem_of_nil.
  - destruct (x =? c) eqn:E.
    + apply elem_of_cons in Hp as [->|Hp]; [apply not_elem_of_nil|eauto].
    + apply Z.eqb_neq in E. pose proof (split_nonempty c s).
      destruct (split c s) as [|q qs]; [done|]. apply elem_of_cons in Hp as [->|Hp].
      * apply not_elem_of_cons. split; [done|]. apply IH. left.
      * apply IH. by right.
Qed.

Lemma join_snoc sep l x : l ≠ [] → join sep (l ++ [x]) = join sep l ++ sep ++ x.
Proof.
  induction l as [|y l IH]; [done|]. intros _. destruct l as [|z l]; [done|].
  change ((y :: z :: l) ++ [x]) with (y :: ((z :: l) ++ [x])).
  rewrite !join_cons by done. rewrite IH by done. by rewrite <- !app_assoc.
Qed.

(** A part of a split is a piece of the text. *)
Lemma split_part c s p : p ∈ split c s → ∃ l r, s = l ++ p ++ r.
Proof.
  intros (l1 & l2 & Hl)%list_elem_of_split. rewrite <- (join_split c s), Hl. clear.
  induction l1 as [|y l1 (l & r & IH)]; cbn [app].
  - destruct l2 as [|z l2]; [exists [], []; by rewrite app_nil_r|]. by exists [], ([c] ++ join [c] (z :: l2)).
  - rewrite join_cons by (by destruct l1). exists (y ++ [c] ++ l), r. rewrite IH. by rewrite <- !app_assoc.
Qed.

Lemma split_join c l : l ≠ [] → Forall (λ p, c ∉ p) l → split c (join [c] l) = l.
Proof.
  intros Hl. induction 1 as [|p ps Hp Hps IH]; [done|]. destruct ps as [|q qs].
  - simpl. by apply split_single.
  - rewrite join_cons by done. destruct (split_app c p ([c] ++ join [c] (q :: qs)))
      as (a & b & u & us & E1 & E2 & ->).
    rewrite split_single in E1 by done. destruct a as [|? [|??]]; try done. simplify_eq/=.
    rewrite Z.eqb_refl in E2. injection E2 as <- E2. simpl. rewrite app_nil_r. f_equal.
    rewrite <- E2. by apply IH.
Qed.

#[export] Instance str_leb_total : Total (λ a b, Is_true (str_leb a b)).
Proof.
  intros a. induction a as [|x a IH]; intros [|y b]; simpl; auto.
  rewrite !Is_true_true, !orb_true_iff, !andb_true_iff, !Z.ltb_lt, !Z.eqb_eq.
  destruct (Z.lt_trichotomy x y) as [?|[->|?]]; [auto| |auto].
  destruct (IH b) as [H|H]; apply Is_true_true in H; auto.
Qed.

#[export] Instance str_leb_trans : Transitive (λ a b, Is_true (str_leb a b)).
Proof.
  intros a. induction a as [|x a IH]; intros [|y b] [|z c]; simpl; try done.
  rewrite !Is_true_true, !orb_true_iff, !andb_true_iff, !Z.ltb_lt, !Z.eqb_eq.
  intros [?|[-> H1]] [?|[-> H2]]; [left; lia|left; lia|left; lia|right].
  split; [done|]. rewrite <- Is_true_true in *. eauto.
Qed.

(** ** Values *)

(** What [JSON.parse] and property reads return.  A number is the double
    [m * 2 ^ e]. *)
Inductive jsval :=
  | Undefined
  | Null
  | Bool (b : bool)
  | Num (m e : Z)
  | Str (s : jstr)
  | Arr (l : list jsval)
  | Obj (props : list (jstr * jsval)).

Definition truthy (v : jsval) : bool :=
  match v with
  | Undefined | Null => false
  | Bool b => b
  | Num m _ => negb (m =? 0)
  | Str s => negb (bool_decide (s = []))
  | Arr _ | Obj _ => true
  end.

(** [a || b] *)
Definition js_or (a b : jsval) : jsval := if truthy a then a else b.

(** Strict equality with a string literal, [true] and [null]. *)
Definition is_str (s : jstr) (v : jsval) : bool :=
  match v with Str t => bool_decide (t = s) | _ => false end.

Definition is_true (v : jsval) : bool := match v with Bool true => true | _ => false end.

Definition is_null (v : jsval) : bool := match v with Null => true | _ => false end.

(** Equality of map keys and of [includes].  An object or array that was just
    parsed is equal to no other; the rest compare by value. *)
Definition sameKey (a b : jsval) : bool :=
  match a, b with
  | Undefined, Undefined | Null, Null => true
  | Bool x, Bool y => Bool.eqb x y
  | Num m e, Num n f => m * 2 ^ Z.max 0 (e - f) =? n * 2 ^ Z.max 0 (f - e)
  | Str s, Str t => bool_decide (s = t)
  | _, _ => false
  end.

Fixpoint assoc (k : jstr) (l : list (jstr * jsval)) : option jsval :=
  match l with
  | [] => None
  | (k', v) :: r => if bool_decide (k' = k) then Some v else assoc k r
  end.

(** [o[k] = v]: an own property keeps its place, a new one comes last. *)
Fixpoint assign (k : jstr) (v : jsval) (l : list (jstr * jsval)) : list (jstr * jsval) :=
  match l with
  | [] => [(k, v)]
  | (k', v') :: r => if bool_decide (k' = k) then (k, v) :: r else (k', v') :: assign k v r
  end.

Lemma assoc_assign k k' v l :
  assoc k (assign k' v l) = if bool_decide (k' = k) then Some v else assoc k l.
Proof.
  induction l as [|[a w] l IH]; simpl; [done|].
  repeat (case_bool_decide; simpl; subst; try done).
Qed.

(** [Object.assign(o, p)], [{...o, ...p}] *)
Definition assignAll (o p : list (jstr * jsval)) : list (jstr * jsval) :=
  foldl (λ o q, assign q.1 q.2 o) o p.

Lemma assoc_assignAll k o p : NoDup p.*1 →
  assoc k (assignAll o p) = match assoc k p with Some v => Some v | None => assoc k o end.
Proof.
  revert o. induction p as [|[a v] p IH]; intros o; csimpl; [done|].
  intros [Ha Hp]%NoDup_cons. unfold assignAll in *. simpl. rewrite IH by done. rewrite assoc_assign.
  destruct (bool_decide_reflect (a = k)) as [->|Hk]; [|done].
  assert (assoc k p = None) as ->; [|done].
  clear -Ha. induction p as [|[b w] p IH]; csimpl in *; [done|].
  rewrite not_elem_of_cons in Ha. rewrite bool_decide_eq_false_2; [|naive_solver]. naive_solver.
Qed.

(** Own enumerable properties, in order. *)
Definition ownProps (r : jsval) : list (jstr * jsval) :=
  match r with
  | Obj l => l
  | Arr l => imap (λ i v, (decimal i, v)) l
  | Str s => imap (λ i c, (decimal i, Str [c])) s
  | _ => []
  end.

#[export] Instance runes_inj : Inj (=) (=) runes.
Proof.
  intros s. induction s as [|c s IH]; intros [|d t]; try done.
  intros [= H1%N2Z.inj H2]. rewrite (IH _ H2). f_equal.
  by rewrite <- (Ascii.ascii_N_embedding c), H1, Ascii.ascii_N_embedding.
Qed.

#[export] Instance decimal_inj : Inj (=) (=) decimal.
Proof. intros m n H. by apply runes_inj, (inj pretty) in H. Qed.

Lemma imap_decimal_nodup {A B} (f : nat → A → B) (l : list A) n :
  NoDup (imap (λ i v, (decimal (n + i), f i v)) l).*1.
Proof.
  rewrite fmap_imap. apply NoDup_alt. intros i j x. rewrite !list_lookup_imap.
  destruct (l !! i), (l !! j); try done. simpl. intros [= <-] [= E]. apply (inj decimal) in E. lia.
Qed.

(** Arrays and strings have distinct own properties. *)
Lemma ownProps_nodup v : (∀ l, v = Obj l → NoDup l.*1) → NoDup (ownProps v).*1.
Proof.
  destruct v; simpl; intros H; try apply NoDup_nil_2.
  - apply (imap_decimal_nodup (λ _ c, Str [c]) s 0).
  - apply (imap_decimal_nodup (λ _ v, v) l 0).
  - by apply H.
Qed.

(** An exception, by its message. *)
Record exn := Exn { message : jstr }.

Definition nullish (v : jsval) : option jstr :=
  match v with
  | Undefined => Some (runes "undefined")
  | Null => Some (runes "null")
  | _ => None
  end.

(** Property read on a value that is not nullish.  The names the scripts read
    are not on the prototype chain of any JSON value, [length] apart. *)
Definition prop (v : jsval) (k : jstr) : jsval :=
  match v with
  | Obj l => default Undefined (assoc k l)
  | _ => Undefined
  end.

(** [v.k] *)
Definition get (v : jsval) (k : string) : exn + jsval :=
  match nullish v with
  | Some n =>
    inl (Exn (runes "Cannot read properties of " ++ n ++ runes " (reading '" ++ runes k ++ runes "')"))
  | None => inr (prop v (runes k))
  end.

(** [v?.k] *)
Definition get_opt (v : jsval) (k : string) : jsval :=
  match nullish v with Some _ => Undefined | None => prop v (runes k) end.

(** [v?.[0]] *)
Definition first_opt (v : jsval) : jsval :=
  match v with
  | Arr l => default Undefined (head l)
  | Str s => match s with c :: _ => Str [c] | [] => Undefined end
  | Obj l => default Undefined (assoc (runes "0") l)
  | _ => Undefined
  end.

(** [k in v] *)
Definition has_key (k : string) (v : jsval) : exn + bool :=
  match v with
  | Obj l => inr (bool_decide (is_Some (assoc (runes k) l)))
  | Arr _ => inr false
  | _ => inl (Exn (runes "Cannot use 'in' operator to search for '" ++ runes k ++ runes "'"))
  end.

(** ** String conversion

    [numberToString] is the decimal rendering of a double, which the scripts use
    only inside messages. *)
Section convert.
Context (numberToString : Z → Z → jstr).

Fixpoint toString (v : jsval) : jstr :=
  match v with
  | Undefined => runes "undefined"
  | Null => runes "null"
  | Bool true => runes "true"
  | Bool false => runes "false"
  | Num m e => numberToString m e
  | Str s => s
  | Arr l =>
    join (runes ",")
      (map (λ x, match x with Undefined | Null => [] | _ => toString x end) l)
  | Obj _ => runes "[object Object]"
  end.

Definition hex4 (c : Z) : jstr :=
  let d (n : Z) := if n <? 10 then 48 + n else 87 + n in
  [d (c / 4096 mod 16); d (c / 256 mod 16); d (c / 16 mod 16); d (c mod 16)].

(** One unit of a JSON string literal; surrogates are judged by [quoteAll]. *)
Definition quoteUnit (c : Z) : jstr :=
  if c =? 34 then [92; 34] else if c =? 92 then [92; 92]
  else if c =? 8 then runes "\b" else if c =? 12 then runes "\f"
  else if c =? 10 then runes "\n" else if c =? 13 then runes "\r"
  else if c =? 9 then runes "\t"
  else if c <? 32 then runes "\u" ++ hex4 c else [c].

Definition isLead (c : Z) : bool := (55296 <=? c) && (c <=? 56319).
Definition isTrail (c : Z) : bool := (56320 <=? c) && (c <=? 57343).

Fixpoint quoteAll (s : jstr) : jstr :=
  match s with
  | [] => []
  | c :: r =>
    if isLead c then
      match r with
      | d :: r' => if isTrail d then c :: d :: quoteAll r' else runes "\u" ++ hex4 c ++ quoteAll r
      | [] => runes "\u" ++ hex4 c
      end
    else if isTrail c then runes "\u" ++ hex4 c ++ quoteAll r
    else quoteUnit c ++ quoteAll r
  end.

Definition quoteJSON (s : jstr) : jstr := [34] ++ quoteAll s ++ [34].

Fixpoint stringifyVal (v : jsval) : jstr :=
  match v with
  | Undefined | Null => runes "null"
  | Bool true => runes "true"
  | Bool false => runes "false"
  | Num m e => numberToString m e
  | Str s => quoteJSON s
  | Arr l => runes "[" ++ join (runes ",") (map stringifyVal l) ++ runes "]"
  | Obj l =>
    runes "{" ++ join (runes ",") (map (λ p, quoteJSON p.1 ++ runes ":" ++ stringifyVal p.2) l)
      ++ runes "}"
  end.

(** [JSON.stringify(v)] concatenated to a string. *)
Definition stringify (v : jsval) : jstr :=
  match v with Undefined => runes "undefined" | _ => stringifyVal v end.

End convert.

(** ** Exceptions

    Statements that may throw are sequenced in the error monad. *)
Definition throw {A} (s : jstr) : exn + A := inl (Exn s).
