(* ===== verification/Playwright.v ===== *)
(** * Driving a browser

    The interface the end-to-end scripts are written against.  The browser and
    the server behind it are a parameter: [Host] answers each playwright call, may
    reject it, and reports the page events raised before the call settled.  The
    scripts are programs of the state-and-exception monad [M]: a script has local
    variables [L] that its event handler updates whenever the page raises an
    event, and an [await] that rejects throws.

    [trace] records the calls and their answers.  No script reads it; it is what
    theorems about a script's observations are stated on. *)

From Stdlib Require Import ZArith Lia.
From stdpp Require Import base numbers strings gmap option list.
From S2P Require Import Prelude Js.

Open Scope Z_scope.

(** ** Calls *)

(** Locators; regular expressions and selectors are kept by their source text
    (without the quotes around attribute values), since the browser matches
    them. *)
Inductive Locator :=
  | Css (selector : string)
  | ByRole (role : string) (name_re : string)
  | ByText (re : string)
  | ByLabel (re : string)
  | LOr (a b : Locator)
  | First (l : Locator)
  | Last (l : Locator).

Inductive Cmd :=
  | Launch (executablePath : option jstr)
  | NewContext
  | NewPage
  | Goto (url : jstr)
  | Fill (l : Locator) (text : jstr)
  | Click (l : Locator)
  | WaitForLoadState
  | WaitForFunction
  | WaitForTimeout (ms : Z)
  | Count (l : Locator)
  | GetAttribute (l : Locator) (name : string)
  | PageUrl
  | PageContent
  | RequestGet (url : jstr) (bearer : jstr)
  | RequestPost (url : jstr) (bearer : option jstr) (data : list (jstr * jsval))
  | PageFetch (url : jstr)
  | DocumentCookie
  | DateNow
  | CloseContext
  | CloseBrowser.

(** A [fetch] response: its status and its body, [None] when it is not JSON. *)
Record Response := { rstatus : Z; rbody : option jsval }.

(** [r.ok] *)
Definition rok (r : Response) : bool := (200 <=? rstatus r) && (rstatus r <=? 299).

(** What a call answers.  A request answers its JSON body, [None] when reading it
    rejects. *)
Definition Ans (c : Cmd) : Type :=
  match c with
  | Count _ => nat
  | GetAttribute _ _ => option jstr
  | PageUrl | PageContent | DocumentCookie => jstr
  | RequestGet _ _ | RequestPost _ _ _ => option jsval
  | PageFetch _ => Response
  | DateNow => nat
  | _ => unit
  end.

(** Page events.  An error carries its stack and message, its [String(e)] and the
    page's URL when it was raised. *)
Inductive Event :=
  | PageError (stack : option jstr) (msg shown url : jstr)
  | Console (type text : jstr).

(** The parts of Node's [URL] the scripts read; an absent port is [None]. *)
Record UrlParts := { protocol : jstr; hostname : jstr; port : option Z }.

(** The world a script runs in: the calls, and what Node's library computes for
    it (the rendering of a double, the stack of an error, URL parsing and the
    query parameters of a URL). *)
Class Host (W : Type) := {
  exec : ∀ c : Cmd, W → W * list Event * (exn + Ans c);
  numberToString : Z → Z → jstr;
  errorStack : exn → jstr;
  parseURL : jstr → exn + UrlParts;
  searchParams : jstr → exn + (string → option jstr);
}.

(** The file system as the scripts probe it; [readdirSync] throws on [None]. *)
Record Fs := { readdirSync : jstr → option (list jstr); existsSync : jstr → bool }.

(** [process.env.X || d] *)
Definition env_or (v : option jstr) (d : string) : jstr :=
  match v with
  | Some (c :: r) => c :: r
  | _ => runes d
  end.

(** [`${process.env.X}`] *)
Definition env_text (v : option jstr) : jstr := default (runes "undefined") v.

(** One recorded call: the events raised before it settled, and its outcome. *)
Inductive Obs := Called (c : Cmd) (evs : list Event) (r : exn + Ans c).

Definition obsEvents (o : Obs) : list Event := let 'Called _ evs _ := o in evs.

(** ** Programs *)

Record St (W L : Type) := mkSt { world : W; local : L; trace : list Obs }.
Arguments mkSt {W L} _ _ _.
Arguments world {W L} _.
Arguments local {W L} _.
Arguments trace {W L} _.

Definition M (W L A : Type) : Type := St W L → St W L * (exn + A).

Definition bindM {W L A B} (m : M W L A) (k : A → M W L B) : M W L B :=
  λ s, match m s with
       | (s', inr a) => k a s'
       | (s', inl e) => (s', inl e)
       end.

(** Notation for the scripts: [await]s in sequence. *)
Declare Scope script_scope.
Delimit Scope script_scope with script.
Notation "'let*' x ':=' m 'in' k" := (bindM m (λ x, k))
  (at level 10, x name, m at level 100, k at level 200) : script_scope.
Notation "m ;; k" := (bindM m (λ _, k)) (at level 100, k at level 200, right associativity) : script_scope.
Open Scope script_scope.

Definition ret {W L A} (a : A) : M W L A := λ s, (s, inr a).

Definition raise {W L A} (msg : jstr) : M W L A := λ s, (s, inl (Exn msg)).

(** A synchronous expression that may throw. *)
Definition lift {W L A} (r : exn + A) : M W L A := λ s, (s, r).

(** [p.catch(h)] and [try { .. } catch (e) { .. }] *)
Definition catch {W L A} (m : M W L A) (h : exn → M W L A) : M W L A :=
  λ s, match m s with
       | (s', inl e) => h e s'
       | (s', inr a) => (s', inr a)
       end.

(** [if (b) m] *)
Definition whenM {W L} (b : bool) (m : M W L unit) : M W L unit := if b then m else ret tt.

(** [for (const x of l) await f(x)] *)
Fixpoint forM {W L A} (l : list A) (f : A → M W L unit) : M W L unit :=
  match l with
  | [] => ret tt
  | x :: r => f x ;; forM r f
  end.

Definition getL {W L} : M W L L := λ s, (s, inr (local s)).

Definition putL {W L} (f : L → L) : M W L unit :=
  λ s, (mkSt (world s) (f (local s)) (trace s), inr tt).

Section calls.
Context {W L : Type} {H : Host W} (on : Event → L → L).

(** [await page.c(..)]: the events raised meanwhile reach the handlers first. *)
Definition call (c : Cmd) : M W L (Ans c) :=
  λ s, let '(w, evs, r) := exec c (world s) in
       (mkSt w (foldl (λ l e, on e l) (local s) evs) (trace s ++ [Called c evs r]), r).

(** [await page.c(..).catch(() => {})] *)
Definition call_ignore (c : Cmd) : M W L unit :=
  catch (call c ;; ret tt) (λ _, ret tt).

(** [(await page.request.get(..)).json().catch(() => ({}))]: only a body that is
    not JSON is replaced; a request that rejects throws. *)
Definition requestGet (url bearer : jstr) : M W L jsval :=
  let* r := call (RequestGet url bearer) in ret (default (Obj []) r).

Definition requestPost (url : jstr) (bearer : option jstr) (data : list (jstr * jsval)) : M W L jsval :=
  let* r := call (RequestPost url bearer data) in ret (default (Obj []) r).

End calls.

(** ** Monad laws and the sequencing of outcomes *)

Lemma bindM_assoc {W L A B C} (m : M W L A) (f : A → M W L B) (g : B → M W L C) s :
  bindM (bindM m f) g s = bindM m (λ x, bindM (f x) g) s.
Proof. unfold bindM. by destruct (m s) as [s' [e|a]]. Qed.

Lemma bindM_ext {W L A B} (m : M W L A) (f g : A → M W L B) s :
  (∀ a s, f a s = g a s) → bindM m f s = bindM m g s.
Proof. intros Hfg. unfold bindM. by destruct (m s) as [s' [e|a]]. Qed.

Lemma bindM_inr {W L A B} (m : M W L A) (k : A → M W L B) s s' b :
  bindM m k s = (s', inr b) ↔ ∃ s1 a, m s = (s1, inr a) ∧ k a s1 = (s', inr b).
Proof.
  unfold bindM. destruct (m s) as [s1 [e|a]].
  - split; [done|]. intros (? & ? & Heq & _). discriminate Heq.
  - split; [by exists s1, a|]. intros (? & ? & [= <- <-] & H). done.
Qed.

Lemma forM_app {W L A} (l1 l2 : list A) (f : A → M W L unit) s :
  forM (l1 ++ l2) f s = bindM (forM l1 f) (λ _, forM l2 f) s.
Proof.
  revert s. induction l1 as [|x l1 IH]; intros s; [done|]. simpl.
  rewrite bindM_assoc. unfold bindM. destruct (f x s) as [s1 [e|[]]]; [done|]. by rewrite IH.
Qed.

(** ** Programs that only make calls

    Such a program changes its local variables through the event handler alone. *)
Section footprint.
Context {W L : Type} {H : Host W} (on : Event → L → L).

(** The local variables after the events of a list of calls. *)
Definition handled (l : L) (obs : list Obs) : L :=
  foldl (λ l o, foldl (λ l e, on e l) l (obsEvents o)) l obs.

Definition calls_only {A} (m : M W L A) : Prop :=
  ∀ s, ∃ obs, trace (m s).1 = trace s ++ obs ∧ local (m s).1 = handled (local s) obs.

Lemma handled_app l o1 o2 : handled l (o1 ++ o2) = handled (handled l o1) o2.
Proof. apply foldl_app. Qed.

Lemma calls_only_pure {A} (r : exn + A) : calls_only (λ s, (s, r)).
Proof. intros s. exists []. by rewrite app_nil_r. Qed.

Lemma calls_only_call c : calls_only (call on c).
Proof.
  intros s. unfold call. destruct (exec c (world s)) as [[w evs] r]. by exists [Called c evs r].
Qed.

Lemma calls_only_seq {A B} (m : M W L A) (k : St W L → (exn + A) → St W L * (exn + B)) :
  calls_only m → (∀ r, calls_only (λ s, k s r)) → calls_only (λ s, k (m s).1 (m s).2).
Proof.
  intros Hm Hk s. destruct (Hm s) as (o1 & H1 & H2). destruct (Hk (m s).2 (m s).1) as (o2 & H3 & H4).
  exists (o1 ++ o2). by rewrite H3, H4, H1, H2, handled_app, app_assoc.
Qed.

Lemma calls_only_bind {A B} (m : M W L A) (k : A → M W L B) :
  calls_only m → (∀ a, calls_only (k a)) → calls_only (bindM m k).
Proof.
  intros Hm Hk s. unfold bindM.
  pose proof (calls_only_seq m (λ s r, match r with inr a => k a s | inl e => (s, inl e) end) Hm) as Hs.
  destruct (Hs ltac:(intros [e|a]; [apply calls_only_pure|apply Hk]) s) as (o & Ho).
  exists o. by destruct (m s) as [s1 [e|a]].
Qed.

Lemma calls_only_catch {A} (m : M W L A) (h : exn → M W L A) :
  calls_only m → (∀ e, calls_only (h e)) → calls_only (catch m h).
Proof.
  intros Hm Hk s. unfold catch.
  pose proof (calls_only_seq m (λ s r, match r with inl e => h e s | inr a => (s, inr a) end) Hm) as Hs.
  destruct (Hs ltac:(intros [e|a]; [apply Hk|apply calls_only_pure]) s) as (o & Ho).
  exists o. by destruct (m s) as [s1 [e|a]].
Qed.

Lemma calls_only_ret {A} (a : A) : calls_only (ret a).
Proof. apply calls_only_pure. Qed.

Lemma calls_only_raise {A} msg : calls_only (raise (A:=A) msg).
Proof. apply calls_only_pure. Qed.

Lemma calls_only_lift {A} (r : exn + A) : calls_only (lift r).
Proof. apply calls_only_pure. Qed.

Lemma calls_only_when b m : calls_only m → calls_only (whenM b m).
Proof. destruct b; [done|]. intros _. apply calls_only_pure. Qed.

Lemma calls_only_if {A} (b : bool) (m1 m2 : M W L A) :
  calls_only m1 → calls_only m2 → calls_only (if b then m1 else m2).
Proof. by destruct b. Qed.

End footprint.

Create HintDb calls.
#[export] Hint Resolve calls_only_call calls_only_bind calls_only_catch calls_only_ret
  calls_only_raise calls_only_lift calls_only_when calls_only_if : calls.

(** Discharge [calls_only] of a program built from the combinators. *)
Ltac solve_calls := intros; repeat (cbn beta zeta; first
  [ match goal with |- calls_only _ (call _ ?c) => exact (calls_only_call _ c) end | apply calls_only_ret | apply calls_only_raise | apply calls_only_lift
  | apply calls_only_bind; [|intros ?] | apply calls_only_catch; [|intros ?]
  | apply calls_only_when | apply calls_only_if | progress intros | solve [eauto with calls] ]).
