(* ===== verification/UiSmoke.v ===== *)
(** * The UI crash smoke

    [test/e2e/ui-smoke.js]: the whole script, from the browser it picks to the
    exit code, against the interface of [Playwright]. *)

From Stdlib Require Import ZArith Lia.
From stdpp Require Import base numbers strings gmap option list sorting.
From S2P Require Import Prelude Js Playwright.

Open Scope Z_scope.
Open Scope script_scope.

(** ** Finding a cached browser *)

Section chromium.
Context (fs : Fs) (HOME : option jstr).

Definition bases : list jstr :=
  [env_text HOME ++ runes "/Library/Caches/ms-playwright";
   env_text HOME ++ runes "/.cache/ms-playwright"].

Definition subs : list string :=
  ["chrome-mac/Chromium.app/Contents/MacOS/Chromium"; "chrome-linux/chrome";
   "chrome-linux/headless_shell"].

Definition chromiumPath (base d : jstr) (sub : string) : jstr :=
  base ++ runes "/" ++ d ++ runes "/" ++ runes sub.

(** [readdirSync(base).filter(startsWith('chromium')).sort().reverse()] *)
Definition sortedBuilds (entries : list jstr) : list jstr :=
  reverse (merge_sort (λ a b, Is_true (str_leb a b))
    (filter (λ x, Is_true (startsWith (runes "chromium") x)) entries)).

(** The first existing path of a build, in the order of [subs]. *)
Definition pickSub (base d : jstr) : option jstr :=
  snd <$> list_find (λ p, Is_true (existsSync fs p)) (map (chromiumPath base d) subs).

Fixpoint pickBuild (base : jstr) (builds : list jstr) : option jstr :=
  match builds with
  | [] => None
  | d :: r => match pickSub base d with Some p => Some p | None => pickBuild base r end
  end.

(** An unreadable directory is skipped by [catch {}]. *)
Definition pickBase (base : jstr) : option jstr :=
  match readdirSync fs base with
  | None => None
  | Some entries => pickBuild base (sortedBuilds entries)
  end.

Fixpoint pickBases (l : list jstr) : option jstr :=
  match l with
  | [] => None
  | base :: r => match pickBase base with Some p => Some p | None => pickBases r end
  end.

Definition cachedChromium : option jstr := pickBases bases.

End chromium.

(** ** Recognising a crash *)

(** [re] at the start of [s], ignoring ASCII case. *)
Definition matchFold (re s : jstr) : bool := startsWith (map lowerUnit re) (map lowerUnit s).

Definition isDigit (c : Z) : bool := (48 <=? c) && (c <=? 57).

Definition crashHere (s : jstr) : bool :=
  matchFold (runes "Cannot read properties") s || matchFold (runes "is not a function") s ||
  matchFold (runes "client-side exception") s || matchFold (runes "Something went wrong") s ||
  (matchFold (runes "Minified React error #") s &&
   match drop (length (runes "Minified React error #")) s with c :: _ => isDigit c | [] => false end).

(** [CRASH_RE.test(s)] *)
Fixpoint CRASH_RE (s : jstr) : bool :=
  crashHere s || match s with [] => false | _ :: r => CRASH_RE r end.

Definition crashSource : string :=
  "Cannot read properties|is not a function|client-side exception|Something went wrong|Minified React error #\d".

(** ** State and the step runner *)

Record StepResult := { name : jstr; bad : bool; rerrs : list jstr }.

Record Vars := { errs : list jstr; results : list StepResult }.

Definition pushErr (e : jstr) (v : Vars) : Vars :=
  {| errs := errs v ++ [e]; results := results v |}.

(** The two [page.on] handlers. *)
Definition onEvent (e : Event) (v : Vars) : Vars :=
  match e with
  | PageError stack msg _ _ =>
    let text := match stack with Some (c :: r) => c :: r | _ => msg end in
    pushErr (join (runes " | ") (slice0 2 (split NL text))) v
  | Console type text =>
    if bool_decide (type = runes "error") && CRASH_RE text
    then pushErr (runes "console: " ++ firstLine text) v
    else v
  end.

(** [[...new Set(l)]] *)
Fixpoint dedupe (seen l : list jstr) : list jstr :=
  match l with
  | [] => []
  | x :: r => if bool_decide (x ∈ seen) then dedupe seen r else x :: dedupe (seen ++ [x]) r
  end.

Section script.
Context {W : Type} {H : Host W}.
Context (URL USER PASS : jstr).

Abbreviation Script := (M W Vars).
Abbreviation pw := (call (L:=Vars) onEvent).
Abbreviation pw_ignore := (call_ignore (L:=Vars) onEvent).

Definition step (nm : jstr) (fn : Script unit) : Script unit :=
  putL (λ v, {| errs := []; results := results v |}) ;;
  catch fn (λ e, putL (pushErr (runes "THREW: " ++ firstLine (message e)))) ;;
  pw (WaitForTimeout 1200) ;;
  let* overlay := catch (pw (Count (First (ByText crashSource)))) (λ _, ret 0%nat) in
  putL (λ v, {| errs := errs v;
                results := results v ++
                  [{| name := nm;
                      bad := negb (bool_decide (overlay = 0%nat)) || negb (bool_decide (errs v = []));
                      rerrs := slice0 2 (dedupe [] (errs v)) |}] |}).

Definition login : Script unit :=
  pw_ignore (Goto URL) ;;
  pw_ignore (Fill (Css "input[name=username]") USER) ;;
  pw_ignore (Fill (Css "input[name=password]") PASS) ;;
  pw_ignore (Click (Css "button[type=submit]")) ;;
  pw_ignore WaitForLoadState ;;
  pw (WaitForTimeout 1000).

Definition routes : list string :=
  ["/"; "/dags"; "/connections"; "/variables"; "/pools"; "/providers"; "/assets"; "/config";
   "/plugins"; "/xcoms"; "/security/users"; "/browse/audit_log"].

Definition routeStep (r : string) : jstr * Script unit :=
  (runes "route " ++ runes r, pw (Goto (URL ++ runes r))).

(** [if (await l.count()) await l.click()] *)
Definition clickIfAny (l : Locator) : Script unit :=
  let* n := pw (Count l) in
  whenM (negb (bool_decide (n = 0%nat))) (pw (Click l)).

Definition addForm : Script unit :=
  pw (Goto (URL ++ runes "/connections")) ;;
  clickIfAny (First (ByRole "button" "/add connection|^add$/i")).

Definition taskCell : Script unit :=
  clickIfAny (First (Css "svg rect, a[href*=tasks], [data-testid*=task-instance]")).

Definition logsTab : Script unit :=
  clickIfAny (First (LOr (ByRole "tab" "/log/i") (ByText "/^Logs?$/"))).

(** [POST /auth/token]; the body of the answer. *)
Definition postToken : Script jsval :=
  requestPost onEvent (URL ++ runes "/auth/token") None
    [(runes "username", Str USER); (runes "password", Str PASS)].

(** [auth.access_token], or an error when it is falsy. *)
Definition tokenOr (msg : string) : Script jstr :=
  let* auth := postToken in
  let* tok := lift (get auth "access_token") in
  if truthy tok then ret (toString numberToString tok) else raise (runes msg).

Definition noContent : string :=
  "logs endpoint returned no structured content (empty-log regression)".

(** [!Array.isArray(content) || content.length === 0] *)
Definition emptyContent (content : jsval) : bool :=
  match content with Arr l => bool_decide (l = []) | _ => true end.

Definition helloRuns : jstr := URL ++ runes "/api/v2/dags/hello/dagRuns".

Definition logsRender : Script unit :=
  let* tok := tokenOr "POST /auth/token returned no access_token (auth contract changed)" in
  let* run := requestGet onEvent (helloRuns ++ runes "?limit=1") tok in
  let rid := get_opt (first_opt (get_opt run "dag_runs")) "dag_run_id" in
  whenM (truthy rid)
    (let tiUrl := helloRuns ++ runes "/" ++ toString numberToString rid ++ runes "/taskInstances" in
     let* tis := requestGet onEvent tiUrl tok in
     let tid := get_opt (first_opt (get_opt tis "task_instances")) "task_id" in
     let* logs := requestGet onEvent
       (tiUrl ++ runes "/" ++ toString numberToString tid ++ runes "/logs/1") tok in
     let* content := lift (get logs "content") in
     whenM (emptyContent content) (raise (runes noContent))).

Definition actionMenu : Script unit :=
  let l := First (ByRole "button" "/clear|mark|action/i") in
  let* n := pw (Count l) in
  whenM (negb (bool_decide (n = 0%nat))) (pw_ignore (Click l)).

(** [s.replace(':', '')] *)
Fixpoint dropColon (s : jstr) : jstr :=
  match s with [] => [] | c :: r => if c =? 58 then r else c :: dropColon r end.

(** [Number(u.port) || (u.protocol === 'https:' ? 443 : 80)] *)
Definition probePort (u : UrlParts) : Z :=
  let n := default 0 (port u) in
  if n =? 0 then (if bool_decide (protocol u = runes "https:") then 443 else 80) else n.

Definition probeData (u : UrlParts) : list (jstr * jsval) :=
  [(runes "connection_id", Str (runes "smoke_http")); (runes "conn_type", Str (runes "http"));
   (runes "host", Str (hostname u)); (runes "port", Num (probePort u) 0);
   (runes "schema", Str (dropColon (protocol u)))].

Definition connectionTest : Script unit :=
  let* tok := tokenOr "POST /auth/token returned no access_token" in
  let* u := lift (parseURL URL) in
  let* res := requestPost onEvent (URL ++ runes "/api/v2/connections/test") (Some tok) (probeData u) in
  let* status := lift (get res "status") in
  whenM (negb (is_true status))
    (raise (runes "Test probe failed for a reachable endpoint (port/schema dropped?): "
            ++ toString numberToString (get_opt res "message"))).

(** ** The params DAG *)

Definition paramsDag : jstr := runes "params_demo".

Definition mintToken : Script jstr := tokenOr "POST /auth/token returned no access_token".

(** [!region || !('value' in region) || !region.schema || region.schema.type !== 'string'] *)
Definition regionBad (region : jsval) : exn + bool :=
  if negb (truthy region) then inr true
  else
    match has_key "value" region with
    | inl e => inl e
    | inr false => inr true
    | inr true =>
      let schema := get_opt region "schema" in
      inr (negb (truthy schema) || negb (is_str (runes "string") (get_opt schema "type")))
    end.

(** [!('run_label' in p) || p.run_label.value !== null] *)
Definition runLabelBad (p : jsval) : exn + bool :=
  match has_key "run_label" p with
  | inl e => inl e
  | inr false => inr true
  | inr true =>
    match get (get_opt p "run_label") "value" with
    | inl e => inl e
    | inr v => inr (negb (is_null v))
    end
  end.

(** The two checks on the body of [/details]. *)
Definition checkParams (det : jsval) : exn + unit :=
  match get det "params" with
  | inl e => inl e
  | inr v =>
    let p := js_or v (Obj []) in
    match regionBad (get_opt p "region") with
    | inl e => inl e
    | inr true =>
      throw (runes "region not served as {value, schema:{type}} (params wiring): "
             ++ stringify numberToString (get_opt p "region"))
    | inr false =>
      match runLabelBad p with
      | inl e => inl e
      | inr true =>
        throw (runes "required param run_label should serve value:null: "
               ++ stringify numberToString (get_opt p "run_label"))
      | inr false => inr tt
      end
    end
  end.

Definition detailsShape : Script unit :=
  let* tok := mintToken in
  let* det := requestGet onEvent (URL ++ runes "/api/v2/dags/" ++ paramsDag ++ runes "/details") tok in
  lift (checkParams det).

(** [if (!(await l.count())) throw new Error(msg)] *)
Definition mustRender (l : Locator) (msg : string) : Script unit :=
  let* n := pw (Count l) in
  whenM (bool_decide (n = 0%nat)) (raise (runes msg)).

Definition triggerDialog : Script unit :=
  pw (Goto (URL ++ runes "/dags/" ++ paramsDag)) ;;
  mustRender (First (ByRole "button" "/^trigger/i")) "no Trigger button on the params DAG page" ;;
  pw (Click (First (ByRole "button" "/^trigger/i"))) ;;
  pw (WaitForTimeout 1000) ;;
  mustRender (First (ByText "/Run label|Region/i")) "no generated form field rendered from declared params" ;;
  mustRender (First (ByText "/Configuration JSON|Advanced Options/i"))
    "Configuration JSON editor not offered alongside the form".

(** [(r) => r && r.conf && r.conf.run_label === label] *)
Definition carries (label : jstr) (r : jsval) : bool :=
  truthy r && truthy (get_opt r "conf") && is_str label (get_opt (get_opt r "conf") "run_label").

(** [(runs.dag_runs || []).find(..)] *)
Definition findRun (label : jstr) (runs : jsval) : exn + jsval :=
  match get runs "dag_runs" with
  | inl e => inl e
  | inr v =>
    match js_or v (Arr []) with
    | Arr l => inr (default Undefined (snd <$> list_find (λ r, Is_true (carries label r)) l))
    | _ => throw (runes "(runs.dag_runs || []).find is not a function")
    end
  end.

(** The polling loop, [n] rounds from the end. *)
Fixpoint poll (tok label : jstr) (n : nat) (created : jsval) : Script jsval :=
  match n with
  | O => ret created
  | S n =>
    if truthy created then ret created
    else
      pw (WaitForTimeout 1000) ;;
      let* runs := requestGet onEvent
        (URL ++ runes "/api/v2/dags/" ++ paramsDag ++ runes "/dagRuns?limit=100") tok in
      let* created := lift (findRun label runs) in
      poll tok label n created
  end.

(** The two checks on the run found. *)
Definition checkCreated (created : jsval) : exn + unit :=
  if negb (truthy created)
  then throw (runes "form submit did not create a run carrying the submitted run_label conf")
  else if negb (is_str (runes "us") (get_opt (get_opt created "conf") "region"))
  then throw (runes "declared default region=us not materialized into conf: "
              ++ stringify numberToString (get_opt created "conf"))
  else inr tt.

Definition triggerSubmit : Script unit :=
  let* tok := mintToken in
  let* now := pw DateNow in
  let label := runes "smoke-" ++ decimal now in
  let byLabel := First (ByLabel "/Run label/i") in
  let* n := pw (Count byLabel) in
  let input := if bool_decide (n = 0%nat) then Css "input[name=element_run_label]" else byLabel in
  pw (Fill input label) ;;
  pw_ignore (Click (Last (ByRole "button" "/^trigger$/i"))) ;;
  let* created := poll tok label 20 Null in
  lift (checkCreated created).

(** ** The run *)

Definition steps : list (jstr * Script unit) :=
  map routeStep routes ++
  [(runes "connections: open Add form", addForm);
   (runes "dag grid: a DAG", pw (Goto (URL ++ runes "/dags/hello")));
   (runes "open a task cell", taskCell);
   (runes "open Logs tab", logsTab);
   (runes "logs: content renders", logsRender);
   (runes "open action menu", actionMenu);
   (runes "connection Test honors port+schema", connectionTest);
   (runes "params DAG: /details serves typed params in Airflow shape", detailsShape);
   (runes "trigger dialog: generated form + JSON editor both render", triggerDialog);
   (runes "trigger form: submit creates a run with the expected conf", triggerSubmit)].

Definition main (exe : option jstr) : Script unit :=
  pw (Launch exe) ;; pw NewContext ;; pw NewPage ;;
  login ;;
  forM steps (λ '(nm, fn), step nm fn) ;;
  pw CloseBrowser.

(** ** The report *)

(** How the process is told to end: the code stored in [process.exitCode], the
    code of the 5 s backstop and that of the write callback. *)
Record Exit := {
  exitCode : Z; timerExit : Z; writeExit : Z; text : jstr; toStderr : bool;
}.

Definition finish (code : Z) (txt : jstr) (stderr : bool) : Exit :=
  {| exitCode := code; timerExit := code; writeExit := code; text := txt; toStderr := stderr |}.

Definition reportLines (r : StepResult) : list jstr :=
  ((if bad r then runes "FAIL" else runes "ok  ") ++ runes "  " ++ name r) ::
  map (λ e, runes "        " ++ slice0 200 e) (rerrs r).

Definition report (rs : list StepResult) : list jstr :=
  let failed := filter (λ r, Is_true (bad r)) rs in
  [[]; runes "===== UI SMOKE ====="] ++ (rs ≫= reportLines) ++
  [if bool_decide (failed = [])
   then [NL] ++ runes "UI SMOKE PASSED: " ++ decimal (length rs)
        ++ runes " screens/interactions, no crashes."
   else [NL] ++ runes "UI SMOKE FAILED: " ++ decimal (length failed)
        ++ runes " screen(s) threw an uncaught error."].

Definition summarize (rs : list StepResult) : Exit :=
  finish (if bool_decide (filter (λ r, Is_true (bad r)) rs = []) then 0 else 1)
    (join [NL] (report rs) ++ [NL]) false.

Definition start (w : W) : St W Vars := mkSt w {| errs := []; results := [] |} [].

Definition runSmoke (exe : option jstr) (w : W) : Exit :=
  match main exe (start w) with
  | (s, inr _) => summarize (results (local s))
  | (_, inl e) => finish 1 (runes "FATAL " ++ errorStack e ++ [NL]) true
  end.

End script.
