(* ===== verification/UiSmokeProps.v ===== *)
(** * What the UI crash smoke establishes

    The exit code of [UiSmoke.runSmoke] against the run it reports on, and the
    contracts its API steps assert. *)

From Stdlib Require Import ZArith Lia.
From stdpp Require Import base numbers strings gmap option list sorting.
From S2P Require Import Prelude Js Playwright UiSmoke.

Open Scope Z_scope.

(** ** Events *)

(** The events the handlers count as a crash. *)
Definition crashing (e : Event) : bool :=
  match e with
  | PageError _ _ _ _ => true
  | Console type text => bool_decide (type = runes "error") && CRASH_RE text
  end.

Definition quiet (o : Obs) : Prop := ∀ e, e ∈ obsEvents o → crashing e = false.

Lemma onEvent_results e v : results (onEvent e v) = results v.
Proof. destruct e; simpl; [done|]. by case_goal. Qed.

Lemma onEvent_errs e v : ∃ l, errs (onEvent e v) = errs v ++ l ∧ (l = [] ↔ crashing e = false).
Proof.
  destruct e as [st m sh u|ty tx]; simpl.
  - eexists; split; [reflexivity|]. by split.
  - destruct (bool_decide (ty = runes "error") && CRASH_RE tx) eqn:E; simpl.
    + eexists; split; [reflexivity|]. by split.
    + exists []. by rewrite app_nil_r.
Qed.

Lemma foldl_events_errs evs v : ∃ l,
  errs (foldl (λ l e, onEvent e l) v evs) = errs v ++ l ∧
  (l = [] ↔ ∀ e, e ∈ evs → crashing e = false).
Proof.
  revert v. induction evs as [|e evs IH]; intros v.
  { exists []. rewrite app_nil_r. split; [done|]. split; [|done]. intros _ e He.
    by apply not_elem_of_nil in He. }
  destruct (IH (onEvent e v)) as (l & Hl & Hq). destruct (onEvent_errs e v) as (l1 & H1 & Hc).
  exists (l1 ++ l). simpl. rewrite Hl, H1, app_assoc. split; [done|]. rewrite app_nil, Hc, Hq. split.
  - intros [? ?] x [->|Hx]%elem_of_cons; auto.
  - intros Hall. split; [apply Hall; left|]. intros x Hx. apply Hall. by right.
Qed.

Lemma handled_errs obs v : ∃ l,
  errs (handled onEvent v obs) = errs v ++ l ∧ (l = [] ↔ Forall quiet obs).
Proof.
  revert v. induction obs as [|o obs IH]; intros v.
  { exists []. rewrite app_nil_r. by split. }
  destruct (IH (foldl (λ l e, onEvent e l) v (obsEvents o))) as (l & Hl & Hq).
  destruct (foldl_events_errs (obsEvents o) v) as (l1 & H1 & Hc).
  exists (l1 ++ l). unfold handled in *. simpl. rewrite Hl, H1, app_assoc. split; [done|].
  by rewrite app_nil, Forall_cons, Hc, Hq.
Qed.

Lemma handled_results obs v : results (handled onEvent v obs) = results v.
Proof.
  revert v. induction obs as [|o obs IH]; intros v; [done|]. unfold handled in *. simpl.
  rewrite IH. generalize (obsEvents o) as evs. intros evs. revert v.
  induction evs as [|e evs IHe]; intros v; [done|]. simpl. by rewrite IHe, onEvent_results.
Qed.

Section smoke.
Context {W : Type} {H : Host W}.
Context (URL USER PASS : jstr).

Abbreviation Script := (M W Vars).
Abbreviation pw := (call (W:=W) (L:=Vars) onEvent).

(** ** Every body only makes calls *)

Lemma steps_calls : Forall (λ st : jstr * Script unit, calls_only onEvent st.2) (steps URL USER PASS).
Proof.
  assert (Htok : ∀ m, calls_only onEvent (tokenOr (W:=W) URL USER PASS m))
    by (unfold tokenOr, postToken, requestPost; solve_calls).
  assert (Hpoll : ∀ n tok label c, calls_only onEvent (poll (W:=W) URL tok label n c)).
  { induction n; simpl; unfold requestGet; solve_calls. }
  assert (Hclick : ∀ l, calls_only onEvent (clickIfAny (W:=W) l)) by (unfold clickIfAny; solve_calls).
  unfold steps. apply Forall_app. split.
  { apply Forall_map, list.Forall_forall. intros r _. exact (calls_only_call onEvent (Goto (URL ++ runes r))). }
  repeat constructor; simpl;
    unfold addForm, taskCell, logsTab, logsRender, actionMenu, connectionTest, detailsShape, mintToken,
      triggerDialog, mustRender, triggerSubmit, requestGet, requestPost, call_ignore; solve_calls.
Qed.

(** ** One step *)

(** [errs = []] *)
Definition reset (s : St W Vars) : St W Vars :=
  mkSt (world s) {| errs := []; results := results (local s) |} (trace s).

(** A step is clean when its body returns, the settling wait returns, no crash
    text is on the page (or the page cannot be asked), and nothing the page
    raised meanwhile counts as a crash. *)
Definition clean_step (fn : Script unit) (s s' : St W Vars) : Prop :=
  ∃ s1 s2 r, fn (reset s) = (s1, inr tt) ∧ pw (WaitForTimeout 1200) s1 = (s2, inr tt) ∧
    pw (Count (First (ByText crashSource))) s2 = (s', r) ∧ (∀ n, r = inr n → n = 0%nat) ∧
    ∃ obs, trace s' = trace s ++ obs ∧ Forall quiet obs.

(** The state after the result of a step is pushed. *)
Definition pushed (r : StepResult) (s : St W Vars) : St W Vars :=
  mkSt (world s) {| errs := errs (local s); results := results (local s) ++ [r] |} (trace s).

Inductive clean_steps : list (jstr * Script unit) → St W Vars → St W Vars → Prop :=
  | clean_nil s : clean_steps [] s s
  | clean_cons nm fn rest s s1 s' :
      clean_step fn s s1 →
      clean_steps rest (pushed {| name := nm; bad := false; rerrs := [] |} s1) s' →
      clean_steps ((nm, fn) :: rest) s s'.

Lemma pw_footprint c s s' r : pw c s = (s', r) →
  ∃ evs, trace s' = trace s ++ [Called c evs r] ∧ local s' = handled onEvent (local s) [Called c evs r].
Proof.
  unfold call. destruct (exec c (world s)) as [[w evs] r0]. intros [= <- <-]. by exists evs.
Qed.

(** The runner, once the body has ended one way or the other. *)
Lemma step_run nm fn s s' : step nm fn s = (s', inr tt) → calls_only onEvent fn →
  ∃ s1 r1 s2 s3 r3 obs,
    fn (reset s) = (s1, r1) ∧
    s2 = match r1 with
         | inr _ => s1
         | inl e => mkSt (world s1) (pushErr (runes "THREW: " ++ firstLine (message e)) (local s1)) (trace s1)
         end ∧
    pw (Count (First (ByText crashSource))) (pw (WaitForTimeout 1200) s2).1 = (s3, r3) ∧
    (pw (WaitForTimeout 1200) s2).2 = inr tt ∧
    trace s3 = trace s ++ obs ∧
    (∃ l, errs (local s3) = match r1 with inr _ => l | inl _ => l end ∧
       (l = [] ↔ Forall quiet obs ∧ r1 = inr tt)) ∧
    results (local s3) = results (local s) ∧
    s' = pushed {| name := nm;
      bad := negb (match r3 with inr n => bool_decide (n = 0%nat) | inl _ => true end)
             || negb (bool_decide (errs (local s3) = []));
      rerrs := slice0 2 (dedupe [] (errs (local s3))) |} s3.
Proof.
  intros Hs Hfn. destruct (Hfn (reset s)) as (o1 & Ht1 & Hl1).
  unfold step in Hs. apply bindM_inr in Hs as (s0 & [] & H0 & Hs). injection H0 as <-.
  fold (reset s) in Hs. apply bindM_inr in Hs as (s2 & [] & Hcatch & Hs).
  apply bindM_inr in Hs as (s2' & [] & E2 & Hs).
  unfold catch in Hcatch. destruct (fn (reset s)) as [s1 r1] eqn:E1. cbn [fst] in Ht1, Hl1.
  assert (Es2 : s2 = match r1 with inr _ => s1 | inl e =>
    mkSt (world s1) (pushErr (runes "THREW: " ++ firstLine (message e)) (local s1)) (trace s1) end).
  { destruct r1 as [e|[]]; by injection Hcatch as <-. }
  apply bindM_inr in Hs as (s3 & overlay & E3 & Hs). unfold catch in E3.
  destruct (pw (Count (First (ByText crashSource))) s2') as [s3' r3] eqn:E3'.
  assert (s3' = s3) as -> by (destruct r3; by injection E3).
  destruct (pw_footprint _ _ _ _ E2) as (ev2 & Ht2 & Hl2).
  destruct (pw_footprint _ _ _ _ E3') as (ev3 & Ht3 & Hl3).
  match type of Ht2 with _ = _ ++ ?o => remember o as o2 eqn:Eo2 in * end.
  match type of Ht3 with _ = _ ++ ?o => remember o as o3 eqn:Eo3 in * end.
  assert (Htr : trace s2 = trace s ++ o1) by (rewrite Es2; by destruct r1).
  exists s1, r1, s2, s3, r3, (o1 ++ o2 ++ o3).
  rewrite E2. split_and!; [done|done|done|done| | | |].
  - by rewrite Ht3, Ht2, Htr, <- !app_assoc.
  - destruct (handled_errs o1 (local (reset s))) as (l1 & He1 & Hq1).
    destruct (handled_errs (o2 ++ o3) (local s2))
      as (l2 & He2 & Hq2).
    exists (errs (local s2) ++ l2). split.
    { rewrite Hl3, Hl2, <- handled_app, He2. by destruct r1. }
    rewrite app_nil, Forall_app, Hq2. rewrite Es2. 
    assert (He1' : errs (local s1) = l1) by (by rewrite Hl1, He1).
    destruct r1 as [e|[]]; simpl; rewrite He1'.
    + split; [|by intros [_ ?]]. intros [Hn _]. by destruct l1.
    + rewrite Hq1. tauto.
  - rewrite Hl3, Hl2, <- handled_app, handled_results, Es2.
    assert (Hr1 : results (local s1) = results (local s)) by (by rewrite Hl1, handled_results).
    by destruct r1.
  - injection Hs as <-. by destruct r3 as [e|n]; injection E3 as <-.
Qed.

Lemma slice_dedupe_nil : slice0 2 (dedupe [] []) = [].
Proof. done. Qed.

(** The runner pushes exactly one result under the step's name; it is good
    exactly for a clean step. *)
Lemma step_verdict nm fn s s' : calls_only onEvent fn → step nm fn s = (s', inr tt) →
  ∃ r, results (local s') = results (local s) ++ [r] ∧ name r = nm ∧
    (bad r = false ↔ ∃ s1, clean_step fn s s1 ∧ s' = pushed {| name := nm; bad := false; rerrs := [] |} s1).
Proof.
  intros Hfn Hs.
  destruct (step_run _ _ _ _ Hs Hfn) as (s1 & r1 & s2 & s3 & r3 & obs & E1 & Es2 & E3 & E2 & Ht & (l & He & Hl) & Hr & ->).
  assert (Hel : errs (local s3) = l) by (by destruct r1). clear He.
  eexists. split; [simpl; by rewrite Hr|]. split; [done|]. simpl. rewrite Hel. split.
  - intros Hb. apply orb_false_iff in Hb as [Hb1 Hb2].
    apply negb_false_iff in Hb1, Hb2. apply bool_decide_eq_true in Hb2 as ->.
    destruct (proj1 Hl eq_refl) as [Hq ->]. exists s3. split.
    + exists s1, (pw (WaitForTimeout 1200) s2).1, r3. subst s2. split_and!; [done| |done| |eauto].
      * rewrite <- E2. apply surjective_pairing.
      * intros n ->. by apply bool_decide_eq_true in Hb1.
    + rewrite Hb1. done.
  - intros (t & (t1 & t2 & r & F1 & F2 & F3 & F4 & obs' & F5 & F6) & Heq).
    injection Heq as _ _ Hcell _. apply app_inj_tail in Hcell as [_ Hcell]. by injection Hcell.
Qed.

(** A clean step runs to its good result. *)
Lemma clean_step_run nm fn s s1 : calls_only onEvent fn → clean_step fn s s1 →
  step nm fn s = (pushed {| name := nm; bad := false; rerrs := [] |} s1, inr tt).
Proof.
  intros Hfn (t1 & t2 & r & F1 & F2 & F3 & F4 & obs & F5 & F6).
  assert (Hrun : ∃ s', step nm fn s = (s', inr tt)).
  { unfold step. unfold bindM at 1. cbn -[call crashSource]. fold (reset s).
    unfold bindM at 1, catch at 1. rewrite F1. unfold bindM at 1. rewrite F2.
    unfold bindM at 1, catch. rewrite F3. destruct r; eexists; reflexivity. }
  destruct Hrun as [s' Hrun]. rewrite Hrun.
  destruct (step_run _ _ _ _ Hrun Hfn)
    as (u1 & r1 & u2 & u3 & r3 & obs' & E1 & -> & E3 & E2 & Ht & (l & He & Hl) & Hr & ->).
  rewrite F1 in E1. injection E1 as <- <-. rewrite F2 in E3. simpl in E3. rewrite F3 in E3.
  injection E3 as <- <-. rewrite F5 in Ht. apply app_inv_head in Ht as <-.
  rewrite He, (proj2 Hl (conj F6 eq_refl)). destruct r as [e|n]; [done|].
  by rewrite (F4 n eq_refl).
Qed.

Abbreviation runStep := (λ '(nm, fn), step (W:=W) nm fn).

Lemma forM_verdicts l s s' :
  Forall (λ st : jstr * Script unit, calls_only onEvent st.2) l →
  forM l runStep s = (s', inr tt) →
  ∃ rs, results (local s') = results (local s) ++ rs ∧ map name rs = map fst l ∧
    (Forall (λ r, bad r = false) rs → clean_steps l s s').
Proof.
  intros Hl. revert s. induction Hl as [|[nm fn] l Hfn Hl IH]; intros s.
  { simpl. intros [= <-]. exists []. rewrite app_nil_r. split_and!; try done. constructor. }
  cbn [forM]. intros Hs. apply bindM_inr in Hs as (s1 & [] & H1 & H2).
  destruct (step_verdict nm fn s s1 Hfn H1) as (r & Hr & Hn & Hb).
  destruct (IH s1 H2) as (rs & Hrs & Hns & Hc).
  exists (r :: rs). split_and!.
  - by rewrite Hrs, Hr, <- app_assoc.
  - simpl. by rewrite Hn, Hns.
  - intros [Hbad Hrest]%Forall_cons. destruct (proj1 Hb Hbad) as (t & Ht & ->).
    econstructor; [done|]. by apply Hc.
Qed.

Lemma clean_steps_run l s s' :
  Forall (λ st : jstr * Script unit, calls_only onEvent st.2) l → clean_steps l s s' →
  forM l runStep s = (s', inr tt) ∧
  ∃ rs, results (local s') = results (local s) ++ rs ∧ Forall (λ r, bad r = false) rs.
Proof.
  intros Hl Hc. induction Hc as [s|nm fn rest s s1 s' Hs Hc IH].
  { split; [done|]. exists []. by rewrite app_nil_r. }
  apply Forall_cons in Hl as [Hfn Hl]. destruct (IH Hl) as (Hrun & rs & Hrs & Hb).
  pose proof (clean_step_run nm fn s s1 Hfn Hs) as H1. split.
  { cbn [forM]. unfold bindM. by rewrite H1. }
  destruct (step_verdict nm fn s _ Hfn H1) as (r & Hr & Hn & Hbr).
  exists (r :: rs). rewrite Hrs, Hr, <- app_assoc. split; [done|]. constructor; [|done].
  apply Hbr. by exists s1.
Qed.

(** The calls of clean steps are quiet. *)
Lemma clean_steps_quiet l s s' : clean_steps l s s' →
  ∃ obs, trace s' = trace s ++ obs ∧ Forall quiet obs.
Proof.
  induction 1 as [s|nm fn rest s s1 s' Hs Hc IH]; [exists []; by rewrite app_nil_r|].
  destruct IH as (o2 & H2 & Q2). destruct Hs as (? & ? & ? & _ & _ & _ & _ & o1 & H1 & Q1).
  exists (o1 ++ o2). rewrite H2. simpl. rewrite H1, app_assoc. split; [done|]. by apply Forall_app.
Qed.

(** ** The exit code *)

(** What precedes the first step. *)
Definition opening (exe : option jstr) : Script unit :=
  bindM (pw (Launch exe)) (λ _, bindM (pw NewContext) (λ _, bindM (pw NewPage) (λ _, login URL USER PASS))).

Lemma main_split exe s : main URL USER PASS exe s =
  bindM (opening exe) (λ _, bindM (forM (steps URL USER PASS) runStep) (λ _, pw CloseBrowser)) s.
Proof.
  unfold main, opening. do 3 (rewrite bindM_assoc; apply bindM_ext; intros [] ?). done.
Qed.

Lemma opening_results exe s s' : opening exe s = (s', inr tt) →
  results (local s') = results (local s).
Proof.
  assert (Hc : calls_only onEvent (opening exe)).
  { unfold opening, login, call_ignore. solve_calls. }
  intros Ho. destruct (Hc s) as (o & _ & Hl). rewrite Ho in Hl. simpl in Hl.
  by rewrite Hl, handled_results.
Qed.

Lemma close_results s s' r : pw CloseBrowser s = (s', r) → results (local s') = results (local s).
Proof. intros (evs & _ & ->)%pw_footprint. apply handled_results. Qed.

Lemma summarize_code rs : exitCode (summarize rs) = 0 ↔ Forall (λ r, bad r = false) rs.
Proof.
  unfold summarize. simpl. case_bool_decide as Hf.
  - split; [intros _|done]. apply list.Forall_forall. intros r Hr. destruct (bad r) eqn:E; [|done].
    exfalso. assert (Hin : r ∈ filter (λ r, Is_true (bad r)) rs)
      by (apply list_elem_of_filter; by rewrite E). rewrite Hf in Hin. by apply not_elem_of_nil in Hin.
  - split; [done|]. intros Hall. exfalso. apply Hf. clear Hf.
    induction Hall as [|r rs Hr _ IH]; [done|]. rewrite filter_cons, Hr. by rewrite decide_False by auto.
Qed.

End smoke.

(** ** A concrete server

    Answers every request the way a healthy deployment does.  [noisyLogin] makes
    the sign-in page raise an error; [hasRuns] says whether the [hello] DAG has
    run. *)
Section server.
Context (noisyLogin hasRuns : bool).

Definition o (l : list (string * jsval)) : jsval := Obj (map (λ p, (runes p.1, p.2)) l).

Definition sUrl : jstr := runes "http://h:1".

Definition sGet (url : jstr) : jsval :=
  if includes (runes "/details") url then
    o [("params", o [("region", o [("value", Str (runes "us")); ("schema", o [("type", Str (runes "string"))])]);
                     ("run_label", o [("value", Null)])])]
  else if includes (runes "/logs/1") url then o [("content", Arr [Str (runes "line")])]
  else if includes (runes "/taskInstances") url then
    o [("task_instances", Arr [o [("task_id", Str (runes "t"))]])]
  else if includes (runes "limit=100") url then
    o [("dag_runs", Arr [Null; o [("conf", o [("run_label", Str (runes "smoke-7")); ("region", Str (runes "us"))])]])]
  else if hasRuns then o [("dag_runs", Arr [o [("dag_run_id", Str (runes "r"))]])]
  else o [("dag_runs", Arr [])].

Definition sPost (url : jstr) : jsval :=
  if includes (runes "/auth/token") url then o [("access_token", Str (runes "T"))]
  else o [("status", Bool true)].

Definition sAnswer (c : Cmd) : Ans c :=
  match c with
  | Count l => match l with First (ByText s) => if String.eqb s crashSource then 0%nat else 1%nat | _ => 1%nat end
  | GetAttribute _ _ => None
  | PageUrl | PageContent | DocumentCookie => []
  | RequestGet u _ => Some (sGet u)
  | RequestPost u _ _ => Some (sPost u)
  | PageFetch _ => {| rstatus := 200; rbody := None |}
  | DateNow => 7%nat
  | _ => tt
  end.

Definition server : Host unit := {|
  exec c w :=
    (w, match c with
        | Goto u => if noisyLogin && bool_decide (u = sUrl) then [PageError None (runes "boom") [] []] else []
        | _ => []
        end, inr (sAnswer c));
  numberToString _ _ := [];
  errorStack := message;
  parseURL _ := inr {| protocol := runes "http:"; hostname := runes "h"; port := Some 1 |};
  searchParams _ := inr (λ _, None);
|}.

End server.

Definition smokeOn (noisyLogin hasRuns : bool) : Exit :=
  runSmoke (H:=server noisyLogin hasRuns) sUrl (runes "admin") (runes "pw") None tt.

Definition smokeState (noisyLogin hasRuns : bool) : St unit Vars * (exn + unit) :=
  main (H:=server noisyLogin hasRuns) sUrl (runes "admin") (runes "pw") None (start tt).

(** ** Properties of the run *)

(** Exit 0, whatever happened during the login: the browser starts and the login calls
    settle, every step is clean (its body returns, the page shows no crash text, no uncaught
    error or crash-like console error was raised during it), and the browser closes. *)
Lemma smoke_exit_zero_exact {W} {H : Host W} URL USER PASS exe w :
  exitCode (runSmoke URL USER PASS exe w) = 0 ↔
  ∃ s0 s1 s2, opening URL USER PASS exe (start w) = (s0, inr tt) ∧
    clean_steps (steps URL USER PASS) s0 s1 ∧ call onEvent CloseBrowser s1 = (s2, inr tt).
Proof.
  pose proof (steps_calls (W:=W) URL USER PASS) as Hcalls. unfold runSmoke. split.
  - destruct (main URL USER PASS exe (start w)) as [s [e|[]]] eqn:Em; [done|].
    intros Hx%summarize_code. rewrite main_split in Em.
    apply bindM_inr in Em as (s0 & [] & H0 & Em). apply bindM_inr in Em as (s1 & [] & H1 & H2).
    exists s0, s1, s. split_and!; try done.
    destruct (forM_verdicts _ _ _ Hcalls H1) as (rs & Hrs & _ & Hclean). apply Hclean.
    rewrite (close_results _ _ _ H2), Hrs in Hx. by apply Forall_app in Hx as [_ ?].
  - intros (s0 & s1 & s2 & H0 & H1 & H2).
    destruct (clean_steps_run _ _ _ Hcalls H1) as (Hrun & rs & Hrs & Hb).
    assert (Hm : main URL USER PASS exe (start w) = (s2, inr tt)).
    { rewrite main_split. apply bindM_inr. exists s0, tt. split; [done|].
      apply bindM_inr. exists s1, tt. done. }
    rewrite Hm. apply summarize_code. rewrite (close_results _ _ _ H2), Hrs, (opening_results _ _ _ _ _ _ H0).
    done.
Qed.

(** Exit 0 means that the calls between the login and the close were quiet. *)
Lemma smoke_pass_quiet {W} {H : Host W} URL USER PASS exe w :
  exitCode (runSmoke URL USER PASS exe w) = 0 →
  ∃ s0 s2 obs evs, opening URL USER PASS exe (start w) = (s0, inr tt) ∧
    main URL USER PASS exe (start w) = (s2, inr tt) ∧
    trace s2 = trace s0 ++ obs ++ [Called CloseBrowser evs (inr tt)] ∧ Forall quiet obs.
Proof.
  pose proof (steps_calls (W:=W) URL USER PASS) as Hcalls. unfold runSmoke.
  destruct (main URL USER PASS exe (start w)) as [s [e|[]]] eqn:Em; [done|].
  intros Hx%summarize_code. rewrite main_split in Em.
  apply bindM_inr in Em as (s0 & [] & H0 & Em). apply bindM_inr in Em as (s1 & [] & H1 & H2).
  destruct (forM_verdicts _ _ _ Hcalls H1) as (rs & Hrs & _ & Hclean).
  rewrite (close_results _ _ _ H2), Hrs in Hx. apply Forall_app in Hx as [_ Hx].
  destruct (clean_steps_quiet _ _ _ (Hclean Hx)) as (obs & Ht & Hq).
  destruct (pw_footprint CloseBrowser _ _ _ H2) as (evs & Ht2 & _).
  exists s0, s, obs, evs. split_and!; try done. by rewrite Ht2, Ht, <- app_assoc.
Qed.

(** C17: when the smoke exits 0, no page error and no crash-like console error
    was raised by any call made between the login and the closing of the
    browser: the run's calls are the opening ones, then quiet ones, then the
    close. *)
Theorem smoke_pass_saw_no_crash {W} {H : Host W} URL USER PASS exe w :
  exitCode (runSmoke URL USER PASS exe w) = 0 →
  ∃ s0 s2 obs evs, opening URL USER PASS exe (start w) = (s0, inr tt) ∧
    main URL USER PASS exe (start w) = (s2, inr tt) ∧
    trace s2 = trace s0 ++ obs ++ [Called CloseBrowser evs (inr tt)] ∧ Forall quiet obs.
Proof. apply smoke_pass_quiet. Qed.

Lemma smoke_pass_saw_no_crash_witness : ∃ s0 s2 obs evs,
  opening (H:=server false true) sUrl (runes "admin") (runes "pw") None (start tt) = (s0, inr tt) ∧
  smokeState false true = (s2, inr tt) ∧
  trace s2 = trace s0 ++ obs ++ [Called CloseBrowser evs (inr tt)] ∧ Forall quiet obs.
Proof. apply (smoke_pass_saw_no_crash (H:=server false true)). vm_compute. reflexivity. Defined.

Lemma exit_zero_or_one {W} {H : Host W} URL USER PASS exe w :
  exitCode (runSmoke URL USER PASS exe w) = 0 ∨ exitCode (runSmoke URL USER PASS exe w) = 1.
Proof.
  unfold runSmoke. destruct (main _ _ _ _ _) as [s [e|[]]]; [by right|]. unfold summarize. simpl. case_bool_decide; auto.
Qed.

(** C16: After a login that raised no crash, the exit code is the verdict the script
    promises: it is 0 or 1; it is 0 exactly when every one of the steps is clean (its body
    returns, the page shows no crash text, no uncaught error or crash-like console error was
    raised during it) and the browser closes; and then no call of the whole run before the
    close raised a crash.  (The condition on the login is needed: see
    [login_crash_is_dropped].) *)
Theorem smoke_verdict {W} {H : Host W} URL USER PASS exe w s0 :
  opening URL USER PASS exe (start w) = (s0, inr tt) → Forall quiet (trace s0) →
  let code := exitCode (runSmoke URL USER PASS exe w) in
  (code = 0 ∨ code = 1) ∧
  (code = 0 ↔ ∃ s1 s2, clean_steps (steps URL USER PASS) s0 s1 ∧ call onEvent CloseBrowser s1 = (s2, inr tt)) ∧
  (code = 0 → ∃ s2 obs evs, main URL USER PASS exe (start w) = (s2, inr tt) ∧
     trace s2 = obs ++ [Called CloseBrowser evs (inr tt)] ∧ Forall quiet obs).
Proof.
  intros Ho Hq code. split_and!; [apply exit_zero_or_one| |].
  - unfold code. rewrite smoke_exit_zero_exact. split.
    + intros (s & s1 & s2 & Ho' & H1 & H2). rewrite Ho in Ho'. injection Ho' as <-. by exists s1, s2.
    + intros (s1 & s2 & H1 & H2). by exists s0, s1, s2.
  - intros (s & s2 & obs & evs & Ho' & Hm & Ht & Hobs)%smoke_pass_quiet. rewrite Ho in Ho'. injection Ho' as <-.
    exists s2, (trace s0 ++ obs), evs. rewrite <- app_assoc. split_and!; [done..|]. by apply Forall_app.
Qed.

Lemma smoke_verdict_witness :
  let open := opening (H:=server false true) sUrl (runes "admin") (runes "pw") None (start tt) in
  (exitCode (smokeOn false true) = 0 ∨ exitCode (smokeOn false true) = 1) ∧
  (exitCode (smokeOn false true) = 0 ↔
     ∃ s1 s2, clean_steps (H:=server false true) (steps (H:=server false true) sUrl (runes "admin") (runes "pw")) open.1 s1 ∧
       call (H:=server false true) onEvent CloseBrowser s1 = (s2, inr tt)) ∧
  (exitCode (smokeOn false true) = 0 → ∃ s2 obs evs, smokeState false true = (s2, inr tt) ∧
     trace s2 = obs ++ [Called CloseBrowser evs (inr tt)] ∧ Forall quiet obs).
Proof.
  apply (smoke_verdict (H:=server false true) sUrl (runes "admin") (runes "pw") None tt); [vm_compute; reflexivity|].
  vm_compute. repeat (apply List.Forall_cons; [intros e He; inversion He|]). apply List.Forall_nil.
Defined.

(** a step that throws or shows a crash does not stop the ones after it:
    unless the script itself dies, each of the 22 steps leaves exactly one result,
    in order and under its own name. *)
Theorem smoke_records_every_step {W} {H : Host W} URL USER PASS exe w s :
  main URL USER PASS exe (start w) = (s, inr tt) →
  map name (results (local s)) = map fst (steps (W:=W) URL USER PASS) ∧
  length (results (local s)) = 22%nat.
Proof.
  intros Em. rewrite main_split in Em.
  apply bindM_inr in Em as (s0 & [] & H0 & Em). apply bindM_inr in Em as (s1 & [] & H1 & H2).
  destruct (forM_verdicts _ _ _ (steps_calls URL USER PASS) H1) as (rs & Hrs & Hn & _).
  rewrite (close_results _ _ _ H2), Hrs, (opening_results _ _ _ _ _ _ H0). simpl.
  split; [done|]. rewrite <- (length_map name), Hn. done.
Qed.

Lemma smoke_records_every_step_witness :
  map name (results (local (smokeState true false).1)) = map fst (steps (H:=server true false) sUrl (runes "admin") (runes "pw")) ∧
  length (results (local (smokeState true false).1)) = 22%nat.
Proof.
  apply (smoke_records_every_step (H:=server true false) _ _ _ None tt). vm_compute. reflexivity.
Defined.

(** an uncaught error on the sign-in page goes unreported: the handlers
    collect it, the first step clears the list, and the smoke still exits 0. *)
Theorem login_crash_is_dropped :
  exitCode (smokeOn true true) = 0 ∧
  ∃ c evs r e, Called c evs r ∈ trace (smokeState true true).1 ∧ e ∈ evs ∧ crashing e = true.
Proof.
  split; [vm_compute; reflexivity|].
  exists (Goto sUrl), [PageError None (runes "boom") [] []], (inr tt), (PageError None (runes "boom") [] []).
  split_and!; [|left|reflexivity].
  apply list_elem_of_lookup_2 with (i := 3%nat). vm_compute. reflexivity.
Qed.

(** ** The contracts of the API steps *)

(** A request answered, with the body the script sees. *)
Inductive replied : Obs → Cmd → jsval → Prop :=
  | replied_get u b evs r :
      replied (Called (RequestGet u b) evs (inr r)) (RequestGet u b) (default (Obj []) r)
  | replied_post u b d evs r :
      replied (Called (RequestPost u b d) evs (inr r)) (RequestPost u b d) (default (Obj []) r).

Section contracts.
Context {W : Type} {H : Host W} (URL USER PASS : jstr).

Lemma requestGet_inr u b (s s' : St W Vars) v : requestGet onEvent u b s = (s', inr v) →
  ∃ o, trace s' = trace s ++ [o] ∧ replied o (RequestGet u b) v.
Proof.
  unfold requestGet. intros (s1 & r & H1 & H2)%bindM_inr. injection H2 as -> <-.
  destruct (pw_footprint (RequestGet u b) _ _ _ H1) as (evs & Ht & _).
  eexists. split; [exact Ht|constructor].
Qed.

Lemma requestPost_inr u b d (s s' : St W Vars) v : requestPost onEvent u b d s = (s', inr v) →
  ∃ o, trace s' = trace s ++ [o] ∧ replied o (RequestPost u b d) v.
Proof.
  unfold requestPost. intros (s1 & r & H1 & H2)%bindM_inr. injection H2 as -> <-.
  destruct (pw_footprint (RequestPost u b d) _ _ _ H1) as (evs & Ht & _).
  eexists. split; [exact Ht|constructor].
Qed.

Lemma get_inr v k x : get v k = inr x → get_opt v k = x.
Proof. unfold get, get_opt. destruct (nullish v); [done|]. by intros [= ->]. Qed.

Definition tokenRequest : Cmd :=
  RequestPost (URL ++ runes "/auth/token") None [(runes "username", Str USER); (runes "password", Str PASS)].

Lemma tokenOr_inr msg (s s' : St W Vars) tok : tokenOr URL USER PASS msg s = (s', inr tok) →
  ∃ o auth, trace s' = trace s ++ [o] ∧ replied o tokenRequest auth ∧
    truthy (get_opt auth "access_token") = true ∧
    tok = toString numberToString (get_opt auth "access_token").
Proof.
  unfold tokenOr. intros (s1 & auth & H1 & H2)%bindM_inr.
  destruct (requestPost_inr _ _ _ _ _ _ H1) as (o & Ht & Hr).
  apply bindM_inr in H2 as (s2 & t & [= <- Hg] & H3). apply get_inr in Hg. subst t.
  destruct (truthy (get_opt auth "access_token")) eqn:Et; [|done]. injection H3 as <- <-.
  by exists o, auth.
Qed.

(** [run?.dag_runs?.[0]?.dag_run_id] and its task-instance counterpart. *)
Definition runId (run : jsval) : jsval := get_opt (first_opt (get_opt run "dag_runs")) "dag_run_id".
Definition taskId (tis : jsval) : jsval := get_opt (first_opt (get_opt tis "task_instances")) "task_id".

(** the logs step passes in two ways only: the last call read a non-empty
    structured log, or the DAG listed no run, in which case no log was asked
    for. *)
Theorem logs_step_contract (s s' : St W Vars) : logsRender URL USER PASS s = (s', inr tt) →
  ∃ oa o1 rest auth tok run, trace s' = trace s ++ oa :: o1 :: rest ∧
    replied oa tokenRequest auth ∧ truthy (get_opt auth "access_token") = true ∧
    replied o1 (RequestGet (helloRuns URL ++ runes "?limit=1") tok) run ∧
    ((truthy (runId run) = false ∧ rest = []) ∨
     ∃ o2 o3 u2 u3 tis logs l, rest = [o2; o3] ∧ replied o2 (RequestGet u2 tok) tis ∧
       replied o3 (RequestGet u3 tok) logs ∧ get_opt logs "content" = Arr l ∧ l ≠ []).
Proof.
  unfold logsRender. intros (s1 & tok & H1 & H2)%bindM_inr.
  destruct (tokenOr_inr _ _ _ _ H1) as (oa & auth & Ha & Hra & Hta & ->).
  apply bindM_inr in H2 as (s2 & run & H2 & H3).
  destruct (requestGet_inr _ _ _ _ _ H2) as (o1 & Ht1 & Hr1). fold (runId run) in H3.
  destruct (truthy (runId run)) eqn:Er; cbn [whenM] in H3; cbn zeta in H3.
  - apply bindM_inr in H3 as (s3 & tis & H3 & H4). fold (taskId tis) in H4. cbn zeta in H4.
    apply bindM_inr in H4 as (s4 & logs & H4 & H5). apply bindM_inr in H5 as (s5 & c & [= <- Hg] & H6).
    destruct (requestGet_inr _ _ _ _ _ H3) as (o2 & Ht2 & Hr2).
    destruct (requestGet_inr _ _ _ _ _ H4) as (o3 & Ht3 & Hr3). apply get_inr in Hg. subst c.
    destruct (emptyContent (get_opt logs "content")) eqn:Ec; [done|]. injection H6 as <-.
    destruct (get_opt logs "content") as [| | | | |l|] eqn:El; try done. simpl in Ec. zbool.
    exists oa, o1, [o2; o3], auth, (toString numberToString (get_opt auth "access_token")), run.
    rewrite Ht3, Ht2, Ht1, Ha, <- !app_assoc. split_and!; try done. right.
    do 2 eexists. do 2 eexists. exists tis, logs, l. split_and!; done.
  - injection H3 as <-. exists oa, o1, [], auth, (toString numberToString (get_opt auth "access_token")), run.
    rewrite Ht1, Ha, <- !app_assoc. split_and!; try done. by left.
Qed.

(** ** Polling for the triggered run *)

Definition runsRequest (tok : jstr) : Cmd :=
  RequestGet (URL ++ runes "/api/v2/dags/" ++ paramsDag ++ runes "/dagRuns?limit=100") tok.

(** The recorded GET requests. *)
Definition isGet (o : Obs) : bool :=
  let 'Called c _ _ := o in match c with RequestGet _ _ => true | _ => false end.

(** The run [find] returned, among those the server listed. *)
Definition listed (label : jstr) (runs v : jsval) : Prop :=
  ∃ l, get_opt runs "dag_runs" = Arr l ∧ v ∈ l ∧ carries label v = true.

Lemma findRun_inr label runs v : findRun label runs = inr v →
  truthy v = true → listed label runs v.
Proof.
  unfold findRun. destruct (get runs "dag_runs") as [e|x] eqn:Eg; [done|].
  apply get_inr in Eg. unfold js_or. destruct (truthy x) eqn:Ex.
  - destruct x as [| | | | |l|]; try done. intros [= <-] Hv.
    destruct (list_find _ l) as [[i r]|] eqn:Ef; [|done]. simpl.
    apply list_find_Some in Ef as (Hi & Hc & _). exists l. rewrite Eg. split_and!; [done| |].
    + by eapply list_elem_of_lookup_2.
    + by apply Is_true_true.
  - by intros [= <-].
Qed.

Lemma poll_inr tok label n c (s s' : St W Vars) v :
  poll URL tok label n c s = (s', inr v) → truthy c = false →
  ∃ obs, trace s' = trace s ++ obs ∧
    countb isGet obs <= Z.of_nat n ∧
    (truthy v = true → ∃ o runs, o ∈ obs ∧ replied o (runsRequest tok) runs ∧ listed label runs v).
Proof.
  revert c s. induction n as [|n IH]; intros c s; cbn [poll].
  { intros [= <- <-] Hc. exists []. rewrite app_nil_r. split_and!; [done|simpl; lia|congruence]. }
  intros Hs Hc. rewrite Hc in Hs.
  apply bindM_inr in Hs as (s1 & [] & H1 & Hs). apply bindM_inr in Hs as (s2 & runs & H2 & Hs).
  apply bindM_inr in Hs as (s3 & c' & [= <- Hf] & Hs).
  destruct (pw_footprint (WaitForTimeout 1000) _ _ _ H1) as (ev1 & Ht1 & _).
  destruct (requestGet_inr _ _ _ _ _ H2) as (o & Ht2 & Hr).
  assert (Hdec : truthy c' = true ∨ truthy c' = false) by (destruct (truthy c'); auto).
  match type of Ht1 with _ = _ ++ ?w => remember w as w1 eqn:Ew end.
  destruct Hdec as [Hc'|Hc'].
  - assert (s' = s2 ∧ v = c') as [-> ->] by (destruct n; cbn [poll] in Hs; rewrite ?Hc' in Hs; by injection Hs as <- <-).
    exists (w1 ++ [o]). rewrite Ht2, Ht1, <- app_assoc. split_and!; [done| |].
    + rewrite countb_app, Ew. simpl. destruct o as [[] ? ?]; simpl; lia.
    + intros _. exists o, runs. split_and!; [apply elem_of_app; right; left|done|by apply findRun_inr].
  - destruct (IH _ _ Hs Hc') as (obs & Ht & Hcnt & Hv). exists (w1 ++ [o] ++ obs).
    rewrite Ht, Ht2, Ht1, <- !app_assoc. split_and!; [done| |].
    + rewrite !countb_app, Ew. simpl. destruct o as [[] ? ?]; simpl; lia.
    + intros Hx. destruct (Hv Hx) as (o' & rs & Hin & ?). exists o', rs. split; [|done].
      apply elem_of_app. right. by right.
Qed.

Lemma ignored_footprint c (s s' : St W Vars) r : call_ignore onEvent c s = (s', r) →
  ∃ evs r', trace s' = trace s ++ [Called c evs r'].
Proof.
  unfold call_ignore, catch, bindM. destruct (call onEvent c s) as [s1 r1] eqn:E.
  destruct (pw_footprint _ _ _ _ E) as (evs & Ht & _). intros Hs.
  exists evs, r1. by destruct r1; injection Hs as <- _.
Qed.

(** the form-submit step passes only if the server listed, in answer to one
    of at most 20 polls, a run whose conf carries the label just submitted and
    the declared default region. *)
Theorem trigger_step_contract (s s' : St W Vars) : triggerSubmit URL USER PASS s = (s', inr tt) →
  ∃ now tok obs o runs v, trace s' = trace s ++ obs ∧ countb isGet obs <= 20 ∧
    o ∈ obs ∧ replied o (runsRequest tok) runs ∧ listed (runes "smoke-" ++ decimal now) runs v ∧
    get_opt (get_opt v "conf") "region" = Str (runes "us").
Proof.
  unfold triggerSubmit, mintToken. intros (s1 & tok & H1 & Hs)%bindM_inr.
  destruct (tokenOr_inr _ _ _ _ H1) as (oa & auth & Ha & Hra & _ & _).
  apply bindM_inr in Hs as (s2 & now & H2 & Hs). cbn zeta in Hs.
  apply bindM_inr in Hs as (s3 & n & H3 & Hs).
  apply bindM_inr in Hs as (s4 & [] & H4 & Hs). apply bindM_inr in Hs as (s5 & [] & H5 & Hs).
  apply bindM_inr in Hs as (s6 & v & H6 & Hs). injection Hs as <- Hchk.
  destruct (pw_footprint DateNow _ _ _ H2) as (e2 & Ht2 & _).
  destruct (pw_footprint (Count _) _ _ _ H3) as (e3 & Ht3 & _).
  destruct (pw_footprint (Fill _ _) _ _ _ H4) as (e4 & Ht4 & _).
  destruct (ignored_footprint _ _ _ _ H5) as (e5 & r5 & Ht5).
  destruct (poll_inr _ _ _ _ _ _ _ H6 eq_refl) as (obs & Ht6 & Hcnt & Hv).
  unfold checkCreated in Hchk. destruct (truthy v) eqn:Ev; [|done]. simpl in Hchk.
  destruct (is_str _ _) eqn:Eus; [|done]. destruct (Hv eq_refl) as (o & runs & Hin & Hr & Hl).
  eexists now, tok, _, o, runs, v. rewrite Ht6, Ht5, Ht4, Ht3, Ht2, Ha, <- !app_assoc.
  split_and!; [reflexivity| | |done|done|].
  - rewrite !countb_app. inversion Hra; subst. simpl. lia.
  - rewrite !elem_of_app. auto 10.
  - destruct (get_opt (get_opt v "conf") "region"); try done. simpl in Eus. zbool. by subst.
Qed.

End contracts.

(** What [/details] must serve: [region] as an object with a [value] and a
    schema of type string, [run_label] as an object whose [value] is null. *)
Definition served_shape (det : jsval) : Prop :=
  ∃ ps region sch label, get_opt det "params" = Obj ps ∧
    assoc (runes "region") ps = Some (Obj region) ∧ is_Some (assoc (runes "value") region) ∧
    assoc (runes "schema") region = Some (Obj sch) ∧ assoc (runes "type") sch = Some (Str (runes "string")) ∧
    assoc (runes "run_label") ps = Some (Obj label) ∧ assoc (runes "value") label = Some Null.

Lemma get_opt_obj l k : get_opt (Obj l) k = default Undefined (assoc (runes k) l).
Proof. done. Qed.

Lemma regionBad_false region : regionBad region = inr false ↔
  ∃ r sch, region = Obj r ∧ is_Some (assoc (runes "value") r) ∧
    assoc (runes "schema") r = Some (Obj sch) ∧ assoc (runes "type") sch = Some (Str (runes "string")).
Proof.
  unfold regionBad. split.
  - destruct (truthy region) eqn:Et; [|done]. simpl. destruct region as [| | | | | |r]; try done.
    unfold has_key. case_bool_decide as Hv; [|done]. intros [= Hb]. apply orb_false_iff in Hb as [Hs Ht].
    apply negb_false_iff in Hs, Ht. rewrite get_opt_obj in Hs, Ht.
    destruct (assoc (runes "schema") r) as [sc|] eqn:Es; [|done]. simpl in Hs, Ht.
    destruct sc as [| | | | | |sch]; try done. rewrite get_opt_obj in Ht.
    destruct (assoc (runes "type") sch) as [ty|] eqn:Ey; [|done]. destruct ty; try done.
    simpl in Ht. zbool. subst. exists r, sch. done.
  - intros (r & sch & -> & Hv & Hs & Ht). simpl. rewrite bool_decide_true by done.
    rewrite get_opt_obj, Hs. simpl. rewrite get_opt_obj, Ht. simpl. by rewrite ?bool_decide_true by done.
Qed.

Lemma runLabelBad_false p : runLabelBad p = inr false ↔
  ∃ ps label, p = Obj ps ∧ assoc (runes "run_label") ps = Some (Obj label) ∧
    assoc (runes "value") label = Some Null.
Proof.
  unfold runLabelBad. split.
  - destruct p as [| | | | | |ps]; try done. unfold has_key. case_bool_decide as Hl; [|done].
    rewrite get_opt_obj. destruct Hl as [x Hx]. rewrite Hx. change (default Undefined (Some x)) with x.
    unfold get. destruct (nullish x) eqn:En; [done|]. intros [= Hb].
    apply negb_false_iff in Hb. destruct x as [| | | | | |label]; try done. simpl in Hb.
    destruct (assoc (runes "value") label) as [v|] eqn:Ev; [|done]. destruct v; try done.
    exists ps, label. done.
  - intros (ps & label & -> & Hl & Hv). simpl. rewrite bool_decide_true by eauto.
    rewrite get_opt_obj, Hl. unfold get. simpl. by rewrite Hv.
Qed.

(** the typed-params step accepts an answer of [/details] exactly when it
    has the promised shape; every other answer, whatever its type, throws. *)
Theorem details_contract_exact {W} {H : Host W} det :
  checkParams (H:=H) det = inr tt ↔ served_shape det.
Proof.
  unfold checkParams, served_shape. split.
  - destruct (get det "params") as [e|v] eqn:Eg; [done|]. apply get_inr in Eg. rewrite Eg.
    destruct (regionBad _) as [e|[]] eqn:Er; try done. destruct (runLabelBad _) as [e|[]] eqn:El; try done.
    intros _. apply runLabelBad_false in El as (ps & label & Hp & Hl & Hv). rewrite Hp, get_opt_obj in Er.
    apply regionBad_false in Er as (r & sch & Hr & Hrv & Hs & Ht).
    destruct (assoc (runes "region") ps) as [x|] eqn:Ex; [|done]. simpl in Hr. subst x.
    assert (v = Obj ps) as ->.
    { unfold js_or in Hp. destruct (truthy v); [done|]. injection Hp as <-. discriminate Ex. }
    exists ps, r, sch, label. split_and!; done.
  - intros (ps & region & sch & label & Hp & Hr & Hrv & Hs & Ht & Hl & Hv).
    assert (Hg : get det "params" = inr (Obj ps)).
    { unfold get, get_opt in *. destruct (nullish det); [done|]. by f_equal. }
    rewrite Hg. change (js_or (Obj ps) (Obj [])) with (Obj ps). cbn zeta.
    rewrite get_opt_obj, Hr. change (default Undefined (Some (Obj region))) with (Obj region).
    rewrite (proj2 (regionBad_false (Obj region))) by eauto 10.
    rewrite (proj2 (runLabelBad_false (Obj ps))) by eauto 10. done.
Qed.

Lemma trigger_step_contract_witness : ∃ s' now tok obs o runs v,
  triggerSubmit (H:=server false true) sUrl (runes "admin") (runes "pw") (start tt) = (s', inr tt) ∧
  trace s' = [] ++ obs ∧ countb isGet obs <= 20 ∧
  o ∈ obs ∧ replied o (runsRequest sUrl tok) runs ∧ listed (runes "smoke-" ++ decimal now) runs v ∧
  get_opt (get_opt v "conf") "region" = Str (runes "us").
Proof.
  destruct (triggerSubmit (H:=server false true) sUrl (runes "admin") (runes "pw") (start tt))
    as [s' r] eqn:E.
  assert (Hr : (triggerSubmit (H:=server false true) sUrl (runes "admin") (runes "pw") (start tt)).2 = inr tt)
    by (vm_compute; reflexivity).
  rewrite E in Hr. simpl in Hr. subst r.
  destruct (trigger_step_contract (H:=server false true) _ _ _ _ _ E) as (now & tok & obs & o & runs & v & Hc).
  exists s', now, tok, obs, o, runs, v. split; [reflexivity|exact Hc].
Defined.

Lemma logs_step_contract_witness : ∃ s' oa o1 rest auth tok run,
  logsRender (H:=server false true) sUrl (runes "admin") (runes "pw") (start tt) = (s', inr tt) ∧
  trace s' = [] ++ oa :: o1 :: rest ∧
  replied oa (tokenRequest sUrl (runes "admin") (runes "pw")) auth ∧
  truthy (get_opt auth "access_token") = true ∧
  replied o1 (RequestGet (helloRuns sUrl ++ runes "?limit=1") tok) run ∧
  ((truthy (runId run) = false ∧ rest = []) ∨
   ∃ o2 o3 u2 u3 tis logs l, rest = [o2; o3] ∧ replied o2 (RequestGet u2 tok) tis ∧
     replied o3 (RequestGet u3 tok) logs ∧ get_opt logs "content" = Arr l ∧ l ≠ []).
Proof.
  destruct (logsRender (H:=server false true) sUrl (runes "admin") (runes "pw") (start tt))
    as [s' r] eqn:E.
  assert (Hr : (logsRender (H:=server false true) sUrl (runes "admin") (runes "pw") (start tt)).2 = inr tt)
    by (vm_compute; reflexivity).
  rewrite E in Hr. simpl in Hr. subst r.
  destruct (logs_step_contract (H:=server false true) _ _ _ _ _ E) as (oa & o1 & rest & auth & tok & run & Hc).
  exists s', oa, o1, rest, auth, tok, run. split; [reflexivity|exact Hc].
Defined.

(** the logs assertion is a silent no-op on a deployment whose DAG has never
    run: the step passes and the whole smoke exits 0 without one request for a
    log. *)
Theorem logs_step_can_no_op :
  exitCode (smokeOn false false) = 0 ∧
  Forall (λ o, let 'Called c _ _ := o in
    match c with RequestGet u _ => includes (runes "/logs/") u = false | _ => True end)
    (trace (smokeState false false).1).
Proof.
  split; [vm_compute; reflexivity|]. vm_compute. repeat (constructor; try reflexivity).
Qed.

(** ** Choosing the browser *)

Section chromium_facts.
Context (fs : Fs) (HOME : option jstr).

Lemma pickSub_spec base d :
  match pickSub fs base d with
  | Some p => ∃ sub, sub ∈ subs ∧ p = chromiumPath base d sub ∧ existsSync fs p = true
  | None => ∀ sub, sub ∈ subs → existsSync fs (chromiumPath base d sub) = false
  end.
Proof.
  unfold pickSub. destruct (list_find _ _) as [[i p]|] eqn:E; simpl.
  - apply list_find_Some in E as (Hi & Hp & _). apply list_elem_of_lookup_2 in Hi.
    apply list_elem_of_fmap in Hi as (sub & -> & Hs). exists sub. by apply Is_true_true in Hp.
  - apply list_find_None in E. intros sub Hs. rewrite list.Forall_forall in E.
    specialize (E _ (list_elem_of_fmap_2 _ _ _ Hs)). by apply Is_true_false in E.
Qed.

Abbreviation newer := (λ a b, Is_true (str_leb b a)).

Lemma pickBuild_spec base l : StronglySorted newer l →
  match pickBuild fs base l with
  | Some p => ∃ d sub, d ∈ l ∧ sub ∈ subs ∧ p = chromiumPath base d sub ∧ existsSync fs p = true ∧
      ∀ d' sub', d' ∈ l → sub' ∈ subs → existsSync fs (chromiumPath base d' sub') = true → newer d d'
  | None => ∀ d sub, d ∈ l → sub ∈ subs → existsSync fs (chromiumPath base d sub) = false
  end.
Proof.
  induction 1 as [|d l Hl IH Hd]; simpl.
  { intros d sub Hd. by apply not_elem_of_nil in Hd. }
  pose proof (pickSub_spec base d) as Hs. destruct (pickSub fs base d) as [p|].
  - destruct Hs as (sub & Hsub & -> & Hex). exists d, sub. split_and!; [left|done|done|done|].
    intros d' sub' [->|Hin]%elem_of_cons _ _; [|by apply (Forall_elem _ _ _ Hd Hin)].
    by destruct (str_leb_total d d).
  - destruct (pickBuild fs base l) as [p|].
    + destruct IH as (d0 & sub & Hin & Hsub & Hp & Hex & Hmax). exists d0, sub.
      split_and!; [by right|done|done|done|]. intros d' sub' [->|Hin']%elem_of_cons Hsub' Hex'; [|eauto].
      rewrite Hs in Hex' by done. done.
    + intros d' sub' [->|Hin']%elem_of_cons; [auto|by apply IH].
Qed.

Lemma sortedBuilds_newest entries : StronglySorted newer (sortedBuilds entries).
Proof.
  apply Sorted_StronglySorted; [|apply Sorted_reverse, Sorted_merge_sort, _].
  intros a b c Hab Hbc. by eapply (str_leb_trans c b a).
Qed.

Lemma sortedBuilds_elem entries d :
  d ∈ sortedBuilds entries ↔ d ∈ entries ∧ startsWith (runes "chromium") d = true.
Proof.
  unfold sortedBuilds. rewrite elem_of_reverse, merge_sort_Permutation, list_elem_of_filter, Is_true_true.
  tauto.
Qed.

(** An installed browser the search may use. *)
Definition candidate (base d : jstr) (sub : string) : Prop :=
  base ∈ bases HOME ∧ sub ∈ subs ∧ existsSync fs (chromiumPath base d sub) = true ∧
  ∃ entries, readdirSync fs base = Some entries ∧ d ∈ entries ∧ startsWith (runes "chromium") d = true.

(** the browser search is exact: it returns a path that exists, under a
    chromium build of a readable cache, the build with the greatest name among
    those of its cache that hold a browser, and it gives up only when no cache
    holds any. *)
Theorem cachedChromium_exact :
  match cachedChromium fs HOME with
  | Some p => ∃ base d sub, p = chromiumPath base d sub ∧ candidate base d sub ∧
      ∀ d' sub', candidate base d' sub' → str_leb d' d = true
  | None => ∀ base d sub, ¬ candidate base d sub
  end.
Proof.
  unfold cachedChromium, candidate.
  assert (Hgen : ∀ l, match pickBases fs l with
    | Some p => ∃ base entries, base ∈ l ∧ readdirSync fs base = Some entries ∧
        pickBuild fs base (sortedBuilds entries) = Some p
    | None => ∀ base entries, base ∈ l → readdirSync fs base = Some entries →
        pickBuild fs base (sortedBuilds entries) = None
    end).
  { induction l as [|b l IH]; simpl; [intros ? ? Hn; by apply not_elem_of_nil in Hn|].
    unfold pickBase. destruct (readdirSync fs b) as [en|] eqn:Er.
    - destruct (pickBuild fs b (sortedBuilds en)) as [p|] eqn:Ep.
      { exists b, en. split_and!; [left|done..]. }
      destruct (pickBases fs l); [destruct IH as (? & ? & ? & ?); do 2 eexists; split; [by right|done]|].
      intros ? ? [->|?]%elem_of_cons ?; [by simplify_eq|eauto].
    - destruct (pickBases fs l); [destruct IH as (? & ? & ? & ?); do 2 eexists; split; [by right|done]|].
      intros ? ? [->|?]%elem_of_cons ?; [by simplify_eq|eauto]. }
  specialize (Hgen (bases HOME)). destruct (pickBases fs (bases HOME)) as [p|].
  - destruct Hgen as (base & en & Hb & Hr & Hp).
    pose proof (pickBuild_spec base _ (sortedBuilds_newest en)) as Hs. rewrite Hp in Hs.
    destruct Hs as (d & sub & Hd & Hsub & -> & Hex & Hmax). apply sortedBuilds_elem in Hd.
    exists base, d, sub. split_and!; try done; [by exists en|].
    intros d' sub' (_ & Hsub' & Hex' & en' & Hr' & Hd'). simplify_eq.
    apply Is_true_true. by apply (Hmax d' sub'); [apply sortedBuilds_elem|..].
  - intros base d sub (Hb & Hsub & Hex & en & Hr & Hd). specialize (Hgen _ _ Hb Hr).
    pose proof (pickBuild_spec base _ (sortedBuilds_newest en)) as Hs. rewrite Hgen in Hs.
    rewrite Hs in Hex; [done|by apply sortedBuilds_elem|done].
Qed.

End chromium_facts.
