(* ===== verification/SsoLogin.v ===== *)
(** * The sign-in page check

    [test/e2e/sso-login-page.js]: the whole script against the interface of
    [Playwright]. *)

From Stdlib Require Import ZArith Lia.
From stdpp Require Import base numbers strings gmap option list.
From S2P Require Import Prelude Js Playwright.

Open Scope Z_scope.
Open Scope script_scope.

Module Sso.

(** ** Configuration *)

Record Env := {
  LEOFLOW_URL : option jstr; LEOFLOW_EXPECT_SSO : option jstr; LEOFLOW_IDP_ORIGIN : option jstr;
  LEOFLOW_SSO_EMAIL : option jstr; LEOFLOW_BREAK_GLASS_EMAIL : option jstr;
  LEOFLOW_BREAK_GLASS_PASSWORD : option jstr; HOME : option jstr;
}.

Record Config := {
  URL_BASE : jstr; EXPECT_SSO : bool; IDP_ORIGIN : jstr; SSO_EMAIL : jstr;
  BREAK_GLASS_EMAIL : jstr; BREAK_GLASS_PASSWORD : jstr;
}.

Definition config (e : Env) : Config := {|
  URL_BASE := env_or (LEOFLOW_URL e) "http://localhost:18080";
  EXPECT_SSO := bool_decide (LEOFLOW_EXPECT_SSO e ≠ Some (runes "0"));
  IDP_ORIGIN := env_or (LEOFLOW_IDP_ORIGIN e) "https://localhost:18443";
  SSO_EMAIL := env_or (LEOFLOW_SSO_EMAIL e) "sso-user@example.com";
  BREAK_GLASS_EMAIL := env_or (LEOFLOW_BREAK_GLASS_EMAIL e) "breakglass@example.com";
  BREAK_GLASS_PASSWORD := env_or (LEOFLOW_BREAK_GLASS_PASSWORD e) "";
|}.

(** ** The cached browser *)

Section chromium.
Context (fs : Fs).

Definition candidatesOf (dir entry : jstr) : list jstr :=
  [dir ++ runes "/" ++ entry ++ runes "/chrome-linux/chrome";
   dir ++ runes "/" ++ entry ++ runes "/chrome-mac/Chromium.app/Contents/MacOS/Chromium"].

Fixpoint scanEntries (dir : jstr) (entries : list jstr) : option jstr :=
  match entries with
  | [] => None
  | entry :: r =>
    if negb (startsWith (runes "chromium") entry) then scanEntries dir r
    else
      match list_find (λ p, Is_true (existsSync fs p)) (candidatesOf dir entry) with
      | Some (_, p) => Some p
      | None => scanEntries dir r
      end
  end.

(** A directory that exists and cannot be read throws. *)
Fixpoint scanDirs (dirs : list jstr) : exn + option jstr :=
  match dirs with
  | [] => inr None
  | dir :: r =>
    if negb (existsSync fs dir) then scanDirs r
    else
      match readdirSync fs dir with
      | None => throw (runes "readdir")
      | Some entries =>
        match scanEntries dir entries with Some p => inr (Some p) | None => scanDirs r end
      end
  end.

Definition cachedChromium (home : option jstr) : exn + option jstr :=
  scanDirs [env_text home ++ runes "/Library/Caches/ms-playwright";
            env_text home ++ runes "/.cache/ms-playwright"].

End chromium.

(** ** State *)

Record Vars := {
  errors : list (jstr * jstr);    (** url and text of each page error *)
  exitCode : Z;                   (** [process.exitCode], 0 while unset *)
  console : list jstr;            (** what [console.error] printed *)
  stdout : list jstr;
}.

Definition onEvent (e : Event) (v : Vars) : Vars :=
  match e with
  | PageError _ _ shown url =>
    {| errors := errors v ++ [(url, shown)]; exitCode := exitCode v; console := console v;
       stdout := stdout v |}
  | Console _ _ => v
  end.

Section script.
Context {W : Type} {H : Host W} (cf : Config).

Abbreviation Script := (M W Vars).
Abbreviation pw := (call (L:=Vars) onEvent).
Abbreviation pw_ignore := (call_ignore (L:=Vars) onEvent).

Definition fail (msg : jstr) : Script unit :=
  putL (λ v, {| errors := errors v; exitCode := 1; console := console v ++ [runes "FAIL: " ++ msg];
                stdout := stdout v |}).

Definition failIf (b : bool) (msg : jstr) : Script unit := whenM b (fail msg).

Record Me := { status : Z; username : jsval }.

Definition showMe (me : Me) : jstr :=
  stringify numberToString (Obj [(runes "status", Num (status me) 0); (runes "username", username me)]).

(** The function [page.evaluate] runs in the page. *)
Definition whoami : Script Me :=
  let* r := pw (PageFetch (runes "/ui/auth/me")) in
  if negb (rok r) then ret {| status := rstatus r; username := Null |}
  else
    let* u := lift (get (default (Obj []) (rbody r)) "username") in
    ret {| status := rstatus r; username := js_or u Null |}.

Definition loginUrl : jstr := URL_BASE cf ++ runes "/api/v2/auth/login".

Definition signInWithPassword (email password : jstr) : Script unit :=
  pw (Goto loginUrl) ;;
  pw (Fill (Css "input[name=username]") email) ;;
  pw (Fill (Css "input[name=password]") password) ;;
  pw (Click (Css "button[type=submit]")) ;;
  pw_ignore WaitForFunction ;;
  pw_ignore WaitForLoadState.

(** [me.username !== email] *)
Definition isNot (me : Me) (email : jstr) : bool := negb (is_str email (username me)).

(** ** The SSO arm *)

Definition ssoLink : Locator := Css "a.sso".

Definition authParams : list string :=
  ["client_id"; "redirect_uri"; "state"; "nonce"; "code_challenge"].

(** [!q.get(param)] *)
Definition lacks (q : string → option jstr) (p : string) : bool :=
  match q p with Some (_ :: _) => false | _ => true end.

Definition checkRequest (landed : jstr) : Script unit :=
  if negb (startsWith (IDP_ORIGIN cf) landed)
  then fail (runes "clicking the SSO control landed on " ++ landed ++ runes ", not the IdP at " ++ IDP_ORIGIN cf)
  else
    let* q := lift (searchParams landed) in
    forM authParams (λ p, failIf (lacks q p)
      (runes "the authorization request carries no " ++ runes p ++ runes ": " ++ landed)).

(** [!href || !href.startsWith('/api/v2/auth/oidc/login')] *)
Definition badHref (href : option jstr) : bool :=
  match href with
  | Some (c :: r) => negb (startsWith (runes "/api/v2/auth/oidc/login") (c :: r))
  | _ => true
  end.

(** [href.includes('next=')], a TypeError on null. *)
Definition hasNext (href : option jstr) : exn + bool :=
  match href with
  | None => throw (runes "Cannot read properties of null (reading 'includes')")
  | Some h => inr (includes (runes "next=") h)
  end.

Definition followSso (ssoCount : nat) : Script unit :=
  if bool_decide (ssoCount = 0%nat)
  then fail (runes "the sign-in page offers no SSO control; a user configured for SSO has no route into the flow but the address bar")
  else
    let* href := pw (GetAttribute (First ssoLink) "href") in
    failIf (badHref href)
      (runes "the SSO control points at " ++ default (runes "null") href ++ runes ", not the route that starts the flow") ;;
    let* next := lift (hasNext href) in
    failIf (negb next)
      (runes "the SSO control drops ?next=, so an SSO login cannot return the user to the page they asked for") ;;
    pw (Click (First ssoLink)) ;;
    pw WaitForLoadState ;;
    let* landed := pw PageUrl in
    checkRequest landed.

(** The cookie must not show the session token. *)
Definition checkJar (msg : string) : Script unit :=
  let* jar := pw DocumentCookie in
  failIf (includes (runes "_token") jar) (runes msg ++ jar).

Definition finishSignOn : Script unit :=
  let* n := pw (Count (Css "#continue")) in
  if bool_decide (n = 0%nat)
  then fail (runes "the fake IdP did not offer the continue link; the rest of the flow cannot be driven")
  else
    pw (Click (Css "#continue")) ;;
    pw WaitForLoadState ;;
    let* u := pw PageUrl in
    whenM (negb (startsWith (URL_BASE cf) u))
      (let* u' := pw PageUrl in
       fail (runes "completing the sign-on left the browser on " ++ u' ++ runes ", not back on Dexaflow")) ;;
    let* me := whoami in
    failIf (isNot me (SSO_EMAIL cf))
      (runes "after a completed SSO login /ui/auth/me says " ++ showMe me ++ runes ", want " ++ SSO_EMAIL cf) ;;
    checkJar "the SSO session cookie is readable from document.cookie: ".

Definition passwordInput : Locator := Css "input[name=password]".

(** [if (await l.count() === 0) fail(msg)] *)
Definition mustHave (l : Locator) (msg : jstr) : Script unit :=
  let* n := pw (Count l) in failIf (bool_decide (n = 0%nat)) msg.

Definition passwordForm : Script unit :=
  pw (Goto loginUrl) ;;
  mustHave passwordInput
    (runes "the password form is gone; break-glass accounts have no way in when the IdP is unreachable").

Definition breakGlass : Script unit :=
  if bool_decide (BREAK_GLASS_PASSWORD cf = [])
  then fail (runes "no break-glass password was provided; the #1191 assertion cannot run")
  else
    let* before := whoami in
    failIf (isNot before (SSO_EMAIL cf))
      (runes "expected to still be signed in as " ++ SSO_EMAIL cf
       ++ runes " before the break-glass login, got " ++ showMe before) ;;
    signInWithPassword (BREAK_GLASS_EMAIL cf) (BREAK_GLASS_PASSWORD cf) ;;
    let* after := whoami in
    failIf (isNot after (BREAK_GLASS_EMAIL cf))
      (runes "a break-glass login over a live SSO session left the identity as " ++ showMe after
       ++ runes ", want " ++ BREAK_GLASS_EMAIL cf
       ++ runes ". The password login answered 200 and the browser kept the old session.") ;;
    checkJar "the break-glass session cookie is readable from document.cookie: ".

Definition signOut : Script unit :=
  pw (Goto (URL_BASE cf ++ runes "/api/v2/auth/logout")) ;;
  let* afterLogout := whoami in
  failIf (negb (status afterLogout =? 401))
    (runes "after logout /ui/auth/me says " ++ showMe afterLogout
     ++ runes ", want 401: the session outlived the sign-out").

Definition leaks : list string :=
  ["state_mismatch"; "invalid_state"; "missing_state"; "tenant_not_allowed";
   "email_not_verified"; "email_domain_not_allowed"; "token_expired"; "exchange_failed"].

Definition refused : Script unit :=
  pw (Goto (URL_BASE cf ++ runes "/api/v2/auth/oidc/callback?code=nope&state=nope")) ;;
  let* denied := pw PageUrl in
  failIf (negb (startsWith loginUrl denied))
    (runes "a refused sign-on left the browser on " ++ denied ++ runes ", not back on the sign-in page") ;;
  mustHave passwordInput
    (runes "a refused sign-on rendered something that is not the sign-in page: " ++ denied) ;;
  mustHave (Css ".ssoerr")
    (runes "a refused sign-on returned the bare sign-in form, which reads as the button having done nothing") ;;
  let* content := pw PageContent in
  let shown := toLowerCase (denied ++ runes " " ++ content) in
  forM leaks (λ leak, failIf (includes (runes leak) shown)
    (runes "the refused sign-on told the browser why: " ++ runes leak)).

Definition ssoArm (ssoCount : nat) : Script unit :=
  followSso ssoCount ;; finishSignOn ;; passwordForm ;; breakGlass ;; signOut ;; refused.

(** ** The JWT-only arm *)

Definition jwtArm (ssoCount : nat) : Script unit :=
  failIf (bool_decide (0 < ssoCount)%nat)
    (runes "a deployment with no OIDC flow advertises the SSO route; following it 404s") ;;
  if bool_decide (BREAK_GLASS_PASSWORD cf = [])
  then fail (runes "no password was provided; the JWT-only session cookie assertion cannot run")
  else
    signInWithPassword (BREAK_GLASS_EMAIL cf) (BREAK_GLASS_PASSWORD cf) ;;
    let* me := whoami in
    failIf (isNot me (BREAK_GLASS_EMAIL cf))
      (runes "after a password login /ui/auth/me says " ++ showMe me ++ runes ", want " ++ BREAK_GLASS_EMAIL cf
       ++ runes ". The session cookie now comes from the response, so a login that does not authenticate means it never arrived.") ;;
    checkJar "the session token is readable from document.cookie on a JWT-only deployment: ".

(** ** The run *)

(** Page errors raised on the sign-in page. *)
Definition signInErrors (v : Vars) : list (jstr * jstr) :=
  filter (λ e, Is_true (includes (runes "/api/v2/auth/") e.1)) (errors v).

Definition reportErrors : Script unit :=
  let* v := getL in
  failIf (negb (bool_decide (signInErrors v = [])))
    (runes "uncaught errors on the sign-in page: " ++ join (runes " | ") (map snd (signInErrors v))).

Definition okLine : Script unit :=
  putL (λ v,
    if exitCode v =? 0
    then {| errors := errors v; exitCode := exitCode v; console := console v;
            stdout := stdout v ++
              [runes "ok: sign-in page at " ++ URL_BASE cf ++ runes " "
               ++ (if EXPECT_SSO cf then runes "offers" else runes "correctly omits")
               ++ runes " the SSO flow"] |}
    else v).

Definition main (fs : Fs) (home : option jstr) : Script unit :=
  let* exe := lift (cachedChromium fs home) in
  pw (Launch exe) ;; pw NewContext ;; pw NewPage ;;
  pw (Goto (loginUrl ++ runes "?next=/dags")) ;;
  let* ssoCount := pw (Count ssoLink) in
  (if EXPECT_SSO cf then ssoArm ssoCount else jwtArm ssoCount) ;;
  reportErrors ;;
  pw CloseContext ;; pw CloseBrowser ;;
  okLine.

Definition start (w : W) : St W Vars :=
  mkSt w {| errors := []; exitCode := 0; console := []; stdout := [] |} [].

(** The status the process ends with: [process.exit(1)] on an exception. *)
Definition runSso (fs : Fs) (home : option jstr) (w : W) : Z :=
  match main fs home (start w) with
  | (s, inr _) => exitCode (local s)
  | (_, inl _) => 1
  end.

End script.
End Sso.
