(* ===== verification/SsoLoginProps.v ===== *)
(** * What the sign-in page check establishes

    A run that ends with status 0 has made a fixed sequence of calls, and each
    answer met its assertion. *)

From Stdlib Require Import ZArith Lia.
From stdpp Require Import base numbers strings gmap option list.
From S2P Require Import Prelude Js Playwright SsoLogin.

Open Scope Z_scope.
Open Scope script_scope.
Import Sso.

(** ** Observations *)

(** The call [c] was answered, and its answer satisfies [P]. *)
Definition said (c : Cmd) (P : Ans c → Prop) (o : Obs) : Prop :=
  ∃ evs a, o = Called c evs (inr a) ∧ P a.

Definition did (c : Cmd) : Obs → Prop := said c (λ _, True).

(** The call [c] was made; it may have rejected. *)
Definition tried (c : Cmd) (o : Obs) : Prop := ∃ evs r, o = Called c evs r.

(** A list of calls that meets a list of expectations, one each. *)
Definition follows (ps : list (Obs → Prop)) (obs : list Obs) : Prop := Forall2 (λ P o, P o) ps obs.

Lemma follows_app p1 p2 o1 o2 : follows p1 o1 → follows p2 o2 → follows (p1 ++ p2) (o1 ++ o2).
Proof. apply Forall2_app. Qed.

(** The page errors raised during some calls, with their URLs. *)
Definition eventErrors (evs : list Event) : list (jstr * jstr) :=
  omap (λ e, match e with PageError _ _ sh u => Some (u, sh) | Console _ _ => None end) evs.

Definition pageErrors (obs : list Obs) : list (jstr * jstr) := obs ≫= eventErrors ∘ obsEvents.

Lemma pageErrors_app o1 o2 : pageErrors (o1 ++ o2) = pageErrors o1 ++ pageErrors o2.
Proof. apply bind_app. Qed.

Section sound.
Context {W : Type} {H : Host W} (cf : Config).
Abbreviation Script := (M W Vars).
Abbreviation pw := (call (W:=W) (L:=Vars) onEvent).

(** [m] returns without a failed assertion only if the calls it made satisfy [L];
    the page errors raised meanwhile are the ones it collects. *)
Definition sound {A} (m : Script A) (L : A → list Obs → Prop) : Prop :=
  ∀ s s' a, m s = (s', inr a) → exitCode (local s') = 0 →
    exitCode (local s) = 0 ∧ ∃ obs, trace s' = trace s ++ obs ∧
      errors (local s') = errors (local s) ++ pageErrors obs ∧ L a obs.

Lemma events_vars evs v :
  exitCode (foldl (λ l e, onEvent e l) v evs) = exitCode v ∧
  errors (foldl (λ l e, onEvent e l) v evs) = errors v ++ eventErrors evs.
Proof.
  revert v. induction evs as [|e evs IH]; intros v; simpl; [by rewrite app_nil_r|].
  destruct (IH (onEvent e v)) as [-> ->]. destruct e; simpl; [|done].
  by rewrite <- app_assoc.
Qed.

Lemma sound_weaken {A} (m : Script A) L L' :
  sound m L → (∀ a obs, L a obs → L' a obs) → sound m L'.
Proof.
  intros Hm HL s s' a Hs H0. destruct (Hm _ _ _ Hs H0) as (? & obs & ? & ? & ?). eauto 10.
Qed.

Lemma call_errors c s s' r : pw c s = (s', r) → exitCode (local s') = exitCode (local s) ∧
  ∃ evs, trace s' = trace s ++ [Called c evs r] ∧
    errors (local s') = errors (local s) ++ pageErrors [Called c evs r].
Proof.
  unfold call. destruct (exec c (world s)) as [[w evs] r0]. intros [= <- <-]. simpl.
  destruct (events_vars evs (local s)) as [-> ->]. split; [done|]. exists evs.
  unfold pageErrors. simpl. by rewrite app_nil_r.
Qed.

Lemma sound_call c : sound (pw c) (λ a obs, ∃ evs, obs = [Called c evs (inr a)]).
Proof.
  intros s s' a Hs H0. destruct (call_errors _ _ _ _ Hs) as (He & evs & Ht & Hr).
  rewrite He in H0. split; [done|]. eauto 10.
Qed.

Lemma sound_ignore c : sound (call_ignore onEvent c) (λ _ obs, follows [tried c] obs).
Proof.
  intros s s' a Hs H0. unfold call_ignore, catch, bindM in Hs.
  destruct (pw c s) as [s1 r] eqn:E. destruct (call_errors _ _ _ _ E) as (He & evs & Ht & Hr).
  assert (s1 = s') as -> by (destruct r; by injection Hs).
  rewrite He in H0. split; [done|]. eexists. split_and!; [done|done|].
  constructor; [|constructor]. by exists evs, r.
Qed.

Lemma sound_pure {A} (r : exn + A) : sound (λ s, (s, r)) (λ a obs, r = inr a ∧ obs = []).
Proof.
  intros s s' a [= <- ->] H0. split; [done|]. exists []. unfold pageErrors. simpl.
  by rewrite !app_nil_r.
Qed.

Lemma sound_bind {A B} (m : Script A) (k : A → Script B) L1 L2 :
  sound m L1 → (∀ a, sound (k a) (L2 a)) →
  sound (bindM m k) (λ b obs, ∃ a o1 o2, obs = o1 ++ o2 ∧ L1 a o1 ∧ L2 a b o2).
Proof.
  intros H1 H2 s s' b Hs H0. apply bindM_inr in Hs as (s1 & a & E1 & E2).
  destruct (H2 a _ _ _ E2 H0) as (H0' & o2 & Ht2 & He2 & HL2).
  destruct (H1 _ _ _ E1 H0') as (H0'' & o1 & Ht1 & He1 & HL1). split; [done|].
  exists (o1 ++ o2). rewrite Ht2, He2, Ht1, He1, pageErrors_app, !app_assoc. eauto 10.
Qed.

(** A program that always ends with a failure. *)
Lemma sound_fail msg : sound (fail msg) (λ _ _, False).
Proof. intros s s' a Hs H0. injection Hs as <- _. done. Qed.

Lemma sound_failIf b msg : sound (failIf b msg) (λ _ obs, b = false ∧ obs = []).
Proof.
  destruct b; simpl; [eapply sound_weaken; [apply sound_fail|done]|].
  eapply sound_weaken; [apply (sound_pure (inr tt))|]. naive_solver.
Qed.

Lemma sound_if {A} (b : bool) (m1 m2 : Script A) L1 L2 :
  sound m1 L1 → sound m2 L2 →
  sound (if b then m1 else m2) (λ a obs, if b then L1 a obs else L2 a obs).
Proof. by destruct b. Qed.

Lemma sound_checks {A} (l : list A) (b : A → bool) msg :
  sound (forM l (λ x, failIf (b x) (msg x))) (λ _ obs, (∀ x, x ∈ l → b x = false) ∧ obs = []).
Proof.
  induction l as [|x l IH]; simpl.
  - eapply sound_weaken; [apply (sound_pure (inr tt))|]. intros a obs [_ ->]. split; [|done].
    intros x Hx. by apply not_elem_of_nil in Hx.
  - eapply sound_weaken; [apply sound_bind; [apply sound_failIf|intros; apply IH]|].
    intros a obs (_ & o1 & o2 & -> & [Hb ->] & [Hl ->]). split; [|done].
    intros y [->|Hy]%elem_of_cons; auto.
Qed.

(** ** Phases *)

(** What [whoami] read out of an answer of [/ui/auth/me]. *)
Definition meOf (r : Response) (me : Me) : Prop :=
  status me = rstatus r ∧
  (if rok r then username me = js_or (get_opt (default (Obj []) (rbody r)) "username") Null
   else username me = Null).

Lemma sound_whoami : sound whoami (λ me obs, ∃ r, follows [said (PageFetch (runes "/ui/auth/me")) (eq r)] obs ∧ meOf r me).
Proof.
  unfold whoami. eapply sound_weaken.
  { apply sound_bind; [apply (sound_call (PageFetch (runes "/ui/auth/me")))|]. intros r. apply sound_if.
    - apply sound_pure.
    - apply sound_bind; [apply sound_pure|]. intros u. apply sound_pure. }
  intros me obs (r & o1 & o2 & -> & [evs ->] & HL). exists r. unfold meOf.
  destruct (rok r) eqn:Er; simpl in HL.
  - destruct HL as (u & p1 & p2 & -> & [Hg ->] & [[= <-] ->]). split.
    + constructor; [|constructor]. by exists evs, r.
    + simpl. split; [done|]. unfold get, get_opt in *.
      destruct (nullish (default (Obj []) (rbody r))); [done|]. by injection Hg as <-.
  - destruct HL as [[= <-] ->]. split; [|done]. constructor; [|constructor]. by exists evs, r.
Qed.

(** The server said the session belongs to [email]. *)
Definition identifies (email : jstr) (r : Response) : Prop :=
  rok r = true ∧ get_opt (default (Obj []) (rbody r)) "username" = Str email.

Definition me (P : Response → Prop) : Obs → Prop := said (PageFetch (runes "/ui/auth/me")) P.

Lemma isNot_false r m email : meOf r m → isNot m email = false → identifies email r.
Proof.
  intros [_ Hu]. unfold isNot. intros Hn%negb_false_iff.
  destruct (rok r) eqn:Er; [|by rewrite Hu in Hn]. split; [done|].
  rewrite Hu in Hn. unfold js_or in Hn.
  destruct (truthy (get_opt (default (Obj []) (rbody r)) "username")); [|done].
  destruct (get_opt (default (Obj []) (rbody r)) "username"); try done.
  simpl in Hn. apply bool_decide_eq_true in Hn. by subst.
Qed.

Lemma sound_identity email msg :
  sound (let* m := whoami in failIf (isNot m email) (msg m)) (λ _ obs, follows [me (identifies email)] obs).
Proof.
  eapply sound_weaken; [apply sound_bind; [apply sound_whoami|intros m; apply sound_failIf]|].
  intros _ obs (m & o1 & o2 & -> & (r & Hf & Hm) & [Hb ->]). rewrite app_nil_r.
  inversion Hf as [|P o ps os Hsaid Hrest]; subst. inversion Hrest; subst.
  constructor; [|constructor]. destruct Hsaid as (evs & a & -> & <-). exists evs, r. split; [done|].
  by eapply isNot_false.
Qed.

(** [m] passes only by making the calls [ps]. *)
Definition passes {A} (m : Script A) (ps : list (Obs → Prop)) : Prop :=
  sound m (λ _ obs, follows ps obs).

Lemma passes_seq {A B} (m : Script A) (k : Script B) p1 p2 :
  passes m p1 → passes k p2 → passes (m ;; k) (p1 ++ p2).
Proof.
  intros H1 H2. eapply sound_weaken; [apply sound_bind; [exact H1|intros; exact H2]|].
  intros b obs (a & o1 & o2 & -> & ? & ?). by apply follows_app.
Qed.

Lemma passes_did c : passes (pw c) [did c].
Proof.
  eapply sound_weaken; [apply sound_call|]. intros a obs [evs ->].
  constructor; [|constructor]. by exists evs, a.
Qed.

Lemma passes_call {A} c (k : Ans c → Script A) (P : Ans c → Prop) ps :
  (∀ a, sound (k a) (λ _ obs, P a ∧ follows ps obs)) →
  passes (bindM (pw c) k) (said c P :: ps).
Proof.
  intros Hk. eapply sound_weaken; [apply sound_bind; [apply sound_call|exact Hk]|].
  intros b obs (a & o1 & o2 & -> & [evs ->] & HP & Hf). constructor; [|done]. by exists evs, a.
Qed.

Lemma passes_identity {A} email msg (k : Script A) ps : passes k ps →
  passes (let* m := whoami in (failIf (isNot m email) (msg m) ;; k)) (me (identifies email) :: ps).
Proof.
  intros Hk s s' a Hs. rewrite <- bindM_assoc in Hs. revert s s' a Hs.
  apply (passes_seq _ _ [_]); [apply sound_identity|done].
Qed.

(** An assertion on a value, then the rest. *)
Lemma sound_assert {A} b msg (k : Script A) (Q : Prop) ps :
  (b = false → Q) → passes k ps → sound (failIf b msg ;; k) (λ _ obs, Q ∧ follows ps obs).
Proof.
  intros HQ Hk. eapply sound_weaken; [apply sound_bind; [apply sound_failIf|intros; exact Hk]|].
  intros a obs (_ & o1 & o2 & -> & [Hb ->] & Hf). auto.
Qed.

Lemma sound_last b msg (Q : Prop) :
  (b = false → Q) → sound (failIf b msg) (λ _ obs, Q ∧ follows [] obs).
Proof.
  intros HQ. eapply sound_weaken; [apply sound_failIf|]. intros a obs [Hb ->].
  split; [auto|constructor].
Qed.

Definition noToken (jar : jstr) : Prop := includes (runes "_token") jar = false.

Lemma passes_jar msg : passes (checkJar msg) [said DocumentCookie noToken].
Proof. apply passes_call. intros jar. by apply sound_last. Qed.

Lemma passes_mustHave l msg : passes (mustHave l msg) [said (Count l) (λ n, n ≠ 0%nat)].
Proof. apply passes_call. intros n. apply sound_last. apply bool_decide_eq_false. Qed.

(** The authorization request the IdP received. *)
Definition goodRequest (landed : jstr) : Prop :=
  startsWith (IDP_ORIGIN cf) landed = true ∧
  ∃ q, searchParams landed = inr q ∧ ∀ p, p ∈ authParams → lacks q p = false.

Definition goodHref (h : option jstr) : Prop :=
  ∃ t, h = Some t ∧ startsWith (runes "/api/v2/auth/oidc/login") t = true ∧ includes (runes "next=") t = true.

Definition ssoCalls : list (Obs → Prop) :=
  [said (GetAttribute (First ssoLink) "href") goodHref; did (Click (First ssoLink));
   did WaitForLoadState; said PageUrl goodRequest].

Lemma sound_request landed : sound (checkRequest cf landed) (λ _ obs, goodRequest landed ∧ follows [] obs).
Proof.
  unfold checkRequest, goodRequest.
  eapply sound_weaken; [apply sound_if; [apply sound_fail|apply sound_bind; [apply sound_pure|
    intros q; apply sound_checks]]|].
  intros a obs. destruct (startsWith (IDP_ORIGIN cf) landed); simpl; [|done].
  intros (q & o1 & o2 & -> & [Hq ->] & [Hl ->]). split; [|constructor]. eauto.
Qed.

Lemma sound_follow n : sound (followSso cf n) (λ _ obs, n ≠ 0%nat ∧ follows ssoCalls obs).
Proof.
  unfold followSso. case_bool_decide as Hn; [eapply sound_weaken; [apply sound_fail|done]|].
  eapply sound_weaken; [|by intros a obs Hf; split; [exact Hn|exact Hf]].
  apply passes_call. intros h.
  assert (Hrest : passes (pw (Click (First ssoLink)) ;; pw WaitForLoadState ;;
    (let* landed := pw PageUrl in checkRequest cf landed))
    [did (Click (First ssoLink)); did WaitForLoadState; said PageUrl goodRequest]).
  { apply (passes_seq _ _ [_]); [apply passes_did|]. apply (passes_seq _ _ [_]); [apply passes_did|].
    apply passes_call. intros landed. apply sound_request. }
  eapply sound_weaken; [apply sound_bind; [apply sound_failIf|intros ?; apply sound_bind;
    [apply sound_pure|intros nx; apply sound_bind; [apply sound_failIf|intros ?; exact Hrest]]]|].
  intros a obs (_ & o1 & o2 & -> & [Hb ->] & nx & o3 & o4 & -> & [Hx ->] & _ & o5 & o6 & -> & [Hn2 ->] & Hf).
  split; [|done]. apply negb_false_iff in Hn2 as ->.
  destruct h as [[|c r]|]; try done. exists (c :: r). split; [done|].
  injection Hx as Hx. by apply negb_false_iff in Hb.
Qed.

Definition signOnCalls : list (Obs → Prop) :=
  [said (Count (Css "#continue")) (λ n, n ≠ 0%nat); did (Click (Css "#continue")); did WaitForLoadState;
   said PageUrl (λ u, startsWith (URL_BASE cf) u = true); me (identifies (SSO_EMAIL cf));
   said DocumentCookie noToken].

Lemma passes_signOn : passes (finishSignOn cf) signOnCalls.
Proof.
  unfold finishSignOn. apply passes_call. intros n.
  case_bool_decide as Hn; [eapply sound_weaken; [apply sound_fail|done]|].
  eapply sound_weaken; [|by intros a obs Hf; split; [exact Hn|exact Hf]].
  apply (passes_seq _ _ [_]); [apply passes_did|]. apply (passes_seq _ _ [_]); [apply passes_did|].
  apply passes_call. intros u. destruct (startsWith (URL_BASE cf) u); simpl.
  - eapply sound_weaken; [apply sound_bind; [apply sound_pure|
      intros; apply passes_identity, passes_jar]|].
    intros a obs (_ & o1 & o2 & -> & [_ ->] & Hf). done.
  - eapply sound_weaken; [apply sound_bind; [apply sound_bind; [apply (sound_call PageUrl)|intros; apply sound_fail]|
      intros; apply passes_identity, passes_jar]|].
    intros a obs (_ & o1 & o2 & _ & (? & ? & ? & _ & _ & []) & _).
Qed.

Definition formCalls : list (Obs → Prop) :=
  [did (Goto (loginUrl cf)); said (Count passwordInput) (λ n, n ≠ 0%nat)].

Lemma passes_form : passes (passwordForm cf) formCalls.
Proof. apply (passes_seq _ _ [_]); [apply passes_did|apply passes_mustHave]. Qed.

Definition typedCalls (email password : jstr) : list (Obs → Prop) :=
  [did (Goto (loginUrl cf)); did (Fill (Css "input[name=username]") email);
   did (Fill (Css "input[name=password]") password); did (Click (Css "button[type=submit]"));
   tried WaitForFunction; tried WaitForLoadState].

Lemma passes_typed email password : passes (signInWithPassword cf email password) (typedCalls email password).
Proof.
  do 4 (apply (passes_seq _ _ [_]); [apply passes_did|]).
  apply (passes_seq _ _ [_]); apply sound_ignore.
Qed.

Definition glassCalls : list (Obs → Prop) :=
  [me (identifies (SSO_EMAIL cf))] ++
  typedCalls (BREAK_GLASS_EMAIL cf) (BREAK_GLASS_PASSWORD cf) ++
  [me (identifies (BREAK_GLASS_EMAIL cf)); said DocumentCookie noToken].

Lemma sound_glass : sound (breakGlass cf) (λ _ obs, BREAK_GLASS_PASSWORD cf ≠ [] ∧ follows glassCalls obs).
Proof.
  unfold breakGlass. case_bool_decide as Hp; [eapply sound_weaken; [apply sound_fail|done]|].
  eapply sound_weaken; [|by intros a obs Hf; split; [exact Hp|exact Hf]].
  apply passes_identity. apply passes_seq; [apply passes_typed|]. apply passes_identity, passes_jar.
Qed.

Definition signOutCalls : list (Obs → Prop) :=
  [did (Goto (URL_BASE cf ++ runes "/api/v2/auth/logout")); me (λ r, rstatus r = 401)].

Lemma passes_signOut : passes (signOut cf) signOutCalls.
Proof.
  apply (passes_seq _ _ [_]); [apply passes_did|].
  eapply sound_weaken; [apply sound_bind; [apply sound_whoami|intros m; apply sound_failIf]|].
  intros _ obs (m & o1 & o2 & -> & (r & Hf & Hs & _) & [Hb ->]). rewrite app_nil_r.
  inversion Hf as [|P o ps os Hsaid Hrest]; subst. inversion Hrest; subst.
  constructor; [|constructor]. destruct Hsaid as (evs & a & -> & <-). exists evs, r. split; [done|].
  apply negb_false_iff, Z.eqb_eq in Hb. congruence.
Qed.

Definition refusedCalls (denied : jstr) : list (Obs → Prop) :=
  [did (Goto (URL_BASE cf ++ runes "/api/v2/auth/oidc/callback?code=nope&state=nope"));
   said PageUrl (λ u, u = denied ∧ startsWith (loginUrl cf) denied = true);
   said (Count passwordInput) (λ n, n ≠ 0%nat); said (Count (Css ".ssoerr")) (λ n, n ≠ 0%nat);
   said PageContent (λ c, ∀ leak, leak ∈ leaks →
     includes (runes leak) (toLowerCase (denied ++ runes " " ++ c)) = false)].

Lemma sound_refused : sound (refused cf) (λ _ obs, ∃ denied, follows (refusedCalls denied) obs).
Proof.
  unfold refused.
  assert (Hrest : ∀ denied, passes
    (mustHave passwordInput (runes "a refused sign-on rendered something that is not the sign-in page: " ++ denied) ;;
     mustHave (Css ".ssoerr") (runes "a refused sign-on returned the bare sign-in form, which reads as the button having done nothing") ;;
     (let* content := pw PageContent in
      forM leaks (λ leak, failIf (includes (runes leak) (toLowerCase (denied ++ runes " " ++ content)))
        (runes "the refused sign-on told the browser why: " ++ runes leak))))
    (drop 2 (refusedCalls denied))).
  { intros denied. apply (passes_seq _ _ [_]); [apply passes_mustHave|].
    apply (passes_seq _ _ [_]); [apply passes_mustHave|]. apply passes_call. intros c.
    eapply sound_weaken; [apply sound_checks|]. intros a obs [Hl ->]. split; [done|constructor]. }
  eapply sound_weaken; [apply sound_bind; [apply passes_did|intros ?; apply sound_bind; [apply (sound_call PageUrl)|
    intros denied; apply sound_bind; [apply sound_failIf|intros ?; apply Hrest]]]|].
  intros a obs (_ & o1 & o2 & -> & Hg & denied & o3 & o4 & -> & [evs ->] & _ & o5 & o6 & -> & [Hb ->] & Hf).
  exists denied. apply (follows_app [_] (drop 1 (refusedCalls denied))); [done|].
  constructor; [|done]. exists evs, denied. apply negb_false_iff in Hb. done.
Qed.

End sound.

(** ** The whole run *)

Section run.
Context {W : Type} {H : Host W} (cf : Config) (fs : Fs) (home : option jstr).
Abbreviation Script := (M W Vars).
Abbreviation pw := (call (W:=W) (L:=Vars) onEvent).

Definition openingCalls (exe : option jstr) : list (Obs → Prop) :=
  [did (Launch exe); did NewContext; did NewPage; did (Goto (loginUrl cf ++ runes "?next=/dags"))].

(** Everything before the report on page errors. *)
Definition body (exe : option jstr) (arm : nat → Script unit) : Script unit :=
  pw (Launch exe) ;; pw NewContext ;; pw NewPage ;;
  pw (Goto (loginUrl cf ++ runes "?next=/dags")) ;;
  (let* ssoCount := pw (Count ssoLink) in arm ssoCount).

Lemma sound_body exe arm (L : nat → list Obs → Prop) :
  (∀ n, sound (arm n) (λ _ obs, L n obs)) →
  sound (body exe arm) (λ _ obs, ∃ n o1 o2, obs = o1 ++ o2 ∧
    follows (openingCalls exe ++ [said (Count ssoLink) (eq n)]) o1 ∧ L n o2).
Proof.
  intros Harm.
  assert (Hcount : sound (let* n := pw (Count ssoLink) in arm n) (λ _ obs, ∃ n o1 o2, obs = o1 ++ o2 ∧
    follows [said (Count ssoLink) (eq n)] o1 ∧ L n o2)).
  { eapply sound_weaken; [apply sound_bind; [apply sound_call|apply Harm]|].
    intros a obs (n & o1 & o2 & -> & [evs ->] & HL). exists n, [Called (Count ssoLink) evs (inr n)], o2.
    split_and!; [done| |done]. constructor; [|constructor]. by exists evs, n. }
  unfold body.
  eapply sound_weaken; [apply sound_bind; [apply passes_did|intros ?; apply sound_bind; [apply passes_did|
    intros ?; apply sound_bind; [apply passes_did|intros ?; apply sound_bind; [apply passes_did|
    intros ?; exact Hcount]]]]|].
  intros a obs (_ & p1 & q1 & -> & F1 & _ & p2 & q2 & -> & F2 & _ & p3 & q3 & -> & F3 & _ & p4 & q4 & ->
    & F4 & n & o1 & o2 & -> & Fc & HL).
  exists n, (p1 ++ p2 ++ p3 ++ p4 ++ o1), o2. rewrite <- !app_assoc. split_and!; [done| |done].
  apply (follows_app [_]); [done|]. apply (follows_app [_]); [done|].
  apply (follows_app [_]); [done|]. by apply (follows_app [_]).
Qed.

Lemma main_body exe s : cachedChromium fs home = inr exe →
  main cf fs home s =
  bindM (body exe (if EXPECT_SSO cf then ssoArm cf else jwtArm cf))
    (λ _, reportErrors ;; pw CloseContext ;; pw CloseBrowser ;; okLine cf) s.
Proof.
  intros He. unfold main, body. unfold bindM at 1. simpl. rewrite He.
  do 4 (rewrite bindM_assoc; apply bindM_ext; intros [] ?).
  rewrite bindM_assoc. apply bindM_ext. intros n ?. by destruct (EXPECT_SSO cf).
Qed.

Lemma okLine_code (s s' : St W Vars) : okLine cf s = (s', inr tt) →
  exitCode (local s') = exitCode (local s) ∧ trace s' = trace s.
Proof. intros [= <-]. simpl. by destruct (exitCode (local s) =? 0). Qed.

Lemma reportErrors_pass (s s' : St W Vars) : reportErrors s = (s', inr tt) → exitCode (local s') = 0 →
  s' = s ∧ signInErrors (local s) = [].
Proof.
  unfold reportErrors. intros (s1 & v & [= <- <-] & Hs)%bindM_inr H0.
  case_bool_decide as Hv; simpl in Hs; [by injection Hs as <-|]. injection Hs as <-. done.
Qed.

(** No page error was raised on a page of the sign-in flow. *)
Definition quietSignIn (obs : list Obs) : Prop :=
  ∀ e, e ∈ pageErrors obs → includes (runes "/api/v2/auth/") e.1 = false.

Lemma run_zero w (L : nat → list Obs → Prop) :
  runSso cf fs home w = 0 →
  (∀ n, sound ((if EXPECT_SSO cf then ssoArm cf else jwtArm cf) n) (λ _ obs, L n obs)) →
  ∃ exe s n o1 o2 o3, cachedChromium fs home = inr exe ∧ main cf fs home (start w) = (s, inr tt) ∧
    trace s = (o1 ++ o2) ++ o3 ∧
    follows (openingCalls exe ++ [said (Count ssoLink) (eq n)]) o1 ∧ L n o2 ∧
    follows [did CloseContext; did CloseBrowser] o3 ∧ quietSignIn (o1 ++ o2).
Proof.
  unfold runSso. intros Hrun Harm.
  destruct (main cf fs home (start w)) as [s [e|[]]] eqn:Em; [done|].
  destruct (cachedChromium fs home) as [e|exe] eqn:Ee.
  { unfold main, bindM in Em. simpl in Em. rewrite Ee in Em. done. }
  rewrite (main_body exe) in Em by done.
  apply bindM_inr in Em as (s1 & [] & Hb & Em). apply bindM_inr in Em as (s2 & [] & Hr & Em).
  apply bindM_inr in Em as (s3 & [] & Hc & Em). apply bindM_inr in Em as (s4 & [] & Hd & Ho).
  destruct (okLine_code _ _ Ho) as [Ho1 Ho2]. rewrite Ho1 in Hrun.
  destruct (passes_did CloseBrowser _ _ _ Hd Hrun) as (Hz4 & d2 & Ht4 & _ & F4).
  destruct (passes_did CloseContext _ _ _ Hc Hz4) as (Hz3 & d1 & Ht3 & _ & F3).
  destruct (reportErrors_pass _ _ Hr Hz3) as [-> Hsig].
  destruct (sound_body exe _ L Harm _ _ _ Hb Hz3) as (_ & obs & Ht & He & n & o1 & o2 & -> & F1 & HL).
  exists exe, s, n, o1, o2, (d1 ++ d2). rewrite Ho2, Ht4, Ht3, Ht, <- !app_assoc.
  split_and!; try done; [by apply (follows_app [_])|].
  intros x Hx. destruct (includes _ x.1) eqn:Ex; [|done]. exfalso.
  assert (Hin : x ∈ signInErrors (local s1)).
  { apply list_elem_of_filter. split; [by apply Is_true_true|]. by rewrite He. }
  rewrite Hsig in Hin. by apply not_elem_of_nil in Hin.
Qed.

(** The assertions of the SSO arm, in the order of the calls that answer them. *)
Definition ssoContract (denied : jstr) : list (Obs → Prop) :=
  ssoCalls cf ++ signOnCalls cf ++ formCalls cf ++ glassCalls cf ++ signOutCalls cf ++ refusedCalls cf denied.

Lemma sound_ssoArm n : sound (ssoArm cf n)
  (λ _ obs, n ≠ 0%nat ∧ BREAK_GLASS_PASSWORD cf ≠ [] ∧ ∃ denied, follows (ssoContract denied) obs).
Proof.
  unfold ssoArm.
  eapply sound_weaken; [apply sound_bind; [apply sound_follow|intros ?; apply sound_bind; [apply passes_signOn|
    intros ?; apply sound_bind; [apply passes_form|intros ?; apply sound_bind; [apply sound_glass|
    intros ?; apply sound_bind; [apply passes_signOut|intros ?; apply sound_refused]]]]]|].
  intros a obs (_ & p1 & q1 & -> & [Hn F1] & _ & p2 & q2 & -> & F2 & _ & p3 & q3 & -> & F3 & _ & p4 & q4 & ->
    & [Hp F4] & _ & p5 & q5 & -> & F5 & denied & F6).
  split_and!; [done..|]. exists denied. unfold ssoContract. by repeat apply follows_app.
Qed.

Definition jwtContract : list (Obs → Prop) :=
  typedCalls cf (BREAK_GLASS_EMAIL cf) (BREAK_GLASS_PASSWORD cf) ++
  [me (identifies (BREAK_GLASS_EMAIL cf)); said DocumentCookie noToken].

Lemma sound_jwtArm n : sound (jwtArm cf n)
  (λ _ obs, n = 0%nat ∧ BREAK_GLASS_PASSWORD cf ≠ [] ∧ follows jwtContract obs).
Proof.
  unfold jwtArm. eapply sound_weaken; [apply sound_bind; [apply sound_failIf|intros ?; apply sound_if;
    [apply sound_fail|apply (passes_seq _ _ (typedCalls cf (BREAK_GLASS_EMAIL cf) (BREAK_GLASS_PASSWORD cf))); [apply passes_typed|apply passes_identity, passes_jar]]]|].
  intros a obs (_ & o1 & o2 & -> & [Hn ->] & Hf). apply bool_decide_eq_false in Hn.
  case_bool_decide; [done|]. split_and!; [lia|done|exact Hf].
Qed.

(** C15: on a deployment that expects SSO, status 0 proves the whole story: the
    sign-in page offered the control, its link kept [next=], it reached the IdP
    with every parameter of the authorization request, the completed sign-on was
    the SSO identity with no readable session cookie, the break-glass login over
    it replaced the identity, signing out ended the session with a 401, a refused
    sign-on came back to the sign-in page with its banner and without its reason,
    and no page error was raised inside the sign-in flow; nothing else was
    called. *)
Theorem sso_pass_contract w :
  runSso cf fs home w = 0 → EXPECT_SSO cf = true →
  ∃ exe s n denied o1 o2 o3, main cf fs home (start w) = (s, inr tt) ∧ trace s = (o1 ++ o2) ++ o3 ∧
    follows (openingCalls exe ++ [said (Count ssoLink) (eq n)]) o1 ∧ n ≠ 0%nat ∧
    follows (ssoContract denied) o2 ∧ BREAK_GLASS_PASSWORD cf ≠ [] ∧
    follows [did CloseContext; did CloseBrowser] o3 ∧ quietSignIn (o1 ++ o2).
Proof.
  intros Hrun He. destruct (run_zero w (λ n obs, n ≠ 0%nat ∧ BREAK_GLASS_PASSWORD cf ≠ [] ∧
    ∃ denied, follows (ssoContract denied) obs) Hrun)
    as (exe & s & n & o1 & o2 & o3 & _ & Hm & Ht & F1 & (Hn & Hp & denied & F2) & F3 & Hq).
  { rewrite He. apply sound_ssoArm. }
  exists exe, s, n, denied, o1, o2, o3. done.
Qed.

(** on a JWT-only deployment status 0 proves that no SSO control is offered,
    that the password login signed the configured account in, and that the
    session token is not readable from the page. *)
Theorem jwt_pass_contract w :
  runSso cf fs home w = 0 → EXPECT_SSO cf = false →
  ∃ exe s o1 o2 o3, main cf fs home (start w) = (s, inr tt) ∧ trace s = (o1 ++ o2) ++ o3 ∧
    follows (openingCalls exe ++ [said (Count ssoLink) (eq 0%nat)]) o1 ∧
    follows jwtContract o2 ∧ BREAK_GLASS_PASSWORD cf ≠ [] ∧
    follows [did CloseContext; did CloseBrowser] o3 ∧ quietSignIn (o1 ++ o2).
Proof.
  intros Hrun He. destruct (run_zero w (λ n obs, n = 0%nat ∧ BREAK_GLASS_PASSWORD cf ≠ [] ∧
    follows jwtContract obs) Hrun)
    as (exe & s & n & o1 & o2 & o3 & _ & Hm & Ht & F1 & (-> & Hp & F2) & F3 & Hq).
  { rewrite He. apply sound_jwtArm. }
  exists exe, s, o1, o2, o3. done.
Qed.

End run.

(** ** A concrete deployment

    The world counts the identity questions asked so far and remembers whether
    the sign-on was refused; it answers as a correct deployment does. *)
Section deployment.
Context (cf : Config) (sso : bool).

Record World := { asked : nat; urls : list jstr }.

(** The identity after so many questions. *)
Definition identity (n : nat) : Response :=
  let user e := {| rstatus := 200; rbody := Some (Obj [(runes "username", Str e)]) |} in
  if sso then
    match n with
    | 0%nat | 1%nat => user (SSO_EMAIL cf)
    | 2%nat => user (BREAK_GLASS_EMAIL cf)
    | _ => {| rstatus := 401; rbody := None |}
    end
  else user (BREAK_GLASS_EMAIL cf).

Definition dAnswer (c : Cmd) (w : World) : Ans c :=
  match c with
  | Count (Css s) => if String.eqb s "a.sso" then (if sso then 1%nat else 0%nat) else 1%nat
  | Count _ => 1%nat
  | GetAttribute _ _ => Some (runes "/api/v2/auth/oidc/login?next=/dags")
  | PageUrl => default (loginUrl cf) (head (urls w))
  | PageContent => runes "<p class=ssoerr>Sign-on was refused.</p>"
  | DocumentCookie => []
  | RequestGet _ _ | RequestPost _ _ _ => None
  | PageFetch _ => identity (asked w)
  | DateNow => 0%nat
  | _ => tt
  end.

Definition dNext (c : Cmd) (w : World) : World :=
  match c with
  | PageFetch _ => {| asked := S (asked w); urls := urls w |}
  | PageUrl => {| asked := asked w; urls := tail (urls w) |}
  | _ => w
  end.

Definition deployment : Host World := {|
  exec c w := (dNext c w, [], inr (dAnswer c w));
  numberToString _ _ := [];
  errorStack := message;
  parseURL _ := throw [];
  searchParams _ := inr (λ _, Some (runes "x"));
|}.

Definition deployed : World := {| asked := 0; urls := [IDP_ORIGIN cf; URL_BASE cf] |}.

End deployment.

Definition sampleEnv (sso : bool) : Env := {|
  LEOFLOW_URL := None; LEOFLOW_EXPECT_SSO := Some (runes (if sso then "1" else "0"));
  LEOFLOW_IDP_ORIGIN := None; LEOFLOW_SSO_EMAIL := None; LEOFLOW_BREAK_GLASS_EMAIL := None;
  LEOFLOW_BREAK_GLASS_PASSWORD := Some (runes "pw"); HOME := None;
|}.

Definition noFs : Fs := {| readdirSync _ := None; existsSync _ := false |}.

Definition ssoCfg : Config := config (sampleEnv true).
Definition jwtCfg : Config := config (sampleEnv false).

Lemma sso_pass_contract_witness :
  ∃ exe s n denied o1 o2 o3,
    main (H:=deployment ssoCfg true) ssoCfg noFs None (start (deployed ssoCfg)) = (s, inr tt) ∧ trace s = (o1 ++ o2) ++ o3 ∧
    follows (openingCalls ssoCfg exe ++ [said (Count ssoLink) (eq n)]) o1 ∧ n ≠ 0%nat ∧
    follows (ssoContract (H:=deployment ssoCfg true) ssoCfg denied) o2 ∧ BREAK_GLASS_PASSWORD ssoCfg ≠ [] ∧
    follows [did CloseContext; did CloseBrowser] o3 ∧ quietSignIn (o1 ++ o2).
Proof. apply (sso_pass_contract (H:=deployment ssoCfg true)); vm_compute; reflexivity. Defined.

Lemma jwt_pass_contract_witness :
  ∃ exe s o1 o2 o3,
    main (H:=deployment jwtCfg false) jwtCfg noFs None (start (deployed jwtCfg)) = (s, inr tt) ∧ trace s = (o1 ++ o2) ++ o3 ∧
    follows (openingCalls jwtCfg exe ++ [said (Count ssoLink) (eq 0%nat)]) o1 ∧
    follows (jwtContract jwtCfg) o2 ∧ BREAK_GLASS_PASSWORD jwtCfg ≠ [] ∧
    follows [did CloseContext; did CloseBrowser] o3 ∧ quietSignIn (o1 ++ o2).
Proof. apply (jwt_pass_contract (H:=deployment jwtCfg false)); vm_compute; reflexivity. Defined.
