(* ===== verification/Search.v ===== *)
(** * The API-documentation search

    [website/static/python-api/search.js]: the elasticlunr inverted index the
    page ships (tokenizer, pipeline, document store, prefix trie, scoring) and the
    pdoc driver that builds or loads it and searches it.

    Doubles are a parameter ([Float]): which documents are found does not depend
    on them.  So is the Unicode case mapping.  A JavaScript object used as a map is
    a list of its own properties in property order (array indices first), and the
    names every object inherits are [inherited].  A search that throws is [None]. *)

From Stdlib Require Import ZArith Lia.
From stdpp Require Import base numbers strings gmap option list.
From S2P Require Import Prelude Js.

Open Scope Z_scope.

Module Search.

(** ** Objects as maps *)

Definition inherited (k : jstr) : bool :=
  bool_decide (k ∈ map runes
    ["constructor"; "toString"; "valueOf"; "hasOwnProperty"; "isPrototypeOf"; "toLocaleString";
     "propertyIsEnumerable"; "__proto__"; "__defineGetter__"; "__defineSetter__";
     "__lookupGetter__"; "__lookupSetter__"]).

Fixpoint digits (acc : Z) (s : jstr) : option Z :=
  match s with
  | [] => Some acc
  | c :: r => if (48 <=? c) && (c <=? 57) then digits (acc * 10 + (c - 48)) r else None
  end.

(** The array index a property name denotes, if any. *)
Definition arrayIndex (k : jstr) : option Z :=
  match k with
  | [] => None
  | [48] => Some 0
  | 48 :: _ => None
  | _ => match digits 0 k with Some n => if n <? 2 ^ 32 - 1 then Some n else None | None => None end
  end.

Section objects.
Context {V : Type}.

(** Own property. *)
Fixpoint oget (k : jstr) (l : list (jstr * V)) : option V :=
  match l with
  | [] => None
  | (k', v) :: r => if bool_decide (k' = k) then Some v else oget k r
  end.

(** A new array index goes before the names and the greater indices. *)
Fixpoint oinsertIndex (i : Z) (k : jstr) (v : V) (l : list (jstr * V)) : list (jstr * V) :=
  match l with
  | [] => [(k, v)]
  | (k', v') :: r =>
    match arrayIndex k' with
    | Some j => if j <? i then (k', v') :: oinsertIndex i k v r else (k, v) :: l
    | None => (k, v) :: l
    end
  end.

Fixpoint oreplace (k : jstr) (v : V) (l : list (jstr * V)) : list (jstr * V) :=
  match l with
  | [] => []
  | (k', v') :: r => if bool_decide (k' = k) then (k, v) :: r else (k', v') :: oreplace k v r
  end.

(** [o[k] = v] *)
Definition oput (k : jstr) (v : V) (l : list (jstr * V)) : list (jstr * V) :=
  match oget k l with
  | Some _ => oreplace k v l
  | None => match arrayIndex k with Some i => oinsertIndex i k v l | None => l ++ [(k, v)] end
  end.

(** [delete o[k]] *)
Fixpoint odel (k : jstr) (l : list (jstr * V)) : list (jstr * V) :=
  match l with
  | [] => []
  | (k', v') :: r => if bool_decide (k' = k) then odel k r else (k', v') :: odel k r
  end.

(** [k in o]; for the maps below also the truthiness of [o[k]]. *)
Definition has (k : jstr) (l : list (jstr * V)) : bool := inherited k || bool_decide (is_Some (oget k l)).

End objects.

(** ** Numbers *)

Class Float (F : Type) := {
  fofZ : Z → F; fadd : F → F → F; fsub : F → F → F; fmul : F → F → F; fdiv : F → F → F;
  fsqrt : F → F; flog : F → F; fnan : F; f_15 : F;
  (** the sign of a comparator's result; 0 for NaN *)
  fsign : F → Z;
}.

(** ** Tokenizer and pipeline *)

(** The characters of [[\s\-.;&_'=,()]] and the double quote. *)
Definition isSepChar (c : Z) : bool :=
  isSpaceJs c || bool_decide (c ∈ [45; 46; 59; 38; 95; 39; 34; 61; 44; 40; 41]).

Fixpoint dropSep (s : jstr) : jstr :=
  match s with [] => [] | c :: r => if isSepChar c then dropSep r else s end.

(** The rest after [<[^>]*>], past the opening bracket. *)
Fixpoint afterTag (s : jstr) : option jstr :=
  match s with [] => None | c :: r => if c =? 62 then Some r else afterTag r end.

(** What follows a match of the separator at the start of the string. *)
Definition matchSep (s : jstr) : option jstr :=
  match s with
  | [] => None
  | c :: r => if isSepChar c then Some (dropSep r) else if c =? 60 then afterTag r else None
  end.

(** [s.split(seperator)]; every match consumes at least one unit, so the length
    of the string is fuel enough. *)
Fixpoint splitSep (fuel : nat) (cur s : jstr) : list jstr :=
  match fuel with
  | O => [reverse cur]
  | S fuel =>
    match s with
    | [] => [reverse cur]
    | c :: r =>
      match matchSep s with
      | Some rest => reverse cur :: splitSep fuel [] rest
      | None => splitSep fuel (c :: cur) r
      end
    end
  end.

Definition isWord (c : Z) : bool :=
  ((48 <=? c) && (c <=? 57)) || ((65 <=? c) && (c <=? 90)) || ((97 <=? c) && (c <=? 122)) || (c =? 95).

Fixpoint dropNonWord (s : jstr) : jstr :=
  match s with [] => [] | c :: r => if isWord c then s else dropNonWord r end.

(** [e.replace(/^\W+/, '').replace(/\W+$/, '')] *)
Definition trimmer (s : jstr) : jstr := reverse (dropNonWord (reverse (dropNonWord s))).

Section index.
Context {F : Type} `{Float F}.
Context (toLower : jstr → jstr).

(** [t.tokenizer] on a field: an absent value has no token. *)
Definition tokenizer (e : option jstr) : list jstr :=
  match e with
  | None => []
  | Some s => let t := toLower (trim s) in splitSep (S (length t)) [] t
  end.

(** [pipeline.run] with the functions of a queue; [None] is [undefined]. *)
Fixpoint runQueue (queue : list (jstr → option jstr)) (tok : jstr) : option jstr :=
  match queue with
  | [] => Some tok
  | f :: r => match f tok with Some t => runQueue r t | None => None end
  end.

Definition pipelineRun (queue : list (jstr → option jstr)) (toks : list jstr) : list jstr :=
  omap (runQueue queue) toks.

(** ** The trie *)

Inductive node := Node (docs : list (jstr * F)) (df : Z) (kids : list (jstr * node)).

Definition ndocs (n : node) : list (jstr * F) := let 'Node d _ _ := n in d.
Definition ndf (n : node) : Z := let 'Node _ f _ := n in f.
Definition nkids (n : node) : list (jstr * node) := let 'Node _ _ k := n in k.

Definition emptyNode : node := Node [] 0 [].

Fixpoint addToken (tok : jstr) (ref : jstr) (tf : F) (n : node) : node :=
  match tok with
  | [] =>
    Node (oput ref tf (ndocs n)) (if has ref (ndocs n) then ndf n else ndf n + 1) (nkids n)
  | c :: r =>
    Node (ndocs n) (ndf n) (oput [c] (addToken r ref tf (default emptyNode (oget [c] (nkids n)))) (nkids n))
  end.

(** Walking down from a node. *)
Fixpoint walk (tok : jstr) (n : node) : option node :=
  match tok with
  | [] => Some n
  | c :: r => match oget [c] (nkids n) with Some m => walk r m | None => None end
  end.

Definition getNode (tok : jstr) (root : node) : option node :=
  match tok with [] => None | _ => walk tok root end.

Definition getDocs (tok : jstr) (root : node) : list (jstr * F) :=
  match getNode tok root with Some n => ndocs n | None => [] end.

Definition getTermFrequency (tok ref : jstr) (root : node) : F :=
  match getNode tok root with
  | Some n =>
    match oget ref (ndocs n) with
    | Some tf => tf
    | None => if inherited ref then fnan else fofZ 0
    end
  | None => fofZ 0
  end.

Definition getDocFreq (tok : jstr) (root : node) : Z :=
  match getNode tok root with Some n => ndf n | None => 0 end.

(** [removeToken] on the node the token leads to. *)
Fixpoint removeAt (tok ref : jstr) (n : node) : node :=
  match tok with
  | [] => if has ref (ndocs n) then Node (odel ref (ndocs n)) (ndf n - 1) (nkids n) else n
  | c :: r =>
    match oget [c] (nkids n) with
    | Some m => Node (ndocs n) (ndf n) (oreplace [c] (removeAt r ref m) (nkids n))
    | None => n
    end
  end.

Definition removeToken (tok ref : jstr) (root : node) : node :=
  match tok with [] => root | _ => removeAt tok ref root end.

(** The recursive calls of [expandToken]. *)
Fixpoint expandFrom (e : jstr) (n : node) : list jstr :=
  (if 0 <? ndf n then [e] else []) ++
  (let 'Node _ _ kids := n in
   (fix go (l : list (jstr * node)) : list jstr :=
      match l with
      | [] => []
      | (k, m) :: r => expandFrom (e ++ k) m ++ go r
      end) kids).

Definition expandToken (e : jstr) (root : node) : list jstr :=
  match getNode e root with Some n => expandFrom e n | None => [] end.

(** ** The index *)

(** A document: its fields, as strings. *)
Abbreviation doc := (list (jstr * jstr)).

Record Index := {
  fields : list jstr;
  refField : jstr;
  queue : list (jstr → option jstr);
  docs : list (jstr * doc);                          (** documentStore.docs *)
  docInfo : list (jstr * list (jstr * Z));           (** field lengths *)
  length_ : Z;
  index : list (jstr * node);
}.

Definition hasDoc (ix : Index) (ref : jstr) : bool := has ref (docs ix).

(** [documentStore.addDoc], with the document saved. *)
Definition storeDoc (ix : Index) (ref : jstr) (d : doc) : Index :=
  {| fields := fields ix; refField := refField ix; queue := queue ix; docs := oput ref d (docs ix);
     docInfo := docInfo ix; length_ := (if hasDoc ix ref then length_ ix else length_ ix + 1);
     index := index ix |}.

Definition withInfo (ix : Index) (info : list (jstr * list (jstr * Z))) : Index :=
  {| fields := fields ix; refField := refField ix; queue := queue ix; docs := docs ix; docInfo := info;
     length_ := length_ ix; index := index ix |}.

(** [documentStore.addFieldLength]; [None] is an undefined reference.  The length of a
    document named like an inherited member goes to that member. *)
Definition addFieldLength (ix : Index) (ref : option jstr) (field : jstr) (n : Z) : Index :=
  match ref with
  | None => ix
  | Some ref =>
    if hasDoc ix ref then
      match oget ref (docInfo ix) with
      | None => if inherited ref then ix else withInfo ix (oput ref (oput field n []) (docInfo ix))
      | Some l => withInfo ix (oput ref (oput field n l) (docInfo ix))
      end
    else ix
  end.

Definition setFieldTrie (ix : Index) (field : jstr) (n : node) : Index :=
  {| fields := fields ix; refField := refField ix; queue := queue ix; docs := docs ix;
     docInfo := docInfo ix; length_ := length_ ix; index := oput field n (index ix) |}.

Definition trieOf (ix : Index) (field : jstr) : node := default emptyNode (oget field (index ix)).

(** Token counts; a count that started from an inherited property is no number. *)
Definition bump (r : list (jstr * option Z)) (tok : jstr) : list (jstr * option Z) :=
  match oget tok r with
  | Some (Some n) => oput tok (Some (n + 1)) r
  | Some None => oput tok None r
  | None => if inherited tok then oput tok None r else oput tok (Some 1) r
  end.

Definition countTokens (toks : list jstr) : list (jstr * option Z) := foldl bump [] toks.

Definition termFreq (c : option Z) : F := match c with Some n => fsqrt (fofZ n) | None => fnan end.

Definition fieldTokens (ix : Index) (d : doc) (field : jstr) : list jstr :=
  pipelineRun (queue ix) (tokenizer (oget field d)).

(** The property name a reference becomes. *)
Definition refName (ref : option jstr) : jstr := default (runes "undefined") ref.

(** The body of [addDoc]'s loop over the fields. *)
Definition addField_ (ref : option jstr) (d : doc) (ix : Index) (field : jstr) : Index :=
  let toks := fieldTokens ix d field in
  let ix := addFieldLength ix ref field (Z.of_nat (length toks)) in
  setFieldTrie ix field
    (foldl (λ n '(tok, c), addToken tok (refName ref) (termFreq c) n) (trieOf ix field) (countTokens toks)).

Definition addDoc (ix : Index) (d : doc) : Index :=
  let ref := oget (refField ix) d in
  foldl (addField_ ref d) (storeDoc ix (refName ref) d) (fields ix).

Definition removeField_ (ref : jstr) (d : doc) (ix : Index) (field : jstr) : Index :=
  setFieldTrie ix field
    (foldl (λ n tok, removeToken tok ref n) (trieOf ix field) (fieldTokens ix d field)).

Definition removeDoc (ix : Index) (d : doc) : Index :=
  let ref := refName (oget (refField ix) d) in
  if hasDoc ix ref then
    foldl (removeField_ ref d)
      {| fields := fields ix; refField := refField ix; queue := queue ix; docs := odel ref (docs ix);
         docInfo := odel ref (docInfo ix); length_ := length_ ix - 1; index := index ix |}
      (fields ix)
  else ix.

(** ** Searching *)

Record FieldConfig := { boost : F; boost0 : bool; isAnd : bool; expand : bool }.

Definition idf (ix : Index) (tok field : jstr) : F :=
  fadd (fofZ 1) (flog (fdiv (fofZ (length_ ix)) (fofZ (getDocFreq tok (trieOf ix field) + 1)))).

(** A loop whose body may throw. *)
Fixpoint foldE {A B} (f : A → B → option A) (a : A) (l : list B) : option A :=
  match l with
  | [] => Some a
  | x :: r => b ← f a x; foldE f b r
  end.

(** [documentStore.getFieldLength] of a property name: a stored document without lengths
    throws, as [docInfo[e]] is [undefined]; the members inherited by [docInfo] have no field
    of the index. *)
Definition getFieldLength (ix : Index) (ref field : jstr) : option Z :=
  if hasDoc ix ref then
    match oget ref (docInfo ix) with
    | Some l => Some (default 0 (oget field l))
    | None => if inherited ref then Some 0 else None
    end
  else Some 0.

(** [c in r ? r[c] += v : r[c] = v] *)
Definition accumulate (r : list (jstr * F)) (c : jstr) (v : F) : list (jstr * F) :=
  match oget c r with
  | Some x => oput c (fadd x v) r
  | None => if inherited c then oput c fnan r else oput c v r
  end.

(** The score of a document for one expansion of a query token. *)
Definition scoreOf (ix : Index) (field e n c : jstr) : option F :=
  let d := getTermFrequency n c (trieOf ix field) in
  f ← getFieldLength ix c field;
  let h := if f =? 0 then fofZ 1 else fdiv (fofZ 1) (fsqrt (fofZ f)) in
  let len (s : jstr) := Z.of_nat (length s) in
  let p := if bool_decide (n = e) then fofZ 1
           else fmul f_15 (fsub (fofZ 1) (fdiv (fofZ (len n - len e)) (fofZ (len n)))) in
  Some (fmul (fmul (fmul d (idf ix n field)) h) p).

(** [fieldSearchStats]; an inherited member has no [push]. *)
Definition addStats (u : list (jstr * Z)) (o : list (jstr * F)) : option (list (jstr * Z)) :=
  foldE (λ u '(i, _),
    match oget i u with
    | Some c => Some (oput i (c + 1) u)
    | None => if inherited i then None else Some (oput i 1 u)
    end) u o.

(** [mergeScores]; [None] is [null]. *)
Definition mergeScores (s : option (list (jstr * F))) (r : list (jstr * F)) (isAnd : bool)
    : list (jstr * F) :=
  match s with
  | None => r
  | Some e =>
    if isAnd then
      foldl (λ i '(o, v), if has o e then oput o (fadd (default fnan (oget o e)) v) i else i) [] r
    else foldl (λ e '(o, v), accumulate e o v) e r
  end.

(** One expansion of a query token. *)
Definition searchExpansion (ix : Index) (field e : jstr) (s : option (list (jstr * F))) (and : bool)
    (acc : list (jstr * F) * list (jstr * Z)) (n : jstr) : option (list (jstr * F) * list (jstr * Z)) :=
  let '(r, u) := acc in
  let o := getDocs n (trieOf ix field) in
  let o := match s with
           | Some s' =>
             if and then omap (λ '(c, _), if has c o then Some (c, default fnan (oget c o)) else None) s'
             else o
           | None => o
           end in
  u ← (if bool_decide (n = e) then addStats u o else Some u);
  r ← foldE (λ r '(c, _), v ← scoreOf ix field e n c; Some (accumulate r c v)) r o;
  Some (r, u).

(** One query token. *)
Definition searchToken (ix : Index) (field : jstr) (cfg : FieldConfig)
    (acc : option (list (jstr * F)) * list (jstr * Z)) (e : jstr)
    : option (option (list (jstr * F)) * list (jstr * Z)) :=
  let '(s, u) := acc in
  let ns := if expand cfg then expandToken e (trieOf ix field) else [e] in
  '(r, u) ← foldE (searchExpansion ix field e s (isAnd cfg)) ([], u) ns;
  Some (Some (mergeScores s r (isAnd cfg)), u).

(** [coordNorm] *)
Definition coordNorm (s : list (jstr * F)) (u : list (jstr * Z)) (n : Z) : list (jstr * F) :=
  map (λ '(i, v), match oget i u with
                  | Some o => (i, fdiv (fmul v (fofZ o)) (fofZ n))
                  | None => (i, v)
                  end) s.

(** [fieldSearch]; [undefined] and [null] have no property to iterate. *)
Definition fieldSearch (ix : Index) (toks : list jstr) (field : jstr) (cfg : FieldConfig)
    : option (list (jstr * F)) :=
  if boost0 cfg then Some []
  else
    '(s, u) ← foldE (searchToken ix field cfg) (None, []) toks;
    Some (match s with Some s => coordNorm s u (Z.of_nat (length toks)) | None => [] end).

Record Hit := { ref : jstr; score : F; hitDoc : option doc }.

(** A stable sort by descending score. *)
Fixpoint insertHit (h : Hit) (l : list Hit) : list Hit :=
  match l with
  | [] => [h]
  | x :: r => if fsign (fsub (score h) (score x)) <? 0 then x :: insertHit h r else h :: l
  end.

Definition sortHits (l : list Hit) : list Hit := foldr insertHit [] l.

Definition searchWith (ix : Index) (term : jstr) (config : list (jstr * FieldConfig)) : option (list Hit) :=
  match term with
  | [] => Some []
  | _ =>
    let toks := pipelineRun (queue ix) (tokenizer (Some term)) in
    l ← foldE (λ l '(c, cfg),
          f ← fieldSearch ix toks c cfg;
          Some (foldl (λ l '(p, v), accumulate l p (fmul v (boost cfg))) l f))
          [] config;
    Some (sortHits (map (λ '(p, v), {| ref := p; score := v;
                                       hitDoc := if hasDoc ix p then oget p (docs ix) else None |}) l))
  end.

(** ** The pdoc driver *)

Definition docFields : list jstr :=
  map runes ["qualname"; "fullname"; "annotation"; "default_value"; "signature"; "bases"; "doc"].

(** The empty index the constructor function configures: of the default pipeline
    only the trimmer is left. *)
Definition pdocEmpty : Index := {|
  fields := docFields; refField := runes "fullname"; queue := [λ t, Some (trimmer t)];
  docs := []; docInfo := []; length_ := 0; index := map (λ f, (f, emptyNode)) docFields;
|}.

(** [searchIndex] when the documentation comes as a list of documents. *)
Definition pdocBuild (ds : list doc) : Index := foldl addDoc pdocEmpty ds.

Definition pdocBoost (f : jstr) : Z :=
  if bool_decide (f = runes "qualname") then 4 else if bool_decide (f = runes "doc") then 1 else 2.

(** The user configuration, restricted to the fields of the index. *)
Definition pdocConfig (ix : Index) : list (jstr * FieldConfig) :=
  map (λ f, (f, {| boost := fofZ (pdocBoost f); boost0 := pdocBoost f =? 0; isAnd := false; expand := true |}))
    (filter (λ f, f ∈ fields ix) docFields).

(** [window.pdocSearch] *)
Definition pdocSearch (ix : Index) (term : jstr) : option (list Hit) := searchWith ix term (pdocConfig ix).

End index.
End Search.
