(* ===== verification/SearchProps.v ===== *)
(** * What the documentation search finds

    The trie as a finite map from tokens to documents, the expansion of a query
    token, and the set of documents a search returns. *)

From Stdlib Require Import ZArith Lia.
From stdpp Require Import base numbers strings gmap option list.
From S2P Require Import Prelude Js Search.

Open Scope Z_scope.
Import Search.

(** ** Objects *)

Section object_facts.
Context {V : Type}.
Implicit Types (l : list (jstr * V)).

Lemma oget_insertIndex i k v l k' : oget k l = None →
  oget k' (oinsertIndex i k v l) = if bool_decide (k = k') then Some v else oget k' l.
Proof.
  induction l as [|[a x] l IH]; simpl; [done|].
  destruct (bool_decide (a = k)) eqn:Ha; [done|]. apply bool_decide_eq_false in Ha. intros Hk.
  assert (Hc : oget k' ((k, v) :: (a, x) :: l) = if bool_decide (k = k') then Some v else oget k' ((a, x) :: l))
    by done.
  destruct (arrayIndex a) as [j|]; [|exact Hc]. destruct (j <? i); [|exact Hc].
  simpl. rewrite IH by done. destruct (bool_decide (a = k')) eqn:H1; [|done].
  apply bool_decide_eq_true in H1. rewrite bool_decide_false by congruence. done.
Qed.

Lemma oget_app l k v k' : oget k l = None →
  oget k' (l ++ [(k, v)]) = if bool_decide (k = k') then Some v else oget k' l.
Proof.
  induction l as [|[a x] l IH]; simpl; [done|].
  destruct (bool_decide (a = k)) eqn:Ha; [done|]. apply bool_decide_eq_false in Ha. intros Hk.
  rewrite IH by done. destruct (bool_decide (a = k')) eqn:H1; [|done].
  apply bool_decide_eq_true in H1. rewrite bool_decide_false by congruence. done.
Qed.

Lemma oget_replace k v l k' :
  oget k' (oreplace k v l) = if bool_decide (k = k') then (λ _, v) <$> oget k l else oget k' l.
Proof.
  induction l as [|[a x] l IH]; simpl; [by case_bool_decide|].
  destruct (bool_decide (a = k)) eqn:Ea; simpl.
  - apply bool_decide_eq_true in Ea as ->. by case_bool_decide.
  - rewrite IH. apply bool_decide_eq_false in Ea.
    case_bool_decide as H1; [|done]. subst. by rewrite bool_decide_false by done.
Qed.

Lemma oget_put k v l k' : oget k' (oput k v l) = if bool_decide (k = k') then Some v else oget k' l.
Proof.
  unfold oput. destruct (oget k l) as [x|] eqn:E.
  - rewrite oget_replace, E. done.
  - destruct (arrayIndex k); [by apply oget_insertIndex|by apply oget_app].
Qed.

Lemma oget_put_eq k v l : oget k (oput k v l) = Some v.
Proof. by rewrite oget_put, bool_decide_true. Qed.

Lemma oget_put_ne k v l k' : k ≠ k' → oget k' (oput k v l) = oget k' l.
Proof. intros. by rewrite oget_put, bool_decide_false. Qed.

Lemma oget_del k l k' : oget k' (odel k l) = if bool_decide (k = k') then None else oget k' l.
Proof.
  induction l as [|[a x] l IH]; simpl; [by case_bool_decide|].
  destruct (bool_decide (a = k)) eqn:Ea; simpl; rewrite IH.
  - apply bool_decide_eq_true in Ea as ->. by case_bool_decide.
  - apply bool_decide_eq_false in Ea. case_bool_decide as H1; [|done].
    subst. by rewrite bool_decide_false by done.
Qed.

Lemma oget_keys k l : is_Some (oget k l) ↔ k ∈ map fst l.
Proof.
  induction l as [|[a x] l IH]; simpl.
  - split; [by intros []|]. intros Hk. by apply not_elem_of_nil in Hk.
  - rewrite elem_of_cons. case_bool_decide as Ha; [subst; naive_solver|].
    rewrite IH. naive_solver.
Qed.

Lemma oput_keys k v l k' : k' ∈ map fst (oput k v l) ↔ k' = k ∨ k' ∈ map fst l.
Proof.
  rewrite <- !oget_keys, oget_put. case_bool_decide as E; [subst|]; naive_solver.
Qed.

(** The properties of an updated object are the new one and old ones. *)
Lemma oput_elem k v l p : p ∈ oput k v l → p = (k, v) ∨ p ∈ l.
Proof.
  unfold oput. destruct (oget k l) as [x|].
  - induction l as [|[a y] l IH]; simpl; [set_solver|].
    case_bool_decide; rewrite !elem_of_cons; naive_solver.
  - destruct (arrayIndex k) as [i|]; [|set_solver].
    induction l as [|[a y] l IH]; simpl; [set_solver|].
    destruct (arrayIndex a) as [j|]; [destruct (j <? i)|]; rewrite !elem_of_cons in *; naive_solver.
Qed.

Lemma oput_nodup k v l : NoDup (map fst l) → NoDup (map fst (oput k v l)).
Proof.
  intros Hn. unfold oput. destruct (oget k l) as [x|] eqn:E.
  - assert (Hk : map fst (oreplace k v l) = map fst l); [|by rewrite Hk]. clear E Hn.
    induction l as [|[a y] l IH]; simpl; [done|]. case_bool_decide; simpl; congruence.
  - assert (Hni : k ∉ map fst l) by (rewrite <- oget_keys, E; by intros []).
    destruct (arrayIndex k) as [i|].
    + clear E. induction l as [|[a y] l IH]; simpl; [by apply NoDup_singleton|].
      simpl in Hn, Hni. apply NoDup_cons in Hn as [Ha Hn]. apply not_elem_of_cons in Hni as [Hka Hni].
      assert (Hc : NoDup (map fst ((k, v) :: (a, y) :: l))).
      { simpl. rewrite !NoDup_cons, elem_of_cons. naive_solver. }
      destruct (arrayIndex a) as [j|]; [|done]. destruct (j <? i); [|done]. simpl.
      apply NoDup_cons. split; [|by apply IH]. rewrite <- oget_keys.
      rewrite oget_insertIndex by (destruct (oget k l) eqn:Eo; [|done];
        exfalso; apply Hni, oget_keys; by rewrite Eo).
      rewrite bool_decide_false by done. by rewrite oget_keys.
    + rewrite map_app. apply NoDup_app. split_and!; [done| |apply NoDup_singleton].
      intros y Hy ->%list_elem_of_singleton. done.
Qed.

Lemma oget_elem k v l : NoDup (map fst l) → (k, v) ∈ l → oget k l = Some v.
Proof.
  induction l as [|[a x] l IH]; simpl; [intros _ Hn; by apply not_elem_of_nil in Hn|].
  intros [Ha Hn]%NoDup_cons [[= -> ->]|Hin]%elem_of_cons; [by rewrite bool_decide_true|].
  rewrite bool_decide_false; [by apply IH|]. intros ->. apply Ha.
  by apply (list_elem_of_fmap_2 fst) in Hin.
Qed.

Lemma oget_some_elem k v l : oget k l = Some v → (k, v) ∈ l.
Proof.
  induction l as [|[a x] l IH]; simpl; [done|]. case_bool_decide as Ha.
  - intros [= ->]. subst. left.
  - intros. right. auto.
Qed.

Lemma has_own k l : inherited k = false → has k l = true ↔ is_Some (oget k l).
Proof. intros Hi. unfold has. rewrite Hi. simpl. apply bool_decide_eq_true. Qed.

Lemma oput_not_nil k v l : oput k v l ≠ [].
Proof. intros E. pose proof (oget_put_eq k v l) as H. by rewrite E in H. Qed.

End object_facts.

Section trie.
Context {F : Type} `{Float F}.
Implicit Types (n m : node (F:=F)).

(** ** The trie as a map *)

Definition docsAt (t : jstr) n : list (jstr * F) :=
  match walk t n with Some m => ndocs m | None => [] end.

Lemma docsAt_add t ref tf n t' :
  docsAt t' (addToken t ref tf n) = if bool_decide (t = t') then oput ref tf (docsAt t n) else docsAt t' n.
Proof.
  unfold docsAt. revert n t'. induction t as [|c t IH]; intros n t'; cbn [addToken].
  - destruct t' as [|c' t']; [done|]. rewrite (bool_decide_false ([] = c' :: t')) by done. done.
  - destruct t' as [|c' t']; [done|]. cbn [walk nkids]. rewrite oget_put.
    case_bool_decide as Hc.
    + injection Hc as <-. rewrite IH. case_bool_decide as Ht.
      * subst. rewrite bool_decide_true by done. destruct (oget [c] (nkids n)); [done|].
        by destruct t'.
      * rewrite bool_decide_false by congruence. destruct (oget [c] (nkids n)); simpl; [done|].
        by destruct t'.
    + rewrite bool_decide_false by congruence. done.
Qed.

(** A trie as the operations keep it: one-unit keys, none twice, and a positive
    document frequency exactly where a document is. *)
Inductive trie_ok : node (F:=F) → Prop :=
  | trie_ok_intro docs df kids :
      NoDup (map fst kids) → 0 <= df → (0 < df ↔ docs ≠ []) →
      (∀ k m, (k, m) ∈ kids → ∃ c, k = [c]) → (∀ k m, (k, m) ∈ kids → trie_ok m) →
      trie_ok (Node docs df kids).

Lemma trie_ok_empty : trie_ok emptyNode.
Proof.
  constructor; [constructor|lia|split; [lia|done]|..]; intros k m Hk; by apply not_elem_of_nil in Hk.
Qed.

Lemma trie_ok_kid n k m : trie_ok n → oget k (nkids n) = Some m → trie_ok m.
Proof. intros [docs df kids Hn Hp Hd Hs Hk] Hg. by apply (Hk k), oget_some_elem. Qed.

Lemma trie_ok_add t ref tf n : inherited ref = false → trie_ok n → trie_ok (addToken t ref tf n).
Proof.
  intros Hi. revert n. induction t as [|c t IH]; intros n Hok; pose proof Hok as Hok'; destruct Hok' as [docs df kids Hn Hp Hd Hs Hk]; simpl.
  - pose proof (oput_not_nil ref tf docs) as Hne. constructor; try done.
    + destruct (has ref docs); lia.
    + destruct (has ref docs) eqn:Eh; [|split; [done|lia]]. split; [done|]. intros _. apply Hd.
      apply has_own in Eh as [x Hx]; [|done]. by intros ->.
  - constructor; try done; [by apply oput_nodup|..];
      intros k m [[= -> ->]|Hin]%oput_elem; [by exists c|by apply (Hs _ m)| |by apply (Hk k)]. apply IH.
    destruct (oget [c] kids) as [m'|] eqn:Eg; simpl; [|apply trie_ok_empty].
    by apply (Hk [c]), oget_some_elem.
Qed.

(** [expandFrom] lists the tokens below a node that carry a document. *)
Lemma expandFrom_spec n : trie_ok n → ∀ e t,
  t ∈ expandFrom e n ↔ ∃ s, t = e ++ s ∧ docsAt s n ≠ [].
Proof.
  unfold docsAt. induction 1 as [docs df kids Hn Hp Hd Hk Hok IH]. intros e t. simpl.
  rewrite elem_of_app.
  assert (Hgo : ∀ l, t ∈ (fix go (l : list (jstr * node)) : list jstr :=
      match l with [] => [] | (k, m) :: r => expandFrom (e ++ k) m ++ go r end) l ↔
    ∃ k m, (k, m) ∈ l ∧ t ∈ expandFrom (e ++ k) m).
  { induction l as [|[k m] l IHl]; [set_solver|]. rewrite elem_of_app, IHl. set_solver. }
  rewrite Hgo. split.
  - intros [Hin|(k & m & Hin & Ht)].
    + destruct (0 <? df) eqn:E; [|by apply not_elem_of_nil in Hin].
      apply list_elem_of_singleton in Hin as ->. exists []. rewrite app_nil_r. split; [done|].
      simpl. apply Hd. lia.
    + destruct (Hk _ _ Hin) as [c ->]. apply (IH _ _ Hin) in Ht as (s & -> & Hs).
      exists (c :: s). rewrite <- app_assoc. split; [done|]. simpl.
      by rewrite (oget_elem [c] m kids Hn Hin).
  - intros (s & -> & Hs). destruct s as [|c s]; simpl in Hs.
    + left. rewrite app_nil_r. apply Hd in Hs. replace (0 <? df) with true by lia. left.
    + destruct (oget [c] kids) as [m|] eqn:Eg; [|done]. apply oget_some_elem in Eg.
      right. exists [c], m. split; [done|]. apply (IH _ _ Eg). exists s. by rewrite <- app_assoc.
Qed.

Lemma docsAt_app t s n : docsAt (t ++ s) n = match walk t n with Some m => docsAt s m | None => [] end.
Proof.
  unfold docsAt. revert n. induction t as [|c t IH]; intros n; simpl; [done|].
  destruct (oget [c] (nkids n)); [apply IH|done].
Qed.

Lemma trie_ok_walk t n m : trie_ok n → walk t n = Some m → trie_ok m.
Proof.
  revert n. induction t as [|c t IH]; intros n Hok; simpl; [by intros [= <-]|].
  destruct (oget [c] (nkids n)) as [m'|] eqn:E; [|done]. apply IH. by eapply trie_ok_kid.
Qed.

(** A query token expands to the indexed tokens that start with it. *)
Lemma expandToken_spec root q t :
  trie_ok root →
  t ∈ expandToken q root ↔ q ≠ [] ∧ (∃ s, t = q ++ s) ∧ docsAt t root ≠ [].
Proof.
  intros Hok. unfold expandToken, getNode. destruct q as [|c q].
  { split; [intros Hn; by apply not_elem_of_nil in Hn|]. by intros [? _]. }
  destruct (walk (c :: q) root) as [m|] eqn:Ew.
  - rewrite (expandFrom_spec m) by (by eapply trie_ok_walk). split.
    + intros (s & -> & Hs). split_and!; [done|by exists s|]. by rewrite docsAt_app, Ew.
    + intros (_ & (s & ->) & Hd). exists s. rewrite docsAt_app, Ew in Hd. done.
  - split; [intros Hn; by apply not_elem_of_nil in Hn|].
    intros (_ & (s & ->) & Hd). by rewrite docsAt_app, Ew in Hd.
Qed.

End trie.

(** ** What an index holds *)

Section index_facts.
Context {F : Type} `{Float F} (toLower : jstr → jstr).
Implicit Types (ix : Index (F:=F)) (d : list (jstr * jstr)).

(** Document [p] is listed under token [t] of field [f]. *)
Definition found ix (f t p : jstr) : Prop := is_Some (oget p (docsAt t (trieOf ix f))).

Definition refOf ix d : jstr := refName (oget (refField ix) d).

Lemma countTokens_keys toks t : t ∈ map fst (countTokens toks) ↔ t ∈ toks.
Proof.
  unfold countTokens.
  assert (Hb : ∀ r tok, t ∈ map fst (bump r tok) ↔ t = tok ∨ t ∈ map fst r).
  { intros r tok. unfold bump. destruct (oget tok r) as [[n|]|]; [|  |destruct (inherited tok)];
      by rewrite oput_keys. }
  assert (Hg : ∀ r, t ∈ map fst (foldl bump r toks) ↔ t ∈ toks ∨ t ∈ map fst r).
  { induction toks as [|tok toks IH]; intros r; simpl.
    - split; [auto|]. intros [Hn|?]; [by apply not_elem_of_nil in Hn|done].
    - rewrite IH, Hb, elem_of_cons. tauto. }
  rewrite Hg. simpl. split; [|auto]. intros [?|Hn]; [done|by apply not_elem_of_nil in Hn].
Qed.

(** Adding a document's tokens to a trie. *)
Lemma fold_addToken ref (cs : list (jstr * option Z)) n t p :
  is_Some (oget p (docsAt t (foldl (λ n '(tok, c), addToken tok ref (termFreq c) n) n cs))) ↔
  is_Some (oget p (docsAt t n)) ∨ (p = ref ∧ t ∈ map fst cs).
Proof.
  revert n. induction cs as [|[tok c] cs IH]; intros n; simpl.
  - split; [auto|]. intros [?|[_ Hn]]; [done|by apply not_elem_of_nil in Hn].
  - rewrite IH, docsAt_add, elem_of_cons. case_bool_decide as Ht; [|naive_solver].
    subst tok. rewrite oget_put. case_bool_decide; naive_solver.
Qed.

Lemma fold_addToken_ok ref (cs : list (jstr * option Z)) n : inherited ref = false → trie_ok n →
  trie_ok (foldl (λ n '(tok, c), addToken tok ref (termFreq c) n) n cs).
Proof.
  intros Hi. revert n. induction cs as [|[tok c] cs IH]; intros n Hok; simpl; [done|].
  by apply IH, trie_ok_add.
Qed.

(** Operations on one field leave the rest of the index alone. *)
Definition same_shape ix ix' : Prop :=
  fields ix' = fields ix ∧ refField ix' = refField ix ∧ queue ix' = queue ix.

Lemma fieldTokens_shape ix ix' d f : same_shape ix ix' →
  fieldTokens toLower ix' d f = fieldTokens toLower ix d f.
Proof. intros (_ & _ & Hq). unfold fieldTokens. by rewrite Hq. Qed.

(** Noting a length changes the lengths only. *)
Lemma lengths_same ix ref f n : let ix' := addFieldLength ix ref f n in
  same_shape ix ix' ∧ docs ix' = docs ix ∧ index ix' = index ix.
Proof.
  unfold addFieldLength. destruct ref as [ref|]; [|done]. destruct (hasDoc ix ref); [|done].
  destruct (oget ref (docInfo ix)); [done|]. by destruct (inherited ref).
Qed.

Lemma addField_shape ref d ix f : same_shape ix (addField_ toLower ref d ix f).
Proof. apply (lengths_same ix ref f). Qed.

Lemma trieOf_lengths ix ref f n g : trieOf (addFieldLength ix ref f n) g = trieOf ix g.
Proof. unfold trieOf. by destruct (lengths_same ix ref f n) as (_ & _ & ->). Qed.

Lemma trieOf_set ix f n g : trieOf (setFieldTrie ix f n) g = if bool_decide (f = g) then n else trieOf ix g.
Proof. unfold trieOf. simpl. rewrite oget_put. by case_bool_decide. Qed.

Lemma fieldTokens_lengths ix ref f n d g :
  fieldTokens toLower (addFieldLength ix ref f n) d g = fieldTokens toLower ix d g.
Proof. apply fieldTokens_shape, lengths_same. Qed.

Lemma found_addField ref d ix f g t p :
  found (addField_ toLower ref d ix f) g t p ↔
  found ix g t p ∨ (f = g ∧ p = refName ref ∧ t ∈ fieldTokens toLower ix d f).
Proof.
  unfold found, addField_. cbn zeta. rewrite trieOf_set, trieOf_lengths.
  case_bool_decide as Hf.
  - rewrite fold_addToken, countTokens_keys, Hf. tauto.
  - rewrite trieOf_lengths. naive_solver.
Qed.

Definition tries_ok ix : Prop := ∀ f, trie_ok (trieOf ix f).

Lemma addField_ok ref d ix f : inherited (refName ref) = false → tries_ok ix →
  tries_ok (addField_ toLower ref d ix f).
Proof.
  intros Hi Hok g. unfold addField_. cbn zeta. rewrite trieOf_set, !trieOf_lengths.
  case_bool_decide; [|done]. by apply fold_addToken_ok.
Qed.

Lemma fold_addFields ref d fs ix g t p :
  (found (foldl (addField_ toLower ref d) ix fs) g t p ↔
     found ix g t p ∨ (g ∈ fs ∧ p = refName ref ∧ t ∈ fieldTokens toLower ix d g)) ∧
  same_shape ix (foldl (addField_ toLower ref d) ix fs).
Proof.
  revert ix. induction fs as [|f fs IH]; intros ix; simpl.
  - split; [|done]. split; [auto|]. intros [?|[Hn _]]; [done|by apply not_elem_of_nil in Hn].
  - pose proof (addField_shape ref d ix f) as Hs.
    destruct (IH (addField_ toLower ref d ix f)) as [H1 H2]. split.
    + rewrite H1, found_addField, (fieldTokens_shape ix (addField_ toLower ref d ix f)) by done. rewrite elem_of_cons. naive_solver.
    + destruct Hs as (? & ? & ?), H2 as (? & ? & ?). split_and!; congruence.
Qed.

Lemma fold_addFields_ok ref d fs ix : inherited (refName ref) = false → tries_ok ix →
  tries_ok (foldl (addField_ toLower ref d) ix fs).
Proof.
  intros Hi. revert ix. induction fs as [|f fs IH]; intros ix Hok; simpl; [done|].
  by apply IH, addField_ok.
Qed.

(** Adding a document lists it under its tokens, field by field, and changes
    nothing else. *)
Lemma found_addDoc ix d g t p :
  (found (addDoc toLower ix d) g t p ↔
     found ix g t p ∨ (g ∈ fields ix ∧ p = refOf ix d ∧ t ∈ fieldTokens toLower ix d g)) ∧
  same_shape ix (addDoc toLower ix d).
Proof.
  unfold addDoc. set (ref := oget (refField ix) d).
  destruct (fold_addFields ref d (fields ix) (storeDoc ix (refName ref) d) g t p) as [H1 H2].
  split; [|done]. by rewrite H1.
Qed.

Lemma addDoc_ok ix d : inherited (refOf ix d) = false → tries_ok ix → tries_ok (addDoc toLower ix d).
Proof. intros Hi Hok. unfold addDoc. by apply fold_addFields_ok. Qed.

Lemma fold_addDocs (ds : list (list (jstr * jstr))) ix g t p :
  (found (foldl (addDoc toLower) ix ds) g t p ↔
     found ix g t p ∨
     ∃ d, d ∈ ds ∧ g ∈ fields ix ∧ p = refOf ix d ∧ t ∈ fieldTokens toLower ix d g) ∧
  same_shape ix (foldl (addDoc toLower) ix ds).
Proof.
  revert ix. induction ds as [|d ds IH]; intros ix; simpl.
  - split; [|done]. split; [auto|]. intros [?|(d & Hn & _)]; [done|by apply not_elem_of_nil in Hn].
  - destruct (found_addDoc ix d g t p) as [H1 Hs]. destruct (IH (addDoc toLower ix d)) as [H2 Hs2].
    split; [|destruct Hs as (? & ? & ?), Hs2 as (? & ? & ?); split_and!; congruence].
    rewrite H2, H1. pose proof Hs as (Hf & Hr & Hq). unfold refOf. rewrite Hf, Hr.
    setoid_rewrite (fieldTokens_shape ix (addDoc toLower ix d)); [|done].
    setoid_rewrite elem_of_cons. naive_solver.
Qed.

Lemma fold_addDocs_ok (ds : list (list (jstr * jstr))) ix :
  (∀ d, d ∈ ds → inherited (refOf ix d) = false) → tries_ok ix →
  tries_ok (foldl (addDoc toLower) ix ds).
Proof.
  revert ix. induction ds as [|d ds IH]; intros ix Hi Hok; simpl; [done|]. apply IH.
  - intros d' Hd'. destruct (found_addDoc ix d [] [] []) as [_ (_ & Hr & _)].
    unfold refOf. rewrite Hr. apply Hi. by right.
  - apply addDoc_ok; [|done]. apply Hi. left.
Qed.

(** ** Field lengths *)

(** Every stored document has its lengths. *)
Definition lengths_ok ix : Prop :=
  ∀ p, is_Some (oget p (docs ix)) → inherited p = false → is_Some (oget p (docInfo ix)).

(** No document is listed under the name of an inherited member. *)
Definition refs_ok ix : Prop := ∀ f t p, found ix f t p → inherited p = false.

Lemma addFieldLength_info ix ref f n p :
  is_Some (oget p (docInfo ix)) ∨ (ref = Some p ∧ inherited p = false ∧ is_Some (oget p (docs ix))) →
  is_Some (oget p (docInfo (addFieldLength ix ref f n))).
Proof.
  unfold addFieldLength. intros Hp. destruct ref as [r|]; [|naive_solver].
  destruct (hasDoc ix r) eqn:Eh.
  - assert (∀ l, is_Some (oget p (oput r l (docInfo ix)))) as Hput.
    { intros l. rewrite oget_put. case_bool_decide; [by eexists|]. destruct Hp as [?|(Hr & _)]; [done|congruence]. }
    destruct (oget r (docInfo ix)); [apply Hput|]. destruct (inherited r) eqn:Ei; [|apply Hput].
    destruct Hp as [?|(Hr & Hi & _)]; [done|congruence].
  - destruct Hp as [Hp|(Hr & Hi & Hd)]; [done|]. injection Hr as ->. apply (has_own p) in Hd; [|done].
    unfold hasDoc in Eh. congruence.
Qed.

Lemma fold_addFields_info ref d fs ix p :
  is_Some (oget p (docInfo ix)) ∨ (ref = Some p ∧ inherited p = false ∧ is_Some (oget p (docs ix)) ∧ fs ≠ []) →
  is_Some (oget p (docInfo (foldl (addField_ toLower ref d) ix fs))).
Proof.
  revert ix. induction fs as [|f fs IH]; intros ix Hp; cbn [foldl]; [naive_solver|]. apply IH. left.
  apply addFieldLength_info. naive_solver.
Qed.

Lemma fold_addFields_docs ref d fs ix : docs (foldl (addField_ toLower ref d) ix fs) = docs ix.
Proof.
  revert ix. induction fs as [|f fs IH]; intros ix; cbn [foldl]; [done|]. rewrite IH. apply lengths_same.
Qed.

Lemma addDoc_lengths ix d : is_Some (oget (refField ix) d) → fields ix ≠ [] →
  lengths_ok ix → lengths_ok (addDoc toLower ix d).
Proof.
  intros [r Hr] Hf Hok p. unfold addDoc. rewrite Hr, fold_addFields_docs. cbn [refName default docs storeDoc].
  intros Hd Hi. apply fold_addFields_info. cbn [docInfo docs storeDoc]. rewrite oget_put in Hd |- *. cbn [id] in *.
  destruct (bool_decide_reflect (r = p)) as [->|Hne]; [right; split_and!; [done..|by eexists|done]|].
  left. by apply Hok.
Qed.

Lemma fold_addDocs_lengths (ds : list (list (jstr * jstr))) ix :
  (∀ d, d ∈ ds → is_Some (oget (refField ix) d)) → fields ix ≠ [] → lengths_ok ix →
  lengths_ok (foldl (addDoc toLower) ix ds).
Proof.
  revert ix. induction ds as [|d ds IH]; intros ix Hi Hf Hok; cbn [foldl]; [done|].
  destruct (found_addDoc ix d [] [] []) as [_ (Hfs & Hr & _)]. apply IH.
  - intros d' Hd'. rewrite Hr. apply Hi. by right.
  - by rewrite Hfs.
  - apply addDoc_lengths; [apply Hi; left|done|done].
Qed.

Lemma fold_addDocs_refs (ds : list (list (jstr * jstr))) ix :
  (∀ d, d ∈ ds → inherited (refOf ix d) = false) → refs_ok ix → refs_ok (foldl (addDoc toLower) ix ds).
Proof.
  intros Hi Hok f t p Hf. destruct (fold_addDocs ds ix f t p) as [Hfound _].
  apply Hfound in Hf as [Hf|(d & Hd & _ & -> & _)]; [by eapply Hok|by apply Hi].
Qed.

Lemma getFieldLength_ok ix p f : lengths_ok ix → is_Some (getFieldLength ix p f).
Proof.
  intros Hok. unfold getFieldLength. destruct (hasDoc ix p) eqn:Eh; [|by eexists].
  destruct (oget p (docInfo ix)) as [l|] eqn:El; [by eexists|]. destruct (inherited p) eqn:Ei; [by eexists|].
  destruct (Hok p) as [x Hx]; [by apply has_own in Eh|done|]. congruence.
Qed.

End index_facts.

(** ** Which documents a search returns *)

Section search_keys.
Context {F : Type} `{Float F}.
Implicit Types (ix : Index (F:=F)).

Definition keys {V} (l : list (jstr * V)) : list jstr := map fst l.

Lemma accumulate_keys (r : list (jstr * F)) c v k : k ∈ keys (accumulate r c v) ↔ k = c ∨ k ∈ keys r.
Proof.
  unfold accumulate, keys. destruct (oget c r); [by rewrite oput_keys|].
  destruct (inherited c); by rewrite oput_keys.
Qed.

Lemma fold_accumulate {V} (g : jstr → V → F) (o : list (jstr * V)) r k :
  k ∈ keys (foldl (λ r '(c, v), accumulate r c (g c v)) r o) ↔ k ∈ keys o ∨ k ∈ keys r.
Proof.
  revert r. induction o as [|[c v] o IH]; intros r; simpl.
  - split; [auto|]. intros [Hn|?]; [by apply not_elem_of_nil in Hn|done].
  - rewrite IH, accumulate_keys, elem_of_cons. tauto.
Qed.

(** A loop that keeps a property of what it went through does not throw. *)
Lemma foldE_ind {A B} (f : A → B → option A) (P : list B → A → Prop) a l :
  P [] a → (∀ pre x b, x ∈ l → P pre b → ∃ c, f b x = Some c ∧ P (pre ++ [x]) c) →
  ∃ b, foldE f a l = Some b ∧ P l b.
Proof.
  intros Ha Hs. enough (∀ l2 l1 b, (∀ x, x ∈ l2 → x ∈ l) → P l1 b → ∃ c, foldE f b l2 = Some c ∧ P (l1 ++ l2) c) as Hg
    by (by apply (Hg l [] a)).
  induction l2 as [|x l2 IH]; intros l1 b Hin Hb; cbn [foldE]; [exists b; by rewrite app_nil_r|].
  destruct (Hs l1 x b) as (c & -> & Hc); [apply Hin; left|done|]. cbn [mbind option_bind].
  destruct (IH (l1 ++ [x]) c) as (c' & -> & Hc'); [intros y Hy; apply Hin; by right|done|].
  exists c'. by rewrite <- app_assoc in Hc'.
Qed.

Lemma addStats_ok u (o : list (jstr * F)) : (∀ k, k ∈ keys o → inherited k = false) → is_Some (addStats u o).
Proof.
  intros Ho. destruct (foldE_ind (λ u '(i, _),
    match oget i u with Some c => Some (oput i (c + 1) u) | None => if inherited i then None else Some (oput i 1 u) end)
    (λ _ _, True) u o I) as (b & Hb & _); [|by exists b]. intros pre [i v] b Hi _. destruct (oget i b); [by eexists|].
  rewrite Ho; [by eexists|]. by apply (list_elem_of_fmap_2 fst) in Hi.
Qed.

(** Reading the lengths cannot throw, and no reference is an inherited member. *)
Definition safe ix : Prop := lengths_ok ix ∧ refs_ok ix.

Lemma scores_ok ix f e n r (o : list (jstr * F)) : lengths_ok ix →
  ∃ r', foldE (λ r '(c, _), v ← scoreOf ix f e n c; Some (accumulate r c v)) r o = Some r' ∧
    ∀ k, k ∈ keys r' ↔ k ∈ keys r ∨ k ∈ keys o.
Proof.
  intros Hl. apply (foldE_ind _ (λ pre r', ∀ k, k ∈ keys r' ↔ k ∈ keys r ∨ k ∈ keys pre)).
  - intros k. split; [auto|]. intros [?|Hn]; [done|by apply not_elem_of_nil in Hn].
  - intros pre [c v] b _ Hb. destruct (getFieldLength_ok ix c f Hl) as [z Hz]. unfold scoreOf. rewrite Hz.
    eexists. split; [done|]. intros k. rewrite accumulate_keys, Hb. unfold keys. rewrite map_app, elem_of_app. simpl.
    rewrite list_elem_of_singleton. tauto.
Qed.

Lemma getDocs_refs ix f n k : safe ix → k ∈ keys (getDocs n (trieOf ix f)) → inherited k = false.
Proof.
  intros [_ Hr] Hk. apply (Hr f n). apply oget_keys. unfold getDocs, getNode in Hk. unfold docsAt.
  destruct n; [by apply not_elem_of_nil in Hk|exact Hk].
Qed.

Lemma fold_expansions ix f e s ns r u : safe ix →
  ∃ r' u', foldE (searchExpansion ix f e s false) (r, u) ns = Some (r', u') ∧
    ∀ k, k ∈ keys r' ↔ k ∈ keys r ∨ ∃ n, n ∈ ns ∧ k ∈ keys (getDocs n (trieOf ix f)).
Proof.
  intros Hs. destruct (foldE_ind (searchExpansion ix f e s false)
    (λ pre x, ∀ k, k ∈ keys x.1 ↔ k ∈ keys r ∨ ∃ n, n ∈ pre ∧ k ∈ keys (getDocs n (trieOf ix f))) (r, u) ns) as ([r' u'] & E & Hk).
  - intros k. split; [auto|]. intros [?|(n & Hn & _)]; [done|by apply not_elem_of_nil in Hn].
  - intros pre n [r1 u1] _ Hb. unfold searchExpansion.
    replace (match s with Some _ => _ | None => _ end) with (getDocs n (trieOf ix f)) by (by destruct s).
    assert (∃ u2, (if bool_decide (n = e) then addStats u1 (getDocs n (trieOf ix f)) else Some u1) = Some u2) as [u2 ->].
    { destruct (bool_decide _); [|by eexists]. apply addStats_ok. intros k. by apply getDocs_refs. }
    cbn [mbind option_bind]. destruct (scores_ok ix f e n r1 (getDocs n (trieOf ix f)) (proj1 Hs)) as (r2 & -> & Hr2).
    eexists. split; [done|]. intros k. cbn [fst]. rewrite Hr2, Hb. setoid_rewrite elem_of_app. setoid_rewrite list_elem_of_singleton. naive_solver.
  - by exists r', u'.
Qed.

Lemma fold_tokens ix f cfg toks : safe ix → isAnd cfg = false → expand cfg = true →
  ∃ s' u', foldE (searchToken ix f cfg) (None, []) toks = Some (s', u') ∧
    ∀ k, match s' with Some l => k ∈ keys l | None => False end ↔
      ∃ q n, q ∈ toks ∧ n ∈ expandToken q (trieOf ix f) ∧ k ∈ keys (getDocs n (trieOf ix f)).
Proof.
  intros Hs Ha He. destruct (foldE_ind (searchToken ix f cfg)
    (λ pre x, ∀ k, match x.1 with Some l => k ∈ keys l | None => False end ↔
      ∃ q n, q ∈ pre ∧ n ∈ expandToken q (trieOf ix f) ∧ k ∈ keys (getDocs n (trieOf ix f))) (None, []) toks) as ([s' u'] & E & Hk).
  - intros k. split; [done|]. intros (q & n & Hn & _). by apply not_elem_of_nil in Hn.
  - intros pre q [s u] _ Hb. unfold searchToken. rewrite Ha, He.
    destruct (fold_expansions ix f q s (expandToken q (trieOf ix f)) [] u Hs) as (r & u' & -> & Hr).
    cbn [mbind option_bind]. eexists. split; [done|]. intros k. specialize (Hb k). specialize (Hr k).
    assert (k ∈ keys (mergeScores s r false) ↔ match s with Some l => k ∈ keys l | None => False end ∨ k ∈ keys r) as Hm.
    { destruct s as [l|]; cbn [mergeScores]; [rewrite (fold_accumulate (λ _ v, v) r)|]; tauto. }
    cbn [fst] in *. rewrite Hm, Hb, Hr. setoid_rewrite elem_of_app. setoid_rewrite list_elem_of_singleton.
    assert (k ∉ keys (@nil (jstr * F))) by apply not_elem_of_nil. naive_solver.
  - by exists s', u'.
Qed.

Lemma coordNorm_keys (s : list (jstr * F)) u n : keys (coordNorm s u n) = keys s.
Proof.
  unfold keys, coordNorm. rewrite map_map. apply map_ext. intros [i v]. by destruct (oget i u).
Qed.

Lemma fieldSearch_keys ix toks f cfg : safe ix →
  isAnd cfg = false → expand cfg = true → boost0 cfg = false →
  ∃ l, fieldSearch ix toks f cfg = Some l ∧
    ∀ k, k ∈ keys l ↔ ∃ q n, q ∈ toks ∧ n ∈ expandToken q (trieOf ix f) ∧ k ∈ keys (getDocs n (trieOf ix f)).
Proof.
  intros Hs Ha He Hb. unfold fieldSearch. rewrite Hb.
  destruct (fold_tokens ix f cfg toks Hs Ha He) as (s & u & -> & Hk). eexists. split; [done|]. intros k.
  rewrite <- Hk. destruct s as [l|]; [by rewrite coordNorm_keys|]. split; [apply not_elem_of_nil|done].
Qed.

(** A query token reaches a document through any indexed token it starts. *)
Lemma expanded_docs ix f q p : tries_ok ix →
  (∃ n, n ∈ expandToken q (trieOf ix f) ∧ p ∈ keys (getDocs n (trieOf ix f))) ↔
  q ≠ [] ∧ ∃ s, found ix f (q ++ s) p.
Proof.
  intros Hok. unfold found. split.
  - intros (n & Hn & Hp). apply (expandToken_spec _ _ _ (Hok f)) in Hn as (Hq & (s & ->) & Hd).
    split; [done|]. exists s. apply oget_keys. unfold docsAt, getDocs, getNode in *.
    by destruct q.
  - intros (Hq & s & Hf). exists (q ++ s). split.
    + apply expandToken_spec; [done|]. split_and!; [done|by exists s|]. intros E. rewrite E in Hf.
      by destruct Hf.
    + apply oget_keys in Hf. unfold docsAt, getDocs, getNode in *. by destruct q.
Qed.

Lemma insertHit_elem (h : Hit (F:=F)) l x : x ∈ insertHit h l ↔ x = h ∨ x ∈ l.
Proof.
  induction l as [|y l IH]; simpl; [set_solver|]. case_goal; rewrite !elem_of_cons, ?IH; tauto.
Qed.

Lemma sortHits_elem (l : list (Hit (F:=F))) x : x ∈ sortHits l ↔ x ∈ l.
Proof.
  induction l as [|y l IH]; simpl; [done|]. by rewrite insertHit_elem, IH, elem_of_cons.
Qed.

End search_keys.

Section search_facts.
Context {F : Type} `{Float F} (toLower : jstr → jstr).
Implicit Types (ix : Index (F:=F)) (d : list (jstr * jstr)).

Definition queryTokens ix (term : jstr) : list jstr :=
  match term with [] => [] | _ => pipelineRun (queue ix) (tokenizer toLower (Some term)) end.

(** A configuration as the driver makes it. *)
Definition plainConfig (cfg : FieldConfig (F:=F)) : Prop :=
  isAnd cfg = false ∧ expand cfg = true ∧ boost0 cfg = false.

Lemma fold_fields_keys ix toks (config : list (jstr * FieldConfig)) : safe ix →
  (∀ c cfg, (c, cfg) ∈ config → plainConfig cfg) →
  ∃ l, foldE (λ l '(c, cfg), f ← fieldSearch ix toks c cfg;
         Some (foldl (λ l '(p, v), accumulate l p (fmul v (boost cfg))) l f)) [] config = Some l ∧
    ∀ k, k ∈ keys l ↔ ∃ c cfg q n, (c, cfg) ∈ config ∧ q ∈ toks ∧
      n ∈ expandToken q (trieOf ix c) ∧ k ∈ keys (getDocs n (trieOf ix c)).
Proof.
  intros Hs Hc. apply (foldE_ind _ (λ pre l, ∀ k, k ∈ keys l ↔ ∃ c cfg q n, (c, cfg) ∈ pre ∧ q ∈ toks ∧
      n ∈ expandToken q (trieOf ix c) ∧ k ∈ keys (getDocs n (trieOf ix c)))).
  - intros k. split; [intros Hn; by apply not_elem_of_nil in Hn|]. intros (c & cfg & q & n & Hn & _). by apply not_elem_of_nil in Hn.
  - intros pre [c cfg] b Hin Hb. destruct (Hc _ _ Hin) as (Ha & He & H0).
    destruct (fieldSearch_keys ix toks c cfg Hs Ha He H0) as (l & -> & Hl). eexists. split; [done|]. intros k.
    rewrite (fold_accumulate (λ _ v, fmul v (boost cfg))), Hl, Hb. setoid_rewrite elem_of_app. setoid_rewrite list_elem_of_singleton.
    split.
    + intros [(q & n & ?)|(c' & cfg' & q & n & ?)]; [exists c, cfg, q, n|exists c', cfg', q, n]; naive_solver.
    + intros (c' & cfg' & q & n & [?|[= -> ->]] & ?); [right; eauto 10|left; eauto].
Qed.

Lemma searchWith_refs ix term config : safe ix → (∀ c cfg, (c, cfg) ∈ config → plainConfig cfg) →
  ∃ hits, searchWith toLower ix term config = Some hits ∧
    ∀ p, p ∈ map ref hits ↔ ∃ c cfg q n, (c, cfg) ∈ config ∧ q ∈ queryTokens ix term ∧
      n ∈ expandToken q (trieOf ix c) ∧ p ∈ keys (getDocs n (trieOf ix c)).
Proof.
  intros Hs Hc. unfold searchWith, queryTokens. destruct term as [|t term].
  { exists []. split; [done|]. intros p. split; [intros Hn; by apply not_elem_of_nil in Hn|].
    intros (c & cfg & q & n & _ & Hn & _). by apply not_elem_of_nil in Hn. }
  destruct (fold_fields_keys ix (pipelineRun (queue ix) (tokenizer toLower (Some (t :: term)))) config Hs Hc) as (l & -> & Hl).
  eexists. split; [done|]. intros p. rewrite <- Hl. split.
  - intros (h & -> & Hh)%list_elem_of_fmap. rewrite sortHits_elem in Hh.
    apply list_elem_of_fmap in Hh as ([p' v] & -> & Hin). by apply (list_elem_of_fmap_2 fst) in Hin.
  - intros ([p' v] & -> & Hin)%list_elem_of_fmap. apply list_elem_of_fmap.
    eexists. split; [|rewrite sortHits_elem; apply list_elem_of_fmap; eexists; split; [reflexivity|exact Hin]]. done.
Qed.

(** Searching a loaded index is exact on any well-formed index: the search does not throw,
    and a document is returned precisely when one of the searched fields lists it under a
    token that starts with some non-empty token of the query, whatever the scores. *)
Theorem prebuilt_search_exact ix term : tries_ok ix → safe ix →
  ∃ hits, pdocSearch toLower ix term = Some hits ∧
    ∀ p, p ∈ map ref hits ↔
      ∃ f q s, f ∈ docFields ∧ f ∈ fields ix ∧ q ∈ queryTokens ix term ∧ q ≠ [] ∧ found ix f (q ++ s) p.
Proof.
  intros Hok Hs. unfold pdocSearch. destruct (searchWith_refs ix term (pdocConfig ix) Hs) as (hits & -> & Hh).
  { intros c cfg Hin. apply list_elem_of_fmap in Hin as (f & [= -> ->] & _). split_and!; [done..|].
    simpl. unfold pdocBoost. by repeat case_bool_decide. }
  exists hits. split; [done|]. intros p. rewrite Hh. split.
  - intros (c & cfg & q & n & Hin & Hq & Hn & Hp). apply list_elem_of_fmap in Hin as (f & [= -> ->] & [Hf1 Hf2]%list_elem_of_filter).
    destruct (proj1 (expanded_docs ix f q p Hok)) as (Hqn & s & Hf); [eauto|]. by exists f, q, s.
  - intros (f & q & s & Hf1 & Hf2 & Hq & Hqn & Hf). destruct (proj2 (expanded_docs ix f q p Hok)) as (n & Hn & Hp); [eauto|].
    eexists f, _, q, n. split; [apply list_elem_of_fmap; eexists; split; [reflexivity|by apply list_elem_of_filter]|done].
Qed.

(** ** Properties *)

Lemma pdocEmpty_ok : tries_ok (pdocEmpty (F:=F)).
Proof.
  intros f. unfold trieOf. destruct (oget f (index pdocEmpty)) as [n|] eqn:E; [|apply trie_ok_empty].
  apply oget_some_elem in E. apply list_elem_of_fmap in E as (g & [= _ ->] & _). apply trie_ok_empty.
Qed.

Lemma pdocEmpty_found f t p : ¬ found (pdocEmpty (F:=F)) f t p.
Proof.
  unfold found, trieOf. destruct (oget f (index pdocEmpty)) as [n|] eqn:E.
  - apply oget_some_elem in E. apply list_elem_of_fmap in E as (g & [= _ ->] & _).
    simpl. unfold docsAt. destruct t; simpl; by intros [].
  - simpl. unfold docsAt. destruct t; simpl; by intros [].
Qed.

(** The tokens of a field of a document, and its reference. *)
Definition docTokens d (f : jstr) : list jstr :=
  pipelineRun [λ t, Some (trimmer t)] (tokenizer toLower (oget f d)).

Definition docRef d : option jstr := oget (runes "fullname") d.

Lemma pdocEmpty_safe : safe (pdocEmpty (F:=F)).
Proof. split; [intros p [? ?]; done|]. intros f t p Hf. by apply pdocEmpty_found in Hf. Qed.

(** C30: Build and search compose.  When every document has a [fullname], none of them the
    name of a member every object inherits ([constructor], [toString], ...), a search of the
    index built from a list of documents does not throw, and it returns exactly the full
    names of the documents that have, in one of the seven fields, a token starting with some
    non-empty query token.  (A document without a [fullname] makes the search throw: see
    [missing_fullname_throws].) *)
Theorem built_search_exact (ds : list (list (jstr * jstr))) term :
  (∀ d, d ∈ ds → ∃ p, docRef d = Some p ∧ inherited p = false) →
  ∃ hits, pdocSearch toLower (pdocBuild (F:=F) toLower ds) term = Some hits ∧
    ∀ p, p ∈ map ref hits ↔
      ∃ d f q s, d ∈ ds ∧ docRef d = Some p ∧ f ∈ docFields ∧
        q ∈ queryTokens (pdocEmpty (F:=F)) term ∧ q ≠ [] ∧ q ++ s ∈ docTokens d f.
Proof.
  intros Hi. unfold pdocBuild. pose proof pdocEmpty_safe as [Hle Hre].
  assert (∀ d, d ∈ ds → inherited (refOf (pdocEmpty (F:=F)) d) = false ∧ docRef d = Some (refOf (pdocEmpty (F:=F)) d)) as Hr'.
  { intros d Hd. destruct (Hi d Hd) as (p & Hp & Hip). unfold refOf. change (oget (refField pdocEmpty) d) with (docRef d). by rewrite Hp. }
  destruct (prebuilt_search_exact (foldl (addDoc toLower) (pdocEmpty (F:=F)) ds) term) as (hits & E & Hh).
  { apply fold_addDocs_ok; [|apply pdocEmpty_ok]. intros d Hd. by apply Hr'. }
  { split; [apply fold_addDocs_lengths; [|done|done]|apply fold_addDocs_refs; [|done]].
    - intros d Hd. destruct (Hi d Hd) as (p & Hp & _). by exists p.
    - intros d Hd. by apply Hr'. }
  exists hits. split; [done|]. intros p. rewrite Hh.
  destruct (fold_addDocs toLower ds (pdocEmpty (F:=F)) [] [] []) as [_ (Hf & Hr & Hq)].
  unfold queryTokens. rewrite Hf, Hq. split.
  - intros (f & q & s & Hf1 & Hf2 & Hqt & Hqn & Hs).
    destruct (fold_addDocs toLower ds (pdocEmpty (F:=F)) f (q ++ s) p) as [Hfound _].
    apply Hfound in Hs as [Hs|(d & Hd & Hfd & -> & Ht)]; [by apply pdocEmpty_found in Hs|].
    exists d, f, q, s. split_and!; try done. by apply Hr'.
  - intros (d & f & q & s & Hd & Hp & Hfd & Hqt & Hqn & Ht). exists f, q, s. split_and!; try done.
    destruct (fold_addDocs toLower ds (pdocEmpty (F:=F)) f (q ++ s) p) as [Hfound _].
    apply Hfound. right. exists d. split_and!; try done. destruct (Hr' d Hd) as [_ Hd2]. congruence.
Qed.

End search_facts.

(** ** Removing a document *)

Section removal.
Context {F : Type} `{Float F} (toLower : jstr → jstr).
Implicit Types (ix : Index (F:=F)) (d : list (jstr * jstr)) (n : node (F:=F)).

Lemma docsAt_remove t ref n t' p : inherited ref = false →
  is_Some (oget p (docsAt t' (removeAt t ref n))) ↔
  is_Some (oget p (docsAt t' n)) ∧ ¬ (t = t' ∧ p = ref).
Proof.
  intros Hi. unfold docsAt. revert n t'. induction t as [|c t IH]; intros n t'; cbn [removeAt].
  - destruct (has ref (ndocs n)) eqn:Eh.
    + destruct t' as [|c' t']; simpl; [|naive_solver]. rewrite oget_del.
      case_bool_decide; [subst|]; naive_solver.
    + destruct t' as [|c' t']; simpl; [|naive_solver]. split; [|by intros [? _]].
      intros Hp. split; [done|]. intros [_ ->]. apply (has_own ref) in Hp; [congruence|done].
  - destruct (oget [c] (nkids n)) as [m|] eqn:Eg.
    + destruct t' as [|c' t']; cbn [walk nkids ndocs]; [naive_solver|]. rewrite oget_replace, Eg.
      case_bool_decide as Hc.
      * injection Hc as <-. rewrite Eg. simpl. rewrite IH. naive_solver.
      * destruct (oget [c'] (nkids n)); naive_solver.
    + split; [|by intros [? _]]. intros Hp. split; [done|]. intros [<- _]. cbn [walk] in Hp.
      rewrite Eg in Hp. by destruct Hp.
Qed.

Lemma fold_remove ref toks n t p : inherited ref = false → t ≠ [] →
  is_Some (oget p (docsAt t (foldl (λ n tok, removeToken tok ref n) n toks))) ↔
  is_Some (oget p (docsAt t n)) ∧ ¬ (p = ref ∧ t ∈ toks).
Proof.
  intros Hi Ht. revert n. induction toks as [|tok toks IH]; intros n; simpl.
  - split; [|by intros [? _]]. intros Hp. split; [done|]. intros [_ Hn]. by apply not_elem_of_nil in Hn.
  - rewrite IH, elem_of_cons. unfold removeToken. destruct tok as [|c tok].
    + naive_solver.
    + rewrite docsAt_remove by done. naive_solver.
Qed.

Lemma found_removeFields ref d fs ix g t p : inherited ref = false → t ≠ [] →
  found (foldl (removeField_ toLower ref d) ix fs) g t p ↔
  found ix g t p ∧ ¬ (g ∈ fs ∧ p = ref ∧ t ∈ fieldTokens toLower ix d g).
Proof.
  intros Hi Ht. revert ix. induction fs as [|f fs IH]; intros ix; simpl.
  - split; [|by intros [? _]]. intros Hp. split; [done|]. intros [Hn _]. by apply not_elem_of_nil in Hn.
  - rewrite IH. change (fieldTokens toLower (removeField_ toLower ref d ix f) d g)
      with (fieldTokens toLower ix d g).
    unfold found at 1. unfold removeField_. rewrite trieOf_set, elem_of_cons.
    case_bool_decide as Hf.
    + subst f. rewrite fold_remove by done. unfold found. naive_solver.
    + unfold found. naive_solver.
Qed.

(** removing a document undoes adding it: on an index that did not list its
    reference, adding and then removing a document leaves every non-empty token
    of every field with exactly the documents it had. *)
Theorem remove_undoes_add ix d f t p :
  inherited (refOf ix d) = false → t ≠ [] →
  (∀ g u, ¬ found ix g u (refOf ix d)) →
  found (removeDoc toLower (addDoc toLower ix d) d) f t p ↔ found ix f t p.
Proof.
  intros Hi Ht Hfresh. destruct (found_addDoc toLower ix d f t p) as [Hadd (Hfs & Hr & Hq)].
  unfold removeDoc. rewrite Hr. fold (refOf ix d).
  assert (Hhas : hasDoc (addDoc toLower ix d) (refOf ix d) = true).
  { unfold hasDoc, addDoc. rewrite fold_addFields_docs. apply has_own; [done|]. simpl.
    unfold refOf. rewrite oget_put_eq. by eexists. }
  rewrite Hhas. rewrite found_removeFields by done.
  change (found {| fields := _; refField := _; queue := _; docs := _; docInfo := _; length_ := _;
    index := index (addDoc toLower ix d) |} f t p) with (found (addDoc toLower ix d) f t p).
  rewrite Hadd, Hfs. unfold fieldTokens. cbn [queue]. rewrite Hq. split.
  - intros [[Hf|(Hg & -> & Hin)] Hn]; [done|]. exfalso. apply Hn. done.
  - intros Hf. split; [by left|]. intros (_ & -> & _). by apply (Hfresh f t).
Qed.

End removal.

(** ** A concrete documentation *)

(** Integers in place of doubles: enough to run the search. *)
#[local] Instance zfloat : Float Z := {|
  fofZ z := z; fadd := Z.add; fsub := Z.sub; fmul := Z.mul; fdiv a b := 100 * a / b; fsqrt := Z.sqrt;
  flog := Z.log2; fnan := 0; f_15 := 15; fsign := Z.sgn;
|}.

Definition asciiLower (s : jstr) : jstr := map lowerUnit s.

Definition sampleDoc (name text : string) : list (jstr * jstr) :=
  [(runes "fullname", runes name); (runes "qualname", runes name); (runes "doc", runes text)].

Definition sampleDocs : list (list (jstr * jstr)) :=
  [sampleDoc "pkg.run" "<p>Runs the user's callable.</p>"; sampleDoc "pkg.xcom" "Pushes a value."].

Definition sampleIndex : Index (F:=Z) := pdocBuild asciiLower sampleDocs.

Example sample_search : map ref <$> pdocSearch asciiLower sampleIndex (runes "CALL") = Some [runes "pkg.run"].
Proof. vm_compute. reflexivity. Qed.

Lemma sample_refs d : d ∈ sampleDocs → ∃ p, docRef d = Some p ∧ inherited p = false.
Proof.
  intros [->|[->|Hn]%elem_of_cons]%elem_of_cons; [eexists; by split..|by apply not_elem_of_nil in Hn].
Qed.

Lemma built_search_exact_witness :
  ∃ hits, pdocSearch asciiLower sampleIndex (runes "CALL") = Some hits ∧
    ∀ p, p ∈ map ref hits ↔
      ∃ d f q s, d ∈ sampleDocs ∧ docRef d = Some p ∧ f ∈ docFields ∧
        q ∈ queryTokens asciiLower (pdocEmpty (F:=Z)) (runes "CALL") ∧ q ≠ [] ∧ q ++ s ∈ docTokens asciiLower d f.
Proof. apply built_search_exact. exact sample_refs. Defined.

(** A document without a [fullname] is indexed under [undefined] and has no lengths: a query
    that reaches it throws, and hides every other document. *)
Definition unnamedDoc : list (jstr * jstr) := [(runes "doc", runes "Calls it.")].

Lemma missing_fullname_throws :
  pdocSearch asciiLower (pdocBuild (F:=Z) asciiLower (unnamedDoc :: sampleDocs)) (runes "call") = None.
Proof. vm_compute. reflexivity. Qed.

Definition runDoc : list (jstr * jstr) := sampleDoc "pkg.run" "Runs.".

Lemma remove_undoes_add_witness :
  found (removeDoc asciiLower (addDoc asciiLower (pdocEmpty (F:=Z)) runDoc) runDoc) (runes "doc") (runes "runs") (runes "pkg.run")
  ↔ found (pdocEmpty (F:=Z)) (runes "doc") (runes "runs") (runes "pkg.run").
Proof.
  apply remove_undoes_add; [reflexivity|discriminate|]. intros g u. apply pdocEmpty_found.
Defined.
