(* ===== verification/UiStreams.v ===== *)
(** * Streams of lines in the web UI

    Text that reaches the UI in chunks of bytes: the line splitter under the data
    loader of the router ([VXe]), the stream of task instance summaries behind the
    grid ([P6]), and the text area of a parameter that holds a list of strings
    ([UEt]).  [TextDecoder] is modelled byte by byte, as the encoding standard
    defines it; [JSON.parse] is a parameter about which nothing is assumed. *)

From Stdlib Require Import ZArith Lia.
From stdpp Require Import base numbers strings option list.
From S2P Require Import Prelude Js.

Open Scope Z_scope.

(** ** TextDecoder *)

Module Utf8.

(** The decoder between two bytes: the code point read so far, the bytes seen of
    the bytes needed, the bounds of the next byte, and whether a first code point
    was emitted (a byte order mark in that place is dropped). *)
Record Decoder := {
  cp : Z; seen : Z; needed : Z; lower : Z; upper : Z; bomSeen : bool;
}.

Definition fresh (bom : bool) : Decoder :=
  {| cp := 0; seen := 0; needed := 0; lower := 128; upper := 191; bomSeen := bom |}.

Definition expect (c n lo hi : Z) (bom : bool) : Decoder :=
  {| cp := c; seen := 0; needed := n; lower := lo; upper := hi; bomSeen := bom |}.

Definition utf16 (c : Z) : jstr :=
  if c <? 65536 then [c] else [55296 + (c - 65536) / 1024; 56320 + (c - 65536) mod 1024].

Definition emit (bom : bool) (c : Z) : Decoder * jstr :=
  (fresh true, if negb bom && (c =? 65279) then [] else utf16 c).

(** A byte that starts a code point. *)
Definition first (bom : bool) (b : Z) : Decoder * jstr :=
  if b <=? 127 then emit bom b
  else if (194 <=? b) && (b <=? 223) then (expect (Z.land b 31) 1 128 191 bom, [])
  else if (224 <=? b) && (b <=? 239) then
    (expect (Z.land b 15) 2 (if b =? 224 then 160 else 128) (if b =? 237 then 159 else 191) bom, [])
  else if (240 <=? b) && (b <=? 244) then
    (expect (Z.land b 7) 3 (if b =? 240 then 144 else 128) (if b =? 244 then 143 else 191) bom, [])
  else emit bom 65533.

Definition step (d : Decoder) (b : Z) : Decoder * jstr :=
  if needed d =? 0 then first (bomSeen d) b
  else if (b <? lower d) || (upper d <? b) then
    let '(d', s) := first true b in
    (d', snd (emit (bomSeen d) 65533) ++ s)
  else
    let c := Z.lor (Z.shiftl (cp d) 6) (Z.land b 63) in
    if seen d + 1 =? needed d then emit (bomSeen d) c
    else ({| cp := c; seen := seen d + 1; needed := needed d;
             lower := 128; upper := 191; bomSeen := bomSeen d |}, []).

(** [decoder.decode(chunk, {stream: true})] *)
Fixpoint decode (d : Decoder) (chunk : list Z) : Decoder * jstr :=
  match chunk with
  | [] => (d, [])
  | b :: r =>
    let '(d1, s1) := step d b in
    let '(d2, s2) := decode d1 r in
    (d2, s1 ++ s2)
  end.

(** [new TextDecoder] *)
Definition start : Decoder := fresh false.

Lemma decode_app d a b :
  decode d (a ++ b) =
  let '(d1, s1) := decode d a in let '(d2, s2) := decode d1 b in (d2, s1 ++ s2).
Proof.
  revert d. induction a as [|x a IH]; intros d; simpl.
  - by destruct (decode d b).
  - destruct (step d x) as [d1 s1]. rewrite IH. destruct (decode d1 a) as [d2 s2].
    destruct (decode d2 b) as [d3 s3]. by rewrite app_assoc.
Qed.

(** The decoder keeps its place: it never waits for more than three bytes, and it
    has seen fewer than it waits for. *)
Definition wf (d : Decoder) : bool :=
  (0 <=? seen d) && (needed d <=? 3) && ((needed d =? 0) || (seen d <? needed d)).

Lemma step_wf d b : wf d = true → wf (fst (step d b)) = true.
Proof.
  unfold wf, step, first, emit, expect, fresh. intros H. zbool.
  repeat (case_match; simplify_eq/=; try done); zbool;
    rewrite !andb_true_iff, orb_true_iff, ?Z.leb_le, ?Z.ltb_lt, ?Z.eqb_eq in *; lia.
Qed.

End Utf8.

(** ** The line splitter of the data loader *)

Module LineStream.

(** The closure of [VXe]: the decoder [e] and the text [t] after the last line
    break. *)
Record State := { dec : Utf8.Decoder; rest : jstr }.

Definition init : State := {| dec := Utf8.start; rest := [] |}.

(** [a.pop() || ""] and what it leaves of [a]. *)
Definition pop (a : list jstr) : list jstr * jstr := (removelast a, List.last a []).

(** [transform(n, r)]: the new state and the lines enqueued. *)
Definition transform (s : State) (n : list Z) : State * list jstr :=
  let '(d, i) := Utf8.decode (dec s) n in
  let '(a, t) := pop (split NL (rest s ++ i)) in
  ({| dec := d; rest := t |}, a).

(** [flush(e)] *)
Definition flush (s : State) : list jstr := if bool_decide (rest s = []) then [] else [rest s].

(** What the reader of the transformed stream gets. *)
Fixpoint pipe (s : State) (chunks : list (list Z)) : list jstr :=
  match chunks with
  | [] => flush s
  | n :: r => let '(s', a) := transform s n in a ++ pipe s' r
  end.

Lemma last_snoc_split c s : ∃ ps p, split c s = ps ++ [p].
Proof.
  destruct (exists_last (split_nonempty c s)) as (ps & p & E). by exists ps, p.
Qed.

Lemma pop_snoc ps p : pop (ps ++ [p]) = (ps, p).
Proof. unfold pop. by rewrite removelast_last, List.last_last. Qed.

(** The lines of [s ++ t] are those complete in [s], then those of [t] with the
    incomplete line in front. *)
Lemma split_feed c s t : split c (s ++ t) =
  fst (pop (split c s)) ++ split c (snd (pop (split c s)) ++ t).
Proof.
  induction s as [|x s IH]; [done|]. simpl. rewrite IH.
  destruct (last_snoc_split c s) as (ps & p & E). rewrite E, pop_snoc. simpl.
  destruct (x =? c) eqn:Ex.
  - change ([] :: ps ++ [p]) with (([] :: ps) ++ [p]). by rewrite removelast_last, List.last_last.
  - destruct ps as [|p0 ps].
    + simpl. by rewrite Ex.
    + change (removelast _) with (removelast (((x :: p0) :: ps) ++ [p])).
      change (List.last _ []) with (List.last (((x :: p0) :: ps) ++ [p]) []).
      by rewrite removelast_last, List.last_last.
Qed.

Lemma pop_app a p : p ≠ [] → pop (a ++ p) = (a ++ fst (pop p), snd (pop p)).
Proof.
  intros Hp. destruct (exists_last Hp) as (q & z & ->).
  by rewrite app_assoc, !pop_snoc.
Qed.

(** The lines of a text, without an empty last one. *)
Definition linesOf (s : jstr) : list jstr :=
  let '(a, t) := pop (split NL s) in a ++ (if bool_decide (t = []) then [] else [t]).

Lemma pipe_lines s chunks :
  NL ∉ rest s →
  pipe s chunks = linesOf (rest s ++ snd (Utf8.decode (dec s) (concat chunks))).
Proof.
  revert s. induction chunks as [|n r IH]; intros s Hs; simpl.
  - rewrite app_nil_r. unfold linesOf. by rewrite split_single.
  - unfold transform. rewrite Utf8.decode_app.
    destruct (Utf8.decode (dec s) n) as [d i]. 
    destruct (pop (split NL (rest s ++ i))) as [a t] eqn:E.
    destruct (last_snoc_split NL (rest s ++ i)) as (ps & p & Ep).
    rewrite Ep, pop_snoc in E. injection E as <- <-.
    rewrite IH; simpl.
    + destruct (Utf8.decode d (concat r)) as [d' i']. simpl.
      unfold linesOf. rewrite (app_assoc (rest s)), (split_feed _ (rest s ++ i)), Ep, pop_snoc. cbn [fst snd].
      rewrite pop_app by apply split_nonempty.
      destruct (pop (split NL (p ++ i'))) as [b u]. cbn [fst snd]. by rewrite app_assoc.
    + eapply split_no_sep. rewrite Ep. apply elem_of_app. right. left.
Qed.

End LineStream.

(** ** The stream of task instance summaries *)

Module TiSummaries.

(** An exception, by the name and the message the handler reads. *)
Record error := { name : jstr; msg : jstr }.

(** [new Map(e).set(k, v)]: the entries in order. *)
Abbreviation entries := (list (jsval * jsval)).

Fixpoint mapSet (k v : jsval) (m : entries) : entries :=
  match m with
  | [] => [(k, v)]
  | (k', v') :: r => if sameKey k' k then (k', v) :: r else (k', v') :: mapSet k v r
  end.

Fixpoint mapGet (k : jsval) (m : entries) : option jsval :=
  match m with
  | [] => None
  | (k', v) :: r => if sameKey k' k then Some v else mapGet k r
  end.

Section stream.
Context (JSON_parse : jstr → error + jsval).

(** The updater that the loop hands to React for a summary [t]: [e=>new Map(e).set(t.run_id,t)].
    The property is read when the updater runs, not in the loop. *)
Definition update (m : entries) (t : jsval) : error + entries :=
  match get t "run_id" with
  | inl x => inl {| name := runes "TypeError"; msg := message x |}
  | inr k => inr (mapSet k t m)
  end.

(** A render runs the updaters that are queued, in order, on the state; an exception of one
    of them is thrown by the render.  (React may run an updater when it is queued to save a
    render; it drops an exception then and runs the updater again in the render.) *)
Fixpoint render (m : entries) (q : list jsval) : error + entries :=
  match q with
  | [] => inr m
  | t :: q => match update m t with inl x => inl x | inr m' => render m' q end
  end.

(** The loop over the complete lines of a chunk: the summaries queued, after those of [q],
    and the exception that ended it early. *)
Fixpoint lines (l : list jstr) (q : list jsval) : list jsval * option error :=
  match l with
  | [] => (q, None)
  | e :: r => match JSON_parse e with inl x => (q, Some x) | inr t => lines r (q ++ [t]) end
  end.

Definition notBlank (e : jstr) : bool := negb (bool_decide (trim e = [])).

(** The reading loop: [reads] are the chunks the reader yields, [fin] the
    exception of the last read, when it does not end the stream. *)
Fixpoint readLoop (d : Utf8.Decoder) (c : jstr) (m : list jsval) (reads : list (list Z))
    (fin : option error) : list jsval * option error :=
  match reads with
  | [] => (m, fin)
  | t :: r =>
    let '(d', i) := Utf8.decode d t in
    let '(n, c') := LineStream.pop (split NL (c ++ i)) in
    match lines (filter notBlank n) m with
    | (m', Some x) => (m', Some x)
    | (m', None) => readLoop d' c' m' r fin
    end
  end.

(** What [fetch] gives for the request of the runs. *)
Inductive Fetched :=
  | Rejected (x : error)
  | Response (ok : bool) (body : option (list (list Z) * option error)).

(** The body of the effect: the summaries queued for the state, and the error logged.  It
    does nothing without a DAG or runs. *)
Definition refresh (dagId : option jstr) (runIds : list jstr)
    (fetch : jstr → list jstr → Fetched) : list jsval * option error :=
  match dagId with
  | None | Some [] => ([], None)
  | Some e =>
    if bool_decide (runIds = []) then ([], None)
    else
      let '(m', x) :=
        match fetch e runIds with
        | Rejected x => ([], Some x)
        | Response ok body =>
          match ok, body with
          | true, Some (reads, fin) => readLoop Utf8.start [] [] reads fin
          | _, _ => ([], None)
          end
        end in
      (m', match x with
           | Some x' => if bool_decide (name x' = runes "AbortError") then None else Some x'
           | None => None
           end)
  end.

(** The complete lines of a text. *)
Definition complete (s : jstr) : list jstr := filter notBlank (fst (LineStream.pop (split NL s))).

Lemma lines_app a b m :
  lines (a ++ b) m =
  match lines a m with (m', Some x) => (m', Some x) | (m', None) => lines b m' end.
Proof.
  revert m. induction a as [|e a IH]; intros m; simpl; [done|].
  destruct (JSON_parse e); [done|apply IH].
Qed.

Lemma render_app m q q' : render m (q ++ q') = match render m q with inl x => inl x | inr m' => render m' q' end.
Proof. revert m. induction q as [|t q IH]; intros m; simpl; [done|]. destruct (update m t); [done|apply IH]. Qed.

(** Renders that come between the chunks, each with what was queued since the one before. *)
Fixpoint renders (m : entries) (qs : list (list jsval)) : error + entries :=
  match qs with
  | [] => inr m
  | q :: qs => match render m q with inl x => inl x | inr m' => renders m' qs end
  end.

Lemma renders_concat m qs : renders m qs = render m (concat qs).
Proof. revert m. induction qs as [|q qs IH]; intros m; simpl; [done|]. rewrite render_app. destruct (render m q); [done|apply IH]. Qed.

Lemma lines_prefix l q : ∃ done, (lines l q).1 = q ++ done ∧ ∃ a b, l = a ++ b ∧ map JSON_parse a = map inr done ∧
  match (lines l q).2 with None => b = [] | Some x => ∃ e b', b = e :: b' ∧ JSON_parse e = inl x end.
Proof.
  revert q. induction l as [|e l IH]; intros q; simpl.
  - exists []. split; [by rewrite app_nil_r|]. by exists [], [].
  - destruct (JSON_parse e) as [x|t] eqn:E; simpl.
    + exists []. split; [by rewrite app_nil_r|]. exists [], (e :: l). split_and!; [done..|]. by exists e, l.
    + destruct (IH (q ++ [t])) as (dn & -> & a & b & -> & Ha & Hb). exists (t :: dn). split; [by rewrite <- app_assoc|].
      exists (e :: a), b. split_and!; [done| |done]. simpl. by rewrite E, Ha.
Qed.

Lemma readLoop_lines d c m reads fin : NL ∉ c →
  readLoop d c m reads fin =
  match lines (complete (c ++ snd (Utf8.decode d (concat reads)))) m with
  | (m', Some x) => (m', Some x)
  | (m', None) => (m', fin)
  end.
Proof.
  revert d c m. induction reads as [|t r IH]; intros d c m Hc; cbn [readLoop concat].
  - unfold complete. cbn [Utf8.decode snd]. by rewrite app_nil_r, split_single.
  - rewrite Utf8.decode_app. destruct (Utf8.decode d t) as [d' i].
    destruct (LineStream.last_snoc_split NL (c ++ i)) as (ps & p & Ep).
    rewrite Ep, LineStream.pop_snoc.
    assert (NL ∉ p) as Hp by (eapply split_no_sep; rewrite Ep; apply elem_of_app; right; left).
    specialize (IH d' p). destruct (Utf8.decode d' (concat r)) as [d2 i2]. cbn [snd] in *.
    unfold complete. rewrite (app_assoc c), (LineStream.split_feed _ (c ++ i)), Ep, LineStream.pop_snoc. cbn [fst snd].
    rewrite LineStream.pop_app by apply split_nonempty. cbn [fst snd].
    rewrite filter_app, lines_app.
    destruct (lines (filter notBlank ps) m) as [m' [x|]]; [done|]. by rewrite IH.
Qed.

(** The run a line is about, with its summary. *)
Definition about (e : jstr) : option (jstr * jsval) :=
  match JSON_parse e with
  | inr t => match get t "run_id" with inr (Str k) => Some (k, t) | _ => None end
  | inl _ => None
  end.

(** The last summary of run [k] among the lines. *)
Definition latest (k : jstr) (l : list jstr) : option jsval :=
  last (omap (λ e, match about e with
                   | Some (k', t) => if bool_decide (k' = k) then Some t else None
                   | None => None
                   end) l).

End stream.

Lemma mapGet_set k k' v m :
  mapGet (Str k) (mapSet (Str k') v m) =
  if bool_decide (k' = k) then Some v else mapGet (Str k) m.
Proof.
  induction m as [|[a w] m IH]; simpl; [done|].
  destruct (sameKey a (Str k')) eqn:E; simpl.
  - destruct a; try done. simpl in *. apply bool_decide_eq_true in E as ->.
    repeat case_bool_decide; naive_solver.
  - rewrite IH. destruct (sameKey a (Str k)) eqn:E'; [|done].
    case_bool_decide; subst; congruence.
Qed.

Lemma lines_latest JSON_parse l q m :
  Forall (λ e, is_Some (about JSON_parse e)) l →
  ∃ q' m', lines JSON_parse l q = (q ++ q', None) ∧ render m q' = inr m' ∧
    ∀ k, mapGet (Str k) m' =
      match latest JSON_parse k l with Some t => Some t | None => mapGet (Str k) m end.
Proof.
  intros H. revert q m. induction H as [|e l [[k0 t0] He] _ IH]; intros q m; simpl.
  - exists [], m. by rewrite app_nil_r.
  - unfold latest in *. cbn [omap list_omap]. unfold about in *.
    destruct (JSON_parse e) as [|t]; [done|].
    destruct (get t "run_id") as [|v] eqn:Eg; [done|]. destruct v; try done. injection He as <- <-.
    destruct (IH (q ++ [t]) (mapSet (Str s) t m)) as (q' & m' & -> & Hr & Hm). exists (t :: q'), m'. split_and!.
    + by rewrite <- app_assoc.
    + simpl. unfold update. by rewrite Eg.
    + intros k. rewrite Hm, mapGet_set. csimpl. case_bool_decide; [|done].
      rewrite last_cons. by destruct (last _).
Qed.

End TiSummaries.

(** ** A parameter that is a list of strings *)

Module StringArrayField.

(** A parameter: its value, and the rest of its description, which the field only
    carries along. *)
Record Param := { value : jsval; description : jsval; schema : jsval }.

Definition setValue (v : jsval) (p : Param) : Param :=
  {| value := v; description := description p; schema := schema p |}.

(** [l(t)]: the change handler, on the entry of the parameter when there is one.
    The text itself goes to [onUpdate]. *)
Definition onChange (t : jstr) (p : option Param) : option Param * jstr :=
  (setValue (Arr (map Str (split NL t))) <$> p, t).

(** [u()]: on leaving the field a list of one empty string becomes null. *)
Definition onBlur (p : option Param) : option Param :=
  match p with
  | Some q =>
    match value q with
    | Arr [Str []] => Some (setValue Null q)
    | _ => p
    end
  | None => None
  end.

(** [d]: the text shown; an absent entry has the empty string of [EY].  An array
    shows as its items, a line each; the empty array of any other value shows as
    the empty text. *)
Definition display (numberToString : Z → Z → jstr) (p : option Param) : jstr :=
  match p with
  | Some q =>
    match value q with
    | Arr l => join [NL] (map (λ x, match x with Undefined | Null => [] | _ => toString numberToString x end) l)
    | _ => []
    end
  | None => []
  end.

(** The values of the field: null or a list of strings. *)
Definition wellTyped (p : Param) : bool :=
  match value p with
  | Null => true
  | Arr l => forallb (λ x, match x with Str s => negb (bool_decide (NL ∈ s)) | _ => false end) l
  | _ => false
  end.

Lemma display_strs nts l q : value q = Arr (map Str l) → display nts (Some q) = join [NL] l.
Proof.
  intros H. simpl. rewrite H. f_equal. rewrite map_map.
  rewrite <- (map_id l) at 2. apply map_ext. done.
Qed.

End StringArrayField.

(** ** Labels of several lines *)

(** [a3]: a label with line breaks is an array of lines. *)
Definition splitNewlines (e : jsval) : jsval :=
  match e with
  | Str s => if includes [NL] s then Arr (map Str (split NL s)) else e
  | _ => e
  end.

(** ** Properties *)

(** C33: What a refresh of the task summaries does not depend on how the network cuts the
    answer.  Whatever [JSON.parse] does and however the body is cut into chunks: the summaries
    queued for the state of the grid and the error logged are the same as if the body came in
    one piece.  They are the values of the complete, non-blank lines of the decoded text in
    order, up to the first that is not JSON, whose exception ends the reading (and is logged
    unless it is an abort).  What the grid shows of them does not depend on when React renders
    in between: a render fails for a value that has no properties ([null]), and otherwise the
    summaries are set in order.  A last line without a break at its end is not read. *)
Theorem summaries_chunking_irrelevant parse e ids fetch reads fin :
  e ≠ [] → ids ≠ [] → fetch e ids = TiSummaries.Response true (Some (reads, fin)) →
  let whole := TiSummaries.complete (snd (Utf8.decode Utf8.start (concat reads))) in
  TiSummaries.refresh parse (Some e) ids fetch =
    TiSummaries.refresh parse (Some e) ids (λ _ _, TiSummaries.Response true (Some ([concat reads], fin))) ∧
  (∃ a b, whole = a ++ b ∧ map parse a = map inr (fst (TiSummaries.refresh parse (Some e) ids fetch)) ∧
     (b = [] ∨ ∃ l b' x, b = l :: b' ∧ parse l = inl x)) ∧
  ∀ m qs, concat qs = fst (TiSummaries.refresh parse (Some e) ids fetch) →
    TiSummaries.renders m qs = TiSummaries.render m (fst (TiSummaries.refresh parse (Some e) ids fetch)).
Proof.
  intros He Hi Hf whole. unfold TiSummaries.refresh. destruct e as [|c e]; [done|].
  rewrite bool_decide_eq_false_2, Hf by done.
  rewrite !TiSummaries.readLoop_lines by apply not_elem_of_nil. simpl concat.
  rewrite app_nil_r. change (TiSummaries.complete ([] ++ ?x)) with (TiSummaries.complete x). fold whole.
  destruct (TiSummaries.lines_prefix parse whole []) as (dn & H1 & a & b & Hab & Ha & Hb).
  destruct (TiSummaries.lines parse whole []) as [q x] eqn:El. cbn [fst snd app] in H1, Hb. subst q. split; [done|].
  assert (fst (let '(m', y) := match x with Some x' => (dn, Some x') | None => (dn, fin) end in
     (m', match y with Some x' => if bool_decide (TiSummaries.name x' = runes "AbortError") then None else Some x' | None => None end)) = dn) as E
    by (by destruct x).
  split; [|intros m qs Hqs; rewrite TiSummaries.renders_concat; by rewrite Hqs].
  exists a, b. split_and!; [done|by destruct x|]. destruct x as [x|]; [right|by left]. destruct Hb as (l & b' & -> & Hl). by exists l, b', x.
Qed.

Definition sample_parse (s : jstr) : TiSummaries.error + jsval :=
  if includes (runes "}") s then inr (Obj [(runes "run_id", Str s)])
  else inl {| TiSummaries.name := runes "SyntaxError"; TiSummaries.msg := runes "Unexpected end" |}.

Definition sample_fetch (e : jstr) (ids : list jstr) : TiSummaries.Fetched :=
  TiSummaries.Response true
    (Some ([runes "{a" ++ [195]; [169] ++ runes "}" ++ [NL] ++ runes "{"; runes "b}" ++ [NL]], None)).

Definition sample_reads : list (list Z) := [runes "{a" ++ [195]; [169] ++ runes "}" ++ [NL] ++ runes "{"; runes "b}" ++ [NL]].

Lemma summaries_chunking_irrelevant_witness :
  let r := TiSummaries.refresh sample_parse (Some (runes "dag")) [runes "r1"] sample_fetch in
  r = ([Obj [(runes "run_id", Str (runes "{a" ++ [233] ++ runes "}"))]; Obj [(runes "run_id", Str (runes "{b}"))]], None) ∧
  r = TiSummaries.refresh sample_parse (Some (runes "dag")) [runes "r1"] (λ _ _, TiSummaries.Response true (Some ([concat sample_reads], None))).
Proof.
  split; [vm_compute; reflexivity|].
  apply (summaries_chunking_irrelevant sample_parse (runes "dag") [runes "r1"] sample_fetch sample_reads None); done.
Defined.

(** A line that is the text [null] is queued like a summary, and the render that follows
    throws. *)
Lemma null_line_breaks_render m :
  let parse s := if bool_decide (s = runes "null") then inr Null else sample_parse s in
  let r := TiSummaries.refresh parse (Some (runes "dag")) [runes "r1"]
    (λ _ _, TiSummaries.Response true (Some ([runes "null" ++ [NL]], None))) in
  r = ([Null], None) ∧ ∃ x, TiSummaries.render m r.1 = inl x.
Proof. split; [vm_compute; reflexivity|]. by eexists. Qed.

(** when every complete line of the answer is a summary with a run id, the
    grid holds for every run the last summary received for it, and keeps what it
    had for the runs the answer does not mention. *)
Theorem summaries_latest parse e ids fetch m reads fin :
  e ≠ [] → ids ≠ [] → fetch e ids = TiSummaries.Response true (Some (reads, fin)) →
  let l := TiSummaries.complete (snd (Utf8.decode Utf8.start (concat reads))) in
  Forall (λ x, is_Some (TiSummaries.about parse x)) l →
  ∃ m', TiSummaries.render m (fst (TiSummaries.refresh parse (Some e) ids fetch)) = inr m' ∧
  ∀ k, TiSummaries.mapGet (Str k) m' =
    match TiSummaries.latest parse k l with
    | Some t => Some t
    | None => TiSummaries.mapGet (Str k) m
    end.
Proof.
  intros He Hi Hf l Hl. unfold TiSummaries.refresh. destruct e as [|c e]; [done|].
  rewrite bool_decide_eq_false_2, Hf by done.
  rewrite TiSummaries.readLoop_lines by apply not_elem_of_nil. simpl app. fold l.
  destruct (TiSummaries.lines_latest parse l [] m Hl) as (q' & m' & -> & Hr & Hm). exists m'. split; [exact Hr|exact Hm].
Qed.

(** C35: The field of a list of strings keeps its type and shows what was typed.  Whatever
    the text, the value stored on a change is the list of its lines, strings without a line
    break, an empty line being an empty string; leaving the field changes it in one case, the
    empty text, whose list of one empty string becomes null; and before and after that the
    text shown is the text typed. *)
Theorem string_array_field_ok nts t p :
  ∃ q, fst (StringArrayField.onChange t (Some p)) = Some q ∧
    (∃ l, StringArrayField.value q = Arr (map Str l) ∧ (∀ s, s ∈ l → NL ∉ s) ∧ join [NL] l = t) ∧
    StringArrayField.display nts (Some q) = t ∧
    ∃ q', StringArrayField.onBlur (Some q) = Some q' ∧
      (t ≠ [] → q' = q) ∧
      StringArrayField.display nts (Some q') = t ∧
      (StringArrayField.value q' = Null ↔ t = []).
Proof.
  exists (StringArrayField.setValue (Arr (map Str (split NL t))) p).
  assert (StringArrayField.display nts
    (Some (StringArrayField.setValue (Arr (map Str (split NL t))) p)) = t) as Hd.
  { rewrite (StringArrayField.display_strs _ (split NL t)) by done. apply join_split. }
  split_and!; [done|exists (split NL t); split_and!; [done|intros s Hs; by eapply split_no_sep|apply join_split]|done|].
  pose proof (join_split NL t) as Hj. unfold StringArrayField.onBlur. simpl.
  destruct (split NL t) as [|[|c s] [|s' l]] eqn:E; simpl in *; subst t;
    eexists; split_and!; eauto; simpl; try done; naive_solver.
Qed.
