(* ===== verification/Json.v ===== *)
(** * JSON text

    [JSON.parse] as the language defines it, on strings of UTF-16 code units, and the
    text of JSON values.  Numbers are the class [JsNum] of what is used of doubles: their
    text, how a text is read, and the integers among them.  The text of a value is read
    back as the value.

    The own properties of an object keep the order of the language: array indices first,
    ascending, then the other keys as they were added. *)

From Stdlib Require Import ZArith Lia.
From stdpp Require Import base numbers strings pretty option list.
From S2P Require Import Prelude Js.

Open Scope Z_scope.

(** ** Numbers *)

Class JsNum (num : Type) := {
  num_eq_dec : EqDecision num;
  nan : num; inf : num; ninf : num; negZero : num;
  ofZ : Z → num;
  (** the integer of an integral number *)
  toZ : num → option Z;
  (** [String(n)] and [Number(s)] *)
  numText : num → jstr;
  readNum : jstr → num;
}.
#[export] Existing Instance num_eq_dec.

(** Integers that doubles hold exactly. *)
Definition safe (z : Z) : Prop := - 2 ^ 53 < z < 2 ^ 53.

Definition isDigit (c : Z) : bool := (48 <=? c) && (c <=? 57).

(** [String(z)] for an integer. *)
Definition decimalZ (z : Z) : jstr := if z <? 0 then 45 :: decimal (Z.to_nat (- z)) else decimal (Z.to_nat z).

(** The longest prefix of units with [p]. *)
Fixpoint span (p : Z → bool) (s : jstr) : jstr * jstr :=
  match s with
  | [] => ([], [])
  | c :: r => if p c then let '(a, b) := span p r in (c :: a, b) else ([], s)
  end.

(** The grammar of a JSON number: sign, digits without a leading zero, fraction, exponent. *)
Definition digits1 (s : jstr) : option jstr :=
  match span isDigit s with ([], _) => None | (_, r) => Some r end.

Definition intPart (s : jstr) : option jstr :=
  match s with
  | c :: r => if c =? 48 then Some r else digits1 s
  | [] => None
  end.

Definition fracPart (s : jstr) : option jstr :=
  match s with c :: r => if c =? 46 then digits1 r else Some s | [] => Some s end.

Definition expPart (s : jstr) : option jstr :=
  match s with
  | c :: r =>
    if (c =? 101) || (c =? 69) then
      digits1 (match r with d :: r' => if (d =? 43) || (d =? 45) then r' else r | [] => r end)
    else Some s
  | [] => Some s
  end.

Definition isNumber (s : jstr) : bool :=
  let s := match s with c :: r => if c =? 45 then r else s | [] => s end in
  bool_decide ((a ← intPart s; b ← fracPart a; expPart b) = Some []).

(** The units of number tokens. *)
Definition numUnit (c : Z) : bool := isDigit c || bool_decide (c ∈ [43; 45; 46; 69; 101]).

(** Numbers with a JSON text. *)
Definition finite {num} `{JsNum num} (n : num) : Prop := n ≠ nan ∧ n ≠ inf ∧ n ≠ ninf ∧ n ≠ negZero.

Class JsNumLaws (num : Type) `{JsNum num} : Prop := {
  finite_text n : finite n → isNumber (numText n) = true ∧ Forall (λ c, numUnit c = true) (numText n) ∧ readNum (numText n) = n;
  ofZ_finite z : safe z → finite (ofZ z);
  ofZ_text z : safe z → numText (ofZ z) = decimalZ z;
  ofZ_toZ z : safe z → toZ (ofZ z) = Some z;
}.

(** ** Properties in their order *)

(** The array index a key is, if any. *)
Definition arrayIndex (k : jstr) : option Z :=
  let n := foldl (λ n c, 10 * n + (c - 48)) 0 k in
  if forallb isDigit k && bool_decide (k = decimal (Z.to_nat n)) && (n <? 2 ^ 32 - 1) then Some n else None.

Fixpoint insertIndex {A} (i : Z) (k : jstr) (v : A) (l : list (jstr * A)) : list (jstr * A) :=
  match l with
  | [] => [(k, v)]
  | x :: r =>
    match arrayIndex x.1 with
    | Some j => if j <? i then x :: insertIndex i k v r else (k, v) :: l
    | None => (k, v) :: l
    end
  end.

(** A new own property, or a new value for one that is there. *)
Definition setKey {A} (l : list (jstr * A)) (k : jstr) (v : A) : list (jstr * A) :=
  if existsb (λ x, bool_decide (x.1 = k)) l then map (λ x, if bool_decide (x.1 = k) then (k, v) else x) l
  else match arrayIndex k with
       | Some i => insertIndex i k v l
       | None => l ++ [(k, v)]
       end.

(** ** Values and their text *)

Section json.
Context {num : Type} `{HN : JsNum num}.

Inductive json :=
  | JNull
  | JBool (b : bool)
  | JNum (n : num)
  | JStr (s : jstr)
  | JArr (l : list json)
  | JObj (l : list (jstr * json)).

Fixpoint jsonText (j : json) : jstr :=
  match j with
  | JNull => runes "null"
  | JBool true => runes "true"
  | JBool false => runes "false"
  | JNum n => numText n
  | JStr s => quoteJSON s
  | JArr l => runes "[" ++ join (runes ",") (map jsonText l) ++ runes "]"
  | JObj l => runes "{" ++ join (runes ",") (map (λ x, quoteJSON x.1 ++ runes ":" ++ jsonText x.2) l) ++ runes "}"
  end.

(** ** [JSON.parse] *)

Definition isWs (c : Z) : bool := bool_decide (c ∈ [9; 10; 13; 32]).

Definition skipWs (s : jstr) : jstr := (span isWs s).2.

Definition hexValue (c : Z) : option Z :=
  if isDigit c then Some (c - 48) else if (97 <=? c) && (c <=? 102) then Some (c - 87)
  else if (65 <=? c) && (c <=? 70) then Some (c - 55) else None.

Definition hex4Value (a b c d : Z) : option Z :=
  w ← hexValue a; x ← hexValue b; y ← hexValue c; z ← hexValue d; Some (((w * 16 + x) * 16 + y) * 16 + z).

(** The escapes of one letter. *)
Definition unescape (c : Z) : option Z :=
  if (c =? 34) || (c =? 92) || (c =? 47) then Some c
  else if c =? 98 then Some 8 else if c =? 102 then Some 12 else if c =? 110 then Some 10
  else if c =? 114 then Some 13 else if c =? 116 then Some 9 else None.

(** A string after its opening quote, and the rest of the text. *)
Fixpoint readString (s : jstr) : option (jstr * jstr) :=
  match s with
  | [] => None
  | c :: r =>
    if c =? 34 then Some ([], r)
    else if c =? 92 then
      match r with
      | e :: r1 =>
        if e =? 117 then
          match r1 with
          | a :: b :: c :: d :: r2 =>
            u ← hex4Value a b c d; x ← readString r2; Some (u :: x.1, x.2)
          | _ => None
          end
        else u ← unescape e; x ← readString r1; Some (u :: x.1, x.2)
      | [] => None
      end
    else if c <? 32 then None
    else x ← readString r; Some (c :: x.1, x.2)
  end.

(** A literal or a number. *)
Definition readAtom (s : jstr) : option (json * jstr) :=
  if startsWith (runes "null") s then Some (JNull, drop 4 s)
  else if startsWith (runes "true") s then Some (JBool true, drop 4 s)
  else if startsWith (runes "false") s then Some (JBool false, drop 5 s)
  else let '(t, r) := span numUnit s in if isNumber t then Some (JNum (readNum t), r) else None.

(** A value; the elements of an array after the first bracket or a comma; the members of
    an object.  Each call has read a unit more, so the length of the text is enough fuel. *)
Fixpoint readValue (fuel : nat) (s : jstr) : option (json * jstr) :=
  match fuel with
  | O => None
  | S fuel =>
    match skipWs s with
    | [] => None
    | c :: r =>
      if c =? 34 then x ← readString r; Some (JStr x.1, x.2)
      else if c =? 91 then
        match skipWs r with
        | d :: r' => if d =? 93 then Some (JArr [], r') else readElems fuel [] r
        | [] => None
        end
      else if c =? 123 then
        match skipWs r with
        | d :: r' => if d =? 125 then Some (JObj [], r') else readMembers fuel [] r
        | [] => None
        end
      else readAtom (c :: r)
    end
  end
with readElems (fuel : nat) (acc : list json) (s : jstr) : option (json * jstr) :=
  match fuel with
  | O => None
  | S fuel =>
    x ← readValue fuel s;
    match skipWs x.2 with
    | c :: r =>
      if c =? 44 then readElems fuel (acc ++ [x.1]) r
      else if c =? 93 then Some (JArr (acc ++ [x.1]), r) else None
    | [] => None
    end
  end
with readMembers (fuel : nat) (acc : list (jstr * json)) (s : jstr) : option (json * jstr) :=
  match fuel with
  | O => None
  | S fuel =>
    match skipWs s with
    | q :: r =>
      if q =? 34 then
        k ← readString r;
        match skipWs k.2 with
        | d :: r =>
          if d =? 58 then
            x ← readValue fuel r;
            match skipWs x.2 with
            | c :: r =>
              if c =? 44 then readMembers fuel (setKey acc k.1 x.1) r
              else if c =? 125 then Some (JObj (setKey acc k.1 x.1), r) else None
            | [] => None
            end
          else None
        | [] => None
        end
      else None
    | [] => None
    end
  end.

Definition parseJSON (s : jstr) : option json :=
  x ← readValue (2 * S (length s))%nat s;
  if bool_decide (skipWs x.2 = []) then Some x.1 else None.

End json.
Arguments json : clear implicits.

(** ** Reading a text back *)

(** Code units, and properties in order without a key twice. *)
Definition units (s : jstr) : Prop := Forall (λ c, 0 <= c < 65536) s.

Definition indexBefore {A} (l : list (jstr * A)) (k : jstr) : Prop :=
  match arrayIndex k with
  | Some i => Forall (λ x, ∃ j, arrayIndex x.1 = Some j ∧ j < i) l
  | None => True
  end.

Definition ordered {A} (l : list (jstr * A)) : Prop :=
  NoDup l.*1 ∧ ∀ l1 x l2, l = l1 ++ x :: l2 → indexBefore l1 x.1.

Lemma insertIndex_last {A} i k (v : A) l : Forall (λ x, ∃ j, arrayIndex x.1 = Some j ∧ j < i) l →
  insertIndex i k v l = l ++ [(k, v)].
Proof.
  induction 1 as [|x l (j & Hj & Hlt) _ IH]; [done|]. simpl. rewrite Hj, IH. by rewrite (proj2 (Z.ltb_lt _ _) Hlt).
Qed.

Lemma setKey_last {A} (l : list (jstr * A)) k v : k ∉ l.*1 → indexBefore l k → setKey l k v = l ++ [(k, v)].
Proof.
  intros Hk Hi. unfold setKey. destruct (existsb _ l) eqn:E.
  - apply existsb_exists in E as (x & Hx & He). apply bool_decide_eq_true in He. subst. destruct Hk.
    apply list_elem_of_fmap. exists x. split; [done|]. by apply list_elem_of_In.
  - unfold indexBefore in Hi. destruct (arrayIndex k); [by apply insertIndex_last|done].
Qed.

(** Adding properties in their order gives the list of them. *)
Lemma ordered_snoc {A} (l : list (jstr * A)) k v l2 : ordered (l ++ (k, v) :: l2) → setKey l k v = l ++ [(k, v)].
Proof.
  intros [Hnd Ho]. apply setKey_last; [|by apply (Ho l (k, v) l2)].
  rewrite fmap_app, fmap_cons in Hnd. apply NoDup_app in Hnd as (_ & Hd & _). intros Hk. by apply (Hd k Hk); left.
Qed.

Lemma span_app p s r : Forall (λ c, p c = true) s → match r with [] => True | c :: _ => p c = false end → span p (s ++ r) = (s, r).
Proof.
  induction 1 as [|c s Hc _ IH]; intros Hr; simpl; [destruct r as [|d r]; simpl; [done|by rewrite Hr]|]. by rewrite Hc, IH.
Qed.

Lemma hexDigit_value n : 0 <= n < 16 → hexValue (if n <? 10 then 48 + n else 87 + n) = Some n.
Proof.
  intros Hn. unfold hexValue, isDigit. destruct (n <? 10) eqn:E; zbool.
  - rewrite !(proj2 (Z.leb_le _ _)) by lia. simpl. f_equal. lia.
  - replace (87 + n <=? 57) with false by lia. rewrite andb_false_r.
    rewrite !(proj2 (Z.leb_le _ _)) by lia. simpl. f_equal. lia.
Qed.

Lemma readString_hex c r : 0 <= c < 65536 → readString (runes "\u" ++ hex4 c ++ r) = x ← readString r; Some (c :: x.1, x.2).
Proof.
  intros Hc. change (runes "\u") with [92; 117]. unfold hex4. cbn [app readString]. rewrite !Z.eqb_refl.
  replace (92 =? 34) with false by done. unfold hex4Value.
  rewrite !hexDigit_value by (apply Z.mod_pos_bound; lia). simpl.
  replace (((c / 4096 mod 16 * 16 + c / 256 mod 16) * 16 + c / 16 mod 16) * 16 + c mod 16) with c; [done|].
  Z.div_mod_to_equations. lia.
Qed.

Lemma readString_plain c r : 32 <= c → c ≠ 34 → c ≠ 92 → readString (c :: r) = x ← readString r; Some (c :: x.1, x.2).
Proof.
  intros Hc H1 H2. cbn [readString]. apply Z.eqb_neq in H1, H2. rewrite H1, H2. by replace (c <? 32) with false by lia.
Qed.

Lemma readString_unit c r : 0 <= c < 65536 → readString (quoteUnit c ++ r) = x ← readString r; Some (c :: x.1, x.2).
Proof.
  intros Hc. unfold quoteUnit.
  repeat match goal with |- context [c =? ?n] => destruct (Z.eqb_spec c n); [subst; done|] end.
  destruct (c <? 32) eqn:E; [rewrite <- app_assoc; by apply readString_hex|]. zbool. by apply readString_plain.
Qed.

Lemma readString_quoted s r : units s → readString (quoteAll s ++ 34 :: r) = Some (s, r).
Proof.
  remember (length s) as n eqn:Hn. revert s Hn. induction (lt_wf n) as [n _ IH]. intros s -> Hu.
  destruct s as [|c s]; [done|]. apply Forall_cons in Hu as [Hc Hu]. cbn [quoteAll].
  assert (∀ t, units t → (length t < length (c :: s))%nat → readString (quoteAll t ++ 34 :: r) = Some (t, r)) as IH'.
  { intros t Ht Hl. by apply (IH (length t)). }
  destruct (isLead c) eqn:E1.
  - destruct s as [|d s]; [rewrite <- app_assoc, readString_hex by done; done|].
    apply Forall_cons in Hu as [Hd Hu]. unfold isLead in E1. zbool. destruct (isTrail d) eqn:E2.
    + unfold isTrail in E2. zbool. cbn [app]. rewrite readString_plain, readString_plain by lia.
      by rewrite IH' by (done || simpl; lia).
    + rewrite <- !app_assoc, readString_hex by done. rewrite (IH' (d :: s)); [done|by constructor|simpl; lia].
  - destruct (isTrail c) eqn:E2; rewrite <- !app_assoc;
      [rewrite readString_hex by done|rewrite readString_unit by done]; by rewrite IH' by (done || simpl; lia).
Qed.

Section roundtrip.
Context {num : Type} `{HN : JsNum num} `{HL : !JsNumLaws num}.
#[local] Abbreviation J := (json num).

Section induction.
Context (P : J → Prop).
Hypothesis Hnull : P JNull.
Hypothesis Hbool : ∀ b, P (JBool b).
Hypothesis Hnum : ∀ n, P (JNum n).
Hypothesis Hstr : ∀ s, P (JStr s).
Hypothesis Harr : ∀ l, Forall P l → P (JArr l).
Hypothesis Hobj : ∀ l, Forall (λ x, P x.2) l → P (JObj l).

Fixpoint json_nested_ind (j : J) : P j :=
  match j with
  | JNull => Hnull
  | JBool b => Hbool b
  | JNum n => Hnum n
  | JStr s => Hstr s
  | JArr l => Harr l ((fix go l : Forall P l := match l with [] => Forall_nil_2 _ | x :: l => Forall_cons_2 _ _ _ (json_nested_ind x) (go l) end) l)
  | JObj l => Hobj l ((fix go l : Forall (λ x, P x.2) l := match l with [] => Forall_nil_2 _ | x :: l => Forall_cons_2 (λ x, P x.2) x _ (json_nested_ind x.2) (go l) end) l)
  end.
End induction.

(** Values whose text is JSON: finite numbers, code units, ordered properties. *)
Fixpoint printable (j : J) : Prop :=
  match j with
  | JNull | JBool _ => True
  | JNum n => finite n
  | JStr s => units s
  | JArr l => foldr (λ x p, printable x ∧ p) True l
  | JObj l => ordered l ∧ foldr (λ x p, units x.1 ∧ printable x.2 ∧ p) True l
  end.

(** The fuel a value needs. *)
Fixpoint jneed (j : J) : nat :=
  match j with
  | JArr l => S (foldr (λ x n, S (jneed x) + n)%nat O l)
  | JObj l => S (foldr (λ x n, S (jneed x.2) + n)%nat O l)
  | _ => 1
  end.

(** What may come after a value. *)
Definition closes (r : jstr) : Prop := match r with [] => True | c :: _ => c = 44 ∨ c = 93 ∨ c = 125 end.

Lemma skipWs_id c r : isWs c = false → skipWs (c :: r) = c :: r.
Proof. intros H. unfold skipWs. simpl. by rewrite H. Qed.

Lemma isNumber_head s : isNumber s = true → ∃ c r, s = c :: r ∧ (c = 45 ∨ isDigit c = true).
Proof.
  unfold isNumber. intros H%bool_decide_eq_true. destruct s as [|c r]; [done|]. exists c, r. split; [done|].
  destruct (Z.eqb_spec c 45) as [->|Hc]; [by left|]. right. simpl in H. destruct (Z.eqb_spec c 48) as [->|]; [done|].
  unfold digits1 in H. simpl in H. by destruct (isDigit c).
Qed.

Lemma digit_range c : isDigit c = true → 48 <= c <= 57.
Proof. unfold isDigit. intros. zbool. lia. Qed.

Lemma readAtom_number n r : finite n → closes r → readAtom (numText n ++ r) = Some (JNum n, r).
Proof.
  intros Hf Hr. destruct (finite_text n Hf) as (Hn & Hu & Hb). unfold readAtom.
  destruct (isNumber_head _ Hn) as (c & t & Ht & Hc).
  assert (c = 45 ∨ 48 <= c <= 57) as Hc' by (destruct Hc as [->|Hc%digit_range]; auto).
  assert (∀ w r', 97 <= w → startsWith (w :: r') (numText n ++ r) = false) as Hs.
  { intros w r' Hw. rewrite Ht. cbn [app startsWith]. by replace (w =? c) with false by lia. }
  change (runes "null") with (110 :: runes "ull"). change (runes "true") with (116 :: runes "rue"). change (runes "false") with (102 :: runes "alse").
  rewrite !Hs by lia. rewrite span_app; [by rewrite Hn, Hb|done|]. destruct r as [|d r]; [done|].
  destruct Hr as [->|[->| ->]]; done.
Qed.

(** The first unit of a text is none of those that are told apart before it. *)
Lemma text_head j r : printable j → ∃ c s, jsonText j ++ r = c :: s ∧ isWs c = false ∧ c ≠ 93 ∧ c ≠ 125.
Proof.
  destruct j as [|[]|n|s|l|l]; simpl; intros Hp; try (by eexists _, _; split_and!).
  destruct (finite_text n Hp) as (Hn & _). destruct (isNumber_head _ Hn) as (c & t & -> & Hc). exists c, (t ++ r). split; [done|].
  destruct Hc as [->|Hc%digit_range]; [done|]. split; [|lia]. unfold isWs. apply bool_decide_eq_false. intros Hin.
  rewrite !elem_of_cons, elem_of_nil in Hin. lia.
Qed.

Definition reads (j : J) : Prop := ∀ fuel r, printable j → closes r → (jneed j <= fuel)%nat → readValue fuel (jsonText j ++ r) = Some (j, r).

Lemma readElems_text l acc fuel r : l ≠ [] → Forall reads l → foldr (λ x p, printable x ∧ p) True l →
  (foldr (λ x n, S (jneed x) + n)%nat O l <= fuel)%nat →
  readElems fuel acc (join (runes ",") (map jsonText l) ++ runes "]" ++ r) = Some (JArr (acc ++ l), r).
Proof.
  intros Hne Hl. revert acc fuel Hne. induction Hl as [|x l Hx Hl IH]; [done|]. intros acc fuel _ [Hp Hps] Hf.
  destruct fuel as [|fuel]; [simpl in Hf; lia|]. cbn [map readElems]. destruct l as [|y l].
  - cbn [join map]. rewrite Hx; [|done|by right; left|simpl in Hf; lia]. done.
  - rewrite join_cons by done. rewrite <- !app_assoc. rewrite Hx; [|done|by left|cbn [foldr] in Hf; lia].
    cbn [mbind option_bind snd fst]. change (runes "," ++ ?t) with (44 :: t). rewrite skipWs_id by done. rewrite Z.eqb_refl.
    rewrite (IH (acc ++ [x])); [by rewrite <- app_assoc|done|done|]. cbn [foldr] in Hf |- *. lia.
Qed.

Lemma readMembers_text l acc fuel r : l ≠ [] → ordered (acc ++ l) → Forall (λ x, reads x.2) l →
  foldr (λ x p, units x.1 ∧ printable x.2 ∧ p) True l → (foldr (λ x n, S (jneed x.2) + n)%nat O l <= fuel)%nat →
  readMembers fuel acc (join (runes ",") (map (λ x, quoteJSON x.1 ++ runes ":" ++ jsonText x.2) l) ++ runes "}" ++ r) = Some (JObj (acc ++ l), r).
Proof.
  intros Hne Ho Hl. revert acc fuel Hne Ho. induction Hl as [|[k x] l Hx Hl IH]; [done|]. intros acc fuel _ Ho (Hk & Hp & Hps) Hf.
  simpl in Hx, Hk, Hp. pose proof (ordered_snoc _ _ _ _ Ho) as Hset.
  destruct fuel as [|fuel]; [simpl in Hf; lia|]. cbn [map fst snd]. destruct l as [|y l].
  - cbn [join map readMembers]. unfold quoteJSON. rewrite <- !app_assoc. cbn [app]. rewrite skipWs_id by done. rewrite Z.eqb_refl.
    rewrite readString_quoted by done. cbn [mbind option_bind snd fst]. change (runes ":" ++ ?t) with (58 :: t). rewrite skipWs_id by done.
    rewrite Z.eqb_refl, Hx; [|done|by right; right|simpl in Hf; lia]. cbn [mbind option_bind snd fst].
    change (runes "}" ++ r) with (125 :: r). rewrite skipWs_id by done. simpl. by rewrite Hset.
  - rewrite join_cons by done. unfold quoteJSON at 1. cbn [readMembers]. rewrite <- !app_assoc. cbn [app]. rewrite skipWs_id by done. rewrite Z.eqb_refl.
    rewrite readString_quoted by done. cbn [mbind option_bind snd fst]. change (runes ":" ++ ?t) with (58 :: t). rewrite skipWs_id by done.
    rewrite Z.eqb_refl, Hx; [|done|by left|cbn [foldr snd] in Hf; lia]. cbn [mbind option_bind snd fst].
    change (runes "," ++ ?t) with (44 :: t). rewrite skipWs_id by done. rewrite Z.eqb_refl, Hset.
    rewrite (IH (acc ++ [(k, x)])); [by rewrite <- app_assoc|done|by rewrite <- app_assoc|done|]. cbn [foldr snd] in Hf |- *. lia.
Qed.

Lemma readValue_S fuel s : readValue (S fuel) s =
  match skipWs s with
  | [] => None
  | c :: r =>
    if c =? 34 then x ← readString r; Some (JStr x.1, x.2)
    else if c =? 91 then
      match skipWs r with d :: r' => if d =? 93 then Some (JArr [], r') else readElems fuel [] r | [] => None end
    else if c =? 123 then
      match skipWs r with d :: r' => if d =? 125 then Some (JObj [], r') else readMembers fuel [] r | [] => None end
    else readAtom (c :: r)
  end :> option (J * jstr).
Proof. done. Qed.

Lemma readValue_text j : reads j.
Proof.
  induction j as [|b|n|s|l IH|l IH] using json_nested_ind; intros fuel r Hp Hr Hf; (destruct fuel as [|fuel]; [simpl in Hf; lia|]).
  - done.
  - by destruct b.
  - rewrite readValue_S; cbn [jsonText]. destruct (text_head (JNum n) r Hp) as (c & t & E & Hw & H1 & H2). cbn [jsonText] in E. rewrite E, skipWs_id by done.
    destruct (finite_text n Hp) as (Hn & _). destruct (isNumber_head _ Hn) as (d & u & Hd & Hc).
    assert (c = d) as -> by (rewrite Hd in E; by simplify_eq/=). assert (d = 45 ∨ 48 <= d <= 57) as Hr' by (destruct Hc as [->|Hc%digit_range]; auto).
    replace (d =? 34) with false by lia. replace (d =? 91) with false by lia. replace (d =? 123) with false by lia.
    rewrite <- E. by apply readAtom_number.
  - rewrite readValue_S; cbn [jsonText]. unfold quoteJSON. rewrite <- !app_assoc. cbn [app]. rewrite skipWs_id by done. rewrite Z.eqb_refl.
    by rewrite readString_quoted.
  - rewrite readValue_S; cbn [jsonText]. rewrite <- !app_assoc. change (runes "[" ++ ?t) with (91 :: t). rewrite skipWs_id by done. simpl ((91 =? 34)). simpl (91 =? 91).
    cbn iota. destruct l as [|x l]; [done|]. cbn [printable foldr] in Hp. destruct (text_head x (match l with [] => runes "]" ++ r | _ => runes "," ++ join (runes ",") (map jsonText l) ++ runes "]" ++ r end)) as (c & t & E & Hw & H1 & H2); [apply Hp|].
    replace (skipWs (join (runes ",") (map jsonText (x :: l)) ++ runes "]" ++ r)) with (c :: t).
    + apply Z.eqb_neq in H1. rewrite H1. apply (readElems_text (x :: l) [] fuel r); [done|done|apply Hp|]. simpl in Hf |- *. lia.
    + destruct l as [|y l]; [cbn [map join]; rewrite E; by rewrite skipWs_id|].
      change (map jsonText (x :: y :: l)) with (jsonText x :: map jsonText (y :: l)). rewrite join_cons by done.
      rewrite <- !app_assoc, E. by rewrite skipWs_id.
  - rewrite readValue_S; cbn [jsonText]. rewrite <- !app_assoc. change (runes "{" ++ ?t) with (123 :: t). rewrite skipWs_id by done. simpl (123 =? 34). simpl (123 =? 91). simpl (123 =? 123).
    cbn iota. destruct l as [|[k x] l]; [done|]. destruct Hp as [Ho Hp].
    replace (skipWs _) with (34 :: tail (join (runes ",") (map (λ x, quoteJSON x.1 ++ runes ":" ++ jsonText x.2) ((k, x) :: l)) ++ runes "}" ++ r)).
    + apply (readMembers_text ((k, x) :: l) [] fuel r); [done|done|done|done|]. simpl in Hf |- *. lia.
    + destruct l; done.
Qed.

#[local] Ltac brackets :=
  change (length (runes "[")) with 1%nat; change (length (runes "]")) with 1%nat; change (length (runes "{")) with 1%nat;
  change (length (runes "}")) with 1%nat; change (length (runes ":")) with 1%nat; change (length (runes ",")) with 1%nat.

Lemma jneed_length j : printable j → (jneed j <= 2 * length (jsonText j))%nat.
Proof.
  induction j as [|b|n|s|l IH|l IH] using json_nested_ind; intros Hp.
  - simpl. lia.
  - destruct b; simpl; lia.
  - destruct (finite_text n Hp) as (Hn & _). destruct (isNumber_head _ Hn) as (c & t & E & _). simpl. rewrite E. simpl. lia.
  - cbn [jsonText jneed]. unfold quoteJSON. simpl. lia.
  - cbn [jsonText jneed]. rewrite !length_app.
    assert (foldr (λ x n, S (jneed x) + n)%nat O l <= 1 + 2 * length (join (runes ",") (map jsonText l)))%nat; [|brackets; lia].
    cbn [printable] in Hp. revert Hp. induction IH as [|x l Hx _ IH]; intros Hp; [simpl; lia|]. destruct Hp as [H1 H2]. specialize (Hx H1). specialize (IH H2).
    cbn [foldr map]. destruct l as [|y l]; [simpl; lia|]. rewrite join_cons by done. rewrite !length_app.
    brackets. lia.
  - cbn [jsonText jneed]. rewrite !length_app.
    assert (foldr (λ x n, S (jneed x.2) + n)%nat O l <= 1 + 2 * length (join (runes ",") (map (λ x, quoteJSON x.1 ++ runes ":" ++ jsonText x.2) l)))%nat; [|brackets; lia].
    cbn [printable] in Hp. destruct Hp as [_ Hp]. revert Hp. induction IH as [|[k x] l Hx _ IH]; intros Hp; [simpl; lia|]. destruct Hp as (_ & H1 & H2).
    simpl in Hx. specialize (Hx H1). specialize (IH H2). cbn [foldr map fst snd].
    destruct l as [|y l]; [cbn [join map foldr fst snd]; rewrite !length_app; brackets; lia|]. rewrite join_cons by done. rewrite !length_app.
    brackets. lia.
Qed.

(** [JSON.parse] of the text of a value is the value. *)
Theorem parse_text j : printable j → parseJSON (jsonText j) = Some j.
Proof.
  intros Hp. unfold parseJSON. pose proof (jneed_length j Hp). pose proof (readValue_text j (2 * S (length (jsonText j)))%nat [] Hp I) as H0.
  rewrite app_nil_r in H0. rewrite H0 by lia. done.
Qed.

End roundtrip.
