(* ===== verification/TurboStream.v ===== *)
(** * The data stream of the router

    The codec with which the router of the web UI sends the data of routes as text
    ([UP], [HXe], [GXe], [KXe], [qXe], [JXe], [YXe] and [XXe] of the bundle).  The encoder
    numbers the values reachable from a root and writes a line with a slot per number,
    where a slot names its parts by their numbers; each promise among them gets a line of
    its own when it settles.  The decoder reads the lines and builds the values again.

    Values live in a heap, a list of objects; sharing and cycles are equal places.  The
    codec is modelled without plugins, as both ends are by default.  What the decoder does
    with a slot no encoder writes is modelled as far as it needs no more of the language;
    the rest is [Outside]: numbers of slots that are not numbers, dates and constructors
    from arbitrary text, and the key [__proto__]. *)

From Stdlib Require Import ZArith Lia.
From stdpp Require Import base numbers strings gmap option list.
From S2P Require Import Prelude Js Json.

Open Scope Z_scope.

(** A loop that does not end, or has used up its fuel, diverges. *)
Inductive outcome (A : Type) := Ret (a : A) | Throws | Outside | Diverges.
Arguments Ret {A}. Arguments Throws {A}. Arguments Outside {A}. Arguments Diverges {A}.

#[export] Instance outcome_ret : MRet outcome := @Ret.
#[export] Instance outcome_bind : MBind outcome := λ A B f x,
  match x with Ret a => f a | Throws => Throws | Outside => Outside | Diverges => Diverges end.

(** [a[i] = x] on an array with holes *)
Definition arrSet {A} (l : list (option A)) (i : nat) (x : A) : list (option A) :=
  <[i := Some x]> (l ++ replicate (S i - length l) None).

(** ** Values *)

Inductive sym := Registered (key : jstr) | Unique (id : nat).

Inductive val (num : Type) :=
  | VUndef
  | VNull
  | VBool (b : bool)
  | VNum (n : num)
  | VStr (s : jstr)
  | VBig (z : Z)
  | VSym (s : sym)
  | VFun (id : nat)
  | VObj (l : nat).
Arguments VUndef {num}. Arguments VNull {num}. Arguments VBool {num}. Arguments VNum {num}. Arguments VStr {num}.
Arguments VBig {num}. Arguments VSym {num}. Arguments VFun {num}. Arguments VObj {num}.

(** Arrays with holes, objects with the usual and with no prototype, dates (in
    milliseconds; none is invalid), and an object of any other class. *)
Inductive obj (num : Type) :=
  | OArr (l : list (option (val num)))
  | OPlain (ps : list (jstr * val num))
  | OBare (ps : list (jstr * val num))
  | ODate (t : option Z)
  | OUrl (href : jstr)
  | ORegExp (source flags : jstr)
  | OSet (l : list (val num))
  | OMap (l : list (val num * val num))
  | OPromise
  | OError (name message : jstr)
  | OOther.
Arguments OArr {num}. Arguments OPlain {num}. Arguments OBare {num}. Arguments ODate {num}. Arguments OUrl {num}.
Arguments ORegExp {num}. Arguments OSet {num}. Arguments OMap {num}. Arguments OPromise {num}. Arguments OError {num}. Arguments OOther {num}.

#[export] Instance sym_eq_dec : EqDecision sym.
Proof. solve_decision. Defined.
#[export] Instance val_eq_dec {num} `{EqDecision num} : EqDecision (val num).
Proof. solve_decision. Defined.

(** ** Slots *)

Inductive slot (num : Type) :=
  | SNull
  | SBool (b : bool)
  | SNum (n : num)
  | SStr (s : jstr)
  | SBig (z : Z)
  | SSym (key : jstr)
  | SArr (cs : list Z)
  | SDate (t : option Z)
  | SUrl (href : jstr)
  | SRegExp (source flags : jstr)
  | SSet (cs : list Z)
  | SMap (cs : list (Z * Z))
  | SPromise (t : nat)
  | SError (message : jstr) (name : option jstr)
  | SBare (ps : list (Z * Z))
  | SPlain (ps : list (Z * Z)).
Arguments SNull {num}. Arguments SBool {num}. Arguments SNum {num}. Arguments SStr {num}. Arguments SBig {num}. Arguments SSym {num}.
Arguments SArr {num}. Arguments SDate {num}. Arguments SUrl {num}. Arguments SRegExp {num}. Arguments SSet {num}. Arguments SMap {num}.
Arguments SPromise {num}. Arguments SError {num}. Arguments SBare {num}. Arguments SPlain {num}.

Section codec.
Context {num : Type} `{HN : JsNum num}.
#[local] Abbreviation val := (val num).
#[local] Abbreviation obj := (obj num).
#[local] Abbreviation slot := (slot num).
#[local] Abbreviation json := (json num).

Definition comma : list jstr → jstr := join (runes ",").

(** ["_k":v] *)
Definition keyText (k : Z) : jstr := 95 :: decimalZ k.
Definition memberText (x : Z * Z) : jstr := [34] ++ keyText x.1 ++ [34] ++ runes ":" ++ decimalZ x.2.

(** [["T",…]] *)
Definition tagged (tag : string) (args : list jstr) : jstr :=
  runes "[" ++ comma (([34] ++ runes tag ++ [34]) :: args) ++ runes "]".

(** The text the encoder writes for a slot. *)
Definition slotText (s : slot) : jstr :=
  match s with
  | SNull => decimalZ (-5)
  | SBool true => runes "true"
  | SBool false => runes "false"
  | SNum n => numText n
  | SStr s => quoteJSON s
  | SBig z => tagged "B" [[34] ++ decimalZ z ++ [34]]
  | SSym k => tagged "Y" [quoteJSON k]
  | SArr cs => runes "[" ++ comma (map decimalZ cs) ++ runes "]"
  | SDate None => tagged "D" [quoteJSON (runes "invalid")]
  | SDate (Some t) => tagged "D" [decimalZ t]
  | SUrl h => tagged "U" [quoteJSON h]
  | SRegExp s f => tagged "R" [quoteJSON s; quoteJSON f]
  | SSet cs => tagged "S" (map decimalZ cs)
  | SMap cs => tagged "M" (cs ≫= λ x, [decimalZ x.1; decimalZ x.2])
  | SPromise t => tagged "P" [decimalZ (Z.of_nat t)]
  | SError m None => tagged "E" [quoteJSON m]
  | SError m (Some n) => tagged "E" [quoteJSON m; quoteJSON n]
  | SBare ps => tagged "N" [runes "{" ++ comma (map memberText ps) ++ runes "}"]
  | SPlain ps => runes "{" ++ comma (map memberText ps) ++ runes "}"
  end.

(** ** The encoder *)

Record Enc := {
  index : nat;
  (** the newest entry of a key comes first *)
  indices : list (val * nat);
  stringified : list (option slot);
  (** the numbers of the promises not settled, with their places *)
  deferred : list (nat * nat);
}.

Definition newEnc : Enc := {| index := 0; indices := []; stringified := []; deferred := [] |}.

(** The key of a [Map]: the two zeros are one. *)
Definition keyOf (v : val) : val :=
  match v with VNum n => VNum (if decide (n = negZero) then ofZ 0 else n) | _ => v end.

Fixpoint mapGet {A} (k : val) (m : list (val * A)) : option A :=
  match m with
  | [] => None
  | (k', x) :: m => if decide (k' = k) then Some x else mapGet k m
  end.

(** The values with a number of their own. *)
Definition special (v : val) : option Z :=
  match v with
  | VUndef => Some (-7)
  | VNull => Some (-5)
  | VNum n =>
    if decide (n = nan) then Some (-2) else if decide (n = inf) then Some (-6)
    else if decide (n = ninf) then Some (-3) else if decide (n = negZero) then Some (-4) else None
  | _ => None
  end.

(** What [UP] returns: [[n]] for a value numbered before, or a number. *)
Inductive code := Again (n : nat) | New (z : Z).

Definition codeZ (c : code) : Z := match c with Again n => Z.of_nat n | New z => z end.

Definition numbered (v : val) (st : Enc) : Enc :=
  {| index := S (index st); indices := (keyOf v, index st) :: indices st; stringified := stringified st; deferred := deferred st |}.

Definition store (t : nat) (s : slot) (st : Enc) : Enc :=
  {| index := index st; indices := indices st; stringified := arrSet (stringified st) t s; deferred := deferred st |}.

Definition defer (t l : nat) (st : Enc) : Enc :=
  {| index := index st; indices := indices st; stringified := stringified st; deferred := deferred st ++ [(t, l)] |}.

Section parts.
Context (HXe : val → nat → Enc → outcome Enc).

Definition UPwith (v : val) (st : Enc) : outcome (Enc * code) :=
  match mapGet (keyOf v) (indices st) with
  | Some (S n) => Ret (st, Again (S n))
  | _ =>
    match special v with
    | Some z => Ret (st, New z)
    | None => st' ← HXe v (index st) (numbered v st); Ret (st', New (Z.of_nat (index st)))
    end
  end.

Fixpoint UPall (l : list val) (st : Enc) : outcome (Enc * list Z) :=
  match l with
  | [] => Ret (st, [])
  | v :: l => x ← UPwith v st; y ← UPall l x.1; Ret (y.1, codeZ x.2 :: y.2)
  end.

(** The elements of an array; a hole has the number -1. *)
Fixpoint UPelems (l : list (option val)) (st : Enc) : outcome (Enc * list Z) :=
  match l with
  | [] => Ret (st, [])
  | None :: l => y ← UPelems l st; Ret (y.1, -1 :: y.2)
  | Some v :: l => x ← UPwith v st; y ← UPelems l x.1; Ret (y.1, codeZ x.2 :: y.2)
  end.

Fixpoint UPpairs (l : list (val * val)) (st : Enc) : outcome (Enc * list (Z * Z)) :=
  match l with
  | [] => Ret (st, [])
  | (k, v) :: l =>
    a ← UPwith k st; b ← UPwith v a.1; y ← UPpairs l b.1; Ret (y.1, (codeZ a.2, codeZ b.2) :: y.2)
  end.

Definition UPprops (ps : list (jstr * val)) : Enc → outcome (Enc * list (Z * Z)) := UPpairs (map (λ x, (VStr x.1, x.2)) ps).

Definition storing {A} (t : nat) (f : A → slot) (m : outcome (Enc * A)) : outcome Enc := x ← m; Ret (store t (f x.2) x.1).

Definition stringifyObj (o : obj) (l t : nat) (st : Enc) : outcome Enc :=
  match o with
  | OArr l => storing t SArr (UPelems l st)
  | ODate d => Ret (store t (SDate d) st)
  | OUrl h => Ret (store t (SUrl h) st)
  | ORegExp s f => Ret (store t (SRegExp s f) st)
  | OSet l => storing t SSet (UPall l st)
  | OMap l => storing t SMap (UPpairs l st)
  | OPromise => Ret (defer t l (store t (SPromise t) st))
  | OError n m => Ret (store t (SError m (if bool_decide (n = runes "Error") then None else Some n)) st)
  | OBare ps => storing t SBare (UPprops ps st)
  | OPlain ps => storing t SPlain (UPprops ps st)
  | OOther => Throws
  end.

End parts.

(** [h] is the heap.  Fuel bounds the depth of objects in objects. *)
Fixpoint HXe (fuel : nat) (h : list obj) (v : val) (t : nat) (st : Enc) : outcome Enc :=
  match v with
  | VBool b => Ret (store t (SBool b) st)
  | VNum n => Ret (store t (SNum n) st)
  | VStr s => Ret (store t (SStr s) st)
  | VBig z => Ret (store t (SBig z) st)
  | VSym (Registered k) => if bool_decide (k = []) then Throws else Ret (store t (SSym k) st)
  | VSym (Unique _) | VFun _ | VUndef => Throws
  | VNull => Ret (store t SNull st)
  | VObj l =>
    match fuel with
    | O => Diverges
    | S fuel => stringifyObj (HXe fuel h) (default OOther (h !! l)) l t st
    end
  end.

Definition UP (fuel : nat) (h : list obj) : val → Enc → outcome (Enc * code) := UPwith (HXe fuel h).

(** Objects are nested at most as deep as there are places, the root twice. *)
Definition enough (h : list obj) : nat := S (S (length h)).

(** ** The lines of the encoder *)

Record Stream := {
  enc : Enc;
  heap : list obj;
  (** [c], the last slot sent *)
  sent : Z;
}.

(** [JSON] of slots; a hole has no text. *)
Definition slotsText (l : list (option slot)) : jstr :=
  runes "[" ++ comma (map (λ x, match x with Some s => slotText s | None => [] end) l) ++ runes "]".

(** The start of [XXe]. *)
Definition encodeRoot (h : list obj) (v : val) : outcome (Stream * jstr) :=
  x ← UP (enough h) h v newEnc;
  match x.2 with
  | Again _ => Throws
  | New z =>
    if z <? 0 then Ret ({| enc := x.1; heap := h; sent := 0 |}, decimalZ z)
    else Ret ({| enc := x.1; heap := h; sent := Z.of_nat (length (stringified x.1)) - 1 |}, slotsText (stringified x.1))
  end.

(** How a promise settles; a rejection whose reason is no error gets a new one. *)
Inductive settlement := Fulfilled (v : val) | Rejected (v : val).

Definition reason (h : list obj) (v : val) : list obj * val :=
  match v with
  | VObj l => match h !! l with Some (OError _ _) => (h, v) | _ => (h ++ [OError (runes "Error") (runes "An unknown error occurred")], VObj (length h)) end
  | _ => (h ++ [OError (runes "Error") (runes "An unknown error occurred")], VObj (length h))
  end.

Definition undefer (e : nat) (st : Enc) : Enc :=
  {| index := index st; indices := indices st; stringified := stringified st; deferred := filter (λ x, x.1 ≠ e) (deferred st) |}.

Definition bump (st : Enc) : Enc :=
  {| index := S (index st); indices := indices st; stringified := stringified st; deferred := deferred st |}.

(** The line of a settled promise. *)
Definition sendSettled (tag : Z) (e : nat) (h : list obj) (v : val) (s : Stream) : outcome (Stream * jstr) :=
  x ← UP (enough h) h v (enc s);
  let head := tag :: decimal e ++ runes ":" in
  match x.2 with
  | Again n =>
    Ret ({| enc := undefer e (bump x.1); heap := h; sent := sent s + 1 |}, head ++ runes "[" ++ tagged "Z" [decimal n] ++ runes "]")
  | New z =>
    if z <? 0 then Ret ({| enc := undefer e x.1; heap := h; sent := sent s |}, head ++ decimalZ z)
    else Ret ({| enc := undefer e x.1; heap := h; sent := Z.of_nat (length (stringified x.1)) - 1 |},
              head ++ slotsText (drop (Z.to_nat (sent s + 1)) (stringified x.1)))
  end.

Definition settle (e : nat) (o : settlement) (s : Stream) : outcome (Stream * jstr) :=
  match o with
  | Fulfilled v => sendSettled 80 e (heap s) v s
  | Rejected v => let '(h, v) := reason (heap s) v in sendSettled 69 e h v s
  end.

(** The promises settle in some order, each in one way; [order] has their numbers, and a
    number that is not waiting is passed over. *)
Fixpoint settleAll (fate : nat → settlement) (order : list nat) (s : Stream) : outcome (Stream * list jstr) :=
  match order with
  | [] => Ret (s, [])
  | e :: order =>
    match list_find (λ x, x.1 = e) (deferred (enc s)) with
    | Some (_, (_, l)) => x ← settle e (fate l) s; y ← settleAll fate order x.1; Ret (y.1, x.2 :: y.2)
    | None => settleAll fate order s
    end
  end.

Definition encode (h : list obj) (v : val) (fate : nat → settlement) (order : list nat) : outcome (Stream * list jstr) :=
  x ← encodeRoot h v; y ← settleAll fate order x.1; Ret (y.1, x.2 :: y.2).

(** ** The decoder *)

(** Where a value goes ([e => …] of the work list), and what is left for the end. *)
Inductive setter := ToResult | ToSet (l : nat) | ToCell (p : nat) (second : bool) | ToElem (l i : nat).

Inductive act := PutMap (l p : nat) | PutKey (l p : nat).

Record Dec := {
  values : list json;
  hydrated : gmap nat val;
  objects : list obj;
  (** the pairs [t] of keys and values *)
  cells : list (val * val);
  todo : list (json * setter);
  acts : list act;
  result : val;
  (** the promises not settled, by number, and how the others were *)
  waiting : gmap nat nat;
  settled : gmap nat settlement;
}.

Definition newDec : Dec :=
  {| values := []; hydrated := ∅; objects := []; cells := []; todo := []; acts := []; result := VUndef; waiting := ∅; settled := ∅ |}.

Definition truthy (v : val) : bool :=
  match v with
  | VUndef | VNull => false
  | VBool b => b
  | VNum n => negb (bool_decide (n = ofZ 0)) && negb (bool_decide (n = negZero)) && negb (bool_decide (n = nan))
  | VStr s => negb (bool_decide (s = []))
  | VBig z => negb (z =? 0)
  | VSym _ | VFun _ | VObj _ => true
  end.

Definition withObjects (l : list obj) (d : Dec) : Dec :=
  {| values := values d; hydrated := hydrated d; objects := l; cells := cells d; todo := todo d; acts := acts d;
     result := result d; waiting := waiting d; settled := settled d |}.
Definition withCells (l : list (val * val)) (d : Dec) : Dec :=
  {| values := values d; hydrated := hydrated d; objects := objects d; cells := l; todo := todo d; acts := acts d;
     result := result d; waiting := waiting d; settled := settled d |}.
Definition withResult (v : val) (d : Dec) : Dec :=
  {| values := values d; hydrated := hydrated d; objects := objects d; cells := cells d; todo := todo d; acts := acts d;
     result := v; waiting := waiting d; settled := settled d |}.
Definition withHydrated (i : nat) (v : val) (d : Dec) : Dec :=
  {| values := values d; hydrated := <[i := v]> (hydrated d); objects := objects d; cells := cells d; todo := todo d; acts := acts d;
     result := result d; waiting := waiting d; settled := settled d |}.
Definition withTodo (l : list (json * setter)) (d : Dec) : Dec :=
  {| values := values d; hydrated := hydrated d; objects := objects d; cells := cells d; todo := l; acts := acts d;
     result := result d; waiting := waiting d; settled := settled d |}.
Definition withActs (l : list act) (d : Dec) : Dec :=
  {| values := values d; hydrated := hydrated d; objects := objects d; cells := cells d; todo := todo d; acts := l;
     result := result d; waiting := waiting d; settled := settled d |}.
Definition withValues (l : list json) (d : Dec) : Dec :=
  {| values := l; hydrated := hydrated d; objects := objects d; cells := cells d; todo := todo d; acts := acts d;
     result := result d; waiting := waiting d; settled := settled d |}.
Definition withPromises (w : gmap nat nat) (s : gmap nat settlement) (d : Dec) : Dec :=
  {| values := values d; hydrated := hydrated d; objects := objects d; cells := cells d; todo := todo d; acts := acts d;
     result := result d; waiting := w; settled := s |}.

(** [set.add(v)] and [map.set(k, v)] *)
Definition setAdd (l : list val) (v : val) : list val := if decide (keyOf v ∈ l) then l else l ++ [keyOf v].

Definition mapSet (l : list (val * val)) (k v : val) : list (val * val) :=
  if decide (keyOf k ∈ l.*1) then map (λ x, if decide (x.1 = keyOf k) then (x.1, v) else x) l else l ++ [(keyOf k, v)].

Definition setCell (second : bool) (v : val) (x : val * val) : val * val := if second then (x.1, v) else (v, x.2).

Definition deliver (s : setter) (v : val) (d : Dec) : Dec :=
  match s with
  | ToResult => withResult v d
  | ToSet l => withObjects (alter (λ o, match o with OSet x => OSet (setAdd x v) | _ => o end) l (objects d)) d
  | ToCell p b => withCells (alter (setCell b v) p (cells d)) d
  | ToElem l i => withObjects (alter (λ o, match o with OArr x => OArr (arrSet x i v) | _ => o end) l (objects d)) d
  end.

(** [a(t[e] = v)] *)
Definition place (i : nat) (v : val) (s : setter) (d : Dec) : Dec := deliver s v (withHydrated i v d).

(** [t[e] = new …] and [a(…)] *)
Definition create (i : nat) (o : obj) (s : setter) (d : Dec) : Dec :=
  place i (VObj (length (objects d))) s (withObjects (objects d ++ [o]) d).

Definition push (l : list (json * setter)) (d : Dec) : Dec := withTodo (l ++ todo d) d.

(** A pair of the work list with its action at the end. *)
Definition pushPair (a : nat → act) (k v : json) (d : Dec) : Dec :=
  let p := length (cells d) in
  withActs (a p :: acts d) (push [(k, ToCell p false); (v, ToCell p true)] (withCells (cells d ++ [(VUndef, VUndef)]) d)).

(** Pairs in reverse order, so that the first one is done first. *)
Definition pushPairs (a : nat → act) (l : list (json * json)) (d : Dec) : Dec := foldr (λ x d, pushPair a x.1 x.2 d) d l.

(** Decimal digits. *)
Definition readDigits (s : jstr) : option Z :=
  match s with
  | [] => None
  | _ => if forallb isDigit s then Some (foldl (λ n c, 10 * n + (c - 48)) 0 s) else None
  end.

Definition readInt (s : jstr) : option Z :=
  match s with c :: r => if c =? 45 then Z.opp <$> readDigits r else readDigits s | [] => None end.

(** [Number(e.slice(1))] for a key *)
Definition keyNumber (k : jstr) : option json := (λ z, JNum (ofZ z)) <$> readDigits (tail k).

Definition keyed (x : jstr * json) : option (json * json) := (λ k, (k, x.2)) <$> keyNumber x.1.

(** The pairs of [["M",…]], from the end. *)
Fixpoint mapPairs (l : list json) : list (json * json) :=
  match l with k :: v :: l => (k, v) :: mapPairs l | _ => [] end.

Definition standardErrors : list jstr :=
  map runes ["Error"; "EvalError"; "RangeError"; "ReferenceError"; "SyntaxError"; "TypeError"; "URIError"].

Definition maxTime : Z := 8640000000000000.

(** [new URL], [new RegExp] and the names of the global object. *)
Context (newURL : jstr → option jstr) (newRegExp : jstr → jstr → option (jstr * jstr)) (isGlobal : jstr → bool).

Definition newError (name : option json) (message : jstr) : outcome obj :=
  match name with
  | None => Ret (OError (runes "Error") message)
  | Some (JStr n) =>
    if bool_decide (n = []) then Ret (OError (runes "Error") message)
    else if bool_decide (n ∈ standardErrors) then Ret (OError n message)
    else if isGlobal n then Outside else Ret (OError (runes "Error") message)
  | Some _ => Outside
  end.

Definition newDate (l : option json) : outcome obj :=
  match l with
  | Some (JNum n) => match toZ n with Some z => Ret (ODate (if Z.abs z <=? maxTime then Some z else None)) | None => Outside end
  | Some (JStr s) => if bool_decide (s = runes "invalid") then Ret (ODate None) else Outside
  | _ => Outside
  end.

(** The number of a slot. *)
Definition slotNumber (j : option json) : outcome nat :=
  match j with
  | Some (JNum n) => match toZ n with Some z => if 0 <=? z then Ret (Z.to_nat z) else Outside | None => Outside end
  | _ => Outside
  end.

Definition isHole (j : json) : bool := match j with JNum n => bool_decide (toZ n = Some (-1)) | _ => false end.

Definition elemWork (l : nat) (cs : list json) : list (json * setter) :=
  reverse (filter (λ x, isHole x.1 = false) (imap (λ i c, (c, ToElem l i)) cs)).

(** A slot that starts with a tag. *)
Definition hydrateTagged (i : nat) (tag : jstr) (args : list json) (s : setter) (d : Dec) : outcome Dec :=
  let here := length (objects d) in
  if bool_decide (tag = runes "D") then o ← newDate (args !! 0%nat); Ret (create i o s d)
  else if bool_decide (tag = runes "U") then
    match args !! 0%nat with Some (JStr u) => match newURL u with Some h => Ret (create i (OUrl h) s d) | None => Throws end | _ => Outside end
  else if bool_decide (tag = runes "B") then
    match args !! 0%nat with Some (JStr z) => match readInt z with Some z => Ret (place i (VBig z) s d) | None => Outside end | _ => Outside end
  else if bool_decide (tag = runes "R") then
    match args !! 0%nat, args !! 1%nat with
    | Some (JStr r), Some (JStr f) => match newRegExp r f with Some (r, f) => Ret (create i (ORegExp r f) s d) | None => Throws end
    | _, _ => Outside
    end
  else if bool_decide (tag = runes "Y") then
    match args !! 0%nat with Some (JStr k) => Ret (place i (VSym (Registered k)) s d) | _ => Outside end
  else if bool_decide (tag = runes "S") then Ret (create i (OSet []) s (push (map (λ c, (c, ToSet here)) args) d))
  else if bool_decide (tag = runes "M") then
    let args := if Nat.even (length args) then args else tail args in
    Ret (create i (OMap []) s (pushPairs (PutMap here) (mapPairs args) d))
  else if bool_decide (tag = runes "N") then
    match args !! 0%nat with
    | Some (JObj ps) => match mapM keyed ps with Some l => Ret (create i (OBare []) s (pushPairs (PutKey here) l d)) | None => Outside end
    | _ => Outside
    end
  else if bool_decide (tag = runes "P") then
    n ← slotNumber (args !! 0%nat);
    match hydrated d !! n with
    | Some v => if truthy v then Ret (place i v s d) else Ret (create i OPromise s (withPromises (<[n := here]> (waiting d)) (settled d) d))
    | None => Ret (create i OPromise s (withPromises (<[n := here]> (waiting d)) (settled d) d))
    end
  else if bool_decide (tag = runes "E") then
    match args !! 0%nat with Some (JStr m) => o ← newError (args !! 1%nat) m; Ret (create i o s d) | _ => Outside end
  else if bool_decide (tag = runes "Z") then
    n ← slotNumber (args !! 0%nat); Ret (place i (default VUndef (hydrated d !! n)) s d)
  else Throws.

Definition specialOf (z : Z) : option val :=
  if z =? -7 then Some VUndef else if z =? -5 then Some VNull else if z =? -2 then Some (VNum nan)
  else if z =? -6 then Some (VNum inf) else if z =? -3 then Some (VNum ninf) else if z =? -4 then Some (VNum negZero) else None.

(** A slot that is there. *)
Definition hydrateSlot (i : nat) (c : json) (s : setter) (d : Dec) : outcome Dec :=
  match c with
  | JNull => Ret (place i VNull s d)
  | JBool b => Ret (place i (VBool b) s d)
  | JNum n => Ret (place i (VNum n) s d)
  | JStr t => Ret (place i (VStr t) s d)
  | JArr (JStr tag :: args) => hydrateTagged i tag args s d
  | JArr cs => Ret (create i (OArr []) s (push (elemWork (length (objects d)) cs) d))
  | JObj ps =>
    match mapM keyed ps with
    | Some l => Ret (create i (OPlain []) s (pushPairs (PutKey (length (objects d))) l d))
    | None => Outside
    end
  end.

(** One turn of the first loop of [KXe]. *)
Definition hydrateOne (c : json) (s : setter) (d : Dec) : outcome Dec :=
  match c with
  | JNum n =>
    match toZ n with
    | None => Ret (deliver s VUndef d)
    | Some z =>
      match specialOf z with
      | Some v => Ret (deliver s v d)
      | None =>
        if z <? 0 then Ret (deliver s VUndef d)
        else
          let i := Z.to_nat z in
          match hydrated d !! i, values d !! i with
          | Some v, Some c => if truthy v then Ret (deliver s v d) else hydrateSlot i c s d
          | None, Some c => hydrateSlot i c s d
          | Some v, None => if truthy v then Ret (deliver s v d) else Ret (place i VUndef s d)
          | None, None => Ret (place i VUndef s d)
          end
      end
    end
  | _ => Outside
  end.

Fixpoint hydrateLoop (fuel : nat) (d : Dec) : outcome Dec :=
  match todo d with
  | [] => Ret d
  | (c, s) :: l =>
    match fuel with
    | O => Diverges
    | S fuel => d ← hydrateOne c s (withTodo l d); hydrateLoop fuel d
    end
  end.

(** [n[k] = v]; only the object without a prototype takes [__proto__] for a key. *)
Definition putKey (k v : val) (o : obj) : option obj :=
  match o, k with
  | OPlain ps, VStr k => if bool_decide (k = runes "__proto__") then None else Some (OPlain (setKey ps k v))
  | OBare ps, VStr k => Some (OBare (setKey ps k v))
  | _, _ => None
  end.

Definition runAct (a : act) (d : Dec) : outcome Dec :=
  match a with
  | PutMap l p =>
    let '(k, v) := default (VUndef, VUndef) (cells d !! p) in
    Ret (withObjects (alter (λ o, match o with OMap x => OMap (mapSet x k v) | _ => o end) l (objects d)) d)
  | PutKey l p =>
    let '(k, v) := default (VUndef, VUndef) (cells d !! p) in
    match objects d !! l with
    | Some o => match putKey k v o with Some o => Ret (withObjects (<[l := o]> (objects d)) d) | None => Outside end
    | None => Outside
    end
  end.

Fixpoint runActs (l : list act) (d : Dec) : outcome Dec :=
  match l with
  | [] => Ret (withActs [] d)
  | a :: l => d ← runAct a d; runActs l d
  end.

(** The number of references in a slot: what its first visit puts on the work list. *)
Definition refs (j : json) : nat :=
  match j with
  | JArr l => (length l + foldr (λ x n, match x with JObj ps => 2 * length ps + n | _ => n end) 0 l)%nat
  | JObj ps => (2 * length ps)%nat
  | _ => O
  end.

Definition allRefs (l : list json) : nat := foldr (λ j n, refs j + n)%nat O l.

(** Each slot puts its references on the work list once. *)
Definition KXe (c : json) (d : Dec) : outcome (Dec * val) :=
  d ← hydrateLoop (S (allRefs (values d))) (withResult VUndef (withTodo [(c, ToResult)] d));
  d ← runActs (acts d) d;
  Ret (d, result d).

Definition GXe (j : json) (d : Dec) : outcome (Dec * val) :=
  match j with
  | JNum _ => KXe j d
  | JArr (x :: l) => KXe (JNum (ofZ (Z.of_nat (length (values d))))) (withValues (values d ++ x :: l) d)
  | _ => Throws
  end.

(** [JXe]: the first line. *)
Definition JXe (line : jstr) (d : Dec) : outcome (Dec * val) :=
  if bool_decide (line = []) then Throws
  else match parseJSON line with Some j => GXe j d | None => Throws end.

(** A line of a promise: its number and the rest. *)
Definition splitLine (line : jstr) : outcome (nat * jstr) :=
  let '(a, b) := span (λ c, negb (c =? 58)) (tail line) in
  match b, readDigits a with
  | _ :: r, Some z => Ret (Z.to_nat z, r)
  | _, _ => Outside
  end.

Definition settleLine (f : val → settlement) (line : jstr) (d : Dec) : outcome Dec :=
  x ← splitLine line;
  match waiting d !! x.1 with
  | None => Throws
  | Some p =>
    match parseJSON x.2 with
    | None => Throws
    | Some j => y ← GXe j d; Ret (withPromises (waiting y.1) (match settled y.1 !! p with Some _ => settled y.1 | None => <[p := f y.2]> (settled y.1) end) y.1)
    end
  end.

(** [YXe]: the other lines.  An empty line is not read past: the loop goes on without end. *)
Fixpoint YXe (lines : list jstr) (d : Dec) : outcome Dec :=
  match lines with
  | [] => Ret d
  | line :: lines =>
    match line with
    | [] => Diverges
    | c :: _ =>
      if c =? 80 then d ← settleLine Fulfilled line d; YXe lines d
      else if c =? 69 then d ← settleLine Rejected line d; YXe lines d
      else Throws
    end
  end.

(** [qXe] on all the lines of a stream. *)
Definition decode (lines : list jstr) : outcome (Dec * val) :=
  match lines with
  | [] => Throws
  | line :: lines => x ← JXe line newDec; d ← YXe lines x.1; Ret (d, x.2)
  end.

End codec.
