(* ===== verification/TurboEncode.v ===== *)
(** * What the encoder of the data stream writes

    Each number stands for a value: the slot with the number has the shape of the value
    and names its parts by numbers that stand for them ([slotFor]).  Encoding ends on every
    heap of values that can be encoded, and keeps the slots written before.  Each object
    but the root has one number. *)

From Stdlib Require Import ZArith Lia.
From stdpp Require Import base numbers strings gmap option list.
From S2P Require Import Prelude Js Json TurboStream.

Open Scope Z_scope.

Lemma lookup_arrSet {A} (l : list (option A)) i x j :
  arrSet l i x !! j = if decide (j = i) then Some (Some x) else if decide (j < length l)%nat then l !! j
                      else if decide (j < i)%nat then Some None else None.
Proof.
  unfold arrSet. destruct (decide (j = i)) as [->|Hj].
  - apply list_lookup_insert_eq. rewrite length_app, length_replicate. lia.
  - rewrite list_lookup_insert_ne by done. destruct (decide (j < length l)%nat).
    + by rewrite lookup_app_l.
    + rewrite lookup_app_r by lia. case_decide.
      * apply lookup_replicate. split; [done|lia].
      * apply lookup_replicate_None. lia.
Qed.

Lemma length_arrSet {A} (l : list (option A)) i x : length (arrSet l i x) = Nat.max (length l) (S i).
Proof. unfold arrSet. rewrite length_insert, length_app, length_replicate. lia. Qed.

Section encode.
Context {num : Type} `{HN : JsNum num}.
#[local] Abbreviation val := (val num).
#[local] Abbreviation obj := (obj num).
#[local] Abbreviation slot := (slot num).
#[local] Abbreviation ghost := (list (option val)).

(** ** What numbers stand for *)

(** The value of each number; none for a line that names a value sent before. *)
Definition denotes (vals : ghost) (z : Z) (v : val) : Prop :=
  special v = Some z ∨ ∃ i, z = Z.of_nat i ∧ vals !! i = Some (Some (keyOf v)).

Definition elemFor (vals : ghost) (e : option val) (z : Z) : Prop :=
  match e with None => z = -1 | Some v => denotes vals z v end.

Definition pairFor (vals : ghost) (p : val * val) (c : Z * Z) : Prop := denotes vals c.1 p.1 ∧ denotes vals c.2 p.2.

Definition propFor (vals : ghost) (p : jstr * val) (c : Z * Z) : Prop := pairFor vals (VStr p.1, p.2) c.

Definition objSlot (vals : ghost) (i : nat) (o : obj) (s : slot) : Prop :=
  match o, s with
  | OArr l, SArr cs => Forall2 (elemFor vals) l cs
  | OPlain ps, SPlain cs => Forall2 (propFor vals) ps cs
  | OBare ps, SBare cs => Forall2 (propFor vals) ps cs
  | ODate t, SDate t' => t = t'
  | OUrl h, SUrl h' => h = h'
  | ORegExp r f, SRegExp r' f' => r = r' ∧ f = f'
  | OSet l, SSet cs => Forall2 (λ v z, denotes vals z v) l cs
  | OMap l, SMap cs => Forall2 (pairFor vals) l cs
  | OPromise, SPromise t => t = i
  | OError n m, SError m' n' => m = m' ∧ n' = if bool_decide (n = runes "Error") then None else Some n
  | _, _ => False
  end.

Definition slotFor (h : list obj) (vals : ghost) (i : nat) (v : val) (s : slot) : Prop :=
  match v, s with
  | VBool b, SBool b' => b = b'
  | VNum n, SNum n' => n = n'
  | VStr t, SStr t' => t = t'
  | VBig z, SBig z' => z = z'
  | VSym (Registered k), SSym k' => k = k'
  | VObj l, s => match h !! l with Some o => objSlot vals i o s | None => False end
  | _, _ => False
  end.

Lemma denotes_app vals ext z v : denotes vals z v → denotes (vals ++ ext) z v.
Proof. intros [?|(i & -> & Hi)]; [by left|right]. exists i. split; [done|]. by apply lookup_app_l_Some. Qed.

Lemma objSlot_app vals ext i o s : objSlot vals i o s → objSlot (vals ++ ext) i o s.
Proof.
  assert (∀ p c, pairFor vals p c → pairFor (vals ++ ext) p c) as Hp by (intros ?? [??]; split; by apply denotes_app).
  destruct o, s; simpl; try done; intros Hs; eapply Forall2_impl; try exact Hs; try apply Hp.
  - intros [v|] z; [apply denotes_app|done].
  - intros p c Hc. by apply Hp.
  - intros p c Hc. by apply Hp.
  - intros v z. apply denotes_app.
Qed.

Lemma slotFor_app h h' vals ext i v s : slotFor h vals i v s → slotFor (h ++ h') (vals ++ ext) i v s.
Proof.
  destruct v; try done. simpl. destruct (h !! l) as [o|] eqn:E; [|done]. intros Hs.
  rewrite (lookup_app_l_Some _ _ _ _ E). by apply objSlot_app.
Qed.

(** ** Values that can be encoded *)

Definition valOk (h : list obj) (v : val) : Prop :=
  match v with
  | VStr s => units s
  | VSym (Registered k) => k ≠ [] ∧ units k
  | VSym (Unique _) | VFun _ => False
  | VObj l => (l < length h)%nat
  | _ => True
  end.

Definition objOk (h : list obj) (o : obj) : Prop :=
  match o with
  | OArr l => Forall (λ e, match e with Some v => valOk h v | None => True end) l
  | OPlain ps | OBare ps => Forall (λ p, units p.1 ∧ valOk h p.2) ps
  | OSet l => Forall (valOk h) l
  | OMap l => Forall (λ p, valOk h p.1 ∧ valOk h p.2) l
  | OOther => False
  | _ => True
  end.

Definition heapOk (h : list obj) : Prop := Forall (objOk h) h.

(** ** The state of the encoder *)

(** the numbers of the promises that have settled *)
Context (gone : list nat).

Record encOk (h : list obj) (vals : ghost) (open : list nat) (st : Enc) : Prop := {
  ok_index : index st = length vals;
  ok_map k i : mapGet k (indices st) = Some i → vals !! i = Some (Some k);
  ok_once i v : (0 < i)%nat → vals !! i = Some (Some v) → mapGet v (indices st) = Some i;
  ok_special i v : vals !! i = Some (Some v) → special v = None;
  ok_vals i v : vals !! i = Some (Some v) → valOk h v;
  ok_filled i v : vals !! i = Some (Some v) → i ∉ open → ∃ s, stringified st !! i = Some (Some s) ∧ slotFor h vals i v s;
  ok_bound i : i ∈ open → (i < length vals)%nat;
  ok_open i s : i ∈ open → stringified st !! i ≠ Some (Some s);
  ok_length : (length (stringified st) <= length vals)%nat;
  ok_slots i s : stringified st !! i = Some (Some s) → ∃ v, vals !! i = Some (Some v);
  ok_deferred i l : (i, l) ∈ deferred st → vals !! i = Some (Some (VObj l)) ∧ h !! l = Some OPromise;
  ok_promised i t : stringified st !! i = Some (Some (SPromise t)) → i ∈ gone ∨ i ∈ (deferred st).*1;
  ok_gone i : i ∈ gone → i ∉ (deferred st).*1 ∧ ∃ s, stringified st !! i = Some (Some s);
}.

(** The slots that are there stay. *)
Definition keeps (st st' : Enc (num := num)) : Prop := ∀ i s, stringified st !! i = Some (Some s) → stringified st' !! i = Some (Some s).

(** The numbers a slot names. *)
Definition both (cs : list (Z * Z)) : list Z := cs ≫= λ c, [c.1; c.2].

Definition slotRefs (s : slot) : list Z :=
  match s with
  | SArr cs | SSet cs => cs
  | SMap cs | SPlain cs | SBare cs => both cs
  | _ => []
  end.

Definition member (S : nat → Prop) (z : Z) : Prop := ∀ i, z = Z.of_nat i → S i.

Definition closed (S : nat → Prop) (st : Enc (num := num)) : Prop :=
  ∀ i s, stringified st !! i = Some (Some s) → S i → Forall (member S) (slotRefs s).

(** The numbers given between two states are reached from [cs] through the slots. *)
Definition reaches (st st' : Enc (num := num)) (cs : list Z) : Prop :=
  (index st <= index st')%nat ∧
  ∀ S, closed S st' → Forall (member S) cs → ∀ i, (index st <= i < index st')%nat → S i.

Lemma reaches_same st st' : index st' = index st → reaches st st' [].
Proof. intros E. split; [lia|]. intros S _ _ i Hi. lia. Qed.

Lemma reaches_more st st' cs cs' : reaches st st' cs → (∀ S, Forall (member S) cs' → Forall (member S) cs) → reaches st st' cs'.
Proof. intros [Hle Hr] Hc. split; [done|]. intros S HS H'. apply Hr; auto. Qed.

Lemma closed_keeps S st st' : keeps st st' → closed S st' → closed S st.
Proof. intros Hk HS i s Hi. apply HS. by apply Hk. Qed.

Lemma reaches_trans s1 s2 s3 c1 c2 : reaches s1 s2 c1 → reaches s2 s3 c2 → keeps s2 s3 → reaches s1 s3 (c1 ++ c2).
Proof.
  intros [L1 R1] [L2 R2] Hk. split; [lia|]. intros S HS [H1 H2]%Forall_app i Hi.
  destruct (decide (i < index s2)%nat); [|apply R2; [done|done|lia]]. apply R1; [by eapply closed_keeps|done|lia].
Qed.

(** The places without a number, 0 apart. *)
Definition unnumbered (st : Enc) (l : nat) : bool := match mapGet (VObj l) (indices st) with Some (S _) => false | _ => true end.

Definition free (h : list obj) (st : Enc) : nat := length (filter (λ l, unnumbered st l = true) (seq 0 (length h))).

Record grows (h : list obj) (vals ext : ghost) (open : list nat) (st st' : Enc) : Prop := {
  grow_ok : encOk h (vals ++ ext) open st';
  grow_some : Forall is_Some ext;
  grow_keeps : keeps st st';
  grow_free : (free h st' <= free h st)%nat;
}.

Lemma keyOf_special v : special v = None → keyOf v = v.
Proof. destruct v; simpl; try done. repeat (case_decide; try done). Qed.

Lemma encOk_lookup h vals open st v i : encOk h vals open st → mapGet (keyOf v) (indices st) = Some i → denotes vals (Z.of_nat i) v.
Proof. intros Hok Hi. right. exists i. split; [done|]. by apply (ok_map _ _ _ _ Hok). Qed.

Lemma numbered_ok h vals open st v : encOk h vals open st → special v = None → valOk h v →
  (∀ n, mapGet (keyOf v) (indices st) ≠ Some (S n)) →
  encOk h (vals ++ [Some v]) (index st :: open) (numbered v st).
Proof.
  intros Hok Hv Hvok Hn. pose proof (keyOf_special v Hv) as Hk. pose proof (ok_index _ _ _ _ Hok) as Hi. split; simpl.
  - rewrite length_app. simpl. lia.
  - intros k i. rewrite Hk. case_decide as E; [intros [= <-]|].
    + subst k. rewrite Hi, lookup_app_r, Nat.sub_diag by lia. done.
    + intros Hki. apply lookup_app_l_Some. by apply (ok_map _ _ _ _ Hok).
  - intros i w Hpos [Hw|[Hle Hw]]%lookup_app_Some; rewrite Hk.
    + pose proof (ok_once _ _ _ _ Hok i w Hpos Hw) as Hm. case_decide as E; [|done]. subst w. rewrite Hk in Hn.
      destruct i as [|i]; [lia|]. by destruct (Hn i).
    + destruct (i - length vals)%nat as [|n] eqn:E; [|done]. simpl in Hw. simplify_eq. rewrite decide_True by done. f_equal. lia.
  - intros i w [Hw|[Hle Hw]]%lookup_app_Some; [by apply (ok_special _ _ _ _ Hok i)|].
    destruct (i - length vals)%nat; by simplify_eq/=.
  - intros i w [Hw|[Hle Hw]]%lookup_app_Some; [by apply (ok_vals _ _ _ _ Hok i)|].
    destruct (i - length vals)%nat; by simplify_eq/=.
  - intros i w [Hw|[Hle Hw]]%lookup_app_Some Ho; rewrite not_elem_of_cons in Ho; destruct Ho as [Ho Ho'].
    + destruct (ok_filled _ _ _ _ Hok i w Hw Ho') as (s & Hs & Hf). exists s. split; [done|].
      rewrite <- (app_nil_r h). by apply slotFor_app.
    + destruct (i - length vals)%nat eqn:E; simplify_eq/=. destruct Ho. lia.
  - intros i [->|Ho%(ok_bound _ _ _ _ Hok)]%elem_of_cons; rewrite length_app; simpl; lia.
  - intros i s [->|Ho]%elem_of_cons; [|by apply (ok_open _ _ _ _ Hok)]. intros Hs%lookup_lt_Some.
    pose proof (ok_length _ _ _ _ Hok). lia.
  - rewrite length_app. pose proof (ok_length _ _ _ _ Hok). lia.
  - intros i s (w & Hw)%(ok_slots _ _ _ _ Hok). exists w. by apply lookup_app_l_Some.
  - intros i l [Hw Hl]%(ok_deferred _ _ _ _ Hok). split; [|done]. by apply lookup_app_l_Some.
  - apply (ok_promised _ _ _ _ Hok).
  - apply (ok_gone _ _ _ _ Hok).
Qed.

(** The slot of a promise comes with the promise among those that wait. *)
Definition awaited (t : nat) (s : slot) (st : Enc (num := num)) : Prop := match s with SPromise _ => t ∈ (deferred st).*1 | _ => True end.

Lemma store_ok h vals open st t v s : encOk h vals (t :: open) st → t ∉ open → vals !! t = Some (Some v) → slotFor h vals t v s →
  awaited t s st → encOk h vals open (store t s st) ∧ keeps st (store t s st).
Proof.
  intros Hok Ht Hv Hs Haw. pose proof (lookup_lt_Some _ _ _ Hv) as Hlt. assert (keeps st (store t s st)) as Hkeep.
  { intros i s' Hi. simpl. rewrite lookup_arrSet. case_decide as E; [|by rewrite decide_True by by apply lookup_lt_Some in Hi].
    subst i. exfalso. by apply (ok_open _ _ _ _ Hok t s' ltac:(left)). }
  split; [|done]. destruct Hok. split; simpl; try done.
  - intros i w Hw Ho. destruct (decide (i = t)) as [->|Hne].
    + exists s. split; [by rewrite lookup_arrSet, decide_True|]. by simplify_eq.
    + destruct (ok_filled0 i w Hw) as (s' & Hs' & Hf); [by rewrite not_elem_of_cons|]. exists s'. split; [by apply Hkeep|done].
  - intros i Hi. apply ok_bound0. by right.
  - intros i s' Hi. rewrite lookup_arrSet. case_decide as E; [by subst|]. case_decide; [apply ok_open0; by right|by case_decide].
  - rewrite length_arrSet. lia.
  - intros i s'. rewrite lookup_arrSet. case_decide as E; [subst; eauto|]. case_decide; [eauto|by case_decide].
  - intros i t'. rewrite lookup_arrSet. case_decide as E; [intros [= ->]; subst; by right|]. case_decide; [eauto|by case_decide].
  - intros i [Hd (s' & Hs')]%ok_gone0. split; [done|]. exists s'. by apply Hkeep.
Qed.

Lemma filter_length_le {A} (p q : A → bool) l : (∀ x, p x = true → q x = true) →
  (length (filter (λ x, p x = true) l) <= length (filter (λ x, q x = true) l))%nat.
Proof.
  intros Hpq. induction l as [|x l IH]; [done|]. rewrite !filter_cons. destruct (decide (p x = true)) as [E|E].
  - rewrite decide_True by auto. simpl. lia.
  - case_decide; simpl; lia.
Qed.

Lemma filter_length_lt {A} (p q : A → bool) l y : (∀ x, p x = true → q x = true) → y ∈ l → q y = true → p y = false →
  (length (filter (λ x, p x = true) l) < length (filter (λ x, q x = true) l))%nat.
Proof.
  intros Hpq Hy Hq Hp. induction l as [|x l IH]; [by apply elem_of_nil in Hy|]. rewrite !filter_cons.
  pose proof (filter_length_le p q l Hpq). apply elem_of_cons in Hy as [<-|Hy].
  - rewrite decide_False, decide_True by congruence. simpl. lia.
  - specialize (IH Hy). destruct (decide (p x = true)) as [E|E]; [rewrite decide_True by auto; simpl; lia|]. case_decide; simpl; lia.
Qed.

Lemma unnumbered_numbered st v l : (∀ n, mapGet (keyOf v) (indices st) ≠ Some (S n)) →
  unnumbered (numbered v st) l = true → unnumbered st l = true.
Proof.
  intros Hn. unfold unnumbered. simpl. case_decide as E; [|done]. intros _. rewrite <- E.
  destruct (mapGet (keyOf v) (indices st)) as [[|n]|] eqn:Em; try done. by destruct (Hn n).
Qed.

Lemma free_numbered h st v : (∀ n, mapGet (keyOf v) (indices st) ≠ Some (S n)) → (free h (numbered v st) <= free h st)%nat.
Proof. intros Hn. apply filter_length_le. intros l. by apply unnumbered_numbered. Qed.

Lemma free_numbered_lt h st l : (∀ n, mapGet (VObj l) (indices st) ≠ Some (S n)) → (l < length h)%nat → (0 < index st)%nat →
  (free h (numbered (VObj l) st) < free h st)%nat.
Proof.
  intros Hn Hl Hi. apply (filter_length_lt _ _ _ l); [intros x; by apply unnumbered_numbered|apply elem_of_seq; lia| |].
  - unfold unnumbered. destruct (mapGet (VObj l) (indices st)) as [[|n]|] eqn:Em; try done. by destruct (Hn n).
  - unfold unnumbered. simpl. rewrite decide_True by done. destruct (index st); [lia|done].
Qed.

(** ** Encoding ends and every number stands for its value *)

Lemma grows_refl h vals open st : encOk h vals open st → grows h vals [] open st st.
Proof. intros Hok. split; [by rewrite app_nil_r|constructor|by intros ??|done]. Qed.

Lemma grows_trans h vals e1 e2 open s1 s2 s3 : grows h vals e1 open s1 s2 → grows h (vals ++ e1) e2 open s2 s3 →
  grows h vals (e1 ++ e2) open s1 s3.
Proof.
  intros [] []. split; [by rewrite (assoc_L (++))|by apply Forall_app|intros i s Hs; by apply grow_keeps1, grow_keeps0|lia].
Qed.

(** A computation of the encoder that returns, with what it says of the numbers. *)
Definition good {A} (h : list obj) (vals : ghost) (open : list nat) (st : Enc) (P : Enc → ghost → A → Prop) (m : outcome (Enc * A)) : Prop :=
  ∃ st' a ext, m = Ret (st', a) ∧ grows h vals ext open st st' ∧ P st' (vals ++ ext) a.

Lemma enc_bind {A B} h vals open st P (Q : Enc → ghost → B → Prop) (m : outcome (Enc * A)) f :
  good h vals open st P m →
  (∀ st' a e, encOk h (vals ++ e) open st' → (free h st' <= free h st)%nat → P st' (vals ++ e) a →
    good h (vals ++ e) open st' (λ st'' vals b, keeps st' st'' → Q st'' vals b) (f (st', a))) →
  good h vals open st Q (m ≫= f).
Proof.
  intros (st1 & a & e1 & -> & G1 & HP) Hf. simpl.
  destruct (Hf st1 a e1) as (st2 & b & e2 & E & G2 & HQ); [apply G1|apply G1|done|].
  exists st2, b, (e1 ++ e2). split; [done|]. split; [by eapply grows_trans|]. rewrite (assoc_L (++)). apply HQ, G2.
Qed.

Lemma enc_ret {A} h vals open st (P : Enc → ghost → A → Prop) a : encOk h vals open st → P st vals a → good h vals open st P (Ret (st, a)).
Proof. intros Hok HP. exists st, a, []. split; [done|]. split; [by apply grows_refl|]. by rewrite app_nil_r. Qed.

(** [HXe] with enough fuel for the places left. *)
Definition fills (h : list obj) (fuel : nat) (rec : val → nat → Enc → outcome Enc) : Prop :=
  ∀ v t st vals open, encOk h vals (t :: open) st → t ∉ open → vals !! t = Some (Some v) → valOk h v →
    match v with VObj _ => (free h st < fuel)%nat | _ => True end →
    ∃ st' ext, rec v t st = Ret st' ∧ grows h vals ext open st st' ∧ reaches st st' [Z.of_nat t].

(** The fuel a state needs: one more as long as nothing has a number. *)
Definition fueled (h : list obj) (fuel : nat) (vals : ghost) (st : Enc) : Prop :=
  (free h st <= match vals with [] => pred fuel | _ => fuel end)%nat ∧ (vals = [] → 0 < fuel)%nat.

Lemma fueled_app h fuel vals e st st' : fueled h fuel vals st → (free h st' <= free h st)%nat → fueled h fuel (vals ++ e) st'.
Proof.
  unfold fueled. intros [H1 H2] Hf. split; [|intros [-> ->]%app_eq_nil; auto]. destruct vals; simpl in *; [|lia]. destruct e; lia.
Qed.

Lemma reaches_numbered st st' v : reaches (numbered v st) st' [Z.of_nat (index st)] → reaches st st' [Z.of_nat (index st)].
Proof.
  intros [Hle Hr]. simpl in Hle. split; [lia|]. intros S HS Hc i Hi. destruct (decide (i = index st)) as [->|Hne].
  - rewrite Forall_singleton in Hc. by apply Hc.
  - apply Hr; [done|done|simpl; lia].
Qed.

Section children.
Context (h : list obj) (fuel : nat) (rec : val → nat → @Enc num → outcome (@Enc num)).
Hypothesis Hrec : fills h fuel rec.

(** What [UP] and the loops over it promise of the numbers they return. *)
Definition codeFor (st : Enc) (v : val) (st' : Enc) (vals : ghost) (c : code) : Prop := denotes vals (codeZ c) v ∧ reaches st st' [codeZ c].

Lemma UPnew_good v vals open st : encOk h vals open st → valOk h v → fueled h fuel vals st →
  (∀ n, mapGet (keyOf v) (indices st) ≠ Some (S n)) → special v = None →
  good h vals open st (codeFor st v) (st' ← rec v (index st) (numbered v st); Ret (st', New (Z.of_nat (index st)))).
Proof.
  intros Hok Hv [Hf Hf0] Hn Es. pose proof (ok_index _ _ _ _ Hok) as Hi. pose proof (free_numbered h st _ Hn) as Hle.
  assert ((vals ++ [Some v]) !! length vals = Some (Some v)) as Hlast by (by rewrite lookup_app_r, Nat.sub_diag by lia).
  destruct (Hrec v (index st) (numbered v st) (vals ++ [Some v]) open) as (st' & ext & -> & G & HR).
  - by apply numbered_ok.
  - intros Ho%(ok_bound _ _ _ _ Hok). lia.
  - by rewrite Hi.
  - done.
  - destruct v; try done. destruct vals as [|x vals]; [specialize (Hf0 eq_refl); simpl in Hf; lia|].
    pose proof (free_numbered_lt h st l Hn Hv ltac:(rewrite Hi; simpl; lia)). lia.
  - exists st', (New (Z.of_nat (index st))), (Some v :: ext). split; [done|].
    replace (vals ++ Some v :: ext) with ((vals ++ [Some v]) ++ ext) by (by rewrite <- (assoc_L (++))). destruct G. split.
    + split; [by rewrite <- (assoc_L (++)) in *|constructor; [by eexists|done]|done|lia].
    + split; [|by apply (reaches_numbered _ _ v)].
      apply denotes_app. right. exists (length vals). simpl. rewrite Hi. split; [done|]. by rewrite keyOf_special.
Qed.

Lemma reaches_none st c : reaches st st [c].
Proof. split; [lia|]. intros S _ _ i Hi. lia. Qed.

Lemma UPwith_good v vals open st : encOk h vals open st → valOk h v → fueled h fuel vals st →
  good h vals open st (codeFor st v) (UPwith rec v st).
Proof.
  intros Hok Hv Hf. unfold UPwith. destruct (mapGet (keyOf v) (indices st)) as [[|n]|] eqn:Em;
    [|apply enc_ret; [done|]; split; [by eapply encOk_lookup|apply reaches_none]|];
    (destruct (special v) as [z|] eqn:Es;
      [apply enc_ret; [done|split; [by left|apply reaches_none]]|apply UPnew_good; try done; intros n; by rewrite Em]).
Qed.

Lemma reaches_cons s1 s2 s3 c cs : reaches s1 s2 [c] → reaches s2 s3 cs → keeps s2 s3 → reaches s1 s3 (c :: cs).
Proof. apply (reaches_trans s1 s2 s3 [c]). Qed.

Lemma UPelems_good l vals open st : encOk h vals open st →
  Forall (λ e, match e with Some v => valOk h v | None => True end) l → fueled h fuel vals st →
  good h vals open st (λ st' vals cs, Forall2 (elemFor vals) l cs ∧ reaches st st' cs) (UPelems rec l st).
Proof.
  intros Hok Hl. revert vals st Hok. induction Hl as [|[v|] l Hv Hl IH]; intros vals st Hok Hf; simpl.
  - apply enc_ret; [done|]. split; [constructor|by apply reaches_same].
  - eapply enc_bind; [by apply UPwith_good|]. intros s1 c e1 Hok1 Hf1 [Hc HR1]. simpl.
    eapply enc_bind; [apply IH; [done|by eapply fueled_app]|]. intros s2 cs e2 Hok2 Hf2 [Hcs HR2].
    apply enc_ret; [done|]. intros _ Hk. split; [constructor; [by apply denotes_app|done]|by eapply reaches_cons].
  - eapply enc_bind; [by apply IH|]. intros s2 cs e2 Hok2 Hf2 [Hcs HR]. apply enc_ret; [done|]. intros _. split; [by constructor|].
    eapply reaches_more; [exact HR|]. by intros S [_ ?]%Forall_cons_1.
Qed.

Lemma UPall_good l vals open st : encOk h vals open st → Forall (valOk h) l → fueled h fuel vals st →
  good h vals open st (λ st' vals cs, Forall2 (λ v z, denotes vals z v) l cs ∧ reaches st st' cs) (UPall rec l st).
Proof.
  intros Hok Hl. revert vals st Hok. induction Hl as [|v l Hv Hl IH]; intros vals st Hok Hf; simpl.
  - apply enc_ret; [done|]. split; [constructor|by apply reaches_same].
  - eapply enc_bind; [by apply UPwith_good|]. intros s1 c e1 Hok1 Hf1 [Hc HR1]. simpl.
    eapply enc_bind; [apply IH; [done|by eapply fueled_app]|]. intros s2 cs e2 Hok2 Hf2 [Hcs HR2].
    apply enc_ret; [done|]. intros _ Hk. split; [constructor; [by apply denotes_app|done]|by eapply reaches_cons].
Qed.

Lemma keeps_trans (s1 s2 s3 : @Enc num) : keeps s1 s2 → keeps s2 s3 → keeps s1 s3.
Proof. intros H1 H2 i s Hi. by apply H2, H1. Qed.

Lemma UPpairs_good l vals open st : encOk h vals open st →
  Forall (λ p, valOk h p.1 ∧ valOk h p.2) l → fueled h fuel vals st →
  good h vals open st (λ st' vals cs, Forall2 (pairFor vals) l cs ∧ reaches st st' (both cs)) (UPpairs rec l st).
Proof.
  intros Hok Hl. revert vals st Hok. induction Hl as [|[k v] l [Hk Hv] Hl IH]; intros vals st Hok Hf; simpl.
  - apply enc_ret; [done|]. split; [constructor|by apply reaches_same].
  - eapply enc_bind; [by apply UPwith_good|]. intros s1 c e1 Hok1 Hf1 [Hc HR1]. simpl.
    eapply enc_bind; [apply UPwith_good; [done|done|by eapply fueled_app]|]. intros s2 c2 e2 Hok2 Hf2 [Hc2 HR2]. simpl.
    eapply enc_bind; [apply IH; [done|eapply fueled_app; [by eapply fueled_app|done]]|].
    intros s3 cs e3 Hok3 Hf3 [Hcs HR3]. apply enc_ret; [done|]. intros _ Hk3 Hk2. split.
    + constructor; [|done]. split; simpl; [do 2 apply denotes_app|apply denotes_app]; done.
    + eapply reaches_cons; [exact HR1| |exact Hk2]. by eapply reaches_cons.
Qed.

Lemma UPprops_good ps vals open st : encOk h vals open st →
  Forall (λ p, units p.1 ∧ valOk h p.2) ps → fueled h fuel vals st →
  good h vals open st (λ st' vals cs, Forall2 (propFor vals) ps cs ∧ reaches st st' (both cs)) (UPprops rec ps st).
Proof.
  intros Hok Hl Hf. destruct (UPpairs_good (map (λ x, (VStr x.1, x.2)) ps) vals open st) as (st' & cs & ext & E & G & HP & HR); try done.
  - apply Forall_fmap. eapply Forall_impl; [exact Hl|]. done.
  - exists st', cs, ext. split_and!; [done|done| |done].
    change (Forall2 (pairFor (vals ++ ext)) ((λ x, (VStr x.1, x.2)) <$> ps) cs) in HP. by rewrite Forall2_fmap_l in HP.
Qed.

End children.

(** Writing the slot of an object ends it. *)
Lemma reaches_store st st' t s : reaches st st' (slotRefs s) → keeps st' (store t s st') → reaches st (store t s st') [Z.of_nat t].
Proof.
  intros [Hle Hr] Hk. split; [done|]. intros S HS [Hc _]%Forall_cons_1. apply Hr; [by eapply closed_keeps|].
  apply (HS t); [simpl; by rewrite lookup_arrSet, decide_True|by apply Hc].
Qed.

Lemma storing_grows {A} h vals open t v st (P : Enc → ghost → A → Prop) (f : A → slot) (m : outcome (Enc * A)) :
  good h vals (t :: open) st P m → t ∉ open → vals !! t = Some (Some v) →
  (∀ st' vals a, P st' vals a → slotFor h vals t v (f a) ∧ reaches st st' (slotRefs (f a)) ∧ awaited t (f a) st') →
  ∃ st' ext, storing t f m = Ret st' ∧ grows h vals ext open st st' ∧ reaches st st' [Z.of_nat t].
Proof.
  intros (st1 & a & ext & -> & G & HP) Ht Hv Hs. exists (store t (f a) st1), ext. split; [done|]. destruct G.
  destruct (Hs _ _ _ HP) as (Hs1 & Hs2 & Hs3).
  destruct (store_ok h (vals ++ ext) open st1 t v (f a)) as [Hok Hk]; [done|done|by apply lookup_app_l_Some|done|done|].
  split; [split; [done|done|by eapply keeps_trans|done]|by apply reaches_store].
Qed.

Lemma store_grows h vals open t v st s : encOk h vals (t :: open) st → t ∉ open → vals !! t = Some (Some v) → slotFor h vals t v s →
  awaited t s st → slotRefs s = [] →
  ∃ st' ext, Ret (store t s st) = Ret st' ∧ grows h vals ext open st st' ∧ reaches st st' [Z.of_nat t].
Proof.
  intros Hok Ht Hv Hs Haw Hr. destruct (store_ok h vals open st t v s) as [Hok' Hk]; try done.
  exists (store t s st), []. split; [done|]. split; [|apply reaches_store; [rewrite Hr; by apply reaches_same|done]].
  split; [by rewrite app_nil_r|constructor|done|done].
Qed.

Lemma defer_ok h vals open t l st : encOk h vals (t :: open) st → vals !! t = Some (Some (VObj l)) → h !! l = Some OPromise →
  encOk h vals (t :: open) (defer t l st).
Proof.
  intros [] Ht Hl. split; simpl; try done.
  - intros i l' [Hi|Hi]%elem_of_app; [by apply ok_deferred0|]. apply list_elem_of_singleton in Hi. by simplify_eq.
  - intros i t' [?|?]%ok_promised0; [by left|right]. rewrite fmap_app. apply elem_of_app. by left.
  - intros i [Hd (s & Hs)]%ok_gone0. split; [|by exists s]. rewrite fmap_app. intros [?|Hi]%elem_of_app; [done|].
    apply list_elem_of_singleton in Hi. simpl in Hi. subst i. by apply (ok_open0 t s ltac:(left)).
Qed.

Lemma HXe_primitive h fuel v t st vals open : encOk h vals (t :: open) st → t ∉ open → vals !! t = Some (Some v) → valOk h v →
  (∀ l, v ≠ VObj l) → ∃ st' ext, HXe fuel h v t st = Ret st' ∧ grows h vals ext open st st' ∧ reaches st st' [Z.of_nat t].
Proof.
  intros Hok Ht Hv Hvok Hl. pose proof (ok_special _ _ _ _ Hok _ _ Hv) as Hs.
  destruct fuel, v as [| | | | | |[k|]| |l]; simpl in Hvok, Hs |- *; try done; try (by eapply store_grows); try (by destruct (Hl l));
    rewrite bool_decide_false by apply Hvok; by eapply store_grows.
Qed.

(** A promise is put among those that wait. *)
Lemma promise_grows h vals open t l st : encOk h vals (t :: open) st → t ∉ open → vals !! t = Some (Some (VObj l)) → h !! l = Some OPromise →
  ∃ st' ext, Ret (defer t l (store t (SPromise t) st)) = Ret st' ∧ grows h vals ext open st st' ∧ reaches st st' [Z.of_nat t].
Proof.
  intros Hok Ht Hv Hl. change (defer t l (store t (SPromise t) st)) with (store t (SPromise t) (defer t l st)).
  destruct (store_grows h vals open t (VObj l) (defer t l st) (SPromise t)) as (st' & ext & E & G & HR); try done.
  - by apply defer_ok.
  - simpl. by rewrite Hl.
  - simpl. rewrite fmap_app. apply elem_of_app. right. left.
  - exists st', ext. split; [done|]. destruct G. split; [by split|done].
Qed.

Lemma HXe_fills h fuel : heapOk h → fills h fuel (HXe fuel h).
Proof.
  intros Hh. induction fuel as [|fuel IH]; intros v t st vals open Hok Ht Hv Hvok Hf.
  - apply HXe_primitive; [done..|]. intros l ->. lia.
  - destruct v; try (by apply HXe_primitive). cbn [HXe].
    destruct (lookup_lt_is_Some_2 h l Hvok) as [o Ho]. rewrite Ho. simpl.
    assert (objOk h o) as Hoo by (unfold heapOk in Hh; rewrite Forall_forall in Hh; apply Hh; by eapply list_elem_of_lookup_2).
    assert (fueled h fuel vals st) as Hfu.
    { split; [|intros ->; done]. destruct vals; [done|lia]. }
    destruct o; simpl in Hoo |- *; try done; try (eapply store_grows; try done; simpl; rewrite Ho; done).
    + eapply storing_grows; [by apply (UPelems_good h fuel)|done|done|]. intros s vs cs [Hcs HR]. simpl. by rewrite Ho.
    + eapply storing_grows; [by apply (UPprops_good h fuel)|done|done|]. intros s vs cs [Hcs HR]. simpl. by rewrite Ho.
    + eapply storing_grows; [by apply (UPprops_good h fuel)|done|done|]. intros s vs cs [Hcs HR]. simpl. by rewrite Ho.
    + eapply storing_grows; [by apply (UPall_good h fuel)|done|done|]. intros s vs cs [Hcs HR]. simpl. by rewrite Ho.
    + eapply storing_grows; [by apply (UPpairs_good h fuel)|done|done|]. intros s vs cs [Hcs HR]. simpl. by rewrite Ho.
    + by apply promise_grows.
Qed.

End encode.
