(* ===== verification/TurboText.v ===== *)
(** * The text of the data stream

    The text of a slot is the JSON text of the slot as a value, so a line of slots is read
    back as the list of them.  The integers among the numbers of the language are an
    instance of the class of numbers, for the samples. *)

From Stdlib Require Import ZArith Lia.
From stdpp Require Import base numbers strings pretty gmap option list.
From S2P Require Import Prelude Js Json TurboStream TurboEncode.

Open Scope Z_scope.

(** ** Decimal digits *)

Definition digitsValue (n : Z) (s : jstr) : Z := foldl (λ n c, 10 * n + (c - 48)) n s.

Lemma digitsValue_app n s t : digitsValue n (s ++ t) = digitsValue (digitsValue n s) t.
Proof. unfold digitsValue. by rewrite foldl_app. Qed.

Lemma pretty_char x : (x < 10)%N → runes (String (pretty_N_char x) "") = [48 + Z.of_N x].
Proof.
  intros Hx. assert (x = 0 ∨ x = 1 ∨ x = 2 ∨ x = 3 ∨ x = 4 ∨ x = 5 ∨ x = 6 ∨ x = 7 ∨ x = 8 ∨ x = 9)%N as H by lia.
  by repeat destruct H as [->|H]; subst.
Qed.

Lemma runes_cons c s : runes (String c s) = runes (String c "") ++ runes s.
Proof. done. Qed.

Lemma pretty_go_digits x t : (0 < x)%N → ∃ c ds, runes (pretty_N_go x t) = (c :: ds) ++ runes t ∧ c ≠ 48 ∧
  Forall (λ c, isDigit c = true) (c :: ds) ∧ digitsValue 0 (c :: ds) = Z.of_N x.
Proof.
  revert t. induction (N.lt_wf_0 x) as [x _ IH]. intros t Hx. rewrite pretty_N_go_step by done.
  pose proof (N.mod_lt x 10 ltac:(lia)) as Hm. pose proof (N.div_mod x 10 ltac:(lia)) as Hd. pose proof (N.div_lt x 10 Hx ltac:(lia)) as Hlt.
  set (m := (x `mod` 10)%N) in *. set (q := (x `div` 10)%N) in *. clearbody m q.
  assert (isDigit (48 + Z.of_N m) = true) as Hdig by (unfold isDigit; apply andb_true_iff; rewrite !Z.leb_le; lia).
  destruct (decide (q = 0)%N) as [E|E].
  - rewrite E, pretty_N_go_0, runes_cons, pretty_char by done. exists (48 + Z.of_N m), []. split_and!; [done|lia|by constructor|].
    unfold digitsValue. simpl. lia.
  - destruct (IH q Hlt (String (pretty_N_char m) t)) as (c & ds & -> & Hc & Hf & Hv); [lia|].
    exists c, (ds ++ [48 + Z.of_N m]). rewrite runes_cons, pretty_char by done.
    split_and!; [simpl; by rewrite <- app_assoc|done| |].
    + rewrite app_comm_cons. apply Forall_app. split; [done|by constructor].
    + rewrite app_comm_cons, digitsValue_app, Hv. unfold digitsValue. simpl. lia.
Qed.

Lemma decimal_zero : decimal 0 = [48].
Proof. done. Qed.

Lemma decimal_digits n : ∃ c ds, decimal n = c :: ds ∧ Forall (λ c, isDigit c = true) (c :: ds) ∧
  digitsValue 0 (c :: ds) = Z.of_nat n ∧ (c = 48 → ds = []).
Proof.
  destruct n as [|n]; [exists 48, []; by repeat constructor|]. unfold decimal, pretty, pretty_nat, pretty, pretty_N.
  destruct (pretty_go_digits (N.of_nat (S n)) "") as (c & ds & E & Hc & Hf & Hv); [lia|].
  exists c, ds. rewrite decide_False by lia. rewrite E. split_and!; [by rewrite app_nil_r|done|rewrite Hv; lia|done].
Qed.

Lemma decimal_digits_all n : Forall (λ c, isDigit c = true) (decimal n).
Proof. destruct (decimal_digits n) as (c & ds & -> & Hf & _). done. Qed.

Lemma forallb_digits s : Forall (λ c, isDigit c = true) s → forallb isDigit s = true.
Proof. induction 1 as [|c s Hc _ IH]; [done|]. simpl. by rewrite Hc, IH. Qed.

Lemma readDigits_decimal n : readDigits (decimal n) = Some (Z.of_nat n).
Proof.
  destruct (decimal_digits n) as (c & ds & -> & Hf & Hv & _). unfold readDigits. rewrite forallb_digits by done. by f_equal.
Qed.

Lemma decimalZ_of_nat n : decimalZ (Z.of_nat n) = decimal n.
Proof. unfold decimalZ. rewrite (proj2 (Z.ltb_ge _ _)) by lia. by rewrite Nat2Z.id. Qed.

Lemma readInt_decimalZ z : readInt (decimalZ z) = Some z.
Proof.
  unfold decimalZ. destruct (Z.ltb_spec z 0) as [Hz|Hz].
  - simpl. rewrite readDigits_decimal. simpl. f_equal. lia.
  - destruct (decimal_digits (Z.to_nat z)) as (c & ds & E & Hf & _). pose proof (readDigits_decimal (Z.to_nat z)) as Hr. rewrite E in Hr |- *.
    apply Forall_cons in Hf as [Hc%digit_range _]. unfold readInt. replace (c =? 45) with false by lia. rewrite Hr. f_equal. lia.
Qed.

Lemma digit_unit c : isDigit c = true → numUnit c = true.
Proof. intros H. unfold numUnit. by rewrite H. Qed.

Lemma decimalZ_units z : Forall (λ c, numUnit c = true) (decimalZ z).
Proof.
  assert (∀ n, Forall (λ c, numUnit c = true) (decimal n)) as Hd.
  { intros n. destruct (decimal_digits n) as (c & ds & -> & Hf & _). eapply Forall_impl; [exact Hf|]. apply digit_unit. }
  unfold decimalZ. case_match; [|done]. by constructor.
Qed.

Lemma isNumber_decimalZ z : isNumber (decimalZ z) = true.
Proof.
  assert (∀ n, ∃ c ds, decimal n = c :: ds ∧ c ≠ 45 ∧ intPart (c :: ds) = Some []) as Hd.
  { intros n. destruct (decimal_digits n) as (c & ds & E & Hf & _ & H0). exists c, ds. split; [done|].
    pose proof (Forall_cons_1 _ _ _ Hf) as [Hc%digit_range _]. split; [lia|]. unfold intPart. destruct (Z.eqb_spec c 48) as [->|Hne]; [by rewrite H0|].
    unfold digits1. pose proof (span_app isDigit (c :: ds) [] Hf I) as Hsp. rewrite app_nil_r in Hsp. by rewrite Hsp. }
  unfold isNumber. apply bool_decide_eq_true. unfold decimalZ. destruct (Hd (Z.to_nat (- z))) as (c & ds & E & Hc & Hi).
  destruct (Hd (Z.to_nat z)) as (c' & ds' & E' & Hc' & Hi'). destruct (z <? 0).
  - simpl (45 =? 45). cbn iota. by rewrite E, Hi.
  - rewrite E'. apply Z.eqb_neq in Hc'. by rewrite Hc', Hi'.
Qed.

(** ** The integers and the special numbers *)

Inductive intNum := IntNum (z : Z) | INan | IInf | INInf | INegZero.

#[export] Instance intNum_eq_dec : EqDecision intNum.
Proof. solve_decision. Defined.

#[export] Instance intNum_num : JsNum intNum := {|
  nan := INan; inf := IInf; ninf := INInf; negZero := INegZero; ofZ := IntNum;
  toZ n := match n with IntNum z => Some z | INegZero => Some 0 | _ => None end;
  numText n := match n with
               | IntNum z => decimalZ z | INan => runes "NaN" | IInf => runes "Infinity" | INInf => runes "-Infinity" | INegZero => runes "0"
               end;
  readNum s := match readInt s with Some z => IntNum z | None => INan end |}.

#[export] Instance intNum_laws : JsNumLaws intNum.
Proof.
  split.
  - intros [z| | | |] (H1 & H2 & H3 & H4); try done. split_and!; [apply isNumber_decimalZ|apply decimalZ_units|].
    simpl. by rewrite readInt_decimalZ.
  - intros z _. by repeat split.
  - done.
  - done.
Qed.

(** ** Slots as JSON values *)

Section text.
Context {num : Type} `{HN : JsNum num} `{HL : !JsNumLaws num}.
#[local] Abbreviation json := (json num).
#[local] Abbreviation slot := (slot num).

Definition num_ (z : Z) : json := JNum (ofZ z).
Definition tag_ (t : string) (l : list json) : json := JArr (JStr (runes t) :: l).
Definition member_ (x : Z * Z) : jstr * json := (keyText x.1, num_ x.2).

Definition slotJson (s : slot) : json :=
  match s with
  | SNull => num_ (-5)
  | SBool b => JBool b
  | SNum n => JNum n
  | SStr s => JStr s
  | SBig z => tag_ "B" [JStr (decimalZ z)]
  | SSym k => tag_ "Y" [JStr k]
  | SArr cs => JArr (map num_ cs)
  | SDate None => tag_ "D" [JStr (runes "invalid")]
  | SDate (Some t) => tag_ "D" [num_ t]
  | SUrl h => tag_ "U" [JStr h]
  | SRegExp s f => tag_ "R" [JStr s; JStr f]
  | SSet cs => tag_ "S" (map num_ cs)
  | SMap cs => tag_ "M" (cs ≫= λ x, [num_ x.1; num_ x.2])
  | SPromise t => tag_ "P" [num_ (Z.of_nat t)]
  | SError m None => tag_ "E" [JStr m]
  | SError m (Some n) => tag_ "E" [JStr m; JStr n]
  | SBare ps => tag_ "N" [JObj (map member_ ps)]
  | SPlain ps => JObj (map member_ ps)
  end.

Definition safePair (x : Z * Z) : Prop := safe x.1 ∧ safe x.2.

(** Slots whose text is JSON. *)
Definition slotOk (s : slot) : Prop :=
  match s with
  | SNull | SBool _ | SBig _ => True
  | SNum n => finite n
  | SStr s | SSym s | SUrl s => units s
  | SArr cs | SSet cs => Forall safe cs
  | SDate t => match t with Some t => safe t | None => True end
  | SRegExp s f => units s ∧ units f
  | SMap cs => Forall safePair cs
  | SPromise t => safe (Z.of_nat t)
  | SError m n => units m ∧ match n with Some n => units n | None => True end
  | SBare ps | SPlain ps => Forall safePair ps ∧ NoDup ps.*1 ∧ Forall (λ x, 0 <= x.1) ps
  end.

(** *** Text that needs no escape *)

Definition bare (c : Z) : Prop := 32 <= c < 127 ∧ c ≠ 34 ∧ c ≠ 92.

Lemma quoteAll_bare s : Forall bare s → quoteAll s = s.
Proof.
  induction 1 as [|c s (Hc & H1 & H2) _ IH]; [done|]. cbn [quoteAll]. unfold isLead, isTrail, quoteUnit.
  replace (55296 <=? c) with false by lia. replace (56320 <=? c) with false by lia. simpl.
  replace (c =? 34) with false by lia. replace (c =? 92) with false by lia. replace (c =? 8) with false by lia.
  replace (c =? 12) with false by lia. replace (c =? 10) with false by lia. replace (c =? 13) with false by lia.
  replace (c =? 9) with false by lia. replace (c <? 32) with false by lia. simpl. by rewrite IH.
Qed.

Lemma decimal_bare n : Forall bare (decimal n).
Proof.
  destruct (decimal_digits n) as (c & ds & -> & Hf & _). eapply Forall_impl; [exact Hf|]. intros d Hd%digit_range. unfold bare. simpl. lia.
Qed.

Lemma decimalZ_bare z : Forall bare (decimalZ z).
Proof. unfold decimalZ. case_match; [|apply decimal_bare]. constructor; [by unfold bare|apply decimal_bare]. Qed.

Lemma bare_units s : Forall bare s → units s.
Proof. intros H. eapply Forall_impl; [exact H|]. intros c [Hc _]. simpl. lia. Qed.

Lemma keyText_bare k : Forall bare (keyText k).
Proof. constructor; [by unfold bare|apply decimalZ_bare]. Qed.

Lemma num_text z : safe z → jsonText (num_ z) = decimalZ z.
Proof. apply ofZ_text. Qed.

Lemma nums_text cs : Forall safe cs → map jsonText (map num_ cs) = map decimalZ cs.
Proof. induction 1 as [|z cs Hz _ IH]; [done|]. simpl. by rewrite IH, <- num_text. Qed.

Lemma tag_text t l args : quoteAll (runes t) = runes t → map jsonText l = args → jsonText (tag_ t l) = tagged t args.
Proof. intros Ht <-. unfold tag_, tagged, comma. cbn [jsonText map]. unfold quoteJSON. by rewrite Ht. Qed.

Lemma members_text ps : Forall safePair ps →
  map (λ x, quoteJSON x.1 ++ runes ":" ++ jsonText x.2) (map member_ ps) = map memberText ps.
Proof.
  induction 1 as [|[k v] ps [_ Hv] _ IH]; [done|]. cbn [map member_ fst snd]. rewrite IH. f_equal. unfold memberText, quoteJSON. cbn [fst snd].
  rewrite quoteAll_bare by apply keyText_bare. simpl in Hv. rewrite num_text by done. by rewrite <- !app_assoc.
Qed.

Lemma slot_text s : slotOk s → slotText s = jsonText (slotJson s).
Proof.
  destruct s as [|[]| | | | |cs|[t|]| | |cs|cs|t|m [n|]|ps|ps]; simpl slotOk; cbn [slotText slotJson]; intros Hs;
    try (symmetry; apply tag_text; [done|]; cbn [map jsonText]); try done.
  - by rewrite num_text.
  - unfold quoteJSON. by rewrite quoteAll_bare by apply decimalZ_bare.
  - cbn [jsonText]. by rewrite nums_text.
  - by rewrite num_text.
  - by apply nums_text.
  - induction Hs as [|[k v] cs [Hk Hv] _ IH]; [done|]. cbn [mbind list_bind app map fst snd] in *. rewrite IH. simpl in Hk, Hv. by rewrite !num_text.
  - by rewrite num_text.
  - cbn [jsonText]. by rewrite members_text by apply Hs.
  - cbn [jsonText]. by rewrite members_text by apply Hs.
Qed.

(** *** Slots are printable *)

Lemma nums_printable cs : Forall safe cs → foldr (λ x p, printable x ∧ p) True (map num_ cs).
Proof. induction 1 as [|z cs Hz _ IH]; [done|]. simpl. split; [by apply ofZ_finite|done]. Qed.

Lemma keyText_inj k k' : 0 <= k → 0 <= k' → keyText k = keyText k' → k = k'.
Proof.
  unfold keyText. intros H1 H2 [= E]. pose proof (readInt_decimalZ k) as Hk. rewrite E, readInt_decimalZ in Hk. congruence.
Qed.

Lemma keyText_no_index k : arrayIndex (keyText k) = None.
Proof. done. Qed.

Lemma members_ordered ps : NoDup ps.*1 → Forall (λ x, 0 <= x.1) ps → ordered (map member_ ps).
Proof.
  intros Hnd Hpos. split.
  - change (NoDup (fst <$> (member_ <$> ps))). rewrite <- list_fmap_compose. change (fst ∘ member_) with (λ x : Z * Z, keyText x.1).
    change (λ x : Z * Z, keyText x.1) with (keyText ∘ fst (A:=Z) (B:=Z)). rewrite list_fmap_compose.
    assert (Forall (λ k, 0 <= k) ps.*1) as Hp by (by apply Forall_fmap). clear Hpos. revert Hnd Hp. generalize (ps.*1) as ks.
    induction 1 as [|k ks Hk _ IH]; intros Hp; [constructor|]. apply Forall_cons in Hp as [H1 H2]. rewrite fmap_cons. constructor; [|by apply IH].
    intros (k' & E & Hin)%list_elem_of_fmap. rewrite Forall_forall in H2. apply keyText_inj in E; [|done|by apply H2]. by subst.
  - intros l1 x l2 E. unfold indexBefore. assert (x ∈ map member_ ps) as Hx by (rewrite E; apply elem_of_app; right; left).
    change (map member_ ps) with (member_ <$> ps) in Hx. apply list_elem_of_fmap in Hx as ([k v] & -> & _). done.
Qed.

Lemma members_printable ps : Forall safePair ps → NoDup ps.*1 → Forall (λ x, 0 <= x.1) ps → printable (JObj (map member_ ps)).
Proof.
  intros Hs Hnd Hpos. split; [by apply members_ordered|]. clear Hnd Hpos. induction Hs as [|[k v] ps [_ Hv] _ IH]; [done|].
  simpl. split; [apply bare_units, keyText_bare|]. split; [by apply ofZ_finite|done].
Qed.

Lemma tag_units t : Forall bare (runes t) → units (runes t).
Proof. apply bare_units. Qed.

Lemma slot_printable s : slotOk s → printable (slotJson s).
Proof.
  assert (∀ z, safe z → finite (ofZ z)) as Hz by apply ofZ_finite. assert (∀ c : Z, 0 <= c < 65536 → units [c]) as Hu by (intros c Hc; by apply Forall_singleton).
  destruct s as [|[]| | | | |cs|[t|]| | |cs|cs|t|m [n|]|ps|ps]; simpl slotOk; cbn [slotJson]; intros Hs; try done;
    try (split; [by apply Hu|]); try (by repeat split; try apply Hz).
  - split; [|done]. apply bare_units, decimalZ_bare.
  - by apply nums_printable.
  - split; [|done]. by apply bare_units; repeat constructor.
  - split; [apply Hs|]. split; [apply Hs|done].
  - by apply nums_printable.
  - induction Hs as [|[k v] cs [Hk Hv] _ IH]; [done|]. simpl. split; [by apply Hz|]. split; [by apply Hz|done].
  - split; [apply Hs|]. split; [apply Hs|done].
  - split; [apply Hs|done].
  - split; [|done]. apply members_printable; apply Hs.
  - apply members_printable; apply Hs.
Qed.

(** A line of slots is read back. *)
Lemma slots_written l : Forall slotOk l → slotsText (map Some l) = jsonText (JArr (map slotJson l)) ∧ printable (JArr (map slotJson l)).
Proof.
  intros Hl. split.
  - unfold slotsText, comma. cbn [jsonText]. do 3 f_equal. rewrite !map_map. apply map_ext_Forall. eapply Forall_impl; [exact Hl|]. apply slot_text.
  - cbn [printable]. induction Hl as [|s l Hs _ IH]; [done|]. simpl. split; [by apply slot_printable|done].
Qed.

Lemma number_written z : safe z → decimalZ z = jsonText (num_ z) ∧ printable (num_ z).
Proof. intros Hz. split; [by rewrite num_text|by apply ofZ_finite]. Qed.

End text.
