(* ===== verification/TurboDecode.v ===== *)
(** * What the decoder of the data stream builds

    The work list of the decoder, for a stream in which every number stands for a value
    (TurboEncode.v): each object built is the copy of one number, and each of its parts is
    there or on the work list.  When the lists are empty the copies are complete. *)

From Stdlib Require Import ZArith Lia.
From stdpp Require Import base numbers strings gmap option list.
From S2P Require Import Prelude Js Json TurboStream TurboEncode TurboText.

Open Scope Z_scope.

(** ** Heaps the codec carries over *)

Section fine.
Context {num : Type} `{HN : JsNum num}.
Context (newURL : jstr → option jstr) (newRegExp : jstr → jstr → option (jstr * jstr)).
#[local] Abbreviation val := (val num).
#[local] Abbreviation obj := (obj num).

(** What JavaScript keeps of its objects (the order of keys; no zero with a sign in sets
    and keys of maps); of an array, that its last element is no hole; of an object, that
    [__proto__] is no own key; of an error, that its class is one of the language. *)
Definition fineObj (o : obj) : Prop :=
  match o with
  | OArr l => last l ≠ Some None
  | OPlain ps => ordered ps ∧ runes "__proto__" ∉ ps.*1
  | OBare ps => ordered ps
  | ODate t => match t with Some t => Z.abs t <= maxTime | None => True end
  | OUrl u => units u ∧ newURL u = Some u
  | ORegExp r f => units r ∧ units f ∧ newRegExp r f = Some (r, f)
  | OSet l => Forall (λ v, keyOf v = v) l ∧ NoDup l
  | OMap l => Forall (λ p, keyOf p.1 = p.1) l ∧ NoDup l.*1
  | OPromise => True
  | OError n m => n ∈ standardErrors ∧ units m
  | OOther => False
  end.

Definition fineHeap (h : list obj) : Prop := Forall fineObj h.

End fine.

Section decode.
Context {num : Type} `{HN : JsNum num} `{HL : !JsNumLaws num}.
Context (newURL : jstr → option jstr) (newRegExp : jstr → jstr → option (jstr * jstr)) (isGlobal : jstr → bool).
#[local] Abbreviation val := (val num).
#[local] Abbreviation obj := (obj num).
#[local] Abbreviation slot := (slot num).
#[local] Abbreviation json := (json num).
#[local] Abbreviation ghost := (list (option val)).

Lemma specialOf_special (v : val) z : special v = Some z → specialOf z = Some v.
Proof. destruct v; simpl; intros Hs; simplify_eq; try done. repeat (case_decide; simplify_eq; try done). Qed.

Lemma specialOf_nat i : specialOf (num := num) (Z.of_nat i) = None.
Proof. unfold specialOf. by rewrite !(proj2 (Z.eqb_neq _ _)) by lia. Qed.

Lemma num_inj z z' : safe z → safe z' → num_ z = num_ z' → z = z'.
Proof. intros H1 H2 [= E]. pose proof (ofZ_toZ z H1) as E1. rewrite E, ofZ_toZ in E1 by done. congruence. Qed.

Lemma special_code (v : val) z : special v = Some z → -8 < z < -1.
Proof. destruct v; simpl; intros Hs; simplify_eq; try lia. repeat case_decide; inversion Hs; subst; lia. Qed.

Lemma denotes_small (vals : ghost) z v : Z.of_nat (length vals) < 2 ^ 53 → denotes vals z v → safe z.
Proof. unfold safe. intros Hlen [Hs%special_code|(i & -> & Hi%lookup_lt_Some)]; lia. Qed.

(** ** The streams the encoder makes *)

Record stream (h : list obj) (vals : ghost) (slots : list (option slot)) (vs : list json) : Prop := {
  str_heap : fineHeap newURL newRegExp h;
  str_small : Z.of_nat (length vals) < 2 ^ 53;
  str_length : length vs = length vals;
  str_special i v : vals !! i = Some (Some v) → special v = None;
  str_slot i v : vals !! i = Some (Some v) →
    ∃ s, slots !! i = Some (Some s) ∧ slotFor h vals i v s ∧ slotOk s ∧ vs !! i = Some (slotJson s);
}.

Section machine.
Context (h : list obj) (vals : ghost) (slots : list (option slot)) (vs : list json).
Hypothesis Hstr : stream h vals slots vs.
(** the number asked for *)
Context (z0 : Z).

(** What a number is when some are built. *)
Definition res (hy : gmap nat val) (z : Z) (w : val) : Prop :=
  match specialOf z with Some v => w = v | None => ∃ i, z = Z.of_nat i ∧ hy !! i = Some w end.

Definition resPair (hy : gmap nat val) (c : Z * Z) (w : val * val) : Prop := res hy c.1 w.1 ∧ res hy c.2 w.2.

Definition valid (z : Z) : Prop := is_Some (specialOf (num := num) z) ∨ ∃ i v, z = Z.of_nat i ∧ vals !! i = Some (Some v).

Lemma res_mono (hy hy' : gmap nat val) z w : hy ⊆ hy' → res hy z w → res hy' z w.
Proof.
  intros Hsub. unfold res. destruct (specialOf z); [done|]. intros (i & -> & Hi). exists i. split; [done|]. by eapply lookup_weaken.
Qed.

Lemma denotes_valid z v : denotes vals z v → valid z.
Proof. intros [Hs%specialOf_special|(i & -> & Hi)]; [left; by eexists|right; eauto]. Qed.

Lemma denotes_safe z v : denotes vals z v → safe z.
Proof. apply denotes_small, (str_small _ _ _ _ Hstr). Qed.

(** *** Parts of an object *)

Definition arrPart (hy : gmap nat val) (T : list (json * setter)) (dd : nat) (cs : list Z) (a : list (option val)) : Prop :=
  (length a <= length cs)%nat ∧
  (∀ k w, a !! k = Some (Some w) → ∃ z, cs !! k = Some z ∧ z ≠ -1 ∧ res hy z w) ∧
  (∀ k z, cs !! k = Some z → z ≠ -1 → (∃ w, a !! k = Some (Some w)) ∨ (num_ z, ToElem dd k) ∈ T).

Definition setWork (dd : nat) (T : list (json * setter)) : list json :=
  omap (λ x, match x.2 with ToSet l => if decide (l = dd) then Some x.1 else None | _ => None end) T.

Definition setPart (hy : gmap nat val) (T : list (json * setter)) (dd : nat) (cs : list Z) (ws : list val) : Prop :=
  ∃ done pend, cs = done ++ pend ∧ Forall2 (res hy) done ws ∧ setWork dd T = map num_ pend.

Definition pairWork (dd : nat) (A : list act) : list nat :=
  omap (λ a, match a with PutMap l p | PutKey l p => if decide (l = dd) then Some p else None end) A.

Definition pairPart (hy : gmap nat val) (A : list act) (pc : list (Z * Z)) (dd : nat) (cs : list (Z * Z)) (ws : list (val * val)) : Prop :=
  ∃ done pend, cs = done ++ pend ∧ Forall2 (resPair hy) done ws ∧ Forall2 (λ p c, pc !! p = Some c) (pairWork dd A) pend.

Definition propVals (ps : list (jstr * val)) : list (val * val) := map (λ x, (VStr x.1, x.2)) ps.

(** An object on its way to be the copy of a slot. *)
Definition part (hy : gmap nat val) (wt : gmap nat nat) (T : list (json * setter)) (A : list act) (pc : list (Z * Z))
    (dd i : nat) (s : slot) (o : obj) : Prop :=
  match s, o with
  | SArr cs, OArr a => arrPart hy T dd cs a
  | SSet cs, OSet ws => setPart hy T dd cs ws
  | SMap cs, OMap ws => pairPart hy A pc dd cs ws
  | SPlain cs, OPlain ps => pairPart hy A pc dd cs (propVals ps)
  | SBare cs, OBare ps => pairPart hy A pc dd cs (propVals ps)
  | SDate t, ODate t' => t = t'
  | SUrl u, OUrl u' => u = u'
  | SRegExp r f, ORegExp r' f' => r = r' ∧ f = f'
  | SPromise _, OPromise => wt !! i = Some dd
  | SError m n, OError n' m' => m = m' ∧ n' = default (runes "Error") n
  | _, _ => False
  end.

Definition comp {A} (b : bool) (x : A * A) : A := if b then x.2 else x.1.

Definition todoOk (own : list nat) (pc : list (Z * Z)) (x : json * setter) : Prop :=
  ∃ z, x.1 = num_ z ∧ valid z ∧ safe z ∧
  match x.2 with
  | ToResult => z = z0
  | ToSet dd => ∃ i cs, own !! dd = Some i ∧ slots !! i = Some (Some (SSet cs))
  | ToCell p b => ∃ c, pc !! p = Some c ∧ z = comp b c
  | ToElem dd k => ∃ i cs, own !! dd = Some i ∧ slots !! i = Some (Some (SArr cs)) ∧ cs !! k = Some z ∧ z ≠ -1
  end.

Definition actOk (own : list nat) (pc : list (Z * Z)) (a : act) : Prop :=
  match a with
  | PutMap dd p => is_Some (pc !! p) ∧ ∃ i cs, own !! dd = Some i ∧ slots !! i = Some (Some (SMap cs))
  | PutKey dd p => is_Some (pc !! p) ∧ ∃ i cs, own !! dd = Some i ∧ (slots !! i = Some (Some (SPlain cs)) ∨ slots !! i = Some (Some (SBare cs)))
  end.

(** What a number is built as. *)
Definition builtAs (own : list nat) (i : nat) (w : val) : Prop :=
  match vals !! i with
  | Some (Some (VObj _)) => ∃ dd, w = VObj dd ∧ own !! dd = Some i
  | Some (Some v) => w = v
  | Some None => True
  | None => False
  end.

(** The state, with the work [T] and [A] left: [own] has the number each object copies,
    [pc] the numbers each cell is for. *)
Record inv (T : list (json * setter)) (A : list act) (d : Dec) (own : list nat) (pc : list (Z * Z)) : Prop := {
  inv_values : values d = vs;
  inv_len : length own = length (objects d);
  inv_hyd i w : hydrated d !! i = Some w → builtAs own i w;
  inv_own dd i : own !! dd = Some i → hydrated d !! i = Some (VObj dd) ∧ ∃ l, vals !! i = Some (Some (VObj l));
  inv_obj dd i s o : own !! dd = Some i → slots !! i = Some (Some s) → objects d !! dd = Some o →
    part (hydrated d) (waiting d) T A pc dd i s o;
  inv_wait i dd : waiting d !! i = Some dd → own !! dd = Some i;
  inv_cells_len : length pc = length (cells d);
  inv_cells p c x b : pc !! p = Some c → cells d !! p = Some x →
    (num_ (comp b c), ToCell p b) ∈ T ∨ res (hydrated d) (comp b c) (comp b x);
  inv_todo : Forall (todoOk own pc) T;
  inv_acts : Forall (actOk own pc) A;
  inv_root : (num_ z0, ToResult) ∈ T ∨ res (hydrated d) z0 (result d);
}.

(** *** Which value an object or value copies *)

Definition srcOf (own : list nat) (w : val) : option val :=
  match w with VObj dd => i ← own !! dd; v ← vals !! i; v | _ => Some w end.

Lemma res_source T A d own pc z w v : inv T A d own pc → res (hydrated d) z w → denotes vals z v → keyOf v = v → srcOf own w = Some v.
Proof.
  intros Hi Hr [Hs|(i & -> & Hv)] Hk; unfold res in Hr.
  - rewrite (specialOf_special _ _ Hs) in Hr. subst w. destruct v; done.
  - rewrite Hk in Hv. pose proof (str_special _ _ _ _ Hstr _ _ Hv) as Hns.
    rewrite specialOf_nat in Hr. destruct Hr as (i' & Heq & Hh). apply Nat2Z.inj in Heq as <-. apply (inv_hyd _ _ _ _ _ Hi) in Hh.
    unfold builtAs in Hh. rewrite Hv in Hh. destruct v; subst; try done. destruct Hh as (dd & -> & Ho). unfold srcOf.
    rewrite Ho. simpl. by rewrite Hv.
Qed.

(** *** Putting a value in its place *)

(** What is done elsewhere leaves a part as it is. *)
Lemma part_frame hy hy' wt wt' T T' A A' pc pc' dd i s o :
  part hy wt T A pc dd i s o → hy ⊆ hy' → wt ⊆ wt' →
  (∀ c k, (c, ToElem dd k) ∈ T → (c, ToElem dd k) ∈ T') → setWork dd T' = setWork dd T → pairWork dd A' = pairWork dd A →
  (∀ p c, pc !! p = Some c → pc' !! p = Some c) → part hy' wt' T' A' pc' dd i s o.
Proof.
  intros Hp Hh Hw HT HS HA Hpc.
  assert (∀ cs ws, pairPart hy A pc dd cs ws → pairPart hy' A' pc' dd cs ws) as Hpair.
  { intros cs ws (dn & pend & -> & Hd & Hf). exists dn, pend. split; [done|]. rewrite HA. split.
    - eapply Forall2_impl; [exact Hd|]. intros c w [H1 H2]. split; by eapply res_mono.
    - eapply Forall2_impl; [exact Hf|]. eauto. }
  destruct s, o; simpl in *; try done; auto.
  - destruct Hp as (Hl & Hs & Ht). split; [done|]. split.
    + intros k w Hk. destruct (Hs k w Hk) as (z & Hz & Hne & Hr). exists z. split_and!; [done..|by eapply res_mono].
    + intros k z Hk Hne. destruct (Ht k z Hk Hne); [by left|right; by apply HT].
  - destruct Hp as (dn & pend & -> & Hd & Hf). exists dn, pend. split; [done|]. rewrite HS. split; [|done].
    eapply Forall2_impl; [exact Hd|]. intros c w. by apply res_mono.
  - by eapply lookup_weaken.
Qed.

(** A popped entry that is not about an object leaves its part. *)
Lemma part_pop hy wt c s T A pc dd i sl o : part hy wt ((c, s) :: T) A pc dd i sl o →
  (∀ k, s ≠ ToElem dd k) → s ≠ ToSet dd → part hy wt T A pc dd i sl o.
Proof.
  intros Hp H1 H2. eapply part_frame; [exact Hp|done|done| | |done|done].
  - intros c' k [Heq|?]%elem_of_cons; [|done]. simplify_eq. by destruct (H1 k).
  - unfold setWork. simpl. destruct s as [|l|p b|l k]; try done. case_decide as E; [|done]. by subst.
Qed.

(** What every delivery leaves: the cells and the work of the others. *)
Lemma cells_pop (c x : json) s T p b : (x, ToCell p b) ∈ (c, s) :: T → s ≠ ToCell p b → (x, ToCell p b) ∈ T.
Proof. intros [Heq|?]%elem_of_cons Hs; [|done]. by simplify_eq. Qed.

Lemma deliver_result z w T A d own pc : inv ((num_ z, ToResult) :: T) A d own pc → safe z → res (hydrated d) z w →
  inv T A (deliver ToResult w d) own pc.
Proof.
  intros [] Hz Hr. apply Forall_cons_1 in inv_todo0 as [(z' & Heq & _ & Hs' & Hroot) HT]. simpl in Heq, Hroot.
  apply num_inj in Heq; [|done|done]. subst z' z. split; simpl; try done.
  - intros dd i s o H1 H2 H3. by eapply part_pop; [by apply inv_obj0|..].
  - intros p c x b H1 H2. destruct (inv_cells0 p c x b H1 H2) as [?|?]; [left; by eapply cells_pop|by right].
  - by right.
Qed.

Lemma deliver_cell z w p b T A d own pc : inv ((num_ z, ToCell p b) :: T) A d own pc → safe z → res (hydrated d) z w →
  inv T A (deliver (ToCell p b) w d) own pc.
Proof.
  intros [] Hz Hr. apply Forall_cons_1 in inv_todo0 as [(z' & Heq & _ & Hs' & c0 & Hc0 & Hzc) HT]. simpl in Heq.
  apply num_inj in Heq; [|done|done]. subst z'. split; simpl; try done.
  - intros dd i s o H1 H2 H3. by eapply part_pop; [by apply inv_obj0|..].
  - by rewrite length_alter.
  - intros p' c x b' H1 H2. destruct (decide (p' = p)) as [->|Hne].
    + rewrite list_lookup_alter_eq in H2. destruct (cells d !! p) as [y|] eqn:Ey; [|done]. simpl in H2. injection H2 as <-.
      assert (c = c0) as -> by congruence. destruct (decide (b' = b)) as [->|Hb].
      * right. rewrite <- Hzc. by destruct b.
      * destruct (inv_cells0 p c0 y b' H1 Ey) as [?|?]; [left; eapply cells_pop; [done|congruence]|right]. by destruct b, b'.
    + rewrite list_lookup_alter_ne in H2 by done. destruct (inv_cells0 p' c x b' H1 H2) as [?|?]; [left; eapply cells_pop; [done|congruence]|by right].
  - destruct inv_root0 as [[?|?]%elem_of_cons|?]; [done|by left|by right].
Qed.

Lemma deliver_elem z w l k T A d own pc : inv ((num_ z, ToElem l k) :: T) A d own pc → safe z → res (hydrated d) z w →
  inv T A (deliver (ToElem l k) w d) own pc.
Proof.
  intros [] Hz Hr. apply Forall_cons_1 in inv_todo0 as [(z' & Heq & _ & Hs' & i0 & cs & Hi0 & Hcs & Hk & Hne) HT]. simpl in Heq.
  apply num_inj in Heq; [|done|done]. subst z'. split; simpl; try done.
  - by rewrite length_alter.
  - intros dd i s o H1 H2 H3. destruct (decide (dd = l)) as [->|Hd].
    + rewrite list_lookup_alter_eq in H3. destruct (objects d !! l) as [y|] eqn:Ey; [|done]. simpl in H3. injection H3 as <-.
      assert (i = i0) as -> by congruence. assert (s = SArr cs) as -> by congruence. pose proof (inv_obj0 l i0 _ y H1 H2 Ey) as Hp.
      destruct y; simpl in Hp |- *; try done. destruct Hp as (Hl & Hv & Ht). pose proof (lookup_lt_Some _ _ _ Hk). split_and!.
      * rewrite length_arrSet. lia.
      * intros k' w'. rewrite lookup_arrSet. case_decide as E; [intros [= <-]; subst; eauto|]. case_decide; [eauto|by case_decide].
      * intros k' z' Hk' Hne'. rewrite lookup_arrSet. case_decide as E; [left; eauto|]. destruct (Ht k' z' Hk' Hne') as [(w' & Hw')|Hin].
        { left. exists w'. by rewrite decide_True by by apply lookup_lt_Some in Hw'. }
        right. apply elem_of_cons in Hin as [Heq|?]; [|done]. by simplify_eq.
    + rewrite list_lookup_alter_ne in H3 by done. eapply part_pop; [by apply inv_obj0|congruence|done].
  - intros p c x b H1 H2. destruct (inv_cells0 p c x b H1 H2) as [?|?]; [left; by eapply cells_pop|by right].
  - destruct inv_root0 as [[?|?]%elem_of_cons|?]; [done|by left|by right].
Qed.

(** The object an object on its way copies. *)
Lemma slot_source T A d own pc dd i s : inv T A d own pc → own !! dd = Some i → slots !! i = Some (Some s) →
  ∃ l o, vals !! i = Some (Some (VObj l)) ∧ h !! l = Some o ∧ objSlot vals i o s ∧ fineObj newURL newRegExp o ∧ slotOk s.
Proof.
  intros Hi Ho Hs. destruct (inv_own _ _ _ _ _ Hi _ _ Ho) as (_ & l & Hl).
  destruct (str_slot _ _ _ _ Hstr _ _ Hl) as (s' & Hs' & Hf & Hok & _). assert (s' = s) as -> by congruence.
  simpl in Hf. destruct (h !! l) as [o|] eqn:Eo; [|done]. exists l, o. split_and!; try done.
  pose proof (str_heap _ _ _ _ Hstr) as Hh. unfold fineHeap in Hh. rewrite Forall_forall in Hh. apply Hh. by eapply list_elem_of_lookup_2.
Qed.

Lemma srcOf_key own w v : srcOf own w = Some v → keyOf v = v → keyOf w = w.
Proof. intros Hs Hk. destruct w; try done; simpl in Hs; by simplify_eq. Qed.

(** A value comes once among the copies of values that come once. *)
Lemma copies_fresh T A d own pc src cs ws z w v : inv T A d own pc →
  Forall2 (λ v z, denotes vals z v) src cs → Forall (λ v, keyOf v = v) src → Forall2 (res (hydrated d)) cs ws →
  denotes vals z v → keyOf v = v → res (hydrated d) z w → v ∉ src → w ∉ ws.
Proof.
  intros Hi Hsrc Hkeys Hres Hd Hk Hr Hv (j & Hj)%list_elem_of_lookup.
  destruct (Forall2_lookup_r _ _ _ _ _ Hres Hj) as (z' & Hz' & Hr'). destruct (Forall2_lookup_r _ _ _ _ _ Hsrc Hz') as (v' & Hv' & Hd').
  assert (v' ∈ src) as Hin by by eapply list_elem_of_lookup_2. rewrite Forall_forall in Hkeys. pose proof (Hkeys _ Hin) as Hk'.
  pose proof (res_source _ _ _ _ _ _ _ _ Hi Hr' Hd' Hk') as E1. pose proof (res_source _ _ _ _ _ _ _ _ Hi Hr Hd Hk) as E2. congruence.
Qed.

Lemma setWork_cons dd (c : json) T : setWork dd ((c, ToSet dd) :: T) = c :: setWork dd T.
Proof. unfold setWork. simpl. by rewrite decide_True. Qed.

Lemma deliver_set z w l T A d own pc : inv ((num_ z, ToSet l) :: T) A d own pc → safe z → res (hydrated d) z w →
  inv T A (deliver (ToSet l) w d) own pc.
Proof.
  intros Hinv Hz Hr. pose proof (inv_todo _ _ _ _ _ Hinv) as [(z' & _ & _ & _ & i0 & cs & Hi0 & Hcs) HT]%Forall_cons_1.
  destruct (slot_source _ _ _ _ _ _ _ _ Hinv Hi0 Hcs) as (ls & o & Hls & Ho & Hos & Hfo & Hsok). simpl in Hsok.
  destruct o as [| | | | | |src| | | |]; try done. destruct Hfo as [Hkeys Hnd]. simpl in Hos. pose proof Hinv as [].
  split; simpl; try done.
  - by rewrite length_alter.
  - intros dd i s o H1 H2 H3. destruct (decide (dd = l)) as [->|Hd].
    + rewrite list_lookup_alter_eq in H3. destruct (objects d !! l) as [y|] eqn:Ey; [|done]. simpl in H3. injection H3 as <-.
      assert (i = i0) as -> by congruence. assert (s = SSet cs) as -> by congruence. pose proof (inv_obj0 l i0 _ y H1 H2 Ey) as Hp.
      destruct y as [| | | | | |ws| | | |]; simpl in Hp |- *; try done. destruct Hp as (dn & pend & -> & Hd & Hw). rewrite setWork_cons in Hw.
      destruct pend as [|z1 pend]; [done|]. injection Hw as Hz1 Hw.
      apply Forall_app in Hsok as [Hsd [Hsz1 Hsp]%Forall_cons_1]. assert (z = z1) as <- by (apply num_inj; [done|done|unfold num_; by f_equal]).
      apply Forall2_app_inv_r in Hos as (s1 & s2 & Hs1 & Hs2 & ->). apply Forall2_cons_inv_r in Hs2 as (v & s3 & Hv & Hs3 & ->).
      apply Forall_app in Hkeys as [Hk1 [Hk _]%Forall_cons_1]. apply NoDup_app in Hnd as (_ & Hdis & _).
      assert (w ∉ ws) as Hfresh.
      { eapply copies_fresh; [exact Hinv|exact Hs1|exact Hk1|exact Hd|exact Hv|done|exact Hr|].
        intros Hin. apply (Hdis v Hin). left. }
      assert (keyOf w = w) as Hkw by (apply (srcOf_key own w v); [by eapply res_source|done]).
      unfold setAdd. rewrite Hkw, decide_False by done. exists (dn ++ [z]), pend. split; [by rewrite <- app_assoc|]. split; [|done].
      apply Forall2_app; [done|by constructor].
    + rewrite list_lookup_alter_ne in H3 by done. eapply part_pop; [by apply inv_obj0|done|congruence].
  - intros p c x b H1 H2. destruct (inv_cells0 p c x b H1 H2) as [?|?]; [left; by eapply cells_pop|by right].
  - destruct inv_root0 as [[?|?]%elem_of_cons|?]; [done|by left|by right].
Qed.

Lemma deliver_ok z w s T A d own pc : inv ((num_ z, s) :: T) A d own pc → safe z → res (hydrated d) z w → inv T A (deliver s w d) own pc.
Proof. destruct s; [apply deliver_result|apply deliver_set|apply deliver_cell|apply deliver_elem]. Qed.

(** *** Building *)

(** A primitive is what its slot says. *)
Lemma place_ok i v T A d own pc : inv T A d own pc → vals !! i = Some (Some v) → (∀ l, v ≠ VObj l) →
  inv T A (withHydrated i v d) own pc ∧ hydrated d ⊆ hydrated (withHydrated i v d).
Proof.
  intros Hinv Hv Hp. pose proof Hinv as []. assert (hydrated d ⊆ <[i := v]> (hydrated d)) as Hsub.
  { apply map_subseteq_spec. intros j w Hj. rewrite lookup_insert. case_decide as E; [|done]. subst j. apply inv_hyd0 in Hj. unfold builtAs in Hj.
    rewrite Hv in Hj. destruct v; subst; try done. by destruct (Hp l). }
  split; [|done]. split; simpl; try done.
  - intros j w. rewrite lookup_insert. case_decide as E; [|by apply inv_hyd0]. intros [= <-]. subst j. unfold builtAs. rewrite Hv.
    destruct v; try done. by destruct (Hp l).
  - intros dd j Hj. destruct (inv_own0 dd j Hj) as [H1 H2]. split; [|done]. by eapply lookup_weaken.
  - intros dd j s o H1 H2 H3. eapply part_frame; [by apply inv_obj0|done..].
  - intros p c x b H1 H2. destruct (inv_cells0 p c x b H1 H2) as [?|?]; [by left|right; by eapply res_mono].
  - destruct inv_root0; [by left|right; by eapply res_mono].
Qed.

Definition aims (dd : nat) (n : nat) (x : json * setter) : Prop :=
  match x.2 with ToResult => False | ToSet l | ToElem l _ => l = dd | ToCell p _ => (n <= p)%nat end.

Definition aimsAct (dd : nat) (a : act) : Prop := match a with PutMap l _ | PutKey l _ => l = dd end.

Lemma setWork_app dd T T' : setWork dd (T ++ T') = setWork dd T ++ setWork dd T'.
Proof. unfold setWork. by rewrite omap_app. Qed.

Lemma pairWork_app dd A A' : pairWork dd (A ++ A') = pairWork dd A ++ pairWork dd A'.
Proof. unfold pairWork. by rewrite omap_app. Qed.

Lemma setWork_other dd dd' n N : Forall (aims dd n) N → dd' ≠ dd → setWork dd' N = [].
Proof.
  intros Hall Hd. induction Hall as [|[c s] N Hx _ IH]; [done|]. unfold setWork in *. simpl. unfold aims in Hx.
  destruct s; simpl in *; try done. subst. by rewrite decide_False by congruence.
Qed.

Lemma pairWork_other dd dd' N : Forall (aimsAct dd) N → dd' ≠ dd → pairWork dd' N = [].
Proof.
  intros Hall Hd. induction Hall as [|a N Hx _ IH]; [done|]. unfold pairWork in *. simpl. unfold aimsAct in Hx.
  destruct a; simpl in *; subst; by rewrite decide_False by congruence.
Qed.

Lemma todoOk_mono own own' pc pc' x : (∀ dd i, own !! dd = Some i → own' !! dd = Some i) → (∀ p c, pc !! p = Some c → pc' !! p = Some c) →
  todoOk own pc x → todoOk own' pc' x.
Proof.
  intros Ho Hp (z & Hz & Hv & Hs & Hx). exists z. split_and!; try done. destruct (x.2); [done|..]; naive_solver.
Qed.

Lemma actOk_mono own own' pc pc' a : (∀ dd i, own !! dd = Some i → own' !! dd = Some i) → (∀ p c, pc !! p = Some c → pc' !! p = Some c) →
  actOk own pc a → actOk own' pc' a.
Proof.
  intros Ho Hp. destruct a; simpl; intros [[c Hc] (i & cs & Hi & Hcs)]; (split; [exists c; by apply Hp|]); exists i, cs; split; auto.
Qed.

(** A new object with its work [N] and [B] and the cells [C] it needs. *)
Lemma create_ok i l s o e T N A B C d d' own pc :
  inv (e :: T) A d own pc → vals !! i = Some (Some (VObj l)) → slots !! i = Some (Some s) → hydrated d !! i = None →
  values d' = values d → result d' = result d → hydrated d' = <[i := VObj (length (objects d))]> (hydrated d) →
  objects d' = objects d ++ [o] → cells d' = cells d ++ replicate (length C) (VUndef, VUndef) → waiting d ⊆ waiting d' →
  let own' := own ++ [i] in let pc' := pc ++ C in let dd := length (objects d) in
  (∀ j x, waiting d' !! j = Some x → waiting d !! j = Some x ∨ j = i ∧ x = dd) →
  Forall (todoOk own' pc') N → Forall (actOk own' pc') B → Forall (aims dd (length pc)) N → Forall (aimsAct dd) B →
  (∀ j c b, C !! j = Some c → (num_ (comp b c), ToCell (length pc + j) b) ∈ N) →
  part (hydrated d') (waiting d') (e :: N ++ T) (B ++ A) pc' dd i s o →
  inv (e :: N ++ T) (B ++ A) d' own' pc' ∧ hydrated d ⊆ hydrated d'.
Proof.
  intros Hinv Hl Hs Hnone Hval Hres Hhyd Hobj Hcel Hwt own' pc' dd Hwd Htodo HB HaN HaB HC Hpart. pose proof Hinv as [].
  assert (hydrated d ⊆ hydrated d') as Hsub by (rewrite Hhyd; by apply insert_subseteq).
  assert (∀ dd i, own !! dd = Some i → own' !! dd = Some i) as Hown by (intros; by apply lookup_app_l_Some).
  assert (∀ p c, pc !! p = Some c → pc' !! p = Some c) as Hpc by (intros; by apply lookup_app_l_Some).
  assert (∀ x, x ∈ e :: T → x ∈ e :: N ++ T) as HT by set_solver.
  assert (own' !! dd = Some i) as Hdd by (unfold own', dd; rewrite <- inv_len0, lookup_app_r, Nat.sub_diag by lia; done).
  assert (∀ dd' j, own' !! dd' = Some j → own !! dd' = Some j ∧ dd' ≠ dd ∨ dd' = dd ∧ j = i) as Hcases.
  { intros dd' j [Hj|[Hge Hj]]%lookup_app_Some; [left; split; [done|]; apply lookup_lt_Some in Hj; unfold dd; lia|right].
    destruct (dd' - length own)%nat eqn:E; simplify_eq/=. unfold dd. lia. }
  split; [|done]. split.
  - by rewrite Hval.
  - unfold own'. rewrite Hobj, !length_app, inv_len0. done.
  - intros j w. rewrite Hhyd, lookup_insert. case_decide as E.
    + intros [= <-]. subst j. unfold builtAs. rewrite Hl. by exists dd.
    + intros Hj%inv_hyd0. unfold builtAs in *. repeat case_match; try done. destruct Hj as (x & -> & Hx). exists x. split; [done|]. by apply Hown.
  - intros dd' j [[Hj Hne]|[-> ->]]%Hcases.
    + destruct (inv_own0 _ _ Hj) as [H1 H2]. split; [by eapply lookup_weaken|done].
    + split; [|by exists l]. rewrite Hhyd. apply lookup_insert_eq.
  - intros dd' j s' o' [[Hj Hne]|[-> ->]]%Hcases Hs' Ho'.
    + rewrite Hobj in Ho'. rewrite lookup_app_l in Ho' by (rewrite <- inv_len0; by eapply lookup_lt_Some). eapply part_frame; [by apply inv_obj0|done|done|..].
      * intros c k. apply HT.
      * change (e :: N ++ T) with ([e] ++ N ++ T). change (e :: T) with ([e] ++ T). by rewrite !setWork_app, (setWork_other dd dd' (length pc) N).
      * by rewrite pairWork_app, (pairWork_other dd dd' B).
      * done.
    + assert (s' = s) as -> by congruence. rewrite Hobj in Ho'. unfold dd in Ho'. rewrite lookup_app_r, Nat.sub_diag in Ho' by lia. simpl in Ho'. by simplify_eq.
  - intros j x [Hx|[-> ->]]%Hwd; [|done]. by apply Hown, inv_wait0.
  - rewrite Hcel. unfold pc'. rewrite !length_app, length_replicate. lia.
  - intros p c x b Hp Hx. apply lookup_app_Some in Hp as [Hp|[Hge Hp]].
    + rewrite Hcel, lookup_app_l in Hx by (rewrite <- inv_cells_len0; by eapply lookup_lt_Some).
      destruct (inv_cells0 p c x b Hp Hx) as [?|?]; [left; by apply HT|right; by eapply res_mono].
    + left. right. apply elem_of_app. left. replace p with (length pc + (p - length pc))%nat by lia. by apply HC.
  - apply Forall_cons_1 in inv_todo0 as [He HT']. constructor; [by eapply todoOk_mono|]. apply Forall_app. split; [done|].
    eapply Forall_impl; [exact HT'|]. intros x. by apply todoOk_mono.
  - apply Forall_app. split; [done|]. eapply Forall_impl; [exact inv_acts0|]. intros x. by apply actOk_mono.
  - rewrite Hres. destruct inv_root0; [left; by apply HT|right; by eapply res_mono].
Qed.

(** *** The work of a slot *)

Lemma setWork_fresh own pc T : Forall (todoOk own pc) T → setWork (length own) T = [].
Proof.
  induction 1 as [|[c s] T (z & _ & _ & _ & Hx) _ IH]; [done|]. unfold setWork in *. simpl in *. destruct s; try done.
  destruct Hx as (i & cs & Hi%lookup_lt_Some & _). by rewrite decide_False by lia.
Qed.

Lemma pairWork_fresh own pc A : Forall (actOk own pc) A → pairWork (length own) A = [].
Proof.
  induction 1 as [|a A Hx _ IH]; [done|]. unfold pairWork in *. destruct a; simpl in *;
    destruct Hx as (_ & i & cs & Hi%lookup_lt_Some & _); by rewrite decide_False by lia.
Qed.

Definition numPair (c : Z * Z) : json * json := (num_ c.1, num_ c.2).

Fixpoint pairTodo (n : nat) (l : list (json * json)) : list (json * setter) :=
  match l with
  | [] => []
  | x :: l => (x.1, ToCell (n + length l) false) :: (x.2, ToCell (n + length l) true) :: pairTodo n l
  end.

Fixpoint pairActs (a : nat → act) (n : nat) (l : list (json * json)) : list act :=
  match l with [] => [] | x :: l => a (n + length l)%nat :: pairActs a n l end.

Lemma pushPairs_eq a l d : pushPairs a l d =
  withActs (pairActs a (length (cells d)) l ++ acts d)
    (withTodo (pairTodo (length (cells d)) l ++ todo d) (withCells (cells d ++ replicate (length l) (VUndef, VUndef)) d)).
Proof.
  induction l as [|x l IH]; [destruct d; simpl; by rewrite app_nil_r|]. unfold pushPairs in *. cbn [foldr]. rewrite IH.
  unfold pushPair, push, withActs, withTodo, withCells. simpl. rewrite length_app, length_replicate.
  rewrite <- app_assoc. f_equal. f_equal. by rewrite replicate_cons_app.
Qed.

Lemma length_pairTodo n l : length (pairTodo n l) = (2 * length l)%nat.
Proof. induction l as [|x l IH]; [done|]. simpl. rewrite IH. lia. Qed.

Lemma reverse_cons_last {B} (c : B) l : reverse (c :: l) !! length l = Some c.
Proof. rewrite reverse_cons, lookup_app_r, length_reverse, Nat.sub_diag by (rewrite length_reverse; lia). done. Qed.

Lemma pairTodo_cells n cs j c b : reverse cs !! j = Some c → (num_ (comp b c), ToCell (n + j) b) ∈ pairTodo n (map numPair cs).
Proof.
  induction cs as [|c0 cs IH]; [done|]. rewrite reverse_cons. intros [Hj|[Hge Hj]]%lookup_app_Some.
  - cbn [map pairTodo]. do 2 right. by apply IH.
  - rewrite length_reverse in Hge, Hj. destruct (j - length cs)%nat eqn:E; simplify_eq/=.
    rewrite length_map. replace (n + length cs)%nat with (n + j)%nat by lia. destruct b; [right; left|left].
Qed.

Lemma pairActs_cells (a : nat → act) dd (pc : list (Z * Z)) cs : (∀ p, pairWork dd [a p] = [p]) →
  Forall2 (λ p c, (pc ++ reverse cs) !! p = Some c) (pairWork dd (pairActs a (length pc) (map numPair cs))) cs.
Proof.
  intros Ha. induction cs as [|c cs IH]; [done|]. cbn [map pairActs]. rewrite length_map.
  change (pairWork dd (?x :: ?l)) with (pairWork dd ([x] ++ l)). rewrite pairWork_app, Ha. simpl. constructor.
  - rewrite lookup_app_r by lia. rewrite Nat.add_comm, Nat.add_sub. apply reverse_cons_last.
  - eapply Forall2_impl; [exact IH|]. intros p c' Hp. rewrite reverse_cons, (assoc_L (++)). by apply lookup_app_l_Some.
Qed.

Lemma pairTodo_ok own (pc : list (Z * Z)) cs : Forall safePair cs → Forall (λ c, valid c.1 ∧ valid c.2) cs →
  Forall (todoOk own (pc ++ reverse cs)) (pairTodo (length pc) (map numPair cs)).
Proof.
  induction cs as [|c cs IH]; [constructor|]. intros [[Hs1 Hs2] Hs]%Forall_cons_1 [[Hv1 Hv2] Hv]%Forall_cons_1.
  cbn [map pairTodo]. rewrite length_map.
  assert ((pc ++ reverse (c :: cs)) !! (length pc + length cs)%nat = Some c) as Hc.
  { rewrite lookup_app_r by lia. rewrite Nat.add_comm, Nat.add_sub. apply reverse_cons_last. }
  constructor; [exists c.1; split_and!; [done..|]; simpl; by exists c|].
  constructor; [exists c.2; split_and!; [done..|]; simpl; by exists c|].
  eapply Forall_impl; [by apply IH|]. intros x. apply todoOk_mono; [done|]. intros p c' Hp. rewrite reverse_cons, (assoc_L (++)). by apply lookup_app_l_Some.
Qed.

Lemma pairTodo_aims dd n (l : list (json * json)) : Forall (aims dd n) (pairTodo n l).
Proof. induction l as [|x l IH]; [constructor|]. simpl. constructor; [unfold aims; simpl; lia|]. constructor; [unfold aims; simpl; lia|done]. Qed.

Lemma pairActs_all (P : act → Prop) a n l : (∀ j, (j < length l)%nat → P (a (n + j)%nat)) → Forall P (pairActs a n l).
Proof. induction l as [|x l IH]; intros HP; [constructor|]. simpl in *. constructor; [apply HP; lia|]. apply IH. intros j Hj. apply HP. lia. Qed.

Lemma elemWork_in dd cs k z : Forall safe cs → cs !! k = Some z → z ≠ -1 → (num_ z, ToElem dd k) ∈ elemWork dd (map num_ cs).
Proof.
  intros Hs Hk Hz. unfold elemWork. apply elem_of_reverse, list_elem_of_filter. split.
  - simpl. apply bool_decide_eq_false. rewrite Forall_forall in Hs. rewrite ofZ_toZ by (apply Hs; by eapply list_elem_of_lookup_2). congruence.
  - apply list_elem_of_lookup. exists k. rewrite list_lookup_imap. change (map num_ cs) with (num_ <$> cs). by rewrite list_lookup_fmap, Hk.
Qed.

Lemma elemWork_all dd cs x : x ∈ elemWork dd (map num_ cs) → Forall safe cs →
  ∃ k z, x = (num_ z, ToElem dd k) ∧ cs !! k = Some z ∧ z ≠ -1 ∧ safe z.
Proof.
  intros [Hh (k & Hk)%list_elem_of_lookup]%elem_of_reverse%list_elem_of_filter Hs. rewrite list_lookup_imap in Hk.
  change (map num_ cs) with (num_ <$> cs) in Hk. rewrite list_lookup_fmap in Hk. destruct (cs !! k) as [z|] eqn:Ez; [|done]. simpl in Hk. injection Hk as <-.
  assert (safe z) as Hz by (rewrite Forall_forall in Hs; apply Hs; by eapply list_elem_of_lookup_2).
  exists k, z. split_and!; try done. intros ->. simpl in Hh. by rewrite ofZ_toZ, bool_decide_true in Hh.
Qed.

Lemma length_elemWork dd (cs : list json) : (length (elemWork dd cs) <= length cs)%nat.
Proof. unfold elemWork. rewrite length_reverse. etrans; [apply length_filter|]. by rewrite length_imap. Qed.

(** *** One turn *)

(** The references of the slots not built yet. *)
Fixpoint unbuilt (hy : gmap nat val) (k : nat) (l : list json) : nat :=
  match l with
  | [] => O
  | j :: l => (match hy !! k with None => refs j | Some _ => O end + unbuilt hy (S k) l)%nat
  end.

Lemma unbuilt_mono (hy hy' : gmap nat val) k l : hy ⊆ hy' → (unbuilt hy' k l <= unbuilt hy k l)%nat.
Proof.
  intros Hsub. revert k. induction l as [|j l IH]; intros k; [done|]. simpl. specialize (IH (S k)).
  destruct (hy !! k) as [w|] eqn:E; [rewrite (lookup_weaken _ _ _ _ E Hsub); lia|]. destruct (hy' !! k); lia.
Qed.

Lemma unbuilt_insert (hy : gmap nat val) i w k l j : hy !! (k + i)%nat = None → l !! i = Some j →
  (unbuilt (<[(k + i)%nat := w]> hy) k l + refs j <= unbuilt hy k l)%nat.
Proof.
  revert k i. induction l as [|j0 l IH]; intros k i Hn Hj; [done|]. destruct i as [|i]; simpl in Hj |- *.
  - injection Hj as ->. rewrite Nat.add_0_r in *. rewrite lookup_insert_eq, Hn.
    pose proof (unbuilt_mono hy (<[k := w]> hy) (S k) l (insert_subseteq _ _ _ Hn)). lia.
  - rewrite Nat.add_succ_r in *. rewrite lookup_insert_ne by lia. specialize (IH (S k) i Hn Hj). simpl in IH. lia.
Qed.

Lemma unbuilt_all (hy : gmap nat val) k l : (unbuilt hy k l <= allRefs l)%nat.
Proof. revert k. induction l as [|j l IH]; intros k; [done|]. simpl. specialize (IH (S k)). destruct (hy !! k); lia. Qed.

Lemma deliver_keeps s w (d : Dec) : todo (deliver s w d) = todo d ∧ acts (deliver s w d) = acts d ∧ hydrated (deliver s w d) = hydrated d ∧
  waiting (deliver s w d) = waiting d ∧ settled (deliver s w d) = settled d.
Proof. by destruct s. Qed.

(** A turn keeps the state, and leaves no more work than there was after it was taken up. *)
Definition turned (T : list (json * setter)) (d : Dec) (own : list nat) (x : outcome Dec) : Prop :=
  ∃ d' own' pc', x = Ret d' ∧ inv (todo d') (acts d') d' (own ++ own') pc' ∧
    (length (todo d') + unbuilt (hydrated d') 0 vs <= length T + unbuilt (hydrated d) 0 vs)%nat ∧
    hydrated d ⊆ hydrated d' ∧ waiting d ⊆ waiting d' ∧ settled d' = settled d.

Lemma deliver_turned z w st T d own pc : inv ((num_ z, st) :: T) (acts d) d own pc → todo d = T → safe z → res (hydrated d) z w →
  turned T d own (Ret (deliver st w d)).
Proof.
  intros Hinv HT Hz Hr. destruct (deliver_keeps st w d) as (E1 & E2 & E3 & E4 & E5).
  exists (deliver st w d), [], pc. rewrite E1, E2, E3, E4, E5, app_nil_r, HT. split_and!; try done. by eapply deliver_ok.
Qed.

Lemma place_turned i v st T d own pc : inv ((num_ (Z.of_nat i), st) :: T) (acts d) d own pc → todo d = T → safe (Z.of_nat i) →
  vals !! i = Some (Some v) → (∀ l, v ≠ VObj l) → turned T d own (Ret (place i v st d)).
Proof.
  intros Hinv HT Hz Hv Hp. destruct (place_ok i v _ _ _ _ _ Hinv Hv Hp) as [Hinv' Hsub].
  destruct (deliver_turned (Z.of_nat i) v st T (withHydrated i v d) own pc) as (d' & own' & pc' & E & H1 & H2 & H3 & H4 & H5); try done.
  { unfold res. rewrite specialOf_nat. exists i. split; [done|]. apply lookup_insert_eq. }
  exists d', own', pc'. split_and!; try done; [|by etrans]. pose proof (unbuilt_mono _ _ 0 vs Hsub). lia.
Qed.

Lemma build_turned i l s o j st T N B C (d dx : Dec) own pc :
  inv ((num_ (Z.of_nat i), st) :: T) (acts d) d own pc → todo d = T → safe (Z.of_nat i) →
  vals !! i = Some (Some (VObj l)) → slots !! i = Some (Some s) → vs !! i = Some j → hydrated d !! i = None → (length N <= refs j)%nat →
  values dx = values d → result dx = result d → hydrated dx = hydrated d → objects dx = objects d →
  cells dx = cells d ++ replicate (length C) (VUndef, VUndef) → waiting d ⊆ waiting dx → settled dx = settled d →
  todo dx = N ++ T → acts dx = B ++ acts d →
  let own' := own ++ [i] in let pc' := pc ++ C in let dd := length (objects d) in let hy' := <[i := VObj dd]> (hydrated d) in
  (∀ j x, waiting dx !! j = Some x → waiting d !! j = Some x ∨ j = i ∧ x = dd) →
  Forall (todoOk own' pc') N → Forall (actOk own' pc') B → Forall (aims dd (length pc)) N → Forall (aimsAct dd) B →
  (∀ j c b, C !! j = Some c → (num_ (comp b c), ToCell (length pc + j) b) ∈ N) →
  part hy' (waiting dx) ((num_ (Z.of_nat i), st) :: N ++ T) (B ++ acts d) pc' dd i s o →
  turned T d own (Ret (create i o st dx)).
Proof.
  intros Hinv HT Hz Hl Hs Hj Hnone Hlen E1 E2 E3 E4 E5 Hwt E6 E7 E8 own' pc' dd hy' Hwd HN' HB HaN HaB HC Hpart.
  set (d2 := withHydrated i (VObj dd) (withObjects (objects dx ++ [o]) dx)).
  assert (hydrated d2 = hy') as Eh by (unfold d2, hy'; simpl; by rewrite E3).
  destruct (create_ok i l s o (num_ (Z.of_nat i), st) T N (acts d) B C d d2 own pc) as [Hinv2 Hsub]; try done.
  { unfold d2. simpl. by rewrite E4. }
  { by rewrite Eh. }
  assert (create i o st dx = deliver st (VObj dd) d2) as Ec by (unfold create, place, d2, dd; by rewrite E4). rewrite Ec.
  destruct (deliver_turned (Z.of_nat i) (VObj dd) st (N ++ T) d2 own' pc') as (d' & ow & pcx & E & H1 & H2 & H3 & H4 & H5); [|done|done| |].
  { unfold d2. simpl. rewrite E8. done. }
  { unfold res. rewrite specialOf_nat. exists i. split; [done|]. rewrite Eh. apply lookup_insert_eq. }
  exists d', ([i] ++ ow), pcx. split; [done|]. split; [by rewrite (assoc_L (++))|]. split_and!.
  - rewrite Eh in H2. pose proof (unbuilt_insert (hydrated d) i (VObj dd) 0 vs j Hnone Hj) as Hu. simpl in Hu. rewrite length_app in H2. unfold hy' in H2. lia.
  - by etrans.
  - etrans; [exact Hwt|]. by etrans; [|exact H4].
  - by rewrite H5.
Qed.

(** *** Each kind of object *)

Section object.
Context (i l : nat) (st : setter) (T : list (json * setter)) (d : Dec (num := num)) (own : list nat) (pc : list (Z * Z)) (o : obj) (s : slot).
Hypothesis Hinv : inv ((num_ (Z.of_nat i), st) :: T) (acts d) d own pc.
Hypothesis HT : todo d = T.
Hypothesis Hz : safe (Z.of_nat i).
Hypothesis Hl : vals !! i = Some (Some (VObj l)).
Hypothesis Hs : slots !! i = Some (Some s).
Hypothesis Hj : vs !! i = Some (slotJson s).
Hypothesis Hok : slotOk s.
Hypothesis Hnone : hydrated d !! i = None.

Let dd := length (objects d).

Lemma own_new : (own ++ [i]) !! dd = Some i.
Proof. unfold dd. rewrite <- (inv_len _ _ _ _ _ Hinv), lookup_app_r, Nat.sub_diag by lia. done. Qed.

Lemma atom_turned (o' : obj) (w : gmap nat nat) : waiting d ⊆ w → (∀ j x, w !! j = Some x → waiting d !! j = Some x ∨ j = i ∧ x = dd) → part (<[i := VObj dd]> (hydrated d)) w ((num_ (Z.of_nat i), st) :: T) (acts d) pc dd i s o' →
  turned T d own (Ret (create i o' st (withPromises w (settled d) d))).
Proof.
  intros Hw Hwd Hp. eapply (build_turned i l s o' (slotJson s) st T [] [] []); try done; simpl; try by rewrite ?app_nil_r. lia.
Qed.

Lemma arr_turned es cs : s = SArr cs → Forall2 (elemFor vals) es cs →
  turned T d own (Ret (create i (OArr []) st (push (elemWork dd (map num_ cs)) d))).
Proof.
  intros -> Hes. simpl in Hok. eapply (build_turned i l (SArr cs) (OArr []) _ st T (elemWork dd (map num_ cs)) [] []); try done; simpl; try by rewrite ?app_nil_r.
  - etrans; [apply length_elemWork|]. lia.
  - by rewrite HT.
  - intros; by left.
  - rewrite app_nil_r. apply Forall_forall. intros x Hx. destruct (elemWork_all _ _ _ Hx Hok) as (k & z & -> & Hk & Hne & Hzs).
    exists z. split_and!; try done.
    + destruct (Forall2_lookup_r _ _ _ _ _ Hes Hk) as (e & _ & He). destruct e as [v|]; [by eapply denotes_valid|done].
    + simpl. exists i, cs. split_and!; try done. apply own_new.
  - apply Forall_forall. intros x Hx. by destruct (elemWork_all _ _ _ Hx Hok) as (k & z & -> & _).
  - split_and!; [simpl; lia|done|]. intros k z Hk Hne. right. right. apply elem_of_app. left. by apply elemWork_in.
Qed.

Lemma set_turned src cs : s = SSet cs → Forall2 (λ v z, denotes vals z v) src cs →
  turned T d own (Ret (create i (OSet []) st (push (map (λ c, (c, ToSet dd)) (map num_ cs)) d))).
Proof.
  intros -> Hes. simpl in Hok.
  assert (setWork dd (map (λ c, (c, ToSet dd)) (map num_ cs)) = map num_ cs) as Hwork.
  { clear. induction cs as [|z cs IH]; [done|]. cbn [map]. by rewrite setWork_cons, IH. }
  eapply (build_turned i l (SSet cs) (OSet []) _ st T (map (λ c, (c, ToSet dd)) (map num_ cs)) [] []); try done; simpl; try by rewrite ?app_nil_r.
  - rewrite !length_map. lia.
  - by rewrite HT.
  - intros; by left.
  - rewrite app_nil_r. apply Forall_forall. intros x. rewrite map_map. intros (k & -> & Hk)%list_elem_of_fmap.
    exists k. rewrite Forall_forall in Hok. split_and!; [done| |by apply Hok|].
    + apply list_elem_of_lookup in Hk as [n Hk]. destruct (Forall2_lookup_r _ _ _ _ _ Hes Hk) as (e & _ & He). by eapply denotes_valid.
    + simpl. exists i, cs. split; [apply own_new|done].
  - apply Forall_forall. intros x. rewrite map_map. by intros (k & -> & Hk)%list_elem_of_fmap.
  - exists [], cs. split_and!; [done|constructor|]. change (?e :: ?a ++ T) with ([e] ++ a ++ T). fold dd.
    rewrite !setWork_app, Hwork. pose proof (setWork_fresh _ _ _ (inv_todo _ _ _ _ _ Hinv)) as Hf. rewrite (inv_len _ _ _ _ _ Hinv) in Hf.
    change (?e :: T) with ([e] ++ T) in Hf. rewrite setWork_app in Hf. apply app_eq_nil in Hf as [H1 H2]. fold dd in H1, H2. rewrite H1, H2. by rewrite app_nil_r.
Qed.

Lemma pairs_turned (o0 : obj) (a : nat → act) cs : Forall safePair cs → Forall (λ c, valid c.1 ∧ valid c.2) cs →
  (2 * length cs <= refs (slotJson s))%nat → (∀ p, pairWork dd [a p] = [p]) → (∀ p, aimsAct dd (a p)) →
  (∀ p, is_Some ((pc ++ reverse cs) !! p) → actOk (own ++ [i]) (pc ++ reverse cs) (a p)) →
  (∀ hy wt T A pc', pairPart hy A pc' dd cs [] → part hy wt T A pc' dd i s o0) →
  turned T d own (Ret (create i o0 st (pushPairs a (map numPair cs) d))).
Proof.
  intros Hsafe Hval Hlen Ha Haim Hact Hpart. rewrite pushPairs_eq. pose proof (inv_cells_len _ _ _ _ _ Hinv) as Hcl. rewrite <- Hcl.
  eapply (build_turned i l s o0 _ st T (pairTodo (length pc) (map numPair cs)) (pairActs a (length pc) (map numPair cs)) (reverse cs)); try done; simpl.
  - rewrite length_pairTodo, length_map. lia.
  - by rewrite length_reverse, length_map.
  - by rewrite HT.
  - intros; by left.
  - by apply pairTodo_ok.
  - apply pairActs_all. rewrite length_map. intros j Hlt. apply Hact. apply lookup_lt_is_Some. rewrite length_app, length_reverse. lia.
  - apply pairTodo_aims.
  - apply pairActs_all. intros j _. apply Haim.
  - intros j c b Hc. by apply pairTodo_cells.
  - apply Hpart. exists [], cs. split_and!; [done|constructor|]. rewrite pairWork_app.
    pose proof (pairWork_fresh _ _ _ (inv_acts _ _ _ _ _ Hinv)) as Hf. rewrite (inv_len _ _ _ _ _ Hinv) in Hf. fold dd in Hf. rewrite Hf, app_nil_r.
    by apply pairActs_cells.
Qed.

End object.

Lemma keyed_member k v : 0 <= k → keyed (member_ (k, v)) = Some (numPair (k, v)).
Proof.
  intros Hk. unfold keyed, keyNumber, member_, keyText. cbn [fst snd tail].
  replace k with (Z.of_nat (Z.to_nat k)) by lia. by rewrite decimalZ_of_nat, readDigits_decimal.
Qed.

Lemma keyed_members ps : Forall (λ x, 0 <= x.1) ps → mapM keyed (map member_ ps) = Some (map numPair ps).
Proof.
  induction 1 as [|[k v] ps Hk _ IH]; [done|]. cbn [map mapM]. simpl in Hk. rewrite keyed_member by done. simpl. by rewrite IH.
Qed.

Lemma mapPairs_flat cs : mapPairs (cs ≫= λ x : Z * Z, [num_ x.1; num_ x.2]) = map numPair cs.
Proof. induction cs as [|x cs IH]; [done|]. csimpl. by rewrite IH. Qed.

Lemma even_flat (cs : list (Z * Z)) : Nat.even (length (cs ≫= λ x, [num_ x.1; num_ x.2])) = true.
Proof. induction cs as [|x cs IH]; [done|]. csimpl. exact IH. Qed.

Lemma flat_length (cs : list (Z * Z)) : length (cs ≫= λ x, [num_ x.1; num_ x.2]) = (2 * length cs)%nat.
Proof. induction cs as [|x cs IH]; [done|]. csimpl. rewrite IH. lia. Qed.

Lemma pairFor_valid ps cs : Forall2 (pairFor vals) ps cs → Forall (λ c, valid c.1 ∧ valid c.2) cs.
Proof. induction 1 as [|p c ps cs [H1 H2] _ IH]; constructor; [|done]. split; by eapply denotes_valid. Qed.

Lemma propFor_valid ps cs : Forall2 (propFor vals) ps cs → Forall (λ c, valid c.1 ∧ valid c.2) cs.
Proof. induction 1 as [|p c ps cs [H1 H2] _ IH]; constructor; [|done]. split; by eapply denotes_valid. Qed.

Lemma withPromises_same (d : Dec (num := num)) : withPromises (waiting d) (settled d) d = d.
Proof. by destruct d. Qed.

#[local] Abbreviation Slot := (hydrateSlot newURL newRegExp isGlobal).

Lemma object_turned i l o s st T d own pc :
  inv ((num_ (Z.of_nat i), st) :: T) (acts d) d own pc → todo d = T → safe (Z.of_nat i) →
  vals !! i = Some (Some (VObj l)) → slots !! i = Some (Some s) → vs !! i = Some (slotJson s) → slotOk s →
  hydrated d !! i = None → h !! l = Some o → objSlot vals i o s → turned T d own (Slot i (slotJson s) st d).
Proof.
  intros Hinv HT Hz Hl Hs Hj Hok Hnone Hh Hos.
  assert (fineObj newURL newRegExp o) as Hfine.
  { pose proof (str_heap _ _ _ _ Hstr) as Hf. unfold fineHeap in Hf. rewrite Forall_forall in Hf. apply Hf. by eapply list_elem_of_lookup_2. }
  assert (∀ o', part (<[i := VObj (length (objects d))]> (hydrated d)) (waiting d) ((num_ (Z.of_nat i), st) :: T) (acts d) pc (length (objects d)) i s o' →
    turned T d own (Ret (create i o' st d))) as Hatom.
  { intros o' Hp. rewrite <- (withPromises_same d) at 2. eapply atom_turned; try done. intros; by left. }
  assert (∀ p dd, pairWork dd [PutMap dd p] = [p] ∧ pairWork dd [PutKey dd p] = [p]) as Hpw by (intros; unfold pairWork; simpl; by rewrite decide_True).
  pose proof (own_new _ _ _ _ _ _ Hinv) as Hown.
  destruct o as [es|ps|ps|t|u|r f|src|src| |n m|], s as [| | | | | |cs|t'|u'|r' f'|cs|cs|t'|m' n'|cs|cs]; simpl in Hos; try done.
  - change (Slot i (slotJson (SArr cs)) st d) with (Slot i (JArr (map num_ cs)) st d).
    assert (Slot i (JArr (map num_ cs)) st d = Ret (create i (OArr []) st (push (elemWork (length (objects d)) (map num_ cs)) d))) as -> by (by destruct cs).
    by eapply arr_turned.
  - cbn [slotJson hydrateSlot]. destruct Hok as (Hsafe & Hnd & Hpos). rewrite keyed_members by done.
    eapply pairs_turned; try done; simpl.
    + by eapply propFor_valid.
    + rewrite length_map. lia.
    + intros p. apply Hpw.
    + intros p Hp. split; [done|]. exists i, cs. split; [done|by left].
  - change (turned T d own (match mapM keyed (map member_ cs) with
      | Some l => Ret (create i (OBare []) st (pushPairs (PutKey (length (objects d))) l d)) | None => Outside end)).
    destruct Hok as (Hsafe & Hnd & Hpos). rewrite keyed_members by done.
    eapply pairs_turned; try done; simpl.
    + by eapply propFor_valid.
    + rewrite length_map. lia.
    + intros p. apply Hpw.
    + intros p Hp. split; [done|]. exists i, cs. split; [done|by right].
  - subst t'. destruct t as [t|]; [|by apply (Hatom (ODate None))].
    change (turned T d own (o ← newDate (Some (num_ t)); Ret (create i o st d))). simpl in Hok. unfold newDate, num_. rewrite ofZ_toZ by done.
    simpl in Hfine. rewrite (proj2 (Z.leb_le _ _)) by done. by apply (Hatom (ODate (Some t))).
  - subst u'. destruct Hfine as [Hu Hn].
    change (turned T d own (match newURL u with Some h => Ret (create i (OUrl h) st d) | None => Throws end)). rewrite Hn. by apply Hatom.
  - destruct Hos as [<- <-]. destruct Hfine as (Hu & Hv & Hn).
    change (turned T d own (match newRegExp r f with Some (r, f) => Ret (create i (ORegExp r f) st d) | None => Throws end)). rewrite Hn. by apply Hatom.
  - by eapply (set_turned i l st T d own pc (SSet cs)).
  - change (turned T d own (let args := cs ≫= λ x, [num_ x.1; num_ x.2] in let args := if Nat.even (length args) then args else tail args in
      Ret (create i (OMap []) st (pushPairs (PutMap (length (objects d))) (mapPairs args) d)))). cbv zeta. rewrite even_flat, mapPairs_flat.
    eapply pairs_turned; try done; simpl.
    + by eapply pairFor_valid.
    + rewrite flat_length. lia.
    + intros p. apply Hpw.
    + intros p Hp. split; [done|]. exists i, cs. done.
  - subst t'. change (turned T d own (n ← slotNumber (Some (num_ (Z.of_nat i)));
      match hydrated d !! n with
      | Some v => if truthy v then Ret (place i v st d) else Ret (create i OPromise st (withPromises (<[n := length (objects d)]> (waiting d)) (settled d) d))
      | None => Ret (create i OPromise st (withPromises (<[n := length (objects d)]> (waiting d)) (settled d) d))
      end)). unfold slotNumber, num_. rewrite ofZ_toZ by done. rewrite (proj2 (Z.leb_le _ _)) by lia. simpl. rewrite Nat2Z.id, Hnone.
    assert (waiting d !! i = None) as Hw.
    { destruct (waiting d !! i) as [x|] eqn:Ew; [|done]. apply (inv_wait _ _ _ _ _ Hinv), (inv_own _ _ _ _ _ Hinv) in Ew as [Ew _]. congruence. }
    eapply atom_turned; try done.
    + by apply insert_subseteq.
    + intros j x. rewrite lookup_insert. case_decide; [intros [= <-]; auto|auto].
    + simpl. apply lookup_insert_eq.
  - destruct Hos as [<- ->]. destruct Hfine as [Hn Hm].
    destruct (bool_decide_reflect (n = runes "Error")) as [->|Hne]; [by apply (Hatom (OError (runes "Error") m))|].
    change (turned T d own (o ← newError isGlobal (Some (JStr n)) m; Ret (create i o st d))). unfold newError.
    rewrite bool_decide_false by (intros ->; revert Hn; by apply (bool_decide_eq_false_1 ([] ∈ standardErrors))). rewrite bool_decide_true by done.
    by apply (Hatom (OError n m)).
Qed.

Lemma slot_turned i v s st T d own pc :
  inv ((num_ (Z.of_nat i), st) :: T) (acts d) d own pc → todo d = T → safe (Z.of_nat i) →
  vals !! i = Some (Some v) → slots !! i = Some (Some s) → vs !! i = Some (slotJson s) → slotOk s → slotFor h vals i v s →
  ((∃ l, v = VObj l) → hydrated d !! i = None) → turned T d own (Slot i (slotJson s) st d).
Proof.
  intros Hinv HT Hz Hv Hs Hj Hok Hfor Hnone. destruct v as [| |b|n|t|z|[k|]| |l]; simpl in Hfor;
    try (destruct s; try done; subst; by eapply place_turned).
  - destruct s as [| | | |z'| | | | | | | | | | |]; try done. subst z'.
    change (turned T d own (match readInt (decimalZ z) with Some z => Ret (place i (VBig z) st d) | None => Outside end)).
    rewrite readInt_decimalZ. by eapply place_turned.
  - destruct (h !! l) as [o|] eqn:Eo; [|done]. eapply object_turned; try done. by apply Hnone; eauto.
Qed.

(** *** The two loops *)

Lemma inv_withTodo T T' A d own pc : inv T A d own pc → inv T A (withTodo T' d) own pc.
Proof. intros []. by split. Qed.

Lemma hydrateOne_turned x T d own pc : inv (x :: T) (acts d) d own pc → todo d = T →
  turned T d own (hydrateOne newURL newRegExp isGlobal x.1 x.2 d).
Proof.
  intros Hinv HT. destruct x as [c st]. pose proof (inv_todo _ _ _ _ _ Hinv) as [(z & Hc & Hval & Hz & _) _]%Forall_cons_1. simpl in Hc. subst c.
  unfold hydrateOne, num_. cbn [fst snd]. rewrite ofZ_toZ by done. destruct (specialOf z) as [v|] eqn:Es.
  - eapply deliver_turned; try done. unfold res. by rewrite Es.
  - destruct Hval as [[? ?]|(i & v & -> & Hv)]; [congruence|]. rewrite (proj2 (Z.ltb_ge _ _)), Nat2Z.id by lia.
    destruct (str_slot _ _ _ _ Hstr i v Hv) as (s & Hs & Hfor & Hok & Hj). rewrite (inv_values _ _ _ _ _ Hinv), Hj.
    destruct (hydrated d !! i) as [w|] eqn:Eh; [|eapply slot_turned; try done; by rewrite Eh]. destruct (truthy w) eqn:Et.
    + eapply deliver_turned; try done. unfold res. rewrite Es. by exists i.
    + eapply slot_turned; try done. intros [l ->]. apply (inv_hyd _ _ _ _ _ Hinv) in Eh. unfold builtAs in Eh. rewrite Hv in Eh. by destruct Eh as (dd & -> & _).
Qed.

Lemma hydrateLoop_ok fuel d own pc : inv (todo d) (acts d) d own pc → (length (todo d) + unbuilt (hydrated d) 0 vs <= fuel)%nat →
  ∃ d' own' pc', hydrateLoop newURL newRegExp isGlobal fuel d = Ret d' ∧ todo d' = [] ∧ inv [] (acts d') d' (own ++ own') pc' ∧
    hydrated d ⊆ hydrated d' ∧ waiting d ⊆ waiting d' ∧ settled d' = settled d.
Proof.
  revert d own pc. induction fuel as [|fuel IH]; intros d own pc Hinv Hf; destruct (todo d) as [|[c st] T] eqn:ET; simpl in Hf; try lia.
  1,2: exists d, [], pc; simpl; rewrite ET, app_nil_r; by split_and!.
  simpl. rewrite ET.
  destruct (hydrateOne_turned (c, st) T (withTodo T d) own pc) as (d1 & o1 & pc1 & E1 & H1 & H2 & H3 & H4 & H5); [by apply inv_withTodo|done|].
  simpl in E1, H2, H3, H4, H5. rewrite E1. simpl.
  destruct (IH d1 (own ++ o1) pc1) as (d2 & o2 & pc2 & E2 & G1 & G2 & G3 & G4 & G5); [done|lia|].
  exists d2, (o1 ++ o2), pc2. split; [done|]. split; [done|]. split; [by rewrite (assoc_L (++))|]. split_and!; [by etrans|by etrans|congruence].
Qed.

Lemma put_ok dd a A d d' own pc o' : inv [] (a :: A) d own pc → aimsAct dd a →
  values d' = values d → hydrated d' = hydrated d → cells d' = cells d → result d' = result d → waiting d' = waiting d →
  length (objects d') = length (objects d) → (∀ j, j ≠ dd → objects d' !! j = objects d !! j) → objects d' !! dd = Some o' →
  (∀ i s, own !! dd = Some i → slots !! i = Some (Some s) → part (hydrated d) (waiting d) [] A pc dd i s o') →
  inv [] A d' own pc.
Proof.
  intros [] Ha E1 E2 E3 E4 E5 El Eo Ed Hp. apply Forall_cons_1 in inv_acts0 as [_ HA]. split; rewrite ?E1, ?E2, ?E3, ?E4, ?E5, ?El; try done.
  intros j i s o Hj Hs Ho. destruct (decide (j = dd)) as [->|Hne].
  - assert (o = o') as -> by congruence. by apply Hp.
  - rewrite Eo in Ho by done. eapply part_frame; [by apply inv_obj0|done|done|done|done| |done].
    change (a :: A) with ([a] ++ A). rewrite pairWork_app. rewrite (pairWork_other dd j [a]); [done|by constructor|done].
Qed.

Lemma cell_done A d own pc p c : inv [] A d own pc → pc !! p = Some c → ∃ x, cells d !! p = Some x ∧ resPair (hydrated d) c x.
Proof.
  intros Hinv Hc. destruct (lookup_lt_is_Some_2 (cells d) p) as [x Hx].
  { rewrite <- (inv_cells_len _ _ _ _ _ Hinv). by eapply lookup_lt_Some. }
  exists x. split; [done|]. split.
  - by destruct (inv_cells _ _ _ _ _ Hinv p c x false Hc Hx) as [?%elem_of_nil|?].
  - by destruct (inv_cells _ _ _ _ _ Hinv p c x true Hc Hx) as [?%elem_of_nil|?].
Qed.

(** The next pair of an object. *)
Lemma pairPart_next hy A pc dd cs ws a p c : pairPart hy (a :: A) pc dd cs ws → pairWork dd [a] = [p] → pc !! p = Some c →
  ∃ dn pend, cs = dn ++ c :: pend ∧ Forall2 (resPair hy) dn ws ∧
    ∀ w, resPair hy c w → pairPart hy A pc dd cs (ws ++ [w]).
Proof.
  intros (dn & pend & -> & Hd & Hf) Ha Hc. change (a :: A) with ([a] ++ A) in Hf. rewrite pairWork_app, Ha in Hf. simpl in Hf.
  apply Forall2_cons_inv_l in Hf as (c' & pend' & Hc' & Hf & ->). assert (c' = c) as -> by congruence.
  exists dn, pend'. split_and!; [done..|]. intros w Hw. exists (dn ++ [c]), pend'. split; [by rewrite <- app_assoc|].
  split; [|done]. apply Forall2_app; [done|by constructor].
Qed.

Lemma srcOf_str A d own pc w k : inv [] A d own pc → srcOf own w = Some (VStr k) → w = VStr k.
Proof.
  intros Hinv. destruct w; simpl; intros Hs; simplify_eq; try done. destruct (own !! l) as [i|] eqn:Ei; [|done].
  destruct (inv_own _ _ _ _ _ Hinv _ _ Ei) as (_ & l' & Hl'). simpl in Hs. rewrite Hl' in Hs. done.
Qed.

Lemma pairFor_keys ps cs : Forall2 (pairFor vals) ps cs → Forall2 (λ v z, denotes vals z v) ps.*1 cs.*1.
Proof. induction 1 as [|p c ps cs [H1 H2] _ IH]; csimpl; by constructor. Qed.

Lemma resPair_keys hy cs ws : Forall2 (resPair hy) cs ws → Forall2 (res hy) cs.*1 ws.*1.
Proof. induction 1 as [|c w cs ws [H1 H2] _ IH]; csimpl; by constructor. Qed.

(** The keys of an object on its way are those of the object it copies. *)
Lemma props_keys A d own pc ps cs ps' : inv [] A d own pc → Forall2 (propFor vals) ps cs →
  Forall2 (resPair (hydrated d)) cs (propVals ps') → ps'.*1 = ps.*1.
Proof.
  intros Hinv Hf. revert ps'. induction Hf as [|[k v] c ps cs [Hk _] _ IH]; intros ps' Hr.
  - apply Forall2_nil_inv_l in Hr. by destruct ps'.
  - apply Forall2_cons_inv_l in Hr as (w & ws & [Hw _] & Hr & E). destruct ps' as [|[k' v'] ps']; [done|]. simpl in E. injection E as <- <-.
    csimpl. rewrite (IH ps') by done. f_equal. pose proof (res_source _ _ _ _ _ _ _ _ Hinv Hw Hk eq_refl) as E. simpl in E. by simplify_eq.
Qed.

Lemma indexBefore_keys {B C} (l : list (jstr * B)) (l' : list (jstr * C)) k : l.*1 = l'.*1 → indexBefore l k → indexBefore l' k.
Proof.
  intros E. unfold indexBefore. destruct (arrayIndex k) as [i|]; [|done]. intros Hl.
  apply (Forall_fmap fst (λ x, ∃ j, arrayIndex x = Some j ∧ j < i)). rewrite <- E. by apply Forall_fmap.
Qed.

Lemma setKey_next (ps : list (jstr * val)) k v w s2 (ps' : list (jstr * val)) : ordered (ps ++ (k, v) :: s2) → ps'.*1 = ps.*1 → setKey ps' k w = ps' ++ [(k, w)].
Proof.
  intros [Hnd Ho] E. apply setKey_last.
  - rewrite E. rewrite fmap_app, fmap_cons in Hnd. apply NoDup_app in Hnd as (_ & Hd & _). intros Hk. by apply (Hd k Hk); left.
  - apply (indexBefore_keys ps); [done|]. by apply (Ho ps (k, v) s2).
Qed.

Lemma propVals_snoc ps k w : propVals (ps ++ [(k, w)]) = propVals ps ++ [(VStr k, w)].
Proof. unfold propVals. by rewrite map_app. Qed.

(** What an action leaves as it was. *)
Definition acted (A : list act) (d : Dec) (own : list nat) (pc : list (Z * Z)) (x : outcome Dec) : Prop :=
  ∃ d', x = Ret d' ∧ inv [] A d' own pc ∧ hydrated d' = hydrated d ∧ waiting d' = waiting d ∧ settled d' = settled d ∧ todo d' = todo d ∧ result d' = result d.

Lemma putMap_acted dd p A d own pc : inv [] (PutMap dd p :: A) d own pc → acted A d own pc (runAct (PutMap dd p) d).
Proof.
  intros Hinv. pose proof (inv_acts _ _ _ _ _ Hinv) as [([c Hc] & i & cs & Hi & Hs) _]%Forall_cons_1.
  destruct (cell_done _ _ _ _ _ _ Hinv Hc) as ([k v] & Hx & [Hk Hv]). simpl in Hk, Hv. unfold runAct. rewrite Hx. simpl.
  destruct (slot_source _ _ _ _ _ _ _ _ Hinv Hi Hs) as (l & o & Hl & Ho & Hos & Hfine & _). destruct o as [| | | | | | |src| | |]; try done.
  destruct (lookup_lt_is_Some_2 (objects d) dd) as [o Hobj]; [rewrite <- (inv_len _ _ _ _ _ Hinv); by eapply lookup_lt_Some|].
  pose proof (inv_obj _ _ _ _ _ Hinv _ _ _ _ Hi Hs Hobj) as Hp. destruct o as [| | | | | | |ws| | |]; try done. simpl in Hp, Hos.
  destruct (pairPart_next _ _ _ _ _ _ _ p c Hp) as (dn & pend & Hcs & Hd & Hnext); [unfold pairWork; simpl; by rewrite decide_True|done|].
  destruct Hfine as [Hkeys Hnd]. rewrite Hcs in Hos. apply Forall2_app_inv_r in Hos as (s1 & s2 & Hs1 & Hs2 & ->).
  apply Forall2_cons_inv_r in Hs2 as ([k0 v0] & s3 & [Hk0 Hv0] & Hs3 & ->). simpl in Hk0, Hv0.
  apply Forall_app in Hkeys as [Hk1 [Hkey _]%Forall_cons_1]. simpl in Hkey. rewrite fmap_app, fmap_cons in Hnd. apply NoDup_app in Hnd as (_ & Hdis & _).
  assert (keyOf k = k) as Hkk by (eapply srcOf_key; [by eapply res_source|done]).
  assert (k ∉ ws.*1) as Hfresh.
  { apply (copies_fresh _ _ _ _ _ s1.*1 dn.*1 ws.*1 c.1 k k0 Hinv); [by apply pairFor_keys| |by apply resPair_keys|exact Hk0|done|exact Hk|].
    - by apply Forall_fmap.
    - intros Hin. apply (Hdis k0 Hin). left. }
  eexists. split; [reflexivity|]. split_and!; try done. eapply (put_ok dd (PutMap dd p) A d _ own pc (OMap (ws ++ [(k, v)]))); try done; simpl.
  - by rewrite length_alter.
  - intros j Hj. by rewrite list_lookup_alter_ne.
  - rewrite list_lookup_alter_eq, Hobj. simpl. unfold mapSet. by rewrite Hkk, decide_False.
  - intros i' s' Hi' Hs'. assert (i' = i) as -> by congruence. assert (s' = SMap cs) as -> by congruence. simpl. by apply Hnext.
Qed.

Lemma putKey_acted dd p A d own pc : inv [] (PutKey dd p :: A) d own pc → acted A d own pc (runAct (PutKey dd p) d).
Proof.
  intros Hinv. pose proof (inv_acts _ _ _ _ _ Hinv) as [([c Hc] & i & cs & Hi & Hs) _]%Forall_cons_1.
  destruct (cell_done _ _ _ _ _ _ Hinv Hc) as ([k v] & Hx & [Hk Hv]). simpl in Hk, Hv. unfold runAct. rewrite Hx. simpl.
  destruct (lookup_lt_is_Some_2 (objects d) dd) as [o Hobj]; [rewrite <- (inv_len _ _ _ _ _ Hinv); by eapply lookup_lt_Some|]. rewrite Hobj.
  assert (∃ src s ps, (∃ l o', vals !! i = Some (Some (VObj l)) ∧ h !! l = Some o' ∧ fineObj newURL newRegExp o' ∧
      ((o' = OPlain src ∧ s = SPlain cs ∧ o = OPlain ps) ∨ (o' = OBare src ∧ s = SBare cs ∧ o = OBare ps))) ∧
    slots !! i = Some (Some s) ∧ Forall2 (propFor vals) src cs ∧
    pairPart (hydrated d) (PutKey dd p :: A) pc dd cs (propVals ps)) as (src & s & ps & (l & o' & Hl & Ho' & Hfine & Hkind) & Hs' & Hsrc & Hp).
  { destruct Hs as [Hs|Hs]; destruct (slot_source _ _ _ _ _ _ _ _ Hinv Hi Hs) as (l & o' & Hl & Ho & Hos & Hfine & _);
      pose proof (inv_obj _ _ _ _ _ Hinv _ _ _ _ Hi Hs Hobj) as Hp; destruct o'; try done; destruct o; try done;
      eexists _, _, _; (split; [|split; [exact Hs|split; [exact Hos|exact Hp]]]); eexists _, _; split_and!; eauto. }
  clear Hs. destruct (pairPart_next _ _ _ _ _ _ _ p c Hp) as (dn & pend & Hcs & Hd & Hnext); [unfold pairWork; simpl; by rewrite decide_True|done|].
  pose proof Hsrc as Hsrc'. rewrite Hcs in Hsrc'. apply Forall2_app_inv_r in Hsrc' as (s1 & s2 & Hs1 & Hs2 & Es).
  apply Forall2_cons_inv_r in Hs2 as ([k0 v0] & s3 & [Hk0 Hv0] & Hs3 & ->). simpl in Hk0, Hv0.
  pose proof (props_keys _ _ _ _ _ _ _ Hinv Hs1 Hd) as Hkeys.
  assert (k = VStr k0) as -> by (eapply srcOf_str; [exact Hinv|]; by eapply res_source).
  assert (ordered (s1 ++ (k0, v0) :: s3) ∧ (o = OPlain ps → k0 ≠ runes "__proto__")) as [Hord Hproto].
  { rewrite <- Es. destruct Hkind as [(-> & _ & ->)|(-> & _ & ->)]; [|done]. destruct Hfine as [? Hnp]. split; [done|].
    intros _ ->. apply Hnp. rewrite Es, fmap_app. apply elem_of_app. right. left. }
  pose proof (setKey_next s1 k0 v0 v s3 ps Hord Hkeys) as Hset.
  assert (∃ o1, putKey (VStr k0) v o = Some o1 ∧ ∀ A, pairPart (hydrated d) A pc dd cs (propVals (ps ++ [(k0, v)])) →
    part (hydrated d) (waiting d) [] A pc dd i s o1) as (o1 & Hput & Hpart).
  { destruct Hkind as [(-> & -> & ->)|(-> & -> & ->)]; simpl; rewrite Hset; [rewrite bool_decide_false by auto|]; eexists; (split; [reflexivity|]); by intros. }
  rewrite Hput. eexists. split; [reflexivity|]. split_and!; try done. eapply (put_ok dd (PutKey dd p) A d _ own pc o1); try done; simpl.
  - by rewrite length_insert.
  - intros j Hj. by rewrite list_lookup_insert_ne.
  - apply list_lookup_insert_eq. by eapply lookup_lt_Some.
  - intros i' s' Hi' Hs2. assert (i' = i) as -> by congruence. assert (s' = s) as -> by congruence. apply Hpart. rewrite propVals_snoc. by apply Hnext.
Qed.

Lemma runActs_acted A d own pc : inv [] A d own pc → acted [] d own pc (runActs A d).
Proof.
  revert d. induction A as [|a A IH]; intros d Hinv; simpl.
  - exists (withActs [] d). split_and!; try done. destruct Hinv. by split.
  - assert (acted A d own pc (runAct a d)) as (d1 & -> & H1 & H2 & H3 & H4 & H5 & H6) by (destruct a; [by apply putMap_acted|by apply putKey_acted]).
    simpl. destruct (IH d1 H1) as (d2 & -> & G1 & G2 & G3 & G4 & G5 & G6). exists d2. split_and!; try done; congruence.
Qed.

End machine.
End decode.
