(* ===== verification/TurboCopies.v ===== *)
(** * The copies the decoder leaves

    What is copied of values and objects, and that the decoder, once its work is done, has
    copied every object it built.  The slots the encoder writes are slots the decoder can
    read. *)

From Stdlib Require Import ZArith Lia.
From stdpp Require Import base numbers strings gmap option list.
From S2P Require Import Prelude Js Json TurboStream TurboEncode TurboText TurboDecode.

Open Scope Z_scope.

Section relation.
Context {num : Type} `{HN : JsNum num}.
#[local] Abbreviation val := (val num).
#[local] Abbreviation obj := (obj num).
#[local] Abbreviation slot := (slot num).
#[local] Abbreviation json := (json num).
#[local] Abbreviation ghost := (list (option val)).

(** ** What is copied *)

(** [R dd l]: the object at [dd] is a copy of the one at [l].  Zero may lose its sign. *)
Definition copied (R : nat → nat → Prop) (v w : val) : Prop :=
  match v with
  | VObj l => ∃ dd, w = VObj dd ∧ R dd l
  | VNum n => w = VNum n ∨ n = negZero ∧ w = VNum (ofZ 0)
  | _ => w = v
  end.

Definition elemCopied (R : nat → nat → Prop) (e e' : option val) : Prop :=
  match e, e' with Some v, Some w => copied R v w | None, None => True | _, _ => False end.

Definition propCopied (R : nat → nat → Prop) (p p' : jstr * val) : Prop := p.1 = p'.1 ∧ copied R p.2 p'.2.

Definition pairCopied (R : nat → nat → Prop) (p p' : val * val) : Prop := copied R p.1 p'.1 ∧ copied R p.2 p'.2.

Definition objCopied (R : nat → nat → Prop) (o o' : obj) : Prop :=
  match o, o' with
  | OArr l, OArr l' => Forall2 (elemCopied R) l l'
  | OPlain ps, OPlain ps' => Forall2 (propCopied R) ps ps'
  | OBare ps, OBare ps' => Forall2 (propCopied R) ps ps'
  | ODate t, ODate t' => t = t'
  | OUrl u, OUrl u' => u = u'
  | ORegExp r f, ORegExp r' f' => r = r' ∧ f = f'
  | OSet l, OSet l' => Forall2 (copied R) l l'
  | OMap l, OMap l' => Forall2 (pairCopied R) l l'
  | OPromise, OPromise => True
  | OError n m, OError n' m' => n = n' ∧ m = m'
  | _, _ => False
  end.

Lemma copied_mono (R R' : nat → nat → Prop) v w : (∀ dd l, R dd l → R' dd l) → copied R v w → copied R' v w.
Proof. intros HR. destruct v; try done. intros (dd & -> & Hd). exists dd. split; [done|]. by apply HR. Qed.

(** The copies of a decoder whose objects copy the numbers [own]. *)
Definition copyOf (vals : ghost) (own : list nat) (dd l : nat) : Prop := ∃ i, own !! dd = Some i ∧ vals !! i = Some (Some (VObj l)).

Lemma copyOf_app vals ext own own' dd l : copyOf vals own dd l → copyOf (vals ++ ext) (own ++ own') dd l.
Proof. intros (i & Hi & Hl). exists i. split; by apply lookup_app_l_Some. Qed.

(** ** What the encoder writes can be read *)

Context `{HL : !JsNumLaws num}.
Context (newURL : jstr → option jstr) (newRegExp : jstr → jstr → option (jstr * jstr)) (isGlobal : jstr → bool).

Section small.
Context (vals : ghost).
Hypothesis Hsmall : Z.of_nat (length vals) < 2 ^ 53.

Lemma values_safe l cs : Forall2 (λ v z, denotes vals z v) l cs → Forall safe cs.
Proof. induction 1; constructor; [by eapply denotes_small|done]. Qed.

Lemma elems_safe l cs : Forall2 (elemFor vals) l cs → Forall safe cs.
Proof. induction 1 as [|[v|] z l cs Hz _ IH]; constructor; try done; simpl in Hz; [by eapply denotes_small|subst z; done]. Qed.

Lemma pairs_safe l cs : Forall2 (pairFor vals) l cs → Forall safePair cs.
Proof. induction 1 as [|p c l cs [H1 H2] _ IH]; constructor; [split; by eapply denotes_small|done]. Qed.

Lemma props_pairs ps cs : Forall2 (propFor vals) ps cs → Forall2 (pairFor vals) (map (λ p, (VStr p.1, p.2)) ps) cs.
Proof. induction 1; by constructor. Qed.

Lemma props_numbers ps cs : Forall2 (propFor vals) ps cs → NoDup ps.*1 → NoDup cs.*1 ∧ Forall (λ c, 0 <= c.1) cs.
Proof.
  induction 1 as [|p c ps cs [Hk _] Hf IH]; intros Hnd; [by repeat constructor|]. csimpl in *. apply NoDup_cons in Hnd as [Hp Hnd].
  destruct (IH Hnd) as [IH1 IH2]. simpl in Hk. destruct Hk as [?|(i & Hc & Hi)]; [done|]. simpl in Hi. split; [|constructor; [lia|done]].
  constructor; [|done]. intros (c' & E & (j & Hj)%list_elem_of_lookup)%list_elem_of_fmap.
  destruct (Forall2_lookup_r _ _ _ _ _ Hf Hj) as (p' & Hp' & [Hk' _]). simpl in Hk'. destruct Hk' as [?|(i' & Hc' & Hi')]; [done|].
  assert (i' = i) as -> by lia. simpl in Hi'. apply Hp. apply list_elem_of_fmap. exists p'. split; [congruence|by eapply list_elem_of_lookup_2].
Qed.

Lemma props_ok ps cs : Forall2 (propFor vals) ps cs → ordered ps → Forall safePair cs ∧ NoDup cs.*1 ∧ Forall (λ c, 0 <= c.1) cs.
Proof.
  intros Hf [Hnd _]. split; [eapply pairs_safe, props_pairs, Hf|by apply (props_numbers ps)].
Qed.

Lemma standard_units n : n ∈ standardErrors → units n.
Proof.
  assert (Forall (Forall bare) standardErrors) as H by (repeat constructor; by repeat split).
  rewrite Forall_forall in H. intros Hn%H. by apply bare_units.
Qed.

Lemma slotFor_ok h i v s : fineHeap newURL newRegExp h → (i < length vals)%nat → special v = None → valOk h v → slotFor h vals i v s → slotOk s.
Proof.
  intros Hh Hi Hs Hv. destruct v as [| |b|n|t|z|[k|]| |l]; simpl; try done; try (destruct s; try done; intros <-; done).
  - destruct s; try done. intros <-. simpl in Hs. unfold finite. repeat case_decide; try done.
  - destruct s; try done. intros <-. apply Hv.
  - destruct (h !! l) as [o|] eqn:Eo; [|done]. assert (fineObj newURL newRegExp o) as Ho by (unfold fineHeap in Hh; rewrite Forall_forall in Hh; apply Hh; by eapply list_elem_of_lookup_2).
    destruct o, s; try done; simpl in Ho |- *; intros Hf; try (by apply (props_ok _ _ Hf), Ho).
    + by eapply elems_safe.
    + rewrite <- Hf. destruct t; [|done]. unfold safe, maxTime in *. lia.
    + subst. apply Ho.
    + destruct Hf as [<- <-]. by destruct Ho as (? & ? & _).
    + by eapply values_safe.
    + by eapply pairs_safe.
    + subst. unfold safe. lia.
    + destruct Hf as [<- ->]. split; [apply Ho|]. case_bool_decide; [done|]. apply standard_units, Ho.
Qed.

End small.

(** The slots written so far are a stream. *)
Lemma encOk_stream gone h vals st vs : encOk gone h vals [] st → fineHeap newURL newRegExp h → Z.of_nat (length vals) < 2 ^ 53 →
  length vs = length vals → (∀ i s, stringified st !! i = Some (Some s) → vs !! i = Some (slotJson s)) →
  stream newURL newRegExp h vals (stringified st) vs.
Proof.
  intros Hok Hh Hlen Hvs Hs. split; try done; [apply Hok|]. intros i v Hv.
  destruct (ok_filled _ _ _ _ _ Hok i v Hv) as (s & Hi & Hf); [apply not_elem_of_nil|]. exists s. split_and!; [done|done| |by apply Hs].
  eapply slotFor_ok; [done|done|by eapply lookup_lt_Some|by eapply Hok|by eapply Hok|done].
Qed.

(** ** The copies are complete *)

Section rest.
Context (h : list obj) (vals : ghost) (slots : list (option slot)) (vs : list json).
Hypothesis Hstr : stream newURL newRegExp h vals slots vs.
Context (z0 : Z) (d : @Dec num) (own : list nat) (pc : list (Z * Z)).
Hypothesis Hinv : inv vals slots vs z0 [] [] d own pc.
#[local] Abbreviation R := (copyOf vals own).

Lemma res_copied z v w : denotes vals z v → res (hydrated d) z w → copied R v w.
Proof.
  intros [Hs|(i & -> & Hv)] Hr; unfold res in Hr.
  - rewrite (specialOf_special _ _ Hs) in Hr. subst w. destruct v; try done. by left.
  - rewrite specialOf_nat in Hr. destruct Hr as (i' & Heq & Hh). apply Nat2Z.inj in Heq as <-. apply (inv_hyd _ _ _ _ _ _ _ _ _ Hinv) in Hh.
    unfold builtAs in Hh. rewrite Hv in Hh. destruct v; simpl in *; try done.
    + case_decide; subst; [by right|by left].
    + destruct Hh as (dd & -> & Ho). exists dd. split; [done|]. by exists i.
Qed.

Lemma resPair_copied c p w : pairFor vals p c → resPair (hydrated d) c w → pairCopied R p w.
Proof. intros [H1 H2] [H3 H4]. split; by eapply res_copied. Qed.

Lemma denotes_hole v : ¬ denotes vals (-1) v.
Proof. intros [Hs%special_code|(i & Hi & _)]; lia. Qed.

Lemma array_copied l cs a dd : Forall2 (elemFor vals) l cs → arrPart (hydrated d) [] dd cs a → last l ≠ Some None → Forall2 (elemCopied R) l a.
Proof.
  intros Hf (Hle & Hsome & Hall) Hlast. pose proof (Forall2_length _ _ _ Hf) as Hlen.
  assert (length a = length l) as Ha.
  { destruct (decide (length a = length l)); [done|exfalso]. rewrite last_lookup in Hlast. 
    destruct (lookup_lt_is_Some_2 l (pred (length l))) as [e He]; [lia|]. destruct e as [v|]; [|done].
    destruct (Forall2_lookup_l _ _ _ _ _ Hf He) as (z & Hz & Hd). simpl in Hd.
    destruct (Hall _ _ Hz) as [(w & Hw%lookup_lt_Some)|?%elem_of_nil]; [intros ->; by apply denotes_hole in Hd|lia|done]. }
  apply Forall2_same_length_lookup_2; [done|]. intros k e e' He He'. destruct (Forall2_lookup_l _ _ _ _ _ Hf He) as (z & Hz & Hd).
  destruct e as [v|]; simpl in Hd |- *.
  - destruct (Hall _ _ Hz) as [(w & Hw)|?%elem_of_nil]; [intros ->; by apply denotes_hole in Hd| |done].
    assert (e' = Some w) as -> by congruence. destruct (Hsome _ _ Hw) as (z' & Hz' & _ & Hr). assert (z' = z) as -> by congruence. by eapply res_copied.
  - destruct e' as [w|]; [|done]. destruct (Hsome _ _ He') as (z' & Hz' & Hne & _). congruence.
Qed.

Lemma values_copied l cs ws : Forall2 (λ v z, denotes vals z v) l cs → Forall2 (res (hydrated d)) cs ws → Forall2 (copied R) l ws.
Proof.
  intros Hf. revert ws. induction Hf as [|v z l cs Hd _ IH]; intros ws Hr.
  - apply Forall2_nil_inv_l in Hr as ->. constructor.
  - apply Forall2_cons_inv_l in Hr as (w & ws' & Hw & Hr & ->). constructor; [by eapply res_copied|by apply IH].
Qed.

Lemma pairs_copied l cs ws : Forall2 (pairFor vals) l cs → Forall2 (resPair (hydrated d)) cs ws → Forall2 (pairCopied R) l ws.
Proof.
  intros Hf. revert ws. induction Hf as [|v z l cs Hd _ IH]; intros ws Hr.
  - apply Forall2_nil_inv_l in Hr as ->. constructor.
  - apply Forall2_cons_inv_l in Hr as (w & ws' & Hw & Hr & ->). constructor; [by eapply resPair_copied|by apply IH].
Qed.

Lemma pairPart_done dd cs ws : pairPart (hydrated d) [] pc dd cs ws → Forall2 (resPair (hydrated d)) cs ws.
Proof. intros (dn & pend & -> & Hd & Hf). apply Forall2_nil_inv_l in Hf as ->. by rewrite app_nil_r. Qed.

Lemma props_copied ps cs ps' : Forall2 (propFor vals) ps cs → Forall2 (resPair (hydrated d)) cs (propVals ps') → Forall2 (propCopied R) ps ps'.
Proof.
  intros Hf Hr. pose proof (pairs_copied _ _ _ (props_pairs _ _ _ Hf) Hr) as Hp. clear Hf Hr. revert ps' Hp.
  induction ps as [|p ps IH]; intros [|p' ps'] Hp; inversion Hp as [|???? [H1 H2] Hp']; subst; [constructor|]. simpl in H1, H2. 
  constructor; [split; [congruence|done]|by apply IH].
Qed.

Lemma object_copied dd l : R dd l → ∃ o o', h !! l = Some o ∧ objects d !! dd = Some o' ∧ objCopied R o o'.
Proof.
  intros (i & Hi & Hl). destruct (str_slot _ _ _ _ _ _ Hstr _ _ Hl) as (s & Hs & Hf & _). simpl in Hf. destruct (h !! l) as [o|] eqn:Eo; [|done].
  destruct (lookup_lt_is_Some_2 (objects d) dd) as [o' Ho']; [rewrite <- (inv_len _ _ _ _ _ _ _ _ _ Hinv); by eapply lookup_lt_Some|].
  exists o, o'. split_and!; [done|done|]. pose proof (inv_obj _ _ _ _ _ _ _ _ _ Hinv _ _ _ _ Hi Hs Ho') as Hp.
  assert (fineObj newURL newRegExp o) as Hfine.
  { pose proof (str_heap _ _ _ _ _ _ Hstr) as Hh. unfold fineHeap in Hh. rewrite Forall_forall in Hh. apply Hh. by eapply list_elem_of_lookup_2. }
  destruct o, s; try done; destruct o'; try done; simpl in Hf, Hp, Hfine |- *.
  - by eapply array_copied.
  - eapply props_copied; [done|by eapply pairPart_done].
  - eapply props_copied; [done|by eapply pairPart_done].
  - congruence.
  - congruence.
  - destruct Hf, Hp. split; congruence.
  - destruct Hp as (dn & pend & -> & Hd & Hw). destruct pend; [|done]. rewrite app_nil_r in *. by eapply values_copied.
  - eapply pairs_copied; [done|by eapply pairPart_done].
  - destruct Hf as [-> ->], Hp as [-> ->]. case_bool_decide; by subst.
Qed.

(** ** The numbers built are closed under the slots *)

Lemma rest_closed st : stringified st = slots → (∀ i s, slots !! i = Some (Some s) → ∃ v, vals !! i = Some (Some v)) →
  closed (λ i, is_Some (hydrated d !! i)) st.
Proof.
  intros Est Hval i s Hs [w Hw]. rewrite Est in Hs. destruct (Hval i s Hs) as [v Hv].
  destruct (str_slot _ _ _ _ _ _ Hstr _ _ Hv) as (s' & Hs' & Hf & _). assert (s' = s) as -> by congruence.
  assert (∀ z w, res (hydrated d) z w → member (λ i, is_Some (hydrated d !! i)) z) as Hmem.
  { intros z x Hr j ->. unfold res in Hr. rewrite specialOf_nat in Hr. destruct Hr as (j' & ->%Nat2Z.inj & Hj). by eexists. }
  assert (∀ cs ws, Forall2 (resPair (hydrated d)) cs ws → Forall (member (λ i, is_Some (hydrated d !! i))) (both cs)) as Hpairs.
  { induction 1 as [|c x cs ws [H1 H2] _ IH]; [constructor|]. unfold both in *. simpl. constructor; [by eapply Hmem|]. constructor; [by eapply Hmem|done]. }
  apply (inv_hyd _ _ _ _ _ _ _ _ _ Hinv) in Hw. unfold builtAs in Hw. rewrite Hv in Hw.
  destruct v as [| | | | | |[]| |l]; try (by destruct s; try done; constructor). destruct Hw as (dd & -> & Hd).
  destruct (lookup_lt_is_Some_2 (objects d) dd) as [o' Ho']; [rewrite <- (inv_len _ _ _ _ _ _ _ _ _ Hinv); by eapply lookup_lt_Some|].
  pose proof (inv_obj _ _ _ _ _ _ _ _ _ Hinv _ _ _ _ Hd Hs Ho') as Hp. destruct s; simpl; try constructor; destruct o'; try done; simpl in Hp;
    try (by eapply Hpairs, pairPart_done).
  - destruct Hp as (_ & Hsome & Hall). apply Forall_lookup. intros k z Hz. destruct (decide (z = -1)) as [->|Hne]; [intros j Hj; lia|].
    destruct (Hall _ _ Hz Hne) as [(x & Hx)|?%elem_of_nil]; [|done]. destruct (Hsome _ _ Hx) as (z' & Hz' & _ & Hr). assert (z' = z) as -> by congruence. by eapply Hmem.
  - destruct Hp as (dn & pend & -> & Hd' & Hw). destruct pend; [|done]. rewrite app_nil_r. clear -Hd' Hmem. induction Hd'; constructor; [by eapply Hmem|done].
Qed.

End rest.

End relation.
