(* ===== verification/TurboRounds.v ===== *)
(** * The two ends of the data stream, line by line

    What the two ends agree on between two lines, and that each line of the encoder, of new
    slots, of a number sent before or of a special value, brings the decoder to where the
    encoder is. *)

From Stdlib Require Import ZArith Lia.
From stdpp Require Import base numbers strings gmap option list.
From S2P Require Import Prelude Js Json TurboStream TurboEncode TurboText TurboDecode TurboCopies.

Open Scope Z_scope.

Section rounds.
Context {num : Type} `{HN : JsNum num} `{HL : !JsNumLaws num}.
Context (newURL : jstr → option jstr) (newRegExp : jstr → jstr → option (jstr * jstr)) (isGlobal : jstr → bool).
#[local] Abbreviation val := (val num).
#[local] Abbreviation obj := (obj num).
#[local] Abbreviation slot := (slot num).
#[local] Abbreviation json := (json num).
#[local] Abbreviation ghost := (list (option val)).
#[local] Abbreviation stream := (stream newURL newRegExp).
#[local] Abbreviation fineHeap := (fineHeap newURL newRegExp).
#[local] Abbreviation KXe := (KXe newURL newRegExp isGlobal).
#[local] Abbreviation GXe := (GXe newURL newRegExp isGlobal).

(** ** One line of the decoder *)

(** A stream goes on from where it was. *)
Lemma inv_start vals ext slots slots' vs vs' z z0 d own pc : inv vals slots vs z [] [] d own pc →
  (∀ i v, vals !! i = Some (Some v) → ∃ s, slots !! i = Some (Some s)) →
  (∀ i s, slots !! i = Some (Some s) → slots' !! i = Some (Some s)) →
  valid (vals ++ ext) z0 → safe z0 →
  inv (vals ++ ext) slots' vs' z0 [(num_ z0, ToResult)] [] (withResult VUndef (withTodo [(num_ z0, ToResult)] (withValues vs' d))) own pc.
Proof.
  intros [_ inv_len0 inv_hyd0 inv_own0 inv_obj0 inv_wait0 inv_clen0 inv_cells0 _ _ _] Hfill Hkeep Hval Hsafe. split; simpl; try done.
  - intros i w Hw%inv_hyd0. unfold builtAs in *. destruct (vals !! i) as [v|] eqn:Ev; [|done]. by rewrite (lookup_app_l_Some _ _ _ _ Ev).
  - intros dd i Hi. destruct (inv_own0 dd i Hi) as [H1 (l & H2)]. split; [done|]. exists l. by apply lookup_app_l_Some.
  - intros dd i s o Hi Hs Ho. destruct (inv_own0 dd i Hi) as [_ (l & H2)]. destruct (Hfill _ _ H2) as [s' Hs'].
    assert (s' = s) as -> by (apply Hkeep in Hs'; congruence). eapply part_frame; [by apply inv_obj0|done..| | | |done]; try done.
    intros c k Hin%elem_of_nil. done.
  - intros p c x b H1 H2. destruct (inv_cells0 p c x b H1 H2) as [?%elem_of_nil|?]; [done|by right].
  - constructor; [|constructor]. by exists z0.
  - left. left.
Qed.

Lemma runActs_acts A (d d' : @Dec num) : runActs A d = Ret d' → acts d' = [].
Proof.
  revert d. induction A as [|a A IH]; intros d; simpl; [by intros [= <-]|]. destruct (runAct a d); try done. apply IH.
Qed.

(** [KXe] builds the number asked for. *)
Lemma KXe_ok h vals slots z0 d own pc : stream h vals slots (values d) → acts d = [] →
  inv vals slots (values d) z0 [(num_ z0, ToResult)] [] (withResult VUndef (withTodo [(num_ z0, ToResult)] d)) own pc →
  ∃ d' own' pc', KXe (num_ z0) d = Ret (d', result d') ∧ inv vals slots (values d) z0 [] [] d' (own ++ own') pc' ∧
    todo d' = [] ∧ acts d' = [] ∧ hydrated d ⊆ hydrated d' ∧ settled d' = settled d ∧ res (hydrated d') z0 (result d').
Proof.
  intros Hstr Ha Hinv. set (d0 := withResult VUndef (withTodo [(num_ z0, ToResult)] d)) in *.
  destruct (hydrateLoop_ok newURL newRegExp isGlobal h vals slots (values d) Hstr z0 (S (allRefs (values d))) d0 own pc)
    as (d1 & own' & pc' & E1 & HT & H1 & H2 & H3 & H4).
  - simpl. by rewrite Ha.
  - simpl. pose proof (unbuilt_all (hydrated d) 0 (values d)). lia.
  - destruct (runActs_acted newURL newRegExp h vals slots (values d) Hstr z0 (acts d1) d1 (own ++ own') pc' H1)
      as (d2 & E2 & G1 & G2 & G3 & G4 & G5 & G6).
    exists d2, own', pc'. unfold TurboStream.KXe. fold d0. rewrite E1. simpl. rewrite E2. simpl.
    split; [done|]. split; [done|]. split; [congruence|]. split; [by eapply runActs_acts|]. split; [by rewrite G2|]. split; [by rewrite G4, H4|].
    destruct (inv_root _ _ _ _ _ _ _ _ _ G1) as [?%elem_of_nil|?]; done.
Qed.

(** ** Both ends between two lines *)

Definition isError (h : list obj) (v : val) : bool :=
  match v with VObj l => match h !! l with Some (OError _ _) => true | _ => false end | _ => false end.

Definition unknownError : obj := OError (runes "Error") (runes "An unknown error occurred").

(** What a promise settles with at the other end; a reason that is no error is replaced. *)
Definition settledAs (h : list obj) (R : nat → nat → Prop) (f o : settlement (num := num)) : Prop :=
  match f, o with
  | Fulfilled v, Fulfilled w => copied R v w
  | Rejected v, Rejected w => if isError h v then copied R v w else ∃ l, h !! l = Some unknownError ∧ copied R (VObj l) w
  | _, _ => False
  end.

Context (fate : nat → settlement (num := num)).

Record sender (vals : ghost) (gone : list nat) (s : Stream) : Prop := {
  snd_enc : encOk gone (heap s) vals [] (enc s);
  snd_ok : heapOk (heap s);
  snd_fine : fineHeap (heap s);
  snd_sent : vals ≠ [] → sent s + 1 = Z.of_nat (length vals);
}.

Record receiver (h : list obj) (vals : ghost) (gone : list nat) (st : Enc) (d : Dec) (own : list nat) : Prop := {
  rcv_length : length (values d) = length vals;
  rcv_slots i s : stringified st !! i = Some (Some s) → values d !! i = Some (slotJson s);
  rcv_todo : todo d = [];
  rcv_acts : acts d = [];
  rcv_inv : ∃ z pc, inv vals (stringified st) (values d) z [] [] d own pc;
  rcv_all i v : vals !! i = Some (Some v) → is_Some (hydrated d !! i);
  rcv_settled dd o : settled d !! dd = Some o →
    ∃ i l, own !! dd = Some i ∧ i ∈ gone ∧ vals !! i = Some (Some (VObj l)) ∧ settledAs h (copyOf vals own) (fate l) o;
  rcv_gone dd i : own !! dd = Some i → i ∈ gone → is_Some (settled d !! dd);
}.

(** What a line tells of a value. *)
Definition understood (h' : list obj) (vals' : ghost) (gone : list nat) (st' : Enc) (v : val) (d : Dec) (own : list nat) (j : json) : Prop :=
  ∃ d' own' w, GXe j d = Ret (d', w) ∧ receiver h' vals' gone st' d' (own ++ own') ∧
    copied (copyOf vals' (own ++ own')) v w ∧ settled d' = settled d ∧ hydrated d ⊆ hydrated d'.

(** [settledAs] when more is sent. *)
Lemma isError_app h h' v : valOk h v → isError (h ++ h') v = isError h v.
Proof. destruct v; try done. simpl. intros Hl. by rewrite lookup_app_l. Qed.

Definition fateOk (h : list obj) : Prop := ∀ l, match fate l with Fulfilled v | Rejected v => valOk h v end.

Lemma settledAs_app h h' (vals ext : ghost) own own' l o : fateOk h → settledAs h (copyOf vals own) (fate l) o →
  settledAs (h ++ h') (copyOf (vals ++ ext) (own ++ own')) (fate l) o.
Proof.
  intros Hf. specialize (Hf l). unfold settledAs. destruct (fate l), o; try done.
  - apply copied_mono. intros. by apply copyOf_app.
  - rewrite isError_app by done. destruct (isError h v).
    + apply copied_mono. intros. by apply copyOf_app.
    + intros (e & He & Hc). exists e. split; [by apply lookup_app_l_Some|]. eapply copied_mono; [|exact Hc]. intros. by apply copyOf_app.
Qed.

(** The slots of the new numbers. *)
Lemma new_slots gone h vals ext st : encOk gone h (vals ++ ext) [] st → Forall is_Some ext → ext ≠ [] →
  length (stringified st) = length (vals ++ ext) ∧ ∃ ss, drop (length vals) (stringified st) = map Some ss ∧ ss ≠ [] ∧
    ∀ i s, ss !! i = Some s ↔ stringified st !! (length vals + i)%nat = Some (Some s).
Proof.
  intros Hok Hsome Hne. assert (∀ i, (length vals <= i < length (vals ++ ext))%nat → ∃ s, stringified st !! i = Some (Some s)) as Hfill.
  { intros i Hi. rewrite length_app in Hi. destruct (lookup_lt_is_Some_2 ext (i - length vals)) as [x Hx]; [lia|].
    rewrite Forall_forall in Hsome. destruct (Hsome x) as [v ->]; [by eapply list_elem_of_lookup_2|].
    destruct (ok_filled _ _ _ _ _ Hok i v) as (s & Hs & _); [rewrite lookup_app_r by lia; done|apply not_elem_of_nil|eauto]. }
  assert (length (stringified st) = length (vals ++ ext)) as Hlen.
  { pose proof (ok_length _ _ _ _ _ Hok). destruct ext as [|x ext]; [done|]. rewrite length_app in *. simpl in *.
    destruct (Hfill (length vals + length ext)%nat) as [s Hs%lookup_lt_Some]; lia. }
  split; [done|]. assert (Forall is_Some (drop (length vals) (stringified st))) as Hd.
  { apply Forall_lookup. intros i x Hx. rewrite lookup_drop in Hx. pose proof (lookup_lt_Some _ _ _ Hx).
    destruct (Hfill (length vals + i)%nat) as [s Hs]; [lia|]. assert (x = Some s) as -> by congruence. by eexists. }
  assert (∃ ss, drop (length vals) (stringified st) = map Some ss) as [ss Ess].
  { clear -Hd. induction Hd as [|x l [s ->] _ [ss IH]]; [by exists []|]. exists (s :: ss). simpl. by rewrite IH. }
  exists ss. split_and!; [done| |].
  - intros ->. apply (f_equal length) in Ess. simpl in Ess. rewrite length_drop, length_app in *. destruct ext; [done|]. simpl in *. lia.
  - intros i s. rewrite <- lookup_drop, Ess. change (map Some ss) with (Some <$> ss). rewrite list_lookup_fmap.
    destruct (ss !! i); simpl; naive_solver.
Qed.

(** ** The three kinds of line *)

Section line.
Context (h : list obj) (vals : ghost) (gone : list nat) (st : @Enc num) (d : @Dec num) (own : list nat).
Hypothesis Hrcv : receiver h vals gone st d own.
Hypothesis Henc : encOk gone h vals [] st.
Hypothesis Hfine : fineHeap h.
Hypothesis Hfate : fateOk h.

(** The promises keep how they settled. *)
Lemma rcv_settled_app ext own' dd o : settled d !! dd = Some o →
  ∃ i l, (own ++ own') !! dd = Some i ∧ i ∈ gone ∧ (vals ++ ext) !! i = Some (Some (VObj l)) ∧
    settledAs h (copyOf (vals ++ ext) (own ++ own')) (fate l) o.
Proof.
  intros (i & l & Hi & Hg & Hl & Ho)%(rcv_settled _ _ _ _ _ _ Hrcv). exists i, l.
  split_and!; [by apply lookup_app_l_Some|done|by apply lookup_app_l_Some|].
  pose proof (settledAs_app h [] vals ext own own' l o Hfate Ho) as H'. by rewrite app_nil_r in H'.
Qed.

(** No new object copies a promise that has settled. *)
Lemma rcv_gone_app d' (vals' : ghost) slots' vs' z T A own' pc dd i : inv vals' slots' vs' z T A d' (own ++ own') pc → hydrated d ⊆ hydrated d' →
  (own ++ own') !! dd = Some i → i ∈ gone → is_Some (settled d !! dd).
Proof.
  intros Hinv Hsub Hi Hg. destruct (ok_gone _ _ _ _ _ Henc i Hg) as (_ & s & Hs). destruct (ok_slots _ _ _ _ _ Henc _ _ Hs) as [v Hv].
  destruct (rcv_all _ _ _ _ _ _ Hrcv i v Hv) as [w Hw]. pose proof (lookup_weaken _ _ _ _ Hw Hsub) as Hw'.
  destruct (inv_own _ _ _ _ _ _ _ _ _ Hinv dd i Hi) as [Hd _]. assert (w = VObj dd) as -> by congruence.
  destruct (rcv_inv _ _ _ _ _ _ Hrcv) as (z1 & pc1 & Hi1). apply (inv_hyd _ _ _ _ _ _ _ _ _ Hi1) in Hw. unfold builtAs in Hw. rewrite Hv in Hw.
  destruct (ok_filled _ _ _ _ _ Henc i v Hv) as (s' & Hs' & Hf); [apply not_elem_of_nil|].
  destruct v; try done; simplify_eq. destruct Hw as (dd' & [= <-] & Ho). by apply (rcv_gone _ _ _ _ _ _ Hrcv dd i).
Qed.

(** A number that stands for a special value. *)
Lemma special_line v z : special v = Some z → understood h vals gone st v d own (num_ z).
Proof.
  intros Hz. pose proof (special_code _ _ Hz) as Hr. unfold understood, GXe, KXe, TurboStream.GXe, TurboStream.KXe.
  assert (hydrateLoop newURL newRegExp isGlobal (S (allRefs (values d))) (withResult VUndef (withTodo [(num_ z, ToResult)] d)) =
    Ret (withResult v (withTodo [] d))) as E.
  { simpl. rewrite ofZ_toZ by (unfold safe; lia). rewrite (specialOf_special _ _ Hz). simpl. by destruct (allRefs (values d)). }
  unfold num_ in E |- *. rewrite E. simpl. rewrite (rcv_acts _ _ _ _ _ _ Hrcv). simpl.
  eexists _, [], v. split; [reflexivity|]. rewrite app_nil_r. destruct Hrcv. split.
  - split; simpl; try done. destruct rcv_inv0 as (z1 & pc & []). exists z, pc. split; simpl; try done. right. unfold res. by rewrite (specialOf_special _ _ Hz).
  - split; [|done]. destruct v; try done. by left.
Qed.

(** A line of new slots. *)
Lemma new_line ext st' v ss : encOk gone h (vals ++ ext) [] st' → Z.of_nat (length (vals ++ ext)) < 2 ^ 53 →
  Forall is_Some ext → ext ≠ [] → keeps st st' → reaches st st' [Z.of_nat (length vals)] → denotes (vals ++ ext) (Z.of_nat (length vals)) v →
  drop (length vals) (stringified st') = map Some ss →
  understood h (vals ++ ext) gone st' v d own (JArr (map slotJson ss)).
Proof.
  intros Henc' Hsmall Hsome Hne Hkeep Hreach Hden Ess. destruct (new_slots _ _ _ _ _ Henc' Hsome Hne) as (Hlen & ss' & Ess' & Hss & Hlook).
  assert (ss' = ss) as -> by (apply (inj (fmap Some)); change (map Some ss' = map Some ss); congruence).
  set (vs' := values d ++ map slotJson ss). set (d0 := withValues vs' d). pose proof (rcv_length _ _ _ _ _ _ Hrcv) as Hvl.
  assert (∀ i s, stringified st' !! i = Some (Some s) → vs' !! i = Some (slotJson s)) as Hvs.
  { intros i s Hs. unfold vs'. destruct (decide (i < length vals)%nat) as [Hlt|Hge].
    - destruct (ok_slots _ _ _ _ _ Henc' _ _ Hs) as [x Hx]. rewrite lookup_app_l in Hx by done.
      destruct (ok_filled _ _ _ _ _ Henc i x Hx) as (s0 & Hs0 & _); [apply not_elem_of_nil|]. pose proof (Hkeep _ _ Hs0).
      apply lookup_app_l_Some, (rcv_slots _ _ _ _ _ _ Hrcv). congruence.
    - rewrite lookup_app_r by lia. change (map slotJson ss) with (slotJson <$> ss). rewrite list_lookup_fmap, Hvl.
      replace i with (length vals + (i - length vals))%nat in Hs by lia. apply Hlook in Hs. by rewrite Hs. }
  assert (length vs' = length (vals ++ ext)) as Hvl'.
  { unfold vs'. rewrite length_app, length_map, Hvl. apply (f_equal length) in Ess. rewrite length_drop, length_map in Ess. rewrite length_app in *. lia. }
  assert (stream h (vals ++ ext) (stringified st') (values d0)) as Hstr by by eapply encOk_stream.
  destruct (rcv_inv _ _ _ _ _ _ Hrcv) as (z & pc & Hinv).
  destruct (KXe_ok h (vals ++ ext) (stringified st') (Z.of_nat (length vals)) d0 own pc)
    as (d' & own' & pc' & E & H1 & H2 & H3 & H4 & H5 & H6); [done|apply Hrcv| |].
  { eapply inv_start; [done| |done|by eapply denotes_valid|by eapply denotes_small].
    intros i x Hx. destruct (ok_filled _ _ _ _ _ Henc i x Hx) as (s0 & Hs0 & _); [apply not_elem_of_nil|eauto]. }
  pose proof (inv_values _ _ _ _ _ _ _ _ _ H1) as Hv'. exists d', own', (result d'). split_and!.
  - unfold GXe, TurboStream.GXe. destruct ss as [|x ss]; [done|]. cbn [map]. by rewrite Hvl.
  - split; try done; rewrite ?Hv'; try done.
    + eauto.
    + intros i x Hx. destruct (decide (i < length vals)%nat) as [Hlt|Hge].
      * rewrite lookup_app_l in Hx by done. destruct (rcv_all _ _ _ _ _ _ Hrcv i x Hx) as [w Hw]. exists w. by eapply lookup_weaken.
      * destruct Hreach as [_ Hreach]. rewrite (ok_index _ _ _ _ _ Henc), (ok_index _ _ _ _ _ Henc') in Hreach.
        apply (Hreach (λ i, is_Some (hydrated d' !! i))); [| |apply lookup_lt_Some in Hx; lia].
        -- eapply rest_closed; [exact Hstr|exact H1|done|by apply (ok_slots _ _ _ _ _ Henc')].
        -- constructor; [|constructor]. intros j Hj. assert (j = length vals) as -> by lia. unfold res in H6. rewrite specialOf_nat in H6.
           destruct H6 as (j' & ->%Nat2Z.inj & Hj'). by eexists.
    + intros dd o. rewrite H5. apply rcv_settled_app.
    + intros dd i Hi Hg. rewrite H5. by eapply rcv_gone_app.
  - eapply res_copied; [done|done|done].
  - done.
  - done.
Qed.

(** A line that names a number sent before takes a number too. *)
Lemma bump_ok : encOk gone h (vals ++ [None]) [] (bump st).
Proof.
  destruct Henc as [oi om oo os ov ofi ob op ol osl od opr og].
  assert (∀ i x, (vals ++ [None]) !! i = Some (Some x) → vals !! i = Some (Some x)) as Hold.
  { intros i x [?|[_ Hx]]%lookup_app_Some; [done|]. destruct (i - length vals)%nat; by simplify_eq/=. }
  split; simpl; try done.
  - rewrite length_app. simpl. lia.
  - intros k i Hk%om. by apply lookup_app_l_Some.
  - eauto.
  - eauto.
  - eauto.
  - intros i v Hv%Hold Ho. destruct (ofi i v Hv Ho) as (s & Hs & Hf). exists s. split; [done|]. rewrite <- (app_nil_r h). by apply slotFor_app.
  - intros i Hi%elem_of_nil. done.
  - rewrite length_app. lia.
  - intros i s [v Hv]%osl. exists v. by apply lookup_app_l_Some.
  - intros i l [Hv Hl]%od. split; [by apply lookup_app_l_Some|done].
Qed.

Section again.
Context (n : nat) (v w : val).
Hypothesis Hn : vals !! n = Some (Some (keyOf v)).
Hypothesis Hw : hydrated d !! n = Some w.
Hypothesis Hsmall : Z.of_nat (length (vals ++ [None])) < 2 ^ 53.

#[local] Abbreviation again := (tag_ "Z" [num_ (Z.of_nat n)]).

Definition afterAgain : Dec :=
  withActs [] (withResult w (withHydrated (length vals) w (withTodo [] (withValues (values d ++ [again]) d)))).

Lemma next_unbuilt : hydrated d !! length vals = None.
Proof.
  destruct (rcv_inv _ _ _ _ _ _ Hrcv) as (z & pc & Hinv). destruct (hydrated d !! length vals) as [x|] eqn:E; [|done].
  apply (inv_hyd _ _ _ _ _ _ _ _ _ Hinv) in E. unfold builtAs in E. by rewrite lookup_ge_None_2 in E by lia.
Qed.

Lemma again_runs : GXe (JArr [again]) d = Ret (afterAgain, w).
Proof.
  pose proof (rcv_length _ _ _ _ _ _ Hrcv) as Hvl. pose proof (lookup_lt_Some _ _ _ Hn) as Hlt. rewrite length_app in Hsmall. simpl in Hsmall.
  unfold TurboStream.GXe, TurboStream.KXe. rewrite Hvl. cbn [hydrateLoop withResult withTodo withValues todo values].
  unfold hydrateOne. rewrite ofZ_toZ by (unfold safe; lia). rewrite specialOf_nat, (proj2 (Z.ltb_ge _ _)), Nat2Z.id by lia.
  cbn [hydrated values withTodo withResult withValues]. rewrite next_unbuilt. rewrite lookup_app_r, Hvl, Nat.sub_diag by lia. simpl. unfold hydrateTagged. simpl.
  rewrite ofZ_toZ by (unfold safe; lia). rewrite (proj2 (Z.leb_le _ _)) by lia. simpl. rewrite Nat2Z.id, Hw.
  destruct (allRefs _); simpl; by rewrite (rcv_acts _ _ _ _ _ _ Hrcv).
Qed.

Lemma again_rest : ∃ pc, inv (vals ++ [None]) (stringified st) (values d ++ [again]) (Z.of_nat (length vals)) [] [] afterAgain own pc.
Proof.
  assert (hydrated d ⊆ <[length vals := w]> (hydrated d)) as Hsub by apply insert_subseteq, next_unbuilt.
  destruct (rcv_inv _ _ _ _ _ _ Hrcv) as (z & pc & [_ inv_len0 inv_hyd0 inv_own0 inv_obj0 inv_wait0 inv_clen0 inv_cells0 _ _ _]). exists pc.
  split; simpl; try done.
  - intros i x. rewrite lookup_insert. case_decide as E.
    + intros _. subst i. unfold builtAs. by rewrite lookup_app_r, Nat.sub_diag by lia.
    + intros Hx%inv_hyd0. unfold builtAs in *. destruct (vals !! i) as [y|] eqn:Ey; [|done]. by rewrite (lookup_app_l_Some _ _ _ _ Ey).
  - intros dd i [H1 (l & Hl)]%inv_own0. split; [by eapply lookup_weaken|]. exists l. by apply lookup_app_l_Some.
  - intros dd i s o H1 H2 H3. eapply part_frame; [by apply inv_obj0|done..].
  - intros p c x b H1 H2. destruct (inv_cells0 p c x b H1 H2) as [?%elem_of_nil|?]; [done|right; by eapply res_mono].
  - right. unfold res. rewrite specialOf_nat. exists (length vals). split; [done|]. apply lookup_insert_eq.
Qed.

Lemma again_understood : understood h (vals ++ [None]) gone (bump st) v d own (JArr [again]).
Proof.
  assert (hydrated d ⊆ <[length vals := w]> (hydrated d)) as Hsub by apply insert_subseteq, next_unbuilt.
  destruct again_rest as [pc Hrest]. destruct (rcv_inv _ _ _ _ _ _ Hrcv) as (z & pc0 & Hinv).
  exists afterAgain, [], w. split; [apply again_runs|]. rewrite app_nil_r. split_and!; [|..|done|done].
  - split; simpl; try done.
    + rewrite !length_app. by rewrite (rcv_length _ _ _ _ _ _ Hrcv).
    + intros i s Hs%(rcv_slots _ _ _ _ _ _ Hrcv). by apply lookup_app_l_Some.
    + eauto.
    + intros i x [Hx|[Hge Hx]]%lookup_app_Some; [|by destruct (i - length vals)%nat; simplify_eq/=].
      destruct (rcv_all _ _ _ _ _ _ Hrcv i x Hx) as [y Hy]. exists y. by eapply lookup_weaken.
    + intros dd o (i & l & Hi & Hg & Hl & Ho)%(rcv_settled _ _ _ _ _ _ Hrcv). exists i, l. split_and!; [done|done|by apply lookup_app_l_Some|].
      pose proof (settledAs_app h [] vals [None] own [] l o Hfate Ho) as H'. by rewrite !app_nil_r in H'.
    + apply (rcv_gone _ _ _ _ _ _ Hrcv).
  - apply (copied_mono (copyOf vals own)); [intros dd l Hd; rewrite <- (app_nil_r own); by apply copyOf_app|].
    apply (res_copied _ _ _ _ _ _ _ Hinv (Z.of_nat n)); [right; by exists n|]. unfold res. rewrite specialOf_nat. by exists n.
Qed.

End again.

End line.

(** ** The lines of the encoder *)

Lemma valOk_app (h h' : list obj) v : valOk h v → valOk (h ++ h') v.
Proof. destruct v as [| | | | | |[]| |]; try done. simpl. rewrite length_app. lia. Qed.

Lemma objOk_app (h h' : list obj) o : objOk h o → objOk (h ++ h') o.
Proof.
  destruct o; simpl; try done; intros Ho; (eapply Forall_impl; [exact Ho|]); [intros [v|]; [apply valOk_app|done]|..];
    try (intros p [? ?]; split; [done|by apply valOk_app]); [apply valOk_app|intros p [? ?]; split; by apply valOk_app].
Qed.

Lemma encOk_heap gone (h h' : list obj) vals st : encOk gone h vals [] st → encOk gone (h ++ h') vals [] st.
Proof.
  intros [oi om oo os ov ofi ob op ol osl od opr og]. split; try done.
  - intros i v Hv. apply valOk_app. by eapply ov.
  - intros i v Hv Ho. destruct (ofi i v Hv Ho) as (s & Hs & Hf). exists s. split; [done|]. rewrite <- (app_nil_r vals). by apply slotFor_app.
  - intros i l [Hv Hl]%od. split; [done|]. by apply lookup_app_l_Some.
Qed.

Lemma undefer_ok gone (h : list obj) vals st e : encOk gone h vals [] st → e ∈ (deferred st).*1 → encOk (e :: gone) h vals [] (undefer e st).
Proof.
  intros [oi om oo os ov ofi ob op ol osl od opr og] ([e' l] & -> & He)%list_elem_of_fmap. simpl in *. destruct (od e' l He) as [Hv Hl].
  assert (∀ i, i ∈ (filter (λ x, x.1 ≠ e') (deferred st)).*1 ↔ i ≠ e' ∧ i ∈ (deferred st).*1) as Hfil.
  { intros i. rewrite !list_elem_of_fmap. setoid_rewrite list_elem_of_filter. naive_solver. }
  split; simpl; try done.
  - intros i l' [_ Hi]%list_elem_of_filter. by apply od.
  - intros i t Hi. rewrite Hfil, elem_of_cons. destruct (decide (i = e')) as [->|Hne]; [by left; left|].
    destruct (opr i t Hi); [left; by right|by right].
  - intros i [->|Hi]%elem_of_cons; rewrite Hfil.
    + split; [by intros []|]. destruct (ofi e' _ Hv) as (s & Hs & _); [apply not_elem_of_nil|eauto].
    + destruct (og i Hi) as [H1 H2]. split; [by intros [_ ?]|done].
Qed.

Lemma free_bound (h : list obj) (st : Enc) : (free h st <= length h)%nat.
Proof. unfold free. etrans; [apply length_filter|]. by rewrite length_seq. Qed.

Lemma UP_good gone (h : list obj) vals st v : encOk gone h vals [] st → heapOk h → valOk h v →
  good gone h vals [] st (codeFor st v) (UP (enough h) h v st).
Proof.
  intros Hok Hh Hv. apply (UPwith_good gone h (enough h)); [by apply HXe_fills|done|done|]. pose proof (free_bound h st). unfold fueled, enough.
  destruct vals; simpl; lia.
Qed.

(** Which number [UP] returns. *)
Lemma UPwith_code (rec : val → nat → Enc → outcome Enc) v st st' c : UPwith rec v st = Ret (st', c) →
  match c with
  | Again n => st' = st ∧ mapGet (keyOf v) (indices st) = Some n
  | New z => special v = Some z ∧ st' = st ∨ special v = None ∧ z = Z.of_nat (index st)
  end.
Proof.
  unfold UPwith. destruct (mapGet (keyOf v) (indices st)) as [[|n]|] eqn:Em; [|by intros [= <- <-]|];
    (destruct (special v) as [z|]; [intros [= <- <-]; by left|]); destruct (rec v _ _) as [x| | |]; try done; intros [= <- <-]; by right.
Qed.

Section sending.
Context (h : list obj) (vals : ghost) (gone : list nat) (st : @Enc num) (v : val).
Hypothesis Hok : encOk gone h vals [] st.
Hypothesis Hfine : fineHeap h.
Hypothesis Hh : heapOk h.
Hypothesis Hv : valOk h v.

(** What [UP] sends: a number sent before, a number of a special value, or new slots. *)
Inductive sends : Enc → code → ghost → Prop :=
  | sendsAgain n : vals !! n = Some (Some (keyOf v)) → sends st (Again n) []
  | sendsSpecial z : special v = Some z → sends st (New z) []
  | sendsNew st' ext : encOk gone h (vals ++ ext) [] st' → Forall is_Some ext → ext ≠ [] → keeps st st' →
      reaches st st' [Z.of_nat (length vals)] → denotes (vals ++ ext) (Z.of_nat (length vals)) v → (vals ++ ext) !! length vals = Some (Some v) →
      sends st' (New (Z.of_nat (length vals))) ext.

Lemma UP_sends : ∃ st' c ext, UP (enough h) h v st = Ret (st', c) ∧ sends st' c ext.
Proof.
  destruct (UP_good gone h vals st v Hok Hh Hv) as (st' & c & ext & E & G & Hden & Hreach). pose proof (UPwith_code _ _ _ _ _ E) as Hc.
  destruct c as [n|z].
  - destruct Hc as [-> Hm]. exists st, (Again n), []. split; [done|]. constructor. by apply (ok_map _ _ _ _ _ Hok).
  - destruct Hc as [[Hs ->]|[Hs ->]]; [exists st, (New z), []; split; [done|by constructor]|].
    exists st', (New (Z.of_nat (index st))), ext. split; [done|]. rewrite (ok_index _ _ _ _ _ Hok) in *. destruct G.
    assert ((vals ++ ext) !! length vals = Some (Some v)) as Hlast.
    { destruct Hden as [?|(i & ->%Nat2Z.inj & Hi)]; [congruence|]. by rewrite keyOf_special in Hi. }
    constructor; try done. intros ->. rewrite app_nil_r in Hlast. apply lookup_lt_Some in Hlast. lia.
Qed.

(** The text of new slots is read as the slots. *)
Lemma new_text st' ext : encOk gone h (vals ++ ext) [] st' → Forall is_Some ext → ext ≠ [] → Z.of_nat (length (vals ++ ext)) < 2 ^ 53 →
  ∃ ss, drop (length vals) (stringified st') = map Some ss ∧
    slotsText (drop (length vals) (stringified st')) = jsonText (JArr (map slotJson ss)) ∧ printable (JArr (map slotJson ss)).
Proof.
  intros Hok' Hsome Hne Hsmall. destruct (new_slots _ _ _ _ _ Hok' Hsome Hne) as (Hlen & ss & Ess & Hss & Hlook).
  exists ss. split; [done|]. rewrite Ess. apply slots_written. apply Forall_lookup. intros i s Hs. apply Hlook in Hs.
  destruct (ok_slots _ _ _ _ _ Hok' _ _ Hs) as [x Hx]. destruct (ok_filled _ _ _ _ _ Hok' _ _ Hx) as (s' & Hs' & Hf); [apply not_elem_of_nil|].
  assert (s' = s) as -> by congruence. eapply slotFor_ok; [done|done|by eapply lookup_lt_Some|by eapply Hok'|by eapply Hok'|done].
Qed.

Lemma again_text n : (n < length vals)%nat → Z.of_nat (length vals) < 2 ^ 53 →
  runes "[" ++ tagged "Z" [decimal n] ++ runes "]" = jsonText (JArr [tag_ "Z" [num_ (Z.of_nat n)]]) ∧ printable (JArr [tag_ "Z" [num_ (Z.of_nat n)]]).
Proof.
  intros Hn Hsmall. assert (safe (Z.of_nat n)) as Hs by (unfold safe; lia).
  split.
  { cbn [jsonText map]. fold (jsonText (num := num)). rewrite (tag_text "Z" [num_ (Z.of_nat n)] [decimal n]); [done|done|].
    cbn [map]. by rewrite num_text, decimalZ_of_nat. }
  simpl. split_and!; [by repeat constructor|by apply ofZ_finite|done|done].
Qed.

End sending.

(** ** A promise settles *)

Definition lineHead (tag : Z) (e : nat) : jstr := tag :: decimal e ++ runes ":".

Lemma splitLine_ok tag e r : splitLine (lineHead tag e ++ r) = Ret (e, r).
Proof.
  unfold splitLine, lineHead. change ((tag :: decimal e ++ runes ":") ++ r) with (tag :: (decimal e ++ [58]) ++ r). cbn [tail]. rewrite <- app_assoc.
  rewrite (span_app (λ c, negb (c =? 58)) (decimal e) ([58] ++ r)); [|by eapply Forall_impl; [apply decimal_digits_all|]; intros c Hc%digit_range; simpl; lia|done].
  simpl. by rewrite readDigits_decimal, Nat2Z.id.
Qed.

(** The promise of a number that waits. *)
Lemma waiting_promise h vals gone st d own e l : receiver h vals gone st d own → encOk gone h vals [] st → (e, l) ∈ deferred st →
  ∃ p, waiting d !! e = Some p ∧ own !! p = Some e ∧ hydrated d !! e = Some (VObj p) ∧ settled d !! p = None.
Proof.
  intros Hrcv Hok He. destruct (ok_deferred _ _ _ _ _ Hok e l He) as [Hv Hl]. destruct (rcv_all _ _ _ _ _ _ Hrcv e _ Hv) as [w Hw].
  destruct (rcv_inv _ _ _ _ _ _ Hrcv) as (z & pc & Hinv). pose proof (inv_hyd _ _ _ _ _ _ _ _ _ Hinv _ _ Hw) as Hb. unfold builtAs in Hb. rewrite Hv in Hb.
  destruct Hb as (p & -> & Hp). destruct (ok_filled _ _ _ _ _ Hok e _ Hv) as (s & Hs & Hf); [apply not_elem_of_nil|]. simpl in Hf. rewrite Hl in Hf.
  destruct s; try done. destruct (lookup_lt_is_Some_2 (objects d) p) as [o Ho]; [rewrite <- (inv_len _ _ _ _ _ _ _ _ _ Hinv); by eapply lookup_lt_Some|].
  pose proof (inv_obj _ _ _ _ _ _ _ _ _ Hinv _ _ _ _ Hp Hs Ho) as Hpart. destruct o; try done. exists p. split_and!; [done..|].
  destruct (settled d !! p) as [o|] eqn:Es; [exfalso|done]. apply (rcv_settled _ _ _ _ _ _ Hrcv) in Es as (i & l' & Hi & Hg & _).
  assert (i = e) as -> by congruence. destruct (ok_gone _ _ _ _ _ Hok e Hg) as [[] _]. apply list_elem_of_fmap. by exists (e, l).
Qed.

Lemma settleLine_ok h vals gone st h' vals' st' v d own e l tag text j f :
  receiver h vals gone st d own → encOk gone h vals [] st → (e, l) ∈ deferred st → vals' !! e = Some (Some (VObj l)) →
  text = jsonText j → printable j → understood h' vals' gone st' v d own j →
  (∀ own' w, copied (copyOf vals' own') v w → settledAs h' (copyOf vals' own') (fate l) (f w)) →
  ∃ d' own', settleLine newURL newRegExp isGlobal f (lineHead tag e ++ text) d = Ret d' ∧ receiver h' vals' (e :: gone) (undefer e st') d' (own ++ own').
Proof.
  intros Hrcv Hok He Hl -> Hj%parse_text (d1 & own' & w & EG & H1 & H2 & H3 & H4) Hf.
  destruct (waiting_promise _ _ _ _ _ _ _ _ Hrcv Hok He) as (p & Hw & Hp & Hh & Hs).
  unfold settleLine. rewrite splitLine_ok. simpl. rewrite Hw, Hj. fold GXe. rewrite EG. simpl. rewrite H3, Hs. eexists _, own'. split; [reflexivity|].
  pose proof (lookup_app_l_Some _ own' _ _ Hp) as Hp'. pose proof (lookup_weaken _ _ _ _ Hh H4) as Hh'.
  destruct H1 as [r1 r2 r3 r4 (z & pc & Hinv) r6 r7 r8]. split; simpl; try done.
  - exists z, pc. destruct Hinv. by split.
  - intros dd o. rewrite lookup_insert. case_decide as E.
    + intros [= <-]. subst dd. exists e, l. split_and!; [done|left|done|by apply Hf].
    + rewrite <- H3. intros (i & l' & Hi & Hg & Hrest)%r7. exists i, l'. split_and!; [done|by right|apply Hrest|apply Hrest].
  - intros dd i Hi Hg. rewrite lookup_insert. case_decide as E; [by eexists|]. apply elem_of_cons in Hg as [->|Hg].
    + destruct (inv_own _ _ _ _ _ _ _ _ _ Hinv dd e Hi) as [Hd _]. congruence.
    + rewrite <- H3. by apply (r8 dd i).
Qed.

(** A heap that grows. *)
Lemma receiver_heap h h' vals gone st d own : receiver h vals gone st d own → fateOk h → receiver (h ++ h') vals gone st d own.
Proof.
  intros [] Hf. split; try done. intros dd o (i & l & Hi & Hg & Hl & Ho)%rcv_settled0. exists i, l. split_and!; try done.
  pose proof (settledAs_app h h' vals [] own [] l o Hf Ho) as H'. by rewrite !app_nil_r in H'.
Qed.

Lemma fateOk_app h h' : fateOk h → fateOk (h ++ h').
Proof. intros Hf l. specialize (Hf l). destruct (fate l); by apply valOk_app. Qed.

(** A promise that waits goes on waiting while other slots are written. *)
Lemma still_waiting gone (h h1 : list obj) (vals ext : ghost) (st st' : Enc) e l : encOk gone h vals [] st → encOk gone h1 (vals ++ ext) [] st' →
  (e, l) ∈ deferred st → h1 !! l = Some OPromise → e ∈ (deferred st').*1.
Proof.
  intros Hok Hok' He Hl. destruct (ok_deferred _ _ _ _ _ Hok e l He) as [Hv _]. apply (lookup_app_l_Some _ ext) in Hv.
  destruct (ok_filled _ _ _ _ _ Hok' e _ Hv) as (s & Hs & Hf); [apply not_elem_of_nil|]. simpl in Hf. rewrite Hl in Hf. destruct s; try done.
  destruct (ok_promised _ _ _ _ _ Hok' e _ Hs) as [Hg|?]; [|done]. destruct (ok_gone _ _ _ _ _ Hok e Hg) as [[] _].
  apply list_elem_of_fmap. by exists (e, l).
Qed.

(** What a line does at the two ends. *)
Definition carried (tag : Z) (e : nat) (f : val → settlement) (h : list obj) (s : Stream) (vals : ghost) (gone : list nat) (x : outcome (Stream * jstr)) : Prop :=
  ∃ s' text ext, x = Ret (s', lineHead tag e ++ text) ∧ heap s' = h ∧ sender (vals ++ ext) (e :: gone) s' ∧
    (Z.of_nat (length (vals ++ ext)) < 2 ^ 53 → (∃ j : json, text = jsonText j ∧ printable j) ∧ ∀ d own, receiver (heap s) vals gone (enc s) d own →
      ∃ d' own', settleLine newURL newRegExp isGlobal f (lineHead tag e ++ text) d = Ret d' ∧
        receiver h (vals ++ ext) (e :: gone) (enc s') d' (own ++ own')).

Lemma sendSettled_ok tag e l f h' v s vals gone : sender vals gone s → heapOk (heap s ++ h') → fineHeap (heap s ++ h') →
  valOk (heap s ++ h') v → fateOk (heap s) → (e, l) ∈ deferred (enc s) →
  (∀ (vals : ghost) own w, copied (copyOf vals own) v w → settledAs (heap s ++ h') (copyOf vals own) (fate l) (f w)) →
  carried tag e f (heap s ++ h') s vals gone (sendSettled tag e (heap s ++ h') v s).
Proof.
  intros Hsnd Hh Hfine Hv Hfate He Hf. pose proof (snd_enc _ _ _ Hsnd) as Hok. pose proof (encOk_heap _ _ h' _ _ Hok) as Hok'.
  assert (e ∈ (deferred (enc s)).*1) as He1 by (apply list_elem_of_fmap; by exists (e, l)).
  destruct (ok_deferred _ _ _ _ _ Hok e l He) as [Hve Hle]. assert (vals ≠ []) as Hne by (by intros ->).
  pose proof (snd_sent _ _ _ Hsnd Hne) as Hsent. pose proof (fateOk_app _ h' Hfate) as Hfate'.
  destruct (UP_sends _ _ _ _ _ Hok' Hh Hv) as (st' & c & ext & E & HS). unfold sendSettled. rewrite E. cbn [mbind outcome_bind fst snd].
  destruct HS as [n Hn|z Hz|st' ext H1 H2 H3 H4 H5 H6 H7].
  - eexists _, _, [None]. split; [reflexivity|]. split; [done|].
    pose proof (bump_ok _ _ _ _ Hok') as Hb. split; [split; simpl; [by apply undefer_ok|done|done|rewrite length_app; simpl; lia]|].
    intros Hsmall. destruct (again_text vals n) as [Et Hp]; [by eapply lookup_lt_Some|rewrite length_app in Hsmall; simpl in Hsmall; lia|].
    split; [by eexists|]. intros d own Hrcv. apply (receiver_heap _ h') in Hrcv; [|done]. destruct (rcv_all _ _ _ _ _ _ Hrcv n _ Hn) as [w Hw].
    eapply settleLine_ok; [done|done|done|by apply lookup_app_l_Some|exact Et|exact Hp|by eapply again_understood|intros; by apply Hf].
  - pose proof (special_code _ _ Hz) as Hr. replace (z <? 0) with true by lia. eexists _, _, []. split; [reflexivity|]. split; [done|]. rewrite app_nil_r.
    split; [split; simpl; [by apply undefer_ok|done..]|]. intros Hsmall. destruct (number_written (num := num) z) as [Et Hp]; [unfold safe; lia|].
    split; [by eexists|]. intros d own Hrcv. apply (receiver_heap _ h') in Hrcv; [|done].
    eapply settleLine_ok; [done|done|done|done|exact Et|exact Hp|by apply special_line|intros; by apply Hf].
  - replace (Z.of_nat (length vals) <? 0) with false by lia. eexists _, _, ext. split; [reflexivity|]. split; [done|].
    destruct (new_slots _ _ _ _ _ H1 H2 H3) as (Hlen & _). rewrite Hsent, Nat2Z.id.
    split; [split; simpl; [|done|done|rewrite Hlen; lia]|].
    + apply undefer_ok; [done|]. eapply (still_waiting gone (heap s)); [done|done|done|]. by apply lookup_app_l_Some.
    + intros Hsmall. destruct (new_text _ _ _ Hfine _ _ H1 H2 H3 Hsmall) as (ss & Ess & Et & Hp). split; [by eexists|].
      intros d own Hrcv. apply (receiver_heap _ h') in Hrcv; [|done].
      eapply settleLine_ok; [done|done|done|by apply lookup_app_l_Some|exact Et|exact Hp|by eapply new_line|intros; by apply Hf].
Qed.

(** A rejection is an error. *)
Lemma reason_ok h v : heapOk h → fineHeap h → valOk h v →
  ∃ h' v', reason h v = (h ++ h', v') ∧ heapOk (h ++ h') ∧ fineHeap (h ++ h') ∧ valOk (h ++ h') v' ∧
    ∀ R w, copied R v' w → if isError (h ++ h') v then copied R v w else ∃ l, (h ++ h') !! l = Some unknownError ∧ copied R (VObj l) w.
Proof.
  intros Hh Hfine Hv. assert (reason h v = if isError h v then (h, v) else (h ++ [unknownError], VObj (length h))) as ->.
  { unfold reason, isError. destruct v; try done. destruct (h !! l) as [[]|]; done. }
  destruct (isError h v) eqn:Ee.
  - exists [], v. rewrite app_nil_r, Ee. by split_and!.
  - exists [unknownError], (VObj (length h)). rewrite isError_app, Ee by done. split_and!; [done|..].
    + apply Forall_app. split; [|by repeat constructor]. eapply Forall_impl; [exact Hh|]. intros o. apply objOk_app.
    + apply Forall_app. split; [done|]. constructor; [|constructor]. split; [left|]. apply bare_units. repeat constructor; done.
    + simpl. rewrite length_app. simpl. lia.
    + intros R w Hw. exists (length h). split; [|done]. by rewrite lookup_app_r, Nat.sub_diag by lia.
Qed.

Lemma settle_ok e l s vals gone : sender vals gone s → fateOk (heap s) → (e, l) ∈ deferred (enc s) →
  ∃ h', carried (match fate l with Fulfilled _ => 80 | Rejected _ => 69 end) e (match fate l with Fulfilled _ => Fulfilled | Rejected _ => Rejected end)
    (heap s ++ h') s vals gone (settle e (fate l) s).
Proof.
  intros Hsnd Hfate He. pose proof (Hfate l) as Hv. destruct (fate l) as [v|v] eqn:Ef; unfold settle.
  - exists []. pose proof (app_nil_r (heap s)) as En.
    pose proof (sendSettled_ok 80 e l Fulfilled [] v s vals gone Hsnd) as H. rewrite En in *. apply H; try done; try apply Hsnd.
    intros vs own w Hw. unfold settledAs. by rewrite Ef.
  - destruct (reason_ok (heap s) v) as (h' & v' & -> & H1 & H2 & H3 & H4); [apply Hsnd|apply Hsnd|done|]. exists h'.
    apply sendSettled_ok with (l := l); try done. intros vs own w Hw. unfold settledAs. rewrite Ef. by apply H4.
Qed.

(** ** The whole stream *)

(** The lines of a stream: JSON, with the promise it is about in front of all but the first. *)
Inductive lineText : jstr → Prop :=
  | rootLine (j : json) : printable j → lineText (jsonText j)
  | settledLine tag e (j : json) : tag ∈ [80; 69] → printable j → lineText (lineHead tag e ++ jsonText j).

Lemma settleAll_ok order s vals gone : sender vals gone s → fateOk (heap s) →
  ∃ s' lines h' ext gone', settleAll fate order s = Ret (s', lines) ∧ heap s' = heap s ++ h' ∧ sender (vals ++ ext) gone' s' ∧
    (Z.of_nat (length (vals ++ ext)) < 2 ^ 53 → Forall lineText lines ∧ ∀ d own, receiver (heap s) vals gone (enc s) d own →
      ∃ d' own', YXe newURL newRegExp isGlobal lines d = Ret d' ∧ receiver (heap s') (vals ++ ext) gone' (enc s') d' (own ++ own')).
Proof.
  revert s vals gone. induction order as [|e order IH]; intros s vals gone Hsnd Hfate; cbn [settleAll].
  - exists s, [], [], [], gone. rewrite !app_nil_r. split_and!; try done. intros _. split; [constructor|]. intros d own Hr. exists d, []. by rewrite app_nil_r.
  - destruct (list_find (λ x, x.1 = e) (deferred (enc s))) as [[k [e' l]]|] eqn:Ef; [|by apply IH].
    apply list_find_Some in Ef as (Hk & He' & _). simpl in He'. subst e'. apply list_elem_of_lookup_2 in Hk.
    destruct (settle_ok e l s vals gone Hsnd Hfate Hk) as (h1 & s1 & text & ext & E1 & Hs1 & Hsnd1 & Hd1). rewrite E1. cbn [mbind outcome_bind fst snd].
    destruct (IH s1 (vals ++ ext) (e :: gone) Hsnd1) as (s2 & lines & h2 & ext2 & gone2 & E2 & Hs2 & Hsnd2 & Hd2); [rewrite Hs1; by apply fateOk_app|].
    rewrite E2. eexists s2, _, (h1 ++ h2), (ext ++ ext2), gone2. split; [reflexivity|]. rewrite !(assoc_L (++)), Hs2, Hs1. split_and!; [done|done|].
    intros Hsmall. destruct (Hd2 Hsmall) as [Hlines Hd2'].
    destruct Hd1 as [(j & Ej & Hj) Hd1']; [rewrite length_app in Hsmall |- *; rewrite length_app in Hsmall; lia|].
    split; [constructor; [simpl; rewrite Ej; apply settledLine; [destruct (fate l); [left|right; left]|done]|done]|].
    intros d own Hr. destruct (Hd1' d own Hr) as (d1 & own1 & EY1 & Hr1). rewrite <- Hs1 in Hr1. destruct (Hd2' d1 (own ++ own1) Hr1) as (d2 & own2 & EY2 & Hr2). exists d2, (own1 ++ own2).
    rewrite (assoc_L (++)), <- Hs1, <- Hs2. split; [|done]. cbn [YXe snd]. unfold lineHead in EY1 |- *. cbn [app] in EY1 |- *.
    destruct (fate l); simpl (_ =? _); cbn iota; rewrite EY1; exact EY2.
Qed.

End rounds.
