(* ===== verification/TurboWire.v ===== *)
(** * The data stream on the wire

    The lines of the encoder go through [TextEncoder], are cut into chunks of bytes, and
    come out of the line splitter ([VXe], UiStreams.v) as the same lines: JSON text has no
    line break and no lone surrogate. *)

From Stdlib Require Import ZArith Lia.
From stdpp Require Import base numbers strings gmap option list.
From S2P Require Import Prelude Js UiStreams Json TurboStream TurboText TurboRounds.

Open Scope Z_scope.

(** ** [TextEncoder] *)

(** The scalar values of a string; a lone surrogate is replaced. *)
Fixpoint scalars (s : jstr) : list Z :=
  match s with
  | [] => []
  | c :: r =>
    if isLead c then
      match r with
      | d :: r' => if isTrail d then 65536 + (c - 55296) * 1024 + (d - 56320) :: scalars r' else 65533 :: scalars r
      | [] => [65533]
      end
    else if isTrail c then 65533 :: scalars r
    else c :: scalars r
  end.

Definition utf8 (c : Z) : list Z :=
  if c <? 128 then [c]
  else if c <? 2048 then [192 + c / 64; 128 + c mod 64]
  else if c <? 65536 then [224 + c / 4096; 128 + c / 64 mod 64; 128 + c mod 64]
  else [240 + c / 262144; 128 + c / 4096 mod 64; 128 + c / 64 mod 64; 128 + c mod 64].

(** [new TextEncoder().encode(s)] *)
Definition textEncode (s : jstr) : list Z := scalars s ≫= utf8.

(** The bytes of a stream: each line with a line break. *)
Definition wire (lines : list jstr) : list Z := lines ≫= λ l, textEncode (l ++ [NL]).

(** ** The two ends *)

(** [XXe]: the bytes of the stream, with the state it ends in. *)
Definition XXe {num} `{HN : JsNum num} (h : list (obj num)) (v : val num) (fate : nat → settlement) (order : list nat) : outcome (Stream * list Z) :=
  x ← encode h v fate order; Ret (x.1, wire x.2).

(** [qXe] on the chunks of a stream. *)
Definition qXe {num} `{HN : JsNum num} (newURL : jstr → option jstr) (newRegExp : jstr → jstr → option (jstr * jstr)) (isGlobal : jstr → bool)
    (chunks : list (list Z)) : outcome (Dec * val num) :=
  decode newURL newRegExp isGlobal (LineStream.pipe LineStream.init chunks).

(** ** Decoding gives the text back *)

Definition scalar (c : Z) : Prop := 0 <= c < 55296 ∨ 57344 <= c < 1114112.

Definition fromScalars (cps : list Z) : jstr := cps ≫= Utf8.utf16.

Lemma scalars_utf16 c s : scalar c → scalars (Utf8.utf16 c ++ s) = c :: scalars s.
Proof.
  intros Hc. unfold Utf8.utf16. destruct (Z.ltb_spec c 65536).
  - cbn [app scalars]. unfold isLead, isTrail. destruct Hc.
    + replace (55296 <=? c) with false by lia. replace (56320 <=? c) with false by lia. done.
    + replace (c <=? 56319) with false by lia. replace (c <=? 57343) with false by lia. rewrite !andb_false_r. done.
  - assert (0 <= (c - 65536) / 1024 < 1024) by (split; [apply Z.div_pos; lia|apply Z.div_lt_upper_bound; unfold scalar in Hc; lia]).
    pose proof (Z.mod_pos_bound (c - 65536) 1024 ltac:(lia)). pose proof (Z.div_mod (c - 65536) 1024 ltac:(lia)).
    cbn [app scalars]. unfold isLead, isTrail. rewrite !(proj2 (Z.leb_le _ _)) by lia. cbn [andb]. f_equal. lia.
Qed.

Lemma scalars_from cps : Forall scalar cps → scalars (fromScalars cps) = cps.
Proof. induction 1 as [|c cps Hc _ IH]; [done|]. unfold fromScalars in *. cbn [mbind list_bind]. by rewrite scalars_utf16, IH. Qed.

(** The bits of a byte that goes on. *)
Lemma continue_byte a m : 0 <= a → 0 <= m < 64 → Z.lor (Z.shiftl a 6) (Z.land (128 + m) 63) = 64 * a + m.
Proof.
  intros Ha Hm. change 63 with (Z.ones 6). rewrite Z.land_ones by lia. replace ((128 + m) mod 2 ^ 6) with m.
  2: { change (2 ^ 6) with 64. replace (128 + m) with (m + 2 * 64) by lia. by rewrite Z.mod_add, Z.mod_small. }
  rewrite <- Z.add_nocarry_lor; [rewrite Z.shiftl_mul_pow2 by lia; lia|].
  apply Z.bits_inj'. intros n Hn. rewrite Z.land_spec, Z.bits_0. destruct (Z.lt_ge_cases n 6).
  - by rewrite Z.shiftl_spec_low.
  - rewrite (Z.bits_above_log2 m n), andb_false_r; [done|lia|]. destruct (decide (m = 0)) as [->|]; [simpl; lia|]. apply Z.log2_lt_pow2; [lia|].
    assert (2 ^ 6 <= 2 ^ n) by (apply Z.pow_le_mono_r; lia). lia.
Qed.

Lemma low_bits k b q : 0 <= k → 0 <= q < 2 ^ k → b mod 2 ^ k = q → Z.land b (Z.ones k) = q.
Proof. intros Hk Hq <-. by rewrite Z.land_ones. Qed.

Lemma emit_scalar bom c : bom = true ∨ c ≠ 65279 → Utf8.emit bom c = (Utf8.fresh true, Utf8.utf16 c).
Proof. intros Hb. unfold Utf8.emit. destruct bom; [done|]. destruct Hb; [done|]. by replace (c =? 65279) with false by lia. Qed.

(** The decoder after some bytes of a scalar value. *)
Definition midway (c sn n lo hi : Z) (bom : bool) : Utf8.Decoder :=
  {| Utf8.cp := c; Utf8.seen := sn; Utf8.needed := n; Utf8.lower := lo; Utf8.upper := hi; Utf8.bomSeen := bom |}.

Lemma step_continue c sn n lo hi bom m : 0 <= c → 0 <= m < 64 → 0 < n → lo <= 128 + m <= hi →
  Utf8.step (midway c sn n lo hi bom) (128 + m) =
  if sn + 1 =? n then Utf8.emit bom (64 * c + m) else (midway (64 * c + m) (sn + 1) n 128 191 bom, []).
Proof.
  intros Hc Hm Hn Hb. unfold Utf8.step, midway. cbn [Utf8.needed Utf8.lower Utf8.upper Utf8.cp Utf8.seen Utf8.bomSeen].
  replace (n =? 0) with false by lia. replace (128 + m <? lo) with false by lia. replace (hi <? 128 + m) with false by lia. cbn [orb].
  by rewrite continue_byte.
Qed.

Ltac divs := Z.to_euclidean_division_equations; lia.

Lemma decode_two bom c r : 128 <= c < 2048 → Utf8.decode (Utf8.fresh bom) (utf8 c ++ r) =
  let '(d, s) := Utf8.decode (Utf8.fresh true) r in (d, Utf8.utf16 c ++ s).
Proof.
  intros Hc. unfold utf8. replace (c <? 128) with false by lia. replace (c <? 2048) with true by lia. cbn [app Utf8.decode].
  assert (Utf8.step (Utf8.fresh bom) (192 + c / 64) = (midway (c / 64) 0 1 128 191 bom, [])) as ->.
  { unfold Utf8.step, Utf8.fresh, Utf8.first. cbn [Utf8.needed Utf8.bomSeen]. assert (2 <= c / 64 < 32) by divs. simpl (0 =? 0). cbn iota.
    replace (192 + c / 64 <=? 127) with false by lia. rewrite !(proj2 (Z.leb_le _ _)) by lia. cbn [andb].
    rewrite (low_bits 5 _ (c / 64)); [done|lia|lia|]. divs. }
  rewrite step_continue by divs. simpl (_ =? _). cbn iota. replace (64 * (c / 64) + c mod 64) with c by divs.
  rewrite emit_scalar by (right; lia). by destruct (Utf8.decode _ r).
Qed.

Lemma decode_three bom c r : 2048 <= c < 65536 → scalar c → bom = true ∨ c ≠ 65279 → Utf8.decode (Utf8.fresh bom) (utf8 c ++ r) =
  let '(d, s) := Utf8.decode (Utf8.fresh true) r in (d, Utf8.utf16 c ++ s).
Proof.
  intros Hc Hs Hb. unfold scalar in Hs. unfold utf8. replace (c <? 128) with false by lia. replace (c <? 2048) with false by lia. replace (c <? 65536) with true by lia.
  cbn [app Utf8.decode]. set (q := c / 4096). assert (0 <= q < 16) by (subst q; divs).
  assert (Utf8.step (Utf8.fresh bom) (224 + q) =
    (midway q 0 2 (if 224 + q =? 224 then 160 else 128) (if 224 + q =? 237 then 159 else 191) bom, [])) as ->.
  { unfold Utf8.step, Utf8.fresh, Utf8.first. cbn [Utf8.needed Utf8.bomSeen]. simpl (0 =? 0). cbn iota.
    replace (224 + q <=? 127) with false by lia. replace (224 + q <=? 223) with false by lia. rewrite !(proj2 (Z.leb_le _ _)) by lia. cbn [andb].
    rewrite (low_bits 4 _ q); [done|lia|lia|]. divs. }
  rewrite step_continue; [| lia | divs | lia |].
  2: { subst q. destruct (Z.eqb_spec (224 + c / 4096) 224), (Z.eqb_spec (224 + c / 4096) 237); divs. }
  simpl (_ =? _). cbn iota. rewrite step_continue by (subst q; divs). simpl (_ =? _). cbn iota.
  replace (64 * (64 * q + c / 64 mod 64) + c mod 64) with c by (subst q; divs). rewrite emit_scalar by done. by destruct (Utf8.decode _ r).
Qed.

Lemma decode_four bom c r : 65536 <= c < 1114112 → Utf8.decode (Utf8.fresh bom) (utf8 c ++ r) =
  let '(d, s) := Utf8.decode (Utf8.fresh true) r in (d, Utf8.utf16 c ++ s).
Proof.
  intros Hc. unfold utf8. replace (c <? 128) with false by lia. replace (c <? 2048) with false by lia. replace (c <? 65536) with false by lia.
  cbn [app Utf8.decode]. set (q := c / 262144). assert (0 <= q < 5) by (subst q; divs).
  assert (Utf8.step (Utf8.fresh bom) (240 + q) =
    (midway q 0 3 (if 240 + q =? 240 then 144 else 128) (if 240 + q =? 244 then 143 else 191) bom, [])) as ->.
  { unfold Utf8.step, Utf8.fresh, Utf8.first. cbn [Utf8.needed Utf8.bomSeen]. simpl (0 =? 0). cbn iota.
    replace (240 + q <=? 127) with false by lia. replace (240 + q <=? 223) with false by lia. replace (240 + q <=? 239) with false by lia.
    rewrite andb_false_r. rewrite !(proj2 (Z.leb_le _ _)) by lia. cbn [andb]. rewrite (low_bits 3 _ q); [done|lia|lia|]. divs. }
  rewrite step_continue; [| lia | divs | lia |].
  2: { subst q. destruct (Z.eqb_spec (240 + c / 262144) 240), (Z.eqb_spec (240 + c / 262144) 244); divs. }
  simpl (_ =? _). cbn iota. rewrite step_continue by (subst q; divs). simpl (_ =? _). cbn iota. rewrite step_continue by (subst q; divs). simpl (_ =? _). cbn iota.
  replace (64 * (64 * (64 * q + c / 4096 mod 64) + c / 64 mod 64) + c mod 64) with c by (subst q; divs).
  rewrite emit_scalar by (right; lia). by destruct (Utf8.decode _ r).
Qed.

Lemma decode_bytes bom c r : scalar c → bom = true ∨ c ≠ 65279 →
  Utf8.decode (Utf8.fresh bom) (utf8 c ++ r) = let '(d, s) := Utf8.decode (Utf8.fresh true) r in (d, Utf8.utf16 c ++ s).
Proof.
  intros Hc Hb. assert (0 <= c < 128 ∨ 128 <= c < 2048 ∨ 2048 <= c < 65536 ∨ 65536 <= c < 1114112) as Hr by (unfold scalar in Hc; lia).
  destruct Hr as [Hr|[Hr|[Hr|Hr]]]; [|by apply decode_two|by apply decode_three|by apply decode_four].
  unfold utf8. replace (c <? 128) with true by lia. cbn [app Utf8.decode]. unfold Utf8.step, Utf8.fresh, Utf8.first. cbn [Utf8.needed Utf8.bomSeen].
  simpl (0 =? 0). cbn iota. replace (c <=? 127) with true by lia. rewrite emit_scalar by done. by destruct (Utf8.decode _ r).
Qed.

Lemma decode_scalars cps : Forall scalar cps → head cps ≠ Some 65279 → (Utf8.decode Utf8.start (cps ≫= utf8)).2 = fromScalars cps.
Proof.
  assert (∀ cps, Forall scalar cps → (Utf8.decode (Utf8.fresh true) (cps ≫= utf8)).2 = fromScalars cps) as Hrest.
  { induction 1 as [|c l Hc _ IH]; [done|]. unfold fromScalars in *. cbn [mbind list_bind] in *. rewrite decode_bytes by auto.
    destruct (Utf8.decode _ _). simpl in *. by rewrite IH. }
  destruct 1 as [|c l Hc Hl]; [done|]. intros Hh. unfold Utf8.start, fromScalars. cbn [mbind list_bind].
  rewrite decode_bytes; [|done|right; intros ->; done]. specialize (Hrest l Hl). unfold fromScalars in Hrest.
  cbn [mbind list_bind] in Hrest. destruct (Utf8.decode _ _). simpl in *. by rewrite Hrest.
Qed.

(** ** JSON text *)

(** Text without lone surrogates and line breaks. *)
Definition plain (s : jstr) : Prop := ∃ cps, Forall (λ c, scalar c ∧ c ≠ NL) cps ∧ s = fromScalars cps.

Lemma plain_app s t : plain s → plain t → plain (s ++ t).
Proof.
  intros (a & Ha & ->) (b & Hb & ->). exists (a ++ b). split; [by apply Forall_app|]. unfold fromScalars. by rewrite bind_app.
Qed.

Lemma plain_unit c : 0 <= c < 65536 → isLead c = false → isTrail c = false → c ≠ NL → plain [c].
Proof.
  unfold isLead, isTrail. intros Hc H1 H2 Hn. exists [c]. split; [constructor; [|constructor]; split; [unfold scalar; lia|done]|].
  unfold fromScalars, Utf8.utf16. cbn [mbind list_bind]. by replace (c <? 65536) with true by lia.
Qed.

Definition ascii_ (c : Z) : Prop := 11 <= c < 128.

Lemma plain_ascii s : Forall ascii_ s → plain s.
Proof.
  induction 1 as [|c s Hc _ IH]; [by exists []|]. apply (plain_app [c]); [|done]. unfold ascii_ in Hc.
  apply plain_unit; [lia|unfold isLead; lia|unfold isTrail; lia|unfold NL; lia].
Qed.

Lemma plain_join sep l : plain sep → Forall plain l → plain (join sep l).
Proof.
  intros Hs. induction 1 as [|x [|y l] Hx Hl IH]; [by exists []|done|]. cbn [join]. apply plain_app; [done|]. by apply plain_app.
Qed.

Lemma hex4_plain c s : plain s → plain (runes "\u" ++ hex4 c ++ s).
Proof.
  intros Hs. apply plain_app; [apply plain_ascii; by repeat constructor|]. apply plain_app; [|done].
  assert (∀ n, ascii_ (let m := n mod 16 in if m <? 10 then 48 + m else 87 + m)) as Hd.
  { intros n. unfold ascii_. cbv zeta. pose proof (Z.mod_pos_bound n 16 ltac:(lia)). destruct (_ <? 10) eqn:E; lia. }
  apply plain_ascii. unfold hex4. repeat constructor; apply Hd.
Qed.

Lemma quoteUnit_plain c : 0 <= c < 65536 → isLead c = false → isTrail c = false → plain (quoteUnit c).
Proof.
  intros Hc H1 H2. unfold quoteUnit. repeat (case_match; [apply plain_ascii; by repeat constructor|]).
  case_match; [rewrite <- (app_nil_r (hex4 c)); apply hex4_plain; by exists []|]. apply plain_unit; [done..|unfold NL; lia].
Qed.

Lemma quoteAll_plain s : units s → plain (quoteAll s).
Proof.
  remember (length s) as n eqn:En. revert s En. induction (lt_wf n) as [n _ IH]. intros s -> Hs.
  destruct s as [|c r]; [by exists []|]. apply Forall_cons in Hs as [Hc Hr]. cbn [quoteAll].
  assert (plain (quoteAll r)) as Hq by (apply (IH (length r)); [simpl; lia|done|done]).
  destruct (isLead c) eqn:El.
  - destruct r as [|d r']; [rewrite <- (app_nil_r (hex4 c)); apply hex4_plain; by exists []|].
    destruct (isTrail d) eqn:Et; [|by apply hex4_plain]. apply Forall_cons in Hr as [Hd Hr].
    apply (plain_app [c; d]); [|apply (IH (length r')); [simpl; lia|done|done]].
    unfold isLead, isTrail in El, Et. exists [65536 + (c - 55296) * 1024 + (d - 56320)]. split.
    + constructor; [|constructor]. unfold scalar, NL. lia.
    + unfold fromScalars, Utf8.utf16. cbn [mbind list_bind]. replace (_ <? 65536) with false by lia. simpl.
      f_equal; [|f_equal]; divs.
  - destruct (isTrail c) eqn:Et; [by apply hex4_plain|]. apply plain_app; [by apply quoteUnit_plain|done].
Qed.

Lemma quoteJSON_plain s : units s → plain (quoteJSON s).
Proof. intros Hs. unfold quoteJSON. repeat apply plain_app; [by apply plain_ascii; repeat constructor|by apply quoteAll_plain|by apply plain_ascii; repeat constructor]. Qed.

Section json_text.
Context {num : Type} `{HN : JsNum num} `{HL : !JsNumLaws num}.

Lemma numText_ascii (n : num) : finite n → Forall ascii_ (numText n).
Proof.
  intros Hn. destruct (finite_text n Hn) as (_ & Hu & _). eapply Forall_impl; [exact Hu|]. intros c Hc. unfold numUnit in Hc. unfold ascii_.
  apply orb_true_iff in Hc as [Hc%digit_range|Hc%bool_decide_eq_true_1]; [lia|]. repeat (apply elem_of_cons in Hc as [->|Hc]; [lia|]). by apply elem_of_nil in Hc.
Qed.

Lemma jsonText_plain (j : json num) : printable j → plain (jsonText j).
Proof.
  assert (∀ s, Forall ascii_ (runes s) → plain (runes s)) as Hr by (intros s; apply plain_ascii).
  induction j as [|[]|n|s|l IH|l IH] using json_nested_ind; cbn [jsonText printable]; intros Hp.
  1-3: apply Hr; by repeat constructor.
  - by apply plain_ascii, numText_ascii.
  - by apply quoteJSON_plain.
  - apply plain_app; [apply Hr; by repeat constructor|]. apply plain_app; [|apply Hr; by repeat constructor].
    apply plain_join; [apply Hr; by repeat constructor|]. induction IH as [|x l Hx _ IHl]; [constructor|]. destruct Hp as [H1 H2].
    cbn [map]. constructor; [by apply Hx|by apply IHl].
  - destruct Hp as [_ Hp]. apply plain_app; [apply Hr; by repeat constructor|]. apply plain_app; [|apply Hr; by repeat constructor].
    apply plain_join; [apply Hr; by repeat constructor|]. induction IH as [|x l Hx _ IHl]; [constructor|]. destruct Hp as (H1 & H2 & H3).
    cbn [map]. constructor; [|by apply IHl]. apply plain_app; [by apply quoteJSON_plain|]. apply plain_app; [apply Hr; by repeat constructor|by apply Hx].
Qed.

Lemma jsonText_head (j : json num) : printable j → ∃ c r, jsonText j = c :: r ∧ c ≠ 65279.
Proof.
  destruct j as [|[]|n|s|l|l]; cbn [jsonText printable]; intros Hp; try (by eexists _, _).
  destruct (finite_text n Hp) as (Hn & _). destruct (isNumber_head _ Hn) as (c & r & -> & Hc). exists c, r. split; [done|].
  destruct Hc as [->|Hc%digit_range]; lia.
Qed.

(** A line of the stream is plain and does not start with a byte order mark. *)
Lemma lineText_plain l : lineText (num := num) l → plain l ∧ ∃ c r, l = c :: r ∧ c ≠ 65279.
Proof.
  intros [j Hj|tag e j Ht Hj].
  - split; [by apply jsonText_plain|by apply jsonText_head].
  - assert (ascii_ tag) as Htag by (repeat (apply elem_of_cons in Ht as [->|Ht]; [by unfold ascii_|]); by apply elem_of_nil in Ht).
    split; [|eexists _, _; split; [reflexivity|]; unfold ascii_ in Htag; lia]. apply plain_app; [|by apply jsonText_plain].
    apply plain_ascii. constructor; [done|]. apply Forall_app. split; [|by repeat constructor].
    eapply Forall_impl; [apply decimal_digits_all|]. intros c Hc%digit_range. unfold ascii_. lia.
Qed.

End json_text.

(** ** Lines over the wire *)

Lemma plain_no_break s : plain s → NL ∉ s.
Proof.
  intros (cps & Hc & ->). unfold fromScalars. intros (c & Hs & Hin)%list_elem_of_bind. rewrite Forall_forall in Hc. destruct (Hc c Hin) as [Hsc Hn].
  unfold Utf8.utf16 in Hs. destruct (Z.ltb_spec c 65536).
  - by apply list_elem_of_singleton in Hs.
  - unfold scalar, NL in *. apply elem_of_cons in Hs as [Hs|Hs%list_elem_of_singleton]; divs.
Qed.

Lemma split_line l r : NL ∉ l → split NL (l ++ NL :: r) = l :: split NL r.
Proof.
  induction l as [|x l IH]; [done|]. rewrite not_elem_of_cons. intros [Hx Hl]. cbn [app split]. rewrite IH by done.
  destruct (Z.eqb_spec x NL); [congruence|done].
Qed.

Lemma linesOf_lines lines : Forall (λ l, NL ∉ l) lines → LineStream.linesOf (lines ≫= λ l, l ++ [NL]) = lines.
Proof.
  intros Hl. unfold LineStream.linesOf. assert (split NL (lines ≫= λ l, l ++ [NL]) = lines ++ [[]]) as ->.
  { induction Hl as [|l lines Hl _ IH]; [done|]. cbn [mbind list_bind]. rewrite <- app_assoc. cbn [app]. rewrite split_line by done. f_equal. exact IH. }
  rewrite LineStream.pop_snoc. rewrite bool_decide_true by done. by rewrite app_nil_r.
Qed.

Lemma wire_scalars lines : Forall plain lines → ∃ cps, Forall scalar cps ∧ wire lines = cps ≫= utf8 ∧ (lines ≫= λ l, l ++ [NL]) = fromScalars cps.
Proof.
  induction 1 as [|l lines (a & Ha & ->) _ (b & Hb & Eb & El)]; [by exists []|]. exists ((a ++ [NL]) ++ b).
  assert (Forall scalar (a ++ [NL])) as HaN.
  { apply Forall_app. split; [eapply Forall_impl; [exact Ha|]; by intros c [? _]|]. constructor; [unfold scalar, NL; lia|constructor]. }
  assert (fromScalars a ++ [NL] = fromScalars (a ++ [NL])) as E by (unfold fromScalars; by rewrite bind_app).
  split; [by apply Forall_app|]. unfold wire, textEncode in *. cbn [mbind list_bind] in *. unfold fromScalars in El |- *. rewrite !bind_app.
  split.
  - f_equal; [|exact Eb]. fold (fromScalars a). rewrite E, scalars_from by done. by rewrite bind_app.
  - fold (fromScalars (a ++ [NL])). rewrite <- bind_app. fold (fromScalars (a ++ [NL])). rewrite <- E. f_equal. exact El.
Qed.

Lemma wire_lines {num} `{HN : JsNum num} `{HL : !JsNumLaws num} lines chunks : Forall (lineText (num := num)) lines → concat chunks = wire lines →
  LineStream.pipe LineStream.init chunks = lines.
Proof.
  intros Hl Hc. assert (Forall plain lines) as Hp by (eapply Forall_impl; [exact Hl|]; intros l H; by apply lineText_plain in H as [? _]).
  rewrite LineStream.pipe_lines by apply not_elem_of_nil. cbn [LineStream.rest LineStream.dec LineStream.init app]. rewrite Hc.
  destruct (wire_scalars lines Hp) as (cps & Hs & -> & El). change (snd ?x) with (x.2). rewrite decode_scalars; [|done|].
  - rewrite <- El. apply linesOf_lines. eapply Forall_impl; [exact Hp|]. apply plain_no_break.
  - destruct cps as [|c cps]; [done|]. intros [= ->]. destruct Hl as [|l lines Hl _]; [by apply (f_equal length) in El|].
    destruct (lineText_plain l Hl) as (_ & c & r & -> & Hne). by apply (f_equal head) in El; simplify_eq/=.
Qed.
