(* ===== verification/TurboProps.v ===== *)
(** * The data stream carries values over

    Decoding the lines of an encoder gives copies of the values it was given, and of the
    values its promises settle with, in the order in which they settle.  Sharing and
    cycles are kept; the root alone can have two copies. *)

From Stdlib Require Import ZArith Lia.
From stdpp Require Import base numbers strings gmap option list.
From S2P Require Import Prelude Js Json TurboStream TurboEncode TurboText TurboDecode TurboCopies TurboRounds TurboWire.

Open Scope Z_scope.

Section props.
Context {num : Type} `{HN : JsNum num} `{HL : !JsNumLaws num}.
Context (newURL : jstr → option jstr) (newRegExp : jstr → jstr → option (jstr * jstr)) (isGlobal : jstr → bool).
#[local] Abbreviation val := (val num).
#[local] Abbreviation obj := (obj num).
#[local] Abbreviation ghost := (list (option val)).
#[local] Abbreviation fineHeap := (fineHeap newURL newRegExp).
#[local] Abbreviation qXe := (qXe newURL newRegExp isGlobal).
Context (fate : nat → settlement (num := num)).

(** ** The first line *)

Lemma encOk_new h : encOk [] h [] [] (newEnc (num := num)).
Proof. split; simpl; try done; intros i; try (intros ? []%elem_of_nil); by intros ?%elem_of_nil. Qed.

Lemma receiver_new h : receiver fate h [] [] newEnc newDec [].
Proof.
  split; simpl; try done. exists (-7), []. split; simpl; try done. by right.
Qed.

Lemma encodeRoot_ok h v : heapOk h → fineHeap h → valOk h v → fateOk fate h →
  ∃ s text vals, encodeRoot h v = Ret (s, text) ∧ heap s = h ∧ sender newURL newRegExp vals [] s ∧ (vals = [] ∨ vals !! 0%nat = Some (Some v)) ∧
    (Z.of_nat (length vals) < 2 ^ 53 → lineText (num := num) text ∧ ∃ d own w, JXe newURL newRegExp isGlobal text newDec = Ret (d, w) ∧
      receiver fate h vals [] (enc s) d own ∧ copied (copyOf vals own) v w).
Proof.
  intros Hh Hfine Hv Hfate. pose proof (encOk_new h) as Hok. pose proof (receiver_new h) as Hrcv.
  assert (∀ text vals st j, text = jsonText j → printable j → understood newURL newRegExp isGlobal fate h vals [] st v newDec [] j →
    lineText (num := num) text ∧ ∃ d own w, JXe newURL newRegExp isGlobal text newDec = Ret (d, w) ∧ receiver fate h vals [] st d own ∧ copied (copyOf vals own) v w) as Hread.
  { intros text vals st j -> Hp (d & own & w & EG & Hd & Hw & _). split; [by apply rootLine|]. exists d, own, w. split; [|done].
    pose proof (parse_text _ Hp) as Hj. unfold JXe. rewrite bool_decide_false by (intros E; by rewrite E in Hj). by rewrite Hj. }
  destruct (UP_sends _ _ _ _ _ Hok Hh Hv) as (st' & c & ext & E & HS). unfold encodeRoot. rewrite E. cbn [mbind outcome_bind fst snd].
  destruct HS as [n Hn|z Hz|st' ext H1 H2 H3 H4 H5 H6 H7]; [done|..].
  - pose proof (special_code _ _ Hz) as Hr. replace (z <? 0) with true by lia. eexists _, _, []. split; [reflexivity|]. split; [done|].
    split; [by split|]. split; [by left|]. intros _. destruct (number_written (num := num) z) as [Et Hp]; [unfold safe; lia|].
    eapply Hread; [exact Et|exact Hp|by apply special_line].
  - simpl (_ <? 0). cbn iota. eexists _, _, ext. split; [reflexivity|]. split; [done|].
    destruct (new_slots fate [] h [] ext st' H1 H2 H3) as (Hlen & _). split; [split; simpl; try done; rewrite Hlen; simpl; lia|]. split; [by right|].
    intros Hsmall. destruct (new_text newURL newRegExp fate h [] [] Hfine st' ext H1 H2 H3 Hsmall) as (ss & Ess & Et & Hp). eapply Hread; [exact Et|exact Hp|]. by eapply (new_line newURL newRegExp isGlobal fate h []).
Qed.

Lemma settleAll_none order (s : @Stream num) : settleAll fate order s = Ret (s, []) ∨ ∃ e l, (e, l) ∈ deferred (enc s).
Proof.
  induction order as [|e order IH]; [by left|]. destruct IH as [IH|IH]; [|by right]. cbn [settleAll].
  destruct (list_find (λ x, x.1 = e) (deferred (enc s))) as [[k [e' l]]|] eqn:Ef; [|by left].
  right. apply list_find_Some in Ef as (Hk & _). exists e', l. by eapply list_elem_of_lookup_2.
Qed.

(** ** Copies *)

(** What the decoder has of the values at [h]: [R] tells which objects are copies of which;
    [waits] are the promises that have not settled. *)
Record copies (R : nat → nat → Prop) (root : val) (h : list obj) (waits : list (nat * nat)) (d : Dec) : Prop := {
  copies_obj dd l : R dd l → ∃ o o', h !! l = Some o ∧ objects d !! dd = Some o' ∧ objCopied R o o';
  copies_all dd : (dd < length (objects d))%nat → ∃ l, R dd l;
  copies_fun dd l l' : R dd l → R dd l' → l = l';
  copies_once dd dd' l : R dd l → R dd' l → dd = dd' ∨ root = VObj l;
  copies_settled dd l : R dd l → h !! l = Some OPromise →
    match settled d !! dd with Some o => settledAs h R (fate l) o | None => l ∈ waits.*2 end;
}.

Lemma receiver_copies vals gone s d own v : sender newURL newRegExp vals gone s → receiver fate (heap s) vals gone (enc s) d own →
  Z.of_nat (length vals) < 2 ^ 53 → (vals = [] ∨ vals !! 0%nat = Some (Some v)) → copies (copyOf vals own) v (heap s) (deferred (enc s)) d.
Proof.
  intros [Hok Hh Hfine _] Hrcv Hsmall Hroot. destruct (rcv_inv _ _ _ _ _ _ _ Hrcv) as (z & pc & Hinv).
  pose proof (encOk_stream newURL newRegExp _ _ _ _ (values d) Hok Hfine Hsmall (rcv_length _ _ _ _ _ _ _ Hrcv) (rcv_slots _ _ _ _ _ _ _ Hrcv)) as Hstr.
  split.
  - intros dd l. by eapply object_copied.
  - intros dd Hd. rewrite <- (inv_len _ _ _ _ _ _ _ _ _ Hinv) in Hd. destruct (lookup_lt_is_Some_2 _ _ Hd) as [i Hi].
    destruct (inv_own _ _ _ _ _ _ _ _ _ Hinv dd i Hi) as (_ & l & Hl). exists l, i. done.
  - intros dd l l' (i & Hi & Hl) (i' & Hi' & Hl'). congruence.
  - intros dd dd' l (i & Hi & Hl) (i' & Hi' & Hl').
    destruct (decide (i = i')) as [<-|Hne].
    + left. destruct (inv_own _ _ _ _ _ _ _ _ _ Hinv _ _ Hi) as [E1 _]. destruct (inv_own _ _ _ _ _ _ _ _ _ Hinv _ _ Hi') as [E2 _]. congruence.
    + right. assert (vals !! 0%nat = Some (Some (VObj l))) as H0.
      { destruct i as [|i]; [done|]. destruct i' as [|i']; [done|].
        pose proof (ok_once _ _ _ _ _ Hok _ _ (Nat.lt_0_succ i) Hl). pose proof (ok_once _ _ _ _ _ Hok _ _ (Nat.lt_0_succ i') Hl'). congruence. }
      destruct Hroot as [->|Hroot]; [done|]. congruence.
  - intros dd l (i & Hi & Hl) Hp. destruct (settled d !! dd) as [o|] eqn:Es.
    + apply (rcv_settled _ _ _ _ _ _ _ Hrcv) in Es as (i' & l' & Hi' & _ & Hl' & Ho). congruence.
    + destruct (ok_filled _ _ _ _ _ Hok i _ Hl) as (s0 & Hs0 & Hf); [apply not_elem_of_nil|]. simpl in Hf. rewrite Hp in Hf. destruct s0; try done.
      destruct (ok_promised _ _ _ _ _ Hok i _ Hs0) as [Hg|([i' l'] & -> & Hd)%list_elem_of_fmap].
      * destruct (rcv_gone _ _ _ _ _ _ _ Hrcv dd i Hi Hg). congruence.
      * destruct (ok_deferred _ _ _ _ _ Hok _ _ Hd) as [Hv _]. simpl in Hl. apply list_elem_of_fmap. exists (i', l'). split; [simpl; congruence|done].
Qed.

(** C20: For every heap of values that can be sent, every root in it and every order in which
    the promises among them settle, the encoder ends; and as long as it gives out less than
    2^53 numbers, the decoder ends on its bytes without an error, however they are cut into
    chunks, and gives a copy: every
    object it built copies one object of the sender, with copies of its parts; every object
    but the root has at most one copy, so sharing and cycles are kept; and each promise it
    built has settled the way its original did, or still waits as its original does. *)
Theorem stream_round_trip h v order : heapOk h → fineHeap h → valOk h v → fateOk fate h →
  ∃ s bytes, XXe h v fate order = Ret (s, bytes) ∧ h `prefix_of` heap s ∧
    (Z.of_nat (index (enc s)) < 2 ^ 53 →
      ∃ d w R, (∀ chunks, concat chunks = bytes → qXe chunks = Ret (d, w)) ∧ copied R v w ∧ copies R v (heap s) (deferred (enc s)) d).
Proof.
  intros Hh Hfine Hv Hfate. destruct (encodeRoot_ok h v Hh Hfine Hv Hfate) as (s1 & text & vals & E1 & <- & Hsnd1 & Hroot & Hd1).
  destruct (settleAll_ok newURL newRegExp isGlobal fate order s1 vals [] Hsnd1 Hfate) as (s2 & lines & h' & ext & gone & E2 & Hs2 & Hsnd2 & Hd2).
  exists s2, (wire (text :: lines)). split; [unfold XXe, encode; rewrite E1; simpl; by rewrite E2|]. split; [rewrite Hs2; by apply prefix_app_r|].
  rewrite (ok_index _ _ _ _ _ (snd_enc _ _ _ _ _ Hsnd2)). intros Hsmall.
  destruct Hd1 as (Ht & d1 & own1 & w & EJ & Hr1 & Hc); [rewrite length_app in Hsmall; lia|].
  destruct (Hd2 Hsmall) as [Hlines Hd2']. destruct (Hd2' d1 own1 Hr1) as (d2 & own2 & EY & Hr2). exists d2, w, (copyOf (vals ++ ext) (own1 ++ own2)). split_and!.
  - intros chunks Hch. unfold TurboWire.qXe. rewrite (wire_lines (num := num) (text :: lines)) by (done || by constructor).
    unfold decode. rewrite EJ. simpl. by rewrite EY.
  - eapply copied_mono; [|exact Hc]. intros dd l. apply copyOf_app.
  - eapply receiver_copies; try done. destruct Hroot as [->|H0]; [|right; by apply lookup_app_l_Some]. left.
    apply nil_length_inv. rewrite <- (ok_index _ _ _ _ _ (snd_enc _ _ _ _ _ Hsnd2)).
    destruct (settleAll_none order s1) as [E3|(e & l & He)]; [|by destruct (ok_deferred _ _ _ _ _ (snd_enc _ _ _ _ _ Hsnd1) e l He)].
    rewrite E3 in E2. injection E2 as <- _. by rewrite (ok_index _ _ _ _ _ (snd_enc _ _ _ _ _ Hsnd1)).
Qed.

End props.

(** ** A sample *)

(** An object with a shared array, a cycle below the root, a date, a map and two promises. *)
Definition sampleHeap : list (obj intNum) :=
  [ OPlain [(runes "list", VObj 1); (runes "again", VObj 1); (runes "when", VObj 2); (runes "later", VObj 3); (runes "map", VObj 4); (runes "soon", VObj 6)];
    OArr [Some (VNum (IntNum 1)); None; Some (VObj 5)];
    ODate (Some 86400);
    OPromise;
    OMap [(VStr (runes "k"), VObj 1)];
    OPlain [(runes "up", VObj 1); (runes "none", VNum INan)];
    OPromise ].

(** One promise is fulfilled with an object that has a number, and the other rejected with
    no error. *)
Definition sampleFate (l : nat) : settlement (num := intNum) := if decide (l = 3%nat) then Rejected VUndef else Fulfilled (VObj 1).

Definition sampleOrder : list nat := [16; 11]%nat.

#[local] Abbreviation sampleURL := (@Some jstr).
#[local] Abbreviation sampleRegExp := (λ r f : jstr, Some (r, f)).
#[local] Abbreviation sampleGlobal := (λ _ : jstr, false).

Lemma ascii_units s : Forall bare (runes s) → units (runes s).
Proof. apply bare_units. Qed.

Lemma no_index {A} (ps : list (jstr * A)) : NoDup ps.*1 → Forall (λ k, arrayIndex k = None) ps.*1 → ordered ps.
Proof.
  intros Hnd Hi. split; [done|]. intros l1 x l2 ->. unfold indexBefore. rewrite fmap_app, fmap_cons in Hi.
  apply Forall_app in Hi as [_ [-> _]%Forall_cons_1]. done.
Qed.

Lemma sample_ok : heapOk sampleHeap ∧ fineHeap sampleURL sampleRegExp sampleHeap ∧ fateOk sampleFate sampleHeap.
Proof.
  split_and!.
  - repeat (constructor; simpl; try lia; try (apply ascii_units; repeat constructor; done)).
  - repeat constructor; simpl; try done; try lia; try (by apply no_index; [apply (bool_decide_unpack _); vm_compute|repeat constructor]); 
      try (by apply (bool_decide_unpack _); vm_compute).
  - intros l. unfold sampleFate. case_decide; simpl; [done|lia].
Qed.

Lemma stream_round_trip_witness : ∃ s bytes d w R,
  XXe sampleHeap (VObj 0) sampleFate sampleOrder = Ret (s, bytes) ∧
  (∀ chunks, concat chunks = bytes → qXe sampleURL sampleRegExp sampleGlobal chunks = Ret (d, w)) ∧
  copied R (VObj 0) w ∧ copies sampleFate R (VObj 0) (heap s) [] d.
Proof.
  destruct sample_ok as (H1 & H2 & H3).
  destruct (stream_round_trip sampleURL sampleRegExp sampleGlobal sampleFate sampleHeap (VObj 0) sampleOrder H1 H2) as (s & bytes & E & _ & H); [simpl; lia|done|].
  assert (match XXe sampleHeap (VObj 0) sampleFate sampleOrder with Ret (s, _) => (index (enc s) =? 19)%nat && bool_decide (deferred (enc s) = []) | _ => false end = true)
    as Hs by (vm_compute; reflexivity).
  rewrite E in Hs. apply andb_true_iff in Hs as [Hi%Nat.eqb_eq Hd%bool_decide_eq_true_1].
  destruct H as (d & w & R & Hq & Hc & Hcop); [rewrite Hi; lia|]. rewrite Hd in Hcop. exists s, bytes, d, w, R. by split_and!.
Defined.

(** ** What does not come over *)

(** The objects and the value at the other end. *)
Definition carriedOver (h : list (obj intNum)) (v : val intNum) : option (list (obj intNum) * val intNum) :=
  match encode h v (λ _, Fulfilled VUndef) [] with
  | Ret (_, lines) => match decode sampleURL sampleRegExp sampleGlobal lines with Ret (d, w) => Some (objects d, w) | _ => None end
  | _ => None
  end.

(** The number of the root is 0, which [if(n)] takes for none: a root that is its own part
    has two copies. *)
Lemma root_has_two_copies : carriedOver [OPlain [(runes "self", VObj 0)]] (VObj 0) =
  Some ([OPlain [(runes "self", VObj 1)]; OPlain [(runes "self", VObj 1)]], VObj 0).
Proof. vm_compute. reflexivity. Qed.

(** The numbers given are looked up before the zero with a sign is tested. *)
Lemma minus_zero_lost : carriedOver [OArr [Some (VNum (IntNum 0)); Some (VNum INegZero)]] (VObj 0) =
  Some ([OArr [Some (VNum (IntNum 0)); Some (VNum (IntNum 0))]], VObj 0).
Proof. vm_compute. reflexivity. Qed.

(** The holes at the end of an array have no setter, and the array is shorter. *)
Lemma trailing_hole_lost : carriedOver [OArr [Some (VNum (IntNum 1)); None]] (VObj 0) = Some ([OArr [Some (VNum (IntNum 1))]], VObj 0).
Proof. vm_compute. reflexivity. Qed.

Lemma empty_symbol_throws : encode [] (VSym (Registered []) : val intNum) (λ _, Fulfilled VUndef) [] = Throws.
Proof. vm_compute. reflexivity. Qed.

(** An empty line is not read past. *)
Lemma empty_line_diverges : qXe (num := intNum) sampleURL sampleRegExp sampleGlobal [runes "[1]" ++ [NL; NL]] = Diverges.
Proof. vm_compute. reflexivity. Qed.
