(* ===== verification/RegExp.v ===== *)
(** * Regular expressions

    The regular expressions of the language as far as the route patterns of the UI need
    them ([new RegExp(source, flags)] and [s.match(re)]): parsing of a source text, and the
    backtracking matcher of the language with greedy and lazy options, captures and
    lookahead.  A character class is repeated only, which the patterns keep to; other
    sources are not parsed.  [fold] is the case folding of the flag [i]. *)

From Stdlib Require Import ZArith Lia.
From stdpp Require Import base numbers strings gmap option list.
From S2P Require Import Prelude Js.

Open Scope Z_scope.

(** ** Syntax *)

(** A unit, any unit but a line terminator, any unit but one. *)
Inductive cls := CChar (c : Z) | CDot | CNot (c : Z).

Inductive re :=
  | Eps
  | Cls (k : cls)
  | Many (plus : bool) (k : cls)
  | Opt (lazy : bool) (r : re)
  | Seq (a b : re)
  | Alt (a b : re)
  | Cap (n : nat) (r : re)
  | Look (r : re)
  | Bol
  | Eol.

(** Units that do not stand for themselves. *)
Definition syntaxUnits : list Z := runes "^$\.*+?()[]{}|".

Definition isAlnum (c : Z) : bool := ((48 <=? c) && (c <=? 57)) || ((65 <=? c) && (c <=? 90)) || ((97 <=? c) && (c <=? 122)).

(** A repetition of a class; a lazy one is not parsed. *)
Definition repeat (plus : bool) (a : re) (r : jstr) : option (re * jstr) :=
  match a with Cls k => if startsWith (runes "?") r then None else Some (Many plus k, r) | _ => None end.

(** A quantifier after an atom.  A second question mark makes it lazy. *)
Definition quantify (a : re) (s : jstr) : option (re * jstr) :=
  match s with
  | c :: r =>
    if c =? 63 then (if startsWith (runes "?") r then Some (Opt true a, tail r) else Some (Opt false a, r))
    else if c =? 42 then repeat false a r
    else if c =? 43 then repeat true a r
    else Some (a, s)
  | [] => Some (a, s)
  end.

Definition expectParen {A} (x : A * nat * jstr) : option (A * nat * jstr) :=
  match x with (a, n, c :: r) => if c =? 41 then Some (a, n, r) else None | _ => None end.

(** A class [^\c] after its opening bracket. *)
Definition parseClass (r : jstr) : option (cls * jstr) :=
  match r with
  | a :: b :: c :: d :: r => if (a =? 94) && (b =? 92) && (d =? 93) && negb (isAlnum c) then Some (CNot c, r) else None
  | _ => None
  end.

(** An atom or an assertion and what is left; [disj] parses the inside of a group, [n] is
    the number of the next group. *)
Definition parseAtom (disj : nat → jstr → option (re * nat * jstr)) (n : nat) (s : jstr) : option (re * nat * jstr) :=
  match s with
  | [] => None
  | c :: r =>
    if c =? 94 then Some (Bol, n, r)
    else if c =? 36 then Some (Eol, n, r)
    else if c =? 46 then Some (Cls CDot, n, r)
    else if c =? 92 then match r with x :: r => if isAlnum x then None else Some (Cls (CChar x), n, r) | [] => None end
    else if c =? 91 then x ← parseClass r; Some (Cls x.1, n, x.2)
    else if c =? 40 then
      if startsWith (runes "?:") r then disj n (drop 2 r) ≫= expectParen
      else if startsWith (runes "?=") r then x ← disj n (drop 2 r) ≫= expectParen; Some (Look x.1.1, x.1.2, x.2)
      else x ← disj (S n) r ≫= expectParen; Some (Cap n x.1.1, x.1.2, x.2)
    else if bool_decide (c ∈ syntaxUnits) then None else Some (Cls (CChar c), n, r)
  end.

Definition ends (s : jstr) : bool := match s with [] => true | c :: _ => (c =? 41) || (c =? 124) end.

Section terms.
Context (disj : nat → jstr → option (re * nat * jstr)).

(** The terms up to the end, a closing parenthesis or a bar. *)
Fixpoint parseTerms (fuel : nat) (n : nat) (s : jstr) : option (re * nat * jstr) :=
  if ends s then Some (Eps, n, s)
  else match fuel with
       | O => None
       | S fuel =>
         x ← parseAtom disj n s; y ← quantify x.1.1 x.2;
         z ← parseTerms fuel x.1.2 y.2; Some (Seq y.1 z.1.1, z.1.2, z.2)
       end.
End terms.

Fixpoint parseDisj (fuel : nat) (n : nat) (s : jstr) : option (re * nat * jstr) :=
  match fuel with
  | O => None
  | S fuel =>
    x ← parseTerms (parseDisj fuel) (length s) n s;
    match x.2 with
    | c :: r => if c =? 124 then y ← parseDisj fuel x.1.2 r; Some (Alt x.1.1 y.1.1, y.1.2, y.2) else Some x
    | [] => Some x
    end
  end.

(** [new RegExp(s)]; a text that is none throws. *)
Definition parseRegExp (s : jstr) : option re :=
  match parseDisj (S (length s)) 1 s with Some (r, _, []) => Some r | _ => None end.

(** ** Matching *)

Record At := { pos : nat; rest : jstr; caps : gmap nat jstr }.

Definition isTerminator (c : Z) : bool := bool_decide (c ∈ [10; 13; 8232; 8233]).

Section match_.
Context (fold : Z → Z) (ignoreCase : bool).

Definition same (a b : Z) : bool := if ignoreCase then fold a =? fold b else a =? b.

Definition inCls (k : cls) (c : Z) : bool :=
  match k with
  | CChar a => same a c
  | CDot => negb (isTerminator c)
  | CNot a => negb (same a c)
  end.

Definition over (x : At) : At := {| pos := S (pos x); rest := tail (rest x); caps := caps x |}.

(** As many units as there are, then fewer; [s] is what is left. *)
Fixpoint runMany (k : cls) (s : jstr) (x : At) (go : At → option At) : option At :=
  match s with
  | c :: s => if inCls k c then match runMany k s (over x) go with Some y => Some y | None => go x end else go x
  | [] => go x
  end.

Definition runCls (k : cls) (x : At) (go : At → option At) : option At :=
  match rest x with c :: _ => if inCls k c then go (over x) else None | [] => None end.

Fixpoint run (r : re) (x : At) (go : At → option At) : option At :=
  match r with
  | Eps => go x
  | Cls k => runCls k x go
  | Many false k => runMany k (rest x) x go
  | Many true k => runCls k x (λ y, runMany k (rest y) y go)
  | Opt lazy r =>
    (** an iteration over no text is none *)
    let once := run r x (λ y, if (pos y =? pos x)%nat then None else go y) in
    if lazy then match go x with Some y => Some y | None => once end
    else match once with Some y => Some y | None => go x end
  | Seq a b => run a x (λ y, run b y go)
  | Alt a b => match run a x go with Some y => Some y | None => run b x go end
  | Cap n r =>
    run r x (λ y, go {| pos := pos y; rest := rest y; caps := <[n := take (pos y - pos x) (rest x)]> (caps y) |})
  | Look r => match run r x Some with Some y => go {| pos := pos x; rest := rest x; caps := caps y |} | None => None end
  | Bol => if (pos x =? 0)%nat then go x else None
  | Eol => if bool_decide (rest x = []) then go x else None
  end.

End match_.

(** [s.match(re)] for an expression that starts with [^]: the text matched and the captures. *)
Definition matchStart (fold : Z → Z) (ignoreCase : bool) (r : re) (s : jstr) : option (jstr * gmap nat jstr) :=
  (λ y, (take (pos y) s, caps y)) <$> run fold ignoreCase r {| pos := 0; rest := s; caps := ∅ |} Some.
