(* ===== verification/Router.v ===== *)
(** * Routes of the web UI

    Route matching and path resolution of the router ([RM] to [cJe] of the bundle): paths,
    base names, optional segments, the branches of a route tree with their scores and their
    rank, the compilation of a pattern to a regular expression, the match of a location,
    links made of a pattern and parameters, and relative links.

    An exception is [None]; [null] and [undefined] are an inner [None].  Warnings have no
    effect.  An object of parameters is a map of its own members: inherited names
    ([__proto__], [constructor]) are none.  The case folding of regular expressions ([fold])
    and [toLowerCase] are parameters: the tables of Unicode. *)

From Stdlib Require Import ZArith Lia.
From stdpp Require Import base numbers strings gmap option list.
From S2P Require Import Prelude Js UiStreams Json TurboWire RegExp.

Open Scope Z_scope.

#[local] Abbreviation slash := 47.

(** ** Text *)

Definition endsWith (p s : jstr) : bool := startsWith (reverse p) (reverse s).

Fixpoint dropSlashes (s : jstr) : jstr :=
  match s with c :: r => if c =? slash then dropSlashes r else s | [] => [] end.

(** [s.replace(/\/+$/, "")] and [s.replace(/^\/*/, "/")] *)
Definition stripEnd (s : jstr) : jstr := reverse (dropSlashes (reverse s)).
Definition rooted (s : jstr) : jstr := slash :: dropSlashes s.

(** [s.replace(/\/\/+/g, "/")] *)
Fixpoint squeeze (s : jstr) : jstr :=
  match s with
  | [] => []
  | c :: r => if (c =? slash) && startsWith [slash] r then squeeze r else c :: squeeze r
  end.

(** [s.replace(/(.)\/+$/, "$1")] *)
Definition trimEnd (s : jstr) : jstr :=
  let x := stripEnd s in
  match last x with
  | Some c => if isTerminator c then (if bool_decide (length x + 1 < length s)%nat then x ++ [slash] else s) else x
  | None => match s with [] => [] | _ => [slash] end
  end.

(** [QM], [$M], [eN], [cJe] *)
Definition QM (l : list jstr) : jstr := squeeze (join [slash] l).
Definition normalizePathname (s : jstr) : jstr := rooted (stripEnd s).
Definition eN (s : jstr) : jstr :=
  if bool_decide (s = [] ∨ s = runes "?") then [] else if startsWith (runes "?") s then s else runes "?" ++ s.
Definition cJe (s : jstr) : jstr :=
  if bool_decide (s = [] ∨ s = runes "#") then [] else if startsWith (runes "#") s then s else runes "#" ++ s.

(** ** Paths *)

Record Path := { pathname : option jstr; search : option jstr; hash : option jstr }.

(** The text before the first [c], and from there on. *)
Fixpoint cutAt (c : Z) (s : jstr) : jstr * option jstr :=
  match s with
  | [] => ([], None)
  | x :: r => if x =? c then ([], Some s) else let '(a, b) := cutAt c r in (x :: a, b)
  end.

(** [RM]: a path from its text *)
Definition RM (e : jstr) : Path :=
  let '(e, h) := cutAt 35 e in
  let '(e, q) := cutAt 63 e in
  {| pathname := if bool_decide (e = []) then None else Some e; search := q; hash := h |}.

(** [LM]: the text of a path *)
Definition LM (p : Path) : jstr :=
  let e := default [slash] (pathname p) in
  let t := default [] (search p) in
  let n := default [] (hash p) in
  let e := if bool_decide (t = [] ∨ t = runes "?") then e else e ++ (if startsWith (runes "?") t then t else runes "?" ++ t) in
  if bool_decide (n = [] ∨ n = runes "#") then e else e ++ (if startsWith (runes "#") n then n else runes "#" ++ n).

(** [YM]: [e] from [t], segment by segment *)
Definition step (n : list jstr) (e : jstr) : list jstr :=
  if bool_decide (e = runes "..") then (if bool_decide (1 < length n)%nat then removelast n else n)
  else if bool_decide (e = runes ".") then n else n ++ [e].

Definition YM (e t : jstr) : jstr :=
  let n := foldl step (split slash (stripEnd t)) (split slash e) in
  if bool_decide (1 < length n)%nat then join [slash] n else [slash].

(** [JM]: a path resolved *)
Definition JM (e : Path) (t : jstr) : Path :=
  let a := match pathname e with
           | Some (c :: r) => let n := squeeze (c :: r) in if startsWith [slash] n then YM (tail n) [slash] else YM n t
           | _ => t
           end in
  {| pathname := Some a; search := Some (eN (default [] (search e))); hash := Some (cJe (default [] (hash e))) |}.

(** The leading [..] of [..]-segments and what is left of them. *)
Fixpoint ups (t : list jstr) : nat * list jstr :=
  match t with
  | x :: r => if bool_decide (x = runes "..") then let '(k, l) := ups r in (S k, l) else (O, t)
  | [] => (O, [])
  end.

(** [ZM]: a link [e] from the matched routes [t] at the location [n]; [r] is for links
    relative to the path.  A path whose parts have a separator of another part throws. *)
Definition badTo (e : Path) : bool :=
  includes (runes "?") (default [] (pathname e)) || includes (runes "#") (default [] (pathname e)) || includes (runes "#") (default [] (search e)).

Definition ZM (e : jstr + Path) (t : list jstr) (n : jstr) (r : bool) : option Path :=
  let i := match e with inl s => RM s | inr p => p end in
  if match e with inl _ => false | inr p => badTo p end then None
  else
    let a := match e with inl s => bool_decide (s = []) | inr _ => false end || bool_decide (pathname i = Some []) in
    let o := if a then Some [slash] else pathname i in
    let '(i, s) :=
      match o with
      | None => (i, n)
      | Some o =>
        let '(k, i) := if negb r && startsWith (runes "..") o
                       then let '(k, l) := ups (split slash o) in (k, {| pathname := Some (join [slash] l); search := search i; hash := hash i |})
                       else (O, i) in
        let e := Z.of_nat (length t) - 1 - Z.of_nat k in
        (i, if 0 <=? e then default [] (t !! Z.to_nat e) else [slash])
      end in
    let c := JM i s in
    let l := match o with Some o => negb (bool_decide (o = [])) && negb (bool_decide (o = [slash])) && endsWith [slash] o | None => false end in
    let u := (a || bool_decide (o = Some (runes "."))) && endsWith [slash] n in
    let p := default [] (pathname c) in
    Some (if negb (endsWith [slash] p) && (l || u) then {| pathname := Some (p ++ [slash]); search := search c; hash := hash c |} else c).

(** ** Routes and their branches *)

Inductive route := Route (id : nat) (path : option jstr) (index : bool) (caseSensitive : bool) (children : list route).

Definition routeId (r : route) : nat := let 'Route i _ _ _ _ := r in i.
Definition routePath (r : route) : option jstr := let 'Route _ p _ _ _ := r in p.
Definition routeIndex (r : route) : bool := let 'Route _ _ i _ _ := r in i.
Definition routeCase (r : route) : bool := let 'Route _ _ _ c _ := r in c.
Definition routeChildren (r : route) : list route := let 'Route _ _ _ _ l := r in l.

Record Meta := { relativePath : jstr; metaCase : bool; childrenIndex : nat; metaRoute : route }.

Record Branch := { branchPath : jstr; score : Z; routesMeta : list Meta }.

(** [\w] and the dash *)
Definition isWord (c : Z) : bool := isAlnum c || (c =? 95) || (c =? 45).

(** [Gqe]: a segment that is a parameter *)
Definition isParam (s : jstr) : bool :=
  match s with 58 :: (_ :: _) as r => forallb isWord (tail r) | _ => false end.

Definition isSplat (s : jstr) : bool := bool_decide (s = runes "*").

(** [Qqe] *)
Definition segmentScore (s : jstr) : Z := if isParam s then 3 else if bool_decide (s = []) then 1 else 10.

Definition Qqe (e : jstr) (index : bool) : Z :=
  let n := split slash e in
  foldl (λ a s, a + segmentScore s)
    (Z.of_nat (length n) + (if existsb isSplat n then -2 else 0) + (if index then 2 else 0))
    (filter (λ s, isSplat s = false) n).

(** [Uqe]: the paths of a path with optional segments *)
Fixpoint explode (t : list jstr) : list jstr :=
  match t with
  | [] => []
  | n :: r =>
    let i := endsWith (runes "?") n in
    let a := if i then removelast n else n in
    match r with
    | [] => if i then [a; []] else [a]
    | _ =>
      let o := explode r in
      let s := map (λ e, if bool_decide (e = []) then a else a ++ [slash] ++ e) o ++ (if i then o else []) in
      map (λ x, if startsWith [slash] (join [slash] t) && bool_decide (x = []) then [slash] else x) s
    end
  end.

Definition Uqe (e : jstr) : list jstr := explode (split slash e).

(** [WM]: the branches of a route tree, those of the children first.  [o] is for paths with
    optional segments: an absolute path that is not below its parent is passed over. *)
Definition descend (e : route) (k : nat) (o : bool) (s : option jstr) (n : list Meta) (r : jstr)
    (below : list Meta → jstr → bool → option (list Branch)) : option (list Branch) :=
  let p := match s with Some s => s | None => default [] (routePath e) end in
  let absolute := startsWith [slash] p in
  if absolute && negb (startsWith r p) then (if o then Some [] else None)
  else
    let c := {| relativePath := if absolute then drop (length r) p else p; metaCase := routeCase e; childrenIndex := k; metaRoute := e |} in
    let l := QM [r; relativePath c] in
    let u := n ++ [c] in
    if bool_decide (routeChildren e ≠ []) && routeIndex e then None
    else
      bs ← below u l o;
      Some (bs ++ if bool_decide (routePath e = None) && negb (routeIndex e) then []
                  else [{| branchPath := l; score := Qqe l (routeIndex e); routesMeta := u |}]).

(** The relative paths of a route, with the flag for its branches. *)
Definition variants (e : route) (i : bool) : list (bool * option jstr) :=
  match routePath e with
  | Some (c :: p) => if includes (runes "?") (c :: p) then map (λ n, (true, Some n)) (Uqe (c :: p)) else [(i, None)]
  | _ => [(i, None)]
  end.

Fixpoint concatM {A B} (f : A → option (list B)) (l : list A) : option (list B) :=
  match l with [] => Some [] | x :: l => a ← f x; b ← concatM f l; Some (a ++ b) end.

Fixpoint branchesOf (e : route) (k : nat) (n : list Meta) (r : jstr) (i : bool) {struct e} : option (list Branch) :=
  let 'Route id p ix cs ch := e in
  concatM (λ x, descend (Route id p ix cs ch) k x.1 x.2 n r (λ u l o,
    (fix all (j : nat) (l' : list route) : option (list Branch) :=
       match l' with [] => Some [] | c :: l' => a ← branchesOf c j u l o; b ← all (S j) l'; Some (a ++ b) end) O ch))
    (variants (Route id p ix cs ch) i).

Fixpoint branchesAll (j : nat) (l : list route) (n : list Meta) (r : jstr) (i : bool) : option (list Branch) :=
  match l with [] => Some [] | c :: l => a ← branchesOf c j n r i; b ← branchesAll (S j) l n r i; Some (a ++ b) end.

Definition WM (l : list route) : option (list Branch) := branchesAll 0 l [] [] false.

(** [GM] *)
Definition GM (a b : list nat) : Z :=
  if bool_decide (length a = length b) && bool_decide (removelast a = removelast b)
  then Z.of_nat (List.last a O) - Z.of_nat (List.last b O) else 0.

Definition indexes (b : Branch) : list nat := map childrenIndex (routesMeta b).

(** The comparison of [Wqe]. *)
Definition compareBranches (e t : Branch) : Z := if score e =? score t then GM (indexes e) (indexes t) else score t - score e.

(** [e.sort(…)], a stable sort: each element goes before the first one it is less than. *)
Fixpoint insertBranch (x : Branch) (l : list Branch) : list Branch :=
  match l with
  | [] => [x]
  | y :: l' => if compareBranches x y <? 0 then x :: l else y :: insertBranch x l'
  end.

Definition Wqe (l : list Branch) : list Branch := foldl (λ s x, insertBranch x s) [] l.

(** ** Patterns *)

(** The units [\w-] at the start. *)
Fixpoint spanWord (s : jstr) : jstr * jstr :=
  match s with c :: r => if isWord c then let '(a, b) := spanWord r in (c :: a, b) else ([], s) | [] => ([], []) end.

Record Param := { paramName : jstr; isOptional : bool }.

(** [.replace(/[\\.*+^${}|()[\]]/g, "\\$&")] *)
Definition escapeUnit (c : Z) : jstr := if bool_decide (c ∈ runes "\.*+^${}|()[]") then [92; c] else [c].

(** [.replace(/\/:([\w-]+)(\?)?/g, …)] *)
Fixpoint compileParams (fuel : nat) (s : jstr) : jstr * list Param :=
  match fuel, s with
  | S fuel, c :: r =>
    match (if c =? slash then match r with 58 :: r' => spanWord r' | _ => ([], []) end else ([], [])) with
    | ([], _) => let '(a, ps) := compileParams fuel r in (c :: a, ps)
    | (name, r') =>
      match r' with
      | 63 :: r'' =>
        let f := match r'' with d :: _ => if d =? slash then runes "(?:/([^\/]*))?" else runes "/([^\/]*)" | [] => runes "(?:/([^\/]*))?" end in
        let '(a, ps) := compileParams fuel r'' in (f ++ a, {| paramName := name; isOptional := true |} :: ps)
      | _ => let '(a, ps) := compileParams fuel r' in (runes "/([^\/]+)" ++ a, {| paramName := name; isOptional := false |} :: ps)
      end
    end
  | _, _ => (s, [])
  end.

(** [.replace(/\/([\w-]+)\?(\/|$)/g, "(/$1)?$2")] *)
Fixpoint compileOptional (fuel : nat) (s : jstr) : jstr :=
  match fuel, s with
  | S fuel, c :: r =>
    match (if c =? slash then spanWord r else ([], [])) with
    | (w :: ws, 63 :: []) => runes "(/" ++ (w :: ws) ++ runes ")?"
    | (w :: ws, 63 :: d :: r') =>
      if d =? slash then runes "(/" ++ (w :: ws) ++ runes ")?/" ++ compileOptional fuel r' else c :: compileOptional fuel r
    | _ => c :: compileOptional fuel r
    end
  | _, _ => s
  end.

(** [e.replace(/\/*\*?$/, "")] *)
Definition stripSplat (e : jstr) : jstr := stripEnd (if endsWith (runes "*") e then removelast e else e).

(** The source of the expression of [tJe], with its parameters. *)
Definition tJe (e : jstr) (isEnd : bool) : jstr * list Param :=
  let s := rooted (stripSplat e) ≫= escapeUnit in
  let '(s, ps) := compileParams (length s) s in
  let i := runes "^" ++ compileOptional (length s) s in
  if endsWith (runes "*") e then
    (i ++ (if bool_decide (e = runes "*" ∨ e = runes "/*") then runes "(.*)$" else runes "(?:\/(.+)|\/*)$"),
     ps ++ [{| paramName := runes "*"; isOptional := false |}])
  else if isEnd then (i ++ runes "\/*$", ps)
  else if bool_decide (e ≠ [] ∧ e ≠ [slash]) then (i ++ runes "(?:(?=\/|$))", ps)
  else (i, ps).

Section routing.
Context (fold : Z → Z) (toLower : jstr → jstr).

(** [s.replace(/%2F/g, "/")] *)
Fixpoint slashesBack (s : jstr) : jstr :=
  match s with
  | 37 :: ((50 :: (70 :: r)) as r') => slash :: slashesBack r
  | c :: r => c :: slashesBack r
  | [] => []
  end.

Abbreviation params := (gmap jstr (option jstr)).

Record PathMatch := { matchParams : params; matchPathname : jstr; matchBase : jstr }.

(** The loop over the parameters: the values and the base so far, and the captures left. *)
Definition addParam (a : jstr) (caps : gmap nat jstr) (x : params * jstr * nat) (p : Param) : params * jstr * nat :=
  let '(e, o, k) := x in
  let v := caps !! k in
  let o := if bool_decide (paramName p = runes "*") then trimEnd (take (length a - length (default [] v)) a) else o in
  (<[paramName p := if isOptional p && bool_decide (default [] v = []) then None else Some (slashesBack (default [] v))]> e, o, S k).

(** [KM]; an expression that cannot be parsed throws. *)
Definition KM (path : jstr) (cs isEnd : bool) (t : jstr) : option (option PathMatch) :=
  let '(src, ps) := tJe path isEnd in
  r ← parseRegExp src;
  Some (match matchStart fold (negb cs) r t with
        | None => None
        | Some (a, caps) =>
          let '(e, o, _) := foldl (addParam a caps) (∅, trimEnd a, 1%nat) ps in
          Some {| matchParams := e; matchPathname := a; matchBase := o |}
        end).

(** ** The match of a location *)

Record Match := { mPathname : jstr; mBase : jstr; mRoute : route }.

(** The loop of [$qe] over the routes of a branch: [a] is the base so far and [i] the
    parameters, which all matches of a branch share. *)
Fixpoint matchMetas (l : list Meta) (t a : jstr) (i : params) : option (option (params * list Match)) :=
  match l with
  | [] => Some (Some (i, []))
  | s :: l =>
    let c := bool_decide (l = []) in
    let left := if bool_decide (a = [slash]) then t else match drop (length a) t with [] => [slash] | x => x end in
    u ← KM (relativePath s) (metaCase s) c left;
    match u with
    | None => Some None
    | Some u =>
      let a' := if bool_decide (matchBase u = [slash]) then a else QM [a; matchBase u] in
      let here := {| mPathname := QM [a; matchPathname u]; mBase := normalizePathname (QM [a; matchBase u]); mRoute := metaRoute s |} in
      x ← matchMetas l t a' (matchParams u ∪ i);
      Some (match x with Some (i, l) => Some (i, here :: l) | None => None end)
    end
  end.

Definition matchBranch (b : Branch) (t : jstr) : option (option (params * list Match)) := matchMetas (routesMeta b) t [slash] ∅.

(** *** [decodeURIComponent] and [encodeURIComponent] *)

Definition hexOf (c : Z) : option Z :=
  if (48 <=? c) && (c <=? 57) then Some (c - 48)
  else if (65 <=? c) && (c <=? 70) then Some (c - 55)
  else if (97 <=? c) && (c <=? 102) then Some (c - 87) else None.

(** A byte [%XX]. *)
Definition percent (s : jstr) : option (Z * jstr) :=
  match s with 37 :: a :: b :: r => x ← hexOf a; y ← hexOf b; Some (16 * x + y, r) | _ => None end.

(** The bytes that go on. *)
Fixpoint more (n : nat) (c : Z) (s : jstr) : option (Z * jstr) :=
  match n with
  | O => Some (c, s)
  | S n => x ← percent s; if (128 <=? x.1) && (x.1 <? 192) then more n (64 * c + (x.1 - 128)) x.2 else None
  end.

(** A code point with the smallest one of its length; surrogates and what is beyond Unicode
    are errors. *)
Definition point (lo : Z) (x : Z * jstr) : option (jstr * jstr) :=
  if (lo <=? x.1) && negb ((55296 <=? x.1) && (x.1 <? 57344)) && (x.1 <? 1114112) then Some (Utf8.utf16 x.1, x.2) else None.

Definition decodePoint (s : jstr) : option (jstr * jstr) :=
  x ← percent s;
  let '(b, r) := x in
  if b <? 128 then Some ([b], r)
  else if b <? 192 then None
  else if b <? 224 then more 1 (b - 192) r ≫= point 128
  else if b <? 240 then more 2 (b - 224) r ≫= point 2048
  else if b <? 248 then more 3 (b - 240) r ≫= point 65536
  else None.

Fixpoint decodeFrom (fuel : nat) (s : jstr) : option jstr :=
  match s with
  | [] => Some []
  | c :: r =>
    match fuel with
    | O => None
    | S fuel =>
      if c =? 37 then x ← decodePoint s; y ← decodeFrom fuel x.2; Some (x.1 ++ y)
      else (λ y, c :: y) <$> decodeFrom fuel r
    end
  end.

Definition decodeURIComponent (s : jstr) : option jstr := decodeFrom (length s) s.

Definition hexDigit (n : Z) : Z := if n <? 10 then 48 + n else 55 + n.

Definition percentByte (b : Z) : jstr := [37; hexDigit (b / 16); hexDigit (b mod 16)].

Definition isUnreserved (c : Z) : bool := isAlnum c || bool_decide (c ∈ runes "-_.!~*'()").

Definition encodePoint (c : Z) : jstr := if isUnreserved c then [c] else utf8 c ≫= percentByte.

(** A lone surrogate throws. *)
Fixpoint encodeURIComponent (s : jstr) : option jstr :=
  match s with
  | [] => Some []
  | c :: r =>
    if isLead c then
      match r with
      | d :: r' => if isTrail d then (λ y, encodePoint (65536 + (c - 55296) * 1024 + (d - 56320)) ++ y) <$> encodeURIComponent r' else None
      | [] => None
      end
    else if isTrail c then None
    else (λ y, encodePoint c ++ y) <$> encodeURIComponent r
  end.

(** [s.replace(/\//g, "%2F")] *)
Definition hideSlashes (s : jstr) : jstr := s ≫= λ c, if c =? slash then runes "%2F" else [c].

(** [nJe]: a path that cannot be decoded is left as it is. *)
Definition nJe (e : jstr) : jstr :=
  match mapM decodeURIComponent (split slash e) with
  | Some l => join [slash] (map hideSlashes l)
  | None => e
  end.

(** [qM]: the path below a base name *)
Definition qM (e t : jstr) : option jstr :=
  if bool_decide (t = [slash]) then Some e
  else if negb (startsWith (toLower t) (toLower e)) then None
  else
    let n := if endsWith [slash] t then pred (length t) else length t in
    match e !! n with
    | Some c => if c =? slash then Some (drop n e) else None
    | None => Some (match drop n e with [] => [slash] | x => x end)
    end.

(** [rJe] *)
Definition rJe (basename pathname : jstr) : jstr :=
  if bool_decide (pathname = [slash]) then basename else QM [basename; pathname].

(** The first branch that matches. *)
Fixpoint firstMatch (l : list Branch) (i : jstr) : option (option (params * list Match)) :=
  match l with
  | [] => Some None
  | b :: l => o ← matchBranch b (nJe i); match o with Some m => Some (Some m) | None => firstMatch l i end
  end.

(** [UM] without partial matches, and [HM]. *)
Definition HM (l : list route) (t : jstr) (n : jstr) : option (option (params * list Match)) :=
  match qM (match pathname (RM t) with Some p => p | None => [slash] end) n with
  | None => Some None
  | Some i => a ← WM l; firstMatch (Wqe a) i
  end.

(** ** Links *)

(** [e.replace(/\*$/, "/*")] *)
Definition fixSplat (n : jstr) : jstr :=
  if endsWith (runes "*") n && negb (bool_decide (n = runes "*")) && negb (endsWith (runes "/*") n) then removelast n ++ runes "/*" else n.

(** A segment that starts with a parameter: the name, whether it is optional, and the text
    after it on the line. *)
Definition linkParam (s : jstr) : option (jstr * bool * jstr) :=
  match s with
  | 58 :: r =>
    match spanWord r with
    | ([], _) => None
    | (name, x) =>
      let '(q, x) := match x with 63 :: x => (true, x) | _ => (false, x) end in
      Some (name, q, (Json.span (λ c, negb (isTerminator c)) x).1)
    end
  | _ => None
  end.

Definition linkSegment (t : params) (isLast : bool) (e : jstr) : option jstr :=
  if isLast && isSplat e then Some (default [] (t !! runes "*" ≫= id))
  else match linkParam e with
       | Some (name, q, r) =>
         let o := t !! name ≫= id in
         if negb q && bool_decide (o = None) then None else (λ v, v ++ r) <$> encodeURIComponent (default [] o)
       | None => Some (if endsWith (runes "?") e then removelast e else e)
       end.

Fixpoint linkSegments (t : params) (l : list jstr) : option (list jstr) :=
  match l with
  | [] => Some []
  | e :: l => x ← linkSegment t (bool_decide (l = [])) e; y ← linkSegments t l; Some (x :: y)
  end.

(** [eJe] *)
Definition eJe (e : jstr) (t : params) : option jstr :=
  let n := fixSplat e in
  l ← linkSegments t (split slash (squeeze n));
  Some ((if startsWith [slash] n then [slash] else []) ++ join [slash] (filter (λ s, s ≠ []) l)).

End routing.
