(* ===== verification/RouterMatch.v ===== *)
(** * What a route pattern matches

    A pattern of literal segments, parameters and a last splat, compiled to a regular
    expression and run by the backtracking matcher, matches segment by segment: the
    reference [specMatch] needs no expression. *)

From Stdlib Require Import ZArith Lia.
From stdpp Require Import base numbers strings gmap option list.
From S2P Require Import Prelude Js UiStreams Json TurboWire RegExp Router.

Open Scope Z_scope.

#[local] Abbreviation slash := 47.

(** ** Patterns *)

(** The name [__proto__] is apart: an object takes no value under it. *)
Inductive seg := Lit (s : jstr) | Par (name : jstr).

Definition litUnit (c : Z) : Prop := c ∉ [slash; 63; 42].

Definition segOk (g : seg) : Prop :=
  match g with
  | Lit s => Forall litUnit s ∧ ∃ c r, s = c :: r ∧ c ≠ 58
  | Par n => Forall (λ c, isWord c = true) n ∧ n ≠ [] ∧ n ∉ [runes "__proto__"]
  end.

Definition segText (g : seg) : jstr := match g with Lit s => s | Par n => 58 :: n end.

(** The text of a pattern, with or without a slash at the start. *)
Definition patText (absolute : bool) (gs : list seg) (splat : bool) : jstr :=
  (if absolute then [slash] else []) ++ join [slash] (map segText gs ++ (if splat then [runes "*"] else [])).

(** [/a/:b] *)
Definition slashed (gs : list seg) : jstr := gs ≫= λ g, slash :: segText g.

Lemma word_units c : isWord c = true → c ≠ slash ∧ c ≠ 63 ∧ c ≠ 42 ∧ c ≠ 58 ∧ c ∉ runes "\.*+^${}|()[]".
Proof.
  unfold isWord, isAlnum. intros H. assert (c = 95 ∨ c = 45 ∨ 48 <= c <= 57 ∨ 65 <= c <= 90 ∨ 97 <= c <= 122) as Hc by lia.
  split_and!; try lia. intros Hin. cbv in Hin. repeat (apply elem_of_cons in Hin as [->|Hin]; [lia|]). by apply elem_of_nil in Hin.
Qed.

Lemma segText_plain g : segOk g → Forall litUnit (segText g) ∧ segText g ≠ [].
Proof.
  destruct g as [s|n]; simpl.
  - intros [Hs (c & r & -> & _)]. done.
  - intros [Hn _]. split; [|done]. constructor; [unfold litUnit; set_solver|]. eapply Forall_impl; [exact Hn|].
    intros c (H1 & H2 & H3 & _)%word_units. unfold litUnit. set_solver.
Qed.

(** *** Slashes at the ends *)

Lemma dropSlashes_no c s : c ≠ slash → dropSlashes (c :: s) = c :: s.
Proof. intros Hc. simpl. by replace (c =? slash) with false by lia. Qed.

Lemma stripEnd_no s c : c ≠ slash → stripEnd (s ++ [c]) = s ++ [c].
Proof. intros Hc. unfold stripEnd. rewrite reverse_snoc, dropSlashes_no by done. by rewrite reverse_cons, reverse_involutive. Qed.

Lemma stripEnd_slash s : stripEnd (s ++ [slash]) = stripEnd s.
Proof. unfold stripEnd. by rewrite reverse_snoc. Qed.

Lemma endsWith_snoc c d s : endsWith [c] (s ++ [d]) = (c =? d).
Proof. unfold endsWith. rewrite reverse_snoc. simpl. by rewrite andb_true_r. Qed.

Lemma seg_last g : segOk g → ∃ s c, segText g = s ++ [c] ∧ litUnit c.
Proof.
  intros [Hu Hne]%segText_plain. destruct (exists_last Hne) as (s & c & E). exists s, c. split; [done|]. rewrite E in Hu. apply Forall_app in Hu as [_ Hu].
  by apply Forall_cons_1 in Hu as [? _].
Qed.

Lemma join_segs gs : gs ≠ [] → slash :: join [slash] (map segText gs) = slashed gs.
Proof.
  unfold slashed. induction gs as [|g [|g' gs] IH]; [done| |]; intros _.
  - simpl. by rewrite app_nil_r.
  - cbn [map join]. cbn [mbind list_bind] in IH |- *. rewrite <- (IH ltac:(done)). cbn [app]. done.
Qed.

Lemma slashed_last gs : gs ≠ [] → Forall segOk gs → ∃ s c, slashed gs = s ++ [c] ∧ litUnit c.
Proof.
  intros Hne Hok. destruct (exists_last Hne) as (gs' & g & ->). apply Forall_app in Hok as [_ [Hg _]%Forall_cons_1].
  destruct (seg_last g Hg) as (s & c & E & Hc). exists (slashed gs' ++ slash :: s), c. split; [|done].
  unfold slashed. rewrite bind_app. simpl. rewrite E, app_nil_r. by rewrite <- app_assoc.
Qed.

Lemma slashed_first gs : gs ≠ [] → Forall segOk gs → ∃ c s, slashed gs = slash :: c :: s ∧ c ≠ slash.
Proof.
  intros Hne Hok. destruct gs as [|g gs]; [done|]. apply Forall_cons in Hok as [Hg _]. destruct (segText_plain g Hg) as [Hu Hn].
  destruct (segText g) as [|c s] eqn:E; [done|]. apply Forall_cons in Hu as [Hc _]. exists c, (s ++ slashed gs). split; [unfold slashed; simpl; by rewrite E|].
  unfold litUnit in Hc. set_solver.
Qed.

(** Whatever slashes and splat a pattern has, its expression starts from [slashed]. *)
Definition baseText (gs : list seg) : jstr := match gs with [] => [slash] | _ => slashed gs end.

Lemma patText_splat absolute gs : gs ≠ [] → patText absolute gs true = patText absolute gs false ++ runes "/*".
Proof. intros Hne. unfold patText. rewrite app_nil_r, join_snoc by (by destruct gs). by rewrite <- app_assoc. Qed.

Lemma patText_slashed absolute gs : gs ≠ [] → patText absolute gs false = if absolute then slashed gs else tail (slashed gs).
Proof. intros Hne. unfold patText. rewrite app_nil_r, <- join_segs by done. by destruct absolute. Qed.

Lemma patText_ends absolute gs : gs ≠ [] → Forall segOk gs →
  rooted (patText absolute gs false) = slashed gs ∧ ∃ s c, patText absolute gs false = s ++ [c] ∧ litUnit c.
Proof.
  intros Hne Hok. destruct (slashed_last gs Hne Hok) as (s & c & Es & Hc). destruct (slashed_first gs Hne Hok) as (c' & s' & Es' & Hc').
  rewrite patText_slashed by done. split.
  - unfold rooted. destruct absolute; rewrite Es'; simpl; by replace (c' =? slash) with false by lia.
  - destruct absolute; [by exists s, c|]. rewrite Es. destruct s as [|x s]; [rewrite Es in Es'; by simplify_eq|]. by exists s, c.
Qed.

Lemma litUnit_ne c : litUnit c → c ≠ slash ∧ c ≠ 63 ∧ c ≠ 42.
Proof. unfold litUnit. set_solver. Qed.

Lemma stripSplat_pat absolute gs splat : Forall segOk gs → rooted (stripSplat (patText absolute gs splat)) = baseText gs.
Proof.
  intros Hok. destruct (decide (gs = [])) as [->|Hne]; [by destruct absolute, splat|].
  destruct (patText_ends absolute gs Hne Hok) as (Hr & s & c & E & (H1 & _ & H2)%litUnit_ne).
  assert (rooted (stripSplat (patText absolute gs splat)) = rooted (patText absolute gs false)) as ->; [|by destruct gs]. f_equal.
  unfold stripSplat. destruct splat.
  - rewrite patText_splat by done. change (runes "/*") with ([slash] ++ [42]). rewrite app_assoc. change (runes "*") with [42].
    rewrite endsWith_snoc, Z.eqb_refl, removelast_last, stripEnd_slash, E. by apply stripEnd_no.
  - rewrite E. change (runes "*") with [42]. rewrite endsWith_snoc. replace (42 =? c) with false by lia. by apply stripEnd_no.
Qed.

Lemma endsWith_pat absolute gs splat : Forall segOk gs → endsWith (runes "*") (patText absolute gs splat) = splat.
Proof.
  intros Hok. destruct (decide (gs = [])) as [->|Hne]; [by destruct absolute, splat|].
  destruct (patText_ends absolute gs Hne Hok) as (_ & s & c & E & (H1 & _ & H2)%litUnit_ne). change (runes "*") with [42]. destruct splat.
  - rewrite patText_splat by done. change (runes "/*") with ([slash] ++ [42]). by rewrite app_assoc, endsWith_snoc.
  - rewrite E, endsWith_snoc. lia.
Qed.

(** ** The source of the expression *)

Definition escText (g : seg) : jstr := match g with Lit s => s ≫= escapeUnit | Par n => 58 :: n end.

Definition escaped (gs : list seg) : jstr := gs ≫= λ g, slash :: escText g.

Definition frag (g : seg) : jstr := match g with Lit s => slash :: (s ≫= escapeUnit) | Par _ => runes "/([^\/]+)" end.

Definition compiled (gs : list seg) : jstr := gs ≫= frag.

Definition parsOf (gs : list seg) : list Param :=
  omap (λ g, match g with Lit _ => None | Par n => Some {| paramName := n; isOptional := false |} end) gs.

Lemma escape_word n : Forall (λ c, isWord c = true) n → n ≫= escapeUnit = n.
Proof.
  induction 1 as [|c n (_ & _ & _ & _ & Hc)%word_units _ IH]; [done|]. cbn [mbind list_bind] in *. rewrite IH. unfold escapeUnit. by rewrite bool_decide_false.
Qed.

Lemma escape_slashed gs : Forall segOk gs → slashed gs ≫= escapeUnit = escaped gs.
Proof.
  unfold slashed, escaped. induction 1 as [|g gs Hg _ IH]; [done|]. cbn [mbind list_bind]. rewrite bind_app. f_equal; [|exact IH].
  destruct g as [s|n]; [done|]. simpl in Hg. cbn [segText escText]. change (slash :: 58 :: n) with ([slash; 58] ++ n). rewrite bind_app.
  by rewrite (escape_word n) by apply Hg.
Qed.

Lemma spanWord_app n r : Forall (λ c, isWord c = true) n → match r with c :: _ => isWord c = false | [] => True end → spanWord (n ++ r) = (n, r).
Proof.
  intros Hn Hr. induction Hn as [|c n Hc _ IH]; simpl; [destruct r as [|c r]; simpl; [done|by rewrite Hr]|]. by rewrite Hc, IH.
Qed.

Lemma compileParams_skip u r f : Forall (λ c, c ≠ slash) u → (length u <= f)%nat →
  compileParams f (u ++ r) = let '(a, ps) := compileParams (f - length u) r in (u ++ a, ps).
Proof.
  intros Hu. revert f. induction Hu as [|c u Hc _ IH]; intros f Hf; [simpl; rewrite Nat.sub_0_r; by destruct (compileParams f r)|].
  destruct f as [|f]; [simpl in Hf; lia|]. simpl in Hf. cbn [app compileParams]. replace (c =? slash) with false by lia.
  rewrite IH by lia. simpl. by destruct (compileParams (f - length u) r).
Qed.

Lemma compileParams_slash u r f : match u with c :: _ => c ≠ 58 | [] => False end → Forall (λ c, c ≠ slash) u → (length u < f)%nat →
  compileParams f (slash :: u ++ r) = let '(a, ps) := compileParams (f - S (length u)) r in (slash :: u ++ a, ps).
Proof.
  intros Hh Hu Hf. destruct f as [|f]; [lia|]. destruct u as [|c u]; [done|]. cbn [compileParams app]. simpl (slash =? slash). cbn iota.
  assert (match c with 58 => spanWord (u ++ r) | _ => ([], []) end = ([], [])) as ->.
  { destruct c as [|q|q]; try done. do 6 (destruct q as [q|q|]; try done). }
  change (c :: u ++ r) with ((c :: u) ++ r). rewrite compileParams_skip by (done || (simpl in *; lia)). simpl.
  by destruct (compileParams (f - S (length u)) r).
Qed.

Lemma escape_lit s : Forall litUnit s → Forall (λ c, c ≠ slash ∧ c ≠ 63) (s ≫= escapeUnit).
Proof.
  induction 1 as [|c s (H1 & H2 & H3)%litUnit_ne _ IH]; [constructor|]. cbn [mbind list_bind]. apply Forall_app. split; [|done].
  unfold escapeUnit. case_bool_decide; repeat constructor; done.
Qed.

Lemma escape_head c s : c ≠ 58 → match (c :: s) ≫= escapeUnit with x :: _ => x ≠ 58 | [] => False end.
Proof. intros Hc. cbn [mbind list_bind]. unfold escapeUnit. by case_bool_decide. Qed.

Lemma compileParams_segs gs f : Forall segOk gs → (length (escaped gs) <= f)%nat → compileParams f (escaped gs) = (compiled gs, parsOf gs).
Proof.
  intros Hok. revert f. induction Hok as [|g gs Hg _ IH]; intros f Hf; [by destruct f|].
  change (escaped (g :: gs)) with (slash :: escText g ++ escaped gs) in *. cbn [length] in Hf. rewrite length_app in Hf.
  destruct g as [s|n]; simpl in Hg; cbn [escText] in *.
  - destruct Hg as [Hs (c & r & -> & Hc)]. rewrite compileParams_slash; [|by apply escape_head| |lia].
    + rewrite IH by lia. done.
    + eapply Forall_impl; [by apply escape_lit|]. by intros x [? _].
  - destruct Hg as (Hn & Hne & _). destruct f as [|f]; [lia|]. cbn [compileParams app]. simpl (slash =? slash). cbn iota.
    rewrite spanWord_app; [|done|by destruct gs]. destruct n as [|x n]; [done|].
    assert (compileParams f (escaped gs) = (compiled gs, parsOf gs)) as E by (apply IH; simpl in Hf; lia).
    destruct gs as [|g' gs]; [by destruct f|]. change (escaped (g' :: gs)) with (slash :: escText g' ++ escaped gs) in *. by rewrite E.
Qed.

Lemma spanWord_incl s c : c ∈ (spanWord s).2 → c ∈ s.
Proof.
  induction s as [|x s IH]; [done|]. simpl. destruct (isWord x); [|done]. destruct (spanWord s) as [a b]. simpl in *. intros H. right. by apply IH.
Qed.

Lemma compileOptional_none f s : 63 ∉ s → compileOptional f s = s.
Proof.
  revert s. induction f as [|f IH]; intros s Hs; [done|]. destruct s as [|c r]; [done|]. cbn [compileOptional].
  rewrite not_elem_of_cons in Hs. destruct Hs as [Hc Hr].
  assert (c :: compileOptional f r = c :: r) as E by (by rewrite IH). destruct (c =? slash); [|done].
  pose proof (spanWord_incl r 63) as Hin. destruct (spanWord r) as [[|w ws] r']; [done|]. simpl in Hin.
  destruct r' as [|d r']; [done|]. assert (d ≠ 63) as Hd by (intros ->; apply Hr, Hin; left).
  destruct d as [|q|q]; try done. do 6 (destruct q as [q|q|]; try done).
Qed.

Lemma compiled_none gs : Forall segOk gs → 63 ∉ compiled gs.
Proof.
  induction 1 as [|g gs Hg _ IH]; [apply not_elem_of_nil|]. unfold compiled in *. cbn [mbind list_bind]. rewrite not_elem_of_app. split; [|done].
  destruct g as [s|n]; simpl in Hg; [|by apply (bool_decide_unpack _); vm_compute]. cbn [frag]. rewrite not_elem_of_cons. split; [done|].
  intros Hin. pose proof (escape_lit s (proj1 Hg)) as He. rewrite Forall_forall in He. by destruct (He 63 Hin).
Qed.

Definition tailText (gs : list seg) (splat isEnd : bool) : jstr :=
  if splat then match gs with [] => runes "(.*)$" | _ => runes "(?:\/(.+)|\/*)$" end
  else if isEnd then runes "\/*$" else match gs with [] => [] | _ => runes "(?:(?=\/|$))" end.

Definition compiledBase (gs : list seg) : jstr := match gs with [] => [slash] | _ => compiled gs end.

Lemma patText_long absolute gs splat : gs ≠ [] → Forall segOk gs →
  patText absolute gs splat ≠ [] ∧ patText absolute gs splat ≠ [slash] ∧ patText absolute gs splat ≠ runes "*" ∧ patText absolute gs splat ≠ runes "/*".
Proof.
  intros Hne Hok. destruct (patText_ends absolute gs Hne Hok) as (_ & s & c & E & (H1 & _ & H2)%litUnit_ne). destruct splat.
  - rewrite patText_splat, E by done. change (runes "*") with [42]. change (runes "/*") with [slash; 42].
    split_and!; intros Heq; apply (f_equal length) in Heq; rewrite !length_app in Heq; simpl in Heq; lia.
  - rewrite E. change (runes "*") with [42]. change (runes "/*") with [slash; 42].
    split_and!; [by destruct s|..]; intros Heq; [apply (app_inj_tail s []) in Heq|apply (app_inj_tail s []) in Heq|apply (app_inj_tail s [slash]) in Heq]; naive_solver.
Qed.

Lemma tJe_pat absolute gs splat isEnd : Forall segOk gs → tJe (patText absolute gs splat) isEnd =
  (runes "^" ++ compiledBase gs ++ tailText gs splat isEnd,
   parsOf gs ++ (if splat then [{| paramName := runes "*"; isOptional := false |}] else [])).
Proof.
  intros Hok. unfold tJe. rewrite stripSplat_pat, endsWith_pat by done. destruct (decide (gs = [])) as [->|Hne]; [by destruct absolute, splat, isEnd|].
  assert (baseText gs = slashed gs) as -> by by destruct gs. assert (compiledBase gs = compiled gs) as -> by by destruct gs.
  rewrite escape_slashed by done. rewrite compileParams_segs by done. rewrite compileOptional_none by by apply compiled_none.
  destruct (patText_long absolute gs splat Hne Hok) as (H1 & H2 & H3 & H4). unfold tailText. destruct splat.
  - rewrite bool_decide_false by (by intros [?|?]). destruct gs; [done|]. by rewrite <- app_assoc.
  - rewrite bool_decide_true by done. destruct gs; [done|]. destruct isEnd; by rewrite <- app_assoc, app_nil_r.
Qed.

(** ** The expression *)

Definition lits (s : jstr) (k : re) : re := foldr (λ c r, Seq (Cls (CChar c)) r) k s.

Definition oneOrMore : re := Seq (Many true (CNot slash)) Eps.

(** [n] is the number of the first group, [k] what comes after the segments. *)
Fixpoint segsRe (n : nat) (gs : list seg) (k : re) : re :=
  match gs with
  | [] => k
  | Lit s :: gs => Seq (Cls (CChar slash)) (lits s (segsRe n gs k))
  | Par _ :: gs => Seq (Cls (CChar slash)) (Seq (Cap n oneOrMore) (segsRe (S n) gs k))
  end.

Definition toEol : re := Seq Eol Eps.

Definition tailRe (n : nat) (gs : list seg) (splat isEnd : bool) : re :=
  if splat then
    match gs with
    | [] => Seq (Cap n (Seq (Many false CDot) Eps)) toEol
    | _ => Seq (Alt (Seq (Cls (CChar slash)) (Seq (Cap n (Seq (Many true CDot) Eps)) Eps)) (Seq (Many false (CChar slash)) Eps)) toEol
    end
  else if isEnd then Seq (Many false (CChar slash)) toEol
  else match gs with [] => Eps | _ => Seq (Seq (Look (Alt (Seq (Cls (CChar slash)) Eps) (Seq Eol Eps))) Eps) Eps end.

(** No quantifier comes next. *)
Definition calm (s : jstr) : Prop := match s with c :: _ => c ≠ 63 ∧ c ≠ 42 ∧ c ≠ 43 | [] => True end.

Lemma quantify_calm a s : calm s → quantify a s = Some (a, s).
Proof.
  destruct s as [|c s]; [done|]. intros (H1 & H2 & H3). unfold quantify. replace (c =? 63) with false by lia. replace (c =? 42) with false by lia.
  by replace (c =? 43) with false by lia.
Qed.

Section parse.
Context (disj : nat → jstr → option (re * nat * jstr)).

Lemma special_escaped c : c ∈ syntaxUnits → c ≠ 63 → c ∈ runes "\.*+^${}|()[]".
Proof. intros H1 H2. cbv in H1 |- *. set_solver. Qed.

Lemma unescaped c : c ≠ 63 → c ∉ runes "\.*+^${}|()[]" → ∀ x, x ∈ syntaxUnits → (c =? x) = false.
Proof. intros H1 H2 x Hx. destruct (Z.eqb_spec c x) as [->|]; [|done]. exfalso. by apply H2, special_escaped. Qed.

Lemma parseAtom_unit n c r : c ≠ 63 → parseAtom disj n (escapeUnit c ++ r) = Some (Cls (CChar c), n, r) ∧ ends (escapeUnit c ++ r) = false.
Proof.
  intros H1. unfold escapeUnit. case_bool_decide as Hc.
  - cbn [app]. split; [|done]. unfold parseAtom. simpl (92 =? _). cbn iota. assert (isAlnum c = false) as ->; [|done].
    cbv in Hc. repeat (apply elem_of_cons in Hc as [->|Hc]; [done|]). by apply elem_of_nil in Hc.
  - pose proof (unescaped c H1 Hc) as Hx. cbn [app]. unfold parseAtom, ends.
    rewrite bool_decide_false by (intros Hin; by apply Hc, special_escaped).
    rewrite !Hx by (apply (bool_decide_unpack _); vm_compute; done). done.
Qed.

(** The terms of a text, whatever fuel from its length on. *)
Definition parsesTo (n : nat) (s : jstr) (k : re) (n' : nat) (r' : jstr) : Prop :=
  ∀ f, (length s <= f)%nat → parseTerms disj f n s = Some (k, n', r').

Lemma parses_end n s : ends s = true → parsesTo n s Eps n s.
Proof. intros He f _. destruct f; simpl; by rewrite He. Qed.

Lemma parses_atom n s a n1 r b r2 k n' r' : ends s = false → parseAtom disj n s = Some (a, n1, r) → quantify a r = Some (b, r2) →
  (length r2 < length s)%nat → parsesTo n1 r2 k n' r' → parsesTo n s (Seq b k) n' r'.
Proof.
  intros He Ha Hq Hl Hk f Hf. destruct f as [|f]; [lia|]. cbn [parseTerms]. rewrite He, Ha. simpl. rewrite Hq. simpl. by rewrite Hk by lia.
Qed.

Lemma parses_unit n c r k n' r' : c ≠ 63 → calm r → parsesTo n r k n' r' → parsesTo n (escapeUnit c ++ r) (Seq (Cls (CChar c)) k) n' r'.
Proof.
  intros Hc Hr Hk. destruct (parseAtom_unit n c r Hc) as [Ha He]. eapply parses_atom; [done|done|by apply quantify_calm| |done].
  rewrite length_app. unfold escapeUnit. case_bool_decide; simpl; lia.
Qed.

Lemma calm_escape c r : c ≠ 63 → calm (escapeUnit c ++ r).
Proof.
  intros Hc. unfold escapeUnit. case_bool_decide as H; [done|]. simpl. pose proof (unescaped c Hc H) as Hx.
  split_and!; [done|..]; apply Z.eqb_neq, Hx; apply (bool_decide_unpack _); vm_compute; done.
Qed.

Lemma parses_lits n s r k n' r' : Forall litUnit s → calm r → parsesTo n r k n' r' → parsesTo n ((s ≫= escapeUnit) ++ r) (lits s k) n' r'.
Proof.
  intros Hs Hr Hk. induction Hs as [|c s (_ & Hc & _)%litUnit_ne Hs IH]; [done|]. cbn [mbind list_bind]. rewrite <- app_assoc. apply parses_unit; [done| |exact IH].
  destruct Hs as [|c' s (_ & Hc' & _)%litUnit_ne _]; [done|]. cbn [mbind list_bind]. rewrite <- app_assoc. by apply calm_escape.
Qed.

End parse.

Lemma group_parsed F n r : parseDisj (S F) n (runes "[^\/]+)" ++ r) = Some (oneOrMore, n, runes ")" ++ r).
Proof. done. Qed.

Lemma parses_segs F gs n r k n' r' : Forall segOk gs → calm r → parsesTo (parseDisj (S F)) (n + length (parsOf gs)) r k n' r' →
  parsesTo (parseDisj (S F)) n (compiled gs ++ r) (segsRe n gs k) n' r'.
Proof.
  intros Hok Hr. revert n. induction Hok as [|g gs Hg Hok IH]; intros n Hk; [by rewrite Nat.add_0_r in Hk|].
  unfold compiled in *. cbn [mbind list_bind]. rewrite <- app_assoc.
  assert (calm ((gs ≫= frag) ++ r)) as Hc by (destruct Hok as [|g' gs' Hg' _]; [done|]; by destruct g').
  destruct g as [s|p]; simpl in Hg; cbn [frag segsRe].
  - apply (parses_unit _ n slash ((s ≫= escapeUnit) ++ (gs ≫= frag) ++ r)); [done| |].
    + destruct Hg as [Hs (c & s' & -> & _)]. apply Forall_cons in Hs as [(_ & Hc' & _)%litUnit_ne _]. cbn [mbind list_bind]. rewrite <- app_assoc. by apply calm_escape.
    + apply parses_lits; [apply Hg|done|]. by apply IH.
  - apply (parses_unit _ n slash (runes "([^\/]+)" ++ (gs ≫= frag) ++ r)); [done|done|].
    eapply (parses_atom _ n _ _ (S n) ((gs ≫= frag) ++ r)); [done| |by apply quantify_calm| |].
    + unfold parseAtom. change (runes "([^\/]+)" ++ ?x) with (40 :: runes "[^\/]+)" ++ x). cbn iota. simpl (_ =? _). cbn iota.
      change (startsWith (runes "?:") _) with false. change (startsWith (runes "?=") _) with false. cbn iota. by rewrite group_parsed.
    + simpl. lia.
    + apply IH. cbn [parsOf omap list_omap] in Hk. simpl in Hk. by rewrite <- Nat.add_succ_comm in Hk.
Qed.

Lemma parses_tail F n gs splat isEnd : parsesTo (parseDisj (S (S (S F)))) n (tailText gs splat isEnd) (tailRe n gs splat isEnd) (n + if splat then 1 else 0) [].
Proof.
  intros f Hf. unfold tailText, tailRe in *. destruct splat, gs as [|g gs], isEnd;
    do 20 (destruct f as [|f]; [simpl in Hf; try lia; rewrite ?Nat.add_0_r, ?Nat.add_1_r; done|]);
    simpl in Hf |- *; rewrite ?Nat.add_0_r, ?Nat.add_1_r; done.
Qed.

Definition baseRe (gs : list seg) (k : re) : re := match gs with [] => Seq (Cls (CChar slash)) k | _ => segsRe 1 gs k end.

Definition patRe (gs : list seg) (splat isEnd : bool) : re := Seq Bol (baseRe gs (tailRe (1 + length (parsOf gs)) gs splat isEnd)).

Lemma calm_tail gs splat isEnd : calm (tailText gs splat isEnd).
Proof. by destruct gs, splat, isEnd. Qed.

Lemma pattern_parsed gs splat isEnd : Forall segOk gs →
  parseRegExp (runes "^" ++ compiledBase gs ++ tailText gs splat isEnd) = Some (patRe gs splat isEnd).
Proof.
  intros Hok. destruct (decide (gs = [])) as [->|Hne]; [by destruct splat, isEnd|].
  assert (compiledBase gs = compiled gs) as -> by by destruct gs. unfold parseRegExp, patRe. assert (∀ k, baseRe gs k = segsRe 1 gs k) as -> by by destruct gs.
  set (s := compiled gs ++ tailText gs splat isEnd). change (runes "^" ++ s) with (94 :: s). cbn [length].
  assert (∃ F, S (length s) = S (S (S F))) as (F & EF).
  { assert (2 <= length s)%nat; [|exists (length s - 2)%nat; lia]. unfold s, compiled. destruct gs as [|[l|p] gs]; [done|..]; cbn [mbind list_bind frag]; rewrite !length_app.
    - apply Forall_cons in Hok as [[_ (c & r & -> & _)] _]. simpl. unfold escapeUnit at 1. case_bool_decide; simpl; lia.
    - simpl. lia. }
  assert (parsesTo (parseDisj (S (length s))) 1 (94 :: s) (Seq Bol (segsRe 1 gs (tailRe (1 + length (parsOf gs)) gs splat isEnd)))
    (1 + length (parsOf gs) + if splat then 1 else 0) []) as Hp.
  { rewrite EF. eapply (parses_atom _ 1 (94 :: s) Bol 1 s Bol s); [done|done| |simpl; lia|].
    - apply quantify_calm. unfold s, compiled. destruct gs as [|[]]; done.
    - apply parses_segs; [done|apply calm_tail|]. apply parses_tail. }
  change (parseDisj (S (S (length s))) 1 (94 :: s)) with
    (x ← parseTerms (parseDisj (S (length s))) (S (length s)) 1 (94 :: s);
     match x.2 with c :: r => if c =? 124 then y ← parseDisj (S (length s)) x.1.2 r; Some (Alt x.1.1 y.1.1, y.1.2, y.2) else Some x | [] => Some x end).
  rewrite (Hp (S (length s))) by (simpl; lia). done.
Qed.

(** ** Segment by segment *)

Definition segment (u : jstr) : jstr * jstr := Json.span (λ c, negb (c =? slash)) u.

Section spec.
Context (fold : Z → Z) (ci : bool).

Fixpoint sameText (s w : jstr) : bool :=
  match s, w with
  | [], [] => true
  | a :: s, b :: w => same fold ci a b && sameText s w
  | _, _ => false
  end.

(** The values of the parameters and what is left of the path. *)
Fixpoint specSegs (gs : list seg) (t : jstr) : option (list jstr * jstr) :=
  match gs with
  | [] => Some ([], t)
  | g :: gs =>
    match t with
    | c :: u =>
      if c =? slash then
        let '(w, v) := segment u in
        match g with
        | Lit s => if sameText s w then specSegs gs v else None
        | Par _ => if bool_decide (w = []) then None else x ← specSegs gs v; Some (w :: x.1, x.2)
        end
      else None
    | [] => None
    end
  end.

(** The text a splat takes, and how much of what is left is matched. *)
Definition specTail (atRoot splat isEnd : bool) (u : jstr) : option (jstr * jstr) :=
  if splat then
    if atRoot then (if forallb (λ c, negb (isTerminator c)) u then Some (u, u) else None)
    else if bool_decide (dropSlashes u = []) && bool_decide (length u <= 1)%nat then Some ([], u)
    else if forallb (λ c, negb (isTerminator c)) (tail u) then Some (tail u, u) else None
  else if isEnd then (if bool_decide (dropSlashes u = []) then Some ([], u) else None)
  else Some ([], []).

(** The values of the parameters and of the splat, and the text matched. *)
Definition specMatch (gs : list seg) (splat isEnd : bool) (t : jstr) : option (list jstr * jstr * jstr) :=
  let start := match gs with [] => match t with c :: u => if c =? slash then Some ([], u) else None | [] => None end | _ => specSegs gs t end in
  x ← start; y ← specTail (bool_decide (gs = [])) splat isEnd x.2;
  Some (x.1, y.1, take (length t - length x.2 + length y.2) t).

End spec.

(** The folding of case keeps the slash apart. *)
Class Folding (fold : Z → Z) : Prop := { fold_slash c : fold c = fold slash → c = slash }.

(** ** The matcher follows the segments *)

Section run.
Context (fold : Z → Z) `{HF : !Folding fold} (ci : bool).
#[local] Abbreviation run := (run fold ci).
#[local] Abbreviation same := (same fold ci).

Lemma same_slash c : same slash c = (c =? slash).
Proof.
  unfold RegExp.same. destruct ci; [|apply Z.eqb_sym]. destruct (Z.eqb_spec c slash) as [->|Hne]; [apply Z.eqb_refl|].
  apply Z.eqb_neq. intros E. by apply Hne, fold_slash.
Qed.

Lemma same_not_slash c d : c ≠ slash → same c d = true → d ≠ slash.
Proof.
  unfold RegExp.same. intros Hc Hs ->. destruct ci; apply Z.eqb_eq in Hs; [|done]. by apply Hc, fold_slash.
Qed.

Definition adv (x : At) (k : nat) : At := {| pos := pos x + k; rest := drop k (rest x); caps := caps x |}.

Lemma adv_0 x : adv x 0 = x.
Proof. destruct x. unfold adv. simpl. by rewrite Nat.add_0_r, drop_0. Qed.

Lemma adv_over x k : adv (over x) k = adv x (S k).
Proof. destruct x as [p [|c r] m]; unfold adv, over; simpl; rewrite ?drop_nil; by rewrite <- Nat.add_succ_comm. Qed.

(** A continuation that needs a slash or the end. *)
Definition bounded (go : At → option At) : Prop := ∀ x c r, rest x = c :: r → c ≠ slash → go x = None.

Fixpoint starts (s u : jstr) : bool :=
  match s, u with [], _ => true | a :: s, b :: u => same a b && starts s u | _, [] => false end.

Lemma run_lits s k x go : run (lits s k) x go = if starts s (rest x) then run k (adv x (length s)) go else None.
Proof.
  revert x. induction s as [|a s IH]; intros x; [simpl; by rewrite adv_0|]. cbn [lits foldr RegExp.run length]. fold (lits s k). unfold runCls.
  destruct x as [p [|b u] m]; [done|]. cbn [rest inCls starts]. destruct (same a b); [|done]. rewrite IH. cbn [over rest tail]. by rewrite adv_over.
Qed.

Lemma segment_spec u : ∃ w v, segment u = (w, v) ∧ u = w ++ v ∧ Forall (λ c, c ≠ slash) w ∧ match v with c :: _ => c = slash | [] => True end.
Proof.
  unfold segment. induction u as [|c u (w & v & E & -> & Hw & Hv)]; [by exists [], []|]. simpl. destruct (Z.eqb_spec c slash) as [->|Hc].
  - by exists [], (slash :: w ++ v).
  - simpl. rewrite E. exists (c :: w), v. split_and!; [done|done|by constructor|done].
Qed.

(** A literal segment is compared as a whole. *)
Lemma starts_segment s w v : Forall (λ c, c ≠ slash) s → match v with c :: _ => c = slash | [] => True end →
  sameText fold ci s w = starts s (w ++ v) && bool_decide (length s = length w) ∧ (starts s (w ++ v) = true → (length s <= length w)%nat).
Proof.
  intros Hs Hv. revert w. induction Hs as [|a s Ha _ IH]; intros w.
  - destruct w; simpl; split; try done; lia.
  - destruct w as [|b w]; simpl.
    + destruct v as [|c v]; [done|]. subst c. assert (same a slash = false) as ->; [|done].
      destruct (same a slash) eqn:E; [|done]. by apply same_not_slash in E.
    + destruct (same a b); [|done]. destruct (IH w) as [-> H2]. simpl. split; [|intros H; specialize (H2 H); lia].
      f_equal. apply bool_decide_ext. lia.
Qed.

Fixpoint setCaps (n : nat) (ws : list jstr) (m : gmap nat jstr) : gmap nat jstr :=
  match ws with [] => m | w :: ws => setCaps (S n) ws (<[n := w]> m) end.

(** Where the matcher is with [u] left and the captures [ws] from [n] on. *)
Definition reach (x : At) (n : nat) (ws : list jstr) (u : jstr) : At :=
  {| pos := pos x + (length (rest x) - length u); rest := u; caps := setCaps n ws (caps x) |}.

Lemma runMany_word x go : bounded go →
  runMany fold ci (CNot slash) (rest x) x go = go (adv x (length (segment (rest x)).1)).
Proof.
  intros Hb. destruct x as [p u m]. cbn [rest]. revert p. induction u as [|c u IH]; intros p; [simpl; by rewrite adv_0|].
  cbn [runMany inCls]. rewrite same_slash. unfold segment in *. cbn [Json.span]. destruct (Z.eqb_spec c slash) as [->|Hc]; cbn [negb].
  - simpl. by rewrite adv_0.
  - unfold over. cbn [rest pos caps tail]. rewrite IH. rewrite (Hb {| pos := p; rest := c :: u; caps := m |} c u eq_refl Hc).
    destruct (Json.span _ u) as [w v]. cbn [fst length]. 
    change {| pos := S p; rest := u; caps := m |} with (over {| pos := p; rest := c :: u; caps := m |}). rewrite adv_over. by destruct (go _).
Qed.

Lemma run_word x go : bounded go →
  run oneOrMore x go = if bool_decide ((segment (rest x)).1 = []) then None else go (adv x (length (segment (rest x)).1)).
Proof.
  intros Hb. unfold oneOrMore. cbn [RegExp.run]. unfold runCls. destruct x as [p [|c u] m]; [done|]. cbn [rest inCls]. rewrite same_slash.
  unfold segment. cbn [Json.span]. destruct (Z.eqb_spec c slash) as [->|Hc]; [done|]. cbn [negb]. rewrite runMany_word by done.
  unfold over at 1. cbn [rest tail]. unfold segment. destruct (Json.span _ u) as [w v] eqn:E. cbn [fst length]. rewrite bool_decide_false by done.
  rewrite <- adv_over. unfold over. cbn [rest tail pos caps]. by rewrite E.
Qed.

Lemma bounded_segs n gs k go : gs ≠ [] → bounded (λ y, run (segsRe n gs k) y go).
Proof.
  intros Hne x c r Hr Hc. destruct gs as [|[s|p] gs]; [done|..]; cbn [segsRe RegExp.run]; unfold runCls; rewrite Hr; cbn [inCls]; rewrite same_slash;
    by replace (c =? slash) with false by lia.
Qed.

Lemma specSegs_length gs t ws u : specSegs fold ci gs t = Some (ws, u) → (length u <= length t)%nat.
Proof.
  revert t ws. induction gs as [|g gs IH]; intros t ws; cbn [specSegs]; [by intros [= _ <-]|]. destruct t as [|c t]; [done|]. destruct (c =? slash); [|done].
  destruct (segment_spec t) as (w & v & -> & -> & _). cbn [length]. rewrite length_app. destruct g as [s|name].
  - destruct (sameText fold ci s w); [|done]. intros H%IH. lia.
  - case_bool_decide; [done|]. destruct (specSegs fold ci gs v) as [[ws' u']|] eqn:E; [|done]. intros [= _ <-]. apply IH in E. lia.
Qed.

(** Inside a segment the rest of the pattern does not match. *)
Lemma bounded_inside go p m w v k : bounded go → Forall (λ c, c ≠ slash) w → (k < length w)%nat →
  go (adv {| pos := p; rest := w ++ v; caps := m |} k) = None.
Proof.
  intros Hb Hw Hk. destruct (lookup_lt_is_Some_2 w k Hk) as [c Hc]. apply (Hb _ c (drop (S k) (w ++ v))).
  - unfold adv. cbn [rest]. apply drop_S. by apply lookup_app_l_Some.
  - rewrite Forall_forall in Hw. apply Hw. by eapply list_elem_of_lookup_2.
Qed.

Lemma run_segs gs n k x go : Forall segOk gs → bounded (λ y, run k y go) →
  run (segsRe n gs k) x go = match specSegs fold ci gs (rest x) with Some (ws, u) => run k (reach x n ws u) go | None => None end.
Proof.
  intros Hok Hb. revert n x. induction Hok as [|g gs Hg _ IH]; intros n x.
  - simpl. unfold reach. rewrite Nat.sub_diag, Nat.add_0_r. by destruct x.
  - assert (∀ n, bounded (λ y, run (segsRe n gs k) y go)) as Hb'.
    { intros n'. destruct (decide (gs = [])) as [->|Hne]; [done|by apply bounded_segs]. }
    cbn [specSegs]. destruct x as [p [|c u] m]; [by destruct g|]. cbn [rest].
    destruct (segment_spec u) as (w & v & Ew & -> & Hw & Hv). rewrite Ew.
    destruct g as [s|name]; cbn [segsRe RegExp.run]; unfold runCls; cbn [rest inCls]; rewrite same_slash; destruct (c =? slash); try done;
      unfold over; cbn [rest tail pos caps].
    + simpl in Hg. assert (Forall (λ c, c ≠ slash) s) as Hs by (eapply Forall_impl; [apply Hg|]; by intros x (? & _)%litUnit_ne).
      rewrite run_lits. cbn [rest]. destruct (starts_segment s w v Hs Hv) as [-> Hle].
      destruct (starts s (w ++ v)); [|done]. specialize (Hle eq_refl). cbn [andb]. case_bool_decide as El.
      * rewrite IH. unfold adv. cbn [rest pos caps]. rewrite El, drop_app_length. destruct (specSegs fold ci gs v) as [[ws u]|] eqn:Es; [|done].
        f_equal. unfold reach. cbn [rest pos caps length]. apply specSegs_length in Es. rewrite length_app. f_equal. lia.
      * apply (bounded_inside _ (S p) m w v (length s) (Hb' n)); [done|lia].
    + rewrite run_word.
      * cbn [rest]. rewrite Ew. cbn [fst]. case_bool_decide as Hw0; [done|]. unfold adv. cbn [rest pos caps]. rewrite drop_app_length, IH. cbn [rest].
        destruct (specSegs fold ci gs v) as [[ws u]|] eqn:Es; [|done]. cbn [mbind option_bind fst snd]. f_equal. unfold reach. cbn [rest pos caps length setCaps].
        apply specSegs_length in Es. rewrite length_app. replace (S p + length w - S p)%nat with (length w) by lia. rewrite take_app_length. f_equal. lia.
      * intros y c' r Hr Hc'. by eapply (Hb' (S n)).
Qed.

(** *** The end of a pattern *)

(** A continuation that needs the end. *)
Definition final (go : At → option At) : Prop := ∀ x, rest x ≠ [] → go x = None.

Lemma final_eol go : final (λ y, run toEol y go).
Proof. intros x Hx. unfold toEol. cbn [RegExp.run]. by rewrite bool_decide_false. Qed.

Lemma runMany_final k u x go : final go → rest x = u → runMany fold ci k u x go = if forallb (inCls fold ci k) u then go (adv x (length u)) else None.
Proof.
  intros Hf. revert x. induction u as [|c u IH]; intros x Hx; [simpl; by rewrite adv_0|]. cbn [runMany forallb length].
  destruct (inCls fold ci k c); cbn [andb]; [|by apply Hf; rewrite Hx].
  rewrite IH by (unfold over; cbn [rest]; by rewrite Hx). rewrite (Hf x) by (by rewrite Hx). rewrite adv_over. destruct (forallb _ u); [by destruct (go _)|done].
Qed.

Lemma all_slashes u : forallb (inCls fold ci (CChar slash)) u = bool_decide (dropSlashes u = []).
Proof.
  induction u as [|c u IH]; [done|]. cbn [forallb inCls dropSlashes]. rewrite same_slash. destruct (c =? slash); [done|]. by rewrite bool_decide_false.
Qed.

Lemma run_slashes x go : run (Seq (Many false (CChar slash)) toEol) x go =
  if bool_decide (dropSlashes (rest x) = []) then run toEol (adv x (length (rest x))) go else None.
Proof.
  change (runMany fold ci (CChar slash) (rest x) x (λ y, run toEol y go) = if bool_decide (dropSlashes (rest x) = []) then run toEol (adv x (length (rest x))) go else None).
  rewrite runMany_final; [|apply final_eol|done]. by rewrite all_slashes.
Qed.

Lemma run_eol x go : run toEol (adv x (length (rest x))) go = go (adv x (length (rest x))).
Proof. unfold toEol. cbn [RegExp.run]. unfold adv. cbn [rest]. by rewrite drop_all. Qed.

(** Where the matcher ends. *)
Definition done_ (x : At) (n : nat) (y : jstr * jstr) : At :=
  {| pos := pos x + length y.2; rest := drop (length y.2) (rest x); caps := if bool_decide (y.1 = []) then caps x else <[n := y.1]> (caps x) |}.

Definition edge (u : jstr) : Prop := match u with c :: _ => c = slash | [] => True end.

Lemma bounded_tail n g gs splat isEnd : bounded (λ y, run (tailRe n (g :: gs) splat isEnd) y Some).
Proof.
  intros [p u m] c r Hr Hc. cbn [rest] in Hr. subst u. assert ((c =? slash) = false) as Hs by lia.
  unfold tailRe, toEol. destruct splat, isEnd; cbn [RegExp.run rest runMany]; unfold runCls; cbn [rest inCls]; rewrite ?same_slash, ?Hs; done.
Qed.

Lemma run_splat n x : edge (rest x) → run (tailRe n [Par []] true true) x Some = done_ x n <$> specTail false true true (rest x).
Proof.
  destruct x as [p u m]. cbn [rest]. intros He. unfold specTail. unfold tailRe. 
  change (match run (Seq (Cls (CChar slash)) (Seq (Cap n (Seq (Many true CDot) Eps)) Eps)) {| pos := p; rest := u; caps := m |} (λ y, run toEol y Some) with
    | Some y => Some y | None => run (Seq (Many false (CChar slash)) toEol) {| pos := p; rest := u; caps := m |} Some end = 
    done_ {| pos := p; rest := u; caps := m |} n <$> (if bool_decide (dropSlashes u = []) && bool_decide (length u <= 1)%nat then Some ([], u)
      else if forallb (λ c, negb (isTerminator c)) (tail u) then Some (tail u, u) else None)).
  rewrite run_slashes, run_eol. cbn [rest].
  destruct u as [|c u]; [simpl; unfold done_, adv; simpl; done|]. simpl in He. subst c. cbn [RegExp.run]. unfold runCls at 1. cbn [rest inCls]. rewrite same_slash.
  simpl (slash =? slash). cbn iota. unfold over. cbn [rest tail pos caps]. destruct u as [|d u].
  - simpl. unfold done_, adv. simpl. done.
  - unfold runCls. cbn [rest inCls]. cbn [dropSlashes]. simpl (slash =? slash). cbn iota. rewrite (bool_decide_false (length (slash :: d :: u) <= 1)%nat) by (simpl; lia).
    rewrite andb_false_r. cbn [forallb].
    destruct (negb (isTerminator d)) eqn:Ed; cbn [andb].
    + unfold over. cbn [rest tail pos caps]. rewrite runMany_final; [|by intros y Hy; unfold toEol; cbn [RegExp.run rest]; rewrite bool_decide_false|done].
      unfold adv. cbn [rest pos caps]. rewrite drop_all. change (forallb (inCls fold ci CDot) u) with (forallb (λ c, negb (isTerminator c)) u).
      destruct (forallb _ u) eqn:Eu.
      * cbn [toEol RegExp.run rest]. rewrite bool_decide_true by done. unfold done_. cbn [fmap option_fmap option_map fst snd rest pos caps length drop].
        rewrite bool_decide_false by done. rewrite drop_all. replace (S (S p) + length u - S p)%nat with (length (d :: u)) by (simpl; lia).
        rewrite firstn_all. do 2 f_equal. lia.
      * case_bool_decide as Hd; [|done]. exfalso. assert (forallb (λ c, negb (isTerminator c)) u = true); [|congruence].
        destruct (Z.eqb_spec d slash); [|done]. clear -Hd. induction u as [|c u IH]; [done|]. simpl in *. destruct (Z.eqb_spec c slash) as [->|]; [|done]. by apply IH.
    + case_bool_decide as Hd; [|done]. exfalso. destruct (Z.eqb_spec d slash) as [->|]; [done|done].
Qed.

Lemma run_tail n g gs splat isEnd x : edge (rest x) → run (tailRe n (g :: gs) splat isEnd) x Some = done_ x n <$> specTail false splat isEnd (rest x).
Proof.
  intros He. destruct splat; [exact (run_splat n x He)|]. unfold tailRe, specTail. destruct isEnd.
  - rewrite run_slashes. case_bool_decide; [|done]. rewrite run_eol. unfold adv, done_. done.
  - destruct x as [p [|c u] m]; cbn [RegExp.run]; unfold runCls; cbn [rest] in *.
    + unfold done_. simpl. by rewrite Nat.add_0_r.
    + simpl in He. subst c. cbn [inCls]. rewrite same_slash. simpl. unfold done_. simpl. by rewrite Nat.add_0_r.
Qed.

Lemma run_root_tail n splat isEnd x : run (tailRe n [] splat isEnd) x Some =
  (λ y, let z := done_ x n y in if splat then {| pos := pos z; rest := rest z; caps := <[n := y.1]> (caps x) |} else z) <$> specTail true splat isEnd (rest x).
Proof.
  unfold tailRe, specTail. destruct splat; [|destruct isEnd].
  - change (runMany fold ci CDot (rest x) x (λ y, run toEol {| pos := pos y; rest := rest y; caps := <[n := take (pos y - pos x) (rest x)]> (caps y) |} Some) = 
      (λ y, {| pos := pos (done_ x n y); rest := rest (done_ x n y); caps := <[n := y.1]> (caps x) |}) <$> (if forallb (λ c, negb (isTerminator c)) (rest x) then Some (rest x, rest x) else None)).
    rewrite runMany_final; [|by intros y Hy; unfold toEol; cbn [RegExp.run rest]; rewrite bool_decide_false|done].
    change (forallb (inCls fold ci CDot) (rest x)) with (forallb (λ c, negb (isTerminator c)) (rest x)). destruct (forallb _ _); [|done].
    unfold adv, toEol. cbn [RegExp.run rest pos caps]. rewrite drop_all, bool_decide_true by done. cbn [fmap option_fmap option_map]. unfold done_. cbn [rest pos caps fst snd].
    rewrite drop_all. replace (pos x + length (rest x) - pos x)%nat with (length (rest x)) by lia. by rewrite firstn_all.
  - rewrite run_slashes. case_bool_decide; [|done]. rewrite run_eol. unfold adv, done_. done.
  - cbn [RegExp.run fmap option_fmap option_map]. unfold done_. cbn [fst snd length drop]. rewrite bool_decide_true by done. rewrite Nat.add_0_r. by destruct x.
Qed.

Lemma specSegs_edge gs t ws u : gs ≠ [] → specSegs fold ci gs t = Some (ws, u) → edge u.
Proof.
  intros Hne. revert t ws. induction gs as [|g gs IH]; [done|]; intros t ws. cbn [specSegs]. destruct t as [|c t]; [done|]. destruct (c =? slash); [|done].
  destruct (segment_spec t) as (w & v & -> & _ & _ & Hv). destruct (decide (gs = [])) as [->|Hgs].
  - destruct g; [destruct (sameText fold ci s w)|case_bool_decide]; try done; by intros [= _ <-].
  - specialize (IH Hgs). destruct g as [s|n].
    + destruct (sameText fold ci s w); [|done]. apply IH.
    + case_bool_decide; [done|]. destruct (specSegs fold ci gs v) as [[ws' u']|] eqn:E; [|done]. intros [= _ <-]. by eapply IH.
Qed.

(** The captures of a match. *)
Definition capsOf (gs : list seg) (splat : bool) (ws : list jstr) (v : jstr) : gmap nat jstr :=
  let m := setCaps 1 ws ∅ in
  if splat && bool_decide (gs = []) then <[1%nat := v]> m
  else if bool_decide (v = []) then m else <[(1 + length (parsOf gs))%nat := v]> m.

(** The expression of a pattern matches what the segments say. *)
Lemma matchStart_pat gs splat isEnd t : Forall segOk gs →
  matchStart fold ci (patRe gs splat isEnd) t = (λ y, (y.2, capsOf gs splat y.1.1 y.1.2)) <$> specMatch fold ci gs splat isEnd t.
Proof.
  intros Hok. unfold matchStart, patRe, specMatch. cbn [RegExp.run pos Nat.eqb]. destruct (decide (gs = [])) as [->|Hne].
  - cbn [baseRe RegExp.run]. unfold runCls. cbn [rest]. destruct t as [|c t]; [done|]. cbn [inCls]. rewrite same_slash. destruct (c =? slash); [|done].
    unfold over. cbn [pos rest caps tail]. rewrite run_root_tail. cbn [rest mbind option_bind fst snd length]. rewrite (bool_decide_true ([] = [])) by done.
    destruct (specTail true splat isEnd t) as [[v w]|] eqn:Es; [|done]. cbn [fmap option_fmap option_map fst snd mbind option_bind]. unfold capsOf, done_. cbn [pos rest caps fst snd].
    rewrite (bool_decide_true ([] = [])) by done. replace (S (length t) - length t + length w)%nat with (1 + length w)%nat by lia. by destruct splat.
  - assert (∀ k, baseRe gs k = segsRe 1 gs k) as -> by by destruct gs. rewrite run_segs by (done || (destruct gs; [done|apply bounded_tail])).
    cbn [rest]. rewrite (bool_decide_false (gs = [])) by done.
    replace (match gs with [] => _ | _ => specSegs fold ci gs t end) with (specSegs fold ci gs t) by by destruct gs.
    destruct (specSegs fold ci gs t) as [[ws u]|] eqn:Es; [|done]. cbn [mbind option_bind fst snd].
    assert (edge u) as He by by eapply specSegs_edge. destruct gs as [|g gs]; [done|]. rewrite run_tail by done. unfold reach. cbn [rest pos caps].
    destruct (specTail false splat isEnd u) as [[v w]|]; [|done]. unfold capsOf, done_. cbn [fmap option_fmap option_map fst snd pos rest caps mbind option_bind].
    rewrite (bool_decide_false (g :: gs = [])) by done. by rewrite andb_false_r.
Qed.

(** ** The match of a pattern *)

Definition names (gs : list seg) : list jstr := omap (λ g, match g with Lit _ => None | Par n => Some n end) gs.

Definition setParams (ns ws : list jstr) (e : gmap jstr (option jstr)) : gmap jstr (option jstr) :=
  foldl (λ e x, <[x.1 := Some (slashesBack x.2)]> e) e (zip ns ws).

(** What [KM] answers: the values with their names, the text matched, and the text before
    the splat without slashes at its end. *)
Definition specKM (gs : list seg) (splat isEnd : bool) (t : jstr) : option PathMatch :=
  (λ y, let '(ws, v, a) := y in
        if splat then {| matchParams := <[runes "*" := Some (slashesBack v)]> (setParams (names gs) ws ∅); matchPathname := a;
                         matchBase := trimEnd (take (length a - length v) a) |}
        else {| matchParams := setParams (names gs) ws ∅; matchPathname := a; matchBase := trimEnd a |})
  <$> specMatch fold ci gs splat isEnd t.

Lemma setCaps_lookup n ws m j : setCaps n ws m !! j = if bool_decide (n <= j)%nat then match ws !! (j - n)%nat with Some w => Some w | None => m !! j end else m !! j.
Proof.
  revert n m. induction ws as [|w ws IH]; intros n m; [simpl; by case_bool_decide|]. cbn [setCaps]. rewrite IH.
  destruct (decide (j = n)) as [->|Hj].
  - rewrite bool_decide_false by lia. rewrite bool_decide_true, Nat.sub_diag by lia. simpl. by rewrite lookup_insert_eq.
  - rewrite lookup_insert_ne by done. case_bool_decide.
    + rewrite (bool_decide_true (n <= j)%nat) by lia. by replace (j - n)%nat with (S (j - S n)) by lia.
    + by rewrite bool_decide_false by lia.
Qed.

Lemma specSegs_values gs t ws u : specSegs fold ci gs t = Some (ws, u) → length ws = length (parsOf gs).
Proof.
  revert t ws. induction gs as [|g gs IH]; intros t ws; cbn [specSegs]; [by intros [= <- _]|]. destruct t as [|c t]; [done|]. destruct (c =? slash); [|done].
  destruct (segment t) as [w v]. destruct g as [s|n].
  - destruct (sameText fold ci s w); [|done]. apply IH.
  - case_bool_decide; [done|]. destruct (specSegs fold ci gs v) as [[ws' u']|] eqn:E; [|done]. intros [= <- <-]. apply IH in E.
    change (S (length ws') = S (length (parsOf gs))). by rewrite E.
Qed.

Lemma parsOf_names gs : parsOf gs = map (λ n, {| paramName := n; isOptional := false |}) (names gs).
Proof. unfold parsOf, names. induction gs as [|[s|n] gs IH]; [done|exact IH|]. cbn [omap list_omap map]. by f_equal. Qed.

Lemma foldl_params a caps ns ws k e o : length ws = length ns → runes "*" ∉ ns →
  (∀ i w, ws !! i = Some w → caps !! (k + i)%nat = Some w) →
  foldl (addParam a caps) (e, o, k) (map (λ n, {| paramName := n; isOptional := false |}) ns) = (setParams ns ws e, o, (k + length ns)%nat).
Proof.
  revert ws k e. induction ns as [|n ns IH]; intros ws k e Hl Hs Hc; destruct ws as [|w ws]; try done; [simpl; by rewrite Nat.add_0_r|].
  apply not_elem_of_cons in Hs as [Hn Hs]. cbn [map foldl addParam paramName isOptional andb]. rewrite bool_decide_false by done.
  assert (caps !! k = Some w) as -> by (rewrite <- (Nat.add_0_r k); by apply Hc). cbn [default]. rewrite (IH ws (S k)); [|by simplify_eq/=|done|].
  - unfold setParams. cbn [zip zip_with foldl fst snd length]. by rewrite Nat.add_succ_comm.
  - intros i w' Hi. rewrite Nat.add_succ_comm. by apply Hc.
Qed.

Lemma names_plain gs : Forall segOk gs → runes "*" ∉ names gs.
Proof.
  intros Hok Hin. apply list_elem_of_omap in Hin as ([s|n] & Hg & [= ->]). rewrite Forall_forall in Hok. destruct (Hok _ Hg) as [[Hw _]%Forall_cons _]. done.
Qed.

Lemma capsOf_values gs splat ws v i w : length ws = length (parsOf gs) → ws !! i = Some w → capsOf gs splat ws v !! (1 + i)%nat = Some w.
Proof.
  intros Hl Hi. assert (setCaps 1 ws ∅ !! (1 + i)%nat = Some w) as E.
  { rewrite setCaps_lookup, bool_decide_true by lia. replace (1 + i - 1)%nat with i by lia. by rewrite Hi. }
  apply lookup_lt_Some in Hi. unfold capsOf. destruct (splat && bool_decide (gs = [])) eqn:Hb.
  - apply andb_true_iff in Hb as [_ ->%bool_decide_eq_true]. simpl in Hl. lia.
  - destruct (bool_decide (v = [])); [exact E|]. rewrite lookup_insert_ne by lia. exact E.
Qed.

Lemma capsOf_splat gs ws v : length ws = length (parsOf gs) → default [] (capsOf gs true ws v !! (1 + length (parsOf gs))%nat) = v.
Proof.
  intros Hl. unfold capsOf. cbn [andb]. case_bool_decide as Hg; [subst gs; simpl; by rewrite lookup_insert_eq|].
  case_bool_decide as Hv; [|by rewrite lookup_insert_eq]. subst v. rewrite setCaps_lookup, bool_decide_true by lia.
  rewrite lookup_ge_None_2 by lia. by rewrite lookup_empty.
Qed.

Lemma specMatch_values gs splat isEnd t ws v a : specMatch fold ci gs splat isEnd t = Some (ws, v, a) → length ws = length (parsOf gs).
Proof.
  unfold specMatch. intros H. destruct gs as [|g gs].
  - destruct t as [|c t]; [done|]. destruct (c =? slash); [|done]. simpl in H. destruct (specTail _ _ _ t) as [[]|]; [|done]. by simplify_eq/=.
  - destruct (specSegs fold ci (g :: gs) t) as [[ws' u]|] eqn:E; [|done]. simpl in H. destruct (specTail _ _ _ u) as [[]|]; [|done]. cbn [mbind option_bind fst snd] in H.
    injection H as <- _ _. by eapply specSegs_values in E.
Qed.

Lemma KM_spec absolute gs splat isEnd t : Forall segOk gs →
  KM fold (patText absolute gs splat) (negb ci) isEnd t = Some (specKM gs splat isEnd t).
Proof.
  intros Hok. unfold KM, specKM. rewrite tJe_pat by done. rewrite pattern_parsed by done. cbn [mbind option_bind]. rewrite negb_involutive, matchStart_pat by done.
  destruct (specMatch fold ci gs splat isEnd t) as [[[ws v] a]|] eqn:E; [|done]. apply specMatch_values in E. cbn [fmap option_fmap option_map fst snd].
  rewrite foldl_app, parsOf_names. rewrite (foldl_params a _ (names gs) ws); [|by rewrite E, parsOf_names, length_map|by apply names_plain|intros i w; by apply capsOf_values].
  destruct splat; [|done]. cbn [foldl addParam paramName isOptional andb]. rewrite bool_decide_true by done.
  assert ((1 + length (names gs))%nat = (1 + length (parsOf gs))%nat) as -> by (by rewrite parsOf_names, length_map). by rewrite capsOf_splat.
Qed.

End run.
