(* ===== verification/RouterRank.v ===== *)
(** * Which branch of a route table matches

    The branches of a table without optional segments come in the order of declaration, so
    that the comparison of [Wqe], which is not transitive on every table, ranks them by score
    alone: the first branch that matches is the first declared one of the best score. *)

From Stdlib Require Import ZArith Lia Sorted.
From stdpp Require Import base numbers strings gmap option list.
From S2P Require Import Prelude Js UiStreams Json TurboWire RegExp Router RouterMatch.

Open Scope Z_scope.

#[local] Abbreviation slash := 47.

(** ** Ranks *)

Section rank.
Context (p : Branch → bool).

(** One pass that keeps the best branch so far. *)
Definition better (acc : option Branch) (x : Branch) : option Branch :=
  if p x then match acc with Some b => if score b <? score x then Some x else acc | None => Some x end else acc.

Definition bestOf (l : list Branch) : option Branch := foldl better None l.

(** [bestOf] keeps the first of the branches with the best score. *)
Lemma bestOf_spec l :
  match bestOf l with
  | None => Forall (λ x, p x = false) l
  | Some b => ∃ l1 l2, l = l1 ++ b :: l2 ∧ p b = true ∧
      Forall (λ x, p x = false ∨ score x < score b) l1 ∧ Forall (λ x, p x = false ∨ score x <= score b) l2
  end.
Proof.
  induction l as [|x l IH] using rev_ind; [constructor|]. unfold bestOf in *. rewrite foldl_snoc. set (acc := foldl better None l) in *. unfold better at 1.
  destruct (p x) eqn:Hx.
  - destruct acc as [b|]; [|exists l, []; split_and!; [done|done| |constructor]; eapply Forall_impl; [exact IH|]; by left].
    destruct IH as (l1 & l2 & -> & Hb & H1 & H2). destruct (Z.ltb_spec (score b) (score x)).
    + exists (l1 ++ b :: l2), []. split_and!; [done|done| |constructor]. apply Forall_app. split; [|constructor; [by right|]];
        eapply Forall_impl; eauto; intros y [?|?]; [by left|right; lia..|by left|right; lia].
    + exists l1, (l2 ++ [x]). split_and!; [by rewrite <- app_assoc|done|done|]. apply Forall_app. split; [done|]. constructor; [by right|constructor].
  - destruct acc as [b|]; [|apply Forall_app; split; [done|by constructor]]. destruct IH as (l1 & l2 & -> & Hb & H1 & H2).
    exists l1, (l2 ++ [x]). split_and!; [by rewrite <- app_assoc|done|done|]. apply Forall_app. split; [done|]. constructor; [by left|constructor].
Qed.

Fixpoint find (l : list Branch) : option Branch := match l with [] => None | x :: l => if p x then Some x else find l end.

Lemma find_in l b : find l = Some b → b ∈ l.
Proof. induction l as [|x l IH]; [done|]. simpl. destruct (p x); [intros [= ->]; left|right; auto]. Qed.

(** An element put before the first one of a lower score, among those of scores that fall. *)
Lemma find_insert x s : Forall (λ y, 0 <= GM (indexes x) (indexes y)) s → StronglySorted (λ a b, score b <= score a) s →
  find (insertBranch x s) = better (find s) x ∧ StronglySorted (λ a b, score b <= score a) (insertBranch x s) ∧ insertBranch x s ≡ₚ x :: s.
Proof.
  intros Hx Hs. induction Hs as [|y s Hs IH Hy]; [split_and!; [done|repeat constructor|done]|]. apply Forall_cons in Hx as [Hxy Hx]. specialize (IH Hx) as (E & IH & Hp).
  cbn [insertBranch]. unfold compareBranches. assert (((if score x =? score y then GM (indexes x) (indexes y) else score y - score x) <? 0) = (score y <? score x)) as ->.
  { destruct (Z.eqb_spec (score x) (score y)) as [Exy|]; lia. }
  destruct (Z.ltb_spec (score y) (score x)) as [Hlt|Hge].
  - split_and!; [|constructor; [by constructor|constructor; [lia|eapply Forall_impl; [exact Hy|]; simpl; lia]]|done].
    unfold better. cbn [find]. destruct (p x); [|done]. destruct (p y); [by rewrite (proj2 (Z.ltb_lt _ _))|].
    destruct (find s) as [b|] eqn:Ef; [|done]. apply find_in in Ef. rewrite Forall_forall in Hy. specialize (Hy _ Ef). by rewrite (proj2 (Z.ltb_lt _ _)) by lia.
  - split_and!.
    + cbn [find]. unfold better in E |- *. destruct (p y); [|done]. destruct (p x); [|done]. by rewrite (proj2 (Z.ltb_ge _ _)) by lia.
    + constructor; [done|]. rewrite Hp. constructor; [lia|done].
    + rewrite Hp. apply Permutation_swap.
Qed.

(** Siblings are in the order of their indexes. *)
Definition declared (a b : Branch) : Prop := GM (indexes a) (indexes b) <= 0.

Lemma GM_opp a b : GM b a = - GM a b.
Proof.
  unfold GM. repeat case_bool_decide; cbn [andb]; try lia; exfalso; congruence.
Qed.

Lemma find_sorted l : StronglySorted declared l →
  find (Wqe l) = bestOf l ∧ StronglySorted (λ a b, score b <= score a) (Wqe l) ∧ Wqe l ≡ₚ l.
Proof.
  intros Hl.
  induction l as [|x l IH] using rev_ind; [split_and!; [done|constructor|done]|]. unfold Wqe, bestOf in *. rewrite !foldl_snoc.
  assert (StronglySorted declared l ∧ Forall (λ y, declared y x) l) as [Hl' Hx].
  { clear IH. induction l as [|y l IH]; [split; constructor|]. apply StronglySorted_inv in Hl as [Hl Hy]. apply Forall_app in Hy as [Hy Hyx].
    destruct (IH Hl) as [H1 H2]. split; constructor; try done. by apply Forall_cons in Hyx as [? _]. }
  destruct (IH Hl') as (E & Hs & Hp). destruct (find_insert x (foldl (λ s x, insertBranch x s) [] l)) as (E' & Hs' & Hp'); [|done|].
  - rewrite Hp. eapply Forall_impl; [exact Hx|]. intros y Hy. unfold declared in Hy. rewrite (GM_opp (indexes y)). lia.
  - split_and!; [by rewrite E', E|done|]. rewrite Hp', Hp. apply Permutation_cons_append.
Qed.

End rank.

(** ** Route tables *)

(** A table without optional segments whose patterns are made of segments; only a route at
    the top may start with a slash, and an index has no children. *)
Inductive routeOk : bool → route → Prop :=
  | routeOk_intro top id path index cs children absolute gs splat :
      Forall segOk gs → default [] path = patText absolute gs splat → (absolute = true → top = true) →
      (index = true → children = []) → Forall (routeOk false) children →
      routeOk top (Route id path index cs children).

Lemma route_induction (P : bool → route → Prop) :
  (∀ top id path index cs children absolute gs splat, Forall segOk gs → default [] path = patText absolute gs splat → (absolute = true → top = true) →
     (index = true → children = []) → Forall (P false) children → P top (Route id path index cs children)) →
  ∀ top r, routeOk top r → P top r.
Proof.
  intros H. fix IH 3. intros top r Hr. destruct Hr as [top id path index cs children absolute gs splat H1 H2 H3 H4 H5].
  eapply H; eauto. clear H4. induction H5 as [|c children Hc _ IHc]; constructor; [by apply IH|done].
Qed.

(** A pattern in a branch. *)
Definition metaOk (m : Meta) : Prop := ∃ absolute gs splat, Forall segOk gs ∧ relativePath m = patText absolute gs splat.

Lemma seg_units g : segOk g → 63 ∉ segText g.
Proof. intros [H _]%segText_plain Hin. rewrite Forall_forall in H. by destruct (litUnit_ne 63 (H _ Hin)) as (_ & ? & _). Qed.

Lemma patText_units absolute gs splat : Forall segOk gs → 63 ∉ patText absolute gs splat.
Proof.
  intros Hok. assert (63 ∉ slashed gs) as Hs.
  { unfold slashed. induction Hok as [|g gs Hg _ IH]; [apply not_elem_of_nil|]. cbn [mbind list_bind]. rewrite not_elem_of_app, not_elem_of_cons.
    split; [|exact IH]. split; [done|by apply seg_units]. }
  destruct (decide (gs = [])) as [->|Hne]; [by destruct absolute, splat; apply (bool_decide_unpack _); vm_compute|].
  assert (63 ∉ patText absolute gs false) as H.
  { rewrite patText_slashed by done. destruct absolute; [done|]. intros Hin. apply Hs. destruct (slashed gs); [done|]. by right. }
  destruct splat; [|done]. rewrite patText_splat by done. rewrite not_elem_of_app. split; [done|]. by apply (bool_decide_unpack _); vm_compute.
Qed.

Lemma relative_start gs splat : Forall segOk gs → startsWith [slash] (patText false gs splat) = false.
Proof.
  intros Hok. destruct (decide (gs = [])) as [->|Hne]; [by destruct splat|]. destruct (slashed_first gs Hne Hok) as (c & s & E & Hc).
  assert (patText false gs false = c :: s) as H by (rewrite patText_slashed by done; by rewrite E).
  destruct splat; rewrite ?patText_splat, H by done; cbn [app startsWith]; by replace (slash =? c) with false by lia.
Qed.

Lemma descend_ext e k o s n r f g : (∀ u l o, f u l o = g u l o) → descend e k o s n r f = descend e k o s n r g.
Proof. intros H. unfold descend. by rewrite H. Qed.

(** The branches of a route from those of its children. *)
Lemma branchesOf_children e k n r i :
  branchesOf e k n r i = concatM (λ x, descend e k x.1 x.2 n r (branchesAll 0 (routeChildren e))) (variants e i).
Proof.
  destruct e as [id p ix cs ch]. cbn [branchesOf routeChildren]. induction (variants (Route id p ix cs ch) i) as [|x l IH]; [done|].
  cbn [concatM]. rewrite IH. f_equal. apply descend_ext. intros u r' o. generalize 0%nat as j. clear.
  induction ch as [|c ch IH]; intros j; [done|]. cbn [branchesAll]. by rewrite IH.
Qed.

Lemma variants_plain id path index cs children absolute gs splat i : Forall segOk gs → default [] path = patText absolute gs splat →
  variants (Route id path index cs children) i = [(i, None)].
Proof.
  intros Hgs E. unfold variants. cbn [routePath]. destruct path as [[|c p]|]; [done| |done].
  destruct (includes (runes "?") (c :: p)) eqn:Hi; [|done]. apply (includes_elem 63) in Hi. simpl in E. rewrite E in Hi. by apply patText_units in Hi.
Qed.

Lemma GM_siblings P j k q1 q2 : (j < k)%nat → GM (P ++ j :: q1) (P ++ k :: q2) <= 0.
Proof.
  intros Hjk. unfold GM. case_bool_decide as Hl; [|done]. case_bool_decide as Hr; [|done]. cbn [andb]. rewrite !length_app in Hl. simpl in Hl.
  rewrite !removelast_app in Hr by done. apply app_inv_head in Hr. destruct q1 as [|x q1].
  - destruct q2; [|simpl in Hl; lia]. rewrite !List.last_last. lia.
  - destruct q2; [simpl in Hl; lia|]. change (j :: removelast (x :: q1) = k :: removelast (n :: q2)) in Hr. simplify_eq. lia.
Qed.

Lemma GM_above P q x : q ≠ [] → GM ((P ++ [x]) ++ q) (P ++ [x]) <= 0.
Proof. intros Hq. unfold GM. rewrite bool_decide_false; [done|]. rewrite !length_app. destruct q; [done|]. simpl. lia. Qed.

Lemma sorted_app (l1 l2 : list Branch) : StronglySorted declared l1 → StronglySorted declared l2 → (∀ a b, a ∈ l1 → b ∈ l2 → declared a b) → StronglySorted declared (l1 ++ l2).
Proof.
  intros H1 H2 H. induction H1 as [|a l1 H1 IH Ha]; [done|]. cbn [app]. constructor; [apply IH; intros; apply H; [by right|done]|].
  apply Forall_app. split; [done|]. apply Forall_forall. intros b Hb. apply H; [left|done].
Qed.

(** What the branches below the routes [n] are: in the order of declaration, and made of
    patterns; the next index fulfils [K]. *)
Definition branchesOk (n : list Meta) (K : nat → Prop) (bs : list Branch) : Prop :=
  StronglySorted declared bs ∧ Forall (λ b, Forall metaOk (routesMeta b) ∧ ∃ k q, K k ∧ indexes b = map childrenIndex n ++ k :: q) bs.

Lemma branchesOk_all l n r (P : route → Prop) j :
  (∀ e k, P e → ∃ bs, branchesOf e k n r false = Some bs ∧ branchesOk n (eq k) bs) → Forall P l →
  ∃ bs, branchesAll j l n r false = Some bs ∧ branchesOk n (λ k, j <= k)%nat bs.
Proof.
  intros H Hl. revert j. induction Hl as [|e l He _ IH]; intros j; [exists []; repeat constructor|]. cbn [branchesAll].
  destruct (H e j He) as (bs & -> & Hs & Hb). destruct (IH (S j)) as (bs' & -> & Hs' & Hb'). exists (bs ++ bs'). split; [done|]. rewrite Forall_forall in Hb, Hb'. split.
  - apply sorted_app; [done|done|]. intros a b [_ (k & q & <- & Ea)]%Hb [_ (k' & q' & Hk & Eb)]%Hb'. unfold declared. rewrite Ea, Eb. apply GM_siblings. lia.
  - apply Forall_forall. intros b [[Hm (k & q & <- & Ea)]%Hb|[Hm (k & q & Hk & Ea)]%Hb']%elem_of_app; (split; [done|]); eexists _, q; (split; [|exact Ea]); lia.
Qed.

Lemma branchesOk_route top e : routeOk top e → ∀ k n r, Forall metaOk n → (top = true → r = []) →
  ∃ bs, branchesOf e k n r false = Some bs ∧ branchesOk n (eq k) bs.
Proof.
  induction 1 as [top id path index cs children absolute gs splat Hgs E Ht Hi Hch] using route_induction. intros k n r Hn Hr.
  rewrite branchesOf_children, (variants_plain _ _ _ _ _ _ _ _ _ Hgs E). cbn [concatM fst snd]. unfold descend. cbn [routePath routeChildren routeIndex routeCase]. rewrite E.
  set (p := patText absolute gs splat). set (m := {| relativePath := _; metaCase := _; childrenIndex := _; metaRoute := _ |}).
  assert (relativePath m = p ∧ (startsWith [slash] p && negb (startsWith r p)) = false) as [Em ->].
  { unfold m. cbn [relativePath]. subst p. destruct absolute; [rewrite Hr by by apply Ht|by rewrite relative_start].
    split; [by destruct (startsWith _ _)|]. by rewrite andb_false_r. }
  assert (metaOk m) as Hm by (by exists absolute, gs, splat). rewrite Em.
  replace (bool_decide (children ≠ []) && index) with false by (destruct index; [by rewrite Hi|by rewrite andb_false_r]).
  assert (Forall metaOk (n ++ [m])) as Hn' by (apply Forall_app; split; [done|by constructor]).
  destruct (branchesOk_all children (n ++ [m]) (QM [r; p]) (λ e, ∀ k, ∃ bs, branchesOf e k (n ++ [m]) (QM [r; p]) false = Some bs ∧ branchesOk (n ++ [m]) (eq k) bs) 0)
    as (bs & -> & Hs & Hb); [done|eapply Forall_impl; [exact Hch|]; intros e He k'; by apply He|].
  cbn [mbind option_bind]. rewrite app_nil_r. eexists. split; [done|]. assert (map childrenIndex (n ++ [m]) = map childrenIndex n ++ [k]) as Ek by (by rewrite map_app).
  rewrite Ek in Hb. rewrite Forall_forall in Hb. split.
  - apply sorted_app; [done|destruct (_ && _); repeat constructor|]. intros a b [_ (k' & q & _ & Ea)]%Hb Hin. unfold declared. rewrite Ea.
    destruct (_ && _); [by apply elem_of_nil in Hin|]. apply list_elem_of_singleton in Hin as ->. unfold indexes at 1. cbn [routesMeta]. rewrite Ek. by apply GM_above.
  - apply Forall_app. split; [|destruct (_ && _); repeat constructor; [done|]].
    + apply Forall_forall. intros b [Hmb (k' & q & _ & Ea)]%Hb. split; [done|]. exists k, (k' :: q). split; [done|]. by rewrite Ea, <- app_assoc.
    + exists k, []. unfold indexes. cbn [routesMeta]. by rewrite Ek.
Qed.

Lemma table_branches l : Forall (routeOk true) l → ∃ bs, WM l = Some bs ∧ StronglySorted declared bs ∧ Forall (λ b, Forall metaOk (routesMeta b)) bs.
Proof.
  intros Hl. unfold WM. destruct (branchesOk_all l [] [] (routeOk true) 0) as (bs & -> & Hs & Hb); [|done|].
  - intros e k He. by eapply branchesOk_route.
  - exists bs. split_and!; [done|done|]. eapply Forall_impl; [exact Hb|]. by intros b [? _].
Qed.

(** ** The match of a location *)

Section matching.
Context (fold : Z → Z) `{!Folding fold} (toLower : jstr → jstr).

(** The patterns of a branch compile. *)
Lemma matchMetas_total l t a i : Forall metaOk l → is_Some (matchMetas fold l t a i).
Proof.
  intros Hl. revert a i. induction Hl as [|m l (absolute & gs & splat & Hgs & E) _ IH]; intros a i; [done|]. cbn [matchMetas]. rewrite E.
  rewrite <- (negb_involutive (metaCase m)), KM_spec by done. cbn [mbind option_bind]. destruct (specKM _ _ _ _ _ _) as [u|]; [|done].
  destruct (IH (if bool_decide (matchBase u = [slash]) then a else QM [a; matchBase u]) (matchParams u ∪ i)) as [x ->]. cbn [mbind option_bind].
  by destruct x as [[]|].
Qed.

(** The branch matches the path. *)
Definition matches (t : jstr) (b : Branch) : bool := match matchBranch fold b t with Some (Some _) => true | _ => false end.

Lemma firstMatch_find l i : Forall (λ b, Forall metaOk (routesMeta b)) l →
  firstMatch fold l i = Some (b ← find (matches (nJe i)) l; default None (matchBranch fold b (nJe i))).
Proof.
  induction 1 as [|b l Hb _ IH]; [done|]. cbn [firstMatch find]. unfold matches at 1. destruct (matchMetas_total _ (nJe i) [slash] ∅ Hb) as [o Ho].
  unfold matchBranch in *. rewrite Ho. cbn [mbind option_bind]. destruct o as [m|]; [|done]. cbn [mbind option_bind]. by rewrite Ho.
Qed.

End matching.
