(* ===== verification/RouterLink.v ===== *)
(** * Links and what they match

    A link made of a pattern and values ([eJe]) is decoded ([nJe]) and matched ([KM]) to the
    values it was made of. *)

From Stdlib Require Import ZArith Lia.
From stdpp Require Import base numbers strings gmap option list.
From S2P Require Import Prelude Js UiStreams Json TurboWire RegExp Router RouterMatch RouterRank.

Open Scope Z_scope.

#[local] Abbreviation slash := 47.

(** ** [encodeURIComponent] and [decodeURIComponent] *)

Lemma hexOf_digit n : 0 <= n < 16 → hexOf (Router.hexDigit n) = Some n.
Proof.
  intros Hn. unfold hexOf, Router.hexDigit. destruct (Z.ltb_spec n 10).
  - replace ((48 <=? 48 + n) && (48 + n <=? 57)) with true by lia. f_equal. lia.
  - replace ((48 <=? 55 + n) && (55 + n <=? 57)) with false by lia. replace ((65 <=? 55 + n) && (55 + n <=? 70)) with true by lia. f_equal. lia.
Qed.

Lemma percent_byte b r : 0 <= b < 256 → percent (percentByte b ++ r) = Some (b, r).
Proof.
  intros Hb. unfold percentByte, percent. cbn [app]. rewrite !hexOf_digit by (Z.div_mod_to_equations; lia). cbn [mbind option_bind]. do 2 f_equal. Z.div_mod_to_equations; lia.
Qed.

Lemma more_byte n c b r : 128 <= b < 192 → more (S n) c (percentByte b ++ r) = more n (64 * c + (b - 128)) r.
Proof.
  intros Hb. cbn [more]. rewrite percent_byte by lia. cbn [mbind option_bind fst snd]. by replace ((128 <=? b) && (b <? 192)) with true by lia.
Qed.

Lemma point_scalar lo c r : scalar c → lo <= c → point lo (c, r) = Some (Utf8.utf16 c, r).
Proof. unfold scalar, point. cbn [fst snd]. intros Hc Hl. by replace (_ && _ && _) with true by lia. Qed.

Lemma decodePoint_utf8 c r : scalar c → decodePoint ((utf8 c ≫= percentByte) ++ r) = Some (Utf8.utf16 c, r).
Proof.
  intros Hc. assert (0 <= c < 1114112) as Hr by (unfold scalar in Hc; lia). unfold utf8, decodePoint.
  destruct (Z.ltb_spec c 128); [|destruct (Z.ltb_spec c 2048); [|destruct (Z.ltb_spec c 65536)]]; cbn [mbind list_bind]; rewrite <- ?app_assoc, ?app_nil_l.
  - rewrite percent_byte by lia. cbn [mbind option_bind]. replace (c <? 128) with true by lia. unfold Utf8.utf16. by replace (c <? 65536) with true by lia.
  - rewrite percent_byte by (Z.div_mod_to_equations; lia). cbn [mbind option_bind]. assert (192 <= 192 + c / 64 < 224) as Hb by (Z.div_mod_to_equations; lia).
    repeat match goal with |- context [192 + c / 64 <? ?k] => first [replace (192 + c / 64 <? k) with false by lia | replace (192 + c / 64 <? k) with true by lia] end.
    rewrite more_byte by (Z.div_mod_to_equations; lia). cbn [more mbind option_bind].
    replace (64 * (192 + c / 64 - 192) + (128 + c mod 64 - 128)) with c by (Z.div_mod_to_equations; lia). by apply point_scalar.
  - rewrite percent_byte by (Z.div_mod_to_equations; lia). cbn [mbind option_bind]. assert (224 <= 224 + c / 4096 < 240) as Hb by (Z.div_mod_to_equations; lia).
    repeat match goal with |- context [224 + c / 4096 <? ?k] => first [replace (224 + c / 4096 <? k) with false by lia | replace (224 + c / 4096 <? k) with true by lia] end.
    rewrite !more_byte by (Z.div_mod_to_equations; lia). cbn [more mbind option_bind].
    replace (64 * (64 * (224 + c / 4096 - 224) + (128 + c / 64 mod 64 - 128)) + (128 + c mod 64 - 128)) with c by (Z.div_mod_to_equations; lia). by apply point_scalar.
  - rewrite percent_byte by (Z.div_mod_to_equations; lia). cbn [mbind option_bind]. assert (240 <= 240 + c / 262144 < 248) as Hb by (Z.div_mod_to_equations; lia).
    repeat match goal with |- context [240 + c / 262144 <? ?k] => first [replace (240 + c / 262144 <? k) with false by lia | replace (240 + c / 262144 <? k) with true by lia] end.
    rewrite !more_byte by (Z.div_mod_to_equations; lia). cbn [more mbind option_bind].
    replace (64 * (64 * (64 * (240 + c / 262144 - 240) + (128 + c / 4096 mod 64 - 128)) + (128 + c / 64 mod 64 - 128)) + (128 + c mod 64 - 128)) with c by (Z.div_mod_to_equations; lia). by apply point_scalar.
Qed.

Lemma encode_scalars cps : Forall scalar cps → encodeURIComponent (fromScalars cps) = Some (cps ≫= encodePoint).
Proof.
  induction 1 as [|c cps Hc _ IH]; [done|]. unfold fromScalars in *. cbn [mbind list_bind]. unfold Utf8.utf16 at 1. unfold scalar in Hc. destruct (Z.ltb_spec c 65536).
  - cbn [app encodeURIComponent]. replace (isLead c) with false by (unfold isLead; lia). replace (isTrail c) with false by (unfold isTrail; lia). cbn [mbind list_bind] in IH. by rewrite IH.
  - cbn [app encodeURIComponent]. replace (isLead _) with true by (unfold isLead; Z.div_mod_to_equations; lia).
    replace (isTrail _) with true by (unfold isTrail; Z.div_mod_to_equations; lia). cbn [mbind list_bind] in IH. rewrite IH. cbn [fmap option_fmap option_map].
    do 3 f_equal. Z.div_mod_to_equations; lia.
Qed.

Lemma encodePoint_unreserved c : isUnreserved c = true → 0 <= c < 128 ∧ c ≠ 37 ∧ c ≠ slash.
Proof.
  unfold isUnreserved, isAlnum. intros [H|H]%orb_true_iff; [lia|]. apply bool_decide_eq_true in H. cbv in H.
  repeat (apply elem_of_cons in H as [->|H]; [lia|]). by apply elem_of_nil in H.
Qed.

Lemma decodeFrom_mono f s x : decodeFrom f s = Some x → ∀ g, (f <= g)%nat → decodeFrom g s = Some x.
Proof.
  revert s x. induction f as [|f IH]; intros s x H g Hg; [destruct s; [by destruct g|done]|]. destruct g as [|g]; [lia|]. destruct s as [|c r]; [done|].
  cbn [decodeFrom] in *. destruct (c =? 37).
  - destruct (decodePoint (c :: r)) as [[a b]|]; [|done]. cbn [mbind option_bind fst snd] in *. destruct (decodeFrom f b) as [y|] eqn:E; [|done]. by rewrite (IH _ _ E) by lia.
  - destruct (decodeFrom f r) as [y|] eqn:E; [|done]. by rewrite (IH _ _ E) by lia.
Qed.

Lemma decodeFrom_point c r f x : scalar c → decodeFrom f r = Some x → decodeFrom (S f) (encodePoint c ++ r) = Some (Utf8.utf16 c ++ x).
Proof.
  intros Hc Hr. unfold encodePoint. destruct (isUnreserved c) eqn:Hu.
  - apply encodePoint_unreserved in Hu as (H1 & H2 & _). cbn [app decodeFrom]. replace (c =? 37) with false by lia. rewrite Hr. cbn [fmap option_fmap option_map].
    unfold Utf8.utf16. by replace (c <? 65536) with true by lia.
  - pose proof (decodePoint_utf8 c r Hc) as Hd. assert (∃ s, (utf8 c ≫= percentByte) ++ r = 37 :: s) as (s & E).
    { unfold utf8. repeat destruct (_ <? _); cbn [mbind list_bind percentByte app]; eauto. }
    rewrite E in *. cbn [decodeFrom]. simpl (37 =? 37). cbn iota. rewrite Hd. cbn [mbind option_bind fst snd]. by rewrite Hr.
Qed.

Lemma encodePoint_length c : (1 <= length (encodePoint c))%nat.
Proof. unfold encodePoint. destruct (isUnreserved c); [done|]. unfold utf8. repeat destruct (_ <? _); cbn [mbind list_bind percentByte app length]; lia. Qed.

Lemma decode_encoded cps : Forall scalar cps → decodeURIComponent (cps ≫= encodePoint) = Some (fromScalars cps).
Proof.
  intros Hcps. assert (decodeFrom (length cps) (cps ≫= encodePoint) = Some (fromScalars cps)) as H.
  { induction Hcps as [|c cps Hc _ IH]; [done|]. unfold fromScalars in *. cbn [mbind list_bind] in *. by apply decodeFrom_point. }
  unfold decodeURIComponent. eapply decodeFrom_mono; [exact H|]. clear. induction cps as [|c cps IH]; [done|]. cbn [mbind list_bind] in *. rewrite length_app.
  pose proof (encodePoint_length c). simpl. lia.
Qed.

(** [decodeURIComponent(encodeURIComponent(s))] is [s] for a well-formed string. *)
Lemma component_round_trip cps : Forall scalar cps → (encodeURIComponent (fromScalars cps) ≫= decodeURIComponent) = Some (fromScalars cps).
Proof. intros H. rewrite encode_scalars by done. cbn [mbind option_bind]. by apply decode_encoded. Qed.

(** ** Slashes in values *)

Lemma slashesBack_cons c s : startsWith (runes "%2F") (c :: s) = false → slashesBack (c :: s) = c :: slashesBack s.
Proof.
  intros H. cbn [slashesBack]. destruct (Z.eqb_spec c 37) as [->|Hc].
  - destruct s as [|d s]; [done|]. destruct (Z.eqb_spec d 50) as [->|Hd].
    + destruct s as [|e s]; [done|]. destruct (Z.eqb_spec e 70) as [->|He]; [done|]. destruct e as [|q|q]; try done. by do 7 (destruct q as [q|q|]; try done).
    + destruct d as [|q|q]; try done. by do 6 (destruct q as [q|q|]; try done).
  - destruct c as [|q|q]; try done. by do 6 (destruct q as [q|q|]; try done).
Qed.

(** Hidden slashes come back, unless the text has [%2F] of its own. *)
Lemma slashes_hidden v : includes (runes "%2F") v = false → slashesBack (hideSlashes v) = v.
Proof.
  induction v as [|c v IH]; [done|]. cbn [includes]. intros [Hs Hi]%orb_false_iff. unfold hideSlashes in *. cbn [mbind list_bind].
  destruct (Z.eqb_spec c slash) as [->|Hc]; [cbn [app runes]; simpl; f_equal; by apply IH|].
  cbn [app]. rewrite slashesBack_cons; [f_equal; by apply IH|]. clear IH Hi. change (runes "%2F") with [37; 50; 70] in *. cbn [startsWith] in *.
  destruct (Z.eqb_spec c 37) as [->|]; [|lia].
  destruct v as [|d v]; [done|]. cbn [mbind list_bind]. destruct (Z.eqb_spec d slash) as [->|Hd]; [done|]. cbn [app].
  destruct (Z.eqb_spec d 50) as [->|]; [|cbn [startsWith]; lia]. destruct v as [|e v]; [done|]. cbn [mbind list_bind]. destruct (Z.eqb_spec e slash) as [->|]; [done|]. exact Hs.
Qed.

Lemma hideSlashes_no v : Forall (λ c, c ≠ slash) (hideSlashes v).
Proof.
  unfold hideSlashes. induction v as [|c v IH]; [constructor|]. cbn [mbind list_bind]. apply Forall_app. split; [|done].
  destruct (Z.eqb_spec c slash); [by repeat constructor|by constructor].
Qed.

Lemma hideSlashes_plain s : slash ∉ s → hideSlashes s = s.
Proof.
  unfold hideSlashes. induction s as [|c s IH]; [done|]. rewrite not_elem_of_cons. intros [Hc Hs]. cbn [mbind list_bind]. replace (c =? slash) with false by lia.
  cbn [app]. f_equal. by apply IH.
Qed.

Lemma decode_plain s : 37 ∉ s → decodeURIComponent s = Some s.
Proof.
  unfold decodeURIComponent. induction s as [|c s IH]; [done|]. rewrite not_elem_of_cons. intros [Hc Hs]. cbn [length decodeFrom].
  replace (c =? 37) with false by lia. by rewrite IH.
Qed.

(** ** Links *)

(** The text of a segment in a link, and in the path it is decoded to. *)
Section link.
Context (t : gmap jstr (option jstr)).

Definition valueOf (n : jstr) : jstr := default [] (t !! n ≫= id).

Definition linkText (g : seg) : jstr := match g with Lit s => s | Par n => default [] (encodeURIComponent (valueOf n)) end.

Definition pathText (g : seg) : jstr := match g with Lit s => s | Par n => hideSlashes (valueOf n) end.

(** A value a link can carry: a well-formed text, not empty, without the text [%2F]. *)
Definition carried (v : jstr) : Prop := v ≠ [] ∧ (∃ cps, Forall scalar cps ∧ v = fromScalars cps) ∧ includes (runes "%2F") v = false.

(** A segment that can be linked to: a literal is not encoded. *)
Definition linkOk (g : seg) : Prop :=
  segOk g ∧ match g with Lit s => 37 ∉ s ∧ 35 ∉ s | Par n => ∃ v, t !! n = Some (Some v) ∧ carried v end.

Lemma encodePoint_units c : scalar c → Forall (λ x, x ∉ [slash; 35; 63]) (encodePoint c).
Proof.
  intros Hc. unfold encodePoint. destruct (isUnreserved c) eqn:Hu.
  - constructor; [|constructor]. unfold isUnreserved, isAlnum in Hu. apply orb_true_iff in Hu as [Hu|Hu]; [rewrite !not_elem_of_cons; split_and!; try lia; apply not_elem_of_nil|].
    apply bool_decide_eq_true in Hu. cbv in Hu. repeat (apply elem_of_cons in Hu as [->|Hu]; [by apply (bool_decide_unpack _); vm_compute|]). by apply elem_of_nil in Hu.
  - assert (∀ b, 0 <= b < 256 → Forall (λ x, x ∉ [slash; 35; 63]) (percentByte b)) as Hp.
    { intros b Hb. assert (∀ x, 0 <= x < 16 → Router.hexDigit x ∉ [slash; 35; 63]) as Hx.
      { intros x Hx. unfold Router.hexDigit. rewrite !not_elem_of_cons. destruct (Z.ltb_spec x 10); split_and!; try lia; apply not_elem_of_nil. }
      unfold percentByte. repeat constructor; [by apply (bool_decide_unpack _); vm_compute|apply Hx; Z.div_mod_to_equations; lia..]. }
    assert (Forall (λ b, 0 <= b < 256) (utf8 c)) as Hb.
    { unfold scalar in Hc. unfold utf8. repeat case_match; repeat constructor; Z.div_mod_to_equations; lia. }
    induction Hb as [|b bs Hb _ IH]; [constructor|]. cbn [mbind list_bind]. apply Forall_app. auto.
Qed.

Lemma encoded_units cps : Forall scalar cps → Forall (λ x, x ∉ [slash; 35; 63]) (cps ≫= encodePoint).
Proof. induction 1 as [|c cps Hc _ IH]; [constructor|]. cbn [mbind list_bind]. apply Forall_app. split; [by apply encodePoint_units|done]. Qed.

(** What a link has to get right of a segment. *)
Lemma link_segment g isLast : linkOk g →
  linkSegment t isLast (segText g) = Some (linkText g) ∧ linkText g ≠ [] ∧ Forall (λ x, x ∉ [slash; 35; 63]) (linkText g) ∧
  (hideSlashes <$> decodeURIComponent (linkText g)) = Some (pathText g).
Proof.
  intros [Hg Hl]. destruct g as [s|n].
  - simpl in Hg. destruct Hg as [Hs (c & r & -> & Hc)], Hl as [Hp Hh]. cbn [segText linkText pathText].
    assert (Forall (λ x, x ∉ [slash; 35; 63]) (c :: r)) as Hu.
    { apply Forall_forall. intros x Hx. rewrite Forall_forall in Hs. pose proof (litUnit_ne _ (Hs _ Hx)). rewrite !not_elem_of_cons. split_and!; [tauto| |tauto|apply not_elem_of_nil]. by intros ->. }
    split_and!; [|done|done|].
    + unfold linkSegment. assert (isSplat (c :: r) = false) as ->.
      { unfold isSplat. apply bool_decide_eq_false. intros [= -> ->]. apply Forall_cons in Hs as [H _]. by apply litUnit_ne in H as (_ & _ & ?). }
      rewrite andb_false_r. assert (linkParam (c :: r) = None) as ->.
      { unfold linkParam. destruct c as [|q|q]; try done. by do 6 (destruct q as [q|q|]; try done). }
      destruct (exists_last (l := c :: r) ltac:(done)) as (s' & d & E). rewrite E in *. change (runes "?") with [63]. rewrite endsWith_snoc.
      apply Forall_app in Hs as [_ [H _]%Forall_cons]. by replace (63 =? d) with false by (apply litUnit_ne in H; lia).
    + rewrite decode_plain by done. cbn [fmap option_fmap option_map]. rewrite hideSlashes_plain; [done|]. intros Hin. rewrite Forall_forall in Hu.
      apply (Hu _ Hin). left.
  - simpl in Hg. destruct Hl as (v & Hv & Hne & (cps & Hcps & ->) & _). assert (valueOf n = fromScalars cps) as Ev by (unfold valueOf; by rewrite Hv).
    cbn [segText linkText pathText]. rewrite Ev, encode_scalars by done. cbn [default]. split_and!.
    + unfold linkSegment, linkParam. assert (isSplat (58 :: n) = false) as -> by done. rewrite andb_false_r.
      pose proof (spanWord_app n [] (proj1 Hg) I) as Es. rewrite app_nil_r in Es. rewrite Es. destruct n as [|x n]; [by destruct Hg as (_ & ? & _)|]. cbn [Json.span fst negb andb]. rewrite Hv. cbn [mbind option_bind id default].
      rewrite bool_decide_false by done. rewrite encode_scalars by done. cbn [fmap option_fmap option_map]. by rewrite app_nil_r.
    + intros E. destruct cps as [|c cps]; [done|]. cbn [mbind list_bind] in E. pose proof (encodePoint_length c). apply app_eq_nil in E as [E _]. rewrite E in *. simpl in *. lia.
    + by apply encoded_units.
    + unfold id. by rewrite decode_encoded.
Qed.

Lemma link_segments gs : Forall linkOk gs → linkSegments t (map segText gs) = Some (map linkText gs).
Proof. induction 1 as [|g gs Hg _ IH]; [done|]. cbn [map linkSegments]. by rewrite (proj1 (link_segment g _ Hg)), IH. Qed.

Lemma link_decoded gs : Forall linkOk gs → (map hideSlashes <$> mapM decodeURIComponent (map linkText gs)) = Some (map pathText gs).
Proof.
  induction 1 as [|g gs Hg _ IH]; [done|]. destruct (link_segment g true Hg) as (_ & _ & _ & Hd). cbn [map mapM]. destruct (decodeURIComponent (linkText g)); [|done].
  injection Hd as Hd. cbn [mbind option_bind]. destruct (mapM decodeURIComponent (map linkText gs)); [|done]. injection IH as IH. cbn [mbind option_bind fmap option_fmap option_map map mret option_ret].
  by rewrite Hd, IH.
Qed.

(** A text without two slashes in a row. *)
Lemma squeeze_word w r : slash ∉ w → squeeze (w ++ r) = w ++ squeeze r.
Proof.
  induction w as [|c w IH]; [done|]. rewrite not_elem_of_cons. intros [Hc Hw]. cbn [app squeeze]. replace (c =? slash) with false by lia. cbn [andb]. f_equal. by apply IH.
Qed.

Lemma squeeze_words l : Forall (λ w, w ≠ [] ∧ slash ∉ w) l → squeeze (l ≫= λ w, slash :: w) = l ≫= λ w, slash :: w.
Proof.
  induction 1 as [|w l [Hw Hs] _ IH]; [done|]. cbn [mbind list_bind] in *. destruct w as [|c w]; [done|]. cbn [app].
  set (r := _ l) in *. change ((if startsWith [slash] (c :: w ++ r) then squeeze ((c :: w) ++ r) else slash :: squeeze ((c :: w) ++ r)) = slash :: c :: w ++ r).
  replace (startsWith [slash] (c :: w ++ r)) with false by (cbn [startsWith]; rewrite not_elem_of_cons in Hs; lia).
  by rewrite squeeze_word, IH.
Qed.

Lemma join_words l : l ≠ [] → slash :: join [slash] l = l ≫= λ w, slash :: w.
Proof.
  induction l as [|w [|w' l] IH]; [done| |]; intros _; [simpl; by rewrite app_nil_r|]. rewrite join_cons by done. cbn [mbind list_bind] in *. rewrite <- IH by done. done.
Qed.

Lemma segs_words gs : Forall linkOk gs → Forall (λ w, w ≠ [] ∧ slash ∉ w) (map segText gs).
Proof.
  intros H. apply Forall_map. eapply Forall_impl; [exact H|]. intros g [[Hu Hne]%segText_plain _]. split; [done|]. intros Hin. rewrite Forall_forall in Hu.
  by destruct (litUnit_ne _ (Hu _ Hin)).
Qed.

Lemma links_words gs : Forall linkOk gs → Forall (λ w, w ≠ [] ∧ slash ∉ w ∧ 35 ∉ w ∧ 63 ∉ w) (map linkText gs).
Proof.
  intros H. apply Forall_map. eapply Forall_impl; [exact H|]. intros g Hg. destruct (link_segment g true Hg) as (_ & Hne & Hu & _). rewrite Forall_forall in Hu.
  split_and!; [done|..]; intros Hin; apply (Hu _ Hin); [left|right; left|right; right; left].
Qed.

(** The link of a pattern. *)
Definition linkOf (gs : list seg) : jstr := slash :: join [slash] (map linkText gs).

Lemma eJe_link gs : Forall linkOk gs → eJe (patText true gs false) t = Some (linkOf gs).
Proof.
  intros Hok. destruct (decide (gs = [])) as [->|Hne]; [done|]. assert (Forall segOk gs) as Hs by (eapply Forall_impl; [exact Hok|]; by intros g [? _]).
  unfold eJe, fixSplat. rewrite endsWith_pat by done. cbn [andb].
  assert (patText true gs false = slash :: join [slash] (map segText gs)) as -> by (unfold patText; by rewrite app_nil_r).
  assert (map segText gs ≠ []) as Hm by by destruct gs. rewrite join_words by done. rewrite squeeze_words by by apply segs_words. rewrite <- join_words by done.
  change (split slash (slash :: ?x)) with ([] :: split slash x). rewrite split_join; [|done|].
  - cbn [linkSegments]. assert (linkSegment t (bool_decide (map segText gs = [])) [] = Some []) as -> by by case_bool_decide.
    rewrite link_segments by done. cbn [mbind option_bind]. change (startsWith [slash] (slash :: ?x)) with true. cbn iota. unfold linkOf. do 2 f_equal.
    rewrite filter_cons_False by (by intros ?). f_equal. apply links_words in Hok. induction Hok as [|w l [Hw _] _ IH]; [done|]. by rewrite filter_cons_True, IH.
  - eapply Forall_impl; [by apply segs_words|]. by intros w [_ ?].
Qed.

Lemma nJe_link gs : Forall linkOk gs → nJe (linkOf gs) = slash :: join [slash] (map pathText gs).
Proof.
  intros Hok. destruct (decide (gs = [])) as [->|Hne]; [done|]. unfold nJe, linkOf. change (split slash (slash :: ?x)) with ([] :: split slash x).
  assert (map linkText gs ≠ []) as Hm by by destruct gs. rewrite split_join; [|done|].
  - pose proof (link_decoded gs Hok) as Hd. cbn [mapM]. change (decodeURIComponent []) with (Some ([] : jstr)). cbn [mbind option_bind].
    destruct (mapM decodeURIComponent (map linkText gs)) as [l|]; [|done]. injection Hd as Hd. cbn [mbind option_bind map mret option_ret]. rewrite Hd.
    by rewrite join_cons by by destruct gs.
  - eapply Forall_impl; [by apply links_words|]. by intros w (_ & ? & _).
Qed.

(** *** The path of a link *)

Context (fold : Z → Z) `{!Folding fold} (ci : bool).

Lemma sameText_refl s : sameText fold ci s s = true.
Proof. induction s as [|c s IH]; [done|]. cbn [sameText]. rewrite IH. unfold same. destruct ci; by rewrite Z.eqb_refl. Qed.

Lemma segment_word w r : Forall (λ c, c ≠ slash) w → edge r → segment (w ++ r) = (w, r).
Proof.
  intros Hw Hr. unfold segment. induction Hw as [|c w Hc _ IH]; cbn [app].
  - destruct r as [|c r]; [done|]. simpl in Hr. by subst c.
  - cbn [Json.span]. replace (c =? slash) with false by lia. cbn [negb]. by rewrite IH.
Qed.

Lemma path_segs gs : Forall linkOk gs → specSegs fold ci gs (map pathText gs ≫= λ w, slash :: w) = Some (map (λ n, hideSlashes (valueOf n)) (names gs), []).
Proof.
  induction 1 as [|g gs [Hs Hg] _ IH]; [done|]. cbn [map mbind list_bind specSegs app]. rewrite Z.eqb_refl.
  assert (∀ r, edge r → segment (pathText g ++ r) = (pathText g, r)) as Hw.
  { intros r Hr. apply segment_word; [|done]. destruct g as [s|n]; cbn [pathText]; [|apply hideSlashes_no]. destruct Hs as [Hs _].
    eapply Forall_impl; [exact Hs|]. by intros c (? & _)%litUnit_ne. }
  cbn [mbind list_bind] in IH. rewrite Hw by by destruct gs. destruct g as [s|n]; cbn [pathText]; [by rewrite sameText_refl|].
  destruct Hg as (v & Hv & Hne & _ & _). assert (valueOf n = v) as -> by (unfold valueOf; by rewrite Hv).
  rewrite bool_decide_false; [rewrite IH; cbn [mbind option_bind fst snd names omap list_omap map]; unfold valueOf at 2; by rewrite Hv|].
  destruct v as [|c v]; [done|]. unfold hideSlashes. cbn [mbind list_bind]. by destruct (c =? slash).
Qed.

Lemma setParams_lookup ns (f : jstr → jstr) e n :
  setParams ns (map f ns) e !! n = if bool_decide (n ∈ ns) then Some (Some (slashesBack (f n))) else e !! n.
Proof.
  revert e. induction ns as [|m ns IH]; intros e; [done|]. unfold setParams in *. cbn [map zip zip_with foldl fst snd]. rewrite IH.
  case_bool_decide as H1; [by rewrite bool_decide_true by by right|]. destruct (decide (n = m)) as [->|Hn].
  - rewrite lookup_insert_eq, bool_decide_true by left. done.
  - rewrite lookup_insert_ne by done. rewrite bool_decide_false by (rewrite elem_of_cons; by intros [?|?]). done.
Qed.

(** The values of a link come back. *)
Lemma link_params gs : Forall linkOk gs → setParams (names gs) (map (λ n, hideSlashes (valueOf n)) (names gs)) ∅ = filter (λ x, x.1 ∈ names gs) t.
Proof.
  intros Hok. apply map_eq. intros n. rewrite setParams_lookup. case_bool_decide as Hn.
  - apply list_elem_of_omap in Hn as Hn'. destruct Hn' as ([s|m] & Hg & [= ->]). rewrite Forall_forall in Hok. destruct (Hok _ Hg) as (_ & v & Hv & _ & _ & Hi).
    symmetry. apply map_lookup_filter_Some. assert (valueOf n = v) as -> by (unfold valueOf; by rewrite Hv). by rewrite slashes_hidden.
  - rewrite lookup_empty. symmetry. apply map_lookup_filter_None. right. by intros x _.
Qed.

Lemma link_matches gs : Forall linkOk gs → specKM fold ci gs false true (nJe (linkOf gs)) =
  Some {| matchParams := filter (λ x, x.1 ∈ names gs) t; matchPathname := nJe (linkOf gs); matchBase := trimEnd (nJe (linkOf gs)) |}.
Proof.
  intros Hok. rewrite nJe_link by done. destruct (decide (gs = [])) as [->|Hne].
  - by rewrite <- (link_params [] Hok).
  - assert (specMatch fold ci gs false true = λ u, x ← specSegs fold ci gs u; y ← specTail false false true x.2; Some (x.1, y.1, take (length u - length x.2 + length y.2) u)) as E
      by by destruct gs.
    unfold specKM. rewrite E, join_words, path_segs by (done || by destruct gs). cbn [mbind option_bind fst snd].
    unfold specTail. cbn [dropSlashes]. rewrite bool_decide_true by done. cbn [mbind option_bind fmap option_fmap option_map fst snd length]. rewrite Nat.add_0_r, Nat.sub_0_r, firstn_all.
    by rewrite link_params.
Qed.

(** A link has no search and no hash. *)
Lemma cutAt_without c s : c ∉ s → cutAt c s = (s, None).
Proof. induction s as [|x s IH]; [done|]. rewrite not_elem_of_cons. intros [Hx Hs]. cbn [cutAt]. replace (x =? c) with false by lia. by rewrite IH. Qed.

Lemma link_pathname gs : Forall linkOk gs → pathname (RM (linkOf gs)) = Some (linkOf gs).
Proof.
  intros Hok. destruct (decide (gs = [])) as [->|Hne]; [done|]. pose proof (links_words gs Hok) as Hw.
  assert (∀ c, c ≠ slash → Forall (λ w, c ∉ w) (map linkText gs) → c ∉ linkOf gs) as Hc.
  { intros c Hc Hl. unfold linkOf. rewrite join_words by by destruct gs. clear -Hc Hl. induction Hl as [|w l Hw _ IH]; [apply not_elem_of_nil|].
    cbn [mbind list_bind]. rewrite not_elem_of_app, not_elem_of_cons. done. }
  unfold RM. rewrite !cutAt_without; [done|..]; (apply Hc; [done|]; eapply Forall_impl; [exact Hw|]; intros w; simpl; tauto).
Qed.

(** A table of one route. *)
Lemma HM_single gs id cs toLower : Forall linkOk gs →
  HM fold toLower [Route id (Some (patText true gs false)) false cs []] (linkOf gs) [slash] =
  match KM fold (patText true gs false) cs true (nJe (linkOf gs)) with
  | Some (Some u) => Some (Some (matchParams u, [{| mPathname := QM [[slash]; matchPathname u]; mBase := normalizePathname (QM [[slash]; matchBase u]);
                                                    mRoute := Route id (Some (patText true gs false)) false cs [] |}]))
  | Some None => Some None
  | None => None
  end.
Proof.
  intros Hok. unfold HM. rewrite link_pathname by done. unfold qM. rewrite bool_decide_true by done. unfold WM. cbn [branchesAll].
  assert (Forall segOk gs) as Hs by (eapply Forall_impl; [exact Hok|]; by intros g [? _]).
  rewrite branchesOf_children, (variants_plain _ _ _ _ _ true gs false) by done. cbn [concatM fst snd routeChildren]. unfold descend. cbn [routePath routeChildren routeIndex routeCase default branchesAll].
  change (startsWith [] (patText true gs false)) with true. rewrite andb_false_r. rewrite bool_decide_false by (by intros ?). cbn [andb mbind option_bind negb].
  rewrite andb_true_r, bool_decide_false by done. cbn [app mbind option_bind]. unfold Wqe. cbn [foldl insertBranch firstMatch]. unfold matchBranch. cbn [routesMeta matchMetas relativePath metaCase].
  rewrite bool_decide_true by done. rewrite bool_decide_true by done. destruct (startsWith [slash] (patText true gs false)); cbn [length drop];
    (destruct (KM fold _ cs true _) as [[u|]|]; cbn [mbind option_bind]; [|done|done]; by rewrite map_union_empty).
Qed.

End link.

(** ** Paths *)

Lemma cutAt_spec c s a b : cutAt c s = (a, b) → s = a ++ default [] b ∧ match b with Some (x :: _) => x = c | Some [] => False | None => True end.
Proof.
  revert a b. induction s as [|x s IH]; intros a b; cbn [cutAt]; [by intros [= <- <-]|]. destruct (Z.eqb_spec x c) as [->|]; [by intros [= <- <-]|].
  destruct (cutAt c s) as [a' b']. intros [= <- <-]. destruct (IH _ _ eq_refl) as [-> H]. done.
Qed.

(** A part with its mark is appended as it is. *)
Lemma part_appended c b e : match b with Some (x :: _) => x = c | Some [] => False | None => True end → b ≠ Some [c] →
  (if bool_decide (default [] b = [] ∨ default [] b = [c]) then e else e ++ (if startsWith [c] (default [] b) then default [] b else [c] ++ default [] b)) = e ++ default [] b.
Proof.
  intros Hb Hc. destruct b as [[|x b]|]; [done| |by rewrite bool_decide_true, app_nil_r by by left]. subst x.
  cbn [default]. unfold id. rewrite bool_decide_false by (intros [?|?]; congruence). cbn [startsWith]. by rewrite Z.eqb_refl.
Qed.

(** The text of a path comes back from its parts, unless its search or hash is empty. *)
Lemma path_text s : pathname (RM s) ≠ None → search (RM s) ≠ Some (runes "?") → hash (RM s) ≠ Some (runes "#") → LM (RM s) = s.
Proof.
  unfold RM. destruct (cutAt 35 s) as [e h] eqn:Eh. destruct (cutAt 63 e) as [p q] eqn:Eq. apply cutAt_spec in Eh as [-> Hh]. apply cutAt_spec in Eq as [-> Hq].
  cbn [pathname search hash]. intros Hp H1 H2. unfold LM. cbn [pathname search hash]. case_bool_decide; [done|]. cbn [default]. unfold id.
  change (runes "?") with [63] in *. change (runes "#") with [35] in *. by rewrite !part_appended.
Qed.

(** A relative path is resolved to one without dots, when it starts from one. *)
Definition dotted (s : jstr) : Prop := s = runes "." ∨ s = runes "..".

Lemma step_dotless n e : Forall (λ x, ¬ dotted x ∧ slash ∉ x) n → slash ∉ e → Forall (λ x, ¬ dotted x ∧ slash ∉ x) (step n e).
Proof.
  intros Hn He. unfold step. case_bool_decide as H1; [case_bool_decide; [|done]|case_bool_decide as H2; [done|]].
  - destruct n as [|x n]; [done|]. rewrite (app_removelast_last x (l := x :: n)) in Hn by done. by apply Forall_app in Hn as [? _].
  - apply Forall_app. split; [done|]. constructor; [|constructor]. split; [|done]. by intros [?|?].
Qed.

Lemma resolved_dotless e t : Forall (λ x, ¬ dotted x) (split slash (stripEnd t)) → YM e t = [slash] ∨ Forall (λ x, ¬ dotted x) (split slash (YM e t)).
Proof.
  intros Ht. unfold YM. assert (Forall (λ x, ¬ dotted x ∧ slash ∉ x) (foldl step (split slash (stripEnd t)) (split slash e))) as H.
  { assert (Forall (λ x, slash ∉ x) (split slash e)) as He by (apply Forall_forall; intros x; apply split_no_sep).
    assert (Forall (λ x, ¬ dotted x ∧ slash ∉ x) (split slash (stripEnd t))) as Hs.
    { rewrite Forall_forall in Ht. apply Forall_forall. intros x Hx. split; [by apply Ht|by eapply split_no_sep]. }
    revert He Hs. generalize (split slash (stripEnd t)). induction (split slash e) as [|x l IH]; intros n He Hs; [done|]. cbn [foldl].
    apply Forall_cons in He as [Hx He]. apply IH; [done|]. by apply step_dotless. }
  case_bool_decide as Hl; [right|by left]. rewrite split_join.
  - eapply Forall_impl; [exact H|]. by intros x [? _].
  - intros E. rewrite E in Hl. simpl in Hl. lia.
  - eapply Forall_impl; [exact H|]. by intros x [_ ?].
Qed.
