(* ===== verification/RouterProps.v ===== *)
(** * The routes of the web UI: what holds

    What a pattern matches, which branch of a route table a location gets, and that a link
    matches the values it was made of; then what the router gets wrong. *)

From Stdlib Require Import ZArith Lia Sorted.
From stdpp Require Import base numbers strings gmap option list.
From S2P Require Import Prelude Js UiStreams Json TurboWire RegExp Router RouterMatch RouterRank RouterLink.

Open Scope Z_scope.

#[local] Abbreviation slash := 47.

Section props.
Context (fold : Z → Z) (HF : Folding fold) (toLower : jstr → jstr).

(** C22: Matching of a pattern ([KM]) is what its segments say: for every pattern of literal
    segments, parameters and a last splat, the regular expression made of its text, run with
    backtracking and captures, answers on every path what the comparison segment by segment
    answers - the same values under the same names, the same text matched, the same base,
    or no match. *)
Theorem pattern_match_exact absolute gs splat caseSensitive isEnd t : Forall segOk gs →
  KM fold (patText absolute gs splat) caseSensitive isEnd t = Some (specKM fold (negb caseSensitive) gs splat isEnd t).
Proof. intros Hok. rewrite <- (KM_spec fold (negb caseSensitive) absolute) by done. by rewrite negb_involutive. Qed.

(** C21: The branch a location gets ([HM]).  For every route table of such patterns, without
    optional segments, the router answers, without an exception: nothing when the location
    is not below the base name or when no branch matches; else the match of a branch of the
    best score among the branches that match, and of several with this score the one declared
    first. *)
Theorem best_branch_matches routes t base : Forall (routeOk true) routes →
  ∃ bs res, WM routes = Some bs ∧ HM fold toLower routes t base = Some res ∧
    match qM toLower (default [slash] (pathname (RM t))) base with
    | None => res = None
    | Some i =>
      match res with
      | None => Forall (λ b, matchBranch fold b (nJe i) = Some None) bs
      | Some m => ∃ l1 b l2, bs = l1 ++ b :: l2 ∧ matchBranch fold b (nJe i) = Some (Some m) ∧
          Forall (λ x, matchBranch fold x (nJe i) = Some None ∨ score x < score b) l1 ∧
          Forall (λ x, matchBranch fold x (nJe i) = Some None ∨ score x <= score b) l2
      end
    end.
Proof.
  intros Hok. destruct (table_branches routes Hok) as (bs & E & Hs & Hm). unfold HM. rewrite E.
  change (match pathname (RM t) with Some p => p | None => [slash] end) with (default [slash] (pathname (RM t))).
  destruct (qM toLower _ base) as [i|]; [|by exists bs, None]. cbn [mbind option_bind].
  destruct (find_sorted (matches fold (nJe i)) bs Hs) as (Ef & _ & Hp). rewrite firstMatch_find by (done || by rewrite Hp). rewrite Ef. exists bs. eexists. split_and!; [done|done|].
  assert (∀ b, b ∈ bs → matches fold (nJe i) b = false → matchBranch fold b (nJe i) = Some None) as Hno.
  { intros b Hb Hf. rewrite Forall_forall in Hm. destruct (matchMetas_total fold (routesMeta b) (nJe i) [slash] ∅ (Hm b Hb)) as [o Ho].
    unfold matches, matchBranch in *. rewrite Ho in *. by destruct o. }
  pose proof (bestOf_spec (matches fold (nJe i)) bs) as Hbest. destruct (bestOf _ bs) as [b|]; cbn [mbind option_bind].
  - destruct Hbest as (l1 & l2 & -> & Hb & H1 & H2). unfold matches in Hb. destruct (matchBranch fold b (nJe i)) as [[m|]|] eqn:Eb; try done. cbn [default].
    rewrite Forall_forall in H1, H2. exists l1, b, l2. split_and!; [done|done|..]; apply Forall_forall; intros x Hx.
    + destruct (H1 x Hx); [left; apply Hno; [set_solver|done]|by right].
    + destruct (H2 x Hx); [left; apply Hno; [set_solver|done]|by right].
  - rewrite Forall_forall in Hbest. apply Forall_forall. intros b Hb. apply Hno; [done|by apply Hbest].
Qed.

(** C23: Links and matching agree.  A link made of the pattern of a route and of values
    ([eJe]) leads to this route, with exactly these values: for every pattern of literals
    (without percent and number signs) and parameters, and values that are well-formed, not
    empty and do not have the text %2F, whatever slashes and other reserved characters they
    have. *)
Theorem link_round_trip gs id caseSensitive t : Forall (linkOk t) gs →
  ∃ url m, eJe (patText true gs false) t = Some url ∧
    HM fold toLower [Route id (Some (patText true gs false)) false caseSensitive []] url [slash] =
      Some (Some (filter (λ x, x.1 ∈ names gs) t, [m])) ∧ routeId (mRoute m) = id.
Proof.
  intros Hok. exists (linkOf t gs). rewrite eJe_link by done. eexists. split; [done|].
  assert (Forall segOk gs) as Hs by (eapply Forall_impl; [exact Hok|]; by intros g [? _]).
  pose proof (KM_spec fold (negb caseSensitive) true gs false true (nJe (linkOf t gs)) Hs) as Hk. rewrite negb_involutive in Hk.
  by rewrite HM_single, Hk, link_matches.
Qed.

End props.

(** ** On concrete tables *)

(** Upper case on ASCII, which regular expressions fold to. *)
Definition asciiUpper (c : Z) : Z := if (97 <=? c) && (c <=? 122) then c - 32 else c.

#[export] Instance asciiUpper_folding : Folding asciiUpper.
Proof. constructor. intros c. unfold asciiUpper. simpl. destruct ((97 <=? c) && (c <=? 122)) eqn:E; lia. Qed.

Definition dagRun : list seg := [Lit (runes "dags"); Par (runes "dagId"); Lit (runes "runs"); Par (runes "runId")].

Lemma dagRun_ok : Forall segOk dagRun.
Proof. repeat constructor; try done; try (by eexists _, _); apply (bool_decide_unpack _); by vm_compute. Qed.

Lemma pattern_match_exact_witness :
  KM asciiUpper (runes "dags/:dagId/runs/:runId/*") false true (runes "/DAGS/etl/runs/7/tasks") =
  Some (Some {| matchParams := {[runes "dagId" := Some (runes "etl"); runes "runId" := Some (runes "7"); runes "*" := Some (runes "tasks")]};
                matchPathname := runes "/DAGS/etl/runs/7/tasks"; matchBase := runes "/DAGS/etl/runs/7" |}).
Proof.
  change (runes "dags/:dagId/runs/:runId/*") with (patText false dagRun true). rewrite (pattern_match_exact asciiUpper _ _ _ _ _ _ _ dagRun_ok). reflexivity.
Defined.

(** A layout with an index, a list, a page of its own, the pages of a DAG, and a last resort. *)
Definition table : list route :=
  [Route 0 (Some (runes "/")) false false
    [Route 1 None true false []; Route 2 (Some (runes "*")) false false [];
     Route 3 (Some (runes "dags/:dagId")) false false [Route 4 (Some (runes "runs/:runId")) false false []];
     Route 5 (Some (runes "dags/new")) false false []; Route 6 (Some (runes "dags/:name")) false false []]].

Lemma table_ok : Forall (routeOk true) table.
Proof.
  assert (∀ s, Forall litUnit (runes s) → (∃ c r, runes s = c :: r ∧ c ≠ 58) → segOk (Lit (runes s))) as Hl by (intros s; split; done).
  assert (segOk (Lit (runes "dags")) ∧ segOk (Lit (runes "runs")) ∧ segOk (Lit (runes "new"))) as (H1 & H2 & H3).
  { split_and!; (apply Hl; [apply (bool_decide_unpack _); by vm_compute|by eexists _, _]). }
  assert (segOk (Par (runes "dagId")) ∧ segOk (Par (runes "runId")) ∧ segOk (Par (runes "name"))) as (H4 & H5 & H6) by (split_and!; (split; [repeat constructor|split; [done|apply (bool_decide_unpack _); by vm_compute]])).
  assert (∀ id, routeOk false (Route id None true false [])) as Hi by (intros id; by apply (routeOk_intro _ _ _ _ _ _ false [] false)).
  assert (∀ id gs splat ch, Forall segOk gs → Forall (routeOk false) ch → routeOk false (Route id (Some (patText false gs splat)) false false ch)) as Hr.
  { intros id gs splat ch Hg Hc. by apply (routeOk_intro _ _ _ _ _ _ false gs splat). }
  assert (∀ a b, segOk a → segOk b → Forall segOk [a; b]) as Hp by (intros a b Ha Hb; constructor; [done|constructor; [done|constructor]]).
  constructor; [|constructor]. apply (routeOk_intro _ _ _ _ _ _ true [] false); [done|done|done|done|]. repeat constructor; [apply Hi|..].
  - by apply (Hr 2%nat [] true []).
  - apply (Hr 3%nat [Lit (runes "dags"); Par (runes "dagId")] false); [by apply Hp|]. constructor; [|constructor].
    apply (Hr 4%nat [Lit (runes "runs"); Par (runes "runId")] false); [by apply Hp|constructor].
  - apply (Hr 5%nat [Lit (runes "dags"); Lit (runes "new")] false); [by apply Hp|constructor].
  - apply (Hr 6%nat [Lit (runes "dags"); Par (runes "name")] false); [by apply Hp|constructor].
Qed.

Definition routeIds (x : option (option (gmap jstr (option jstr) * list Match))) : list nat :=
  match x with Some (Some (_, l)) => map (λ m, routeId (mRoute m)) l | _ => [] end.

Lemma best_branch_matches_witness :
  map (λ t, routeIds (HM asciiUpper id table (runes t) [slash])) ["/"; "/dags/new"; "/dags/etl"; "/dags/etl/runs/7?tab=log"; "/dags/etl/x"]%string =
    [[0; 1]; [0; 5]; [0; 3]; [0; 3; 4]; [0; 2]]%nat ∧
  ∃ bs res, WM table = Some bs ∧ HM asciiUpper id table (runes "/dags/etl") [slash] = Some res ∧
    match res with
    | None => False
    | Some m => ∃ l1 b l2, bs = l1 ++ b :: l2 ∧ matchBranch asciiUpper b (runes "/dags/etl") = Some (Some m) ∧
        Forall (λ x, matchBranch asciiUpper x (runes "/dags/etl") = Some None ∨ score x < score b) l1 ∧
        Forall (λ x, matchBranch asciiUpper x (runes "/dags/etl") = Some None ∨ score x <= score b) l2
    end.
Proof.
  split; [vm_compute; reflexivity|]. destruct (best_branch_matches asciiUpper _ id table (runes "/dags/etl") [slash] table_ok) as (bs & res & E1 & E2 & H).
  exists bs, res. split; [exact E1|]. split; [exact E2|]. change (qM id _ [slash]) with (Some (runes "/dags/etl")) in H. cbn iota in H.
  change (nJe (runes "/dags/etl")) with (runes "/dags/etl") in H.
  destruct res as [m|]; [exact H|]. exfalso. vm_compute in E2. discriminate.
Defined.

(** A run whose name has reserved characters. *)
Definition values : gmap jstr (option jstr) :=
  {[runes "dagId" := Some (runes "a/b c%41"); runes "runId" := Some [233; 63; 35]; runes "tab" := Some (runes "log")]}.

Lemma link_round_trip_witness : ∃ url m, eJe (runes "/dags/:dagId/runs/:runId") values = Some url ∧
  url = runes "/dags/a%2Fb%20c%2541/runs/%C3%A9%3F%23" ∧
  HM asciiUpper id [Route 1 (Some (runes "/dags/:dagId/runs/:runId")) false false []] url [slash] =
    Some (Some ({[runes "dagId" := Some (runes "a/b c%41"); runes "runId" := Some [233; 63; 35]]}, [m])).
Proof.
  destruct (link_round_trip asciiUpper _ id dagRun 1 false values) as (url & m & E1 & E2 & _).
  - assert (∀ v, v ≠ [] → Forall scalar v → fromScalars v = v → includes (runes "%2F") v = false → carried v) as Hc by (intros v H1 H2 H3 H4; split; [done|]; split; [by exists v|done]).
    pose proof dagRun_ok as Hd. repeat (apply Forall_cons in Hd as [? Hd]). constructor; [split; [done|split; apply (bool_decide_unpack _); by vm_compute]|].
    constructor; [split; [done|]; eexists; split; [reflexivity|]; apply Hc; [done| |done|done]; apply (Forall_impl (λ c, 0 <= c < 55296)); [apply (bool_decide_unpack _); by vm_compute|by left]|].
    constructor; [split; [done|split; apply (bool_decide_unpack _); by vm_compute]|].
    constructor; [split; [done|]; eexists; split; [reflexivity|]; apply Hc; [done| |done|done]; apply (Forall_impl (λ c, 0 <= c < 55296)); [apply (bool_decide_unpack _); by vm_compute|by left]|constructor].
  - exists url, m. change (runes "/dags/:dagId/runs/:runId") with (patText true dagRun false). split; [exact E1|]. split; [|exact E2].
    vm_compute in E1. injection E1 as <-. reflexivity.
Defined.

(** ** What the router gets wrong *)

Definition paramsOf (x : option (option PathMatch)) : option (gmap jstr (option jstr)) := match x with Some (Some m) => Some (matchParams m) | _ => None end.

(** An optional literal is compiled to a group of its own, which the parameters after it are
    counted by: the value of [id] is the text of the literal. *)
Lemma optional_literal_captured :
  paramsOf (KM asciiUpper (runes "/a?/:id") false true (runes "/a/5")) = Some {[runes "id" := Some (runes "/a")]}.
Proof. by vm_compute. Qed.

(** Of two optional literals in a row the second is not optional: it shares its slash with the
    first.  A route table does match, since it expands optional segments first. *)
Lemma second_optional_required :
  KM asciiUpper (runes "/a?/b?") false true (runes "/a") = Some None ∧
  routeIds (HM asciiUpper id [Route 0 (Some (runes "/a?/b?")) false false []] (runes "/a") [slash]) = [0%nat].
Proof. split; by vm_compute. Qed.

(** An absolute child path need not be below its parent: the texts are compared, not the
    segments, and [/dags] below [/dag] is a route [/dag/s]. *)
Lemma absolute_child_by_text :
  (map branchPath <$> WM [Route 0 (Some (runes "/dag")) false false [Route 1 (Some (runes "/dags")) false false []]]) = Some [runes "/dag/s"; runes "/dag"].
Proof. by vm_compute. Qed.

(** A value with the text [%2F] comes back with a slash. *)
Lemma percent_value_changed :
  eJe (runes "/:a") {[runes "a" := Some (runes "x%2Fy")]} = Some (runes "/x%252Fy") ∧
  paramsOf (KM asciiUpper (runes "/:a") false true (nJe (runes "/x%252Fy"))) = Some {[runes "a" := Some (runes "x/y")]}.
Proof. split; by vm_compute. Qed.
