(* ===== verification/Modules.v ===== *)
(** * Module wrappers of the web UI

    The two wrappers of [chunk-zsgVPwQN.js] that run a module when it is first required:
    [n] ([o] in the file) for ES modules and [t] ([s] in the file) for CommonJS modules.
    Modules require one another in any order, cycles included.

    The body of a module is any program that requires modules, catches their exceptions or
    not, replaces its exports and works on the heap; its steps are arbitrary functions.  The
    heap, its values and the allocation of an empty object are parameters. *)

From Stdlib Require Import ZArith Lia.
From stdpp Require Import base numbers gmap option list.
From S2P Require Import Prelude.

Section modules.
Context {V H : Type} (undefined : V) (alloc : H → H * V).

(** A program of a module; [Require] goes on with the value or with the exception. *)
Inductive body :=
  | Return (v : V)
  | Throw (v : V)
  | Require (m : nat) (ok : V → body) (fail : V → body)
  | SetExports (v : V) (k : body)
  | Do (f : H → H * V) (k : V → body).

Inductive wrapper := Esm | Cjs.

(** What a wrapper keeps: nothing before the module is started, then the value [t] of an ES
    module or the [exports] of the module object of a CommonJS module.  Two fields are a
    record of the run, which no wrapper reads: [ran] has the bodies that were started, and
    [made] has, newest first, the values the bodies made for their modules (what the body of
    an ES module returned; the first exports object of a CommonJS module and every exports
    its body set). *)
Record St := { cells : gmap nat V; heap : H; ran : list nat; made : list (nat * V) }.

Definition initial (h : H) : St := {| cells := ∅; heap := h; ran := []; made := [] |}.

Definition setCell (m : nat) (v : V) (st : St) : St :=
  {| cells := <[m := v]> (cells st); heap := heap st; ran := ran st; made := made st |}.

Definition note (m : nat) (v : V) (st : St) : St :=
  {| cells := cells st; heap := heap st; ran := ran st; made := (m, v) :: made st |}.

(** [e=0] of an ES module; [t={exports:{}}] of a CommonJS module. *)
Definition begin_ (w : wrapper) (m : nat) (st : St) : St :=
  match w with
  | Esm => {| cells := <[m := undefined]> (cells st); heap := heap st; ran := ran st ++ [m]; made := made st |}
  | Cjs => let '(h, x) := alloc (heap st) in
    {| cells := <[m := x]> (cells st); heap := h; ran := ran st ++ [m]; made := (m, x) :: made st |}
  end.

(** The value of the call: what the body returned is kept by an ES module, the exports are
    read again for a CommonJS module. *)
Definition finish (w : wrapper) (m : nat) (st : St) (v : V) : St * V :=
  match w with
  | Esm => (setCell m v st, v)
  | Cjs => (st, default undefined (cells st !! m))
  end.

(** An exception is [inl]. *)
Fixpoint exec (require : nat → St → option (St * (V + V))) (w : wrapper) (self : nat) (b : body) (st : St) : option (St * (V + V)) :=
  match b with
  | Return v => Some (st, inr v)
  | Throw v => Some (st, inl v)
  | Require m ok fail =>
    x ← require m st;
    match x.2 with inr v => exec require w self (ok v) x.1 | inl v => exec require w self (fail v) x.1 end
  | SetExports v k =>
    (** an ES module has no module object *)
    exec require w self k (match w with Cjs => note self v (setCell self v st) | Esm => st end)
  | Do f k => let '(h, v) := f (heap st) in exec require w self (k v) {| cells := cells st; heap := h; ran := ran st; made := made st |}
  end.

Section table.
Context (mods : list (wrapper * body)) (referenceError : V).

(** A call of the wrapper of [m]; fuel bounds the modules that are being loaded. *)
Fixpoint require (fuel : nat) (m : nat) (st : St) : option (St * (V + V)) :=
  match cells st !! m with
  | Some v => Some (st, inr v)
  | None =>
    match mods !! m, fuel with
    | None, _ => Some (st, inl referenceError)
    | Some _, O => None
    | Some (w, b), S fuel =>
      x ← exec (require fuel) w m b (begin_ w m st);
      match x.2 with
      | inr v => let '(st, v) := finish w m (match w with Esm => note m v x.1 | Cjs => x.1 end) v in Some (st, inr v)
      | inl v => Some (x.1, inl v)
      end
    end
  end.

(** The calls of a page, one after the other. *)
Fixpoint calls (fuel : nat) (ms : list nat) (st : St) : option (St * list (V + V)) :=
  match ms with
  | [] => Some (st, [])
  | m :: ms => x ← require fuel m st; y ← calls fuel ms x.1; Some (y.1, x.2 :: y.2)
  end.

(** ** Invariant *)

(** The last value the body of a module made. *)
Fixpoint newest (m : nat) (l : list (nat * V)) : option V :=
  match l with [] => None | (k, v) :: l => if decide (k = m) then Some v else newest m l end.

(** The bodies that were started are those with a cell, each one time; a cell holds the last
    value its body made, [undefined] when it made none. *)
Record Inv (st : St) : Prop := {
  inv_once : NoDup (ran st);
  inv_ran : ∀ m, m ∈ ran st ↔ is_Some (cells st !! m);
  inv_idle : ∀ m, cells st !! m = None → newest m (made st) = None;
  inv_value : ∀ m v, cells st !! m = Some v → v = default undefined (newest m (made st)) }.

(** Nothing is unloaded, and the modules but those of [P] keep their values. *)
Definition laterBut (P : nat → Prop) (a b : St) : Prop :=
  Inv b ∧ ∀ m v, cells a !! m = Some v → is_Some (cells b !! m) ∧ (¬ P m → cells b !! m = Some v).

Definition later : St → St → Prop := laterBut (λ _, False).

Lemma since_refl P a : Inv a → laterBut P a a.
Proof. intros Ha. split; [done|]. intros m v Hm. split; [by eexists|done]. Qed.

Lemma since_trans P a b c : laterBut P a b → laterBut P b c → laterBut P a c.
Proof.
  intros [_ H1] [Hc H2]. split; [done|]. intros m v Hm. destruct (H1 m v Hm) as [[v' Hv'] Hk]. split; [by eapply H2|].
  intros HP. by apply H2; [apply Hk|].
Qed.

Lemma later_weaken (P Q : nat → Prop) a b : (∀ m, P m → Q m) → laterBut P a b → laterBut Q a b.
Proof. intros HPQ [Hb H1]. split; [done|]. intros m v Hm. destruct (H1 m v Hm) as [? Hk]. split; [done|auto]. Qed.

Lemma later_some P a b m : laterBut P a b → is_Some (cells a !! m) → is_Some (cells b !! m).
Proof. intros [_ H1] [v Hv]. by eapply H1. Qed.

(** A change of the module that is being loaded is none of the modules that were there. *)
Lemma later_fresh a b m : laterBut (eq m) a b → cells a !! m = None → later a b.
Proof. intros [Hb H1] Hm. split; [done|]. intros k v Hk. split; [by eapply H1|]. intros _. apply H1; [done|]. intros <-. congruence. Qed.

Lemma Inv_initial h : Inv (initial h).
Proof.
  split; simpl; [constructor| |done|intros m v; by rewrite lookup_empty].
  intros m. split; [by intros ?%elem_of_nil|]. rewrite lookup_empty. by intros [? ?].
Qed.

(** A value that is made and kept, as [SetExports] and the end of an ES module do it. *)
Lemma later_set m v st : Inv st → is_Some (cells st !! m) → laterBut (eq m) st (setCell m v (note m v st)).
Proof.
  intros [Hn Hi Hd Hv] Hm. assert (∀ k, is_Some (<[m := v]> (cells st) !! k) ↔ is_Some (cells st !! k)) as E.
  { intros k. destruct (decide (k = m)) as [->|]; [rewrite lookup_insert_eq|by rewrite lookup_insert_ne]. split; [done|by eexists]. }
  split; [split; simpl; [done| | |]|].
  - intros k. by rewrite E, Hi.
  - intros k Hk. assert (k ≠ m) by (intros ->; by rewrite lookup_insert_eq in Hk). rewrite lookup_insert_ne in Hk by done. rewrite decide_False by done. auto.
  - intros k x. destruct (decide (m = k)) as [->|]; [rewrite lookup_insert_eq; intros [= <-]; done|]. rewrite lookup_insert_ne by done. apply Hv.
  - intros k x Hk. simpl. split; [apply E; by eexists|]. intros Hne. by rewrite lookup_insert_ne.
Qed.

Lemma later_begin w m st : Inv st → cells st !! m = None → later st (begin_ w m st) ∧ is_Some (cells (begin_ w m st) !! m).
Proof.
  intros [Hn Hi Hd Hv] Hm. assert (∃ x h l, begin_ w m st = {| cells := <[m := x]> (cells st); heap := h; ran := ran st ++ [m]; made := l ++ made st |} ∧
    (l = [(m, x)] ∨ l = [] ∧ x = undefined)) as (x & h & l & -> & Hl).
  { destruct w; simpl; [eexists _, _, []; split; [done|]; by right|]. destruct (alloc (heap st)) as [h x]. eexists _, _, [_]. split; [done|]. by left. }
  assert (∀ k, k ≠ m → newest k (l ++ made st) = newest k (made st)) as Hk.
  { intros k Hne. destruct Hl as [->|[-> _]]; [|done]. simpl. by rewrite decide_False. }
  split; [|simpl; by rewrite lookup_insert_eq]. split; [split|]; simpl.
  - apply NoDup_app. split_and!; [done| |apply NoDup_singleton]. intros k Hr ->%list_elem_of_singleton. apply Hi in Hr. rewrite Hm in Hr. by destruct Hr.
  - intros k. rewrite elem_of_app, Hi, list_elem_of_singleton. destruct (decide (k = m)) as [->|Hne]; [rewrite lookup_insert_eq|rewrite lookup_insert_ne by done]; naive_solver.
  - intros k Hc. destruct (decide (k = m)) as [->|Hne]; [by rewrite lookup_insert_eq in Hc|]. rewrite lookup_insert_ne in Hc by done. rewrite Hk by done. auto.
  - intros k v Hc. destruct (decide (k = m)) as [->|Hne]; [|rewrite lookup_insert_ne in Hc by done; rewrite Hk by done; auto].
    rewrite lookup_insert_eq in Hc. injection Hc as <-. destruct Hl as [->|[-> ->]]; simpl; [by rewrite decide_True|by rewrite Hd].
  - intros k v Hc. assert (k ≠ m) by congruence. rewrite lookup_insert_ne by done. split; [by eexists|done].
Qed.

(** ** Loading ends *)

(** The modules that were not started. *)
Definition waiting (st : St) : nat := length (filter (λ m, cells st !! m = None) (seq 0 (length mods))).

Lemma filter_later P a b l : laterBut P a b → (length (filter (λ m, cells b !! m = None) l) <= length (filter (λ m, cells a !! m = None) l))%nat.
Proof.
  intros Hab. induction l as [|m l IH]; [done|]. rewrite !filter_cons.
  destruct (decide (cells b !! m = None)) as [Hb|Hb]; destruct (decide (cells a !! m = None)) as [Ha|Ha]; simpl; try lia.
  exfalso. apply not_eq_None_Some, (later_some _ _ _ _ Hab) in Ha. rewrite Hb in Ha. by destruct Ha.
Qed.

Lemma waiting_later P a b : laterBut P a b → (waiting b <= waiting a)%nat.
Proof. apply filter_later. Qed.

Lemma waiting_started P a b m : laterBut P a b → (m < length mods)%nat → cells a !! m = None → is_Some (cells b !! m) → (waiting b < waiting a)%nat.
Proof.
  intros Hl Hm Ha [v Hb]. assert (seq 0 (length mods) = seq 0 m ++ m :: seq (S m) (length mods - S m)) as E.
  { replace (length mods) with (m + S (length mods - S m))%nat at 1 by lia. by rewrite seq_app. }
  unfold waiting. rewrite E, !filter_app, !length_app, !filter_cons. rewrite decide_False by (by rewrite Hb). rewrite decide_True by done. simpl.
  pose proof (filter_later P a b (seq 0 m) Hl). pose proof (filter_later P a b (seq (S m) (length mods - S m)) Hl). lia.
Qed.

(** The answer of a call: the module is started, and a value is the one its wrapper keeps. *)
Definition answered (m : nat) (st : St) (r : V + V) : Prop :=
  match r with
  | inr v => cells st !! m = Some v
  | inl _ => is_Some (cells st !! m) ∨ mods !! m = None
  end.

Lemma exec_total fuel w self b :
  (∀ m st, Inv st → (waiting st <= fuel)%nat → ∃ st' r, require fuel m st = Some (st', r) ∧ later st st') →
  ∀ st, Inv st → is_Some (cells st !! self) → (waiting st <= fuel)%nat →
    ∃ st' r, exec (require fuel) w self b st = Some (st', r) ∧ laterBut (eq self) st st'.
Proof.
  intros Hreq. induction b as [v|v|m ok IHok fail IHfail|v k IHk|f k IHk]; intros st Hi Hs Hw; cbn [exec].
  - eexists _, _. by split; [|apply since_refl].
  - eexists _, _. by split; [|apply since_refl].
  - destruct (Hreq m st Hi Hw) as (st1 & r & -> & Hl%(later_weaken _ (eq self))); [|done]. cbn [mbind option_bind fst snd].
    assert (waiting st1 <= fuel)%nat by (apply waiting_later in Hl; lia).
    assert (is_Some (cells st1 !! self)) by (by apply (later_some _ _ _ _ Hl)). pose proof (proj1 Hl) as Hi1.
    destruct r as [e|v]; [destruct (IHfail e st1) as (st2 & r2 & -> & Hl2)|destruct (IHok v st1) as (st2 & r2 & -> & Hl2)]; try done;
      (eexists _, _; split; [done|]; by apply (since_trans _ _ st1)).
  - set (st1 := match w with Cjs => _ | Esm => st end).
    assert (laterBut (eq self) st st1) as Hl by (destruct w; [by apply since_refl|by apply later_set]).
    destruct (IHk st1) as (st2 & r2 & -> & Hl2); [apply Hl|by apply (later_some _ _ _ _ Hl)|apply waiting_later in Hl; lia|].
    eexists _, _. split; [done|]. by eapply since_trans.
  - destruct (f (heap st)) as [h v].
    destruct (IHk v {| cells := cells st; heap := h; ran := ran st; made := made st |}) as (st2 & r2 & -> & Hl2); [by destruct Hi|done|done|]. by eexists _, _.
Qed.

(** A call keeps the value of every module that was started before it. *)
Lemma require_total fuel : ∀ m st, Inv st → (waiting st <= fuel)%nat →
  ∃ st' r, require fuel m st = Some (st', r) ∧ later st st' ∧ answered m st' r.
Proof.
  induction fuel as [|fuel IH]; intros m st Hi Hw; cbn [require]; destruct (cells st !! m) as [v|] eqn:Em; try (eexists _, _; split; [done|]; by split; [apply since_refl|]);
    destruct (mods !! m) as [[w b]|] eqn:Eb; try (eexists _, _; split; [done|]; split; [by apply since_refl|by right]).
  - exfalso. apply lookup_lt_Some in Eb. destruct (later_begin Esm m st Hi Em) as [Hl Hs]. pose proof (waiting_started _ _ _ _ Hl Eb Em Hs). lia.
  - destruct (later_begin w m st Hi Em) as [Hl Hs]. assert (waiting (begin_ w m st) <= fuel)%nat as Hw'.
    { apply lookup_lt_Some in Eb. pose proof (waiting_started _ _ _ _ Hl Eb Em Hs). lia. }
    destruct (exec_total fuel w m b) with (st := begin_ w m st) as (st1 & r & -> & Hl1); [|apply Hl|done|done|].
    { intros k st' Hi' Hw''. destruct (IH k st' Hi' Hw'') as (st2 & r2 & E & Hl2 & _). by exists st2, r2. }
    cbn [mbind option_bind fst snd]. assert (is_Some (cells st1 !! m)) as Hm by (by apply (later_some _ _ _ _ Hl1)).
    assert (laterBut (eq m) st st1) as Hl' by (eapply since_trans; [by apply (later_weaken (λ _, False))|done]).
    destruct r as [e|v]; [eexists _, _; split; [done|]; by split; [eapply later_fresh|left]|]. destruct w; cbn [finish].
    + eexists _, _. split; [done|]. split; [|simpl; by rewrite lookup_insert_eq]. eapply later_fresh; [|done].
      eapply since_trans; [done|]. apply later_set; [apply Hl'|done].
    + eexists _, _. split; [done|]. split; [by eapply later_fresh|]. destruct Hm as [x Hm]. simpl. by rewrite Hm.
Qed.

Lemma waiting_le st : (waiting st <= length mods)%nat.
Proof. unfold waiting. etrans; [apply length_filter|]. by rewrite length_seq. Qed.

Lemma answered_later m a b r : later a b → answered m a r → answered m b r.
Proof.
  intros Hl. destruct r as [e|v]; simpl; [intros [Hs|Hn]; [left; by eapply later_some|by right]|].
  intros Hv. destruct (proj2 Hl m v Hv) as [_ Hk]. by apply Hk; intros [].
Qed.

Lemma calls_total ms : ∀ st, Inv st →
  ∃ st' rs, calls (length mods) ms st = Some (st', rs) ∧ later st st' ∧ Forall2 (λ m r, answered m st' r) ms rs.
Proof.
  induction ms as [|m ms IH]; intros st Hi; [eexists _, _; split; [done|]; by split; [apply since_refl|]|].
  destruct (require_total (length mods) m st Hi (waiting_le st)) as (st1 & r & E & Hl & Ha).
  destruct (IH st1 (proj1 Hl)) as (st2 & rs & E2 & Hl2 & Hrs). exists st2, (r :: rs). cbn [calls]. rewrite E. cbn [mbind option_bind fst snd]. rewrite E2.
  split_and!; [done|by eapply since_trans|]. constructor; [by eapply answered_later|done].
Qed.

(** C34: Modules that require one another in any way, cycles included, are loaded once and
    keep their values.  Whatever calls a page makes, one after the other, and whatever the
    bodies do: every call ends, with at most as many modules being loaded as there are, and
    no body runs twice.  Every call that returned a value returned the last value the body of
    that module made: for an ES module what its body returned, for a CommonJS module the
    exports its body set last, its first exports object when it set none.  So all the calls
    of a module that return a value return the same one.  (An ES module whose body threw made
    none: its later calls return [undefined].)  And a further call of a module that was
    started returns that value and changes nothing. *)
Theorem modules_load_once ms h : ∃ st rs, calls (length mods) ms (initial h) = Some (st, rs) ∧
  NoDup (ran st) ∧ length rs = length ms ∧
  (∀ m, m ∈ ms → (m < length mods)%nat → m ∈ ran st) ∧
  (∀ i m v, ms !! i = Some m → rs !! i = Some (inr v) → v = default undefined (newest m (made st))) ∧
  (∀ m, m ∈ ran st → ∀ fuel, require fuel m st = Some (st, inr (default undefined (newest m (made st))))).
Proof.
  destruct (calls_total ms _ (Inv_initial h)) as (st & rs & E & [[Hn Hi Hd Hv] _] & Hrs). exists st, rs. split_and!; try done.
  - symmetry. by eapply Forall2_length.
  - intros m [i Hm]%list_elem_of_lookup Hlt. destruct (Forall2_lookup_l _ _ _ _ _ Hrs Hm) as (r & _ & Ha). apply Hi.
    destruct r; simpl in Ha; [|by eexists]. destruct Ha as [?|Hnone]; [done|]. apply lookup_ge_None_1 in Hnone. lia.
  - intros i m v Hm Hr. apply Hv. exact (Forall2_lookup_lr _ _ _ _ _ _ Hrs Hm Hr).
  - intros m [v Hm]%Hi fuel. rewrite <-(Hv m v Hm). by destruct fuel; simpl; rewrite Hm.
Qed.

End table.
End modules.

(** ** What the wrappers get wrong *)

(** A module that throws is not run again: the next call of its wrapper returns the empty
    exports, or [undefined], without an exception. *)
Lemma failed_module_looks_loaded w :
  (λ x, x.2) <$> calls 0%nat (λ h : nat, (S h, 7%nat)) [(w, Throw 9%nat)] 404%nat 1 [0; 0]%nat (initial 0%nat) =
  Some [inl 9%nat; inr (match w with Esm => 0%nat | Cjs => 7%nat end)].
Proof. by destruct w. Qed.
