(* ===== verification/UiLogs.v ===== *)
(** * Task logs in the web UI

    The log view of the UI: reading the answer of the log endpoint ([T9], [vHt]),
    rendering a message as text ([O9]), the file offered for download, the nesting
    of [::group::] and [::endgroup::] sections ([A9]), and the removal of
    backspaces before colors are interpreted ([pHt]).  [JSON.parse], the case
    mapping, the number format and the translations are parameters about which
    nothing is assumed. *)

From Stdlib Require Import ZArith Lia.
From stdpp Require Import base numbers strings option list.
From S2P Require Import Prelude Js.

Open Scope Z_scope.

(** ** Reading the answer *)

Section read.
Context (JSON_parse : jstr → option jsval).

(** [T9(e)].  A text that does not parse gives no message. *)
Definition T9 (e : jsval) : jsval :=
  let c := get_opt e "content" in
  if truthy c then c
  else
    match e with
    | Str s =>
      match mapM JSON_parse (filter (λ l, negb (bool_decide (trim l = []))) (split NL s)) with
      | Some l => Arr l
      | None => Arr []
      end
    | Arr _ | Obj _ => Arr [e]
    | _ => Arr []
    end.

(** [n.slice(-t)] for [t < n.length]. *)
Definition lastN {A} (t : nat) (l : list A) : list A := drop (length l - t) l.

(** [vHt(e, t)]: the last [t] messages. *)
Definition vHt (e : jsval) (t : option nat) : jsval :=
  match t with
  | None | Some O => e
  | Some t =>
    if negb (truthy (get_opt e "content")) then e
    else
      let r :=
        match T9 e with
        | Arr n => Arr (if bool_decide (t < length n)%nat then lastN t n else n)
        | Str n => Str (if bool_decide (t < length n)%nat then lastN t n else n)
        | n => n
        end in
      match e with Obj l => Obj (assign (runes "content") r l) | _ => e end
  end.

End read.

(** ** One message as text *)

Section render.
Context (numberToString : Z → Z → jstr) (toUpperCase : jstr → jstr).
(** The translations of [components:logs.file] and, of a line and a name,
    [components:logs.location]. *)
Context (tFile : jstr) (tLocation : jsval → jsval → jstr).

Definition str : jsval → jstr := toString numberToString.

Definition own (k : string) (l : list (jstr * jsval)) : jsval := default Undefined (assoc (runes k) l).

Definition hasOwn (k : string) (l : list (jstr * jsval)) : bool := bool_decide (is_Some (assoc (runes k) l)).

Definition without (ks : list jstr) (l : list (jstr * jsval)) : list (jstr * jsval) :=
  filter (λ p, p.1 ∉ ks) l.

(** The guard that hides a message: [t] are the levels and [s] the sources asked
    for, [d] the level of the message and [p] its other properties. *)
Definition hidden (t s : option (list jstr)) (d : jsval) (p : list (jstr * jsval)) : bool :=
  match t with
  | Some ((_ :: _) as t') =>
    match d with Str x => negb (bool_decide (x ∈ t')) | _ => false end || negb (truthy d)
  | _ => false
  end ||
  match s with
  | Some ((_ :: _) as s') =>
    if hasOwn "logger" p
    then match own "logger" p with Str x => negb (bool_decide (x ∈ s')) | _ => true end
    else true
  | _ => false
  end.

(** A read of a property as an array to map over. *)
Definition arrayOf (v : jsval) : exn + list jsval :=
  match v with
  | Arr l => inr l
  | _ => throw (runes "map is not a function")
  end.

Fixpoint mapE {A B} (f : A → exn + B) (l : list A) : exn + list B :=
  match l with
  | [] => inr []
  | x :: r =>
    match f x with
    | inl e => inl e
    | inr y => match mapE f r with inl e => inl e | inr ys => inr (y :: ys) end
    end
  end.

(** The text of one stack frame. *)
Definition frame (e : jsval) : exn + jstr :=
  match get e "filename", get e "lineno", get e "name" with
  | inr f, inr n, inr m =>
    inr (runes "    " ++ tFile ++ runes " " ++ str f ++ runes ", " ++ tLocation n m ++ [NL])
  | inl x, _, _ | _, inl x, _ | _, _, inl x => inl x
  end.

(** The text of one exception. *)
Definition errorDetail (e : jsval) : exn + jsval :=
  match get e "frames" with
  | inl x => inl x
  | inr fs =>
    match arrayOf fs with
    | inl x => inl x
    | inr l =>
      match mapE frame l with
      | inl x => inl x
      | inr ts =>
        inr (Str (str (prop e (runes "exc_type")) ++ runes ": " ++ str (prop e (runes "exc_value"))
                  ++ [NL] ++ concat ts))
      end
    end
  end.

(** [v]: absent without an [error_detail]. *)
Definition details (p : list (jstr * jsval)) : exn + jsval :=
  match own "error_detail" p with
  | Undefined => inr Undefined
  | g =>
    match arrayOf g with
    | inl x => inl x
    | inr l => match mapE errorDetail l with inl x => inl x | inr ts => inr (Arr ts) end
    end
  end.

(** The file name and line number become one property [loc]. *)
Definition withLoc (p : list (jstr * jsval)) : list (jstr * jsval) :=
  if hasOwn "filename" p && hasOwn "lineno" p then
    without [runes "filename"; runes "lineno"]
      (assign (runes "loc") (Str (str (own "filename" p) ++ runes ":" ++ str (own "lineno" p))) p)
  else p.

(** [D9] *)
Definition D9 : list jstr :=
  [runes "logger"; runes "chan"; runes "lineno"; runes "filename"; runes "loc"].

(** The text of one of the other properties. *)
Definition field (showSource : bool) (q : jstr * jsval) : jstr :=
  if negb showSource && bool_decide (q.1 ∈ D9) then []
  else
    runes " " ++ (if bool_decide (q.1 = runes "logger") then runes "source" else q.1) ++ runes "="
    ++ match q.2 with
       | Arr _ | Obj _ => stringify numberToString q.2
       | v => str v
       end ++ runes " ".

(** An element of an array, as [join] shows it. *)
Definition joinItem (v : jsval) : jstr := match v with Undefined | Null => [] | _ => str v end.

Record Options := {
  logLevelFilters : option (list jstr); sourceFilters : option (list jstr);
  showSource : bool; showTimestamp : bool;
}.

(** [O9] with the rendering mode [text]. *)
Definition O9_text (o : Options) (r : jsval) : exn + jstr :=
  match r with
  | Str s => inr s
  | Undefined | Null => throw (runes "Cannot destructure property 'event'")
  | _ =>
    let l := ownProps r in
    let u := own "event" l in
    let d := own "level" l in
    let f := own "timestamp" l in
    let p := without [runes "event"; runes "level"; runes "timestamp"] l in
    if hidden (logLevelFilters o) (sourceFilters o) d p then inr []
    else
      match details p with
      | inl x => inl x
      | inr v =>
        let rest := withLoc (without [runes "error_detail"] p) in
        inr ((if truthy f && showTimestamp o then runes "[" ++ str f ++ runes "] " else [])
             ++ match d with Str x => toUpperCase x ++ runes " - " | _ => [] end
             ++ joinItem u
             ++ concat (map (field (showSource o)) rest)
             ++ joinItem v)
      end
  end.

(** The text of the file offered for download ([ce]). *)
Definition downloadText (JSON_parse : jstr → option jsval) (o : Options) (fetched : jsval) : exn + jstr :=
  match arrayOf (T9 JSON_parse fetched) with
  | inl x => inl x
  | inr l =>
    match mapE (O9_text o) l with
    | inl x => inl x
    | inr ts => inr (join [NL] (filter (λ e, e ≠ []) ts))
    end
  end.

End render.

(** ** Sections of a log *)

(** [s.split(sep)]: the part before the first separator and what follows it. *)
Fixpoint cut (sep s : jstr) : option (jstr * jstr) :=
  if startsWith sep s then Some ([], drop (length sep) s)
  else
    match s with
    | [] => None
    | c :: r => match cut sep r with Some (a, b) => Some (c :: a, b) | None => None end
    end.

Definition groupMark : jstr := runes "::group::".
Definition endMark : jstr := runes "::endgroup::".

(** [r.split("::group::")[1]] *)
Definition groupName (r : jstr) : jstr :=
  match cut groupMark r with
  | Some (_, s) => match cut groupMark s with Some (n, _) => n | None => s end
  | None => []
  end.

Section groups.
Context {Node : Type} (innerText : Node → jstr).

(** What is shown: a line, a closed section that folds, or the lines of a section
    that was never closed. *)
Inductive Shown :=
  | Line (n : Node)
  | Details (level : nat) (name : jstr) (lines : list Shown)
  | Unclosed (level : nat) (name : jstr) (lines : list Shown).

Record Group := { level : nat; lines : list Shown; name : jstr }.

(** [g.lines.push(x)] *)
Definition addTo (g : Group) (x : Shown) : Group :=
  {| level := level g; lines := lines g ++ [x]; name := name g |}.

(** [x] goes to the innermost open section, or to the top.  The open sections are
    listed innermost first. *)
Definition put (x : Shown) (st : list Group * list Shown) : list Group * list Shown :=
  match st with
  | (g :: e, t) => (addTo g x :: e, t)
  | ([], t) => ([], t ++ [x])
  end.

(** The body of [d.forEach]. *)
Definition groupStep (st : list Group * list Shown) (n : Node) : list Group * list Shown :=
  let r := innerText n in
  if includes groupMark r then
    ({| level := length st.1; lines := []; name := groupName r |} :: st.1, st.2)
  else if includes endMark r then
    match st with
    | (g :: e, t) => put (Details (level g) (name g) (lines g)) (e, t)
    | ([], t) => ([], t)
    end
  else put (Line n) st.

(** The loop that pops what is still open. *)
Fixpoint popOpen (e : list Group) (t : list Shown) : list Shown :=
  match e with
  | [] => t
  | g :: e' => popOpen e' (t ++ [Unclosed (level g) (name g) (lines g)])
  end.

Definition groupLines (d : list Node) : list Shown :=
  let '(e, t) := foldl groupStep ([], []) d in popOpen e t.

(** The sections left open at the end. *)
Definition openGroups (d : list Node) : list Group := (foldl groupStep ([], []) d).1.

(** The lines shown, from top to bottom. *)
Fixpoint leaves (x : Shown) : list Node :=
  match x with
  | Line n => [n]
  | Details _ _ l | Unclosed _ _ l => concat (map leaves l)
  end.

Definition allLeaves (l : list Shown) : list Node := concat (map leaves l).

Definition isMark (n : Node) : bool :=
  includes groupMark (innerText n) || includes endMark (innerText n).

End groups.
Arguments Shown : clear implicits.
Arguments Group : clear implicits.

(** The view of a log ([A9]). *)
Section view.
Context (numberToString : Z → Z → jstr) (tFile : jstr) (tLocation : jsval → jsval → jstr).

(** A message to render and the number it links to. *)
Record Node := { index : nat; logMessage : jsval }.

(** The text of a rendered message, which shows its time in the viewer's zone. *)
Context (innerText : Node → jstr).

(** [n.includes(m)] on the event of a message. *)
Definition eventHas (m : jstr) (n : jsval) : exn + bool :=
  match n with
  | Str s => inr (includes m s)
  | Arr l => inr (existsb (is_str m) l)
  | _ => throw (runes "includes is not a function")
  end.

(** The first pass over the messages: section marks have no number. *)
Fixpoint numberLines (t : nat) (l : list jsval) : exn + list (option nat) :=
  match l with
  | [] => inr []
  | e :: r =>
    match match e with Str s => inr e | _ => get e "event" end with
    | inl x => inl x
    | inr n =>
      match eventHas groupMark n, eventHas endMark n with
      | inl x, _ | _, inl x => inl x
      | inr a, inr b =>
        let mark := a || b in
        match numberLines (if mark then t else S t) r with
        | inl x => inl x
        | inr ns => inr ((if mark then None else Some t) :: ns)
        end
      end
    end
  end.

(** [f.includes(t) || f.push(t)] for the logger of a message. *)
Definition addSource (f : list jsval) (e : jsval) : list jsval :=
  match e with
  | Str _ => f
  | _ =>
    let l := ownProps e in
    if hasOwn "logger" l then
      let t := own "logger" l in if existsb (sameKey t) f then f else f ++ [t]
    else f
  end.

(** [O9] with the rendering mode [jsx]: what it renders, or nothing when the
    message is hidden; linking the event needs a string. *)
Definition O9_jsx (o : Options) (i : nat) (r : jsval) : exn + option Node :=
  match r with
  | Str _ => inr (Some {| index := i; logMessage := r |})
  | Undefined | Null => throw (runes "Cannot destructure property 'event'")
  | _ =>
    let l := ownProps r in
    let p := without [runes "event"; runes "level"; runes "timestamp"] l in
    if hidden (logLevelFilters o) (sourceFilters o) (own "level" l) p then inr None
    else
      match details numberToString tFile tLocation p, own "event" l with
      | inl x, _ => inl x
      | inr _, Str _ => inr (Some {| index := i; logMessage := r |})
      | inr _, _ => throw (runes "matchAll is not a function")
      end
  end.

(** What is shown with the sources of the messages, or a warning. *)
Inductive View :=
  | Parsed (parsedLogs : list (Shown Node)) (sources : list jsval)
  | Warning.

Definition A9 (o : Options) (data : list jsval) : View :=
  match numberLines 0 data with
  | inl _ => Warning
  | inr ns =>
    match mapE (λ '(t, n, e), O9_jsx o (default t n) e) (imap (λ t p, (t, p.1, p.2)) (zip ns data)) with
    | inl _ => Warning
    | inr d => Parsed (groupLines innerText (omap id d)) (foldl addSource [] data)
    end
  end.

End view.

(** ** Backspaces *)

(** One pass of [replaceAll(/[^\n]\u0008/gmu, "")]: a character other than a line
    break and the backspace after it go; a surrogate pair is one character. *)
Fixpoint eraseOnce (s : jstr) : jstr :=
  match s with
  | [] => []
  | a :: r =>
    match r with
    | b :: r' =>
      if isLead a && isTrail b then
        match r' with
        | c :: r'' => if c =? 8 then eraseOnce r'' else a :: b :: eraseOnce r'
        | [] => [a; b]
        end
      else if (b =? 8) && negb (a =? NL) then eraseOnce r'
      else a :: eraseOnce r
    | [] => [a]
    end
  end.

(** The loop of [pHt]. *)
Fixpoint pHt_loop (fuel : nat) (t : jstr) : option jstr :=
  match fuel with
  | O => None
  | S fuel =>
    let t' := eraseOnce t in
    if (length t <=? length t')%nat then Some t'
    else if (0 <? length t')%nat then pHt_loop fuel t' else Some t'
  end.

Definition pHt (e : jstr) : option jstr := pHt_loop (S (length e)) e.

(** ** Lemmas *)

Section groups_facts.
Context {N : Type} (innerText : N → jstr).
Implicit Types (st : list (Group N) * list (Shown N)) (n : N).

Lemma allLeaves_app (a b : list (Shown N)) : allLeaves (a ++ b) = allLeaves a ++ allLeaves b.
Proof. unfold allLeaves. by rewrite map_app, concat_app. Qed.

Lemma allLeaves_one (x : Shown N) : allLeaves [x] = leaves x.
Proof. unfold allLeaves. simpl. apply app_nil_r. Qed.

(** The lines held so far, in the order they came in. *)
Definition held st : list N :=
  allLeaves st.2 ++ concat (map (λ g, allLeaves (lines g)) (reverse st.1)).

Lemma held_cons g e t :
  held (g :: e, t) = held (e, t) ++ allLeaves (lines g).
Proof.
  unfold held. simpl. rewrite reverse_cons, map_app, concat_app. simpl.
  by rewrite app_nil_r, app_assoc.
Qed.

Lemma held_put x st : held (put x st) = held st ++ leaves x.
Proof.
  destruct st as [[|g e] t]; simpl.
  - unfold held. simpl. by rewrite allLeaves_app, !app_nil_r, allLeaves_one.
  - rewrite !held_cons. simpl. by rewrite allLeaves_app, allLeaves_one, app_assoc.
Qed.

Lemma held_step st n :
  held (groupStep innerText st n) = held st ++ (if isMark innerText n then [] else [n]).
Proof.
  unfold groupStep, isMark. destruct (includes groupMark (innerText n)); cbn [orb].
  - destruct st as [e t]. by rewrite held_cons.
  - destruct (includes endMark (innerText n)); [|by rewrite held_put].
    destruct st as [[|g e] t]; [by rewrite app_nil_r|].
    rewrite held_put, held_cons, app_nil_r. done.
Qed.

Lemma held_fold d st :
  held (foldl (groupStep innerText) st d) = held st ++ filter (λ n, isMark innerText n = false) d.
Proof.
  revert st. induction d as [|n d IH]; intros st; simpl; [by rewrite app_nil_r|].
  rewrite IH, held_step, <- app_assoc. f_equal. rewrite filter_cons.
  destruct (isMark innerText n); by case_decide.
Qed.

Lemma leaves_popOpen e (t : list (Shown N)) :
  allLeaves (popOpen e t) = allLeaves t ++ concat (map (λ g, allLeaves (lines g)) e).
Proof.
  revert t. induction e as [|g e IH]; intros t; simpl; [by rewrite app_nil_r|].
  by rewrite IH, allLeaves_app, allLeaves_one, <- app_assoc.
Qed.

Lemma groupLines_perm d :
  allLeaves (groupLines innerText d) ≡ₚ filter (λ n, isMark innerText n = false) d.
Proof.
  pose proof (held_fold d ([], [])) as H. unfold groupLines.
  destruct (foldl _ _ d) as [e t]. rewrite leaves_popOpen. cbn in H. rewrite <- H.
  unfold held. simpl. apply Permutation_app_head. f_equiv. apply fmap_Permutation.
  symmetry. apply reverse_Permutation.
Qed.

Lemma groupLines_order d : (length (openGroups innerText d) <= 1)%nat →
  allLeaves (groupLines innerText d) = filter (λ n, isMark innerText n = false) d.
Proof.
  pose proof (held_fold d ([], [])) as H. unfold groupLines, openGroups.
  destruct (foldl _ _ d) as [e t]. rewrite leaves_popOpen. cbn in H. rewrite <- H.
  simpl. intros He. unfold held. simpl. by destruct e as [|g [|??]]; [..|simpl in He; lia].
Qed.

End groups_facts.


(** Every backspace of the text is at its start or at the start of a line. *)
Definition settled (s : jstr) : Prop := ∀ i, s !! S i = Some 8 → s !! i = Some NL.

(** One pass of [pHt] only removes; a pass that removes nothing leaves the text as
    it is, and settled. *)
Definition passOk (s : jstr) : Prop :=
  sublist (eraseOnce s) s ∧ (length s <= length (eraseOnce s) → eraseOnce s = s ∧ settled s)%nat.

Lemma settled_cons a s : settled s → (∀ r, s = 8 :: r → a = NL) → settled (a :: s).
Proof.
  intros Hs Ha [|i]; simpl; [|apply Hs]. destruct s as [|b r]; [done|].
  intros [= ->]. f_equal. by eapply Ha.
Qed.

Lemma passOk_drop s t : sublist (eraseOnce s) t → sublist t s → (length t < length s)%nat → passOk s.
Proof.
  intros H1 H2 Hl. split; [by etrans|]. intros. apply sublist_length in H1. lia.
Qed.

Lemma passOk_keep a s : eraseOnce (a :: s) = a :: eraseOnce s → passOk s →
  (∀ r, s = 8 :: r → a = NL) → passOk (a :: s).
Proof.
  unfold passOk. intros -> [H1 H2] Ha. split; [by constructor|]. simpl. intros H.
  destruct H2 as [E Hs]; [lia|]. rewrite E. split; [done|]. by apply settled_cons.
Qed.

Lemma eraseOnce_ok s : passOk s.
Proof.
  induction s as [s IH] using (induction_ltof1 _ (@length Z)). unfold ltof in IH.
  destruct s as [|a [|b r]].
  - split; [constructor|]. by split.
  - split; [by repeat constructor|]. split; [done|]. by intros [].
  - destruct (isLead a && isTrail b) eqn:Ep.
    + apply andb_prop in Ep as [Ea Eb]. destruct r as [|c r].
      { split; simpl; rewrite Ea, Eb; [done|]. split; [done|].
        intros [|[|?]]; [|done..]. intros [= ->]. done. }
      destruct (c =? 8) eqn:Ec.
      * apply passOk_drop with r; [|by repeat apply sublist_cons|simpl; lia].
        simpl. rewrite Ea, Eb, Ec. apply IH. simpl. lia.
      * assert (passOk (c :: r)) as [H1 H2] by (apply IH; simpl; lia).
        assert (eraseOnce (a :: b :: c :: r) = a :: b :: eraseOnce (c :: r)) as E
          by (cbn [eraseOnce]; by rewrite Ea, Eb, Ec).
        split; rewrite E; [by do 2 apply sublist_skip|]. simpl length. intros H.
        destruct H2 as [-> Hs]; [simpl; lia|]. split; [done|].
        apply Z.eqb_neq in Ec.
        apply settled_cons; [apply settled_cons; [done|congruence]|].
        intros ? [= ->]. done.
    + destruct ((b =? 8) && negb (a =? NL)) eqn:E8.
      * apply passOk_drop with r; [|by repeat apply sublist_cons|simpl; lia].
        cbn [eraseOnce]. rewrite Ep, E8. apply IH. simpl. lia.
      * apply passOk_keep; [cbn [eraseOnce]; by rewrite Ep, E8|apply IH; simpl; lia|].
        intros ? [= ->]. simpl in E8. apply negb_false_iff, Z.eqb_eq in E8. done.
Qed.

Lemma eraseOnce_id s : 8 ∉ s → eraseOnce s = s.
Proof.
  induction s as [s IH] using (induction_ltof1 _ (@length Z)). unfold ltof in IH.
  destruct s as [|a [|b r]]; [done..|]. rewrite !not_elem_of_cons. intros (Ha & Hb & Hr).
  destruct (isLead a && isTrail b) eqn:E.
  - cbn [eraseOnce]. rewrite E. destruct r as [|c r]; [done|]. rewrite not_elem_of_cons in Hr. destruct Hr as [Hc Hr].
    destruct (Z.eqb_spec c 8); [done|]. rewrite IH; [done|simpl; lia|].
    by rewrite not_elem_of_cons.
  - transitivity (a :: eraseOnce (b :: r)).
    + cbn [eraseOnce]. rewrite E. by destruct (Z.eqb_spec b 8).
    + f_equal. apply IH; [simpl; lia|]. by rewrite not_elem_of_cons.
Qed.

Lemma pHt_loop_ok fuel t : (length t < fuel)%nat →
  ∃ r, pHt_loop fuel t = Some r ∧ sublist r t ∧ settled r.
Proof.
  revert t. induction fuel as [|fuel IH]; intros t Hf; [lia|]. simpl.
  destruct (eraseOnce_ok t) as [Hsub Hst]. pose proof (sublist_length _ _ Hsub).
  destruct (Nat.leb_spec (length t) (length (eraseOnce t))).
  - destruct Hst as [-> ?]; [done|]. eauto.
  - destruct (Nat.ltb_spec 0 (length (eraseOnce t))).
    + destruct (IH (eraseOnce t)) as (r & ? & ? & ?); [lia|]. exists r. split_and!; [done|by etrans|done].
    + exists (eraseOnce t). split_and!; [done..|]. destruct (eraseOnce t); [|simpl in *; lia].
      by intros [].
Qed.

(** ** Properties *)

(** A message the level and source filters let through. *)
Definition visible (o : Options) (r : jsval) : bool :=
  match r with
  | Str _ => true
  | _ =>
    let l := ownProps r in
    negb (hidden (logLevelFilters o) (sourceFilters o) (own "level" l)
            (without [runes "event"; runes "level"; runes "timestamp"] l))
  end.

Lemma numberLines_length t l ns : numberLines t l = inr ns → length ns = length l.
Proof.
  revert t ns. induction l as [|e r IH]; intros t ns; simpl; [by intros [= <-]|].
  repeat (case_match; try done); intros [= <-]; simpl; f_equal; eauto.
Qed.

Lemma O9_jsx_visible nts tF tL o i r x : O9_jsx nts tF tL o i r = inr x →
  x = if visible o r then Some {| index := i; logMessage := r |} else None.
Proof.
  unfold O9_jsx, visible. destruct r; try done; try (by intros [= <-]);
    (case_match; simpl; [by intros [= <-]|]; repeat (case_match; try done); by intros [= <-]).
Qed.

Lemma render_visible nts tF tL o ns data t d : length ns = length data →
  mapE (λ '(t, n, e), O9_jsx nts tF tL o (default t n) e)
    (imap (λ i p, ((t + i)%nat, p.1, p.2)) (zip ns data)) = inr d →
  logMessage <$> omap id d = filter (λ e, visible o e = true) data.
Proof.
  revert t ns d. induction data as [|e r IH]; intros t [|n ns] d; try done; simpl.
  { by intros _ [= <-]. }
  intros [= Hl]. destruct (O9_jsx _ _ _ _ _ _) as [|x] eqn:Ex; [done|].
  destruct (mapE _ _) as [|ys] eqn:Ey; [done|]. intros [= <-].
  apply O9_jsx_visible in Ex. rewrite filter_cons.
  specialize (IH (S t) ns ys Hl). rewrite <- IH.
  - subst x. destruct (visible o e); case_decide; try done; by simplify_eq.
  - rewrite <- Ey. f_equal. apply imap_ext. intros. simpl. by rewrite Nat.add_succ_r.
Qed.

(** The messages the view can show: a text, or an object whose event is a string and whose
    [error_detail], if any, is a list of exceptions with a list of frames. *)
Definition wellFormedError (e : jsval) : bool :=
  match e with
  | Obj l =>
    match own "frames" l with
    | Arr fs => forallb (λ f, match f with Obj _ => true | _ => false end) fs
    | _ => false
    end
  | _ => false
  end.

Definition wellFormed (r : jsval) : bool :=
  match r with
  | Str _ => true
  | Obj l =>
    match own "event" l with Str _ => true | _ => false end &&
    match own "error_detail" l with
    | Undefined => true
    | Arr es => forallb wellFormedError es
    | _ => false
    end
  | _ => false
  end.

Lemma own_without k ks l : runes k ∉ ks → own k (without ks l) = own k l.
Proof.
  intros Hk. unfold own, without. f_equal. induction l as [|[a v] l IH]; [done|]. rewrite filter_cons. simpl.
  case_decide as Ha; simpl; [by rewrite IH|]. rewrite bool_decide_eq_false_2; [done|]. intros ->. done.
Qed.

Lemma mapE_ok {A B} (f : A → exn + B) l : (∀ x, x ∈ l → ∃ y, f x = inr y) → ∃ ys, mapE f l = inr ys.
Proof.
  induction l as [|x l IH]; intros Hf; simpl; [by eexists|]. destruct (Hf x) as [y ->]; [left|].
  destruct IH as [ys ->]; [|by eexists]. intros z Hz. apply Hf. by right.
Qed.

Lemma forallb_elem {A} (p : A → bool) l x : forallb p l = true → x ∈ l → p x = true.
Proof. intros Hp Hx. rewrite forallb_forall in Hp. by apply Hp, list_elem_of_In. Qed.

Lemma errorDetail_ok nts tF tL e : wellFormedError e = true → ∃ v, errorDetail nts tF tL e = inr v.
Proof.
  destruct e as [| | | | | |l]; try done. unfold errorDetail. simpl. fold (own "frames" l).
  destruct (own "frames" l) as [| | | | |fs|]; try done. intros Hfs. simpl.
  destruct (mapE_ok (frame nts tF tL) fs) as [ts ->]; [|by eexists]. intros f Hf.
  pose proof (forallb_elem _ _ _ Hfs Hf). destruct f; try done. by eexists.
Qed.

Lemma details_ok nts tF tL l : wellFormed (Obj l) = true →
  ∃ v, details nts tF tL (without [runes "event"; runes "level"; runes "timestamp"] l) = inr v.
Proof.
  unfold wellFormed. intros [_ He]%andb_prop. unfold details. rewrite own_without by (apply (bool_decide_unpack _); vm_compute; exact I).
  destruct (own "error_detail" l) as [| | | | |es|]; try done; [by eexists|]. simpl.
  destruct (mapE_ok (errorDetail nts tF tL) es) as [ts ->]; [|by eexists].
  intros e Hin. apply errorDetail_ok. by eapply (forallb_elem wellFormedError).
Qed.

Lemma O9_jsx_ok nts tF tL o i r : wellFormed r = true → ∃ x, O9_jsx nts tF tL o i r = inr x.
Proof.
  intros Hr. unfold O9_jsx. destruct r as [| | | |s| |l]; try done; [by eexists|]. cbn [ownProps].
  destruct (hidden _ _ _ _); [by eexists|]. destruct (details_ok nts tF tL l Hr) as [v ->].
  unfold wellFormed in Hr. apply andb_prop in Hr as [He _]. destruct (own "event" l); try done. by eexists.
Qed.

Lemma numberLines_ok data : (∀ r, r ∈ data → wellFormed r = true) → ∀ t, ∃ ns, numberLines t data = inr ns.
Proof.
  induction data as [|r data IH]; intros Hw t; simpl; [by eexists|].
  assert (∃ s, match r with Str _ => inr r | _ => get r "event" end = inr (Str s)) as [s ->].
  { specialize (Hw r). destruct r as [| | | |s| |l]; try (by discriminate Hw; left); [by eexists|].
    unfold wellFormed in Hw. destruct (own "event" l) as [| | | |s| |] eqn:E; try (by discriminate Hw; left).
    exists s. unfold get. simpl. unfold own in E. by rewrite E. }
  cbn [eventHas]. destruct IH with (t := if includes groupMark s || includes endMark s then t else S t) as [ns ->]; [|by eexists].
  intros x Hx. apply Hw. by right.
Qed.

(** C32: The log view of well-formed messages is complete.  When every message is a text or
    an object with a string [event] (and, where it has an [error_detail], a list of
    exceptions with lists of frames), rendering does not fail, and the view shows every
    message the filters let through, section marks apart, exactly once, whatever the
    sections; and in the order received as long as at most one section is still open at the
    end of the log.  (The condition is needed: see [eventless_message_hides_log].) *)
Theorem log_view_complete nts tF tL innerText o data :
  (∀ r, r ∈ data → wellFormed r = true) →
  ∃ logs sources nodes, A9 nts tF tL innerText o data = Parsed logs sources ∧
    logMessage <$> nodes = filter (λ e, visible o e = true) data ∧
    allLeaves logs ≡ₚ filter (λ n, isMark innerText n = false) nodes ∧
    ((length (openGroups innerText nodes) <= 1)%nat →
     allLeaves logs = filter (λ n, isMark innerText n = false) nodes).
Proof.
  intros Hw. unfold A9. destruct (numberLines_ok data Hw 0) as [ns En]. rewrite En.
  destruct (mapE_ok (λ '(t, n, e), O9_jsx nts tF tL o (default t n) e) (imap (λ t p, (t, p.1, p.2)) (zip ns data))) as [d Ed].
  { intros [[t n] e] (i & [n' e'] & [= -> -> ->] & Hp)%elem_of_lookup_imap_1. apply O9_jsx_ok, Hw.
    simpl. eapply elem_of_zip_r, list_elem_of_lookup_2, Hp. }
  rewrite Ed. exists (groupLines innerText (omap id d)), (foldl addSource [] data), (omap id d).
  apply numberLines_length in En. split_and!; [done| | |].
  - eapply (render_visible _ _ _ _ _ _ 0); [exact En|exact Ed].
  - apply groupLines_perm.
  - apply groupLines_order.
Qed.

(** A view without filters, and messages that show their event. *)
Definition no_filters : Options :=
  {| logLevelFilters := None; sourceFilters := None; showSource := true; showTimestamp := true |}.

Definition plain (n : Node) : jstr :=
  match logMessage n with Str s => s | v => str (λ _ _, []) (own "event" (ownProps v)) end.

Definition view := A9 (λ _ _, []) [] (λ _ _, []) plain.

Definition msg (s : string) : jsval := Str (runes s).

Definition closed_log : list jsval :=
  [msg "start"; msg "::group::Pre"; msg "x"; Obj [(runes "event", msg "y")]; msg "::endgroup::"; msg "end"].

Lemma log_view_complete_witness : ∃ logs sources nodes,
  view no_filters closed_log = Parsed logs sources ∧
  logMessage <$> nodes = filter (λ e, visible no_filters e = true) closed_log ∧
  allLeaves logs ≡ₚ filter (λ n, isMark plain n = false) nodes ∧
  ((length (openGroups plain nodes) <= 1)%nat →
   allLeaves logs = filter (λ n, isMark plain n = false) nodes).
Proof.
  apply (log_view_complete (λ _ _, []) [] (λ _ _, []) plain no_filters closed_log).
  intros r Hr. apply (forallb_elem wellFormed closed_log); [vm_compute; reflexivity|exact Hr].
Defined.

(** The sections of that log as they are shown. *)
Example closed_log_shown :
  view no_filters closed_log =
  Parsed [Line {| index := 0; logMessage := msg "start" |};
          Details 0 (runes "Pre") [Line {| index := 1; logMessage := msg "x" |};
            Line {| index := 2; logMessage := Obj [(runes "event", msg "y")] |}];
          Line {| index := 3; logMessage := msg "end" |}] [].
Proof. vm_compute. reflexivity. Qed.

(** One message without an event hides the whole log: whatever else was logged and whatever
    the filters, the view shows the warning and no message. *)
Lemma eventless_message_hides_log nts tF tL innerText o a l b : own "event" l = Undefined →
  A9 nts tF tL innerText o (a ++ Obj l :: b) = Warning.
Proof.
  intros Hl. unfold A9. enough (∀ t, ∃ x, numberLines t (a ++ Obj l :: b) = inl x) as H by (by destruct (H 0%nat) as [x ->]).
  induction a as [|r a IH]; intros t; simpl.
  - unfold get. simpl. unfold own in Hl. rewrite Hl. by eexists.
  - destruct (match r with Str _ => inr r | _ => get r "event" end) as [x|n]; [by eexists|].
    destruct (eventHas groupMark n) as [x|g]; [by eexists|]. destruct (eventHas endMark n) as [x|e]; [by eexists|].
    destruct (IH (if g || e then t else S t)) as [x ->]. by eexists.
Qed.

(** with two nested sections still open at the end, as in the log of a running
    task, the lines of the inner section are shown before those of the outer one
    that were logged earlier. *)
Theorem open_sections_reordered :
  view no_filters [msg "::group::outer"; msg "first"; msg "::group::inner"; msg "second"] =
  Parsed [Unclosed 1 (runes "inner") [Line {| index := 1; logMessage := msg "second" |}];
          Unclosed 0 (runes "outer") [Line {| index := 0; logMessage := msg "first" |}]] [].
Proof. vm_compute. reflexivity. Qed.

(** removing backspaces ends on every text; what is left is a subsequence of
    the text, keeps a backspace only where there is nothing on the line to erase,
    and is the text itself when that has no backspace. *)
Theorem backspaces_erased e : ∃ t, pHt e = Some t ∧ sublist t e ∧
  (∀ i, t !! S i = Some 8 → t !! i = Some NL) ∧ (8 ∉ e → t = e).
Proof.
  destruct (pHt_loop_ok (S (length e)) e) as (t & Ht & Hs & Hst); [lia|].
  exists t. split_and!; [done..|]. intros He. unfold pHt in Ht. simpl in Ht.
  rewrite eraseOnce_id, Nat.leb_refl in Ht by done. congruence.
Qed.

Lemma hidden_level ls d p : ls ≠ [] →
  hidden (Some ls) None (Str d) p = negb (bool_decide (d ∈ ls) && negb (bool_decide (d = []))).
Proof.
  intros. destruct ls as [|x ls]; [done|]. unfold hidden. cbn [truthy].
  rewrite orb_false_r. by destruct (bool_decide (d ∈ _)), (bool_decide (d = [])).
Qed.

Lemma not_nil_middle {A} (a b c e : list A) : c ≠ [] → a ++ (b ++ c) ++ e ≠ [].
Proof. destruct a, b, c; done. Qed.

(** in the text offered for download a level filter keeps exactly the
    messages of the levels asked for. *)
Theorem level_filter_exact nts up tF tL ls src ts l d t :
  own "level" l = Str d → ls ≠ [] →
  O9_text nts up tF tL {| logLevelFilters := Some ls; sourceFilters := None;
                          showSource := src; showTimestamp := ts |} (Obj l) = inr t →
  (t ≠ [] ↔ d ∈ ls ∧ d ≠ []).
Proof.
  intros Hd Hls. unfold O9_text. cbn [ownProps]. rewrite Hd.
  cbn [logLevelFilters sourceFilters showSource showTimestamp]. rewrite hidden_level by done.
  destruct (bool_decide_reflect (d ∈ ls)); destruct (bool_decide_reflect (d = [])); cbn [andb negb];
    [intros [= <-]; naive_solver| |intros [= <-]; naive_solver..].
  destruct (details _ _ _ _); [done|]. intros [= <-]. split; [done|]. intros _.
  by apply not_nil_middle.
Qed.

Definition sample_record : list (jstr * jsval) :=
  [(runes "event", msg "Task failed"); (runes "level", msg "error");
   (runes "logger", msg "task"); (runes "filename", msg "dag.py"); (runes "lineno", Num 7 0)].

Definition digits (m e : Z) : jstr := decimal (Z.to_nat m).

Lemma level_filter_exact_witness :
  runes "error - Task failed source=task  loc=dag.py:7 " ≠ [] ↔
  runes "error" ∈ [runes "error"; runes "critical"] ∧ runes "error" ≠ [].
Proof.
  apply (level_filter_exact digits id (runes "File") (λ _ _, []) [runes "error"; runes "critical"]
    true true sample_record (runes "error")); [reflexivity|discriminate|vm_compute; reflexivity].
Defined.

(** the downloaded text of a chain of exceptions has a stray comma between
    them. *)
Theorem chained_exceptions_joined_by_comma :
  O9_text digits id (runes "File") (λ _ _, []) no_filters
    (Obj [(runes "event", msg "failed");
          (runes "error_detail",
           Arr [Obj [(runes "exc_type", msg "A"); (runes "exc_value", msg "a"); (runes "frames", Arr [])];
                Obj [(runes "exc_type", msg "B"); (runes "exc_value", msg "b"); (runes "frames", Arr [])]])]) =
  inr (runes "failedA: a" ++ [NL] ++ runes ",B: b" ++ [NL]).
Proof. vm_compute. reflexivity. Qed.
