(* ===== verification/UiMemo.v ===== *)
(** * Memoized computations of the web UI

    The two memo helpers of the table and of the virtual list behind the UI's
    grids ([PG] and [V6]): a result is computed again when the dependencies
    changed.  Both can report their timing on the console; a time is an integer
    number of milliseconds, so that a hue is a multiple of one half. *)

From Stdlib Require Import ZArith Lia.
From stdpp Require Import base numbers strings pretty option list.
From S2P Require Import Prelude Js.

Open Scope Z_scope.

(** ** The timing report *)

(** [String(e)] padded on the left to [t] characters. *)
Definition padLeft (t : nat) (s : jstr) : jstr := replicate (t - length s) 32 ++ s.

Definition integer (z : Z) : jstr := runes (pretty z).

(** A number of halves. *)
Definition halves (z : Z) : jstr :=
  if Z.even z then integer (z / 2) else integer (z / 2) ++ runes ".5".

(** [Math.max(0, Math.min(120 - 120 * (t / 16), 120))], in halves. *)
Definition hue (t : Z) : Z := Z.max 0 (Z.min (240 - 15 * t) 240).

Definition indent : jstr := NL :: replicate 12 32.

(** The arguments of [console.info]: [e] is the time since the dependencies were
    asked for, [t] the time of the computation. *)
Definition report (e t : Z) (key : jstr) : jstr * jstr * jstr :=
  (runes "%c" ++ [9201; 32] ++ padLeft 5 (integer t) ++ runes " /" ++ padLeft 5 (integer e) ++ runes " ms",
   indent ++ runes "font-size: .6rem;" ++ indent ++ runes "font-weight: bold;"
   ++ indent ++ runes "color: hsl(" ++ halves (hue t) ++ runes "deg 100% 31%);",
   key).

Section deps.
Context {D : Type} (strictEq : D → D → bool).

(** [s.some((e, t) => r[t] !== e)]; the lists are of one length. *)
Fixpoint someDiffers (s r : list D) : bool :=
  match s, r with
  | e :: s, d :: r => negb (strictEq d e) || someDiffers s r
  | _, _ => false
  end.

(** [s.length !== r.length || s.some(...)] *)
Definition changed (s r : list D) : bool :=
  negb (length s =? length r)%nat || someDiffers s r.

Lemma changed_false s r : changed s r = false → Forall2 (λ d e, strictEq d e = true) r s.
Proof.
  unfold changed. intros H. zbool. apply Nat.eqb_eq in H. revert r H H0.
  induction s as [|e s IH]; intros [|d r]; simpl; try done.
  intros [= Hl] H. zbool. constructor; auto.
Qed.

Lemma changed_refl s : (∀ d, strictEq d d = true) → changed s s = false.
Proof.
  intros Hr. unfold changed. rewrite Nat.eqb_refl. simpl.
  induction s as [|e s IH]; simpl; [done|]. by rewrite Hr, IH.
Qed.

End deps.

(** What a call returns, what it passes to [onChange] and what it logs.  The
    result of a memo that never computed is undefined. *)
Record Outcome (R : Type) := {
  value : option R; notified : option R; info : option (jstr * jstr * jstr);
}.

(** The readings of the clock during a call. *)
Record Clock := { atStart : Z; atCompute : Z; atEnd : Z; atEnd' : Z }.
Arguments value {R}.
Arguments notified {R}.
Arguments info {R}.

(** ** The memo of the table *)

Module Table.
Section memo.
Context {D R : Type} (strictEq : D → D → bool) (t : list D → R).

(** The options: the key, when there is one, what [debug] answers, and whether
    there is an [onChange]. *)
Record Opts := { key : option jstr; debug : option bool; hasOnChange : bool }.

(** The closure of [PG]: [r] and [i]. *)
Record Memo := { deps : list D; result : option R }.

Definition init : Memo := {| deps := []; result := None |}.

Definition call (n : Opts) (k : Clock) (m : Memo) (s : list D) : Memo * Outcome R :=
  if negb (changed strictEq s (deps m)) then (m, {| value := result m; notified := None; info := None |})
  else
    let i := t s in
    ({| deps := s; result := Some i |},
     {| value := Some i;
        notified := if hasOnChange n then Some i else None;
        info :=
          match key n, debug n with
          | Some name, Some true => Some (report (atEnd k - atStart k) (atEnd' k - atCompute k) name)
          | _, _ => None
          end |}).

Fixpoint calls (n : Opts) (m : Memo) (l : list (Clock * list D)) : list (Outcome R) :=
  match l with
  | [] => []
  | (k, s) :: r => let '(m', o) := call n k m s in o :: calls n m' r
  end.

Context (t_ext : ∀ s r, Forall2 (λ d e, strictEq d e = true) r s → t s = t r).

(** The result kept is the one of the dependencies kept. *)
Definition fresh (m : Memo) : Prop := result m = Some (t (deps m)).

Lemma call_fresh n k m s : fresh m ∨ changed strictEq s (deps m) = true →
  fresh (fst (call n k m s)) ∧ value (snd (call n k m s)) = Some (t s).
Proof.
  intros H. unfold call. destruct (changed strictEq s (deps m)) eqn:E; simpl; [done|].
  apply changed_false in E as HF. destruct H as [H|H]; [|done].
  split; [done|]. rewrite H. f_equal. symmetry. by apply t_ext.
Qed.

Lemma calls_fresh n m l : fresh m → value <$> calls n m l = (λ p, Some (t p.2)) <$> l.
Proof.
  revert m. induction l as [|[k s] l IH]; intros m H; simpl; [done|].
  destruct (call_fresh n k m s (or_introl H)) as [H1 H2].
  destruct (call n k m s) as [m' o]. simpl in *. by rewrite H2, IH.
Qed.

Lemma calls_first n m k s l : changed strictEq s (deps m) = true →
  value <$> calls n m ((k, s) :: l) = (λ p, Some (t p.2)) <$> ((k, s) :: l).
Proof.
  intros Hs. simpl. destruct (call_fresh n k m s (or_intror Hs)) as [H1 H2].
  destruct (call n k m s) as [m' o]. simpl in *. by rewrite H2, calls_fresh.
Qed.

End memo.
End Table.

(** ** The memo of the virtual list *)

Module Virtual.
Section memo.
Context {D R : Type} (strictEq : D → D → bool) (t : list D → R).

Record Opts := {
  key : option jstr; debug : option bool; hasOnChange : bool; skipInitialOnChange : bool;
}.

(** The closure of [V6]: [r], [i] and [a]. *)
Record Memo := { deps : list D; result : option R; initial : bool }.

Definition init (initialDeps : option (list D)) : Memo :=
  {| deps := default [] initialDeps; result := None; initial := true |}.

Definition call (n : Opts) (k : Clock) (m : Memo) (s : list D) : Memo * Outcome R :=
  if negb (changed strictEq s (deps m)) then (m, {| value := result m; notified := None; info := None |})
  else
    let i := t s in
    ({| deps := s; result := Some i; initial := false |},
     {| value := Some i;
        notified :=
          if hasOnChange n && negb (initial m && skipInitialOnChange n) then Some i else None;
        info :=
          match key n, debug n with
          | Some name, Some true => Some (report (atEnd k - atStart k) (atEnd' k - atCompute k) name)
          | _, _ => None
          end |}).

(** [o.updateDeps] *)
Definition updateDeps (d : list D) (m : Memo) : Memo :=
  {| deps := d; result := result m; initial := initial m |}.

Fixpoint calls (n : Opts) (m : Memo) (l : list (Clock * list D)) : list (Outcome R) :=
  match l with
  | [] => []
  | (k, s) :: r => let '(m', o) := call n k m s in o :: calls n m' r
  end.

Context (t_ext : ∀ s r, Forall2 (λ d e, strictEq d e = true) r s → t s = t r).

(** The result kept is the one of the dependencies kept. *)
Definition fresh (m : Memo) : Prop := result m = Some (t (deps m)).

Lemma vcall_fresh n k m s : fresh m ∨ changed strictEq s (deps m) = true →
  fresh (fst (call n k m s)) ∧ value (snd (call n k m s)) = Some (t s).
Proof.
  intros H. unfold call. destruct (changed strictEq s (deps m)) eqn:E; simpl; [done|].
  apply changed_false in E as HF. destruct H as [H|H]; [|done].
  split; [done|]. rewrite H. f_equal. symmetry. by apply t_ext.
Qed.

Lemma vcalls_fresh n m l : fresh m → value <$> calls n m l = (λ p, Some (t p.2)) <$> l.
Proof.
  revert m. induction l as [|[k s] l IH]; intros m H; simpl; [done|].
  destruct (vcall_fresh n k m s (or_introl H)) as [H1 H2].
  destruct (call n k m s) as [m' o]. simpl in *. by rewrite H2, IH.
Qed.

Lemma vcalls_first n m k s l : changed strictEq s (deps m) = true →
  value <$> calls n m ((k, s) :: l) = (λ p, Some (t p.2)) <$> ((k, s) :: l).
Proof.
  intros Hs. simpl. destruct (vcall_fresh n k m s (or_intror Hs)) as [H1 H2].
  destruct (call n k m s) as [m' o]. simpl in *. by rewrite H2, vcalls_fresh.
Qed.

End memo.
End Virtual.

(** ** Properties *)

(** a memo of the table is transparent: whatever the calls, each returns what
    the function gives on the dependencies of that call, provided the first call
    has dependencies and the function does not tell strictly equal ones apart. *)
Theorem table_memo_transparent {D R} (strictEq : D → D → bool) (t : list D → R) n k s l :
  (∀ s r, Forall2 (λ d e, strictEq d e = true) r s → t s = t r) → s ≠ [] →
  value <$> Table.calls strictEq t n Table.init ((k, s) :: l) =
  (λ p, Some (t p.2)) <$> ((k, s) :: l).
Proof.
  intros Ht Hs. apply Table.calls_first; [done|]. destruct s; [done|reflexivity].
Qed.

Definition clock0 : Clock := {| atStart := 0; atCompute := 1; atEnd := 9; atEnd' := 9 |}.

Definition opts0 : Table.Opts :=
  {| Table.key := Some (runes "rows"); Table.debug := Some true; Table.hasOnChange := true |}.

Lemma table_memo_transparent_witness :
  value <$> Table.calls Z.eqb (foldr Z.add 0) opts0 Table.init
    [(clock0, [1; 2]); (clock0, [1; 2]); (clock0, [3]); (clock0, [])] =
  [Some 3; Some 3; Some 3; Some 0].
Proof.
  rewrite (table_memo_transparent Z.eqb (foldr Z.add 0) opts0 clock0 [1; 2]); [reflexivity| |discriminate].
  intros s r H. f_equal. induction H as [|x y ? ? E _ IH]; [done|].
  apply Z.eqb_eq in E. by subst.
Defined.

(** a memo of the virtual list is transparent once its dependencies differ
    from the initial ones, and [onChange] gets every value computed; the first one
    only when it is not to be skipped. *)
Theorem virtual_memo_transparent {D R} (strictEq : D → D → bool) (t : list D → R) n d k s l :
  (∀ s r, Forall2 (λ d e, strictEq d e = true) r s → t s = t r) →
  changed strictEq s (default [] d) = true →
  value <$> Virtual.calls strictEq t n (Virtual.init d) ((k, s) :: l) =
    (λ p, Some (t p.2)) <$> ((k, s) :: l) ∧
  notified (snd (Virtual.call strictEq t n k (Virtual.init d) s)) =
    (if Virtual.hasOnChange n && negb (Virtual.skipInitialOnChange n) then Some (t s) else None).
Proof.
  intros Ht Hs. split; [by apply Virtual.vcalls_first|]. unfold Virtual.call. simpl. by rewrite Hs.
Qed.

Definition vopts0 : Virtual.Opts :=
  {| Virtual.key := None; Virtual.debug := None; Virtual.hasOnChange := true;
     Virtual.skipInitialOnChange := true |}.

Lemma virtual_memo_transparent_witness :
  value <$> Virtual.calls Z.eqb (foldr Z.add 0) vopts0 (Virtual.init (Some [7]))
    [(clock0, [1; 2]); (clock0, [7])] = [Some 3; Some 7].
Proof.
  rewrite (proj1 (virtual_memo_transparent Z.eqb (foldr Z.add 0) vopts0 (Some [7]) clock0 [1; 2]
    [(clock0, [7])] ltac:(intros s r H; f_equal; induction H as [|x y ? ? E _ IH]; [done|];
       apply Z.eqb_eq in E; by subst) eq_refl)).
  reflexivity.
Defined.

(** a memo of the table that is first asked without dependencies never
    computes: it returns undefined. *)
Theorem table_memo_without_deps {D R} (strictEq : D → D → bool) (t : list D → R) n ks :
  value <$> Table.calls strictEq t n Table.init ((λ k, (k, [])) <$> ks) = (λ _, None) <$> ks.
Proof. induction ks as [|k ks IH]; [done|]. simpl. f_equal. exact IH. Qed.

(** The report of a computation of seven milliseconds and a half hue. *)
Example report_text : info (snd (Table.call Z.eqb (foldr Z.add 0) opts0
    {| atStart := 0; atCompute := 2; atEnd := 12; atEnd' := 9 |} Table.init [1])) =
  Some (runes "%c" ++ [9201; 32] ++ runes "    7 /   12 ms",
    indent ++ runes "font-size: .6rem;" ++ indent ++ runes "font-weight: bold;"
    ++ indent ++ runes "color: hsl(67.5deg 100% 31%);", runes "rows").
Proof. vm_compute. reflexivity. Qed.
