(* ===== verification/UiKeys.v ===== *)
(** * Key combinations of the graph view

    The key handling of the graph view ([uU], with [Pdt] and [dU]): a combination
    such as [Meta+a] is active while its keys are held.  The events of the document
    are the steps; the hook's refs and state are the state. *)

From Stdlib Require Import ZArith Lia.
From stdpp Require Import base numbers strings gmap option list.
From S2P Require Import Prelude Js.

Open Scope Z_scope.

(** ** Combinations *)

(** [s.replace(p, r)] for a string pattern: the first occurrence. *)
Fixpoint replaceFirst (p r s : jstr) : jstr :=
  if startsWith p s then r ++ drop (length p) s
  else match s with [] => [] | c :: s' => c :: replaceFirst p r s' end.

Definition PLUS : Z := 43.

(** The keys of one combination. *)
Definition parseKeys (e : jstr) : list jstr :=
  split NL (replaceFirst [NL; NL] [NL; PLUS] (replaceFirst [PLUS] [NL] e)).

(** [useMemo]: the combinations and all their keys; an argument that is null has
    none, an item that is not a string is left out. *)
Definition keyCodes (e : option (list jsval)) : list (list jstr) * list jstr :=
  match e with
  | None => ([], [])
  | Some l =>
    let t := omap (λ v, match v with Str s => Some (parseKeys s) | _ => None end) l in
    (t, concat t)
  end.

(** ** Events *)

Record KeyEvent := {
  code : jstr; key : jstr;
  ctrlKey : bool; metaKey : bool; shiftKey : bool; altKey : bool;
  (** whether the event comes from a text field ([vut]) *)
  fromInput : bool;
  (** the name of the node under the event *)
  nodeName : option jstr;
}.

Inductive Event :=
  | Keydown (e : KeyEvent)
  | Keyup (e : KeyEvent)
  | Reset. (** the window loses the focus or opens a context menu *)

Record Options := { actInsideInputWithModifier : bool; preventDefault : bool }.

(** The state [n] and the refs [i] and [a]. *)
Record State := { active : bool; modifier : bool; pressed : gset jstr }.

Definition init : State := {| active := false; modifier := false; pressed := ∅ |}.

(** [Pdt(e, t, n)] *)
Definition Pdt (e : list (list jstr)) (t : gset jstr) (n : bool) : bool :=
  existsb (forallb (λ k, bool_decide (k ∈ t)))
    (filter (λ c, n = true ∨ length c = size t) e).

(** [e[dU(e.code, s)]] *)
Definition keyOf (s : list jstr) (e : KeyEvent) : jstr :=
  if bool_decide (code e ∈ s) then code e else key e.

Section handlers.
Context (opts : Options) (codes : list (list jstr) * list jstr).

(** The handler of [keydown], and whether it prevented the default action. *)
Definition keydown (st : State) (e : KeyEvent) : State * bool :=
  let m := ctrlKey e || metaKey e || shiftKey e || altKey e in
  if (negb m || (m && negb (actInsideInputWithModifier opts))) && fromInput e then
    ({| active := active st; modifier := m; pressed := pressed st |}, false)
  else
    let a := {[ keyOf codes.2 e ]} ∪ pressed st in
    if Pdt codes.1 a false then
      let button :=
        match nodeName e with
        | Some n => bool_decide (n ∈ [runes "BUTTON"; runes "A"])
        | None => false
        end in
      ({| active := true; modifier := m; pressed := a |}, preventDefault opts && (m || negb button))
    else ({| active := active st; modifier := m; pressed := a |}, false).

(** The handler of [keyup]. *)
Definition keyup (st : State) (e : KeyEvent) : State :=
  let '(n, a) :=
    if Pdt codes.1 (pressed st) true then (false, ∅)
    else (active st, pressed st ∖ {[ keyOf codes.2 e ]}) in
  {| active := n; modifier := false;
     pressed := if bool_decide (key e = runes "Meta") then ∅ else a |}.

(** The handler of [blur] and [contextmenu]. *)
Definition reset (st : State) : State :=
  {| active := false; modifier := modifier st; pressed := ∅ |}.

Definition handle (st : State) (e : Event) : State :=
  match e with
  | Keydown k => fst (keydown st k)
  | Keyup k => keyup st k
  | Reset => reset st
  end.

Definition run (l : list Event) : State := foldl handle init l.

(** All keys of some combination are held. *)
Definition held (st : State) : Prop := ∃ c, c ∈ codes.1 ∧ ∀ k, k ∈ c → k ∈ pressed st.

Lemma Pdt_true a n : Pdt codes.1 a n = true ↔
  ∃ c, c ∈ codes.1 ∧ (n = true ∨ length c = size a) ∧ ∀ k, k ∈ c → k ∈ a.
Proof.
  unfold Pdt. rewrite existsb_exists. split.
  - intros (c & Hc & Hk). apply list_elem_of_In, list_elem_of_filter in Hc as [Hs Hc].
    exists c. split_and!; [done..|]. intros k Hin. rewrite forallb_forall in Hk.
    apply list_elem_of_In, Hk, bool_decide_eq_true in Hin. done.
  - intros (c & Hc & Hs & Hk). exists c. split.
    + by apply list_elem_of_In, list_elem_of_filter.
    + apply forallb_forall. intros k Hin. apply bool_decide_eq_true, Hk, list_elem_of_In, Hin.
Qed.

Lemma handle_held st e : (active st = true → held st) → active (handle st e) = true → held (handle st e).
Proof.
  intros H. destruct e as [e|e|]; simpl.
  - unfold keydown. case_match; simpl; [done|]. case_match; simpl.
    + intros _. apply Pdt_true in H1 as (c & Hc & _ & Hk). by exists c.
    + intros (c & Hc & Hk)%H. exists c. split; [done|]. simpl. set_solver.
  - unfold keyup. destruct (Pdt _ _ true) eqn:E; simpl; [done|]. intros (c & Hc & Hk)%H.
    assert (Pdt codes.1 (pressed st) true = true) as E'; [|congruence].
    apply Pdt_true. exists c. auto.
  - done.
Qed.

End handlers.

Lemma run_held opts codes l : active (run opts codes l) = true → held codes (run opts codes l).
Proof.
  unfold run. assert (active init = true → held codes init) as H by done.
  revert H. generalize init. induction l as [|e l IH]; intros st H; simpl; [done|].
  apply IH. by apply handle_held.
Qed.

(** The keys held after pressing [es], none of them in a text field. *)
Lemma run_presses opts codes es : Forall (λ e, fromInput e = false) es →
  pressed (run opts codes (Keydown <$> es)) = list_to_set (keyOf codes.2 <$> es).
Proof.
  intros H. unfold run. induction es as [|e es IH] using rev_ind; [done|].
  apply Forall_app in H as [H [He _]%Forall_cons]. rewrite !fmap_app, foldl_app, list_to_set_app_L. simpl.
  unfold keydown. rewrite He, andb_false_r, IH by done. case_match; simpl; set_solver.
Qed.

Lemma replaceFirst_none p r s : includes p s = false → replaceFirst p r s = s.
Proof.
  induction s as [|c s IH]; simpl; rewrite orb_false_iff; intros [-> H]; [done|].
  by rewrite IH.
Qed.

Lemma replaceFirst_at c r a b : c ∉ a → replaceFirst [c] r (a ++ c :: b) = a ++ r ++ b.
Proof.
  induction a as [|x a IH]; simpl.
  - by rewrite Z.eqb_refl.
  - rewrite not_elem_of_cons. intros [Hx Ha]. destruct (Z.eqb_spec c x); [done|]. simpl. by rewrite IH.
Qed.

Lemma split_pair a b : NL ∉ a → NL ∉ b → split NL (a ++ NL :: b) = [a; b].
Proof.
  intros. change (a ++ NL :: b) with (join [NL] [a; b]). apply split_join; [done|].
  by repeat constructor.
Qed.

Lemma no_blank_line a b : NL ∉ a → NL ∉ b → includes [NL; NL] (a ++ NL :: b) = false.
Proof.
  intros Ha Hb. apply not_true_iff_false. rewrite includes_spec. intros (l & r & E).
  apply (f_equal (split NL)) in E. rewrite split_pair in E by done.
  destruct (split_app NL l ([NL; NL] ++ r)) as (ps & p & q & qs & F1 & F2 & F3).
  rewrite F3 in E. simpl in F2. injection F2 as <- F2.
  apply (f_equal length) in E. rewrite length_app in E. simpl in E. rewrite <- F2 in E. simpl in E.
  pose proof (split_nonempty NL r). destruct (split NL r); simpl in *; [done|lia].
Qed.

(** ** Properties *)

(** The keys that are down after the events [l], from the events alone: a key was pressed
    under a name and since then neither released under that name nor was there a reset. *)
Definition isDown (all : list jstr) (l : list Event) (k : jstr) : Prop :=
  ∃ pre e post, l = pre ++ Keydown e :: post ∧ keyOf all e = k ∧ Reset ∉ post ∧
    ∀ e', Keyup e' ∈ post → keyOf all e' ≠ k.

Lemma isDown_snoc all l k ev : isDown all l k → ev ≠ Reset → (∀ e, ev = Keyup e → keyOf all e ≠ k) → isDown all (l ++ [ev]) k.
Proof.
  intros (pre & e & post & -> & Hk & Hr & Hu) Hev Hup. exists pre, e, (post ++ [ev]). split_and!; [by rewrite <- app_assoc|done| |].
  - rewrite elem_of_app, list_elem_of_singleton. naive_solver.
  - intros e'. rewrite elem_of_app, list_elem_of_singleton. naive_solver.
Qed.

(** The hook knows only keys that are down. *)
Lemma pressed_down opts codes l k : k ∈ pressed (run opts codes l) → isDown codes.2 l k.
Proof.
  revert k. induction l as [|ev l IH] using rev_ind; intros k; [unfold run; simpl; set_solver|].
  unfold run. rewrite foldl_app. fold (run opts codes l). set (st := run opts codes l) in *. cbn [foldl]. destruct ev as [e|e|]; cbn [handle].
  - unfold keydown. intros Hk. assert (k ∈ pressed st ∨ k = keyOf codes.2 e) as [Hin| ->].
    { repeat (case_match; simpl in Hk); set_solver. }
    + apply isDown_snoc; [by apply IH|done|done].
    + exists l, e, []. split_and!; [done..|by apply not_elem_of_nil|by intros ? ?%elem_of_nil].
  - unfold keyup. intros Hk. assert (k ∈ pressed st ∧ k ≠ keyOf codes.2 e) as [Hin Hne].
    { repeat (case_match; simpl in Hk); set_solver. }
    apply isDown_snoc; [by apply IH|done|]. intros e' [= ->]. done.
  - simpl. set_solver.
Qed.

(** C38: A combination is active only while its keys are down.  After every sequence of key
    and window events: when the hook reports the combination active, there is a combination
    each key of which was pressed and since then not released under that name, with no loss
    of focus or context menu in between; the first key released then, whichever it is, ends it
    and makes the hook forget the keys.  A key is known by the name that its events carry
    (its code when the combinations have it); a release under another name is no release of
    it, see [shifted_key_stays_down]. *)
Theorem active_keys_are_held opts codes l k :
  active (run opts codes l) = true →
  (∃ c, c ∈ codes.1 ∧ ∀ x, x ∈ c → isDown codes.2 l x) ∧
  active (run opts codes (l ++ [Keyup k])) = false ∧
  pressed (run opts codes (l ++ [Keyup k])) = ∅.
Proof.
  intros (c & Hc & Hk)%run_held. split; [exists c; split; [done|]; intros x Hx; by eapply pressed_down, Hk|].
  unfold run. rewrite foldl_app. simpl. fold (run opts codes l). unfold keyup.
  assert (Pdt codes.1 (pressed (run opts codes l)) true = true) as ->.
  { apply Pdt_true. exists c. auto. }
  simpl. split; [done|]. by case_bool_decide.
Qed.

(** a combination written with a plus has two keys, the second of which is all
    that follows the first plus, a plus too; pressing the keys one after the other,
    not in a text field, makes it active. *)
Theorem combination_activates opts a b e1 e2 :
  a ≠ b → NL ∉ a → NL ∉ b → PLUS ∉ a →
  let codes := keyCodes (Some [Str (a ++ PLUS :: b)]) in
  keyOf codes.2 e1 = a → keyOf codes.2 e2 = b → fromInput e1 = false → fromInput e2 = false →
  codes = ([[a; b]], [a; b]) ∧ active (run opts codes [Keydown e1; Keydown e2]) = true.
Proof.
  intros Hab Ha Hb Hpa. assert (parseKeys (a ++ PLUS :: b) = [a; b]) as Hp.
  { unfold parseKeys. rewrite replaceFirst_at by done. simpl.
    rewrite replaceFirst_none by by apply no_blank_line.
    by apply split_pair. }
  simpl. rewrite Hp. simpl. intros K1 K2 F1 F2. split; [done|].
  unfold run. simpl. set (st := fst (keydown opts _ init e1)).
  assert (pressed st = {[ a ]}) as Hst.
  { unfold st, keydown. rewrite F1, andb_false_r. simpl. rewrite K1. case_match; simpl; set_solver. }
  unfold keydown. rewrite F2, andb_false_r. simpl. rewrite K2, Hst.
  assert (Pdt [[a; b]] ({[b]} ∪ {[a]}) false = true) as ->; [|done].
  apply (Pdt_true ([[a; b]], [])). exists [a; b]. split_and!; [left|right| ].
  - rewrite size_union by set_solver. by rewrite !size_singleton.
  - set_solver.
Qed.

Definition press (s : string) : KeyEvent :=
  {| code := []; key := runes s; ctrlKey := false; metaKey := false; shiftKey := false; altKey := false;
     fromInput := false; nodeName := None |}.

Definition defaults : Options := {| actInsideInputWithModifier := true; preventDefault := true |}.

Lemma combination_activates_witness :
  keyCodes (Some [Str (runes "Control++")]) =
    ([[runes "Control"; runes "+"]], [runes "Control"; runes "+"]) ∧
  active (run defaults (keyCodes (Some [Str (runes "Control++")]))
            [Keydown (press "Control"); Keydown (press "+")]) = true.
Proof.
  apply (combination_activates defaults (runes "Control") (runes "+") (press "Control") (press "+"));
    try reflexivity; apply (bool_decide_unpack _); vm_compute; reflexivity.
Defined.

Lemma active_keys_are_held_witness :
  let codes := keyCodes (Some [Str (runes "Meta+a")]) in
  ∃ c, c ∈ codes.1 ∧ ∀ x, x ∈ c → isDown codes.2 [Keydown (press "Meta"); Keydown (press "a")] x.
Proof.
  apply (active_keys_are_held defaults (keyCodes (Some [Str (runes "Meta+a")]))
    [Keydown (press "Meta"); Keydown (press "a")] (press "a")).
  vm_compute. reflexivity.
Defined.

(** A key pressed with shift and released without it stays pressed for the hook: its events
    carry two names.  The combination of its first name and another key is then active
    although the key is up. *)
Lemma shifted_key_stays_down :
  active (run defaults (keyCodes (Some [Str (runes "A+b")]))
    [Keydown (press "Shift"); Keydown (press "A"); Keyup (press "Shift"); Keyup (press "a"); Keydown (press "b")]) = true.
Proof. vm_compute. reflexivity. Qed.

(** the plus key alone cannot be a combination: it is read as two empty keys,
    so that pressing plus never activates it. *)
Theorem lone_plus_never_active :
  keyCodes (Some [Str (runes "+")]) = ([[[]; []]], [[]; []]) ∧
  active (run defaults (keyCodes (Some [Str (runes "+")])) [Keydown (press "+")]) = false.
Proof. vm_compute. auto. Qed.
