(* ===== verification/Axios.v ===== *)
(** * The HTTP client of the web UI

    The parts of axios every request of the UI goes through and that are text
    processing: response headers ([bKe]), the header map ([Gj]), the choice of an
    adapter ([YKe]) and the stack trace of a failed request ([pM.request]).

    Case mapping is a parameter [lower], assumed idempotent where a theorem needs
    it.  Properties of an object are listed in the order they were set; names that are
    array indices, which an object lists first, are left out of the theorem that depends
    on the order. *)

From Stdlib Require Import ZArith Lia.
From stdpp Require Import base numbers strings option list.
From S2P Require Import Prelude Js.

Open Scope Z_scope.

(** ** Values *)

(** A header value: a string, several strings, [false], or nothing. *)
Inductive hval := Val (s : jstr) | Vals (l : list jstr) | Off | Nothing.

#[export] Instance hval_eq_dec : EqDecision hval.
Proof. solve_decision. Defined.

Abbreviation headers := (list (jstr * hval)).

Fixpoint find (k : jstr) (h : headers) : option hval :=
  match h with
  | [] => None
  | (k', v) :: r => if bool_decide (k' = k) then Some v else find k r
  end.

(** [h[k] = v] *)
Fixpoint put (k : jstr) (v : hval) (h : headers) : headers :=
  match h with
  | [] => [(k, v)]
  | (k', v') :: r => if bool_decide (k' = k) then (k, v) :: r else (k', v') :: put k v r
  end.

(** [delete h[k]] *)
Definition remove (k : jstr) (h : headers) : headers := filter (λ p, p.1 ≠ k) h.

Definition present (v : option hval) : bool :=
  match v with
  | Some (Val s) => negb (bool_decide (s = []))
  | Some (Vals _) => true
  | _ => false
  end.

Section client.
Context (lower : jstr → jstr).

(** ** Parsing response headers *)

(** [Vj] *)
Definition ignoreDuplicateOf : list jstr :=
  runes <$> ["age"; "authorization"; "content-length"; "content-type"; "etag"; "expires"; "from";
    "host"; "if-modified-since"; "if-unmodified-since"; "last-modified"; "location"; "max-forwards";
    "proxy-authorization"; "referer"; "retry-after"; "user-agent"].

(** What every object literal inherits: such a name is found, as something that is not
    nothing, in [t] and in [Vj] both. *)
Definition inheritedName (n : jstr) : bool :=
  bool_decide (n ∈ runes <$> ["constructor"; "__proto__"; "toString"; "valueOf"; "hasOwnProperty"; "isPrototypeOf"; "toLocaleString";
    "propertyIsEnumerable"; "__defineGetter__"; "__defineSetter__"; "__lookupGetter__"; "__lookupSetter__"]).

(** [t[n]] and [Vj[n]], as conditions *)
Definition holds (n : jstr) (t : headers) : bool :=
  match find n t with None => inheritedName n | v => present v end.
Definition ignoresDuplicate (n : jstr) : bool := bool_decide (n ∈ ignoreDuplicateOf) || inheritedName n.

Definition COLON : Z := 58.

(** [e.substring(0, i)] and [e.substring(i + 1)] around the first colon; without
    one the name is empty. *)
Fixpoint atColon (e : jstr) : option (jstr * jstr) :=
  match e with
  | [] => None
  | c :: r =>
    if c =? COLON then Some ([], r)
    else match atColon r with Some (a, b) => Some (c :: a, b) | None => None end
  end.

(** The body of the loop over the lines. *)
Definition parseLine (t : headers) (e : jstr) : headers :=
  let '(a, b) := default ([], e) (atColon e) in
  let n := lower (trim a) in
  let r := trim b in
  if bool_decide (n = []) || (holds n t && ignoresDuplicate n) then t
  else if bool_decide (n = runes "set-cookie") then
    match find n t with
    | Some (Vals l) => put n (Vals (l ++ [r])) t
    | _ => put n (Vals [r]) t
    end
  else
    match find n t with
    | Some (Val ((_ :: _) as s)) => put n (Val (s ++ runes ", " ++ r)) t
    | _ => put n (Val r) t
    end.

(** [bKe(e)] *)
Definition parseHeaders (e : jstr) : headers :=
  if bool_decide (e = []) then [] else foldl parseLine [] (split NL e).

(** ** The header map *)

(** [Uj] *)
Definition normalizeName (e : jstr) : jstr := lower (trim e).

(** [Oj.findKey]: the last key that is equal without regard to case. *)
Definition findKey (h : headers) (k : jstr) : option jstr :=
  last (filter (λ k', lower k' = lower k) h.*1).

(** [xKe] *)
Definition validValue (s : jstr) : bool := negb (existsb (λ c, (c =? 13) || (c =? 10)) s).

(** [SKe]: whether the value may be sent. *)
Definition assertValid (v : hval) : bool :=
  match v with
  | Val s => validValue s
  | Vals l => forallb validValue l
  | Off | Nothing => true
  end.

(** [CKe]: line ends at the end of a value go. *)
Definition stripEnd (s : jstr) : jstr :=
  reverse ((fix drop (l : jstr) : jstr :=
    match l with [] => [] | c :: r => if (c =? 10) || (c =? 13) then drop r else l end) (reverse s)).

(** [wKe] *)
Definition sanitize (v : hval) : hval :=
  match v with
  | Val s => Val (stripEnd s)
  | Vals l => Vals (map stripEnd l)
  | v => v
  end.

(** The inner function of [set]: [n] is the rewrite flag. *)
Definition setHeader (h : headers) (v : hval) (t : jstr) (n : option bool) : exn + headers :=
  let i := normalizeName t in
  if bool_decide (i = []) then throw (runes "header name must be a non-empty string")
  else
    let a := findKey h i in
    let old := match a with Some k => find k h | None => None end in
    let free :=
      match a, old with
      | None, _ | _, None | _, Some Nothing => true
      | _, _ => false
      end in
    if free || bool_decide (n = Some true) || (bool_decide (n = None) && negb (bool_decide (old = Some Off)))
    then
      if assertValid v then inr (put (default t a) (sanitize v) h)
      else throw (runes "Invalid character in header content [" ++ [34] ++ t ++ [34] ++ runes "]")
    else inr h.

(** [set] of an object: the headers set before an exception stay. *)
Fixpoint setAll (h : headers) (l : headers) (n : option bool) : headers * option exn :=
  match l with
  | [] => (h, None)
  | (k, v) :: r =>
    match setHeader h v k n with
    | inl x => (h, Some x)
    | inr h' => setAll h' r n
    end
  end.

(** [TKe]: the characters of a header name. *)
Definition nameChar (c : Z) : bool :=
  ((48 <=? c) && (c <=? 57)) || ((65 <=? c) && (c <=? 90)) || ((97 <=? c) && (c <=? 122))
  || bool_decide (c ∈ runes "-_^`|~,!#$%&'*+.").

Definition isName (e : jstr) : bool := negb (bool_decide (trim e = [])) && forallb nameChar (trim e).

(** [set(e, t, n)] of a text: when it is a name, [t] is the value and [n] the flag;
    otherwise it is header lines, and [t] is the flag. *)
Definition setName (h : headers) (e : jstr) (t : hval) (n : option bool) : exn + headers :=
  setHeader h t (trim e) n.

Definition setLines (h : headers) (e : jstr) (t : option bool) : headers * option exn :=
  setAll h (parseHeaders (trim e)) t.

(** [get(e)] *)
Definition getHeader (h : headers) (e : jstr) : option hval :=
  let e' := normalizeName e in
  if bool_decide (e' = []) then None
  else match findKey h e' with Some k => find k h | None => None end.

(** [has(e)] *)
Definition hasHeader (h : headers) (e : jstr) : bool :=
  match getHeader h e with None => false | Some Nothing => false | Some _ => true end.

(** [delete(e)] *)
Definition deleteHeader (h : headers) (e : jstr) : headers * bool :=
  let e' := normalizeName e in
  if bool_decide (e' = []) then (h, false)
  else match findKey h e' with Some k => (remove k h, true) | None => (h, false) end.

(** [toJSON(e)]: the headers that are on; [e] joins the values of one header. *)
Definition toJSON (h : headers) (e : bool) : headers :=
  omap (λ p,
    match p.2 with
    | Nothing | Off => None
    | Vals l => Some (p.1, if e then Val (join (runes ", ") l) else Vals l)
    | v => Some (p.1, v)
    end) h.

(** [toString()]: several values are joined as an array is. *)
Definition headersToString (h : headers) : jstr :=
  join [NL] (map (λ p, p.1 ++ runes ": " ++
    match p.2 with Val s => s | Vals l => join (runes ",") l | _ => [] end) (toJSON h false)).

End client.

(** ** Choosing an adapter *)

(** What a known adapter is: nothing, off in this environment, a function, or a
    getter that gives one for the request. *)
Inductive adapter (F : Type) :=
  | ANull
  | AFalse
  | AFun (f : F)
  | AGet (f : F).
Arguments ANull {F}.
Arguments AFalse {F}.
Arguments AFun {F} f.
Arguments AGet {F} f.

(** What a configuration asks for: a function, nothing, or a name. *)
Inductive request (F : Type) :=
  | RFun (f : F)
  | RNull
  | RFalse
  | RName (s : jstr).
Arguments RFun {F} f.
Arguments RNull {F}.
Arguments RFalse {F}.
Arguments RName {F} s.

Section adapters.
Context {F : Type} (lower : jstr → jstr).
(** [KKe]: the adapters of the build by their names. *)
Context (known : jstr → option (adapter F)).

(** One turn of the loop: the adapter, or the name and the state to report ([true]
    for one that the environment does not support), or an unknown name. *)
Definition tryAdapter (o : nat) (r : request F) : exn + (F + jstr * bool) :=
  let no (n : jstr) (unsupported : bool) := inr (inr (n, unsupported)) in
  match r with
  | RFun f => inr (inl f)
  | RNull => no (runes "#" ++ decimal o) false
  | RFalse => no (runes "#" ++ decimal o) true
  | RName n =>
    match known (lower n) with
    | None => throw (runes "Unknown adapter '" ++ n ++ runes "'")
    | Some ANull => no (if bool_decide (n = []) then runes "#" ++ decimal o else n) false
    | Some AFalse => no (if bool_decide (n = []) then runes "#" ++ decimal o else n) true
    | Some (AFun f) | Some (AGet f) => inr (inl f)
    end
  end.

(** [a[n] = i] *)
Fixpoint note (n : jstr) (b : bool) (a : list (jstr * bool)) : list (jstr * bool) :=
  match a with
  | [] => [(n, b)]
  | (n', b') :: r => if bool_decide (n' = n) then (n, b) :: r else (n', b') :: note n b r
  end.

Fixpoint adapterLoop (o : nat) (e : list (request F)) (a : list (jstr * bool))
    : exn + (F + list (jstr * bool)) :=
  match e with
  | [] => inr (inr a)
  | r :: e' =>
    match tryAdapter o r with
    | inl x => inl x
    | inr (inl f) => inr (inl f)
    | inr (inr (n, b)) => adapterLoop (S o) e' (note n b a)
    end
  end.

Definition reason (p : jstr * bool) : jstr :=
  runes "adapter " ++ p.1 ++ runes " "
  ++ (if p.2 then runes "is not supported by the environment"
      else runes "is not available in the build").

Definition bullet (e : jstr) : jstr := runes "- " ++ e.

(** [YKe(e, t)] *)
Definition getAdapter (e : list (request F)) : exn + F :=
  match adapterLoop 0 e [] with
  | inl x => inl x
  | inr (inl f) => inr f
  | inr (inr a) =>
    let l := map reason a in
    throw (runes "There is no suitable adapter to dispatch the request "
      ++ (if bool_decide (e = []) then runes "as no adapter specified"
          else if (1 <? length l)%nat then runes "since :" ++ [NL] ++ join [NL] (map bullet l)
          else runes " " ++ bullet (default (runes "undefined") (head l))))
  end.

End adapters.

(** ** The stack trace of a failed request *)

(** [s.indexOf("\n")] and what follows it. *)
Fixpoint afterBreak (s : jstr) : option jstr :=
  match s with
  | [] => None
  | c :: r => if c =? NL then Some r else afterBreak r
  end.

Definition endsWith (p s : jstr) : bool := startsWith (reverse p) (reverse s).

(** [n]: the caller's stack without its first line. *)
Definition callerStack (stack : option jstr) : jstr :=
  match stack with Some s => default [] (afterBreak s) | None => [] end.

(** The stack the error is thrown with. *)
Definition mergeStack (stack : option jstr) (n : jstr) : jstr :=
  match stack with
  | None | Some [] => n
  | Some s =>
    if bool_decide (n = []) then s
    else
      let i := match afterBreak n with Some r => default [] (afterBreak r) | None => [] end in
      if endsWith i s then s else s ++ [NL] ++ n
  end.

(** ** Lemmas *)

Lemma find_put k k' v h : find k (put k' v h) = if bool_decide (k' = k) then Some v else find k h.
Proof.
  induction h as [|[a w] h IH]; simpl; [done|].
  repeat (case_bool_decide; simpl; subst; try done).
Qed.

Lemma put_fresh k v h : k ∉ h.*1 → put k v h = h ++ [(k, v)].
Proof.
  induction h as [|[a w] h IH]; csimpl; [done|]. rewrite not_elem_of_cons. intros [Ha Hh].
  rewrite bool_decide_eq_false_2, IH by done. done.
Qed.

Lemma find_fresh k h : k ∉ h.*1 → find k h = None.
Proof.
  induction h as [|[a w] h IH]; csimpl; [done|]. rewrite not_elem_of_cons. intros [Ha Hh].
  by rewrite bool_decide_eq_false_2, IH by done.
Qed.

(** The keys of the map, with those of [put]. *)
Lemma put_keys k v h : (put k v h).*1 = if bool_decide (k ∈ h.*1) then h.*1 else h.*1 ++ [k].
Proof.
  induction h as [|[a w] h IH]; csimpl; [done|].
  destruct (bool_decide_reflect (a = k)) as [->|Ha]; csimpl.
  - rewrite bool_decide_eq_true_2; [done|left].
  - rewrite IH, (bool_decide_ext (k ∈ a :: h.*1) (k ∈ h.*1)) by (rewrite elem_of_cons; naive_solver).
    by case_bool_decide.
Qed.

Definition clean (h : headers) : Prop := Forall (λ p, assertValid p.2 = true) h.

Lemma put_clean k v h : assertValid v = true → clean h → clean (put k v h).
Proof.
  intros Hv. induction 1 as [|[a w] h Hw Hh IH]; simpl; [by repeat constructor|].
  case_bool_decide; constructor; done.
Qed.

Lemma stripEnd_valid s : validValue s = true → stripEnd s = s.
Proof.
  unfold validValue, stripEnd. rewrite negb_true_iff. intros H.
  destruct (reverse s) as [|c r] eqn:E.
  - rewrite <- (reverse_involutive s), E. done.
  - assert (existsb (λ c, (c =? 13) || (c =? 10)) (reverse s) = false) as H'.
    { apply not_true_iff_false. rewrite existsb_exists. intros (x & Hx & Hp).
      assert (existsb (λ c, (c =? 13) || (c =? 10)) s = true); [|congruence].
      apply existsb_exists. exists x. split; [|done].
      apply list_elem_of_In, elem_of_reverse, list_elem_of_In, Hx. }
    rewrite E in H'. simpl in H'. rewrite orb_comm.
    destruct ((c =? 13) || (c =? 10)); [done|]. rewrite <- E. apply reverse_involutive.
Qed.

(** A valid value has nothing to sanitize. *)
Lemma sanitize_valid v : assertValid v = true → sanitize v = v.
Proof.
  destruct v as [s|l| |]; simpl; try done.
  - intros. by rewrite stripEnd_valid.
  - intros H. f_equal. rewrite <- (map_id l) at 2. apply map_ext_in. intros s Hs.
    apply stripEnd_valid. rewrite forallb_forall in H. auto.
Qed.

Section client_facts.
Context (lower : jstr → jstr).

Lemma setHeader_inr h v t n h' : setHeader lower h v t n = inr h' →
  h' = h ∨ (assertValid v = true ∧ h' = put (default t (findKey lower h (normalizeName lower t))) v h).
Proof.
  unfold setHeader, throw. intros H. repeat (case_match; simplify_eq; auto);
    right; (split; [done|]); by rewrite sanitize_valid.
Qed.

Lemma setHeader_clean h v t n h' : setHeader lower h v t n = inr h' → clean h → clean h'.
Proof.
  intros [->|[Hv ->]]%setHeader_inr Hh; [done|]. by apply put_clean.
Qed.

Lemma setAll_clean l h n : clean h → clean (fst (setAll lower h l n)).
Proof.
  revert h. induction l as [|[k v] l IH]; intros h Hh; simpl; [done|].
  destruct (setHeader lower h v k n) eqn:E; [done|]. apply IH. by eapply setHeader_clean.
Qed.

Lemma remove_clean k h : clean h → clean (remove k h).
Proof.
  unfold clean, remove. rewrite !Forall_forall. intros H p [_ Hp]%list_elem_of_filter. auto.
Qed.

(** A key found is a key of the map with the name asked for. *)
Lemma findKey_Some h k a : findKey lower h k = Some a → a ∈ h.*1 ∧ lower a = lower k.
Proof.
  unfold findKey. intros H%last_Some_elem_of. by apply list_elem_of_filter in H as [? ?].
Qed.

Lemma findKey_None h k : findKey lower h k = None ↔ ∀ a, a ∈ h.*1 → lower a ≠ lower k.
Proof.
  unfold findKey. rewrite last_None. split.
  - intros H a Ha E. assert (a ∈ filter (λ k', lower k' = lower k) h.*1) as Hf
      by by apply list_elem_of_filter.
    rewrite H in Hf. by apply not_elem_of_nil in Hf.
  - intros H. destruct (filter _ _) as [|a l] eqn:E; [done|]. exfalso.
    assert (a ∈ filter (λ k', lower k' = lower k) h.*1) as [Ha Hin]%list_elem_of_filter
      by (rewrite E; left). by apply (H a).
Qed.

(** No two names of the map are equal without regard to case. *)
Definition caseless (h : headers) : Prop := NoDup (lower <$> h.*1).

Lemma findKey_unique h k a : caseless h → a ∈ h.*1 → lower a = lower k → findKey lower h k = Some a.
Proof.
  intros Hc Ha E. destruct (findKey lower h k) as [b|] eqn:Eb.
  - apply findKey_Some in Eb as [Hb E']. f_equal. unfold caseless in Hc.
    apply list_elem_of_lookup in Ha as [i Hi]. apply list_elem_of_lookup in Hb as [j Hj].
    assert (i = j); [|congruence]. eapply NoDup_lookup; [exact Hc| |].
    + rewrite list_lookup_fmap, Hi. done.
    + rewrite list_lookup_fmap, Hj. simpl. congruence.
  - rewrite findKey_None in Eb. by destruct (Eb a).
Qed.

Context (lower_idem : ∀ s, lower (lower s) = lower s).

(** Setting under a rewrite, once the name and the value are accepted. *)
Lemma setHeader_rewrite h v t h' : setHeader lower h v t (Some true) = inr h' →
  normalizeName lower t ≠ [] ∧
  h' = put (default t (findKey lower h (normalizeName lower t))) v h.
Proof.
  unfold setHeader. case_bool_decide as Hn; [done|].
  rewrite (bool_decide_eq_true_2 (Some true = Some true)) by done.
  rewrite orb_true_r. simpl. destruct (assertValid v) eqn:Hv; [|done].
  rewrite sanitize_valid by done. by intros [= <-].
Qed.

Lemma put_caseless a v h : caseless h → findKey lower h a = None ∨ a ∈ h.*1 →
  caseless (put a v h).
Proof.
  unfold caseless. intros Hc Ha. rewrite put_keys. case_bool_decide; [done|].
  destruct Ha as [Ha|]; [|done]. rewrite findKey_None in Ha.
  rewrite fmap_app. apply NoDup_app. split; [done|]. split; [|apply NoDup_singleton].
  intros x Hx [y [-> Hy]]%list_elem_of_fmap. apply list_elem_of_singleton in Hy as ->.
  apply list_elem_of_fmap in Hx as (b & E & Hb). by eapply Ha.
Qed.

Lemma findKey_put_ne a v h k : lower a ≠ lower k →
  findKey lower (put a v h) k = findKey lower h k.
Proof.
  intros Ha. unfold findKey. rewrite put_keys. case_bool_decide; [done|].
  rewrite filter_app, filter_cons, decide_False by done. by rewrite filter_nil, app_nil_r.
Qed.

Lemma set_then_get h v t h' e : caseless h → trim t = t →
  setHeader lower h v t (Some true) = inr h' →
  caseless h' ∧
  getHeader lower h' e =
    if bool_decide (normalizeName lower e = normalizeName lower t) then Some v
    else getHeader lower h e.
Proof.
  intros Hc Ht [Hi ->]%setHeader_rewrite. unfold getHeader.
  set (i := normalizeName lower t) in *. set (a := default t (findKey lower h i)).
  assert (lower i = i) as Hii by apply lower_idem.
  assert (lower a = i ∧ (findKey lower h a = None ∨ a ∈ h.*1)) as [Ha Hfree].
  { unfold a. destruct (findKey lower h i) as [b|] eqn:E; simpl.
    - apply findKey_Some in E as [Hb E]. rewrite E, Hii. auto.
    - split; [unfold i, normalizeName; by rewrite Ht|]. left. apply findKey_None.
      rewrite findKey_None in E. intros b Hb.
      specialize (E b Hb). unfold i, normalizeName in E. rewrite Ht, !lower_idem in E. done. }
  pose proof (put_caseless a v h Hc Hfree) as Hc'. split; [done|].
  set (e' := normalizeName lower e). assert (lower e' = e') as He by apply lower_idem.
  case_bool_decide as E1; case_bool_decide as E2; try done.
  - exfalso. congruence.
  - rewrite (findKey_unique _ e' a Hc'), find_put.
    + by rewrite bool_decide_eq_true_2.
    + rewrite put_keys. case_bool_decide; [done|]. apply elem_of_app. right. left.
    + congruence.
  - rewrite findKey_put_ne by congruence. destruct (findKey lower h e') as [k|] eqn:Ek; [|done].
    apply findKey_Some in Ek as [_ Ek]. rewrite find_put, bool_decide_eq_false_2; [done|].
    intros <-. congruence.
Qed.

End client_facts.

Lemma atColon_app a b : COLON ∉ a → atColon (a ++ COLON :: b) = Some (a, b).
Proof.
  induction a as [|c a IH]; simpl; [done|]. rewrite not_elem_of_cons. intros [Hc Ha].
  destruct (Z.eqb_spec c COLON); [congruence|]. by rewrite IH.
Qed.

(** A header as a response has it: a lower-case trimmed name and a trimmed value, each on
    one line; the name is not [set-cookie], whose values are a list, none that an object
    inherits, and does not start with a digit. *)
Definition plainHeader (lower : jstr → jstr) (p : jstr * jstr) : Prop :=
  lower (trim p.1) = p.1 ∧ trim p.2 = p.2 ∧ p.1 ≠ [] ∧ COLON ∉ p.1 ∧ NL ∉ p.1 ∧ NL ∉ p.2
  ∧ p.1 ≠ runes "set-cookie" ∧ inheritedName p.1 = false ∧ ∀ c, head p.1 = Some c → c < 48 ∨ 57 < c.

Definition headerLine (p : jstr * jstr) : jstr := p.1 ++ runes ": " ++ p.2.

Lemma parseLine_plain lower t p : plainHeader lower p → p.1 ∉ t.*1 →
  parseLine lower t (headerLine p) = t ++ [(p.1, Val p.2)].
Proof.
  destruct p as [n v]. intros (Hn & Hv & Hne & Hc & _ & _ & Hsc & Hi & _) Ht. simpl in *.
  unfold parseLine, headerLine. cbn [fst snd]. change (n ++ runes ": " ++ v) with (n ++ COLON :: (32 :: v)).
  rewrite atColon_app by done. simpl default. cbv beta iota zeta.
  change (trim (32 :: v)) with (trim v). unfold holds. rewrite Hn, Hv, find_fresh, Hi by done.
  rewrite (bool_decide_eq_false_2 (n = [])), (bool_decide_eq_false_2 (n = runes "set-cookie")) by done.
  by apply put_fresh.
Qed.

Lemma parseLines_plain lower l t : Forall (plainHeader lower) l → NoDup (t.*1 ++ l.*1) →
  foldl (parseLine lower) t (map headerLine l) = t ++ map (λ p, (p.1, Val p.2)) l.
Proof.
  intros Hl. revert t. induction Hl as [|p l Hp Hl IH]; intros t Hnd; simpl; [by rewrite app_nil_r|].
  rewrite parseLine_plain, IH, <- app_assoc; [done| |done|].
  - rewrite fmap_app, <- app_assoc. exact Hnd.
  - csimpl in Hnd. apply NoDup_app in Hnd as (_ & H & _). intros Hin. apply (H _ Hin). left.
Qed.

Lemma headersToString_plain l :
  headersToString (map (λ p, (p.1, Val p.2)) l) = join [NL] (map headerLine l).
Proof.
  unfold headersToString, toJSON. f_equal. induction l as [|p l IH]; csimpl; [done|]. by f_equal.
Qed.

(** The adapters a configuration would accept, in order. *)
Definition suitable {F} (lower : jstr → jstr) (known : jstr → option (adapter F)) (r : request F) : option F :=
  match r with
  | RFun f => Some f
  | RName n => match known (lower n) with Some (AFun f) | Some (AGet f) => Some f | _ => None end
  | _ => None
  end.

Definition unknown {F} (lower : jstr → jstr) (known : jstr → option (adapter F)) (r : request F) : bool :=
  match r with RName n => match known (lower n) with None => true | _ => false end | _ => false end.

Lemma adapterLoop_spec {F} lower (known : jstr → option (adapter F)) e o a :
  match adapterLoop lower known o e a with
  | inl _ => ∃ l r l', e = l ++ r :: l' ∧ Forall (λ r, suitable lower known r = None) l ∧
      unknown lower known r = true
  | inr (inl f) => ∃ l r l', e = l ++ r :: l' ∧
      Forall (λ r, suitable lower known r = None ∧ unknown lower known r = false) l ∧
      suitable lower known r = Some f
  | inr (inr _) => Forall (λ r, suitable lower known r = None ∧ unknown lower known r = false) e
  end.
Proof.
  revert o a. induction e as [|r e IH]; intros o a; simpl; [constructor|].
  unfold tryAdapter.
  assert (suitable lower known r = None → unknown lower known r = false → ∀ n b,
    match adapterLoop lower known (S o) e (note n b a) with
    | inl _ => ∃ l r' l', r :: e = l ++ r' :: l' ∧ Forall (λ r, suitable lower known r = None) l ∧
        unknown lower known r' = true
    | inr (inl f) => ∃ l r' l', r :: e = l ++ r' :: l' ∧
        Forall (λ r, suitable lower known r = None ∧ unknown lower known r = false) l ∧
        suitable lower known r' = Some f
    | inr (inr _) => Forall (λ r, suitable lower known r = None ∧ unknown lower known r = false) (r :: e)
    end) as Hgo.
  { intros Hs Hu n b. specialize (IH (S o) (note n b a)).
    destruct (adapterLoop lower known (S o) e (note n b a)) as [x|[f|a']].
    - destruct IH as (l & r' & l' & -> & Hl & Hr). exists (r :: l), r', l'. by auto.
    - destruct IH as (l & r' & l' & -> & Hl & Hr). exists (r :: l), r', l'. by auto.
    - by constructor. }
  destruct r as [f| | |n]; simpl in *; [by exists [], (RFun f), e|by apply Hgo..|].
  destruct (known (lower n)) as [[| |f|f]|] eqn:E; simpl; try (by apply Hgo);
    exists [], (RName n), e; simpl; rewrite E; auto.
Qed.

Lemma afterBreak_suffix s r : afterBreak s = Some r → ∃ l, s = l ++ r.
Proof.
  induction s as [|c s IH]; simpl; [done|]. destruct (c =? NL).
  - intros [= ->]. by exists [c].
  - intros [l ->]%IH. by exists (c :: l).
Qed.

Lemma endsWith_app p l : endsWith p (l ++ p) = true.
Proof. unfold endsWith. rewrite reverse_app. apply startsWith_spec. eauto. Qed.

(** ** Properties *)

(** The calls that change a header map. *)
Inductive op :=
  | SetHeader (v : hval) (t : jstr) (n : option bool)
  | SetAll (l : headers) (n : option bool)
  | SetLines (e : jstr) (t : option bool)
  | Delete (e : jstr).

(** A call that throws leaves what it set before. *)
Definition exec (lower : jstr → jstr) (h : headers) (o : op) : headers :=
  match o with
  | SetHeader v t n => match setHeader lower h v t n with inr h' => h' | inl _ => h end
  | SetAll l n => fst (setAll lower h l n)
  | SetLines e t => fst (setLines lower h e t)
  | Delete e => fst (deleteHeader lower h e)
  end.

(** No carriage return and no line feed in any string of a value. *)
Definition oneLine (v : hval) : Prop :=
  match v with
  | Val s => 13 ∉ s ∧ 10 ∉ s
  | Vals l => ∀ s, s ∈ l → 13 ∉ s ∧ 10 ∉ s
  | Off | Nothing => True
  end.

Lemma validValue_chars s : validValue s = true → 13 ∉ s ∧ 10 ∉ s.
Proof.
  unfold validValue. rewrite negb_true_iff. intros H. split; intros Hin;
    (assert (existsb (λ c, (c =? 13) || (c =? 10)) s = true); [apply existsb_exists; eexists; split; [by apply list_elem_of_In|done]|congruence]).
Qed.

Lemma assertValid_oneLine v : assertValid v = true → oneLine v.
Proof.
  destruct v as [s|l| |]; simpl; [apply validValue_chars| |done..]. rewrite forallb_forall. intros H s Hs. by apply validValue_chars, H, list_elem_of_In.
Qed.

(** C36: No call puts a line break into a header value, so that no value can start another
    header: after any sequence of calls that set headers one by one, from an object or from
    lines, or delete them, throwing or not, no stored value, nor any of the strings of a list
    of values, has a carriage return (13) or a line feed (10). *)
Theorem header_values_have_no_line_break lower ops :
  ∀ k v, (k, v) ∈ foldl (exec lower) [] ops → oneLine v.
Proof.
  assert (clean (foldl (exec lower) [] ops)) as H.
  { assert (clean []) as H by constructor. revert H. generalize ([] : headers).
    induction ops as [|o ops IH]; intros h Hh; simpl; [done|]. apply IH.
    destruct o; simpl.
    - destruct (setHeader lower h v t n) eqn:E; [done|]. by eapply setHeader_clean.
    - by apply setAll_clean.
    - by apply setAll_clean.
    - unfold deleteHeader. repeat case_match; simpl; try done. by apply remove_clean. }
  intros k v Hin. apply assertValid_oneLine. unfold clean in H. rewrite Forall_forall in H. by apply (H (k, v)).
Qed.

(** A value with a line break is refused, and what is stored beside it is on one line. *)
Lemma header_values_have_no_line_break_witness :
  let calls := [SetHeader (Val (runes "7")) (runes "X-Run") None;
                SetHeader (Val (runes "a" ++ [13; 10] ++ runes "Cookie: b")) (runes "X-Note") None] in
  foldl (exec toLowerCase) [] calls = [(runes "X-Run", Val (runes "7"))] ∧ oneLine (Val (runes "7")).
Proof.
  split; [vm_compute; reflexivity|].
  apply (header_values_have_no_line_break toLowerCase
    [SetHeader (Val (runes "7")) (runes "X-Run") None;
     SetHeader (Val (runes "a" ++ [13; 10] ++ runes "Cookie: b")) (runes "X-Note") None] (runes "X-Run")).
  apply (bool_decide_unpack _). vm_compute. exact I.
Defined.

(** after setting a header that is read back under any spelling of its name;
    the other headers are as before, and names stay distinct without regard to
    case. *)
Theorem header_set_get lower h v t h' e :
  (∀ s, lower (lower s) = lower s) → caseless lower h → trim t = t →
  setHeader lower h v t (Some true) = inr h' →
  caseless lower h' ∧
  getHeader lower h' e =
    if bool_decide (normalizeName lower e = normalizeName lower t) then Some v
    else getHeader lower h e.
Proof. intros. by apply set_then_get. Qed.

Lemma header_set_get_witness :
  getHeader toLowerCase [(runes "Accept", Val (runes "*/*")); (runes "X-Run", Val (runes "7"))]
    (runes " x-RUN ") = Some (Val (runes "7")).
Proof.
  refine (eq_trans (proj2 (header_set_get toLowerCase [(runes "Accept", Val (runes "*/*"))]
    (Val (runes "7")) (runes "X-Run") [(runes "Accept", Val (runes "*/*")); (runes "X-Run", Val (runes "7"))]
    (runes " x-RUN ") _ _ _ _)) _); [| |reflexivity|vm_compute; reflexivity|vm_compute; reflexivity].
  - apply toLowerCase_idem.
  - apply (bool_decide_unpack _). vm_compute. reflexivity.
Defined.

(** C37: Plain headers that are printed are read back: headers with distinct names, each
    name lower-case and trimmed, without a colon, a break or a digit in front, not
    [set-cookie] and no name that every object inherits, each value one trimmed string on
    one line, survive printing and parsing, in their order.  A header named [constructor]
    does not, see [constructor_header_dropped]. *)
Theorem headers_roundtrip lower l :
  l ≠ [] → Forall (plainHeader lower) l → NoDup l.*1 →
  parseHeaders lower (headersToString (map (λ p, (p.1, Val p.2)) l)) = map (λ p, (p.1, Val p.2)) l.
Proof.
  intros Hne Hl Hnd. rewrite headersToString_plain. unfold parseHeaders.
  rewrite bool_decide_eq_false_2; [rewrite split_join; [by apply parseLines_plain|..]|].
  - by destruct l.
  - apply Forall_map. eapply Forall_impl; [exact Hl|]. intros [n v] (_ & _ & _ & _ & Hn & Hv & _ & _ & _).
    unfold headerLine. cbn [fst snd] in *. rewrite !not_elem_of_app.
    split; [done|split; [|done]]. apply (bool_decide_unpack _). vm_compute. reflexivity.
  - destruct l as [|[[|c n] v] [|q l]]; try done.
Qed.

Lemma headers_roundtrip_witness :
  parseHeaders toLowerCase (headersToString
    [(runes "content-type", Val (runes "application/json")); (runes "x-total", Val (runes "12"))]) =
  [(runes "content-type", Val (runes "application/json")); (runes "x-total", Val (runes "12"))].
Proof.
  apply (headers_roundtrip toLowerCase
    [(runes "content-type", runes "application/json"); (runes "x-total", runes "12")]);
    [done| |apply (bool_decide_unpack _); vm_compute; reflexivity].
  apply Forall_cons; split; [|apply Forall_cons; split; [|constructor]];
    (split_and!; [..|intros c [= <-]; right; vm_compute; reflexivity]; apply (bool_decide_unpack _); vm_compute; reflexivity).
Defined.

(** A response header with a name that every object inherits is dropped: it counts as a
    duplicate of one that must not be repeated. *)
Lemma constructor_header_dropped :
  parseHeaders toLowerCase (join [NL] (map runes ["Constructor: acme"; "x-total: 12"])) = [(runes "x-total", Val (runes "12"))].
Proof. vm_compute. reflexivity. Qed.

(** the adapter chosen is the first suitable one of the list, whatever else is
    listed after it; an unknown name before it is an error; and without any
    suitable adapter the request is refused. *)
Theorem adapter_first_suitable {F} lower (known : jstr → option (adapter F)) e :
  match getAdapter lower known e with
  | inr f => ∃ l r l', e = l ++ r :: l' ∧
      Forall (λ r, suitable lower known r = None ∧ unknown lower known r = false) l ∧
      suitable lower known r = Some f
  | inl _ => (∃ l r l', e = l ++ r :: l' ∧ Forall (λ r, suitable lower known r = None) l ∧
      unknown lower known r = true) ∨
      Forall (λ r, suitable lower known r = None ∧ unknown lower known r = false) e
  end.
Proof.
  pose proof (adapterLoop_spec lower known e 0 []) as H. unfold getAdapter, throw.
  destruct (adapterLoop lower known 0 e []) as [x|[f|a]]; auto.
Qed.

(** the caller's stack is added to an error once: retrying with the same
    caller adds nothing. *)
Theorem stack_merged_once stack n :
  mergeStack (Some (mergeStack stack n)) n = mergeStack stack n.
Proof.
  unfold mergeStack. destruct (bool_decide_reflect (n = [])) as [->|Hn].
  { by destruct stack as [[|c s]|]. }
  set (i := match afterBreak n with Some r => default [] (afterBreak r) | None => [] end).
  assert (∃ l, n = l ++ i) as [l Hi].
  { unfold i. destruct (afterBreak n) as [r|] eqn:E; [|by exists n; rewrite app_nil_r].
    apply afterBreak_suffix in E as [l ->]. destruct (afterBreak r) as [r'|] eqn:E'; simpl.
    - apply afterBreak_suffix in E' as [l' ->]. exists (l ++ l'). by rewrite app_assoc.
    - exists (l ++ r). by rewrite app_nil_r. }
  assert (∀ s, endsWith i (s ++ n) = true) as He.
  { intros s. rewrite Hi, app_assoc. apply endsWith_app. }
  assert (endsWith i n = true) as Hn' by exact (He []).
  destruct stack as [[|c s]|]; [by destruct n; rewrite ?Hn'| |by destruct n; rewrite ?Hn'].
  destruct (endsWith i (c :: s)) eqn:E; [by rewrite E|].
  change ((c :: s) ++ [NL] ++ n) with (c :: (s ++ [NL] ++ n)). cbv beta iota.
  replace (c :: s ++ [NL] ++ n) with ((c :: s ++ [NL]) ++ n) by (simpl; by rewrite <- app_assoc).
  by rewrite He.
Qed.

(** The message when nothing fits, with one line per adapter asked for. *)
Example no_adapter_message :
  getAdapter toLowerCase (λ n, if bool_decide (n = runes "http") then Some (ANull : adapter unit)
      else if bool_decide (n = runes "xhr") then Some AFalse else None)
    [RName (runes "http"); RName (runes "XHR")] =
  inl (Exn (runes "There is no suitable adapter to dispatch the request since :" ++ [NL]
    ++ runes "- adapter http is not available in the build" ++ [NL]
    ++ runes "- adapter XHR is not supported by the environment")).
Proof. vm_compute. reflexivity. Qed.

(** A repeated content length is ignored, other repeated headers are joined. *)
Example repeated_headers :
  parseHeaders toLowerCase (join [13; NL] (map runes
    ["Content-Length: 5"; "content-length: 9"; "Set-Cookie: a=1"; "Vary: A"; "set-cookie: b=2"; "vary: B"])) =
  [(runes "content-length", Val (runes "5")); (runes "set-cookie", Vals [runes "a=1"; runes "b=2"]);
   (runes "vary", Val (runes "A, B"))].
Proof. vm_compute. reflexivity. Qed.
