(* ===== verification/EditorLoader.v ===== *)
(** * The loader of the code editor

    The UI shows code and JSON in an editor that is loaded on demand ([qht]): a
    configuration merged over the defaults, and an initialization that any number
    of views may ask for.  The page is the part of the state outside the loader:
    the scripts added to it and the editor it may already have.  Configurations
    are objects and primitive values, without arrays.  The last part is the height
    of the JSON viewer ([HK]). *)

From Stdlib Require Import ZArith Lia.
From stdpp Require Import base numbers strings option list.
From S2P Require Import Prelude Js.

Open Scope Z_scope.

(** ** Configuration *)

(** [Rht] *)
Definition configIsRequired : jstr := runes "the configuration object is required".
Definition configType : jstr := runes "the configuration object should be an object".
Definition deprecation : jstr :=
  join [NL]
    (map runes
      ["Deprecation warning!"; "    You are using deprecated way of configuration."; "";
       "    Instead of using"; "      monaco.config({ urls: { monacoBase: '...' } })"; "    use";
       "      monaco.config({ paths: { vs: '...' } })"; "";
       "    For more please check the link https://github.com/suren-atoyan/monaco-loader#config";
       "  "]).

(** [Fht]: the configuration to use and the warnings logged. *)
Definition validate (e : jsval) : exn + (list (jstr * jsval) * list jstr) :=
  if negb (truthy e) then throw configIsRequired
  else
    match e with
    | Obj l =>
      let u := default Undefined (assoc (runes "urls") l) in
      if truthy u then
        inr ([(runes "paths", Obj [(runes "vs", prop u (runes "monacoBase"))])], [deprecation])
      else inr (l, [])
    | _ => throw configType
    end.

(** [Hht(e, t)]: what [t] sets wins; objects on both sides are merged in depth. *)
Fixpoint merge (e t : jsval) : list (jstr * jsval) :=
  match t with
  | Obj tl =>
    let own := ownProps e in
    let tl' :=
      map (λ q, (q.1,
        match q.2 with
        | Obj l =>
          let ev := default Undefined (assoc q.1 own) in
          if truthy ev then Obj (assignAll l (merge ev q.2)) else q.2
        | v => v
        end)) tl in
    assignAll own tl'
  | _ => ownProps e
  end.

(** ** The loader *)

Section loader.
Context {M : Type}.

(** The store of the loader, with the instance the promise was resolved with, and
    the page: its own editor and the scripts added to it. *)
Record Loader := {
  config : list (jstr * jsval); isInitialized : bool; monaco : option M;
  resolved : option M; windowMonaco : option M; scripts : list jstr; warnings : list jstr;
}.

Definition defaultConfig : list (jstr * jsval) :=
  [(runes "paths",
    Obj [(runes "vs", Str (runes "https://cdn.jsdelivr.net/npm/monaco-editor@0.52.2/min/vs"))])].

Definition start (page : option M) : Loader :=
  {| config := defaultConfig; isInitialized := false; monaco := None; resolved := None;
     windowMonaco := page; scripts := []; warnings := [] |}.

(** A promise keeps the first value it is resolved with. *)
Definition resolve (m : M) (s : Loader) : Loader :=
  {| config := config s; isInitialized := isInitialized s; monaco := monaco s;
     resolved := match resolved s with Some x => Some x | None => Some m end;
     windowMonaco := windowMonaco s; scripts := scripts s; warnings := warnings s |}.

Definition setMonaco (m : option M) (s : Loader) : Loader :=
  {| config := config s; isInitialized := isInitialized s; monaco := m; resolved := resolved s;
     windowMonaco := windowMonaco s; scripts := scripts s; warnings := warnings s |}.

(** [Ght(e)] *)
Definition storeInstance (m : M) (s : Loader) : Loader :=
  match monaco s with Some _ => s | None => setMonaco (Some m) s end.

(** [TK(e)]: the instance given with the configuration, also none, replaces the
    stored one; a deprecated configuration has none. *)
Definition setConfig (e : jsval) (given : option M) (s : Loader) : exn + Loader :=
  match validate e with
  | inl x => inl x
  | inr (r, w) =>
    inr {| config := merge (Obj (config s)) (Obj r); isInitialized := isInitialized s;
           monaco := match w with [] => given | _ => None end; resolved := resolved s; windowMonaco := windowMonaco s;
           scripts := scripts s; warnings := warnings s ++ w |}
  end.

(** [OK]: the address of the loader script. *)
Definition scriptSrc (numberToString : Z → Z → jstr) (s : Loader) : exn + jstr :=
  match get (Obj (config s)) "paths" with
  | inl x => inl x
  | inr p =>
    match get p "vs" with
    | inl x => inl x
    | inr v => inr (toString numberToString v ++ runes "/loader.js")
    end
  end.

(** [Uht()]: the state after an initialization. *)
Definition init (numberToString : Z → Z → jstr) (s : Loader) : exn + Loader :=
  if isInitialized s then inr s
  else
    let s1 := {| config := config s; isInitialized := true; monaco := monaco s; resolved := resolved s;
                 windowMonaco := windowMonaco s; scripts := scripts s; warnings := warnings s |} in
    match monaco s with
    | Some m => inr (resolve m s1)
    | None =>
      match windowMonaco s with
      | Some m => inr (resolve m (storeInstance m s1))
      | None =>
        match scriptSrc numberToString s1 with
        | inl x => inl x
        | inr src =>
          inr {| config := config s; isInitialized := true; monaco := monaco s; resolved := resolved s;
                 windowMonaco := windowMonaco s; scripts := scripts s ++ [src]; warnings := warnings s |}
        end
      end
    end.

(** The callback of the editor's own loader ([Wht]). *)
Definition loaded (m : M) (s : Loader) : Loader := resolve m (storeInstance m s).

(** ** The loader over time *)

Inductive event :=
  | Config (e : jsval) (given : option M)
  | Init
  | Loaded (m : M).

(** A call that throws leaves the loader as it was, apart from the flag. *)
Definition step (nts : Z → Z → jstr) (s : Loader) (e : event) : Loader :=
  match e with
  | Config c g => match setConfig c g s with inr s' => s' | inl _ => s end
  | Init =>
    match init nts s with
    | inr s' => s'
    | inl _ => {| config := config s; isInitialized := true; monaco := monaco s; resolved := resolved s;
                  windowMonaco := windowMonaco s; scripts := scripts s; warnings := warnings s |}
    end
  | Loaded m => match scripts s with [] => s | _ => loaded m s end
  end.

Definition runLoader (nts : Z → Z → jstr) (page : option M) (l : list event) : Loader :=
  foldl (step nts) (start page) l.

(** At most one script, and only after an initialization; none once the page or
    the configuration gave an editor. *)
Definition loaderOk (s : Loader) : Prop :=
  (length (scripts s) <= 1)%nat ∧
  (isInitialized s = false → scripts s = [] ∧ resolved s = None) ∧
  (windowMonaco s ≠ None → scripts s = []).

Lemma step_ok nts s e : loaderOk s → loaderOk (step nts s e).
Proof.
  unfold loaderOk. intros (H1 & H2 & H3). destruct e as [c g| |m]; simpl.
  - unfold setConfig. destruct (validate c) as [|[r w]]; simpl; auto.
  - unfold init, storeInstance. destruct (isInitialized s) eqn:Ei; [rewrite Ei; auto|].
    destruct H2 as [Hs Hr]; [done|].
    destruct (monaco s) as [m|]; simpl; [rewrite Hs; simpl; auto with lia|].
    destruct (windowMonaco s) as [m|] eqn:Ew; simpl; [rewrite Hs; simpl; auto with lia|].
    destruct (scriptSrc _ _); simpl; rewrite Hs; simpl; split_and!; naive_solver lia.
  - destruct (scripts s) as [|x l] eqn:E; [rewrite E; auto|].
    unfold loaded, resolve, storeInstance, setMonaco. destruct (monaco s); simpl; rewrite E;
      split_and!; try done; intros Hi; by destruct (H2 Hi).
Qed.

Lemma run_ok nts page l : loaderOk (runLoader nts page l).
Proof.
  unfold runLoader. assert (loaderOk (start page)) as H by (unfold loaderOk; simpl; auto with lia).
  revert H. generalize (start page). induction l as [|e l IH]; intros s Hs; simpl; [done|].
  by apply IH, step_ok.
Qed.

End loader.
Arguments Loader : clear implicits.
Arguments event : clear implicits.

(** ** Paths into a configuration *)

(** The value at a path. *)
Fixpoint at_path (p : list jstr) (v : jsval) : option jsval :=
  match p with
  | [] => Some v
  | k :: p' => match v with Obj l => match assoc k l with Some w => at_path p' w | None => None end | _ => None end
  end.

(** The path leaves the configuration at an object that does not have the key. *)
Fixpoint leaves_at (p : list jstr) (v : jsval) : bool :=
  match p with
  | [] => false
  | k :: p' => match v with Obj l => match assoc k l with Some w => leaves_at p' w | None => true end | _ => false end
  end.

Definition is_obj (v : jsval) : bool := match v with Obj _ => true | _ => false end.

(** No object of the configuration has a key twice. *)
Fixpoint keysOk (v : jsval) : Prop :=
  match v with
  | Obj l => NoDup l.*1 ∧ Forall id (map (λ q, keysOk q.2) l)
  | Arr l => Forall id (map keysOk l)
  | _ => True
  end.

(** ** The height of the JSON viewer *)

(** [f]: from the number of lines, between 40 and 300 pixels; the view starts with
    the least height when it is collapsed. *)
Definition viewerHeight (collapsed : bool) (l : jstr) : Z :=
  let d := Z.of_nat (length (split NL l)) in
  if collapsed then 40 else Z.min (Z.max (d * 19 + 10) 40) 300.

(** ** Lemmas *)

Lemma assoc_map (f : jstr * jsval → jsval) k l :
  assoc k (map (λ q, (q.1, f q)) l) = match assoc k l with Some v => Some (f (k, v)) | None => None end.
Proof.
  induction l as [|[a v] l IH]; simpl; [done|]. case_bool_decide; [by subst|done].
Qed.

Lemma assoc_elem k v l : assoc k l = Some v → (k, v) ∈ l.
Proof.
  induction l as [|[a w] l IH]; simpl; [done|].
  case_bool_decide; [intros [= ->]; subst; left|right; auto].
Qed.

(** A key of the merged object: merged in depth, taken from [t], or from [e]. *)
Definition mergeAt (e : jsval) (k : jstr) (v : jsval) : jsval :=
  match v with
  | Obj l =>
    let ev := default Undefined (assoc k (ownProps e)) in
    if truthy ev then Obj (assignAll l (merge ev v)) else v
  | v => v
  end.

Lemma assoc_merge e tl k : NoDup tl.*1 →
  assoc k (merge e (Obj tl)) =
  match assoc k tl with Some v => Some (mergeAt e k v) | None => assoc k (ownProps e) end.
Proof.
  intros H. simpl. rewrite assoc_assignAll.
  - rewrite (assoc_map (λ q, match q.2 with Obj l => _ | v => v end)). simpl.
    destruct (assoc k tl) as [v|]; [|done]. by destruct v.
  - rewrite <- list_fmap_compose. exact H.
Qed.

(** The keys of a merged object. *)
Lemma assign_keys k v l : NoDup l.*1 → NoDup (assign k v l).*1 ∧ ∀ a, a ∈ (assign k v l).*1 ↔ a = k ∨ a ∈ l.*1.
Proof.
  induction l as [|[b w] l IH]; csimpl.
  - intros _. split; [apply NoDup_singleton|]. intros a. rewrite list_elem_of_singleton, elem_of_nil. naive_solver.
  - intros [Hb Hl]%NoDup_cons. destruct (IH Hl) as [Hn Hk]. case_bool_decide as E; csimpl.
    + subst. split; [by apply NoDup_cons|]. intros a. rewrite !elem_of_cons. naive_solver.
    + split; [|intros a; rewrite !elem_of_cons, Hk; naive_solver].
      apply NoDup_cons. split; [|done]. rewrite Hk. naive_solver.
Qed.

Lemma assignAll_keys o p : NoDup o.*1 → NoDup (assignAll o p).*1.
Proof.
  revert o. induction p as [|[k v] p IH]; intros o Ho; simpl; [done|].
  apply IH. by apply assign_keys.
Qed.

Lemma merge_keys e tl : NoDup (ownProps e).*1 → NoDup (merge e (Obj tl)).*1.
Proof. intros. simpl. by apply assignAll_keys. Qed.

(** The properties of a merged object, assigned over the object itself. *)
Lemma assoc_assign_merge ev l j : NoDup (ownProps ev).*1 → NoDup l.*1 →
  assoc j (assignAll l (merge ev (Obj l))) = assoc j (merge ev (Obj l)).
Proof.
  intros He Hl. rewrite assoc_assignAll by by apply merge_keys.
  rewrite assoc_merge by done. destruct (assoc j l); [done|]. by destruct (assoc j (ownProps _)).
Qed.

Lemma keysOk_assoc l k v : keysOk (Obj l) → assoc k l = Some v → NoDup l.*1 ∧ keysOk v.
Proof.
  intros [Hn Hl] Hk%assoc_elem. split; [done|]. rewrite Forall_map in Hl.
  rewrite Forall_forall in Hl. exact (Hl _ Hk).
Qed.

Lemma keysOk_own v : keysOk v → NoDup (ownProps v).*1.
Proof. intros H. apply ownProps_nodup. intros l ->. apply H. Qed.

Lemma keysOk_own_assoc e k v : keysOk e → assoc k (ownProps e) = Some v → keysOk v.
Proof.
  destruct e; simpl; try done.
  - intros _ H%assoc_elem. apply elem_of_lookup_imap in H as (i & c & [= -> ->] & _). done.
  - intros Hl H%assoc_elem. apply elem_of_lookup_imap in H as (i & c & [= -> ->] & Hc).
    rewrite Forall_map, Forall_forall in Hl. by eapply Hl, list_elem_of_lookup_2.
  - intros He H. by eapply keysOk_assoc.
Qed.

(** Below a key set on both sides, an object of [t] is merged with the value of
    [e]. *)
Lemma at_mergeAt p e k l ev : p ≠ [] → assoc k (ownProps e) = Some ev → truthy ev = true →
  NoDup (ownProps ev).*1 → NoDup l.*1 →
  at_path p (mergeAt e k (Obj l)) = at_path p (Obj (merge ev (Obj l))).
Proof.
  intros Hp He Ht Hev Hl. destruct p as [|j p]; [done|].
  assert (mergeAt e k (Obj l) = Obj (assignAll l (merge ev (Obj l)))) as ->.
  { unfold mergeAt. rewrite He. change (default Undefined (Some ev)) with ev. by rewrite Ht. }
  cbn [at_path]. by rewrite assoc_assign_merge.
Qed.

Lemma merge_default p e t x : keysOk e → keysOk t →
  leaves_at p t = true → at_path p e = Some x → at_path p (Obj (merge e t)) = Some x.
Proof.
  revert e t. induction p as [|k p IH]; intros e t Hke Hkt Hp Hx; [done|].
  destruct t as [| | | | | |tl]; try done. destruct e as [| | | | | |el]; try done.
  simpl in Hx. destruct (assoc k el) as [ek|] eqn:Ee; [|done].
  assert (NoDup tl.*1) as Htl by apply Hkt. simpl in Hp.
  change (at_path (k :: p) (Obj (merge (Obj el) (Obj tl)))) with
    (match assoc k (merge (Obj el) (Obj tl)) with Some w => at_path p w | None => None end).
  rewrite assoc_merge by done. destruct (assoc k tl) as [w|] eqn:Et.
  - destruct (keysOk_assoc _ _ _ Hkt Et) as [_ Hw]. destruct (keysOk_assoc _ _ _ Hke Ee) as [_ Hek].
    destruct p as [|j p]; [done|]. destruct w as [| | | | | |wl]; try done.
    destruct ek as [| | | | | |ekl]; try done.
    rewrite (at_mergeAt _ _ _ _ (Obj ekl)); [by apply IH|done..|apply Hek|apply Hw].
  - simpl. by rewrite Ee.
Qed.

Lemma merge_wins p e t x : keysOk e → keysOk t → is_obj x = false →
  at_path p t = Some x → p ≠ [] → at_path p (Obj (merge e t)) = Some x.
Proof.
  revert e t. induction p as [|k p IH]; intros e t Hke Hkt Hx Hp Hne; [done|].
  destruct t as [| | | | | |tl]; try done. simpl in Hp.
  destruct (assoc k tl) as [w|] eqn:Et; [|done]. destruct (keysOk_assoc _ _ _ Hkt Et) as [Htl Hw].
  change (at_path (k :: p) (Obj (merge e (Obj tl)))) with
    (match assoc k (merge e (Obj tl)) with Some w => at_path p w | None => None end).
  rewrite assoc_merge, Et by done. destruct p as [|j p].
  - simpl in *. simplify_eq. by destruct x.
  - destruct w as [| | | | | |wl]; try done.
    destruct (assoc k (ownProps e)) as [ev|] eqn:Ee; [|by unfold mergeAt; rewrite Ee].
    destruct (truthy ev) eqn:Ht;
      [|unfold mergeAt; rewrite Ee; change (default Undefined (Some ev)) with ev; by rewrite Ht].
    pose proof (keysOk_own_assoc e k ev Hke Ee) as Hev.
    rewrite (at_mergeAt _ _ _ _ ev); [by apply IH|done..|by apply keysOk_own|apply Hw].
Qed.

(** ** Properties *)

(** a configuration is merged over the one in force: every setting it makes is
    in force afterwards, at any depth, and every setting it does not mention keeps
    its value. *)
Theorem config_merged e t p x : keysOk e → keysOk t →
  (is_obj x = false → p ≠ [] → at_path p t = Some x → at_path p (Obj (merge e t)) = Some x) ∧
  (leaves_at p t = true → at_path p e = Some x → at_path p (Obj (merge e t)) = Some x).
Proof. intros He Ht. split; intros; [by apply merge_wins|by apply merge_default]. Qed.

Definition user_config : jsval :=
  Obj [(runes "paths", Obj [(runes "css", Str (runes "/c"))]); (runes "locale", Str (runes "de"))].

Lemma config_merged_witness :
  at_path [runes "paths"; runes "vs"] (Obj (merge (Obj defaultConfig) user_config)) =
    Some (Str (runes "https://cdn.jsdelivr.net/npm/monaco-editor@0.52.2/min/vs")) ∧
  at_path [runes "paths"; runes "css"] (Obj (merge (Obj defaultConfig) user_config)) = Some (Str (runes "/c")).
Proof.
  assert (keysOk (Obj defaultConfig)) as H1.
  { split; [apply (bool_decide_unpack _); vm_compute; reflexivity|]. repeat constructor.
    apply not_elem_of_nil. }
  assert (keysOk user_config) as H2.
  { split; [apply (bool_decide_unpack _); vm_compute; reflexivity|].
    repeat constructor; apply not_elem_of_nil. }
  split.
  - apply (proj2 (config_merged (Obj defaultConfig) user_config _ _ H1 H2)); vm_compute; reflexivity.
  - apply (proj1 (config_merged (Obj defaultConfig) user_config _ _ H1 H2)); [reflexivity|discriminate|].
    vm_compute. reflexivity.
Defined.

(** C39: however many views ask for the editor, and whatever is configured in
    between, its loader script is added to the page at most once, and never when
    the page has an editor of its own. *)
Theorem editor_loaded_once {M} nts (page : option M) l :
  (length (scripts (runLoader nts page l)) <= 1)%nat ∧
  (page ≠ None → scripts (runLoader nts page l) = []).
Proof.
  destruct (run_ok nts page l) as (H1 & _ & H3). split; [done|]. intros Hp. apply H3.
  enough (windowMonaco (runLoader nts page l) = page) as -> by done. clear.
  unfold runLoader. change page with (windowMonaco (start page)) at 2. generalize (start page).
  induction l as [|e l IH]; intros s; simpl; [done|]. rewrite IH. destruct e as [c g| |m]; simpl.
  - unfold setConfig. by destruct (validate c) as [|[r w]].
  - unfold init, storeInstance. repeat (case_match; simpl; simplify_eq/=; try done).
  - unfold loaded, storeInstance. by repeat case_match.
Qed.

(** configuring the loader after the editor was loaded forgets the instance,
    which is not loaded a second time. *)
Theorem config_forgets_instance {M} nts (m : M) e :
  is_obj e = true →
  let s := runLoader nts None [Init; Loaded m; Config e None; Init] in
  monaco (runLoader nts None [Init; Loaded m]) = Some m ∧
  monaco s = None ∧ scripts s = scripts (runLoader nts None [Init; @Loaded M m]).
Proof.
  intros He. destruct e as [| | | | | |l]; try done. unfold runLoader. simpl.
  unfold setConfig, validate. simpl. by destruct (truthy _).
Qed.

Lemma config_forgets_instance_witness :
  monaco (runLoader (λ _ _, []) None [Init; Loaded tt; Config (Obj []) None; Init]) = None.
Proof. exact (proj1 (proj2 (config_forgets_instance (λ _ _, []) tt (Obj []) eq_refl))). Defined.

(** the height of the JSON viewer stays between 40 and 300 pixels, and grows
    with the number of lines. *)
Theorem viewer_height_bounds c s t : (length (split NL s) <= length (split NL t))%nat →
  40 <= viewerHeight c s <= viewerHeight c t ∧ viewerHeight c t <= 300.
Proof. unfold viewerHeight. intros. destruct c; lia. Qed.
