(* ===== verification/Highlighter.v ===== *)
(** * Code with line numbers

    The rows of highlighted code in the UI ([D$] with [E$] and [T$]): the tree of a
    highlighter is flattened, cut into lines and numbered; the gutter of numbers
    beside the code ([S$], [VTt]) and the number of lines the width of a number is
    taken from ([WTt]). *)

From Stdlib Require Import ZArith Lia.
From stdpp Require Import base numbers strings pretty option list.
From S2P Require Import Prelude Js.

Open Scope Z_scope.

(** ** Trees *)

(** What a highlighter returns: text, or an element with classes. *)
Inductive ast :=
  | AText (value : jstr)
  | AElem (className : list jstr) (children : list ast).

(** What is rendered: text, a line number with the number its width is for, or a
    [span] with its classes and whether it is a flex box. *)
Inductive node :=
  | Text (value : jstr)
  | LineNumber (n largest : Z)
  | Span (className : list jstr) (flex : bool) (children : list node).

(** Induction under the children of an element. *)
Lemma ast_ind' (P : ast → Prop) : (∀ v, P (AText v)) → (∀ c l, Forall P l → P (AElem c l)) → ∀ e, P e.
Proof.
  intros H1 H2. fix IH 1. intros [v|c l]; [apply H1|]. apply H2.
  induction l as [|x l IHl]; constructor; [apply IH|exact IHl].
Qed.

(** [d$(new Set(t))]: without repetitions, first occurrences kept. *)
Fixpoint dedup (seen l : list jstr) : list jstr :=
  match l with
  | [] => []
  | x :: r => if bool_decide (x ∈ seen) then dedup seen r else x :: dedup (x :: seen) r
  end.

(** [E$(e, t)]: the texts of the tree with the classes around them. *)
Fixpoint flatten1 (t : list jstr) (e : ast) : list (list jstr * jstr) :=
  match e with
  | AText v => [(dedup [] t, v)]
  | AElem c l => concat (map (flatten1 (t ++ c)) l)
  end.

Definition flattenTree (e : list ast) : list (list jstr * jstr) := concat (map (flatten1 []) e).

(** The element [T$] makes of a text without a line number. *)
Definition leaf (u : list jstr * jstr) : node := Span u.1 false [Text u.2].

(** ** Rows *)

(** A row that is wrapped in an element, or a list of nodes. *)
Inductive row := Wrapped (n : node) | Bare (l : list node).

Record Options := {
  wrapLines : bool; wrapLongLines : bool; showLineNumbers : bool; showInlineLineNumbers : bool;
  startingLineNumber : Z; largestLineNumber : Z;
  (** the class the line properties give to a line *)
  lineClass : option Z → option jstr;
}.

(** [s.split(/\s+/)] *)
Fixpoint words (cur s : jstr) (inSpace : bool) : list jstr :=
  match s with
  | [] => [cur]
  | c :: r =>
    if isSpaceJs c then (if inSpace then words cur r true else cur :: words [] r true)
    else words (cur ++ [c]) r false
  end.

Section rows.
Context (o : Options).

(** [n && ...]: a line number that is there and not zero. *)
Definition shown (n : option Z) : option Z :=
  match n with Some z => if z =? 0 then None else Some z | None => None end.

Definition numbered (n : option Z) (l : list node) : list node :=
  match shown n with
  | Some z => if showInlineLineNumbers o then LineNumber z (largestLineNumber o) :: l else l
  | None => l
  end.

(** [T$] as [m] calls it. *)
Definition lineElement (l : list node) (n : option Z) (c : list jstr) : node :=
  let props := if wrapLines o then lineClass o n else None in
  let c' := match props with Some ((_ :: _) as s) => words [] (trim s) false ++ c | _ => c end in
  Span c' (wrapLongLines o && showLineNumbers o) (numbered n l).

(** [h] *)
Definition plainLine (l : list node) (n : option Z) : list node :=
  if showLineNumbers o then numbered n l else l.

(** [g] *)
Definition createLine (l : list node) (n : option Z) (c : list jstr) : row :=
  if wrapLines o || (0 <? length c)%nat then Wrapped (lineElement l n c) else Bare (plainLine l n).

(** [r && d.length + a] *)
Definition nextNumber (d : list row) : option Z :=
  if showLineNumbers o then Some (Z.of_nat (length d) + startingLineNumber o) else None.

(** The lines of one text after the first: [more] tells whether an element
    follows; the last line then comes back as the text to put in front of it. *)
Fixpoint laterLines (c : list jstr) (more : bool) (l : list jstr) (d : list row) : list row * option jstr :=
  match l with
  | [] => (d, None)
  | [t] =>
    if more then (d, Some t) else (d ++ [createLine [Text t] (nextNumber d) c], None)
  | t :: r => laterLines c more r (d ++ [createLine [Text (t ++ [NL])] (nextNumber d) c])
  end.

(** The loop: [u] are the elements, [s] is [f + 1], the first element of the line
    that is not finished. *)
Fixpoint rowLoop (fuel : nat) (u : list (list jstr * jstr)) (d : list row) (s p : nat)
    : option (list (list jstr * jstr) * list row * nat) :=
  match u !! p with
  | None => Some (u, d, s)
  | Some e =>
    match fuel with
    | O => None
    | S fuel =>
      if includes [NL] e.2 then
        match split NL e.2 with
        | t :: n =>
          let d1 := d ++ [createLine (map leaf (take (p - s) (drop s u)) ++ [leaf (e.1, t ++ [NL])])
                            (nextNumber d) []] in
          let '(d2, h) := laterLines e.1 (bool_decide (is_Some (u !! S p))) n d1 in
          let u' := match h with Some x => take (S p) u ++ (e.1, x) :: drop (S p) u | None => u end in
          rowLoop fuel u' d2 (S p) (S p)
        | [] => None
        end
      else rowLoop fuel u d s (S p)
    end
  end.

(** The rows of [D$]; each element may be cut once, hence the fuel. *)
Definition rowsOf (e : list ast) : option (list row) :=
  let u := flattenTree e in
  match rowLoop (2 * length u) u [] 0 0 with
  | None => None
  | Some (u', d, s) =>
    Some (match drop s u' with
          | [] => d
          | v => d ++ [createLine (map leaf v) (nextNumber d) []]
          end)
  end.

(** What is rendered: the rows, or their nodes in one list. *)
Definition processLines (e : list ast) : option (list node) :=
  (λ d, concat (map (λ r, match r with Wrapped n => [n] | Bare l => l end) d)) <$> rowsOf e.

End rows.

(** ** The gutter and the number of lines *)

(** [t.replace(/\n$/, "")] *)
Definition dropLastBreak (s : jstr) : jstr :=
  match reverse s with c :: r => if c =? NL then reverse r else s | [] => s end.

Definition integer (z : Z) : jstr := runes (pretty z).

(** [S$] in [VTt]: the numbers beside the code, a line each. *)
Definition gutter (startingLineNumber : Z) (code : jstr) : list jstr :=
  imap (λ i _, integer (Z.of_nat i + startingLineNumber) ++ [NL]) (split NL (dropLastBreak code)).

(** [se]: the number of lines of one text, or of nodes, added to the first number. *)
Definition largest (startingLineNumber : Z) (e : list ast) : Z :=
  match e with
  | [AText v] => Z.of_nat (length (split NL v))
  | _ => Z.of_nat (length e)
  end + startingLineNumber.

(** ** Text *)

Fixpoint astText (e : ast) : jstr :=
  match e with AText v => v | AElem _ l => concat (map astText l) end.

Fixpoint nodeText (n : node) : jstr :=
  match n with
  | Text v => v
  | LineNumber _ _ => []
  | Span _ _ l => concat (map nodeText l)
  end.

Definition rowNodes (r : row) : list node :=
  match r with Wrapped (Span _ _ l) => l | Wrapped n => [n] | Bare l => l end.

Definition rowText (r : row) : jstr := concat (map nodeText (rowNodes r)).

(** The number a row starts with. *)
Definition rowNumber (r : row) : option Z :=
  match rowNodes r with LineNumber z _ :: _ => Some z | _ => None end.

(** The lines of a text, each but the last with its line break. *)
Fixpoint breaks (l : list jstr) : list jstr :=
  match l with
  | [] => []
  | [x] => [x]
  | x :: r => (x ++ [NL]) :: breaks r
  end.

(** ** Lemmas *)

Lemma breaks_cons x l : l ≠ [] → breaks (x :: l) = (x ++ [NL]) :: breaks l.
Proof. by destruct l. Qed.

Section facts.
Context (o : Options).

Lemma numbered_text n l : concat (map nodeText (numbered o n l)) = concat (map nodeText l).
Proof. unfold numbered. by repeat case_match. Qed.

Lemma createLine_text l n c : rowText (createLine o l n c) = concat (map nodeText l).
Proof.
  unfold createLine, rowText, lineElement, plainLine. case_match; simpl; [apply numbered_text|].
  destruct (showLineNumbers o); [apply numbered_text|done].
Qed.

Lemma leaf_text l : concat (map nodeText (map leaf l)) = concat l.*2.
Proof. induction l as [|[c v] l IH]; csimpl; [done|]. by rewrite app_nil_r, IH. Qed.

Lemma laterLines_text c more l d d' h : l ≠ [] → laterLines o c more l d = (d', h) →
  map rowText d' ++ (match h with Some x => [x] | None => [] end) = map rowText d ++ breaks l
  ∧ (is_Some h ↔ more = true).
Proof.
  revert d. induction l as [|t l IH]; intros d Hl; [done|]. destruct l as [|t' l].
  - simpl. destruct more; intros [= <- <-]; [done|]. rewrite map_app. simpl.
    rewrite createLine_text. simpl. rewrite !app_nil_r. split; [done|]. split; [by intros []|done].
  - intros H. cbn [laterLines] in H. destruct (IH _ ltac:(done) H) as [E ?]. split; [|done].
    rewrite E, map_app, (breaks_cons t) by done. simpl. rewrite createLine_text. simpl.
    by rewrite app_nil_r, <- app_assoc.
Qed.

Lemma laterLines_last c l d d' h : laterLines o c true l d = (d', h) →
  l ≠ [] → h = last l.
Proof.
  revert d. induction l as [|t l IH]; intros d H Hl; [done|]. destruct l as [|t' l].
  - simpl in H. by injection H as <- <-.
  - cbn [laterLines] in H. rewrite (IH _ H) by done. done.
Qed.

(** The number of the row at index [i]. *)
Definition expected (i : nat) : option Z :=
  if showLineNumbers o && showInlineLineNumbers o
  then shown (Some (Z.of_nat i + startingLineNumber o)) else None.

Definition unnumbered (l : list node) : Prop := ∀ z w r, l ≠ LineNumber z w :: r.

Definition numbersOk (d : list row) : Prop := ∀ i r, d !! i = Some r → rowNumber r = expected i.

Lemma createLine_number l d c : unnumbered l →
  rowNumber (createLine o l (nextNumber o d) c) = expected (length d).
Proof.
  intros Hl. assert (match l with LineNumber z _ :: _ => Some z | _ => None end = None) as Hn.
  { destruct l as [|[| z w|] r]; try done. by destruct (Hl z w r). }
  assert (match numbered o (nextNumber o d) l with LineNumber z _ :: _ => Some z | _ => None end =
    expected (length d)) as H.
  { unfold numbered, nextNumber, expected. destruct (showLineNumbers o); simpl; [|done].
    destruct (_ =? 0), (showInlineLineNumbers o); done. }
  unfold createLine, rowNumber, lineElement, plainLine. destruct (_ || _); simpl; [done|].
  destruct (showLineNumbers o) eqn:E; [done|]. rewrite Hn. unfold expected. by rewrite E.
Qed.

Lemma numbersOk_push l d c : unnumbered l → numbersOk d →
  numbersOk (d ++ [createLine o l (nextNumber o d) c]).
Proof.
  intros Hl Hd i r [Hi|[Hi Hr]]%lookup_app_Some; [by apply Hd|].
  apply list_lookup_singleton_Some in Hr as [Hz <-]. rewrite createLine_number by done. f_equal. lia.
Qed.

Lemma unnumbered_leaf l x : unnumbered (map leaf l ++ [leaf x]).
Proof. intros z w r. by destruct l. Qed.

Lemma laterLines_numbers c more l d : numbersOk d → numbersOk (fst (laterLines o c more l d)).
Proof.
  revert d. induction l as [|t l IH]; intros d Hd; [done|]. destruct l as [|t' l].
  - simpl. destruct more; simpl; [done|]. by apply numbersOk_push.
  - cbn [laterLines]. apply IH. by apply numbersOk_push.
Qed.

(** What is left of the elements from index [s] on. *)
Definition textFrom (s : nat) (u : list (list jstr * jstr)) : jstr := concat (drop s u).*2.

(** The rows made and the lines still to come are the lines [B]. *)
Definition progress (B : list jstr) (u : list (list jstr * jstr)) (d : list row) (s : nat) : Prop :=
  map rowText d ++ (match drop s u with [] => [] | _ => breaks (split NL (textFrom s u)) end) = B.

Definition hasBreak (e : list jstr * jstr) : bool := includes [NL] e.2.

Lemma hasBreak_false e : hasBreak e = false → NL ∉ e.2.
Proof.
  unfold hasBreak. intros H Hin%includes_elem. congruence.
Qed.

Lemma concat_no_break (l : list (list jstr * jstr)) :
  Forall (λ e, hasBreak e = false) l → NL ∉ concat l.*2.
Proof.
  induction 1 as [|e l He Hl IH]; csimpl; [apply not_elem_of_nil|].
  rewrite not_elem_of_app. split; [by apply hasBreak_false|done].
Qed.

(** Cutting the element at [p], which has a line break, into lines. *)
Lemma cut_lines a t n r : NL ∉ a → n ≠ [] → Forall (λ x, NL ∉ x) (t :: n) → ∃ x ps,
  n = ps ++ [x] ∧
  breaks (split NL (a ++ join [NL] (t :: n) ++ r)) =
  (a ++ t ++ [NL]) :: map (λ y, y ++ [NL]) ps ++ breaks (split NL (x ++ r)).
Proof.
  intros Ha Hn Hf. revert a t Ha Hf. induction n as [|t' n IH]; intros a t Ha Hf; [done|].
  apply Forall_cons in Hf as [Ht Hf].
  assert (∀ s, split NL ((a ++ t) ++ NL :: s) = (a ++ t) :: split NL s) as Hs.
  { intros s. destruct (split_app NL (a ++ t) (NL :: s)) as (ps & p & q & qs & E1 & E2 & ->).
    rewrite split_single in E1 by (rewrite not_elem_of_app; done).
    destruct ps as [|?[|??]]; try done. simpl in *. simplify_eq. by rewrite app_nil_r. }
  rewrite join_cons by done.
  replace (a ++ (t ++ [NL] ++ join [NL] (t' :: n)) ++ r) with
    ((a ++ t) ++ NL :: (join [NL] (t' :: n) ++ r)) by (rewrite <- !app_assoc; done).
  rewrite Hs, breaks_cons by apply split_nonempty. destruct n as [|t'' n].
  - exists t', []. split; [done|]. simpl. by rewrite <- app_assoc.
  - destruct (IH ltac:(done) [] t') as (x & ps & Hx & E); [apply not_elem_of_nil|done|].
    exists x, (t' :: ps). split; [by rewrite Hx|]. cbn [app] in E. rewrite E. simpl.
    by rewrite <- app_assoc.
Qed.

Lemma breaks_snoc ps x : breaks (ps ++ [x]) = map (λ y, y ++ [NL]) ps ++ [x].
Proof.
  induction ps as [|p ps IH]; [done|]. simpl app. rewrite breaks_cons by by destruct ps. by rewrite IH.
Qed.

Definition work (u : list (list jstr * jstr)) (p : nat) : nat :=
  (length u - p + length (filter (λ e, hasBreak e = true) (drop p u)))%nat.

(** The elements around index [p]. *)
Lemma drop_around {A} (u : list A) s p e : (s <= p)%nat → u !! p = Some e →
  drop s u = take (p - s) (drop s u) ++ e :: drop (S p) u.
Proof.
  intros Hs Hp. rewrite <- (take_drop (p - s) (drop s u)) at 1. f_equal.
  rewrite drop_drop, Nat.add_comm, Nat.sub_add by done. by apply drop_S.
Qed.

Lemma split_of_break e t n : hasBreak e = true → split NL e.2 = t :: n →
  n ≠ [] ∧ Forall (λ x, NL ∉ x) (t :: n) ∧ e.2 = join [NL] (t :: n).
Proof.
  intros He Hs. assert (Forall (λ x, NL ∉ x) (t :: n)) as Hf.
  { rewrite <- Hs. apply Forall_forall. intros x. apply split_no_sep. }
  split; [|split; [done|rewrite <- Hs; symmetry; apply join_split]].
  intros ->. apply Forall_inv in Hf. pose proof (join_split NL e.2) as Hj.
  rewrite Hs in Hj. simpl in Hj. subst t. unfold hasBreak in He.
  by apply includes_elem in He.
Qed.

(** One turn of the loop at an element with a line break. *)
Lemma turn_ok u d s p e B t n d2 h : (s <= p)%nat → u !! p = Some e → hasBreak e = true →
  Forall (λ e, hasBreak e = false) (take (p - s) (drop s u)) →
  progress B u d s → split NL e.2 = t :: n →
  laterLines o e.1 (bool_decide (is_Some (u !! S p))) n
    (d ++ [createLine o (map leaf (take (p - s) (drop s u)) ++ [leaf (e.1, t ++ [NL])])
             (nextNumber o d) []]) = (d2, h) →
  let u' := match h with Some x => take (S p) u ++ (e.1, x) :: drop (S p) u | None => u end in
  progress B u' d2 (S p) ∧ (S (work u' (S p)) <= work u p)%nat ∧ (S p <= length u')%nat.
Proof.
  intros Hs Hp He Hf HB Ht Hl u'. destruct (split_of_break e t n He Ht) as (Hn & Hfn & Ee).
  pose proof (drop_around u s p e Hs Hp) as Hd. pose proof (lookup_lt_Some _ _ _ Hp) as Hlt.
  set (sl := take (p - s) (drop s u)) in *.
  destruct (laterLines_text e.1 _ n _ _ _ Hn Hl) as [Hrows Hh].
  rewrite map_app in Hrows. cbn [map] in Hrows.
  rewrite createLine_text, map_app, concat_app, leaf_text in Hrows. simpl in Hrows.
  rewrite !app_nil_r in Hrows.
  destruct (cut_lines (concat sl.*2) t n (concat (drop (S p) u).*2)) as (x & ps & Hx & Hcut);
    [by apply concat_no_break|done..|].
  assert (NL ∉ x) as Hxn.
  { rewrite Hx in Hfn. apply Forall_cons in Hfn as [_ Hfn]. rewrite Forall_app in Hfn.
    destruct Hfn as [_ Hfn]. by apply Forall_inv in Hfn. }
  assert (textFrom s u = concat sl.*2 ++ join [NL] (t :: n) ++ concat (drop (S p) u).*2) as Htext.
  { unfold textFrom. rewrite Hd, fmap_app, concat_app. csimpl. by rewrite Ee. }
  unfold progress in HB. rewrite Htext, Hcut in HB.
  assert (drop s u ≠ []) as Hne by (rewrite Hd; by destruct sl).
  destruct (drop s u) as [|z zs]; [done|]. clear Hne.
  rewrite Hx, breaks_snoc in Hrows.
  assert (work u p = S (length u - S p + S (length (filter (λ e, hasBreak e = true) (drop (S p) u)))))%nat as Hw.
  { unfold work. rewrite (drop_S _ e) by done. rewrite filter_cons, decide_True by done. simpl. lia. }
  destruct h as [x'|].
  - assert (bool_decide (is_Some (u !! S p)) = true) as Hmore by (apply Hh; eauto).
    rewrite Hmore in Hl. apply laterLines_last in Hl; [|done].
    rewrite Hx, last_snoc in Hl. injection Hl as ->.
    assert (drop (S p) u' = (e.1, x) :: drop (S p) u) as Hdu.
    { unfold u'. rewrite (drop_app_length' (take (S p) u)); [done|]. rewrite length_take. lia. }
    assert (length u' = S (length u)) as Hlu.
    { unfold u'. rewrite length_app. simpl. rewrite length_take, length_drop. lia. }
    split_and!; [| |lia].
    + unfold progress, textFrom. rewrite Hdu. csimpl. rewrite <- HB.
      rewrite !app_assoc in Hrows. apply (inj (.++ [x])) in Hrows. rewrite Hrows.
      by rewrite <- !app_assoc.
    + rewrite Hw. unfold work. rewrite Hdu, Hlu, filter_cons, decide_False; [lia|].
      intros Hb. apply Hxn. by apply includes_elem in Hb.
  - assert (u !! S p = None) as Hnone.
    { destruct (u !! S p) eqn:E; [|done]. assert (is_Some (@None jstr)) as [? ?]; [|done].
      apply Hh. by apply bool_decide_eq_true. }
    apply lookup_ge_None in Hnone. unfold u'.
    assert (drop (S p) u = []) as Hdr by (apply drop_ge; lia).
    split_and!; [|rewrite Hw; unfold work; rewrite Hdr; simpl; lia|lia].
    unfold progress. rewrite Hdr, <- HB. rewrite Hdr in *. csimpl. rewrite !app_nil_r in *.
    rewrite split_single by done. simpl. rewrite Hrows. simpl. by rewrite <- !app_assoc.
Qed.

Lemma rowLoop_ok fuel u d s p B : (s <= p <= length u)%nat →
  Forall (λ e, hasBreak e = false) (take (p - s) (drop s u)) → (work u p <= fuel)%nat →
  progress B u d s → numbersOk d →
  ∃ u' d' s', rowLoop o fuel u d s p = Some (u', d', s') ∧
    Forall (λ e, hasBreak e = false) (drop s' u') ∧ progress B u' d' s' ∧ numbersOk d'.
Proof.
  revert u d s p. induction fuel as [|fuel IH]; intros u d s p Hs Hf Hw HB HN;
    cbn [rowLoop]; destruct (u !! p) as [e|] eqn:Hp.
  1: { apply lookup_lt_Some in Hp. unfold work in Hw. lia. }
  1, 3: exists u, d, s; split_and!; try done; apply lookup_ge_None in Hp;
    rewrite take_ge in Hf; [done|rewrite length_drop; lia].
  pose proof (lookup_lt_Some _ _ _ Hp) as Hlt. change (includes [NL] e.2) with (hasBreak e).
  destruct (hasBreak e) eqn:He.
  - destruct (split NL e.2) as [|t n] eqn:Ht; [by destruct (split_nonempty NL e.2)|].
    destruct (laterLines o e.1 _ n _) as [d2 h] eqn:Hl.
    destruct (turn_ok u d s p e B t n d2 h) as (HB' & Hw' & Hlen); [lia|done..|].
    apply IH; [lia| |lia|done|].
    + by rewrite Nat.sub_diag.
    + change d2 with (fst (d2, h)). rewrite <- Hl. apply laterLines_numbers, numbersOk_push; [|done].
      apply unnumbered_leaf.
  - apply IH; [lia| | |done..].
    + rewrite Nat.sub_succ_l by lia. erewrite take_S_r; [|rewrite lookup_drop, Nat.add_comm, Nat.sub_add by lia; exact Hp].
      apply Forall_app. split; [done|]. by repeat constructor.
    + unfold work in *. rewrite (drop_S _ e) in Hw by done. rewrite filter_cons, decide_False in Hw; [lia|].
      rewrite He. done.
Qed.

Lemma flatten1_text e t : concat (flatten1 t e).*2 = astText e.
Proof.
  revert t. induction e as [v|c l IH] using ast_ind'; intros t; simpl; [by rewrite app_nil_r|].
  induction IH as [|x l Hx Hl IHl]; csimpl; [done|].
  by rewrite fmap_app, concat_app, Hx, IHl.
Qed.

End facts.

Lemma flattenTree_text e : concat (flattenTree e).*2 = concat (map astText e).
Proof.
  unfold flattenTree. induction e as [|x e IH]; csimpl; [done|].
  by rewrite fmap_app, concat_app, flatten1_text, IH.
Qed.

Lemma map_singleton {A B} (f : A → B) x : map f [x] = [f x].
Proof. done. Qed.

(** ** Properties *)

(** cutting highlighted code into rows ends, loses nothing and adds nothing:
    the rows are the lines of the code, each with its line break, and the row at
    index [i] has the number [i] counted from the first number, whatever the
    highlighter returned and whatever is wrapped. *)
Theorem rows_are_the_lines o e : flattenTree e ≠ [] →
  ∃ d, rowsOf o e = Some d ∧
    map rowText d = breaks (split NL (concat (map astText e))) ∧
    ∀ i r, d !! i = Some r → rowNumber r = expected o i.
Proof.
  intros Hne. unfold rowsOf. set (u := flattenTree e) in *.
  destruct (rowLoop_ok o (2 * length u) u [] 0 0 (breaks (split NL (concat (map astText e)))))
    as (u' & d & s & -> & Hf & HB & HN).
  - lia.
  - constructor.
  - unfold work. rewrite drop_0. pose proof (length_filter (λ e, hasBreak e = true) u). lia.
  - unfold progress, textFrom. rewrite drop_0. unfold u at 2. rewrite flattenTree_text.
    by destruct u.
  - by intros i r.
  - destruct (drop s u') as [|v vs] eqn:E.
    + exists d. split_and!; [done| |done]. unfold progress in HB. by rewrite E, app_nil_r in HB.
    + eexists. split; [reflexivity|]. split.
      * rewrite map_app. rewrite map_singleton.
        rewrite createLine_text, leaf_text.
        unfold progress, textFrom in HB. rewrite E in HB.
        rewrite split_single in HB by by apply concat_no_break. done.
      * apply numbersOk_push; [|done]. intros z w r. done.
Qed.

Definition sample_options : Options :=
  {| wrapLines := false; wrapLongLines := false; showLineNumbers := true; showInlineLineNumbers := true;
     startingLineNumber := 1; largestLineNumber := 4; lineClass := λ _, None |}.

Definition sample_code : list ast :=
  [AElem [runes "keyword"] [AText (runes "def")]; AText (runes " f():" ++ [NL] ++ runes "  ");
   AElem [runes "string"] [AText (runes "'a" ++ [NL] ++ runes "b'")]].

Lemma rows_are_the_lines_witness : ∃ d, rowsOf sample_options sample_code = Some d ∧
  map rowText d = [runes "def f():" ++ [NL]; runes "  'a" ++ [NL]; runes "b'"] ∧
  map rowNumber d = [Some 1; Some 2; Some 3].
Proof.
  destruct (rows_are_the_lines sample_options sample_code) as (d & H1 & H2 & H3); [discriminate|].
  exists d. split; [exact H1|]. split; [rewrite H2; vm_compute; reflexivity|].
  vm_compute in H1. injection H1 as <-. reflexivity.
Defined.

(** numbering from zero leaves the first line without a number. *)
Theorem zero_is_not_shown o : startingLineNumber o = 0 → expected o 0 = None.
Proof. intros H. unfold expected. rewrite H. by case_match. Qed.
