(* ===== verification/MdChunks.v ===== *)
(** * Reading Markdown text

    The first and the last step of the Markdown reader of the UI: the text is cut
    into chunks and codes, with line endings and tab stops recognised ([Xxt]), and
    chunks are turned back into text wherever a token's source is wanted ([Kxt]).
    Nothing is lost between the two. *)

From Stdlib Require Import ZArith Lia.
From stdpp Require Import base numbers strings option list.
From S2P Require Import Prelude Js.

Open Scope Z_scope.

(** A piece of text, a code (a character or one of the negative codes below), or
    the end of the file. *)
Inductive chunk := Piece (s : jstr) | Code (c : Z) | Eof.

(** The codes: carriage return, line feed, both, a tab, and one column of a tab
    after its first. *)
Definition codeCR : Z := -5.
Definition codeLF : Z := -4.
Definition codeCRLF : Z := -3.
Definition codeTab : Z := -2.
Definition codeVirtualSpace : Z := -1.

(** ** The preprocessor *)

(** The closure of [Xxt]: the column, the text not cut yet, whether nothing was
    read, and whether a carriage return was read last. *)
Record State := { column : Z; buffer : jstr; atStart : bool; atReturn : bool }.

Definition init : State := {| column := 1; buffer := []; atStart := true; atReturn := false |}.

(** [Yxt] *)
Definition special (c : Z) : bool := bool_decide (c ∈ [0; 9; 10; 13]).

Definition pieceOf (run : jstr) : list chunk := if bool_decide (run = []) then [] else [Piece run].

(** [Math.ceil(e / 4) * 4] *)
Definition tabStop (e : Z) : Z := (e + 3) / 4 * 4.

(** The loop: [run] is the text since the last special character, [r] whether a
    carriage return is pending, [e] the column.  The result is what was pushed,
    the text left, the column and the flag. *)
Fixpoint cutLoop (i run : jstr) (r : bool) (e : Z) : list chunk * jstr * Z * bool :=
  match i with
  | [] => ([], run, e, r)
  | f :: i' =>
    if negb (special f) then cutLoop i' (run ++ [f]) r e
    else if (f =? 10) && bool_decide (run = []) && r then
      let '(s, t, e', r') := cutLoop i' [] false e in (Code codeCRLF :: s, t, e', r')
    else
      let pre := (if r then [Code codeCR] else []) ++ pieceOf run in
      let e1 := e + Z.of_nat (length run) in
      if f =? 0 then
        let '(s, t, e', r') := cutLoop i' [] false (e1 + 1) in (pre ++ Code 65533 :: s, t, e', r')
      else if f =? 9 then
        let l := tabStop e1 in
        let '(s, t, e', r') := cutLoop i' [] false (l + 1) in
        (pre ++ Code codeTab :: replicate (Z.to_nat (l - e1)) (Code codeVirtualSpace) ++ s, t, e', r')
      else if f =? 10 then
        let '(s, t, e', r') := cutLoop i' [] false 1 in (pre ++ Code codeLF :: s, t, e', r')
      else
        let '(s, t, e', r') := cutLoop i' [] true 1 in (pre ++ s, t, e', r')
  end.

(** One call with a text; [final] tells that no text follows. *)
Definition preprocess (st : State) (text : jstr) (final : bool) : State * list chunk :=
  let i := buffer st ++ text in
  let i' :=
    if atStart st then match i with c :: r => if c =? 65279 then r else i | [] => [] end else i in
  let '(s, t, e, r) := cutLoop i' [] (atReturn st) (column st) in
  ({| column := e; buffer := t; atStart := false; atReturn := r |},
   s ++ (if final then (if r then [Code codeCR] else []) ++ pieceOf t ++ [Eof] else [])).

(** ** Chunks as text *)

(** [Kxt(e, t)]: [t] expands tabs; [i] tells that the last code was a tab. *)
Fixpoint serializeLoop (expandTabs atTab : bool) (e : list chunk) : jstr :=
  match e with
  | [] => []
  | a :: r =>
    match a with
    | Piece s => s ++ serializeLoop expandTabs false r
    | Eof => [0] ++ serializeLoop expandTabs false r
    | Code c =>
      if c =? codeCR then [13] ++ serializeLoop expandTabs false r
      else if c =? codeLF then [10] ++ serializeLoop expandTabs false r
      else if c =? codeCRLF then [13; 10] ++ serializeLoop expandTabs false r
      else if c =? codeTab then
        (if expandTabs then [32] else [9]) ++ serializeLoop expandTabs true r
      else if c =? codeVirtualSpace then
        if negb expandTabs && atTab then serializeLoop expandTabs atTab r
        else [32] ++ serializeLoop expandTabs false r
      else [c mod 65536] ++ serializeLoop expandTabs false r
    end
  end.

Definition serializeChunks (e : list chunk) (expandTabs : bool) : jstr := serializeLoop expandTabs false e.

(** ** Lemmas *)

(** The text with null characters replaced. *)
Definition noNull (s : jstr) : jstr := map (λ c, if c =? 0 then 65533 else c) s.

(** What a chunk adds to the text when tabs are kept: a column of a tab after its
    first adds nothing. *)
Definition kept (a : chunk) : jstr :=
  match a with
  | Piece s => s
  | Eof => [0]
  | Code c =>
    if c =? codeCR then [13] else if c =? codeLF then [10] else if c =? codeCRLF then [13; 10]
    else if c =? codeTab then [9] else if c =? codeVirtualSpace then [] else [c mod 65536]
  end.

(** A column of a tab comes after a tab or another such column. *)
Fixpoint tabsOk (atTab : bool) (e : list chunk) : Prop :=
  match e with
  | [] => True
  | Code c :: r =>
    if c =? codeTab then tabsOk true r
    else if c =? codeVirtualSpace then atTab = true ∧ tabsOk true r
    else tabsOk false r
  | _ :: r => tabsOk false r
  end.

Lemma serialize_kept b e : tabsOk b e → serializeLoop false b e = concat (map kept e).
Proof.
  revert b. induction e as [|a e IH]; intros b; [done|]. destruct a as [s|c|]; simpl.
  - intros H. by rewrite (IH _ H).
  - unfold codeCR, codeLF, codeCRLF, codeTab, codeVirtualSpace.
    destruct (Z.eqb_spec c (-2)) as [->|]; [intros H; simpl; by rewrite (IH _ H)|].
    destruct (Z.eqb_spec c (-1)) as [->|]; [intros [-> H]; simpl; by rewrite (IH _ H)|].
    intros H. repeat case_match; by rewrite (IH _ H).
  - intros H. by rewrite (IH _ H).
Qed.

Lemma tabsOk_weaken b e : tabsOk false e → tabsOk b e.
Proof.
  destruct e as [|[s|c|] e]; simpl; try done.
  destruct (c =? codeTab); [done|]. by destruct (c =? codeVirtualSpace); [intros []|].
Qed.

(** After a list that may end with a tab, a list that starts without a column. *)
Lemma tabsOk_app b a e : tabsOk b a → tabsOk false e → tabsOk b (a ++ e).
Proof.
  revert b. induction a as [|x a IH]; intros b Ha He; [by apply tabsOk_weaken|].
  destruct x as [s|c|]; simpl in *; auto.
  destruct (c =? codeTab); auto. destruct (c =? codeVirtualSpace); [|auto].
  destruct Ha. auto.
Qed.

Lemma tabsOk_columns n e : tabsOk false e → tabsOk true (replicate n (Code codeVirtualSpace) ++ e).
Proof. intros He. induction n as [|n IH]; simpl; [by apply tabsOk_weaken|auto]. Qed.

Lemma kept_columns n : concat (map kept (replicate n (Code codeVirtualSpace))) = [].
Proof. by induction n. Qed.

Lemma kept_app a b : concat (map kept (a ++ b)) = concat (map kept a) ++ concat (map kept b).
Proof. by rewrite map_app, concat_app. Qed.

Lemma pieceOf_kept run : concat (map kept (pieceOf run)) = run.
Proof. unfold pieceOf. case_bool_decide as E; [by rewrite E|]. simpl. apply app_nil_r. Qed.

Lemma special_cases f : special f = true → f = 0 ∨ f = 9 ∨ f = 10 ∨ f = 13.
Proof.
  unfold special. rewrite bool_decide_eq_true, !elem_of_cons, elem_of_nil. naive_solver.
Qed.

Lemma noNull_plain run : Forall (λ c, special c = false) run → noNull run = run.
Proof.
  induction 1 as [|c r Hc Hr IH]; [done|]. simpl. rewrite IH.
  destruct (Z.eqb_spec c 0) as [->|]; [done|done].
Qed.

Lemma noNull_app a b : noNull (a ++ b) = noNull a ++ noNull b.
Proof. apply map_app. Qed.

(** The text of what was pushed, of a pending carriage return and of the text left
    is the text read. *)
Lemma cutLoop_text i run r e s t e' r' : Forall (λ c, special c = false) run →
  cutLoop i run r e = (s, t, e', r') →
  concat (map kept s) ++ (if r' then [13] else []) ++ t = (if r then [13] else []) ++ noNull (run ++ i)
  ∧ tabsOk false s ∧ Forall (λ c, special c = false) t.
Proof.
  revert run r e s t e' r'. induction i as [|f i IH]; intros run r e s t e' r' Hrun.
  { simpl. intros [= <- <- <- <-]. by rewrite app_nil_r, noNull_plain. }
  cbn [cutLoop]. destruct (special f) eqn:Hf; cbn [negb].
  2: { intros H. apply IH in H; [|by apply Forall_app; split; [|repeat constructor]].
       by rewrite <- app_assoc in H. }
  assert (∀ pre s1 t1 e1 r1 r0 e0, cutLoop i [] r0 e0 = (s1, t1, e1, r1) → tabsOk false pre →
    concat (map kept (pre ++ s1)) ++ (if r1 then [13] else []) ++ t1 =
      concat (map kept pre) ++ (if r0 then [13] else []) ++ noNull i
    ∧ tabsOk false (pre ++ s1) ∧ Forall (λ c, special c = false) t1) as Hgo.
  { intros pre s1 t1 e1 r1 r0 e0 H Hpre. apply IH in H as (H1 & H2 & H3); [|constructor].
    split_and!; [|by apply tabsOk_app|done]. rewrite kept_app, <- app_assoc, H1. done. }
  assert (tabsOk false ((if r then [Code codeCR] else []) ++ pieceOf run)) as Hpre.
  { unfold pieceOf. by destruct r; case_bool_decide. }
  assert (concat (map kept ((if r then [Code codeCR] else []) ++ pieceOf run)) =
    (if r then [13] else []) ++ run) as Hk.
  { rewrite kept_app, pieceOf_kept. by destruct r. }
  set (pre := (if r then [Code codeCR] else []) ++ pieceOf run) in *.
  rewrite noNull_app, (noNull_plain run) by done.
  destruct ((f =? 10) && bool_decide (run = []) && r) eqn:Ecr.
  - zbool. subst f run r. destruct (cutLoop i [] false e) as [[[s1 t1] e1] r1] eqn:E.
    intros [= <- <- <- <-]. exact (Hgo [Code codeCRLF] _ _ _ _ _ _ E I).
  - destruct (special_cases f Hf) as [-> | [-> | [-> | ->]]]; simpl Z.eqb; cbv iota.
    + destruct (cutLoop i [] false _) as [[[s1 t1] e1] r1] eqn:E. intros [= <- <- <- <-].
      destruct (Hgo (pre ++ [Code 65533]) _ _ _ _ _ _ E) as (H1 & H2 & H3); [by apply tabsOk_app|].
      rewrite <- app_assoc in H1, H2. split_and!; [|done..].
      simpl app in H1. rewrite H1, kept_app, Hk, <- !app_assoc. done.
    + destruct (cutLoop i [] false _) as [[[s1 t1] e1] r1] eqn:E. intros [= <- <- <- <-].
      set (cols := replicate _ _) in *.
      destruct (Hgo (pre ++ Code codeTab :: cols) _ _ _ _ _ _ E) as (H1 & H2 & H3).
      { apply tabsOk_app; [done|]. simpl. rewrite <- (app_nil_r cols). by apply tabsOk_columns. }
      rewrite <- app_assoc in H1, H2. split_and!; [|done..].
      simpl app in H1. rewrite H1, kept_app, Hk. simpl. unfold cols. rewrite kept_columns.
      by rewrite <- !app_assoc.
    + destruct (cutLoop i [] false _) as [[[s1 t1] e1] r1] eqn:E. intros [= <- <- <- <-].
      destruct (Hgo (pre ++ [Code codeLF]) _ _ _ _ _ _ E) as (H1 & H2 & H3); [by apply tabsOk_app|].
      rewrite <- app_assoc in H1, H2. split_and!; [|done..].
      simpl app in H1. rewrite H1, kept_app, Hk, <- !app_assoc. done.
    + destruct (cutLoop i [] true _) as [[[s1 t1] e1] r1] eqn:E. intros [= <- <- <- <-].
      destruct (Hgo pre _ _ _ _ _ _ E Hpre) as (H1 & H2 & H3).
      split_and!; [|done..]. rewrite H1, Hk, <- !app_assoc. done.
Qed.

(** The chunks of a text given in parts, the last of which is final. *)
Fixpoint feed (st : State) (text : jstr) (rest : list jstr) : list chunk :=
  match rest with
  | [] => snd (preprocess st text true)
  | next :: rest' =>
    let '(st', s) := preprocess st text false in s ++ feed st' next rest'
  end.

Lemma preprocess_text st text final st' s : atStart st = false →
  preprocess st text final = (st', s) →
  ∃ s0, s = s0 ++ (if final then (if atReturn st' then [Code codeCR] else []) ++ pieceOf (buffer st') ++ [Eof] else [])
    ∧ atStart st' = false ∧ tabsOk false s0
    ∧ concat (map kept s0) ++ (if atReturn st' then [13] else []) ++ buffer st' =
      (if atReturn st then [13] else []) ++ noNull (buffer st ++ text)
    ∧ Forall (λ c, special c = false) (buffer st').
Proof.
  intros Hst. unfold preprocess. rewrite Hst.
  destruct (cutLoop _ _ _ _) as [[[s0 t] e] r] eqn:E. intros [= <- <-].
  apply cutLoop_text in E as (H1 & H2 & H3); [|constructor]. exists s0. done.
Qed.

Lemma noNull_buffer b s : Forall (λ c, special c = false) b → noNull (b ++ s) = b ++ noNull s.
Proof. intros. by rewrite noNull_app, noNull_plain. Qed.

Lemma feed_text rest st text : atStart st = false → Forall (λ c, special c = false) (buffer st) →
  ∃ body, feed st text rest = body ++ [Eof] ∧ tabsOk false body ∧
    concat (map kept body) =
      (if atReturn st then [13] else []) ++ buffer st ++ noNull (text ++ concat rest).
Proof.
  revert st text. induction rest as [|next rest IH]; intros st text Hst Hb; simpl.
  - destruct (preprocess st text true) as [st' s] eqn:E.
    apply preprocess_text in E as (s0 & -> & _ & Ht & Hk & Hb'); [|done].
    exists (s0 ++ (if atReturn st' then [Code codeCR] else []) ++ pieceOf (buffer st')).
    split; [by rewrite <- !app_assoc|]. split.
    + apply tabsOk_app; [done|]. unfold pieceOf. by destruct (atReturn st'); case_bool_decide.
    + rewrite !kept_app, pieceOf_kept, app_nil_r, <- noNull_buffer by done.
      rewrite <- Hk. by destruct (atReturn st').
  - destruct (preprocess st text false) as [st' s] eqn:E.
    apply preprocess_text in E as (s0 & -> & Hst' & Ht & Hk & Hb'); [|done].
    destruct (IH st' next Hst' Hb') as (body & -> & Hbody & Hkb).
    exists (s0 ++ body). rewrite app_nil_r, <- app_assoc. split; [done|].
    split; [by apply tabsOk_app|]. rewrite kept_app, Hkb.
    transitivity ((concat (map kept s0) ++ (if atReturn st' then [13] else []) ++ buffer st')
      ++ noNull (next ++ concat rest)); [by rewrite <- !app_assoc|].
    rewrite Hk, noNull_buffer by done. rewrite <- !app_assoc. do 2 f_equal.
    by rewrite <- noNull_app.
Qed.

(** ** Properties *)

(** the Markdown reader keeps the text: however it is given in parts, turning
    its chunks back into text gives the text, with line endings and tabs as they
    were, a null character replaced and a byte order mark at the very start
    dropped. *)
Theorem chunks_keep_text text rest :
  ∃ body, feed init text rest = body ++ [Eof] ∧
    serializeChunks body false =
      noNull ((match text with c :: r => if c =? 65279 then r else text | [] => [] end) ++ concat rest).
Proof.
  set (text' := match text with c :: r => if c =? 65279 then r else text | [] => [] end).
  set (st := {| column := 1; buffer := []; atStart := false; atReturn := false |}).
  assert (∀ final, preprocess init text final = preprocess st text' final) as Hp by done.
  assert (feed init text rest = feed st text' rest) as ->.
  { destruct rest; simpl; by rewrite Hp. }
  destruct (feed_text rest st text') as (body & Hf & Ht & Hk); [done|constructor|].
  exists body. split; [done|]. unfold serializeChunks. by rewrite serialize_kept.
Qed.

(** A tab after two columns takes the columns up to the next multiple of four. *)
Example tab_columns : feed init (runes "ab" ++ [9] ++ runes "c") [] =
  [Piece (runes "ab"); Code codeTab; Code codeVirtualSpace; Piece (runes "c"); Eof].
Proof. vm_compute. reflexivity. Qed.
