(* ===== verification/MdHast.v ===== *)
(** * Markdown documents as page elements

    The documentation of a DAG is Markdown that the UI shows on its pages.  This
    file models the way from the parsed document to the elements of the page: the
    translation of each kind of node ([PZ] with [LSt] and [HSt]), the section of
    footnotes ([WZ]), and the clean-up that removes raw HTML and unsafe addresses
    ([_Ct], [vCt]) with the options the UI passes ([s1]).

    Nodes are those of the parser with the extensions the UI loads; they carry no
    [data], so that [applyData] changes nothing, and positions are left out.  Case
    mapping is a parameter. *)

From Stdlib Require Import ZArith Lia.
From stdpp Require Import base numbers strings pretty option list sets.
From S2P Require Import Prelude Js.

Open Scope Z_scope.

(** ** Trees *)

Inductive refKind := Shortcut | Collapsed | Full.

Inductive mdast :=
  | MRoot (l : list mdast)
  | MParagraph (l : list mdast)
  | MHeading (depth : nat) (l : list mdast)
  | MBlockquote (l : list mdast)
  | MList (ordered : bool) (start : option Z) (spread : option bool) (l : list mdast)
  | MListItem (checked spread : option bool) (l : list mdast)
  | MCode (lang meta : option jstr) (value : jstr)
  | MInlineCode (value : jstr)
  | MText (value : jstr)
  | MBreak
  | MEmphasis (l : list mdast)
  | MStrong (l : list mdast)
  | MDelete (l : list mdast)
  | MHtml (value : jstr)
  | MThematicBreak
  | MImage (url : jstr) (alt title : option jstr)
  | MLink (url : jstr) (title : option jstr) (l : list mdast)
  | MImageReference (identifier label alt : jstr) (kind : refKind)
  | MLinkReference (identifier label : jstr) (kind : refKind) (l : list mdast)
  | MTable (align : list (option jstr)) (l : list mdast)
  | MTableRow (l : list mdast)
  | MTableCell (l : list mdast)
  | MDefinition (identifier url : jstr) (title : option jstr)
  | MFootnoteDefinition (identifier : jstr) (l : list mdast)
  | MFootnoteReference (identifier : jstr).

(** A property of an element. *)
Inductive prop := PStr (s : jstr) | PBool (b : bool) | PNum (n : Z) | PList (l : list jstr).

Inductive hast :=
  | HRoot (l : list hast)
  | HText (value : jstr)
  | HRaw (value : jstr)
  | HElem (tag : jstr) (props : list (jstr * prop)) (l : list hast).

Definition childrenOf (n : mdast) : list mdast :=
  match n with
  | MRoot l | MParagraph l | MHeading _ l | MBlockquote l | MList _ _ _ l | MListItem _ _ l
  | MEmphasis l | MStrong l | MDelete l | MLink _ _ l | MLinkReference _ _ _ l | MTable _ l
  | MTableRow l | MTableCell l | MFootnoteDefinition _ l => l
  | _ => []
  end.

Definition newline : hast := HText [NL].

Definition el (tag : string) (props : list (jstr * prop)) (l : list hast) : hast := HElem (runes tag) props l.

(** ** Addresses *)

Definition alnum (c : Z) : bool :=
  ((48 <=? c) && (c <=? 57)) || ((65 <=? c) && (c <=? 90)) || ((97 <=? c) && (c <=? 122)).

(** [[!#$&-;=?-Z_a-z~]] *)
Definition uriChar (c : Z) : bool :=
  bool_decide (c ∈ [33; 35; 36; 61; 95; 126]) || ((38 <=? c) && (c <=? 59))
  || ((63 <=? c) && (c <=? 90)) || ((97 <=? c) && (c <=? 122)).

Definition hexUpper (n : Z) : Z := if n <? 10 then 48 + n else 55 + n.

Definition percent (b : Z) : jstr := [37; hexUpper (b / 16); hexUpper (b mod 16)].

(** [encodeURIComponent] of one character that it does not leave alone. *)
Definition encodeCodePoint (c : Z) : jstr :=
  if c <? 128 then percent c
  else if c <? 2048 then percent (192 + c / 64) ++ percent (128 + c mod 64)
  else if c <? 65536 then
    percent (224 + c / 4096) ++ percent (128 + c / 64 mod 64) ++ percent (128 + c mod 64)
  else
    percent (240 + c / 262144) ++ percent (128 + c / 4096 mod 64) ++ percent (128 + c / 64 mod 64)
    ++ percent (128 + c mod 64).

(** [LX] *)
Fixpoint normalizeUri (e : jstr) : jstr :=
  match e with
  | [] => []
  | a :: r =>
    match r with
    | b :: r1 =>
      match r1 with
      | c :: r2 =>
        if (a =? 37) && alnum b && alnum c then a :: b :: c :: normalizeUri r2
        else if isLead a && isTrail b then
          encodeCodePoint (65536 + (a - 55296) * 1024 + (b - 56320)) ++ normalizeUri r1
        else if isLead a || isTrail a then encodeCodePoint 65533 ++ normalizeUri r
        else if (a <? 128) && uriChar a then a :: normalizeUri r
        else encodeCodePoint a ++ normalizeUri r
      | [] =>
        if isLead a && isTrail b then encodeCodePoint (65536 + (a - 55296) * 1024 + (b - 56320))
        else if isLead a || isTrail a then encodeCodePoint 65533 ++ normalizeUri r
        else if (a <? 128) && uriChar a then a :: normalizeUri r
        else encodeCodePoint a ++ normalizeUri r
      end
    | [] =>
      if isLead a || isTrail a then encodeCodePoint 65533
      else if (a <? 128) && uriChar a then [a] else encodeCodePoint a
    end
  end.

(** ** Text *)

(** A text cut at its line endings: pairs of a line and its ending. *)
Fixpoint cutEols (cur s : jstr) : list (jstr * jstr) * jstr :=
  match s with
  | [] => ([], cur)
  | c :: r =>
    if c =? 10 then let '(l, t) := cutEols [] r in ((cur, [10]) :: l, t)
    else if c =? 13 then
      match r with
      | d :: r' =>
        if d =? 10 then let '(l, t) := cutEols [] r' in ((cur, [13; 10]) :: l, t)
        else let '(l, t) := cutEols [] r in ((cur, [13]) :: l, t)
      | [] => ([(cur, [13])], [])
      end
    else cutEols (cur ++ [c]) r
  end.

Definition blank (c : Z) : bool := (c =? 9) || (c =? 32).

(** [$Z] *)
Fixpoint trimBlankStart (s : jstr) : jstr :=
  match s with [] => [] | c :: r => if blank c then trimBlankStart r else s end.

Definition trimBlankEnd (s : jstr) : jstr := reverse (trimBlankStart (reverse s)).

(** [CSt] *)
Definition trimLine (s : jstr) (start stop : bool) : jstr :=
  let s1 := if start then trimBlankStart s else s in if stop then trimBlankEnd s1 else s1.

(** [SSt] *)
Definition trimLines (s : jstr) : jstr :=
  let '(l, t) := cutEols [] s in
  concat (imap (λ i p, trimLine p.1 (bool_decide (0 < i)%nat) true ++ p.2) l)
  ++ trimLine t (negb (bool_decide (l = []))) false.

(** [value.replace(/\r?\n|\r/g, " ")] *)
Definition eolsToSpaces (s : jstr) : jstr :=
  let '(l, t) := cutEols [] s in concat (map (λ p, p.1 ++ [32]) l) ++ t.

(** [lang.split(/\s+/)[0]] *)
Fixpoint firstWord (s : jstr) : jstr :=
  match s with [] => [] | c :: r => if isSpaceJs c then [] else c :: firstWord r end.

(** [VSt]: [t] also puts a line break before and after. *)
Fixpoint between (e : list hast) : list hast :=
  match e with
  | [] => []
  | [x] => [x]
  | x :: r => x :: newline :: between r
  end.

Definition wrap (e : list hast) (t : bool) : list hast :=
  (if t then [newline] else []) ++ between e
  ++ (if t && negb (bool_decide (length e = 0%nat)) then [newline] else []).

(** ** The translation *)

Record Options := { allowDangerousHtml : bool; clobberPrefix : jstr }.

(** What a handler returns: nothing, a node, or several nodes. *)
Inductive res := RNone | ROne (h : hast) | RMany (l : list hast).

Definition toList (r : res) : list hast := match r with RNone => [] | ROne h => [h] | RMany l => l end.

(** The footnotes referred to: their order and how often each was. *)
Record State := { footnoteOrder : list jstr; footnoteCounts : list (jstr * nat) }.

Definition count (k : jstr) (s : State) : option nat :=
  snd <$> List.find (λ p, bool_decide (p.1 = k)) (footnoteCounts s).

Section translate.
Context (upper lower : jstr → jstr) (opts : Options).
(** The definitions of the document by their identifiers in upper case. *)
Context (definition : jstr → option (jstr * option jstr)).

(** After a line break, blanks at the start of the next text go. *)
Definition afterBreak (r : res) : res :=
  match r with
  | ROne (HText v) => ROne (HText (trimBlankStart v))
  | ROne (HElem t p (HText v :: l)) => ROne (HElem t p (HText (trimBlankStart v) :: l))
  | _ => r
  end.

Definition isBreak (n : option mdast) : bool := match n with Some MBreak => true | _ => false end.

Section all.
Context (one : option (mdast * nat) → mdast → State → State * res).

(** [all(e)] for the children of [parent] from the index [k] on; [prev] is the
    child before them. *)
Fixpoint allFrom (parent : mdast) (k : nat) (prev : option mdast) (l : list mdast) (s : State)
    : State * list hast :=
  match l with
  | [] => (s, [])
  | x :: r =>
    let '(s1, i) := one (Some (parent, k)) x s in
    let i' := if isBreak prev then afterBreak i else i in
    let '(s2, t) := allFrom parent (S k) (Some x) r s1 in
    (s2, toList i' ++ t)
  end.

Definition all (parent : mdast) (l : list mdast) (s : State) : State * list hast :=
  allFrom parent 0 None l s.

Definition alignProps (o : option jstr) : list (jstr * prop) :=
  match o with Some ((_ :: _) as x) => [(runes "align", PStr x)] | _ => [] end.

(** The cells of a row: as many as there are alignments, or children. *)
Fixpoint cells (tag : string) (align : option (list (option jstr))) (l : list mdast) (s : State)
    : State * list hast :=
  match l with
  | [] => (s, match align with Some a => map (λ o, el tag (alignProps o) []) a | None => [] end)
  | x :: r =>
    match align with
    | Some [] => (s, [])
    | _ =>
      let o := match align with Some (o :: _) => o | _ => None end in
      let '(s1, c) := match x with MTableCell cl => all x cl s | _ => (s, []) end in
      let '(s2, t) := cells tag (match align with Some (_ :: a) => Some a | a => a end) r s1 in
      (s2, el tag (alignProps o) c :: t)
    end
  end.

End all.

(** [kZ]: whether an item is set off from its neighbours. *)
Definition itemLoose (n : mdast) : bool :=
  match n with
  | MListItem _ (Some b) _ => b
  | MListItem _ None l => (1 <? length l)%nat
  | _ => (1 <? length (childrenOf n))%nat
  end.

(** [gSt] *)
Definition listLoose (n : mdast) : bool :=
  match n with
  | MList _ _ spread l => default false spread || existsb itemLoose l
  | _ => false
  end.

(** The box of a task, put into the first paragraph. *)
Definition withCheckbox (checked : bool) (r : list hast) : list hast :=
  let box := el "input" [(runes "type", PStr (runes "checkbox")); (runes "checked", PBool checked);
                         (runes "disabled", PBool true)] [] in
  let fill l := box :: (match l with [] => [] | _ => HText [32] :: l end) in
  match r with
  | HElem t p l :: r' => if bool_decide (t = runes "p") then HElem t p (fill l) :: r' else el "p" [] (fill []) :: r
  | _ => el "p" [] (fill []) :: r
  end.

Definition isP (h : hast) : bool :=
  match h with HElem t _ _ => bool_decide (t = runes "p") | _ => false end.

(** The children of a list item: a tight one shows its paragraphs without their
    element. *)
Definition itemChildren (loose : bool) (r : list hast) : list hast :=
  concat (imap (λ i e,
    (if loose || bool_decide (0 < i)%nat || negb (isP e) then [newline] else [])
    ++ match e with HElem _ _ l => if isP e && negb loose then l else [e] | _ => [e] end) r)
  ++ match last r with Some c => if loose || negb (isP c) then [newline] else [] | None => [] end.

(** A list with a task in it. *)
Definition isTask (h : hast) : bool :=
  match h with
  | HElem t p _ =>
    bool_decide (t = runes "li") &&
    existsb (λ q, bool_decide (q.1 = runes "className") &&
      match q.2 with PList c => bool_decide (runes "task-list-item" ∈ c) | _ => false end) p
  | _ => false
  end.

(** [lSt]: a reference without a definition is shown as it was written. *)
Definition refSuffix (kind : refKind) (label identifier : jstr) : jstr :=
  runes "]" ++
  match kind with
  | Collapsed => runes "[]"
  | Full => runes "[" ++ (if bool_decide (label = []) then identifier else label) ++ runes "]"
  | Shortcut => []
  end.

Definition prependText (s : jstr) (l : list hast) : list hast :=
  match l with HText v :: r => HText (s ++ v) :: r | _ => HText s :: l end.

Definition appendText (s : jstr) (l : list hast) : list hast :=
  match reverse l with HText v :: r => reverse r ++ [HText (v ++ s)] | _ => l ++ [HText s] end.

Definition titleProp (t : option jstr) : list (jstr * prop) :=
  match t with Some x => [(runes "title", PStr x)] | None => [] end.

(** [DZ]: the number of a footnote is its place in the order of first references. *)
Definition footnoteRef (identifier : jstr) (s : State) : State * res :=
  let r := upper identifier in
  let i := normalizeUri (lower r) in
  let n := clobberPrefix opts in
  let c := default 0%nat (count r s) in
  let order := match count r s with None => footnoteOrder s ++ [r] | Some _ => footnoteOrder s end in
  let o :=
    match count r s with
    | None => length order
    | Some _ => match list_find (eq r) (footnoteOrder s) with Some (a, _) => S a | None => 0%nat end
    end in
  let a :=
    el "a" [(runes "href", PStr (runes "#" ++ n ++ runes "fn-" ++ i));
            (runes "id", PStr (n ++ runes "fnref-" ++ i ++ (if (1 <? S c)%nat then runes "-" ++ decimal (S c) else [])));
            (runes "dataFootnoteRef", PBool true);
            (runes "ariaDescribedBy", PList [runes "footnote-label"])] [HText (decimal o)] in
  ({| footnoteOrder := order;
      footnoteCounts := (r, S c) :: filter (λ p, p.1 ≠ r) (footnoteCounts s) |},
   ROne (el "sup" [] [a])).

(** The handlers [PZ], for a node with its parent and its place among the parent's
    children. *)
Fixpoint one (parent : option (mdast * nat)) (n : mdast) (s : State) : State * res :=
  match n with
  | MRoot l => let '(s', c) := all one n l s in (s', ROne (HRoot (wrap c false)))
  | MParagraph l => let '(s', c) := all one n l s in (s', ROne (el "p" [] c))
  | MHeading d l =>
    let '(s', c) := all one n l s in (s', ROne (HElem (runes "h" ++ decimal d) [] c))
  | MBlockquote l => let '(s', c) := all one n l s in (s', ROne (el "blockquote" [] (wrap c true)))
  | MList ordered start _ l =>
    let '(s', c) := all one n l s in
    (s', ROne (el (if ordered then "ol" else "ul")
      ((match start with Some k => if k =? 1 then [] else [(runes "start", PNum k)] | None => [] end)
       ++ (if existsb isTask c then [(runes "className", PList [runes "contains-task-list"])] else []))
      (wrap c true)))
  | MListItem checked _ l =>
    let '(s', c) := all one n l s in
    let loose := match parent with Some (p, _) => listLoose p | None => itemLoose n end in
    let c' := match checked with Some b => withCheckbox b c | None => c end in
    (s', ROne (el "li"
      (match checked with Some _ => [(runes "className", PList [runes "task-list-item"])] | None => [] end)
      (itemChildren loose c')))
  | MCode lang _ value =>
    let v := match value with [] => [] | _ => value ++ [NL] end in
    let p := match lang with
             | Some ((_ :: _) as x) => [(runes "className", PList [runes "language-" ++ firstWord x])]
             | _ => []
             end in
    (s, ROne (el "pre" [] [el "code" p [HText v]]))
  | MInlineCode v => (s, ROne (el "code" [] [HText (eolsToSpaces v)]))
  | MText v => (s, ROne (HText (trimLines v)))
  | MBreak => (s, RMany [el "br" [] []; newline])
  | MEmphasis l => let '(s', c) := all one n l s in (s', ROne (el "em" [] c))
  | MStrong l => let '(s', c) := all one n l s in (s', ROne (el "strong" [] c))
  | MDelete l => let '(s', c) := all one n l s in (s', ROne (el "del" [] c))
  | MHtml v => (s, if allowDangerousHtml opts then ROne (HRaw v) else RNone)
  | MThematicBreak => (s, ROne (el "hr" [] []))
  | MImage url alt title =>
    (s, ROne (el "img" ([(runes "src", PStr (normalizeUri url))]
      ++ (match alt with Some x => [(runes "alt", PStr x)] | None => [] end) ++ titleProp title) []))
  | MLink url title l =>
    let '(s', c) := all one n l s in
    (s', ROne (el "a" ((runes "href", PStr (normalizeUri url)) :: titleProp title) c))
  | MImageReference id label alt kind =>
    (s, match definition (upper id) with
        | None => RMany [HText (runes "![" ++ alt ++ refSuffix kind label id)]
        | Some (url, title) =>
          ROne (el "img" ([(runes "src", PStr (normalizeUri url)); (runes "alt", PStr alt)] ++ titleProp title) [])
        end)
  | MLinkReference id label kind l =>
    let '(s', c) := all one n l s in
    (s', match definition (upper id) with
         | None => RMany (appendText (refSuffix kind label id) (prependText (runes "[") c))
         | Some (url, title) => ROne (el "a" ((runes "href", PStr (normalizeUri url)) :: titleProp title) c)
         end)
  | MTable _ l =>
    let '(s', c) := all one n l s in
    (s', ROne (el "table" [] (wrap
      (match c with
       | [] => []
       | r :: rest =>
         el "thead" [] (wrap [r] true)
         :: match rest with [] => [] | _ => [el "tbody" [] (wrap rest true)] end
       end) true)))
  | MTableRow l =>
    let tag := match parent with
               | Some (_, O) => "th"
               | _ => "td"
               end in
    let align := match parent with Some (MTable a _, _) => Some a | _ => None end in
    let '(s', c) := cells one tag align l s in (s', ROne (el "tr" [] (wrap c true)))
  | MTableCell l => let '(s', c) := all one n l s in (s', ROne (el "td" [] c))
  | MFootnoteReference id => footnoteRef id s
  | MDefinition _ _ _ | MFootnoteDefinition _ _ => (s, RNone)
  end.

End translate.

(** ** Definitions and footnotes *)

(** The nodes of a document in the order a visit meets them. *)
Fixpoint nodes (n : mdast) : list mdast :=
  n :: match n with
       | MRoot l | MParagraph l | MHeading _ l | MBlockquote l | MList _ _ _ l | MListItem _ _ l
       | MEmphasis l | MStrong l | MDelete l | MLink _ _ l | MLinkReference _ _ _ l | MTable _ l
       | MTableRow l | MTableCell l | MFootnoteDefinition _ l => concat (map nodes l)
       | _ => []
       end.

Section document.
Context (upper lower : jstr → jstr).

(** [definitionById], [footnoteById]: the first definition of an identifier. *)
Definition definitionById (tree : mdast) (k : jstr) : option (jstr * option jstr) :=
  head (omap (λ n, match n with
                   | MDefinition id url title => if bool_decide (upper id = k) then Some (url, title) else None
                   | _ => None
                   end) (nodes tree)).

Definition footnoteById (tree : mdast) (k : jstr) : option (jstr * list mdast) :=
  head (omap (λ n, match n with
                   | MFootnoteDefinition id l => if bool_decide (upper id = k) then Some (id, l) else None
                   | _ => None
                   end) (nodes tree)).

(** [HZ], [UZ]: the content and the label of the link back from a footnote. *)
Definition backContent (u : nat) : list hast :=
  HText [8617] :: (if (1 <? u)%nat then [el "sup" [] [HText (decimal u)]] else []).

Definition backLabel (c u : nat) : jstr :=
  runes "Back to reference " ++ decimal (S c) ++ (if (1 <? u)%nat then runes "-" ++ decimal u else []).

Definition backRefs (prefix l : jstr) (c f : nat) : list hast :=
  concat (map (λ u,
    (if (1 <? u)%nat then [HText [32]] else []) ++
    [el "a" [(runes "href", PStr (runes "#" ++ prefix ++ runes "fnref-" ++ l
                ++ (if (1 <? u)%nat then runes "-" ++ decimal u else [])));
             (runes "dataFootnoteBackref", PStr []);
             (runes "ariaLabel", PStr (backLabel c u));
             (runes "className", PList [runes "data-footnote-backref"])] (backContent u)]) (seq 1 f)).

(** The links go to the end of the last paragraph, after a space. *)
Definition withBackRefs (a d : list hast) : list hast :=
  match reverse a with
  | HElem t p l :: r =>
    if bool_decide (t = runes "p") then reverse r ++ [HElem t p (appendText [32] l ++ d)] else a ++ d
  | _ => a ++ d
  end.

(** The loop of [WZ] from the index [c] on. *)
Fixpoint footnoteItems (fuel : nat) (opts : Options) (tree : mdast) (c : nat) (s : State)
    : option (State * list hast) :=
  match footnoteOrder s !! c with
  | None => Some (s, [])
  | Some k =>
    match fuel with
    | O => None
    | S fuel =>
      match footnoteById tree k with
      | None => footnoteItems fuel opts tree (S c) s
      | Some (id, l) =>
        let '(s1, a) := all (one upper lower opts (definitionById tree)) (MFootnoteDefinition id l) l s in
        let o := upper id in
        let i := normalizeUri (lower o) in
        let d := backRefs (clobberPrefix opts) i c (default 0%nat (count o s1)) in
        let m := el "li" [(runes "id", PStr (clobberPrefix opts ++ runes "fn-" ++ i))]
                   (wrap (withBackRefs a d) true) in
        match footnoteItems fuel opts tree (S c) s1 with
        | None => None
        | Some (s2, r) => Some (s2, m :: r)
        end
      end
    end
  end.

(** The footnotes a document refers to, with repetitions. *)
Definition referred (tree : mdast) : list jstr :=
  omap (λ n, match n with MFootnoteReference id => Some (upper id) | _ => None end) (nodes tree).

Definition footnoteSection (items : list hast) : hast :=
  el "section" [(runes "dataFootnotes", PBool true); (runes "className", PList [runes "footnotes"])]
    [el "h2" [(runes "className", PList [runes "sr-only"]); (runes "id", PStr (runes "footnote-label"))]
       [HText (runes "Footnotes")];
     newline; el "ol" [] (wrap items true); newline].

Definition start : State := {| footnoteOrder := []; footnoteCounts := [] |}.

(** [HSt]: the document as elements; the loop of the footnotes gets as fuel the
    number of references, which bounds the footnotes that are ever listed. *)
Definition toHast (opts : Options) (tree : mdast) : option hast :=
  let '(s, r) := one upper lower opts (definitionById tree) None tree start in
  let a := match r with RMany l => HRoot l | ROne h => h | RNone => HRoot [] end in
  match footnoteItems (length (referred tree)) opts tree 0 s with
  | None => None
  | Some (_, []) => Some a
  | Some (_, items) =>
    Some (match a with
          | HRoot l => HRoot (l ++ [newline; footnoteSection items])
          | HElem t p l => HElem t p (l ++ [newline; footnoteSection items])
          | h => h
          end)
  end.

End document.

(** ** Cleaning up *)

(** [sbt]: the properties that hold addresses, with the elements they do so on. *)
Definition urlAttributes : list (jstr * option (list jstr)) :=
  map (λ '(k, v), (runes k, match v with Some l => Some (map runes l) | None => None end))
  [("action", Some ["form"]); ("cite", Some ["blockquote"; "del"; "ins"; "q"]); ("data", Some ["object"]);
   ("formAction", Some ["button"; "input"]); ("href", Some ["a"; "area"; "base"; "link"]);
   ("icon", Some ["menuitem"]); ("itemId", None); ("manifest", Some ["html"]); ("ping", Some ["a"; "area"]);
   ("poster", Some ["video"]);
   ("src", Some ["audio"; "embed"; "iframe"; "img"; "input"; "script"; "source"; "track"; "video"])].

Definition isUrlAttribute (tag k : jstr) : bool :=
  existsb (λ p, bool_decide (p.1 = k) &&
    match p.2 with None => true | Some l => bool_decide (tag ∈ l) end) urlAttributes.

Fixpoint indexOf (c : Z) (s : jstr) : option nat :=
  match s with
  | [] => None
  | x :: r => if x =? c then Some 0%nat else S <$> indexOf c r
  end.

(** [gQ]: the protocols that are let through. *)
Definition safeProtocols : list jstr :=
  runes <$> ["http"; "https"; "irc"; "ircs"; "mailto"; "xmpp"].

Definition before (t : nat) (i : option nat) : bool :=
  match i with Some i => (i <? t)%nat | None => false end.

(** [vCt] *)
Definition urlTransform (e : jstr) : jstr :=
  match indexOf 58 e with
  | None => e
  | Some t =>
    if before t (indexOf 47 e) || before t (indexOf 63 e) || before t (indexOf 35 e)
       || bool_decide (map lowerUnit (take t e) ∈ safeProtocols)
    then e else []
  end.

(** [String(n || "")] *)
Definition propText (p : prop) : jstr :=
  match p with
  | PStr s => s
  | PBool true => runes "true"
  | PBool false => []
  | PNum n => if n =? 0 then [] else runes (pretty n)
  | PList l => join (runes ",") l
  end.

(** The visitor of [_Ct]: raw HTML goes, or becomes text; addresses are
    transformed. *)
Fixpoint clean (skipHtml : bool) (h : hast) : list hast :=
  match h with
  | HRaw v => if skipHtml then [] else [HText v]
  | HText _ => [h]
  | HElem t p l =>
    [HElem t (map (λ q, (q.1, if isUrlAttribute t q.1 then PStr (urlTransform (propText q.2)) else q.2)) p)
       (concat (map (clean skipHtml) l))]
  | HRoot l => [HRoot (concat (map (clean skipHtml) l))]
  end.

(** The component [s1] of the UI: raw HTML is produced ([hQ]) and skipped. *)
Definition renderMarkdown (upper lower : jstr → jstr) (tree : mdast) : option (list hast) :=
  clean true <$> toHast upper lower
    {| allowDangerousHtml := true; clobberPrefix := runes "user-content-" |} tree.

(** ** Lemmas *)

Lemma hast_ind' (P : hast → Prop) :
  (∀ l, Forall P l → P (HRoot l)) → (∀ v, P (HText v)) → (∀ v, P (HRaw v)) →
  (∀ t p l, Forall P l → P (HElem t p l)) → ∀ h, P h.
Proof.
  intros H1 H2 H3 H4. fix IH 1. intros [l|v|v|t p l]; [apply H1|apply H2|apply H3|apply H4];
    induction l as [|x l IHl]; constructor; [apply IH|exact IHl|apply IH|exact IHl].
Qed.

(** The elements of a page, in order. *)
Fixpoint elements (h : hast) : list hast :=
  h :: match h with HRoot l | HElem _ _ l => concat (map elements l) | _ => [] end.

(** An address without a protocol, or with one that cannot run a script. *)
Definition safeUrl (v : jstr) : Prop :=
  ∀ scheme rest, v = scheme ++ 58 :: rest → Forall (λ c, c ∉ [47; 63; 35; 58]) scheme →
    map lowerUnit scheme ∈ safeProtocols.

Definition safeElement (h : hast) : Prop :=
  match h with
  | HRaw _ => False
  | HElem t p _ => ∀ k v, (k, v) ∈ p → isUrlAttribute t k = true → ∃ s, v = PStr s ∧ safeUrl s
  | _ => True
  end.

Lemma indexOf_first c a b : c ∉ a → indexOf c (a ++ c :: b) = Some (length a).
Proof.
  induction a as [|x a IH]; simpl; [by rewrite Z.eqb_refl|]. rewrite not_elem_of_cons. intros [Hx Ha].
  destruct (Z.eqb_spec x c); [congruence|]. by rewrite IH.
Qed.

Lemma indexOf_not_before c a d b : c ∉ a → c ≠ d → before (length a) (indexOf c (a ++ d :: b)) = false.
Proof.
  intros Ha Hd. assert (∀ i, indexOf c (a ++ d :: b) = Some i → (length a <= i)%nat) as H.
  { induction a as [|x a IH]; simpl; [lia|]. rewrite not_elem_of_cons in Ha. destruct Ha as [Hx Ha].
    destruct (Z.eqb_spec x c); [congruence|]. intros i. destruct (indexOf c (a ++ d :: b)) as [j|]; [|done].
    simpl. intros [= <-]. specialize (IH Ha j eq_refl). lia. }
  unfold before. destruct (indexOf c (a ++ d :: b)) as [i|]; [|done].
  apply Nat.ltb_ge. by apply H.
Qed.

Lemma urlTransform_safe e : safeUrl (urlTransform e).
Proof.
  unfold urlTransform. destruct (indexOf 58 e) as [t|] eqn:Et.
  - destruct (_ || _) eqn:Eb; [|intros [|] ?; done]. intros scheme rest -> Hs.
    assert (∀ c, c ∈ [47; 63; 35; 58] → c ∉ scheme) as Hc.
    { intros c Hc Hin. rewrite Forall_forall in Hs. by apply (Hs c). }
    rewrite indexOf_first in Et by (apply Hc; set_solver). injection Et as <-.
    rewrite !indexOf_not_before, take_app_length in Eb by (done || (apply Hc; set_solver)).
    simpl in Eb. by apply bool_decide_eq_true in Eb.
  - intros scheme rest -> Hs. exfalso. clear Hs. revert Et.
    induction scheme as [|x scheme IH]; simpl; [done|]. destruct (x =? 58); [done|].
    destruct (indexOf 58 (scheme ++ 58 :: rest)); [done|]. intros _. by apply IH.
Qed.

Lemma clean_safe h : Forall safeElement (concat (map elements (clean true h))).
Proof.
  induction h as [l IH|v|v|t p l IH] using hast_ind'; simpl.
  - rewrite app_nil_r. constructor; [done|]. induction IH as [|x l Hx Hl IHl]; simpl; [constructor|].
    rewrite map_app, concat_app. by apply Forall_app.
  - by repeat constructor.
  - constructor.
  - rewrite app_nil_r. constructor.
    + intros k v Hin Hk. apply list_elem_of_fmap in Hin as ([k' v'] & [= -> ->] & Hin). simpl in *.
      rewrite Hk. eexists. split; [done|]. apply urlTransform_safe.
    + induction IH as [|x l Hx Hl IHl]; simpl; [constructor|].
      rewrite map_app, concat_app. by apply Forall_app.
Qed.

(** Induction over the children, whatever the kind of node. *)
Lemma mdast_ind' (P : mdast → Prop) : (∀ n, Forall P (childrenOf n) → P n) → ∀ n, P n.
Proof.
  intros H. fix IH 1. intros n. apply H.
  destruct n; simpl; try constructor; induction l as [|x l IHl]; constructor; [apply IH|exact IHl|..];
    (apply IH || exact IHl).
Qed.

Lemma nodes_unfold n : nodes n = n :: concat (map nodes (childrenOf n)).
Proof. by destruct n. Qed.

Lemma nodes_child n x y : x ∈ childrenOf n → y ∈ nodes x → y ∈ nodes n.
Proof.
  intros Hx Hy. rewrite nodes_unfold. right. apply list_elem_of_In, in_concat.
  exists (nodes x). split; [apply in_map, list_elem_of_In, Hx|apply list_elem_of_In, Hy].
Qed.

Lemma nodes_trans n x y : x ∈ nodes n → y ∈ nodes x → y ∈ nodes n.
Proof.
  induction n as [n IH] using mdast_ind'. intros Hx Hy. rewrite nodes_unfold in Hx.
  apply elem_of_cons in Hx as [->|Hx]; [done|].
  apply list_elem_of_In, in_concat in Hx as (l & Hl & Hx). apply in_map_iff in Hl as (c & <- & Hc).
  apply list_elem_of_In in Hc, Hx. rewrite Forall_forall in IH.
  eapply nodes_child; [exact Hc|]. by apply IH.
Qed.

Section footnotes.
Context (upper lower : jstr → jstr) (opts : Options) (definition : jstr → option (jstr * option jstr)).
(** The footnotes that may be referred to. *)
Context (R : list jstr).

(** The order lists each footnote referred to once. *)
Definition good (s : State) : Prop :=
  NoDup (footnoteOrder s) ∧ (∀ k, k ∈ footnoteOrder s ↔ is_Some (count k s)) ∧
  ∀ k, k ∈ footnoteOrder s → k ∈ R.

Lemma count_set r c l k o :
  count k {| footnoteOrder := o; footnoteCounts := (r, c) :: filter (λ p, p.1 ≠ r) l |} =
  if bool_decide (r = k) then Some c else count k {| footnoteOrder := []; footnoteCounts := l |}.
Proof.
  unfold count. simpl. case_bool_decide as E; [done|]. f_equal.
  induction l as [|[a b] l IH]; simpl; [done|]. rewrite filter_cons. simpl. case_decide as Ea; simpl.
  - case_bool_decide; [done|apply IH].
  - rewrite bool_decide_eq_false_2 by congruence. apply IH.
Qed.

Lemma footnoteRef_good id s : upper id ∈ R → good s → good (fst (footnoteRef upper lower opts id s)).
Proof.
  intros Hid (Hn & Hk & HR). unfold footnoteRef, good. cbn [fst footnoteOrder].
  assert (∀ k, is_Some (count k (fst (footnoteRef upper lower opts id s))) ↔
    k = upper id ∨ is_Some (count k s)) as Hc.
  { intros k. unfold footnoteRef. cbn [fst]. rewrite count_set. case_bool_decide as E.
    - subst. split; [auto|eauto].
    - change (count k {| footnoteOrder := []; footnoteCounts := footnoteCounts s |}) with (count k s).
      naive_solver. }
  unfold footnoteRef in Hc. cbn [fst] in Hc.
  destruct (count (upper id) s) as [c|] eqn:E; simpl in *.
  - split_and!; [done| |done]. intros k. rewrite Hc, Hk. split; [auto|]. intros [->|?]; [|done].
    rewrite E. eauto.
  - assert (upper id ∉ footnoteOrder s) as Hnew by (rewrite Hk, E; by intros []).
    split_and!.
    + apply NoDup_app. split; [done|]. split; [|apply NoDup_singleton].
      intros x Hx ->%list_elem_of_singleton. done.
    + intros k. rewrite Hc, elem_of_app, list_elem_of_singleton, Hk. naive_solver.
    + intros k [?|Hin]%elem_of_app; [auto|]. by apply list_elem_of_singleton in Hin as ->.
Qed.

Definition keeps (n : mdast) : Prop :=
  ∀ parent s, good s → good (fst (one upper lower opts definition parent n s)).

Lemma allFrom_good l parent k prev s : Forall keeps l → good s →
  good (fst (allFrom (one upper lower opts definition) parent k prev l s)).
Proof.
  intros H. revert k prev s. induction H as [|x l Hx Hl IH]; intros k prev s Hs; simpl; [done|].
  specialize (Hx (Some (parent, k)) s Hs). destruct (one _ _ _ _ _ x s) as [s1 i]. simpl in Hx.
  specialize (IH (S k) (Some x) s1 Hx). by destruct (allFrom _ parent (S k) (Some x) l s1).
Qed.

Lemma cells_good tag l align s : Forall (λ x, Forall keeps (childrenOf x)) l → good s →
  good (fst (cells (one upper lower opts definition) tag align l s)).
Proof.
  intros H. revert align s. induction H as [|x l Hx Hl IH]; intros align s Hs; simpl; [done|].
  destruct align as [[|o a]|]; [done|..].
  all: assert (good (fst (match x with MTableCell cl => all (one upper lower opts definition) x cl s | _ => (s, []) end)))
    as Hg by (destruct x; try done; by apply allFrom_good).
  all: destruct (match x with MTableCell cl => _ | _ => _ end) as [s1 c]; simpl in Hg.
  - specialize (IH (Some a) s1 Hg). by destruct (cells _ tag (Some a) l s1).
  - specialize (IH None s1 Hg). by destruct (cells _ tag None l s1).
Qed.

Lemma one_good n : (∀ id, MFootnoteReference id ∈ nodes n → upper id ∈ R) →
  keeps n ∧ Forall keeps (childrenOf n).
Proof.
  induction n as [n IH] using mdast_ind'. intros HR.
  assert (Forall (λ x, keeps x ∧ Forall keeps (childrenOf x)) (childrenOf n)) as Hch.
  { apply Forall_forall. intros x Hx. rewrite Forall_forall in IH. apply IH; [done|].
    intros id Hid. apply HR. by eapply nodes_child. }
  assert (Forall keeps (childrenOf n)) as Hk by (eapply Forall_impl; [exact Hch|]; by intros ? []).
  assert (Forall (λ x, Forall keeps (childrenOf x)) (childrenOf n)) as Hkk
    by (eapply Forall_impl; [exact Hch|]; by intros ? []).
  split; [|done]. intros parent s Hs.
  pose proof (allFrom_good (childrenOf n) n 0 None s Hk Hs) as Ha.
  destruct n; simpl in *; try done; unfold all;
    try (by destruct (allFrom _ _ _ _ _ _)).
  - pose proof (cells_good (match parent with Some (_, O) => "th" | _ => "td" end) l
      (match parent with Some (MTable a _, _) => Some a | _ => None end) s Hkk Hs) as Hc.
    by destruct (cells _ _ _ _ _).
  - apply footnoteRef_good; [|done]. apply HR. left.
Qed.

End footnotes.

Section items.
Context (upper lower : jstr → jstr) (opts : Options) (tree : mdast).

Lemma referred_elem id : MFootnoteReference id ∈ nodes tree → upper id ∈ referred upper tree.
Proof. intros H. apply list_elem_of_omap. by exists (MFootnoteReference id). Qed.

Lemma footnoteById_node k id l : footnoteById upper tree k = Some (id, l) →
  MFootnoteDefinition id l ∈ nodes tree.
Proof.
  unfold footnoteById. intros H%head_Some_elem_of. apply list_elem_of_omap in H as (n & Hn & E).
  destruct n; try done. case_bool_decide; [|done]. by simplify_eq.
Qed.

Lemma good_length R s : good R s → (length (footnoteOrder s) <= length R)%nat.
Proof.
  intros (Hn & _ & HR). apply submseteq_length, NoDup_submseteq; [done|]. exact HR.
Qed.

Lemma footnoteItems_total fuel c s : good (referred upper tree) s →
  (length (referred upper tree) <= fuel + c)%nat →
  is_Some (footnoteItems upper lower fuel opts tree c s).
Proof.
  revert c s. induction fuel as [|fuel IH]; intros c s Hs Hf; cbn [footnoteItems];
    destruct (footnoteOrder s !! c) as [k|] eqn:Ek; eauto.
  { apply lookup_lt_Some in Ek. pose proof (good_length _ _ Hs). lia. }
  destruct (footnoteById upper tree k) as [[id l]|] eqn:Ef; [|apply IH; [done|lia]].
  assert (good (referred upper tree)
    (fst (all (one upper lower opts (definitionById upper tree)) (MFootnoteDefinition id l) l s))) as Hg.
  { apply allFrom_good; [|done]. apply footnoteById_node in Ef.
    destruct (one_good upper lower opts (definitionById upper tree) (referred upper tree)
      (MFootnoteDefinition id l)) as [_ Hk]; [|exact Hk].
    intros id' Hid. apply referred_elem. by eapply nodes_trans. }
  destruct (all _ _ l s) as [s1 a]. simpl in Hg.
  destruct (IH (S c) s1 Hg ltac:(lia)) as [[s2 r] ->]. eauto.
Qed.

Lemma toHast_total : is_Some (toHast upper lower opts tree).
Proof.
  unfold toHast.
  assert (good (referred upper tree)
    (fst (one upper lower opts (definitionById upper tree) None tree start))) as Hg.
  { apply one_good; [|split_and!; [constructor| |]].
    - apply referred_elem.
    - intros k. simpl. split; [by intros ?%not_elem_of_nil|by intros []].
    - intros k ?%not_elem_of_nil. done. }
  destruct (one _ _ _ _ None tree start) as [s r]. simpl in Hg.
  destruct (footnoteItems_total (length (referred upper tree)) 0 s Hg ltac:(lia)) as [[s2 items] ->].
  destruct items; eauto.
Qed.

End items.

(** ** Properties *)

(** C31: rendering the Markdown of a DAG's author always ends, and what is put on
    the page holds no raw HTML and no address with a protocol outside the six that
    are let through, whatever the document says. *)
Theorem rendered_markdown_is_safe upper lower tree :
  ∃ page, renderMarkdown upper lower tree = Some page ∧
    ∀ h, h ∈ concat (map elements page) → safeElement h.
Proof.
  unfold renderMarkdown.
  destruct (toHast_total upper lower {| allowDangerousHtml := true; clobberPrefix := runes "user-content-" |} tree)
    as [h ->].
  exists (clean true h). split; [done|]. apply Forall_forall, clean_safe.
Qed.

(** an address that names no protocol or one of the six is kept as it is. *)
Theorem safe_urls_kept e : safeUrl e → urlTransform e = e.
Proof.
  intros He. unfold urlTransform. destruct (indexOf 58 e) as [t|] eqn:Et; [|done].
  assert (∃ a b, e = a ++ 58 :: b ∧ 58 ∉ a ∧ t = length a) as (a & b & -> & Ha & ->).
  { clear He. revert t Et. induction e as [|x e IH]; intros t; simpl; [done|].
    destruct (Z.eqb_spec x 58) as [->|Hx].
    - intros [= <-]. exists [], e. split_and!; [done|apply not_elem_of_nil|done].
    - destruct (indexOf 58 e) as [j|]; [|done]. intros [= <-].
      destruct (IH j eq_refl) as (a & b & -> & Ha & ->). exists (x :: a), b.
      rewrite not_elem_of_cons. by split_and!. }
  assert (∀ c, c ∈ a → before (length a) (indexOf c (a ++ 58 :: b)) = true) as Hbefore.
  { intros c Hc. clear -Hc. induction a as [|x a IH]; [by apply not_elem_of_nil in Hc|]. simpl.
    destruct (Z.eqb_spec x c) as [->|Hx]; [done|].
    apply elem_of_cons in Hc as [->|Hc]; [done|]. specialize (IH Hc). unfold before in *.
    by destruct (indexOf c (a ++ 58 :: b)). }
  destruct (decide (47 ∈ a)) as [H|H1]; [by rewrite Hbefore|].
  destruct (decide (63 ∈ a)) as [H|H2]; [by rewrite (Hbefore 63), orb_true_r|].
  destruct (decide (35 ∈ a)) as [H|H3]; [by rewrite (Hbefore 35), orb_true_r|].
  rewrite take_app_length, bool_decide_eq_true_2, orb_true_r; [done|]. apply (He a b eq_refl).
  apply Forall_forall. intros c Hc. rewrite !not_elem_of_cons. split_and!; try congruence.
  apply not_elem_of_nil.
Qed.

Lemma safe_urls_kept_witness : urlTransform (runes "HTTPS://airflow.apache.org/docs") = runes "HTTPS://airflow.apache.org/docs".
Proof.
  apply (safe_urls_kept (runes "HTTPS://airflow.apache.org/docs")). intros scheme rest E Hs.
  destruct scheme as [|a [|b [|c [|d [|e [|f r]]]]]]; try discriminate E.
  - injection E as <- <- <- <- <- <-. apply (bool_decide_unpack _). vm_compute. reflexivity.
  - exfalso. injection E as <- <- <- <- <- E1 E2. subst f. rewrite !Forall_cons in Hs.
    destruct Hs as (_ & _ & _ & _ & _ & Hs & _). apply Hs. apply (bool_decide_unpack _). vm_compute. reflexivity.
Defined.

(** A script address and raw HTML in a document leave no trace. *)
Example script_removed :
  renderMarkdown (λ s, s) (λ s, s)
    (MRoot [MParagraph [MLink (runes "javascript:alert(1)") None [MText (runes "docs")]; MHtml (runes "<script>")]]) =
  Some [HRoot [el "p" [] [el "a" [(runes "href", PStr [])] [HText (runes "docs")]]]].
Proof. vm_compute. reflexivity. Qed.

(** Two references to one footnote: both carry its number, and it links back to
    each. *)
Example footnotes_listed :
  (λ l, omap (λ h, match h with HText v => if bool_decide (v = [NL]) then None else Some v | _ => None end)
          (concat (map elements l))) <$>
  renderMarkdown (λ s, s) (λ s, s)
    (MRoot [MParagraph [MFootnoteReference (runes "A"); MFootnoteReference (runes "A")];
            MFootnoteDefinition (runes "A") [MParagraph [MText (runes "note")]]]) =
  Some [runes "1"; runes "1"; runes "Footnotes"; runes "note "; [8617]; runes " "; [8617]; runes "2"].
Proof. vm_compute. reflexivity. Qed.
