(* ===== verification/MdPrint.v ===== *)
(** * Writing Markdown

    The handlers with which the bundled Markdown library writes a document: tables
    ([twt] and the handlers of [Hwt]), line breaks ([owt]), code ([DQ]), definitions
    ([uwt]) and headings ([hwt]).  The handlers are called with the state of the
    writer, whose code is not part of the bundle: its functions [safe],
    [containerPhrasing], [indentLines] and [associationId] are parameters. *)

From Stdlib Require Import ZArith Lia.
From stdpp Require Import base numbers strings pretty option list list_numbers sets.
From S2P Require Import Prelude Js MdHast.

Open Scope Z_scope.

(** ** Tables *)

Module Table.

(** Options that are not [false] are on. *)
Record Options := {
  align : list (option jstr) + jstr;
  alignDelimiters : bool; padding : bool; delimiterStart : bool; delimiterEnd : bool;
}.

Inductive alignment := ANone | ALeft | ARight | ACenter.

(** [EQ] *)
Definition toAlignment (e : option jstr) : alignment :=
  match e with
  | Some (c :: _) =>
    if (c =? 67) || (c =? 99) then ACenter else if (c =? 76) || (c =? 108) then ALeft
    else if (c =? 82) || (c =? 114) then ARight else ANone
  | _ => ANone
  end.

(** The alignment of column [d]. *)
Definition alignOf (o : Options) (d : nat) : alignment :=
  match align o with
  | inl l => toAlignment (default None (l !! d))
  | inr s => toAlignment (Some s)
  end.

(** [l]: the number of columns. *)
Definition columns (e : list (list jstr)) : nat := foldl (λ l r, Nat.max l (length r)) 0%nat e.

(** [c[d]] after the rows were read, with [stringLength] the number of code units. *)
Definition width (e : list (list jstr)) (d : nat) : nat :=
  foldl (λ c r, match r !! d with Some x => Nat.max c (length x) | None => c end) 0%nat e.

Definition marks (a : alignment) : jstr * jstr :=
  match a with
  | ACenter => (runes ":", runes ":")
  | ALeft => (runes ":", [])
  | ARight => ([], runes ":")
  | ANone => ([], [])
  end.

(** The number of dashes of column [d]. *)
Definition dashes (o : Options) (e : list (list jstr)) (d : nat) : nat :=
  let '(t, r) := marks (alignOf o d) in
  if alignDelimiters o then Nat.max 1 (width e d - length t - length r) else 1%nat.

Definition delimiter (o : Options) (e : list (list jstr)) (d : nat) : jstr :=
  let '(t, r) := marks (alignOf o d) in t ++ replicate (dashes o e d) 45 ++ r.

(** [c[d]] after the delimiter row. *)
Definition fullWidth (o : Options) (e : list (list jstr)) (d : nat) : nat :=
  Nat.max (width e d) (length (delimiter o e d)).

(** [o.splice(1, 0, f)] *)
Definition withDelimiters (o : Options) (e : list (list jstr)) : list (list jstr) :=
  let f := map (delimiter o e) (seq 0 (columns e)) in
  match e with
  | [] => [f]
  | h :: r => h :: f :: r
  end.

Definition spaces (n : nat) : jstr := replicate n 32.

(** The blanks before and after a cell that is [e] short of the column. *)
Definition pads (a : alignment) (e : nat) : jstr * jstr :=
  match a with
  | ARight => (spaces e, [])
  | ACenter => if Nat.odd e then (spaces (e / 2 + 1), spaces (e / 2)) else (spaces (e / 2), spaces (e / 2))
  | _ => ([], spaces e)
  end.

(** What is pushed for column [d] of a row of [l] columns. *)
Definition cell (o : Options) (e : list (list jstr)) (l : nat) (row : list jstr) (d : nat) : jstr :=
  let i := default [] (row !! d) in
  let '(p, s) := if alignDelimiters o then pads (alignOf o d) (fullWidth o e d - length i) else ([], []) in
  (if delimiterStart o && bool_decide (d = 0%nat) then runes "|" else [])
  ++ (if padding o && negb (negb (alignDelimiters o) && bool_decide (i = []))
         && (delimiterStart o || bool_decide (0 < d)%nat) then [32] else [])
  ++ p ++ i ++ s
  ++ (if padding o then [32] else [])
  ++ (if delimiterEnd o || negb (bool_decide (S d = l)) then runes "|" else []).

Fixpoint dropSpaces (s : jstr) : jstr :=
  match s with c :: r => if c =? 32 then dropSpaces r else s | [] => [] end.

(** [s.replace(/ +$/, "")] *)
Definition trimSpacesEnd (s : jstr) : jstr := reverse (dropSpaces (reverse s)).

Definition rowText (o : Options) (e : list (list jstr)) (row : list jstr) : jstr :=
  let l := columns e in
  let t := concat (map (cell o e l row) (seq 0 l)) in
  if delimiterEnd o then t else trimSpacesEnd t.

(** [twt(e, t)] *)
Definition markdownTable (o : Options) (e : list (list jstr)) : jstr :=
  join [NL] (map (rowText o e) (withDelimiters o e)).

(** [s] of [Hwt]: a row alone is the first line of a table of that row. *)
Definition tableRow (o : Options) (row : list jstr) : jstr := firstLine (markdownTable o [row]).

(** *** Lemmas *)

Lemma columns_ge e r : r ∈ e → (length r <= columns e)%nat.
Proof.
  unfold columns. assert (∀ (l : list (list jstr)) a, (a <= foldl (λ l r, Nat.max l (length r)) a l)%nat) as Hmono.
  { induction l as [|x l IH]; intros a; simpl; [lia|]. specialize (IH (Nat.max a (length x))). lia. }
  generalize 0%nat. induction e as [|x e IH]; intros a Hr; [by apply not_elem_of_nil in Hr|].
  simpl. apply elem_of_cons in Hr as [->|Hr]; [|by apply IH]. specialize (Hmono e (Nat.max a (length x))). lia.
Qed.

Lemma width_ge e r d x : r ∈ e → r !! d = Some x → (length x <= width e d)%nat.
Proof.
  unfold width. set (f := λ c (r : list jstr), match r !! d with Some x => Nat.max c (length x) | None => c end).
  assert (∀ l a, (a <= foldl f a l)%nat) as Hmono.
  { induction l as [|y l IH]; intros a; simpl; [lia|]. specialize (IH (f a y)). unfold f in *.
    destruct (y !! d); lia. }
  generalize 0%nat. induction e as [|y e IH]; intros a Hr Hx; [by apply not_elem_of_nil in Hr|].
  simpl. apply elem_of_cons in Hr as [->|Hr]; [|by apply IH]. specialize (Hmono e (f a y)).
  unfold f in Hmono at 1. rewrite Hx in Hmono. lia.
Qed.

(** The blanks fill a cell up to its column. *)
Lemma pads_length a n : (length (fst (pads a n)) + length (snd (pads a n)) = n)%nat.
Proof.
  unfold pads, spaces. destruct a; cbn [fst snd length]; rewrite ?length_replicate; try lia.
  destruct (Nat.odd n) eqn:E; cbn [fst snd]; rewrite !length_replicate.
  - apply Nat.odd_spec in E as [m ->].
    rewrite <- (Nat.div_unique (2 * m + 1) 2 m 1) by lia. lia.
  - rewrite <- Nat.negb_even in E. apply negb_false_iff, Nat.even_spec in E as [m ->].
    rewrite <- (Nat.div_unique (2 * m) 2 m 0) by lia. lia.
Qed.

Definition plain (a : list (option jstr) + jstr) : Options :=
  {| align := a; alignDelimiters := true; padding := true; delimiterStart := true; delimiterEnd := true |}.

(** A cell with its blanks and bars. *)
Lemma cell_length a e l row d : (length (default [] (row !! d)) <= fullWidth (plain a) e d)%nat →
  length (cell (plain a) e l row d) =
  (fullWidth (plain a) e d + 3 + (if bool_decide (d = 0%nat) then 1 else 0))%nat.
Proof.
  intros H. unfold cell. simpl.
  pose proof (pads_length (alignOf (plain a) d) (fullWidth (plain a) e d - length (default [] (row !! d)))) as Hp.
  destruct (pads _ _) as [p s]. simpl in Hp. rewrite !length_app. simpl.
  case_bool_decide; simpl; rewrite ?length_app; simpl; lia.
Qed.

(** The place of the bar before column [d]. *)
Definition barAt (a : list (option jstr) + jstr) (e : list (list jstr)) (d : nat) : nat :=
  sum_list_with (λ i, fullWidth (plain a) e i + 3)%nat (seq 0 d).

(** The first [d] cells of a row end with the bar before column [d]. *)
Lemma cells_bar a e l row : (∀ d x, row !! d = Some x → (length x <= fullWidth (plain a) e d)%nat) →
  ∀ d, let t := concat (map (cell (plain a) e l row) (seq 0 (S d))) in
  head t = Some 124 ∧ ∃ u, t = u ++ [124] ∧ length u = barAt a e (S d).
Proof.
  intros H. assert (∀ d, (length (default [] (row !! d)) <= fullWidth (plain a) e d)%nat) as Hd.
  { intros d. destruct (row !! d) eqn:E; simpl; [by apply H|lia]. }
  assert (∀ d, ∃ u, cell (plain a) e l row d = u ++ [124]) as Hbar.
  { intros d. unfold cell. cbn [alignDelimiters padding delimiterStart delimiterEnd plain].
    destruct (pads _ _) as [p q]. cbn [orb]. change (runes "|") with [124].
    rewrite !app_assoc. by eexists. }
  induction d as [|d IH].
  - rewrite seq_S. simpl. rewrite app_nil_r. destruct (Hbar 0%nat) as [u Hu]. split.
    + unfold cell. simpl. by destruct (pads _ _).
    + exists u. split; [done|]. pose proof (cell_length a e l row 0 (Hd 0%nat)) as Hl.
      rewrite Hu, length_app in Hl. simpl in Hl. unfold barAt. simpl. lia.
  - destruct IH as (Hh & u & Hu & Hlen). rewrite seq_S, map_app, concat_app. cbn [map concat Nat.add].
    rewrite app_nil_r. split.
    + destruct (concat _); [done|]. by simplify_eq/=.
    + destruct (Hbar (S d)) as [v Hv]. exists (u ++ [124] ++ v). split.
      * by rewrite Hu, Hv, <- !app_assoc.
      * pose proof (cell_length a e l row (S d) (Hd (S d))) as Hl. rewrite Hv, length_app in Hl. simpl in Hl.
        unfold barAt. rewrite seq_S, sum_list_with_app.
        rewrite !length_app. unfold barAt in Hlen. rewrite Hlen. simpl. lia.
Qed.

Lemma delimiter_row a e d x :
  map (delimiter (plain a) e) (seq 0 (columns e)) !! d = Some x → (length x <= fullWidth (plain a) e d)%nat.
Proof.
  intros H. apply list_lookup_fmap_Some in H as (d' & -> & Hd).
  apply lookup_seq in Hd as [-> _]. unfold fullWidth. simpl. lia.
Qed.


Lemma cell_elem o e l row d c : c ∈ cell o e l row d → c ∈ default [] (row !! d) ∨ c = 32 ∨ c = 124.
Proof.
  assert (∀ a n, c ∈ fst (pads a n) ∨ c ∈ snd (pads a n) → c = 32) as Hp.
  { intros a n. unfold pads, spaces. destruct a, (Nat.odd n); cbn [fst snd];
      rewrite ?elem_of_replicate, ?elem_of_nil; naive_solver. }
  unfold cell. specialize (Hp (alignOf o d) (fullWidth o e d - length (default [] (row !! d)))%nat).
  destruct (alignDelimiters o).
  - destruct (pads _ _) as [p q]. cbn [fst snd] in Hp. change (runes "|") with [124].
    rewrite !elem_of_app. repeat case_match; rewrite ?elem_of_nil, ?list_elem_of_singleton; naive_solver.
  - change (runes "|") with [124]. rewrite !elem_of_app. repeat case_match;
      rewrite ?elem_of_nil, ?list_elem_of_singleton; naive_solver.
Qed.

Lemma row_no_break a e row : Forall (λ x, NL ∉ x) row → NL ∉ rowText (plain a) e row.
Proof.
  intros H Hc. unfold rowText in Hc. simpl in Hc.
  apply list_elem_of_In, in_concat in Hc as (x & (d & <- & _)%in_map_iff & Hx%list_elem_of_In).
  apply cell_elem in Hx as [Hx|[Hx|Hx]]; [|done..].
  destruct (row !! d) as [y|] eqn:E; simpl in Hx; [|by apply elem_of_nil in Hx].
  rewrite Forall_lookup in H. by eapply H.
Qed.

Lemma delimiter_no_break o e : Forall (λ x, NL ∉ x) (map (delimiter o e) (seq 0 (columns e))).
Proof.
  apply Forall_forall. intros x (d & -> & _)%list_elem_of_fmap Hc. unfold delimiter in Hc.
  destruct (alignOf o d); cbn in Hc; repeat (apply elem_of_cons in Hc as [?|Hc] || apply elem_of_app in Hc as [Hc|Hc]
    || (apply elem_of_replicate in Hc as [? _]; done) || (apply elem_of_nil in Hc; done)); done.
Qed.

(** A table is written as one line per row and the delimiter line; whatever the
    alignments, all lines have the same length and the bars of every line stand at
    the same places, one before each column and one at the end. *)
Theorem table_lines_aligned (a : list (option jstr) + jstr) (e : list (list jstr))
    (Hcol : columns e ≠ 0%nat) (Hcell : Forall (Forall (λ x, NL ∉ x)) e) :
  length (split NL (markdownTable (plain a) e)) = S (length e) ∧
  Forall (λ t, length t = S (barAt a e (columns e)) ∧
    ∀ d, (d <= columns e)%nat → t !! barAt a e d = Some 124)
    (split NL (markdownTable (plain a) e)).
Proof.
  assert (split NL (markdownTable (plain a) e) = map (rowText (plain a) e) (withDelimiters (plain a) e)) as ->.
  { unfold markdownTable. apply split_join; [by destruct e|]. rewrite Forall_fmap. apply Forall_forall.
    intros r Hr. apply row_no_break. destruct e as [|h r']; [done|]. simpl in Hr.
    apply Forall_cons in Hcell as [? ?].
    apply elem_of_cons in Hr as [->|[->|Hr]%elem_of_cons]; [done|apply (delimiter_no_break _ (h :: r'))|].
    rewrite Forall_forall in H0. by apply H0. }
  split; [rewrite length_map; by destruct e|]. apply Forall_fmap, Forall_forall. intros r Hr.
  assert (∀ d x, r !! d = Some x → (length x <= fullWidth (plain a) e d)%nat) as Hfit.
  { intros d x Hx. destruct e as [|h r']; [done|]. simpl in Hr.
    apply elem_of_cons in Hr as [->|[->|Hr]%elem_of_cons]; [|by eapply delimiter_row|];
      (etrans; [eapply (width_ge (h :: r')); [|done]; set_solver|unfold fullWidth; lia]). }
  pose proof (cells_bar a e (columns e) r Hfit) as Hb. unfold compose, rowText. cbn [delimiterEnd plain].
  destruct (columns e) as [|n] eqn:En; [done|]. split.
  - destruct (Hb n) as (_ & u & -> & Hu). rewrite length_app, Hu. simpl. lia.
  - intros d Hd. destruct d as [|d].
    + destruct (Hb n) as (Hh & _). change (barAt a e 0) with 0%nat. destruct (concat _); [done|by simplify_eq/=].
    + destruct (Hb d) as (_ & u & Hu & Hlen).
      replace (S n) with (S d + (n - d))%nat by lia. rewrite seq_app, map_app, concat_app.
      replace (S d + (n - d))%nat with (S n) by lia. rewrite Hu, <- !app_assoc, <- Hlen. by apply list_lookup_middle.
Qed.

Lemma table_lines_aligned_witness :
  let e := [[runes "a"; runes "longer"]; [runes "bcd"]] in
  markdownTable (plain (inr (runes "c"))) e =
    runes "|  a  | longer |" ++ NL :: runes "| :-: | :----: |" ++ NL :: runes "| bcd |        |" ∧
  length (split NL (markdownTable (plain (inr (runes "c"))) e)) = 3%nat.
Proof.
  split; [by vm_compute|]. apply table_lines_aligned; [done|].
  repeat constructor; vm_compute; set_solver.
Defined.

End Table.

(** ** Line breaks *)

Module Break.

(** A pattern of characters that are not safe in some constructs. *)
Record Unsafe := {
  character : jstr;
  inConstruct : option (list jstr);
  notInConstruct : option (list jstr);
}.

(** [awt] *)
Definition listInScope (stack : list jstr) (l : option (list jstr)) (none : bool) : bool :=
  match l with
  | None | Some [] => none
  | Some l => existsb (λ t, bool_decide (t ∈ stack)) l
  end.

(** [iwt] *)
Definition patternInScope (stack : list jstr) (p : Unsafe) : bool :=
  listInScope stack (inConstruct p) true && negb (listInScope stack (notInConstruct p) false).

(** [owt]: [before] is what is written before the break. *)
Definition hardBreak (unsafe : list Unsafe) (stack : list jstr) (before : jstr) : jstr :=
  if existsb (λ p, bool_decide (character p = [NL]) && patternInScope stack p) unsafe
  then (if existsb (λ c, (c =? 32) || (c =? 9)) before then [] else [32])
  else [92; NL].

(** A hard break is written as a backslash and a line break exactly where no
    unsafe pattern forbids line breaks, and never puts a line break elsewhere. *)
Theorem hard_break_exact (unsafe : list Unsafe) (stack : list jstr) (before : jstr) :
  NL ∈ hardBreak unsafe stack before ↔
  ∀ p, p ∈ unsafe → character p = [NL] →
    (∃ c, inConstruct p = Some c ∧ c ≠ [] ∧ ∀ x, x ∈ c → x ∉ stack) ∨
    (∃ c x, notInConstruct p = Some c ∧ x ∈ c ∧ x ∈ stack).
Proof.
  assert (∀ l, existsb (λ t, bool_decide (t ∈ stack)) l = true ↔ ∃ x, x ∈ l ∧ x ∈ stack) as Hex.
  { intros l. rewrite existsb_exists. f_equiv. intros x. by rewrite bool_decide_eq_true, <- list_elem_of_In. }
  assert (∀ p, patternInScope stack p = false ↔
    (∃ c, inConstruct p = Some c ∧ c ≠ [] ∧ ∀ x, x ∈ c → x ∉ stack) ∨
    (∃ c x, notInConstruct p = Some c ∧ x ∈ c ∧ x ∈ stack)) as Hp.
  { intros p. unfold patternInScope. rewrite andb_false_iff, negb_false_iff. unfold listInScope. f_equiv.
    - destruct (inConstruct p) as [[|y l]|]; [naive_solver| |naive_solver].
      rewrite <- not_true_iff_false, (Hex (y :: l)). naive_solver.
    - destruct (notInConstruct p) as [[|y l]|]; [| |naive_solver].
      + split; [done|]. intros (c & x & [= <-] & Hx & _). by apply elem_of_nil in Hx.
      + rewrite (Hex (y :: l)). naive_solver. }
  unfold hardBreak. destruct (existsb _ unsafe) eqn:E.
  - apply existsb_exists in E as (p & Hin%list_elem_of_In & [Hc%bool_decide_eq_true Hs]%andb_prop).
    split.
    + destruct (existsb _ before); set_solver.
    + intros H. specialize (H p Hin Hc). apply Hp in H. congruence.
  - split; [|set_solver]. intros _ p Hin Hc. apply Hp.
    destruct (patternInScope stack p) eqn:Es; [|done].
    rewrite <- E. symmetry. apply existsb_exists. exists p. rewrite <- list_elem_of_In. split; [done|].
    by rewrite Es, bool_decide_eq_true_2.
Qed.

End Break.

(** ** Code *)

Module Code.

(** The turns of the loop of [swt] for a one-unit marker [c]: [a] is the current
    run, [o] the longest one; [next] says that the marker was at the expected
    place. *)
Fixpoint streakLoop (c : Z) (s : jstr) (next : bool) (a o : nat) : nat :=
  match s with
  | [] => o
  | x :: r =>
    if x =? c
    then (if next then streakLoop c r true (S a) (Nat.max o (S a)) else streakLoop c r true 1 o)
    else streakLoop c r false a o
  end.

Fixpoint fromFirst (c : Z) (s : jstr) : jstr :=
  match s with [] => [] | x :: r => if x =? c then s else fromFirst c r end.

(** [swt(e, t)]: the first marker is at the expected place. *)
Definition longestStreak (s : jstr) (c : Z) : nat := streakLoop c (fromFirst c s) true 0 0.

Definition blank (c : Z) : bool := (c =? 9) || (c =? 32).
Definition lineEnd (c : Z) : bool := (c =? 13) || (c =? 10).

(** [/^[\t ]*(?:[\r\n]|$)/] *)
Fixpoint startsBlankLine (s : jstr) : bool :=
  match s with [] => true | c :: r => if blank c then startsBlankLine r else lineEnd c end.

(** [/(?:^|[\r\n])[\t ]*$/] *)
Definition endsBlankLine (s : jstr) : bool := startsBlankLine (reverse s).

Record Options := { fences : bool; fence : option jstr }.
Record node := { value : jstr; lang : jstr; meta : jstr }.

Definition nonempty (s : jstr) : bool := negb (bool_decide (s = [])).

(** [cwt] *)
Definition formatCodeAsIndented (e : node) (o : Options) : bool :=
  negb (fences o) && nonempty (value e) && negb (nonempty (lang e))
  && existsb (λ c, negb (bool_decide (c ∈ [32; 13; 10]))) (value e)
  && negb (startsBlankLine (value e) || endsBlankLine (value e)).

(** [lwt] *)
Definition checkFence (o : Options) : jstr + Z :=
  let t := match fence o with Some (c :: r) => c :: r | _ => runes "`" end in
  match t with
  | [c] => if (c =? 96) || (c =? 126) then inr c
           else inl (runes "Cannot serialize code with `" ++ t ++ runes "` for `options.fence`, expected `` ` `` or `~`")
  | _ => inl (runes "Cannot serialize code with `" ++ t ++ runes "` for `options.fence`, expected `` ` `` or `~`")
  end.

Section code.
(** [safe value before after] and [indentLines value f] of the writer. *)
Context (safe : jstr → jstr → jstr → jstr) (indentLines : jstr → (jstr → bool → jstr) → jstr).

(** [OQ] *)
Definition indentCode (line : jstr) (blankLine : bool) : jstr :=
  (if blankLine then [] else runes "    ") ++ line.

(** The line after the opening fence: language and meta. *)
Definition info (e : node) (c : jstr) : jstr :=
  let u1 := if nonempty (lang e) then c ++ safe (lang e) c (runes " ") else c in
  if nonempty (lang e) && nonempty (meta e)
  then (let u2 := u1 ++ runes " " in u2 ++ safe (meta e) u2 [NL]) else u1.

(** [DQ] *)
Definition code (e : node) (o : Options) : jstr + jstr :=
  match checkFence o with
  | inl err => inl err
  | inr i =>
    if formatCodeAsIndented e o then inr (indentLines (value e) indentCode)
    else
      let c := replicate (Nat.max (longestStreak (value e) i + 1) 3) i in
      inr (info e c ++ [NL] ++ (if nonempty (value e) then value e ++ [NL] else []) ++ c)
  end.

Lemma streakLoop_ge c s next a o : (o <= streakLoop c s next a o)%nat.
Proof.
  revert next a o. induction s as [|x r IH]; intros next a o; simpl; [done|].
  destruct (x =? c); [destruct next|]; [|apply IH..]. specialize (IH true (S a) (Nat.max o (S a))). lia.
Qed.

(** A run of markers at the front is counted. *)
Lemma streakLoop_run c n r : ∀ a o, (a <= o)%nat →
  (n + a <= streakLoop c (replicate n c ++ r) true a o)%nat.
Proof.
  induction n as [|n IH]; intros a o H; simpl; [pose proof (streakLoop_ge c r true a o); lia|].
  rewrite Z.eqb_refl. specialize (IH (S a) (Nat.max o (S a))). lia.
Qed.

(** Every run is counted, once a marker was seen. *)
Lemma streakLoop_max c l n r : ∀ next a o, (1 <= o)%nat → (a <= o)%nat →
  (n <= streakLoop c (l ++ replicate n c ++ r) next a o)%nat.
Proof.
  induction l as [|x l IH]; intros next a o Ho Ha; simpl.
  - destruct next; [pose proof (streakLoop_run c n r a o Ha); lia|].
    destruct n as [|n]; [lia|]. simpl. rewrite Z.eqb_refl.
    pose proof (streakLoop_run c n r 1 o Ho). lia.
  - destruct (x =? c); [destruct next|]; apply IH; lia.
Qed.

Lemma fromFirst_app c l n r : (0 < n)%nat → ∃ l', fromFirst c (l ++ replicate n c ++ r) = l' ++ replicate n c ++ r
  ∧ (l' = [] ∨ head l' = Some c).
Proof.
  intros Hn. induction l as [|x l IH]; simpl.
  - destruct n as [|n]; [lia|]. exists []. simpl. rewrite Z.eqb_refl. auto.
  - destruct (x =? c) eqn:E; [|done]. apply Z.eqb_eq in E as ->. exists (c :: l). auto.
Qed.

(** No run is longer than the longest streak. *)
Lemma longestStreak_max c s n l r : s = l ++ replicate n c ++ r → (n <= longestStreak s c)%nat.
Proof.
  intros ->. destruct n as [|n]; [lia|]. unfold longestStreak.
  destruct (fromFirst_app c l (S n) r) as (l' & -> & Hl); [lia|]. destruct Hl as [->|Hl].
  - pose proof (streakLoop_run c (S n) r 0 0 (le_n 0)). cbn [app]. lia.
  - destruct l' as [|x l']; [done|]. simplify_eq/=. rewrite Z.eqb_refl. simpl.
    apply (streakLoop_max c l' (S n) r); lia.
Qed.

(** Fenced code can be read back: the fence has at least three markers and does
    not occur in the value, and when what the writer makes of the language and
    the meta text stays on one line, the lines are the fence with this text, the
    lines of the value and the fence; only the last line closes the code. *)
Theorem fenced_code_closes (e : node) (o : Options) (i : Z) (t : jstr)
    (Hline : ∀ v b a, NL ∉ safe v b a) (Hi : checkFence o = inr i)
    (Ht : code e o = inr t) (Hf : formatCodeAsIndented e o = false) :
  ∃ n x, (3 <= n)%nat ∧ let c := replicate n i in
    split NL t = (c ++ x) :: (if nonempty (value e) then split NL (value e) else []) ++ [c] ∧
    ∀ l, l ∈ split NL (value e) → includes c l = false.
Proof.
  unfold code in Ht. rewrite Hi, Hf in Ht. injection Ht as <-.
  set (n := Nat.max (longestStreak (value e) i + 1) 3). set (c := replicate n i).
  assert (i ≠ NL) as Hi'.
  { unfold checkFence in Hi. repeat case_match; simplify_eq; try done;
      apply orb_prop in H1 as [H1|H1]; apply Z.eqb_eq in H1; subst; done. }
  assert (NL ∉ c) as Hc by (intros [? _]%elem_of_replicate; done).
  assert (∃ x, info e c = c ++ x ∧ NL ∉ x) as (x & Hx & Hnx).
  { unfold info. destruct (nonempty (lang e)); simpl; [|exists []; rewrite app_nil_r; set_solver].
    destruct (nonempty (meta e)); simpl.
    - eexists. rewrite <- !app_assoc. split; [done|]. rewrite !elem_of_app.
      intros [?|[?|?]]; [by eapply Hline|set_solver|by eapply Hline].
    - eexists. split; [done|]. apply Hline. }
  exists n, x. split; [lia|]. cbv zeta. fold c. split.
  - rewrite Hx. destruct (nonempty (value e)) eqn:Ev.
    + rewrite <- (join_split NL (value e)) at 1.
      transitivity (split NL (join [NL] ((c ++ x) :: split NL (value e) ++ [c]))).
      * rewrite join_cons, join_snoc by (by destruct (split NL (value e)) eqn:?; [apply split_nonempty in Heql|]).
        by rewrite <- !app_assoc.
      * apply split_join; [done|]. apply Forall_cons. split; [set_solver|]. apply Forall_app. split.
        -- apply Forall_forall. intros y. apply split_no_sep.
        -- by repeat constructor.
    + transitivity (split NL (join [NL] [c ++ x; c])); [done|]. apply split_join; [done|].
      apply Forall_cons. split; [set_solver|]. by repeat constructor.
  - intros l Hl. destruct (includes c l) eqn:E; [|done]. apply includes_spec in E as (p & q & ->).
    apply split_part in Hl as (p' & q' & Hv).
    assert (value e = (p' ++ p) ++ c ++ (q ++ q')) as Hv' by (by rewrite Hv, <- !app_assoc).
    apply longestStreak_max in Hv'. lia.
Qed.

End code.

Lemma fenced_code_closes_witness :
  let e := {| value := runes "a````b"; lang := runes "js"; meta := [] |} in
  let o := {| fences := true; fence := None |} in
  let safe := λ (v _ _ : jstr), filter (λ c, c ≠ NL) v in
  code safe (λ v _, v) e o = inr (runes "`````js" ++ [NL] ++ runes "a````b" ++ [NL] ++ runes "`````") ∧
  ∃ n x, (3 <= n)%nat ∧ let c := replicate n 96 in
    split NL (runes "`````js" ++ [NL] ++ runes "a````b" ++ [NL] ++ runes "`````") = (c ++ x) :: split NL (value e) ++ [c] ∧
    ∀ l, l ∈ split NL (value e) → includes c l = false.
Proof.
  intros e o safe. split; [by vm_compute|].
  apply (fenced_code_closes safe (λ v _, v) e o 96); [|by vm_compute..].
  intros v b a. unfold safe. rewrite list_elem_of_filter. by intros [? _].
Defined.

End Code.

(** ** Definitions *)

Module Definition_.

Record node := { url : jstr; title : jstr; identifier : jstr }.

(** [kQ] *)
Definition checkQuote (quote : option jstr) : jstr + Z :=
  let t := match quote with Some (c :: r) => c :: r | _ => [34] end in
  let err := inl (runes "Cannot serialize title with `" ++ t ++ runes "` for `options.quote`, expected `" ++ [34]
                  ++ runes "`, or `'`") in
  match t with
  | [c] => if (c =? 34) || (c =? 39) then inr c else err
  | _ => err
  end.

Section definition.
Context (safe : jstr → jstr → jstr → jstr) (associationId : node → jstr).

(** [/[\0- \u007F]/] *)
Definition literalUrl (u : jstr) : bool :=
  bool_decide (u = []) || existsb (λ c, ((0 <=? c) && (c <=? 32)) || (c =? 127)) u.

(** The address, after [l]. *)
Definition destination (e : node) (l : jstr) : jstr :=
  if literalUrl (url e)
  then (let l1 := l ++ runes "<" in (l1 ++ safe (url e) l1 (runes ">")) ++ runes ">")
  else l ++ safe (url e) l (if bool_decide (title e = []) then [NL] else runes " ").

(** [uwt] *)
Definition definition (e : node) (quote : option jstr) : jstr + jstr :=
  match checkQuote quote with
  | inl err => inl err
  | inr i =>
    let l0 := runes "[" in
    let l1 := l0 ++ safe (associationId e) l0 (runes "]") in
    let l2 := l1 ++ runes "]: " in
    let l3 := destination e l2 in
    inr (if bool_decide (title e = []) then l3
         else let l4 := l3 ++ runes " " ++ [i] in (l4 ++ safe (title e) l4 [i]) ++ [i])
  end.

End definition.

(** Until the first unit of [stop]. *)
Fixpoint until (stop : Z → bool) (s : jstr) : jstr * jstr :=
  match s with
  | [] => ([], [])
  | c :: r => if stop c then ([], s) else let '(a, b) := until stop r in (c :: a, b)
  end.

Definition expect (p s : jstr) : option jstr :=
  if startsWith p s then Some (drop (length p) s) else None.

Definition readDestination (s : jstr) : option (jstr * jstr) :=
  match expect (runes "<") s with
  | Some r => let '(u, q) := until (Z.eqb 62) r in pair u <$> expect (runes ">") q
  | None => Some (until (Z.eqb 32) s)
  end.

Definition readTitle (s : jstr) : option (option jstr) :=
  match s with
  | [] => Some None
  | _ =>
    match expect (runes " ") s with
    | Some (q :: r) =>
      let '(t, rest) := until (Z.eqb q) r in if bool_decide (rest = [q]) then Some (Some t) else None
    | _ => None
    end
  end.

(** The label, address and title of a definition line without escapes. *)
Definition readDefinition (s : jstr) : option (jstr * jstr * option jstr) :=
  r ← expect (runes "[") s;
  let '(label, r) := until (Z.eqb 93) r in
  r ← expect (runes "]: ") r;
  '(u, r) ← readDestination r;
  t ← readTitle r;
  Some (label, u, t).

Lemma until_app stop a b : Forall (λ c, stop c = false) a → (∀ c, head b = Some c → stop c = true) →
  until stop (a ++ b) = (a, b).
Proof.
  intros Ha Hb. induction Ha as [|x a Hx Ha IH]; simpl.
  - destruct b as [|c b]; [done|]. simpl. by rewrite Hb.
  - by rewrite Hx, IH.
Qed.

Lemma expect_app p s : expect p (p ++ s) = Some s.
Proof.
  unfold expect. assert (startsWith p (p ++ s) = true) as -> by (apply startsWith_spec; eauto).
  by rewrite drop_app_length.
Qed.

Lemma not_in_eqb q s : q ∉ s → Forall (λ c, Z.eqb q c = false) s.
Proof. intros H. apply Forall_forall. intros x Hx. apply Z.eqb_neq. by intros ->. Qed.

(** A definition without characters to escape is read back from the line
    written for it: the label, the address (in angle brackets when it is empty or has
    a blank or control character) and the title in either quotes. *)
Theorem definition_roundtrip (e : node) (quote : option jstr) (q : Z)
    (Hq : checkQuote quote = inr q) (Hid : 93 ∉ identifier e)
    (Hurl : (62 ∉ url e) ∧ head (url e) ≠ Some 60) (Htitle : q ∉ title e) :
  ∃ t, definition (λ v _ _, v) identifier e quote = inr t ∧
    readDefinition t = Some (identifier e, url e, if bool_decide (title e = []) then None else Some (title e)).
Proof.
  unfold definition. rewrite Hq. eexists. split; [done|]. destruct Hurl as [H62 H60].
  set (rest := if bool_decide (title e = []) then [] else 32 :: q :: title e ++ [q]).
  transitivity (readDefinition (runes "[" ++ identifier e ++ runes "]: " ++
    (if literalUrl (url e) then runes "<" ++ url e ++ runes ">" ++ rest else url e ++ rest))).
  { f_equal. unfold destination, rest. destruct (literalUrl (url e)); case_bool_decide; by rewrite <- ?app_assoc, ?app_nil_r. }
  unfold readDefinition. rewrite expect_app. cbn [mbind option_bind].
  rewrite until_app; [|by apply not_in_eqb|by intros c [= <-]]. rewrite expect_app. cbn [mbind option_bind].
  assert (readTitle rest = Some (if bool_decide (title e = []) then None else Some (title e))) as Hrest.
  { unfold rest, readTitle. case_bool_decide; [done|].
    change (32 :: q :: title e ++ [q]) with (runes " " ++ q :: title e ++ [q]). rewrite expect_app.
    rewrite until_app; [by rewrite bool_decide_eq_true_2|by apply not_in_eqb|]. intros c [= ->]. apply Z.eqb_refl. }
  enough (readDestination (if literalUrl (url e) then runes "<" ++ url e ++ runes ">" ++ rest else url e ++ rest)
    = Some (url e, rest)) as -> by (cbn [mbind option_bind]; by rewrite Hrest).
  unfold readDestination. destruct (literalUrl (url e)) eqn:El.
  - rewrite expect_app, until_app; [by rewrite expect_app|by apply not_in_eqb|by intros c [= <-]].
  - apply orb_false_iff in El as [Hne El]. assert (until (Z.eqb 32) (url e ++ rest) = (url e, rest)) as ->.
    { apply until_app.
      - apply not_in_eqb. intros Hin. rewrite <- not_true_iff_false in El. apply El, existsb_exists.
        exists 32. by rewrite <- list_elem_of_In.
      - intros c Hc. unfold rest in Hc. case_bool_decide; by simplify_eq/=. }
    unfold expect. destruct (url e) as [|x u]; [done|]. simpl app. cbn [startsWith runes].
    destruct (startsWith (runes "<") (x :: u ++ rest)) eqn:Es; [|done].
    apply startsWith_spec in Es as [y Hy]. by injection Hy as -> _.
Qed.

Lemma definition_roundtrip_witness :
  let e := {| url := runes "a b"; title := runes "t"; identifier := runes "x" |} in
  definition (λ v _ _, v) identifier e None = inr (runes "[x]: <a b> " ++ [34] ++ runes "t" ++ [34]) ∧
  ∃ t, definition (λ v _ _, v) identifier e None = inr t ∧
    readDefinition t = Some (runes "x", runes "a b", Some (runes "t")).
Proof.
  intros e. split; [by vm_compute|].
  apply (definition_roundtrip e None 34); [by vm_compute|vm_compute; set_solver..].
Defined.

End Definition_.

(** ** Headings *)

Module Heading.

(** [lbt] with the default options: the text of a node. *)
Fixpoint textOf (n : mdast) : jstr :=
  match n with
  | MCode _ _ v | MInlineCode v | MText v | MHtml v => v
  | MImage _ (Some alt) _ => alt
  | MImageReference _ _ alt _ => alt
  | MRoot l | MParagraph l | MHeading _ l | MBlockquote l | MList _ _ _ l | MListItem _ _ l
  | MEmphasis l | MStrong l | MDelete l | MLink _ _ l | MLinkReference _ _ _ l | MTable _ l
  | MTableRow l | MTableCell l | MFootnoteDefinition _ l => concat (map textOf l)
  | _ => []
  end.

(** The visit of [mwt] finds a literal with a line break, or a break. *)
Fixpoint hasBreak (n : mdast) : bool :=
  match n with
  | MCode _ _ v | MInlineCode v | MText v | MHtml v => existsb Code.lineEnd v
  | MBreak => true
  | MRoot l | MParagraph l | MHeading _ l | MBlockquote l | MList _ _ _ l | MListItem _ _ l
  | MEmphasis l | MStrong l | MDelete l | MLink _ _ l | MLinkReference _ _ _ l | MTable _ l
  | MTableRow l | MTableCell l | MFootnoteDefinition _ l => existsb hasBreak l
  | _ => false
  end.

Record Options := { setext : bool; closeAtx : bool }.

(** [mwt] *)
Definition formatHeadingAsSetext (depth : nat) (l : list mdast) (o : Options) : bool :=
  (bool_decide (depth < 3)%nat && Code.nonempty (textOf (MHeading depth l)))
  && (setext o || hasBreak (MHeading depth l)).

(** [e.toString(16).toUpperCase()] *)
Fixpoint hexLoop (fuel : nat) (n : Z) (acc : jstr) : jstr :=
  match fuel with
  | O => acc
  | S fuel => let acc := hexUpper (n mod 16) :: acc in if n <? 16 then acc else hexLoop fuel (n / 16) acc
  end.

(** [AQ] on a code unit, which has at most four digits. *)
Definition encodeCharacterReference (c : Z) : jstr := runes "&#x" ++ hexLoop 4 c [] ++ runes ";".

(** [o.lastIndexOf(c) + 1] *)
Fixpoint afterLast (c : Z) (s : jstr) : nat :=
  match s with
  | [] => 0
  | x :: r => match afterLast c r with O => if x =? c then 1 else 0 | S k => S (S k) end
  end.

(** [i] of [hwt] *)
Definition rank (depth : nat) : nat := Nat.max (Nat.min 6 (match depth with O => 1 | S _ => depth end)) 1.

(** A blank at the start of the text is written as a reference. *)
Definition escapeFirst (t : jstr) : jstr :=
  match t with c :: r => if Code.blank c then encodeCharacterReference c ++ r else t | [] => t end.

Definition atx (o : Options) (i : nat) (t : jstr) : jstr :=
  let h := replicate i 35 in
  let t := match escapeFirst t with [] => h | _ :: _ => h ++ runes " " ++ escapeFirst t end in
  if closeAtx o then t ++ runes " " ++ h else t.

(** The line under a heading with the text [t]. *)
Definition underline (i : nat) (t : jstr) : jstr :=
  replicate (length t - Nat.max (afterLast 13 t) (afterLast NL t))%nat (if bool_decide (i = 1%nat) then 61 else 45).

(** [hwt], with [containerPhrasing] given the text before and after the children. *)
Definition heading (phrasing : list mdast → jstr → jstr → jstr) (depth : nat) (l : list mdast) (o : Options) : jstr :=
  if formatHeadingAsSetext depth l o then
    let t := phrasing l [NL] [NL] in t ++ [NL] ++ underline (rank depth) t
  else atx o (rank depth) (phrasing l (runes "# ") [NL]).

(** The number of marks a line starts with. *)
Fixpoint leading (c : Z) (s : jstr) : nat :=
  match s with x :: r => if x =? c then S (leading c r) else 0%nat | [] => 0%nat end.

Lemma leading_run c n s : head s ≠ Some c → leading c (replicate n c ++ s) = n.
Proof.
  intros H. induction n as [|n IH]; simpl; [|by rewrite Z.eqb_refl, IH].
  destruct s as [|x s]; [done|]. simpl. destruct (x =? c) eqn:E; [|done].
  apply Z.eqb_eq in E as ->. done.
Qed.

Lemma afterLast_spec c s : (afterLast c s <= length s)%nat ∧ (c ∉ drop (afterLast c s) s) ∧
  (afterLast c s = 0%nat ∨ ∃ b, take (afterLast c s) s = b ++ [c]).
Proof.
  induction s as [|x s (IH1 & IH2 & IH3)]; simpl; [split; [lia|set_solver]|].
  destruct (afterLast c s) as [|k] eqn:E; simpl.
  - destruct (x =? c) eqn:Ex; simpl.
    + apply Z.eqb_eq in Ex as ->. split; [lia|]. split; [by rewrite drop_0 in *|]. right. by exists [].
    + apply Z.eqb_neq in Ex. split; [lia|]. rewrite drop_0 in IH2. split; [set_solver|auto].
  - split; [lia|]. split; [done|]. right. destruct IH3 as [?|[b Hb]]; [done|]. exists (x :: b). simpl. by rewrite <- Hb.
Qed.

Lemma rank_eq depth : rank depth = Nat.max 1 (Nat.min 6 depth).
Proof. unfold rank. destruct depth; lia. Qed.

Lemma atx_level o n t : (0 < n)%nat → leading 35 (atx o n t) = n ∧ (atx o n t !! n = None ∨ atx o n t !! n = Some 32).
Proof.
  intros Hn. assert (∃ r, atx o n t = replicate n 35 ++ r ∧ (r = [] ∨ head r = Some 32)) as (r & -> & Hr).
  { unfold atx. destruct (escapeFirst t), (closeAtx o); rewrite <- ?app_assoc.
    - exists (runes " " ++ replicate n 35). auto.
    - exists []. rewrite app_nil_r. auto.
    - eexists. split; [done|]. auto.
    - eexists. split; [done|]. auto. }
  rewrite lookup_app_r, length_replicate, Nat.sub_diag by (by rewrite length_replicate).
  destruct Hr as [->|Hr].
  - split; [by apply leading_run|]. auto.
  - destruct r as [|x r]; [done|]. simplify_eq/=. split; [by apply leading_run|]. auto.
Qed.

(** What the underline measures is the last line. *)
Lemma underline_spec i t : ∃ above last : jstr,
  t = above ++ last ∧ (∀ c, c ∈ last → Code.lineEnd c = false) ∧
  (above = [] ∨ ∃ b c, above = b ++ [c] ∧ Code.lineEnd c = true) ∧
  underline i t = replicate (length last) (if bool_decide (i = 1%nat) then 61 else 45).
Proof.
  unfold underline. set (k := Nat.max (afterLast 13 t) (afterLast NL t)).
  destruct (afterLast_spec 13 t) as (H1 & H2 & H3). destruct (afterLast_spec NL t) as (H4 & H5 & H6).
  exists (take k t), (drop k t). split; [by rewrite take_drop|]. split; [|split; [|by rewrite length_drop]].
  - assert (∀ j c, (j <= k)%nat → c ∈ drop k t → c ∈ drop j t) as Hsub.
    { intros j c Hj. rewrite <- (take_drop (k - j) (drop j t)), drop_drop.
      replace (j + (k - j))%nat with k by lia. set_solver. }
    intros c Hc. unfold Code.lineEnd. apply orb_false_iff. split; apply Z.eqb_neq; intros ->.
    + apply H2, Hsub; [lia|done].
    + apply H5, Hsub; [lia|done].
  - destruct (Nat.max_dec (afterLast 13 t) (afterLast NL t)) as [Hk|Hk]; fold k in Hk; rewrite Hk.
    + destruct H3 as [->|[b ->]]; [by left|]. right. by exists b, 13.
    + destruct H6 as [->|[b ->]]; [by left|]. right. by exists b, NL.
Qed.

(** A heading keeps its level: one in the [#] form starts with as many marks as
    its depth, brought into 1 to 6, and then a blank or the end of the line;
    one with an underline has depth 1 or 2 (a missing depth counts as 1), and the
    underline is made of the mark of its level and is as long as the last line of the text. *)
Theorem heading_keeps_level (phrasing : list mdast → jstr → jstr → jstr) (depth : nat) (l : list mdast) (o : Options) :
  let level := Nat.max 1 (Nat.min 6 depth) in
  let out := heading phrasing depth l o in
  if formatHeadingAsSetext depth l o
  then (level <= 2)%nat ∧ ∃ above last : jstr,
    phrasing l [NL] [NL] = above ++ last ∧ (∀ c, c ∈ last → Code.lineEnd c = false) ∧
    (above = [] ∨ ∃ b c, above = b ++ [c] ∧ Code.lineEnd c = true) ∧
    out = above ++ last ++ [NL] ++ replicate (length last) (if bool_decide (level = 1%nat) then 61 else 45)
  else leading 35 out = level ∧ (out !! level = None ∨ out !! level = Some 32).
Proof.
  cbv zeta. unfold heading. rewrite rank_eq. destruct (formatHeadingAsSetext depth l o) eqn:Ef.
  - apply andb_prop in Ef as [[Hd%bool_decide_eq_true _]%andb_prop _]. split; [lia|].
    destruct (underline_spec (Nat.max 1 (Nat.min 6 depth)) (phrasing l [NL] [NL])) as (above & last & Ht & Hl & Ha & ->).
    exists above, last. rewrite Ht at 2. by rewrite <- app_assoc.
  - apply atx_level. lia.
Qed.

End Heading.
