(* ===== verification/YamlLexer.v ===== *)
(** * The YAML lexer of the web UI

    The [Lexer] class of the yaml library as bundled in
    [internal/ui/assets/assets/index-DHyr8oiy.js] (class [EKt], with the character
    tests [Z9], [TKt] and the sets [xKt], [SKt], [CKt], [wKt], and the token types
    [bKt]).  The UI parses and prints DAG and configuration YAML with it.

    A generator method that yields lexemes is a function of the state-and-failure
    monad [Lx]: it appends to [out].  [None] is a loop out of fuel; every loop gets
    the length of the buffer (plus a constant) as fuel, and [YamlLexerProps] shows
    that this is always enough.  Positions are integers, [buffer[i]] is [at_], and
    a control code the lexer yields to announce what follows is a constructor of
    [lexeme]. *)

From Stdlib Require Import ZArith Lia.
From stdpp Require Import base numbers strings gmap option list.
From S2P Require Import Prelude Js.

Open Scope Z_scope.

Module Yaml.

(** ** Characters *)

Definition ch (s : string) : Z := default 0 (head (runes s)).

Definition LF : Z := 10.
Definition CR : Z := 13.
Definition TAB : Z := 9.
Definition SP : Z := 32.
Definition DQ : Z := 34.
Definition BOM : Z := 65279.
Definition BACKSLASH : Z := 92.

(** [c === k] for a possibly undefined character. *)
Definition eqc (c : option Z) (k : Z) : bool := match c with Some x => x =? k | None => false end.

(** [Z9]: end of input or white space. *)
Definition isEmpty (c : option Z) : bool :=
  match c with None => true | Some x => (x =? SP) || (x =? LF) || (x =? CR) || (x =? TAB) end.

Definition inSet (s : list Z) (c : option Z) : bool :=
  match c with Some x => existsb (Z.eqb x) s | None => false end.

Definition hexDigits : list Z := runes "0123456789ABCDEFabcdef".
Definition tagChars : list Z :=
  runes "0123456789ABCDEFGHIJKLMNOPQRSTUVWXYZabcdefghijklmnopqrstuvwxyz-#;/?:@&=+$_.!~*'()".
Definition flowIndicatorChars : list Z := runes ",[]{}".
Definition invalidAnchorChars : list Z := runes " ,[]{}" ++ [LF; CR; TAB].

(** [TKt] *)
Definition isNotAnchorChar (c : option Z) : bool :=
  match c with None => true | Some _ => inSet invalidAnchorChars c end.

(** ** Strings *)

(** [s[i]] *)
Definition at_ (s : jstr) (i : Z) : option Z := if i <? 0 then None else s !! Z.to_nat i.

(** [s.slice(i, j)] for [0 <= i] and [0 <= j]. *)
Definition slice (s : jstr) (i j : Z) : jstr := take (Z.to_nat (j - i)) (drop (Z.to_nat i) s).

(** [s.substring(i, j)] for [0 <= i]: a negative bound is 0, and bounds in the
    wrong order are swapped. *)
Definition substring (s : jstr) (i j : Z) : jstr :=
  slice s (Z.min i (Z.max 0 j)) (Z.max i (Z.max 0 j)).

Definition len (s : jstr) : Z := Z.of_nat (length s).

(** The length of the longest prefix whose characters satisfy [p]. *)
Fixpoint countWhile (p : Z → bool) (s : jstr) : Z :=
  match s with
  | [] => 0
  | c :: r => if p c then 1 + countWhile p r else 0
  end.

(** [for (; p(s[i]); ) ++i], where [p] is false past the end. *)
Definition skipWhile (p : Z → bool) (s : jstr) (i : Z) : Z := i + countWhile p (drop (Z.to_nat i) s).

Fixpoint indexOf_ (c : Z) (s : jstr) : option Z :=
  match s with
  | [] => None
  | x :: r => if x =? c then Some 0 else option_map Z.succ (indexOf_ c r)
  end.

(** [s.indexOf(c, i)] for [0 <= i], -1 when absent. *)
Definition indexOf (s : jstr) (c i : Z) : Z :=
  match indexOf_ c (drop (Z.to_nat i) s) with Some k => i + k | None => -1 end.

Definition isBlank (c : Z) : bool := (c =? SP) || (c =? TAB).
Definition isSpace (c : Z) : bool := c =? SP.

(** ** State *)

Inductive Mode :=
  | stream | line_start | block_start | doc | flow | quoted_scalar | block_scalar | plain_scalar.

(** Lexemes: text of the source, and the three control codes (the characters 2, 24
    and 31, which the source may hold too). *)
Inductive lexeme :=
  | Src (s : jstr)
  | doc_mode
  | flow_error_end
  | scalar_mark.

Record Lexer := {
  atEnd : bool;
  blockScalarIndent : Z;
  blockScalarKeep : bool;
  buffer : jstr;
  flowKey : bool;
  flowLevel : Z;
  indentNext : Z;
  indentValue : Z;
  lineEndPos : option Z;
  next : option Mode;
  pos : Z;
  out : list lexeme;
}.

Definition initial : Lexer := {|
  atEnd := false; blockScalarIndent := -1; blockScalarKeep := false; buffer := []; flowKey := false;
  flowLevel := 0; indentNext := 0; indentValue := 0; lineEndPos := None; next := None; pos := 0; out := [];
|}.

(** Field updates. *)
Definition with_pos (p : Z) (o : list lexeme) (s : Lexer) : Lexer :=
  {| atEnd := atEnd s; blockScalarIndent := blockScalarIndent s; blockScalarKeep := blockScalarKeep s;
     buffer := buffer s; flowKey := flowKey s; flowLevel := flowLevel s; indentNext := indentNext s;
     indentValue := indentValue s; lineEndPos := lineEndPos s; next := next s; pos := p; out := out s ++ o |}.

Definition with_indent (iv inx : Z) (s : Lexer) : Lexer :=
  {| atEnd := atEnd s; blockScalarIndent := blockScalarIndent s; blockScalarKeep := blockScalarKeep s;
     buffer := buffer s; flowKey := flowKey s; flowLevel := flowLevel s; indentNext := inx;
     indentValue := iv; lineEndPos := lineEndPos s; next := next s; pos := pos s; out := out s |}.

Definition with_flow (k : bool) (l : Z) (s : Lexer) : Lexer :=
  {| atEnd := atEnd s; blockScalarIndent := blockScalarIndent s; blockScalarKeep := blockScalarKeep s;
     buffer := buffer s; flowKey := k; flowLevel := l; indentNext := indentNext s;
     indentValue := indentValue s; lineEndPos := lineEndPos s; next := next s; pos := pos s; out := out s |}.

Definition with_block (i : Z) (k : bool) (s : Lexer) : Lexer :=
  {| atEnd := atEnd s; blockScalarIndent := i; blockScalarKeep := k;
     buffer := buffer s; flowKey := flowKey s; flowLevel := flowLevel s; indentNext := indentNext s;
     indentValue := indentValue s; lineEndPos := lineEndPos s; next := next s; pos := pos s; out := out s |}.

Definition with_line (e : option Z) (s : Lexer) : Lexer :=
  {| atEnd := atEnd s; blockScalarIndent := blockScalarIndent s; blockScalarKeep := blockScalarKeep s;
     buffer := buffer s; flowKey := flowKey s; flowLevel := flowLevel s; indentNext := indentNext s;
     indentValue := indentValue s; lineEndPos := e; next := next s; pos := pos s; out := out s |}.

(** ** The monad *)

Definition Lx (A : Type) : Type := Lexer → option (Lexer * A).

Definition retL {A} (a : A) : Lx A := λ s, Some (s, a).
Definition bindL {A B} (m : Lx A) (k : A → Lx B) : Lx B :=
  λ s, match m s with Some (s', a) => k a s' | None => None end.
Definition stuck {A} : Lx A := λ _, None.
Definition gets {A} (f : Lexer → A) : Lx A := λ s, Some (s, f s).
Definition modify (f : Lexer → Lexer) : Lx unit := λ s, Some (f s, tt).

Declare Scope lexer_scope.
Delimit Scope lexer_scope with lexer.
Notation "'let*' x ':=' m 'in' k" := (bindL m (λ x, k))
  (at level 10, x name, m at level 100, k at level 200) : lexer_scope.
Notation "m ;; k" := (bindL m (λ _, k)) (at level 100, k at level 200, right associativity) : lexer_scope.
Open Scope lexer_scope.

(** [yield c] for a control code. *)
Definition mark (m : lexeme) : Lx unit := modify (λ s, with_pos (pos s) [m] s).

Definition charAt (n : Z) : Lx (option Z) := gets (λ s, at_ (buffer s) (pos s + n)).

(** ** Pushing source text *)

Definition pushCount (n : Z) : Lx Z := λ s,
  if 0 <? n then Some (with_pos (pos s + n) [Src (slice (buffer s) (pos s) (pos s + n))] s, n)
  else Some (s, 0).

Definition pushToIndex (i : Z) (allowEmpty : bool) : Lx Z := λ s,
  let n := slice (buffer s) (pos s) i in
  match n with
  | [] => if allowEmpty then Some (with_pos (pos s) [Src []] s, 0) else Some (s, 0)
  | _ => Some (with_pos (pos s + len n) [Src n] s, len n)
  end.

Definition pushSpaces (allowTabs : bool) : Lx Z := λ s,
  let t := skipWhile (λ c, (c =? SP) || (allowTabs && (c =? TAB))) (buffer s) (pos s) in
  let r := t - pos s in
  if 0 <? r then Some (with_pos t [Src (slice (buffer s) (pos s) t)] s, r) else Some (s, r).

Definition pushUntil (test : option Z → bool) : Lx Z :=
  let* t := gets (λ s, skipWhile (λ c, negb (test (Some c))) (buffer s) (pos s)) in
  pushToIndex t false.

Definition pushNewline : Lx Z :=
  let* e := charAt 0 in
  let* e1 := charAt 1 in
  if eqc e LF then pushCount 1
  else if eqc e CR && eqc e1 LF then pushCount 2
  else retL 0.

(** The characters of a shorthand tag, [%] escapes included. *)
Fixpoint tagEnd (fuel : nat) (b : jstr) (e : Z) : option Z :=
  match fuel with
  | O => None
  | S fuel =>
    if inSet tagChars (at_ b e) then tagEnd fuel b (e + 1)
    else if eqc (at_ b e) (ch "%") && inSet hexDigits (at_ b (e + 1)) && inSet hexDigits (at_ b (e + 2))
    then tagEnd fuel b (e + 3)
    else Some e
  end.

Definition pushTag : Lx Z :=
  let* c1 := charAt 1 in
  if eqc c1 (ch "<") then
    let* e := gets (λ s, skipWhile (λ c, negb (isEmpty (Some c)) && negb (c =? ch ">")) (buffer s) (pos s + 2)) in
    let* t := gets (λ s, at_ (buffer s) e) in
    pushToIndex (if eqc t (ch ">") then e + 1 else e) false
  else
    λ s, match tagEnd (S (length (buffer s))) (buffer s) (pos s + 1) with
         | Some e => pushToIndex e false s
         | None => None
         end.

Fixpoint pushIndicators (fuel : nat) : Lx Z :=
  match fuel with
  | O => stuck
  | S fuel =>
    let* c := charAt 0 in
    if eqc c (ch "!") then
      let* a := pushTag in let* b := pushSpaces true in let* r := pushIndicators fuel in retL (a + b + r)
    else if eqc c (ch "&") then
      let* a := pushUntil isNotAnchorChar in let* b := pushSpaces true in
      let* r := pushIndicators fuel in retL (a + b + r)
    else if eqc c (ch "-") || eqc c (ch "?") || eqc c (ch ":") then
      let* inFlow := gets (λ s, 0 <? flowLevel s) in
      let* t := charAt 1 in
      if isEmpty t || (inFlow && inSet flowIndicatorChars t) then
        modify (λ s, if inFlow then with_flow false (flowLevel s) s
                     else with_indent (indentValue s) (indentValue s + 1) s) ;;
        let* a := pushCount 1 in let* b := pushSpaces true in
        let* r := pushIndicators fuel in retL (a + b + r)
      else retL 0
    else retL 0
  end.

Definition indicators : Lx Z := λ s, pushIndicators (S (S (length (buffer s)))) s.

(** ** Lines *)

(** [getLine]; the inner [None] is [null]. *)
Definition getLine : Lx (option jstr) := λ s,
  let stale := match lineEndPos s with None => true | Some e => negb (e =? -1) && (e <? pos s) end in
  let e := if stale then indexOf (buffer s) LF (pos s) else default (-1) (lineEndPos s) in
  let s' := with_line (Some e) s in
  if e =? -1 then
    Some (s', if atEnd s then Some (drop (Z.to_nat (pos s)) (buffer s)) else None)
  else
    let e := if eqc (at_ (buffer s) (e - 1)) CR then e - 1 else e in
    Some (s', Some (substring (buffer s) (pos s) e)).

(** [setNext]: keep the rest of the buffer for the next chunk. *)
Definition setNext (m : Mode) : Lx (option Mode) := λ s,
  Some ({| atEnd := atEnd s; blockScalarIndent := blockScalarIndent s; blockScalarKeep := blockScalarKeep s;
           buffer := drop (Z.to_nat (pos s)) (buffer s); flowKey := flowKey s; flowLevel := flowLevel s;
           indentNext := indentNext s; indentValue := indentValue s; lineEndPos := None; next := Some m;
           pos := 0; out := out s |}, None).

Definition atLineEnd (s : Lexer) : bool :=
  let e := skipWhile isBlank (buffer s) (pos s) in
  let t := at_ (buffer s) e in
  match t with
  | None => true
  | Some c =>
    if (c =? ch "#") || (c =? LF) then true
    else if c =? CR then eqc (at_ (buffer s) (e + 1)) LF else false
  end.

(** [continueScalar]: where the scalar continues after a line break, or -1. *)
Definition continueScalar (s : Lexer) (e : Z) : Z :=
  let b := buffer s in
  if 0 <? indentNext s then
    let n := skipWhile isSpace b e - e in
    let t := at_ b (e + n) in
    let undef c := match c with None => negb (atEnd s) | Some _ => false end in
    if eqc t CR && (eqc (at_ b (n + e + 1)) LF || undef (at_ b (n + e + 1))) then e + n + 1
    else if eqc t LF || (indentNext s <=? n) || undef t then e + n else -1
  else
    let t := slice b e (e + 3) in
    if (bool_decide (t = runes "---") || bool_decide (t = runes "...")) && isEmpty (at_ b (e + 3))
    then -1 else e.

(** ** Scalars *)

(** The end of a single-quoted scalar: the first quote that is not doubled. *)
Fixpoint singleEnd (fuel : nat) (b : jstr) (t : Z) : option Z :=
  match fuel with
  | O => None
  | S fuel =>
    if negb (t =? -1) && eqc (at_ b (t + 1)) (ch "'") then singleEnd fuel b (indexOf b (ch "'") (t + 2))
    else Some t
  end.

(** The backslashes right before an index. *)
Fixpoint backslashes (fuel : nat) (b : jstr) (i : Z) : Z :=
  match fuel with
  | O => 0
  | S fuel => if eqc (at_ b i) BACKSLASH then 1 + backslashes fuel b (i - 1) else 0
  end.

(** The end of a double-quoted scalar: the first quote that is not escaped. *)
Fixpoint doubleEnd (fuel : nat) (b : jstr) (t : Z) : option Z :=
  match fuel with
  | O => None
  | S fuel =>
    if t =? -1 then Some t
    else if backslashes (length b) b (t - 1) mod 2 =? 0 then Some t
    else doubleEnd fuel b (indexOf b DQ (t + 1))
  end.

(** The first line break the scalar does not continue past, in [n]. *)
Fixpoint quotedBreak (fuel : nat) (s : Lexer) (n : jstr) (r : Z) : option Z :=
  match fuel with
  | O => None
  | S fuel =>
    if r =? -1 then Some r
    else
      let e := continueScalar s (r + 1) in
      if e =? -1 then Some r else quotedBreak fuel s n (indexOf n LF e)
  end.

Definition parseQuotedScalar : Lx (option Mode) := λ s,
  let b := buffer s in
  let fuel := S (S (length b)) in
  let e := at_ b (pos s) in
  let t := match e with Some q => indexOf b q (pos s + 1) | None => -1 end in
  match (if eqc e (ch "'") then singleEnd fuel b t else doubleEnd fuel b t) with
  | None => None
  | Some t =>
    let n := substring b 0 t in
    match quotedBreak fuel s n (indexOf n LF (pos s)) with
    | None => None
    | Some r =>
      let t := if r =? -1 then t else r - (if eqc (at_ n (r - 1)) CR then 2 else 1) in
      if (t =? -1) && negb (atEnd s) then setNext quoted_scalar s
      else
        let t := if t =? -1 then len b else t in
        (pushToIndex (t + 1) false ;;
         let* l := gets flowLevel in retL (Some (if l =? 0 then doc else flow))) s
    end
  end.

(** The header scan: keep flag and explicit indentation. *)
Fixpoint headerScan (fuel : nat) (b : jstr) (e indent : Z) (keep : bool) : option (Z * bool) :=
  match fuel with
  | O => None
  | S fuel =>
    let t := at_ b e in
    match t with
    | Some c =>
      if c =? ch "+" then headerScan fuel b (e + 1) indent true
      else if (ch "0" <? c) && (c <=? ch "9") then headerScan fuel b (e + 1) (c - ch "0" - 1) keep
      else if c =? ch "-" then headerScan fuel b (e + 1) indent keep
      else Some (indent, keep)
    | None => Some (indent, keep)
    end
  end.

Definition parseBlockScalarHeader : Lx Z :=
  (λ s, match headerScan (S (length (buffer s))) (buffer s) (pos s + 1) (-1) false with
        | Some (i, k) => Some (with_block i k s, tt)
        | None => None
        end) ;;
  pushUntil (λ c, isEmpty c || eqc c (ch "#")).

(** The leading blank lines: the last line break, the indentation after it and the
    character that stopped the scan; [None] in the last place asks for more
    input. *)
Fixpoint blockLead (fuel : nat) (s : Lexer) (r e t : Z) : option (Z * Z * option (option Z)) :=
  match fuel with
  | O => None
  | S fuel =>
    match at_ (buffer s) r with
    | None => Some (e, t, Some None)
    | Some c =>
      if c =? SP then blockLead fuel s (r + 1) e (t + 1)
      else if c =? LF then blockLead fuel s (r + 1) r 0
      else if c =? CR then
        let nx := at_ (buffer s) (r + 1) in
        match nx with
        | None => if atEnd s then Some (e, t, Some (Some c)) else Some (e, t, None)
        | Some d => if d =? LF then blockLead fuel s (r + 1) e t else Some (e, t, Some (Some c))
        end
      else Some (e, t, Some (Some c))
    end
  end.

(** The last line break of the scalar, -1 when it runs to the end. *)
Fixpoint blockBody (fuel : nat) (s : Lexer) (e : Z) : option Z :=
  match fuel with
  | O => None
  | S fuel =>
    let t := continueScalar s (e + 1) in
    if t =? -1 then Some e
    else
      let e := indexOf (buffer s) LF t in
      if e =? -1 then Some e else blockBody fuel s e
  end.

(** The spaces going down from an index. *)
Fixpoint spacesDown (fuel : nat) (b : jstr) (n : Z) : Z :=
  match fuel with
  | O => n
  | S fuel => if eqc (at_ b n) SP then spacesDown fuel b (n - 1) else n
  end.

(** Drop the trailing blank lines. *)
Fixpoint blockTrim (fuel : nat) (b : jstr) (p t e : Z) : option Z :=
  match fuel with
  | O => None
  | S fuel =>
    let n := if eqc (at_ b (e - 1)) CR then e - 2 else e - 1 in
    let i := n in
    let n := spacesDown (length b) b n in
    if eqc (at_ b n) LF && (p <=? n) && (i <? n + 1 + t) then blockTrim fuel b p t n else Some e
  end.

(** ** Line starts *)

(** The second element of [[e, t] = peek(2)], which iterates code points: a
    surrogate pair leaves it undefined. *)
Definition secondChar (s : jstr) : option Z :=
  match s with
  | [c; d] => if isLead c && isTrail d then None else Some d
  | _ => None
  end.

Fixpoint parseBlockStart (fuel : nat) : Lx (option Mode) :=
  match fuel with
  | O => stuck
  | S fuel =>
    let* e := charAt 0 in
    let* t := gets (λ s, secondChar (slice (buffer s) (pos s) (pos s + 2))) in
    let* fin := gets atEnd in
    if match t with None => negb fin | Some _ => false end then setNext block_start
    else if (eqc e (ch "-") || eqc e (ch "?") || eqc e (ch ":")) && isEmpty t then
      let* a := pushCount 1 in let* b := pushSpaces true in
      modify (λ s, with_indent (indentValue s + (a + b)) (indentValue s + 1) s) ;;
      parseBlockStart fuel
    else retL (Some doc)
  end.

Definition blockStart : Lx (option Mode) := λ s, parseBlockStart (S (S (length (buffer s)))) s.

Definition parseLineStart : Lx (option Mode) :=
  let* e := charAt 0 in
  let* fin := gets atEnd in
  if match e with None => negb fin | Some _ => false end then setNext line_start
  else
    let dash := eqc e (ch "-") || eqc e (ch ".") in
    let* short := gets (λ s, len (buffer s) <? pos s + 4) in
    if dash && negb fin && short then setNext line_start
    else
      let* p3 := gets (λ s, slice (buffer s) (pos s) (pos s + 3)) in
      let* c3 := charAt 3 in
      if dash && (bool_decide (p3 = runes "---") || bool_decide (p3 = runes "...")) && isEmpty c3 then
        pushCount 3 ;; modify (with_indent 0 0) ;;
        retL (Some (if bool_decide (p3 = runes "---") then doc else stream))
      else
        let* n := pushSpaces false in
        let* c1 := charAt 1 in
        modify (λ s, with_indent n (if (n <? indentNext s) && negb (isEmpty c1) then n else indentNext s) s) ;;
        blockStart.

(** The second half of [parseBlockScalar]: the trailing blank lines, a tab that
    starts a line, and the push; [e] is the last line break, [t] the
    indentation. *)
Definition blockScalarEnd (fuel : nat) (t e : Z) : Lx (option Mode) := λ s,
  let b := buffer s in
  let r := skipWhile isSpace b (e + 1) in
  match (if eqc (at_ b r) TAB
         then Some (skipWhile (λ c, isBlank c || (c =? CR) || (c =? LF)) b r - 1)
         else if blockScalarKeep s then Some e else blockTrim fuel b (pos s) t e) with
  | None => None
  | Some e => (mark scalar_mark ;; pushToIndex (e + 1) true ;; parseLineStart) s
  end.

Definition parseBlockScalar : Lx (option Mode) := λ s,
  let fuel := S (S (length (buffer s))) in
  match blockLead fuel s (pos s) (pos s - 1) 0 with
  | None => None
  | Some (_, _, None) => setNext block_scalar s
  | Some (e, t, Some n) =>
    if match n with None => negb (atEnd s) | Some _ => false end then setNext block_scalar s
    else if indentNext s <=? t then
      let s := with_indent (indentValue s)
                 (if blockScalarIndent s =? -1 then t
                  else blockScalarIndent s + (if indentNext s =? 0 then 1 else indentNext s)) s in
      match blockBody fuel s e with
      | None => None
      | Some e =>
        if e =? -1 then
          if atEnd s then blockScalarEnd fuel t (len (buffer s)) s else setNext block_scalar s
        else blockScalarEnd fuel t e s
      end
    else blockScalarEnd fuel t e s
  end.

(** The scan of a plain scalar: the last index that belongs to it, and the
    character the scan stopped at. *)
Fixpoint plainScan (fuel : nat) (s : Lexer) (inFlow : bool) (t n : Z) : option (Z * option Z) :=
  match fuel with
  | O => None
  | S fuel =>
    let b := buffer s in
    let n := n + 1 in
    match at_ b n with
    | None => Some (t, None)
    | Some r =>
      if r =? ch ":" then
        let nx := at_ b (n + 1) in
        if isEmpty nx || (inFlow && inSet flowIndicatorChars nx) then Some (t, Some r)
        else plainScan fuel s inFlow n n
      else if isEmpty (Some r) then
        let crlf := (r =? CR) && eqc (at_ b (n + 1)) LF in
        let n' := if crlf then n + 1 else n in
        let r' := if crlf then LF else r in
        let t' := if (r =? CR) && negb crlf then n else t in
        let i := at_ b (n' + 1) in
        if eqc i (ch "#") || (inFlow && inSet flowIndicatorChars i) then Some (t', Some r')
        else if r' =? LF then
          let e := continueScalar s (n' + 1) in
          if e =? -1 then Some (t', Some r') else plainScan fuel s inFlow t' (Z.max n' (e - 2))
        else plainScan fuel s inFlow t' n'
      else if inFlow && inSet flowIndicatorChars (Some r) then Some (t, Some r)
      else plainScan fuel s inFlow n n
    end
  end.

Definition parsePlainScalar : Lx (option Mode) := λ s,
  let inFlow := 0 <? flowLevel s in
  match plainScan (S (S (length (buffer s)))) s inFlow (pos s - 1) (pos s - 1) with
  | None => None
  | Some (t, r) =>
    if match r with None => negb (atEnd s) | Some _ => false end then setNext plain_scalar s
    else (mark scalar_mark ;; pushToIndex (t + 1) true ;; retL (Some (if inFlow then flow else doc))) s
  end.

(** ** The stream *)

(** The length of a directive without its comment and trailing blanks. *)
Fixpoint commentStart (e : jstr) (prev : option Z) (i : Z) : option Z :=
  match e with
  | [] => None
  | c :: r =>
    if (c =? ch "#") && (eqc prev SP || eqc prev TAB) then Some (i - 1)
    else commentStart r (Some c) (i + 1)
  end.

Fixpoint dropBlanks (fuel : nat) (e : jstr) (t : Z) : Z :=
  match fuel with
  | O => t
  | S fuel => if eqc (at_ e (t - 1)) SP || eqc (at_ e (t - 1)) TAB then dropBlanks fuel e (t - 1) else t
  end.

Definition directiveLength (e : jstr) : Z :=
  dropBlanks (length e) e (default (len e) (commentStart e None 0)).

(** The line after its byte order mark.  In the directive branch the source calls
    [pushNewline] without iterating it, so the line break is left to the next
    line. *)
Definition streamLine (e : jstr) : Lx (option Mode) :=
  let* atEol := gets atLineEnd in
  if eqc (head e) (ch "%") then
    let* a := pushCount (directiveLength e) in
    let* b := pushSpaces true in
    pushCount (len e - (a + b)) ;;
    retL (Some stream)
  else if atEol then
    let* t := pushSpaces true in
    pushCount (len e - t) ;;
    pushNewline ;;
    retL (Some stream)
  else mark doc_mode ;; parseLineStart.

Definition parseStream : Lx (option Mode) :=
  let* line := getLine in
  match line with
  | None => setNext stream
  | Some e =>
    let bom := eqc (head e) BOM in
    (if bom then pushCount 1 ;; retL tt else retL tt) ;;
    streamLine (if bom then drop 1 e else e)
  end.

(** The case analysis of [parseDocument], with the indicators pushed. *)
Definition docChar (e : jstr) (t c : Z) : Lx (option Mode) :=
  if c =? ch "#" then pushCount (len e - t) ;; pushNewline ;; parseLineStart
  else if (c =? ch "{") || (c =? ch "[") then
    pushCount 1 ;; modify (with_flow false 1) ;; retL (Some flow)
  else if (c =? ch "}") || (c =? ch "]") then pushCount 1 ;; retL (Some doc)
  else if c =? ch "*" then pushUntil isNotAnchorChar ;; retL (Some doc)
  else if (c =? DQ) || (c =? ch "'") then parseQuotedScalar
  else if (c =? ch "|") || (c =? ch ">") then
    let* a := parseBlockScalarHeader in
    let* b := pushSpaces true in
    pushCount (len e - (t + a + b)) ;;
    pushNewline ;;
    parseBlockScalar
  else parsePlainScalar.

Definition parseDocument : Lx (option Mode) :=
  pushSpaces true ;;
  let* line := getLine in
  match line with
  | None => setNext doc
  | Some e =>
    let* t := indicators in
    match at_ e t with
    | None => pushNewline ;; parseLineStart
    | Some c => docChar e t c
    end
  end.

(** The line breaks and blanks before a flow token; returns the indentation of
    the last line entered, -1 when none was. *)
Fixpoint flowBlanks (fuel : nat) (n : Z) : Lx Z :=
  match fuel with
  | O => stuck
  | S fuel =>
    let* e := pushNewline in
    let* t := (if 0 <? e
               then let* t := pushSpaces false in
                    modify (λ s, with_indent t (indentNext s) s) ;; retL t
               else retL 0) in
    let n := if 0 <? e then t else n in
    let* b := pushSpaces true in
    if 0 <? e + (t + b) then flowBlanks fuel n else retL n
  end.

(** The commas at index [i] of the line. *)
Fixpoint flowCommas (fuel : nat) (r : jstr) (i : Z) : Lx Z :=
  match fuel with
  | O => stuck
  | S fuel =>
    if eqc (at_ r i) (ch ",") then
      let* a := pushCount 1 in
      let* b := pushSpaces true in
      modify (λ s, with_flow false (flowLevel s) s) ;;
      flowCommas fuel r (i + a + b)
    else retL i
  end.

(** The line ends the flow collection: less indented than the block it is in, or
    a document marker; a closing bracket one column short is tolerated. *)
Definition flowBroken (s : Lexer) (n : Z) (r : jstr) : bool :=
  ((negb (n =? -1) && (n <? indentNext s) && negb (eqc (head r) (ch "#"))) ||
   ((n =? 0) && (startsWith (runes "---") r || startsWith (runes "...") r) && isEmpty (at_ r 3))) &&
  negb ((n =? indentNext s - 1) && (flowLevel s =? 1) && (eqc (head r) (ch "]") || eqc (head r) (ch "}"))).

(** The case analysis of [parseFlowCollection] at index [i] of the line. *)
Definition flowChar (r : jstr) (i c : Z) : Lx (option Mode) :=
  if c =? ch "#" then pushCount (len r - i) ;; retL (Some flow)
  else if (c =? ch "{") || (c =? ch "[") then
    pushCount 1 ;; modify (λ s, with_flow false (flowLevel s + 1) s) ;; retL (Some flow)
  else if (c =? ch "}") || (c =? ch "]") then
    pushCount 1 ;; modify (λ s, with_flow true (flowLevel s - 1) s) ;;
    let* l := gets flowLevel in retL (Some (if l =? 0 then doc else flow))
  else if c =? ch "*" then pushUntil isNotAnchorChar ;; retL (Some flow)
  else if (c =? DQ) || (c =? ch "'") then
    modify (λ s, with_flow true (flowLevel s) s) ;; parseQuotedScalar
  else
    let* c1 := charAt 1 in
    let* key := gets flowKey in
    if (c =? ch ":") && (key || isEmpty c1 || eqc c1 (ch ",")) then
      modify (λ s, with_flow false (flowLevel s) s) ;;
      pushCount 1 ;; pushSpaces true ;; retL (Some flow)
    else modify (λ s, with_flow false (flowLevel s) s) ;; parsePlainScalar.

Definition parseFlowCollection : Lx (option Mode) := λ s,
  let fuel := S (S (length (buffer s))) in
  (let* n := flowBlanks fuel (-1) in
   let* line := getLine in
   match line with
   | None => setNext flow
   | Some r =>
     let* broken := gets (λ s, flowBroken s n r) in
     if broken then
       modify (λ s, with_flow (flowKey s) 0 s) ;; mark flow_error_end ;; parseLineStart
     else
       let* i := flowCommas fuel r 0 in
       let* j := indicators in
       match at_ r (i + j) with
       | None => retL (Some flow)
       | Some c => flowChar r (i + j) c
       end
   end) s.

Definition parseNext (m : Mode) : Lx (option Mode) :=
  match m with
  | stream => parseStream
  | line_start => parseLineStart
  | block_start => blockStart
  | doc => parseDocument
  | flow => parseFlowCollection
  | quoted_scalar => parseQuotedScalar
  | block_scalar => parseBlockScalar
  | plain_scalar => parsePlainScalar
  end.

(** The loop of [lex]; with [incomplete] it goes on past the end of the buffer
    until a method asks for more input. *)
Fixpoint lexLoop (fuel : nat) (incomplete : bool) (m : Mode) : Lx unit :=
  match fuel with
  | O => stuck
  | S fuel =>
    let* more := gets (λ s, incomplete || (pos s + 1 <=? len (buffer s))) in
    if more then
      let* m := parseNext m in
      match m with Some m => lexLoop fuel incomplete m | None => retL tt end
    else retL tt
  end.

(** A chunk of the source is appended to the buffer. *)
Definition feed (source : jstr) (incomplete : bool) (s : Lexer) : Lexer :=
  {| atEnd := negb incomplete; blockScalarIndent := blockScalarIndent s;
     blockScalarKeep := blockScalarKeep s; buffer := buffer s ++ source; flowKey := flowKey s;
     flowLevel := flowLevel s; indentNext := indentNext s; indentValue := indentValue s;
     lineEndPos := match source with [] => lineEndPos s | _ => None end;
     next := next s; pos := pos s; out := out s |}.

(** [lex(source, incomplete)] *)
Definition lex (fuel : nat) (source : jstr) (incomplete : bool) : Lx unit := λ s,
  lexLoop fuel incomplete (default stream (next s)) (feed source incomplete s).

(** Lexing a whole document at once. *)
Definition lexAll (source : jstr) : option (list lexeme) :=
  match lex (2 * length source + 2) source false initial with
  | Some (s, _) => Some (out s)
  | None => None
  end.

(** ** Token types *)

Inductive TokenType :=
  | byte_order_mark | t_doc_mode | t_flow_error_end | scalar | doc_start | doc_end | newline
  | seq_item_ind | explicit_key_ind | map_value_ind | flow_map_start | flow_map_end | flow_seq_start
  | flow_seq_end | comma | space | comment | directive_line | alias | anchor | tag
  | single_quoted_scalar | double_quoted_scalar | block_scalar_header.

(** [bKt] *)
Definition tokenType (l : lexeme) : option TokenType :=
  match l with
  | doc_mode => Some t_doc_mode
  | flow_error_end => Some t_flow_error_end
  | scalar_mark => Some scalar
  | Src s =>
    if bool_decide (s = [BOM]) then Some byte_order_mark
    else if bool_decide (s = [2]) then Some t_doc_mode
    else if bool_decide (s = [24]) then Some t_flow_error_end
    else if bool_decide (s = [31]) then Some scalar
    else if bool_decide (s = runes "---") then Some doc_start
    else if bool_decide (s = runes "...") then Some doc_end
    else if bool_decide (s = []) || bool_decide (s = [LF]) || bool_decide (s = [CR; LF]) then Some newline
    else if bool_decide (s = runes "-") then Some seq_item_ind
    else if bool_decide (s = runes "?") then Some explicit_key_ind
    else if bool_decide (s = runes ":") then Some map_value_ind
    else if bool_decide (s = runes "{") then Some flow_map_start
    else if bool_decide (s = runes "}") then Some flow_map_end
    else if bool_decide (s = runes "[") then Some flow_seq_start
    else if bool_decide (s = runes "]") then Some flow_seq_end
    else if bool_decide (s = runes ",") then Some comma
    else
      match head s with
      | Some c =>
        if (c =? SP) || (c =? TAB) then Some space
        else if c =? ch "#" then Some comment
        else if c =? ch "%" then Some directive_line
        else if c =? ch "*" then Some alias
        else if c =? ch "&" then Some anchor
        else if c =? ch "!" then Some tag
        else if c =? ch "'" then Some single_quoted_scalar
        else if c =? DQ then Some double_quoted_scalar
        else if (c =? ch "|") || (c =? ch ">") then Some block_scalar_header
        else None
      | None => None
      end
  end.

End Yaml.
