(* ===== verification/YamlLexerProps.v ===== *)
(** * The YAML lexer: termination and losslessness

    Lexing a whole document always ends, within the fuel [lexAll] gives, and the
    text of the lexemes, put together again, is the document. *)

From Stdlib Require Import ZArith Lia.
From stdpp Require Import base numbers strings gmap option list.
From S2P Require Import Prelude Js YamlLexer.

Open Scope Z_scope.
Import Yaml.

(** ** Strings *)

Lemma len_nonneg s : 0 <= len s.
Proof. unfold len. lia. Qed.

Lemma at_Some_range s i c : at_ s i = Some c → 0 <= i < len s.
Proof.
  unfold at_, len. destruct (i <? 0) eqn:E; [done|]. intros H%lookup_lt_Some. lia.
Qed.

Lemma at_None_range s i : 0 <= i → at_ s i = None → len s <= i.
Proof.
  unfold at_, len. intros Hi. replace (i <? 0) with false by lia. intros H%lookup_ge_None. lia.
Qed.

Lemma at_ge s i : len s <= i → at_ s i = None.
Proof.
  unfold at_, len. intros Hi. destruct (i <? 0); [done|]. apply lookup_ge_None. lia.
Qed.

Lemma at_drop s i k : 0 <= i → 0 <= k → at_ (drop (Z.to_nat i) s) k = at_ s (i + k).
Proof.
  intros Hi Hk. unfold at_. replace (k <? 0) with false by lia. replace (i + k <? 0) with false by lia.
  rewrite lookup_drop. f_equal. lia.
Qed.

Lemma len_drop s i : 0 <= i → len (drop (Z.to_nat i) s) = Z.max 0 (len s - i).
Proof. intros Hi. unfold len. rewrite length_drop. lia. Qed.

Lemma eqc_true c k : eqc c k = true ↔ c = Some k.
Proof. destruct c as [x|]; simpl; [rewrite Z.eqb_eq; split; congruence|split; done]. Qed.

Lemma slice_len s i j : 0 <= i → i <= j → j <= len s → len (slice s i j) = j - i.
Proof. unfold slice, len. intros. rewrite length_take, length_drop. lia. Qed.

Lemma slice_nil s i j : j <= i → slice s i j = [].
Proof. intros. unfold slice. by replace (Z.to_nat (j - i)) with 0%nat by lia. Qed.

Lemma at_slice s i j k : 0 <= i → 0 <= k → i + k < j → at_ (slice s i j) k = at_ s (i + k).
Proof.
  intros. unfold slice, at_. replace (k <? 0) with false by lia. replace (i + k <? 0) with false by lia.
  rewrite lookup_take_lt, lookup_drop by lia. f_equal. lia.
Qed.

Lemma at_slice_end s i j k : 0 <= i → i <= j → j - i <= k → at_ (slice s i j) k = None.
Proof.
  intros. apply at_ge. unfold slice, len. rewrite length_take. lia.
Qed.

Lemma take_slice s i j : 0 <= i → i <= j →
  take (Z.to_nat i) s ++ slice s i j = take (Z.to_nat j) s.
Proof.
  intros. unfold slice. rewrite take_take_drop. f_equal. lia.
Qed.

Lemma countWhile_range p s : 0 <= countWhile p s <= len s.
Proof.
  unfold len. induction s as [|c s IH]; simpl; [lia|]. destruct (p c); lia.
Qed.

Lemma countWhile_last p s k : 0 <= k < countWhile p s → ∃ c, at_ s k = Some c ∧ p c = true.
Proof.
  revert k. induction s as [|c s IH]; simpl; intros k; [lia|]. destruct (p c) eqn:E; [|lia].
  intros Hk. destruct (decide (k = 0)) as [->|]; [by exists c|].
  destruct (IH (k - 1)) as (d & Hd & Hp); [lia|]. exists d. split; [|done].
  unfold at_ in *. replace (k - 1 <? 0) with false in Hd by lia. replace (k <? 0) with false by lia.
  replace (Z.to_nat k) with (S (Z.to_nat (k - 1))) by lia. done.
Qed.

Lemma countWhile_stop p s c : at_ s (countWhile p s) = Some c → p c = false.
Proof.
  induction s as [|x s IH]; simpl; [done|]. destruct (p x) eqn:E.
  - intros Hc. apply IH. rewrite <- Hc. pose proof (countWhile_range p s). unfold at_.
    replace (1 + countWhile p s <? 0) with false by lia. replace (countWhile p s <? 0) with false by lia.
    by replace (Z.to_nat (1 + countWhile p s)) with (S (Z.to_nat (countWhile p s))) by lia.
  - by intros [= ->].
Qed.

(** [skipWhile] stays in range, stops at a character that fails the test, and
    passed only characters that satisfy it. *)
Lemma skipWhile_spec p s i : 0 <= i → i <= len s →
  i <= skipWhile p s i <= len s ∧
  (∀ k, i <= k < skipWhile p s i → ∃ c, at_ s k = Some c ∧ p c = true) ∧
  (∀ c, at_ s (skipWhile p s i) = Some c → p c = false).
Proof.
  intros Hi Hlen. unfold skipWhile.
  pose proof (countWhile_range p (drop (Z.to_nat i) s)) as Hr. rewrite len_drop in Hr by lia.
  split_and!; [lia|lia| |].
  - intros k Hk. destruct (countWhile_last p (drop (Z.to_nat i) s) (k - i)) as (c & Hc & Hp); [lia|].
    exists c. rewrite at_drop in Hc by lia. split; [|done]. rewrite <- Hc. f_equal. lia.
  - intros c Hc. apply (countWhile_stop p (drop (Z.to_nat i) s)). rewrite at_drop by lia. done.
Qed.

Lemma skipWhile_ge p s i : i <= skipWhile p s i.
Proof. unfold skipWhile. pose proof (countWhile_range p (drop (Z.to_nat i) s)). lia. Qed.

Lemma indexOf__spec c s k : indexOf_ c s = Some k → 0 <= k ∧ at_ s k = Some c.
Proof.
  revert k. induction s as [|x s IH]; simpl; intros k; [done|]. destruct (x =? c) eqn:E.
  - intros [= <-]. apply Z.eqb_eq in E as ->. split; [lia|done].
  - destruct (indexOf_ c s) as [j|]; [|done]. simpl. intros [= <-].
    destruct (IH j eq_refl) as [Hj Hc]. split; [lia|]. unfold at_ in *.
    rewrite (proj2 (Z.ltb_ge _ _) Hj) in Hc. rewrite (proj2 (Z.ltb_ge (Z.succ j) 0)) by lia.
    by rewrite Z2Nat.inj_succ by done.
Qed.

Lemma indexOf__none c s k : indexOf_ c s = None → 0 <= k → at_ s k ≠ Some c.
Proof.
  revert k. induction s as [|x s IH]; simpl; intros k; [unfold at_; by destruct (k <? 0)|].
  destruct (x =? c) eqn:E; [done|]. destruct (indexOf_ c s); [done|]. intros _ Hk.
  destruct (decide (k = 0)) as [->|]; [intros [= ->]; by rewrite Z.eqb_refl in E|].
  replace k with (1 + (k - 1)) by lia. rewrite <- (at_drop _ 1) by lia. apply IH; [done|lia].
Qed.

Lemma indexOf__first c s k j : indexOf_ c s = Some k → 0 <= j < k → at_ s j ≠ Some c.
Proof.
  revert k j. induction s as [|x s IH]; simpl; intros k j; [done|].
  destruct (x =? c) eqn:E; [intros [= <-]; lia|]. destruct (indexOf_ c s) as [i|]; [|done]. simpl.
  intros [= <-] Hj. destruct (decide (j = 0)) as [->|]; [intros [= ->]; by rewrite Z.eqb_refl in E|].
  replace j with (1 + (j - 1)) by lia. rewrite <- (at_drop _ 1) by lia. apply (IH i); [done|lia].
Qed.

Lemma indexOf_spec s c i : 0 <= i →
  indexOf s c i = -1 ∨ (i <= indexOf s c i < len s ∧ at_ s (indexOf s c i) = Some c).
Proof.
  intros Hi. unfold indexOf. destruct (indexOf_ c _) as [k|] eqn:E; [right|by left].
  apply indexOf__spec in E as [Hk Hc]. rewrite at_drop in Hc by lia.
  pose proof (at_Some_range _ _ _ Hc). split; [lia|done].
Qed.

(** ** The invariant *)

(** A position does not split a CR LF line break. *)
Definition noSplit (b : jstr) (p : Z) : Prop := at_ b (p - 1) = Some CR → at_ b p ≠ Some LF.

(** The source text emitted so far. *)
Definition emitted (o : list lexeme) : jstr :=
  o ≫= λ l, match l with Src s => s | _ => [] end.

(** [e] is the first LF from [p] on, or behind [p], or -1 and there is none. *)
Definition lineEnd (b : jstr) (p e : Z) : Prop :=
  (e = -1 ∧ ∀ k, p <= k → at_ b k ≠ Some LF) ∨
  (at_ b e = Some LF ∧ ∀ k, p <= k < e → at_ b k ≠ Some LF).

Lemma lineEnd_later b p p' e : lineEnd b p e → p <= p' → lineEnd b p' e.
Proof.
  intros [[-> H]|[He H]] Hp; [left|right]; (split; [done|]); intros k Hk; apply H; lia.
Qed.

Record inv (s : Lexer) : Prop := {
  inv_end : atEnd s = true;
  inv_pos : 0 <= pos s <= len (buffer s);
  inv_out : emitted (out s) = take (Z.to_nat (pos s)) (buffer s);
  inv_split : noSplit (buffer s) (pos s);
  inv_line : ∀ e, lineEndPos s = Some e → lineEnd (buffer s) (pos s) e;
  inv_level : 0 <= flowLevel s;
}.

(** [s'] follows [s]: same buffer, not behind, invariant kept. *)
Record later (s s' : Lexer) : Prop := {
  later_buffer : buffer s' = buffer s;
  later_pos : pos s <= pos s';
  later_inv : inv s';
}.

Lemma later_refl s : inv s → later s s.
Proof. intros. split; [done|lia|done]. Qed.

Lemma later_trans s1 s2 s3 : later s1 s2 → later s2 s3 → later s1 s3.
Proof. intros [H1 H2 _] [H3 H4 H5]. split; [congruence|lia|done]. Qed.

(** [m] returns from [s], and [Q] holds of the state and the value. *)
Definition runs {A} (m : Lx A) (s : Lexer) (Q : Lexer → A → Prop) : Prop :=
  ∃ s' a, m s = Some (s', a) ∧ Q s' a.

Lemma runs_bind {A B} (m : Lx A) (k : A → Lx B) s Q :
  runs m s (λ s' a, runs (k a) s' Q) → runs (bindL m k) s Q.
Proof. intros (s' & a & Hm & s'' & b & Hk & HQ). exists s'', b. unfold bindL. by rewrite Hm. Qed.

Lemma runs_weaken {A} (m : Lx A) s (Q Q' : Lexer → A → Prop) :
  runs m s Q → (∀ s' a, Q s' a → Q' s' a) → runs m s Q'.
Proof. intros (s' & a & ? & ?) HQ. exists s', a. auto. Qed.

Lemma runs_ret {A} (a : A) s (Q : Lexer → A → Prop) : Q s a → runs (retL a) s Q.
Proof. intros. by exists s, a. Qed.

Lemma runs_gets {A} (f : Lexer → A) s (Q : Lexer → A → Prop) : Q s (f s) → runs (gets f) s Q.
Proof. intros. by exists s, (f s). Qed.

Lemma runs_charAt n s (Q : Lexer → option Z → Prop) : Q s (at_ (buffer s) (pos s + n)) → runs (charAt n) s Q.
Proof. intros HQ. exact (runs_gets (λ s, at_ (buffer s) (pos s + n)) s Q HQ). Qed.

Lemma runs_modify f s (Q : Lexer → unit → Prop) : Q (f s) tt → runs (modify f) s Q.
Proof. intros. by exists (f s), tt. Qed.

(** ** Pushes *)

Lemma noSplit_prev b p c : at_ b (p - 1) = Some c → c ≠ CR → noSplit b p.
Proof. intros H1 H2 H3. congruence. Qed.

Lemma noSplit_here b p : at_ b p ≠ Some LF → noSplit b p.
Proof. by intros H1 _. Qed.

Lemma noSplit_end b p : len b <= p → noSplit b p.
Proof. intros H _. by rewrite at_ge. Qed.

(** Moving forward over source text, emitting it. *)
Lemma later_push s j : inv s → pos s <= j <= len (buffer s) → noSplit (buffer s) j →
  later s (with_pos j [Src (slice (buffer s) (pos s) j)] s).
Proof.
  intros [He Hp Ho Hs Hl Hv] Hj Hn. split; [done|simpl; lia|]. constructor; simpl; try done; [lia| |].
  - unfold emitted in *. rewrite bind_app, Ho. simpl. rewrite app_nil_r. apply take_slice; lia.
  - intros e He'. eapply lineEnd_later; [by apply Hl|lia].
Qed.

Lemma later_mark s m : inv s → (∀ t, m = Src t → t = []) → later s (with_pos (pos s) [m] s).
Proof.
  intros [He Hp Ho Hs Hl Hv] Hm. split; [done|simpl; lia|]. constructor; simpl; try done.
  unfold emitted in *. rewrite bind_app, Ho. simpl. destruct m as [t| | |]; simpl; rewrite ?app_nil_r; try done.
  rewrite (Hm t eq_refl). by rewrite app_nil_r.
Qed.

(** A push returns how far it moved. *)
Record moved (s s' : Lexer) (n : Z) : Prop := {
  moved_later : later s s';
  moved_pos : pos s' = pos s + n;
  moved_level : flowLevel s' = flowLevel s;
}.

Lemma runs_pushCount n s : inv s →
  (0 < n → pos s + n <= len (buffer s) ∧ noSplit (buffer s) (pos s + n)) →
  runs (pushCount n) s (λ s' a, moved s s' a ∧ a = Z.max 0 n).
Proof.
  intros Hi Hn. unfold runs, pushCount. destruct (0 <? n) eqn:E; zbool.
  - destruct (Hn E) as [Hle Hns]. do 2 eexists. split; [reflexivity|]. pose proof (inv_pos _ Hi).
    split; [|lia]. split; [|done|done]. apply later_push; [done|lia|done].
  - do 2 eexists. split; [reflexivity|]. split; [|lia]. split; [by apply later_refl|lia|done].
Qed.

Lemma runs_pushToIndex i allow s : inv s →
  (pos s < i → noSplit (buffer s) (Z.min i (len (buffer s)))) →
  runs (pushToIndex i allow) s (λ s' a, moved s s' a ∧ a = Z.max 0 (Z.min i (len (buffer s)) - pos s)).
Proof.
  intros Hi Hn. pose proof (inv_pos _ Hi) as Hp. unfold runs, pushToIndex.
  assert (Hmin : slice (buffer s) (pos s) i = slice (buffer s) (pos s) (Z.min i (len (buffer s)))).
  { destruct (Z.le_gt_cases i (len (buffer s))); [f_equal; lia|].
    rewrite Z.min_r by lia. unfold slice, len in *. rewrite !take_ge; rewrite ?length_drop; [done|lia|lia]. }
  rewrite Hmin. destruct (decide (pos s < i)) as [Hlt|Hge].
  - specialize (Hn Hlt). set (j := Z.min i (len (buffer s))) in *.
    assert (Hlen : len (slice (buffer s) (pos s) j) = j - pos s) by (apply slice_len; lia).
    destruct (slice (buffer s) (pos s) j) as [|c r] eqn:Es.
    + unfold len in Hlen at 1. simpl in Hlen. assert (j = pos s) by lia.
      destruct allow; do 2 eexists; (split; [reflexivity|]); (split; [|lia]); (split; [|simpl; lia|done]);
        [apply later_mark; [done|by intros t [= <-]]|by apply later_refl].
    + rewrite Hlen, <- Es. do 2 eexists. split; [reflexivity|]. split; [|lia].
      replace (pos s + (j - pos s)) with j by lia. split; [apply later_push; [done|lia|done]|simpl; lia|done].
  - rewrite slice_nil by lia. destruct allow; do 2 eexists; (split; [reflexivity|]); (split; [|lia]);
      (split; [|simpl; lia|done]); [apply later_mark; [done|by intros t [= <-]]|by apply later_refl].
Qed.

(** Skipping characters other than CR does not split a line break. *)
Lemma skip_noSplit p b i : 0 <= i <= len b → (∀ c, p c = true → c ≠ CR) → noSplit b i →
  noSplit b (skipWhile p b i).
Proof.
  intros Hi Hp Hn. destruct (skipWhile_spec p b i) as (Hr & Hall & _); [lia..|].
  destruct (decide (skipWhile p b i = i)) as [->|Hne]; [done|].
  destruct (Hall (skipWhile p b i - 1)) as (c & Hc & Hpc); [lia|]. eapply noSplit_prev; [done|auto].
Qed.

Lemma runs_pushSpaces tabs s : inv s →
  runs (pushSpaces tabs) s (λ s' a, moved s s' a ∧ 0 <= a ∧
    (∀ c, at_ (buffer s) (pos s) = Some c → c = SP → 0 < a) ∧
    (∀ c, at_ (buffer s) (pos s') = Some c → c ≠ SP ∧ (tabs = true → c ≠ TAB))).
Proof.
  intros Hi. pose proof (inv_pos _ Hi) as Hp. unfold runs, pushSpaces.
  set (p := λ c, (c =? SP) || (tabs && (c =? TAB))).
  destruct (skipWhile_spec p (buffer s) (pos s)) as (Hr & Hall & Hstop); [lia..|].
  assert (Hns : noSplit (buffer s) (skipWhile p (buffer s) (pos s))).
  { apply skip_noSplit; [lia| |apply Hi]. intros c Hc ->. subst p. simpl in Hc. by destruct tabs. }
  assert (Hend : ∀ c, at_ (buffer s) (skipWhile p (buffer s) (pos s)) = Some c →
    c ≠ SP ∧ (tabs = true → c ≠ TAB)).
  { intros c Hc. specialize (Hstop c Hc). subst p. simpl in Hstop. split; [intros ->; done|].
    intros -> ->. done. }
  assert (Hsp : ∀ c, at_ (buffer s) (pos s) = Some c → c = SP → 0 < skipWhile p (buffer s) (pos s) - pos s).
  { intros c Hc ->. destruct (decide (skipWhile p (buffer s) (pos s) = pos s)) as [E|]; [|lia].
    rewrite E in Hstop. specialize (Hstop _ Hc). done. }
  destruct (0 <? skipWhile p (buffer s) (pos s) - pos s) eqn:E; zbool; do 2 eexists; (split; [reflexivity|]).
  - split_and!; [|lia|done|done]. split; [|simpl; lia|done]. apply later_push; [done|lia|done].
  - assert (Eq : skipWhile p (buffer s) (pos s) = pos s) by lia. rewrite Eq in *.
    split_and!; [|lia|done|done]. split; [by apply later_refl|lia|done].
Qed.

Lemma runs_pushUntil test s : inv s → test (Some CR) = true →
  runs (pushUntil test) s (λ s' a, moved s s' a ∧ 0 <= a ∧
    (∀ c, at_ (buffer s) (pos s) = Some c → test (Some c) = false → 0 < a)).
Proof.
  intros Hi Ht. pose proof (inv_pos _ Hi) as Hp. unfold pushUntil. apply runs_bind, runs_gets.
  set (p := λ c, negb (test (Some c))).
  destruct (skipWhile_spec p (buffer s) (pos s)) as (Hr & Hall & Hstop); [lia..|].
  assert (Hns : noSplit (buffer s) (skipWhile p (buffer s) (pos s))).
  { apply skip_noSplit; [lia| |apply Hi]. intros c Hc ->. subst p. simpl in Hc. by rewrite Ht in Hc. }
  eapply runs_weaken; [apply runs_pushToIndex; [done|intros _; by rewrite Z.min_l by lia]|].
  intros s' a [Hm ->]. split_and!; [done|lia|]. intros c Hc Htc.
  destruct (decide (skipWhile p (buffer s) (pos s) = pos s)) as [E|]; [|lia].
  rewrite E in Hstop. specialize (Hstop _ Hc). subst p. simpl in Hstop. by rewrite Htc in Hstop.
Qed.

Lemma runs_pushNewline s : inv s →
  runs pushNewline s (λ s' a, moved s s' a ∧ 0 <= a ∧
    (at_ (buffer s) (pos s) = Some LF → 0 < a) ∧
    (at_ (buffer s) (pos s) = Some CR → at_ (buffer s) (pos s + 1) = Some LF → 0 < a)).
Proof.
  intros Hi. pose proof (inv_pos _ Hi) as Hp. unfold pushNewline.
  apply runs_bind, runs_charAt. apply runs_bind, runs_charAt. rewrite Z.add_0_r.
  destruct (eqc (at_ (buffer s) (pos s)) LF) eqn:E1.
  - apply eqc_true in E1. pose proof (at_Some_range _ _ _ E1).
    eapply runs_weaken; [apply runs_pushCount; [done|]|].
    + intros _. split; [lia|]. eapply noSplit_prev; [|by instantiate (1:=LF)].
      by replace (pos s + 1 - 1) with (pos s) by lia.
    + intros s' a [Hm ->]. split_and!; [done|lia|lia|lia].
  - destruct (eqc (at_ (buffer s) (pos s)) CR && eqc (at_ (buffer s) (pos s + 1)) LF) eqn:E2.
    + apply andb_true_iff in E2 as [E2 E3]. apply eqc_true in E2, E3. pose proof (at_Some_range _ _ _ E3).
      eapply runs_weaken; [apply runs_pushCount; [done|]|].
      * intros _. split; [lia|]. eapply noSplit_prev; [|by instantiate (1:=LF)].
        by replace (pos s + 2 - 1) with (pos s + 1) by lia.
      * intros s' a [Hm ->]. split_and!; [done|lia|lia|lia].
    + apply runs_ret. split_and!; [split; [by apply later_refl|lia|done]|lia|..].
      * intros Hc. by rewrite (proj2 (eqc_true _ _) Hc) in E1.
      * intros Hc Hd. by rewrite (proj2 (eqc_true _ _) Hc), (proj2 (eqc_true _ _) Hd) in E2.
Qed.

(** ** Bookkeeping *)

Lemma moved_refl s : inv s → moved s s 0.
Proof. intros. split; [by apply later_refl|lia|done]. Qed.

Lemma moved_trans s1 s2 s3 a b : moved s1 s2 a → moved s2 s3 b → moved s1 s3 (a + b).
Proof. intros [H1 H2 H5] [H3 H4 H6]. split; [by eapply later_trans|lia|congruence]. Qed.

Lemma moved_indent s a b : inv s → moved s (with_indent a b s) 0.
Proof. intros [? ? ? ? ? ?]. split; [|simpl; lia|done]. split; [done|simpl; lia|by constructor]. Qed.

Lemma later_flow s k l : inv s → 0 <= l → later s (with_flow k l s).
Proof. intros [? ? ? ? ? ?] Hl. split; [done|simpl; lia|by constructor]. Qed.

Lemma moved_flow s k : inv s → moved s (with_flow k (flowLevel s) s) 0.
Proof. intros Hi. split; [|simpl; lia|done]. apply later_flow; [done|apply Hi]. Qed.

Lemma moved_block s a b : inv s → moved s (with_block a b s) 0.
Proof. intros [? ? ? ? ? ?]. split; [|simpl; lia|done]. split; [done|simpl; lia|by constructor]. Qed.

Lemma moved_mark s m : inv s → (∀ t, m ≠ Src t) → moved s (with_pos (pos s) [m] s) 0.
Proof. intros. split; [|simpl; lia|done]. apply later_mark; [done|]. intros t ->. by edestruct H0. Qed.

Lemma moved_inv s s' n : moved s s' n → inv s'.
Proof. by intros [[_ _ ?] _ _]. Qed.

Lemma moved_buffer s s' n : moved s s' n → buffer s' = buffer s.
Proof. by intros [[? _ _] _ _]. Qed.

Create HintDb lexer.
#[export] Hint Resolve moved_inv moved_refl later_refl moved_indent moved_flow moved_block moved_trans : lexer.

(** Facts about the state reached, as equations. *)
Ltac facts :=
  repeat match goal with
  | H : moved ?s ?s' ?n |- _ =>
    lazymatch goal with
    | _ : pos s' = pos s + n |- _ => fail
    | _ => pose proof (moved_pos _ _ _ H); pose proof (moved_buffer _ _ _ H); pose proof (moved_inv _ _ _ H)
    end
  end.

(** The line end the search finds, and the one getLine remembers. *)
Lemma indexOf_lineEnd b p : 0 <= p → lineEnd b p (indexOf b LF p).
Proof.
  intros Hp. unfold indexOf. destruct (indexOf_ LF _) as [k|] eqn:E.
  - right. pose proof (indexOf__spec _ _ _ E) as [Hk Hc]. rewrite at_drop in Hc by lia. split; [done|].
    intros j Hj Hlf. eapply (indexOf__first _ _ _ (j - p) E); [lia|]. rewrite at_drop by lia.
    by replace (p + (j - p)) with j by lia.
  - left. split; [done|]. intros j Hj Hlf. eapply (indexOf__none _ _ (j - p) E); [lia|].
    rewrite at_drop by lia. by replace (p + (j - p)) with j by lia.
Qed.

(** A line [l] from [p] to [le]: no LF inside, and a line break or the end of the
    buffer after it. *)
Record lineAt (b : jstr) (p le : Z) (l : jstr) : Prop := {
  line_range : p <= le <= len b;
  line_text : l = slice b p le;
  line_noLF : ∀ k, p <= k < le → at_ b k ≠ Some LF;
  line_noSplit : noSplit b le;
  line_stop : le = len b ∨ at_ b le = Some LF ∨ (at_ b le = Some CR ∧ at_ b (le + 1) = Some LF);
}.

Lemma runs_getLine s : inv s →
  runs getLine s (λ s' l, moved s s' 0 ∧ ∃ le e, l = Some e ∧ lineAt (buffer s) (pos s) le e).
Proof.
  intros Hi. pose proof Hi as [He Hp Ho Hs Hl Hv]. unfold runs, getLine.
  set (stale := match lineEndPos s with None => true | Some e => negb (e =? -1) && (e <? pos s) end).
  set (e := if stale then indexOf (buffer s) LF (pos s) else default (-1) (lineEndPos s)).
  assert (He' : lineEnd (buffer s) (pos s) e ∧ (e = -1 ∨ pos s <= e)).
  { subst e. destruct stale eqn:Est.
    - split; [apply indexOf_lineEnd; lia|]. destruct (indexOf_spec (buffer s) LF (pos s)); lia.
    - subst stale. destruct (lineEndPos s) as [x|]; [|done]. simpl. split; [by apply Hl|].
      apply andb_false_iff in Est as [Est|Est]; zbool; lia. }
  destruct He' as [He' Hge].
  assert (Hmv : moved s (with_line (Some e) s) 0).
  { split; [|simpl; lia|done]. split; [done|simpl; lia|]. constructor; try done. by intros x [= <-]. }
  destruct He' as [[E Hno]|[Hlf Hno]].
  - rewrite E in *. simpl. rewrite He. do 2 eexists. split; [reflexivity|]. split; [done|].
    exists (len (buffer s)). eexists. split; [reflexivity|].
    constructor; [lia| |intros; apply Hno; lia|by apply noSplit_end|by left].
    unfold slice, len. rewrite take_ge; [done|]. rewrite length_drop. lia.
  - pose proof (at_Some_range _ _ _ Hlf). replace (e =? -1) with false by lia.
    do 2 eexists. split; [reflexivity|]. split; [done|].
    destruct (eqc (at_ (buffer s) (e - 1)) CR) eqn:Ec.
    + apply eqc_true in Ec. pose proof (at_Some_range _ _ _ Ec).
      assert (pos s <= e - 1).
      { destruct (decide (pos s = e)) as [Heq|]; [|lia]. exfalso. rewrite <- Heq in Ec. apply (Hs Ec). congruence. }
      exists (e - 1). eexists. split; [reflexivity|].
      constructor; [lia|unfold substring; f_equal; lia|intros; apply Hno; lia| |].
      * apply noSplit_here. rewrite Ec. done.
      * right; right. split; [done|]. by replace (e - 1 + 1) with e by lia.
    + exists e. eexists. split; [reflexivity|].
      constructor; [lia|unfold substring; f_equal; lia|intros; apply Hno; lia| |by right; left].
      intros Hcr. by rewrite (proj2 (eqc_true _ _) Hcr) in Ec.
Qed.

(** A push of the character at the position, which is not a CR. *)
Lemma runs_pushChar s c : inv s → at_ (buffer s) (pos s) = Some c → c ≠ CR →
  runs (pushCount 1) s (λ s' a, moved s s' a ∧ a = 1).
Proof.
  intros Hi Hc Hncr. pose proof (at_Some_range _ _ _ Hc).
  eapply runs_weaken; [apply runs_pushCount; [done|]|].
  - intros _. split; [lia|]. eapply noSplit_prev; [|exact Hncr]. rewrite <- Hc. f_equal. lia.
  - intros s' a [? ->]. split; [done|lia].
Qed.

(** ** Tags and indicators *)

Lemma tagEnd_spec fuel b e : 0 <= e <= len b → noSplit b e → (Z.to_nat (len b - e) < fuel)%nat →
  ∃ e', tagEnd fuel b e = Some e' ∧ e <= e' <= len b ∧ noSplit b e'.
Proof.
  revert e. induction fuel as [|fuel IH]; intros e He Hn Hf; [lia|]. simpl.
  assert (Hset : ∀ l i, inSet l (at_ b i) = true → (∀ x, existsb (Z.eqb x) l = true → x ≠ CR) →
    0 <= i < len b ∧ noSplit b (i + 1)).
  { intros l i Hin Hl. destruct (at_ b i) as [c|] eqn:Ec; [|done]. pose proof (at_Some_range _ _ _ Ec).
    split; [done|]. eapply noSplit_prev; [by replace (i + 1 - 1) with i by lia|]. by apply Hl. }
  destruct (inSet tagChars (at_ b e)) eqn:E1.
  - destruct (Hset _ _ E1) as [Hr Hns]; [by intros x Hx ->|].
    destruct (IH (e + 1)) as (e' & ? & ? & ?); [lia|done|lia|]. exists e'. split_and!; [done|lia|lia|done].
  - destruct (eqc (at_ b e) (ch "%") && inSet hexDigits (at_ b (e + 1)) && inSet hexDigits (at_ b (e + 2))) eqn:E2.
    + apply andb_true_iff in E2 as [_ E2]. destruct (Hset _ _ E2) as [Hr Hns]; [by intros x Hx ->|].
      replace (e + 2 + 1) with (e + 3) in Hns by lia.
      destruct (IH (e + 3)) as (e' & ? & ? & ?); [lia|done|lia|]. exists e'. split_and!; [done|lia|lia|done].
    + exists e. split_and!; [done|lia|lia|done].
Qed.

Lemma runs_pushTag s : inv s → at_ (buffer s) (pos s) = Some (ch "!") →
  runs pushTag s (λ s' a, moved s s' a ∧ 0 < a).
Proof.
  intros Hi Hc. pose proof (inv_pos _ Hi) as Hp. pose proof (at_Some_range _ _ _ Hc) as Hr.
  unfold pushTag. apply runs_bind, runs_charAt.
  destruct (eqc (at_ (buffer s) (pos s + 1)) (ch "<")) eqn:E1.
  - apply eqc_true in E1. pose proof (at_Some_range _ _ _ E1).
    apply runs_bind, runs_gets, runs_bind, runs_gets.
    set (p := λ c, negb (isEmpty (Some c)) && negb (c =? ch ">")).
    destruct (skipWhile_spec p (buffer s) (pos s + 2)) as (Hsr & _ & _); [lia..|].
    assert (Hns : noSplit (buffer s) (skipWhile p (buffer s) (pos s + 2))).
    { apply skip_noSplit; [lia|by intros c Hpc ->|].
      eapply noSplit_prev; [by replace (pos s + 2 - 1) with (pos s + 1) by lia|done]. }
    eapply runs_weaken; [apply runs_pushToIndex; [done|]|].
    + intros _. destruct (eqc (at_ (buffer s) (skipWhile p (buffer s) (pos s + 2))) (ch ">")) eqn:E2.
      * apply eqc_true in E2. pose proof (at_Some_range _ _ _ E2). rewrite Z.min_l by lia.
        eapply noSplit_prev; [by rewrite Z.add_simpl_r|done].
      * by rewrite Z.min_l by lia.
    + intros s' a [Hm ->]. split; [done|]. case_match; lia.
  - destruct (tagEnd_spec (S (length (buffer s))) (buffer s) (pos s + 1)) as (e & He & Her & Hns).
    { lia. }
    { eapply noSplit_prev; [by rewrite Z.add_simpl_r|done]. }
    { unfold len in *. lia. }
    unfold runs. rewrite He.
    destruct (runs_pushToIndex e false s Hi) as (s' & a & Hrun & Hm & ->).
    { intros _. by rewrite Z.min_l by lia. }
    exists s'. eexists. split; [exact Hrun|]. split; [done|lia].
Qed.

(** An indicator, the blanks after it and the indicators that follow. *)
Lemma runs_thenIndicators (m rec : Lx Z) s : inv s →
  runs m s (λ s' a, moved s s' a ∧ 0 < a) →
  (∀ s', inv s' → buffer s' = buffer s → pos s < pos s' → runs rec s' (λ s'' r, moved s' s'' r ∧ 0 <= r)) →
  runs (bindL m (λ a, bindL (pushSpaces true) (λ b, bindL rec (λ r, retL (a + b + r))))) s
    (λ s' n, moved s s' n ∧ 0 < n).
Proof.
  intros Hi Hm Hrec. apply runs_bind. eapply runs_weaken; [exact Hm|]. intros s1 a [Hm1 Ha]. facts.
  apply runs_bind. eapply runs_weaken; [by apply runs_pushSpaces|]. intros s2 b (Hm2 & Hb & _). facts.
  apply runs_bind. eapply runs_weaken; [apply Hrec; [done|congruence|lia]|].
  intros s3 r [Hm3 Hr]. apply runs_ret. split; [|lia]. eauto with lexer.
Qed.

(** The indicators end; a block indicator followed by a blank, or in a flow
    collection by a flow indicator, is pushed. *)
Lemma runs_pushIndicators fuel s : inv s → (Z.to_nat (len (buffer s) - pos s) < fuel)%nat →
  runs (pushIndicators fuel) s (λ s' a, moved s s' a ∧ 0 <= a ∧
    (∀ c, at_ (buffer s) (pos s) = Some c →
       (c = ch "-" ∨ c = ch "?" ∨ c = ch ":") →
       isEmpty (at_ (buffer s) (pos s + 1)) = true ∨
       (0 < flowLevel s ∧ inSet flowIndicatorChars (at_ (buffer s) (pos s + 1)) = true) → 0 < a)).
Proof.
  revert s. induction fuel as [|fuel IH]; intros s Hi Hf; [lia|]. cbn [pushIndicators].
  pose proof (inv_pos _ Hi) as Hp. apply runs_bind, runs_charAt. rewrite Z.add_0_r.
  assert (Hrec : ∀ s', inv s' → buffer s' = buffer s → pos s < pos s' →
    runs (pushIndicators fuel) s' (λ s'' r, moved s' s'' r ∧ 0 <= r)).
  { intros s' Hi' Hb' Hp'. pose proof (inv_pos _ Hi'). eapply runs_weaken; [apply IH; [done|]|].
    - rewrite Hb' in *. lia.
    - intros s'' r (? & ? & _). done. }
  destruct (eqc (at_ (buffer s) (pos s)) (ch "!")) eqn:E1.
  { apply eqc_true in E1. eapply runs_weaken; [apply runs_thenIndicators; [done|by apply runs_pushTag|done]|].
    intros s' a [? ?]. split_and!; [done|lia|lia]. }
  destruct (eqc (at_ (buffer s) (pos s)) (ch "&")) eqn:E2.
  { apply eqc_true in E2. eapply runs_weaken; [apply runs_thenIndicators; [done| |done]|].
    - eapply runs_weaken; [by apply runs_pushUntil|]. intros s' a (Hm & Ha & Hpos). split; [done|].
      by eapply Hpos.
    - intros s' a [? ?]. split_and!; [done|lia|lia]. }
  destruct (eqc (at_ (buffer s) (pos s)) (ch "-") || eqc (at_ (buffer s) (pos s)) (ch "?") ||
            eqc (at_ (buffer s) (pos s)) (ch ":")) eqn:E3.
  - apply runs_bind, runs_gets, runs_bind, runs_charAt.
    destruct (isEmpty (at_ (buffer s) (pos s + 1)) || _) eqn:E4.
    + assert (Hc : ∃ c, at_ (buffer s) (pos s) = Some c ∧ c ≠ CR).
      { rewrite !orb_true_iff, !eqc_true in E3. destruct E3 as [[E3|E3]|E3]; rewrite E3; by eexists. }
      destruct Hc as (c & Hc & Hncr). apply runs_bind, runs_modify.
      set (s1 := if 0 <? flowLevel s then _ else _).
      assert (Hm1 : moved s s1 0).
      { subst s1. destruct (0 <? flowLevel s); eauto with lexer. }
      facts. eapply runs_weaken; [apply runs_thenIndicators; [done| |]|].
      * eapply runs_weaken; [eapply runs_pushChar; [done| |exact Hncr]|]; [rewrite <- Hc; f_equal; [done|lia]|].
        intros s2 a [? ->]. split; [done|lia].
      * intros s' Hi' Hb' Hp'. apply Hrec; [done|congruence|lia].
      * intros s' n [Hm2 ?]. split_and!; [|lia|lia]. replace n with (0 + n) by lia. eauto with lexer.
    + apply runs_ret. split_and!; [by apply moved_refl|lia|]. intros c _ _ [Hb|[Hl Hb]].
      * by rewrite Hb in E4.
      * rewrite Hb in E4. replace (0 <? flowLevel s) with true in E4 by lia. by rewrite orb_true_r in E4.
  - apply runs_ret. split_and!; [by apply moved_refl|lia|]. intros c Hc Hor. exfalso.
    rewrite Hc in E3. simpl in E3. destruct Hor as [-> | [-> | ->]]; done.
Qed.

Lemma runs_indicators s : inv s →
  runs indicators s (λ s' a, moved s s' a ∧ 0 <= a ∧
    (∀ c, at_ (buffer s) (pos s) = Some c →
       (c = ch "-" ∨ c = ch "?" ∨ c = ch ":") →
       isEmpty (at_ (buffer s) (pos s + 1)) = true ∨
       (0 < flowLevel s ∧ inSet flowIndicatorChars (at_ (buffer s) (pos s + 1)) = true) → 0 < a)).
Proof.
  intros Hi. pose proof (inv_pos _ Hi). unfold indicators, runs. apply runs_pushIndicators; [done|].
  unfold len in *. lia.
Qed.

(** ** Line starts *)

(** The modes the loop goes on with: inside a flow collection or not, and back in
    [stream] only after moving. *)
Inductive goesOn (s s' : Lexer) : option Mode → Prop :=
  | go_stream : pos s < pos s' → flowLevel s' = 0 → goesOn s s' (Some stream)
  | go_doc : flowLevel s' = 0 → goesOn s s' (Some doc)
  | go_flow : 0 < flowLevel s' → goesOn s s' (Some flow).

Definition ends (s s' : Lexer) (r : option Mode) : Prop := later s s' ∧ goesOn s s' r.

(** The same, after moving. *)
Definition progresses (s s' : Lexer) (r : option Mode) : Prop := ends s s' r ∧ pos s < pos s'.

Lemma ends_after s1 s2 s3 r : later s1 s2 → ends s2 s3 r → ends s1 s3 r.
Proof.
  intros H1 (H2 & Hm). split; [by eapply later_trans|].
  destruct H1 as [_ Hp _]. destruct Hm; constructor; lia.
Qed.

Lemma progresses_after s1 s2 s3 r : later s1 s2 → pos s1 < pos s2 → ends s2 s3 r → progresses s1 s3 r.
Proof.
  intros H1 Hlt H2. split; [by eapply ends_after|]. destruct H2 as ([_ ? _] & _). lia.
Qed.

(** Between the mode and the flow level. *)
Lemma goesOn_level s s' : inv s' → goesOn s s' (Some (if flowLevel s' =? 0 then doc else flow)).
Proof. intros Hi. pose proof (inv_level _ Hi). destruct (_ =? 0) eqn:E; zbool; constructor; lia. Qed.

(** Moved forward by some amount. *)
Definition advances (s s' : Lexer) : Prop := ∃ n, moved s s' n.

Lemma runs_parseBlockStart fuel s : inv s → (Z.to_nat (len (buffer s) - pos s) < fuel)%nat →
  runs (parseBlockStart fuel) s (λ s' r, advances s s' ∧ r = Some doc).
Proof.
  revert s. induction fuel as [|fuel IH]; intros s Hi Hf; [lia|]. cbn [parseBlockStart].
  pose proof (inv_pos _ Hi) as Hp. apply runs_bind, runs_charAt, runs_bind, runs_gets, runs_bind, runs_gets.
  rewrite Z.add_0_r, (inv_end _ Hi). set (t := secondChar _).
  replace (match t with None => negb true | Some _ => false end) with false by (by destruct t).
  destruct ((eqc _ _ || eqc _ _ || eqc _ _) && isEmpty t) eqn:E; [|apply runs_ret; split; [eexists; by apply moved_refl|done]].
  apply andb_true_iff in E as [E _]. rewrite !orb_true_iff, !eqc_true in E.
  assert (Hc : ∃ c, at_ (buffer s) (pos s) = Some c ∧ c ≠ CR).
  { destruct E as [[E|E]|E]; rewrite E; by eexists. }
  destruct Hc as (c & Hc & Hncr). pose proof (at_Some_range _ _ _ Hc).
  apply runs_bind. eapply runs_weaken; [apply runs_pushCount; [done|]|].
  { intros _. split; [lia|]. eapply noSplit_prev; [|exact Hncr]. rewrite <- Hc. f_equal. lia. }
  intros s1 a [Hm1 ->]. apply runs_bind. eapply runs_weaken; [apply runs_pushSpaces; eauto with lexer|].
  intros s2 b (Hm2 & Hb & _). apply runs_bind, runs_modify.
  pose proof (moved_indent s2 (indentValue s2 + (Z.max 0 1 + b)) (indentValue s2 + 1) (moved_inv _ _ _ Hm2)) as Hm3.
  set (s3 := with_indent _ _ s2) in *.
  pose proof (moved_trans _ _ _ _ _ Hm1 (moved_trans _ _ _ _ _ Hm2 Hm3)) as Hm.
  eapply runs_weaken; [apply IH|].
  - eauto with lexer.
  - pose proof (inv_pos _ (moved_inv _ _ _ Hm)) as Hp3. rewrite (moved_buffer _ _ _ Hm) in *.
    pose proof (moved_pos _ _ _ Hm). lia.
  - intros s' r [[n Hl] ->]. split; [|done]. eexists. by eapply moved_trans.
Qed.

Lemma runs_blockStart s : inv s → runs blockStart s (λ s' r, advances s s' ∧ r = Some doc).
Proof.
  intros Hi. pose proof (inv_pos _ Hi). unfold blockStart, runs. apply runs_parseBlockStart; [done|].
  unfold len in *. lia.
Qed.

Lemma runs_lineStart s : inv s → flowLevel s = 0 → runs parseLineStart s (ends s).
Proof.
  intros Hi Hlev. pose proof (inv_pos _ Hi) as Hp. unfold parseLineStart.
  apply runs_bind, runs_charAt, runs_bind, runs_gets. rewrite (inv_end _ Hi), Z.add_0_r.
  set (e := at_ (buffer s) (pos s)).
  replace (match e with None => negb true | Some _ => false end) with false by (by destruct e).
  cbn zeta. apply runs_bind, runs_gets. rewrite andb_false_r. cbn [andb].
  apply runs_bind, runs_gets, runs_bind, runs_charAt.
  destruct ((eqc e _ || eqc e _) && _ && _) eqn:E.
  - apply andb_true_iff in E as [E _]. apply andb_true_iff in E as [_ E].
    assert (H3 : ∃ c, at_ (buffer s) (pos s + 2) = Some c ∧ c ≠ CR).
    { rewrite orb_true_iff, !bool_decide_eq_true in E.
      rewrite <- (at_slice _ (pos s) (pos s + 3)) by lia. destruct E as [E|E]; rewrite E; by eexists. }
    destruct H3 as (c & Hc & Hncr). pose proof (at_Some_range _ _ _ Hc).
    apply runs_bind. eapply runs_weaken; [apply runs_pushCount; [done|]|].
    { intros _. split; [lia|]. eapply noSplit_prev; [|exact Hncr]. rewrite <- Hc. f_equal. lia. }
    intros s1 a [Hm1 ->]. apply runs_bind, runs_modify, runs_ret.
    pose proof (moved_trans _ _ _ _ _ Hm1 (moved_indent s1 0 0 (moved_inv _ _ _ Hm1))) as Hm.
    split; [apply Hm|]. pose proof (moved_pos _ _ _ Hm). pose proof (moved_level _ _ _ Hm).
    case_bool_decide; constructor; lia.
  - apply runs_bind. eapply runs_weaken; [by apply runs_pushSpaces|]. intros s1 n (Hm1 & _).
    apply runs_bind, runs_charAt, runs_bind, runs_modify. set (s2 := with_indent _ _ s1).
    assert (Hm2 : moved s1 s2 0) by (apply moved_indent; eauto with lexer).
    eapply runs_weaken; [apply runs_blockStart; eauto with lexer|].
    intros s' r [[k Hm3] ->]. pose proof (moved_trans _ _ _ _ _ (moved_trans _ _ _ _ _ Hm1 Hm2) Hm3) as Hm.
    split; [apply Hm|]. constructor. by rewrite (moved_level _ _ _ Hm).
Qed.

(** ** Quoted scalars *)

Lemma continueScalar_ge s e : e <= continueScalar s e ∨ continueScalar s e = -1.
Proof.
  unfold continueScalar. pose proof (skipWhile_ge isSpace (buffer s) e).
  repeat case_match; zbool; lia.
Qed.

(** What the two searches for the closing quote return. *)
Definition quoteAt (b : jstr) (lo q t : Z) : Prop := t = -1 ∨ (lo <= t < len b ∧ at_ b t = Some q).

Lemma quoteAt_index b q lo i : 0 <= lo → lo <= i → quoteAt b lo q (indexOf b q i).
Proof. intros. destruct (indexOf_spec b q i) as [->|[? ?]]; [lia|by left|right]. split; [lia|done]. Qed.

Lemma singleEnd_spec fuel b lo t : 0 <= lo → quoteAt b lo (ch "'") t →
  (t ≠ -1 → (Z.to_nat (len b - t) < fuel)%nat) → (0 < fuel)%nat →
  ∃ t', singleEnd fuel b t = Some t' ∧ quoteAt b lo (ch "'") t'.
Proof.
  intros Hlo. revert t. induction fuel as [|fuel IH]; intros t Ht Hf Hpos; [lia|]. simpl.
  destruct (negb (t =? -1) && _) eqn:E; [|by exists t].
  apply andb_true_iff in E as [E1 E2]. zbool. apply eqc_true, at_Some_range in E2.
  destruct Ht as [?|[Hr _]]; [done|].
  assert (Hq : quoteAt b (t + 2) (ch "'") (indexOf b (ch "'") (t + 2))) by (apply quoteAt_index; lia).
  apply IH; [|intros Hne; destruct Hq as [?|[? _]]; [done|lia]|lia].
  destruct Hq as [?|[? ?]]; [by left|right]. split; [lia|done].
Qed.

Lemma doubleEnd_spec fuel b lo t : 0 <= lo → quoteAt b lo DQ t →
  (t ≠ -1 → (Z.to_nat (len b - t) < fuel)%nat) → (0 < fuel)%nat →
  ∃ t', doubleEnd fuel b t = Some t' ∧ quoteAt b lo DQ t'.
Proof.
  intros Hlo. revert t. induction fuel as [|fuel IH]; intros t Ht Hf Hpos; [lia|]. cbn [doubleEnd].
  destruct (t =? -1) eqn:E1; [by exists t|]. zbool.
  destruct (_ =? 0); [by exists t|]. destruct Ht as [?|[Hr _]]; [done|].
  assert (Hq : quoteAt b (t + 1) DQ (indexOf b DQ (t + 1))) by (apply quoteAt_index; lia).
  apply IH; [|intros Hne; destruct Hq as [?|[? _]]; [done|lia]|].
  - destruct Hq as [?|[? ?]]; [by left|right]. split; [lia|done].
  - specialize (Hf E1). lia.
Qed.

Lemma quotedBreak_spec fuel s n lo r : 0 <= lo → quoteAt n lo LF r →
  (r ≠ -1 → (Z.to_nat (len n - r) < fuel)%nat) → (0 < fuel)%nat →
  ∃ r', quotedBreak fuel s n r = Some r' ∧ quoteAt n lo LF r'.
Proof.
  intros Hlo. revert r. induction fuel as [|fuel IH]; intros r Hr Hf Hpos; [lia|]. cbn [quotedBreak].
  destruct (r =? -1) eqn:E1; [by exists r|]. zbool. cbn zeta.
  destruct (continueScalar s (r + 1) =? -1) eqn:E2; [by exists r|]. zbool.
  destruct (continueScalar_ge s (r + 1)) as [Hge|?]; [|done]. destruct Hr as [?|[Hr _]]; [done|].
  set (e := continueScalar s (r + 1)) in *.
  assert (Hq : quoteAt n e LF (indexOf n LF e)) by (apply quoteAt_index; lia).
  apply IH; [|intros Hne; destruct Hq as [?|[? _]]; [done|lia]|].
  - destruct Hq as [?|[? ?]]; [by left|right]. split; [lia|done].
  - specialize (Hf E1). lia.
Qed.

(** Where the push of a quoted scalar stops. *)
Lemma quoted_stop b p q t r : (q = DQ ∨ q = ch "'") → at_ b p = Some q →
  quoteAt b (p + 1) q t → quoteAt (substring b 0 t) p LF r →
  let t' := if r =? -1 then t else r - (if eqc (at_ (substring b 0 t) (r - 1)) CR then 2 else 1) in
  let t'' := if t' =? -1 then len b else t' in
  p < Z.min (t'' + 1) (len b) ∧ noSplit b (Z.min (t'' + 1) (len b)).
Proof.
  intros Hq Hp Ht Hr. cbn zeta. pose proof (at_Some_range _ _ _ Hp) as Hpr.
  assert (Hqc : q ≠ CR ∧ q ≠ LF) by (destruct Hq as [-> | ->]; done).
  destruct (r =? -1) eqn:Er; zbool.
  - destruct Ht as [->|[Htr Htq]]; [simpl; split; [lia|]; apply noSplit_end; lia|].
    replace (t =? -1) with false by lia. split; [lia|]. rewrite Z.min_l by lia.
    eapply noSplit_prev; [by rewrite Z.add_simpl_r|]. apply Hqc.
  - destruct Hr as [?|[Hrr Hrl]]; [done|].
    destruct Ht as [->|[Htr Htq]].
    { unfold substring in Hrr. simpl in Hrr. unfold slice, len in Hrr. simpl in Hrr. lia. }
    assert (Hsub : substring b 0 t = slice b 0 t) by (unfold substring; f_equal; lia).
    rewrite Hsub in *. rewrite slice_len in Hrr by lia.
    rewrite at_slice in Hrl by lia. rewrite Z.add_0_l in Hrl.
    assert (r ≠ p) by (intros ->; rewrite Hp in Hrl; injection Hrl as ->; by destruct Hqc).
    rewrite at_slice by lia. rewrite Z.add_0_l.
    destruct (eqc (at_ b (r - 1)) CR) eqn:Ec.
    + apply eqc_true in Ec. assert (r - 1 ≠ p).
      { intros Heq. rewrite Heq, Hp in Ec. injection Ec as ->. by destruct Hqc. }
      replace (r - 2 =? -1) with false by lia. split; [lia|]. rewrite Z.min_l by lia.
      apply noSplit_here. replace (r - 2 + 1) with (r - 1) by lia. by rewrite Ec.
    + replace (r - 1 =? -1) with false by lia. split; [lia|]. rewrite Z.min_l by lia.
      replace (r - 1 + 1) with r by lia. intros Hcr. by rewrite (proj2 (eqc_true _ _) Hcr) in Ec.
Qed.

Lemma runs_quoted s q : inv s → at_ (buffer s) (pos s) = Some q → (q = DQ ∨ q = ch "'") →
  runs parseQuotedScalar s (progresses s).
Proof.
  intros Hi Hc Hq. pose proof (inv_pos _ Hi) as Hp. unfold runs, parseQuotedScalar. cbn zeta. rewrite Hc.
  assert (Ht0 : quoteAt (buffer s) (pos s + 1) q (indexOf (buffer s) q (pos s + 1))) by (apply quoteAt_index; lia).
  assert (Hend : ∃ t, (if eqc (Some q) (ch "'")
      then singleEnd (S (S (length (buffer s)))) (buffer s) (indexOf (buffer s) q (pos s + 1))
      else doubleEnd (S (S (length (buffer s)))) (buffer s) (indexOf (buffer s) q (pos s + 1))) = Some t ∧
    quoteAt (buffer s) (pos s + 1) q t).
  { assert (Hf : indexOf (buffer s) q (pos s + 1) ≠ -1 →
      (Z.to_nat (len (buffer s) - indexOf (buffer s) q (pos s + 1)) < S (S (length (buffer s))))%nat).
    { intros Hne. destruct Ht0 as [?|[? _]]; [done|]. unfold len in *. lia. }
    destruct Hq as [-> | ->].
    - apply doubleEnd_spec; [lia|done|done|lia].
    - apply singleEnd_spec; [lia|done|done|lia]. }
  destruct Hend as (t & -> & Ht).
  assert (Hr0 : quoteAt (substring (buffer s) 0 t) (pos s) LF (indexOf (substring (buffer s) 0 t) LF (pos s)))
    by (apply quoteAt_index; lia).
  destruct (quotedBreak_spec (S (S (length (buffer s)))) s (substring (buffer s) 0 t) (pos s)
    (indexOf (substring (buffer s) 0 t) LF (pos s))) as (r & -> & Hr); [lia|done| |lia|].
  { intros Hne. destruct Hr0 as [?|[? _]]; [done|].
    assert (len (substring (buffer s) 0 t) <= len (buffer s)).
    { unfold substring, slice, len. rewrite length_take, length_drop. lia. }
    unfold len in *. lia. }
  destruct (quoted_stop _ _ _ _ _ Hq Hc Ht Hr) as [Hlt Hns].
  set (t' := if r =? -1 then t else _) in *. rewrite (inv_end _ Hi), andb_false_r.
  set (t'' := if t' =? -1 then len (buffer s) else t') in *.
  change (runs (bindL (pushToIndex (t'' + 1) false) (λ _, bindL (gets flowLevel)
    (λ l, retL (Some (if l =? 0 then doc else flow))))) s (progresses s)).
  apply runs_bind. eapply runs_weaken; [apply runs_pushToIndex; [done|intros _; exact Hns]|].
  intros s1 a [Hm ->]. apply runs_bind, runs_gets, runs_ret. pose proof (moved_pos _ _ _ Hm).
  split; [|lia]. split; [apply Hm|]. apply goesOn_level. eauto with lexer.
Qed.

(** ** Plain scalars *)

Lemma isEmpty_false c : isEmpty (Some c) = false → c ≠ SP ∧ c ≠ LF ∧ c ≠ CR ∧ c ≠ TAB.
Proof. simpl. intros Hc. repeat split; intros ->; done. Qed.

(** The scan ends, does not move its mark back, and leaves it where no line break
    is split. *)
Lemma plainScan_spec fuel s fl t n : 0 <= t + 1 → t <= n → t + 1 <= len (buffer s) → -1 <= n →
  noSplit (buffer s) (t + 1) → (Z.to_nat (len (buffer s) - n) < fuel)%nat →
  ∃ t' r, plainScan fuel s fl t n = Some (t', r) ∧ t <= t' ∧ t' + 1 <= len (buffer s) ∧
    noSplit (buffer s) (t' + 1).
Proof.
  revert t n. induction fuel as [|fuel IH]; intros t n Ht Htn Htl Hn Hns Hf; [lia|]. cbn [plainScan].
  cbn zeta. destruct (at_ (buffer s) (n + 1)) as [r|] eqn:Er; [|by exists t, None].
  pose proof (at_Some_range _ _ _ Er) as Hr.
  (* going on with a mark at the character just read, when it is not a CR *)
  assert (Hgo : r ≠ CR → ∃ t' r', plainScan fuel s fl (n + 1) (n + 1) = Some (t', r') ∧ t <= t' ∧
    t' + 1 <= len (buffer s) ∧ noSplit (buffer s) (t' + 1)).
  { intros Hncr. destruct (IH (n + 1) (n + 1)) as (t' & r' & ? & ? & ? & ?); try lia.
    - eapply noSplit_prev; [|exact Hncr]. rewrite <- Er. f_equal. lia.
    - exists t', r'. split_and!; [done|lia|done|done]. }
  destruct (r =? ch ":") eqn:Ecolon.
  { apply Z.eqb_eq in Ecolon. destruct (isEmpty _ || _); [by eexists t, _|]. apply Hgo. by rewrite Ecolon. }
  destruct (isEmpty (Some r)) eqn:Eempty.
  - set (crlf := (r =? CR) && eqc (at_ (buffer s) (n + 1 + 1)) LF).
    set (n' := if crlf then n + 1 + 1 else n + 1).
    set (t' := if (r =? CR) && negb crlf then n + 1 else t).
    assert (Hn' : n + 1 <= n') by (subst n'; destruct crlf; lia).
    assert (Ht' : t <= t' ∧ t' <= n + 1 ∧ t' + 1 <= len (buffer s) ∧ noSplit (buffer s) (t' + 1)).
    { subst t'. destruct ((r =? CR) && negb crlf) eqn:Ecr; [|split_and!; [lia|lia|lia|done]].
      split_and!; [lia|lia|lia|]. apply noSplit_here. intros Hlf.
      apply andb_true_iff in Ecr as [Ecr Eneg]. subst crlf.
      rewrite Ecr, (proj2 (eqc_true _ _) Hlf) in Eneg. done. }
    destruct Ht' as (H1 & H2 & H3 & H4).
    destruct (eqc _ _ || _); [by eexists t', _|].
    destruct ((if crlf then LF else r) =? LF).
    + destruct (continueScalar s (n' + 1) =? -1); [by eexists t', _|].
      destruct (IH t' (Z.max n' (continueScalar s (n' + 1) - 2))) as (t2 & r2 & ? & ? & ? & ?); try lia; [done|].
      exists t2, r2. split_and!; [done|lia|done|done].
    + destruct (IH t' n') as (t2 & r2 & ? & ? & ? & ?); try lia; [done|].
      exists t2, r2. split_and!; [done|lia|done|done].
  - apply isEmpty_false in Eempty as (_ & _ & Hncr & _).
    destruct (fl && _); [by eexists t, _|]. by apply Hgo.
Qed.

(** The position is at a character a plain scalar can start with. *)
Definition plainStart (s : Lexer) : Prop := ∃ c, at_ (buffer s) (pos s) = Some c ∧
  c ≠ SP ∧ c ≠ TAB ∧ c ≠ LF ∧ (c = CR → at_ (buffer s) (pos s + 1) ≠ Some LF) ∧
  (c = ch ":" → isEmpty (at_ (buffer s) (pos s + 1)) = false ∧
     (0 < flowLevel s → inSet flowIndicatorChars (at_ (buffer s) (pos s + 1)) = false)) ∧
  (0 < flowLevel s → inSet flowIndicatorChars (Some c) = false).

Lemma plainScan_start fuel s : inv s → plainStart s → (Z.to_nat (len (buffer s) - (pos s - 1)) < fuel)%nat →
  ∃ t r, plainScan fuel s (0 <? flowLevel s) (pos s - 1) (pos s - 1) = Some (t, r) ∧ pos s <= t.
Proof.
  intros Hi (c & Hc & Hsp & Htab & Hlf & Hcr & Hcolon & Hind) Hf. pose proof (inv_pos _ Hi) as Hp.
  pose proof (at_Some_range _ _ _ Hc) as Hr. destruct fuel as [|fuel]; [lia|]. cbn [plainScan]. cbn zeta.
  replace (pos s - 1 + 1) with (pos s) by lia. rewrite Hc.
  assert (Hgo : c ≠ CR → ∃ t r, plainScan fuel s (0 <? flowLevel s) (pos s) (pos s) = Some (t, r) ∧ pos s <= t).
  { intros Hncr. destruct (plainScan_spec fuel s (0 <? flowLevel s) (pos s) (pos s)) as (t & r & ? & ? & _);
      try lia; [|by exists t, r].
    eapply noSplit_prev; [|exact Hncr]. rewrite <- Hc. f_equal. lia. }
  destruct (c =? ch ":") eqn:Ecolon.
  { apply Z.eqb_eq in Ecolon. destruct (Hcolon Ecolon) as [He Hi2]. rewrite He. cbn [orb].
    destruct (0 <? flowLevel s) eqn:El; zbool; cbn [andb]; [rewrite Hi2 by lia|];
      apply Hgo; by rewrite Ecolon. }
  destruct (isEmpty (Some c)) eqn:Eempty.
  - assert (Hc' : c = CR).
    { simpl in Eempty. rewrite !orb_true_iff, !Z.eqb_eq in Eempty. naive_solver. }
    subst c. specialize (Hcr eq_refl). rewrite Z.eqb_refl. cbn [andb].
    destruct (eqc (at_ (buffer s) (pos s + 1)) LF) eqn:E2; [by apply eqc_true in E2|]. cbn [negb].
    destruct (eqc _ _ || _); [by eexists _, _|]. change (CR =? LF) with false. cbn iota.
    destruct (plainScan_spec fuel s (0 <? flowLevel s) (pos s) (pos s)) as (t & r & ? & ? & _);
      try lia; [by apply noSplit_here|by exists t, r].
  - apply isEmpty_false in Eempty as (_ & _ & Hncr & _).
    destruct (0 <? flowLevel s) eqn:El; zbool; cbn [andb]; [rewrite Hind by lia|]; by apply Hgo.
Qed.

Lemma runs_plain s : inv s →
  runs parsePlainScalar s (λ s' r, ends s s' r ∧ (plainStart s → pos s < pos s')).
Proof.
  intros Hi. pose proof (inv_pos _ Hi) as Hp. unfold runs, parsePlainScalar. cbn zeta.
  destruct (plainScan_spec (S (S (length (buffer s)))) s (0 <? flowLevel s) (pos s - 1) (pos s - 1))
    as (t & r & Hscan & Ht & Htl & Hns); try lia.
  { replace (pos s - 1 + 1) with (pos s) by lia. apply Hi. }
  { unfold len in *. lia. }
  assert (Hstart : plainStart s → pos s <= t).
  { intros Hst. destruct (plainScan_start (S (S (length (buffer s)))) s Hi Hst) as (t2 & r2 & Hs2 & ?).
    { unfold len in *. lia. }
    rewrite Hscan in Hs2. by injection Hs2 as <- <-. }
  rewrite Hscan, (inv_end _ Hi).
  replace (match r with None => negb true | Some _ => false end) with false by (by destruct r).
  change (runs (bindL (mark scalar_mark) (λ _, bindL (pushToIndex (t + 1) true) (λ _, retL (Some (if 0 <? flowLevel s then flow else doc))))) s
    (λ s' r, ends s s' r ∧ (plainStart s → pos s < pos s'))).
  apply runs_bind, runs_modify, runs_bind.
  assert (Hm1 : moved s (with_pos (pos s) [scalar_mark] s) 0) by (by apply moved_mark).
  eapply runs_weaken; [apply runs_pushToIndex; [eauto with lexer|]|].
  { intros _. simpl. by rewrite Z.min_l by lia. }
  intros s1 a [Hm2 Ha]. apply runs_ret. pose proof (moved_trans _ _ _ _ _ Hm1 Hm2) as Hm.
  pose proof (moved_pos _ _ _ Hm). simpl in Ha. split.
  - split; [apply Hm|]. pose proof (moved_level _ _ _ Hm). pose proof (inv_level _ Hi).
    destruct (0 <? flowLevel s) eqn:E; zbool; constructor; lia.
  - intros Hst. specialize (Hstart Hst). lia.
Qed.

(** ** Block scalars *)

Lemma headerScan_spec fuel b e i k : 0 <= e → (Z.to_nat (len b - e) < fuel)%nat →
  ∃ i' k', headerScan fuel b e i k = Some (i', k').
Proof.
  revert e i k. induction fuel as [|fuel IH]; intros e i k He Hf; [lia|]. cbn [headerScan]. cbn zeta.
  destruct (at_ b e) as [c|] eqn:Ec; [|by eexists _, _]. pose proof (at_Some_range _ _ _ Ec).
  destruct (c =? ch "+"); [apply IH; lia|]. destruct (_ && _); [apply IH; lia|].
  destruct (c =? ch "-"); [apply IH; lia|]. by eexists _, _.
Qed.

Lemma runs_header s c : inv s → at_ (buffer s) (pos s) = Some c → (c = ch "|" ∨ c = ch ">") →
  runs parseBlockScalarHeader s (λ s' a, moved s s' a ∧ 0 < a).
Proof.
  intros Hi Hc Hor. pose proof (inv_pos _ Hi) as Hp. unfold parseBlockScalarHeader. apply runs_bind.
  destruct (headerScan_spec (S (length (buffer s))) (buffer s) (pos s + 1) (-1) false) as (i & k & Hs).
  { lia. }
  { pose proof (at_Some_range _ _ _ Hc). unfold len in *. lia. }
  exists (with_block i k s), tt. split; [by rewrite Hs|].
  pose proof (moved_block s i k Hi) as Hm.
  eapply runs_weaken; [apply runs_pushUntil; [eauto with lexer|done]|].
  intros s' a (Hm2 & Ha & Hpos). split.
  - replace a with (0 + a) by lia. by eapply moved_trans.
  - apply (Hpos c); [done|]. by destruct Hor as [-> | ->].
Qed.

(** A line-break index or the position before the scalar. *)
Definition breakAt (b : jstr) (p e : Z) : Prop := e = p - 1 ∨ (p <= e < len b ∧ at_ b e = Some LF).

Lemma blockLead_spec fuel s r e t : atEnd s = true → pos s <= r → 0 <= pos s → breakAt (buffer s) (pos s) e →
  (Z.to_nat (len (buffer s) - r) < fuel)%nat →
  ∃ e' t' n, blockLead fuel s r e t = Some (e', t', Some n) ∧ breakAt (buffer s) (pos s) e'.
Proof.
  intros Hend. revert r e t. induction fuel as [|fuel IH]; intros r e t Hr Hp He Hf; [lia|]. cbn [blockLead].
  destruct (at_ (buffer s) r) as [c|] eqn:Ec; [|by eexists _, _, _].
  pose proof (at_Some_range _ _ _ Ec).
  destruct (c =? SP); [apply IH; [lia|done|done|lia]|].
  destruct (c =? LF) eqn:Elf.
  { apply Z.eqb_eq in Elf as ->. apply IH; [lia|done| |lia]. right. split; [lia|done]. }
  destruct (c =? CR); [|by eexists _, _, _]. cbn zeta. rewrite Hend.
  destruct (at_ (buffer s) (r + 1)) as [d|]; [|by eexists _, _, _].
  destruct (d =? LF); [apply IH; [lia|done|done|lia]|by eexists _, _, _].
Qed.

Lemma blockBody_spec fuel s p e : 0 <= p → breakAt (buffer s) p e →
  (Z.to_nat (len (buffer s) - e) < fuel)%nat →
  ∃ e', blockBody fuel s e = Some e' ∧ (e' = -1 ∨ breakAt (buffer s) p e').
Proof.
  intros Hp. revert e. induction fuel as [|fuel IH]; intros e He Hf; [lia|]. cbn [blockBody]. cbn zeta.
  destruct (continueScalar s (e + 1) =? -1) eqn:E1; [eexists; split; [done|by right]|]. zbool.
  destruct (continueScalar_ge s (e + 1)) as [Hge|?]; [|done].
  set (t := continueScalar s (e + 1)) in *.
  assert (Hlo : p - 1 <= e) by (destruct He as [->|[? _]]; lia).
  destruct (indexOf_spec (buffer s) LF t) as [->|[Hr Hlf]]; [lia|by exists (-1); split; [|left]|].
  destruct (indexOf (buffer s) LF t =? -1) eqn:E2; zbool; [lia|].
  apply IH; [right; split; [lia|done]|lia].
Qed.

Lemma spacesDown_le fuel b n : spacesDown fuel b n <= n.
Proof. revert n. induction fuel as [|fuel IH]; intros n; simpl; [lia|]. case_match; [|lia]. specialize (IH (n - 1)). lia. Qed.

Lemma blockTrim_spec fuel b p t e : 0 <= p → (breakAt b p e ∨ e = len b) →
  (Z.to_nat (e + 1) < fuel)%nat →
  ∃ e', blockTrim fuel b p t e = Some e' ∧ (breakAt b p e' ∨ e' = len b).
Proof.
  intros Hp. revert e. induction fuel as [|fuel IH]; intros e He Hf; [lia|]. cbn [blockTrim]. cbn zeta.
  set (n0 := if eqc (at_ b (e - 1)) CR then e - 2 else e - 1).
  pose proof (spacesDown_le (length b) b n0) as Hle. set (n := spacesDown (length b) b n0) in *.
  assert (n0 <= e - 1) by (subst n0; destruct (eqc _ _); lia).
  destruct (eqc (at_ b n) LF && (p <=? n) && (n0 <? n + 1 + t)) eqn:E; [|by exists e].
  apply andb_true_iff in E as [E _]. apply andb_true_iff in E as [E1 E2]. zbool. apply eqc_true in E1.
  pose proof (at_Some_range _ _ _ E1). apply IH; [left; right; split; [lia|done]|].
  assert (0 <= e) by lia. lia.
Qed.

Lemma runs_blockEnd fuel t e s : inv s → (breakAt (buffer s) (pos s) e ∨ e = len (buffer s)) →
  (S (length (buffer s)) < fuel)%nat → flowLevel s = 0 → runs (blockScalarEnd fuel t e) s (ends s).
Proof.
  intros Hi He Hf Hlev. pose proof (inv_pos _ Hi) as Hp. unfold runs, blockScalarEnd. cbn zeta.
  set (b := buffer s) in *. set (r := skipWhile isSpace b (e + 1)).
  assert (Hstop : ∃ e', (if eqc (at_ b r) TAB
      then Some (skipWhile (λ c, isBlank c || (c =? CR) || (c =? LF)) b r - 1)
      else if blockScalarKeep s then Some e else blockTrim fuel b (pos s) t e) = Some e' ∧
    (pos s < e' + 1 → noSplit b (Z.min (e' + 1) (len b)))).
  { assert (Hok : ∀ x, breakAt b (pos s) x ∨ x = len b → pos s < x + 1 → noSplit b (Z.min (x + 1) (len b))).
    { intros x [[-> | [Hx Hlf]] | ->] Hlt; [lia| |apply noSplit_end; lia]. rewrite Z.min_l by lia.
      eapply noSplit_prev; [by rewrite Z.add_simpl_r|done]. }
    destruct (eqc (at_ b r) TAB) eqn:Et.
    - eexists. split; [reflexivity|]. intros _. apply eqc_true, at_Some_range in Et.
      destruct (skipWhile_spec (λ c, isBlank c || (c =? CR) || (c =? LF)) b r) as (Hr2 & _ & Hs); [lia..|].
      set (r2 := skipWhile _ b r) in *. replace (r2 - 1 + 1) with r2 by lia. rewrite Z.min_l by lia.
      apply noSplit_here. intros Hlf. by specialize (Hs _ Hlf).
    - destruct (blockScalarKeep s); [exists e; split; [done|by apply Hok]|].
      destruct (blockTrim_spec fuel b (pos s) t e) as (e' & Hb & He'); [lia|done| |].
      { destruct He as [[-> | [? _]] | ->]; unfold len in *; lia. }
      exists e'. split; [done|by apply Hok]. }
  destruct Hstop as (e' & -> & Hns).
  change (runs (bindL (mark scalar_mark) (λ _, bindL (pushToIndex (e' + 1) true) (λ _, parseLineStart))) s (ends s)).
  apply runs_bind, runs_modify, runs_bind.
  assert (Hm1 : moved s (with_pos (pos s) [scalar_mark] s) 0) by (by apply moved_mark).
  eapply runs_weaken; [apply runs_pushToIndex; [eauto with lexer|exact Hns]|].
  intros s1 a [Hm2 _]. pose proof (moved_trans _ _ _ _ _ Hm1 Hm2) as Hm.
  eapply runs_weaken; [apply runs_lineStart; [eauto with lexer|by rewrite (moved_level _ _ _ Hm)]|].
  intros s' m Hend. eapply ends_after; [apply Hm|done].
Qed.

Lemma runs_blockScalar s : inv s → flowLevel s = 0 → runs parseBlockScalar s (ends s).
Proof.
  intros Hi Hlev. pose proof (inv_pos _ Hi) as Hp. unfold runs, parseBlockScalar. cbn zeta.
  destruct (blockLead_spec (S (S (length (buffer s)))) s (pos s) (pos s - 1) 0) as (e & t & n & -> & He).
  { apply Hi. } { lia. } { lia. } { by left. } { unfold len in *. lia. }
  rewrite (inv_end _ Hi).
  replace (match n with None => negb true | Some _ => false end) with false by (by destruct n).
  destruct (indentNext s <=? t).
  - set (s1 := with_indent _ _ s). assert (Hm : moved s s1 0) by (by apply moved_indent).
    assert (Hlo : pos s - 1 <= e) by (destruct He as [->|[? _]]; lia).
    destruct (blockBody_spec (S (S (length (buffer s)))) s1 (pos s) e) as (e' & -> & He').
    { lia. } { done. } { simpl. unfold len in *. lia. }
    change (atEnd s1) with (atEnd s). rewrite (inv_end _ Hi).
    assert (Hfin : ∀ x, (breakAt (buffer s1) (pos s1) x ∨ x = len (buffer s1)) →
      runs (blockScalarEnd (S (S (length (buffer s)))) t x) s1 (ends s)).
    { intros x Hx. eapply runs_weaken; [apply runs_blockEnd; [eauto with lexer|done|simpl; lia|done]|].
      intros s' r Hr. eapply ends_after; [apply Hm|done]. }
    destruct (e' =? -1) eqn:Ee; zbool; apply Hfin; [by right|]. destruct He' as [?|?]; [done|by left].
  - apply runs_blockEnd; [done|by left|lia|done].
Qed.

(** ** Lines *)

Section line.
Context (b : jstr) (p le : Z) (l : jstr).
Hypothesis Hp : 0 <= p.
Hypothesis Hl : lineAt b p le l.

Lemma line_len : len l = le - p.
Proof. destruct Hl as [? -> ? ? ?]. apply slice_len; lia. Qed.

Lemma line_char t c : at_ l t = Some c → p <= p + t < le ∧ at_ b (p + t) = Some c.
Proof.
  intros Hc. pose proof (at_Some_range _ _ _ Hc) as Hr. rewrite line_len in Hr. split; [lia|].
  destruct Hl as [? -> ? ? ?]. rewrite at_slice in Hc by lia. done.
Qed.

Lemma line_over t : 0 <= t → at_ l t = None → le <= p + t.
Proof. intros Ht Hn%at_None_range; [|done]. rewrite line_len in Hn. lia. Qed.

Lemma line_inner k : p <= k <= le → noSplit b k.
Proof.
  intros Hk. destruct (decide (k = le)) as [->|]; [by apply (line_noSplit _ _ _ _ Hl)|].
  apply noSplit_here. apply (line_noLF _ _ _ _ Hl). lia.
Qed.

(** A CR inside the line is not the start of a line break. *)
Lemma line_cr k : p <= k < le → at_ b k = Some CR → at_ b (k + 1) ≠ Some LF.
Proof.
  intros Hk Hc. destruct (decide (k + 1 = le)) as [E|].
  - rewrite E. apply (line_noSplit _ _ _ _ Hl). by rewrite <- E, Z.add_simpl_r.
  - apply (line_noLF _ _ _ _ Hl). lia.
Qed.
End line.

(** At the end of a line that is not the end of the buffer there is a line break
    to push. *)
Lemma runs_newlineAt s p le l : inv s → lineAt (buffer s) p le l → pos s = le → le < len (buffer s) →
  runs pushNewline s (λ s' a, moved s s' a ∧ 0 < a).
Proof.
  intros Hi Hl Hle Hlt. eapply runs_weaken; [by apply runs_pushNewline|].
  intros s' a (Hm & Ha & H1 & H2). split; [done|]. rewrite Hle in *.
  destruct (line_stop _ _ _ _ Hl) as [?|[?|[? ?]]]; [lia|auto|auto].
Qed.

(** The push of the rest of the line, [n] being what was pushed of it. *)
Lemma runs_pushRest s p le l n : inv s → 0 <= p → lineAt (buffer s) p le l → pos s = p + n → 0 <= n →
  runs (pushCount (len l - n)) s (λ s' a, moved s s' a ∧ a = Z.max 0 (le - pos s)).
Proof.
  intros Hi Hp Hl Hpos Hn. rewrite (line_len _ _ _ _ Hp Hl).
  eapply runs_weaken; [apply runs_pushCount; [done|]|].
  - pose proof (line_range _ _ _ _ Hl). intros Hlt. split; [lia|]. eapply line_inner; [exact Hl|lia].
  - intros s' a [? ->]. split; [done|lia].
Qed.

(** ** The stream *)

Lemma dropBlanks_range fuel e t : 0 <= t → 0 <= dropBlanks fuel e t <= t.
Proof.
  revert t. induction fuel as [|fuel IH]; intros t Ht; simpl; [lia|].
  destruct (eqc (at_ e (t - 1)) SP || eqc (at_ e (t - 1)) TAB) eqn:E; [|lia].
  assert (0 <= t - 1).
  { apply orb_true_iff in E as [E|E]; apply eqc_true, at_Some_range in E; lia. }
  specialize (IH (t - 1)). lia.
Qed.

Lemma commentStart_range e prev i k : commentStart e prev i = Some k →
  i - 1 <= k < i + len e ∧ (prev = None → i <= k).
Proof.
  revert prev i. unfold len. induction e as [|c e IH]; intros prev i; simpl; [done|].
  destruct ((c =? ch "#") && _) eqn:E.
  - intros [= <-]. split; [lia|]. intros ->. by rewrite andb_false_r in E.
  - intros H%IH. destruct H as [H _]. split; lia.
Qed.

Lemma directiveLength_range e : 0 <= directiveLength e <= len e.
Proof.
  unfold directiveLength. pose proof (len_nonneg e).
  assert (H0 : 0 <= default (len e) (commentStart e None 0) <= len e).
  { destruct (commentStart e None 0) as [k|] eqn:E; simpl; [|lia].
    apply commentStart_range in E as [? H1]. specialize (H1 eq_refl). lia. }
  pose proof (dropBlanks_range (length e) e (default (len e) (commentStart e None 0))). lia.
Qed.

Lemma head_at (l : jstr) : head l = at_ l 0.
Proof. by destruct l. Qed.

(** Dropping the character a push took from the line. *)
Lemma line_tail b p le l : 0 <= p → p < le → lineAt b p le l → lineAt b (p + 1) le (drop 1 l).
Proof.
  intros Hp Hlt [Hr -> Hno Hs Hst]. constructor; [lia| |intros; apply Hno; lia|done|done].
  unfold slice. rewrite skipn_firstn_comm, drop_drop. f_equal; [lia|]. f_equal. lia.
Qed.

Lemma runs_streamLine s le l : inv s → flowLevel s = 0 → lineAt (buffer s) (pos s) le l →
  runs (streamLine l) s (λ s' r, ends s s' r ∨
    (later s s' ∧ r = Some stream ∧ flowLevel s' = 0 ∧ pos s = len (buffer s))).
Proof.
  intros Hi Hlev Hl. pose proof (inv_pos _ Hi) as Hp. pose proof (line_range _ _ _ _ Hl) as Hr.
  unfold streamLine. apply runs_bind, runs_gets.
  destruct (eqc (head l) (ch "%")) eqn:Eh.
  - rewrite head_at in Eh. apply eqc_true in Eh. apply (line_char _ _ _ _ (proj1 Hp) Hl) in Eh as [Hlt _].
    pose proof (directiveLength_range l) as Hd. rewrite (line_len _ _ _ _ (proj1 Hp) Hl) in Hd.
    apply runs_bind. eapply runs_weaken; [apply runs_pushCount; [done|]|].
    { intros _. split; [lia|]. eapply line_inner; [exact Hl|lia]. }
    intros s1 a [Hm1 ->]. apply runs_bind. eapply runs_weaken; [apply runs_pushSpaces; eauto with lexer|].
    intros s2 b (Hm2 & Hb & _). pose proof (moved_trans _ _ _ _ _ Hm1 Hm2) as Hm.
    apply runs_bind. eapply runs_weaken; [apply (runs_pushRest s2 (pos s) le l)|].
    { eauto with lexer. } { lia. } { by rewrite (moved_buffer _ _ _ Hm). } { apply Hm. } { lia. }
    intros s3 c [Hm3 ->]. apply runs_ret. left. pose proof (moved_trans _ _ _ _ _ Hm Hm3) as Hm'.
    split; [apply Hm'|]. pose proof (moved_pos _ _ _ Hm'). pose proof (moved_pos _ _ _ Hm).
    constructor; [lia|by rewrite (moved_level _ _ _ Hm')].
  - destruct (atLineEnd s).
    + apply runs_bind. eapply runs_weaken; [by apply runs_pushSpaces|]. intros s1 t (Hm1 & Ht & _).
      apply runs_bind. eapply runs_weaken; [apply (runs_pushRest s1 (pos s) le l)|].
      { eauto with lexer. } { lia. } { by rewrite (moved_buffer _ _ _ Hm1). } { apply Hm1. } { done. }
      intros s2 n [Hm2 ->]. pose proof (moved_trans _ _ _ _ _ Hm1 Hm2) as Hm.
      pose proof (moved_pos _ _ _ Hm) as Hpos2. pose proof (moved_pos _ _ _ Hm1) as Hpos1.
      destruct (decide (pos s < pos s2)) as [Hlt|Hge].
      * apply runs_bind. eapply runs_weaken; [apply runs_pushNewline; eauto with lexer|].
        intros s3 k (Hm3 & Hk & _). apply runs_ret. left. pose proof (moved_trans _ _ _ _ _ Hm Hm3) as Hm'.
        pose proof (moved_pos _ _ _ Hm'). split; [apply Hm'|].
        constructor; [lia|by rewrite (moved_level _ _ _ Hm')].
      * assert (le = pos s) as -> by lia. destruct (decide (pos s < len (buffer s))) as [Hlt|].
        -- apply runs_bind. eapply runs_weaken; [apply (runs_newlineAt s2 (pos s) (pos s) l)|].
           { eauto with lexer. } { by rewrite (moved_buffer _ _ _ Hm). } { lia. }
           { by rewrite (moved_buffer _ _ _ Hm). }
           intros s3 k (Hm3 & Hk). apply runs_ret. left. pose proof (moved_trans _ _ _ _ _ Hm Hm3) as Hm'.
           pose proof (moved_pos _ _ _ Hm'). split; [apply Hm'|].
           constructor; [lia|by rewrite (moved_level _ _ _ Hm')].
        -- apply runs_bind. eapply runs_weaken; [apply runs_pushNewline; eauto with lexer|].
           intros s3 k (Hm3 & Hk & _). apply runs_ret. right. pose proof (moved_trans _ _ _ _ _ Hm Hm3) as Hm'.
           split_and!; [apply Hm'|done|by rewrite (moved_level _ _ _ Hm')|lia].
    + apply runs_bind, runs_modify. assert (Hm : moved s (with_pos (pos s) [doc_mode] s) 0) by by apply moved_mark.
      eapply runs_weaken; [apply runs_lineStart; [eauto with lexer|done]|].
      intros s' r Hend. left. eapply ends_after; [apply Hm|done].
Qed.

Lemma runs_stream s : inv s → flowLevel s = 0 → pos s < len (buffer s) → runs parseStream s (ends s).
Proof.
  intros Hi Hlev Hlt. pose proof (inv_pos _ Hi) as Hp. unfold parseStream. apply runs_bind.
  eapply runs_weaken; [by apply runs_getLine|]. intros s1 ? (Hm1 & le & l & -> & Hl).
  pose proof (moved_pos _ _ _ Hm1) as Hpos1. pose proof (moved_buffer _ _ _ Hm1) as Hb1.
  pose proof (moved_level _ _ _ Hm1) as Hlev1. pose proof (moved_inv _ _ _ Hm1) as Hi1.
  replace (pos s) with (pos s1) in Hl by lia. rewrite <- Hb1 in Hl.
  cbn zeta.
  destruct (eqc (head l) BOM) eqn:Eb; apply runs_bind.
  - rewrite head_at in Eb. apply eqc_true in Eb. apply (line_char (buffer s1) (pos s1) le) in Eb as [Hr Hc]; [|lia|done].
    rewrite Z.add_0_r in Hc. apply runs_bind.
    eapply runs_weaken; [by eapply runs_pushChar|]. intros s2 a [Hm2 ->]. apply runs_ret.
    pose proof (moved_trans _ _ _ _ _ Hm1 Hm2) as Hm. pose proof (moved_pos _ _ _ Hm) as Hpos.
    eapply runs_weaken; [apply (runs_streamLine s2 le)|].
    { eauto with lexer. } { by rewrite (moved_level _ _ _ Hm). }
    { rewrite (moved_buffer _ _ _ Hm2), (moved_pos _ _ _ Hm2). apply line_tail; [lia|lia|done]. }
    intros s' r [Hend|(Hla & -> & Hf & _)]; [eapply ends_after; [apply Hm|done]|].
    split; [eapply later_trans; [apply Hm|done]|]. constructor; [|done]. destruct Hla as [_ ? _]. lia.
  - apply runs_ret. eapply runs_weaken; [apply (runs_streamLine s1 le)|]; [done|lia|done|].
    intros s' r [Hend|(_ & _ & _ & He)]; [eapply ends_after; [apply Hm1|done]|]. rewrite Hb1 in He. lia.
Qed.

(** ** Documents *)

(** Inside a line, a character that is no blank starts a plain scalar, if the
    indicators left it alone. *)
Lemma plainStart_line s p le l c : lineAt (buffer s) p le l → p <= pos s < le →
  at_ (buffer s) (pos s) = Some c → c ≠ SP → c ≠ TAB →
  (c = ch ":" → ¬ (isEmpty (at_ (buffer s) (pos s + 1)) = true ∨
    (0 < flowLevel s ∧ inSet flowIndicatorChars (at_ (buffer s) (pos s + 1)) = true))) →
  (0 < flowLevel s → inSet flowIndicatorChars (Some c) = false) → plainStart s.
Proof.
  intros Hl Hr Hc Hsp Htab Hcol Hind. exists c. split_and!; try done.
  - intros ->. by apply (line_noLF _ _ _ _ Hl (pos s)).
  - intros ->. by apply (line_cr _ _ _ _ Hl).
  - intros Hc'. specialize (Hcol Hc'). split.
    + apply not_true_is_false. auto.
    + intros Hlev. apply not_true_is_false. auto.
Qed.

(** An alias. *)
Lemma runs_pushAlias s c m : inv s → at_ (buffer s) (pos s) = Some c → c = ch "*" →
  goesOn s s (Some m) → runs (pushUntil isNotAnchorChar ;; retL (Some m)) s (progresses s).
Proof.
  intros Hi Hc -> Hgo. apply runs_bind. eapply runs_weaken; [by apply runs_pushUntil|].
  intros s' a (Hm & Ha & Hpos). apply runs_ret. specialize (Hpos _ Hc eq_refl).
  pose proof (moved_pos _ _ _ Hm). split; [|lia]. split; [apply Hm|].
  pose proof (moved_level _ _ _ Hm). inversion Hgo; subst; constructor; lia.
Qed.

(** A block scalar: its header, the rest of the line [l], of which [t] characters
    were pushed before, and the body. *)
Lemma runs_docBlock s p le l t c : inv s → flowLevel s = 0 → 0 <= p → lineAt (buffer s) p le l →
  pos s = p + t → 0 <= t → at_ (buffer s) (pos s) = Some c → (c = ch "|" ∨ c = ch ">") →
  runs (let* a := parseBlockScalarHeader in
        let* b := pushSpaces true in
        pushCount (len l - (t + a + b)) ;; pushNewline ;; parseBlockScalar) s (progresses s).
Proof.
  intros Hi Hlev Hp Hl Hpos Ht Hc Hor. apply runs_bind. eapply runs_weaken; [by eapply runs_header|].
  intros s1 a [Hm1 Ha]. apply runs_bind. eapply runs_weaken; [apply runs_pushSpaces; eauto with lexer|].
  intros s2 b (Hm2 & Hb & _). pose proof (moved_trans _ _ _ _ _ Hm1 Hm2) as Hm.
  pose proof (moved_pos _ _ _ Hm) as Hpos2.
  apply runs_bind. eapply runs_weaken; [apply (runs_pushRest s2 p le l)|].
  { eauto with lexer. } { done. } { by rewrite (moved_buffer _ _ _ Hm). } { lia. } { lia. }
  intros s3 n [Hm3 ->]. apply runs_bind. eapply runs_weaken; [apply runs_pushNewline; eauto with lexer|].
  intros s4 k (Hm4 & Hk & _).
  pose proof (moved_trans _ _ _ _ _ (moved_trans _ _ _ _ _ Hm Hm3) Hm4) as Hm'.
  eapply runs_weaken; [apply runs_blockScalar; [eauto with lexer|by rewrite (moved_level _ _ _ Hm')]|].
  intros s' r Hend. eapply progresses_after; [apply Hm'| |done]. rewrite (moved_pos _ _ _ Hm'). lia.
Qed.

(** The end of a document line: a comment, a line break. *)
Lemma runs_endLine s0 s : inv s → flowLevel s = 0 → later s0 s → pos s0 < pos s →
  runs (pushNewline ;; parseLineStart) s (progresses s0).
Proof.
  intros Hi Hlev Hla Hlt. apply runs_bind. eapply runs_weaken; [by apply runs_pushNewline|].
  intros s1 a (Hm & Ha & _).
  eapply runs_weaken; [apply runs_lineStart; [eauto with lexer|by rewrite (moved_level _ _ _ Hm)]|].
  intros s' r Hend. eapply progresses_after; [by eapply later_trans; [done|apply Hm]| |done].
  rewrite (moved_pos _ _ _ Hm). lia.
Qed.

(** Step by step: each branch moves, a plain scalar when it can start here. *)
Lemma runs_docChar s p le l t c : inv s → flowLevel s = 0 → 0 <= p → lineAt (buffer s) p le l →
  pos s = p + t → 0 <= t → pos s < le → at_ (buffer s) (pos s) = Some c →
  runs (docChar l t c) s (λ s' r, ends s s' r ∧ (plainStart s → pos s < pos s')).
Proof.
  intros Hi Hlev Hp Hl Hpos Ht Hle Hc. unfold docChar.
  assert (Hprog : ∀ m, runs m s (progresses s) → runs m s (λ s' r, ends s s' r ∧ (plainStart s → pos s < pos s'))).
  { intros m Hm. eapply runs_weaken; [exact Hm|]. intros s' r [? ?]. auto. }
  assert (Hone : ∀ k, c ≠ CR → (∀ s1, moved s s1 1 → runs k s1 (λ s' r, ends s1 s' r)) →
    runs (bindL (pushCount 1) (λ _, k)) s (progresses s)).
  { intros k Hncr Hk. apply runs_bind. eapply runs_weaken; [by eapply runs_pushChar|].
    intros s1 a [Hm ->]. eapply runs_weaken; [by apply Hk|]. intros s' r Hend.
    eapply progresses_after; [apply Hm|rewrite (moved_pos _ _ _ Hm); lia|done]. }
  destruct (c =? ch "#") eqn:E1.
  { apply Hprog, runs_bind. eapply runs_weaken; [by apply (runs_pushRest s p le l)|].
    intros s1 a [Hm Ha]. pose proof (moved_pos _ _ _ Hm).
    apply runs_endLine; [eauto with lexer|by rewrite (moved_level _ _ _ Hm)|apply Hm|lia]. }
  destruct ((c =? ch "{") || (c =? ch "[")) eqn:E2.
  { apply Hprog, Hone; [by intros ->|]. intros s1 Hm. apply runs_bind, runs_modify, runs_ret.
    split; [apply later_flow; [eauto with lexer|lia]|by constructor]. }
  destruct ((c =? ch "}") || (c =? ch "]")) eqn:E3.
  { apply Hprog, Hone; [by intros ->|]. intros s1 Hm. apply runs_ret.
    split; [apply later_refl; eauto with lexer|]. constructor. by rewrite (moved_level _ _ _ Hm). }
  destruct (c =? ch "*") eqn:E4.
  { zbool. apply Hprog. eapply runs_pushAlias; [done..|by constructor]. }
  destruct ((c =? DQ) || (c =? ch "'")) eqn:E5.
  { rewrite orb_true_iff, !Z.eqb_eq in E5. apply Hprog. by eapply runs_quoted. }
  destruct ((c =? ch "|") || (c =? ch ">")) eqn:E6; [|by apply runs_plain].
  rewrite orb_true_iff, !Z.eqb_eq in E6. apply Hprog. exact (runs_docBlock s p le l t c Hi Hlev Hp Hl Hpos Ht Hc E6).
Qed.

Lemma runs_document s : inv s → flowLevel s = 0 → pos s < len (buffer s) →
  runs parseDocument s (progresses s).
Proof.
  intros Hi Hlev Hlt. pose proof (inv_pos _ Hi) as Hp. unfold parseDocument. apply runs_bind.
  eapply runs_weaken; [by apply runs_pushSpaces|]. intros s0 b (Hm0 & Hb & _ & Hblank). apply runs_bind.
  eapply runs_weaken; [apply runs_getLine; eauto with lexer|]. intros s1 ? (Hm1 & le & l & -> & Hl).
  pose proof (moved_trans _ _ _ _ _ Hm0 Hm1) as Hm01. apply runs_bind.
  eapply runs_weaken; [apply runs_indicators; eauto with lexer|]. intros s2 t (Hm2 & Ht & Hind).
  pose proof (moved_trans _ _ _ _ _ Hm01 Hm2) as Hm.
  pose proof (moved_pos _ _ _ Hm0) as Hpos0. pose proof (moved_pos _ _ _ Hm01) as Hpos1.
  pose proof (moved_pos _ _ _ Hm) as Hpos2. pose proof (moved_level _ _ _ Hm) as Hlev2.
  pose proof (moved_inv _ _ _ Hm) as Hi2. pose proof (moved_buffer _ _ _ Hm) as Hb2.
  rewrite (moved_buffer _ _ _ Hm01), ?(moved_buffer _ _ _ Hm0) in *. rewrite <- Hb2 in *.
  destruct (at_ l t) as [c|] eqn:Ec.
  - apply (line_char (buffer s2) (pos s0) le l) in Ec as [Hr Hc]; [|lia|done].
    replace (pos s0 + t) with (pos s2) in * by lia.
    eapply runs_weaken; [apply (runs_docChar s2 (pos s0) le l t c); try done; lia|].
    intros s' r [Hend Hplain].
    destruct (decide (pos s < pos s2)) as [Hmove|]; [eapply progresses_after; [apply Hm|done|done]|].
    split; [eapply ends_after; [apply Hm|done]|].
    assert (pos s2 = pos s0) as Heq by lia.
    destruct (Hblank c) as [Hsp Htab]; [by rewrite <- Heq|].
    assert (pos s2 < pos s'); [|lia]. apply Hplain. specialize (Htab eq_refl).
    eapply plainStart_line; [exact Hl|lia|exact Hc|exact Hsp|exact Htab| |lia].
    intros -> Hor. assert (0 < t); [|lia]. apply (Hind (ch ":")); [|auto|].
    + rewrite <- Hc. f_equal. lia.
    + replace (pos s1) with (pos s2) by lia. rewrite <- (moved_level _ _ _ Hm2). done.
  - apply (line_over (buffer s2) (pos s0) le) in Ec; [|lia|done|done].
    destruct (decide (pos s < pos s2)) as [Hmove|].
    { apply runs_endLine; [done|lia|apply Hm|done]. }
    pose proof (line_range _ _ _ _ Hl). apply runs_bind.
    eapply runs_weaken; [apply (runs_newlineAt s2 (pos s0) le l); [done|done|lia|lia]|].
    intros s3 k [Hm3 Hk]. pose proof (moved_trans _ _ _ _ _ Hm Hm3) as Hm'.
    eapply runs_weaken; [apply runs_lineStart; [eauto with lexer|by rewrite (moved_level _ _ _ Hm')]|].
    intros s' r Hend. eapply progresses_after; [apply Hm'| |done]. rewrite (moved_pos _ _ _ Hm'). lia.
Qed.

(** ** Flow collections *)

(** The blanks end; an indentation is returned only when a line break was pushed,
    and neither blanks nor a line break are left. *)
Lemma runs_flowBlanks fuel n s : inv s → (Z.to_nat (len (buffer s) - pos s) < fuel)%nat →
  runs (flowBlanks fuel n) s (λ s' n', ∃ k, moved s s' k ∧ 0 <= k ∧ (n' = n ∨ 0 < k) ∧
    (∀ c, at_ (buffer s) (pos s') = Some c → c ≠ SP ∧ c ≠ TAB ∧ c ≠ LF ∧
       (c = CR → at_ (buffer s) (pos s' + 1) ≠ Some LF))).
Proof.
  revert n s. induction fuel as [|fuel IH]; intros n s Hi Hf; [lia|]. cbn [flowBlanks].
  pose proof (inv_pos _ Hi) as Hp.
  apply runs_bind. eapply runs_weaken; [by apply runs_pushNewline|]. intros s1 e (Hm1 & He & Hlf & Hcr).
  apply runs_bind.
  apply (runs_weaken _ _ (λ s2 t, moved s1 s2 t ∧ 0 <= t)).
  { destruct (0 <? e).
    - apply runs_bind. eapply runs_weaken; [apply runs_pushSpaces; eauto with lexer|].
      intros s2 t (Hm2 & Ht & _). apply runs_bind, runs_modify, runs_ret. split; [|done].
      replace t with (t + 0) by lia. eapply moved_trans; [done|]. apply moved_indent. eauto with lexer.
    - apply runs_ret. split; [|lia]. apply moved_refl. eauto with lexer. }
  intros s2 t [Hm2 Ht]. apply runs_bind.
  eapply runs_weaken; [apply runs_pushSpaces; eauto with lexer|]. intros s3 b (Hm3 & Hb & _ & Hend).
  pose proof (moved_trans _ _ _ _ _ (moved_trans _ _ _ _ _ Hm1 Hm2) Hm3) as Hm.
  pose proof (moved_pos _ _ _ Hm) as Hpos. pose proof (moved_inv _ _ _ Hm) as Hi3.
  destruct (0 <? e + (t + b)) eqn:E; zbool.
  - eapply runs_weaken; [apply IH; [done|]|].
    { pose proof (inv_pos _ Hi3) as Hp3. rewrite (moved_buffer _ _ _ Hm) in *. lia. }
    rewrite (moved_buffer _ _ _ Hm).
    intros s' n' (k & Hm4 & Hk & _ & Hstop). exists (e + t + b + k).
    split_and!; [by eapply moved_trans|lia|lia|done].
  - apply runs_ret. exists (e + t + b). replace (0 <? e) with false by lia.
    split_and!; [done|lia|by left|]. intros c Hc.
    assert (Hq : pos s3 = pos s) by lia. rewrite Hq in *.
    rewrite (moved_buffer _ _ _ Hm2), (moved_buffer _ _ _ Hm1) in Hend.
    destruct (Hend c Hc) as [Hsp Htab]. split_and!; [done|auto| |].
    + intros ->. specialize (Hlf Hc). lia.
    + intros -> H2. specialize (Hcr Hc H2). lia.
Qed.

(** The commas: all of them, and the index moves with the position. *)
Lemma runs_flowCommas fuel s p le r i : inv s → 0 <= p → lineAt (buffer s) p le r → pos s = p + i →
  (Z.to_nat (len (buffer s) - pos s) < fuel)%nat →
  runs (flowCommas fuel r i) s (λ s' v, ∃ k, moved s s' k ∧ 0 <= k ∧ v = i + k ∧
    at_ r v ≠ Some (ch ",")).
Proof.
  revert s i. induction fuel as [|fuel IH]; intros s i Hi Hp Hl Hpos Hf; [lia|]. cbn [flowCommas].
  pose proof (inv_pos _ Hi) as Hps.
  destruct (eqc (at_ r i) (ch ",")) eqn:E.
  - apply eqc_true in E. apply (line_char (buffer s) p le r) in E as [Hr Hc]; [|done|done].
    rewrite <- Hpos in Hc. apply runs_bind. eapply runs_weaken; [by eapply runs_pushChar|].
    intros s1 a [Hm1 ->]. apply runs_bind. eapply runs_weaken; [apply runs_pushSpaces; eauto with lexer|].
    intros s2 b (Hm2 & Hb & _). apply runs_bind, runs_modify.
    pose proof (moved_flow s2 false (moved_inv _ _ _ Hm2)) as Hm3. set (s3 := with_flow _ _ s2) in *.
    pose proof (moved_trans _ _ _ _ _ (moved_trans _ _ _ _ _ Hm1 Hm2) Hm3) as Hm.
    pose proof (moved_pos _ _ _ Hm) as Hpos3. pose proof (moved_inv _ _ _ Hm) as Hi3.
    eapply runs_weaken; [apply IH; [done|done|by rewrite (moved_buffer _ _ _ Hm)|lia|]|].
    { pose proof (inv_pos _ Hi3) as Hp3. rewrite (moved_buffer _ _ _ Hm) in *. lia. }
    intros s' v (k & Hm4 & Hk & -> & Hstop). exists (1 + b + 0 + k).
    split_and!; [by eapply moved_trans|lia|lia|]. by replace (i + 1 + b + k) with (i + 1 + b + k) by lia.
  - apply runs_ret. exists 0. split_and!; [by apply moved_refl|lia|lia|].
    intros Hc. by rewrite Hc in E.
Qed.

Lemma runs_flowChar s p le l t c : inv s → 0 < flowLevel s → 0 <= p → lineAt (buffer s) p le l →
  pos s = p + t → 0 <= t → pos s < le → at_ (buffer s) (pos s) = Some c →
  runs (flowChar l t c) s (λ s' r, ends s s' r ∧
    ((c ≠ ch "{" → c ≠ ch "[" → c ≠ ch "}" → c ≠ ch "]" → plainStart s) → pos s < pos s')).
Proof.
  intros Hi Hlev Hp Hl Hpos Ht Hle Hc. unfold flowChar.
  assert (Hprog : ∀ (P : Prop) m, runs m s (progresses s) → runs m s (λ s' r, ends s s' r ∧ (P → pos s < pos s'))).
  { intros P m Hm. eapply runs_weaken; [exact Hm|]. intros s' r [? ?]. auto. }
  assert (Hone : ∀ k, c ≠ CR → (∀ s1, moved s s1 1 → runs k s1 (λ s' r, ends s1 s' r)) →
    runs (bindL (pushCount 1) (λ _, k)) s (progresses s)).
  { intros k Hncr Hk. apply runs_bind. eapply runs_weaken; [by eapply runs_pushChar|].
    intros s1 a [Hm ->]. eapply runs_weaken; [by apply Hk|]. intros s' r Hend.
    eapply progresses_after; [apply Hm|rewrite (moved_pos _ _ _ Hm); lia|done]. }
  destruct (c =? ch "#") eqn:E1.
  { apply Hprog, runs_bind. eapply runs_weaken; [by apply (runs_pushRest s p le l)|].
    intros s1 a [Hm Ha]. pose proof (moved_pos _ _ _ Hm). apply runs_ret. split; [|lia].
    split; [apply Hm|]. constructor. by rewrite (moved_level _ _ _ Hm). }
  destruct ((c =? ch "{") || (c =? ch "[")) eqn:E2.
  { apply Hprog, Hone; [by intros ->|]. intros s1 Hm. apply runs_bind, runs_modify, runs_ret.
    rewrite (moved_level _ _ _ Hm). split; [apply later_flow; [eauto with lexer|lia]|constructor; simpl; lia]. }
  destruct ((c =? ch "}") || (c =? ch "]")) eqn:E3.
  { apply Hprog, Hone; [by intros ->|]. intros s1 Hm. apply runs_bind, runs_modify, runs_bind, runs_gets, runs_ret.
    assert (later s1 (with_flow true (flowLevel s1 - 1) s1)) as Hla.
    { apply later_flow; [eauto with lexer|]. rewrite (moved_level _ _ _ Hm). lia. }
    split; [done|]. apply goesOn_level, Hla. }
  destruct (c =? ch "*") eqn:E4.
  { zbool. apply Hprog. eapply runs_pushAlias; [done..|by constructor]. }
  destruct ((c =? DQ) || (c =? ch "'")) eqn:E5.
  { rewrite orb_true_iff, !Z.eqb_eq in E5. apply Hprog, runs_bind, runs_modify.
    pose proof (moved_flow s true Hi) as Hm. eapply runs_weaken; [eapply runs_quoted; [eauto with lexer|done|done]|].
    intros s' r [Hend Hlt]. split; [eapply ends_after; [apply Hm|done]|done]. }
  apply runs_bind, runs_charAt, runs_bind, runs_gets.
  pose proof (moved_flow s false Hi) as Hm.
  destruct ((c =? ch ":") && _) eqn:E6.
  - apply andb_true_iff in E6 as [E6 _]. zbool. subst c. apply Hprog, runs_bind, runs_modify, runs_bind.
    eapply runs_weaken; [eapply runs_pushChar; [eauto with lexer|exact Hc|done]|].
    intros s1 a [Hm1 ->]. apply runs_bind. eapply runs_weaken; [apply runs_pushSpaces; eauto with lexer|].
    intros s2 b (Hm2 & Hb & _). apply runs_ret.
    pose proof (moved_trans _ _ _ _ _ (moved_trans _ _ _ _ _ Hm Hm1) Hm2) as Hm3.
    pose proof (moved_pos _ _ _ Hm3). split; [|lia]. split; [apply Hm3|].
    constructor. by rewrite (moved_level _ _ _ Hm3).
  - apply runs_bind, runs_modify. eapply runs_weaken; [apply runs_plain; eauto with lexer|].
    intros s' r [Hend Hplain]. split; [eapply ends_after; [apply Hm|done]|]. intros Hst. apply Hplain.
    apply Hst; intros ->; done.
Qed.

(** A broken collection: a line break was pushed before. *)
Lemma flowBroken_break s n r : flowBroken s n r = true → n ≠ -1.
Proof. unfold flowBroken. intros H ->. by rewrite andb_false_l in H. Qed.

(** The line of a collection that is not broken: it ends, and moves when there is
    something left and the blanks before the line were pushed. *)
Lemma runs_flowLine fuel s le l : inv s → 0 < flowLevel s → lineAt (buffer s) (pos s) le l →
  (S (length (buffer s)) < fuel)%nat →
  (∀ c, at_ (buffer s) (pos s) = Some c → c ≠ SP ∧ c ≠ TAB ∧ c ≠ LF ∧
     (c = CR → at_ (buffer s) (pos s + 1) ≠ Some LF)) →
  runs (let* i := flowCommas fuel l 0 in
        let* j := indicators in
        match at_ l (i + j) with None => retL (Some flow) | Some c => flowChar l (i + j) c end) s
    (λ s' r, ends s s' r ∧ (pos s < len (buffer s) → pos s < pos s')).
Proof.
  intros Hi Hlev Hl Hf Hblank. pose proof (inv_pos _ Hi) as Hp. apply runs_bind.
  eapply runs_weaken; [apply (runs_flowCommas fuel s (pos s) le l 0); [done|lia|done|lia|unfold len; lia]|].
  intros s2 i (k & Hm2 & Hk & -> & Hcomma). rewrite Z.add_0_l in *.
  apply runs_bind. eapply runs_weaken; [apply runs_indicators; eauto with lexer|].
  intros s3 j (Hm3 & Hj & Hind).
  rewrite (moved_buffer _ _ _ Hm2), (moved_pos _ _ _ Hm2), (moved_level _ _ _ Hm2) in Hind.
  pose proof (moved_trans _ _ _ _ _ Hm2 Hm3) as Hm. pose proof (moved_pos _ _ _ Hm) as Hpos3.
  pose proof (moved_inv _ _ _ Hm) as Hi3. pose proof (moved_level _ _ _ Hm) as Hlev3.
  pose proof (moved_buffer _ _ _ Hm) as Hb3. rewrite <- Hb3 in *. pose proof (line_range _ _ _ _ Hl).
  destruct (at_ l (k + j)) as [c|] eqn:Ec.
  - pose proof Ec as Ec'. apply (line_char (buffer s3) (pos s) le l) in Ec as [Hr Hc]; [|lia|done].
    rewrite <- Hpos3 in *.
    eapply runs_weaken; [apply (runs_flowChar s3 (pos s) le l (k + j) c); try done; lia|].
    intros s' r [Hend Hplain]. split; [eapply ends_after; [apply Hm|done]|]. intros _.
    destruct (decide (pos s < pos s3)) as [Hmove|]; [destruct Hend as [[_ ? _] _]; lia|].
    assert (pos s3 < pos s'); [|lia]. apply Hplain. intros Hb1 Hb2 Hb3' Hb4.
    assert (k = 0 ∧ j = 0) as [-> ->] by lia. rewrite Z.add_0_r in *. rewrite Hpos3 in *.
    destruct (Hblank c Hc) as (Hsp & Htab & _ & _).
    eapply plainStart_line; [exact Hl|lia|by rewrite Hpos3|exact Hsp|exact Htab| |].
    + intros -> Hor. assert (0 < 0); [|lia]. rewrite Hpos3, Hlev3 in Hor. apply (Hind (ch ":")); auto.
    + intros _. apply not_true_is_false. intros Hin.
      unfold inSet in Hin. apply existsb_exists in Hin as (x & Hx & ->%Z.eqb_eq).
      repeat (destruct Hx as [<-|Hx]; [by simpl in *|]). done.
  - apply runs_ret. apply (line_over (buffer s3) (pos s) le) in Ec; [|lia|done|lia].
    split; [split; [apply Hm|constructor; lia]|]. intros Hlt.
    destruct (decide (pos s < pos s3)) as [|Hge]; [done|exfalso].
    assert (Hle : le = pos s) by lia. rewrite Hle in *.
    destruct (line_stop _ _ _ _ Hl) as [?|[H1|[H1 H2]]]; [lia|..];
      destruct (Hblank _ H1) as (_ & _ & Hno & Hcr); [done|by apply Hcr].
Qed.

Lemma runs_flow s : inv s → 0 < flowLevel s → pos s < len (buffer s) →
  runs parseFlowCollection s (progresses s).
Proof.
  intros Hi Hlev Hlt. pose proof (inv_pos _ Hi) as Hp. unfold runs, parseFlowCollection. cbn zeta.
  set (fuel := S (S (length (buffer s)))).
  apply runs_bind. eapply runs_weaken; [apply runs_flowBlanks; [done|subst fuel; unfold len in *; lia]|].
  intros s0 n (b & Hm0 & Hb & Hn & Hblank). apply runs_bind.
  eapply runs_weaken; [apply runs_getLine; eauto with lexer|]. intros s1 ? (Hm1 & le & l & -> & Hl).
  pose proof (moved_trans _ _ _ _ _ Hm0 Hm1) as Hm01. apply runs_bind, runs_gets.
  pose proof (moved_pos _ _ _ Hm01) as Hpos1. pose proof (moved_pos _ _ _ Hm0) as Hpos0.
  pose proof (moved_inv _ _ _ Hm01) as Hi1. pose proof (moved_buffer _ _ _ Hm01) as Hb1.
  pose proof (moved_level _ _ _ Hm01) as Hlev1.
  destruct (flowBroken s1 n l) eqn:Ebr.
  - apply flowBroken_break in Ebr. assert (0 < b) by (destruct Hn; [done|lia]).
    apply runs_bind, runs_modify, runs_bind, runs_modify.
    set (s2 := with_flow _ 0 s1). assert (later s1 s2) as Hla by (by apply later_flow).
    assert (later s2 (with_pos (pos s2) [flow_error_end] s2)) as Hla2 by (apply later_mark; [apply Hla|done]).
    eapply runs_weaken; [apply runs_lineStart; [apply Hla2|done]|]. intros s' r Hend.
    eapply progresses_after; [eapply later_trans; [apply Hm01|by eapply later_trans]| |done]. simpl. lia.
  - assert (Heq : pos s0 = pos s1) by lia. rewrite (moved_buffer _ _ _ Hm0), <- Hb1, Heq in *.
    eapply runs_weaken; [apply (runs_flowLine fuel s1 le l); [done|lia|done|subst fuel; rewrite ?Hb1; lia|done]|].
    intros s' r [Hend Hgo]. split; [eapply ends_after; [apply Hm01|done]|].
    destruct (decide (pos s < pos s1)); [destruct Hend as [[_ ? _] _]; lia|].
    assert (pos s1 < pos s') by (apply Hgo; rewrite ?Hb1 in *; lia). lia.
Qed.

(** ** The loop *)

(** The mode the loop is in agrees with the flow level. *)
Definition modeOk (m : Mode) (s : Lexer) : Prop :=
  match m with
  | stream | doc => flowLevel s = 0
  | flow => 0 < flowLevel s
  | _ => False
  end.

(** What is left to do: a [stream] step may hand over to [doc] without moving. *)
Definition measure (m : Mode) (s : Lexer) : Z :=
  2 * (len (buffer s) - pos s) + match m with stream => 1 | _ => 0 end.

Lemma runs_step m s : inv s → modeOk m s → pos s < len (buffer s) →
  runs (parseNext m) s (λ s' r, later s s' ∧ ∃ m', r = Some m' ∧ modeOk m' s' ∧ measure m' s' < measure m s).
Proof.
  intros Hi Hm Hlt.
  assert (Hdone : ∀ s' r, ends s s' r → (pos s < pos s' ∨ (m = stream ∧ r ≠ Some stream)) →
    later s s' ∧ ∃ m', r = Some m' ∧ modeOk m' s' ∧ measure m' s' < measure m s).
  { intros s' r [Hla Hgo] Hdec. split; [done|]. unfold measure. rewrite (later_buffer _ _ Hla).
    pose proof (later_pos _ _ Hla).
    destruct Hgo; eexists; (split; [reflexivity|]); (split; [done|]);
      destruct Hdec as [?|[-> ?]]; try done; repeat case_match; lia. }
  destruct m; try done.
  - eapply runs_weaken; [by apply runs_stream|]. intros s' r Hend. apply Hdone; [done|].
    destruct Hend as [_ [? ?|?|?]]; auto.
  - eapply runs_weaken; [by apply runs_document|]. intros s' r [? ?]. apply Hdone; auto.
  - eapply runs_weaken; [by apply runs_flow|]. intros s' r [? ?]. apply Hdone; auto.
Qed.

Lemma runs_lexLoop fuel m s : inv s → modeOk m s → measure m s < Z.of_nat fuel →
  runs (lexLoop fuel false m) s (λ s' _, later s s' ∧ pos s' = len (buffer s)).
Proof.
  revert m s. induction fuel as [|fuel IH]; intros m s Hi Hm Hf; pose proof (inv_pos _ Hi) as Hp.
  { unfold measure in Hf. destruct m; lia. }
  cbn [lexLoop]. apply runs_bind, runs_gets. cbn [orb].
  destruct (pos s + 1 <=? len (buffer s)) eqn:E; zbool.
  - apply runs_bind. eapply runs_weaken; [apply runs_step; [done|done|lia]|].
    intros s1 r (Hla & m' & -> & Hm' & Hdec).
    eapply runs_weaken; [apply IH; [apply Hla|done|lia]|]. intros s' _ [Hla' Hend].
    split; [by eapply later_trans|]. by rewrite Hend, (later_buffer _ _ Hla).
  - apply runs_ret. split; [by apply later_refl|lia].
Qed.

Lemma lexAll_ends source : ∃ o, lexAll source = Some o ∧ emitted o = source.
Proof.
  unfold lexAll, lex. set (s := feed source false initial).
  destruct (runs_lexLoop (2 * length source + 2) stream s) as (s' & [] & Hrun & Hla & Hend).
  - constructor; try done; simpl.
    { split; [lia|apply len_nonneg]. }
    by destruct source.
  - done.
  - unfold measure. simpl. unfold len. lia.
  - change (default stream (next initial)) with stream. rewrite Hrun. eexists. split; [reflexivity|].
    rewrite (inv_out _ (later_inv _ _ Hla)), Hend, (later_buffer _ _ Hla). simpl.
    apply take_ge. unfold len. lia.
Qed.

(** C24: the lexer is total and lossless: on every input string the loops all end
    within the fuel they are given, the whole string is consumed, and the lexemes,
    control codes left out, put together again are the input. *)
Theorem lexAll_lossless source : ∃ o, lexAll source = Some o ∧ emitted o = source.
Proof. apply lexAll_ends. Qed.
