(* ===== verification/YamlScalars.v ===== *)
(** * YAML flow scalars of the web UI

    How the yaml library bundled in
    [internal/ui/assets/assets/index-DHyr8oiy.js] resolves the source of a plain,
    single-quoted or double-quoted scalar to a string ([XGt], [ZGt], [QGt], [$Gt],
    [eKt], [tKt], [nKt]), and how it prints a string as a quoted scalar ([rWt],
    [iWt], [aWt], with the test [tWt] and the line folding [QUt], [$Ut]).

    A loop over the indices of a string is a recursion on the rest of the string
    from the index; [None] is out of fuel.  Errors are the offsets and codes handed
    to the error callback, an exception is the left side of a sum. *)

From Stdlib Require Import ZArith Lia.
From stdpp Require Import base numbers strings gmap option list.
From S2P Require Import Prelude Js YamlLexer.

Open Scope Z_scope.

Module Scalars.
Import Yaml.

(** ** Double-quoted scalars: source to value *)

Definition NBS : Z := 160.

(** [tKt]: the one-character escapes. *)
Definition escapeCode (c : Z) : option Z :=
  if c =? ch "0" then Some 0 else if c =? ch "a" then Some 7 else if c =? ch "b" then Some 8
  else if c =? ch "e" then Some 27 else if c =? ch "f" then Some 12 else if c =? ch "n" then Some LF
  else if c =? ch "r" then Some CR else if c =? ch "t" then Some TAB else if c =? ch "v" then Some 11
  else if c =? ch "N" then Some 133 else if c =? ch "_" then Some NBS else if c =? ch "L" then Some 8232
  else if c =? ch "P" then Some 8233 else if c =? SP then Some SP else if c =? DQ then Some DQ
  else if c =? ch "/" then Some (ch "/") else if c =? BACKSLASH then Some BACKSLASH
  else if c =? TAB then Some TAB else None.

(** [eKt]: the line break is at the character before [rest]; the blanks and line
    breaks after it are skipped, and each further line break is kept.  Returns the
    kept line breaks and the number of characters skipped. *)
Fixpoint foldLines (rest : jstr) : jstr * nat :=
  match rest with
  | [] => ([], 0%nat)
  | c :: r =>
    if isBlank c || (c =? LF) || ((c =? CR) && eqc (head r) LF) then
      let '(n, k) := foldLines r in ((if c =? LF then LF :: n else n), S k)
    else ([], 0%nat)
  end.

(** [n ||= " "] *)
Definition foldText (n : jstr) : jstr := match n with [] => [SP] | _ => n end.

Definition hexValue (c : Z) : option Z :=
  if (48 <=? c) && (c <=? 57) then Some (c - 48)
  else if (65 <=? c) && (c <=? 70) then Some (c - 55)
  else if (97 <=? c) && (c <=? 102) then Some (c - 87)
  else None.

(** [parseInt(s, 16)] when [s] is made of hexadecimal digits. *)
Fixpoint parseHex (acc : Z) (s : jstr) : option Z :=
  match s with
  | [] => Some acc
  | c :: r => match hexValue c with Some d => parseHex (16 * acc + d) r | None => None end
  end.

(** [String.fromCodePoint] throws beyond U+10FFFF. *)
Definition fromCodePoint (a : Z) : exn + jstr :=
  if a <? 65536 then inr [a]
  else if a <=? 1114111 then inr [55296 + (a - 65536) / 1024; 56320 + (a - 65536) mod 1024]
  else throw (runes "RangeError: Invalid code point").

(** The codes handed to the error callback. *)
Inductive code := BAD_DQ_ESCAPE | MISSING_CHAR | BAD_SCALAR_START.

(** [nKt]: [rest] starts at the backslash, [n] digits are expected after the letter.
    Returns the text, and whether the escape is invalid. *)
Definition parseCharCode (rest : jstr) (n : nat) : exn + (jstr * bool) :=
  let i := take n (drop 2 rest) in
  match (if bool_decide (length i = n) then parseHex 0 i else None) with
  | Some a => match fromCodePoint a with inr s => inr (s, false) | inl x => inl x end
  | None => inr (take (n + 2) rest, true)
  end.

Definition escapeLength (c : Z) : option nat :=
  if c =? ch "x" then Some 2%nat else if c =? ch "u" then Some 4%nat
  else if c =? ch "U" then Some 8%nat else None.

Definition blanks (s : jstr) : nat := Z.to_nat (countWhile isBlank s).

(** The loop of [$Gt]: [rest] is the source from index [r] on; the last character
    of the source is not looked at.  An exception comes with the errors before it. *)
Fixpoint dqLoop (fuel : nat) (r : Z) (rest n : jstr) (errs : list (Z * code))
    : option (exn * list (Z * code) + (jstr * list (Z * code))) :=
  match fuel with
  | O => None
  | S fuel =>
    match rest with
    | [] | [_] => Some (inr (n, errs))
    | i :: rest1 =>
      if (i =? CR) && eqc (head rest1) LF then dqLoop fuel (r + 1) rest1 n errs
      else if i =? LF then
        let '(f, k) := foldLines rest1 in
        dqLoop fuel (r + 1 + Z.of_nat k) (drop k rest1) (n ++ foldText f) errs
      else if i =? BACKSLASH then
        match rest1 with
        | [] => Some (inr (n, errs))
        | c :: rest2 =>
          match escapeCode c with
          | Some a => dqLoop fuel (r + 2) rest2 (n ++ [a]) errs
          | None =>
            if c =? LF then
              dqLoop fuel (r + 2 + Z.of_nat (blanks rest2)) (drop (blanks rest2) rest2) n errs
            else if (c =? CR) && eqc (head rest2) LF then
              let rest3 := drop 1 rest2 in
              dqLoop fuel (r + 3 + Z.of_nat (blanks rest3)) (drop (blanks rest3) rest3) n errs
            else
              match escapeLength c with
              | Some a =>
                match parseCharCode rest a with
                | inl x => Some (inl (x, errs))
                | inr (s, bad) =>
                  dqLoop fuel (r + 2 + Z.of_nat a) (drop a rest2) (n ++ s)
                    (if bad then errs ++ [(r, BAD_DQ_ESCAPE)] else errs)
                end
              | None => dqLoop fuel (r + 2) rest2 (n ++ [BACKSLASH; c]) (errs ++ [(r, BAD_DQ_ESCAPE)])
              end
          end
        end
      else if isBlank i then
        let k := blanks rest1 in
        let after := drop k rest1 in
        let eol := eqc (head after) LF || (eqc (head after) CR && eqc (head (drop 1 after)) LF) in
        dqLoop fuel (r + 1 + Z.of_nat k) after (if eol then n else n ++ i :: take k rest1) errs
      else dqLoop fuel (r + 1) rest1 (n ++ [i]) errs
    end
  end.

(** [$Gt] *)
Definition doubleQuotedValue (e : jstr) : option (exn * list (Z * code) + (jstr * list (Z * code))) :=
  match dqLoop (S (length e)) 1 (drop 1 e) [] [] with
  | Some (inr (n, errs)) =>
    Some (inr (n, if negb (eqc (last e) DQ) || (len e =? 1) then errs ++ [(len e, MISSING_CHAR)] else errs))
  | x => x
  end.

(** ** Single-quoted and plain scalars: source to value *)

(** The lines of a string; there is always one. *)
Fixpoint linesOf (s : jstr) : jstr * list jstr :=
  match s with
  | [] => ([], [])
  | c :: r => let '(l, ls) := linesOf r in if c =? LF then ([], l :: ls) else (c :: l, ls)
  end.

Fixpoint trimLeft (s : jstr) : jstr :=
  match s with [] => [] | c :: r => if isBlank c then trimLeft r else s end.

Definition trimRight (s : jstr) : jstr := reverse (trimLeft (reverse s)).

(** The CR of a CR LF line break. *)
Definition dropCR (s : jstr) : jstr := if eqc (last s) CR then removelast s else s.

(** The loop of [QGt] over the lines after the first: the text so far, and the
    separator pending.  The last line keeps its trailing blanks. *)
Fixpoint foldFlow (i a : jstr) (ls : list jstr) : jstr :=
  match ls with
  | [] => i
  | [l] => i ++ a ++ trimLeft l
  | l :: ls =>
    match trimLeft (trimRight (dropCR l)) with
    | [] => if bool_decide (a = [LF]) then foldFlow (i ++ a) a ls else foldFlow i [LF] ls
    | t => foldFlow (i ++ a ++ t) [SP] ls
    end
  end.

(** [QGt]: the two sticky regular expressions match a line each, without the blanks
    around it and its line break. *)
Definition foldFlowLines (e : jstr) : jstr :=
  match linesOf e with
  | (_, []) => e
  | (l, ls) => foldFlow (trimRight (dropCR l)) [SP] ls
  end.

(** [s.replace(/''/g, "'")] *)
Fixpoint unquote (s : jstr) : jstr :=
  match s with
  | [] => []
  | c :: r =>
    match r with
    | d :: r' => if (c =? ch "'") && (d =? ch "'") then ch "'" :: unquote r' else c :: unquote r
    | [] => [c]
    end
  end.

(** [ZGt] *)
Definition singleQuotedValue (e : jstr) : jstr * list (Z * code) :=
  (unquote (foldFlowLines (removelast (drop 1 e))),
   if negb (eqc (last e) (ch "'")) || (len e =? 1) then [(len e, MISSING_CHAR)] else []).

(** [XGt] *)
Definition plainValue (e : jstr) : jstr * list (Z * code) :=
  (foldFlowLines e,
   match head e with
   | Some c =>
     if (c =? TAB) || existsb (Z.eqb c) (runes ",%|>@`") then [(0, BAD_SCALAR_START)] else []
   | None => []
   end).

(** ** Folding *)

Inductive foldMode := FOLD_FLOW | FOLD_BLOCK | FOLD_QUOTED.

Record FoldOptions := {
  indentAtStart : option Z;
  lineWidth : Z;
  minContentWidth : Z;
}.

(** [s.slice(i, j)] with negative bounds counted from the end. *)
Definition sliceJs (s : jstr) (i j : Z) : jstr :=
  let b k := if k <? 0 then Z.max 0 (len s + k) else k in slice s (b i) (b j).

(** [$Ut]: in a block scalar the lines that are more indented are not folded; the
    end of the last of them. *)
Fixpoint moreIndented (fuel : nat) (e : jstr) (n t r i : Z) (a : option Z) : option Z :=
  match fuel with
  | O => None
  | S fuel =>
    if eqc a SP || eqc a TAB then
      if t <? i + n then moreIndented fuel e n (t + 1) r i (at_ e (t + 1))
      else
        let t := skipWhile (λ c, negb (c =? LF)) e (t + 1) in
        moreIndented fuel e n t t (t + 1) (at_ e (t + 1))
    else Some r
  end.

Definition consumeMoreIndented (e : jstr) (t n : Z) : option Z :=
  moreIndented (2 * length e + Z.to_nat n + 4) e n t t (t + 1) (at_ e (t + 1)).

(** The variables of [QUt]: the folds, those that split a word, the width left, the
    last place to fold, the last character, the overflow flag and the positions of
    the scan and of the last escape. *)
Record Fold := {
  folds : list Z;
  escapedFolds : list Z;
  fend : Z;
  split : option Z;
  prev : option Z;
  overflow : bool;
  fpos : Z;
  escStart : Z;
  escEnd : Z;
}.

(** The step over the blanks before a forced fold. *)
Fixpoint skipToFold (fuel : nat) (e : jstr) (p r : option Z) (h : Z) (m : bool)
    : option (option Z * option Z * Z * bool) :=
  match fuel with
  | O => None
  | S fuel =>
    if eqc p SP || eqc p TAB then skipToFold fuel e r (at_ e (h + 1)) (h + 1) true
    else Some (p, r, h, m)
  end.

Definition notBlankBreak (c : option Z) : bool :=
  match c with Some x => negb (isBlank x) && negb (x =? LF) | None => false end.

(** The jump over an escape sequence. *)
Definition escapeJump (c : option Z) : Z :=
  if eqc c (ch "x") then 3 else if eqc c (ch "u") then 5 else if eqc c (ch "U") then 9 else 1.

(** One turn of the loop, with [r] the character at [h]: [inl] is the early return
    of the text as it is. *)
Definition foldTurn (e indent : jstr) (mode : foldMode) (c : Z) (s : Fold) (r h : Z)
    : option (unit + Fold) :=
  let esc := match mode with FOLD_QUOTED => r =? BACKSLASH | _ => false end in
  let g := if esc then h else escStart s in
  let h := if esc then h + escapeJump (at_ e (h + 1)) else h in
  let ee := if esc then h else escEnd s in
  if r =? LF then
    match (match mode with FOLD_BLOCK => consumeMoreIndented e h (len indent) | _ => Some h end) with
    | None => None
    | Some h =>
      Some (inr {| folds := folds s; escapedFolds := escapedFolds s; fend := h + len indent + c;
                   split := None; prev := Some r; overflow := overflow s; fpos := h;
                   escStart := g; escEnd := ee |})
    end
  else
    let f := if (r =? SP) && notBlankBreak (prev s) && notBlankBreak (at_ e (h + 1)) then Some h else split s in
    let keep f d l u p m h :=
      {| folds := l; escapedFolds := u; fend := d; split := f; prev := p; overflow := m; fpos := h;
         escStart := g; escEnd := ee |} in
    if fend s <=? h then
      match f, mode with
      | Some f, _ => Some (inr (keep None (f + c) (folds s ++ [f]) (escapedFolds s) (Some r) (overflow s) h))
      | None, FOLD_QUOTED =>
        match skipToFold (S (S (length e))) e (prev s) (Some r) h (overflow s) with
        | None => None
        | Some (_, r, h, m) =>
          let t := if ee + 1 <? h then h - 2 else g - 1 in
          if bool_decide (t ∈ escapedFolds s) then Some (inl tt)
          else Some (inr (keep None (t + c) (folds s ++ [t]) (escapedFolds s ++ [t]) r m h))
        end
      | None, _ => Some (inr (keep None (fend s) (folds s) (escapedFolds s) (Some r) true h))
      end
    else Some (inr (keep f (fend s) (folds s) (escapedFolds s) (Some r) (overflow s) h)).

Fixpoint foldScan (fuel : nat) (e indent : jstr) (mode : foldMode) (c : Z) (s : Fold) : option (unit + Fold) :=
  match fuel with
  | O => None
  | S fuel =>
    match at_ e (fpos s + 1) with
    | None => Some (inr s)
    | Some r =>
      match foldTurn e indent mode c s r (fpos s + 1) with
      | None => None
      | Some (inl u) => Some (inl u)
      | Some (inr s) => foldScan fuel e indent mode c s
      end
    end
  end.

(** The text put together from the folds; [e[i]] of an index out of range prints as
    [undefined]. *)
Fixpoint foldJoin (e indent : jstr) (mode : foldMode) (u : list Z) (v : jstr) (l : list Z) : jstr :=
  match l with
  | [] => v
  | i :: l =>
    let a := match l with x :: _ => if x =? 0 then len e else x | [] => len e end in
    let v :=
      if i =? 0 then [LF] ++ indent ++ sliceJs e 0 a
      else
        (match mode with
         | FOLD_QUOTED =>
           if bool_decide (i ∈ u)
           then v ++ match at_ e i with Some c => [c] | None => runes "undefined" end ++ [BACKSLASH]
           else v
         | _ => v
         end) ++ [LF] ++ indent ++ sliceJs e (i + 1) a in
    foldJoin e indent mode u v l
  end.

(** [QUt]: the text, and whether it overflowed. *)
Definition foldText_ (e indent : jstr) (mode : foldMode) (o : FoldOptions) : option (jstr * bool) :=
  let i := lineWidth o in
  if i <=? 0 then Some (e, false)
  else
    let a := if i <? minContentWidth o then 0 else minContentWidth o in
    let c := Z.max (1 + a) (1 + i - len indent) in
    if len e <=? c then Some (e, false)
    else
      let d := i - len indent in
      let '(l, d) :=
        match indentAtStart o with
        | Some r => if i - Z.max 2 a <? r then ([0], d) else ([], i - r)
        | None => ([], d)
        end in
      match (match mode with FOLD_BLOCK => consumeMoreIndented e (-1) (len indent) | _ => Some (-1) end) with
      | None => None
      | Some h =>
        let s := {| folds := l; escapedFolds := []; fend := if h =? -1 then d else h + c; split := None;
                    prev := None; overflow := false; fpos := h; escStart := -1; escEnd := -1 |} in
        match foldScan (S (S (length e))) e indent mode c s with
        | None => None
        | Some (inl _) => Some (e, false)
        | Some (inr s) =>
          match folds s with
          | [] => Some (e, overflow s)
          | i0 :: _ => Some (foldJoin e indent mode (escapedFolds s) (sliceJs e 0 i0) (folds s), overflow s)
          end
        end
      end.

(** ** Quoted scalars: value to source *)

(** What the printers read of their context. *)
Record Ctx := {
  implicitKey : bool;
  indent : jstr;
  ctxIndentAtStart : option Z;
  doubleQuotedAsJSON : bool;
  doubleQuotedMinMultiLineLength : Z;
  optLineWidth : Z;
  optMinContentWidth : Z;
  singleQuote : option bool;
}.

(** [eWt(t, false)] *)
Definition foldOptions (t : Ctx) : FoldOptions :=
  {| indentAtStart := ctxIndentAtStart t; lineWidth := optLineWidth t; minContentWidth := optMinContentWidth t |}.

Definition isLineBreak (c : Z) : bool := (c =? LF) || (c =? CR) || (c =? 8232) || (c =? 8233).

(** [tWt]: [/^(%|---|\.\.\.)/m] *)
Fixpoint documentMarkerFrom (bol : bool) (s : jstr) : bool :=
  match s with
  | [] => false
  | c :: r =>
    (bol && ((c =? ch "%") || startsWith (runes "---") s || startsWith (runes "...") s))
    || documentMarkerFrom (isLineBreak c) r
  end.

Definition containsDocumentMarker (s : jstr) : bool := documentMarkerFrom true s.

(** [t.indent || (tWt(e) ? "  " : "")] *)
Definition contentIndent (t : Ctx) (e : jstr) : jstr :=
  match indent t with
  | [] => if containsDocumentMarker e then [SP; SP] else []
  | i => i
  end.

(** The short forms of the [\u] escapes; [h] is the four digits. *)
Definition shortEscape (h : jstr) : jstr :=
  if bool_decide (h = runes "0000") then [BACKSLASH; ch "0"]
  else if bool_decide (h = runes "0007") then [BACKSLASH; ch "a"]
  else if bool_decide (h = runes "000b") then [BACKSLASH; ch "v"]
  else if bool_decide (h = runes "001b") then [BACKSLASH; ch "e"]
  else if bool_decide (h = runes "0085") then [BACKSLASH; ch "N"]
  else if bool_decide (h = runes "00a0") then [BACKSLASH; ch "_"]
  else if bool_decide (h = runes "2028") then [BACKSLASH; ch "L"]
  else if bool_decide (h = runes "2029") then [BACKSLASH; ch "P"]
  else if bool_decide (take 2 h = runes "00") then [BACKSLASH; ch "x"] ++ drop 2 h
  else [BACKSLASH; ch "u"] ++ h.

(** The further [\n] escapes of a run, the last one before the closing quote left
    out; how many there are, and the rest. *)
Fixpoint newlineRun (rest : jstr) : nat * jstr :=
  match rest with
  | b :: n :: r =>
    if (b =? BACKSLASH) && (n =? ch "n") && negb (eqc (head r) DQ)
    then let '(k, r) := newlineRun r in (S k, r)
    else (0%nat, rest)
  | _ => (0%nat, rest)
  end.

Definition startsNewline (r : jstr) : bool := eqc (head r) BACKSLASH && eqc (head (drop 1 r)) (ch "n").

(** The loop of [rWt]: [rest] is the JSON text from the index on, and [out] is
    [o + n.slice(s, e)], the text printed so far and the part not copied yet.
    [multi] is whether line breaks may be printed as such. *)
Fixpoint printLoop (fuel : nat) (multi : bool) (ind rest out : jstr) : option jstr :=
  match fuel with
  | O => None
  | S fuel =>
    match rest with
    | [] => Some out
    | t :: r1 =>
      let spaced := (t =? SP) && startsNewline r1 in
      let out := if spaced then out ++ [BACKSLASH; SP] else out in
      let rest := if spaced then r1 else rest in
      match rest with
      | t :: c :: r2 =>
        if t =? BACKSLASH then
          if c =? ch "u" then printLoop fuel multi ind (drop 4 r2) (out ++ shortEscape (take 4 r2))
          else if c =? ch "n" then
            if negb multi || eqc (head r2) DQ then printLoop fuel multi ind r2 (out ++ [t; c])
            else
              let '(k, r3) := newlineRun r2 in
              printLoop fuel multi ind r3
                (out ++ [LF; LF] ++ replicate k LF ++ ind ++ (if eqc (head r3) SP then [BACKSLASH] else []))
          else printLoop fuel multi ind r2 (out ++ [t; c])
        else printLoop fuel multi ind (c :: r2) (out ++ [t])
      | _ => Some (out ++ rest)
      end
    end
  end.

(** [rWt] *)
Definition doubleQuotedString (e : jstr) (t : Ctx) : option jstr :=
  let n := quoteJSON e in
  if doubleQuotedAsJSON t then Some n
  else
    let a := contentIndent t e in
    let multi := negb (implicitKey t) && (doubleQuotedMinMultiLineLength t <=? len n) in
    match printLoop (S (length n)) multi a n [] with
    | None => None
    | Some o => if implicitKey t then Some o else fst <$> foldText_ o a FOLD_QUOTED (foldOptions t)
    end.

(** [/[ \t]\n|\n[ \t]/] *)
Fixpoint blankAtBreak (s : jstr) : bool :=
  match s with
  | [] => false
  | c :: r =>
    match r with
    | d :: _ => (isBlank c && (d =? LF)) || ((c =? LF) && isBlank d) || blankAtBreak r
    | [] => false
    end
  end.

(** [e.replace(/'/g, "''")] *)
Definition doubleQuotes (s : jstr) : jstr := s ≫= λ c, if c =? ch "'" then [c; c] else [c].

(** [e.replace(/\n+/g, "$&\n" + n)] *)
Fixpoint breakRuns (n s : jstr) : jstr :=
  match s with
  | [] => []
  | c :: r =>
    if (c =? LF) && negb (eqc (head r) LF) then LF :: LF :: n ++ breakRuns n r else c :: breakRuns n r
  end.

(** [iWt] *)
Definition singleQuotedString (e : jstr) (t : Ctx) : option jstr :=
  if bool_decide (singleQuote t = Some false) || (implicitKey t && existsb (Z.eqb LF) e) || blankAtBreak e
  then doubleQuotedString e t
  else
    let n := contentIndent t e in
    let r := [ch "'"] ++ breakRuns n (doubleQuotes e) ++ [ch "'"] in
    if implicitKey t then Some r else fst <$> foldText_ r n FOLD_FLOW (foldOptions t).

(** [aWt] *)
Definition quotedString (e : jstr) (t : Ctx) : option jstr :=
  if bool_decide (singleQuote t = Some false) then doubleQuotedString e t
  else
    let d := existsb (Z.eqb DQ) e in
    let q := existsb (Z.eqb (ch "'")) e in
    if d && negb q then singleQuotedString e t
    else if q && negb d then doubleQuotedString e t
    else if default false (singleQuote t) then singleQuotedString e t else doubleQuotedString e t.

(** The value of a quoted source ([YGt], by the first character). *)
Definition quotedValue (e : jstr) : option (exn * list (Z * code) + (jstr * list (Z * code))) :=
  if eqc (head e) (ch "'") then Some (inr (singleQuotedValue e)) else doubleQuotedValue e.

End Scalars.
