(* ===== verification/YamlScalarsProps.v ===== *)
(** * YAML quoted scalars: round trips

    Printing a string as a quoted scalar and resolving the source again gives the
    string back, unless the double-quoted printer meets a line that is one single
    space, or a line is folded under an indentation wider than the line. *)

From Stdlib Require Import ZArith Lia.
From stdpp Require Import base numbers strings gmap option list.
From S2P Require Import Prelude Js YamlLexer YamlLexerProps YamlScalars.

Open Scope Z_scope.
Import Yaml Scalars.

(** UTF-16 code units. *)
Definition isUnit (c : Z) : Prop := 0 <= c < 65536.

(** ** A JSON string literal, chunk by chunk *)

Inductive chunk :=
  | Raw (c : Z)
  | Esc (x a : Z)
  | NL
  | Uni (c : Z).

Definition json (k : chunk) : jstr :=
  match k with
  | Raw c => [c]
  | Esc x _ => [BACKSLASH; x]
  | NL => [BACKSLASH; ch "n"]
  | Uni c => [BACKSLASH; ch "u"] ++ hex4 c
  end.

Definition val (k : chunk) : jstr :=
  match k with Raw c => [c] | Esc _ a => [a] | NL => [LF] | Uni c => [c] end.

Definition chunkOk (k : chunk) : Prop :=
  match k with
  | Raw c => 32 <= c ∧ c ≠ DQ ∧ c ≠ BACKSLASH
  | Esc x a => escapeCode x = Some a ∧ x ≠ ch "u" ∧ x ≠ ch "n" ∧ a ≠ LF ∧ a ≠ SP
  | NL => True
  | Uni c => (0 <= c < 32 ∧ c ≠ LF) ∨ 55296 <= c < 57344
  end.

Lemma quoteUnit_chunk c : isUnit c → isLead c = false → isTrail c = false →
  ∃ k, chunkOk k ∧ quoteUnit c = json k ∧ [c] = val k.
Proof.
  intros Hu Hl Ht. unfold quoteUnit.
  repeat match goal with
  | |- context [if ?c =? ?n then _ else _] =>
    destruct (Z.eqb_spec c n) as [->|];
      [first [by exists NL
             | by exists (Esc DQ DQ) | by exists (Esc BACKSLASH BACKSLASH) | by exists (Esc (ch "b") 8)
             | by exists (Esc (ch "f") 12) | by exists (Esc (ch "r") CR) | by exists (Esc (ch "t") TAB)]|]
  end.
  destruct (c <? 32) eqn:E; zbool.
  - exists (Uni c). split_and!; [|done|done]. left. unfold isUnit in Hu. split; [lia|done].
  - exists (Raw c). split_and!; [|done|done]. split_and!; [lia|done|done].
Qed.

(** Every string literal is made of chunks. *)
Lemma quoteAll_chunks v : Forall isUnit v →
  ∃ ks, Forall chunkOk ks ∧ quoteAll v = ks ≫= json ∧ v = ks ≫= val.
Proof.
  induction (well_founded_ltof _ (@length Z) v) as [v _ IH]. unfold ltof in IH.
  intros Hu. destruct v as [|c r]; [by exists []|]. apply Forall_cons in Hu as [Hc Hr].
  assert (Huni : 55296 <= c < 57344 → ∃ ks, Forall chunkOk ks ∧
    runes "\u" ++ hex4 c ++ quoteAll r = ks ≫= json ∧ c :: r = ks ≫= val).
  { intros Hs. destruct (IH r) as (ks & Hok & Hq & Hv); [simpl; lia|done|].
    exists (Uni c :: ks). split_and!; [constructor; [by right|done]| |by rewrite Hv at 1].
    rewrite Hq. done. }
  cbn [quoteAll]. destruct (isLead c) eqn:El.
  - unfold isLead in El. destruct r as [|d r].
    + destruct Huni as (ks & H1 & H2 & H3); [lia|]. exists ks. split_and!; [done| |done].
      rewrite <- H2. by rewrite app_nil_r.
    + destruct (isTrail d) eqn:Et; [|apply Huni; lia]. unfold isTrail in Et.
      apply Forall_cons in Hr as [_ Hr].
      destruct (IH r) as (ks & Hok & Hq & Hv); [simpl; lia|done|].
      exists (Raw c :: Raw d :: ks). split_and!; [|by rewrite Hq|by rewrite Hv at 1].
      repeat constructor; try done; simpl; unfold DQ, BACKSLASH; lia.
  - destruct (isTrail c) eqn:Et; [apply Huni; unfold isTrail in Et; lia|].
    destruct (quoteUnit_chunk c Hc El Et) as (k & Hk & Hq1 & Hv1).
    destruct (IH r) as (ks & Hok & Hq & Hv); [simpl; lia|done|].
    exists (k :: ks). split_and!; [by constructor|by rewrite Hq1, Hq|].
    change ((k :: ks) ≫= val) with (val k ++ (ks ≫= val)). by rewrite <- Hv1, <- Hv.
Qed.

(** ** Reading *)

(** More fuel than characters is enough. *)
Lemma dqLoop_fuel fuel fuel' r rest n errs : (length rest < fuel)%nat → (length rest < fuel')%nat →
  dqLoop fuel r rest n errs = dqLoop fuel' r rest n errs.
Proof.
  revert fuel' r rest n errs. induction fuel as [|fuel IH]; intros fuel' r rest n errs Hf Hf'; [lia|].
  destruct fuel' as [|fuel']; [lia|]. cbn [dqLoop].
  destruct rest as [|i [|c rest]]; [done..|]. cbn [length] in *.
  repeat case_match; try done; apply IH; rewrite ?length_drop; cbn [length] in *; lia.
Qed.

(** From the text [o], the closing quote included, the reader gets [w]. *)
Definition reads (o w : jstr) : Prop := ∀ fuel r n errs, (length o < fuel)%nat →
  dqLoop fuel r o n errs = Some (inr (n ++ w, errs)).

Lemma reads_end : reads [DQ] [].
Proof. intros fuel r n errs Hf. destruct fuel; [simpl in Hf; lia|]. simpl. by rewrite app_nil_r. Qed.

Lemma reads_raw c o w : c ≠ CR → c ≠ LF → c ≠ BACKSLASH → isBlank c = false → o ≠ [] → reads o w →
  reads (c :: o) (c :: w).
Proof.
  intros Hcr Hlf Hb Hbl Ho Hr fuel r n errs Hf. destruct fuel as [|fuel]; [simpl in Hf; lia|].
  destruct o as [|d o]; [done|]. cbn [dqLoop].
  rewrite (proj2 (Z.eqb_neq _ _) Hcr), (proj2 (Z.eqb_neq _ _) Hlf), (proj2 (Z.eqb_neq _ _) Hb), Hbl. cbn [andb].
  rewrite Hr by (simpl in *; lia). by rewrite <- app_assoc.
Qed.

Lemma reads_escape x a o w : escapeCode x = Some a → reads o w →
  reads (BACKSLASH :: x :: o) (a :: w).
Proof.
  intros Hx Hr fuel r n errs Hf. destruct fuel as [|fuel]; [simpl in Hf; lia|].
  cbn [dqLoop]. rewrite Hx. cbn [head eqc]. change (BACKSLASH =? CR) with false.
  change (BACKSLASH =? LF) with false. change (BACKSLASH =? BACKSLASH) with true. cbn [andb].
  rewrite Hr by (simpl in *; lia). by rewrite <- app_assoc.
Qed.

(** A numeric escape. *)
Lemma reads_code x k h c o w : escapeCode x = None → x ≠ LF → x ≠ CR → escapeLength x = Some k →
  length h = k → parseHex 0 h = Some c → isUnit c → reads o w →
  reads (BACKSLASH :: x :: h ++ o) (c :: w).
Proof.
  intros Hx Hlf Hcr Hk Hh Hp Hc Hr fuel r n errs Hf. destruct fuel as [|fuel]; [simpl in Hf; lia|].
  cbn [dqLoop]. rewrite Hx, (proj2 (Z.eqb_neq _ _) Hcr), (proj2 (Z.eqb_neq _ _) Hlf), Hk.
  cbn [head eqc]. change (BACKSLASH =? CR) with false.
  change (BACKSLASH =? LF) with false. change (BACKSLASH =? BACKSLASH) with true. cbn [andb].
  unfold parseCharCode. change (drop 2 (BACKSLASH :: x :: h ++ o)) with (h ++ o).
  rewrite take_app_length' by done. rewrite bool_decide_eq_true_2 by done. rewrite Hp.
  unfold fromCodePoint. unfold isUnit in Hc. replace (c <? 65536) with true by lia. cbn iota.
  rewrite drop_app_length' by done.
  rewrite Hr by (simpl in *; rewrite length_app in Hf; lia). by rewrite <- app_assoc.
Qed.

(** The blanks at the head are not at the end of a line. *)
Definition noBreak (o : jstr) : Prop :=
  ∀ c, head (drop (blanks o) o) = Some c → c ≠ LF ∧ c ≠ CR.

Lemma blanks_cons c o : isBlank c = true → blanks (c :: o) = S (blanks o).
Proof. intros H. unfold blanks. simpl. rewrite H. pose proof (countWhile_range isBlank o). lia. Qed.

(** A space that does not end a line is read as it is. *)
Lemma reads_space o w : noBreak o → o ≠ [] → last o = Some DQ → reads o w → reads (SP :: o) (SP :: w).
Proof.
  intros Hnb Ho Hlast Hr fuel r n errs Hf. destruct fuel as [|fuel]; [simpl in Hf; lia|].
  destruct o as [|d o]; [done|]. cbn [dqLoop]. change (isBlank SP) with true.
  change ((SP =? CR) && eqc (head (d :: o)) LF) with false. change (SP =? LF) with false.
  change (SP =? BACKSLASH) with false. cbn iota zeta.
  assert (Hnot : eqc (head (drop (blanks (d :: o)) (d :: o))) LF
    || eqc (head (drop (blanks (d :: o)) (d :: o))) CR
       && eqc (head (drop 1 (drop (blanks (d :: o)) (d :: o)))) LF = false).
  { destruct (head (drop (blanks (d :: o)) (d :: o))) as [c|] eqn:Eh; [|done].
    destruct (Hnb c Eh) as [H1 H2]. cbn [eqc].
    by rewrite (proj2 (Z.eqb_neq _ _) H1), (proj2 (Z.eqb_neq _ _) H2). }
  rewrite Hnot. destruct (isBlank d) eqn:Ed.
  - (* the run goes on: reading from the next blank gives the same *)
    assert (Hnext : dqLoop fuel (r + 1) (d :: o) (n ++ [SP]) errs = Some (inr ((n ++ [SP]) ++ w, errs))).
    { apply Hr. simpl in *. lia. }
    destruct fuel as [|fuel]; [simpl in Hf; lia|]. destruct o as [|d' o].
    { simpl in Hlast. injection Hlast as ->. done. }
    cbn [dqLoop] in Hnext. rewrite Ed in Hnext.
    assert (Hd : d ≠ CR ∧ d ≠ LF ∧ d ≠ BACKSLASH) by (split_and!; intros ->; done).
    destruct Hd as (H1 & H2 & H3).
    rewrite (proj2 (Z.eqb_neq _ _) H1), (proj2 (Z.eqb_neq _ _) H2), (proj2 (Z.eqb_neq _ _) H3) in Hnext.
    cbn [andb] in Hnext. rewrite !blanks_cons in * by done. cbn [drop take] in *. rewrite Hnot in Hnext.
    rewrite <- !app_assoc in Hnext. cbn [app] in Hnext.
    replace (r + 1 + Z.of_nat (S (blanks (d' :: o)))) with (r + 1 + 1 + Z.of_nat (blanks (d' :: o))) by lia.
    rewrite <- Hnext. apply dqLoop_fuel; rewrite length_drop; simpl in *; lia.
  - unfold blanks. simpl. rewrite Ed. simpl. rewrite Z.add_0_r. rewrite Hr by (simpl in *; lia). by rewrite <- app_assoc.
Qed.

(** The text after a line break and its indentation. *)
Definition startsText (o : jstr) : Prop :=
  ∃ c o', o = c :: o' ∧ isBlank c = false ∧ c ≠ LF ∧ c ≠ CR.

Lemma foldLines_indent ind o : Forall (eq SP) ind → startsText o → foldLines (ind ++ o) = ([], length ind).
Proof.
  intros Hi (c & o' & -> & Hb & Hlf & Hcr). induction Hi as [|x ind <- _ IH].
  - simpl. by rewrite Hb, (proj2 (Z.eqb_neq _ _) Hlf), (proj2 (Z.eqb_neq _ _) Hcr).
  - simpl. by rewrite IH.
Qed.

Lemma foldLines_run k ind o : Forall (eq SP) ind → startsText o →
  foldLines (replicate k LF ++ ind ++ o) = (replicate k LF, (k + length ind)%nat).
Proof.
  intros Hi Ho. induction k as [|k IH]; [simpl; by apply foldLines_indent|]. simpl. by rewrite IH.
Qed.

(** Line breaks with the indentation after them: the first is folded away. *)
Lemma reads_break k ind o w : Forall (eq SP) ind → startsText o → reads o w →
  reads ([LF; LF] ++ replicate k LF ++ ind ++ o) (LF :: replicate k LF ++ w).
Proof.
  intros Hi Ho Hr fuel r n errs Hf. destruct fuel as [|fuel]; [simpl in Hf; lia|].
  cbn [app dqLoop]. change (LF =? CR) with false. change (LF =? LF) with true. cbn [andb].
  change (LF :: replicate k LF ++ ind ++ o) with (replicate (S k) LF ++ ind ++ o) in *.
  rewrite foldLines_run by done. rewrite <- drop_drop, drop_app_length' by (by rewrite length_replicate).
  rewrite drop_app_length, Hr.
  - simpl. rewrite <- app_assoc. done.
  - simpl in Hf. rewrite !length_app in Hf. lia.
Qed.

(** ** Numeric escapes *)

Lemma hexValue_digit d : 0 <= d < 16 → hexValue (if d <? 10 then 48 + d else 87 + d) = Some d.
Proof.
  intros Hd. unfold hexValue. destruct (d <? 10) eqn:E; zbool.
  - replace ((48 <=? 48 + d) && (48 + d <=? 57)) with true by lia. f_equal. lia.
  - replace ((48 <=? 87 + d) && (87 + d <=? 57)) with false by lia.
    replace ((65 <=? 87 + d) && (87 + d <=? 70)) with false by lia.
    replace ((97 <=? 87 + d) && (87 + d <=? 102)) with true by lia. f_equal. lia.
Qed.

Lemma parseHex_hex4 c : isUnit c → parseHex 0 (hex4 c) = Some c.
Proof.
  intros Hc. unfold isUnit in Hc. unfold hex4. cbn [parseHex].
  rewrite !hexValue_digit by (apply Z.mod_pos_bound; lia). f_equal.
  pose proof (Z.div_mod c 16 ltac:(lia)). pose proof (Z.div_mod (c / 16) 16 ltac:(lia)).
  pose proof (Z.div_mod (c / 16 / 16) 16 ltac:(lia)). pose proof (Z.div_mod (c / 16 / 16 / 16) 16 ltac:(lia)).
  assert (c / 256 = c / 16 / 16) as -> by (by rewrite Z.div_div by lia).
  assert (c / 4096 = c / 16 / 16 / 16) as -> by (by rewrite !Z.div_div by lia).
  assert (c / 16 / 16 / 16 / 16 = 0) by (rewrite !Z.div_div by lia; apply Z.div_small; lia). lia.
Qed.

(** The short form of an escaped unit reads as the unit. *)
Lemma reads_uni c o w : ((0 <= c < 32 ∧ c ≠ LF) ∨ 55296 <= c < 57344) → reads o w →
  reads (shortEscape (hex4 c) ++ o) (c :: w).
Proof.
  intros Hc Hr. destruct Hc as [[Hc _]|Hc].
  - assert (Hcase : ∃ x a h, shortEscape (hex4 c) = [BACKSLASH; x] ++ h ∧
      ((h = [] ∧ escapeCode x = Some c) ∨
       (x = ch "x" ∧ a = c ∧ length h = 2%nat ∧ parseHex 0 h = Some c))).
    { assert (Hin : In c (map Z.of_nat (seq 0 32))).
      { apply in_map_iff. exists (Z.to_nat c). split; [lia|]. apply in_seq. lia. }
      simpl in Hin. repeat (destruct Hin as [<-|Hin];
        [first [ by eexists _, 0, []; split; [reflexivity|left]
               | eexists _, _, [_; _]; split; [reflexivity|right]; split_and!; reflexivity ]|]). done. }
    destruct Hcase as (x & a & h & -> & [[-> Hx]|(-> & -> & Hh & Hp)]).
    + by apply reads_escape.
    + by apply (reads_code (ch "x") 2 h c); try done; unfold isUnit; lia.
  - assert (Hs : shortEscape (hex4 c) = [BACKSLASH; ch "u"] ++ hex4 c).
    { assert (Hd : c / 4096 mod 16 = 13).
      { assert (c / 4096 = 13) as -> by (symmetry; apply (Z.div_unique c 4096 13 (c - 53248)); lia). done. }
      unfold shortEscape, hex4. rewrite Hd. by repeat (rewrite bool_decide_eq_false_2 by done). }
    rewrite Hs. apply (reads_code (ch "u") 4 (hex4 c) c); try done; [|unfold isUnit; lia].
    apply parseHex_hex4. unfold isUnit. lia.
Qed.

(** ** Printing *)

(** The rest of the literal, with the closing quote. *)
Definition lit (ks : list chunk) : jstr := (ks ≫= json) ++ [DQ].
Definition vals (ks : list chunk) : jstr := ks ≫= val.

Lemma lit_cons k ks : lit (k :: ks) = json k ++ lit ks.
Proof. unfold lit. change ((k :: ks) ≫= json) with (json k ++ (ks ≫= json)). by rewrite app_assoc. Qed.

Lemma vals_cons k ks : vals (k :: ks) = val k ++ vals ks.
Proof. done. Qed.

Definition isNL (ks : list chunk) : bool := match ks with NL :: _ => true | _ => false end.
Definition isSP (ks : list chunk) : bool := match ks with Raw c :: _ => c =? SP | _ => false end.

(** No line of the value is one single space. *)
Definition noSpaceLine (v : jstr) : Prop := ∀ a b, v ≠ a ++ [LF; SP; LF] ++ b.

Lemma noSpaceLine_app a v : noSpaceLine (a ++ v) → noSpaceLine v.
Proof. intros H x b ->. apply (H (a ++ x) b). by rewrite <- app_assoc. Qed.

Lemma startsText_noBreak o : startsText o → noBreak o.
Proof.
  intros (c & o' & -> & Hb & Hlf & Hcr) d. unfold blanks. simpl. rewrite Hb. simpl. intros [= <-]. done.
Qed.

Lemma startsText_backslash o : startsText (BACKSLASH :: o).
Proof. by exists BACKSLASH, o. Qed.

Lemma startsNewline_lit ks : Forall chunkOk ks → startsNewline (lit ks) = isNL ks.
Proof.
  intros Hok. destruct ks as [|k ks]; [done|]. apply Forall_cons in Hok as [Hk _]. rewrite lit_cons.
  unfold startsNewline. destruct k as [c|x a| |c]; simpl; try done.
  - destruct Hk as (_ & _ & Hb). by rewrite (proj2 (Z.eqb_neq _ _) Hb).
  - destruct Hk as (_ & _ & Hn & _). by rewrite (proj2 (Z.eqb_neq _ _) Hn).
Qed.

Lemma head_lit_quote ks : Forall chunkOk ks → eqc (head (lit ks)) DQ = match ks with [] => true | _ => false end.
Proof.
  intros Hok. destruct ks as [|k ks]; [done|]. apply Forall_cons in Hok as [Hk _]. rewrite lit_cons.
  destruct k as [c|x a| |c]; simpl; try done. destruct Hk as (_ & Hq & _).
  by rewrite (proj2 (Z.eqb_neq _ _) Hq).
Qed.

Lemma head_lit_space ks : eqc (head (lit ks)) SP = isSP ks.
Proof. destruct ks as [|[c|x a| |c] ks]; [done|..]; by rewrite lit_cons. Qed.

Lemma lit_nonempty ks : ∃ c r, lit ks = c :: r.
Proof. unfold lit. destruct (ks ≫= json); eauto. Qed.

(** The run of line breaks, its last one before the closing quote left out. *)
Lemma newlineRun_lit ks : Forall chunkOk ks → ∃ k ks', ks = replicate k NL ++ ks' ∧
  newlineRun (lit ks) = (k, lit ks') ∧ (isNL ks' = true → ks' = [NL]).
Proof.
  induction 1 as [|k ks Hk Hok IH]; [by exists 0%nat, []|].
  assert (Hstop : k ≠ NL → ∃ k0 ks', k :: ks = replicate k0 NL ++ ks' ∧
    newlineRun (lit (k :: ks)) = (k0, lit ks') ∧ (isNL ks' = true → ks' = [NL])).
  { intros Hne. exists 0%nat, (k :: ks). split_and!; [done| |by destruct k].
    destruct (lit_nonempty ks) as (c & r & Hl). rewrite lit_cons. destruct k as [x|x a| |x]; [|..|done|].
    - destruct Hk as (_ & _ & Hb). rewrite Hl. simpl. by rewrite (proj2 (Z.eqb_neq _ _) Hb).
    - destruct Hk as (_ & _ & Hn & _). simpl. by rewrite (proj2 (Z.eqb_neq _ _) Hn).
    - done. }
  destruct (decide (isNL (k :: ks) = true)) as [Hnl|Hnl]; [|apply Hstop; by intros ->].
  destruct k; try done. rewrite lit_cons. simpl. rewrite head_lit_quote by done.
  destruct ks as [|k2 ks2].
  - exists 0%nat, [NL]. done.
  - destruct IH as (n & ks' & Heq & Hrun & Hs). rewrite Hrun. simpl. exists (S n), ks'.
    split_and!; [by rewrite Heq|done|done].
Qed.

Lemma vals_replicate k ks : vals (replicate k NL ++ ks) = replicate k LF ++ vals ks.
Proof.
  induction k as [|k IH]; [done|].
  change (replicate (S k) NL ++ ks) with (NL :: (replicate k NL ++ ks)). by rewrite vals_cons, IH.
Qed.

(** What the printer made of the chunks. *)
Record printed (ks : list chunk) (o : jstr) : Prop := {
  p_reads : reads o (vals ks);
  p_last : last o = Some DQ;
  p_noBreak : isNL ks = false → noBreak o;
  p_text : isNL ks = false → isSP ks = false → startsText o;
  p_single : ks = [NL] → startsText o;
  p_space : ∀ ks', ks = Raw SP :: ks' → isNL ks' = false → ∃ o', o = SP :: o' ∧ reads o' (vals ks') ∧ last o' = Some DQ;
}.

Lemma printed_text ks o : reads o (vals ks) → last o = Some DQ → startsText o →
  (∀ ks', ks = Raw SP :: ks' → isNL ks' = true) → printed ks o.
Proof.
  intros Hr Hl Ht Hsp. constructor; try done; [by intros; apply startsText_noBreak|].
  intros ks' Heq Hn. rewrite (Hsp _ Heq) in Hn. done.
Qed.

Lemma last_cons_some {A} (x : A) o y : last o = Some y → last (x :: o) = Some y.
Proof. destruct o; [done|]. by intros <-. Qed.

Lemma last_app_some {A} (l o : list A) y : last o = Some y → last (l ++ o) = Some y.
Proof. intros H. induction l as [|x l IH]; [done|]. by apply last_cons_some. Qed.

Section print.
Context (multi : bool) (ind : jstr).
Hypothesis Hind : Forall (eq SP) ind.

Definition prints (ks : list chunk) : Prop := ∀ fuel out, (length (lit ks) < fuel)%nat →
  ∃ o, printLoop fuel multi ind (lit ks) out = Some (out ++ o) ∧ printed ks o.

Lemma prints_nil : prints [].
Proof.
  intros fuel out Hf. destruct fuel; [simpl in Hf; lia|]. exists [DQ]. split; [done|].
  apply printed_text; [apply reads_end|done|by exists DQ, []|done].
Qed.

Lemma prints_raw c ks : chunkOk (Raw c) → c ≠ SP → prints ks → prints (Raw c :: ks).
Proof.
  intros (Hc & Hq & Hb) Hsp IH fuel out Hf. rewrite lit_cons in *. cbn [json app length] in *.
  destruct fuel as [|fuel]; [lia|]. destruct (IH fuel (out ++ [c])) as (o & Hrun & Ho); [lia|].
  exists (c :: o). destruct (lit_nonempty ks) as (d & r & Hl). rewrite Hl in *. cbn [printLoop].
  rewrite (proj2 (Z.eqb_neq _ _) Hsp). cbn [andb]. cbn zeta iota. rewrite (proj2 (Z.eqb_neq _ _) Hb). split.
  - rewrite Hrun. by rewrite <- app_assoc.
  - assert (Hno : isBlank c = false ∧ c ≠ LF ∧ c ≠ CR).
    { unfold isBlank. rewrite (proj2 (Z.eqb_neq _ _) Hsp). unfold TAB, LF, CR. split_and!; [|lia|lia].
      simpl. lia. }
    destruct Hno as (Hbl & Hlf & Hcr). destruct Ho as [Hr Hla _ _ _ _].
    apply printed_text; [|by apply last_cons_some|by exists c, o|by intros ks' [= ->]].
    rewrite vals_cons. apply reads_raw; try done. by intros ->.
Qed.

Lemma prints_space ks : Forall chunkOk ks → isNL ks = false → prints ks → prints (Raw SP :: ks).
Proof.
  intros Hok Hnl IH fuel out Hf. rewrite lit_cons in *. cbn [json app length] in *.
  destruct fuel as [|fuel]; [lia|]. destruct (IH fuel (out ++ [SP])) as (o & Hrun & Ho); [lia|].
  exists (SP :: o). pose proof (startsNewline_lit ks Hok) as Hs. rewrite Hnl in Hs.
  destruct (lit_nonempty ks) as (d & r & Hl). rewrite Hl in *. cbn [printLoop]. rewrite Hs, andb_false_r. cbn zeta iota.
  change (SP =? BACKSLASH) with false. split; [rewrite Hrun; by rewrite <- app_assoc|].
  destruct Ho as [Hr Hla Hnb _ _ _]. specialize (Hnb Hnl).
  constructor.
  - rewrite vals_cons. apply reads_space; [done|by intros ->|done|done].
  - by apply last_cons_some.
  - intros _ c. rewrite blanks_cons by done. apply Hnb.
  - done.
  - done.
  - intros ks' [= <-] _. by exists o.
Qed.

Lemma prints_spaced ks : prints (NL :: ks) → prints (Raw SP :: NL :: ks).
Proof.
  intros IH fuel out Hf. rewrite lit_cons in *. cbn [json app length] in *.
  destruct (IH fuel (out ++ [BACKSLASH; SP])) as (o & Hrun & Ho); [lia|].
  exists (BACKSLASH :: SP :: o). split.
  - rewrite <- app_assoc in Hrun. cbn [app] in Hrun. rewrite <- Hrun, lit_cons. by destruct fuel.
  - destruct Ho as [Hr Hla _ _ _ _].
    apply printed_text; [|by do 2 apply last_cons_some|apply startsText_backslash|by intros ks' [= <-]].
    rewrite vals_cons. by apply reads_escape.
Qed.

Lemma prints_esc x a ks : chunkOk (Esc x a) → prints ks → prints (Esc x a :: ks).
Proof.
  intros (Hx & Hu & Hn & _) IH fuel out Hf. rewrite lit_cons in *. cbn [json app length] in *.
  destruct fuel as [|fuel]; [lia|]. destruct (IH fuel (out ++ [BACKSLASH; x])) as (o & Hrun & Ho); [lia|].
  exists (BACKSLASH :: x :: o). cbn [printLoop]. change (BACKSLASH =? SP) with false. cbn [andb]. cbn zeta iota.
  change (BACKSLASH =? BACKSLASH) with true. cbn iota.
  rewrite (proj2 (Z.eqb_neq _ _) Hu), (proj2 (Z.eqb_neq _ _) Hn). split; [rewrite Hrun; by rewrite <- app_assoc|].
  destruct Ho as [Hr Hla _ _ _ _].
  apply printed_text; [|by do 2 apply last_cons_some|apply startsText_backslash|done].
  rewrite vals_cons. by apply reads_escape.
Qed.

Lemma shortEscape_backslash h : ∃ r, shortEscape h = BACKSLASH :: r.
Proof. unfold shortEscape. repeat case_match; by eexists. Qed.

Lemma prints_uni c ks : chunkOk (Uni c) → prints ks → prints (Uni c :: ks).
Proof.
  intros Hc IH fuel out Hf. rewrite lit_cons in *. cbn [json app length] in *.
  destruct fuel as [|fuel]; [lia|]. rewrite length_app in Hf. cbn [length] in Hf.
  destruct (IH fuel (out ++ shortEscape (hex4 c))) as (o & Hrun & Ho); [lia|].
  exists (shortEscape (hex4 c) ++ o). cbn [printLoop]. change (BACKSLASH =? SP) with false. cbn [andb]. cbn zeta iota.
  change (BACKSLASH =? BACKSLASH) with true. change (ch "u" =? ch "u") with true. cbn iota.
  rewrite (take_app_length' (hex4 c)), (drop_app_length' (hex4 c)) by done.
  split; [rewrite Hrun; by rewrite <- app_assoc|].
  destruct Ho as [Hr Hla _ _ _ _].
  apply printed_text; [|by apply last_app_some| |done].
  - rewrite vals_cons. by apply reads_uni.
  - destruct (shortEscape_backslash (hex4 c)) as [r ->]. apply startsText_backslash.
Qed.

(** A line break printed as an escape: not in a multi-line text, or the last. *)
Lemma prints_nl_escaped ks : Forall chunkOk ks → (multi = false ∨ ks = []) → prints ks → prints (NL :: ks).
Proof.
  intros Hok Hm IH fuel out Hf. rewrite lit_cons in *. cbn [json app length] in *.
  destruct fuel as [|fuel]; [lia|]. destruct (IH fuel (out ++ [BACKSLASH; ch "n"])) as (o & Hrun & Ho); [lia|].
  exists (BACKSLASH :: ch "n" :: o). cbn [printLoop]. change (BACKSLASH =? SP) with false. cbn [andb]. cbn zeta iota.
  change (BACKSLASH =? BACKSLASH) with true. change (ch "n" =? ch "u") with false.
  change (ch "n" =? ch "n") with true. cbn iota. rewrite head_lit_quote by done.
  assert (negb multi || match ks with [] => true | _ => false end = true) as ->.
  { destruct Hm as [-> | ->]; [done|]. by rewrite orb_true_r. }
  split; [rewrite Hrun; by rewrite <- app_assoc|]. destruct Ho as [Hr Hla _ _ _ _].
  apply printed_text; [|by do 2 apply last_cons_some|apply startsText_backslash|done].
  rewrite vals_cons. by apply reads_escape.
Qed.

(** A run of line breaks printed as such. *)
Lemma prints_nl_multi ks k ks' : multi = true → ks ≠ [] → Forall chunkOk ks →
  ks = replicate k NL ++ ks' → newlineRun (lit ks) = (k, lit ks') → (isNL ks' = true → ks' = [NL]) →
  noSpaceLine (vals (NL :: ks)) → prints ks' → prints (NL :: ks).
Proof.
  intros Hmu Hne Hok Heq Hrun Hlast Hclean IH fuel out Hf. rewrite lit_cons in *. cbn [json app length] in *.
  destruct fuel as [|fuel]; [lia|]. cbn [printLoop]. change (BACKSLASH =? SP) with false. cbn [andb]. cbn zeta iota.
  change (BACKSLASH =? BACKSLASH) with true. change (ch "n" =? ch "u") with false.
  change (ch "n" =? ch "n") with true. cbn iota. rewrite head_lit_quote, Hmu by done.
  destruct ks as [|k0 ks0]; [done|]. cbn [negb orb]. rewrite Hrun, head_lit_space.
  set (sp := if isSP ks' then [BACKSLASH] else []).
  assert (Hlen : (length (lit ks') <= length (lit (k0 :: ks0)))%nat).
  { rewrite Heq. unfold lit. rewrite bind_app, !length_app. lia. }
  destruct (IH fuel (out ++ [LF; LF] ++ replicate k LF ++ ind ++ sp)) as (o & Hgo & Ho); [lia|].
  exists ([LF; LF] ++ replicate k LF ++ ind ++ sp ++ o). split.
  { rewrite Hmu in Hgo. rewrite Hgo. by rewrite <- !app_assoc. }
  assert (Hval : vals (NL :: k0 :: ks0) = LF :: replicate k LF ++ vals ks').
  { by rewrite vals_cons, Heq, vals_replicate. }
  assert (Hfin : startsText (sp ++ o) ∧ reads (sp ++ o) (vals ks')).
  { subst sp. destruct (isSP ks') eqn:Esp; [|split; [|apply Ho]].
    - destruct ks' as [|[c| | |] ks2]; try done. simpl in Esp. zbool. subst c.
      assert (Hnn : isNL ks2 = false).
      { destruct ks2 as [|[] ks3]; try done. exfalso. rewrite Hval in Hclean.
        apply (Hclean (replicate k LF) (vals ks3)). rewrite !vals_cons. simpl.
        change (LF :: replicate k LF ++ SP :: LF :: vals ks3) with (replicate (S k) LF ++ SP :: LF :: vals ks3).
        by rewrite replicate_S_end, <- app_assoc. }
      destruct (p_space _ _ Ho ks2 eq_refl Hnn) as (o' & -> & Hr & _).
      split; [apply startsText_backslash|]. rewrite vals_cons. by apply reads_escape.
    - simpl. destruct (isNL ks') eqn:Enl; [by apply (p_single _ _ Ho); auto|by apply (p_text _ _ Ho)]. }
  destruct Hfin as [Htext Hreads]. constructor; try done.
  - rewrite Hval. by apply reads_break.
  - do 4 apply last_app_some. apply Ho.
Qed.

Lemma prints_all ks : Forall chunkOk ks → (multi = true → noSpaceLine (vals ks)) → prints ks.
Proof.
  induction (well_founded_ltof _ (@length chunk) ks) as [ks _ IH]. unfold ltof in IH.
  intros Hok Hclean. destruct ks as [|k ks]; [apply prints_nil|].
  pose proof Hok as [Hk Hks]%Forall_cons.
  assert (Htail : prints ks).
  { apply IH; [simpl; lia|done|]. intros Hm. eapply noSpaceLine_app. rewrite <- vals_cons. auto. }
  destruct k as [c|x a| |c]; [| by apply prints_esc | | by apply prints_uni].
  - destruct (decide (c = SP)) as [->|]; [|by apply prints_raw].
    destruct (isNL ks) eqn:Enl; [|by apply prints_space].
    destruct ks as [|[] ks]; try done. by apply prints_spaced.
  - destruct (decide (multi = false ∨ ks = [])) as [Hor|Hor]; [by apply prints_nl_escaped|].
    assert (Hm : multi = true) by (destruct multi; [done|exfalso; auto]).
    destruct (newlineRun_lit ks Hks) as (k & ks' & Heq & Hrun & Hs).
    eapply prints_nl_multi; try done; [by intros ->; auto|by apply Hclean|].
    apply IH; [rewrite Heq; simpl; rewrite length_app; lia| |].
    + rewrite Heq in Hks. by apply Forall_app in Hks as [_ ?].
    + intros _. specialize (Hclean Hm). rewrite Heq in Hclean.
      apply (noSpaceLine_app (LF :: replicate k LF)). simpl. rewrite <- vals_replicate. done.
Qed.

End print.

(** ** Round trips *)

(** No folding: a key, or no limit on the width. *)
Definition unfolded (t : Ctx) : bool := implicitKey t || (optLineWidth t <=? 0).

(** Line breaks are printed as such. *)
Definition multiLine (v : jstr) (t : Ctx) : bool :=
  negb (implicitKey t) && (doubleQuotedMinMultiLineLength t <=? len (quoteJSON v)).

(** The printed source of a value resolves to the value, without errors. *)
Definition resolvesTo (e : jstr) (v : jstr) : Prop := quotedValue e = Some (inr (v, [])).

Lemma contentIndent_spaces v t : Forall (eq SP) (indent t) → Forall (eq SP) (contentIndent t v).
Proof.
  intros H. unfold contentIndent. destruct (indent t); [|done].
  destruct (containsDocumentMarker v); [by repeat constructor|done].
Qed.

Lemma doubleQuoted_resolves v t : Forall isUnit v → Forall (eq SP) (indent t) → unfolded t = true →
  doubleQuotedAsJSON t = false → (multiLine v t = true → noSpaceLine v) →
  ∃ e, doubleQuotedString v t = Some e ∧ resolvesTo e v.
Proof.
  intros Hu Hi Hf Hj Hclean. destruct (quoteAll_chunks v Hu) as (ks & Hok & Hq & Hv).
  fold (vals ks) in Hv. unfold doubleQuotedString. rewrite Hj. fold (multiLine v t).
  assert (Hn : quoteJSON v = DQ :: lit ks) by (unfold quoteJSON, lit; by rewrite Hq).
  destruct (prints_all (multiLine v t) (contentIndent t v) (contentIndent_spaces v t Hi) ks Hok) with
    (fuel := S (length (lit ks))) (out := [DQ]) as (o & Hrun & Ho); [by rewrite <- Hv|lia|].
  assert (Hloop : printLoop (S (length (quoteJSON v))) (multiLine v t) (contentIndent t v) (quoteJSON v) [] =
    Some (DQ :: o)).
  { rewrite Hn. cbn [length printLoop]. change (DQ =? SP) with false. cbn [andb]. cbn zeta iota.
    destruct (lit_nonempty ks) as (c & r & Hl). rewrite Hl in *. change (DQ =? BACKSLASH) with false.
    cbn [app]. done. }
  rewrite Hloop. exists (DQ :: o). split.
  - unfold unfolded in Hf. destruct (implicitKey t); [done|]. simpl in Hf.
    unfold foldText_, foldOptions. cbn [lineWidth]. by rewrite Hf.
  - destruct Ho as [Hr Hla _ _ _ _]. unfold resolvesTo, quotedValue. change (eqc (head (DQ :: o)) (ch "'")) with false.
    cbn iota. unfold doubleQuotedValue. change (drop 1 (DQ :: o)) with o.
    rewrite Hr by (simpl; lia). rewrite (last_cons_some DQ o DQ) by done. rewrite <- Hv. cbn [app eqc].
    change (DQ =? DQ) with true. cbn [negb orb].
    destruct o as [|c o]; [done|]. unfold len. cbn [length].
    rewrite (proj2 (Z.eqb_neq (Z.of_nat (S (S (length o)))) 1)) by lia. done.
Qed.

(** ** Single quotes *)

Lemma unquote_doubleQuotes v : unquote (doubleQuotes v) = v.
Proof.
  unfold doubleQuotes. induction v as [|c v IH]; [done|]. csimpl. destruct (c =? ch "'") eqn:E.
  - zbool. subst c. simpl. simpl in IH. by rewrite IH.
  - cbn [app unquote]. rewrite E. cbn [andb]. destruct (v ≫= _) as [|d r] eqn:Ev; [|by rewrite IH].
    by rewrite <- IH.
Qed.

(** The line before and the line after a break have no blanks at it. *)
Definition adjacent (c : Z) (d : option Z) : bool :=
  match d with Some d => (isBlank c && (d =? LF)) || ((c =? LF) && isBlank d) | None => false end.

Lemma blankAtBreak_cons c s : blankAtBreak (c :: s) = adjacent c (head s) || blankAtBreak s.
Proof. by destruct s. Qed.

Lemma head_doubleQuotes v : head (doubleQuotes v) = head v.
Proof. destruct v as [|c v]; [done|]. unfold doubleQuotes. csimpl. by destruct (c =? ch "'"). Qed.

Lemma blankAtBreak_doubleQuotes v : blankAtBreak (doubleQuotes v) = blankAtBreak v.
Proof.
  induction v as [|c v IH]; [done|]. rewrite blankAtBreak_cons, <- IH.
  change (doubleQuotes (c :: v)) with ((if c =? ch "'" then [c; c] else [c]) ++ doubleQuotes v).
  destruct (c =? ch "'") eqn:E; cbn [app]; rewrite !blankAtBreak_cons, head_doubleQuotes; [|done].
  zbool. by subst c.
Qed.

(** Lines, and the text they are lines of. *)
Definition unlines (ls : list jstr) : jstr := ls ≫= λ x, LF :: x.

Lemma linesOf_spec s l ls : linesOf s = (l, ls) → s = l ++ unlines ls ∧ Forall (eq false) (existsb (Z.eqb LF) <$> (l :: ls)).
Proof.
  revert l ls. induction s as [|c s IH]; intros l ls; simpl; [intros [= <- <-]; split; [done|by repeat constructor]|].
  destruct (linesOf s) as [l' ls']. destruct (IH l' ls' eq_refl) as [-> Hno].
  destruct (c =? LF) eqn:E; zbool; intros [= <- <-].
  - subst c. split; [done|]. by constructor.
  - split; [done|]. apply Forall_cons in Hno as [H1 H2]. constructor; [|done].
    cbn [existsb]. rewrite <- H1. rewrite orb_false_r. rewrite Z.eqb_sym. symmetry. by apply Z.eqb_neq.
Qed.

Lemma linesOf_app n s l ls : existsb (Z.eqb LF) n = false → linesOf s = (l, ls) → linesOf (n ++ s) = (n ++ l, ls).
Proof.
  intros Hn Hs. induction n as [|c n IH]; [done|]. cbn [existsb] in Hn. apply orb_false_iff in Hn as [H1 H2].
  simpl. rewrite (IH H2). rewrite Z.eqb_sym in H1. by rewrite H1.
Qed.

(** What [breakRuns] makes of the lines after the first. *)
Fixpoint broken (n : jstr) (ls : list jstr) : list jstr :=
  match ls with
  | [] => []
  | x :: ls => [] :: match x, ls with [], _ :: _ => broken n ls | _, _ => (n ++ x) :: broken n ls end
  end.

Lemma linesOf_breakRuns n s l ls : existsb (Z.eqb LF) n = false → linesOf s = (l, ls) →
  linesOf (breakRuns n s) = (l, broken n ls).
Proof.
  intros Hn. revert l ls. induction s as [|c s IH]; intros l ls; simpl; [by intros [= <- <-]|].
  destruct (linesOf s) as [l' ls'] eqn:Es. specialize (IH l' ls' eq_refl).
  destruct (c =? LF) eqn:E; cbn [andb]; intros [= <- <-].
  - zbool. subst c. destruct (eqc (head s) LF) eqn:Eh; cbn [negb].
    + destruct s as [|d s]; [done|]. cbn [head eqc] in Eh. zbool. subst d. simpl in Es.
      destruct (linesOf s) as [l2 ls2]. injection Es as <- <-. simpl in IH |- *. by rewrite IH.
    + assert (Hbr : match l', ls' with [], _ :: _ => broken n ls' | _, _ => (n ++ l') :: broken n ls' end =
        (n ++ l') :: broken n ls').
      { destruct l' as [|d l']; [|done]. destruct ls' as [|y ls']; [done|]. exfalso.
        apply linesOf_spec in Es as [-> _]. by simpl in Eh. }
      cbn [broken]. rewrite Hbr. simpl. by rewrite (linesOf_app n _ _ _ Hn IH).
  - simpl. by rewrite IH, E.
Qed.

(** The lines of a text with no blanks at its breaks and no CR. *)
Fixpoint cleanLines (l : jstr) (ls : list jstr) : Prop :=
  match ls with
  | [] => True
  | x :: ls => (∀ c, last l = Some c → isBlank c = false ∧ c ≠ CR) ∧ (∀ c, head x = Some c → isBlank c = false)
               ∧ cleanLines x ls
  end.

Lemma linesOf_clean s l ls : blankAtBreak s = false → Forall (λ c, c ≠ CR) s → linesOf s = (l, ls) → cleanLines l ls.
Proof.
  revert l ls. induction s as [|c s IH]; intros l ls Hb Hcr; simpl; [by intros [= <- <-]|].
  rewrite blankAtBreak_cons in Hb. apply orb_false_iff in Hb as [Ha Hb]. apply Forall_cons in Hcr as [Hc Hcr].
  destruct (linesOf s) as [l' ls'] eqn:Es. specialize (IH l' ls' Hb Hcr eq_refl).
  apply linesOf_spec in Es as [-> Hno].
  destruct (c =? LF) eqn:E; intros [= <- <-].
  - simpl. split_and!; [done| |done]. zbool. subst c. intros d Hd. destruct l' as [|x l']; [done|].
    injection Hd as <-. cbn [app head adjacent] in Ha. change (LF =? LF) with true in Ha.
    cbn [andb] in Ha. by apply orb_false_iff in Ha as [_ ?].
  - destruct ls' as [|x ls']; [done|]. destruct IH as (H1 & H2 & H3). simpl. split_and!; [|done|done].
    intros d. destruct l' as [|y l'].
    + simpl. intros [= <-]. split; [|done]. cbn [app unlines head adjacent] in Ha. csimpl in Ha.
      cbn [head adjacent] in Ha. change (LF =? LF) with true in Ha. rewrite andb_true_r in Ha.
      by apply orb_false_iff in Ha as [? _].
    + intros Hd. apply H1. by rewrite <- Hd.
Qed.

Lemma trimLeft_id x : (∀ c, head x = Some c → isBlank c = false) → trimLeft x = x.
Proof. destruct x as [|c x]; [done|]. simpl. intros H. by rewrite (H c eq_refl). Qed.

Lemma trimLeft_indent n x : Forall (eq SP) n → (∀ c, head x = Some c → isBlank c = false) → trimLeft (n ++ x) = x.
Proof. intros Hn Hx. induction Hn as [|c n <- _ IH]; [by apply trimLeft_id|]. done. Qed.

(** The end of a line without blanks or CR is kept. *)
Lemma lineEnd_id x : (∀ c, last x = Some c → isBlank c = false ∧ c ≠ CR) → trimRight (dropCR x) = x.
Proof.
  intros Hx. unfold dropCR. destruct (eqc (last x) CR) eqn:E.
  { apply eqc_true in E. by destruct (Hx _ E). }
  unfold trimRight. rewrite trimLeft_id; [by rewrite reverse_involutive|].
  intros c Hc. rewrite head_reverse in Hc. by apply Hx.
Qed.

Lemma last_indent (n x : jstr) c : x ≠ [] → last (n ++ x) = Some c → last x = Some c.
Proof. intros Hx. rewrite last_app. destruct (last x) eqn:E; [done|]. by apply last_None in E. Qed.

(** The fold of the broken lines is the text again; with a break pending it comes
    first. *)
Lemma foldFlow_broken n l ls i : Forall (eq SP) n → ls ≠ [] → cleanLines l ls →
  foldFlow i [SP] (broken n ls) = i ++ unlines ls ∧ foldFlow i [LF] (broken n ls) = i ++ LF :: unlines ls.
Proof.
  intros Hn. revert l i. induction ls as [|x ls IH]; intros l i Hne Hc; [done|].
  destruct Hc as (_ & Hx & Hc).
  assert (Hstep : ∀ a i, foldFlow i a (broken n (x :: ls)) =
    (if bool_decide (a = [LF]) then foldFlow (i ++ a) a else foldFlow i [LF])
      match x, ls with [], _ :: _ => broken n ls | _, _ => (n ++ x) :: broken n ls end).
  { intros a i'. cbn [broken foldFlow]. destruct x as [|c x], ls as [|y ls]; cbn [broken]; by case_bool_decide. }
  assert (Hpend : ∀ i, foldFlow i [LF]
      match x, ls with [], _ :: _ => broken n ls | _, _ => (n ++ x) :: broken n ls end = i ++ unlines (x :: ls)).
  { intros i'. destruct ls as [|y ls].
    - assert (match x with [] | _ => (n ++ x) :: broken n [] end = [n ++ x]) as -> by (by destruct x).
      cbn [foldFlow]. rewrite trimLeft_indent by done. unfold unlines. csimpl. by rewrite app_nil_r.
    - destruct x as [|c x].
      + destruct (IH [] i') as [_ ->]; [done|done|]. done.
      + destruct Hc as (Hend & Hc).
        assert (Ht : trimLeft (trimRight (dropCR (n ++ c :: x))) = c :: x).
        { rewrite lineEnd_id; [by apply trimLeft_indent|]. intros d Hd. apply Hend. by apply (last_indent n). }
        change (foldFlow i' [LF] ((n ++ c :: x) :: broken n (y :: ls))) with
          (match trimLeft (trimRight (dropCR (n ++ c :: x))) with
           | [] => foldFlow (i' ++ [LF]) [LF] (broken n (y :: ls))
           | t => foldFlow (i' ++ [LF] ++ t) [SP] (broken n (y :: ls))
           end). rewrite Ht.
        destruct (IH (c :: x) (i' ++ [LF] ++ c :: x)) as [-> _]; [done|by split|].
        unfold unlines. csimpl. by rewrite <- !app_assoc. }
  split; rewrite Hstep; [rewrite bool_decide_eq_false_2 by done; apply Hpend|].
  rewrite bool_decide_eq_true_2 by done. rewrite Hpend, <- app_assoc. done.
Qed.

Lemma foldFlowLines_breakRuns n s : Forall (eq SP) n → blankAtBreak s = false → Forall (λ c, c ≠ CR) s →
  foldFlowLines (breakRuns n s) = s.
Proof.
  intros Hn Hb Hcr. destruct (linesOf s) as [l ls] eqn:Es.
  assert (Hnl : existsb (Z.eqb LF) n = false) by (clear -Hn; induction Hn as [|x n <- _ IH]; done).
  pose proof (linesOf_breakRuns n s l ls Hnl Es) as Hl. pose proof (linesOf_clean s l ls Hb Hcr Es) as Hc.
  pose proof (linesOf_spec _ _ _ Hl) as [Heq _]. apply linesOf_spec in Es as [-> _].
  unfold foldFlowLines. rewrite Hl. destruct ls as [|x ls]; [done|].
  destruct (broken n (x :: ls)) as [|y ys] eqn:Eb; [done|]. rewrite <- Eb, lineEnd_id by apply Hc.
  by destruct (foldFlow_broken n l (x :: ls) l Hn) as [-> _].
Qed.

Lemma singleQuoted_resolves v t : Forall isUnit v → Forall (eq SP) (indent t) → unfolded t = true →
  doubleQuotedAsJSON t = false → (multiLine v t = true → noSpaceLine v) → Forall (λ c, c ≠ CR) v →
  ∃ e, singleQuotedString v t = Some e ∧ resolvesTo e v.
Proof.
  intros Hu Hi Hf Hj Hclean Hcr. unfold singleQuotedString.
  destruct (bool_decide _ || _ || blankAtBreak v) eqn:E; [by apply doubleQuoted_resolves|].
  apply orb_false_iff in E as [_ Hb]. set (n := contentIndent t v).
  set (e := [ch "'"] ++ breakRuns n (doubleQuotes v) ++ [ch "'"]). exists e. split.
  - unfold unfolded in Hf. destruct (implicitKey t); [done|]. simpl in Hf.
    unfold foldText_, foldOptions. cbn [lineWidth]. by rewrite Hf.
  - unfold resolvesTo, quotedValue. change (eqc (head e) (ch "'")) with true. cbn iota. do 2 f_equal.
    unfold singleQuotedValue. subst e. rewrite (app_assoc [ch "'"]), last_snoc.
    change (drop 1 (([ch "'"] ++ breakRuns n (doubleQuotes v)) ++ [ch "'"])) with (breakRuns n (doubleQuotes v) ++ [ch "'"]).
    rewrite removelast_last, foldFlowLines_breakRuns.
    + rewrite unquote_doubleQuotes. unfold len. rewrite !length_app. cbn [length].
      rewrite (proj2 (Z.eqb_neq _ 1)) by lia. done.
    + by apply contentIndent_spaces.
    + by rewrite blankAtBreak_doubleQuotes.
    + unfold doubleQuotes. rewrite Forall_bind. eapply Forall_impl; [exact Hcr|].
      intros c Hc. unfold compose. destruct (c =? ch "'"); repeat constructor; exact Hc.
Qed.

(** Whichever quotes the printer chooses, the string is read back. *)
Lemma quoted_resolves v t :
  Forall isUnit v → Forall (eq SP) (indent t) → unfolded t = true → doubleQuotedAsJSON t = false →
  (multiLine v t = true → noSpaceLine v) → (singleQuote t = Some false ∨ Forall (λ c, c ≠ CR) v) →
  ∃ e, quotedString v t = Some e ∧ resolvesTo e v.
Proof.
  intros Hu Hi Hf Hj Hclean Hcr. unfold quotedString.
  destruct (decide (singleQuote t = Some false)) as [Hs|Hs].
  { rewrite bool_decide_eq_true_2 by done. by apply doubleQuoted_resolves. }
  rewrite bool_decide_eq_false_2 by done. destruct Hcr as [?|Hcr]; [done|].
  assert (∃ e, singleQuotedString v t = Some e ∧ resolvesTo e v) by by apply singleQuoted_resolves.
  assert (∃ e, doubleQuotedString v t = Some e ∧ resolvesTo e v) by by apply doubleQuoted_resolves.
  repeat case_match; done.
Qed.

(** a quoted string reads back: whichever quotes the printer chooses, when
    lines are not folded, the source it prints for a string without CR, or for any
    string when single quotes are switched off, resolves to the string without
    errors, provided no line of a multi-line text is one single space. *)
Theorem quoted_roundtrip v t :
  Forall isUnit v → Forall (eq SP) (indent t) → unfolded t = true → doubleQuotedAsJSON t = false →
  (multiLine v t = true → noSpaceLine v) → (singleQuote t = Some false ∨ Forall (λ c, c ≠ CR) v) →
  ∃ e, quotedString v t = Some e ∧ resolvesTo e v.
Proof. apply quoted_resolves. Qed.

(** ** Instances *)

(** The default options, at a given indentation. *)
Definition defaultCtx (n : nat) : Ctx := {|
  implicitKey := false; indent := replicate n SP; ctxIndentAtStart := None; doubleQuotedAsJSON := false;
  doubleQuotedMinMultiLineLength := 40; optLineWidth := 80; optMinContentWidth := 20; singleQuote := None
|}.

Definition unlimitedCtx : Ctx := {|
  implicitKey := false; indent := replicate 2 SP; ctxIndentAtStart := None; doubleQuotedAsJSON := false;
  doubleQuotedMinMultiLineLength := 10; optLineWidth := 0; optMinContentWidth := 20; singleQuote := None
|}.

Definition sampleText : jstr := runes "it's a note" ++ [SP; LF; LF; SP; 7; TAB; 55296] ++ runes "end" ++ [LF].

Lemma sampleText_clean : noSpaceLine sampleText.
Proof.
  intros a b H. assert (Hin : includes [LF; SP; LF] sampleText = true).
  { apply includes_spec. eauto. }
  by vm_compute in Hin.
Qed.

Lemma quoted_roundtrip_witness : ∃ e, quotedString sampleText unlimitedCtx = Some e ∧ resolvesTo e sampleText.
Proof.
  apply quoted_roundtrip.
  - repeat (constructor; [unfold isUnit; vm_compute; split; congruence|]). constructor.
  - repeat constructor.
  - reflexivity.
  - reflexivity.
  - intros _. apply sampleText_clean.
  - right. repeat (constructor; [vm_compute; congruence|]). constructor.
Defined.

Definition spaceLineText : jstr :=
  runes "notes that hold a line of a single space" ++ [LF; SP; LF] ++ runes "end".

Definition alphabet : jstr := runes "abcdefghijklmnopqrstuvwxyz".

(** What is read back of a printed text. *)
Definition reread (v : jstr) (t : Ctx) : option jstr :=
  match doubleQuotedString v t with
  | Some e => match quotedValue e with Some (inr (w, [])) => Some w | _ => None end
  | None => None
  end.

(** with the default options a long enough text that has a line of one single
    space does not survive double quotes: the escapes of the space after a break and
    of the space before a break run into an escaped backslash, and the space is read
    back as a backslash. *)
Theorem space_line_corrupted :
  reread spaceLineText (defaultCtx 2) =
  Some (runes "notes that hold a line of a single space" ++ [LF; BACKSLASH; LF] ++ runes "end").
Proof. vm_compute. reflexivity. Qed.

(** under an indentation as wide as the line the fold positions become
    negative: the printed text is valid, but holds the word undefined and is read
    back as another value. *)
Theorem wide_indent_corrupted :
  reread alphabet (defaultCtx 80) =
  Some (runes "abcdefghijklmnopqrstuvwxyundefinedqrstuvwxyz").
Proof. vm_compute. reflexivity. Qed.

(** an eight-digit escape beyond the Unicode range is not reported as an
    error: the conversion throws out of the resolver. *)
Theorem code_point_escape_throws : ∃ x,
  doubleQuotedValue ([DQ; BACKSLASH] ++ runes "UFFFFFFFF" ++ [DQ]) = Some (inl x).
Proof. eexists. vm_compute. reflexivity. Qed.
