(* ===== verification/YamlBlock.v ===== *)
(** * YAML block scalars of the web UI

    How the yaml library bundled in
    [internal/ui/assets/assets/index-DHyr8oiy.js] resolves a block scalar, its header
    ([qGt]), its lines ([JGt]) and its value ([KGt]).

    The property shows that a literal block holds its lines exactly, for every
    chomping and with or without an indentation indicator. *)

From Stdlib Require Import ZArith Lia.
From stdpp Require Import base numbers strings gmap option list.
From S2P Require Import Prelude Js YamlLexer YamlLexerProps YamlScalars YamlScalarsProps.

Open Scope Z_scope.

Module Block.
Import Yaml Scalars.

(** The codes handed to the error callback. *)
Inductive bcode := B_IMPOSSIBLE | B_UNEXPECTED_TOKEN | B_MISSING_CHAR | B_BAD_INDENT.

(** A token of the header; [None] is the type of an error token. *)
Record Token := { ttype : option TokenType; toffset : Z; tsource : jstr }.

Record BlockToken := { offset : Z; bindent : Z; props : list Token; source : jstr }.

Inductive Chomp := CLIP | STRIP | KEEP.

Record Header := { mode : option Z; hindent : Z; chomp : Chomp; hcomment : jstr; hlength : Z }.

(** ** The header *)

(** [Number(n)] of one character, 0 when it is not a digit. *)
Definition digitOf (c : Z) : Z := if (48 <=? c) && (c <=? 57) then c - 48 else 0.

(** The characters after the mode: indentation, chomping, and the first that is
    neither. *)
Fixpoint headerChars (pos_ : Z) (s : jstr) (o : Z) (k : Chomp) (bad : option Z) : Z * Chomp * option Z :=
  match s with
  | [] => (o, k, bad)
  | n :: s =>
    match k with
    | CLIP =>
      if n =? ch "-" then headerChars (pos_ + 1) s o STRIP bad
      else if n =? ch "+" then headerChars (pos_ + 1) s o KEEP bad
      else if (o =? 0) && negb (digitOf n =? 0) then headerChars (pos_ + 1) s (digitOf n) k bad
      else headerChars (pos_ + 1) s o k (Some (default pos_ bad))
    | _ =>
      if (o =? 0) && negb (digitOf n =? 0) then headerChars (pos_ + 1) s (digitOf n) k bad
      else headerChars (pos_ + 1) s o k (Some (default pos_ bad))
    end
  end.

(** The tokens after the header proper: whether a space was seen, the comment, the
    length and the errors. *)
Fixpoint headerProps (strict l : bool) (u : jstr) (d : Z) (errs : list (Z * bcode)) (ts : list Token)
    : jstr * Z * list (Z * bcode) :=
  match ts with
  | [] => (u, d, errs)
  | i :: ts =>
    let d' := d + len (tsource i) in
    match ttype i with
    | Some space => headerProps strict true u d' errs ts
    | Some newline => headerProps strict l u d' errs ts
    | Some comment =>
      headerProps strict l (drop 1 (tsource i)) d'
        (if strict && negb l then errs ++ [(toffset i, B_MISSING_CHAR)] else errs) ts
    | _ => headerProps strict l u d' (errs ++ [(toffset i, B_UNEXPECTED_TOKEN)]) ts
    end
  end.

(** [qGt]; [None] is [null]. *)
Definition parseHeader (t : BlockToken) (strict : bool) : option Header * list (Z * bcode) :=
  match props t with
  | {| ttype := Some block_scalar_header; tsource := i |} :: ts =>
    let '(o, k, bad) := headerChars (offset t + 1) (drop 1 i) 0 CLIP None in
    let errs := match bad with Some c => [(c, B_UNEXPECTED_TOKEN)] | None => [] end in
    let '(u, d, errs) := headerProps strict false [] (len i) errs ts in
    (Some {| mode := head i; hindent := o; chomp := k; hcomment := u; hlength := d |}, errs)
  | i :: _ => (None, [(toffset i, B_IMPOSSIBLE)])
  | [] => (None, [])
  end.

(** ** The lines *)

(** A line as its leading spaces and the rest. *)
Definition splitLine (x : jstr) : jstr * jstr :=
  let k := Z.to_nat (countWhile isSpace x) in (take k x, drop k x).

(** [JGt] *)
Definition splitLines (s : jstr) : list (jstr * jstr) :=
  let '(l, ls) := linesOf s in map splitLine (l :: ls).

(** [a === "" || a === "\r"] *)
Definition blankLine (a : jstr) : bool := bool_decide (a = []) || bool_decide (a = [CR]).

(** The number of lines up to the last that is not blank. *)
Fixpoint contentLines (o : list (jstr * jstr)) : nat :=
  match o with
  | [] => 0
  | x :: o =>
    match contentLines o with
    | O => if blankLine (snd x) then 0 else 1
    | n => S n
    end
  end.

(** The search for the first line that is not blank, from index [i]: the
    indentation, its index, the offset and the errors. *)
Fixpoint findIndent (h : Z) (atRoot : bool) (o : list (jstr * jstr)) (i : nat) (c l : Z)
    (errs : list (Z * bcode)) : Z * nat * Z * list (Z * bcode) :=
  match o with
  | [] => (c, 0%nat, l, errs)
  | (r, a) :: o =>
    if blankLine a then
      findIndent h atRoot o (S i) (if (h =? 0) && (c <? len r) then len r else c) (l + len r + len a + 1) errs
    else
      let errs := if len r <? c then errs ++ [(l + len r, B_MISSING_CHAR)] else errs in
      let c := if h =? 0 then len r else c in
      (c, i, l, if (c =? 0) && negb atRoot then errs ++ [(l, B_BAD_INDENT)] else errs)
  end.

(** The trailing blank lines up to the last that is more indented belong to the
    text: how many they are. *)
Fixpoint moreLines (c : Z) (o : list (jstr * jstr)) : nat :=
  match o with
  | [] => 0
  | x :: o =>
    match moreLines c o with
    | O => if c <? len (fst x) then 1 else 0
    | n => S n
    end
  end.

(** ** The text *)

(** The variables of the main loop: the text, the separator pending, whether the
    last line was more indented, the offset and the errors. *)
Record Text := { d : jstr; f : jstr; p : bool; loff : Z; berrs : list (Z * bcode) }.

Definition addLine (literal : bool) (c : Z) (st : Text) (x : jstr * jstr) : Text :=
  let '(t, r) := x in
  let l := loff st + len t + len r + 1 in
  let cr := eqc (last r) CR in
  let r := if cr then removelast r else r in
  let low := negb (bool_decide (r = [])) && (len t <? c) in
  let errs := if low then berrs st ++ [(l - len r - (if cr then 2 else 1), B_BAD_INDENT)] else berrs st in
  let t := if low then [] else t in
  let rest := drop (Z.to_nat c) t in
  if literal then {| d := d st ++ f st ++ rest ++ r; f := [LF]; p := p st; loff := l; berrs := errs |}
  else if (c <? len t) || eqc (head r) TAB then
    let sep := if bool_decide (f st = [SP]) then [LF]
               else if negb (p st) && bool_decide (f st = [LF]) then [LF; LF] else f st in
    {| d := d st ++ sep ++ rest ++ r; f := [LF]; p := true; loff := l; berrs := errs |}
  else if bool_decide (r = []) then
    if bool_decide (f st = [LF]) then {| d := d st ++ [LF]; f := f st; p := p st; loff := l; berrs := errs |}
    else {| d := d st; f := [LF]; p := p st; loff := l; berrs := errs |}
  else {| d := d st ++ f st ++ r; f := [SP]; p := false; loff := l; berrs := errs |}.

(** The end of the text: the trailing lines are dropped, kept, or one break is
    left. *)
Definition chompText (k : Chomp) (c : Z) (d : jstr) (trailing : list (jstr * jstr)) : jstr :=
  match k with
  | STRIP => d
  | KEEP =>
    let d := d ++ (trailing ≫= λ x, LF :: drop (Z.to_nat c) (fst x)) in
    if eqc (last d) LF then d else d ++ [LF]
  | CLIP => d ++ [LF]
  end.

(** [KGt]: the value and the errors. *)
Definition blockValue (t : BlockToken) (strict atRoot : bool) : jstr * list (Z * bcode) :=
  let '(h, errs) := parseHeader t strict in
  match h with
  | None => ([], errs)
  | Some h =>
    let o := match source t with [] => [] | s => splitLines s end in
    let s := contentLines o in
    match s with
    | O => (match chomp h, o with
            | KEEP, _ :: _ => replicate (Nat.max 1 (length o - 1)) LF
            | _, _ => []
            end, errs)
    | _ =>
      let '(c, u, l, errs) :=
        findIndent (hindent h) atRoot (take s o) 0 (bindent t + hindent h) (offset t + hlength h) errs in
      let s := (s + moreLines c (drop s o))%nat in
      let lead := take u o ≫= λ x, drop (Z.to_nat c) (fst x) ++ [LF] in
      let st := foldl (addLine (negb (eqc (mode h) (ch ">"))) c)
                  {| d := lead; f := []; p := false; loff := l; berrs := errs |}
                  (drop u (take s o)) in
      (chompText (chomp h) c (d st) (drop s o), berrs st)
    end
  end.

End Block.

Import Yaml Scalars Block.

(** ** A literal block holds its lines *)

(** A line [x] of the text printed as [y] at indentation [k]; an empty line may be
    less indented. *)
Definition printsLine (k : nat) (x y : jstr) : Prop :=
  y = replicate k SP ++ x ∨ (x = [] ∧ ∃ j, (j <= k)%nat ∧ y = replicate j SP).

(** A line without line breaks. *)
Definition oneLine (x : jstr) : Prop := existsb (Z.eqb LF) x = false ∧ last x ≠ Some CR.

Definition blockSource (ys : list jstr) : jstr := ys ≫= λ y, y ++ [LF].

Lemma linesOf_source y ys : Forall (λ y, existsb (Z.eqb LF) y = false) (y :: ys) →
  linesOf (blockSource (y :: ys)) = (y, ys ++ [[]]).
Proof.
  revert y. induction ys as [|y' ys IH]; intros y [Hy Hys]%Forall_cons; unfold blockSource; csimpl;
    rewrite <- app_assoc.
  - rewrite (linesOf_app y _ [] [[]]); [by rewrite app_nil_r|done|done].
  - rewrite (linesOf_app y _ [] (y' :: ys ++ [[]])); [by rewrite app_nil_r|done|].
    specialize (IH y' Hys). unfold blockSource in IH. csimpl in IH.
    cbn [app linesOf]. change (LF =? LF) with true. by rewrite IH.
Qed.

Lemma countWhile_spaces k x : countWhile isSpace (replicate k SP ++ x) = Z.of_nat k + countWhile isSpace x.
Proof. induction k as [|k IH]; [done|]. cbn [replicate app countWhile]. change (isSpace SP) with true. lia. Qed.

(** What the loops read of a printed line. *)
Record readsLine (k : nat) (x : jstr) (o : jstr * jstr) : Prop := {
  rl_text : drop k (fst o) ++ snd o = x;
  rl_wide : snd o ≠ [] → Z.of_nat k <= len (fst o);
  rl_cr : last (snd o) ≠ Some CR;
}.

Lemma splitLine_reads k x y : oneLine x → printsLine k x y → readsLine k x (splitLine y).
Proof.
  intros [_ Hcr] Hp. unfold splitLine. pose proof (countWhile_range isSpace y) as Hr.
  destruct Hp as [-> | (-> & j & Hj & ->)].
  - rewrite countWhile_spaces. pose proof (countWhile_range isSpace x) as Hx.
    set (n := countWhile isSpace x) in *.
    assert (Hk : Z.to_nat (Z.of_nat k + n) = (k + Z.to_nat n)%nat) by lia. rewrite Hk.
    assert (Hd : drop (k + Z.to_nat n) (replicate k SP ++ x) = drop (Z.to_nat n) x).
    { rewrite <- drop_drop, drop_app_length' by (by rewrite length_replicate). done. }
    constructor; cbn [fst snd]; rewrite ?Hd.
    + rewrite take_app_ge, length_replicate, drop_app_length' by (by rewrite ?length_replicate; lia).
      replace (k + Z.to_nat n - k)%nat with (Z.to_nat n) by lia. apply take_drop.
    + intros _. unfold len in *. rewrite length_take, length_app, length_replicate. lia.
    + intros Hl. apply Hcr. rewrite <- (take_drop (Z.to_nat n) x). by apply last_app_some.
  - assert (Hc : countWhile isSpace (replicate j SP) = Z.of_nat j).
    { rewrite <- (app_nil_r (replicate j SP)), countWhile_spaces. simpl. lia. }
    rewrite Hc, Nat2Z.id. constructor; cbn [fst snd].
    + rewrite drop_ge by (rewrite length_take, length_replicate; lia).
      rewrite drop_ge; [done|]. by rewrite length_replicate.
    + rewrite drop_ge; [done|]. by rewrite length_replicate.
    + rewrite drop_ge; [done|]. by rewrite length_replicate.
Qed.

Lemma contentLines_app o q : (0 < contentLines q)%nat → contentLines (o ++ q) = (length o + contentLines q)%nat.
Proof.
  intros Hq. induction o as [|x o IH]; [done|]. cbn [app contentLines length]. rewrite IH.
  destruct (length o + contentLines q)%nat eqn:E; lia.
Qed.

Lemma contentLines_blank o : contentLines (o ++ [([], [])]) = contentLines o.
Proof. induction o as [|x o IH]; [done|]. cbn [app contentLines]. by rewrite IH. Qed.

Lemma readsLine_blank k x o : readsLine k x o → blankLine (snd o) = true → snd o = [].
Proof.
  intros [_ _ Hcr] Hb. unfold blankLine in Hb. apply orb_true_iff in Hb as [Hb|Hb]; apply bool_decide_eq_true in Hb; [done|].
  rewrite Hb in Hcr. done.
Qed.

(** The indentation is found, without errors: given by the header, or that of the
    first line that is not blank. *)
Lemma findIndent_spec k h atRoot xs o i c l errs : (0 < k)%nat → Forall2 (readsLine k) xs o →
  (h ≠ 0 ∧ c = Z.of_nat k) ∨
  (h = 0 ∧ c <= Z.of_nat k ∧ ∃ q r a o', o = q ++ (r, a) :: o' ∧ blankLine a = false ∧ len r = Z.of_nat k ∧
     Forall (λ x, blankLine (snd x) = true ∧ len (fst x) <= Z.of_nat k) q) →
  (0 < contentLines o)%nat →
  ∃ u l', findIndent h atRoot o i c l errs = (Z.of_nat k, (i + u)%nat, l', errs) ∧
    Forall (λ x, snd x = []) (take u o) ∧ (u < contentLines o)%nat.
Proof.
  intros Hk Hall Hcase Hcont. revert i c l Hcase.
  induction Hall as [|x [r a] xs o Hx Hall IH]; intros i c l Hcase; [simpl in Hcont; lia|]. cbn [findIndent].
  destruct (blankLine a) eqn:Ea.
  - assert (Hcont' : (0 < contentLines o)%nat).
    { cbn [contentLines snd] in Hcont. rewrite Ea in Hcont. destruct (contentLines o); lia. }
    set (c' := if (h =? 0) && (c <? len r) then len r else c).
    destruct (IH Hcont' (S i) c' (l + len r + len a + 1)) as (u & l' & -> & Hb & Hu).
    { destruct Hcase as [(Hh & ->)|(-> & Hc & q & r' & a' & o' & Ho & Ha & Hr & Hq)].
      - left. unfold c'. by rewrite (proj2 (Z.eqb_neq _ _) Hh).
      - right. split; [done|]. destruct q as [|x0 q]; simplify_eq/=; [congruence|].
        apply Forall_cons in Hq as [[_ Hle] Hq]. cbn [fst] in Hle. split; [|by exists q, r', a', o'].
        unfold c'. change (0 =? 0) with true. destruct (c <? len r); cbn [andb]; lia. }
    exists (S u), l'. split_and!; [do 3 f_equal; lia| |].
    + constructor; [|done]. by apply (readsLine_blank k x (r, a)).
    + cbn [contentLines snd]. rewrite Ea. destruct (contentLines o); lia.
  - exists 0%nat, l. assert (Hne : a ≠ []) by (intros ->; done).
    pose proof (rl_wide _ _ _ Hx Hne) as Hw. cbn [fst snd] in Hw. rewrite Nat.add_0_r.
    assert ((len r <? c) = false ∧ (if h =? 0 then len r else c) = Z.of_nat k) as [-> ->].
    { destruct Hcase as [(Hh & ->)|(-> & Hc & q & r' & a' & o' & Ho & Ha & Hr & Hq)].
      - rewrite (proj2 (Z.eqb_neq _ _) Hh). split; [lia|done].
      - destruct q as [|x0 q]; simplify_eq/=; [split; [lia|done]|].
        apply Forall_cons in Hq as [[Hb _] _]. cbn [snd] in Hb. congruence. }
    rewrite (proj2 (Z.eqb_neq (Z.of_nat k) 0)) by lia.
    split_and!; [done|constructor|]. cbn [contentLines snd]. rewrite Ea. destruct (contentLines o); lia.
Qed.

(** The main loop of a literal block adds the lines with a break between them. *)
Lemma addLines_literal k xs o st : Forall2 (readsLine k) xs o → xs ≠ [] →
  d (foldl (addLine true (Z.of_nat k)) st o) = d st ++ f st ++ join [LF] xs ∧
  berrs (foldl (addLine true (Z.of_nat k)) st o) = berrs st.
Proof.
  intros Hall. revert st. induction Hall as [|x [t r] xs o Hx Hall IH]; intros st Hne; [done|].
  assert (Hstep : ∃ l, addLine true (Z.of_nat k) st (t, r) =
    {| d := d st ++ f st ++ x; f := [LF]; p := p st; loff := l; berrs := berrs st |}).
  { destruct Hx as [Htext Hw Hcr]. cbn [fst snd] in *. unfold addLine.
    assert (eqc (last r) CR = false) as ->.
    { destruct (eqc (last r) CR) eqn:E; [|done]. by apply eqc_true in E. }
    assert (negb (bool_decide (r = [])) && (len t <? Z.of_nat k) = false) as ->.
    { case_bool_decide as Er; [done|]. specialize (Hw Er). cbn [negb andb]. lia. }
    rewrite Nat2Z.id, Htext. eexists. reflexivity. }
  destruct Hstep as [l Hstep]. cbn [foldl]. rewrite Hstep.
  destruct xs as [|x' xs].
  - inversion Hall; subst. cbn [foldl d f berrs join]. done.
  - destruct (IH {| d := d st ++ f st ++ x; f := [LF]; p := p st; loff := l; berrs := berrs st |}) as [-> ->]; [done|].
    cbn [d f berrs]. split; [|done]. cbn [join]. by rewrite <- !app_assoc.
Qed.

(** The leading blank lines and the rest are all the lines. *)
Lemma join_lead u xs : (u < length xs)%nat →
  (take u xs ≫= λ x, x ++ [LF]) ++ join [LF] (drop u xs) = join [LF] xs.
Proof.
  revert xs. induction u as [|u IH]; intros [|x xs] Hu; try (simpl in Hu; lia); [done|].
  cbn [take drop]. csimpl. destruct xs as [|x' xs]; [simpl in Hu; lia|].
  change (join [LF] (x :: x' :: xs)) with (x ++ [LF] ++ join [LF] (x' :: xs)).
  rewrite <- (IH (x' :: xs)) by (simpl in *; lia). by rewrite <- !app_assoc.
Qed.

Lemma lead_text k u xs o : Forall2 (readsLine k) xs o → Forall (λ x, snd x = []) (take u o) →
  (take u o ≫= λ x, drop (Z.to_nat (Z.of_nat k)) (fst x) ++ [LF]) = take u xs ≫= λ x, x ++ [LF].
Proof.
  intros Hall. revert u. induction Hall as [|x y xs o Hx Hall IH]; intros [|u] Hb; [done..|].
  cbn [take] in *. apply Forall_cons in Hb as [Hb Hbs]. csimpl. rewrite (IH u Hbs), Nat2Z.id. f_equal.
  destruct Hx as [<- _ _]. by rewrite Hb, app_nil_r.
Qed.

Lemma splitLine_text k x y : printsLine k x y → forallb isSpace x = false → snd (splitLine y) ≠ [].
Proof.
  intros [-> | (-> & _)] Hx; [|done]. unfold splitLine. cbn [snd]. rewrite countWhile_spaces.
  pose proof (countWhile_range isSpace x) as Hr.
  rewrite Z2Nat.inj_add, Nat2Z.id, <- drop_drop, drop_app_length' by (rewrite ?length_replicate; lia).
  clear Hr. induction x as [|c x IH]; [done|]. cbn [forallb countWhile] in *. destruct (isSpace c); [|done].
  pose proof (countWhile_range isSpace x). rewrite Z2Nat.inj_add by lia. by apply IH.
Qed.

Lemma printsLine_noLF k x y : oneLine x → printsLine k x y → existsb (Z.eqb LF) y = false.
Proof.
  assert (Hsp : ∀ j, existsb (Z.eqb LF) (replicate j SP) = false) by (intros j; induction j; done).
  intros [Hx _] [-> | (-> & j & _ & ->)]; [|done]. rewrite existsb_app, Hsp. done.
Qed.

(** The lines of the source, the empty one after the last break included. *)
Lemma splitLines_source k xs ys : Forall oneLine xs → Forall2 (printsLine k) xs ys → ys ≠ [] →
  splitLines (blockSource ys) = map splitLine ys ++ [([], [])] ∧
  Forall2 (readsLine k) xs (map splitLine ys) ∧ blockSource ys ≠ [].
Proof.
  intros Hx Hp Hne. split_and!.
  - destruct ys as [|y ys]; [done|]. unfold splitLines. rewrite linesOf_source; [by rewrite app_comm_cons, map_app|].
    clear Hne. induction Hp as [|x y' xs ys' Hxy Hp IH]; [constructor|]. apply Forall_cons in Hx as [Hx Hxs].
    constructor; [by eapply printsLine_noLF|by apply IH].
  - clear Hne. induction Hp as [|x y xs ys Hxy Hp IH]; [constructor|]. apply Forall_cons in Hx as [Hx Hxs].
    constructor; [by apply splitLine_reads|by apply IH].
  - destruct ys as [|y ys]; [done|]. unfold blockSource. csimpl. by destruct y.
Qed.

Lemma blank_reads k x y : oneLine x → printsLine k x y → forallb isSpace x = false →
  blankLine (snd (splitLine y)) = false.
Proof.
  intros Hx Hp Ht. destruct (blankLine (snd (splitLine y))) eqn:E; [|done].
  destruct (splitLine_text k x y Hp Ht). by apply (readsLine_blank k x), E; apply splitLine_reads.
Qed.

Lemma spaces_read k z y : printsLine k z y → forallb isSpace z = true → snd (splitLine y) = [].
Proof.
  intros Hz Hsp. assert (forallb isSpace y = true) as Hy.
  { assert (∀ j, forallb isSpace (replicate j SP) = true) as Hj by (induction j; done).
    destruct Hz as [-> | (_ & j & _ & ->)]; [by rewrite forallb_app, Hj|apply Hj]. }
  unfold splitLine. cbn [snd]. clear -Hy. induction y as [|c y IH]; [done|].
  cbn [forallb countWhile] in *. destruct (isSpace c); [|done].
  pose proof (countWhile_range isSpace y). rewrite Z2Nat.inj_add by lia. by apply IH.
Qed.

(** The lines of spaces after the last other line are not counted. *)
Lemma contentLines_source k xs ys tr ys2 x : Forall oneLine xs → Forall2 (printsLine k) xs ys → last xs = Some x →
  forallb isSpace x = false → Forall2 (printsLine k) tr ys2 → Forall (λ x, forallb isSpace x = true) tr →
  contentLines (map splitLine (ys ++ ys2) ++ [([], [])]) = length ys.
Proof.
  intros Hx Hp Hl Ht Htr Hsp. rewrite contentLines_blank.
  assert (Hq : contentLines (map splitLine ys2) = 0%nat).
  { induction Htr as [|z y tr ys2 Hz Htr IH]; [done|]. apply Forall_cons in Hsp as [Hz' Hsp].
    cbn [map contentLines]. rewrite (IH Hsp).
    by rewrite (spaces_read k z y Hz Hz'). }
  apply last_Some in Hl as [xs' ->]. apply Forall2_app_inv_l in Hp as (ys' & l & _ & Hp & ->).
  inversion Hp as [|? y ? ? Hxy Hnil]; subst. inversion Hnil; subst.
  apply Forall_app in Hx as [_ [Hx _]%Forall_cons].
  rewrite <- app_assoc, map_app. cbn [app map].
  assert (Hc : contentLines (splitLine y :: map splitLine ys2) = 1%nat).
  { cbn [contentLines]. by rewrite Hq, (blank_reads k x y Hx Hxy Ht). }
  rewrite contentLines_app, Hc by lia. by rewrite length_map, length_app.
Qed.

(** Trailing lines are part of the text up to the last that is more indented. *)
Lemma moreLines_spec c o : (moreLines c o <= length o)%nat ∧ Forall (λ x, len (fst x) <= c) (drop (moreLines c o) o).
Proof.
  induction o as [|x o [IH1 IH2]]; [by split; [|constructor]|]. cbn [moreLines].
  destruct (moreLines c o) as [|n]; [|by split; [simpl in *; lia|]].
  destruct (c <? len (fst x)) eqn:E; [by split; [simpl; lia|]|].
  split; [simpl; lia|]. rewrite drop_0 in *. constructor; [lia|done].
Qed.

Lemma moreLines_blank c o : 0 <= c → moreLines c (o ++ [([], [])]) = moreLines c o.
Proof.
  intros Hc. induction o as [|x o IH]; cbn [app moreLines].
  - change (len (fst ([], []))) with 0. by rewrite (proj2 (Z.ltb_ge c 0)).
  - by rewrite IH.
Qed.

(** Where the text is: at the indentation of the header, or at that of a first
    line that starts with text. *)
Definition indented (t : BlockToken) (h : Header) (k : nat) (xs : list jstr) : Prop :=
  (hindent h ≠ 0 ∧ bindent t + hindent h = Z.of_nat k) ∨
  (hindent h = 0 ∧ bindent t <= Z.of_nat k ∧ ∃ n c x0 xs', xs = replicate n [] ++ (c :: x0) :: xs' ∧ c ≠ SP).

Lemma indented_first t h k xs ys : indented t h k xs → Forall oneLine xs → Forall2 (printsLine k) xs ys →
  (hindent h ≠ 0 ∧ bindent t + hindent h = Z.of_nat k) ∨
  (hindent h = 0 ∧ bindent t + hindent h <= Z.of_nat k ∧
   ∃ q r a o', map splitLine ys = q ++ (r, a) :: o' ∧ blankLine a = false ∧ len r = Z.of_nat k ∧
     Forall (λ x, blankLine (snd x) = true ∧ len (fst x) <= Z.of_nat k) q).
Proof.
  intros [?|(Hh & Hb & n & c & x0 & xs' & -> & Hc)] Hx Hp; [by left|right]. split_and!; [done|lia|].
  apply Forall2_app_inv_l in Hp as (ys1 & ys2 & Hp1 & Hp2 & ->).
  inversion Hp2 as [|? y ? ys' Hxy _]; subst. apply Forall_app in Hx as [_ [[_ Hcr] _]%Forall_cons].
  destruct Hxy as [-> | [? _]]; [|done].
  assert (Hs : splitLine (replicate k SP ++ c :: x0) = (replicate k SP, c :: x0)).
  { assert (Hn : countWhile isSpace (c :: x0) = 0).
    { cbn [countWhile]. unfold isSpace. by rewrite (proj2 (Z.eqb_neq _ _) Hc). }
    unfold splitLine. rewrite countWhile_spaces, Hn, Z.add_0_r, Nat2Z.id.
    f_equal; [apply take_app_length'|apply drop_app_length']; by rewrite length_replicate. }
  exists (map splitLine ys1), (replicate k SP), (c :: x0), (map splitLine ys'). split_and!.
  - rewrite map_app. by simpl; rewrite Hs.
  - unfold blankLine. rewrite bool_decide_eq_false_2 by done. apply bool_decide_eq_false. by intros [= -> ->].
  - unfold len. by rewrite length_replicate.
  - clear -Hp1. revert ys1 Hp1. induction n as [|n IH]; intros ys1 Hp1; inversion Hp1 as [|? y ? ? Hxy Hp1']; subst; [constructor|].
    constructor; [|by apply IH].
    assert (∃ j, (j <= k)%nat ∧ y = replicate j SP) as (j & Hj & ->).
    { destruct Hxy as [-> | (_ & ?)]; [|done]. exists k. by rewrite app_nil_r. }
    unfold splitLine. cbn [fst snd]. rewrite <- (app_nil_r (replicate j SP)), countWhile_spaces. cbn [countWhile].
    rewrite Z.add_0_r, Nat2Z.id, app_nil_r, drop_ge, take_ge by (by rewrite length_replicate).
    split; [done|]. unfold len. rewrite length_replicate. lia.
Qed.

(** Empty lines at the end are line breaks. *)
Lemma join_empty xs n : xs ≠ [] → join [LF] (xs ++ replicate n []) = join [LF] xs ++ replicate n LF.
Proof.
  intros Hne. induction n as [|n IH]; [by rewrite !app_nil_r|].
  rewrite replicate_S_end, app_assoc, join_snoc, IH by (by destruct xs).
  by rewrite <- app_assoc, app_nil_r, (replicate_S_end n LF).
Qed.

(** The lines after the text are empty. *)
Lemma trailing_empty k tr ys2 m : Forall2 (printsLine k) tr ys2 → Forall oneLine tr →
  Forall (λ x, forallb isSpace x = true) tr →
  Forall (λ x, len (fst x) <= Z.of_nat k) (drop m (map splitLine ys2)) →
  drop m tr = replicate (length tr - m) [] ∧
  (drop m (map splitLine ys2) ≫= λ x, LF :: drop (Z.to_nat (Z.of_nat k)) (fst x)) = replicate (length tr - m) LF.
Proof.
  intros Hp. revert m. induction Hp as [|z y tr ys2 Hz Hp IH]; intros m Ho Hsp Hm; [by destruct m|].
  apply Forall_cons in Ho as [Ho1 Ho]. apply Forall_cons in Hsp as [Hs1 Hsp].
  destruct m as [|m]; [|by apply IH]. cbn [map drop] in Hm. apply Forall_cons in Hm as [Hm1 Hm].
  destruct (IH 0%nat Ho Hsp Hm) as [IH1 IH2]. rewrite !drop_0, Nat.sub_0_r in *. cbn [map length drop replicate]. csimpl.
  assert (drop k (fst (splitLine y)) = []) as Hd by (apply drop_ge; unfold len in Hm1; lia).
  assert (z = []) as Hz0.
  { rewrite <- (rl_text _ _ _ (splitLine_reads k z y Ho1 Hz)). by rewrite Hd, (spaces_read k z y Hz Hs1). }
  split; [by rewrite Hz0, <- IH1|]. change (take _ y) with (fst (splitLine y)).
  rewrite Nat2Z.id, Hd. cbn [app]. f_equal. by rewrite <- IH2, Nat2Z.id.
Qed.

(** A literal block holds its lines, and with the kept line breaks the lines of
    spaces [tr] after them. *)
Lemma literal_lines t h strict atRoot k xs ys tr ys2 x :
  parseHeader t strict = (Some h, []) → mode h = Some (ch "|") → (0 < k)%nat →
  Forall oneLine xs → Forall2 (printsLine k) xs ys →
  Forall2 (printsLine k) tr ys2 → Forall (λ x, forallb isSpace x = true) tr → (tr ≠ [] → chomp h = KEEP) →
  source t = blockSource (ys ++ ys2) →
  last xs = Some x → forallb isSpace x = false → indented t h k xs →
  blockValue t strict atRoot =
  (join [LF] (xs ++ tr) ++ match chomp h with STRIP => [] | _ => [LF] end, []).
Proof.
  intros Hh Hm Hk Hx Hp Hp2 Hsp Htr Hs Hl Ht Hi. unfold blockValue. rewrite Hh, Hs, Hm.
  assert (Hx' : Forall oneLine (xs ++ tr)).
  { apply Forall_app. split; [done|]. eapply Forall_impl; [done|]. intros z Hz. split.
    - clear -Hz. induction z as [|c z IH]; [done|]. cbn [forallb existsb] in *.
      apply andb_prop in Hz as [Hc Hz]. rewrite (IH Hz). unfold isSpace in Hc. apply Z.eqb_eq in Hc as ->. done.
    - intros (z' & ->)%last_Some. rewrite forallb_app in Hz. apply andb_prop in Hz as [_ Hz]. done. }
  assert (Hp' : Forall2 (printsLine k) (xs ++ tr) (ys ++ ys2)) by by apply Forall2_app.
  assert (Hlen : length xs = length ys) by by eapply Forall2_length.
  assert (Hlen2 : length (xs ++ tr) = length (ys ++ ys2)) by by eapply Forall2_length.
  assert (Hne : xs ≠ []) by (by intros ->).
  assert (Hne' : ys ++ ys2 ≠ []) by (destruct xs, ys; done).
  destruct (splitLines_source k _ _ Hx' Hp' Hne') as (Ho & Hr & Hsrc).
  destruct (blockSource (ys ++ ys2)) as [|b bs] eqn:Eb; [done|]. rewrite <- Eb in *. clear b bs Eb Hsrc. rewrite Ho.
  pose proof (contentLines_source k xs ys tr ys2 x Hx Hp Hl Ht Hp2 Hsp) as Hcl. rewrite Hcl.
  set (o := map splitLine (ys ++ ys2)) in *. assert (Hlo : length o = length (ys ++ ys2)) by apply length_map.
  destruct (length ys) as [|n] eqn:En; [by destruct xs|]. rewrite <- En in *. clear n En.
  assert (Hys : (length ys <= length o)%nat) by (rewrite Hlo, length_app; lia).
  rewrite (take_app_le o), (drop_app_le o) by done.
  destruct (findIndent_spec k (hindent h) atRoot xs (take (length ys) o) 0 (bindent t + hindent h) (offset t + hlength h) [])
    as (u & l & -> & Hb & Hu).
  { done. }
  { rewrite <- (take_app_length' xs tr (length ys)) by done. by apply Forall2_take. }
  { unfold o. rewrite map_app, take_app_length' by (by rewrite length_map). by eapply indented_first. }
  { rewrite <- contentLines_blank. unfold o. rewrite map_app, take_app_length' by (by rewrite length_map).
    rewrite <- (app_nil_r ys), (contentLines_source k xs ys [] [] x) by done. destruct ys, xs; simpl in *; lia || done. }
  rewrite moreLines_blank by lia. set (m := moreLines _ _).
  assert (Hu' : (u < length ys)%nat).
  { assert (Hc : contentLines (take (length ys) o) = length ys); [|lia].
    rewrite <- contentLines_blank. unfold o. rewrite map_app, take_app_length' by (by rewrite length_map).
    by rewrite <- (app_nil_r ys) at 1; rewrite (contentLines_source k xs ys [] [] x). }
  destruct (moreLines_spec (Z.of_nat k) (drop (length ys) o)) as [Hm1 Hm2]. fold m in Hm1, Hm2.
  rewrite length_drop in Hm1. set (s := (length ys + m)%nat).
  assert (Hdo : drop (length ys) o = map splitLine ys2).
  { unfold o. by rewrite map_app, drop_app_length' by (by rewrite length_map). }
  destruct (trailing_empty k tr ys2 m) as [He1 He2]; [done|by apply Forall_app in Hx' as [_ ?]|done|by rewrite <- Hdo|].
  cbn [Nat.add]. rewrite !take_app_le, (drop_app_le o) by lia.
  rewrite (lead_text k u (xs ++ tr) o Hr); [|by rewrite take_take, Nat.min_l in Hb by lia].
  change (negb (eqc (Some (ch "|")) (ch ">"))) with true.
  assert (Hsx : (s <= length (xs ++ tr))%nat) by (rewrite Hlen2, <- Hlo; lia).
  destruct (addLines_literal k (drop u (take s (xs ++ tr))) (drop u (take s o))
    {| d := take u (xs ++ tr) ≫= λ x, x ++ [LF]; f := []; p := false; loff := l; berrs := [] |}) as [-> ->].
  { by apply Forall2_drop, Forall2_take. }
  { intros Hd. apply (f_equal length) in Hd. rewrite length_drop, length_take in Hd. simpl in Hd. lia. }
  cbn [d f berrs app]. f_equal.
  assert (take u (xs ++ tr) = take u (take s (xs ++ tr))) as -> by (by rewrite take_take, Nat.min_l by lia).
  rewrite join_lead by (rewrite length_take; lia).
  assert (Hxt : xs ++ tr = take s (xs ++ tr) ++ replicate (length tr - m) []).
  { rewrite <- (take_drop s (xs ++ tr)) at 1. f_equal. unfold s.
    by rewrite <- drop_drop, drop_app_length' by done. }
  assert (Hds : drop s o = drop m (map splitLine ys2)) by (unfold s; by rewrite <- drop_drop, Hdo).
  rewrite Hds. destruct (decide (tr = [])) as [->|Htr'].
  - assert (ys2 = []) as -> by (by inversion Hp2).
    assert (drop m (map splitLine []) = []) as -> by (by destruct m). cbn [length] in Hxt.
    change (replicate (0 - m) ([] : jstr)) with ([] : list jstr) in Hxt. rewrite (app_nil_r (take _ _)) in Hxt.
    rewrite <- Hxt, !app_nil_r. unfold chompText. cbn [app].
    destruct (chomp h); [done|by rewrite app_nil_r|].
    csimpl. rewrite drop_nil. cbn [app]. by rewrite last_snoc.
  - rewrite (Htr Htr'). rewrite Hxt at 2. rewrite join_empty by
      (intros Hn; apply (f_equal length) in Hn; rewrite length_take in Hn; cbn [length] in Hn; lia).
    unfold chompText. rewrite bind_app, He2. csimpl. rewrite drop_nil. cbn [app].
    by rewrite app_assoc, last_snoc.
Qed.

(** a literal block holds its lines: when the header is well formed, the lines
    are printed at an indentation the header gives or the first line shows, and the
    last line is not blank, the value is the lines joined by line breaks, with a
    final line break unless the header strips it, and there is no error. *)
Theorem literal_block_exact t h strict atRoot k xs ys x :
  parseHeader t strict = (Some h, []) → mode h = Some (ch "|") → (0 < k)%nat →
  Forall oneLine xs → Forall2 (printsLine k) xs ys → source t = blockSource ys →
  last xs = Some x → forallb isSpace x = false → indented t h k xs →
  blockValue t strict atRoot =
  (join [LF] xs ++ match chomp h with STRIP => [] | _ => [LF] end, []).
Proof.
  intros Hh Hm Hk Hx Hp Hs Hl Ht Hi.
  rewrite (literal_lines t h strict atRoot k xs ys [] [] x); rewrite ?app_nil_r; done.
Qed.

(** A block with an indentation indicator, a blank line that is not indented and a
    more indented line. *)
Definition sampleBlock : BlockToken := {|
  offset := 0; bindent := 0;
  props := [{| ttype := Some block_scalar_header; toffset := 0; tsource := runes "|2-" |};
            {| ttype := Some newline; toffset := 3; tsource := [LF] |}];
  source := blockSource [runes "    first"; []; runes "  last"];
|}.

Lemma literal_block_exact_witness :
  blockValue sampleBlock true false = (join [LF] [runes "  first"; []; runes "last"], []).
Proof.
  change (blockValue sampleBlock true false =
    (join [LF] [runes "  first"; []; runes "last"] ++ match STRIP with STRIP => [] | _ => [LF] end, [])).
  apply (literal_block_exact sampleBlock
    {| mode := Some (ch "|"); hindent := 2; chomp := STRIP; hcomment := []; hlength := 4 |} true false 2
    [runes "  first"; []; runes "last"] [runes "    first"; []; runes "  last"] (runes "last")).
  - vm_compute. reflexivity.
  - reflexivity.
  - lia.
  - repeat (constructor; [split; vm_compute; congruence|]). constructor.
  - constructor; [left; reflexivity|]. constructor; [right; split; [reflexivity|exists 0%nat; split; [lia|reflexivity]]|].
    constructor; [left; reflexivity|]. constructor.
  - reflexivity.
  - reflexivity.
  - vm_compute. reflexivity.
  - left. split; [vm_compute; congruence|reflexivity].
Defined.
