(* ===== verification/YamlPrint.v ===== *)
(** * YAML plain and block strings of the web UI

    How the yaml library bundled in
    [internal/ui/assets/assets/index-DHyr8oiy.js] prints a string that is not quoted:
    comments ([JUt], [U9], [W9]), block scalars ([nWt], [sWt]), plain scalars ([cWt])
    and the choice between the styles ([lWt]).  The quoted styles are in
    YamlScalars.v. *)

From Stdlib Require Import ZArith Lia.
From stdpp Require Import base numbers strings gmap option list.
From S2P Require Import Prelude Js YamlLexer YamlLexerProps YamlScalars YamlScalarsProps YamlBlock.

Open Scope Z_scope.

Module Print.
Import Yaml Scalars.

(** ** Comments *)

(** [$] of a pattern with the flag m. *)
Definition atEol (s : jstr) : bool := match s with [] => true | c :: _ => isLineBreak c end.

(** [JUt]: [replace(/^(?!$)(?: $)?/gm, "#")]; [bol] is whether [^] matches. *)
Fixpoint commentFrom (bol : bool) (s : jstr) : jstr :=
  match s with
  | [] => []
  | c :: r =>
    if bol && negb (isLineBreak c)
    then (if (c =? SP) && atEol r then [ch "#"] else [ch "#"; c]) ++ commentFrom false r
    else c :: commentFrom (isLineBreak c) r
  end.

Definition stringifyComment (s : jstr) : jstr := commentFrom true s.

(** [/^ *$/m] at the start of a line. *)
Fixpoint blankLine_ (s : jstr) : bool :=
  match s with [] => true | c :: r => if c =? SP then blankLine_ r else isLineBreak c end.

Fixpoint indentFrom (t : jstr) (bol : bool) (s : jstr) : jstr :=
  match s with
  | [] => []
  | c :: r => (if bol && negb (blankLine_ s) then t else []) ++ c :: indentFrom t (isLineBreak c) r
  end.

(** [U9] *)
Definition indentComment (e t : jstr) : jstr :=
  if negb (bool_decide (e = [])) && forallb (Z.eqb LF) e then drop 1 e
  else match t with [] => e | _ :: _ => indentFrom t true e end.

(** [W9] *)
Definition lineComment (e t n : jstr) : jstr :=
  if eqc (last e) LF then indentComment n t
  else if existsb (Z.eqb LF) n then LF :: indentComment n t
  else (if eqc (last e) SP then [] else [SP]) ++ n.

(** ** Block strings *)

Inductive blockStyle := NO_BLOCK | ANY_BLOCK | LITERAL_BLOCK | FOLDED_BLOCK.
Inductive scalarType := BLOCK_FOLDED | BLOCK_LITERAL | PLAIN | QUOTE_DOUBLE | QUOTE_SINGLE.

#[global] Instance blockStyle_eq : EqDecision blockStyle.
Proof. solve_decision. Defined.

#[global] Instance scalarType_eq : EqDecision scalarType.
Proof. solve_decision. Defined.

(** What the printers read of their context beside [Ctx].  [otherTag] is whether
    a tag of the schema other than that of strings claims a text. *)
Record PrintCtx := {
  base : Ctx;
  blockQuote : blockStyle;
  commentString : jstr → jstr;
  forceBlockIndent : bool;
  actualString : bool;
  indentStep : jstr;
  inFlow : bool;
  otherTag : jstr → bool;
  defaultKeyType : option scalarType;
  defaultStringType : scalarType;
}.

Record Item := { comment_ : jstr; type_ : option scalarType; value_ : jstr }.

(** The text and whether the comment was printed, the chomping keeps breaks, and the
    context was told to indent blocks. *)
Record Printed := { text : jstr; commentDone : bool; chompKeep : bool; forced : bool }.

Definition just (s : jstr) : Printed := {| text := s; commentDone := false; chompKeep := false; forced := false |}.

(** The loop of [nWt] from position [t], with the line start [n]. *)
Fixpoint overLoop (e : jstr) (t n r i : Z) : bool :=
  match e with
  | [] => true
  | c :: e =>
    if c =? LF then
      if r <? t - n then true else if i - (t + 1) <=? r then false else overLoop e (t + 1) (t + 1) r i
    else overLoop e (t + 1) n r i
  end.

(** [nWt] *)
Definition lineLengthOverLimit (e : jstr) (lineWidth indentLength : Z) : bool :=
  if lineWidth <=? 0 then false
  else
    let r := lineWidth - indentLength in
    if len e <=? r then false else overLoop e 0 0 r (len e).

Definition blankBreak (c : Z) : bool := (c =? LF) || (c =? TAB) || (c =? SP).

(** [n.substring(f)], the blanks and breaks at the end, and what is before. *)
Definition trailing (s : jstr) : jstr * jstr :=
  let k := Z.to_nat (countWhile blankBreak (reverse s)) in
  (take (length s - k) s, drop (length s - k) s).

(** [/\n[\t ]+$/] *)
Definition endsWithBlanks (s : jstr) : bool :=
  let k := Z.to_nat (countWhile isBlank (reverse s)) in
  bool_decide (0 < k)%nat && eqc (head (drop k (reverse s))) LF.

(** [s.replace(/\n+/g, "$&" + l)] *)
Fixpoint indentRuns (l s : jstr) : jstr :=
  match s with
  | [] => []
  | c :: r => if (c =? LF) && negb (eqc (head r) LF) then LF :: l ++ indentRuns l r else c :: indentRuns l r
  end.

(** The same with [oWt], which does not match at the end. *)
Fixpoint indentInnerRuns (l s : jstr) : jstr :=
  match s with
  | [] => []
  | c :: r =>
    if (c =? LF) && negb (eqc (head r) LF) && negb (bool_decide (r = []))
    then LF :: l ++ indentInnerRuns l r else c :: indentInnerRuns l r
  end.

(** The chomping indicator of the trailing text [p] of [n], and whether the
    callback for kept breaks is called. *)
Definition chompMark (n p : jstr) : jstr * bool :=
  if negb (existsb (Z.eqb LF) p) then (runes "-", false)
  else if bool_decide (n = p) || negb (bool_decide (countWhile (λ c, negb (c =? LF)) p = len p - 1))
  then (runes "+", true)
  else ([], false).

Definition dropLastBreak (p : jstr) : jstr := if eqc (last p) LF then removelast p else p.

(** The blank lines at the start: whether there is a space, and the text up to the
    last break. *)
Definition leadBlanks (s : jstr) : jstr := take (Z.to_nat (countWhile (λ c, (c =? SP) || (c =? LF)) s)) s.

Definition upToLastBreak (s : jstr) : jstr :=
  take (length s - Z.to_nat (countWhile (λ c, negb (c =? LF)) (reverse s))) s.

(** [s.replace(/\n+/g, "\n$&")] *)
Fixpoint doubleRuns (inRun : bool) (s : jstr) : jstr :=
  match s with
  | [] => []
  | c :: r => if c =? LF then (if inRun then [LF] else [LF; LF]) ++ doubleRuns true r else c :: doubleRuns false r
  end.

(** The blanks and breaks after a more indented line, when they end with a break:
    what is kept of them (the second group of the pattern), and the rest. *)
Definition afterIndented (s : jstr) : jstr * jstr :=
  let k := Z.to_nat (countWhile blankBreak s) in
  if eqc (last (take k s)) LF then (removelast (take k s), drop k s) else ([], s).

(** The replacement that takes the breaks around the more indented lines back:
    each such line with the break before it, and the blanks after it with their
    last break, is replaced by the two groups; [start] is whether [^] matches. *)
Fixpoint keepIndented (fuel : nat) (start : bool) (s : jstr) : option jstr :=
  match fuel with
  | O => None
  | S fuel =>
    let line r :=
      let k := Z.to_nat (countWhile (λ c, negb (isLineBreak c)) r) in
      let '(q, rest) := afterIndented (drop k r) in
      t ← keepIndented fuel false rest; Some (take k r ++ q ++ t) in
    match s with
    | [] => Some []
    | c :: r =>
      if start && isBlank c then line s
      else if (c =? LF) && match r with d :: _ => isBlank d | [] => false end then line r
      else t ← keepIndented fuel false r; Some (c :: t)
    end
  end.

(** [e.replace(/ ?[\r\n]+/g, " ")] *)
Fixpoint unbreak (inRun : bool) (s : jstr) : jstr :=
  match s with
  | [] => []
  | c :: r =>
    if (c =? LF) || (c =? CR) then (if inRun then [] else [SP]) ++ unbreak true r
    else if (c =? SP) && match r with d :: _ => (d =? LF) || (d =? CR) | [] => false end
    then SP :: unbreak true r
    else c :: unbreak false r
  end.

(** [sWt]; [None] is fuel run out. *)
Definition blockString (e : Item) (t : PrintCtx) : option Printed :=
  let n := value_ e in
  if bool_decide (blockQuote t = NO_BLOCK) || endsWithBlanks n then just <$> quotedString n (base t)
  else
    let l := match indent (base t) with
             | [] => if forceBlockIndent t || containsDocumentMarker n then [SP; SP] else []
             | i => i
             end in
    let literal :=
      if bool_decide (blockQuote t = LITERAL_BLOCK) then true
      else if bool_decide (blockQuote t = FOLDED_BLOCK) || bool_decide (type_ e = Some BLOCK_FOLDED) then false
      else if bool_decide (type_ e = Some BLOCK_LITERAL) then true
      else negb (lineLengthOverLimit n (optLineWidth (base t)) (len l)) in
    if bool_decide (n = []) then Some (just (if literal then [ch "|"; LF] else [ch ">"; LF]))
    else
      let '(n0, p) := trailing n in
      let '(d, keep) := chompMark n p in
      let p := indentInnerRuns l (dropLastBreak p) in
      let lead := leadBlanks n0 in
      let h := existsb (Z.eqb SP) lead in
      let v := upToLastBreak lead in
      let n1 := drop (length v) n0 in
      let v := indentRuns l v in
      let y := (if h then (match l with [] => runes "1" | _ :: _ => runes "2" end) else []) ++ d in
      let commented := negb (bool_decide (comment_ e = [])) in
      let y := if commented then y ++ [SP] ++ commentString t (unbreak false (comment_ e)) else y in
      let done s := {| text := s; commentDone := commented; chompKeep := keep; forced := false |} in
      let asLiteral := done ([ch "|"] ++ y ++ [LF] ++ l ++ v ++ indentRuns l n1 ++ p) in
      if literal then Some asLiteral
      else
        f ← keepIndented (S (S (2 * length n1))) true (doubleRuns false n1);
        let o := {| indentAtStart := Some (len (indent (base t))); lineWidth := optLineWidth (base t);
                    minContentWidth := optMinContentWidth (base t) |} in
        '(s, over) ← foldText_ (v ++ indentRuns l f ++ p) l FOLD_BLOCK o;
        let watched := negb (bool_decide (blockQuote t = FOLDED_BLOCK)) && negb (bool_decide (type_ e = Some BLOCK_FOLDED)) in
        Some (if watched && over then asLiteral else done ([ch ">"] ++ y ++ [LF] ++ l ++ s)).

(** ** Plain strings *)

Definition oneOf (cs : string) (c : Z) : bool := existsb (Z.eqb c) (runes cs).

(** Two adjacent characters. *)
Fixpoint adjacent_ (p q : Z → bool) (s : jstr) : bool :=
  match s with
  | [] => false
  | c :: r => (p c && match r with d :: _ => q d | [] => false end) || adjacent_ p q r
  end.

Definition isLF (c : Z) : bool := c =? LF.

(** The texts that cannot be plain. *)
Definition notPlain (a : jstr) : bool :=
  match a with
  | [] => false
  | c :: r =>
    blankBreak c || oneOf ",[]{}#&*!|>'%@`" c || (c =? DQ)
    || (oneOf "?-" c && match r with [] => true | d :: _ => isBlank d end)
  end
  || adjacent_ (λ c, isLF c || (c =? ch ":")) isBlank a || adjacent_ isBlank isLF a || adjacent_ blankBreak (Z.eqb (ch "#")) a
  || match last a with Some c => blankBreak c || (c =? ch ":") | None => false end.

Definition force (t : PrintCtx) : PrintCtx := {|
  base := base t; blockQuote := blockQuote t; commentString := commentString t; forceBlockIndent := true;
  actualString := actualString t; indentStep := indentStep t; inFlow := inFlow t; otherTag := otherTag t;
  defaultKeyType := defaultKeyType t; defaultStringType := defaultStringType t |}.

Definition setForced (p : Printed) : Printed :=
  {| text := text p; commentDone := commentDone p; chompKeep := chompKeep p; forced := true |}.

(** The end of [cWt]: the text as it is, unless it would be read as another type. *)
Definition plainText (a : jstr) (t : PrintCtx) : option Printed :=
  let c := indent (base t) in
  let d := breakRuns c a in
  if actualString t && otherTag t d then just <$> quotedString a (base t)
  else if implicitKey (base t) then Some (just d)
  else r ← foldText_ d c FOLD_FLOW (foldOptions (base t)); Some (just (fst r)).

(** [cWt] *)
Definition plainString (e : Item) (t : PrintCtx) : option Printed :=
  let a := value_ e in
  let s := implicitKey (base t) in
  let multi := existsb (Z.eqb LF) a in
  let quoted := just <$> quotedString a (base t) in
  if (s && multi) || (inFlow t && existsb (oneOf "[]{},") a) then quoted
  else if notPlain a then (if s || inFlow t || negb multi then quoted else blockString e t)
  else if negb s && negb (inFlow t) && negb (bool_decide (type_ e = Some PLAIN)) && multi then blockString e t
  else if containsDocumentMarker a then
    if bool_decide (indent (base t) = []) then setForced <$> blockString e (force t)
    else if s && bool_decide (indent (base t) = indentStep t) then quoted else plainText a t
  else plainText a t.

(** ** The choice *)

(** A character that only double quotes can show; a surrogate counts when it is
    alone. *)
Fixpoint needsEscape (s : jstr) : bool :=
  match s with
  | [] => false
  | c :: r =>
    if (0 <=? c) && (c <=? 8) || (11 <=? c) && (c <=? 31) || (127 <=? c) && (c <=? 159) then true
    else if (55296 <=? c) && (c <=? 56319) then
      match r with
      | d :: r => if (56320 <=? d) && (d <=? 57343) then needsEscape r else true
      | [] => true
      end
    else if (56320 <=? c) && (c <=? 57343) then true
    else needsEscape r
  end.

(** [c] of [lWt] *)
Definition stringAs (ty : option scalarType) (e : Item) (t : PrintCtx) : option (option Printed) :=
  match ty with
  | Some BLOCK_FOLDED | Some BLOCK_LITERAL =>
    Some (if implicitKey (base t) || inFlow t then just <$> quotedString (value_ e) (base t) else blockString e t)
  | Some QUOTE_DOUBLE => Some (just <$> doubleQuotedString (value_ e) (base t))
  | Some QUOTE_SINGLE => Some (just <$> singleQuotedString (value_ e) (base t))
  | Some PLAIN => Some (plainString e t)
  | None => None
  end.

(** [lWt]; the default type is one of the five, so that the error is not reached. *)
Definition stringifyString (e : Item) (t : PrintCtx) : option Printed :=
  let s := if negb (bool_decide (type_ e = Some QUOTE_DOUBLE)) && needsEscape (value_ e)
           then Some QUOTE_DOUBLE else type_ e in
  match stringAs s e t with
  | Some r => r
  | None =>
    let d := match (if implicitKey (base t) then defaultKeyType t else None) with
             | Some k => k
             | None => defaultStringType t
             end in
    default None (stringAs (Some d) e t)
  end.

End Print.
