(* ===== verification/YamlPrintProps.v ===== *)
(** * Properties of the printing of YAML strings

    The text printed by [stringifyString] has the value of the string: the plain, quoted
    and literal block styles resolve to it, for every context that does not fold lines
    and does not ask for folded blocks.  YamlRoundTrip.v reads printed documents with the
    whole reader, and shows the texts that are not read back. *)

From Stdlib Require Import ZArith Lia.
From stdpp Require Import base numbers strings gmap option list.
From S2P Require Import Prelude Js YamlLexer YamlLexerProps YamlScalars YamlScalarsProps YamlBlock YamlPrint.

Open Scope Z_scope.

Import Yaml Scalars Block Print.

(** ** The value of a printed scalar *)

Fixpoint cutAt (c : Z) (s : jstr) : jstr * jstr :=
  match s with
  | [] => ([], [])
  | x :: r => if x =? c then ([], s) else let '(a, b) := cutAt c r in (x :: a, b)
  end.

(** The token of a printed block scalar below a node indented by [ind]: the line of
    the header as its tokens, and the lines after it up to the break the document
    puts at the end. *)
Definition blockToken (ind : Z) (s : jstr) : BlockToken :=
  let '(h, body) := cutAt LF s in
  let '(mark, rest) := cutAt SP h in
  {| offset := 0; bindent := ind;
     props := {| ttype := Some block_scalar_header; toffset := 0; tsource := mark |}
       :: match rest with
          | [] => []
          | _ :: c => [{| ttype := Some space; toffset := len mark; tsource := [SP] |};
                       {| ttype := Some comment; toffset := len mark + 1; tsource := c |}]
          end ++ [{| ttype := Some newline; toffset := len h; tsource := [LF] |}];
     source := drop 1 body ++ [LF] |}.

(** The value of a scalar by its first character. *)
Definition scalarValue (ind : Z) (s : jstr) : option jstr :=
  match head s with
  | Some c =>
    if (c =? ch "'") || (c =? DQ)
    then match quotedValue s with Some (inr (v, [])) => Some v | _ => None end
    else if (c =? ch "|") || (c =? ch ">")
    then match blockValue (blockToken ind s) true false with (v, []) => Some v | _ => None end
    else match plainValue s with (v, []) => Some v | _ => None end
  | None => Some []
  end.

(** ** The text of a literal block *)

Lemma countWhile_split p s : let k := Z.to_nat (countWhile p s) in
  forallb p (take k s) = true ∧ match head (drop k s) with Some c => p c = false | None => True end.
Proof.
  induction s as [|c s IH]; [done|]. cbv zeta in *. cbn [countWhile]. destruct (p c) eqn:E.
  - pose proof (countWhile_range p s). rewrite Z2Nat.inj_add by lia. change (Z.to_nat 1) with 1%nat.
    cbn [Nat.add take drop forallb]. by rewrite E.
  - by cbn.
Qed.

Lemma suffix_split p s : let k := Z.to_nat (countWhile p (reverse s)) in
  forallb p (drop (length s - k) s) = true ∧
  match last (take (length s - k) s) with Some c => p c = false | None => True end ∧
  drop k (reverse s) = reverse (take (length s - k) s).
Proof.
  cbv zeta. destruct (countWhile_split p (reverse s)) as [H1 H2]. set (k := Z.to_nat _) in *.
  assert (Hs : s = reverse (drop k (reverse s)) ++ reverse (take k (reverse s))).
  { by rewrite <- reverse_app, take_drop, reverse_involutive. }
  assert (Hl : (length s - k)%nat = length (reverse (drop k (reverse s)))).
  { by rewrite length_reverse, length_drop, length_reverse. }
  assert (drop (length s - k) s = reverse (take k (reverse s))) as ->.
  { rewrite Hs at 2. by apply drop_app_length'. }
  assert (take (length s - k) s = reverse (drop k (reverse s))) as ->.
  { rewrite Hs at 2. by apply take_app_length'. }
  split_and!; [| |by rewrite reverse_involutive].
  - rewrite forallb_forall in *. intros x Hx. apply H1. by apply list_elem_of_In, elem_of_reverse, list_elem_of_In.
  - destruct (drop k (reverse s)) as [|c r]; [done|]. by rewrite reverse_cons, last_snoc.
Qed.

Lemma trailing_spec s n p : trailing s = (n, p) →
  s = n ++ p ∧ forallb blankBreak p = true ∧ match last n with Some c => blankBreak c = false | None => True end.
Proof.
  unfold trailing. intros [= <- <-]. destruct (suffix_split blankBreak s) as (H1 & H2 & _).
  split; [by rewrite take_drop|done].
Qed.

(** The texts put together are indented as one. *)
Lemma indentInner_app l a b : (last a = Some LF → b ≠ [] ∧ head b ≠ Some LF) →
  indentInnerRuns l (a ++ b) = indentRuns l a ++ indentInnerRuns l b.
Proof.
  induction a as [|c a IH]; intros H; [done|]. cbn [app indentInnerRuns indentRuns].
  destruct a as [|d a].
  - cbn [app indentRuns head]. destruct (c =? LF) eqn:Ec; cbn [andb]; [|done].
    apply Z.eqb_eq in Ec as ->. destruct H as [Hb Hh]; [done|].
    change (eqc (head []) LF) with false. cbn [negb].
    destruct b as [|x b]; [done|]. assert (eqc (head (x :: b)) LF = false) as ->.
    { destruct (eqc (head (x :: b)) LF) eqn:E; [|done]. by apply eqc_true in E. }
    rewrite bool_decide_eq_false_2 by done. cbn. by rewrite app_nil_r.
  - rewrite IH by (intros ?; by apply H). cbn [app head].
    rewrite (bool_decide_eq_false_2 (d :: a ++ b = [])) by done. rewrite andb_true_r.
    by destruct ((c =? LF) && negb (eqc (Some d) LF)); cbn [app]; rewrite <- ?app_assoc.
Qed.

(** The lines of an indented text: only the first is as before. *)
Lemma indentInner_lines k s : ∃ x xs ys, Js.split LF s = x :: xs ∧
  Js.split LF (indentInnerRuns (replicate k SP) s) = x :: ys ∧ Forall2 (printsLine k) xs ys ∧
  (head s = Some LF → x = []).
Proof.
  assert (∀ t p ps, Js.split LF t = p :: ps → Js.split LF (replicate k SP ++ t) = (replicate k SP ++ p) :: ps) as Hsp.
  { intros t p ps Ht. induction k as [|n IH]; [done|]. cbn [replicate app Js.split]. by rewrite IH. }
  induction s as [|c s (x & xs & ys & Hx & Hy & Hp & Hh)]; [by exists [], [], []|].
  cbn [indentInnerRuns Js.split]. rewrite Hx. destruct (c =? LF) eqn:Ec; cbn [andb].
  - exists [], (x :: xs). apply Z.eqb_eq in Ec as ->.
    destruct (eqc (head s) LF) eqn:E; cbn [negb andb].
    + exists (x :: ys). cbn [Js.split]. change (LF =? LF) with true. rewrite Hy. split_and!; try done.
      constructor; [|done]. right. apply eqc_true in E. rewrite (Hh E). split; [done|]. exists 0%nat. split; [lia|done].
    + case_bool_decide as Es; cbn [negb].
      * subst s. simpl in Hx. simplify_eq. exists [[]]. split_and!; try done.
        constructor; [|done]. right. split; [done|]. exists 0%nat. split; [lia|done].
      * exists ((replicate k SP ++ x) :: ys). cbn [Js.split]. change (LF =? LF) with true.
        rewrite (Hsp _ x ys Hy). split_and!; try done. constructor; [by left|done].
  - exists (c :: x), xs, ys. cbn [Js.split]. rewrite Ec, Hy. split_and!; try done. intros [= ->]. done.
Qed.

Lemma blockSource_split s : blockSource (Js.split LF s) = s ++ [LF].
Proof.
  rewrite <- (join_split LF s) at 2. pose proof (split_nonempty LF s) as Hne.
  induction (Js.split LF s) as [|x l IH]; [done|]. unfold blockSource in *. csimpl. destruct l as [|y l].
  - by rewrite app_nil_r.
  - rewrite IH by done. by rewrite <- !app_assoc.
Qed.

(** Lines with a character that is no space: the last such line. *)
Lemma last_text xs : existsb (λ x, negb (forallb isSpace x)) xs = true →
  ∃ ms x tr, xs = (ms ++ [x]) ++ tr ∧ forallb isSpace x = false ∧ Forall (λ x, forallb isSpace x = true) tr.
Proof.
  induction xs as [|y xs IH]; [done|]. cbn [existsb]. intros H.
  destruct (existsb (λ x, negb (forallb isSpace x)) xs) eqn:E.
  - destruct (IH eq_refl) as (ms & x & tr & -> & Hx & Ht). by exists (y :: ms), x, tr.
  - rewrite orb_false_r in H. apply negb_true_iff in H. exists [], y, xs. split_and!; [done|done|].
    clear -E. induction xs as [|z xs IH]; [constructor|]. cbn [existsb] in E. apply orb_false_iff in E as [Hz E].
    constructor; [by apply negb_false_iff in Hz|by apply IH].
Qed.

(** A text line before the lines of spaces is before their end. *)
Lemma text_before ms tr pre y post : ms ++ tr = pre ++ y :: post → forallb isSpace y = false →
  Forall (λ x, forallb isSpace x = true) tr → ∃ post', ms = pre ++ y :: post'.
Proof.
  intros H Hy Htr. apply app_eq_inv in H as [(k & -> & Hk)|(k & -> & Hk)].
  - destruct k as [|z k]; simplify_eq/=; [|by exists k].
    rewrite app_nil_r. apply Forall_cons in Htr as [? _]. congruence.
  - subst tr. apply Forall_app in Htr as [_ [? _]%Forall_cons]. congruence.
Qed.

Lemma split_leading n c s : c ≠ LF →
  ∃ x0 xs, Js.split LF (replicate n LF ++ c :: s) = replicate n [] ++ (c :: x0) :: xs.
Proof.
  intros Hc. induction n as [|n (x0 & xs & IH)].
  - destruct (split_cons_ne LF c s Hc) as (p & ps & _ & H). by exists p, ps.
  - exists x0, xs. cbn [replicate app Js.split]. by rewrite IH.
Qed.

Lemma has_break s : existsb (Z.eqb LF) s = true ↔ LF ∈ s.
Proof.
  rewrite existsb_exists. split.
  - intros (x & Hx%list_elem_of_In & ->%Z.eqb_eq). done.
  - intros Hx. exists LF. by rewrite <- list_elem_of_In.
Qed.

Lemma no_break s : existsb (Z.eqb LF) s = false ↔ LF ∉ s.
Proof. rewrite <- has_break. by destruct (existsb _ s). Qed.

Lemma upToLastBreak_spec s : ∃ r, s = upToLastBreak s ++ r ∧ (LF ∉ r) ∧
  (upToLastBreak s = [] ∨ ∃ u, upToLastBreak s = u ++ [LF]).
Proof.
  unfold upToLastBreak. destruct (suffix_split (λ c, negb (c =? LF)) s) as (H1 & H2 & _).
  set (k := Z.to_nat _) in *. exists (drop (length s - k) s). split_and!; [by rewrite take_drop| |].
  - intros Hin. rewrite forallb_forall in H1. specialize (H1 LF). rewrite <- list_elem_of_In in H1.
    by specialize (H1 Hin).
  - destruct (last (take _ s)) as [c|] eqn:E; [|left; by apply last_None]. right.
    apply negb_false_iff, Z.eqb_eq in H2 as ->. by apply last_Some.
Qed.

(** A text that does not end with blanks after a break ends with the break. *)
Lemma last_break s n p : trailing s = (n, p) → endsWithBlanks s = false → LF ∈ p → ∃ q, p = q ++ [LF].
Proof.
  intros Ht He Hp. destruct (trailing_spec _ _ _ Ht) as (-> & Hb & _).
  destruct (upToLastBreak_spec p) as (r & Hr & Hno & Hu).
  destruct Hu as [Hu|[u Hu]]; rewrite Hu in Hr; simpl in Hr; [congruence|].
  destruct (decide (r = [])) as [->|Hne]; [exists u; by rewrite Hr, app_nil_r|]. exfalso.
  assert (Hrb : forallb isBlank (reverse r) = true).
  { apply forallb_forall. intros x Hx%list_elem_of_In. rewrite elem_of_reverse in Hx.
    rewrite forallb_forall in Hb. specialize (Hb x). rewrite <- list_elem_of_In, Hr, elem_of_app in Hb.
    specialize (Hb (or_intror Hx)). unfold blankBreak, isBlank in *.
    destruct (x =? LF) eqn:E; [apply Z.eqb_eq in E as ->; done|]. by rewrite orb_comm. }
  assert (Hc : ∀ a b, forallb isBlank a = true → (∀ c, head b = Some c → isBlank c = false) →
    countWhile isBlank (a ++ b) = len a).
  { intros a b Ha Hb'. induction a as [|x a IH]; cbn [app countWhile].
    - destruct b as [|y b]; [done|]. cbn [countWhile]. by rewrite Hb'.
    - cbn [forallb] in Ha. apply andb_prop in Ha as [-> Ha]. rewrite IH by done. unfold len. cbn [length]. lia. }
  unfold endsWithBlanks in He. rewrite Hr, !reverse_app, <- !app_assoc in He.
  rewrite Hc in He; [|done|by intros c [= <-]]. unfold len in He. rewrite Nat2Z.id, drop_app_length in He.
  rewrite length_reverse in He. case_bool_decide as Hl; [done|]. destruct r; [done|simpl in Hl; lia].
Qed.

Lemma cutAt_app c a b : c ∉ a → cutAt c (a ++ c :: b) = (a, c :: b).
Proof.
  intros Ha. induction a as [|x a IH]; cbn [app cutAt]; [by rewrite Z.eqb_refl|].
  apply not_elem_of_cons in Ha as [Hx Ha]. rewrite (proj2 (Z.eqb_neq x c)) by congruence. by rewrite IH.
Qed.

Lemma cutAt_none c a : c ∉ a → cutAt c a = (a, []).
Proof.
  intros Ha. induction a as [|x a IH]; cbn [cutAt]; [done|].
  apply not_elem_of_cons in Ha as [Hx Ha]. rewrite (proj2 (Z.eqb_neq x c)) by congruence. by rewrite IH.
Qed.

(** The chomping of the mark. *)
Definition chompOf (d : jstr) : Chomp :=
  if bool_decide (d = runes "-") then STRIP else if bool_decide (d = runes "+") then KEEP else CLIP.

(** The header of a printed block is read as it was meant, a comment included. *)
Lemma header_read ind (h : bool) d c body :
  d ∈ [runes "-"; runes "+"; []] → (c = [] ∨ ∃ c', c = SP :: c') → LF ∉ c →
  let t := blockToken ind (([ch "|"] ++ (if h then runes "2" else []) ++ d) ++ c ++ [LF] ++ body) in
  source t = body ++ [LF] ∧ bindent t = ind ∧
  ∃ hd, parseHeader t true = (Some hd, []) ∧ mode hd = Some (ch "|") ∧ chomp hd = chompOf d ∧
    hindent hd = if h then 2 else 0.
Proof.
  intros Hd Hc Hl. set (m := [ch "|"] ++ (if h then runes "2" else []) ++ d). cbv zeta.
  assert ((LF ∉ m) ∧ (SP ∉ m)) as [Hm1 Hm2].
  { unfold m. repeat (apply elem_of_cons in Hd as [->|Hd]); [..|by apply elem_of_nil in Hd];
      destruct h; vm_compute; set_solver. }
  unfold blockToken. rewrite app_assoc. cbn [app]. rewrite cutAt_app by set_solver.
  assert (Hcut : cutAt SP (m ++ c) = (m, c)).
  { destruct Hc as [->|[c' ->]]; [rewrite app_nil_r; by apply cutAt_none|by apply cutAt_app]. }
  rewrite Hcut. cbn [source bindent drop app]. split_and!; [done|done|].
  unfold m. repeat (apply elem_of_cons in Hd as [->|Hd]); [..|by apply elem_of_nil in Hd];
    destruct h, Hc as [->|[c' ->]]; (eexists; split; [reflexivity|]; split_and!; reflexivity).
Qed.

Lemma split_elem c s : c ∈ s → c ≠ LF → ∃ x, x ∈ Js.split LF s ∧ c ∈ x.
Proof.
  intros Hc Hn. induction s as [|y s IH]; [by apply elem_of_nil in Hc|].
  destruct (decide (y = LF)) as [->|Hy].
  - apply elem_of_cons in Hc as [->|Hc]; [done|]. destruct (IH Hc) as (x & Hx & Hcx).
    exists x. cbn [Js.split]. change (LF =? LF) with true. split; [by right|done].
  - destruct (split_cons_ne LF y s Hy) as (p & ps & Hp & ->). apply elem_of_cons in Hc as [->|Hc].
    + exists (y :: p). split; left.
    + destruct (IH Hc) as (x & Hx & Hcx). rewrite Hp in Hx. apply elem_of_cons in Hx as [->|Hx].
      * exists (y :: p). split; [left|by right].
      * exists x. split; [by right|done].
Qed.

(** What a printed block is made of: the text [n0] up to its last character that is
    no blank, the blank lines [v] before it, and what follows without a last
    break. *)
Section parts.
Context (n n0 p0 : jstr) (Ht : trailing n = (n0, p0)) (He : endsWithBlanks n = false) (Hne : n0 ≠ []).

Lemma parts_last : ∃ m c, n0 = m ++ [c] ∧ blankBreak c = false.
Proof using Ht Hne.
  destruct (trailing_spec _ _ _ Ht) as (_ & _ & Hl). destruct (last n0) as [c|] eqn:E.
  - apply last_Some in E as [m ->]. eauto.
  - by apply last_None in E.
Qed.

Lemma parts_lead : ∃ r q c q', leadBlanks n0 = upToLastBreak (leadBlanks n0) ++ r ∧ (LF ∉ r) ∧
  q = c :: q' ∧ c ≠ SP ∧ c ≠ LF ∧ n0 = leadBlanks n0 ++ q ∧
  drop (length (upToLastBreak (leadBlanks n0))) n0 = r ++ q ∧
  Forall (λ c, c = SP ∨ c = LF) (leadBlanks n0).
Proof using Ht Hne.
  destruct (upToLastBreak_spec (leadBlanks n0)) as (r & Hr & Hno & _).
  destruct (countWhile_split (λ c, (c =? SP) || (c =? LF)) n0) as [H1 H2].
  set (q := drop (Z.to_nat (countWhile (λ c, (c =? SP) || (c =? LF)) n0)) n0) in *.
  assert (Hn : n0 = leadBlanks n0 ++ q) by (unfold leadBlanks, q; by rewrite take_drop).
  assert (Hall : Forall (λ c, c = SP ∨ c = LF) (leadBlanks n0)).
  { apply Forall_forall. intros c Hc. rewrite forallb_forall in H1. specialize (H1 c).
    rewrite <- list_elem_of_In in H1. specialize (H1 Hc). apply orb_prop in H1 as [?%Z.eqb_eq|?%Z.eqb_eq]; auto. }
  destruct parts_last as (m & c & Hm & Hc). destruct q as [|d q'] eqn:Eq.
  { exfalso. rewrite app_nil_r in Hn. rewrite <- Hn, Hm in Hall. apply Forall_app in Hall as [_ [Hcc _]%Forall_cons].
    destruct Hcc as [-> | ->]; done. }
  apply orb_false_iff in H2 as [Hd1%Z.eqb_neq Hd2%Z.eqb_neq].
  exists r, (d :: q'), d, q'. split_and!; try done.
  rewrite Hn at 2. rewrite Hr at 2. rewrite <- app_assoc, drop_app_length. done.
Qed.

Let v := upToLastBreak (leadBlanks n0).
Let n1 := drop (length v) n0.
Let p1 := dropLastBreak p0.

Lemma parts_body l : indentRuns l v ++ indentRuns l n1 ++ indentInnerRuns l p1 = indentInnerRuns l (n0 ++ p1).
Proof using Ht Hne.
  destruct parts_lead as (r & q & c & q' & Hr & Hno & -> & Hc1 & Hc2 & Hn & Hd & _). fold v in Hr, Hd. fold n1 in Hd.
  destruct parts_last as (m & c' & Hm & Hc').
  assert (Hn01 : n0 = v ++ n1) by (rewrite Hd, app_assoc, <- Hr; done).
  assert (Hl1 : last n1 ≠ Some LF).
  { assert (last n0 = last n1) as <-.
    { rewrite Hn01, last_app, Hd. destruct (last (r ++ c :: q')) eqn:E; [done|]. apply last_None in E. by destruct r. }
    rewrite Hm, last_snoc. intros [= ->]. done. }
  rewrite <- (indentInner_app l n1 p1) by done. rewrite <- (indentInner_app l v (n1 ++ p1)); [by rewrite app_assoc, <- Hn01|].
  intros _. rewrite Hd. destruct r as [|x r]; cbn [app head]; (split; [done|intros [= ->]]); [done|].
  apply Hno. left.
Qed.

(** The final break of the value. *)
Lemma parts_value : n = (n0 ++ p1) ++ if bool_decide (LF ∈ p0) then [LF] else [].
Proof using Ht He.
  destruct (trailing_spec _ _ _ Ht) as (-> & _ & _). unfold p1, dropLastBreak. case_bool_decide as Hin.
  - destruct (last_break _ _ _ Ht He Hin) as [q ->]. rewrite last_snoc. change (eqc (Some LF) LF) with true.
    cbn iota. by rewrite removelast_last, app_assoc.
  - destruct (eqc (last p0) LF) eqn:E; [|by rewrite app_nil_r]. apply eqc_true, last_Some in E as [q ->].
    destruct Hin. apply elem_of_app. right. left.
Qed.

Lemma parts_mark : let d := fst (chompMark n p0) in
  d ∈ [runes "-"; runes "+"; []] ∧
  match chompOf d with STRIP => LF ∉ p0 | CLIP => LF ∈ p0 ∧ (LF ∉ p1) | KEEP => LF ∈ p0 end.
Proof using Ht He Hne.
  cbv zeta. unfold chompMark. destruct (existsb (Z.eqb LF) p0) eqn:E; cbn [negb].
  2: { apply no_break in E. split; [left|done]. }
  apply has_break in E. destruct (last_break _ _ _ Ht He E) as [q Hq].
  destruct (trailing_spec _ _ _ Ht) as (Hn & _ & _).
  rewrite bool_decide_eq_false_2. 2: { intros Hnp. apply (f_equal length) in Hnp. apply (f_equal length) in Hn.
    rewrite length_app in Hn. destruct n0; [done|simpl in *; lia]. }
  cbn [orb]. case_bool_decide as Hc; cbn [negb].
  - split; [right; right; left|]. change (LF ∈ p0 ∧ (LF ∉ p1)). split; [done|].
    unfold p1, dropLastBreak. rewrite Hq, last_snoc. change (eqc (Some LF) LF) with true. cbn iota.
    rewrite removelast_last. rewrite Hq in Hc. clear -Hc. intros Hin.
    unfold len in Hc. rewrite length_app in Hc. cbn [length] in Hc.
    assert (∀ a b, LF ∈ a → countWhile (λ c, negb (c =? LF)) (a ++ b) < Z.of_nat (length a)) as H.
    { clear. intros a b Ha. induction a as [|x a IH]; [by apply elem_of_nil in Ha|]. cbn [app countWhile length].
      destruct (x =? LF) eqn:E; cbn [negb]; [lia|]. apply Z.eqb_neq in E.
      apply elem_of_cons in Ha as [Ha|Ha]; [congruence|]. specialize (IH Ha). lia. }
    specialize (H q [LF] Hin). lia.
  - split; [right; left|done].
Qed.

Context (Hcr : CR ∉ n) (k : nat) (Hk : (0 < k)%nat).

Lemma parts_in c : c ∈ n0 ++ p1 → c ∈ n.
Proof using Ht He. rewrite parts_value. intros Hc. apply elem_of_app. by left. Qed.

Lemma parts_one : Forall oneLine (Js.split LF (n0 ++ p1)).
Proof using Ht He Hcr.
  apply Forall_forall. intros x Hx. split; [apply no_break; by eapply split_no_sep|].
  intros [y Hy]%last_Some. apply Hcr, parts_in. apply split_part in Hx as (a & b & ->). subst x.
  rewrite !elem_of_app. right. left. right. left.
Qed.

Lemma parts_text : existsb (λ x, negb (forallb isSpace x)) (Js.split LF (n0 ++ p1)) = true.
Proof using Ht Hne.
  destruct parts_last as (m & c & Hm & Hc).
  destruct (split_elem c (n0 ++ p1)) as (x & Hx & Hcx).
  - rewrite Hm, !elem_of_app. left. right. left.
  - intros ->. done.
  - apply existsb_exists. exists x. rewrite <- list_elem_of_In. split; [done|].
    apply negb_true_iff, not_true_iff_false. rewrite forallb_forall. intros Hall.
    specialize (Hall c). rewrite <- list_elem_of_In in Hall. specialize (Hall Hcx).
    unfold isSpace in Hall. apply Z.eqb_eq in Hall as ->. done.
Qed.

(** Lines of spaces at the end are in what follows the text. *)
Lemma parts_tail ms tr : Js.split LF (n0 ++ p1) = ms ++ tr → Forall (λ x, forallb isSpace x = true) tr →
  tr ≠ [] → LF ∈ p1.
Proof using Ht Hne.
  intros Hs Htr Hne'. destruct (decide (LF ∈ p1)) as [?|Hno]; [done|exfalso].
  destruct (split_app LF n0 p1) as (ps & q & q' & qs & H1 & H2 & H3). rewrite (split_single LF p1 Hno) in H2.
  simplify_eq. rewrite H3 in Hs. destruct tr as [|z tr _] using rev_ind; [done|].
  rewrite app_assoc in Hs. apply app_inj_tail in Hs as [_ <-]. apply Forall_app in Htr as [_ [Hz _]%Forall_cons].
  rewrite forallb_app in Hz. apply andb_prop in Hz as [Hq _].
  destruct parts_last as (m & c & Hm & Hc). rewrite Hm in H1.
  assert (Hcl : c ≠ LF) by (intros ->; done).
  destruct (split_app LF m [c]) as (ps' & r & r' & rs & H4 & H5 & H6).
  rewrite (split_single LF [c]) in H5 by (rewrite list_elem_of_singleton; congruence). simplify_eq.
  rewrite H6 in H1. apply app_inj_tail in H1 as [_ <-]. rewrite forallb_app in Hq.
  apply andb_prop in Hq as [_ Hq]. cbn in Hq. rewrite andb_true_r in Hq. apply Z.eqb_eq in Hq as ->. done.
Qed.

(** Without spaces in the blank lines before the text the first text line shows the
    indentation. *)
Lemma parts_first : existsb (Z.eqb SP) (leadBlanks n0) = false →
  ∃ j c x0 xs, Js.split LF (n0 ++ p1) = replicate j [] ++ (c :: x0) :: xs ∧ c ≠ SP.
Proof using Ht Hne.
  intros Hsp. destruct parts_lead as (r & q & c & q' & _ & _ & -> & Hc1 & Hc2 & Hn & _ & Hall).
  assert (Hlead : leadBlanks n0 = replicate (length (leadBlanks n0)) LF).
  { symmetry. apply replicate_as_elem_of. split; [done|]. intros x Hx. rewrite Forall_forall in Hall.
    destruct (Hall x Hx) as [->|?]; [|done]. rewrite <- not_true_iff_false in Hsp. destruct Hsp.
    apply existsb_exists. exists SP. by rewrite <- list_elem_of_In. }
  rewrite Hn, Hlead, <- app_assoc. cbn [app].
  destruct (split_leading (length (leadBlanks n0)) c (q' ++ p1) Hc2) as (x0 & xs & ->). eauto 6.
Qed.

(** The literal block is read back. *)
Lemma literal_resolves ind c : (c = [] ∨ ∃ c', c = SP :: c') → LF ∉ c →
  (if existsb (Z.eqb SP) (leadBlanks n0) then ind + 2 = Z.of_nat k else ind <= Z.of_nat k) →
  blockValue (blockToken ind (([ch "|"] ++ (if existsb (Z.eqb SP) (leadBlanks n0) then runes "2" else [])
    ++ fst (chompMark n p0)) ++ c ++ [LF] ++ replicate k SP ++ indentRuns (replicate k SP) v
    ++ indentRuns (replicate k SP) n1 ++ indentInnerRuns (replicate k SP) p1)) true false = (n, []).
Proof using Ht He Hne Hcr Hk.
  intros Hc Hcl Hind. set (h := existsb (Z.eqb SP) (leadBlanks n0)) in *.
  rewrite parts_body. destruct parts_mark as [Hd Hchomp]. set (d := fst (chompMark n p0)) in *. cbv zeta in Hd.
  destruct (header_read ind h d c (replicate k SP ++ indentInnerRuns (replicate k SP) (n0 ++ p1)) Hd Hc Hcl)
    as (Hsrc & Hbi & hd & Hh & Hmode & Hch & Hhi).
  set (t := blockToken _ _) in *.
  destruct (indentInner_lines k (n0 ++ p1)) as (x & xs & ys & Hx & Hy & Hp & _).
  assert (Hsplit : Js.split LF (replicate k SP ++ indentInnerRuns (replicate k SP) (n0 ++ p1)) = (replicate k SP ++ x) :: ys).
  { destruct (split_app LF (replicate k SP) (indentInnerRuns (replicate k SP) (n0 ++ p1))) as (ps & q & q' & qs & H1 & H2 & ->).
    rewrite split_single in H1. 2: { intros [? _]%elem_of_replicate. done. }
    destruct ps as [|? ps]; [|by destruct ps]. simplify_eq/=. rewrite Hy in H2. by simplify_eq. }
  assert (Hall : Forall2 (printsLine k) (x :: xs) ((replicate k SP ++ x) :: ys)) by (constructor; [by left|done]).
  assert (Hone : Forall oneLine (x :: xs)) by (rewrite <- Hx; apply parts_one).
  destruct (last_text (x :: xs)) as (ms & z & tr & Hxs & Hz & Htr); [rewrite <- Hx; apply parts_text|].
  rewrite Hxs in Hall. apply Forall2_app_inv_l in Hall as (ys1 & ys2 & Hp1 & Hp2 & Hys).
  rewrite (literal_lines t hd true false k (ms ++ [z]) ys1 tr ys2 z); rewrite ?Hch; try done.
  - f_equal. rewrite <- Hxs, <- Hx, join_split, parts_value at 1.
    destruct (chompOf d); case_bool_decide; naive_solver.
  - rewrite Hxs in Hone. by apply Forall_app in Hone as [? _].
  - intros Hne'.
    assert (LF ∈ p1) as Hin by (eapply parts_tail; [by rewrite Hx, Hxs|done|done]).
    assert (LF ∈ p0).
    { revert Hin. unfold p1, dropLastBreak. destruct (eqc (last p0) LF) eqn:E; [|done].
      apply eqc_true, last_Some in E as [q ->]. intros _. apply elem_of_app. right. left. }
    destruct (chompOf d); [naive_solver|done|done].
  - by rewrite Hsrc, <- Hys, <- Hsplit, blockSource_split.
  - apply last_snoc.
  - unfold indented. rewrite Hbi, Hhi. destruct h eqn:Eh; [by left|right]. split; [done|]. split; [done|].
    destruct (parts_first Eh) as (j & c0 & x0 & xs0 & Hs0 & Hc0). rewrite Hx, Hxs in Hs0.
    destruct (text_before _ _ _ _ _ Hs0) as [post Hpost]; [|done|by eauto 6].
    cbn [forallb]. unfold isSpace at 1. by rewrite (proj2 (Z.eqb_neq _ _) Hc0).
Qed.

End parts.

(** ** Quoted and plain strings *)

Lemma printLoop_prefix fuel multi ind rest : ∀ out o, printLoop fuel multi ind rest out = Some o → ∃ s, o = out ++ s.
Proof.
  revert rest. induction fuel as [|fuel IH]; [done|]. intros rest out o. cbn [printLoop].
  destruct rest as [|t r1]; [intros [= <-]; exists []; by rewrite app_nil_r|].
  set (out1 := if (t =? SP) && startsNewline r1 then out ++ [BACKSLASH; SP] else out).
  assert (∃ a, out1 = out ++ a) as [a Ha].
  { unfold out1. destruct (_ && _); [eauto|exists []; by rewrite app_nil_r]. }
  rewrite Ha. intros H. repeat case_match; simplify_eq; rewrite <- ?app_assoc; eauto;
    apply IH in H as [s ->]; rewrite <- !app_assoc; eauto.
Qed.

Lemma printLoop_quote fuel multi ind r o : printLoop fuel multi ind (DQ :: r) [] = Some o → head o = Some DQ.
Proof.
  destruct fuel as [|fuel]; [done|]. cbn [printLoop]. change (DQ =? SP) with false. cbn [andb].
  destruct r as [|c r2]; [by intros [= <-]|]. change (DQ =? BACKSLASH) with false. cbn iota.
  by intros [s ->]%printLoop_prefix.
Qed.

(** Without folding the text is printed as it is. *)
Lemma unfolded_text s l md o : lineWidth o <= 0 → foldText_ s l md o = Some (s, false).
Proof. intros H. unfold foldText_. by rewrite (proj2 (Z.leb_le _ _) H). Qed.

Lemma doubleQuoted_head v t s : unfolded t = true → doubleQuotedString v t = Some s → head s = Some DQ.
Proof.
  intros Hf H. unfold doubleQuotedString in H. destruct (doubleQuotedAsJSON t); [by simplify_eq|].
  destruct (printLoop _ _ _ _ _) as [o|] eqn:E; [|done].
  assert (o = s) as ->.
  { unfold unfolded in Hf. destruct (implicitKey t); [by simplify_eq|]. apply Z.leb_le in Hf.
    rewrite unfolded_text in H by done. by simplify_eq/=. }
  by eapply printLoop_quote.
Qed.

Lemma singleQuoted_head v t s : unfolded t = true → singleQuotedString v t = Some s →
  head s = Some DQ ∨ head s = Some (ch "'").
Proof.
  intros Hf H. unfold singleQuotedString in H. destruct (_ || _ || _); [left; by eapply doubleQuoted_head|right].
  unfold unfolded in Hf. destruct (implicitKey t); [by simplify_eq|]. apply Z.leb_le in Hf.
  rewrite unfolded_text in H by done. by simplify_eq/=.
Qed.

Lemma quoted_value ind s v : head s = Some DQ ∨ head s = Some (ch "'") → resolvesTo s v → scalarValue ind s = Some v.
Proof.
  intros Hh Hr. unfold scalarValue. unfold resolvesTo in Hr.
  destruct Hh as [-> | ->]; cbn [orb]; by rewrite Hr.
Qed.

Lemma needsEscape_CR s : needsEscape s = false → CR ∉ s.
Proof.
  enough (∀ n s, (length s <= n)%nat → needsEscape s = false → CR ∉ s) by eauto.
  clear. induction n as [|n IH]; intros [|c s] Hl H; [apply not_elem_of_nil|simpl in Hl; lia|apply not_elem_of_nil|].
  intros Hin. cbn [needsEscape] in H. destruct (_ || _ || _) eqn:E1; [done|].
  assert (c ≠ CR) as Hc by (by intros ->). apply elem_of_cons in Hin as [?|Hin]; [congruence|].
  simpl in Hl. destruct (_ && _) in H.
  - destruct s as [|d s]; [done|]. destruct (_ && _) eqn:E4 in H; [|done].
    apply elem_of_cons in Hin as [<-|Hin]; [done|]. apply (IH s); [simpl in Hl; lia|done|done].
  - destruct (_ && _) in H; [done|]. apply (IH s); [lia|done|done].
Qed.

(** ** Every style *)

Section roundtrip.
Context (e : Item) (t : PrintCtx) (ind : Z) (k : nat).
Let v := value_ e.
Context (Hu : Forall isUnit v) (Hind : indent (base t) = replicate k SP) (Hk : (0 < k)%nat)
  (Hstep : ind + 2 = Z.of_nat k) (Hw : optLineWidth (base t) <= 0) (Hj : doubleQuotedAsJSON (base t) = false)
  (Hspace : multiLine v (base t) = true → noSpaceLine v)
  (Hfold : blockQuote t ≠ FOLDED_BLOCK ∧ type_ e ≠ Some BLOCK_FOLDED)
  (Htext : v = [] ∨ ∃ c, c ∈ v ∧ blankBreak c = false)
  (Hcomment : LF ∉ commentString t (unbreak false (comment_ e))).

Definition readsBack (r : option Printed) : Prop := ∃ p, r = Some p ∧ scalarValue ind (text p) = Some v.

Lemma indent_spaces : Forall (eq SP) (indent (base t)).
Proof using Hind. rewrite Hind. by apply Forall_replicate. Qed.

Lemma ctx_unfolded : unfolded (base t) = true.
Proof using Hw. unfold unfolded. apply orb_true_iff. right. by apply Z.leb_le. Qed.

Lemma double_reads : readsBack (just <$> doubleQuotedString v (base t)).
Proof using Hu Hind Hw Hj Hspace.
  destruct (doubleQuoted_resolves v (base t)) as (s & Hs & Hr); auto using indent_spaces, ctx_unfolded.
  exists (just s). split; [by rewrite Hs|]. apply quoted_value; [|done]. left.
  by eapply doubleQuoted_head; [apply ctx_unfolded|].
Qed.

Lemma single_reads : CR ∉ v → readsBack (just <$> singleQuotedString v (base t)).
Proof using Hu Hind Hw Hj Hspace.
  intros Hcr. destruct (singleQuoted_resolves v (base t)) as (s & Hs & Hr); auto using indent_spaces, ctx_unfolded.
  { apply Forall_forall. by intros x Hx ->. }
  exists (just s). split; [by rewrite Hs|]. apply quoted_value; [|done].
  by eapply singleQuoted_head; [apply ctx_unfolded|].
Qed.

Lemma quoted_reads : CR ∉ v → readsBack (just <$> quotedString v (base t)).
Proof using Hu Hind Hw Hj Hspace.
  intros Hcr. pose proof double_reads. pose proof (single_reads Hcr). unfold quotedString. by repeat case_match.
Qed.

Lemma block_reads : CR ∉ v → readsBack (blockString e t).
Proof using All.
  intros Hcr. unfold blockString. fold v. destruct (bool_decide (blockQuote t = NO_BLOCK) || endsWithBlanks v) eqn:E1.
  { by apply quoted_reads. }
  apply orb_false_iff in E1 as [_ He]. destruct Hfold as [Hf1 Hf2].
  assert (Hlit : ∀ b, (if bool_decide (blockQuote t = LITERAL_BLOCK) then true
      else if bool_decide (blockQuote t = FOLDED_BLOCK) || bool_decide (type_ e = Some BLOCK_FOLDED) then false
      else if bool_decide (type_ e = Some BLOCK_LITERAL) then true
      else negb (lineLengthOverLimit v (optLineWidth (base t)) b)) = true).
  { intros b. rewrite (bool_decide_eq_false_2 (_ = FOLDED_BLOCK)), (bool_decide_eq_false_2 (_ = Some BLOCK_FOLDED)) by done.
    unfold lineLengthOverLimit. rewrite (proj2 (Z.leb_le _ _) Hw). by repeat case_match. }
  rewrite Hlit. clear Hlit. case_bool_decide as Ev.
  { exists (just [ch "|"; LF]). split; [done|]. by rewrite Ev. }
  destruct (trailing v) as [n0 p0] eqn:Et. destruct (chompMark v p0) as [d keep] eqn:Ed.
  eexists. split; [reflexivity|]. cbn [text].
  assert (Hne : n0 ≠ []).
  { intros ->. destruct Htext as [?|(c & Hc & Hb)]; [done|].
    destruct (trailing_spec _ _ _ Et) as (Hv & Hall & _). rewrite Hv in Hc. simpl in Hc.
    rewrite forallb_forall in Hall. specialize (Hall c). rewrite <- list_elem_of_In in Hall. by rewrite Hall in Hb. }
  assert (Hl : (match indent (base t) with [] => if forceBlockIndent t || containsDocumentMarker v then [SP; SP] else []
    | i => i end) = replicate k SP) by (rewrite Hind; by destruct k; [lia|]).
  set (l := match indent (base t) with [] => _ | _ => _ end) in *. rewrite Hl.
  assert (Hl2 : (match replicate k SP with [] => runes "1" | _ :: _ => runes "2" end) = runes "2") by (by destruct k; [lia|]).
  rewrite Hl2. set (h := existsb (Z.eqb SP) (leadBlanks n0)).
  set (c := if negb (bool_decide (comment_ e = [])) then SP :: commentString t (unbreak false (comment_ e)) else []).
  assert (Hc : (c = [] ∨ ∃ c', c = SP :: c') ∧ (LF ∉ c)).
  { unfold c. destruct (negb _); [|split; [by left|set_solver]]. split; [eauto|]. by apply not_elem_of_cons. }
  assert (Hind' : if h then ind + 2 = Z.of_nat k else ind <= Z.of_nat k) by (destruct h; lia).
  pose proof (literal_resolves v n0 p0 Et He Hne Hcr k Hk ind c (proj1 Hc) (proj2 Hc) Hind') as Hr.
  rewrite Ed in Hr. cbn [fst] in Hr. fold h in Hr.
  match goal with |- scalarValue ind ?s = _ => set (s0 := s) end.
  match type of Hr with blockValue (blockToken ind ?s) _ _ = _ => assert (s0 = s) as Hs0 end.
  { unfold s0, c. destruct (negb _); rewrite <- ?app_assoc; cbn [app]; by rewrite ?app_nil_r. }
  rewrite <- Hs0 in Hr. unfold scalarValue. change (head s0) with (Some (ch "|")).
  change ((ch "|" =? ch "'") || (ch "|" =? DQ)) with false.
  change ((ch "|" =? ch "|") || (ch "|" =? ch ">")) with true. cbn iota. by rewrite Hr.
Qed.

Lemma adjacent_blankAtBreak s : adjacent_ (λ c, isLF c || (c =? ch ":")) isBlank s = false →
  adjacent_ isBlank isLF s = false → blankAtBreak s = false.
Proof.
  induction s as [|c s IH]; [done|]. cbn [adjacent_ blankAtBreak]. intros [H1 H2]%orb_false_iff [H3 H4]%orb_false_iff.
  destruct s as [|d s]; [done|]. rewrite (IH H2 H4), orb_false_r. unfold isLF in *. rewrite H3.
  destruct (c =? LF); [|done]. by cbn in H1.
Qed.

Lemma existsb_subset c (l l' : jstr) : forallb (λ x, existsb (Z.eqb x) l) l' = true →
  existsb (Z.eqb c) l = false → existsb (Z.eqb c) l' = false.
Proof.
  intros Hsub Hl. destruct (existsb (Z.eqb c) l') eqn:E; [|done].
  apply existsb_exists in E as (x & Hx & Heq). apply Z.eqb_eq in Heq as ->. rewrite forallb_forall in Hsub.
  by rewrite (Hsub x Hx) in Hl.
Qed.

Lemma plainText_reads : CR ∉ v → notPlain v = false → readsBack (plainText v t).
Proof using All.
  intros Hcr Hnp. unfold plainText. destruct (actualString t && otherTag t _); [by apply quoted_reads|].
  assert (Hval : scalarValue ind (breakRuns (indent (base t)) v) = Some v).
  { unfold notPlain in Hnp. apply orb_false_iff in Hnp as [Hnp _]. apply orb_false_iff in Hnp as [Hnp _].
    apply orb_false_iff in Hnp as [Hnp Hn2]. apply orb_false_iff in Hnp as [Hn0 Hn1].
    assert (Hff : foldFlowLines (breakRuns (indent (base t)) v) = v).
    { apply foldFlowLines_breakRuns; [apply indent_spaces|by apply adjacent_blankAtBreak|].
      apply Forall_forall. by intros x Hx ->. }
    destruct v as [|c r] eqn:Ev; [done|]. apply orb_false_iff in Hn0 as [Hn0 _]. apply orb_false_iff in Hn0 as [Hn0 Hdq].
    apply orb_false_iff in Hn0 as [Hbb Hof].
    assert (Hclf : (c =? LF) = false) by (unfold blankBreak in Hbb; by destruct (c =? LF)).
    unfold scalarValue. unfold plainValue. rewrite Hff. cbn [breakRuns]. rewrite Hclf. cbn [andb head].
    pose proof (λ l' H, existsb_subset c (runes ",[]{}#&*!|>'%@`") l' H Hof) as Hsub.
    pose proof (Hsub [ch "'"] eq_refl) as Hq. pose proof (Hsub [ch "|"; ch ">"] eq_refl) as Hb.
    cbn [existsb] in Hq, Hb. rewrite orb_false_r in Hq, Hb.
    rewrite Hq, Hdq, Hb, (Hsub (runes ",%|>@`") eq_refl). cbn [orb].
    assert ((c =? TAB) = false) as -> by (unfold blankBreak in Hbb; destruct (c =? TAB); [by rewrite orb_true_r in Hbb|done]).
    done. }
  destruct (implicitKey (base t)); [by exists (just (breakRuns (indent (base t)) v))|].
  rewrite unfolded_text by done. by exists (just (breakRuns (indent (base t)) v)).
Qed.

Lemma plain_reads : CR ∉ v → readsBack (plainString e t).
Proof using All.
  intros Hcr. unfold plainString. fold v. pose proof (quoted_reads Hcr). pose proof (block_reads Hcr).
  destruct (implicitKey (base t) && _ || _); [done|]. destruct (notPlain v) eqn:Enp; [by destruct (_ || _ || _)|].
  pose proof (plainText_reads Hcr Enp). destruct (_ && _ && _ && _); [done|]. destruct (containsDocumentMarker v); [|done].
  rewrite bool_decide_eq_false_2 by (rewrite Hind; by destruct k; [lia|]). by destruct (_ && _).
Qed.

Lemma string_reads : readsBack (stringifyString e t).
Proof using All.
  unfold stringifyString. fold v. destruct (negb _ && needsEscape v) eqn:En; [apply double_reads|].
  assert (∀ ty, (ty = QUOTE_DOUBLE ∨ CR ∉ v) → ∃ r, stringAs (Some ty) e t = Some r ∧ readsBack r) as Has.
  { intros ty Hty. pose proof double_reads. destruct ty; cbn [stringAs]; fold v; eexists; (split; [done|]);
      destruct Hty as [?|Hcr]; try done; try (by apply plain_reads); try (by apply single_reads);
      destruct (_ || _); try (by apply quoted_reads); by apply block_reads. }
  destruct (type_ e) as [ty|] eqn:Ety.
  - destruct (Has ty) as (r & -> & Hr); [|done]. case_bool_decide as Hq; [left; congruence|right].
    by apply needsEscape_CR.
  - change (stringAs None e t) with (None : option (option Printed)). cbv beta iota. match goal with |- context [stringAs (Some ?ty) e t] => destruct (Has ty) as (r & -> & Hr); [|done] end.
    right. by apply needsEscape_CR.
Qed.

End roundtrip.

(** The value functions give the string back in every style (plain, either quotes, or a
    literal block with its indentation and chomping marks and its comment), when lines are not
    folded.  It is printed below a node indented by two less, is not made of blanks and breaks
    only, and has no line of one space when it is printed over several quoted lines.  Where the
    reader finds the scalar in a document is the subject of YamlRoundTrip.v. *)
Lemma string_values (e : Item) (t : PrintCtx) (ind : Z) (k : nat)
    (Hu : Forall isUnit (value_ e)) (Hind : indent (base t) = replicate k SP) (Hk : (0 < k)%nat)
    (Hstep : ind + 2 = Z.of_nat k) (Hw : optLineWidth (base t) <= 0) (Hj : doubleQuotedAsJSON (base t) = false)
    (Hspace : multiLine (value_ e) (base t) = true → noSpaceLine (value_ e))
    (Hfold : blockQuote t ≠ FOLDED_BLOCK ∧ type_ e ≠ Some BLOCK_FOLDED)
    (Htext : value_ e = [] ∨ ∃ c, c ∈ value_ e ∧ blankBreak c = false)
    (Hcomment : LF ∉ commentString t (unbreak false (comment_ e))) :
  ∃ p, stringifyString e t = Some p ∧ scalarValue ind (text p) = Some (value_ e).
Proof. by eapply string_reads. Qed.

(** ** Instances *)

(** The default options, at an indentation and a line width. *)
Definition printCtx (n : nat) (width : Z) : PrintCtx := {|
  base := {| implicitKey := false; indent := replicate n SP; ctxIndentAtStart := None; doubleQuotedAsJSON := false;
             doubleQuotedMinMultiLineLength := 40; optLineWidth := width; optMinContentWidth := 20; singleQuote := None |};
  blockQuote := ANY_BLOCK; commentString := stringifyComment; forceBlockIndent := false; actualString := true;
  indentStep := replicate n SP; inFlow := false; otherTag := λ _, false; defaultKeyType := None; defaultStringType := PLAIN |}.
