(* ===== verification/YamlErrors.v ===== *)
(** * Error positions of the YAML parser of the web UI

    The line counter ([DKt]) with which the yaml library bundled in
    [internal/ui/assets/assets/index-DHyr8oiy.js] turns an offset into a line and a
    column, the line starts the parser hands to it, and the message with an excerpt
    of the source that is made of an error ([MGt]).

    The properties show that the binary search finds the line, and that the mark
    under the excerpt is below the offending character, in a line of at most 80
    characters. *)

From Stdlib Require Import ZArith Lia.
From stdpp Require Import base numbers strings gmap option list sorting.
From S2P Require Import Prelude Js.

Open Scope Z_scope.

Module LineCounter.

(** ** Line starts *)

(** The calls of [onNewLine] for the text of a scalar at [offset] ([flowScalar],
    [blockScalar]): one after each line break. *)
Fixpoint scalarStarts (offset : Z) (s : jstr) : list Z :=
  match s with
  | [] => []
  | c :: r => if c =? NL then offset + 1 :: scalarStarts (offset + 1) r else scalarStarts (offset + 1) r
  end.

(** The starts of all lines of a text: 0, and after each break.  The parser records those
    of the scalars and line ends it does not keep as errors (YamlParser.v). *)
Definition lineStarts (src : jstr) : list Z := 0 :: scalarStarts 0 src.

(** ** Positions *)

Record pos := { line : Z; col : Z }.

(** [lineStarts[i]]; [None] is [undefined]. *)
Definition startAt (l : list Z) (i : Z) : option Z := if i <? 0 then None else l !! Z.to_nat i.

(** The loop of [linePos]: a comparison with [undefined] is false. *)
Fixpoint search (fuel : nat) (l : list Z) (e t n : Z) : option Z :=
  match fuel with
  | O => None
  | S fuel =>
    if t <? n then
      let r := Z.shiftr (t + n) 1 in
      if match startAt l r with Some x => x <? e | None => false end
      then search fuel l e (r + 1) n else search fuel l e t r
    else Some t
  end.

(** [linePos] *)
Definition linePos (l : list Z) (e : Z) : option pos :=
  t ← search (S (length l)) l e 0 (Z.of_nat (length l));
  Some (if match startAt l t with Some x => x =? e | None => false end then {| line := t + 1; col := 1 |}
        else if t =? 0 then {| line := 0; col := e |}
        else {| line := t; col := e - default 0 (startAt l (t - 1)) + 1 |}).

(** ** Messages *)

Definition ELLIPSIS : Z := 8230.
Definition CRET : Z := 13.

(** [s.substring(a, b)] for [0 <= a]; an undefined end is the length. *)
Definition substring (s : jstr) (a : Z) (b : option Z) : jstr :=
  match b with
  | Some b => take (Z.to_nat b - Z.to_nat a) (drop (Z.to_nat a) s)
  | None => drop (Z.to_nat a) s
  end.

Fixpoint dropBreaks (s : jstr) : jstr :=
  match s with c :: r => if (c =? NL) || (c =? CRET) then dropBreaks r else s | [] => [] end.

(** [s.replace(/[\n\r]+$/, "")] *)
Definition trimBreaks (s : jstr) : jstr := reverse (dropBreaks (reverse s)).

(** The line cut to 80 characters around column [a], and the column in it. *)
Definition excerpt (o : jstr) (a : Z) : jstr * Z :=
  let len := Z.of_nat (length o) in
  let '(o, a) := if (60 <=? a) && (80 <? len)
                 then let e := Z.min (a - 39) (len - 79) in (ELLIPSIS :: drop (Z.to_nat e) o, a - (e - 1))
                 else (o, a) in
  (if 80 <? Z.of_nat (length o) then take 79 o ++ [ELLIPSIS] else o, a).

(** The line before, when there is nothing but spaces before the column. *)
Definition before (src : jstr) (starts : list Z) (r : Z) (o : jstr) (a : Z) : jstr :=
  if (1 <? r) && forallb (Z.eqb 32) (take (Z.to_nat a) o) then
    let n := substring src (default 0 (startAt starts (r - 2))) (startAt starts (r - 1)) in
    if 80 <? Z.of_nat (length n) then take 79 n ++ [ELLIPSIS; NL] else n
  else [].

(** The spaces and the marks under the excerpt. *)
Definition marks (first : pos) (second : option pos) (a : Z) : jstr :=
  let e := match second with
           | Some p => if (line p =? line first) && (col first <? col p)
                       then Z.max 1 (Z.min (col p - col first) (80 - a)) else 1
           | None => 1
           end in
  replicate (Z.to_nat a) 32 ++ replicate (Z.to_nat e) 94.

(** [String(n)] *)
Definition number (z : Z) : jstr := if z <? 0 then runes "-" ++ decimal (Z.to_nat (- z)) else decimal (Z.to_nat z).

(** [MGt]: the message of an error at [p0] to [p1]. *)
Definition prettify (src : jstr) (starts : list Z) (message : jstr) (p0 p1 : Z) : option jstr :=
  if p0 =? -1 then Some message
  else
    first ← linePos starts p0;
    second ← linePos starts p1;
    let r := line first in
    let message := message ++ runes " at line " ++ number r ++ runes ", column " ++ number (col first) in
    let o := trimBreaks (substring src (default 0 (startAt starts (r - 1))) (startAt starts r)) in
    let '(o, a) := excerpt o (col first - 1) in
    let o := before src starts r o a ++ o in
    Some (if existsb (λ c, negb (c =? 32)) o
          then message ++ [58; NL; NL] ++ o ++ [NL] ++ marks first (Some second) a ++ [NL]
          else message).

(** ** The search *)

(** The search ends, at the first start that is not before the offset. *)
Lemma search_ends l e fuel : ∀ t n, 0 <= t <= n → (Z.to_nat (n - t) < fuel)%nat → ∃ r, search fuel l e t n = Some r.
Proof.
  induction fuel as [|fuel IH]; intros t n H Hf; [lia|]. cbn [search].
  destruct (t <? n) eqn:E; [|eauto]. pose proof (Z.div_mod (t + n) 2 ltac:(lia)) as Hd.
  pose proof (Z.mod_pos_bound (t + n) 2 ltac:(lia)). rewrite Z.shiftr_div_pow2 by lia. change (2 ^ 1) with 2.
  destruct (match startAt l _ with Some x => x <? e | None => false end); apply IH; lia.
Qed.

Lemma search_spec l e k fuel : (∀ i x, (i < k)%nat → l !! i = Some x → x < e) →
  (∀ i x, (k <= i)%nat → l !! i = Some x → e <= x) →
  ∀ t n r, 0 <= t <= Z.of_nat k → Z.of_nat k <= n <= Z.of_nat (length l) →
  search fuel l e t n = Some r → r = Z.of_nat k.
Proof.
  intros Hlo Hhi. induction fuel as [|fuel IH]; intros t n r Ht Hn Hs; [done|]. cbn [search] in Hs.
  destruct (t <? n) eqn:E; [|simplify_eq; lia]. pose proof (Z.div_mod (t + n) 2 ltac:(lia)) as Hd.
  pose proof (Z.mod_pos_bound (t + n) 2 ltac:(lia)).
  rewrite Z.shiftr_div_pow2 in Hs by lia. change (2 ^ 1) with 2 in Hs. set (m := (t + n) / 2) in *.
  unfold startAt in Hs. rewrite (proj2 (Z.ltb_ge m 0)) in Hs by lia.
  destruct (lookup_lt_is_Some_2 l (Z.to_nat m)) as [x Hx]; [lia|]. rewrite Hx in Hs.
  destruct (x <? e) eqn:Ex.
  - apply (IH (m + 1) n r); [|lia|done]. split; [lia|]. destruct (decide (Z.of_nat k <= m)); [|lia].
    specialize (Hhi (Z.to_nat m) x ltac:(lia) Hx). lia.
  - apply (IH t m r); [lia| |done]. split; [|lia]. destruct (decide (m < Z.of_nat k)); [|lia].
    specialize (Hlo (Z.to_nat m) x ltac:(lia) Hx). lia.
Qed.

(** ** Lines of a text *)

Lemma scalarStarts_app o a b : scalarStarts o (a ++ b) = scalarStarts o a ++ scalarStarts (o + Z.of_nat (length a)) b.
Proof.
  revert o. induction a as [|c a IH]; intros o; cbn [app scalarStarts length]; [by rewrite Z.add_0_r|].
  rewrite IH. replace (o + 1 + Z.of_nat (length a)) with (o + Z.of_nat (S (length a))) by lia. by destruct (c =? NL).
Qed.

Lemma scalarStarts_bounds o s x : x ∈ scalarStarts o s → o < x <= o + Z.of_nat (length s).
Proof.
  revert o. induction s as [|c s IH]; intros o Hx; cbn [scalarStarts length] in *; [by apply elem_of_nil in Hx|].
  destruct (c =? NL); [apply elem_of_cons in Hx as [->|Hx]; [lia|]|]; apply IH in Hx; lia.
Qed.

Lemma scalarStarts_none o s : NL ∉ s → scalarStarts o s = [].
Proof.
  revert o. induction s as [|c s IH]; intros o H; [done|]. apply not_elem_of_cons in H as [Hc H]. cbn [scalarStarts].
  rewrite (proj2 (Z.eqb_neq c NL)) by congruence. by apply IH.
Qed.

(** A text as its lines up to the last break and what follows. *)
Lemma last_line s : ∃ p x, s = p ++ x ∧ (NL ∉ x) ∧ (p = [] ∨ ∃ q, p = q ++ [NL]) ∧
  length (Js.split NL s) = S (length (scalarStarts 0 p)) ∧ last (Js.split NL s) = Some x.
Proof.
  induction s as [|c s IH] using rev_ind.
  - exists [], []. split_and!; try done; [apply not_elem_of_nil|by left].
  - destruct IH as (p & x & -> & Hx & Hp & Hl & Hlast).
    destruct (split_app NL (p ++ x) [c]) as (ps & q & q' & qs & H1 & H2 & H3).
    rewrite H1, last_snoc in Hlast. injection Hlast as ->. rewrite H1, length_app in Hl. cbn [length] in Hl.
    destruct (decide (c = NL)) as [->|Hc].
    + exists ((p ++ x) ++ [NL]), []. rewrite app_nil_r. split_and!; [done|apply not_elem_of_nil|eauto| |].
      * rewrite H3. simpl in H2. simplify_eq. rewrite !scalarStarts_app, !length_app.
        rewrite (scalarStarts_none _ x Hx). cbn [length scalarStarts]. change (NL =? NL) with true. cbn [length]. lia.
      * rewrite H3. simpl in H2. simplify_eq. by rewrite last_app.
    + rewrite (split_single NL [c]) in H2 by (rewrite list_elem_of_singleton; congruence). simplify_eq.
      exists p, (x ++ [c]). split_and!; [by rewrite app_assoc| |done| |].
      * rewrite elem_of_app, list_elem_of_singleton. naive_solver.
      * rewrite H3, length_app. cbn [length]. lia.
      * by rewrite H3, last_snoc.
Qed.

(** The start of the line after [p] is the last one up to there. *)
Lemma last_start p : (p = [] ∨ ∃ q, p = q ++ [NL]) →
  ∃ l, lineStarts p = l ++ [Z.of_nat (length p)] ∧ Forall (λ x, x < Z.of_nat (length p)) l.
Proof.
  intros [->|[q ->]]; [by exists []|]. exists (0 :: scalarStarts 0 q). unfold lineStarts.
  rewrite scalarStarts_app, length_app. cbn [scalarStarts length]. change (NL =? NL) with true. cbn [app].
  split; [do 3 f_equal; lia|]. constructor; [lia|]. apply Forall_forall. intros x Hx%scalarStarts_bounds. lia.
Qed.

(** The starts around the end of [p ++ x], a text with the last line [x]. *)
Lemma starts_around p x b : (p = [] ∨ ∃ q, p = q ++ [NL]) → NL ∉ x →
  ∃ l, lineStarts ((p ++ x) ++ b) = (l ++ [Z.of_nat (length p)]) ++ scalarStarts (Z.of_nat (length (p ++ x))) b ∧
    Forall (λ y, y < Z.of_nat (length p)) l ∧ length l = length (scalarStarts 0 p).
Proof.
  intros Hp Hx. destruct (last_start p Hp) as (l & Hl & Hlt). exists l. split_and!; [|done|].
  - rewrite <- Hl. unfold lineStarts. rewrite !scalarStarts_app, (scalarStarts_none _ x Hx), app_nil_r. done.
  - unfold lineStarts in Hl. apply (f_equal length) in Hl. rewrite length_app in Hl. cbn [length] in Hl. lia.
Qed.

(** The line and the column of an offset. *)
Lemma linePos_exact p x b : (p = [] ∨ ∃ q, p = q ++ [NL]) → NL ∉ x →
  linePos (lineStarts ((p ++ x) ++ b)) (Z.of_nat (length (p ++ x))) =
  Some {| line := Z.of_nat (S (length (scalarStarts 0 p))); col := Z.of_nat (S (length x)) |}.
Proof.
  intros Hp Hx. destruct (starts_around p x b Hp Hx) as (l & Hl & Hlt & Hlen).
  set (L := lineStarts ((p ++ x) ++ b)) in *. set (e := Z.of_nat (length (p ++ x))).
  unfold linePos. destruct (search_ends L e (S (length L)) 0 (Z.of_nat (length L))) as [r Hr]; [lia|lia|].
  rewrite Hr. cbn [mbind option_bind].
  assert (He : e = Z.of_nat (length p) + Z.of_nat (length x)) by (unfold e; rewrite length_app; lia).
  assert (Hrest : ∀ i y, scalarStarts e b !! i = Some y → e < y).
  { intros i y Hy. apply list_elem_of_lookup_2, scalarStarts_bounds in Hy. lia. }
  assert (HlL : (length l < length L)%nat) by (rewrite Hl, !length_app; simpl; lia).
  destruct (decide (x = [])) as [->|Hne].
  - assert (r = Z.of_nat (length l)) as ->.
    { apply (search_spec L e (length l) _) in Hr; [done| | |lia|lia].
      - intros i y Hi Hy. rewrite Hl, <- app_assoc, lookup_app_l in Hy by done. rewrite Forall_lookup in Hlt.
        specialize (Hlt i y Hy). simpl in *. lia.
      - intros i y Hi Hy. rewrite Hl, <- app_assoc, lookup_app_r in Hy by done.
        destruct (i - length l)%nat as [|j]; simplify_eq/=; [lia|]. apply Hrest in Hy. lia. }
    assert (startAt L (Z.of_nat (length l)) = Some e) as ->.
    { unfold startAt. rewrite (proj2 (Z.ltb_ge _ 0)), Nat2Z.id, Hl, <- app_assoc by lia.
      cbn [app]. rewrite list_lookup_middle by done. f_equal. simpl in He. lia. }
    rewrite Z.eqb_refl. do 2 f_equal; simpl; lia.
  - assert (0 < length x)%nat by (destruct x; [done|simpl; lia]).
    assert (r = Z.of_nat (S (length l))) as ->.
    { apply (search_spec L e (S (length l)) _) in Hr; [done| | |lia|lia].
      - intros i y Hi Hy. rewrite Hl in Hy. rewrite lookup_app_l in Hy by (rewrite length_app; simpl; lia).
        rewrite Forall_lookup in Hlt. destruct (decide (i < length l)%nat).
        + rewrite lookup_app_l in Hy by done. specialize (Hlt i y Hy). simpl in *. lia.
        + replace i with (length l) in Hy by lia. rewrite list_lookup_middle in Hy by done. simplify_eq. lia.
      - intros i y Hi Hy. rewrite Hl, lookup_app_r in Hy by (rewrite length_app; simpl; lia). apply Hrest in Hy. lia. }
    assert (match startAt L (Z.of_nat (S (length l))) with Some x0 => x0 =? e | None => false end = false) as ->.
    { unfold startAt. rewrite (proj2 (Z.ltb_ge _ 0)), Nat2Z.id, Hl by lia.
      fold e. destruct (((l ++ [Z.of_nat (length p)]) ++ scalarStarts e b) !! S (length l)) as [y|] eqn:Ey; [|done].
      rewrite lookup_app_r in Ey by (rewrite length_app; simpl; lia). apply Hrest in Ey. lia. }
    rewrite (proj2 (Z.eqb_neq _ 0)) by lia.
    assert (startAt L (Z.of_nat (S (length l)) - 1) = Some (Z.of_nat (length p))) as ->.
    { unfold startAt. rewrite (proj2 (Z.ltb_ge _ 0)) by lia.
      replace (Z.to_nat (Z.of_nat (S (length l)) - 1)) with (length l) by lia.
      rewrite Hl, <- app_assoc. cbn [app]. by rewrite list_lookup_middle. }
    simpl default. do 2 f_equal; lia.
Qed.

(** The binary search over the line starts of a text gives for every offset the
    number of its line and its column: as many lines as the text before it has,
    and one more than the length of the last of them. *)
Theorem line_position_exact (a b : jstr) :
  linePos (lineStarts (a ++ b)) (Z.of_nat (length a)) =
  Some {| line := Z.of_nat (length (Js.split NL a));
          col := 1 + Z.of_nat (length (default [] (last (Js.split NL a)))) |}.
Proof.
  destruct (last_line a) as (p & x & -> & Hx & Hp & Hl & Hlast). rewrite linePos_exact by done.
  rewrite Hl, Hlast. simpl default. do 2 f_equal. lia.
Qed.

(** ** The excerpt *)

(** The excerpt has at most 80 characters, and the column stays on its character. *)
Lemma excerpt_spec o a c : 0 <= a → o !! Z.to_nat a = Some c →
  ∃ o' a', excerpt o a = (o', a') ∧ 0 <= a' ∧ o' !! Z.to_nat a' = Some c ∧ (length o' <= 80)%nat ∧
    (∀ d, d ∈ o' → d ∈ o ∨ d = ELLIPSIS).
Proof.
  intros Ha Hc. pose proof (lookup_lt_Some _ _ _ Hc) as Hlt.
  assert (∀ o a, 0 <= a → o !! Z.to_nat a = Some c → ((80 <? Z.of_nat (length o)) = true → a < 79) →
    let o' := if 80 <? Z.of_nat (length o) then take 79 o ++ [ELLIPSIS] else o in
    o' !! Z.to_nat a = Some c ∧ (length o' <= 80)%nat ∧ ∀ d, d ∈ o' → d ∈ o ∨ d = ELLIPSIS) as Hcut.
  { clear. intros o a Ha Hc Hb. pose proof (lookup_lt_Some _ _ _ Hc) as Hlt. cbv zeta.
    destruct (80 <? Z.of_nat (length o)) eqn:E; [|split_and!; [done|lia|auto]]. specialize (Hb eq_refl). split_and!.
    - rewrite lookup_app_l by (rewrite length_take; lia). by rewrite lookup_take_lt by lia.
    - rewrite length_app, length_take. cbn [length]. lia.
    - intros d [Hd|Hd]%elem_of_app; [|right; by apply list_elem_of_singleton in Hd].
      left. rewrite <- (take_drop 79 o). apply elem_of_app. by left. }
  unfold excerpt. destruct ((60 <=? a) && (80 <? Z.of_nat (length o))) eqn:E.
  - set (e := Z.min (a - 39) (Z.of_nat (length o) - 79)). apply andb_prop in E as [E1 E2].
    eexists _, (a - (e - 1)). split; [done|]. split; [lia|].
    destruct (Hcut (ELLIPSIS :: drop (Z.to_nat e) o) (a - (e - 1))) as (H1 & H2 & H3).
    + lia.
    + replace (Z.to_nat (a - (e - 1))) with (S (Z.to_nat (a - e))) by lia. cbn [lookup list_lookup].
      change (drop (Z.to_nat e) o !! Z.to_nat (a - e) = Some c). rewrite lookup_drop, <- Hc. f_equal. lia.
    + intros Hb%Z.ltb_lt. cbn [length] in Hb. rewrite length_drop in Hb. lia.
    + split_and!; [done|done|]. intros d Hd. apply H3 in Hd as [Hd|Hd]; [|by right].
      apply elem_of_cons in Hd as [->|Hd]; [by right|]. left.
      rewrite <- (take_drop (Z.to_nat e) o). apply elem_of_app. by right.
  - exists (if 80 <? Z.of_nat (length o) then take 79 o ++ [ELLIPSIS] else o), a. split; [done|].
    destruct (Hcut o a Ha Hc) as (H1 & H2 & H3); [|done]. intros Hl. rewrite Hl in E. rewrite andb_true_r in E. lia.
Qed.

(** A line with its break, without the breaks at its end. *)
Lemma trimBreaks_prefix s c r : c ≠ NL → c ≠ CRET →
  ∃ r', trimBreaks (s ++ c :: r) = s ++ c :: r' ∧ last r' ≠ Some NL ∧ ∃ t, r = r' ++ t.
Proof.
  intros Hn Hc. unfold trimBreaks. rewrite reverse_app, reverse_cons, <- app_assoc.
  assert (∀ u v, v ≠ [] → head v ≠ Some NL → head v ≠ Some CRET →
    ∃ w u', dropBreaks (u ++ v) = u' ++ v ∧ u = w ++ u' ∧ head u' ≠ Some NL) as Hd.
  { induction u as [|y u IH]; intros v Hv H1 H2.
    - exists [], []. destruct v as [|z v]; [done|]. simpl in H1, H2. split_and!; [|done|done]. cbn [app dropBreaks].
      rewrite (proj2 (Z.eqb_neq z NL)), (proj2 (Z.eqb_neq z CRET)) by congruence. done.
    - cbn [app dropBreaks]. destruct ((y =? NL) || (y =? CRET)) eqn:E.
      + destruct (IH v Hv H1 H2) as (w & u' & -> & -> & Hu). by exists (y :: w), u'.
      + exists [], (y :: u). split_and!; [done|done|]. intros [= ->]. done. }
  destruct (Hd (reverse r) ([c] ++ reverse s)) as (w & u' & -> & Hr & Hu); [done|cbn; congruence|cbn; congruence|].
  exists (reverse u'). rewrite !reverse_app, reverse_singleton, reverse_involutive, <- app_assoc. split_and!; [done| |].
  - rewrite last_reverse. done.
  - exists (reverse w). by rewrite <- reverse_app, <- Hr, reverse_involutive.
Qed.

(** The line of the source that is cut out. *)
Lemma source_line p x c b : (p = [] ∨ ∃ q, p = q ++ [NL]) → NL ∉ x → c ≠ NL →
  let starts := lineStarts ((p ++ x) ++ c :: b) in
  let r := Z.of_nat (S (length (scalarStarts 0 p))) in
  ∃ y z, b = y ++ z ∧
    substring ((p ++ x) ++ c :: b) (default 0 (startAt starts (r - 1))) (startAt starts r) = x ++ c :: y ∧
    ((NL ∉ y) ∨ ∃ y', y = y' ++ [NL] ∧ NL ∉ y').
Proof.
  intros Hp Hx Hc. cbv zeta. destruct (starts_around p x (c :: b) Hp Hx) as (l & -> & Hlt & <-).
  set (e := Z.of_nat (length (p ++ x))). set (S0 := scalarStarts e (c :: b)).
  assert (startAt ((l ++ [Z.of_nat (length p)]) ++ S0) (Z.of_nat (S (length l)) - 1) = Some (Z.of_nat (length p))) as ->.
  { unfold startAt. rewrite (proj2 (Z.ltb_ge _ 0)) by lia.
    replace (Z.to_nat (Z.of_nat (S (length l)) - 1)) with (length l) by lia.
    rewrite <- app_assoc. cbn [app]. by rewrite list_lookup_middle. }
  assert (startAt ((l ++ [Z.of_nat (length p)]) ++ S0) (Z.of_nat (S (length l))) = head S0) as ->.
  { unfold startAt. rewrite (proj2 (Z.ltb_ge _ 0)), Nat2Z.id by lia.
    rewrite lookup_app_r, length_app by (rewrite length_app; simpl; lia). cbn [length].
    replace (S (length l) - (length l + 1))%nat with 0%nat by lia. by destruct S0. }
  assert (S0 = scalarStarts (e + 1) b) as HS0.
  { unfold S0. cbn [scalarStarts]. by rewrite (proj2 (Z.eqb_neq c NL) Hc). }
  rewrite <- app_assoc. unfold substring. simpl default. rewrite Nat2Z.id.
  destruct (decide (NL ∈ b)) as [Hin|Hno].
  - apply list_elem_of_split_l in Hin as (y' & z' & -> & Hy').
    rewrite HS0, scalarStarts_app, (scalarStarts_none _ y' Hy'). cbn [app scalarStarts head]. change (NL =? NL) with true. cbn [head].
    exists (y' ++ [NL]), z'. split_and!; [by rewrite <- app_assoc| |right; eauto].
    rewrite drop_app_length. replace (x ++ c :: y' ++ NL :: z') with ((x ++ c :: y' ++ [NL]) ++ z')
      by (rewrite <- !app_assoc; cbn [app]; by rewrite <- app_assoc).
    apply take_app_length'. unfold e. rewrite !length_app. cbn [length]. rewrite !length_app. cbn [length]. lia.
  - rewrite HS0, scalarStarts_none by done. cbn [head]. exists b, []. rewrite app_nil_r. split_and!; [done| |by left].
    by rewrite drop_app_length.
Qed.

Lemma marks_spec first second a :
  ∃ m, marks first second a = replicate (Z.to_nat a) 32 ++ replicate m 94 ∧ (1 <= m)%nat.
Proof. unfold marks. eexists. split; [done|]. repeat case_match; lia. Qed.

(** The message of an error says its line and column and shows the line it is in:
    the first mark stands under the offending character, in an excerpt of one line
    of at most 80 characters of the source, and there is at least one mark. *)
Theorem error_mark_exact (a : jstr) (c : Z) (b message : jstr) (p1 : Z)
    (Hc : c ≠ NL ∧ c ≠ CRET ∧ c ≠ 32) :
  ∃ prev o k m, prettify (a ++ c :: b) (lineStarts (a ++ c :: b)) message (Z.of_nat (length a)) p1 =
    Some (message ++ runes " at line " ++ number (Z.of_nat (length (Js.split NL a)))
      ++ runes ", column " ++ number (1 + Z.of_nat (length (default [] (last (Js.split NL a)))))
      ++ [58; NL; NL] ++ prev ++ o ++ [NL] ++ (replicate k 32 ++ replicate m 94) ++ [NL]) ∧
    o !! k = Some c ∧ (length o <= 80)%nat ∧ (NL ∉ o) ∧ (1 <= m)%nat.
Proof.
  destruct Hc as (Hc1 & Hc2 & Hc3). destruct (last_line a) as (p & x & Ha & Hx & Hp & Hl & Hlast).
  unfold prettify. rewrite (proj2 (Z.eqb_neq _ (-1))) by lia.
  rewrite Hl, Hlast. simpl (default [] (Some x)). rewrite Ha, linePos_exact by done. cbn [mbind option_bind].
  set (starts := lineStarts ((p ++ x) ++ c :: b)).
  assert (∃ second, linePos starts p1 = Some second) as [second ->].
  { unfold linePos. destruct (search_ends starts p1 (S (length starts)) 0 (Z.of_nat (length starts))) as [r ->]; [lia|lia|]. eauto. }
  cbn [mbind option_bind line col].
  destruct (source_line p x c b Hp Hx Hc1) as (y & z & Hb & Hsub & Hy). cbv zeta in Hsub. fold starts in Hsub. rewrite Hsub.
  destruct (trimBreaks_prefix x c y Hc1 Hc2) as (r' & -> & Hrl & t & Hr').
  destruct (excerpt_spec (x ++ c :: r') (Z.of_nat (S (length x)) - 1) c) as (o & k & -> & Hk & Ho & Hlen & Hel).
  { lia. }
  { replace (Z.to_nat (Z.of_nat (S (length x)) - 1)) with (length x) by lia. by apply list_lookup_middle. }
  assert (existsb (λ c0, negb (c0 =? 32)) (before ((p ++ x) ++ c :: b) starts (Z.of_nat (S (length (scalarStarts 0 p)))) o k ++ o) = true) as ->.
  { apply existsb_exists. exists c. rewrite <- list_elem_of_In, elem_of_app. split; [right; by eapply list_elem_of_lookup_2|].
    by rewrite (proj2 (Z.eqb_neq c 32) Hc3). }
  destruct (marks_spec {| line := Z.of_nat (S (length (scalarStarts 0 p))); col := Z.of_nat (S (length x)) |} (Some second) k)
    as (m & -> & Hm).
  replace (1 + Z.of_nat (length x)) with (Z.of_nat (S (length x))) by lia.
  exists (before ((p ++ x) ++ c :: b) starts (Z.of_nat (S (length (scalarStarts 0 p)))) o k), o, (Z.to_nat k), m.
  split_and!; [|done|done| |done].
  - by rewrite <- !app_assoc.
  - intros Hin. apply Hel in Hin as [Hin|?]; [|done]. rewrite elem_of_app, elem_of_cons in Hin.
    destruct Hin as [?|[?|Hin]]; [done|congruence|].
    destruct Hy as [Hy|(y' & Hy & Hy')]; [apply Hy; rewrite Hr'; apply elem_of_app; by left|].
    destruct t as [|w t _] using rev_ind.
    + rewrite app_nil_r in Hr'. apply Hrl. by rewrite <- Hr', Hy, last_snoc.
    + rewrite Hy, app_assoc in Hr'. apply app_inj_tail in Hr' as [-> _]. apply Hy', elem_of_app. by left.
Qed.

Lemma error_mark_exact_witness :
  prettify (runes "a: [1" ++ [NL] ++ runes "b") (lineStarts (runes "a: [1" ++ [NL] ++ runes "b")) (runes "Flow") 3 5 =
    Some (runes "Flow at line 1, column 4:" ++ [NL; NL] ++ runes "a: [1" ++ [NL] ++ runes "   ^^" ++ [NL]) ∧
  ∃ prev o k m, prettify (runes "a: " ++ 91 :: runes "1") (lineStarts (runes "a: " ++ 91 :: runes "1")) (runes "Flow") 3 5 =
    Some (runes "Flow" ++ runes " at line " ++ number 1 ++ runes ", column " ++ number (1 + 3)
      ++ [58; NL; NL] ++ prev ++ o ++ [NL] ++ (replicate k 32 ++ replicate m 94) ++ [NL]) ∧
    o !! k = Some 91 ∧ (length o <= 80)%nat ∧ (NL ∉ o) ∧ (1 <= m)%nat.
Proof.
  split; [by vm_compute|]. apply (error_mark_exact (runes "a: ") 91 (runes "1") (runes "Flow") 5).
  split_and!; vm_compute; congruence.
Defined.

End LineCounter.
