(* ===== verification/YamlParser.v ===== *)
(** * The YAML parser of the web UI

    The parser of the yaml library bundled in
    [internal/ui/assets/assets/index-DHyr8oiy.js] (the class [NKt] and the helpers
    [Q9], [OKt], [kKt], [AKt], [jKt] and [MKt] before it): it makes trees of tokens out
    of the lexemes of YamlLexer.v.  The tree that is built is a stack of open tokens; the
    arrays of a token are changed in place, also those of the parent of the token on
    top, which is why the helpers give back the parent. *)

From Stdlib Require Import ZArith Lia.
From stdpp Require Import base numbers strings gmap option list.
From S2P Require Import Prelude Js YamlLexer YamlLexerProps YamlErrors.

Open Scope Z_scope.

Module Cst.
Import Yaml.

#[global] Instance TokenType_eq : EqDecision TokenType.
Proof. solve_decision. Defined.

(** ** Tokens *)

(** [sourceToken] *)
Record SourceToken := { ty : TokenType; toffset : Z; tindent : Z; source : jstr }.

(** A token; [sty] of a flow scalar is alias, scalar or one of the quoted ones.  An item of a
    collection has no key, separator or value until they are met; that its key is null or
    missing is not told apart by the code. *)
Inductive token : Type :=
  | Source (t : SourceToken)
  | Directive (offset : Z) (source : jstr)
  | Error (offset : Z) (message source : jstr)
  | Document (offset : Z) (start : list SourceToken) (value : option token) (end_ : option (list SourceToken))
  | DocEnd (offset : Z) (source : jstr) (end_ : option (list SourceToken))
  | FlowScalar (sty : TokenType) (offset indent : Z) (source : jstr) (end_ : option (list SourceToken))
  | BlockScalar (offset indent : Z) (props : list token) (source : jstr)
  | BlockMap (offset indent : Z) (items : list item)
  | BlockSeq (offset indent : Z) (items : list item)
  | FlowCollection (offset indent : Z) (start : SourceToken) (items : list item) (end_ : list SourceToken)
with item : Type := Item (start : list SourceToken) (key : option token) (sep : option (list SourceToken)) (value : option token)
  (explicitKey : bool).

Definition istart (i : item) := let 'Item s _ _ _ _ := i in s.
Definition ikey (i : item) := let 'Item _ k _ _ _ := i in k.
Definition isep (i : item) := let 'Item _ _ s _ _ := i in s.
Definition ivalue (i : item) := let 'Item _ _ _ v _ := i in v.
Definition iexplicit (i : item) := let 'Item _ _ _ _ e := i in e.

Definition startItem (s : list SourceToken) : item := Item s None None None false.
Definition keyItem (s : list SourceToken) (k : option token) (p : list SourceToken) : item := Item s k (Some p) None false.

Definition setStart (s : list SourceToken) (i : item) : item := let 'Item _ k p v e := i in Item s k p v e.
Definition setSep (p : list SourceToken) (i : item) : item := let 'Item s k _ v e := i in Item s k (Some p) v e.
Definition setValue (v : token) (i : item) : item := let 'Item s k p _ e := i in Item s k p (Some v) e.
(** [Object.assign(i, {key, sep})] *)
Definition setKey (k : option token) (p : list SourceToken) (i : item) : item := let 'Item s _ _ v e := i in Item s k (Some p) v e.
(** [delete i.key, delete i.sep] *)
Definition dropKey (i : item) : item := let 'Item s _ _ v e := i in Item s None None v e.
Definition setExplicit (i : item) : item := let 'Item s k p v _ := i in Item s k p v true.

Definition isSome {A} (x : option A) : bool := match x with Some _ => true | None => false end.

(** The last item changed. *)
Definition mapLast {A} (f : A → A) (l : list A) : list A :=
  match last l with Some x => removelast l ++ [f x] | None => l end.

(** [t.end] where [t] has one, [undefined] elsewhere. *)
Definition endOf (t : token) : option (list SourceToken) :=
  match t with
  | Document _ _ _ e | DocEnd _ _ e | FlowScalar _ _ _ _ e => e
  | FlowCollection _ _ _ _ e => Some e
  | _ => None
  end.

(** [t.end] set to [e]. *)
Definition setEnd (e : list SourceToken) (t : token) : token :=
  match t with
  | Document o s v _ => Document o s v (Some e)
  | DocEnd o s _ => DocEnd o s (Some e)
  | FlowScalar y o i s _ => FlowScalar y o i s (Some e)
  | FlowCollection o i s l _ => FlowCollection o i s l e
  | _ => t
  end.

(** ** Helpers *)

(** [Q9] *)
Definition includesToken (l : list SourceToken) (t : TokenType) : bool := existsb (λ x, bool_decide (ty x = t)) l.

Definition isBlankTy (t : TokenType) : bool := match t with space | comment | newline => true | _ => false end.

(** [OKt(e) === -1] *)
Definition allBlank (l : list SourceToken) : bool := forallb (λ x, isBlankTy (ty x)) l.

(** [kKt] *)
Definition isFlowToken (t : option token) : bool :=
  match t with Some (FlowScalar _ _ _ _ _) | Some (FlowCollection _ _ _ _ _) => true | _ => false end.

(** [AKt] *)
Definition getPrevProps (t : token) : list SourceToken :=
  match t with
  | Document _ s _ _ => s
  | BlockMap _ _ items => match last items with Some i => default (istart i) (isep i) | None => [] end
  | BlockSeq _ _ items => match last items with Some i => istart i | None => [] end
  | _ => []
  end.

(** The parent with these props changed. *)
Definition setPrevProps (l : list SourceToken) (t : token) : token :=
  match t with
  | Document o _ v e => Document o l v e
  | BlockMap o n items => BlockMap o n (mapLast (λ i, if isSome (isep i) then setSep l i else setStart l i) items)
  | BlockSeq o n items => BlockSeq o n (mapLast (setStart l) items)
  | _ => t
  end.

Definition stopsProps (t : TokenType) : bool :=
  match t with doc_start | explicit_key_ind | map_value_ind | seq_item_ind | newline => true | _ => false end.

(** The tokens after the last that ends the props, in reverse. *)
Fixpoint propsFrom (r : list SourceToken) : list SourceToken :=
  match r with [] => [] | x :: r => if stopsProps (ty x) then [] else x :: propsFrom r end.

Fixpoint leadingSpaces (l : list SourceToken) : nat :=
  match l with x :: l => if bool_decide (ty x = space) then S (leadingSpaces l) else 0 | [] => 0 end.

(** [jKt]: what is left, and the props taken off the end. *)
Definition getFirstKeyStartProps (l : list SourceToken) : list SourceToken * list SourceToken :=
  let props := reverse (propsFrom (reverse l)) in
  let k := (length l - length props + leadingSpaces props)%nat in
  (take k l, drop k l).

(** [jKt(AKt(p))]: the parent that is left and the props. *)
Definition takeProps (p : token) : token * list SourceToken :=
  match p with
  | Document _ _ _ _ | BlockMap _ _ _ | BlockSeq _ _ _ =>
    let '(l, props) := getFirstKeyStartProps (getPrevProps p) in (setPrevProps l p, props)
  | _ => (p, [])
  end.

(** One item of [MKt]. *)
Definition fixFlowItem (i : item) : item :=
  let 'Item s k p v e := i in
  match p, v with
  | Some p', None =>
    if negb (includesToken s explicit_key_ind) && negb (includesToken p' map_value_ind) then
      match k with
      | Some t =>
        if isFlowToken k then Item s None None (Some (setEnd (default [] (endOf t) ++ p') t)) e
        else Item (s ++ p') None None k e
      | None => Item (s ++ p') None None None e
      end
    else i
  | _, _ => i
  end.

(** [MKt] *)
Definition fixFlowSeqItems (t : token) : token :=
  match t with
  | FlowCollection o n s items e => if bool_decide (ty s = flow_seq_start) then FlowCollection o n s (map fixFlowItem items) e else t
  | _ => t
  end.

(** ** The parser *)

Record Parser := {
  atNewLine : bool;
  atScalar : bool;
  indent : Z;
  offset : Z;
  onKeyLine : bool;
  stack : list token;      (* the top first *)
  psource : jstr;
  type : TokenType;
  yields : list token;     (* what was yielded, in order *)
  newLines : list Z;       (* the calls of onNewLine, in order *)
  lost : list token;       (* what is dropped; not in the code *)
}.

Definition initial : Parser := {|
  atNewLine := true; atScalar := false; indent := 0; offset := 0; onKeyLine := false; stack := []; psource := [];
  type := space; yields := []; newLines := []; lost := [] |}.

Definition setStack (l : list token) (s : Parser) : Parser := {|
  atNewLine := atNewLine s; atScalar := atScalar s; indent := indent s; offset := offset s; onKeyLine := onKeyLine s;
  stack := l; psource := psource s; type := type s; yields := yields s; newLines := newLines s; lost := lost s |}.

Definition setOnKeyLine (b : bool) (s : Parser) : Parser := {|
  atNewLine := atNewLine s; atScalar := atScalar s; indent := indent s; offset := offset s; onKeyLine := b;
  stack := stack s; psource := psource s; type := type s; yields := yields s; newLines := newLines s; lost := lost s |}.

(** [atNewLine], [indent] and the scalar flag set together. *)
Definition setLine (nl sc : bool) (i : Z) (s : Parser) : Parser := {|
  atNewLine := nl; atScalar := sc; indent := i; offset := offset s; onKeyLine := onKeyLine s;
  stack := stack s; psource := psource s; type := type s; yields := yields s; newLines := newLines s; lost := lost s |}.

Definition setLexeme (src : jstr) (t : TokenType) (s : Parser) : Parser := {|
  atNewLine := atNewLine s; atScalar := atScalar s; indent := indent s; offset := offset s; onKeyLine := onKeyLine s;
  stack := stack s; psource := src; type := t; yields := yields s; newLines := newLines s; lost := lost s |}.

Definition advance (n : Z) (s : Parser) : Parser := {|
  atNewLine := atNewLine s; atScalar := atScalar s; indent := indent s; offset := offset s + n; onKeyLine := onKeyLine s;
  stack := stack s; psource := psource s; type := type s; yields := yields s; newLines := newLines s; lost := lost s |}.

Definition yield (t : token) (s : Parser) : Parser := {|
  atNewLine := atNewLine s; atScalar := atScalar s; indent := indent s; offset := offset s; onKeyLine := onKeyLine s;
  stack := stack s; psource := psource s; type := type s; yields := yields s ++ [t]; newLines := newLines s; lost := lost s |}.

Definition addNewLines (l : list Z) (s : Parser) : Parser := {|
  atNewLine := atNewLine s; atScalar := atScalar s; indent := indent s; offset := offset s; onKeyLine := onKeyLine s;
  stack := stack s; psource := psource s; type := type s; yields := yields s; newLines := newLines s ++ l; lost := lost s |}.

Definition lose (l : list token) (s : Parser) : Parser := {|
  atNewLine := atNewLine s; atScalar := atScalar s; indent := indent s; offset := offset s; onKeyLine := onKeyLine s;
  stack := stack s; psource := psource s; type := type s; yields := yields s; newLines := newLines s; lost := lost s ++ l |}.

Definition sourceToken (s : Parser) : SourceToken :=
  {| ty := type s; toffset := offset s; tindent := indent s; source := psource s |}.

(** [peek(1)] replaced. *)
Definition setTop (t : token) (s : Parser) : Parser := setStack (t :: tail (stack s)) s.
Definition push (t : token) (s : Parser) : Parser := setStack (t :: stack s) s.

(** ** Closing a token *)

Definition indentOf (t : token) : Z :=
  match t with
  | FlowScalar _ _ i _ _ | BlockScalar _ i _ _ | BlockMap _ i _ | BlockSeq _ i _ | FlowCollection _ i _ _ _ => i
  | Source t => tindent t
  | _ => 0
  end.

(** What [pop] changes of the token before it is put into its parent. *)
Definition adjust (t p : token) : token :=
  match t with
  | BlockScalar o _ props src => BlockScalar o (indentOf p) props src
  | FlowCollection o i s l e =>
    fixFlowSeqItems (FlowCollection o (match p with Document _ _ _ _ => 0 | _ => i end) s l e)
  | _ => t
  end.

(** The tokens at the end of a block collection that belong to its parent: the
    collection without them, and them. *)
Definition trailingStart (t : token) : token * option (list SourceToken) :=
  let go n items (f : list item → token) :=
    match last items with
    | Some i =>
      if negb (isSome (isep i)) && negb (isSome (ivalue i)) && negb (bool_decide (istart i = [])) && allBlank (istart i)
         && ((n =? 0) || forallb (λ x, negb (bool_decide (ty x = comment)) || (tindent x <? n)) (istart i))
      then (f (removelast items), Some (istart i)) else (t, None)
    | None => (t, None)
    end in
  match t with
  | BlockMap o n items => go n items (BlockMap o n)
  | BlockSeq o n items => go n items (BlockSeq o n)
  | _ => (t, None)
  end.

Definition moved (l : option (list SourceToken)) : list item := match l with Some l => [startItem l] | None => [] end.

(** The token put into its parent, and the flag of the key line; [None] where the code
    falls to its default case, [Some None] where it throws. *)
Definition attach (t p : token) (onKey : bool) : option (option (token * bool)) :=
  match p with
  | Document o s v e =>
    let '(t, m) := trailingStart t in
    Some (Some (Document o s (Some t) (match m with Some l => Some l | None => e end), onKey))
  | BlockScalar o n props src => Some (Some (BlockScalar o n (props ++ [t]) src, onKey))
  | BlockMap o n items =>
    Some (match last items with
          | None => None
          | Some i =>
            if isSome (ivalue i) then Some (BlockMap o n (items ++ [keyItem [] (Some t) []]), true)
            else if isSome (isep i) then
              let '(t, m) := trailingStart t in Some (BlockMap o n (mapLast (setValue t) items ++ moved m), onKey)
            else Some (BlockMap o n (mapLast (setKey (Some t) []) items), negb (iexplicit i))
          end)
  | BlockSeq o n items =>
    Some (match last items with
          | None => None
          | Some i =>
            let '(t, m) := trailingStart t in
            Some (BlockSeq o n ((if isSome (ivalue i) then items ++ [Item [] None None (Some t) false] else mapLast (setValue t) items)
              ++ moved m), onKey)
          end)
  | FlowCollection o n s items e =>
    Some (Some (FlowCollection o n s
      (match last items with
       | None => items ++ [keyItem [] (Some t) []]
       | Some i =>
         if isSome (ivalue i) then items ++ [keyItem [] (Some t) []]
         else if isSome (isep i) then mapLast (setValue t) items else mapLast (setKey (Some t) []) items
       end) e, onKey))
  | _ => None
  end.

(** The value and end of a document that others take the place of (not in the code). *)
Definition overwritten (t p : token) : list token :=
  match p with
  | Document _ _ (Some v) e => v :: (if isSome (snd (trailingStart t)) then Source <$> default [] e else [])
  | _ => []
  end.

(** [pop]; [None] is fuel run out, or an error of the code. *)
Fixpoint pop (fuel : nat) (e : option token) (s : Parser) : option Parser :=
  match fuel with
  | O => None
  | S fuel =>
    let '(t, st) := match e with Some t => (Some t, stack s) | None => (head (stack s), tail (stack s)) end in
    match t, st with
    | None, _ => Some (yield (Error (offset s) (runes "Tried to pop an empty stack") []) s)
    | Some t, [] => Some (yield t (setStack [] s))
    | Some t, p :: rest =>
      let t := adjust t p in
      match attach t p (onKeyLine s) with
      | Some (Some (p', k)) => Some (lose (overwritten t p) (setOnKeyLine k (setStack (p' :: rest) s)))
      | Some None => None
      | None => s ← pop fuel None (setStack st s); pop fuel (Some t) s
      end
    end
  end.

(** [pop()], with fuel for every token of the stack. *)
Definition pop_ (e : option token) (s : Parser) : option Parser := pop (S (length (stack s))) e s.

(** [for (; this.stack.length > 0;) yield* this.pop()] *)
Fixpoint popAll (fuel : nat) (s : Parser) : option Parser :=
  match stack s with
  | [] => Some s
  | _ => match fuel with O => None | S fuel => s ← pop_ None s; popAll fuel s end
  end.

(** ** The states of the parser *)

(** What a handler does: it is done, or it closes the top token and looks at the
    lexeme again. *)
Inductive outcome := Done (s : Parser) | Again (s : Parser).

Definition error (message : jstr) (s : Parser) : token := Error (offset s) message (psource s).

(** The name of the token type in an error message. *)
Definition typeName (t : TokenType) : jstr :=
  runes match t with
        | byte_order_mark => "byte-order-mark" | t_doc_mode => "doc-mode" | t_flow_error_end => "flow-error-end"
        | scalar => "scalar" | doc_start => "doc-start" | doc_end => "doc-end" | newline => "newline"
        | seq_item_ind => "seq-item-ind" | explicit_key_ind => "explicit-key-ind" | map_value_ind => "map-value-ind"
        | flow_map_start => "flow-map-start" | flow_map_end => "flow-map-end" | flow_seq_start => "flow-seq-start"
        | flow_seq_end => "flow-seq-end" | comma => "comma" | space => "space" | comment => "comment"
        | directive_line => "directive-line" | alias => "alias" | anchor => "anchor" | tag => "tag"
        | single_quoted_scalar => "single-quoted-scalar" | double_quoted_scalar => "double-quoted-scalar"
        | block_scalar_header => "block-scalar-header"
        end.

(** [flowScalar] *)
Definition flowScalar (s : Parser) : token * Parser :=
  (FlowScalar (type s) (offset s) (indent s) (psource s) None, addNewLines (LineCounter.scalarStarts (offset s) (psource s)) s).

(** [startBlockValue(e)]: the new token and the token [e] it takes its props from. *)
Definition startBlockValue (e : token) (s : Parser) : option (token * token * Parser) :=
  match type s with
  | alias | scalar | single_quoted_scalar | double_quoted_scalar => let '(t, s) := flowScalar s in Some (t, e, s)
  | block_scalar_header => Some (BlockScalar (offset s) (indent s) [Source (sourceToken s)] [], e, s)
  | flow_map_start | flow_seq_start => Some (FlowCollection (offset s) (indent s) (sourceToken s) [] [], e, s)
  | seq_item_ind => Some (BlockSeq (offset s) (indent s) [startItem [sourceToken s]], e, s)
  | explicit_key_ind =>
    let '(e, props) := takeProps e in
    Some (BlockMap (offset s) (indent s) [Item (props ++ [sourceToken s]) None None None true], e, setOnKeyLine true s)
  | map_value_ind =>
    let '(e, props) := takeProps e in
    Some (BlockMap (offset s) (indent s) [keyItem props None [sourceToken s]], e, setOnKeyLine true s)
  | _ => None
  end.

(** [atIndentedComment] *)
Definition atIndentedComment (start : list SourceToken) (i : Z) (s : Parser) : bool :=
  bool_decide (type s = comment) && (i <? indent s)
  && forallb (λ x, bool_decide (ty x = newline) || bool_decide (ty x = space)) start.

(** The lexeme put to the end of the token on top. *)
Definition pushEnd (e : token) (s : Parser) : Parser := setTop (setEnd (default [] (endOf e) ++ [sourceToken s]) e) s.

(** [lineEnd] *)
Definition lineEnd (e : token) (s : Parser) : option outcome :=
  match type s with
  | comma | doc_start | doc_end | flow_seq_end | flow_map_end | map_value_ind => Some (Again s)
  | newline => Done <$> pop_ None (pushEnd e (setOnKeyLine false s))
  | _ => Some (Done (pushEnd e s))
  end.

(** [stream] *)
Definition stream (s : Parser) : outcome :=
  Done (match type s with
        | directive_line => yield (Directive (offset s) (psource s)) s
        | byte_order_mark | space | comment | newline => yield (Source (sourceToken s)) s
        | t_doc_mode => push (Document (offset s) [] None None) s
        | doc_start => push (Document (offset s) [sourceToken s] None None) s
        | t => yield (error (runes "Unexpected " ++ typeName t ++ runes " token in YAML stream") s) s
        end).

(** [document] *)
Definition document (e : token) (o : Z) (start : list SourceToken) (value : option token) (end_ : option (list SourceToken))
    (s : Parser) : option outcome :=
  if isSome value then lineEnd e s
  else
    let add := Some (Done (setTop (Document o (start ++ [sourceToken s]) value end_) s)) in
    match type s with
    | doc_start => if allBlank start then add else Some (Again s)
    | anchor | tag | space | comment | newline => add
    | t =>
      Some (Done (match startBlockValue e s with
                  | Some (t, e, s) => push t (setTop e s)
                  | None => yield (error (runes "Unexpected " ++ typeName t ++ runes " token in YAML document") s) s
                  end))
    end.

(** [scalar]; its parent is the second of the stack. *)
Definition scalar_ (e : token) (o n : Z) (s : Parser) : option outcome :=
  if bool_decide (type s = map_value_ind) then
    match tail (stack s) with
    | p :: rest =>
      let '(p, start) := takeProps p in
      let '(e, sep) :=
        match e with
        | FlowScalar y o n src (Some l) => (FlowScalar y o n src None, l ++ [sourceToken s])
        | _ => (e, [sourceToken s])
        end in
      Some (Done (setOnKeyLine true (setStack (BlockMap o n [keyItem start (Some e) sep] :: p :: rest) s)))
    | [] => None
    end
  else lineEnd e s.

(** [blockScalar] *)
Definition blockScalar (o n : Z) (props : list token) (src : jstr) (s : Parser) : option outcome :=
  match type s with
  | space | comment | newline => Some (Done (setTop (BlockScalar o n (props ++ [Source (sourceToken s)]) src) s))
  | scalar =>
    let s := setTop (BlockScalar o n props (psource s)) s in
    let s := addNewLines (LineCounter.scalarStarts (offset s) (psource s)) (setLine true (atScalar s) 0 s) in
    Done <$> pop_ None s
  | _ => Some (Again s)
  end.

(** A line end, space or comment in the item [i] of a block collection, the last of
    [items]; the items of a map ([keyed]) may have a separator. *)
Definition blankInItem (keyed : bool) (n : Z) (items : list item) (i : item) (s : Parser) : list item :=
  let t := sourceToken s in
  match ivalue i with
  | Some v =>
    match (if bool_decide (type s = newline) then endOf v else None) with
    | Some l =>
      if bool_decide (ty <$> last l = Some comment) then mapLast (setValue (setEnd (l ++ [t]) v)) items
      else items ++ [startItem [t]]
    | None => items ++ [startItem [t]]
    end
  | None =>
    match (if keyed then isep i else None) with
    | Some p => mapLast (setSep (p ++ [t])) items
    | None =>
      let before := removelast items in
      match (if atIndentedComment (istart i) n s then last before ≫= λ j, ivalue j ≫= λ v, (λ l, (v, l)) <$> endOf v else None) with
      | Some (v, l) => mapLast (setValue (setEnd (l ++ istart i ++ [t]) v)) before
      | None => mapLast (setStart (istart i ++ [t])) items
      end
    end
  end.

(** The places of the line ends from which tokens may belong to the next item. *)
Fixpoint newlinePlaces (n : Z) (k : nat) (acc : list nat) (l : list SourceToken) : list nat :=
  match l with
  | [] => acc
  | x :: l =>
    newlinePlaces n (S k)
      (match ty x with
       | newline => acc ++ [k]
       | space => acc
       | comment => if n <? tindent x then [] else acc
       | _ => []
       end) l
  end.

(** The separator of an item without value, and what goes to the next item. *)
Definition cutSep (n : Z) (sep : list SourceToken) : list SourceToken * list SourceToken :=
  match newlinePlaces n 0 [] sep with
  | _ :: k :: _ => (take k sep, drop k sep)
  | _ => (sep, [])
  end.

(** The value indicator in a block map; [next] is whether the lexeme starts an item,
    with the tokens [cut] before it. *)
Definition mapValue (o n : Z) (items : list item) (i : item) (next : bool) (cut : list SourceToken) (s : Parser) : Parser :=
  let t := sourceToken s in
  let top l := setTop (BlockMap o n l) s in
  let nested l x := push (BlockMap (offset s) (indent s) [x]) (top l) in
  if iexplicit i then
    match isep i with
    | None =>
      if includesToken (istart i) newline then top (mapLast (setKey None [t]) items)
      else let '(l, props) := getFirstKeyStartProps (istart i) in nested (mapLast (setStart l) items) (keyItem props None [t])
    | Some sep =>
      if isSome (ivalue i) then top (items ++ [keyItem [] None [t]])
      else if includesToken sep map_value_ind then nested items (keyItem cut None [t])
      else if isFlowToken (ikey i) && negb (includesToken sep newline) then
        let '(l, props) := getFirstKeyStartProps (istart i) in
        nested (mapLast (λ i, dropKey (setStart l i)) items) (keyItem props (ikey i) (sep ++ [t]))
      else top (mapLast (setSep (sep ++ cut ++ [t])) items)
    end
  else
    match isep i with
    | Some sep =>
      if isSome (ivalue i) || next then top (items ++ [keyItem cut None [t]])
      else if includesToken sep map_value_ind then nested items (keyItem [] None [t])
      else top (mapLast (setSep (sep ++ [t])) items)
    | None => top (mapLast (setKey None [t]) items)
    end.

(** The lexeme at or beyond the indentation of the map; [None] when it belongs to a
    token below. *)
Definition mapEntry (o n : Z) (items : list item) (i : item) (atMap next : bool) (cut : list SourceToken) (s : Parser)
    : option (option Parser) :=
  let t := sourceToken s in
  let top l := setTop (BlockMap o n l) s in
  match type s with
  | anchor | tag =>
    Some (Some (if next || isSome (ivalue i) then setOnKeyLine true (top (items ++ [startItem (cut ++ [t])]))
      else match isep i with
           | Some sep => top (mapLast (setSep (sep ++ [t])) items)
           | None => top (mapLast (setStart (istart i ++ [t])) items)
           end))
  | explicit_key_ind =>
    Some (Some (setOnKeyLine true
      (if negb (isSome (isep i)) && negb (iexplicit i) then top (mapLast (λ i, setExplicit (setStart (istart i ++ [t]) i)) items)
       else if next || isSome (ivalue i) then top (items ++ [Item (cut ++ [t]) None None None true])
       else push (BlockMap (offset s) (indent s) [Item [t] None None None true]) (top items))))
  | map_value_ind => Some (Some (setOnKeyLine true (mapValue o n items i next cut s)))
  | alias | scalar | single_quoted_scalar | double_quoted_scalar =>
    let '(k, s) := flowScalar s in
    let top l := setTop (BlockMap o n l) s in
    Some (Some (if next || isSome (ivalue i) then setOnKeyLine true (top (items ++ [keyItem cut (Some k) []]))
      else if isSome (isep i) then push k (top items)
      else setOnKeyLine true (top (mapLast (setKey (Some k) []) items))))
  | _ =>
    match startBlockValue (BlockMap o n items) s with
    | None => None
    | Some (r, e, s) =>
      match r with
      | BlockSeq _ _ _ =>
        if negb (iexplicit i) && match isep i with Some sep => negb (includesToken sep newline) | None => false end
        then Some (pop_ (Some (error (runes "Unexpected block-seq-ind on same line with key") s)) (setTop e s))
        else Some (Some (push r (setTop e s)))
      | _ => Some (Some (push r (setTop (BlockMap o n (items ++ if atMap then [startItem cut] else [])) s)))
      end
    end
  end.

(** [blockMap] *)
Definition blockMap (o n : Z) (items : list item) (s : Parser) : option outcome :=
  match last items with
  | None => None
  | Some i =>
    match type s with
    | newline => Some (Done (setTop (BlockMap o n (blankInItem true n items i s)) (setOnKeyLine false s)))
    | space | comment => Some (Done (setTop (BlockMap o n (blankInItem true n items i s)) s))
    | _ =>
      if n <=? indent s then
        let atMap := negb (onKeyLine s) && (indent s =? n) in
        let next := atMap && (isSome (isep i) || iexplicit i) && negb (bool_decide (type s = seq_item_ind)) in
        let '(items, i, cut) :=
          match isep i, ivalue i with
          | Some sep, None =>
            if next then let '(l, cut) := cutSep n sep in (mapLast (setSep l) items, setSep l i, cut) else (items, i, [])
          | _, _ => (items, i, [])
          end in
        match mapEntry o n items i atMap next cut s with
        | Some r => Done <$> r
        | None => Some (Again (lose (Source <$> cut) (setTop (BlockMap o n items) s)))
        end
      else Some (Again s)
    end
  end.

(** [blockSequence] *)
Definition blockSequence (o n : Z) (items : list item) (s : Parser) : option outcome :=
  let start :=
    Some (if n <? indent s then
            match startBlockValue (BlockSeq o n items) s with
            | Some (t, e, s) => Done (push t (setTop e s))
            | None => Again s
            end
          else Again s) in
  match last items with
  | None => None
  | Some i =>
    let top l := Some (Done (setTop (BlockSeq o n l) s)) in
    match type s with
    | newline | space | comment => top (blankInItem false n items i s)
    | anchor | tag =>
      if isSome (ivalue i) || (indent s <=? n) then start else top (mapLast (setStart (istart i ++ [sourceToken s])) items)
    | seq_item_ind =>
      if negb (indent s =? n) then start
      else if isSome (ivalue i) || includesToken (istart i) seq_item_ind then top (items ++ [startItem [sourceToken s]])
      else top (mapLast (setStart (istart i ++ [sourceToken s])) items)
    | _ => start
    end
  end.

(** [do yield* this.pop(); while (this.peek(1) is a flow collection)] *)
Fixpoint popFlow (fuel : nat) (s : Parser) : option Parser :=
  match fuel with
  | O => None
  | S fuel =>
    s ← pop_ None s;
    match stack s with FlowCollection _ _ _ _ _ :: _ => popFlow fuel s | _ => Some s end
  end.

(** A lexeme in a flow collection that is not closed. *)
Definition flowEntry (o n : Z) (start : SourceToken) (items : list item) (s : Parser) : outcome :=
  let t := sourceToken s in
  let top l s := setTop (FlowCollection o n start l []) s in
  let i := last items in
  let value := match i with Some i => isSome (ivalue i) | None => true end in
  let sep := i ≫= isep in
  match type s with
  | comma | explicit_key_ind =>
    Done (if negb (isSome i) || isSome sep then top (items ++ [startItem [t]]) s
          else top (mapLast (λ i, setStart (istart i ++ [t]) i) items) s)
  | map_value_ind =>
    Done (if value then top (items ++ [keyItem [] None [t]]) s
          else match sep with
               | Some p => top (mapLast (setSep (p ++ [t])) items) s
               | None => top (mapLast (setKey None [t]) items) s
               end)
  | space | comment | newline | anchor | tag =>
    Done (if value then top (items ++ [startItem [t]]) s
          else match sep with
               | Some p => top (mapLast (setSep (p ++ [t])) items) s
               | None => top (mapLast (λ i, setStart (istart i ++ [t]) i) items) s
               end)
  | alias | scalar | single_quoted_scalar | double_quoted_scalar =>
    let '(k, s) := flowScalar s in
    Done (if value then top (items ++ [keyItem [] (Some k) []]) s
          else if isSome sep then push k s
          else top (mapLast (setKey (Some k) []) items) s)
  | flow_map_end | flow_seq_end => Done (setTop (FlowCollection o n start items [t]) s)
  | _ =>
    match startBlockValue (FlowCollection o n start items []) s with
    | Some (t, e, s) => Done (push t (setTop e s))
    | None => Again s
    end
  end.

(** [flowCollection] *)
Definition flowCollection (e : token) (o n : Z) (start : SourceToken) (items : list item) (end_ : list SourceToken)
    (s : Parser) : option outcome :=
  if bool_decide (type s = t_flow_error_end) then Done <$> popFlow (length (stack s)) s
  else
    match end_ with
    | [] => Some (flowEntry o n start items s)
    | close :: after =>
      match tail (stack s) with
      | [] => None
      | p :: rest =>
        let value := bool_decide (type s = map_value_ind) in
        let closes :=
          match p with
          | BlockMap _ m l =>
            (value && (m =? n))
            || (bool_decide (type s = newline) && match last l with Some i => negb (isSome (isep i)) | None => false end)
          | _ => false
          end in
        let inFlow := match p with FlowCollection _ _ _ _ _ => true | _ => false end in
        if closes then Some (Again s)
        else if value && negb inFlow then
          let '(p, props) := takeProps p in
          let e := setEnd [close] (fixFlowSeqItems e) in
          Some (Done (setOnKeyLine true
            (setStack (BlockMap o n [keyItem props (Some e) (after ++ [sourceToken s])] :: p :: rest) s)))
        else lineEnd e s
      end
    end.

(** [documentEnd] *)
Definition documentEnd (e : token) (s : Parser) : option outcome :=
  match type s with
  | t_doc_mode => Some (Done s)
  | newline => Done <$> pop_ None (pushEnd e s)
  | _ => Some (Done (pushEnd e s))
  end.

(** ** The loop *)

(** One turn of [step]. *)
Definition turn (s : Parser) : option outcome :=
  match stack s with
  | [] => if bool_decide (type s = doc_end) then Some (Done (push (DocEnd (offset s) (psource s) None) s)) else Some (stream s)
  | e :: _ =>
    let isDocEnd := match e with DocEnd _ _ _ => true | _ => false end in
    if bool_decide (type s = doc_end) && negb isDocEnd
    then s ← popAll (length (stack s)) s; Some (Done (push (DocEnd (offset s) (psource s) None) s))
    else
      match e with
      | Document o start v end_ => document e o start v end_ s
      | FlowScalar _ o n _ _ => scalar_ e o n s
      | BlockScalar o n props src => blockScalar o n props src s
      | BlockMap o n items => blockMap o n items s
      | BlockSeq o n items => blockSequence o n items s
      | FlowCollection o n start items end_ => flowCollection e o n start items end_ s
      | DocEnd _ _ _ => documentEnd e s
      | Source _ | Directive _ _ | Error _ _ _ => Done <$> pop_ None s
      end
  end.

(** [step] *)
Fixpoint step (fuel : nat) (s : Parser) : option Parser :=
  match fuel with
  | O => None
  | S fuel =>
    r ← turn s;
    match r with
    | Done s => Some s
    | Again s => s ← pop_ None s; step fuel s
    end
  end.

(** [step()], with fuel for every token of the stack. *)
Definition step_ (s : Parser) : option Parser := step (S (length (stack s))) s.

Definition lexSource (x : lexeme) : jstr :=
  match x with Src s => s | doc_mode => [2] | flow_error_end => [24] | scalar_mark => [31] end.

(** What [next] does after the step on a lexeme that is no scalar. *)
Definition afterStep (t : TokenType) (e : jstr) (s : Parser) : Parser :=
  let moved s := advance (len e) s in
  match t with
  | newline => moved (addNewLines [offset s + len e] (setLine true (atScalar s) 0 s))
  | space => moved (if atNewLine s && eqc (head e) SP then setLine true (atScalar s) (indent s + len e) s else s)
  | explicit_key_ind | map_value_ind | seq_item_ind =>
    moved (if atNewLine s then setLine true (atScalar s) (indent s + len e) s else s)
  | t_doc_mode | t_flow_error_end => s
  | _ => moved (setLine false (atScalar s) (indent s) s)
  end.

(** [next] *)
Definition next (x : lexeme) (s : Parser) : option Parser :=
  let e := lexSource x in
  if atScalar s then
    s ← step_ (setLine (atNewLine s) false (indent s) (setLexeme e (type s) s)); Some (advance (len e) s)
  else
    let s := setLexeme e (type s) s in
    match tokenType x with
    | None => s ← pop_ (Some (Error (offset s) (runes "Not a YAML token: " ++ e) e)) s; Some (advance (len e) s)
    | Some scalar => Some (setLine false true (indent s) (setLexeme e scalar s))
    | Some t => s ← step_ (setLexeme e t s); Some (afterStep t e s)
    end.

(** [parse] on the lexemes of a text that is complete. *)
Fixpoint parseLexemes (l : list lexeme) (s : Parser) : option Parser :=
  match l with
  | [] => popAll (length (stack s)) s
  | x :: l => s ← next x s; parseLexemes l s
  end.

Definition parse (src : jstr) : option Parser :=
  l ← lexAll src; parseLexemes l (addNewLines [0] initial).

End Cst.
