(* ===== verification/YamlParserProps.v ===== *)
(** * The YAML parser accounts for every lexeme

    The parser ends on every sequence of lexemes, without an exception, and every
    lexeme is in exactly one token of the trees it yields, or among those it drops.
    The number of times a text is in the tokens is a weight that every operation of the
    parser keeps. *)

From Stdlib Require Import ZArith Lia Permutation.
From stdpp Require Import base numbers strings gmap option list.
From S2P Require Import Prelude Js YamlLexer YamlLexerProps YamlErrors YamlParser.

Open Scope Z_scope.

Import Yaml Cst.

(** ** The texts of a token *)

Definition sources (l : list SourceToken) : list jstr := source <$> l.

Fixpoint flat (t : token) : list jstr :=
  match t with
  | Source t => [source t]
  | Directive _ s | Error _ _ s => [s]
  | Document _ s v e => sources s ++ match v with Some v => flat v | None => [] end ++ sources (default [] e)
  | DocEnd _ s e => s :: sources (default [] e)
  | FlowScalar _ _ _ s e => s :: sources (default [] e)
  | BlockScalar _ _ props s => flat_map flat props ++ [s]
  | BlockMap _ _ items | BlockSeq _ _ items => flat_map flatItem items
  | FlowCollection _ _ s items e => source s :: flat_map flatItem items ++ sources e
  end
with flatItem (i : item) : list jstr :=
  let 'Item s k p v _ := i in
  sources s ++ match k with Some k => flat k | None => [] end ++ sources (default [] p)
  ++ match v with Some v => flat v | None => [] end.

(** A text that is not empty and not that of a control code. *)
Definition visible (s : jstr) : Prop := s ∉ [[]; [2]; [24]; [31]].

#[global] Instance visible_dec s : Decision (visible s).
Proof. unfold visible. apply _. Defined.

(** ** Weights *)

Section weight.
Context (x : jstr) (Hx : visible x).

(** How often [x] is among the texts. *)
Definition cnt (l : list jstr) : nat := count_occ (decide_rel (=)) l x.

Lemma cnt_app a b : cnt (a ++ b) = (cnt a + cnt b)%nat.
Proof. apply count_occ_app. Qed.

Lemma cnt_cons a b : cnt (a :: b) = (cnt [a] + cnt b)%nat.
Proof. by rewrite <- cnt_app. Qed.

Lemma cnt_nil : cnt [] = 0%nat.
Proof. done. Qed.

Lemma cnt_hidden s : ¬ visible s → cnt [s] = 0%nat.
Proof using Hx. intros H. unfold cnt. simpl. destruct (decide_rel _ s x) as [->|]; done. Qed.

Definition cs (l : list SourceToken) : nat := cnt (sources l).
Definition w (t : token) : nat := cnt (flat t).
Definition wo (t : option token) : nat := match t with Some t => w t | None => 0%nat end.
Definition wi (i : item) : nat := cnt (flatItem i).
Definition ws (l : list token) : nat := cnt (flat_map flat l).
Definition wis (l : list item) : nat := cnt (flat_map flatItem l).

Lemma cs_app a b : cs (a ++ b) = (cs a + cs b)%nat.
Proof. unfold cs, sources. by rewrite fmap_app, cnt_app. Qed.

Lemma cs_cons a b : cs (a :: b) = (cnt [source a] + cs b)%nat.
Proof. unfold cs, sources. cbn [fmap list_fmap]. apply cnt_cons. Qed.

Lemma cs_nil : cs [] = 0%nat.
Proof. done. Qed.

Lemma ws_app a b : ws (a ++ b) = (ws a + ws b)%nat.
Proof. unfold ws. by rewrite flat_map_app, cnt_app. Qed.

Lemma ws_cons a b : ws (a :: b) = (w a + ws b)%nat.
Proof. unfold ws. cbn [flat_map]. apply cnt_app. Qed.

Lemma ws_nil : ws [] = 0%nat.
Proof. done. Qed.

Lemma wis_app a b : wis (a ++ b) = (wis a + wis b)%nat.
Proof. unfold wis. by rewrite flat_map_app, cnt_app. Qed.

Lemma wis_cons a b : wis (a :: b) = (wi a + wis b)%nat.
Proof. unfold wis. cbn [flat_map]. apply cnt_app. Qed.

Lemma wis_nil : wis [] = 0%nat.
Proof. done. Qed.

Lemma wi_item s k p v e : wi (Item s k p v e) = (cs s + wo k + cs (default [] p) + wo v)%nat.
Proof. unfold wi, cs, wo, w. cbn [flatItem]. rewrite !cnt_app. destruct k, v; rewrite ?cnt_nil; lia. Qed.

Lemma w_source t : w (Source t) = cnt [source t].
Proof. done. Qed.

Lemma w_error o m s : w (Error o m s) = cnt [s].
Proof. done. Qed.

Lemma w_directive o s : w (Directive o s) = cnt [s].
Proof. done. Qed.

Lemma w_document o s v e : w (Document o s v e) = (cs s + wo v + cs (default [] e))%nat.
Proof. unfold w, cs, wo. cbn [flat]. rewrite !cnt_app. destruct v; rewrite ?cnt_nil; unfold w; lia. Qed.

Lemma w_docEnd o s e : w (DocEnd o s e) = (cnt [s] + cs (default [] e))%nat.
Proof. apply cnt_cons. Qed.

Lemma w_flowScalar y o n s e : w (FlowScalar y o n s e) = (cnt [s] + cs (default [] e))%nat.
Proof. apply cnt_cons. Qed.

Lemma w_blockScalar o n l s : w (BlockScalar o n l s) = (ws l + cnt [s])%nat.
Proof. apply cnt_app. Qed.

Lemma w_blockMap o n l : w (BlockMap o n l) = wis l.
Proof. done. Qed.

Lemma w_blockSeq o n l : w (BlockSeq o n l) = wis l.
Proof. done. Qed.

Lemma w_flowCollection o n s l e : w (FlowCollection o n s l e) = (cnt [source s] + wis l + cs e)%nat.
Proof. unfold w. cbn [flat]. rewrite cnt_cons, cnt_app. unfold wis, cs. lia. Qed.

Lemma wo_some t : wo (Some t) = w t.
Proof. done. Qed.

Lemma wo_none : wo None = 0%nat.
Proof. done. Qed.

Lemma cs_default_some l : cs (default [] (Some l)) = cs l.
Proof. done. Qed.

Lemma cs_default_none : cs (default [] None) = 0%nat.
Proof. done. Qed.

Lemma cnt_empty : cnt [[]] = 0%nat.
Proof using Hx. apply cnt_hidden. unfold visible. set_solver. Qed.

End weight.

Arguments cnt : simpl never.
Arguments cs : simpl never.
Arguments w : simpl never.
Arguments wo : simpl never.
Arguments wi : simpl never.
Arguments ws : simpl never.
Arguments wis : simpl never.

Create Rewrite HintDb cst.
#[export] Hint Rewrite cs_app cs_cons cs_nil ws_app ws_cons ws_nil wis_app wis_cons wis_nil wi_item w_source w_error
  w_directive w_document w_docEnd w_flowScalar w_blockScalar w_blockMap w_blockSeq w_flowCollection wo_some wo_none cs_default_some cs_default_none : cst.

(** Equations of weights. *)
Ltac weigh := autorewrite with cst;
  cbv beta iota zeta delta [startItem keyItem setStart setSep setValue setKey dropKey setExplicit
    istart ikey isep ivalue iexplicit] in *;
  autorewrite with cst in *; try lia.

(** ** Well-formed tokens *)

(** An item with a key has a separator. *)
Definition wfItem (i : item) : Prop := isep i = None → ikey i = None.

(** An item of a sequence has neither. *)
Definition wfSeqItem (i : item) : Prop := isep i = None ∧ ikey i = None.

(** An open token: its collections are as the code makes them, and a document has an
    end only after its value. *)
Definition wfToken (t : token) : Prop :=
  match t with
  | Document _ _ v e => v = None → e = None
  | BlockMap _ _ items => items ≠ [] ∧ Forall wfItem items
  | BlockSeq _ _ items => items ≠ [] ∧ Forall wfSeqItem items
  | FlowCollection _ _ _ items _ => Forall wfItem items
  | BlockScalar _ _ _ src => src = []
  | Source _ | Directive _ _ | Error _ _ _ => False
  | _ => True
  end.

(** A token that may be closed. *)
Definition wfClosed (t : token) : Prop :=
  match t with BlockScalar _ _ _ _ | Source _ | Directive _ _ | Error _ _ _ => True | _ => wfToken t end.

Lemma wfToken_closed t : wfToken t → wfClosed t.
Proof. by destruct t. Qed.

(** A token others are put into. *)
Definition container (t : token) : Prop :=
  match t with Document _ _ _ _ | BlockMap _ _ _ | BlockSeq _ _ _ | FlowCollection _ _ _ _ _ => True | _ => False end.

Definition isDocument (t : token) : bool := match t with Document _ _ _ _ => true | _ => false end.

(** The stack: at its bottom a document or its end, and below a token a container. *)
Fixpoint chain (l : list token) : Prop :=
  match l with
  | [] => True
  | t :: r =>
    match r with
    | [] => match t with Document _ _ _ _ | DocEnd _ _ _ => True | _ => False end
    | p :: _ => container p ∧ chain r
    end
  end.

(** The lexeme: the text of a control code is not visible, and only a scalar is announced. *)
Definition control (s : Parser) : Prop :=
  (type s = t_doc_mode ∨ type s = t_flow_error_end → ¬ visible (psource s)) ∧
  (atScalar s = true → type s = scalar).

Record Inv (s : Parser) : Prop := {
  inv_wf : Forall wfToken (stack s);
  inv_chain : chain (stack s);
  inv_control : control s;
}.

(** The weight of a state. *)
Definition W (x : jstr) (s : Parser) : nat := (ws x (stack s) + ws x (yields s) + ws x (lost s))%nat.

(** The lexeme is the same. *)
Definition same (s s' : Parser) : Prop := type s' = type s ∧ psource s' = psource s ∧ atScalar s' = atScalar s.

Lemma same_control s s' : same s s' → control s → control s'.
Proof. unfold control. by intros (-> & -> & ->). Qed.

Lemma last_snoc_inv {A} (l : list A) x : last l = Some x → ∃ r, l = r ++ [x].
Proof. apply last_Some. Qed.

Lemma mapLast_snoc {A} (f : A → A) l x : mapLast f (l ++ [x]) = l ++ [f x].
Proof. unfold mapLast. by rewrite last_snoc, removelast_last. Qed.

Lemma source_lexeme s : source (sourceToken s) = psource s.
Proof. done. Qed.

#[export] Hint Rewrite @mapLast_snoc source_lexeme : cst.

(** Lists of well-formed items. *)
Ltac wfl :=
  repeat match goal with
  | |- Forall _ (_ ++ _) => apply Forall_app; split
  | |- Forall _ (moved ?m) => destruct m; cbn [moved]
  | |- Forall _ [] => constructor
  | |- Forall _ (_ :: _) => constructor
  end; try done.

(** The stack of a changed state. *)
Ltac st := cbn [stack setOnKeyLine setStack setTop push addNewLines setLine tail lose].

(** A conjunction of four, none of them taken apart. *)
Ltac parts4 := refine (conj _ (conj _ (conj _ _))).

(** ** Helpers *)

Section helpers.
Context (x : jstr) (Hx : visible x).

Lemma firstKeyStartProps_split l a b : getFirstKeyStartProps l = (a, b) → l = a ++ b.
Proof. unfold getFirstKeyStartProps. intros [= <- <-]. by rewrite take_drop. Qed.

Lemma setPrevProps_weight l a b p : getPrevProps p = l → l = a ++ b →
  match p with Document _ _ _ _ | BlockMap _ _ _ | BlockSeq _ _ _ => True | _ => False end →
  w x p = (w x (setPrevProps a p) + cs x b)%nat ∧ (wfToken p → wfToken (setPrevProps a p)) ∧ container (setPrevProps a p).
Proof.
  intros Hl Hab Hp. destruct p as [ | | |o s v e| | | |o n items|o n items| ]; try done; cbn [getPrevProps setPrevProps] in *.
  - subst s. rewrite Hab. split_and!; try done. weigh.
  - destruct (last items) as [[s k p v e]|] eqn:E.
    + apply last_snoc_inv in E as [r ->]. rewrite mapLast_snoc. cbn in Hl.
      split_and!; [|intros [_ [Hr [Hi _]%Forall_cons]%Forall_app]|done].
      * destruct p; cbn in *; subst; rewrite Hab || idtac; weigh.
      * split; [by destruct r|]. apply Forall_app. split; [done|]. constructor; [|constructor]. by destruct p.
    + apply last_None in E as ->. subst l. by destruct a, b.
  - destruct (last items) as [[s k p v e]|] eqn:E.
    + apply last_snoc_inv in E as [r ->]. rewrite mapLast_snoc. cbn in Hl. subst s.
      split_and!; [|intros [_ [Hr [Hi _]%Forall_cons]%Forall_app]|done].
      * rewrite Hab. weigh.
      * split; [by destruct r|]. apply Forall_app. split; [done|]. by constructor.
    + apply last_None in E as ->. subst l. by destruct a, b.
Qed.

Lemma takeProps_weight p p' props : takeProps p = (p', props) →
  w x p = (w x p' + cs x props)%nat ∧ (wfToken p → wfToken p') ∧ (container p → container p') ∧ isDocument p' = isDocument p.
Proof.
  intros H. assert (∀ q, match q with Document _ _ _ _ | BlockMap _ _ _ | BlockSeq _ _ _ => True | _ => False end →
    (let '(l, props) := getFirstKeyStartProps (getPrevProps q) in (setPrevProps l q, props)) = (p', props) →
    w x q = (w x p' + cs x props)%nat ∧ (wfToken q → wfToken p') ∧ (container q → container p') ∧ isDocument p' = isDocument q) as Hq.
  { intros q Hq Heq. destruct (getFirstKeyStartProps (getPrevProps q)) as [a b] eqn:E.
    apply firstKeyStartProps_split in E. injection Heq as <- <-.
    destruct (setPrevProps_weight _ a b q eq_refl E Hq) as (? & ? & ?). parts4; auto. by destruct q. }
  destruct p; cbn [takeProps] in H; try (by apply Hq); injection H as <- <-; rewrite cs_nil; parts4; auto; lia.
Qed.

Lemma setEnd_weight l t : isFlowToken (Some t) = true → (w x (setEnd l t) + cs x (default [] (endOf t)) = w x t + cs x l)%nat.
Proof. destruct t; try done; intros _; cbn [setEnd endOf]; weigh. Qed.

Lemma fixFlowItem_weight i : wi x (fixFlowItem i) = wi x i ∧ (wfItem i → wfItem (fixFlowItem i)).
Proof.
  destruct i as [s k [p|] [v|] e]; cbn [fixFlowItem]; try done. destruct (_ && _); [|done].
  split; [|by destruct k as [t|]; [destruct (isFlowToken (Some t))|]].
  destruct k as [t|]; [|weigh]. destruct (isFlowToken (Some t)) eqn:E; [|weigh].
  pose proof (setEnd_weight (default [] (endOf t) ++ p) t E) as H. rewrite cs_app in H. weigh.
Qed.

Lemma fixFlowSeqItems_weight t : w x (fixFlowSeqItems t) = w x t ∧ (wfToken t → wfToken (fixFlowSeqItems t)).
Proof.
  destruct t as [ | | | | | | | | |o n s items e]; try done. cbn [fixFlowSeqItems]. case_bool_decide; [|done]. split.
  - weigh. do 2 f_equal. induction items as [|i items IH]; [done|]. cbn [map]. rewrite !wis_cons, IH.
    by rewrite (proj1 (fixFlowItem_weight i)).
  - cbn [wfToken]. intros H1. apply Forall_fmap. eapply Forall_impl; [exact H1|]. intros i. apply fixFlowItem_weight.
Qed.

Lemma adjust_weight t p : w x (adjust t p) = w x t ∧ (wfClosed t → wfClosed (adjust t p)) ∧ (wfToken t → wfToken (adjust t p)).
Proof.
  destruct t as [ | | | | | | | | |o n s items e]; try done. cbn [adjust].
  destruct (fixFlowSeqItems_weight (FlowCollection o (match p with Document _ _ _ _ => 0 | _ => n end) s items e)) as [-> H].
  split; [weigh|]. assert (isFlowToken (Some (fixFlowSeqItems (FlowCollection o (match p with Document _ _ _ _ => 0 | _ => n end) s items e))) = true)
    by (cbn [fixFlowSeqItems]; by case_bool_decide).
  split; [|done]. intros Hc. specialize (H Hc). by destruct (fixFlowSeqItems _).
Qed.

Lemma trailingStart_weight t t' m : wfClosed t → trailingStart t = (t', m) → w x t = (w x t' + cs x (default [] m))%nat.
Proof.
  intros Hw H. destruct t; try (injection H as <- <-; weigh; done).
  all: cbn [trailingStart] in H; destruct (last items) as [[s k p v e]|] eqn:E; [|injection H as <- <-; weigh; done].
  all: destruct (_ && _) eqn:Ec in H; [|injection H as <- <-; weigh; done]; injection H as <- <-.
  all: apply last_snoc_inv in E as [r ->]; destruct Hw as [_ [_ [Hi _]%Forall_cons]%Forall_app].
  all: destruct p, v; try done; rewrite removelast_last.
  - unfold wfItem in Hi. cbn in Hi. rewrite (Hi eq_refl). weigh.
  - destruct Hi as [_ Hk]. cbn in Hk. subst k. weigh.
Qed.

Lemma ws_sources l : ws x (Source <$> l) = cs x l.
Proof. induction l as [|y l IH]; [done|]. rewrite fmap_cons, ws_cons, IH. weigh. Qed.

(** A token put into its parent. *)
Lemma attach_weight t p k r : wfClosed t → wfToken p → container p → attach t p k = r →
  ∃ p' k', r = Some (Some (p', k')) ∧ (w x p' + ws x (overwritten t p) = w x p + w x t)%nat ∧ wfToken p' ∧
    (container p' ∧ isDocument p' = isDocument p).
Proof.
  intros Ht Hp Hc <-. destruct p as [ | | |o s v e| | | |o n items|o n items|o n s items e]; try done; cbn [attach].
  - destruct (trailingStart t) as [t' m] eqn:Em. pose proof Em as E. apply trailingStart_weight in E; [|done].
    do 2 eexists. parts4; [done| |done|done]. destruct v as [v|]; cbn [overwritten].
    + rewrite Em, ws_cons. cbn [snd]. destruct m; cbn [isSome]; rewrite ?ws_sources; weigh.
    + cbn in Hp. rewrite (Hp eq_refl), ws_nil. destruct m; weigh.
  - destruct Hp as [Hne Hw]. destruct (last items) as [[s kk p v ee]|] eqn:E; [|by apply last_None in E].
    apply last_snoc_inv in E as [l ->]. apply Forall_app in Hw as [Hl [Hi _]%Forall_cons]. cbn [ivalue isep iexplicit overwritten].
    rewrite ?mapLast_snoc. destruct v as [v|]; cbn [isSome].
    { do 2 eexists. parts4; [done|weigh| |done]. split; [by destruct l|wfl]. }
    destruct p as [p|]; cbn [isSome].
    + destruct (trailingStart t) as [t' m] eqn:E. apply trailingStart_weight in E; [|done].
      do 2 eexists. parts4; [done| | |done].
      * destruct m; cbn [moved]; weigh.
      * rewrite mapLast_snoc. split; [by destruct l|]. wfl.
    + unfold wfItem in Hi. cbn in Hi. rewrite (Hi eq_refl). do 2 eexists. parts4; [done|weigh| |done].
      split; [by destruct l|wfl].
  - destruct Hp as [Hne Hw]. destruct (last items) as [[s kk p v ee]|] eqn:E; [|by apply last_None in E].
    apply last_snoc_inv in E as [l ->]. apply Forall_app in Hw as [Hl [Hi _]%Forall_cons]. cbn [ivalue isep iexplicit overwritten].
    rewrite ?mapLast_snoc. destruct (trailingStart t) as [t' m] eqn:E. apply trailingStart_weight in E; [|done].
    do 2 eexists. parts4; [done| | |done].
    + destruct v as [v|]; cbn [isSome]; destruct m; cbn [moved]; weigh.
    + rewrite ?mapLast_snoc. destruct v; cbn [isSome]; (split; [by destruct l|wfl]).
  - cbn [overwritten]. destruct (last items) as [[ss kk p v ee]|] eqn:E.
    2: { apply last_None in E as ->. do 2 eexists. parts4; [done|weigh|cbn; wfl|done]. }
    apply last_snoc_inv in E as [l ->]. cbn in Hp. apply Forall_app in Hp as [Hl [Hi _]%Forall_cons]. cbn [ivalue isep].
    rewrite ?mapLast_snoc. destruct v as [v|]; cbn [isSome].
    { do 2 eexists. parts4; [done|weigh|cbn; wfl|done]. }
    destruct p as [p|]; cbn [isSome].
    + do 2 eexists. parts4; [done|weigh|cbn; wfl|done].
    + unfold wfItem in Hi. cbn in Hi. rewrite (Hi eq_refl). do 2 eexists. parts4; [done|weigh|cbn; wfl|done].
Qed.

(** ** Closing a token *)

(** What [pop] keeps. *)
Definition popped (s s' : Parser) (n : nat) : Prop :=
  Inv s' ∧ W x s' = (W x s + n)%nat ∧ same s s'.

(** The token on top can take another. *)
Definition open_ (l : list token) : Prop := match l with [] => True | p :: _ => container p end.

(** A token put into the container on top of the stack [p :: rest]. *)
Lemma into_top s t p rest k' p' : control s → wfClosed t → wfToken p → container p → chain (p :: rest) → Forall wfToken rest →
  attach (adjust t p) p (onKeyLine s) = Some (Some (p', k')) →
  let s' := lose (overwritten (adjust t p) p) (setOnKeyLine k' (setStack (p' :: rest) s)) in
  Inv s' ∧ (W x s' + ws x (stack s) = W x s + ws x (p :: rest) + w x t)%nat ∧ same s s' ∧ open_ (stack s').
Proof.
  intros Hctl Ht Hp Hcp Hc Hrest Ha s'. destruct (adjust_weight t p) as (Hwt & Hft & _).
  destruct (attach_weight (adjust t p) p (onKeyLine s) _ (Hft Ht) Hp Hcp eq_refl) as (q & k & Ha' & Heq & Hp' & Hcp' & Hd).
  rewrite Ha in Ha'. simplify_eq. parts4; [| |done|done].
  - constructor; [by constructor| |done]. cbn [stack s' setOnKeyLine setStack lose]. destruct rest as [|r rest]; [by destruct p, q|].
    split; [apply Hc|]. apply Hc.
  - unfold W. cbn [stack yields lost s' setOnKeyLine setStack lose]. rewrite !ws_cons, ws_app. lia.
Qed.

Lemma attach_into t p k : wfClosed t → wfToken p → container p → ∃ p' k', attach (adjust t p) p k = Some (Some (p', k')).
Proof.
  intros Ht Hp Hc. destruct (adjust_weight t p) as (_ & Hft & _).
  destruct (attach_weight (adjust t p) p k _ (Hft Ht) Hp Hc eq_refl) as (p' & k' & -> & _). eauto.
Qed.

Lemma pop_top fuel s t st : Inv s → stack s = t :: st →
  ∃ s', pop (S fuel) None s = Some s' ∧ popped s s' 0 ∧ length (stack s') = length st ∧ open_ (stack s').
Proof.
  intros HI Hs. pose proof HI as [Hw Hc Hctl]. cbn [pop]. rewrite Hs in *. cbn [head tail]. apply Forall_cons in Hw as [Ht Hst].
  destruct st as [|p rest].
  - eexists. parts4; [done| |done|done]. split; [by constructor|]. split; [|done]. unfold W. cbn [stack yields lost yield setStack].
    rewrite Hs. weigh.
  - destruct Hc as [Hcp Hc]. apply Forall_cons in Hst as [Hp Hrest].
    destruct (attach_into t p (onKeyLine s) (wfToken_closed _ Ht) Hp Hcp) as (p' & k' & Ha). rewrite Ha. eexists. parts4; [done| |done|].
    all: destruct (into_top s t p rest k' p') as (HI' & HW & Hsm & Ho); try done; try (by apply wfToken_closed).
    split; [done|]. split; [|done]. rewrite Hs, !ws_cons in HW. lia.
Qed.

Lemma pop_into fuel s t : Inv s → wfClosed t → open_ (stack s) → ∃ s', pop (S fuel) (Some t) s = Some s' ∧ popped s s' (w x t).
Proof.
  intros HI Ht Ho. pose proof HI as [Hw Hc Hctl]. cbn [pop]. destruct (stack s) as [|p rest] eqn:Hs.
  - eexists. split; [done|]. split; [by constructor|]. split; [|done]. unfold W. cbn [stack yields lost yield setStack].
    rewrite Hs. weigh.
  - apply Forall_cons in Hw as [Hp Hrest]. destruct (attach_into t p (onKeyLine s) Ht Hp Ho) as (p' & k' & Ha). rewrite Ha.
    eexists. split; [done|]. destruct (into_top s t p rest k' p') as (HI' & HW & Hsm & _); try done; try (by apply wfToken_closed).
    split; [done|]. split; [|done]. rewrite Hs in HW. lia.
Qed.

Lemma pop_none s : Inv s → stack s ≠ [] →
  ∃ s', pop_ None s = Some s' ∧ popped s s' 0 ∧ S (length (stack s')) = length (stack s) ∧ open_ (stack s').
Proof.
  intros HI Hne. destruct (stack s) as [|t st] eqn:Hs; [done|]. unfold pop_. rewrite Hs.
  destruct (pop_top (length (t :: st)) s t st HI Hs) as (s' & H1 & H2 & H3 & H4). exists s'. simpl. by rewrite H3.
Qed.

Lemma popped_trans a b c n m : popped a b n → popped b c m → popped a c (n + m).
Proof. intros (_ & Hw & Ht1 & Hs1 & Ha1) (HI & Hw' & Ht2 & Hs2 & Ha2). split; [done|]. split; [lia|]. unfold same. by rewrite Ht2, Hs2, Ha2. Qed.

(** A token of any kind on top. *)
Lemma pop_given s t : Inv s → wfClosed t → ∃ s', pop_ (Some t) s = Some s' ∧ popped s s' (w x t).
Proof.
  intros HI Ht. unfold pop_. destruct (stack s) as [|p rest] eqn:Hs.
  { apply pop_into; [done|done|by rewrite Hs]. }
  assert (container p ∨ (∃ o n props src, p = BlockScalar o n props src) ∨ ∀ k u, attach u p k = None) as [Hc|[Hb|Hn]].
  { destruct p; cbn; eauto 10. }
  { apply pop_into; [done|done|by rewrite Hs]. }
  - destruct Hb as (o & n & props & src & ->). cbn [pop]. rewrite Hs. cbn [attach]. eexists. split; [done|].
    destruct HI as [Hw Hc Hctl]. rewrite Hs in Hw, Hc. apply Forall_cons in Hw as [Hp Hrest]. destruct (adjust_weight t (BlockScalar o n props src)) as (Hwt & _).
    split; [|split; [|done]].
    + constructor; [by constructor| |done]. cbn [stack setOnKeyLine setStack lose]. by destruct rest.
    + unfold W. cbn [stack yields lost setOnKeyLine setStack lose overwritten]. rewrite Hs. weigh.
  - cbn [pop]. rewrite Hs, Hn. set (s1 := setStack (p :: rest) s).
    assert (Inv s1 ∧ W x s1 = W x s) as [HI1 HW1].
    { destruct HI as [Hw Hc Hctl]. rewrite Hs in Hw, Hc. split; [by constructor|]. unfold W. cbn [stack yields lost s1 setStack]. by rewrite Hs. }
    destruct (pop_top (length rest) s1 p rest HI1 eq_refl) as (s2 & H2 & Hp2 & Hl2 & Ho2).
    change (S (length rest)) with (length (p :: rest)) in H2. rewrite H2. cbn [mbind option_bind].
    destruct (adjust_weight t p) as (Hwt & Hft & _).
    destruct (pop_into (length rest) s2 (adjust t p)) as (s3 & H3 & Hp3); [apply Hp2|by apply Hft|done|].
    exists s3. split; [exact H3|]. rewrite <- Hwt. change (w x (adjust t p)) with (0 + w x (adjust t p))%nat.
    eapply popped_trans; [|exact Hp3]. destruct Hp2 as (? & ? & ?). split; [done|]. split; [lia|done].
Qed.

Lemma popAll_done fuel : ∀ s, Inv s → (length (stack s) <= fuel)%nat →
  ∃ s', popAll fuel s = Some s' ∧ popped s s' 0 ∧ stack s' = [].
Proof.
  induction fuel as [|fuel IH]; intros s HI Hl.
  - destruct (stack s) eqn:E; [|simpl in Hl; lia]. exists s. cbn [popAll]. rewrite E. split_and!; [done| |done].
    split; [done|]. split; [lia|done].
  - cbn [popAll]. destruct (stack s) as [|t st] eqn:E.
    { exists s. split_and!; [done| |done]. split; [done|]. split; [lia|done]. }
    destruct (pop_none s HI) as (s1 & -> & Hp & Hl1 & _); [by rewrite E|]. cbn [mbind option_bind].
    destruct (IH s1) as (s2 & H2 & Hp2 & Hs2); [apply Hp|rewrite E in Hl1; simpl in *; lia|].
    exists s2. split_and!; [done| |done]. by eapply (popped_trans s s1 s2 0 0).
Qed.

Lemma popFlow_done fuel : ∀ s, Inv s → stack s ≠ [] → (length (stack s) <= fuel)%nat →
  ∃ s', popFlow fuel s = Some s' ∧ popped s s' 0.
Proof.
  induction fuel as [|fuel IH]; intros s HI Hne Hl; [destruct (stack s); [done|simpl in Hl; lia]|].
  cbn [popFlow]. destruct (pop_none s HI Hne) as (s1 & -> & Hp & Hl1 & _). cbn [mbind option_bind].
  assert (∀ s2, popFlow fuel s1 = Some s2 ∧ popped s1 s2 0 → ∃ s', popFlow fuel s1 = Some s' ∧ popped s s' 0) as Hgo.
  { intros s2 [H2 Hp2]. exists s2. split; [done|]. by eapply (popped_trans s s1 s2 0 0). }
  destruct (stack s1) as [|e st] eqn:E; [by exists s1|]. destruct e; try (by exists s1).
  destruct (IH s1) as (s2 & H); [apply Hp|by rewrite E|rewrite E; simpl in *; lia|]. by apply (Hgo s2).
Qed.

(** ** The states *)

(** The lexeme is in the tokens. *)
Definition accepted (s s' : Parser) : Prop := Inv s' ∧ W x s' = (W x s + cnt x [psource s])%nat.

(** A handler ends: the lexeme is taken, or left for the token below. *)
Definition handled (s : Parser) (r : option outcome) : Prop :=
  match r with
  | None => False
  | Some (Done s') => accepted s s'
  | Some (Again s') => popped s s' 0 ∧ length (stack s') = length (stack s) ∧ stack s' ≠ []
  end.

Definition bottom (t : token) : Prop := match t with Document _ _ _ _ | DocEnd _ _ _ => True | _ => False end.

Lemma chain_cons t l : chain (t :: l) ↔ match l with [] => bottom t | p :: _ => container p ∧ chain l end.
Proof. by destruct l, t. Qed.

(** Only the stack changes. *)
Definition keeps (s s' : Parser) : Prop := same s s' ∧ yields s' = yields s ∧ lost s' = lost s.

Lemma accept_stack s s' l : Inv s → stack s' = l → keeps s s' → Forall wfToken l → chain l →
  ws x l = (ws x (stack s) + cnt x [psource s])%nat → accepted s s'.
Proof.
  intros [_ _ Hctl] Hl (Hsm & Hy & Hlo) Hw Hc HW. split.
  - constructor; [by rewrite Hl|by rewrite Hl|by eapply same_control].
  - unfold W. rewrite Hy, Hlo, Hl. lia.
Qed.

Lemma accept_top s s' e st e' : Inv s → stack s = e :: st → stack s' = e' :: st → keeps s s' → wfToken e' →
  (bottom e → bottom e') → w x e' = (w x e + cnt x [psource s])%nat → accepted s s'.
Proof.
  intros HI Hs Hs' Hk Hw Hb HW. pose proof HI as [Hws Hc _]. rewrite Hs in Hws, Hc. apply Forall_cons in Hws as [_ Hst].
  eapply accept_stack; [done|done|done|by constructor| |rewrite Hs, !ws_cons; lia].
  rewrite chain_cons in Hc |- *. destruct st; [by apply Hb|done].
Qed.

Lemma accept_push s s' e st e' t : Inv s → stack s = e :: st → stack s' = t :: e' :: st → keeps s s' →
  wfToken t → wfToken e' → container e' → (bottom e → bottom e') →
  (w x t + w x e' = w x e + cnt x [psource s])%nat → accepted s s'.
Proof.
  intros HI Hs Hs' Hk Ht Hw Hce Hb HW. pose proof HI as [Hws Hc _]. rewrite Hs in Hws, Hc. apply Forall_cons in Hws as [_ Hst].
  eapply accept_stack; [done|done|done|by repeat constructor| |rewrite Hs, !ws_cons; lia].
  split; [done|]. fold chain. rewrite chain_cons in Hc. apply chain_cons. destruct st; [by apply Hb|done].
Qed.

Lemma startBlockValue_weight e s t e' s' : startBlockValue e s = Some (t, e', s') → wfToken e → container e →
  (w x t + w x e' = w x e + cnt x [psource s])%nat ∧ keeps s s' ∧ stack s' = stack s ∧
  wfToken t ∧ wfToken e' ∧ container e' ∧ isDocument e' = isDocument e.
Proof using Hx.
  intros H Hw Hc. unfold startBlockValue, flowScalar in H.
  destruct (takeProps e) as [e1 props] eqn:E. destruct (takeProps_weight _ _ _ E) as (H1 & H2 & H3 & H4).
  pose proof (cnt_empty x Hx).
  destruct (type s); try done; injection H as <- <- <-;
    refine (conj _ (conj _ (conj _ (conj _ (conj _ (conj _ _)))))); auto; try (by weigh); try done;
    cbn [wfToken]; try split; wfl.
Qed.

Lemma again_ok s : Inv s → stack s ≠ [] → handled s (Some (Again s)).
Proof. intros HI Hs. split; [|done]. split; [done|]. split; [lia|done]. Qed.

(** A token taken and then closed. *)
Lemma accept_pop s s1 : accepted s s1 → stack s1 ≠ [] → handled s (Done <$> pop_ None s1).
Proof.
  intros [HI HW] Hne. destruct (pop_none s1 HI Hne) as (s2 & -> & (HI2 & HW2 & _) & _). cbn. split; [done|lia].
Qed.

(** The lexeme does not matter. *)
Lemma accept_hidden s : Inv s → ¬ visible (psource s) → accepted s s.
Proof using Hx. intros HI H. split; [done|]. rewrite (cnt_hidden x Hx) by done. lia. Qed.

(** A token with an end. *)
Definition ends (t : token) : Prop :=
  match t with FlowScalar _ _ _ _ _ | FlowCollection _ _ _ _ _ | DocEnd _ _ _ | Document _ _ (Some _) _ => True | _ => False end.

Lemma pushEnd_ok s e st : Inv s → stack s = e :: st → ends e → accepted s (pushEnd e s).
Proof.
  intros HI Hs He. pose proof HI as [Hw _ _]. rewrite Hs in Hw. apply Forall_cons in Hw as [Hwe _].
  eapply accept_top; [done|done|cbn; by rewrite Hs|done| | |].
  - destruct e as [ | | |o l [v|] e| | | | | | ]; done.
  - by destruct e.
  - destruct e as [ | | |o l v e|o l e|y o n l e| | | |o n l items e]; try done; cbn [setEnd endOf]; weigh.
Qed.

Lemma lineEnd_ok s e st : Inv s → stack s = e :: st → ends e → handled s (lineEnd e s).
Proof.
  intros HI Hs He. assert (handled s (Some (Again s))) as Ha by (apply again_ok; [done|by rewrite Hs]).
  assert (handled s (Some (Done (pushEnd e s)))) as Hd by (by eapply pushEnd_ok).
  unfold lineEnd. destruct (type s) eqn:Et; try done.
  apply (accept_pop s (pushEnd e (setOnKeyLine false s))); [|done].
  assert (Inv (setOnKeyLine false s)) as HI' by (destruct HI; by constructor).
  apply (pushEnd_ok (setOnKeyLine false s) e st HI' Hs He).
Qed.

(** A new token on top of the one it takes its props from. *)
Lemma start_ok s e st t e' s' : Inv s → stack s = e :: st → container e → startBlockValue e s = Some (t, e', s') →
  accepted s (push t (setTop e' s')).
Proof using Hx.
  intros HI Hs Hc H. pose proof HI as [Hw _ _]. rewrite Hs in Hw. apply Forall_cons in Hw as [Hwe _].
  destruct (startBlockValue_weight _ _ _ _ _ H Hwe Hc) as (HW & Hk & Hst & Ht & He' & Hc' & Hd).
  eapply accept_push; [done|done|cbn; by rewrite Hst, Hs|done|done|done|done| |done].
  by destruct e, e'.
Qed.

Lemma document_accepts s o start v e st : Inv s → stack s = Document o start v e :: st →
  handled s (document (Document o start v e) o start v e s).
Proof using Hx.
  intros HI Hs. unfold document. destruct v as [v|]; cbn [isSome]; [by eapply lineEnd_ok|].
  pose proof HI as [Hw Hc Hctl]. rewrite Hs in Hw. apply Forall_cons in Hw as [Hwe _].
  assert (handled s (Some (Done (setTop (Document o (start ++ [sourceToken s]) None e) s)))) as Hadd.
  { eapply accept_top; [done|done|cbn; by rewrite Hs|done|done|done|weigh]. }
  assert (∀ m, handled s (Some (Done match startBlockValue (Document o start None e) s with
    | Some (t, e, s) => push t (setTop e s) | None => yield (error m s) s end))) as Hstart.
  { intros m. destruct (startBlockValue _ s) as [[[t e'] s']|] eqn:E; [by eapply start_ok|]. split; [destruct HI; by constructor|].
    unfold W. cbn [stack yields lost yield]. weigh. unfold error. weigh. }
  destruct (type s); try done. destruct (allBlank start); [done|]. apply again_ok; [done|by rewrite Hs].
Qed.

Lemma stream_accepts s : Inv s → stack s = [] → handled s (Some (stream s)).
Proof using Hx.
  intros HI Hs. assert (∀ t, w x t = cnt x [psource s] → accepted s (yield t s)) as Hy.
  { intros t Ht. split; [destruct HI; by constructor|]. unfold W. cbn [stack yields lost yield]. weigh. }
  assert (∀ l, cs x l = cnt x [psource s] → accepted s (push (Document (offset s) l None None) s)) as Hd.
  { intros l Hl. eapply accept_stack; [done|done|done| | |]; cbn; rewrite Hs; [by repeat constructor|done|]. weigh. }
  pose proof HI as [_ _ Hctl]. unfold stream. destruct (type s) eqn:Et; try (by apply Hy); cbn [handled].
  - apply Hd. rewrite (cnt_hidden x Hx); [done|]. apply (proj1 Hctl). auto.
  - apply Hd. weigh.
Qed.

Lemma scalar_accepts s y o n src e st : Inv s → stack s = FlowScalar y o n src e :: st →
  handled s (scalar_ (FlowScalar y o n src e) o n s).
Proof.
  intros HI Hs. unfold scalar_. case_bool_decide as Et; [|by eapply lineEnd_ok].
  pose proof HI as [Hw Hc _]. rewrite Hs in *. cbn [tail]. destruct st as [|p rest]; [done|]. destruct Hc as [Hcp Hc].
  apply Forall_cons in Hw as [_ [Hp Hrest]%Forall_cons]. destruct (takeProps p) as [p' start] eqn:E.
  destruct (takeProps_weight _ _ _ E) as (H1 & H2 & H3 & H4).
  destruct e as [l|]; cbn [handled]; (eapply accept_stack; [done|st; reflexivity|done| | |rewrite Hs; weigh]).
  all: try (constructor; [split; [done|wfl]|by constructor; [auto|]]).
  all: split; [by apply H3|]; fold chain; rewrite chain_cons in Hc |- *; destruct rest; [by destruct p, p'|done].
Qed.

Lemma blockScalar_accepts s o n props src st : Inv s → stack s = BlockScalar o n props src :: st →
  handled s (blockScalar o n props src s).
Proof using Hx.
  intros HI Hs. pose proof HI as [Hw Hc _]. rewrite Hs in Hw, Hc. apply Forall_cons in Hw as [Hsrc Hst]. cbn in Hsrc. subst src.
  assert (handled s (Some (Done (setTop (BlockScalar o n (props ++ [Source (sourceToken s)]) []) s)))) as Hadd.
  { eapply accept_top; [done|done|cbn; by rewrite Hs|done|done|done|weigh]. }
  unfold blockScalar. destruct (type s) eqn:Et; try done; try (apply again_ok; [done|by rewrite Hs]).
  set (s1 := addNewLines _ _). destruct st as [|p rest]; [done|]. destruct Hc as [Hcp Hc]. apply Forall_cons in Hst as [Hp Hrest].
  destruct HI as [_ _ Hctl]. destruct (attach_into (BlockScalar o n props (psource s)) p (onKeyLine s1) I Hp Hcp) as (p' & k' & Ha).
  assert (stack s1 = BlockScalar o n props (psource s) :: p :: rest) as Hs1 by (cbn; by rewrite Hs).
  unfold pop_. cbn [pop]. rewrite Hs1. cbn [head tail]. rewrite Ha. cbn [fmap option_fmap option_map handled].
  destruct (into_top s1 (BlockScalar o n props (psource s)) p rest k' p' Hctl I Hp Hcp Hc Hrest Ha) as (HI' & HW & _).
  split; [exact HI'|]. assert (W x s1 = (W x s + cnt x [psource s])%nat) as HW1.
  { unfold W. rewrite Hs, Hs1. cbn [yields lost s1 addNewLines setLine setTop setStack]. pose proof (cnt_empty x Hx). weigh. }
  rewrite Hs1 in HW. rewrite !ws_cons in HW. lia.
Qed.

(** ** Block collections *)

Lemma setEnd_some l l' v : endOf v = Some l → (w x (setEnd l' v) + cs x l = w x v + cs x l')%nat.
Proof. destruct v; try done; cbn [endOf setEnd]; intros [= ->]; weigh. Qed.

(** The items of a block collection with the lexeme among them. *)
Definition itemsOk (P : item → Prop) (s : Parser) (items items' : list item) : Prop :=
  items' ≠ [] ∧ Forall P items' ∧ wis x items' = (wis x items + cnt x [psource s])%nat.

Lemma itemsOk_new P s items i : Forall P items → P i → wi x i = cnt x [psource s] → itemsOk P s items (items ++ [i]).
Proof. intros H1 H2 H3. split; [by destruct items|]. split; [wfl|]. weigh. Qed.

Lemma itemsOk_last P s r i i' : Forall P (r ++ [i]) → P i' → wi x i' = (wi x i + cnt x [psource s])%nat →
  itemsOk P s (r ++ [i]) (r ++ [i']).
Proof. intros [H1 _]%Forall_app H2 H3. split; [by destruct r|]. split; [wfl|]. weigh. Qed.

Lemma blankInItem_ok (keyed : bool) n items i s (P := if keyed then wfItem else wfSeqItem) :
  Forall P items → last items = Some i → itemsOk P s items (blankInItem keyed n items i s).
Proof.
  intros Hw Hl. apply last_snoc_inv in Hl as [r ->]. destruct i as [a k p v e]. unfold blankInItem. cbn [ivalue isep istart].
  assert (P (Item a k p v e)) as Hi by (by apply Forall_app in Hw as [_ [? _]%Forall_cons]).
  assert (itemsOk P s (r ++ [Item a k p v e]) ((r ++ [Item a k p v e]) ++ [startItem [sourceToken s]])) as Hnew.
  { apply itemsOk_new; [done|by destruct keyed|weigh]. }
  destruct v as [v|].
  { destruct (if bool_decide (type s = newline) then endOf v else None) as [l|] eqn:E; [|done]. case_bool_decide; [|done].
    case_bool_decide; [|done]. rewrite mapLast_snoc. apply itemsOk_last; [done|by destruct keyed|].
    pose proof (setEnd_some l (l ++ [sourceToken s]) v E) as H1. weigh. }
  destruct (if keyed then p else None) as [p'|] eqn:Ep.
  { destruct keyed; [|done]. subst p. rewrite mapLast_snoc. apply itemsOk_last; [done|done|weigh]. }
  rewrite removelast_last, mapLast_snoc.
  destruct (if atIndentedComment a n s then _ else _) as [[v l]|] eqn:E; [|apply itemsOk_last; [done|by destruct keyed|weigh]].
  destruct (atIndentedComment a n s); [|done]. destruct (last r) as [[b kk pp vv ee]|] eqn:El; [|done]. cbn in E.
  destruct vv as [v'|]; [|done]. cbn in E. destruct (endOf v') as [l'|] eqn:Ee; [|done]. cbn in E. simplify_eq.
  apply last_snoc_inv in El as [r' ->]. rewrite mapLast_snoc. pose proof (setEnd_some l (l ++ a ++ [sourceToken s]) v Ee) as H1.
  apply Forall_app in Hw as [[Hr' [Hj _]%Forall_cons]%Forall_app _].
  assert (p = None ∧ k = None) as [-> ->].
  { destruct keyed; [subst p; split; [done|by apply Hi]|]. exact Hi. }
  split; [by destruct r'|]. split; [wfl; by destruct keyed|]. clear Hnew. weigh.
Qed.

(** An item list for the map on top. *)
Lemma map_top_ok s s' o n items items' st : Inv s → stack s = BlockMap o n items :: st →
  stack s' = BlockMap o n items' :: st → keeps s s' → itemsOk wfItem s items items' → accepted s s'.
Proof. intros HI Hs Hs' Hk (H1 & H2 & H3). eapply accept_top; [done|done|done|done|done|done|]. weigh. Qed.

Lemma seq_top_ok s s' o n items items' st : Inv s → stack s = BlockSeq o n items :: st →
  stack s' = BlockSeq o n items' :: st → keeps s s' → itemsOk wfSeqItem s items items' → accepted s s'.
Proof. intros HI Hs Hs' Hk (H1 & H2 & H3). eapply accept_top; [done|done|done|done|done|done|]. weigh. Qed.

Lemma blockSequence_accepts s o n items st : Inv s → stack s = BlockSeq o n items :: st → handled s (blockSequence o n items s).
Proof using Hx.
  intros HI Hs. pose proof HI as [Hw Hc _]. rewrite Hs in Hw, Hc. apply Forall_cons in Hw as [[Hne Hit] Hst].
  unfold blockSequence. set (start := Some (if n <? indent s then _ else _)).
  assert (handled s (Some (Again s))) as Hag by (apply again_ok; [done|by rewrite Hs]).
  assert (handled s start) as Hstart.
  { unfold start. destruct (n <? indent s); [|done]. destruct (startBlockValue _ s) as [[[t e'] s']|] eqn:E; [|done].
    by eapply start_ok. }
  clearbody start. destruct (last items) as [i|] eqn:El; [|by apply last_None in El].
  assert (∀ l, itemsOk wfSeqItem s items l → handled s (Some (Done (setTop (BlockSeq o n l) s)))) as Htop.
  { intros l Hl. eapply seq_top_ok; [done|done|cbn; by rewrite Hs|done|done]. }
  assert (itemsOk wfSeqItem s items (mapLast (setStart (istart i ++ [sourceToken s])) items)) as Hpush.
  { apply last_snoc_inv in El as [r ->]. rewrite mapLast_snoc. destruct i as [a k p v e].
    assert (wfSeqItem (Item a k p v e)) by (by apply Forall_app in Hit as [_ [? _]%Forall_cons]).
    apply itemsOk_last; [done|done|weigh]. }
  assert (itemsOk wfSeqItem s items (items ++ [startItem [sourceToken s]])) as Hnew by (apply itemsOk_new; [done|done|weigh]).
  pose proof (blankInItem_ok false n items i s Hit El) as Hblank. cbn [negb] in Hblank.
  destruct (type s); try done; try (by apply Htop).
  all: try (destruct (_ || _); [done|by apply Htop]).
  destruct (negb _); [done|]. destruct (_ || _); by apply Htop.
Qed.

(** The line ends found in a separator. *)
Definition places (full : list SourceToken) (k : nat) (acc : list nat) : Prop :=
  Sorted.StronglySorted lt acc ∧ Forall (λ j, (j < k)%nat ∧ ∃ t, full !! j = Some t ∧ ty t = newline) acc.

Lemma newlinePlaces_spec n l : ∀ pre acc, places (pre ++ l) (length pre) acc →
  places (pre ++ l) (length (pre ++ l)) (newlinePlaces n (length pre) acc l).
Proof.
  induction l as [|t l IH]; intros pre acc [Hs Ha]; cbn [newlinePlaces]; [by rewrite app_nil_r in *|].
  assert (pre ++ t :: l = (pre ++ [t]) ++ l) as Heq by (by rewrite <- app_assoc). rewrite Heq in *.
  assert (S (length pre) = length (pre ++ [t])) as Hlen by (rewrite length_app; simpl; lia).
  assert (Forall (λ j, (j < length (pre ++ [t]))%nat ∧ ∃ t', ((pre ++ [t]) ++ l) !! j = Some t' ∧ ty t' = newline) acc) as Ha'.
  { eapply Forall_impl; [exact Ha|]. intros j [? ?]. split; [lia|done]. }
  rewrite Hlen. apply IH. destruct (ty t) eqn:Et; try (by split; constructor).
  - split.
    + clear -Hs Ha. induction Hs as [|y acc Hs IH Hy]; [repeat constructor|]. apply Forall_cons in Ha as [[Hlt _] Ha]. constructor; [by apply IH|].
      apply Forall_app. split; [done|]. by repeat constructor.
    + apply Forall_app. split; [done|]. repeat constructor; [lia|]. exists t. split; [|done].
      rewrite <- app_assoc. by apply list_lookup_middle.
  - split; done.
  - destruct (_ <? _); [by split; constructor|by split].
Qed.

Lemma cutSep_spec n sep l cut : cutSep n sep = (l, cut) → sep = l ++ cut ∧ (cut = [] ∨ includesToken l newline = true).
Proof.
  unfold cutSep. pose proof (newlinePlaces_spec n sep [] []) as H. destruct (newlinePlaces n 0 [] sep) as [|j [|k ps]] eqn:E;
    try (intros [= <- <-]; rewrite app_nil_r; split; [done|by left]).
  intros [= <- <-]. rewrite take_drop. split; [done|]. right. simpl in H. rewrite E in H.
  destruct H as [Hs [[_ (t & Ht & Hty)] _]%Forall_cons]; [split; constructor|].
  assert (j < k)%nat as Hjk by (inversion Hs as [|? ? _ Hf]; by apply Forall_cons in Hf as [? _]).
  apply existsb_exists. exists t. split; [|by rewrite bool_decide_eq_true_2].
  apply list_elem_of_In, list_elem_of_lookup. exists j. by rewrite lookup_take_lt.
Qed.

(** A token on top of the map. *)
Lemma map_push_ok s s' o n items items' t st : Inv s → stack s = BlockMap o n items :: st →
  stack s' = t :: BlockMap o n items' :: st → keeps s s' → wfToken t → items' ≠ [] → Forall wfItem items' →
  (w x t + wis x items' = wis x items + cnt x [psource s])%nat → accepted s s'.
Proof. intros HI Hs Hs' Hk Ht Hne Hw HW. eapply accept_push; [done|done|done|done|done|done|done|done|]. weigh. Qed.

Section mapEntry.
Context (s : Parser) (o n : Z) (items0 r : list item) (a : list SourceToken) (k : option token) (p : option (list SourceToken))
  (v : option token) (e : bool) (st0 : list token) (cut : list SourceToken) (next : bool).
Let i := Item a k p v e.
Let items := r ++ [i].
Context (HI : Inv s) (Hs : stack s = BlockMap o n items0 :: st0) (HW : wis x items0 = (wis x items + cs x cut)%nat)
  (Hit : Forall wfItem items)
  (Hcut : cut = [] ∨ (next = true ∧ v = None ∧ ∃ sep, p = Some sep ∧ includesToken sep newline = true)).

Ltac etop := eapply map_top_ok; [exact HI|exact Hs|st; rewrite Hs; reflexivity|done|];
  refine (conj _ (conj _ _)); [rewrite ?mapLast_snoc; by destruct r|rewrite ?mapLast_snoc; wfl|rewrite HW].
Ltac epush := eapply map_push_ok; [exact HI|exact Hs|st; rewrite Hs; reflexivity|done
  |cbn [wfToken]; first [done|split; [done|wfl]]|rewrite ?mapLast_snoc; by destruct r|rewrite ?mapLast_snoc; wfl|rewrite HW].

Lemma mapValue_ok : accepted s (setOnKeyLine true (mapValue o n items i next cut s)).
Proof using All.
  apply Forall_app in Hit as [Hr [Hi _]%Forall_cons]. unfold mapValue. unfold items, i in *.
  cbn [iexplicit isep ivalue istart ikey]. destruct e.
  - destruct p as [sep|].
    + destruct v as [v'|]; cbn [isSome].
      { etop. destruct Hcut as [->|(_ & ? & _)]; [|done]. weigh. }
      destruct (includesToken sep map_value_ind); [epush; weigh|].
      destruct (isFlowToken k && negb (includesToken sep newline)) eqn:E.
      * destruct (getFirstKeyStartProps a) as [l props] eqn:Ea. apply firstKeyStartProps_split in Ea. subst a.
        epush. destruct Hcut as [->|(_ & _ & sep' & [= <-] & Hnl)]; [weigh|]. by rewrite Hnl, andb_false_r in E.
      * etop. weigh.
    + destruct Hcut as [->|(_ & _ & ? & ? & _)]; [|done]. unfold wfItem in Hi. cbn in Hi. rewrite (Hi eq_refl) in *.
      destruct (includesToken a newline); [etop; weigh|].
      destruct (getFirstKeyStartProps a) as [l props] eqn:Ea. apply firstKeyStartProps_split in Ea. subst a. epush. weigh.
  - destruct p as [sep|].
    + destruct (isSome v || next) eqn:E; [etop; weigh|]. apply orb_false_iff in E as [_ E].
      destruct Hcut as [->|(Hn & _)]; [|congruence]. destruct (includesToken sep map_value_ind); [epush; weigh|]. etop. weigh.
    + destruct Hcut as [->|(_ & _ & ? & ? & _)]; [|done]. unfold wfItem in Hi. cbn in Hi. rewrite (Hi eq_refl) in *. etop. weigh.
Qed.

Definition entryOk (r : option (option Parser)) : Prop :=
  match r with Some None => False | Some (Some s') => accepted s s' | None => True end.

Lemma mapAnchor_ok : accepted s
  (if next || isSome v then setOnKeyLine true (setTop (BlockMap o n (items ++ [startItem (cut ++ [sourceToken s])])) s)
   else match p with
        | Some sep => setTop (BlockMap o n (mapLast (setSep (sep ++ [sourceToken s])) items)) s
        | None => setTop (BlockMap o n (mapLast (setStart (a ++ [sourceToken s])) items)) s
        end).
Proof using All.
  apply Forall_app in Hit as [Hr [Hi _]%Forall_cons]. unfold items, i in *.
  destruct (next || isSome v) eqn:E; [etop; weigh|]. apply orb_false_iff in E as [E _].
  destruct Hcut as [->|(Hn & _)]; [|congruence]. destruct p; etop; weigh.
Qed.

Lemma mapExplicit_ok : accepted s (setOnKeyLine true
  (if negb (isSome p) && negb e
   then setTop (BlockMap o n (mapLast (λ i, setExplicit (setStart (istart i ++ [sourceToken s]) i)) items)) s
   else if next || isSome v then setTop (BlockMap o n (items ++ [Item (cut ++ [sourceToken s]) None None None true])) s
   else push (BlockMap (offset s) (indent s) [Item [sourceToken s] None None None true]) (setTop (BlockMap o n items) s))).
Proof using All.
  apply Forall_app in Hit as [Hr [Hi _]%Forall_cons]. unfold items, i in *.
  destruct (negb (isSome p) && negb e) eqn:E0.
  { destruct p; [done|]. destruct Hcut as [->|(_ & _ & ? & ? & _)]; [|done]. etop. weigh. }
  destruct (next || isSome v) eqn:E; [etop; weigh|]. apply orb_false_iff in E as [E _].
  destruct Hcut as [->|(Hn & _)]; [|congruence]. epush. weigh.
Qed.

Lemma mapScalar_ok : accepted s
  (let '(key, s) := flowScalar s in
   if next || isSome v then setOnKeyLine true (setTop (BlockMap o n (items ++ [keyItem cut (Some key) []])) s)
   else if isSome p then push key (setTop (BlockMap o n items) s)
   else setOnKeyLine true (setTop (BlockMap o n (mapLast (setKey (Some key) []) items)) s)).
Proof using All.
  apply Forall_app in Hit as [Hr [Hi _]%Forall_cons]. unfold items, i in *. unfold flowScalar.
  destruct (next || isSome v) eqn:E; [etop; weigh|]. apply orb_false_iff in E as [E _].
  destruct Hcut as [->|(Hn & _)]; [|congruence]. destruct p; cbn [isSome]; [epush; weigh|].
  unfold wfItem in Hi. cbn in Hi. rewrite (Hi eq_refl) in *. etop. weigh.
Qed.

(** A block collection or another value starts. *)
Lemma mapStart_ok atMap t : (next = true → atMap = true) → w x t = cnt x [psource s] → wfToken t →
  accepted s (push t (setTop (BlockMap o n (items ++ if atMap then [startItem cut] else [])) s)).
Proof using All.
  intros Hat Hw Ht. apply Forall_app in Hit as [Hr [Hi _]%Forall_cons]. unfold items, i in *.
  destruct atMap; [epush; weigh|]. rewrite app_nil_r.
  destruct Hcut as [->|(Hn & _)]; [|specialize (Hat Hn); done]. epush. weigh.
Qed.

Lemma mapSeq_ok t : next = false → w x t = cnt x [psource s] → wfToken t →
  entryOk (if negb e && match p with Some sep => negb (includesToken sep newline) | None => false end
    then Some (pop_ (Some (error (runes "Unexpected block-seq-ind on same line with key") s)) (setTop (BlockMap o n items) s))
    else Some (Some (push t (setTop (BlockMap o n items) s)))).
Proof using All.
  intros Hn Hw Ht. pose proof (mapStart_ok false t) as Hst. rewrite app_nil_r in Hst.
  assert (cut = []) as Hc0. { destruct Hcut as [?|(? & _)]; [done|congruence]. }
  destruct (negb e && _); [|by apply Hst; rewrite ?Hn].
  assert (Inv (setTop (BlockMap o n items) s)) as HI'.
  { destruct HI as [Hw' Hc Hctl]. rewrite Hs in Hw', Hc. apply Forall_cons in Hw' as [_ Hst0].
    constructor; [|st; rewrite Hs; by destruct st0|done]. st. rewrite Hs. constructor; [|done]. split; [by destruct r|done]. }
  destruct (pop_given _ (error (runes "Unexpected block-seq-ind on same line with key") s) HI' I) as (s' & -> & HI2 & HW2 & _).
  split; [done|]. rewrite HW2. unfold W. st. rewrite Hs. unfold error. cbn [yields lost setTop setStack tail]. rewrite Hc0 in HW. weigh.
Qed.

Lemma mapEntry_ok atMap : (next = true → atMap = true) → (next = true → type s ≠ seq_item_ind) →
  entryOk (mapEntry o n items i atMap next cut s).
Proof using All.
  intros Hat Hseq. pose proof mapAnchor_ok. pose proof mapExplicit_ok. pose proof mapValue_ok. pose proof mapScalar_ok.
  unfold mapEntry. cbn [iexplicit isep ivalue istart ikey i]. unfold startBlockValue.
  destruct (type s) eqn:Et; try done.
  all: try (apply mapStart_ok; [done|pose proof (cnt_empty x Hx); weigh|cbn [wfToken]; wfl]; fail).
  apply mapSeq_ok; [by destruct next; [exfalso; apply Hseq|]|weigh|split; [done|wfl]].
Qed.

End mapEntry.

Lemma blockMap_accepts s o n items st : Inv s → stack s = BlockMap o n items :: st → handled s (blockMap o n items s).
Proof using Hx.
  intros HI Hs. pose proof HI as [Hw Hc Hctl]. rewrite Hs in Hw, Hc. apply Forall_cons in Hw as [[Hne Hit] Hst].
  unfold blockMap. destruct (last items) as [i|] eqn:El; [|by apply last_None in El].
  pose proof (blankInItem_ok true n items i s Hit El) as Hblank.
  assert (∀ s', stack s' = BlockMap o n (blankInItem true n items i s) :: st → keeps s s' → accepted s s') as Htop.
  { intros s' Hs' Hk. by eapply map_top_ok. }
  assert (handled s (Some (Again s))) as Hag by (apply again_ok; [done|by rewrite Hs]).
  set (atMap := negb (onKeyLine s) && (indent s =? n)).
  set (next := atMap && (isSome (isep i) || iexplicit i) && negb (bool_decide (type s = seq_item_ind))).
  set (parts := match isep i, ivalue i with Some sep, None => _ | _, _ => _ end).
  assert (∃ r a k p v e cut, parts = (r ++ [Item a k p v e], Item a k p v e, cut) ∧ wis x items = (wis x (r ++ [Item a k p v e]) + cs x cut)%nat ∧
    Forall wfItem (r ++ [Item a k p v e]) ∧
    (cut = [] ∨ (next = true ∧ v = None ∧ ∃ sep, p = Some sep ∧ includesToken sep newline = true))) as (r & a & k & p & v & e & cut & Hparts & HW & Hit' & Hcut).
  { unfold parts. apply last_snoc_inv in El as [r ->]. destruct i as [a k p v e]. cbn [isep ivalue].
    assert (wis x (r ++ [Item a k p v e]) = (wis x (r ++ [Item a k p v e]) + cs x [])%nat) as H0 by weigh.
    destruct p as [sep|]; [|exists r, a, k, None, v, e, []; auto]. destruct v as [v|]; [exists r, a, k, (Some sep), (Some v), e, []; auto|].
    destruct next eqn:En; [|exists r, a, k, (Some sep), None, e, []; auto].
    destruct (cutSep n sep) as [l cut] eqn:Ec. apply cutSep_spec in Ec as [-> Hnl]. rewrite mapLast_snoc.
    exists r, a, k, (Some l), None, e, cut. cbn [setSep]. parts4; [done|weigh| |destruct Hnl; [by left|right; eauto]].
    apply Forall_app in Hit as [Hr _]. wfl. }
  clearbody parts. subst parts.
  assert (entryOk s (mapEntry o n (r ++ [Item a k p v e]) (Item a k p v e) atMap next cut s)) as Hentry.
  { eapply mapEntry_ok; try done; unfold next.
    - destruct atMap; [done|]. done.
    - intros Hn. apply andb_prop in Hn as [_ Hn]. by case_bool_decide. }
  assert (handled s (if n <=? indent s then
      match mapEntry o n (r ++ [Item a k p v e]) (Item a k p v e) atMap next cut s with
      | Some r => Done <$> r
      | None => Some (Again (lose (Source <$> cut) (setTop (BlockMap o n (r ++ [Item a k p v e])) s)))
      end else Some (Again s))) as Hall.
  { destruct (n <=? indent s); [|done]. destruct (mapEntry _ _ _ _ _ _ _ _) as [[s'|]|]; [done|done|]. cbn [handled].
    split; [|st; rewrite Hs; split; done]. split; [|split; [|done]].
    - constructor; [|st; rewrite Hs; by destruct st|done]. cbn [lose]. st. rewrite Hs. constructor; [|done]. split; [by destruct r|done].
    - unfold W. cbn [stack yields lost lose setTop setStack]. rewrite Hs. cbn [tail]. rewrite !ws_cons, ws_app, ws_sources. weigh. }
  destruct (type s) eqn:Et; try exact Hall; apply Htop; try done; st; by rewrite Hs.
Qed.

(** ** Flow collections *)

Lemma flow_top_ok s s' o n start items items' st : Inv s → stack s = FlowCollection o n start items [] :: st →
  stack s' = FlowCollection o n start items' [] :: st → keeps s s' → itemsOk wfItem s items items' → accepted s s'.
Proof. intros HI Hs Hs' Hk (_ & H2 & H3). eapply accept_top; [done|done|done|done|done|done|]. weigh. Qed.

Lemma flowEntry_accepts s o n start items st : Inv s → stack s = FlowCollection o n start items [] :: st →
  handled s (Some (flowEntry o n start items s)).
Proof using Hx.
  intros HI Hs. pose proof HI as [Hw Hc Hctl]. rewrite Hs in Hw, Hc. apply Forall_cons in Hw as [Hit Hst]. cbn in Hit.
  assert (∀ s' l, stack s' = FlowCollection o n start l [] :: st → keeps s s' → itemsOk wfItem s items l → accepted s s') as Htop.
  { intros s' l Hs' Hk Hl. by eapply flow_top_ok. }
  assert (∀ i, wfItem i → wi x i = cnt x [psource s] → itemsOk wfItem s items (items ++ [i])) as Hnew.
  { intros i Hi Hwi. by apply itemsOk_new. }
  assert (∀ i f, last items = Some i → wfItem (f i) → wi x (f i) = (wi x i + cnt x [psource s])%nat → itemsOk wfItem s items (mapLast f items)) as Hmap.
  { intros i f Hi Hf Hwf. apply last_snoc_inv in Hi as [r ->]. rewrite mapLast_snoc. by apply itemsOk_last. }
  assert (∀ i, last items = Some i → wfItem i) as Hwi.
  { intros i Hi. apply last_snoc_inv in Hi as [r ->]. by apply Forall_app in Hit as [_ [? _]%Forall_cons]. }
  assert (handled s match startBlockValue (FlowCollection o n start items []) s with
    | Some (t, e, s) => Some (Done (push t (setTop e s))) | None => Some (Again s) end) as Hstart.
  { destruct (startBlockValue _ s) as [[[t e] s']|] eqn:E; [by eapply start_ok|]. apply again_ok; [done|by rewrite Hs]. }
  assert (handled s (Some (Done (setTop (FlowCollection o n start items [sourceToken s]) s)))) as Hend.
  { eapply accept_top; [done|done|st; by rewrite Hs|done|done|done|weigh]. }
  assert (∀ t s', last items ≠ None → stack s' = stack s → keeps s s' → wfToken t → w x t = cnt x [psource s] → accepted s (push t s')) as Hpush.
  { intros t s' _ Hs' Hk Ht HW. eapply accept_push; [done|done|st; by rewrite Hs', Hs|done|done|done|done|done|weigh]. }
  unfold flowEntry. destruct (last items) as [[a k p v e]|] eqn:El; cbn [isSome negb orb ivalue mbind option_bind isep].
  - specialize (Hwi _ eq_refl). unfold wfItem in Hwi. cbn in Hwi. unfold flowScalar.
    destruct (type s) eqn:Et; try (destruct (startBlockValue _ s) as [[[? ?] ?]|]; exact Hstart); try exact Hend; cbn [handled].
    all: destruct v as [v|], p as [p|]; cbn [isSome]; try (by apply Hpush).
    all: try (pose proof (Hwi eq_refl) as Hk0; subst k).
    all: eapply Htop; [st; rewrite Hs; reflexivity|done|].
    all: first [by apply Hnew; [done|weigh] | by eapply Hmap; [reflexivity|done|weigh] | idtac].
  - unfold flowScalar.
    destruct (type s) eqn:Et; try (destruct (startBlockValue _ s) as [[[? ?] ?]|]; exact Hstart); try exact Hend; cbn [handled].
    all: eapply Htop; [st; rewrite Hs; reflexivity|done|].
    all: by apply Hnew; [done|weigh].
Qed.

Lemma flowCollection_accepts s o n start items e st : Inv s → stack s = FlowCollection o n start items e :: st →
  handled s (flowCollection (FlowCollection o n start items e) o n start items e s).
Proof using Hx.
  intros HI Hs. unfold flowCollection. case_bool_decide as Ef.
  { destruct (popFlow_done (length (stack s)) s HI) as (s' & -> & HI' & HW & _); [by rewrite Hs|done|].
    split; [done|]. rewrite HW, (cnt_hidden x Hx); [lia|]. apply (proj1 (inv_control _ HI)). auto. }
  destruct e as [|close after]; [by eapply flowEntry_accepts|].
  pose proof HI as [Hw Hc _]. rewrite Hs in *. cbn [tail]. destruct st as [|p rest]; [done|]. destruct Hc as [Hcp Hc].
  apply Forall_cons in Hw as [Hit [Hp Hrest]%Forall_cons].
  destruct (match p with BlockMap _ _ _ => _ | _ => _ end); [apply again_ok; [done|by rewrite Hs]|].
  destruct (_ && _); [|by eapply lineEnd_ok].
  destruct (takeProps p) as [p' props] eqn:E. destruct (takeProps_weight _ _ _ E) as (H1 & H2 & H3 & H4).
  destruct (fixFlowSeqItems_weight (FlowCollection o n start items (close :: after))) as [Hfix _].
  assert (∃ l, fixFlowSeqItems (FlowCollection o n start items (close :: after)) = FlowCollection o n start l (close :: after)) as [l El].
  { cbn [fixFlowSeqItems]. case_bool_decide; eauto. }
  rewrite El in *. cbn [setEnd handled]. eapply accept_stack; [done|st; reflexivity|done| | |rewrite Hs; weigh].
  - constructor; [split; [done|wfl]|by constructor; [auto|]].
  - split; [by apply H3|]. fold chain. rewrite chain_cons in Hc |- *. destruct rest; [by destruct p, p'|done].
Qed.

(** ** The loop *)

Lemma documentEnd_accepts s o src e st : Inv s → stack s = DocEnd o src e :: st → handled s (documentEnd (DocEnd o src e) s).
Proof using Hx.
  intros HI Hs. assert (accepted s (pushEnd (DocEnd o src e) s)) as Hp by (by eapply pushEnd_ok).
  unfold documentEnd. destruct (type s) eqn:Et; try done.
  - apply accept_hidden; [done|]. apply (proj1 (inv_control _ HI)). auto.
  - by apply accept_pop.
Qed.

Lemma docEnd_ok s s' : Inv s → popped s s' 0 → stack s' = [] →
  accepted s (push (DocEnd (offset s') (psource s') None) s').
Proof.
  intros HI (HI' & HW & _ & Hs & _) Hst. split.
  - destruct HI' as [_ _ Hctl]. constructor; [| |done]; st; rewrite Hst; [by repeat constructor|done].
  - unfold W in *. cbn [yields lost push setStack]. st. rewrite Hst in *. rewrite Hs. weigh.
Qed.

Lemma turn_accepts s : Inv s → handled s (turn s).
Proof using Hx.
  intros HI. unfold turn. destruct (stack s) as [|e st] eqn:Hs.
  { case_bool_decide; [|by apply stream_accepts]. apply docEnd_ok; [done| |done]. split; [done|]. split; [lia|done]. }
  destruct (bool_decide (type s = doc_end) && _).
  { destruct (popAll_done (length (e :: st)) s HI) as (s' & -> & Hp & Hs'); [by rewrite Hs|]. by apply docEnd_ok. }
  pose proof HI as [Hw _ _]. rewrite Hs in Hw. apply Forall_cons in Hw as [Hwe _].
  destruct e; try done; [by eapply document_accepts|by eapply documentEnd_accepts|by eapply scalar_accepts|by eapply blockScalar_accepts
    |by eapply blockMap_accepts|by eapply blockSequence_accepts|by eapply flowCollection_accepts].
Qed.

(** The step ends, and has taken the lexeme. *)
Lemma step_accepts fuel : ∀ s, Inv s → (length (stack s) < fuel)%nat → ∃ s', step fuel s = Some s' ∧ accepted s s'.
Proof using Hx.
  induction fuel as [|fuel IH]; intros s HI Hl; [lia|]. cbn [step]. pose proof (turn_accepts s HI) as Ht.
  destruct (turn s) as [[s1|s1]|]; [by exists s1| |done]. destruct Ht as ((HI1 & HW1 & Hsm1) & Hl1 & Hne).
  cbn [mbind option_bind]. destruct (pop_none s1 HI1 Hne) as (s2 & -> & (HI2 & HW2 & Hsm2) & Hl2 & _). cbn [mbind option_bind].
  destruct (IH s2 HI2) as (s3 & -> & HI3 & HW3); [lia|]. exists s3. split; [done|]. split; [done|].
  destruct Hsm1 as (_ & Hs1 & _), Hsm2 as (_ & Hs2 & _). rewrite Hs2, Hs1 in HW3. lia.
Qed.

(** The state but for the lexeme. *)
Definition Ready (s : Parser) : Prop :=
  Forall wfToken (stack s) ∧ chain (stack s) ∧ (atScalar s = true → type s = scalar).

Lemma step_lexeme s t e : Ready s → (t = t_doc_mode ∨ t = t_flow_error_end → ¬ visible e) →
  ∃ s', step_ (setLine (atNewLine s) false (indent s) (setLexeme e t s)) = Some s' ∧ Inv s' ∧ W x s' = (W x s + cnt x [e])%nat.
Proof using Hx.
  intros (Hw & Hc & _) Hctl.
  destruct (step_accepts (S (length (stack s))) (setLine (atNewLine s) false (indent s) (setLexeme e t s))) as (s' & H & HI & HW);
    [by constructor|simpl; lia|]. exists s'. by rewrite <- H.
Qed.

Lemma tokenType_control l t : tokenType l = Some t → t = t_doc_mode ∨ t = t_flow_error_end ∨ t = scalar → ¬ visible (lexSource l).
Proof.
  intros H Ht Hv. apply Hv. destruct l as [l| | |]; cbn [lexSource]; try set_solver. cbn [tokenType] in H.
  repeat (case_bool_decide; [subst; destruct_or!; simplify_eq; set_solver|]). cbn [orb] in H.
  destruct (head l) as [c|]; [|done]. repeat case_match; destruct_or!; simplify_eq.
Qed.

Lemma inv_ready s : Inv s → Ready s.
Proof. by intros [H1 H2 [_ H3]]. Qed.

Lemma ready_inv s : Ready s → Inv (setLexeme [] (type s) s).
Proof. intros (Hw & Hc & Hsc). constructor; [done|done|]. split; [intros _ Hv; apply Hv; set_solver|done]. Qed.

Lemma afterStep_ready t e s : Inv s → Ready (afterStep t e s) ∧ W x (afterStep t e s) = W x s.
Proof. intros HI. pose proof (inv_ready s HI). unfold afterStep. destruct t; try done; by destruct (atNewLine s); try destruct (eqc _ _). Qed.

(** [pop] does not look at the lexeme. *)
Lemma pop_lexeme fuel a b : ∀ t s, pop fuel t (setLexeme a b s) = setLexeme a b <$> pop fuel t s.
Proof.
  induction fuel as [|fuel IH]; intros t s; [done|]. cbn [pop stack setLexeme onKeyLine offset].
  destruct (match t with Some t => (Some t, stack s) | None => _ end) as [[u|] [|p rest]]; try done.
  destruct (attach _ _ _) as [[[p' k]|]|]; [done|done|].
  change (setStack (p :: rest) (setLexeme a b s)) with (setLexeme a b (setStack (p :: rest) s)). rewrite IH.
  destruct (pop fuel None _) as [s1|]; [|done]. cbn. apply IH.
Qed.

(** Every lexeme is taken. *)
Lemma next_ok l s : Ready s → ∃ s', next l s = Some s' ∧ Ready s' ∧ W x s' = (W x s + cnt x [lexSource l])%nat.
Proof using Hx.
  intros HR. pose proof HR as (Hw & Hc & Hsc). unfold next. destruct (atScalar s) eqn:Ea.
  { destruct (step_lexeme s (type s) (lexSource l) HR) as (s' & -> & HI & HW); [rewrite Hsc by done; by intros [|]|].
    cbn [mbind option_bind]. eexists. split; [done|]. split; [exact (inv_ready _ HI)|exact HW]. }
  destruct (tokenType l) as [t|] eqn:Et.
  - pose proof (tokenType_control l t Et) as Hctl.
    destruct (step_lexeme s t (lexSource l) HR) as (s' & H & HI & HW); [intros [|]; auto|]. 
    assert (setLine (atNewLine s) false (indent s) (setLexeme (lexSource l) t s) = setLexeme (lexSource l) t s) as Heq.
    { destruct s. cbn in *. by subst. }
    assert (∃ s', (s0 ← step_ (setLexeme (lexSource l) t (setLexeme (lexSource l) (type s) s)); Some (afterStep t (lexSource l) s0)) = Some s' ∧
      Ready s' ∧ W x s' = (W x s + cnt x [lexSource l])%nat) as Hgo.
    { change (setLexeme (lexSource l) t (setLexeme (lexSource l) (type s) s)) with (setLexeme (lexSource l) t s).
      rewrite <- Heq, H. eexists. split; [done|]. destruct (afterStep_ready t (lexSource l) s' HI) as [? HW']. split; [done|lia]. }
    destruct t; try exact Hgo. eexists. split; [done|]. split; [by split_and!|].
    rewrite (cnt_hidden x Hx) by auto. unfold W. cbn [stack yields lost setLine setLexeme]. lia.
  - destruct (pop_given (setLexeme [] (type s) s) (Error (offset s) (runes "Not a YAML token: " ++ lexSource l) (lexSource l)))
      as (s' & H & HI & HW & _); [by apply ready_inv|done|].
    unfold pop_ in *. cbn [offset stack setLexeme] in *. rewrite pop_lexeme in H |- *.
    destruct (pop _ _ s) as [s1|]; [|done]. cbn in H |- *. simplify_eq. eexists. split; [done|].
    split; [exact (inv_ready _ HI)|]. exact HW.
Qed.

Lemma popAll_lexeme fuel a b : ∀ s, popAll fuel (setLexeme a b s) = setLexeme a b <$> popAll fuel s.
Proof.
  induction fuel as [|fuel IH]; intros s; cbn [popAll stack setLexeme]; [by destruct (stack s)|].
  destruct (stack s) eqn:E; [done|]. unfold pop_. cbn [stack setLexeme]. rewrite pop_lexeme. destruct (pop _ _ s); [|done]. cbn. apply IH.
Qed.

(** The parser ends on every sequence of lexemes. *)
Lemma parseLexemes_ok l : ∀ s, Ready s → ∃ s', parseLexemes l s = Some s' ∧ stack s' = [] ∧
  W x s' = (W x s + cnt x (lexSource <$> l))%nat.
Proof using Hx.
  induction l as [|y l IH]; intros s HR; cbn [parseLexemes].
  - destruct (popAll_done (length (stack s)) (setLexeme [] (type s) s)) as (s' & H & (_ & HW & _) & Hs); [by apply ready_inv|done|].
    rewrite popAll_lexeme in H. destruct (popAll _ s) as [s1|]; [|done]. cbn in H. simplify_eq. exists s1. split_and!; [done|done|exact HW].
  - destruct (next_ok y s HR) as (s1 & -> & HR1 & HW1). cbn [mbind option_bind]. destruct (IH s1 HR1) as (s2 & -> & Hs & HW2).
    exists s2. split_and!; [done|done|]. rewrite fmap_cons, cnt_cons. lia.
Qed.

End helpers.

Lemma initial_ready : Ready (addNewLines [0] Cst.initial).
Proof. split_and!; [constructor|done|done]. Qed.

Lemma count_filter (P : jstr → Prop) `{∀ y, Decision (P y)} l x :
  count_occ (decide_rel (=)) (filter P l) x = if decide (P x) then count_occ (decide_rel (=)) l x else 0%nat.
Proof.
  induction l as [|y l IH]; [by case_decide|]. rewrite filter_cons. destruct (decide (P y)) as [Hy|Hy].
  - cbn [count_occ]. destruct (decide_rel _ y x) as [->|]; rewrite IH; by repeat case_decide.
  - rewrite IH. case_decide as Hp; [|done]. cbn [count_occ]. by destruct (decide_rel _ y x) as [->|].
Qed.

(** C25: parsing ends on every text, without an exception and with every token closed, and
    each lexeme of the text is in exactly one place: in a token that is yielded, or among
    those that are dropped.  Only the codes that are no text and empty lexemes do not count. *)
Theorem parse_accounts src : ∃ l s, lexAll src = Some l ∧ parse src = Some s ∧ stack s = [] ∧
  filter visible (flat_map flat (yields s ++ lost s)) ≡ₚ filter visible (lexSource <$> l).
Proof.
  destruct (lexAll_ends src) as (l & Hl & _). exists l. unfold parse. rewrite Hl. cbn [mbind option_bind].
  destruct (parseLexemes_ok [1] ltac:(by vm_compute; set_solver) l _ initial_ready) as (s & Hp & Hs & _).
  exists s. split_and!; [done|done|done|]. apply (Permutation_count_occ (decide_rel (=))). intros x. rewrite !count_filter.
  case_decide as Hx; [|done]. destruct (parseLexemes_ok x Hx l _ initial_ready) as (s' & Hp' & _ & HW).
  rewrite Hp in Hp'. simplify_eq. unfold W in HW. rewrite Hs in HW. rewrite flat_map_app, count_occ_app. exact HW.
Qed.

(** ** What the parser loses *)

Definition LFs (l : list jstr) : jstr := l ≫= λ s, s ++ [LF].

(** a comment line after a key without a value is dropped when a new document follows it
    at once, with the line ends around it: the tokens are spliced off the separator of the
    key for an item that is never made. *)
Theorem comment_before_document_lost :
  ∃ s, parse (LFs [runes "a:"; []; runes "# c"; runes "---"; runes "b"]) = Some s ∧
  flat_map flat (lost s) = [[LF]; runes "# c"; [LF]] ∧ runes "# c" ∉ flat_map flat (yields s).
Proof. eexists. split_and!; [vm_compute; reflexivity|vm_compute; reflexivity|]. by apply (bool_decide_eq_true _); vm_compute. Qed.

(** a scalar of several lines that follows another is kept as a token of its end, and the
    lines that start in it are not counted: every later line has too small a number. *)
Theorem line_start_missed :
  ∃ s, parse (LFs [runes "'a' 'b"; runes "c'"; runes "x"]) = Some s ∧
  newLines s = [0; 10; 12] ∧ LineCounter.lineStarts (LFs [runes "'a' 'b"; runes "c'"; runes "x"]) = [0; 7; 10; 12].
Proof. eexists. split_and!; [vm_compute; reflexivity|vm_compute; reflexivity|vm_compute; reflexivity]. Qed.
