(* ===== verification/YamlTags.v ===== *)
(** * Tags and directives of the YAML reader

    The schemas of the yaml library bundled in
    [internal/ui/assets/assets/index-DHyr8oiy.js] with their tags, each with its
    regular expression and the value it gives a scalar ([jWt] to [VWt], [eGt] to [vGt],
    [HWt], [yGt], [SGt], [TGt]), and the directives of a document ([MUt]).

    Numbers are an interface: the values of [parseInt] and [parseFloat] are doubles.
    A date is its text; the merge symbol is a value of its own. *)

From Stdlib Require Import ZArith Lia.
From stdpp Require Import base numbers strings gmap option list.
From S2P Require Import Prelude Js YamlLexer YamlScalars.

Open Scope Z_scope.

(** ** Regular expressions, matched by derivatives *)
Module Regex.

Inductive re :=
  | Nothing
  | Eps
  | Chr (p : Z → bool)
  | Seq (a b : re)
  | Alt (a b : re)
  | Star (a : re).

Fixpoint nullable (r : re) : bool :=
  match r with
  | Nothing | Chr _ => false
  | Eps | Star _ => true
  | Seq a b => nullable a && nullable b
  | Alt a b => nullable a || nullable b
  end.

Fixpoint deriv (c : Z) (r : re) : re :=
  match r with
  | Nothing | Eps => Nothing
  | Chr p => if p c then Eps else Nothing
  | Seq a b => if nullable a then Alt (Seq (deriv c a) b) (deriv c b) else Seq (deriv c a) b
  | Alt a b => Alt (deriv c a) (deriv c b)
  | Star a => Seq (deriv c a) (Star a)
  end.

(** [/^r$/.test(s)] *)
Fixpoint matches (r : re) (s : jstr) : bool :=
  match s with [] => nullable r | c :: s => matches (deriv c r) s end.

(** What it means that a text is in the language of an expression. *)
Inductive lang : re → jstr → Prop :=
  | lang_eps : lang Eps []
  | lang_chr (p : Z → bool) c : p c = true → lang (Chr p) [c]
  | lang_seq a b s t : lang a s → lang b t → lang (Seq a b) (s ++ t)
  | lang_left a b s : lang a s → lang (Alt a b) s
  | lang_right a b s : lang b s → lang (Alt a b) s
  | lang_done a : lang (Star a) []
  | lang_more a s t : s ≠ [] → lang a s → lang (Star a) t → lang (Star a) (s ++ t).

Lemma nullable_lang r : nullable r = true ↔ lang r [].
Proof.
  split.
  - induction r as [| | |a IHa b IHb|a IHa b IHb|a IHa]; simpl; intros H; try done.
    + constructor.
    + apply andb_prop in H as [? ?]. apply (lang_seq _ _ [] []); auto.
    + apply orb_prop in H as [?|?]; [apply lang_left|apply lang_right]; auto.
    + constructor.
  - intros H. remember [] as s eqn:E. induction H as [| |a b s t _ IHa _ IHb|a b s _ IH|a b s _ IH| |]; simpl; try done.
    + apply app_eq_nil in E as [-> ->]. by rewrite IHa, IHb.
    + by rewrite IH.
    + rewrite IH by done. by rewrite orb_true_r.
Qed.

Lemma deriv_lang c r s : lang (deriv c r) s ↔ lang r (c :: s).
Proof.
  split.
  - revert s. induction r as [| |p|a IHa b IHb|a IHa b IHb|a IHa]; simpl; intros s H; try (by inversion H).
    + destruct (p c) eqn:E; [|by inversion H]. inversion H; subst. by constructor.
    + assert (∀ s, lang (Seq (deriv c a) b) s → lang (Seq a b) (c :: s)) as Hs.
      { intros u Hu. inversion Hu as [| |? ? s1 s2 H1 H2| | | |]; subst. apply (lang_seq _ _ (c :: s1)); auto. }
      destruct (nullable a) eqn:E; [|by apply Hs].
      inversion H as [| | |? ? ? H1|? ? ? H1| |]; subst; [by apply Hs|].
      apply (lang_seq a b []); [by apply nullable_lang|auto].
    + inversion H; subst; [apply lang_left|apply lang_right]; auto.
    + inversion H as [| |? ? s1 s2 H1 H2| | | |]; subst. apply (lang_more a (c :: s1)); auto.
  - intros H. remember (c :: s) as u eqn:E. revert s E.
    induction H as [|p d Hp|a b s t Ha IHa Hb IHb|a b s _ IH|a b s _ IH| |a s t Hne Ha IHa Hb _]; intros u E; simplify_eq/=.
    + rewrite Hp. constructor.
    + destruct s as [|d s]; simplify_eq/=.
      * rewrite (proj2 (nullable_lang a) Ha). apply lang_right. auto.
      * assert (lang (Seq (deriv c a) b) (s ++ t)) by (constructor; auto).
        destruct (nullable a); [by apply lang_left|done].
    + apply lang_left. auto.
    + apply lang_right. auto.
    + destruct s as [|d s]; simplify_eq/=. constructor; auto.
Qed.

(** The test decides the language. *)
Lemma matches_lang r s : matches r s = true ↔ lang r s.
Proof.
  revert r. induction s as [|c s IH]; intros r; simpl; [apply nullable_lang|]. by rewrite IH, deriv_lang.
Qed.

(** ** Notation of expressions *)

Definition lit (s : string) : re := foldr (λ c r, Seq (Chr (Z.eqb c)) r) Eps (runes s).
Definition oneOf (s : string) : re := Chr (λ c, existsb (Z.eqb c) (runes s)).
Definition opt (r : re) : re := Alt r Eps.
Definition plus (r : re) : re := Seq r (Star r).
Definition seqs (l : list re) : re := foldr Seq Eps l.
Definition alts (l : list re) : re := foldr Alt Nothing l.
Definition range (a b : Z) : re := Chr (λ c, (a <=? c) && (c <=? b)).
Definition digit : re := range 48 57.
Definition sign : re := opt (oneOf "-+").
Definition times (n : nat) (r : re) : re := seqs (replicate n r).
(** [r{1,2}] *)
Definition oneOrTwo (r : re) : re := Seq r (opt r).

End Regex.

Module Tags.
Import Yaml Regex.

(** ** Values *)

(** The numbers of the language: what the resolvers use of them. *)
Class JsNumber (num : Type) := {
  parseInt : jstr → Z → num;
  parseFloat : jstr → num;
  toNumber : jstr → num;
  num_of_Z : Z → num;
  num_mul : num → num → num;
  num_add : num → num → num;
  num_inf : num;
  num_ninf : num;
  num_nan : num;
  (** [===] *)
  num_is : num → num → bool;
  (** the equality of [includes] *)
  num_same : num → num → bool;
}.

Section tags.
Context {num : Type} `{JsNumber num}.

Inductive value :=
  | VNull
  | VBool (b : bool)
  | VStr (s : jstr)
  | VNum (n : num)
  | VMerge
  | VBinary (bytes : list Z)
  | VDate (text : jstr).

(** [a === b]; a symbol, an array and a date are only themselves, and each resolution makes
    a new one. *)
Definition valueIs (a b : value) : bool :=
  match a, b with
  | VNull, VNull => true
  | VBool x, VBool y => eqb x y
  | VStr x, VStr y => bool_decide (x = y)
  | VNum x, VNum y => num_is x y
  | _, _ => false
  end.

(** [[a].includes(b)] *)
Definition valueSame (a b : value) : bool :=
  match a, b with VNum x, VNum y => num_same x y | _, _ => valueIs a b end.

(** ** Resolvers of scalars *)

(** The value, and [minFractionDigits] where it is set. *)
Definition resolved : Type := value * option Z.

Definition just (v : value) : resolved := (v, None).

Definition dropUnderscores (s : jstr) : jstr := filter (λ c, c ≠ ch "_") s.

Definition isSign (c : Z) : bool := (c =? ch "-") || (c =? ch "+").

(** [LWt] without big integers *)
Definition intResolve (t radix : Z) (e : jstr) : resolved := just (VNum (parseInt (drop (Z.to_nat t) e) radix)).

(** [oGt] without big integers *)
Definition intResolve11 (t radix : Z) (e : jstr) : resolved :=
  let t := match head e with Some c => if isSign c then t + 1 else t | None => t end in
  let a := parseInt (dropUnderscores (drop (Z.to_nat t) e)) radix in
  just (VNum (if eqc (head e) (ch "-") then num_mul (num_of_Z (-1)) a else a)).

(** [mGt] without big integers *)
Definition sexagesimal (e : jstr) : num :=
  let r := match e with c :: r => if isSign c then r else e | [] => e end in
  let a := foldl (λ e t, num_add (num_mul e (num_of_Z 60)) (toNumber t)) (num_of_Z 0) (split (ch ":") (dropUnderscores r)) in
  if eqc (head e) (ch "-") then num_mul (num_of_Z (-1)) a else a.

Definition timeResolve (e : jstr) : resolved := just (VNum (sexagesimal e)).

Definition boolResolve (e : jstr) : resolved := just (VBool (eqc (head e) (ch "t") || eqc (head e) (ch "T"))).

(** [e.slice(-3)] *)
Definition lastThree (e : jstr) : jstr := drop (length e - 3) e.

Definition nanResolve (e : jstr) : resolved :=
  just (VNum (if bool_decide (toLowerCase (lastThree e) = runes "nan") then num_nan
              else if eqc (head e) (ch "-") then num_ninf else num_inf)).

Definition expResolve (e : jstr) : resolved := just (VNum (parseFloat e)).
Definition expResolve11 (e : jstr) : resolved := just (VNum (parseFloat (dropUnderscores e))).

(** The part after the first point. *)
Fixpoint afterPoint (e : jstr) : option jstr :=
  match e with [] => None | c :: r => if c =? ch "." then Some r else afterPoint r end.

Definition floatResolve (e : jstr) : resolved :=
  (VNum (parseFloat e),
   match afterPoint e with Some r => if eqc (last e) (ch "0") then Some (len r) else None | None => None end).

Definition floatResolve11 (e : jstr) : resolved :=
  (VNum (parseFloat (dropUnderscores e)),
   match dropUnderscores <$> afterPoint e with Some r => if eqc (last r) (ch "0") then Some (len r) else None | None => None end).

(** [atob]: white space is dropped, up to two marks are dropped at the end of a text of
    whole groups, and one character may not be left over. *)
Definition base64Value (c : Z) : option Z :=
  if (65 <=? c) && (c <=? 90) then Some (c - 65)
  else if (97 <=? c) && (c <=? 122) then Some (c - 71)
  else if (48 <=? c) && (c <=? 57) then Some (c + 4)
  else if c =? ch "+" then Some 62 else if c =? ch "/" then Some 63 else None.

Fixpoint base64Groups (l : list Z) : option (list Z) :=
  match l with
  | [] => Some []
  | [_] => None
  | [a; b] => Some [a * 4 + b / 16]
  | [a; b; c] => Some [a * 4 + b / 16; (b mod 16) * 16 + c / 4]
  | a :: b :: c :: d :: l =>
    (λ r, a * 4 + b / 16 :: (b mod 16) * 16 + c / 4 :: (c mod 4) * 64 + d :: r) <$> base64Groups l
  end.

Definition dropMark (s : jstr) : jstr := if eqc (last s) (ch "=") then removelast s else s.

Definition atob (s : jstr) : option (list Z) :=
  let s := filter (λ c, ¬ (c ∈ [9; 10; 12; 13; 32])) s in
  let s := if (len s mod 4) =? 0 then dropMark (dropMark s) else s in
  l ← mapM base64Value s; base64Groups l.

Definition binaryResolve (e : jstr) : exn + resolved :=
  match atob (filter (λ c, ¬ (c ∈ [LF; CR])) e) with
  | Some b => inr (just (VBinary b))
  | None => throw (runes "InvalidCharacterError")
  end.

(** ** Tests *)

Definition any (l : list string) : re := alts (map lit l).

Definition nullTest : re := opt (alts [lit "~"; Seq (oneOf "Nn") (lit "ull"); lit "NULL"]).
Definition boolTest : re := alts [Seq (oneOf "Tt") (lit "rue"); lit "TRUE"; Seq (oneOf "Ff") (lit "alse"); lit "FALSE"].
Definition octTest : re := Seq (lit "0o") (plus (range 48 55)).
Definition intTest : re := Seq sign (plus digit).
Definition hexDigit : re := alts [digit; range 97 102; range 65 70].
Definition hexTest : re := Seq (lit "0x") (plus hexDigit).
Definition nanTest : re := Alt (seqs [sign; lit "."; any ["inf"; "Inf"; "INF"]]) (any [".nan"; ".NaN"; ".NAN"]).
Definition exponent : re := seqs [oneOf "eE"; sign; plus digit].
Definition expTest : re :=
  seqs [sign; Alt (Seq (lit ".") (plus digit)) (Seq (plus digit) (opt (Seq (lit ".") (Star digit)))); exponent].
Definition floatTest : re := Seq sign (Alt (Seq (lit ".") (plus digit)) (seqs [plus digit; lit "."; Star digit])).

Definition under (d : re) : re := Alt d (lit "_").
Definition digits_ : re := Seq digit (Star (under digit)).
Definition trueTest11 : re :=
  alts [lit "Y"; lit "y"; Seq (oneOf "Yy") (lit "es"); lit "YES"; Seq (oneOf "Tt") (lit "rue"); lit "TRUE"; Seq (oneOf "Oo") (lit "n"); lit "ON"].
Definition falseTest11 : re :=
  alts [lit "N"; lit "n"; Seq (oneOf "Nn") (lit "o"); lit "NO"; Seq (oneOf "Ff") (lit "alse"); lit "FALSE"; Seq (oneOf "Oo") (lit "ff"); lit "OFF"].
Definition binTest11 : re := seqs [sign; lit "0b"; plus (under (range 48 49))].
Definition octTest11 : re := seqs [sign; lit "0"; plus (under (range 48 55))].
Definition intTest11 : re := Seq sign digits_.
Definition hexTest11 : re := seqs [sign; lit "0x"; plus (under hexDigit)].
Definition expTest11 : re := seqs [sign; opt digits_; opt (Seq (lit ".") (Star (under digit))); exponent].
Definition floatTest11 : re := seqs [sign; opt digits_; lit "."; Star (under digit)].
Definition sixty : re := plus (seqs [lit ":"; opt (range 48 53); digit]).
Definition intTimeTest : re := seqs [sign; digits_; sixty].
Definition floatTimeTest : re := seqs [sign; digits_; sixty; lit "."; Star (under digit)].
Definition blank : re := Chr isBlank.
Definition timestampTest : re :=
  seqs [times 4 digit; lit "-"; oneOrTwo digit; lit "-"; oneOrTwo digit;
    opt (seqs [alts [lit "t"; lit "T"; plus blank]; oneOrTwo digit; lit ":"; oneOrTwo digit; lit ":"; oneOrTwo digit;
      opt (Seq (lit ".") (plus digit));
      opt (seqs [Star blank; Alt (lit "Z") (seqs [oneOf "-+"; opt (oneOf "012"); digit; opt (seqs [lit ":"; digit; digit])])])])].

Definition timestampResolve (e : jstr) : exn + resolved :=
  if matches timestampTest e then inr (just (VDate e))
  else throw (runes "!!timestamp expects a date, starting with yyyy-mm-dd").

(** ** Schemas *)

Inductive collection := CMap | CSeq.

(** What [resolve] of a tag does. *)
Inductive action :=
  | AMap
  | ASeq
  | AScalar (f : jstr → exn + resolved)
  | AOmap
  | APairs
  | ASet.

(** [default] is true, false or the word key. *)
Inductive dflt := DYes | DNo | DKey.

Record tag := {
  tname : jstr;
  tcollection : option collection;
  tdefault : dflt;
  tformat : option jstr;
  ttest : option re;
  taction : action;
}.

Definition yamlTag (s : string) : jstr := runes "tag:yaml.org,2002:" ++ runes s.

Definition scalarTag (n : string) (fmt : option string) (t : re) (f : jstr → resolved) : tag :=
  {| tname := yamlTag n; tcollection := None; tdefault := DYes; tformat := runes <$> fmt; ttest := Some t;
     taction := AScalar (λ e, inr (f e)) |}.

Definition mapTag : tag := {| tname := yamlTag "map"; tcollection := Some CMap; tdefault := DYes; tformat := None; ttest := None; taction := AMap |}.
Definition seqTag : tag := {| tname := yamlTag "seq"; tcollection := Some CSeq; tdefault := DYes; tformat := None; ttest := None; taction := ASeq |}.
Definition strTag : tag :=
  {| tname := yamlTag "str"; tcollection := None; tdefault := DYes; tformat := None; ttest := None; taction := AScalar (λ e, inr (just (VStr e))) |}.
Definition nullTag : tag := scalarTag "null" None nullTest (λ _, just VNull).
Definition binaryTag : tag :=
  {| tname := yamlTag "binary"; tcollection := None; tdefault := DNo; tformat := None; ttest := None; taction := AScalar binaryResolve |}.
Definition mergeTag : tag :=
  {| tname := yamlTag "merge"; tcollection := None; tdefault := DKey; tformat := None; ttest := Some (lit "<<");
     taction := AScalar (λ _, inr (just VMerge)) |}.
Definition omapTag : tag := {| tname := yamlTag "omap"; tcollection := Some CSeq; tdefault := DNo; tformat := None; ttest := None; taction := AOmap |}.
Definition pairsTag : tag := {| tname := yamlTag "pairs"; tcollection := Some CSeq; tdefault := DNo; tformat := None; ttest := None; taction := APairs |}.
Definition setTag : tag := {| tname := yamlTag "set"; tcollection := Some CMap; tdefault := DNo; tformat := None; ttest := None; taction := ASet |}.
Definition timestampTag : tag :=
  {| tname := yamlTag "timestamp"; tcollection := None; tdefault := DYes; tformat := None; ttest := Some timestampTest;
     taction := AScalar timestampResolve |}.

(** [HWt] *)
Definition coreTags : list tag := [
  mapTag; seqTag; strTag; nullTag; scalarTag "bool" None boolTest boolResolve;
  scalarTag "int" (Some "OCT") octTest (intResolve 2 8); scalarTag "int" None intTest (intResolve 0 10);
  scalarTag "int" (Some "HEX") hexTest (intResolve 2 16); scalarTag "float" None nanTest nanResolve;
  scalarTag "float" (Some "EXP") expTest expResolve; scalarTag "float" None floatTest floatResolve].

(** [yGt] *)
Definition yaml11Tags : list tag := [
  mapTag; seqTag; strTag; nullTag; scalarTag "bool" None trueTest11 (λ _, just (VBool true));
  scalarTag "bool" None falseTest11 (λ _, just (VBool false)); scalarTag "int" (Some "BIN") binTest11 (intResolve11 2 2);
  scalarTag "int" (Some "OCT") octTest11 (intResolve11 1 8); scalarTag "int" None intTest11 (intResolve11 0 10);
  scalarTag "int" (Some "HEX") hexTest11 (intResolve11 2 16); scalarTag "float" None nanTest nanResolve;
  scalarTag "float" (Some "EXP") expTest11 expResolve11; scalarTag "float" None floatTest11 floatResolve11;
  binaryTag; mergeTag; omapTag; pairsTag; setTag; scalarTag "int" (Some "TIME") intTimeTest timeResolve;
  scalarTag "float" (Some "TIME") floatTimeTest timeResolve; timestampTag].

(** The members every object inherits. *)
Definition protoMembers : list jstr := map runes [
  "constructor"; "__proto__"; "toString"; "valueOf"; "hasOwnProperty"; "isPrototypeOf"; "propertyIsEnumerable";
  "toLocaleString"; "__defineGetter__"; "__defineSetter__"; "__lookupGetter__"; "__lookupSetter__"].

(** [schema.knownTags[n]]: a tag, an inherited member that is no tag, or nothing. *)
Inductive known := Known (t : tag) | Inherited | Unknown.

Definition knownTag (resolveKnown : bool) (n : jstr) : known :=
  match (if resolveKnown then find (λ t, bool_decide (tname t = n)) [binaryTag; mergeTag; omapTag; pairsTag; setTag; timestampTag] else None) with
  | Some t => Known t
  | None => if bool_decide (n ∈ protoMembers) then Inherited else Unknown
  end.

End tags.

Arguments value : clear implicits.
Arguments resolved : clear implicits.
Arguments action : clear implicits.
Arguments tag : clear implicits.
Arguments known : clear implicits.

End Tags.

(** ** Directives *)
Module Directives.
Import Yaml Scalars.

Inductive version := V11 | V12.

(** The fields of [MUt]; [tags] has the order of its insertions. *)
Record Directives := {
  docStart : bool;
  docEnd : bool;
  explicit : bool;
  yamlVersion : version;
  tags : list (jstr * jstr);
  atNextDocument : bool;
}.

Definition defaultTags : list (jstr * jstr) := [(runes "!!", runes "tag:yaml.org,2002:")].

(** [new MUt({version: "1.2"})] *)
Definition new : Directives :=
  {| docStart := false; docEnd := false; explicit := false; yamlVersion := V12; tags := defaultTags; atNextDocument := false |}.

Definition setYaml (e : bool) (v : version) (t : list (jstr * jstr)) (next : bool) (d : Directives) : Directives :=
  {| docStart := docStart d; docEnd := docEnd d; explicit := e; yamlVersion := v; tags := t; atNextDocument := next |}.

Definition setDocStart (d : Directives) : Directives :=
  {| docStart := true; docEnd := docEnd d; explicit := explicit d; yamlVersion := yamlVersion d; tags := tags d;
     atNextDocument := atNextDocument d |}.

Definition setDocEnd (d : Directives) : Directives :=
  {| docStart := docStart d; docEnd := true; explicit := explicit d; yamlVersion := yamlVersion d; tags := tags d;
     atNextDocument := atNextDocument d |}.

Definition assoc (k : jstr) (l : list (jstr * jstr)) : option jstr := snd <$> find (λ x, bool_decide (fst x = k)) l.

Fixpoint assign (k v : jstr) (l : list (jstr * jstr)) : list (jstr * jstr) :=
  match l with
  | [] => [(k, v)]
  | (k', v') :: l => if bool_decide (k' = k) then (k, v) :: l else (k', v') :: assign k v l
  end.

(** [atDocument]: the directives of the document, with the default handle when there is no
    other, and those after it. *)
Definition atDocument (d : Directives) : Directives * Directives :=
  let doc := {| docStart := false; docEnd := false; explicit := explicit d; yamlVersion := yamlVersion d;
    tags := foldl (λ l x, assign (fst x) (snd x) l) defaultTags (tags d); atNextDocument := false |} in
  (doc, match yamlVersion d with
        | V11 => setYaml (explicit d) (yamlVersion d) (tags d) true d
        | V12 => setYaml false V12 defaultTags false d
        end).

(** [s.split(/[ \t]+/)] *)
Fixpoint splitBlanks (s : jstr) : list jstr :=
  match s with
  | [] => [[]]
  | c :: r =>
    if isBlank c then (if match r with d :: _ => isBlank d | [] => false end then splitBlanks r else [] :: splitBlanks r)
    else match splitBlanks r with w :: l => (c :: w) :: l | [] => [[c]] end
  end.

Definition isDigit (c : Z) : bool := (48 <=? c) && (c <=? 57).

(** [/^\d+\.\d+$/] *)
Definition versionLike (s : jstr) : bool :=
  match Js.split (ch ".") s with
  | [a; b] => negb (bool_decide (a = [])) && forallb isDigit a && negb (bool_decide (b = [])) && forallb isDigit b
  | _ => false
  end.

(** [add]: the errors have an offset in the directive and may be warnings. *)
Definition add (t : jstr) (d : Directives) : Directives * list (Z * bool) :=
  let d := if atNextDocument d then setYaml false V11 defaultTags false d else d in
  match splitBlanks (trim t) with
  | name :: r =>
    if bool_decide (name = runes "%TAG") then
      match r with
      | [h; p] => (setYaml (explicit d) (yamlVersion d) (assign h p (tags d)) (atNextDocument d) d, [])
      | h :: p :: _ => (setYaml (explicit d) (yamlVersion d) (assign h p (tags d)) (atNextDocument d) d, [(0, false)])
      | _ => (d, [(0, false)])
      end
    else if bool_decide (name = runes "%YAML") then
      let d := setYaml true (yamlVersion d) (tags d) (atNextDocument d) d in
      match r with
      | [v] =>
        if bool_decide (v = runes "1.1") then (setYaml true V11 (tags d) (atNextDocument d) d, [])
        else if bool_decide (v = runes "1.2") then (setYaml true V12 (tags d) (atNextDocument d) d, [])
        else (d, [(6, versionLike v)])
      | _ => (d, [(0, false)])
      end
    else (d, [(0, true)])
  | [] => (d, [(0, true)])
  end.

(** ** Tag names *)

(** The number of bytes of the character that starts with the byte, its first bits and the
    least code point of that length. *)
Definition utf8Head (b : Z) : option (nat * Z * Z) :=
  if b <? 192 then None
  else if b <? 224 then Some (1%nat, b - 192, 128)
  else if b <? 240 then Some (2%nat, b - 224, 2048)
  else if b <? 248 then Some (3%nat, b - 240, 65536)
  else None.

(** [%XX] at the start: the byte and the rest. *)
Definition percentByte (s : jstr) : option (Z * jstr) :=
  match s with
  | p :: a :: b :: r => if p =? ch "%" then x ← hexValue a; y ← hexValue b; Some (16 * x + y, r) else None
  | _ => None
  end.

(** The [n] bytes that continue a character. *)
Fixpoint continued (n : nat) (v : Z) (s : jstr) : option (Z * jstr) :=
  match n with
  | O => Some (v, s)
  | S n => '(b, r) ← percentByte s; if (128 <=? b) && (b <? 192) then continued n (v * 64 + (b - 128)) r else None
  end.

(** [decodeURIComponent]; [None] is its exception. *)
Fixpoint decodeLoop (fuel : nat) (s : jstr) : option jstr :=
  match fuel, s with
  | _, [] => Some []
  | O, _ => None
  | S fuel, c :: r =>
    if c =? ch "%" then
      '(b, r) ← percentByte s;
      if b <? 128 then (λ t, b :: t) <$> decodeLoop fuel r
      else
        '(n, v, least) ← utf8Head b; '(v, r) ← continued n v r;
        if (v <? least) || (1114111 <? v) || ((55296 <=? v) && (v <=? 57343)) then None
        else match fromCodePoint v with inr t => app t <$> decodeLoop fuel r | inl _ => None end
    else (λ t, c :: t) <$> decodeLoop fuel r
  end.

Definition decodeURIComponent (s : jstr) : option jstr := decodeLoop (length s) s.

(** The match of a text that starts with the mark: the part up to the last mark, and the
    rest. *)
Fixpoint lastBang (s : jstr) : option (jstr * jstr) :=
  match s with
  | [] => None
  | c :: r =>
    match lastBang r with
    | Some (h, t) => Some (c :: h, t)
    | None => if c =? ch "!" then Some ([c], r) else None
    end
  end.

(** [tagName]: the name, [None] for null, and how many errors are reported. *)
Definition tagName (d : Directives) (e : jstr) : option jstr * nat :=
  if bool_decide (e = runes "!") then (Some e, 0%nat)
  else if negb (eqc (head e) (ch "!")) then (None, 1%nat)
  else if eqc (at_ e 1) (ch "<") then
    let n := removelast (drop 2 e) in
    if bool_decide (n = runes "!") || bool_decide (n = runes "!!") then (None, 1%nat)
    else (Some n, if eqc (last e) (ch ">") then 0%nat else 1%nat)
  else
    match lastBang e with
    | None => (None, 1%nat)
    | Some (h, r) =>
      let k := if bool_decide (r = []) then 1%nat else 0%nat in
      match assoc h (tags d) with
      | Some (c :: p) => match decodeURIComponent r with Some r => (Some (c :: p ++ r), k) | None => (None, S k) end
      | _ => if bool_decide (h = runes "!") then (Some e, k) else (None, S k)
      end
    end.

End Directives.
