(* ===== verification/YamlCompose.v ===== *)
(** * The YAML composer of the web UI

    The composer of the yaml library bundled in
    [internal/ui/assets/assets/index-DHyr8oiy.js]: the functions that make nodes out of
    the tokens of YamlParser.v ([NGt] to [WGt], [GGt], [rKt] to [uKt]), documents out of
    those ([dKt]), and the class [mKt] with the reader [FKt] on top of it, as they run
    with the default options (no source tokens are kept and there is no second schema to
    compare with).

    An error is its position, its code and whether it is a warning; the words of its
    message are left out.  The code works on a context it changes (the flags [atKey] and
    [atRoot], the tags of the schema) and reports errors through a callback: a state with
    exceptions, where what is reported before an exception stays. *)

From Stdlib Require Import ZArith Lia.
From stdpp Require Import base numbers strings gmap option list.
From S2P Require Import Prelude Js YamlLexer YamlScalars YamlBlock YamlPrint YamlParser YamlTags.

Open Scope Z_scope.

Module Compose.
Import Yaml Tags Cst.
Close Scope lexer_scope.

(** ** Errors *)

Inductive code :=
  | ALIAS_PROPS | BAD_ALIAS | BAD_COLLECTION_TYPE | BAD_DIRECTIVE | BAD_DQ_ESCAPE | BAD_INDENT | BAD_PROP_ORDER
  | BAD_SCALAR_START | BLOCK_AS_IMPLICIT_KEY | BLOCK_IN_FLOW | DUPLICATE_KEY | IMPOSSIBLE | KEY_OVER_1024_CHARS
  | MISSING_CHAR | MULTILINE_IMPLICIT_KEY | MULTIPLE_ANCHORS | MULTIPLE_DOCS | MULTIPLE_TAGS | NON_STRING_KEY
  | RESOURCE_EXHAUSTION | TAB_AS_INDENT | TAG_RESOLVE_FAILED | UNEXPECTED_TOKEN.

Record diag := { dpos : Z; dcode : code; dwarn : bool }.

Definition err (p : Z) (c : code) : diag := {| dpos := p; dcode := c; dwarn := false |}.
Definition warn (p : Z) (c : code) : diag := {| dpos := p; dcode := c; dwarn := true |}.

#[global] Instance SourceToken_eq : EqDecision SourceToken.
Proof. solve_decision. Defined.

Definition report (b : bool) (p : Z) (c : code) : list diag := if b then [err p c] else [].

(** ** Tokens *)

(** The offset of a token of any kind ([fKt] takes the start of the position from it). *)
Definition tokOffset (t : token) : Z :=
  match t with
  | Source t => toffset t
  | Directive o _ | Error o _ _ | Document o _ _ _ | DocEnd o _ _ | FlowScalar _ o _ _ _ | BlockScalar o _ _ _
  | BlockMap o _ _ | BlockSeq o _ _ | FlowCollection o _ _ _ _ => o
  end.

Definition tokSource (t : token) : option jstr :=
  match t with
  | Source t => Some (source t)
  | Directive _ s | Error _ _ s | DocEnd _ s _ | FlowScalar _ _ _ s _ | BlockScalar _ _ _ s => Some s
  | _ => None
  end.

(** The type of a lexeme or flow scalar. *)
Definition tokTy (t : token) : option TokenType :=
  match t with Source t => Some (ty t) | FlowScalar y _ _ _ _ => Some y | DocEnd _ _ _ => Some doc_end | _ => None end.

(** [t.indent] where [t] has one. *)
Definition tokIndent (t : token) : option Z :=
  match t with
  | Source t => Some (tindent t)
  | FlowScalar _ _ i _ _ | BlockScalar _ i _ _ | BlockMap _ i _ | BlockSeq _ i _ | FlowCollection _ i _ _ _ => Some i
  | _ => None
  end.

(** [HGt] *)
Definition isBlockColl (t : option token) : bool :=
  match t with Some (BlockMap _ _ _) | Some (BlockSeq _ _ _) => true | _ => false end.

Definition hasTy (y : TokenType) (l : list SourceToken) : bool := existsb (λ x, bool_decide (ty x = y)) l.

(** [PGt] *)
Fixpoint containsNewline (t : token) : bool :=
  match t with
  | FlowScalar y _ _ s e =>
    match y with
    | alias | scalar | double_quoted_scalar | single_quoted_scalar =>
      existsb (Z.eqb LF) s || hasTy newline (default [] e)
    | _ => true
    end
  | FlowCollection _ _ _ items _ => existsb itemNewline items
  | _ => true
  end
with itemNewline (i : item) : bool :=
  let 'Item s k p v _ := i in
  hasTy newline s || hasTy newline (default [] p)
  || match k with Some k => containsNewline k | None => false end
  || match v with Some v => containsNewline v | None => false end.

Definition optNewline (t : option token) : bool := match t with Some t => containsNewline t | None => false end.

(** ** Props *)

(** What [NGt] returns. *)
Record Props := {
  comma_ : option SourceToken;
  found : option SourceToken;
  spaceBefore : bool;
  pcomment : jstr;
  hasNewline : bool;
  panchor : option SourceToken;
  ptag : option SourceToken;
  newlineAfterProp : option SourceToken;
  pend : Z;
  pstart : Z;
}.

(** The variables of its loop, by their names in the code ([t] is the tag). *)
Record Loop := {
  vc : bool; vl : bool; vu : bool; vd : jstr; vf : jstr; vp : bool; vm : bool;
  vh : option SourceToken; vg : option SourceToken; vt : option SourceToken; vv : option SourceToken;
  vy : option SourceToken; vb : option SourceToken; vx : option Z; ves : list diag;
}.

Definition isSpaceNlComma (t : TokenType) : bool := match t with space | newline | comma => true | _ => false end.
Definition isCommentNl (t : TokenType) : bool := match t with comment | newline => true | _ => false end.

(** [s.substring(1) || " "] *)
Definition commentText (s : jstr) : jstr := match drop 1 s with [] => [SP] | t => t end.

(** [d ? d += f + e : d = e] *)
Definition addText (d f e : jstr) : jstr := match d with [] => e | _ => d ++ f ++ e end.

(** The errors of the token before [i] that depend on [i]. *)
Definition beforeToken (v : Loop) (i : SourceToken) : list diag :=
  report (vm v && negb (isSpaceNlComma (ty i))) (toffset i) MISSING_CHAR
  ++ match vh v with Some h => report (vl v && negb (isCommentNl (ty i))) (toffset h) TAB_AS_INDENT | None => [] end.

(** One token; [tabs] is whether a tab may be bad indentation.  The indicator [n] is none of
    the kinds of the other cases. *)
Definition propsTurn (flow tabs : bool) (n : TokenType) (v : Loop) (i : SourceToken) : Loop :=
  let es := ves v ++ beforeToken v i in
  let other :=
    {| vc := vc v; vl := false; vu := false; vd := vd v; vf := vf v; vp := vp v; vm := false; vh := None; vg := vg v;
       vt := vt v; vv := vv v; vy := vy v; vb := vb v; vx := vx v; ves := es ++ [err (toffset i) UNEXPECTED_TOKEN] |} in
  if bool_decide (ty i = n) then
    {| vc := vc v; vl := match n with seq_item_ind | explicit_key_ind => true | _ => false end; vu := false; vd := vd v;
       vf := vf v; vp := vp v; vm := false; vh := None; vg := vg v; vt := vt v; vv := vv v; vy := vy v; vb := Some i; vx := vx v;
       ves := es ++ report (isSome (vg v) || isSome (vt v)) (toffset i) BAD_PROP_ORDER
              ++ report (isSome (vb v)) (toffset i) UNEXPECTED_TOKEN |}
  else
    match ty i with
    | space =>
      {| vc := vc v; vl := vl v; vu := true; vd := vd v; vf := vf v; vp := vp v; vm := false;
         vh := if tabs && existsb (Z.eqb TAB) (source i) then Some i else None; vg := vg v; vt := vt v; vv := vv v; vy := vy v;
         vb := vb v; vx := vx v; ves := es |}
    | comment =>
      {| vc := vc v; vl := false; vu := vu v; vd := addText (vd v) (vf v) (commentText (source i)); vf := []; vp := vp v;
         vm := false; vh := None; vg := vg v; vt := vt v; vv := vv v; vy := vy v; vb := vb v; vx := vx v;
         ves := es ++ report (negb (vu v)) (toffset i) MISSING_CHAR |}
    | newline =>
      {| vc := if vl v && bool_decide (vd v = []) && (negb (isSome (vb v)) || negb (bool_decide (n = seq_item_ind))) then true else vc v;
         vl := true; vu := true;
         vd := if vl v && negb (bool_decide (vd v = [])) then vd v ++ source i else vd v;
         vf := if vl v then vf v else vf v ++ source i; vp := true; vm := false; vh := None; vg := vg v; vt := vt v;
         vv := if isSome (vg v) || isSome (vt v) then Some i else vv v; vy := vy v; vb := vb v; vx := vx v; ves := es |}
    | anchor =>
      {| vc := vc v; vl := false; vu := false; vd := vd v; vf := vf v; vp := vp v; vm := true; vh := None; vg := Some i;
         vt := vt v; vv := vv v; vy := vy v; vb := vb v; vx := Some (default (toffset i) (vx v));
         ves := es ++ report (isSome (vg v)) (toffset i) MULTIPLE_ANCHORS
                ++ if eqc (last (source i)) (ch ":") then [warn (toffset i + len (source i) - 1) BAD_ALIAS] else [] |}
    | Yaml.tag =>
      {| vc := vc v; vl := false; vu := false; vd := vd v; vf := vf v; vp := vp v; vm := true; vh := None; vg := vg v;
         vt := Some i; vv := vv v; vy := vy v; vb := vb v; vx := Some (default (toffset i) (vx v));
         ves := es ++ report (isSome (vt v)) (toffset i) MULTIPLE_TAGS |}
    | comma =>
      if flow then
        {| vc := vc v; vl := false; vu := false; vd := vd v; vf := vf v; vp := vp v; vm := false; vh := None; vg := vg v;
           vt := vt v; vv := vv v; vy := Some i; vb := vb v; vx := vx v;
           ves := es ++ report (isSome (vy v)) (toffset i) UNEXPECTED_TOKEN |}
      else other
    | _ => other
    end.

Definition isFlowColl (t : option token) : bool := match t with Some (FlowCollection _ _ _ _ _) => true | _ => false end.

(** [NGt]; [flow] is whether it is in a flow collection. *)
Definition resolveProps (ts : list SourceToken) (flow : bool) (n : TokenType) (next : option token) (off parentIndent : Z)
    (startOnNewline : bool) : Props * list diag :=
  let tabs := negb flow && (negb (bool_decide (n = doc_start)) || negb (isFlowColl next)) in
  let v := foldl (propsTurn flow tabs n)
    {| vc := false; vl := startOnNewline; vu := startOnNewline; vd := []; vf := []; vp := false; vm := false; vh := None;
       vg := None; vt := None; vv := None; vy := None; vb := None; vx := None; ves := [] |} ts in
  let e := match last ts with Some s => toffset s + len (source s) | None => off end in
  let glued :=
    match next with
    | Some r =>
      report (vm v && match tokTy r with Some y => negb (isSpaceNlComma y) && negb (bool_decide (y = scalar) && bool_decide (tokSource r = Some [])) | None => true end)
        (tokOffset r) MISSING_CHAR
    | None => []
    end in
  let tab :=
    match vh v with Some h => report ((vl v && (tindent h <=? parentIndent)) || isBlockColl next) (toffset h) TAB_AS_INDENT | None => [] end in
  ({| comma_ := vy v; found := vb v; spaceBefore := vc v; pcomment := vd v; hasNewline := vp v; panchor := vg v; ptag := vt v;
      newlineAfterProp := vv v; pend := e; pstart := default e (vx v) |}, ves v ++ glued ++ tab).

(** The loop of [BGt]: the comment, whether there was a space, the separator and the offset. *)
Fixpoint endLoop (req : bool) (i : jstr) (a : bool) (o : jstr) (off : Z) (es : list diag) (ts : list SourceToken)
    : jstr * Z * list diag :=
  match ts with
  | [] => (i, off, es)
  | s :: ts =>
    let off' := off + len (source s) in
    match ty s with
    | space => endLoop req i true o off' es ts
    | comment => endLoop req (addText i o (commentText (source s))) a [] off' (es ++ report (req && negb a) (toffset s) MISSING_CHAR) ts
    | newline => endLoop req i true (match i with [] => o | _ => o ++ source s end) off' es ts
    | _ => endLoop req i a o off' (es ++ [err (toffset s) UNEXPECTED_TOKEN]) ts
    end
  end.

(** [BGt]: the comment, the offset and the errors. *)
Definition resolveEnd (ts : list SourceToken) (off : Z) (req : bool) : jstr * Z * list diag := endLoop req [] false [] off [] ts.

(** [oKt]: [rev] is reversed, [after] what was passed. *)
Fixpoint emptyPosition (off : Z) (rev after : list SourceToken) : Z :=
  match rev with
  | [] => off
  | x :: rev =>
    if isBlankTy (ty x) then emptyPosition (off - len (source x)) rev (x :: after)
    else off + foldr (λ s n, len (source s) + n) 0 (take (leadingSpaces after) after)
  end.

(** ** Nodes *)

Definition range : Type := Z * Z * Z.
Definition rangeEnd (r : range) : Z := snd r.
Definition rangeStart (r : range) : Z := fst (fst r).

Record Meta := {
  manchor : option jstr;
  mtag : option jstr;
  mspace : bool;
  mbefore : jstr;
  mcomment : jstr;
  mrange : range;
}.

Definition newMeta (r : range) : Meta :=
  {| manchor := None; mtag := None; mspace := false; mbefore := []; mcomment := []; mrange := r |}.

Definition setAnchor (a : jstr) (m : Meta) : Meta :=
  {| manchor := Some a; mtag := mtag m; mspace := mspace m; mbefore := mbefore m; mcomment := mcomment m; mrange := mrange m |}.
Definition setTag_ (t : jstr) (m : Meta) : Meta :=
  {| manchor := manchor m; mtag := Some t; mspace := mspace m; mbefore := mbefore m; mcomment := mcomment m; mrange := mrange m |}.
Definition setSpace (m : Meta) : Meta :=
  {| manchor := manchor m; mtag := mtag m; mspace := true; mbefore := mbefore m; mcomment := mcomment m; mrange := mrange m |}.
Definition setBefore (c : jstr) (m : Meta) : Meta :=
  {| manchor := manchor m; mtag := mtag m; mspace := mspace m; mbefore := c; mcomment := mcomment m; mrange := mrange m |}.
Definition setComment (c : jstr) (m : Meta) : Meta :=
  {| manchor := manchor m; mtag := mtag m; mspace := mspace m; mbefore := mbefore m; mcomment := c; mrange := mrange m |}.
Definition setRange (r : range) (m : Meta) : Meta :=
  {| manchor := manchor m; mtag := mtag m; mspace := mspace m; mbefore := mbefore m; mcomment := mcomment m; mrange := r |}.

(** [e.comment ? e.comment += "\n" + c : e.comment = c], when there is a [c]. *)
Definition joinComment (old c : jstr) : jstr := match c with [] => old | _ => match old with [] => c | _ => old ++ LF :: c end end.
Definition addComment (c : jstr) (m : Meta) : Meta := setComment (joinComment (mcomment m) c) m.

Section compose.
Context {num : Type} `{JsNumber num}.

(** The nodes [J9] and [fGt], [Y9] and [ZWt], and the items of a collection: nodes, or pairs
    ([K9]). *)
Inductive node : Type :=
  | NScalar (m : Meta) (v : value num) (style : option Print.scalarType) (src : jstr) (fmt : option jstr) (minFraction : option Z)
  | NAlias (m : Meta) (src : jstr)
  | NMap (m : Meta) (isSet flow : bool) (items : list entry)
  | NSeq (m : Meta) (isOmap flow : bool) (items : list entry)
with entry : Type :=
  | ENode (n : node)
  | EPair (k : node) (v : option node).

Definition meta (n : node) : Meta := match n with NScalar m _ _ _ _ _ | NAlias m _ | NMap m _ _ _ | NSeq m _ _ _ => m end.

Definition onMeta (f : Meta → Meta) (n : node) : node :=
  match n with
  | NScalar m v y s t d => NScalar (f m) v y s t d
  | NAlias m s => NAlias (f m) s
  | NMap m c w l => NMap (f m) c w l
  | NSeq m c w l => NSeq (f m) c w l
  end.

Definition nrange (n : node) : range := mrange (meta n).

(** ** The context *)

Record Options := { strict : bool; stringKeys : bool; uniqueKeys : bool; }.

Definition defaultOptions : Options := {| strict := true; stringKeys := false; uniqueKeys := true |}.

(** What does not change while a document is composed. *)
Record Ctx := { options : Options; directives : Directives.Directives; resolveKnown : bool }.

(** What does. *)
Record St := { errs : list diag; atKey : bool; atRoot : bool; tags : list (tag num) }.

Inductive failure := Thrown (x : exn) | OutOfFuel.

Definition M (A : Type) : Type := St → St * (failure + A).

#[global] Instance M_ret : MRet M := λ A a s, (s, inr a).
#[global] Instance M_bind : MBind M := λ A B f m s, let '(s, r) := m s in match r with inr a => f a s | inl x => (s, inl x) end.
Definition raise {A} (x : failure) : M A := λ s, (s, inl x).
Definition get : M St := λ s, (s, inr s).
Definition emit (l : list diag) : M unit :=
  λ s, ({| errs := errs s ++ l; atKey := atKey s; atRoot := atRoot s; tags := tags s |}, inr tt).
Definition setAtKey (b : bool) : M unit := λ s, ({| errs := errs s; atKey := b; atRoot := atRoot s; tags := tags s |}, inr tt).
Definition setAtRoot (b : bool) : M unit := λ s, ({| errs := errs s; atKey := atKey s; atRoot := b; tags := tags s |}, inr tt).
Definition pushTag (t : tag num) : M unit := λ s, ({| errs := errs s; atKey := atKey s; atRoot := atRoot s; tags := tags s ++ [t] |}, inr tt).
(** [try { m } catch { h }] *)
Definition catch {A} (m h : M A) : M A := λ s, let '(s', r) := m s in match r with inl (Thrown _) => h s' | r => (s', r) end.

(** ** Scalars *)

(** A tag for a scalar: one of the schema, or an inherited member, which has no [resolve]. *)
Inductive foundTag := Tag (t : tag num) | NoResolve.

Definition tagNamed (n : jstr) (t : tag num) : bool := negb (isSome (tcollection t)) && bool_decide (tname t = n).
Definition isDefault (t : tag num) : bool := match tdefault t with DNo => false | _ => true end.
Definition testOf (v : jstr) (t : tag num) : bool := match ttest t with Some r => Regex.matches r v | None => false end.

(** The loop of [iKt] over the tags: the first that is not guarded by a test, or those that
    are. *)
Fixpoint untested (n : jstr) (l : list (tag num)) : option (tag num) * list (tag num) :=
  match l with
  | [] => (None, [])
  | t :: l =>
    if tagNamed n t then
      if isDefault t && isSome (ttest t) then let '(r, a) := untested n l in (r, t :: a) else (Some t, [])
    else untested n l
  end.

(** [iKt] *)
Definition findScalarTagByName (c : Ctx) (v n : jstr) (at_ : Z) : M foundTag :=
  if bool_decide (n = runes "!") then mret (Tag strTag)
  else
    s ← get;
    let '(r, a) := untested n (tags s) in
    match r with
    | Some t => mret (Tag t)
    | None =>
      match find (testOf v) a with
      | Some t => mret (Tag t)
      | None =>
        match knownTag (resolveKnown c) n with
        | Known t =>
          if isSome (tcollection t) then
            emit [{| dpos := at_; dcode := TAG_RESOLVE_FAILED; dwarn := negb (bool_decide (n = yamlTag "str")) |}];; mret (Tag strTag)
          else
            pushTag {| tname := tname t; tcollection := None; tdefault := DNo; tformat := tformat t; ttest := None; taction := taction t |};;
            mret (Tag t)
        | Inherited => mret NoResolve
        | Unknown =>
          emit [{| dpos := at_; dcode := TAG_RESOLVE_FAILED; dwarn := negb (bool_decide (n = yamlTag "str")) |}];; mret (Tag strTag)
        end
      end
    end.

(** [aKt], without a second schema *)
Definition findScalarTagByTest (s : St) (v : jstr) : tag num :=
  default strTag (find (λ t, match tdefault t with DYes => testOf v t | DKey => atKey s && testOf v t | DNo => false end) (tags s)).

(** [directives.tagName] with its errors reported at the tag. *)
Definition tagNameOf (c : Ctx) (t : SourceToken) : M (option jstr) :=
  let '(n, k) := Directives.tagName (directives c) (source t) in
  emit (replicate k (err (toffset t) TAG_RESOLVE_FAILED));; mret n.

Definition scalarCode (c : Scalars.code) : code :=
  match c with Scalars.BAD_DQ_ESCAPE => BAD_DQ_ESCAPE | Scalars.MISSING_CHAR => MISSING_CHAR | Scalars.BAD_SCALAR_START => BAD_SCALAR_START end.
Definition blockCode (c : Block.bcode) : code :=
  match c with
  | Block.B_IMPOSSIBLE => IMPOSSIBLE | Block.B_UNEXPECTED_TOKEN => UNEXPECTED_TOKEN | Block.B_MISSING_CHAR => MISSING_CHAR
  | Block.B_BAD_INDENT => BAD_INDENT
  end.

(** What [KGt] and [YGt] return. *)
Record Parts := { text : jstr; style_ : option Print.scalarType; scomment : jstr; srange : range }.

(** The token of a block scalar as [KGt] takes it. *)
Definition blockToken (o i : Z) (props : list token) (src : jstr) : Block.BlockToken :=
  {| Block.offset := o; Block.bindent := i; Block.source := src;
     Block.props := map (λ t, {| Block.ttype := match t with Source t => Some (ty t) | _ => None end;
       Block.toffset := tokOffset t; Block.tsource := default [] (tokSource t) |}) props |}.

(** [KGt] *)
Definition blockParts (strict atRoot : bool) (o i : Z) (props : list token) (src : jstr) : Parts * list diag :=
  let t := blockToken o i props src in
  let '(v, es) := Block.blockValue t strict atRoot in
  (match fst (Block.parseHeader t strict) with
   | None => {| text := v; style_ := None; scomment := []; srange := (o, o, o) |}
   | Some h =>
     let e := o + Block.hlength h + len src in
     {| text := v; style_ := Some (if eqc (Block.mode h) (ch ">") then Print.BLOCK_FOLDED else Print.BLOCK_LITERAL);
        scomment := Block.hcomment h; srange := (o, e, e) |}
   end, map (λ x, err (fst x) (blockCode (snd x))) es).

Definition flowDiags (o : Z) (l : list (Z * Scalars.code)) : list diag := map (λ x, err (o + fst x) (scalarCode (snd x))) l.

(** The end of [YGt]: the tokens after the scalar. *)
Definition flowRest (strict : bool) (o : Z) (src : jstr) (end_ : option (list SourceToken)) (v : jstr) (st : Print.scalarType) : M Parts :=
  let '(cm, e, es) := resolveEnd (default [] end_) (o + len src) strict in
  emit es;; mret {| text := v; style_ := Some st; scomment := cm; srange := (o, o + len src, e) |}.

(** [YGt] *)
Definition flowParts (strict : bool) (y : TokenType) (o : Z) (src : jstr) (end_ : option (list SourceToken)) : M Parts :=
  let finish := flowRest strict o src end_ in
  match y with
  | scalar => let '(v, es) := Scalars.plainValue src in emit (flowDiags o es);; finish v Print.PLAIN
  | single_quoted_scalar => let '(v, es) := Scalars.singleQuotedValue src in emit (flowDiags o es);; finish v Print.QUOTE_SINGLE
  | double_quoted_scalar =>
    match Scalars.doubleQuotedValue src with
    | Some (inr (v, es)) => emit (flowDiags o es);; finish v Print.QUOTE_DOUBLE
    | Some (inl (x, es)) => emit (flowDiags o es);; raise (Thrown x)
    | None => raise OutOfFuel
    end
  | _ => emit [err o UNEXPECTED_TOKEN];; mret {| text := []; style_ := None; scomment := []; srange := (o, o + len src, o + len src) |}
  end.

Definition scalarParts (c : Ctx) (t : token) : M Parts :=
  s ← get;
  match t with
  | BlockScalar o i props src =>
    let '(p, es) := blockParts (strict (options c)) (atRoot s) o i props src in emit es;; mret p
  | FlowScalar y o _ src e => flowParts (strict (options c)) y o src e
  | t => flowParts (strict (options c)) t_doc_mode (tokOffset t) (default [] (tokSource t)) None
  end.

Definition isPlainToken (t : token) : bool := match t with FlowScalar scalar _ _ _ _ => true | _ => false end.

Definition truthy (s : option jstr) : bool := match s with Some (_ :: _) => true | _ => false end.

(** The result of [l.resolve], [None] when it throws. *)
Definition resolveScalar (l : foundTag) (v : jstr) : option (resolved num) :=
  match l with
  | Tag t => match taction t with AScalar f => match f v with inr r => Some r | inl _ => None end | _ => None end
  | NoResolve => None
  end.

Definition formatOf (l : foundTag) : option jstr := match l with Tag t => tformat t | NoResolve => None end.

(** [rKt] *)
Definition composeScalar (c : Ctx) (t : token) (tg : option SourceToken) : M node :=
  p ← scalarParts c t;
  name ← match tg with Some k => tagNameOf c k | None => mret None end;
  s ← get;
  let at_ := match tg with Some k => toffset k | None => tokOffset t end in
  l ← (if stringKeys (options c) && atKey s then mret (Tag strTag)
       else if truthy name then findScalarTagByName c (text p) (default [] name) at_
       else mret (Tag (if isPlainToken t then findScalarTagByTest s (text p) else strTag)));
  '(v, d) ← match resolveScalar l (text p) with
            | Some r => mret r
            | None => emit [err at_ TAG_RESOLVE_FAILED];; mret (VStr (text p), None)
            end;
  mret (NScalar
    {| manchor := None; mtag := if truthy name then name else None; mspace := false; mbefore := []; mcomment := scomment p; mrange := srange p |}
    v (style_ p) (text p) (formatOf l) d).

(** [lKt]; [before] are the tokens before the node, when they are given. *)
Definition composeEmptyNode (c : Ctx) (off : Z) (before : option (list SourceToken)) (p : Props) : M node :=
  let o := match before with Some l => emptyPosition off (reverse l) [] | None => off end in
  u ← composeScalar c (FlowScalar scalar o (-1) [] None) (ptag p);
  u ← match panchor p with
      | Some a =>
        emit (report (bool_decide (drop 1 (source a) = [])) (toffset a) BAD_ALIAS);; mret (onMeta (setAnchor (drop 1 (source a))) u)
      | None => mret u
      end;
  let u := if spaceBefore p then onMeta setSpace u else u in
  mret (match pcomment p with
        | [] => u
        | cm => onMeta (λ m, let '(a, b, _) := mrange m in setRange (a, b, pend p) (setComment cm m)) u
        end).

(** [uKt] *)
Definition composeAlias (c : Ctx) (o : Z) (src : jstr) (end_ : option (list SourceToken)) : M node :=
  let name := drop 1 src in
  emit (report (bool_decide (name = [])) o BAD_ALIAS ++ if eqc (last name) (ch ":") then [warn (o + len src - 1) BAD_ALIAS] else []);;
  let e := o + len src in
  let '(cm, off, es) := resolveEnd (default [] end_) e (strict (options c)) in
  emit es;; mret (NAlias (setComment cm (newMeta (o, e, off))) name).

(** ** Collections *)

(** An item with what composes its key and value. *)
Record citem := { ci : item; ckey : option (Props → M node); cval : option (Props → M node) }.

Definition isScalarNode (n : node) : option (value num) := match n with NScalar _ v _ _ _ _ => Some v | _ => None end.

(** [IGt] *)
Definition mapIncludes (c : Ctx) (items : list entry) (k : node) : bool :=
  uniqueKeys (options c)
  && existsb (λ e, match e with
                   | EPair k' _ => match isScalarNode k', isScalarNode k with Some a, Some b => valueIs a b | _, _ => false end
                   | ENode _ => false
                   end) items.

(** [e(n, t, p, i)] or [t(n, off, before, null, p, i)] *)
Definition composeOr (c : Ctx) (f : option (Props → M node)) (off : Z) (before : option (list SourceToken)) (p : Props) : M node :=
  match f with Some f => f p | None => composeEmptyNode c off before p end.

(** The variables of the loops: the items, the comment, the offset and where a comment ended. *)
Record Acc := { aitems : list entry; acomment : jstr; aoff : Z; aend : option Z }.

Definition firstSep (i : item) : option token := Source <$> (isep i ≫= head).

Definition orElse {A} (a b : option A) : option A := match a with Some x => Some x | None => b end.

(** One item of [RGt]. *)
Definition blockMapItem (c : Ctx) (ind : Z) (a : Acc) (x : citem) : M Acc :=
  let i := ci x in
  let '(p, es) := resolveProps (istart i) false explicit_key_ind (orElse (ikey i) (firstSep i)) (aoff a) ind true in
  emit es;;
  let implicit := negb (isSome (found p)) in
  emit (if implicit then
          match ikey i with
          | Some (BlockSeq _ _ _) => [err (aoff a) BLOCK_AS_IMPLICIT_KEY]
          | Some k => match tokIndent k with Some n => report (negb (n =? ind)) (aoff a) BAD_INDENT | None => [] end
          | None => []
          end
        else report (negb (bool_decide (tindent <$> found p = Some ind))) (aoff a) BAD_INDENT);;
  if implicit && negb (isSome (panchor p)) && negb (isSome (ptag p)) && negb (isSome (isep i)) then
    mret {| aitems := aitems a; acomment := joinComment (acomment a) (pcomment p); aoff := aoff a; aend := Some (pend p) |}
  else
    emit (report (implicit && (isSome (newlineAfterProp p) || optNewline (ikey i)))
            (match ikey i with Some k => tokOffset k | None => default 0 (toffset <$> last (istart i)) end) MULTILINE_IMPLICIT_KEY);;
    setAtKey true;;
    g ← composeOr c (ckey x) (pend p) (Some (istart i)) p;
    setAtKey false;;
    emit (report (mapIncludes c (aitems a) g) (pend p) DUPLICATE_KEY);;
    let '(q, es) := resolveProps (default [] (isep i)) false map_value_ind (ivalue i) (rangeEnd (nrange g)) ind
      (match ikey i with None | Some (BlockScalar _ _ _ _) => true | _ => false end) in
    emit es;;
    match found q with
    | Some f =>
      emit (if implicit then
              report (match ivalue i with Some (BlockMap _ _ _) => negb (hasNewline q) | _ => false end) (pend q) BLOCK_AS_IMPLICIT_KEY
              ++ report (strict (options c) && (pstart p <? toffset f - 1024)) (rangeStart (nrange g)) KEY_OVER_1024_CHARS
            else []);;
      v ← composeOr c (cval x) (pend q) (isep i) q;
      mret {| aitems := aitems a ++ [EPair g (Some v)]; acomment := acomment a; aoff := rangeEnd (nrange v); aend := aend a |}
    | None =>
      emit (report implicit (rangeStart (nrange g)) MISSING_CHAR);;
      mret {| aitems := aitems a ++ [EPair (onMeta (addComment (pcomment q)) g) None]; acomment := acomment a; aoff := pend q; aend := aend a |}
    end.

Fixpoint loop {A} (f : Acc → A → M Acc) (a : Acc) (l : list A) : M Acc :=
  match l with [] => mret a | x :: l => a ← f a x; loop f a l end.

Definition start (o : Z) : Acc := {| aitems := []; acomment := []; aoff := o; aend := None |}.

(** [RGt] *)
Definition composeBlockMap (c : Ctx) (isSet : bool) (o ind : Z) (items : list citem) : M node :=
  setAtRoot false;;
  a ← loop (blockMapItem c ind) (start o) items;
  emit (match aend a with Some e => report (negb (e =? 0) && (e <? aoff a)) e IMPOSSIBLE | None => [] end);;
  mret (NMap (setComment (acomment a) (newMeta (o, aoff a, default (aoff a) (aend a)))) isSet false (aitems a)).

(** One item of [zGt]. *)
Definition blockSeqItem (c : Ctx) (ind : Z) (a : Acc) (x : citem) : M Acc :=
  let i := ci x in
  let '(p, es) := resolveProps (istart i) false seq_item_ind (ivalue i) (aoff a) ind true in
  emit es;;
  if negb (isSome (found p)) && negb (isSome (panchor p)) && negb (isSome (ptag p)) && negb (isSome (ivalue i)) then
    mret {| aitems := aitems a; acomment := match pcomment p with [] => acomment a | cm => cm end; aoff := aoff a; aend := Some (pend p) |}
  else
    emit (if isSome (found p) then []
          else match ivalue i with Some (BlockSeq _ _ _) => [err (pend p) BAD_INDENT] | _ => [err (aoff a) MISSING_CHAR] end);;
    d ← composeOr c (cval x) (pend p) (Some (istart i)) p;
    mret {| aitems := aitems a ++ [ENode d]; acomment := acomment a; aoff := rangeEnd (nrange d); aend := aend a |}.

(** [zGt] *)
Definition composeBlockSeq (c : Ctx) (isOmap : bool) (o ind : Z) (items : list citem) : M node :=
  setAtRoot false;; setAtKey false;;
  a ← loop (blockSeqItem c ind) (start o) items;
  mret (NSeq (setComment (acomment a) (newMeta (o, aoff a, default (aoff a) (aend a)))) isOmap false (aitems a)).

(** The comment on the line of a comma, which belongs to the item before it. *)
Fixpoint lineComment (l : list SourceToken) : jstr :=
  match l with
  | [] => []
  | x :: l => match ty x with comma | space => lineComment l | comment => drop 1 (source x) | _ => [] end
  end.

(** That comment put to the last item; [None] is the exception when there is none. *)
Definition commentLast (cm : jstr) (items : list entry) : option (list entry) :=
  match last items with
  | None => None
  | Some e =>
    Some (removelast items ++
      [match e with
       | ENode n => ENode (onMeta (addComment cm) n)
       | EPair k (Some v) => EPair k (Some (onMeta (addComment cm) v))
       | EPair k None => EPair (onMeta (addComment cm) k) None
       end])
  end.

(** The errors of an implicit key in a flow sequence: a line end before the indicator, or a
    key that is too long. *)
Fixpoint newlineBefore (f : SourceToken) (l : list SourceToken) : list diag :=
  match l with
  | [] => []
  | x :: l =>
    if bool_decide (x = f) then [] else match ty x with newline => [err (toffset x) MULTILINE_IMPLICIT_KEY] | _ => newlineBefore f l end
  end.

(** The comma and comment before an item of a flow collection. *)
Definition flowComma (first : bool) (p : Props) (i : item) (items : list entry) : M (list entry * Props) :=
  if first then emit (match comma_ p with Some k => [err (toffset k) UNEXPECTED_TOKEN] | None => [] end);; mret (items, p)
  else
    emit (report (negb (isSome (comma_ p))) (pstart p) MISSING_CHAR);;
    match pcomment p, lineComment (istart i) with
    | _ :: _, (_ :: _) as cm =>
      match commentLast cm items with
      | None => raise (Thrown (Exn (runes "TypeError")))
      | Some items =>
        mret (items, {| comma_ := comma_ p; found := found p; spaceBefore := spaceBefore p; pcomment := drop (length cm + 1) (pcomment p);
          hasNewline := hasNewline p; panchor := panchor p; ptag := ptag p; newlineAfterProp := newlineAfterProp p; pend := pend p;
          pstart := pstart p |})
      end
    | _, _ => mret (items, p)
    end.

(** A pair of a flow collection, from the props of its key on. *)
Definition flowPair (c : Ctx) (isMap : bool) (ind : Z) (a : Acc) (x : citem) (p : Props) : M Acc :=
  let i := ci x in
  setAtKey true;;
  g ← composeOr c (ckey x) (pend p) (Some (istart i)) p;
  emit (report (isBlockColl (ikey i)) (rangeStart (nrange g)) BLOCK_IN_FLOW);;
  setAtKey false;;
  let '(q, es) := resolveProps (default [] (isep i)) true map_value_ind (ivalue i) (rangeEnd (nrange g)) ind false in
  emit es;;
  emit (match found q with
        | Some f =>
          if negb isMap && negb (isSome (found p)) && strict (options c) then
            newlineBefore f (default [] (isep i)) ++ report (pstart p <? toffset f - 1024) (toffset f) KEY_OVER_1024_CHARS
          else []
        | None =>
          match ivalue i with
          | Some m => [err (if eqc (tokSource m ≫= head) (ch ":") then tokOffset m else pstart q) MISSING_CHAR]
          | None => []
          end
        end);;
  v ← match cval x with
      | Some f => v ← f q; mret (Some v)
      | None => if isSome (found q) then v ← composeEmptyNode c (pend q) (isep i) q; mret (Some v) else mret None
      end;
  emit (match v with Some v => report (isBlockColl (ivalue i)) (rangeStart (nrange v)) BLOCK_IN_FLOW | None => [] end);;
  let g := match v with Some _ => g | None => onMeta (addComment (pcomment q)) g end in
  emit (report (isMap && mapIncludes c (aitems a) g) (pend p) DUPLICATE_KEY);;
  let '(_, b, e) := nrange (default g v) in
  let pair := EPair g v in
  mret {| aitems := aitems a ++ [if isMap then pair else ENode (NMap (newMeta (rangeStart (nrange g), b, e)) false true [pair])];
          acomment := acomment a; aoff := match v with Some v => rangeEnd (nrange v) | None => pend q end; aend := aend a |}.

(** One item of [UGt], at the place [k] of [n]. *)
Definition flowItem (c : Ctx) (isMap : bool) (ind : Z) (n : nat) (a : Acc) (x : nat * citem) : M Acc :=
  let '(k, x) := x in
  let i := ci x in
  let '(p, es) := resolveProps (istart i) true explicit_key_ind (orElse (ikey i) (firstSep i)) (aoff a) ind false in
  emit es;;
  let implicit := negb (isSome (found p)) in
  if implicit && negb (isSome (panchor p)) && negb (isSome (ptag p)) && negb (isSome (isep i)) && negb (isSome (ivalue i)) then
    emit (match comma_ p with
          | Some t => if (k =? 0)%nat then [err (toffset t) UNEXPECTED_TOKEN] else report (k <? n - 1)%nat (pstart p) UNEXPECTED_TOKEN
          | None => report (k <? n - 1)%nat (pstart p) UNEXPECTED_TOKEN
          end);;
    mret {| aitems := aitems a; acomment := joinComment (acomment a) (pcomment p); aoff := pend p; aend := aend a |}
  else
    emit (report (implicit && negb isMap && strict (options c) && optNewline (ikey i)) (default 0 (tokOffset <$> ikey i)) MULTILINE_IMPLICIT_KEY);;
    '(items, p) ← flowComma (k =? 0)%nat p i (aitems a);
    let a := {| aitems := items; acomment := acomment a; aoff := aoff a; aend := aend a |} in
    if negb isMap && negb (isSome (isep i)) && implicit then
      r ← composeOr c (cval x) (pend p) None p;
      emit (report (isBlockColl (ivalue i)) (rangeStart (nrange r)) BLOCK_IN_FLOW);;
      mret {| aitems := aitems a ++ [ENode r]; acomment := acomment a; aoff := rangeEnd (nrange r); aend := aend a |}
    else flowPair c isMap ind a x p.

(** The end of a flow collection: its value end, its range end and the comment. *)
Definition flowEnd (c : Ctx) (isMap wasRoot : bool) (off : Z) (end_ : list SourceToken) : Z * Z * jstr * list diag :=
  let close := runes (if isMap then "}" else "]") in
  let bad := [err off (if wasRoot then MISSING_CHAR else BAD_INDENT)] in
  let '(m, rest, es) :=
    match end_ with
    | f :: p =>
      if bool_decide (source f = close) then (toffset f + len (source f), p, [])
      else (off, if len (source f) =? 1 then p else f :: p, bad)
    | [] => (off, [], bad)
    end in
  match rest with
  | [] => (m, m, [], es)
  | _ => let '(cm, e, es') := resolveEnd rest m (strict (options c)) in (m, e, cm, es ++ es')
  end.

(** [UGt] *)
Definition composeFlowCollection (c : Ctx) (special : bool) (o ind : Z) (fs : SourceToken) (items : list citem) (end_ : list SourceToken)
    : M node :=
  let isMap := bool_decide (source fs = runes "{") in
  s ← get;
  let wasRoot := atRoot s in
  setAtRoot false;; setAtKey false;;
  a ← loop (flowItem c isMap ind (length items)) (start (o + len (source fs))) (imap pair items);
  let '(m, e, cm, es) := flowEnd c isMap wasRoot (aoff a) end_ in
  emit es;;
  let mt := addComment cm (setComment (acomment a) (newMeta (o, m, e))) in
  mret (if isMap then NMap mt special true (aitems a) else NSeq mt special true (aitems a)).

(** ** Tags of collections *)

(** [e.hasAllNullValues(true)] *)
Definition allNullValues (items : list entry) : bool :=
  forallb (λ e, match e with
                | EPair _ None => true
                | EPair _ (Some (NScalar m VNull _ _ _ _)) => bool_decide (mbefore m = []) && bool_decide (mcomment m = []) && negb (truthy (mtag m))
                | _ => false
                end) items.

(** A text before another, on a line of its own. *)
Definition prepend (c old : jstr) : jstr := match c with [] => old | _ => match old with [] => c | _ => c ++ LF :: old end end.

Definition nullNode : node := NScalar (newMeta (0, 0, 0)) VNull None [] None None.

(** One item of [JWt]: a pair, and whether a map had more than one. *)
Definition toPair (e : entry) : entry * bool :=
  match e with
  | ENode (NMap m _ _ items) =>
    let '(k, v) := match items with EPair k v :: _ => (k, v) | _ => (nullNode, None) end in
    let k := onMeta (λ n, setBefore (prepend (mbefore m) (mbefore n)) n) k in
    let cm n := onMeta (λ n, setComment (prepend (mcomment m) (mcomment n)) n) n in
    (match v with Some v => EPair k (Some (cm v)) | None => EPair (cm k) None end, (1 <? length items)%nat)
  | ENode n => (EPair n None, false)
  | EPair k v => (EPair k v, false)
  end.

(** The keys of an ordered map that are there before. *)
Fixpoint repeatedKeys (seen : list (value num)) (items : list entry) : nat :=
  match items with
  | [] => 0
  | EPair (NScalar _ v _ _ _ _) _ :: items =>
    if existsb (λ x, valueSame x v) seen then S (repeatedKeys seen items) else repeatedKeys (seen ++ [v]) items
  | _ :: items => repeatedKeys seen items
  end.

(** [c.resolve(l, ...)]: the node, and how many errors are reported. *)
Definition resolveCollection (a : action num) (n : node) : node * nat :=
  match a, n with
  | APairs, NSeq m o f items => (NSeq m o f (map (fst ∘ toPair) items), length (filter (λ e, snd (toPair e) = true) items))
  | AOmap, NSeq m _ f items =>
    let l := map (fst ∘ toPair) items in
    (NSeq m true f l, (length (filter (λ e, snd (toPair e) = true) items) + repeatedKeys [] l)%nat)
  | ASet, NMap m _ f items => if allNullValues items then (NMap m true f items, 0%nat) else (n, 1%nat)
  | _, _ => (n, 0%nat)
  end.

(** [WGt]: the class has the name of the plain collection. *)
Definition plainName (n : node) : jstr := match n with NMap _ _ _ _ => yamlTag "map" | _ => yamlTag "seq" end.

Definition nameCollection (name : option jstr) (n : node) : node :=
  match name with
  | Some ((_ :: _) as i) => if bool_decide (i = runes "!") || bool_decide (i = plainName n) then onMeta (setTag_ (plainName n)) n else onMeta (setTag_ i) n
  | _ => n
  end.

(** The kind of a collection, and what composes it as a plain ([false]) or special one. *)
Definition kindOf (t : token) : collection :=
  match t with
  | BlockMap _ _ _ => CMap
  | BlockSeq _ _ _ => CSeq
  | FlowCollection _ _ s _ _ => if bool_decide (source s = runes "{") then CMap else CSeq
  | _ => CSeq
  end.

Definition isCMap (k : collection) : bool := match k with CMap => true | CSeq => false end.
Definition sameKind (a : option collection) (b : collection) : bool := match a with Some a => eqb (isCMap a) (isCMap b) | None => false end.

(** The tag that a collection of this name is made with. *)
Definition collectionTag (c : Ctx) (k : collection) (name : jstr) (tok : SourceToken) : M (option (tag num)) :=
  s ← get;
  match find (λ t, bool_decide (tname t = name) && sameKind (tcollection t) k) (tags s) with
  | Some t => mret (Some t)
  | None =>
    match knownTag (resolveKnown c) name with
    | Known t =>
      if sameKind (tcollection t) k then
        pushTag {| tname := tname t; tcollection := tcollection t; tdefault := DNo; tformat := tformat t; ttest := ttest t; taction := taction t |};;
        mret (Some t)
      else emit [warn (toffset tok) BAD_COLLECTION_TYPE];; mret None
    | Inherited => emit [warn (toffset tok) BAD_COLLECTION_TYPE];; mret None
    | Unknown => emit [warn (toffset tok) TAG_RESOLVE_FAILED];; mret None
    end
  end.

(** The props of a block sequence end with its line. *)
Definition seqProps (t : token) (p : Props) : list diag :=
  match t with
  | BlockSeq _ _ _ =>
    match (match panchor p, ptag p with
           | Some a, Some g => Some (if toffset g <? toffset a then a else g)
           | a, g => orElse a g
           end) with
    | Some n => report (match newlineAfterProp p with Some l => toffset l <? toffset n | None => true end) (toffset n) MISSING_CHAR
    | None => []
    end
  | _ => []
  end.

Definition isSpecial (a : action num) : bool := match a with AOmap | ASet => true | _ => false end.

(** [GGt]; [make] composes the collection of a class. *)
Definition composeCollection (c : Ctx) (t : token) (p : Props) (make : bool → M node) : M node :=
  name ← match ptag p with Some k => tagNameOf c k | None => mret None end;
  emit (seqProps t p);;
  let k := kindOf t in
  match ptag p, name with
  | Some tok, Some ((_ :: _) as n) =>
    if bool_decide (n = runes "!") || (bool_decide (n = yamlTag "map") && isCMap k) || (bool_decide (n = yamlTag "seq") && negb (isCMap k))
    then l ← make false; mret (nameCollection name l)
    else
      f ← collectionTag c k n tok;
      match f with
      | None => l ← make false; mret (nameCollection name l)
      | Some f =>
        l ← make (isSpecial (taction f));
        let l := nameCollection name l in
        let '(d, e) := resolveCollection (taction f) l in
        emit (replicate e (err (toffset tok) TAG_RESOLVE_FAILED));;
        mret (onMeta (setTag_ n) d)
      end
  | _, _ => l ← make false; mret (nameCollection name l)
  end.

(** ** Nodes *)

Definition withAnchor (p : Props) (n : node) : node :=
  match panchor p with Some a => onMeta (setAnchor (drop 1 (source a))) n | None => n end.

(** A collection with its anchor; an exception is reported at its token. *)
Definition guarded (p : Props) (o : Z) (m : M node) : M (option node) :=
  catch (l ← m; mret (Some (withAnchor p l))) (emit [err o RESOURCE_EXHAUSTION];; mret None).

Definition isString (v : value num) : bool := match v with VStr _ => true | _ => false end.

(** With [stringKeys], what is no string. *)
Definition notStringKey (n : node) : bool :=
  negb (match isScalarNode n with Some v => isString v | None => false end)
  || (truthy (mtag (meta n)) && negb (bool_decide (mtag (meta n) = Some (yamlTag "str")))).

(** The end of [cKt]: the node, or an empty one, with its space and comment. *)
Definition finishNode (c : Ctx) (wasKey : bool) (t : token) (p : Props) (l : option node) : M node :=
  l ← match l with Some l => mret l | None => composeEmptyNode c (tokOffset t) None p end;
  emit (match panchor p with Some a => report (bool_decide (manchor (meta l) = Some [])) (toffset a) BAD_ALIAS | None => [] end);;
  emit (report (wasKey && stringKeys (options c) && notStringKey l)
          (match ptag p with Some k => toffset k | None => tokOffset t end) NON_STRING_KEY);;
  let l := if spaceBefore p then onMeta setSpace l else l in
  mret (match pcomment p with
        | [] => l
        | cm => if isPlainToken t && bool_decide (tokSource t = Some []) then onMeta (setComment cm) l else onMeta (setBefore cm) l
        end).

(** [cKt] *)
Fixpoint composeNode (c : Ctx) (t : token) (p : Props) : M node :=
  s ← get;
  l ← match t with
      | FlowScalar alias o _ src e =>
        l ← composeAlias c o src e;
        emit (report (isSome (panchor p) || isSome (ptag p)) o ALIAS_PROPS);; mret (Some l)
      | FlowScalar scalar _ _ _ _ | FlowScalar single_quoted_scalar _ _ _ _ | FlowScalar double_quoted_scalar _ _ _ _
      | BlockScalar _ _ _ _ => l ← composeScalar c t (ptag p); mret (Some (withAnchor p l))
      | BlockMap o n items =>
        guarded p o (composeCollection c t p (λ sp, composeBlockMap c sp o n (map (composeItem c) items)))
      | BlockSeq o n items =>
        guarded p o (composeCollection c t p (λ sp, composeBlockSeq c sp o n (map (composeItem c) items)))
      | FlowCollection o n fs items e =>
        guarded p o (composeCollection c t p (λ sp, composeFlowCollection c sp o n fs (map (composeItem c) items) e))
      | _ => emit [err (tokOffset t) UNEXPECTED_TOKEN];; mret None
      end;
  finishNode c (atKey s) t p l
with composeItem (c : Ctx) (i : item) : citem :=
  match i with
  | Item _ k _ v _ =>
    {| ci := i; ckey := match k with Some k => Some (composeNode c k) | None => None end;
       cval := match v with Some v => Some (composeNode c v) | None => None end |}
  end.

(** ** Documents *)

(** The fields of a document; there are no contents when the stream is empty. *)
Record Doc := {
  contents : option node;
  dcomment : jstr;
  dbefore : jstr;
  ddiags : list diag;
  drange : range;
  ddirectives : Directives.Directives;
}.

Definition onDoc (n : option node) (cm before : jstr) (es : list diag) (d : Doc) : Doc :=
  {| contents := n; dcomment := cm; dbefore := before; ddiags := es; drange := drange d; ddirectives := ddirectives d |}.

(** The context and first state for the directives of a document ([new DGt]). *)
Definition docCtx (o : Options) (d : Directives.Directives) : Ctx * St :=
  let v := if Directives.explicit d then Directives.yamlVersion d else Directives.V12 in
  let d := Directives.setYaml (Directives.explicit d) v (Directives.tags d) (Directives.atNextDocument d) d in
  let core := match v with Directives.V12 => true | Directives.V11 => false end in
  ({| options := o; directives := d; resolveKnown := core |},
   {| errs := []; atKey := false; atRoot := true; tags := if core then coreTags else yaml11Tags |}).

(** [dKt]: the document with the errors it reports, and the directives after it. *)
Definition composeDoc (o : Options) (ds : Directives.Directives) (off : Z) (st : list SourceToken) (value : option token)
    (end_ : option (list SourceToken)) : (failure + Doc) * list diag * Directives.Directives :=
  let '(d, after) := Directives.atDocument ds in
  let '(c, s) := docCtx o d in
  let '(p, es) := resolveProps st false doc_start (orElse value (Source <$> (end_ ≫= head))) off 0 true in
  let m :=
    emit es;;
    emit (report (isSome (found p) && isBlockColl value && negb (hasNewline p)) (pend p) MISSING_CHAR);;
    match value with Some v => composeNode c v p | None => composeEmptyNode c (pend p) (Some st) p end in
  let '(s, r) := m s in
  match r with
  | inl x => (inl x, errs s, after)
  | inr n =>
    let u := rangeEnd (nrange n) in
    let '(cm, e, es') := resolveEnd (default [] end_) u false in
    (inr {| contents := Some n; dcomment := cm; dbefore := []; ddiags := []; drange := (off, u, e);
            ddirectives := if isSome (found p) then Directives.setDocStart (directives c) else directives c |},
     errs s ++ es', after)
  end.

(** [pKt]: the comment of the lines before a document, and whether a blank line ends them;
    [n] is whether the last was a comment. *)
Fixpoint preludeLoop (cm : jstr) (n r : bool) (l : list jstr) : jstr * bool :=
  match l with
  | [] => (cm, r)
  | a :: l =>
    if eqc (head a) (ch "#") then
      preludeLoop (cm ++ (if bool_decide (cm = []) then [] else if r then [LF; LF] else [LF]) ++ commentText a) true false l
    else if eqc (head a) (ch "%") then
      match l with
      | b :: l' => if eqc (head b) (ch "#") then preludeLoop cm false r l else preludeLoop cm false r l'
      | [] => preludeLoop cm false r l
      end
    else preludeLoop cm false (if n then r else true) l
  end.

Definition parsePrelude (l : list jstr) : jstr * bool := preludeLoop [] false false l.

(** ** The composer *)

(** The fields of [mKt]; the errors and warnings are one list. *)
Record Composer := {
  cdoc : option Doc;
  atDirectives : bool;
  prelude : list jstr;
  cdiags : list diag;
  cdirectives : Directives.Directives;
  yielded : list Doc;
}.

Definition newComposer : Composer :=
  {| cdoc := None; atDirectives := false; prelude := []; cdiags := []; cdirectives := Directives.new; yielded := [] |}.

(** A comment before the first node of the contents. *)
Definition commentContents (cm : jstr) (n : node) : node :=
  let before n := onMeta (λ m, setBefore (prepend cm (mbefore m)) m) n in
  let first items :=
    match items with
    | ENode n :: l => ENode (before n) :: l
    | EPair k v :: l => EPair (before k) v :: l
    | [] => []
    end in
  match n with
  | NMap m c false ((_ :: _) as l) => NMap m c false (first l)
  | NSeq m c false ((_ :: _) as l) => NSeq m c false (first l)
  | n => before n
  end.

(** [decorate]; [after] is whether the comment comes after the document. *)
Definition decorate (after : bool) (d : Doc) (c : Composer) : Doc * Composer :=
  let '(cm, blank) := parsePrelude (prelude c) in
  let es := if after then ddiags d ++ cdiags c else cdiags c in
  let d' :=
    match cm with
    | [] => onDoc (contents d) (dcomment d) (dbefore d) es d
    | _ =>
      if after then onDoc (contents d) (joinComment (dcomment d) cm) (dbefore d) es d
      else
        match contents d with
        | Some n =>
          if blank || Directives.docStart (ddirectives d) then onDoc (contents d) (dcomment d) cm es d
          else onDoc (Some (commentContents cm n)) (dcomment d) (dbefore d) es d
        | None => onDoc None (dcomment d) cm es d
        end
    end in
  (d', {| cdoc := cdoc c; atDirectives := atDirectives c; prelude := []; cdiags := []; cdirectives := cdirectives c; yielded := yielded c |}).

Definition addDiags (l : list diag) (c : Composer) : Composer :=
  {| cdoc := cdoc c; atDirectives := atDirectives c; prelude := prelude c; cdiags := cdiags c ++ l; cdirectives := cdirectives c; yielded := yielded c |}.

Definition addPrelude (s : jstr) (c : Composer) : Composer :=
  {| cdoc := cdoc c; atDirectives := atDirectives c; prelude := prelude c ++ [s]; cdiags := cdiags c; cdirectives := cdirectives c; yielded := yielded c |}.

(** The documents of [this.doc] yielded, and [d] in its place. *)
Definition setDoc (d : option Doc) (yieldOld atDir : bool) (c : Composer) : Composer :=
  {| cdoc := d; atDirectives := atDir; prelude := prelude c; cdiags := cdiags c; cdirectives := cdirectives c;
     yielded := yielded c ++ match cdoc c with Some o => if yieldOld then [o] else [] | None => [] end |}.

Definition setDirectives_ (ds : Directives.Directives) (c : Composer) : Composer :=
  {| cdoc := cdoc c; atDirectives := atDirectives c; prelude := prelude c; cdiags := cdiags c; cdirectives := ds; yielded := yielded c |}.

Definition setAtDirectives (c : Composer) : Composer :=
  {| cdoc := cdoc c; atDirectives := true; prelude := prelude c; cdiags := cdiags c; cdirectives := cdirectives c; yielded := yielded c |}.

(** [next] *)
Definition composerNext (o : Options) (t : token) (c : Composer) : failure + Composer :=
  match t with
  | Directive off src =>
    let '(ds, es) := Directives.add src (cdirectives c) in
    let es := map (λ x, {| dpos := off + fst x; dcode := BAD_DIRECTIVE; dwarn := snd x |}) es in
    inr (setAtDirectives (addPrelude src (addDiags es (setDirectives_ ds c))))
  | Document off st v e =>
    let '(r, es, ds) := composeDoc o (cdirectives c) off st v e in
    match r with
    | inl x => inl x
    | inr d =>
      let c := addDiags es (setDirectives_ ds c) in
      let c := addDiags (report (atDirectives c && negb (Directives.docStart (ddirectives d))) off MISSING_CHAR) c in
      let '(d, c) := decorate false d c in
      inr (setDoc (Some d) true false c)
    end
  | Error off _ _ =>
    match cdoc c with
    | Some d =>
      if atDirectives c then inr (addDiags [err off UNEXPECTED_TOKEN] c)
      else inr (setDoc (Some (onDoc (contents d) (dcomment d) (dbefore d) (ddiags d ++ [err off UNEXPECTED_TOKEN]) d)) false (atDirectives c) c)
    | None => inr (addDiags [err off UNEXPECTED_TOKEN] c)
    end
  | DocEnd off src e =>
    match cdoc c with
    | None => inr (addDiags [err off UNEXPECTED_TOKEN] c)
    | Some d =>
      let '(cm, e, es) := resolveEnd (default [] e) (off + len src) (strict o) in
      let '(d, c) := decorate true d (addDiags es c) in
      let '(a, b, _) := drange d in
      inr (setDoc (Some {| contents := contents d; dcomment := joinComment (dcomment d) cm; dbefore := dbefore d; ddiags := ddiags d;
        drange := (a, b, e); ddirectives := Directives.setDocEnd (ddirectives d) |}) false (atDirectives c) c)
    end
  | Source t =>
    match ty t with
    | byte_order_mark | space => inr c
    | comment | newline => inr (addPrelude (source t) c)
    | _ => inr (addDiags [err (toffset t) UNEXPECTED_TOKEN] c)
    end
  | t => inr (addDiags [err (tokOffset t) UNEXPECTED_TOKEN] c)
  end.

(** [end(true, n)] *)
Definition composerEnd (o : Options) (n : Z) (c : Composer) : Composer :=
  match cdoc c with
  | Some d => let '(d, c) := decorate true d c in setDoc None true (atDirectives c) (setDoc (Some d) false (atDirectives c) c)
  | None =>
    let '(ds, after) := Directives.atDocument (cdirectives c) in
    let d := {| contents := None; dcomment := []; dbefore := []; ddiags := []; drange := (0, n, n); ddirectives := directives (fst (docCtx o ds)) |} in
    let c := addDiags (report (atDirectives c) n MISSING_CHAR) (setDirectives_ after c) in
    let '(d, c) := decorate false d c in
    setDoc None true (atDirectives c) (setDoc (Some d) false (atDirectives c) c)
  end.

(** [compose], until it has yielded two documents. *)
Fixpoint composeTokens (o : Options) (n : Z) (l : list token) (c : Composer) : failure + Composer :=
  match l with
  | [] => inr (composerEnd o n c)
  | t :: l =>
    match composerNext o t c with
    | inl x => inl x
    | inr c => if (2 <=? length (yielded c))%nat then inr c else composeTokens o n l c
    end
  end.

(** [FKt]: the first document; more of them are an error of it. *)
Definition parseDocument (o : Options) (src : jstr) : failure + option Doc :=
  match parse src with
  | None => inl OutOfFuel
  | Some p =>
    match composeTokens o (len src) (yields p) newComposer with
    | inl x => inl x
    | inr c =>
      inr (match yielded c with
           | [] => None
           | [d] => Some d
           | d :: e :: _ =>
             Some (onDoc (contents d) (dcomment d) (dbefore d) (ddiags d ++ [err (rangeStart (drange e)) MULTIPLE_DOCS]) d)
           end)
    end
  end.

Definition errorsOf (d : Doc) : list diag := filter (λ x, dwarn x = false) (ddiags d).

End compose.

Arguments node : clear implicits.
Arguments entry : clear implicits.
Arguments M : clear implicits.
Arguments St : clear implicits.
Arguments Doc : clear implicits.
Arguments Composer : clear implicits.

End Compose.
