(* ===== verification/YamlComposeProps.v ===== *)
(** * What the YAML composer guarantees

    Composing ends on every text.  It throws only for a document that is a double-quoted
    scalar; a document without errors comes from tokens the composer expects, in all the
    places it reads, and its maps have no key twice.

    A computation is [good] when it only adds errors, never runs out of fuel, throws only
    when it may, and its result has the property when all it reports are warnings. *)

From Stdlib Require Import ZArith Lia.
From stdpp Require Import base numbers strings gmap option list.
From S2P Require Import Prelude Js YamlLexer YamlScalars YamlScalarsProps YamlBlock YamlPrint YamlParser YamlParserProps YamlTags YamlCompose.

Open Scope Z_scope.

Import Yaml Tags Cst Compose.
Close Scope lexer_scope.

(** ** Good computations *)

Definition clean (l : list diag) : Prop := Forall (λ x, dwarn x = true) l.

Lemma clean_app a b : clean (a ++ b) ↔ clean a ∧ clean b.
Proof. apply Forall_app. Qed.

Lemma clean_nil : clean [].
Proof. constructor. Qed.

Lemma clean_err p c l : ¬ clean (err p c :: l).
Proof. intros [H _]%Forall_cons. done. Qed.

Lemma clean_report b p c : clean (report b p c) → b = false.
Proof. destruct b; [|done]. intros H. by apply clean_err in H. Qed.

Lemma clean_replicate k p c : clean (replicate k (err p c)) → k = 0%nat.
Proof. destruct k; [done|]. intros H. by apply clean_err in H. Qed.

Section good.
Context {num : Type} `{JsNumber num}.

Definition good {A} (T : Prop) (Q : A → Prop) (m : M num A) : Prop := ∀ s,
  ∃ l, errs (fst (m s)) = errs s ++ l ∧
  match snd (m s) with inl (Thrown _) => T | inl OutOfFuel => False | inr a => clean l → Q a end.

Lemma good_ret {A} T (Q : A → Prop) a : Q a → good T Q (mret a).
Proof. intros HQ s. exists []. rewrite app_nil_r. split; [reflexivity|cbn; auto]. Qed.

Lemma good_bind {A B} T (P : A → Prop) (Q : B → Prop) m f :
  good T P m → (∀ a, good T (λ b, P a → Q b) (f a)) → good T Q (m ≫= f).
Proof.
  intros Hm Hf s. destruct (Hm s) as (l & Hl & Hr). unfold mbind, M_bind. destruct (m s) as [s1 r]. cbn [fst snd] in *.
  destruct r as [[x|]|a]; [by exists l|done|]. destruct (Hf a s1) as (l' & Hl' & Hr'). exists (l ++ l').
  rewrite Hl', Hl, app_assoc. split; [done|]. destruct (snd (f a s1)) as [[x|]|b]; [done|done|].
  intros [? ?]%clean_app. auto.
Qed.

Lemma good_weaken {A} (T T' : Prop) (P Q : A → Prop) m : good T P m → (T → T') → (∀ a, P a → Q a) → good T' Q m.
Proof.
  intros Hm HT HQ s. destruct (Hm s) as (l & Hl & Hr). exists l. split; [done|]. destruct (snd (m s)) as [[x|]|a]; auto.
Qed.

Lemma good_emit T l : good T (λ _, clean l) (emit l).
Proof. intros s. exists l. split; [reflexivity|cbn; auto]. Qed.

Lemma good_get T : good T (λ _, True) get.
Proof. intros s. exists []. rewrite app_nil_r. split; [reflexivity|cbn; auto]. Qed.

Lemma good_setAtKey T b : good T (λ _, True) (setAtKey b).
Proof. intros s. exists []. rewrite app_nil_r. split; [reflexivity|cbn; auto]. Qed.

Lemma good_setAtRoot T b : good T (λ _, True) (setAtRoot b).
Proof. intros s. exists []. rewrite app_nil_r. split; [reflexivity|cbn; auto]. Qed.

Lemma good_pushTag T t : good T (λ _, True) (pushTag t).
Proof. intros s. exists []. rewrite app_nil_r. split; [reflexivity|cbn; auto]. Qed.

Lemma good_raise {A} (T : Prop) (Q : A → Prop) x : T → good T Q (raise (Thrown x)).
Proof. intros HT s. exists []. rewrite app_nil_r. split; [reflexivity|cbn; auto]. Qed.

Lemma good_catch {A} T (Q : A → Prop) m h : good True Q m → good T (λ _, False) h → good T Q (catch m h).
Proof.
  intros Hm Hh s. destruct (Hm s) as (l & Hl & Hr). unfold catch. destruct (m s) as [s1 r]. cbn [fst snd] in *.
  destruct r as [[x|]|a]; [|done|by exists l]. destruct (Hh s1) as (l' & Hl' & Hr'). exists (l ++ l').
  rewrite Hl', Hl, app_assoc. split; [done|]. destruct (snd (h s1)) as [[y|]|b]; [done|done|].
  intros [_ ?]%clean_app. exfalso. by apply Hr'.
Qed.

End good.

(** ** Props *)

(** The tokens that may be in front of a node or separator. *)
Definition okStart (flow : bool) (n : TokenType) (l : list SourceToken) : bool :=
  forallb (λ x, match ty x with
                | space | comment | newline | anchor | Yaml.tag => true
                | comma => flow
                | y => bool_decide (y = n)
                end) l.

(** And behind one. *)
Definition okEnd (l : list SourceToken) : bool := forallb (λ x, isBlankTy (ty x)) l.

(** The indicator is none of the other kinds. *)
Definition indicator (n : TokenType) : Prop := n = explicit_key_ind ∨ n = map_value_ind ∨ n = seq_item_ind ∨ n = doc_start.

Lemma propsTurn_spec flow tabs n v i : indicator n → ∃ l, ves (propsTurn flow tabs n v i) = ves v ++ l ∧
  (clean l → okStart flow n [i] = true) ∧ isSome (vb (propsTurn flow tabs n v i)) = isSome (vb v) || bool_decide (ty i = n).
Proof.
  intros Hn. unfold propsTurn, okStart. cbn [forallb]. rewrite andb_true_r. case_bool_decide as E.
  { eexists. rewrite <- app_assoc. split; [done|]. split; [|by rewrite orb_true_r]. intros _.
    rewrite E. by destruct Hn as [->|[->|[->| ->]]]. }
  rewrite orb_false_r.
  assert (∀ l, ∃ l', (ves v ++ beforeToken v i) ++ l = ves v ++ l') as Happ by (intros l; eexists; by rewrite <- app_assoc).
  destruct (ty i); try (eexists; rewrite <- ?app_assoc; split; [done|]; split; [|done]; done).
  all: try (eexists; rewrite <- app_assoc; split; [done|]; split; [|done]; intros [_ Hc]%clean_app; by apply clean_err in Hc).
  destruct flow; (eexists; rewrite <- app_assoc; split; [done|]; split; [|done]; try done).
  intros [_ Hc]%clean_app; by apply clean_err in Hc.
Qed.

Lemma propsFold_spec flow tabs n ts : indicator n → ∀ v, ∃ l, ves (foldl (propsTurn flow tabs n) v ts) = ves v ++ l ∧
  (clean l → okStart flow n ts = true) ∧ isSome (vb (foldl (propsTurn flow tabs n) v ts)) = isSome (vb v) || hasTy n ts.
Proof.
  intros Hn. induction ts as [|t ts IH]; intros v; cbn [foldl].
  { exists []. by rewrite app_nil_r, orb_false_r. }
  destruct (propsTurn_spec flow tabs n v t Hn) as (l & Hl & Hok & Hb). destruct (IH (propsTurn flow tabs n v t)) as (l' & Hl' & Hok' & Hb').
  exists (l ++ l'). split; [by rewrite Hl', Hl, app_assoc|]. split.
  - intros [? ?]%clean_app. change (t :: ts) with ([t] ++ ts). unfold okStart in *. rewrite forallb_app, Hok, Hok' by done. done.
  - rewrite Hb', Hb. unfold hasTy. cbn [existsb]. by rewrite orb_assoc.
Qed.

Lemma resolveProps_ok ts flow n next off ind nl p es : indicator n → resolveProps ts flow n next off ind nl = (p, es) →
  (clean es → okStart flow n ts = true) ∧ isSome (found p) = hasTy n ts.
Proof.
  intros Hn. unfold resolveProps. set (v0 := {| vc := false |}).
  destruct (propsFold_spec flow (negb flow && (negb (bool_decide (n = doc_start)) || negb (isFlowColl next))) n ts Hn v0) as (l & Hl & Hok & Hb).
  intros [= <- <-]. split; [|exact Hb]. rewrite Hl. intros [? _]%clean_app. by apply Hok.
Qed.

Lemma endLoop_ok req ts : ∀ i a o off es, ∃ l, snd (endLoop req i a o off es ts) = es ++ l ∧ (clean l → okEnd ts = true).
Proof.
  induction ts as [|t ts IH]; intros i a o off es; cbn [endLoop]; [by exists []; rewrite app_nil_r|].
  unfold okEnd. cbn [forallb].
  assert (∀ i a o off es es1, (∃ l, es1 = es ++ l) → (clean (drop (length es) es1) → isBlankTy (ty t) = true) →
    ∃ l, snd (endLoop req i a o off es1 ts) = es ++ l ∧ (clean l → isBlankTy (ty t) && okEnd ts = true)) as Hgo.
  { intros i' a' o' off' e es1 [l0 ->] Hb. rewrite drop_app_length in Hb.
    destruct (IH i' a' o' off' (e ++ l0)) as (l & Hl & Hok). exists (l0 ++ l). rewrite Hl, app_assoc. split; [done|].
    intros [? ?]%clean_app. by rewrite Hb, Hok. }
  destruct (ty t) eqn:E; apply Hgo; try (by exists []; rewrite app_nil_r); try done; try (by eexists).
  all: rewrite drop_app_length; intros Hc; by apply clean_err in Hc.
Qed.

Lemma resolveEnd_ok ts off req cm e es : resolveEnd ts off req = (cm, e, es) → clean es → okEnd ts = true.
Proof.
  unfold resolveEnd. destruct (endLoop_ok req ts [] false [] off []) as (l & Hl & Hok). intros Heq. rewrite Heq in Hl. cbn in Hl. by subst.
Qed.

(** ** Scalars *)

Lemma dqLoop_total fuel : ∀ r rest n es, (length rest < fuel)%nat → Scalars.dqLoop fuel r rest n es ≠ None.
Proof.
  induction fuel as [|fuel IH]; intros r rest n es Hf; [lia|]. cbn [Scalars.dqLoop].
  destruct rest as [|i [|c rest]]; [done..|]. cbn [length] in *.
  repeat case_match; try done; apply IH; rewrite ?length_drop; cbn [length] in *; lia.
Qed.

Lemma doubleQuotedValue_total e : Scalars.doubleQuotedValue e ≠ None.
Proof.
  unfold Scalars.doubleQuotedValue. pose proof (dqLoop_total (S (length e)) 1 (drop 1 e) [] []) as Ht.
  destruct (Scalars.dqLoop _ _ _ _ _) as [[[]|[]]|]; try done. exfalso. apply Ht; [|done]. rewrite length_drop. lia.
Qed.

(** The tokens of the header of a block scalar; it is there always. *)
Definition tidyProps (l : list token) : bool :=
  match l with
  | Source t :: l => bool_decide (ty t = block_scalar_header) && forallb (λ t, match t with Source t => isBlankTy (ty t) | _ => false end) l
  | _ :: _ => false
  | [] => true
  end.

Definition blockToken_ (t : token) : Block.Token :=
  {| Block.ttype := match t with Source t => Some (ty t) | _ => None end; Block.toffset := tokOffset t; Block.tsource := default [] (tokSource t) |}.

Lemma headerProps_ok strict ts : ∀ l u d es, ∃ k, snd (Block.headerProps strict l u d es (map blockToken_ ts)) = es ++ k ∧
  (k = [] → forallb (λ t, match t with Source t => isBlankTy (ty t) | _ => false end) ts = true).
Proof.
  induction ts as [|t ts IH]; intros l u d es; cbn [map Block.headerProps]; [by exists []; rewrite app_nil_r|].
  assert (∀ l u d k0, (k0 = [] → match t with Source t => isBlankTy (ty t) | _ => false end = true) →
    ∃ k, snd (Block.headerProps strict l u d (es ++ k0) (map blockToken_ ts)) = es ++ k ∧
    (k = [] → forallb (λ t, match t with Source t => isBlankTy (ty t) | _ => false end) (t :: ts) = true)) as Hgo.
  { intros l' u' d' k0 Ht. destruct (IH l' u' d' (es ++ k0)) as (k & Hk & Hok). exists (k0 ++ k). rewrite Hk, app_assoc. split; [done|].
    intros [-> ->]%app_eq_nil. cbn [forallb]. by rewrite Ht, Hok. }
  assert (∀ k0 l u d, es = es ++ k0 → (k0 = [] → match t with Source t => isBlankTy (ty t) | _ => false end = true) →
    ∃ k, snd (Block.headerProps strict l u d es (map blockToken_ ts)) = es ++ k ∧
    (k = [] → forallb (λ t, match t with Source t => isBlankTy (ty t) | _ => false end) (t :: ts) = true)) as Hsame.
  { intros k0 l' u' d' He Ht. specialize (Hgo l' u' d' k0 Ht). by rewrite <- He in Hgo. }
  destruct t as [t| | | | | | | | |]; cbn [blockToken_ Block.ttype]; try (by apply Hgo).
  destruct (ty t) eqn:E; cbn [blockToken_ Block.ttype]; rewrite ?E; try (by apply Hgo); try (apply (Hsame []); [by rewrite app_nil_r|by rewrite ?E]).
  destruct (strict && negb l); [by apply Hgo; rewrite ?E|]. apply (Hsame []); [by rewrite app_nil_r|by rewrite ?E].
Qed.

Lemma findIndent_errs h r o : ∀ i c l es, ∃ k, snd (Block.findIndent h r o i c l es) = es ++ k.
Proof.
  induction o as [|[a b] o IH]; intros i c l es; cbn [Block.findIndent]; [by exists []; rewrite app_nil_r|].
  destruct (Block.blankLine b); [apply IH|]. cbn [snd].
  destruct (_ && _), (_ <? _); rewrite <- ?app_assoc; first [by eexists|by exists []; rewrite app_nil_r].
Qed.

Lemma addLine_errs lit c st x : ∃ k, Block.berrs (Block.addLine lit c st x) = Block.berrs st ++ k.
Proof.
  unfold Block.addLine. destruct x as [t r]. repeat case_match; cbn [Block.berrs];
    first [by eexists|by exists []; rewrite app_nil_r].
Qed.

Lemma addLines_errs lit c l : ∀ st, ∃ k, Block.berrs (foldl (Block.addLine lit c) st l) = Block.berrs st ++ k.
Proof.
  induction l as [|x l IH]; intros st; cbn [foldl]; [by exists []; rewrite app_nil_r|].
  destruct (IH (Block.addLine lit c st x)) as [k ->]. destruct (addLine_errs lit c st x) as [k' ->].
  exists (k' ++ k). by rewrite app_assoc.
Qed.

(** What the header reports is reported. *)
Lemma blockValue_errs t strict root : ∃ k, snd (Block.blockValue t strict root) = snd (Block.parseHeader t strict) ++ k.
Proof.
  unfold Block.blockValue. destruct (Block.parseHeader t strict) as [[h|] es]; cbn [snd]; [|by exists []; rewrite app_nil_r].
  set (o := match Block.source t with [] => [] | _ => _ end). destruct (Block.contentLines o) as [|s]; [by exists []; rewrite app_nil_r|].
  destruct (Block.findIndent _ _ _ _ _ _ _) as [[[c u] l] es1] eqn:E. cbn [snd].
  edestruct (addLines_errs (negb (eqc (Block.mode h) (ch ">"))) c) as [k ->]. cbn [Block.berrs].
  edestruct findIndent_errs as [k' Hk']. rewrite E in Hk'. cbn [snd] in Hk'. rewrite Hk'. eexists. by rewrite <- app_assoc.
Qed.

Lemma parseHeader_ok o i props src strict :
  snd (Block.parseHeader (blockToken o i props src) strict) = [] → tidyProps props = true.
Proof.
  unfold Block.parseHeader. cbn [blockToken Block.props].
  change (map _ props) with (map blockToken_ props). destruct props as [|t props]; [done|]. cbn [map].
  destruct t as [t| | | | | | | | |]; try done. cbn [blockToken_ Block.ttype]. destruct (ty t) eqn:E; try done.
  destruct (Block.headerChars _ _ _ _ _) as [[oo k] bad]. set (es := match bad with Some c => _ | None => _ end).
  destruct (headerProps_ok strict props false [] (len (Block.tsource (blockToken_ (Source t)))) es) as (kk & Hk & Hok).
  cbn [blockToken_ Block.tsource] in Hk. cbn [Block.tsource tokSource]. destruct (Block.headerProps _ _ _ _ _ _) as [[u d] es'].
  cbn [snd] in *. subst es'. intros [_ ->]%app_eq_nil. cbn [tidyProps]. rewrite E. by rewrite Hok.
Qed.

Lemma blockParts_ok strict root o i props src p es :
  blockParts strict root o i props src = (p, es) → clean es → tidyProps props = true.
Proof.
  unfold blockParts. pose proof (blockValue_errs (blockToken o i props src) strict root) as [k Hk].
  destruct (Block.blockValue _ _ _) as [v es0]. cbn [snd] in Hk. intros [= _ <-] Hc.
  apply (parseHeader_ok o i props src strict). destruct es0 as [|e es0]; [by destruct (snd (Block.parseHeader _ _))|].
  by apply clean_err in Hc.
Qed.

(** The steps of a computation. *)
Ltac gstep :=
  lazymatch goal with
  | |- good _ _ (mbind _ (emit _)) => eapply good_bind; [apply good_emit|intros []]
  | |- good _ _ (mbind _ get) => eapply good_bind; [apply good_get|intros ?s]
  | |- good _ _ (mbind _ (setAtKey _)) => eapply good_bind; [apply good_setAtKey|intros []]
  | |- good _ _ (mbind _ (setAtRoot _)) => eapply good_bind; [apply good_setAtRoot|intros []]
  | |- good _ _ (mbind _ (pushTag _)) => eapply good_bind; [apply good_pushTag|intros []]
  | |- good _ _ (mret _) => apply good_ret
  end.
Ltac gsteps := repeat gstep.

Section compose.
Context {num : Type} `{JsNumber num}.

(** A double-quoted scalar may throw. *)
Definition isDQ (t : token) : Prop := match t with FlowScalar double_quoted_scalar _ _ _ _ => True | _ => False end.

Definition isScalarTy (y : TokenType) : bool := match y with scalar | single_quoted_scalar | double_quoted_scalar => true | _ => false end.

Lemma flowParts_good strict y o src e :
  good (y = double_quoted_scalar) (λ _, isScalarTy y = true ∧ okEnd (default [] e) = true) (flowParts (num := num) strict y o src e).
Proof.
  unfold flowParts. assert (∀ v st T, good T (λ _, okEnd (default [] e) = true) (flowRest (num := num) strict o src e v st)) as Hf.
  { intros v st T. unfold flowRest. destruct (resolveEnd _ _ _) as [[cm off] es] eqn:E. gsteps. intros Hc. by eapply resolveEnd_ok. }
  destruct y; try (gsteps; by intros ?%clean_err).
  - destruct (Scalars.plainValue src) as [v es]. gsteps. eapply good_weaken; [apply Hf|done|]. auto.
  - destruct (Scalars.singleQuotedValue src) as [v es]. gsteps. eapply good_weaken; [apply Hf|done|]. auto.
  - pose proof (doubleQuotedValue_total src) as Ht. destruct (Scalars.doubleQuotedValue src) as [[[x es]|[v es]]|]; [| |done].
    + gsteps. by apply good_raise.
    + gsteps. eapply good_weaken; [apply Hf|done|]. auto.
Qed.

Definition tidyScalar (t : token) : bool :=
  match t with
  | FlowScalar y _ _ _ e => isScalarTy y && okEnd (default [] e)
  | BlockScalar _ _ props _ => tidyProps props
  | _ => false
  end.

Lemma scalarParts_good c t : good (isDQ t) (λ _, tidyScalar t = true) (scalarParts (num := num) c t).
Proof.
  unfold scalarParts. gsteps. destruct t as [| | | | |y o i src e|o i props src| | |];
    try (eapply good_weaken; [apply flowParts_good|done|by intros ? [? _]]).
  - eapply good_weaken; [apply flowParts_good| |].
    + by intros ->.
    + intros a [H1 H2] _. cbn. by rewrite H1, H2.
  - destruct (blockParts _ _ _ _ _ _) as [p es] eqn:E. gsteps. intros Hc _. by eapply blockParts_ok.
Qed.

Lemma findTag_good T c v n p : good T (λ _, True) (findScalarTagByName (num := num) c v n p).
Proof.
  unfold findScalarTagByName. case_bool_decide; [by gsteps|]. gsteps. destruct (untested n (tags s)) as [[t|] a]; [by gsteps|].
  destruct (find (testOf v) a); [by gsteps|]. destruct (knownTag _ n) as [t| |]; [|by gsteps|by gsteps].
  destruct (isSome (tcollection t)); by gsteps.
Qed.

Lemma tagNameOf_good T c t : good T (λ _, True) (tagNameOf (num := num) c t).
Proof. unfold tagNameOf. destruct (Directives.tagName _ _). by gsteps. Qed.

(** ** Keys *)

Definition sameKey (e : entry num) (k : node num) : bool :=
  match e with
  | EPair k' _ => match isScalarNode k', isScalarNode k with Some a, Some b => valueIs a b | _, _ => false end
  | ENode _ => false
  end.

(** No scalar key is there twice. *)
Fixpoint noRepeat (items : list (entry num)) : bool :=
  match items with
  | [] => true
  | e :: items => forallb (λ e', match e' with EPair k _ => negb (sameKey e k) | ENode _ => true end) items && noRepeat items
  end.

(** In all maps of a node. *)
Fixpoint distinctKeys (n : node num) : bool :=
  match n with
  | NMap _ _ _ items => noRepeat items && forallb distinctEntry items
  | NSeq _ _ _ items => forallb distinctEntry items
  | _ => true
  end
with distinctEntry (e : entry num) : bool :=
  match e with
  | ENode n => distinctKeys n
  | EPair k v => distinctKeys k && match v with Some v => distinctKeys v | None => true end
  end.

Lemma distinct_onMeta f n : distinctKeys (onMeta f n) = distinctKeys n.
Proof. by destruct n. Qed.

Lemma scalar_onMeta f n : isScalarNode (onMeta f n) = isScalarNode (num := num) n.
Proof. by destruct n. Qed.

Lemma sameKey_meta f k l : existsb (λ e, sameKey e (onMeta f k)) l = existsb (λ e, sameKey e k) l.
Proof. induction l as [|e l IH]; [done|]. cbn [existsb]. rewrite IH. unfold sameKey. by rewrite scalar_onMeta. Qed.

Lemma noRepeat_snoc l k v : noRepeat (l ++ [EPair k v]) = noRepeat l && negb (existsb (λ e, sameKey e k) l).
Proof.
  induction l as [|e l IH]; [done|]. cbn [app noRepeat existsb]. rewrite IH, forallb_app. cbn [forallb]. rewrite andb_true_r.
  destruct (forallb _ l), (noRepeat l), (sameKey e k), (existsb _ l); done.
Qed.

(** The node of an empty place or a scalar. *)
Lemma composeScalar_good c t tg : good (isDQ t) (λ n, tidyScalar t = true ∧ distinctKeys n = true) (composeScalar (num := num) c t tg).
Proof.
  unfold composeScalar. eapply good_bind; [apply scalarParts_good|intros p].
  eapply (good_bind _ (λ _, True)); [destruct tg; [apply tagNameOf_good|by gsteps]|intros name]. gsteps.
  eapply (good_bind _ (λ _, True)).
  { destruct (_ && _); [by gsteps|]. destruct (truthy name); [apply findTag_good|by gsteps]. }
  intros l. eapply (good_bind _ (λ _, True)); [destruct (resolveScalar l _); by gsteps|intros [v d]]. by gsteps.
Qed.

Lemma composeEmptyNode_good T c off before p : good T (λ n, distinctKeys n = true) (composeEmptyNode (num := num) c off before p).
Proof.
  unfold composeEmptyNode.
  eapply (good_bind _ (λ n, distinctKeys n = true)); [eapply good_weaken; [apply composeScalar_good|done|by intros ? [_ ?]]|intros u].
  eapply (good_bind _ (λ n, distinctKeys u = true → distinctKeys n = true)).
  { destruct (panchor p); gsteps; [intros _ ?; by rewrite distinct_onMeta|done]. }
  intros u'. gsteps. intros Hu Hd. destruct (pcomment p), (spaceBefore p); rewrite ?distinct_onMeta; auto.
Qed.

Lemma composeAlias_good T c o src e : good T (λ n, okEnd (default [] e) = true ∧ distinctKeys n = true) (composeAlias (num := num) c o src e).
Proof.
  unfold composeAlias. gsteps. destruct (resolveEnd _ _ _) as [[cm off] es] eqn:E. gsteps. intros Hc _. split; [by eapply resolveEnd_ok|done].
Qed.

(** ** Collections *)

(** The key and value of an item, where they are composed, are as they should be. *)
Definition citemOk (U : Prop) (P : token → Prop) (x : citem (num := num)) : Prop :=
  match ikey (ci x), ckey x with
  | Some k, Some f => ∀ p, good True (λ n, P k ∧ (U → distinctKeys n = true)) (f p)
  | None, None => True
  | _, _ => False
  end ∧
  match ivalue (ci x), cval x with
  | Some k, Some f => ∀ p, good True (λ n, P k ∧ (U → distinctKeys n = true)) (f p)
  | None, None => True
  | _, _ => False
  end.

Definition ofOpt (P : token → Prop) (t : option token) : Prop := match t with Some t => P t | None => True end.

Lemma composeOr_key U P c x off before p : citemOk U P x →
  good True (λ n, ofOpt P (ikey (ci x)) ∧ (U → distinctKeys n = true)) (composeOr c (ckey x) off before p).
Proof.
  intros [Hk _]. unfold composeOr. destruct (ikey (ci x)), (ckey x); try done; try (by apply Hk).
  eapply (good_weaken True); [apply composeEmptyNode_good|done|]. by intros n ?.
Qed.

Lemma composeOr_value U P c x off before p : citemOk U P x →
  good True (λ n, ofOpt P (ivalue (ci x)) ∧ (U → distinctKeys n = true)) (composeOr c (cval x) off before p).
Proof.
  intros [_ Hk]. unfold composeOr. destruct (ivalue (ci x)), (cval x); try done; try (by apply Hk).
  eapply (good_weaken True); [apply composeEmptyNode_good|done|]. by intros n ?.
Qed.

Lemma loop_good {A} (R : A → Prop) (I : Acc (num := num) → Prop) f (l : list A) : ∀ a,
  (∀ a x, x ∈ l → good True (λ a', R x ∧ (I a → I a')) (f a x)) →
  good True (λ a', Forall R l ∧ (I a → I a')) (loop f a l).
Proof.
  induction l as [|x l IH]; intros a Hf; cbn [loop]; [by gsteps|].
  eapply good_bind; [apply Hf; left|intros a1]. eapply good_weaken; [apply IH|done|].
  - intros a2 y Hy. apply Hf. by right.
  - intros a2 [Hl Ha] [Hx Hi]. split; [by constructor|auto].
Qed.

Section items.
Context (c : Ctx) (P : token → Prop).
Let U : Prop := uniqueKeys (options c) = true.

(** The entries so far have no key twice. *)
Definition mapOk (a : Acc (num := num)) : Prop := U → noRepeat (aitems a) = true ∧ forallb distinctEntry (aitems a) = true.
Definition seqOk (a : Acc (num := num)) : Prop := U → forallb distinctEntry (aitems a) = true.

Lemma mapIncludes_false l k : mapIncludes c l k = false → U → existsb (λ e, sameKey e k) l = false.
Proof. unfold mapIncludes, U. intros Hm HU. rewrite HU in Hm. exact Hm. Qed.

Lemma mapOk_snoc a k v cm off e : mapOk a → (U → existsb (λ e, sameKey e k) (aitems a) = false) → (U → distinctKeys k = true) →
  (U → match v with Some v => distinctKeys v = true | None => True end) →
  mapOk {| aitems := aitems a ++ [EPair k v]; acomment := cm; aoff := off; aend := e |}.
Proof.
  intros Ha Hn Hk Hv HU. destruct (Ha HU) as [H1 H2]. cbn [aitems]. rewrite noRepeat_snoc, forallb_app, H1, H2, (Hn HU). cbn.
  rewrite (Hk HU). specialize (Hv HU). split; [done|]. destruct v; [by rewrite Hv|done].
Qed.

(** An item of a block map, where it is read. *)
Definition blockMapTidy (i : item) : Prop :=
  okStart false explicit_key_ind (istart i) = true ∧
  match isep i with
  | Some sep => ofOpt P (ikey i) ∧ okStart false map_value_ind sep = true ∧ (hasTy map_value_ind sep = true → ofOpt P (ivalue i))
  | None => True
  end.

Lemma blockMapItem_good ind a x : citemOk U P x → good True (λ a', blockMapTidy (ci x) ∧ (mapOk a → mapOk a')) (blockMapItem c ind a x).
Proof.
  intros Hx. unfold blockMapItem. destruct (resolveProps _ _ explicit_key_ind _ _ _ _) as [p es] eqn:Ep.
  apply resolveProps_ok in Ep as [Hes Hfound]; [|by left]. gsteps. destruct (_ && negb (isSome (isep (ci x)))) eqn:Eskip.
  { gsteps. intros _ Hc. split; [|done]. apply andb_prop in Eskip as [_ Es]. split; [auto|]. by destruct (isep (ci x)). }
  gsteps. eapply good_bind; [by apply composeOr_key|intros g]. gsteps.
  destruct (resolveProps _ _ map_value_ind _ _ _ _) as [q es2] eqn:Eq. apply resolveProps_ok in Eq as [Hes2 Hfq]; [|by right; left]. gsteps.
  destruct (found q) as [f|]; cbn [isSome] in Hfq.
  - gsteps. eapply good_bind; [by apply composeOr_value|intros v]. gsteps.
    intros [Hv Hvd] _ Hc2 Hdup%clean_report _ [Hk Hkd] _ _ _ Hc1. split.
    + split; [auto|]. destruct (isep (ci x)); [|done]. auto.
    + intros Ha. apply mapOk_snoc; auto. by apply mapIncludes_false.
  - gsteps. intros _ Hc2 Hdup%clean_report _ [Hk Hkd] _ _ _ Hc1. split.
    + split; [auto|]. unfold blockMapTidy in *. destruct (isep (ci x)) as [sep|]; [|done]. split; [done|]. split; [auto|]. change (default [] (Some sep)) with sep in Hfq. by rewrite <- Hfq.
    + intros Ha. apply mapOk_snoc; auto; [|by rewrite distinct_onMeta].
      rewrite sameKey_meta. by apply mapIncludes_false.
Qed.

(** An item of a block sequence. *)
Definition blockSeqTidy (i : item) : Prop := okStart false seq_item_ind (istart i) = true ∧ ofOpt P (ivalue i).

Lemma seqOk_snoc a n cm off e : seqOk a → (U → distinctKeys n = true) →
  seqOk {| aitems := aitems a ++ [ENode n]; acomment := cm; aoff := off; aend := e |}.
Proof. intros Ha Hn HU. cbn [aitems]. rewrite forallb_app, (Ha HU). cbn. by rewrite (Hn HU). Qed.

Lemma blockSeqItem_good ind a x : citemOk U P x → good True (λ a', blockSeqTidy (ci x) ∧ (seqOk a → seqOk a')) (blockSeqItem c ind a x).
Proof.
  intros Hx. unfold blockSeqItem. destruct (resolveProps _ _ seq_item_ind _ _ _ _) as [p es] eqn:Ep.
  apply resolveProps_ok in Ep as [Hes Hfound]; [|by right; right; left]. gsteps. destruct (_ && negb (isSome (ivalue (ci x)))) eqn:Eskip.
  { gsteps. intros Hc. split; [|done]. apply andb_prop in Eskip as [_ Es]. split; [auto|]. by destruct (ivalue (ci x)). }
  gsteps. eapply good_bind; [by apply composeOr_value|intros v]. gsteps. intros [Hv Hvd] _ Hc. split; [by split; auto|].
  intros Ha. by apply seqOk_snoc.
Qed.

(** An item of a flow collection. *)
Definition flowTidy (i : item) : Prop :=
  okStart true explicit_key_ind (istart i) = true ∧ ofOpt P (ivalue i) ∧
  match isep i with Some sep => ofOpt P (ikey i) ∧ okStart true map_value_ind sep = true | None => True end.

(** The entries of a flow map or sequence. *)
Definition flowOk (isMap : bool) (items : list (entry num)) : Prop :=
  U → (if isMap then noRepeat items = true else True) ∧ forallb distinctEntry items = true.

Lemma commentLast_ok isMap cm l l' : commentLast cm l = Some l' → flowOk isMap l → flowOk isMap l'.
Proof.
  unfold commentLast. destruct (last l) as [e|] eqn:E; [|done]. apply last_Some in E as [r ->]. rewrite removelast_last.
  intros [= <-] Hl HU. destruct (Hl HU) as [H1 H2]. rewrite forallb_app in *. apply andb_prop in H2 as [H2 H3]. rewrite H2. split.
  - destruct isMap; [|done]. destruct e as [n|k [v|]].
    + clear - H1. induction r as [|e r IH]; [done|]. cbn [app noRepeat] in *. apply andb_prop in H1 as [H1 H4].
      rewrite forallb_app in *. apply andb_prop in H1 as [H1 _]. by rewrite H1, IH.
    + by rewrite noRepeat_snoc in *.
    + by rewrite noRepeat_snoc, ?sameKey_meta in *.
  - destruct e as [n|k [v|]]; cbn in *; by rewrite ?distinct_onMeta.
Qed.

Lemma flowComma_good isMap first p i l : good True (λ r, flowOk isMap l → flowOk isMap (fst r)) (flowComma first p i l).
Proof.
  unfold flowComma. destruct first; [by gsteps|]. gsteps. destruct (pcomment p) as [|x r]; [by gsteps|].
  destruct (lineComment (istart i)) as [|y r']; [by gsteps|]. destruct (commentLast _ l) as [l'|] eqn:E; [|by apply good_raise].
  gsteps. intros _. by eapply commentLast_ok.
Qed.

Lemma flowOk_snoc isMap l k v : flowOk isMap l → (U → isMap = true → existsb (λ e, sameKey e k) l = false) → (U → distinctKeys k = true) →
  (U → match v with Some v => distinctKeys v = true | None => True end) →
  ∀ m, flowOk isMap (l ++ [if isMap then EPair k v else ENode (NMap m false true [EPair k v])]).
Proof.
  intros Hl Hn Hk Hv m HU. destruct (Hl HU) as [H1 H2]. rewrite forallb_app, H2. specialize (Hk HU). specialize (Hv HU).
  destruct isMap.
  - rewrite noRepeat_snoc, H1, (Hn HU eq_refl). split; [done|]. cbn. rewrite Hk. by destruct v; [rewrite Hv|].
  - split; [done|]. cbn. rewrite Hk. by destruct v; [rewrite Hv|].
Qed.

Lemma flowPair_good isMap ind a x p : citemOk U P x →
  good True (λ a', ofOpt P (ikey (ci x)) ∧ ofOpt P (ivalue (ci x)) ∧ okStart true map_value_ind (default [] (isep (ci x))) = true ∧
    (flowOk isMap (aitems a) → flowOk isMap (aitems a'))) (flowPair c isMap ind a x p).
Proof.
  intros Hx. unfold flowPair. gsteps. eapply good_bind; [by apply composeOr_key|intros g]. gsteps.
  destruct (resolveProps _ _ map_value_ind _ _ _ _) as [q es] eqn:Eq. apply resolveProps_ok in Eq as [Hes Hfq]; [|by right; left]. gsteps.
  eapply (good_bind _ (λ v, ofOpt P (ivalue (ci x)) ∧ (U → match v with Some v => distinctKeys v = true | None => True end))).
  { destruct Hx as [_ Hv]. destruct (cval x) as [f|].
    - destruct (ivalue (ci x)) as [t|]; [|done]. eapply good_bind; [apply Hv|intros v]. gsteps. by intros [? ?].
    - assert (ofOpt P (ivalue (ci x))) as Hval by (by destruct (ivalue (ci x))). destruct (isSome (found q)); [|by gsteps].
      eapply good_bind; [apply composeEmptyNode_good|intros v]. by gsteps. }
  intros v. gsteps. destruct (nrange (default _ v)) as [[r0 b] e]. gsteps.
  intros Hdup%clean_report _ [Hval Hvd] _ Hc _ _ [Hk Hkd] _.
  split; [done|]. split; [done|]. split; [auto|]. intros Ha. cbn [aitems].
  assert (∀ g', g' = g ∨ g' = onMeta (addComment (pcomment q)) g → isMap && mapIncludes c (aitems a) g' = false → ∀ m,
    flowOk isMap (aitems a ++ [if isMap then EPair g' v else ENode (NMap m false true [EPair g' v])])) as Hgo.
  { intros g' Hg Hd m. apply flowOk_snoc; [done| | |done].
    - intros HU ->. by apply mapIncludes_false.
    - intros HU. destruct Hg as [-> | ->]; rewrite ?distinct_onMeta; auto. }
  destruct v as [v|]; apply Hgo; auto.
Qed.

Lemma flowItem_good isMap ind n a k x : citemOk U P x →
  good True (λ a', flowTidy (ci x) ∧ (flowOk isMap (aitems a) → flowOk isMap (aitems a'))) (flowItem c isMap ind n a (k, x)).
Proof.
  intros Hx. unfold flowItem. destruct (resolveProps _ _ explicit_key_ind _ _ _ _) as [p es] eqn:Ep.
  apply resolveProps_ok in Ep as [Hes Hfound]; [|by left]. gsteps. destruct (_ && negb (isSome (ivalue (ci x)))) eqn:Eskip.
  { gsteps. intros _ Hc. split; [|done]. apply andb_prop in Eskip as [Es Ev]. apply andb_prop in Es as [_ Es].
    split; [auto|]. by destruct (ivalue (ci x)), (isep (ci x)). }
  gsteps. eapply good_bind; [apply (flowComma_good isMap)|intros [l p']]. destruct (negb isMap && _ && _) eqn:Eseq.
  - apply andb_prop in Eseq as [Es _]. apply andb_prop in Es as [Em Es].
    eapply good_bind; [by apply composeOr_value|intros r]. gsteps. cbn [aitems fst]. intros _ [Hv Hd] Hl _ Hc. split.
    + split; [auto|]. split; [done|]. by destruct (isep (ci x)).
    + intros Ha HU. destruct (Hl Ha HU) as [H1 H2]. destruct isMap; [done|]. split; [done|]. rewrite forallb_app, H2. cbn. by rewrite Hd.
  - eapply good_weaken; [by apply flowPair_good|done|]. cbn [aitems fst]. intros a' (Hk & Hv & Hs & Ha') Hl _ Hc. split.
    + split; [auto|]. split; [done|]. by destruct (isep (ci x)).
    + auto.
Qed.

End items.

(** A collection is composed of its items. *)
Definition collOk (U R : Prop) (n : node num) : Prop := R ∧ (U → distinctKeys n = true).

Lemma composeBlockMap_good c P sp o ind items (U : Prop := uniqueKeys (options c) = true) : Forall (citemOk U P) items →
  good True (collOk U (Forall (blockMapTidy P) (map ci items))) (composeBlockMap c sp o ind items).
Proof.
  intros Hi. unfold composeBlockMap. gsteps. eapply good_bind; [apply (loop_good (λ x, blockMapTidy P (ci x)) (mapOk c))|intros a].
  - intros a x Hx. apply blockMapItem_good. by eapply Forall_forall.
  - gsteps. intros _ [Hl Ha] _. split; [by apply Forall_fmap|]. intros HU. cbn [distinctKeys].
    destruct (Ha ltac:(done) HU) as [-> ->]. done.
Qed.

Lemma composeBlockSeq_good c P sp o ind items (U : Prop := uniqueKeys (options c) = true) : Forall (citemOk U P) items →
  good True (collOk U (Forall (blockSeqTidy P) (map ci items))) (composeBlockSeq c sp o ind items).
Proof.
  intros Hi. unfold composeBlockSeq. gsteps. eapply good_bind; [apply (loop_good (λ x, blockSeqTidy P (ci x)) (seqOk c))|intros a].
  - intros a x Hx. apply blockSeqItem_good. by eapply Forall_forall.
  - gsteps. intros [Hl Ha] _ _. split; [by apply Forall_fmap|]. exact (Ha ltac:(done)).
Qed.

(** The end of a flow collection. *)
Definition tidyFlowEnd (fs : SourceToken) (e : list SourceToken) : bool :=
  match e with
  | f :: p => bool_decide (source f = runes (if bool_decide (source fs = runes "{") then "}" else "]")) && okEnd p
  | [] => false
  end.

Lemma flowEnd_ok c isMap root off e m e' cm es : flowEnd c isMap root off e = (m, e', cm, es) → clean es →
  match e with f :: p => bool_decide (source f = runes (if isMap then "}" else "]")) && okEnd p | [] => false end = true.
Proof.
  unfold flowEnd. destruct e as [|f p]; [intros [= _ _ _ <-] Hc; by apply clean_err in Hc|].
  destruct (bool_decide (source f = _)); cbn [andb].
  - destruct p as [|t p]; [done|]. destruct (resolveEnd (t :: p) _ _) as [[cm0 e0] es0] eqn:E. intros [= _ _ _ <-] Hc. by eapply resolveEnd_ok.
  - destruct (if len (source f) =? 1 then p else f :: p) as [|t q]; [|destruct (resolveEnd (t :: q) _ _) as [[cm0 e0] es0]];
      intros [= _ _ _ <-] Hc; by apply clean_err in Hc.
Qed.

Lemma Forall_imap_pair {A} (R : A → Prop) (l : list A) : Forall R l → Forall (λ x : nat * A, R (snd x)) (imap pair l).
Proof. intros Hl. apply Forall_lookup. intros i [k x]. rewrite list_lookup_imap, fmap_Some. intros (y & Hy & [= -> ->]). by eapply Forall_lookup. Qed.

Lemma Forall_imap_pair_inv {A} (R : A → Prop) (l : list A) : Forall (λ x : nat * A, R (snd x)) (imap pair l) → Forall R l.
Proof.
  rewrite !Forall_lookup. intros Hl i x Hx. specialize (Hl i (i, x)). rewrite list_lookup_imap, Hx in Hl. by apply Hl.
Qed.

Lemma composeFlow_good c P sp o ind fs items e (U : Prop := uniqueKeys (options c) = true) : Forall (citemOk U P) items →
  good True (collOk U (Forall (flowTidy P) (map ci items) ∧ tidyFlowEnd fs e = true)) (composeFlowCollection c sp o ind fs items e).
Proof.
  intros Hi. unfold composeFlowCollection. gsteps. set (isMap := bool_decide (source fs = runes "{")).
  eapply good_bind; [apply (loop_good (λ x, flowTidy P (ci (snd x))) (λ a, flowOk c isMap (aitems a)))|intros a].
  - intros a [k x] Hx. apply flowItem_good. apply Forall_imap_pair in Hi. rewrite Forall_forall in Hi. by specialize (Hi _ Hx).
  - destruct (flowEnd _ _ _ _ _) as [[[m e'] cm] es] eqn:E. gsteps. intros Hc [Hl Ha] _ _ _. split.
    + split; [apply Forall_fmap; by apply (Forall_imap_pair_inv (λ x, flowTidy P (ci x)))|]. by eapply flowEnd_ok in E.
    + intros HU. destruct (Ha ltac:(by destruct isMap) HU) as [H1 H2]. destruct isMap; cbn [distinctKeys]; [by rewrite H1, H2|done].
Qed.

(** ** Tags of collections *)

Lemma toPair_distinct e : distinctEntry e = true → distinctEntry (fst (toPair e)) = true.
Proof.
  destruct e as [n|k v]; [|done]. cbn [distinctEntry]. destruct n as [| |m st fl items|]; cbn [toPair fst]; intros Hd; try (by cbn in *; rewrite ?Hd).
  cbn [distinctKeys] in Hd. apply andb_prop in Hd as [_ Hd].
  assert (∀ k v, distinctKeys k = true → match v with Some v => distinctKeys v | None => true end = true → distinctEntry (fst
    (match v with
     | Some v => EPair (onMeta (λ n, setBefore (prepend (mbefore m) (mbefore n)) n) k) (Some (onMeta (λ n, setComment (prepend (mcomment m) (mcomment n)) n) v))
     | None => EPair (onMeta (λ n, setComment (prepend (mcomment m) (mcomment n)) n) (onMeta (λ n, setBefore (prepend (mbefore m) (mbefore n)) n) k)) None
     end, (1 <? length items)%nat)) = true) as Hgo.
  { intros k [v|] Hk Hv; cbn [fst distinctEntry]; rewrite ?distinct_onMeta, Hk; [|done]. by rewrite Hv. }
  destruct items as [|[n|k v] items]; cbn [forallb] in Hd; try (by apply (Hgo nullNode None)).
  apply andb_prop in Hd as [Hd _]. cbn [distinctEntry] in Hd. apply andb_prop in Hd as [Hk Hv]. by apply (Hgo k v).
Qed.

Lemma resolveCollection_distinct a n : distinctKeys n = true → distinctKeys (fst (resolveCollection a n)) = true.
Proof.
  assert (∀ l, forallb distinctEntry l = true → forallb distinctEntry (map (fst ∘ toPair) l) = true) as Hmap.
  { intros l. induction l as [|e l IH]; [done|]. cbn [forallb map compose]. intros [? ?]%andb_prop. rewrite toPair_distinct by done. auto. }
  destruct a, n; cbn [resolveCollection fst distinctKeys]; try done; try (apply Hmap). by destruct (allNullValues items).
Qed.

Lemma nameCollection_distinct name n : distinctKeys (nameCollection name n) = distinctKeys n.
Proof. unfold nameCollection. repeat case_match; by rewrite ?distinct_onMeta. Qed.

Lemma collectionTag_good T c k n t : good T (λ _, True) (collectionTag (num := num) c k n t).
Proof.
  unfold collectionTag. gsteps. destruct (find _ _); [by gsteps|]. destruct (knownTag _ n) as [f| |]; [|by gsteps|by gsteps].
  destruct (sameKind _ k); by gsteps.
Qed.

Lemma composeCollection_good c t p make U R : (∀ sp, good True (collOk U R) (make sp)) →
  good True (collOk U R) (composeCollection c t p make).
Proof.
  intros Hm. unfold composeCollection. eapply (good_bind _ (λ _, True)).
  { destruct (ptag p); [apply tagNameOf_good|by gsteps]. }
  intros name. gsteps.
  assert (∀ Q : Prop, good True (λ n, Q → collOk U R n) (l ← make false; mret (nameCollection name l))) as Hplain.
  { intros Q. eapply good_bind; [apply Hm|intros l]. gsteps. intros [? ?] _. split; [done|]. by rewrite nameCollection_distinct. }
  assert (∀ Q Q' : Prop, good True (λ n, Q → Q' → collOk U R n) (l ← make false; mret (nameCollection name l))) as Hplain2.
  { intros Q Q'. eapply good_weaken; [apply (Hplain Q)|done|auto]. }
  destruct (ptag p) as [tok|]; [|auto]. destruct name as [[|x n]|]; [auto| |auto]. destruct (_ || _); [auto|].
  eapply good_bind; [apply collectionTag_good|intros [f|]].
  - eapply good_bind; [apply Hm|intros l].
    pose proof (resolveCollection_distinct (taction f) (nameCollection (Some (x :: n)) l)) as Hd.
    destruct (resolveCollection _ _) as [d e]. gsteps. cbn [fst] in Hd.
    intros _ [? Hl] _ _. split; [done|]. intros HU. rewrite distinct_onMeta. apply Hd. rewrite nameCollection_distinct. auto.
  - eapply good_bind; [apply Hm|intros l]. gsteps. intros [? ?] _ _. split; [done|]. by rewrite nameCollection_distinct.
Qed.

(** ** Nodes *)

(** A token as the composer expects it, in all the places it reads: the value of an explicit
    key in a block map only after its indicator, and keys only with a separator. *)
Fixpoint tidy (t : token) : bool :=
  match t with
  | FlowScalar y _ _ _ e => match y with alias | scalar | single_quoted_scalar | double_quoted_scalar => okEnd (default [] e) | _ => false end
  | BlockScalar _ _ props _ => tidyProps props
  | BlockMap _ _ items => forallb tidyMapItem items
  | BlockSeq _ _ items => forallb tidySeqItem items
  | FlowCollection _ _ fs items e => forallb tidyFlowItem items && tidyFlowEnd fs e
  | _ => false
  end
with tidyMapItem (i : item) : bool :=
  let 'Item s k p v _ := i in
  okStart false explicit_key_ind s &&
  match p with
  | Some p =>
    match k with Some k => tidy k | None => true end && okStart false map_value_ind p
    && (negb (hasTy map_value_ind p) || match v with Some v => tidy v | None => true end)
  | None => true
  end
with tidySeqItem (i : item) : bool :=
  let 'Item s _ _ v _ := i in okStart false seq_item_ind s && match v with Some v => tidy v | None => true end
with tidyFlowItem (i : item) : bool :=
  let 'Item s k p v _ := i in
  okStart true explicit_key_ind s && match v with Some v => tidy v | None => true end &&
  match p with Some p => match k with Some k => tidy k | None => true end && okStart true map_value_ind p | None => true end.

Definition isTidy (t : token) : Prop := tidy t = true.

Lemma tidyMap_items l : Forall (blockMapTidy isTidy) l → forallb tidyMapItem l = true.
Proof.
  induction 1 as [|[s k p v e] l [H1 H2] _ IH]; [done|]. cbn [forallb tidyMapItem istart isep ikey ivalue] in *. rewrite H1, IH.
  destruct p as [p|]; [|done]. destruct H2 as (Hk & Hp & Hv). rewrite Hp.
  assert (match k with Some k => tidy k | None => true end = true) as -> by (by destruct k). cbn.
  destruct (hasTy map_value_ind p); [|done]. cbn. specialize (Hv eq_refl). destruct v; [by rewrite Hv|done].
Qed.

Lemma tidySeq_items l : Forall (blockSeqTidy isTidy) l → forallb tidySeqItem l = true.
Proof.
  induction 1 as [|[s k p v e] l [H1 H2] _ IH]; [done|]. cbn [forallb tidySeqItem istart ivalue] in *. rewrite H1, IH.
  destruct v; [by rewrite H2|done].
Qed.

Lemma tidyFlow_items l : Forall (flowTidy isTidy) l → forallb tidyFlowItem l = true.
Proof.
  induction 1 as [|[s k p v e] l (H1 & H2 & H3) _ IH]; [done|]. cbn [forallb tidyFlowItem istart isep ikey ivalue] in *. rewrite H1, IH.
  assert (match v with Some v => tidy v | None => true end = true) as -> by (by destruct v). cbn.
  destruct p as [p|]; [|done]. destruct H3 as [Hk Hp]. rewrite Hp. by destruct k; [rewrite Hk|].
Qed.

(** Tokens by induction: a collection from its items, an item from its key and value. *)
Lemma token_items_ind (P : token → Prop) (Q : item → Prop) :
  (∀ s k p v e, (∀ t, k = Some t → P t) → (∀ t, v = Some t → P t) → Q (Item s k p v e)) →
  (∀ o n l, Forall Q l → P (BlockMap o n l)) → (∀ o n l, Forall Q l → P (BlockSeq o n l)) →
  (∀ o n s l e, Forall Q l → P (FlowCollection o n s l e)) →
  (∀ t, match t with BlockMap _ _ _ | BlockSeq _ _ _ | FlowCollection _ _ _ _ _ => False | _ => True end → P t) →
  ∀ t, P t.
Proof.
  intros HI HM HS HF HO. fix go 1 with (goi (i : item) {struct i} : Q i).
  - intros t. pose (fix gol (l : list item) : Forall Q l := match l with [] => @List.Forall_nil _ Q | i :: l => @List.Forall_cons _ Q i l (goi i) (gol l) end) as gol.
    destruct t as [ | | | | | | |o n l|o n l|o n st l e]; [by apply HO..|exact (HM o n l (gol l))|exact (HS o n l (gol l))|exact (HF o n st l e (gol l))].
  - destruct i as [s k p v e]. apply HI; intros t Ht; [destruct k as [t'|]|destruct v as [t'|]]; try discriminate; injection Ht as <-; apply go.
Qed.

Lemma finishNode_good T (U : Prop) c wasKey t p l : match l with Some n => U → distinctKeys n = true | None => True end →
  good T (λ n, U → distinctKeys n = true) (finishNode (num := num) c wasKey t p l).
Proof.
  intros Hl. unfold finishNode. eapply (good_bind _ (λ n, U → distinctKeys n = true)).
  { destruct l; [by gsteps|]. eapply good_weaken; [apply (composeEmptyNode_good T)|done|done]. }
  intros n. gsteps. intros _ _ Hn HU. destruct (pcomment p), (spaceBefore p); try destruct (isPlainToken t && _); rewrite ?distinct_onMeta; auto.
Qed.

Lemma guarded_good T (U R : Prop) p o m : good True (collOk U R) m →
  good T (λ r, R ∧ match r with Some n => U → distinctKeys n = true | None => True end) (guarded p o m).
Proof.
  intros Hm. unfold guarded. apply good_catch.
  - eapply good_bind; [exact Hm|intros l]. gsteps. intros [? ?]. split; [done|]. unfold withAnchor. destruct (panchor p); by rewrite ?distinct_onMeta.
  - gsteps. by intros ?%clean_err.
Qed.

Lemma composeItems_ok c U l :
  Forall (λ i, (∀ t, ikey i = Some t → ∀ p, good (isDQ t) (collOk U (isTidy t)) (composeNode c t p)) ∧
               (∀ t, ivalue i = Some t → ∀ p, good (isDQ t) (collOk U (isTidy t)) (composeNode c t p))) l →
  Forall (citemOk U isTidy) (map (composeItem c) l) ∧ map ci (map (composeItem c) l) = l.
Proof.
  induction 1 as [|[s k p v e] l [Hk Hv] _ [IH1 IH2]]; [done|]. cbn [map composeItem ci]. split; [|by rewrite IH2].
  constructor; [|done]. split; cbn [ci ckey cval ikey ivalue] in *.
  - destruct k as [k|]; [|done]. intros q. by eapply good_weaken; [apply Hk| |].
  - destruct v as [v|]; [|done]. intros q. by eapply good_weaken; [apply Hv| |].
Qed.

Lemma finish_good (U R : Prop) T c wasKey t p m : good T (λ r, R ∧ match r with Some n => U → distinctKeys n = true | None => True end) m →
  good T (collOk U R) (r ← m; finishNode (num := num) c wasKey t p r).
Proof.
  intros Hm. eapply good_bind; [exact Hm|intros r].
  eapply good_weaken; [apply (finishNode_good T (U ∧ match r with Some n => U → distinctKeys n = true | None => True end))|done|].
  - destruct r; [|done]. intros [? ?]. auto.
  - intros n Hn [? ?]. split; [done|auto].
Qed.

(** A collection as a node. *)
Definition collectionNode (c : Ctx) (t : token) (p : Props) (make : bool → M num (node num)) : M num (node num) :=
  s ← get; r ← guarded p (tokOffset t) (composeCollection c t p make); finishNode c (atKey s) t p r.

Lemma collectionNode_good T c t p make U R : (∀ sp, good True (collOk U R) (make sp)) → good T (collOk U R) (collectionNode c t p make).
Proof.
  intros Hm. unfold collectionNode. gsteps. eapply good_weaken; [apply finish_good, guarded_good, composeCollection_good, Hm|done|auto].
Qed.

Lemma composeNode_map c o n l p :
  composeNode c (BlockMap o n l) p = collectionNode c (BlockMap o n l) p (λ sp, composeBlockMap c sp o n (map (composeItem c) l)).
Proof. reflexivity. Qed.

Lemma composeNode_seq c o n l p :
  composeNode c (BlockSeq o n l) p = collectionNode c (BlockSeq o n l) p (λ sp, composeBlockSeq c sp o n (map (composeItem c) l)).
Proof. reflexivity. Qed.

Lemma composeNode_flow c o n fs l e p :
  composeNode c (FlowCollection o n fs l e) p =
  collectionNode c (FlowCollection o n fs l e) p (λ sp, composeFlowCollection c sp o n fs (map (composeItem c) l) e).
Proof. reflexivity. Qed.

Lemma composeScalarNode_good c t p (U : Prop) :
  good (isDQ t) (λ r, tidyScalar t = true ∧ match r with Some n => U → distinctKeys n = true | None => True end)
    (l ← composeScalar (num := num) c t (ptag p); mret (Some (withAnchor p l))).
Proof.
  eapply good_bind; [apply composeScalar_good|intros l]. gsteps. intros [? ?]. split; [done|]. unfold withAnchor.
  destruct (panchor p); by rewrite ?distinct_onMeta.
Qed.

(** A node is composed without error only of a tidy token, and its maps have no key twice. *)
Lemma composeNode_good c t (U : Prop := uniqueKeys (options c) = true) : ∀ p, good (isDQ t) (collOk U (isTidy t)) (composeNode c t p).
Proof.
  apply (token_items_ind (λ t, ∀ p, good (isDQ t) (collOk U (isTidy t)) (composeNode c t p))
    (λ i, (∀ t, ikey i = Some t → ∀ p, good (isDQ t) (collOk U (isTidy t)) (composeNode c t p)) ∧
          (∀ t, ivalue i = Some t → ∀ p, good (isDQ t) (collOk U (isTidy t)) (composeNode c t p)))); [by auto| | | |].
  - intros o n l [Hl Hci]%composeItems_ok p. rewrite composeNode_map. apply collectionNode_good. intros sp.
    eapply good_weaken; [by apply composeBlockMap_good|done|]. rewrite Hci. intros nd [Hf ?]. split; [by apply tidyMap_items|done].
  - intros o n l [Hl Hci]%composeItems_ok p. rewrite composeNode_seq. apply collectionNode_good. intros sp.
    eapply good_weaken; [by apply composeBlockSeq_good|done|]. rewrite Hci. intros nd [Hf ?]. split; [by apply tidySeq_items|done].
  - intros o n fs l e [Hl Hci]%composeItems_ok p. rewrite composeNode_flow. apply collectionNode_good. intros sp.
    eapply good_weaken; [by apply composeFlow_good|done|]. rewrite Hci. intros nd [[Hf He] ?]. split; [|done].
    unfold isTidy. cbn [tidy]. by rewrite tidyFlow_items, He.
  - intros t' Ht p. destruct t' as [| | | | |y o i src e|o i props src| | |]; try done.
    all: cbn [composeNode]; gsteps; try (eapply good_weaken; [apply (finish_good U False)|done|by intros ? [[] _]]; gsteps; by intros ?%clean_err).
    + eapply good_weaken; [apply (finish_good U (isTidy (FlowScalar y o i src e)))|done|auto].
      destruct y; try (gsteps; by intros ?%clean_err).
      * eapply good_weaken; [apply composeScalarNode_good|done|]. intros r [Hs ?]. split; [|done]. exact Hs.
      * eapply good_bind; [apply composeAlias_good|intros nd]. gsteps. intros _ [? ?]. by split.
      * eapply good_weaken; [apply composeScalarNode_good|done|]. intros r [Hs ?]. split; [|done]. exact Hs.
      * eapply good_weaken; [apply composeScalarNode_good|done|]. intros r [Hs ?]. split; [|done]. exact Hs.
    + eapply good_weaken; [apply (finish_good U (isTidy (BlockScalar o i props src)))|done|auto].
      eapply good_weaken; [apply composeScalarNode_good|done|]. intros r [Hs ?]. split; [|done]. exact Hs.
Qed.

End compose.

(** ** Documents *)

Section documents.
Context {num : Type} `{JsNumber num} (o : Options).

(** A token of the stream as the composer expects it. *)
Definition topTidy (t : token) : Prop :=
  match t with
  | Source t => match ty t with byte_order_mark | space | comment | newline => True | _ => False end
  | Directive _ _ => True
  | Document _ st v e => okStart false doc_start st = true ∧ ofOpt isTidy v ∧ okEnd (default [] e) = true
  | DocEnd _ _ e => okEnd (default [] e) = true
  | _ => False
  end.

Definition docDistinct (d : Doc num) : Prop :=
  uniqueKeys o = true → match contents d with Some n => distinctKeys n = true | None => True end.

Lemma composeDoc_ok ds off st v e r es after : composeDoc o ds off st v e = (r, es, after) →
  match r with
  | inl (Thrown _) => ofOpt isDQ v ∧ v ≠ None
  | inl OutOfFuel => False
  | inr d => ddiags d = [] ∧ (clean es → topTidy (Document off st v e) ∧ docDistinct d)
  end.
Proof.
  unfold composeDoc. destruct (Directives.atDocument ds) as [d after']. unfold docCtx. set (cx := {| options := o |}). set (s0 := {| errs := [] |}).
  destruct (resolveProps _ _ doc_start _ _ _ _) as [p es0] eqn:Ep. apply resolveProps_ok in Ep as [Hes _]; [|by right; right; right].
  set (m := emit es0 ≫= _).
  assert (good (ofOpt isDQ v ∧ v ≠ None) (λ n, okStart false doc_start st = true ∧ ofOpt isTidy v ∧ (uniqueKeys o = true → distinctKeys n = true)) m) as Hm.
  { unfold m. gsteps. destruct v as [v|].
    - eapply good_weaken; [apply composeNode_good|done|]. intros n [? ?] _ Hc. auto.
    - eapply good_weaken; [apply (composeEmptyNode_good False)|done|]. intros n ? _ Hc. split; [auto|done]. }
  destruct (Hm s0) as (l & Hl & Hr). destruct (m s0) as [s1 r1]. cbn [fst snd] in *. cbn [errs s0 app] in Hl. subst l.
  destruct r1 as [x|n]; [intros [= <- _ _]; exact Hr|]. destruct (resolveEnd _ _ _) as [[cm e'] es'] eqn:Ee.
  intros [= <- <- _]. split; [done|]. intros [Hc1 Hc2]%clean_app. destruct (Hr Hc1) as (H1 & H2 & H3).
  split; [|exact H3]. split; [done|]. split; [done|]. by eapply resolveEnd_ok.
Qed.

(** ** The composer *)

Definition ofDoc (P : Doc num → Prop) (c : Composer num) : Prop :=
  match cdoc c with Some d => P d | None => True end ∧ Forall P (yielded c).

(** Nothing but warnings so far. *)
Definition cleanC (c : Composer num) : Prop := clean (cdiags c) ∧ ofDoc (λ d, clean (ddiags d)) c.

Definition docs (c : Composer num) : nat := (length (yielded c) + if isSome (cdoc c) then 1 else 0)%nat.

Definition isDoc (t : token) : nat := match t with Document _ _ _ _ => 1 | _ => 0 end.

Lemma commentContents_distinct cm n : distinctKeys (commentContents cm n) = distinctKeys (num := num) n.
Proof.
  assert (∀ m s f l, distinctKeys (NMap m s f l) = noRepeat l && forallb (distinctEntry (num := num)) l) as Hmap by reflexivity.
  assert (∀ m s f l, distinctKeys (NSeq m s f l) = forallb (distinctEntry (num := num)) l) as Hseq by reflexivity.
  assert (∀ n, distinctEntry (ENode n) = distinctKeys (num := num) n) as Hnode by reflexivity.
  assert (∀ k v, distinctEntry (EPair k v) = distinctKeys (num := num) k && match v with Some v => distinctKeys v | None => true end) as Hpair by reflexivity.
  unfold commentContents. destruct n as [| |m s [] [|[k|k v] l]|m s [] [|[k|k v] l]]; try reflexivity;
    rewrite ?Hmap, ?Hseq; cbn [forallb]; rewrite ?Hnode, ?Hpair, ?distinct_onMeta; try reflexivity.
  cbn [noRepeat]. unfold sameKey. by rewrite scalar_onMeta.
Qed.

Lemma decorate_ok after d c d' c' : decorate after d c = (d', c') →
  ddiags d' = (if after then ddiags d ++ cdiags c else cdiags c) ∧ (docDistinct d → docDistinct d') ∧
  cdiags c' = [] ∧ cdoc c' = cdoc c ∧ yielded c' = yielded c.
Proof.
  unfold decorate. destruct (parsePrelude _) as [cm blank]. intros [= <- <-]. split.
  { repeat case_match; done. }
  split; [|done]. intros Hd. unfold docDistinct in *. repeat case_match; cbn [contents onDoc] in *; simplify_eq; try done.
  all: intros HU; specialize (Hd HU); rewrite ?commentContents_distinct; done.
Qed.
Lemma next_ok_ t c c' : composerNext o t c = inr c' →
  docs c' = (docs c + isDoc t)%nat ∧ (cleanC c' → cleanC c ∧ topTidy t ∧ (ofDoc docDistinct c → ofDoc docDistinct c')).
Proof.
  assert (∀ l, cleanC (addDiags l c) → cleanC c) as Hadd.
  { intros l [Hc Hd]. split; [|done]. by apply clean_app in Hc as [? _]. }
  assert (∀ p k, docs (addDiags [err p k] c) = (docs c + 0)%nat ∧
    (cleanC (addDiags [err p k] c) → cleanC c ∧ topTidy t ∧ (ofDoc docDistinct c → ofDoc docDistinct (addDiags [err p k] c)))) as Hbad.
  { intros p k. split; [unfold docs; cbn; lia|]. intros [Hc _]. apply clean_app in Hc as [_ Hc]. by apply clean_err in Hc. }
  destruct t as [t|off src|off m src|off st v e|off src e| | | | |]; cbn [composerNext isDoc]; try (intros [= <-]; by apply Hbad).
  - destruct (ty t) eqn:E; intros [= <-]; try (by apply Hbad).
    all: split; [unfold docs; cbn; lia|]; intros Hc; cbn [topTidy]; rewrite E; done.
  - destruct (Directives.add src (cdirectives c)) as [ds es]. intros [= <-]. split; [unfold docs; cbn; lia|].
    intros [Hc Hd]. split; [|done]. split; [by apply clean_app in Hc as [? _]|done].
  - destruct (cdoc c) as [d|] eqn:Ed; [|intros [= <-]; apply Hbad].
    destruct (atDirectives c); intros [= <-]; [apply Hbad|]. unfold docs, cleanC, ofDoc. cbn. rewrite Ed, app_nil_r. split; [cbn; lia|].
    intros (_ & Hc & _). apply clean_app in Hc as [_ Hc]. by apply clean_err in Hc.
  - destruct (composeDoc _ _ _ _ _ _) as [[r es] ds] eqn:Er. apply composeDoc_ok in Er. destruct r as [x|d]; [done|]. destruct Er as [Hd Hok].
    destruct (decorate false d _) as [d' c1] eqn:Edec. apply decorate_ok in Edec as (Hd' & Hdist & Hc1 & Hdoc & Hy). cbn in Hd', Hdoc, Hy.
    intros [= <-]. unfold docs, cleanC, ofDoc. cbn. rewrite Hc1, Hdoc, Hy, Hd'. split.
    { destruct (cdoc c); cbn; rewrite ?app_nil_r, ?length_app; simpl; lia. }
    intros (_ & [[Hc Hes]%clean_app _]%clean_app & Hyd). destruct (Hok Hes) as [Ht Hdd]. apply Forall_app in Hyd as [Hyd Hold].
    split; [split; [done|split; [|done]]|split; [done|]].
    + destruct (cdoc c); [by apply Forall_cons in Hold as [? _]|done].
    + intros [H1 H2]. split; [auto|]. apply Forall_app. split; [done|]. destruct (cdoc c); by repeat constructor.
  - destruct (cdoc c) as [d|] eqn:Ed; [|intros [= <-]; apply Hbad].
    destruct (resolveEnd _ _ _) as [[cm e'] es] eqn:Ee. destruct (decorate true d _) as [d' c1] eqn:Edec.
    apply decorate_ok in Edec as (Hd' & Hdist & Hc1 & Hdoc & Hy). cbn in Hd', Hdoc, Hy. destruct (drange d') as [[a b] r].
    intros [= <-]. unfold docs, cleanC, ofDoc. cbn. rewrite Hc1, Hdoc, Hy, Hd', Ed, app_nil_r. split; [cbn; lia|].
    intros (_ & [Hdc [Hc Hes]%clean_app]%clean_app & Hyd). split; [done|]. split; [by eapply resolveEnd_ok in Ee|].
    intros [H1 H2]. split; [|done]. exact (Hdist H1).
Qed.

Lemma next_throws t c x : composerNext o t c = inl x → ∃ y, x = Thrown y ∧ ∃ off st v e, t = Document off st (Some v) e ∧ isDQ v.
Proof.
  destruct t as [t|off src|off m src|off st v e|off src e| | | | |]; cbn [composerNext]; try done.
  - by destruct (ty t).
  - by destruct (Directives.add src (cdirectives c)).
  - destruct (cdoc c); [|done]. by destruct (atDirectives c).
  - destruct (composeDoc _ _ _ _ _ _) as [[r es] ds] eqn:Er. apply composeDoc_ok in Er. destruct r as [y|d].
    + intros [= <-]. destruct y as [y|]; [|done]. exists y. split; [done|]. destruct v as [v|]; [|by destruct Er]. destruct Er as [Hv _]. eauto 10.
    + by destruct (decorate _ _ _).
  - destruct (cdoc c); [|done]. destruct (resolveEnd _ _ _) as [[? ?] ?]. destruct (decorate _ _ _) as [d1 ?]. by destruct (drange d1) as [[? ?] ?].
Qed.

Lemma end_ok n c (c' := composerEnd o n c) : yielded c' ≠ [] ∧ (docs c <= docs c')%nat ∧ (cdoc c' = None ∧ cdiags c' = []) ∧
  (cleanC c' → cleanC c ∧ (ofDoc docDistinct c → ofDoc docDistinct c')).
Proof.
  subst c'. unfold composerEnd. destruct (cdoc c) as [d|] eqn:Ed.
  - destruct (decorate true d c) as [d' c1] eqn:Edec. apply decorate_ok in Edec as (Hd' & Hdist & Hc1 & Hdoc & Hy).
    unfold docs, cleanC, ofDoc. cbn. rewrite Hc1, Hdoc, Hy, Ed, app_nil_r. split; [by destruct (yielded c)|].
    split; [rewrite length_app; simpl; lia|]. split; [done|]. intros (_ & _ & [Hyd [Hc _]%Forall_cons]%Forall_app). rewrite Hd' in Hc.
    apply clean_app in Hc as [? ?]. split; [done|]. intros [? ?]. split; [done|]. apply Forall_app. split; [done|]. constructor; auto.
  - destruct (Directives.atDocument _) as [ds after]. set (d := {| contents := None |}).
    destruct (decorate false d _) as [d' c1] eqn:Edec. apply decorate_ok in Edec as (Hd' & Hdist & Hc1 & Hdoc & Hy). cbn in Hd', Hdoc, Hy.
    unfold docs, cleanC, ofDoc. cbn. rewrite Hc1, Hdoc, Hy, Ed, app_nil_r. split; [by destruct (yielded c)|].
    split; [rewrite length_app; simpl; lia|]. split; [done|]. intros (_ & _ & [Hyd [Hc _]%Forall_cons]%Forall_app). rewrite Hd' in Hc.
    apply clean_app in Hc as [? ?]. split; [done|]. intros [? ?]. split; [done|]. apply Forall_app. split; [done|]. constructor; [|done]. by apply Hdist.
Qed.

Definition docTokens (l : list token) : nat := length (filter (λ t, isDoc t = 1%nat) l).

(** The whole stream. *)
Lemma composeTokens_ok n l : ∀ c c', composeTokens o n l c = inr c' → yielded c' ≠ [] ∧
  (length (yielded c') < 2 → (cdoc c' = None ∧ cdiags c' = []))%nat ∧
  (length (yielded c') < 2 → cleanC c' → docs c + docTokens l <= length (yielded c') ∧ Forall topTidy l ∧ cleanC c ∧
    (ofDoc docDistinct c → ofDoc docDistinct c'))%nat.
Proof.
  induction l as [|t l IH]; intros c c'; cbn [composeTokens].
  - intros [= <-]. destruct (end_ok n c) as (Hne & Hd & Hno & Hc). split; [done|]. split; [done|]. intros _ Hcl. destruct (Hc Hcl) as [? ?].
    split; [|done]. unfold docTokens. cbn. unfold docs in *. rewrite (proj1 Hno) in Hd. cbn in Hd. lia.
  - destruct (composerNext o t c) as [x|c1] eqn:En; [done|]. apply next_ok_ in En as [Hd Hc].
    destruct (2 <=? length (yielded c1))%nat eqn:E2.
    + intros [= <-]. apply Nat.leb_le in E2. split; [by intros Hy; rewrite Hy in E2; simpl in E2; lia|]. split; intros ?; lia.
    + intros Hl. destruct (IH c1 c' Hl) as (Hne & Hend & Hgo). split; [done|]. split; [done|]. intros Hlt Hcl. destruct (Hgo Hlt Hcl) as (Hn & Ht & Hcl1 & Hdd).
      destruct (Hc Hcl1) as (? & ? & ?). split; [|split; [by constructor|split; [done|auto]]].
      unfold docTokens in *. rewrite filter_cons. destruct t; cbn [isDoc] in *; repeat case_decide; cbn [length]; try lia; done.
Qed.

Lemma composeTokens_throws n l : ∀ c x, composeTokens o n l c = inl x →
  ∃ y, x = Thrown y ∧ ∃ off st v e, Document off st (Some v) e ∈ l ∧ isDQ v.
Proof.
  induction l as [|t l IH]; intros c x; cbn [composeTokens]; [done|].
  destruct (composerNext o t c) as [x'|c1] eqn:En.
  - intros [= <-]. apply next_throws in En as (y & -> & off & st & v & e & -> & Hv). exists y. split; [done|]. exists off, st, v, e. split; [left|done].
  - destruct (2 <=? length (yielded c1))%nat; [done|]. intros Hl. destruct (IH c1 x Hl) as (y & -> & off & st & v & e & Hin & Hv).
    exists y. split; [done|]. exists off, st, v, e. split; [by right|done].
Qed.

End documents.

Lemma parse_ends src : ∃ s, Cst.parse src = Some s.
Proof.
  destruct (YamlLexerProps.lexAll_ends src) as (l & Hl & _). unfold Cst.parse. rewrite Hl. cbn [mbind option_bind].
  destruct (parseLexemes_ok [1] ltac:(by vm_compute; set_solver) l _ initial_ready) as (s & -> & _). eauto.
Qed.

(** C27: reading a YAML text always ends with a document; an exception leaves the reader only
    when a document of the text is a double-quoted scalar by itself (all others are caught
    and reported as errors). *)
Theorem document_read `{JsNumber num} o src :
  match parseDocument o src with
  | inr d => is_Some d
  | inl (Thrown _) => ∃ s off st v e, Cst.parse src = Some s ∧ Document off st (Some v) e ∈ yields s ∧ isDQ v
  | inl OutOfFuel => False
  end.
Proof.
  unfold parseDocument. destruct (parse_ends src) as [s Hs]. rewrite Hs.
  destruct (composeTokens o (len src) (yields s) newComposer) as [x|c] eqn:E.
  - apply composeTokens_throws in E as (y & -> & off & st & v & e & Hin & Hv). by exists s, off, st, v, e.
  - apply composeTokens_ok in E as [Hne _]. destruct (yielded c) as [|d [|d' l]]; [done| |]; by eexists.
Qed.

(** C26: a document without errors comes from a stream of at most one document, in which every
    token the composer reads is one it expects (so no error of the parser is passed over), and
    no map in it has a scalar key twice. *)
Theorem composed_without_errors `{JsNumber num} o src d : uniqueKeys o = true → parseDocument o src = inr (Some d) → errorsOf d = [] →
  ∃ s, Cst.parse src = Some s ∧ Forall topTidy (yields s) ∧ (docTokens (yields s) <= 1)%nat ∧
  match contents d with Some n => distinctKeys n = true | None => True end.
Proof.
  intros HU. unfold parseDocument. destruct (parse_ends src) as [s Hs]. rewrite Hs. intros Hd Herr. exists s.
  destruct (composeTokens o (len src) (yields s) newComposer) as [x|c] eqn:E; [done|].
  apply composeTokens_ok in E as (Hne & Hend & Hok). destruct (yielded c) as [|d1 [|d2 l]] eqn:Ey; [done| |]; simplify_eq.
  - destruct Hend as [Hdoc Hdi]; [simpl; lia|].
    destruct Hok as (Hn & Ht & _ & Hdd); [simpl; lia| |].
    + split; [rewrite Hdi; constructor|]. unfold ofDoc. rewrite Hdoc, Ey. split; [done|]. constructor; [|done].
      apply Forall_forall. intros x Hx. destruct (dwarn x) eqn:Ex; [done|].
      assert (x ∈ errorsOf d) as Hin by (by apply list_elem_of_filter). rewrite Herr in Hin. by apply elem_of_nil in Hin.
    + split; [done|]. split; [done|]. split; [simpl in Hn; lia|].
      destruct Hdd as [_ Hy]; [done|]. rewrite Ey in Hy. apply Forall_cons in Hy as [Hy _]. by apply Hy.
  - unfold errorsOf in Herr. cbn [ddiags onDoc] in Herr. by rewrite filter_app in Herr; apply app_eq_nil in Herr as [_ ?].
Qed.

(** ** What is not reported *)

Section examples.

(** Numbers as their text, enough for the examples. *)
#[local] Instance textNumbers : JsNumber jstr := {|
  parseInt s r := s; parseFloat s := s; toNumber s := s; num_of_Z z := [z]; num_mul a b := a ++ b; num_add a b := a ++ b;
  num_inf := runes "inf"; num_ninf := runes "-inf"; num_nan := runes "nan";
  num_is a b := bool_decide (a = b); num_same a b := bool_decide (a = b) |}.

(** the text after an explicit key without a colon is no valid value; it is dropped and
    nothing is reported. *)
Theorem explicit_value_dropped : ∃ d m k s f,
  parseDocument defaultOptions (LFs [runes "? 'a'"; runes "  'b'"]) = inr (Some d) ∧ ddiags d = [] ∧
  contents d = Some (NMap m s f [EPair k None]) ∧ isScalarNode k = Some (VStr (runes "a")).
Proof. do 5 eexists. split_and!; [vm_compute; reflexivity..|]. vm_compute. reflexivity. Qed.

(** an unknown tag is a warning, but one with the name of a member that all objects
    inherit is taken for a tag and fails with an error. *)
Theorem inherited_tag_fails :
  (∃ d, parseDocument defaultOptions (LFs [runes "!<unknown> a"]) = inr (Some d) ∧ errorsOf d = []) ∧
  (∃ d, parseDocument defaultOptions (LFs [runes "!<constructor> a"]) = inr (Some d) ∧ errorsOf d = [err 0 TAG_RESOLVE_FAILED]).
Proof. split; eexists; (split; [vm_compute; reflexivity|]); vm_compute; reflexivity. Qed.

Lemma composed_without_errors_witness :
  ∃ d s, parseDocument defaultOptions (LFs [runes "a: 1"; runes "b: [x, {c: y}]"]) = inr (Some d) ∧
  Cst.parse (LFs [runes "a: 1"; runes "b: [x, {c: y}]"]) = Some s ∧ Forall topTidy (yields s).
Proof.
  eexists. destruct (composed_without_errors defaultOptions (LFs [runes "a: 1"; runes "b: [x, {c: y}]"]) _ eq_refl
    ltac:(vm_compute; reflexivity) ltac:(vm_compute; reflexivity)) as (s & H1 & H2 & _).
  exists s. split; [vm_compute; reflexivity|]. split; assumption.
Defined.

End examples.
