(* ===== verification/YamlNodes.v ===== *)
(** * Printing YAML nodes and documents in the web UI

    How the yaml library bundled in
    [internal/ui/assets/assets/index-DHyr8oiy.js] prints a document: nodes with their
    anchors and tags ([pWt], [fWt]), pairs ([mWt]), collections in block and flow
    style ([wWt], [TWt], [EWt]) and the document around them ([EGt]).  Strings are
    printed as in YamlPrint.v.  Aliases are left out; the tag of a node is printed by
    the directives, a parameter. *)

From Stdlib Require Import ZArith Lia.
From stdpp Require Import base numbers strings gmap option list.
From S2P Require Import Prelude Js YamlLexer YamlLexerProps YamlScalars YamlScalarsProps YamlBlock YamlPrint.

Open Scope Z_scope.

Module Nodes.
Import Yaml Scalars Print.

(** ** Nodes *)

(** Comments are empty when there are none. *)
Record Meta := {
  comment : jstr; commentBefore : jstr; spaceBefore : bool;
  anchor : option jstr; tag : option jstr;
}.

(** A scalar is a string, or the text a tag other than that of strings prints. *)
Inductive node :=
  | Str (m : Meta) (ty : option scalarType) (value : jstr)
  | Other (m : Meta) (source : jstr)
  | MapNode (m : Meta) (flow : option bool) (items : list (node * option node))
  | SeqNode (m : Meta) (flow : option bool) (items : list node).

Definition meta (n : node) : Meta :=
  match n with Str m _ _ | Other m _ | MapNode m _ _ | SeqNode m _ _ => m end.

Definition isCollection (n : node) : bool := match n with MapNode _ _ _ | SeqNode _ _ _ => true | _ => false end.

(** What was thrown; [OutOfFuel] is that of the folding of lines. *)
Inductive perr := OutOfFuel | Thrown (message : jstr).

Abbreviation Res A := (perr + A)%type.

Definition bindR {A B} (x : Res A) (f : A → Res B) : Res B := match x with inl e => inl e | inr a => f a end.

Notation "x <- e ;; k" := (bindR e (λ x, k)) (at level 100, e at next level, right associativity, only parsing).

(** The context: that of strings, and the options read for nodes.  [inFlow] of the
    code is one of true, false and null. *)
Record NCtx := {
  pctx : PrintCtx;
  flow3 : option bool;
  allNullValues : bool;
  simpleKeys : bool;
  indentSeq : bool;
  trailingComma : bool;
  flowCollectionPadding : jstr;
  nullStr : jstr;
  tagString : jstr → jstr;
  hasDirectives : bool;
}.

Definition setBase (f : Ctx → Ctx) (t : PrintCtx) : PrintCtx := {|
  base := f (base t); blockQuote := blockQuote t; commentString := commentString t; forceBlockIndent := forceBlockIndent t;
  actualString := actualString t; indentStep := indentStep t; inFlow := inFlow t; otherTag := otherTag t;
  defaultKeyType := defaultKeyType t; defaultStringType := defaultStringType t |}.

Definition setPctx (f : PrintCtx → PrintCtx) (n : NCtx) : NCtx := {|
  pctx := f (pctx n); flow3 := flow3 n; allNullValues := allNullValues n; simpleKeys := simpleKeys n;
  indentSeq := indentSeq n; trailingComma := trailingComma n; flowCollectionPadding := flowCollectionPadding n;
  nullStr := nullStr n; tagString := tagString n; hasDirectives := hasDirectives n |}.

Definition setAllNull (b : bool) (n : NCtx) : NCtx := {|
  pctx := pctx n; flow3 := flow3 n; allNullValues := b; simpleKeys := simpleKeys n;
  indentSeq := indentSeq n; trailingComma := trailingComma n; flowCollectionPadding := flowCollectionPadding n;
  nullStr := nullStr n; tagString := tagString n; hasDirectives := hasDirectives n |}.

Definition setFlow (n : NCtx) : NCtx := {|
  pctx := pctx n; flow3 := Some true; allNullValues := allNullValues n; simpleKeys := simpleKeys n;
  indentSeq := indentSeq n; trailingComma := trailingComma n; flowCollectionPadding := flowCollectionPadding n;
  nullStr := nullStr n; tagString := tagString n; hasDirectives := hasDirectives n |}.

Definition setCtx (key : bool) (ind : jstr) (ias : option Z) (c : Ctx) : Ctx := {|
  implicitKey := key; indent := ind; ctxIndentAtStart := ias; doubleQuotedAsJSON := doubleQuotedAsJSON c;
  doubleQuotedMinMultiLineLength := doubleQuotedMinMultiLineLength c; optLineWidth := optLineWidth c;
  optMinContentWidth := optMinContentWidth c; singleQuote := singleQuote c |}.

Definition nbase (n : NCtx) : Ctx := base (pctx n).
Definition nindent (n : NCtx) : jstr := indent (nbase n).
Definition nstep (n : NCtx) : jstr := indentStep (pctx n).
Definition ias (n : NCtx) : option Z := ctxIndentAtStart (nbase n).
Definition comments (n : NCtx) : jstr → jstr := commentString (pctx n).
Definition isFlow (n : NCtx) : bool := default false (flow3 n).

Definition withIndent (i : jstr) (n : NCtx) : NCtx :=
  setPctx (setBase (λ c, setCtx (implicitKey c) i (ctxIndentAtStart c) c)) n.
Definition withIas (i : option Z) (n : NCtx) : NCtx :=
  setPctx (setBase (λ c, setCtx (implicitKey c) (indent c) i c)) n.
Definition withKey (k : bool) (n : NCtx) : NCtx :=
  setPctx (setBase (λ c, setCtx k (indent c) (ctxIndentAtStart c) c)) n.

(** The context of a string: [{actualString: true, ...t}]. *)
Definition stringCtx (n : NCtx) : PrintCtx :=
  let t := pctx n in {|
  base := base t; blockQuote := blockQuote t; commentString := commentString t; forceBlockIndent := forceBlockIndent t;
  actualString := true; indentStep := indentStep t; inFlow := isFlow n; otherTag := otherTag t;
  defaultKeyType := defaultKeyType t; defaultStringType := defaultStringType t |}.

(** The text printed for a node, whether its comment was printed, whether it ends with
    kept breaks, and what the context says of the start of the next line. *)
Record Out := { otext : jstr; ocomment : bool; okeep : bool; oias : option Z }.

Definition startsWithOne (cs : string) (s : jstr) : bool := match s with c :: _ => oneOf cs c | [] => false end.
Definition isSome {A} (x : option A) : bool := match x with Some _ => true | None => false end.
Definition given (s : jstr) : bool := negb (bool_decide (s = [])).

(** [NUt]: the characters an anchor must not have. *)
Definition badAnchor (s : jstr) : bool :=
  existsb (λ c, ((0 <=? c) && (c <=? 25)) || isSpaceJs c || oneOf ",[]{}" c) s.

(** [fWt]; a document without directives has no properties. *)
Definition printProps (m : Meta) (t : NCtx) : Res jstr :=
  if negb (hasDirectives t) then inr []
  else
  a <- match anchor m with
       | Some (x :: a) =>
         if badAnchor (x :: a)
         then inl (Thrown (runes "Anchor must not contain whitespace or control characters: " ++ quoteJSON (x :: a)))
         else inr [ch "&" :: x :: a]
       | _ => inr []
       end ;;
  let g := match tag m with Some (x :: g) => [tagString t (x :: g)] | _ => [] end in
  inr (join [SP] (a ++ g)).

Definition strip (s : jstr) : jstr := drop (Z.to_nat (countWhile (Z.eqb LF) s)) s.

(** [EWt]: the comment before an item as a line of the collection. *)
Definition addComment (t : NCtx) (lines : list jstr) (c : jstr) (chompKeep : bool) : list jstr :=
  let c := if given c && chompKeep then strip c else c in
  if given c then lines ++ [trimStart (indentComment (comments t c) (nindent t))] else lines.

(** ** Pairs *)

Section print.
(** [pWt] on the nodes inside. *)
Context (print : node → NCtx → Res Out).

(** [pWt(null, t)]: the text of null. *)
Definition printValue (v : option node) (t : NCtx) : Res Out :=
  match v with
  | Some v => print v t
  | None => inr {| otext := nullStr t; ocomment := false; okeep := false; oias := ias t |}
  end.

Definition truthy (s : option jstr) : bool := match s with Some (_ :: _) => true | _ => false end.

(** A block sequence without properties. *)
Definition isPlainSeq (v : option node) : bool :=
  match v with
  | Some (SeqNode m f _) => negb (default false f) && negb (truthy (tag m)) && negb (truthy (anchor m))
  | _ => false
  end.

(** [x.indexOf(c, i)]; [None] is -1. *)
Definition indexFrom (c : Z) (x : jstr) (i : Z) : option Z :=
  let k := skipWhile (λ d, negb (d =? c)) x i in if k <? len x then Some k else None.

(** The collection stays on the line of the key when only its properties fit
    there. *)
Definition propsOnLine (x : jstr) : bool :=
  match indexFrom LF x 0 with
  | None => false
  | Some r =>
    if startsWithOne "&!" x then
      let n := indexFrom SP x 0 in
      let n := match n with
               | Some k => if startsWithOne "&" x && (k <? r) && eqc (at_ x (k + 1)) (ch "!") then indexFrom SP x (k + 1) else n
               | None => None
               end in
      match n with None => true | Some k => r <? k end
    else false
  end.

(** [t.flow ?? t.items.length === 0] of a collection. *)
Definition flowOf (n : option node) : option bool :=
  match n with
  | Some (MapNode _ f l) => Some (default (bool_decide (length l = 0%nat)) f)
  | Some (SeqNode _ f l) => Some (default (bool_decide (length l = 0%nat)) f)
  | _ => None
  end.

(** What is put between key and value. *)
Definition separator (t2 : NCtx) (p : bool) (keyComment : bool) (v : option node) (x : jstr) : jstr :=
  let space := match v with Some v => spaceBefore (meta v) | None => false end in
  let before := match v with Some v => commentBefore (meta v) | None => [] end in
  let y := match v with Some v => comment (meta v) | None => [] end in
  if keyComment || space || given before then
    let S := (if space then [LF] else [])
             ++ (if given before then LF :: indentComment (comments t2 before) (nindent t2) else []) in
    if bool_decide (x = []) && negb (isFlow t2) then (if bool_decide (S = [LF]) && given y then [LF; LF] else S)
    else S ++ LF :: nindent t2
  else
    match (if p then None else flowOf v) with
    | Some f =>
      let multi := isSome (indexFrom LF x 0) in
      if (multi || negb (default f (flow3 t2))) && negb (propsOnLine x) then LF :: nindent t2 else [SP]
    | None => if bool_decide (x = []) || eqc (head x) LF then [] else [SP]
    end.

Definition isBlockKey (k : node) : bool :=
  match k with
  | Str _ (Some BLOCK_FOLDED) _ | Str _ (Some BLOCK_LITERAL) _ => true
  | _ => false
  end.

(** The value after its key [g]; [f] is the comment of the key. *)
Definition printPairValue (t t1 : NCtx) (p : bool) (f g : jstr) (v : option node) : Res Out :=
  let g := if p then runes "? " ++ (if given f then g ++ lineComment g (nindent t1) (comments t f) else g) ++ [LF] ++ nindent t ++ runes ":"
           else let g := g ++ runes ":" in if given f then g ++ lineComment g (nindent t1) (comments t f) else g in
  let t2 := withKey false t1 in
  let t2 := match v with
            | Some v => if negb p && negb (given f) && negb (isCollection v) then withIas (Some (len g + 1)) t2 else t2
            | None => t2
            end in
  let t2 := if negb (indentSeq t) && (2 <=? len (nstep t)) && negb (isFlow t) && negb p && isPlainSeq v
            then withIndent (drop 2 (nindent t2)) t2 else t2 in
  o <- printValue v t2 ;;
  let y := match v with Some v => comment (meta v) | None => [] end in
  let g := g ++ separator t2 p (given f) v (otext o) ++ otext o in
  inr (if isFlow t then {| otext := g; ocomment := ocomment o; okeep := false; oias := ias t |}
       else if given y && negb (ocomment o)
       then {| otext := g ++ lineComment g (nindent t2) (comments t y); ocomment := false; okeep := false; oias := ias t |}
       else {| otext := g; ocomment := false; okeep := okeep o; oias := ias t |}).

(** [mWt] *)
Definition printPair (k : node) (v : option node) (t : NCtx) : Res Out :=
  let a := allNullValues t in
  let d := simpleKeys t in
  let f := comment (meta k) in
  if d && given f then inl (Thrown (runes "With simple keys, key nodes cannot have comments"))
  else if d && isCollection k then inl (Thrown (runes "With simple keys, collection cannot be used as a key value"))
  else
    let p := negb d && ((given f && negb (isSome v) && negb (isFlow t)) || isCollection k || isBlockKey k) in
    let t1 := withIndent (nindent t ++ nstep t) (withKey (negb p && (d || negb a)) (setAllNull false t)) in
    o <- print k t1 ;;
    let g := otext o in
    let long := negb p && negb (isFlow t) && (1024 <? len g) in
    if long && d then inl (Thrown (runes "With simple keys, single line scalar must not span more than 1024 characters"))
    else
      let p := p || long in
      if isFlow t && (a || negb (isSome v)) then
        inr {| otext := if bool_decide (g = []) then runes "?" else if p then runes "? " ++ g else g;
               ocomment := ocomment o; okeep := false; oias := ias t |}
      else if negb (isFlow t) && ((a && negb d) || (negb (isSome v) && p)) then
        let g := runes "? " ++ g in
        inr (if given f && negb (ocomment o)
             then {| otext := g ++ lineComment g (nindent t1) (comments t f); ocomment := false; okeep := false; oias := ias t |}
             else {| otext := g; ocomment := false; okeep := okeep o; oias := ias t |})
      else printPairValue t (withIas (oias o) t1) p (if ocomment o then [] else f) g v.

End print.

(** ** Collections *)

(** What the loops read of an item, a node or a pair: the node whose comment and
    space go before it, the comment after it in a block and in a flow collection,
    whether its comments need lines of their own, and how it is printed. *)
Record itemOps (A : Type) := {
  headMeta : A → Meta;
  blockComment : A → jstr;
  flowComment : A → jstr;
  ownLines : A → bool;
  printItem : A → NCtx → Res Out;
}.
Arguments headMeta {A}.
Arguments blockComment {A}.
Arguments flowComment {A}.
Arguments ownLines {A}.
Arguments printItem {A}.

Definition nodeOps (print : node → NCtx → Res Out) : itemOps node := {|
  headMeta := meta; blockComment := λ n, comment (meta n); flowComment := λ n, comment (meta n);
  ownLines := λ _, false; printItem := print |}.

Definition pairOps (print : node → NCtx → Res Out) : itemOps (node * option node) := {|
  headMeta := λ i, meta (fst i);
  blockComment := λ _, [];
  flowComment := λ i, comment (meta (match snd i with Some v => v | None => fst i end));
  ownLines := λ i, given (comment (meta (fst i))) || match snd i with Some v => given (commentBefore (meta v)) | None => false end;
  printItem := λ i t, let '(k, v) := i in printPair print k v t |}.

Section collections.
Context {A : Type} (ops : itemOps A).

(** The loop of [wWt]: the lines, and whether the last item ends with kept breaks. *)
Fixpoint blockItems (t u : NCtx) (prefix itemIndent : jstr) (d : bool) (lines : list jstr) (items : list A)
    : Res (list jstr * bool) :=
  match items with
  | [] => inr (lines, d)
  | i :: items =>
    let m := headMeta ops i in
    let lines := if negb d && spaceBefore m then lines ++ [[]] else lines in
    let lines := addComment t lines (commentBefore m) d in
    o <- printItem ops i u ;;
    let c := if ocomment o then [] else blockComment ops i in
    let s := if given c then otext o ++ lineComment (otext o) itemIndent (comments t c) else otext o in
    blockItems t (withIas (oias o) u) prefix itemIndent (okeep o && negb (given c)) (lines ++ [prefix ++ s]) items
  end.

(** The lines with a break and the indentation before each but the first; an empty
    line is not indented. *)
Definition joinLines (ind : jstr) (lines : list jstr) : jstr :=
  match lines with
  | [] => []
  | l :: ls => l ++ (ls ≫= λ x, if given x then LF :: ind ++ x else [LF])
  end.

(** [wWt] *)
Definition blockCollection (m : Meta) (t : NCtx) (prefix start end_ itemIndent : jstr)
    (items : list A) : Res Out :=
  r <- blockItems t (withIndent itemIndent t) prefix itemIndent false [] items ;;
  let '(lines, d) := r in
  let p := match lines with [] => start ++ end_ | _ => joinLines (nindent t) lines end in
  inr (if given (comment m)
       then {| otext := p ++ LF :: indentComment (comments t (comment m)) (nindent t); ocomment := true; okeep := false; oias := ias t |}
       else {| otext := p; ocomment := false; okeep := d; oias := ias t |}).

(** The width of the items on one line. *)
Definition flowWidth (d : list jstr) : Z := foldl (λ e t, e + len t + 2) 2 d.

(** The loop of [TWt]: the lines, and whether there has to be a line for each. *)
Fixpoint flowItems (t c : NCtx) (itemIndent : jstr) (l : bool) (u : nat) (d : list jstr)
    (items : list A) : Res (list jstr * bool) :=
  match items with
  | [] => inr (d, l)
  | i :: rest =>
    let m := headMeta ops i in
    let d := if spaceBefore m then d ++ [[]] else d in
    let d := addComment t d (commentBefore m) false in
    let a := flowComment ops i in
    let l := l || ownLines ops i || given a in
    o <- printItem ops i c ;;
    let a := if ocomment o then [] else a in
    let s := otext o in
    let l := l || bool_decide (u < length d)%nat || existsb (Z.eqb LF) s in
    let width := optLineWidth (nbase t) in
    let '(s, l) :=
      match rest with
      | _ :: _ => (s ++ runes ",", l)
      | [] =>
        if trailingComma t then
          let l := l || ((0 <? width) && (width <? flowWidth d + (len s + 2))) in
          (if l then s ++ runes "," else s, l)
        else (s, l)
      end in
    let s := if given a then s ++ lineComment s itemIndent (comments t a) else s in
    flowItems t (withIas (oias o) c) itemIndent l (length (d ++ [s])) (d ++ [s]) rest
  end.

(** [TWt] *)
Definition flowCollection (t : NCtx) (start end_ itemIndent : jstr) (items : list A) : Res Out :=
  let r := itemIndent ++ nstep t in
  q <- flowItems t (setFlow (withIndent r t)) r false 0 [] items ;;
  let '(d, l) := q in
  let done s := {| otext := s; ocomment := false; okeep := false; oias := ias t |} in
  let width := optLineWidth (nbase t) in
  inr (match d with
       | [] => done (start ++ end_)
       | _ =>
         if l || ((0 <? width) && (width <? flowWidth d))
         then done (start ++ (d ≫= λ x, if given x then LF :: nstep t ++ nindent t ++ x else [LF]) ++ LF :: nindent t ++ end_)
         else done (start ++ flowCollectionPadding t ++ join [SP] d ++ flowCollectionPadding t ++ end_)
       end).

(** [CWt] *)
Definition printCollection (m : Meta) (flow : option bool) (t : NCtx) (prefix start end_ itemIndent : jstr)
    (items : list A) : Res Out :=
  if default (default false flow) (flow3 t) then flowCollection t start end_ itemIndent items
  else blockCollection m t prefix start end_ itemIndent items.

End collections.

(** ** Nodes *)

(** The text with the properties before it. *)
Definition withProps (props : jstr) (n : node) (t : NCtx) (s : jstr) : jstr :=
  if bool_decide (props = []) then s
  else if negb (isCollection n) || startsWithOne "{[" s then props ++ [SP] ++ s
  else props ++ [LF] ++ nindent t ++ s.

(** [pWt]; a map with only null values is printed as a set of keys. *)
Fixpoint print (n : node) (t : NCtx) : Res Out :=
  props <- printProps (meta n) t ;;
  let t := if given props then withIas (Some (default 0 (ias t) + len props + 1)) t else t in
  o <- match n with
       | Str m ty v =>
         match stringifyString {| comment_ := comment m; type_ := ty; value_ := v |} (stringCtx t) with
         | None => inl OutOfFuel
         | Some p => inr {| otext := text p; ocomment := commentDone p; okeep := chompKeep p; oias := ias t |}
         end
       | Other m s => inr {| otext := s; ocomment := false; okeep := false; oias := ias t |}
       | MapNode m f items =>
         let t := if negb (allNullValues t) && forallb (λ i, negb (isSome (snd i))) items then setAllNull true t else t in
         printCollection (pairOps print) m f t [] (runes "{") (runes "}") (nindent t) items
       | SeqNode m f items =>
         printCollection (nodeOps print) m f t (runes "- ") (runes "[") (runes "]") (nindent t ++ [SP; SP]) items
       end ;;
  inr {| otext := withProps props n t (otext o); ocomment := ocomment o; okeep := okeep o; oias := ias t |}.

(** ** Documents *)

Record Document := {
  docComment : jstr; docCommentBefore : jstr; contents : option node;
  (** The text of the directives, [None] when the document has none, and the marks. *)
  directives : option jstr; docStart : bool; docEnd : bool;
}.

Definition setDirectives (b : bool) (n : NCtx) : NCtx := {|
  pctx := pctx n; flow3 := flow3 n; allNullValues := allNullValues n; simpleKeys := simpleKeys n;
  indentSeq := indentSeq n; trailingComma := trailingComma n; flowCollectionPadding := flowCollectionPadding n;
  nullStr := nullStr n; tagString := tagString n; hasDirectives := b |}.

Definition setForceIndent (b : bool) (n : NCtx) : NCtx :=
  setPctx (λ t, {| base := base t; blockQuote := blockQuote t; commentString := commentString t; forceBlockIndent := b;
    actualString := actualString t; indentStep := indentStep t; inFlow := inFlow t; otherTag := otherTag t;
    defaultKeyType := defaultKeyType t; defaultStringType := defaultStringType t |}) n.

(** The lines of the directives, whether the document starts with a mark, and the
    comment before them. *)
Definition documentHead (e : Document) (asked : option bool) (t : NCtx) : list jstr * bool :=
  let '(n, r) :=
    match asked, directives e with
    | Some false, _ | _, None => ([], default false asked)
    | _, Some d => if given d then ([d], true) else ([], default false asked || docStart e)
    end in
  let n := if r then n ++ [runes "---"] else n in
  let c := docCommentBefore e in
  (if given c
   then indentComment (comments t c) [] :: (if bool_decide (length n = 1%nat) then n else [] :: n)
   else n, r).

(** The lines with those of the contents, whether these end with kept breaks, and
    whether their comment was printed here. *)
Definition documentBody (e : Document) (t : NCtx) (n : list jstr) (r : bool) : Res (list jstr * bool * bool) :=
  match contents e with
  | None => inr (n ++ [nullStr t], false, false)
  | Some c =>
    let m := meta c in
    let n := if spaceBefore m && r then n ++ [[]] else n in
    let n := if given (commentBefore m) then n ++ [indentComment (comments t (commentBefore m)) []] else n in
    o <- print c (setForceIndent (given (docComment e)) (setDirectives (isSome (directives e)) t)) ;;
    let s := if ocomment o then [] else comment m in
    let x := if given s then otext o ++ lineComment (otext o) [] (comments t s) else otext o in
    let n := match last n with
             | Some l => if startsWithOne "|>" x && bool_decide (l = runes "---")
                         then removelast n ++ [runes "--- " ++ x] else n ++ [x]
             | None => n ++ [x]
             end in
    inr (n, okeep o && negb (given (comment m)), given s)
  end.

(** The end mark, or the comment at the end. *)
Definition documentTail (e : Document) (t : NCtx) (n : list jstr) (keep printed : bool) : list jstr :=
  let c := docComment e in
  if docEnd e then
    if given c then
      let x := comments t c in
      if existsb (Z.eqb LF) x then n ++ [runes "..."; indentComment x []] else n ++ [runes "... " ++ x]
    else n ++ [runes "..."]
  else
    let c := if given c && keep then strip c else c in
    if given c then
      let n := if (negb keep || printed) && negb (bool_decide (last n = Some [])) then n ++ [[]] else n in
      n ++ [indentComment (comments t c) []]
    else n.

(** [EGt] *)
Definition printDocument (e : Document) (asked : option bool) (t : NCtx) : Res jstr :=
  let '(n, r) := documentHead e asked t in
  b <- documentBody e t n r ;;
  let '(n, keep, printed) := b in
  inr (join [LF] (documentTail e t n keep printed) ++ [LF]).

End Nodes.
