(* ===== verification/YamlNodesProps.v ===== *)
(** * Printed YAML nodes stay inside their indentation

    Every line after the first that is printed for a node is blank or indented at
    least as far as the node, whatever texts, keys, comments, anchors and tags it
    has, when lines are not folded: nothing in a value can be taken for a sibling of
    the node it belongs to. *)

From Stdlib Require Import ZArith Lia.
From stdpp Require Import base numbers strings gmap option list.
From S2P Require Import Prelude Js YamlLexer YamlLexerProps YamlScalars YamlScalarsProps YamlBlock YamlPrint YamlPrintProps YamlNodes.

Open Scope Z_scope.

Import Yaml Scalars Block Print Nodes.

(** ** Lines *)

(** A line of spaces, or one that is indented by [k]. *)
Definition okLine (k : nat) (x : jstr) : Prop := (∃ j, x = replicate j SP) ∨ ∃ y, x = replicate k SP ++ y.

(** All lines but the first are blank or indented. *)
Definition inside (k : nat) (s : jstr) : Prop := Forall (okLine k) (tail (Js.split LF s)).

(** The last line can be continued: it is the first, or indented. *)
Definition solid (k : nat) (s : jstr) : Prop :=
  inside k s ∧ ((LF ∉ s) ∨ ∃ a b, s = a ++ LF :: replicate k SP ++ b ∧ LF ∉ b).

(** The text of a node: it can be continued, or ends with a break. *)
Definition good (k : nat) (s : jstr) : Prop := solid k s ∨ (inside k s ∧ ∃ a, s = a ++ [LF]).

Lemma okLine_mono k j x : (j <= k)%nat → okLine k x → okLine j x.
Proof.
  intros H [?|[y ->]]; [by left|right]. exists (replicate (k - j) SP ++ y).
  rewrite app_assoc, <- replicate_add. do 2 f_equal. lia.
Qed.

Lemma spaces_noLF n : LF ∉ replicate n SP.
Proof. by intros [? _]%elem_of_replicate. Qed.

Lemma split_spaces n s x xs : Js.split LF s = x :: xs → Js.split LF (replicate n SP ++ s) = (replicate n SP ++ x) :: xs.
Proof.
  intros H. destruct (split_app LF (replicate n SP) s) as (ps & p & q & qs & H1 & H2 & ->).
  rewrite split_single in H1 by apply spaces_noLF. destruct ps as [|? [|]]; simplify_eq/=. by rewrite H in H2; simplify_eq.
Qed.

Lemma inside_mono k j s : (j <= k)%nat → inside k s → inside j s.
Proof. intros H Hs. eapply Forall_impl; [exact Hs|]. intros x. by apply okLine_mono. Qed.

Lemma inside_line k s : LF ∉ s → inside k s.
Proof. intros H. unfold inside. rewrite split_single by done. constructor. Qed.

Lemma solid_line k s : LF ∉ s → solid k s.
Proof. intros H. split; [by apply inside_line|by left]. Qed.

Lemma solid_good k s : solid k s → good k s.
Proof. by left. Qed.

Lemma good_inside k s : good k s → inside k s.
Proof. by intros [[? _]|[? _]]. Qed.

Lemma solid_mono k j s : (j <= k)%nat → solid k s → solid j s.
Proof.
  intros H [Hi Hs]. split; [by eapply inside_mono|]. destruct Hs as [?|(a & b & -> & Hb)]; [by left|right].
  exists a, (replicate (k - j) SP ++ b). split.
  - rewrite (app_assoc (replicate j SP)), <- replicate_add. do 4 f_equal. lia.
  - rewrite elem_of_app. intros [?|?]; [by eapply spaces_noLF|done].
Qed.

Lemma good_mono k j s : (j <= k)%nat → good k s → good j s.
Proof. intros H [Hs|[Hi ?]]; [left; by eapply solid_mono|right]. split; [by eapply inside_mono|done]. Qed.

(** A break after a text, and an indented text after it. *)
Lemma inside_app_break k a b : inside k a → Forall (okLine k) (Js.split LF b) → inside k (a ++ LF :: b).
Proof.
  intros Ha Hb. unfold inside in *. destruct (split_app LF a (LF :: b)) as (ps & p & q & qs & H1 & H2 & H3).
  simpl in H2. simplify_eq. rewrite H3. rewrite H1 in Ha. rewrite app_nil_r.
  destruct ps as [|y ps]; cbn [app tail] in *; [done|]. apply Forall_app in Ha as [? [? _]%Forall_cons].
  apply Forall_app. split; [done|]. by apply Forall_cons.
Qed.

Lemma okLine_indented k j s : (j <= k)%nat → inside j s → Forall (okLine j) (Js.split LF (replicate k SP ++ s)).
Proof.
  intros H Hs. unfold inside in Hs. destruct (Js.split LF s) as [|x xs] eqn:E; [by apply split_nonempty in E|].
  rewrite (split_spaces k s x xs E). constructor; [|done]. apply (okLine_mono k); [done|]. right. by exists x.
Qed.

Lemma good_break k j a b : (j <= k)%nat → inside j a → good j b → good j (a ++ LF :: replicate k SP ++ b).
Proof.
  intros H Ha Hb. assert (inside j (a ++ LF :: replicate k SP ++ b)) as Hi.
  { apply inside_app_break; [done|]. by apply okLine_indented, good_inside. }
  destruct Hb as [[_ [Hb|(c & d & -> & Hd)]]|[_ [c ->]]].
  - left. split; [done|]. right. exists a, (replicate (k - j) SP ++ b). split.
    + rewrite (app_assoc (replicate j SP)), <- replicate_add. do 4 f_equal. lia.
    + rewrite elem_of_app. intros [?|?]; [by eapply spaces_noLF|done].
  - left. split; [done|]. right. exists (a ++ LF :: replicate k SP ++ c), d. split; [|done].
    by rewrite <- !app_assoc; cbn [app]; rewrite <- !app_assoc.
  - right. split; [done|]. exists (a ++ LF :: replicate k SP ++ c).
    by rewrite <- !app_assoc; cbn [app]; rewrite <- !app_assoc.
Qed.

(** A text after one that can be continued. *)
Lemma solid_app k a b : solid k a → good k b → good k (a ++ b).
Proof.
  intros [Ha Hs] Hb. assert (inside k (a ++ b)) as Hi.
  { pose proof (good_inside _ _ Hb) as Hb'. unfold inside in *.
    destruct (split_app LF a b) as (ps & p & q & qs & H1 & H2 & ->). rewrite H1 in Ha. rewrite H2 in Hb'. cbn [tail] in Hb'.
    destruct ps as [|y ps]; cbn [app tail] in *; [done|]. apply Forall_app in Ha as [Ha1 Ha2].
    apply Forall_app. split; [done|]. constructor; [|done].
    destruct Hs as [Hs|(c & d & -> & Hd)]; [rewrite split_single in H1 by done; by destruct ps|].
    right. destruct (split_app LF c (LF :: replicate k SP ++ d)) as (ps' & p' & q' & qs' & H3 & H4 & H5).
    rewrite H5 in H1. cbn [Js.split] in H4. change (LF =? LF) with true in H4. cbn iota in H4.
    rewrite (split_spaces k d d []) in H4 by (by apply split_single). injection H4 as <- <-. rewrite app_nil_r in H1.
    change (ps' ++ [p'; replicate k SP ++ d]) with (ps' ++ ([p'] ++ [replicate k SP ++ d])) in H1.
    rewrite app_assoc in H1. change (y :: ps ++ [p]) with ((y :: ps) ++ [p]) in H1. apply app_inj_tail in H1 as [_ <-].
    exists (d ++ q). by rewrite app_assoc. }
  destruct Hb as [[_ [Hb|(c & d & -> & Hd)]]|[_ [c ->]]].
  - left. split; [done|]. destruct Hs as [Hs|(c & d & -> & Hd)].
    + left. rewrite elem_of_app. naive_solver.
    + right. exists c, (d ++ b). split; [by rewrite <- app_assoc; cbn [app]; rewrite <- app_assoc|].
      rewrite elem_of_app. naive_solver.
  - left. split; [done|]. right. exists (a ++ c), d. by rewrite <- app_assoc.
  - right. split; [done|]. exists (a ++ c). by rewrite app_assoc.
Qed.

Lemma solid_app_line k a b : solid k a → LF ∉ b → solid k (a ++ b).
Proof.
  intros Ha Hb. destruct (solid_app k a b Ha) as [?|[_ [c Hc]]]; [left; by apply solid_line|done|].
  destruct b as [|x b _] using rev_ind; [by rewrite app_nil_r|]. rewrite app_assoc in Hc.
  apply app_inj_tail in Hc as [_ ->]. destruct Hb. apply elem_of_app. right. left.
Qed.

Lemma solid_app_solid k a b : solid k a → solid k b → solid k (a ++ b).
Proof.
  intros Ha Hb. assert (inside k (a ++ b)) as Hi by (by apply good_inside, solid_app; [|left]).
  destruct Hb as [_ [Hb|(c & d & -> & Hd)]]; [by apply solid_app_line|]. split; [done|right].
  exists (a ++ c), d. by rewrite <- app_assoc.
Qed.

Lemma solid_break k j a b : (j <= k)%nat → inside j a → LF ∉ b → solid j (a ++ LF :: replicate k SP ++ b).
Proof.
  intros H Ha Hb. destruct (good_break k j a b H Ha) as [?|[_ [c Hc]]]; [left; by apply solid_line|done|].
  assert (last (replicate k SP ++ b) ≠ Some LF) as Hl.
  { intros (d & Hd)%last_Some. assert (LF ∈ replicate k SP ++ b) as Hin by (rewrite Hd; apply elem_of_app; right; left).
    apply elem_of_app in Hin as [?|?]; [by eapply spaces_noLF|done]. }
  split; [by apply good_inside, good_break; [|done|left; apply solid_line]|].
  right. exists a, (replicate (k - j) SP ++ b). split.
  - rewrite (app_assoc (replicate j SP)), <- replicate_add. do 4 f_equal. lia.
  - rewrite elem_of_app. intros [?|?]; [by eapply spaces_noLF|done].
Qed.

(** ** Comments *)

(** A comment without the line separators that are no line breaks of YAML. *)
Definition clean (c : jstr) : Prop := Forall (λ x, isLineBreak x = true → x = LF) c.

(** An empty line, or one that is indented. *)
Definition strictLine (k : nat) (x : jstr) : Prop := x = [] ∨ ∃ y, x = replicate k SP ++ y.

Lemma strictLine_ok k x : strictLine k x → okLine k x.
Proof. intros [->|?]; [left; by exists 0%nat|by right]. Qed.

Lemma strictLine_mono k j x : (j <= k)%nat → strictLine k x → strictLine j x.
Proof.
  intros H [?|[y ->]]; [by left|right]. exists (replicate (k - j) SP ++ y).
  rewrite app_assoc, <- replicate_add. do 2 f_equal. lia.
Qed.

(** Lines after a break. *)
Lemma break_lines k a r : inside k a → Forall (strictLine k) (Js.split LF r) → good k (a ++ LF :: r).
Proof.
  intros Ha Hr. assert (inside k (a ++ LF :: r)) as Hi.
  { apply inside_app_break; [done|]. eapply Forall_impl; [exact Hr|]. apply strictLine_ok. }
  pose proof (split_nonempty LF r) as Hne. destruct (Js.split LF r) as [|x ls _] eqn:E using rev_ind; [done|].
  pose proof (join_split LF r) as Hj. rewrite E in Hj. apply Forall_app in Hr as [_ [Hx _]%Forall_cons].
  assert (Hnx : LF ∉ x) by (eapply split_no_sep; rewrite E; apply elem_of_app; right; left).
  assert (∃ r0, LF :: r = r0 ++ LF :: x) as [r0 Hr0].
  { destruct ls as [|l ls]; [exists []; simpl in Hj; by subst|].
    rewrite join_snoc in Hj by done. exists (LF :: join [LF] (l :: ls)). by rewrite <- Hj. }
  rewrite Hr0 in *. destruct Hx as [->|[y ->]].
  - right. split; [done|]. exists (a ++ r0). by rewrite <- app_assoc.
  - left. split; [done|]. right. exists (a ++ r0), y. split; [by rewrite <- app_assoc|].
    intros ?. apply Hnx, elem_of_app. by right.
Qed.

Lemma clean_cons x c : clean (x :: c) ↔ (isLineBreak x = true → x = LF) ∧ clean c.
Proof. apply Forall_cons. Qed.

(** The lines of a printed comment are empty or start with the mark. *)
Lemma comment_lines c : clean c → clean (stringifyComment c) ∧
  Forall (λ x, x = [] ∨ head x = Some (ch "#")) (Js.split LF (stringifyComment c)).
Proof.
  intros Hc. unfold stringifyComment.
  assert (∀ bol, clean (commentFrom bol c) ∧ ∃ x xs, Js.split LF (commentFrom bol c) = x :: xs ∧
    (bol = true → x = [] ∨ head x = Some (ch "#")) ∧ Forall (λ x, x = [] ∨ head x = Some (ch "#")) xs) as H.
  { induction c as [|y c IH]; intros bol; [split; [constructor|]; by exists [], []; auto|].
    apply clean_cons in Hc as [Hy Hc]. specialize (IH Hc). cbn [commentFrom].
    assert (isLineBreak (ch "#") = false) as Hh by done.
    destruct (bol && negb (isLineBreak y)) eqn:E.
    - apply andb_prop in E as [-> Hb%negb_true_iff]. destruct (IH false) as (IH1 & x & xs & Hx & _ & Hxs).
      assert (y ≠ LF) as Hyl by (by intros ->).
      destruct ((y =? SP) && atEol c); cbn [app].
      + split; [apply clean_cons; by rewrite Hh|]. cbn [Js.split]. change (ch "#" =? LF) with false. rewrite Hx.
        exists (ch "#" :: x), xs. auto.
      + split; [apply clean_cons; rewrite Hh; split; [done|]; by apply clean_cons|].
        cbn [Js.split]. change (ch "#" =? LF) with false. rewrite (proj2 (Z.eqb_neq _ _) Hyl), Hx.
        exists (ch "#" :: y :: x), xs. auto.
    - destruct (IH (isLineBreak y)) as (IH1 & x & xs & Hx & Hx1 & Hxs).
      split; [by apply clean_cons|]. cbn [Js.split]. rewrite Hx. destruct (y =? LF) eqn:Ey.
      + apply Z.eqb_eq in Ey as ->. exists [], (x :: xs). split_and!; auto.
      + exists (y :: x), xs. split_and!; [done| |done]. intros ->.
        apply negb_false_iff in E. apply Hy in E as ->. done. }
  destruct (H true) as (H1 & x & xs & -> & H2 & H3). split; [done|]. constructor; auto.
Qed.

(** A line with its indentation; a blank one gets none. *)
Definition indentLine (k : nat) (x : jstr) : jstr := if forallb (Z.eqb SP) x then x else replicate k SP ++ x.

Lemma blankLine_first e x xs : clean e → Js.split LF e = x :: xs → blankLine_ e = forallb (Z.eqb SP) x.
Proof.
  revert x xs. induction e as [|y e IH]; intros x xs [Hy Hc]%clean_cons || intros x xs _; intros H; [by simplify_eq/=|].
  cbn [Js.split] in H. cbn [blankLine_]. destruct (Js.split LF e) as [|x' xs'] eqn:E; [by apply split_nonempty in E|].
  destruct (Z.eqb_spec y LF) as [->|Hn]; simplify_eq; [done|]. cbn [forallb]. rewrite (Z.eqb_sym SP y).
  destruct (y =? SP); [by eapply IH|]. destruct (isLineBreak y); [by destruct Hn; apply Hy|done].
Qed.

Lemma indentFrom_lines k e : clean e → ∀ bol, ∃ x xs, Js.split LF e = x :: xs ∧
  Js.split LF (indentFrom (replicate k SP) bol e) = (if bol then indentLine k x else x) :: (indentLine k <$> xs).
Proof.
  induction e as [|y e IH]; intros Hc bol; [exists [], []; by destruct bol|].
  destruct (Js.split LF (y :: e)) as [|z zs] eqn:E0; [by apply split_nonempty in E0|].
  pose proof (blankLine_first _ _ _ Hc E0) as Hb. apply clean_cons in Hc as [Hy Hc].
  destruct (IH Hc (isLineBreak y)) as (x & xs & Hx & Hi). exists z, zs. split; [done|].
  assert (Js.split LF (y :: indentFrom (replicate k SP) (isLineBreak y) e) = z :: (indentLine k <$> zs)) as H.
  { cbn [Js.split] in E0 |- *. rewrite Hx in E0. rewrite Hi. destruct (Z.eqb_spec y LF) as [->|Hn]; simplify_eq; [done|].
    destruct (isLineBreak y); [by destruct Hn; apply Hy|done]. }
  cbn [indentFrom]. rewrite Hb. unfold indentLine at 1. destruct bol, (forallb (Z.eqb SP) z); cbn [andb negb app]; try done.
  by apply split_spaces.
Qed.

(** The lines of an indented comment. *)
Lemma indent_lines k e : clean e → Forall (λ x, x = [] ∨ head x = Some (ch "#")) (Js.split LF e) →
  Forall (strictLine k) (Js.split LF (indentComment e (replicate k SP))).
Proof.
  intros Hc Hl. unfold indentComment. destruct (negb (bool_decide (e = [])) && forallb (Z.eqb LF) e) eqn:E.
  { apply andb_prop in E as [_ E]. destruct e as [|y e]; [constructor; [by left|constructor]|].
    apply andb_prop in E as [_ E]. cbn [drop]. clear -E.
    induction e as [|z e IH]; [constructor; [by left|constructor]|]. apply andb_prop in E as [Ez%Z.eqb_eq E].
    subst z. cbn [Js.split]. change (LF =? LF) with true. constructor; [by left|by apply IH]. }
  destruct k as [|k]; [eapply Forall_impl; [exact Hl|]; intros x _; right; by exists x|].
  change (match replicate (S k) SP with [] => e | _ :: _ => indentFrom (replicate (S k) SP) true e end)
    with (indentFrom (replicate (S k) SP) true e).
  destruct (indentFrom_lines (S k) e Hc true) as (x & xs & Hx & ->). rewrite Hx in Hl.
  change (indentLine (S k) x :: (indentLine (S k) <$> xs)) with (indentLine (S k) <$> (x :: xs)).
  apply Forall_fmap. eapply Forall_impl; [exact Hl|]. intros z [->|Hz]; [by left|]. right. exists z. cbn [compose].
  unfold indentLine. by destruct z; simplify_eq/=.
Qed.

Lemma comment_indented k c : clean c → Forall (strictLine k) (Js.split LF (indentComment (stringifyComment c) (replicate k SP))).
Proof. intros Hc. apply indent_lines; by apply comment_lines. Qed.

Lemma inside_before k a : inside k (a ++ [LF]) → inside k a.
Proof.
  unfold inside. destruct (split_app LF a [LF]) as (ps & p & q & qs & H1 & H2 & ->). rewrite H1. cbn in H2. simplify_eq.
  rewrite app_nil_r. destruct ps as [|y ps]; cbn [app tail]; [constructor|]. intros [? Hp]%Forall_app.
  apply Forall_app. split; [done|]. by apply Forall_cons in Hp as [? _]; constructor.
Qed.

Lemma not_last_solid k g : good k g → eqc (last g) LF = false → solid k g.
Proof. intros [?|[_ [a ->]]] E; [done|]. by rewrite last_snoc in E. Qed.

Lemma last_LF g : eqc (last g) LF = true → ∃ a, g = a ++ [LF].
Proof. destruct (last g) eqn:E; [|done]. cbn. intros ->%Z.eqb_eq. by apply last_Some in E. Qed.

(** A comment after a text, on its line or on those after it. *)
Lemma lineComment_good k j g c : (j <= k)%nat → clean c → good j g → good j (g ++ lineComment g (replicate k SP) (stringifyComment c)).
Proof.
  intros Hjk Hc Hg.
  assert (Forall (strictLine j) (Js.split LF (indentComment (stringifyComment c) (replicate k SP)))) as Hl.
  { eapply Forall_impl; [by apply comment_indented|]. intros x. by apply strictLine_mono. }
  unfold lineComment. destruct (eqc (last g) LF) eqn:Ey.
  - apply last_LF in Ey as [a ->]. rewrite <- app_assoc. cbn [app].
    apply break_lines; [|done]. by apply inside_before, good_inside.
  - destruct (existsb (Z.eqb LF) (stringifyComment c)) eqn:E; [apply break_lines; [by apply good_inside|done]|].
    left. apply solid_app_line; [by apply not_last_solid|]. apply no_break in E. rewrite elem_of_app.
    intros [H|H]; [|done]. destruct (eqc (last g) SP); [by apply elem_of_nil in H|]. by apply list_elem_of_singleton in H.
Qed.

(** ** Strings *)

(** A text without breaks. *)
Ltac flat := repeat first [rewrite not_elem_of_app | rewrite not_elem_of_cons];
  repeat match goal with |- _ ∧ _ => split end; try done; try apply not_elem_of_nil;
  try match goal with |- _ ∉ runes _ => by apply (bool_decide_unpack _); vm_compute end.

Lemma hexDigit_flat n : 0 <= n < 16 → LF ≠ (if n <? 10 then 48 + n else 87 + n).
Proof. unfold LF. destruct (n <? 10); lia. Qed.

Lemma hex4_flat c : LF ∉ hex4 c.
Proof. unfold hex4. flat; apply hexDigit_flat, Z.mod_pos_bound; lia. Qed.

Lemma quoteUnit_flat c : LF ∉ quoteUnit c.
Proof.
  unfold quoteUnit. repeat match goal with |- context [if ?b then _ else _] => destruct b eqn:?; [by flat|] end.
  destruct (c <? 32); [flat; apply hex4_flat|]. flat. unfold LF. lia.
Qed.

Lemma quoteAll_flat s : LF ∉ quoteAll s.
Proof.
  induction (well_founded_ltof _ (@length Z) s) as [s _ IH]. unfold ltof in IH.
  destruct s as [|c r]; [apply not_elem_of_nil|]. cbn [quoteAll].
  assert (LF ∉ quoteAll r) as Hr by (apply IH; simpl; lia).
  assert (LF ∉ runes "\u" ++ hex4 c ++ quoteAll r) as Hu by (flat; apply hex4_flat).
  destruct (isLead c) eqn:E1.
  - destruct r as [|d r]; [flat; apply hex4_flat|]. destruct (isTrail d) eqn:E2; [|done].
    unfold isLead, isTrail in *. unfold LF in *. flat; [lia|lia|]. apply IH. simpl. lia.
  - destruct (isTrail c); [done|]. flat. apply quoteUnit_flat.
Qed.

Lemma quoteJSON_flat s : LF ∉ quoteJSON s.
Proof. unfold quoteJSON. flat. apply quoteAll_flat. Qed.

Lemma shortEscape_flat h : LF ∉ h → LF ∉ shortEscape h.
Proof.
  intros H. unfold shortEscape. repeat match goal with |- context [if ?b then _ else _] => destruct b; [by flat|] end.
  destruct (bool_decide _); flat. intros ?. apply H. by eapply elem_of_drop_inv || (rewrite <- (take_drop 2 h); apply elem_of_app; by right).
Qed.

Lemma flat_drop n s : LF ∉ s → LF ∉ drop n s.
Proof. intros H ?. apply H. rewrite <- (take_drop n s). apply elem_of_app. by right. Qed.

Lemma flat_take n s : LF ∉ s → LF ∉ take n s.
Proof. intros H ?. apply H. rewrite <- (take_drop n s). apply elem_of_app. by left. Qed.

Lemma newlineRun_flat s : LF ∉ s → LF ∉ snd (newlineRun s).
Proof.
  induction (well_founded_ltof _ (@length Z) s) as [s _ IH]. unfold ltof in IH. intros H.
  destruct s as [|b [|n r]]; [done|done|]. cbn [newlineRun]. destruct (_ && _ && _); [|done].
  specialize (IH r). destruct (newlineRun r) as [k r']. apply IH; [simpl; lia|]. rewrite !not_elem_of_cons in H. tauto.
Qed.

(** Breaks and then the indentation. *)
Lemma solid_breaks k j a n b : (j <= k)%nat → inside j a → LF ∉ b → solid j (a ++ replicate (S n) LF ++ replicate k SP ++ b).
Proof.
  intros Hjk Ha Hb. revert a Ha. induction n as [|n IH]; intros a Ha; [by apply solid_break|].
  change (replicate (S (S n)) LF) with ([LF] ++ replicate (S n) LF). rewrite <- app_assoc, (app_assoc a). apply IH.
  apply inside_app_break; [done|]. constructor; [|constructor]. left. by exists 0%nat.
Qed.

(** Double quotes: a break is put only with the indentation after it. *)
Lemma printLoop_solid fuel multi k : ∀ rest out o, LF ∉ rest → solid k out →
  printLoop fuel multi (replicate k SP) rest out = Some o → solid k o ∧ (multi = false → LF ∉ out → LF ∉ o).
Proof.
  induction fuel as [|fuel IH]; [done|]. intros rest out o Hr Hs. cbn [printLoop].
  destruct rest as [|t r1]; [by intros [= <-]|].
  set (out1 := if (t =? SP) && startsNewline r1 then out ++ [BACKSLASH; SP] else out).
  assert (solid k out1 ∧ (LF ∉ out → LF ∉ out1)) as [Hs1 Hf1].
  { unfold out1. destruct (_ && _); [|done]. split; [apply solid_app_line; [done|by flat]|intros; by flat]. }
  clearbody out1. set (rest := if _ && _ then r1 else _).
  assert (LF ∉ rest) as Hrest by (unfold rest; rewrite not_elem_of_cons in Hr; destruct (_ && _); flat; naive_solver).
  clearbody rest. destruct rest as [|u [|c r2]];
    [by intros [= <-]; rewrite app_nil_r|intros [= <-]; split; [by apply solid_app_line|intros; apply not_elem_of_app; auto]|].
  assert (u ≠ LF ∧ c ≠ LF ∧ (LF ∉ r2)) as (Hu & Hc & Hr2) by (rewrite !not_elem_of_cons in Hrest; naive_solver).
  assert (∀ b rest', LF ∉ b → LF ∉ rest' → printLoop fuel multi (replicate k SP) rest' (out1 ++ b) = Some o →
    solid k o ∧ (multi = false → LF ∉ out → LF ∉ o)) as Hstep.
  { intros b rest' Hb Hr' H. apply IH in H as [H1 H2]; [|done|by apply solid_app_line]. split; [done|].
    intros Hm Ho. apply H2; [done|]. flat. auto. }
  destruct (u =? BACKSLASH); [|apply Hstep; flat]. destruct (c =? ch "u"); [apply Hstep; [by apply shortEscape_flat, flat_take|by apply flat_drop]|].
  destruct (c =? ch "n"); [|apply Hstep; flat]. destruct multi; cbn [negb orb]; [|apply Hstep; flat].
  destruct (eqc (head r2) DQ); [apply Hstep; flat|]. pose proof (newlineRun_flat r2 Hr2) as Hn.
  destruct (newlineRun r2) as [n r3]. intros H. apply IH in H as [H1 _]; [done|done|].
  apply (solid_breaks k k out1 (S n)); [done|apply Hs1|]. by destruct (eqc _ _); flat.
Qed.

(** The three ways in which a run of breaks is indented: one break more in plain and
    quoted texts, and none at the end of a block. *)
Fixpoint runs (more fin : bool) (l s : jstr) : jstr :=
  match s with
  | [] => []
  | c :: r =>
    if (c =? LF) && negb (eqc (head r) LF) && (fin || negb (bool_decide (r = [])))
    then LF :: (if more then [LF] else []) ++ l ++ runs more fin l r else c :: runs more fin l r
  end.

Lemma breakRuns_runs l s : breakRuns l s = runs true true l s.
Proof. induction s as [|c s IH]; [done|]. cbn [breakRuns runs orb]. by rewrite andb_true_r, IH. Qed.

Lemma indentRuns_runs l s : indentRuns l s = runs false true l s.
Proof. induction s as [|c s IH]; [done|]. cbn [indentRuns runs orb]. by rewrite andb_true_r, IH. Qed.

Lemma indentInnerRuns_runs l s : indentInnerRuns l s = runs false false l s.
Proof. induction s as [|c s IH]; [done|]. cbn [indentInnerRuns runs orb]. by rewrite IH. Qed.

Lemma runs_lines more fin k s : ∃ x ys, Js.split LF (runs more fin (replicate k SP) s) = x :: ys ∧
  Forall (strictLine k) ys ∧ (head s = Some LF → x = []) ∧ (fin = true → last ys ≠ Some [] ∨ k = 0%nat).
Proof.
  induction s as [|c s (x & ys & Hx & Hys & Hh & Hl)]; [exists [], []; split_and!; try done; by left|].
  cbn [runs]. destruct (Z.eqb_spec c LF) as [->|Hc]; cbn [andb].
  - destruct (negb (eqc (head s) LF) && (fin || negb (bool_decide (s = [])))) eqn:E.
    + pose proof (split_spaces k _ x ys Hx) as Hsp. exists [].
      assert (strictLine k (replicate k SP ++ x)) as Hk by (right; by exists x).
      assert (fin = true → last ((replicate k SP ++ x) :: ys) ≠ Some [] ∨ k = 0%nat) as Hlast.
      { intros Hf. destruct k as [|k']; [by right|left]. destruct (Hl Hf) as [Hl'|]; [|done].
        rewrite last_cons. destruct (last ys); [congruence|done]. }
      exists ((if more then [[]] else []) ++ (replicate k SP ++ x) :: ys). split_and!; [| |done|].
      * by destruct more; cbn [app Js.split]; change (LF =? LF) with true; rewrite Hsp.
      * apply Forall_app. split; [destruct more; by repeat constructor|by constructor].
      * intros Hf. destruct (Hlast Hf) as [H|H]; [left|by right]. rewrite last_app.
        by destruct (last (_ :: ys)) eqn:E2; [|apply last_None in E2].
    + exists [], (x :: ys). cbn [Js.split]. change (LF =? LF) with true. rewrite Hx. split_and!; try done.
      * constructor; [|done]. destruct (eqc (head s) LF) eqn:Eh; [left; apply Hh; by apply eqc_true|].
        cbn [negb andb] in E. destruct fin; [done|]. case_bool_decide; [|done]. subst s. left. by simplify_eq/=.
      * intros Hf. rewrite last_cons. destruct (last ys) eqn:El; [by destruct (Hl Hf); [left|right]|].
        (* the break is followed by another *)
        rewrite Hf in E. rewrite andb_true_r in E. apply negb_false_iff, eqc_true in E.
        apply last_None in El as ->. exfalso. destruct s as [|d s]; [done|]. cbn in E. simplify_eq. clear -Hx. cbn [runs] in Hx. rewrite Z.eqb_refl in Hx.
        cbn [andb] in Hx. destruct (_ && _) in Hx; cbn [Js.split] in Hx; change (LF =? LF) with true in Hx; cbn iota in Hx.
        all: match type of Hx with [] :: ?l = _ => assert (l = []) by congruence end; by eapply split_nonempty.
  - exists (c :: x), ys. cbn [Js.split]. rewrite (proj2 (Z.eqb_neq _ _) Hc), Hx. split_and!; try done. by intros [= ->].
Qed.

Lemma runs_flat more fin l s : LF ∉ s → LF ∉ runs more fin l s.
Proof.
  induction s as [|c s IH]; [done|]. intros [Hc Hs]%not_elem_of_cons. cbn [runs].
  rewrite (proj2 (Z.eqb_neq c LF)) by congruence. cbn [andb]. flat. by apply IH.
Qed.

Lemma doubleQuotes_flat s : LF ∉ s → LF ∉ doubleQuotes s.
Proof.
  unfold doubleQuotes. induction s as [|c s IH]; [done|]. intros [Hc Hs]%not_elem_of_cons. rewrite bind_cons.
  specialize (IH Hs). destruct (c =? ch "'"); flat.
Qed.

Lemma trimmed_flat e : LF ∉ unbreak false e.
Proof.
  assert (∀ b, LF ∉ unbreak b e) as H; [|done]. induction e as [|c e IH]; intros b; [apply not_elem_of_nil|]. cbn [unbreak].
  destruct (Z.eqb_spec c LF); cbn [orb]; [destruct b; flat; apply IH|].
  destruct (c =? CR); [destruct b; flat; apply IH|]. destruct (_ && _); flat; apply IH.
Qed.

Lemma comment_flat c : LF ∉ c → LF ∉ stringifyComment c.
Proof.
  unfold stringifyComment. generalize true. induction c as [|x c IH]; intros b; [done|].
  intros [Hx Hc]%not_elem_of_cons. cbn [commentFrom]. destruct (b && _); [|by flat; auto]. by destruct (_ && _); flat; auto.
Qed.

(** From the lines of a text. *)
Lemma lines_good k s x ys : Js.split LF s = x :: ys → Forall (strictLine k) ys → good k s.
Proof.
  intros Hs Hys. destruct ys as [|y ys].
  - left. apply solid_line. pose proof (join_split LF s) as Hj. rewrite Hs in Hj. cbn in Hj. subst x.
    eapply split_no_sep. rewrite Hs. left.
  - pose proof (join_split LF s) as Hj. rewrite Hs, join_cons in Hj by done. rewrite <- Hj.
    apply break_lines; [apply inside_line; eapply split_no_sep; rewrite Hs; left|].
    rewrite split_join; [done|done|]. apply Forall_forall. intros z Hz. eapply split_no_sep. rewrite Hs. by right.
Qed.

Lemma runs_good more fin k s : good k (runs more fin (replicate k SP) s).
Proof. destruct (runs_lines more fin k s) as (x & ys & Hx & Hys & _). by eapply lines_good. Qed.

Lemma runs_solid more k s : solid k (runs more true (replicate k SP) s).
Proof.
  destruct (runs_good more true k s) as [?|[Hi [a Ha]]]; [done|]. split; [done|right].
  destruct (runs_lines more true k s) as (x & ys & Hx & _ & _ & Hl). exists a, []. split; [|apply not_elem_of_nil].
  destruct (Hl eq_refl) as [H| ->]; [|done]. exfalso. apply H. rewrite Ha in Hx.
  destruct (split_app LF a [LF]) as (ps & p & q & qs & _ & H2 & H3). cbn in H2. simplify_eq. rewrite Hx, app_nil_r in H3.
  destruct ps as [|? ps]; simplify_eq/=; by rewrite ?last_app.
Qed.

Lemma good_zero s : good 0 s.
Proof.
  destruct (Js.split LF s) as [|x ys] eqn:E; [by apply split_nonempty in E|]. eapply lines_good; [done|].
  apply Forall_forall. intros y _. right. by exists y.
Qed.

Lemma solid_zero s : solid 0 s.
Proof.
  destruct (good_zero s) as [?|[? [a ->]]]; [done|]. split; [done|right]. exists a, []. split; [done|apply not_elem_of_nil].
Qed.

Section strings.
Context (t : PrintCtx) (k : nat) (Hk : (0 < k)%nat) (Hind : indent (base t) = replicate k SP) (Hw : optLineWidth (base t) <= 0).

Lemma contentIndent_k e : contentIndent (base t) e = replicate k SP.
Proof. unfold contentIndent. rewrite Hind. by destruct k; [lia|]. Qed.

Lemma double_solid e s : doubleQuotedString e (base t) = Some s →
  solid k s ∧ (implicitKey (base t) = true → LF ∉ s).
Proof.
  unfold doubleQuotedString. destruct (doubleQuotedAsJSON (base t)).
  { intros [= <-]. pose proof (quoteJSON_flat e). split; [by apply solid_line|done]. }
  rewrite contentIndent_k. destruct (printLoop _ _ _ _ _) as [o|] eqn:E; [|done].
  apply printLoop_solid in E as [H1 H2]; [|apply quoteJSON_flat|apply solid_line; apply not_elem_of_nil].
  destruct (implicitKey (base t)); [|rewrite unfolded_text by done]; intros [= <-]; (split; [done|]); [|done].
  intros _. apply H2; [done|]. apply not_elem_of_nil.
Qed.

(** The text of a string can be continued and has no breaks in a key; only a block
    ends with breaks. *)
Definition stringOk (r : option Printed) : Prop := ∀ p, r = Some p →
  (solid k (text p) ∧ (implicitKey (base t) = true → LF ∉ text p)) ∨
  (good k (text p) ∧ implicitKey (base t) = false ∧ inFlow t = false).

Lemma double_ok e : stringOk (just <$> doubleQuotedString e (base t)).
Proof using All.
  intros p. destruct (doubleQuotedString e (base t)) eqn:E; [|done]. intros [= <-]. left. by apply double_solid in E.
Qed.

Lemma unfolded_ok s md : solid k s → (implicitKey (base t) = true → LF ∉ s) →
  stringOk (just <$> if implicitKey (base t) then Some s else fst <$> foldText_ s (replicate k SP) md (foldOptions (base t))).
Proof using All.
  intros Hs Hf p. unfold stringOk. rewrite (unfolded_text s (replicate k SP) md (foldOptions (base t))) by done.
  destruct (implicitKey (base t)); cbn [fmap option_fmap option_map fst]; intros [= <-]; left; auto.
Qed.

Lemma single_ok e : stringOk (just <$> singleQuotedString e (base t)).
Proof using All.
  unfold singleQuotedString. destruct (_ || _ || _) eqn:E; [apply double_ok|].
  apply orb_false_iff in E as [E _]. apply orb_false_iff in E as [_ E]. rewrite contentIndent_k, breakRuns_runs.
  apply unfolded_ok.
  - rewrite app_assoc. apply solid_app_line; [|by flat]. apply solid_app_solid; [apply solid_line; by flat|apply runs_solid].
  - intros Hi. rewrite Hi in E. apply no_break in E. flat. by apply runs_flat, doubleQuotes_flat.
Qed.

Lemma quoted_ok e : stringOk (just <$> quotedString e (base t)).
Proof using All.
  pose proof (double_ok e). pose proof (single_ok e). unfold quotedString. by repeat case_match.
Qed.

Lemma chompMark_flat n p : LF ∉ fst (chompMark n p).
Proof. unfold chompMark. by repeat case_match; cbn [fst]; flat. Qed.

Context (Hcs : commentString t = stringifyComment).

Lemma block_ok e : implicitKey (base t) = false → inFlow t = false → stringOk (blockString e t).
Proof using All.
  intros Hi Hfl. unfold blockString. destruct (_ || _); [apply quoted_ok|].
  assert (Hl : (match indent (base t) with [] => if forceBlockIndent t || containsDocumentMarker (value_ e) then [SP; SP] else []
    | i => i end) = replicate k SP) by (rewrite Hind; by destruct k; [lia|]).
  rewrite Hl. clear Hl. set (literal := if bool_decide (blockQuote t = LITERAL_BLOCK) then true else _).
  intros p Hp. right. split; [|done]. revert Hp. case_bool_decide as Ev.
  { intros [= <-]. destruct literal; eapply lines_good; try reflexivity; by repeat constructor. }
  destruct (trailing (value_ e)) as [n0 p0]. pose proof (chompMark_flat (value_ e) p0) as Hd.
  destruct (chompMark (value_ e) p0) as [d keep]. cbn [fst] in Hd.
  rewrite indentInnerRuns_runs, !indentRuns_runs.
  set (y := if negb _ then _ else _).
  assert (Hy : LF ∉ y).
  { unfold y. rewrite Hcs. pose proof (comment_flat _ (trimmed_flat (comment_ e))).
    repeat case_match; flat. }
  assert (∀ b m, LF ≠ b → good k m → good k ([b] ++ y ++ [LF] ++ replicate k SP ++ m)) as Hbody.
  { intros b m Hb Hm. change ([LF] ++ replicate k SP ++ m) with (LF :: replicate k SP ++ m). rewrite app_assoc.
    apply good_break; [done| |done]. apply inside_line. flat. }
  assert (good k ([ch "|"] ++ y ++ [LF] ++ replicate k SP ++ runs false true (replicate k SP) (upToLastBreak (leadBlanks n0)) ++
    runs false true (replicate k SP) (drop (length (upToLastBreak (leadBlanks n0))) n0) ++
    runs false false (replicate k SP) (dropLastBreak p0))) as Hlit.
  { apply Hbody; [done|]. apply solid_app; [apply runs_solid|]. apply solid_app; [apply runs_solid|apply runs_good]. }
  destruct literal; [by intros [= <-]|].
  destruct (keepIndented _ _ _) as [f|]; cbn [mbind option_bind]; [|done].
  rewrite unfolded_text by done. cbn [mbind option_bind]. rewrite andb_false_r. intros [= <-]. cbn [text].
  apply Hbody; [done|]. rewrite indentRuns_runs. apply solid_app; [apply runs_solid|]. apply solid_app; [apply runs_solid|apply runs_good].
Qed.

Lemma plainText_ok a : (implicitKey (base t) = true → LF ∉ a) → stringOk (plainText a t).
Proof using All.
  intros Ha. unfold plainText. destruct (_ && _); [apply quoted_ok|]. rewrite Hind, breakRuns_runs.
  pose proof (unfolded_ok (runs true true (replicate k SP) a) FOLD_FLOW (runs_solid _ _ _)) as H.
  rewrite (unfolded_text _ _ FOLD_FLOW (foldOptions (base t))) in H |- * by done.
  destruct (implicitKey (base t)); apply H; intros; by apply runs_flat; auto.
Qed.

Lemma plainString_ok e : stringOk (plainString e t).
Proof using All.
  unfold plainString. pose proof (quoted_ok (value_ e)). pose proof (block_ok e).
  destruct (implicitKey (base t) && existsb (Z.eqb LF) (value_ e)) eqn:E; [done|]. cbn [orb].
  destruct (inFlow t && existsb (oneOf "[]{},") (value_ e)); [done|].
  destruct (notPlain _).
  { destruct (implicitKey (base t)) eqn:Ei; cbn [orb]; [done|].
    destruct (inFlow t) eqn:Ef; cbn [orb]; [done|]. by destruct (negb _); auto. }
  assert (stringOk (plainText (value_ e) t)).
  { apply plainText_ok. intros Hi. rewrite Hi in E. by apply no_break. }
  destruct (negb (implicitKey (base t)) && _ && _ && _) eqn:E2.
  { destruct (implicitKey (base t)) eqn:Ei; [done|]. destruct (inFlow t) eqn:Ef; [done|]. auto. }
  destruct (containsDocumentMarker _); [|done]. rewrite bool_decide_eq_false_2 by (rewrite Hind; by destruct k; [lia|]).
  by destruct (implicitKey (base t) && bool_decide (indent (base t) = indentStep t)).
Qed.

Lemma string_ok e : stringOk (stringifyString e t).
Proof using All.
  unfold stringifyString. pose proof (double_ok (value_ e)). pose proof (single_ok (value_ e)). pose proof (quoted_ok (value_ e)).
  pose proof (plainString_ok e). pose proof (block_ok e).
  assert (∀ ty, ∃ r, stringAs (Some ty) e t = Some r ∧ stringOk r) as Has.
  { intros ty. destruct ty; cbn [stringAs]; eexists; (split; [done|]); try done;
    destruct (implicitKey (base t)) eqn:Ei; cbn [orb]; try done; destruct (inFlow t) eqn:Ef; auto. }
  destruct (if _ && _ then Some QUOTE_DOUBLE else type_ e) as [ty|]; [by destruct (Has ty) as (r & -> & Hr)|].
  change (stringAs None e t) with (None : option (option Printed)). cbv beta iota.
  match goal with |- context [stringAs (Some ?ty) e t] => by destruct (Has ty) as (r & -> & Hr) end.
Qed.

End strings.

(** ** Contexts and nodes *)

(** The context of a node indented by [k]: spaces for the indentation and its step, no
    folding, the standard comments, and texts of one line for tags, null and padding. *)
Record ctxOk (k : nat) (t : NCtx) : Prop := {
  ok_indent : nindent t = replicate k SP;
  ok_step : ∃ j, nstep t = replicate j SP;
  ok_width : optLineWidth (nbase t) <= 0;
  ok_comments : comments t = stringifyComment;
  ok_padding : LF ∉ flowCollectionPadding t;
  ok_null : LF ∉ nullStr t;
  ok_tag : ∀ g, LF ∉ tagString t g;
}.

Definition cleanMeta (m : Meta) : Prop := clean (comment m) ∧ clean (commentBefore m).

(** Comments have no breaks but those of YAML, and the other scalars have one line. *)
Fixpoint cleanNode (n : node) : Prop :=
  cleanMeta (meta n) ∧
  match n with
  | Str _ _ _ => True
  | Other _ s => LF ∉ s
  | MapNode _ _ items =>
    foldr (λ i P, cleanNode (fst i) ∧ match snd i with Some v => cleanNode v | None => True end ∧ P) True items
  | SeqNode _ _ items => foldr (λ i P, cleanNode i ∧ P) True items
  end.

Definition cleanValue (v : option node) : Prop := match v with Some v => cleanNode v | None => True end.

Lemma cleanNode_meta n : cleanNode n → cleanMeta (meta n).
Proof. destruct n; intros [? _]; done. Qed.

Lemma cleanNode_map m f items : cleanNode (MapNode m f items) → Forall (λ i, cleanNode (fst i) ∧ cleanValue (snd i)) items.
Proof. intros [_ H]. induction items as [|i items IH]; [constructor|]. destruct H as (? & ? & H). constructor; auto. Qed.

Lemma cleanNode_seq m f items : cleanNode (SeqNode m f items) → Forall cleanNode items.
Proof. intros [_ H]. induction items as [|i items IH]; [constructor|]. destruct H as (? & H). constructor; auto. Qed.

(** Induction on the nodes inside. *)
Lemma node_nested (P : node → Prop) :
  (∀ m ty v, P (Str m ty v)) → (∀ m s, P (Other m s)) →
  (∀ m f items, Forall (λ i, P (fst i) ∧ from_option P True (snd i)) items → P (MapNode m f items)) →
  (∀ m f items, Forall P items → P (SeqNode m f items)) → ∀ n, P n.
Proof.
  intros HS HO HM HQ. fix IH 1. intros [m ty v|m s|m f items|m f items]; [apply HS|apply HO|apply HM|apply HQ].
  - induction items as [|[k v] items IHi]; constructor; [|exact IHi]. split; [apply IH|].
    destruct v as [v|]; [apply IH|exact I].
  - induction items as [|i items IHi]; constructor; [apply IH|exact IHi].
Qed.

Lemma ok_withIas k t i : ctxOk k t → ctxOk k (withIas i t).
Proof. intros []. by constructor. Qed.

Lemma ok_withKey k t b : ctxOk k t → ctxOk k (withKey b t).
Proof. intros []. by constructor. Qed.

Lemma ok_setAllNull k t b : ctxOk k t → ctxOk k (setAllNull b t).
Proof. intros []. by constructor. Qed.

Lemma ok_setFlow k t : ctxOk k t → ctxOk k (setFlow t).
Proof. intros []. by constructor. Qed.

Lemma ok_withIndent k j t : ctxOk k t → ctxOk j (withIndent (replicate j SP) t).
Proof. intros []. by constructor. Qed.

Create HintDb yamlctx.
#[local] Hint Resolve ok_withIas ok_withKey ok_setAllNull ok_setFlow ok_withIndent : yamlctx.

(** The properties of a node are on one line. *)
Lemma props_flat m t k props : ctxOk k t → printProps m t = inr props → LF ∉ props.
Proof.
  intros Ht. unfold printProps. destruct (hasDirectives t); cbn [negb]; [|intros [= <-]; by flat]. destruct (anchor m) as [[|x a]|]; cbn [bindR];
    try (destruct (badAnchor (x :: a)) eqn:E; [done|cbn [bindR]]); intros [= <-].
  2: assert (LF ∉ ch "&" :: x :: a) as Ha.
  2: { rewrite not_elem_of_cons. split; [done|]. intros Hin. assert (badAnchor (x :: a) = true) as E'; [|by rewrite E in E'].
       apply existsb_exists. exists LF. split; [by apply list_elem_of_In|done]. }
  2: rewrite !not_elem_of_cons in Ha; destruct Ha as (? & ? & ?).
  all: pose proof (ok_tag _ _ Ht); destruct (tag m) as [[|y g]|]; cbn [app join]; flat.
Qed.

(** ** Pairs *)

(** The text printed for an item of a collection: in flow style it can be continued. *)
Definition textOk (k : nat) (t : NCtx) (s : jstr) : Prop := good k s ∧ (isFlow t = true → solid k s).

(** That of a node; a scalar that is a key has one line. *)
Definition nodeText (n : node) : Prop := ∀ k t o, (0 < k)%nat → ctxOk k t → cleanNode n → print n t = inr o →
  textOk k t (otext o) ∧ (implicitKey (nbase t) = true → isCollection n = false → LF ∉ otext o).

Lemma textOk_mono k j t s : (j <= k)%nat → textOk k t s → textOk j t s.
Proof. intros H [H1 H2]. split; [by eapply good_mono|]. intros Hf. by eapply solid_mono; [|auto]. Qed.

Lemma comment_lines_indented k j t c : (j <= k)%nat → ctxOk k t → clean c →
  Forall (strictLine j) (Js.split LF (indentComment (comments t c) (nindent t))).
Proof.
  intros Hjk Ht Hc. rewrite (ok_comments _ _ Ht), (ok_indent _ _ Ht).
  eapply Forall_impl; [by apply comment_indented|]. intros x. by apply strictLine_mono.
Qed.

Lemma lineComment_ok k j t g c : (j <= k)%nat → ctxOk k t → clean c → good j g →
  good j (g ++ lineComment g (nindent t) (comments t c)).
Proof. intros Hjk Ht Hc Hg. rewrite (ok_comments _ _ Ht), (ok_indent _ _ Ht). by apply lineComment_good. Qed.

(** A text on the next line. *)
Lemma textOk_break k j t a s : (k <= j)%nat → inside k a → textOk k t s → textOk k t (a ++ LF :: replicate j SP ++ s).
Proof.
  intros Hkj Ha [H1 H2]. split; [by apply good_break|]. intros Hf. specialize (H2 Hf).
  change (LF :: replicate j SP ++ s) with ((LF :: replicate j SP) ++ s). rewrite app_assoc.
  apply solid_app_solid; [|done]. rewrite <- (app_nil_r (replicate j SP)). apply solid_break; [done|done|apply not_elem_of_nil].
Qed.

Lemma textOk_app k t a s : solid k a → textOk k t s → textOk k t (a ++ s).
Proof. intros Ha [H1 H2]. split; [by apply solid_app|]. intros Hf. apply solid_app_solid; auto. Qed.

Lemma textOk_line k t s : LF ∉ s → textOk k t s.
Proof. intros H. split; [left|intros _]; by apply solid_line. Qed.

Lemma good_newline k a : good k a → good k (a ++ [LF]).
Proof. intros H. apply break_lines; [by apply good_inside|]. constructor; [by left|constructor]. Qed.

(** The value after its key, which can be continued when it has no comment. *)
Lemma separated k j t p f v g x : (k <= j)%nat → ctxOk j t → cleanValue v →
  good k g → (f = false → solid k g) → textOk j t x →
  textOk k t (g ++ separator t p f v x ++ x).
Proof.
  intros Hkj Ht Hv Hg Hsg Hx. apply (textOk_mono _ k) in Hx; [|done]. unfold separator.
  set (space := match v with Some v => spaceBefore (meta v) | None => false end).
  set (before := match v with Some v => commentBefore (meta v) | None => [] end).
  assert (clean before) as Hb by (destruct v as [v|]; [by apply cleanNode_meta|constructor]). clearbody space before.
  destruct (f || space || given before) eqn:E.
  - set (S := (if space then [LF] else []) ++ _).
    assert (good k (g ++ S)) as HS.
    { unfold S. rewrite app_assoc. assert (good k (g ++ if space then [LF] else [])) as H1
        by (destruct space; [by apply good_newline|by rewrite app_nil_r]).
      destruct (given before); [|by rewrite app_nil_r]. apply break_lines; [by apply good_inside|].
      by apply (comment_lines_indented j k). }
    destruct (bool_decide (x = []) && negb (isFlow t)) eqn:E2.
    + apply andb_prop in E2 as [->%bool_decide_eq_true Hf%negb_true_iff]. split; [|by rewrite Hf]. rewrite app_nil_r.
      destruct (_ && _); [|done]. change [LF; LF] with ([LF] ++ [LF]). rewrite app_assoc. by do 2 apply good_newline.
    + rewrite (ok_indent _ _ Ht), <- app_assoc, app_assoc. by apply textOk_break; [|apply good_inside|].
  - destruct f; [done|]. specialize (Hsg eq_refl).
    assert (textOk k t (g ++ [SP] ++ x)) by (rewrite app_assoc; apply textOk_app; [apply solid_app_line; [done|by flat]|done]).
    destruct (if p then None else flowOf v).
    + destruct (_ && _); [|done]. rewrite (ok_indent _ _ Ht). by apply textOk_break; [|apply Hsg|].
    + destruct (bool_decide (x = []) || _); [|done]. by apply textOk_app.
Qed.

(** The text of a value, whose context may be the one of a sequence that is not
    indented. *)
Lemma pairValue_ok k t t1 p f g v o : (0 < k)%nat → ctxOk k t →
  (∃ j, ctxOk j t1 ∧ (∃ s, nstep t = replicate s SP ∧ j = k + s)%nat) → isFlow t1 = isFlow t →
  clean f → cleanValue v → from_option nodeText True v → good k g → (p = false → solid k g) →
  printPairValue print t t1 p f g v = inr o → textOk k t (otext o).
Proof.
  intros Hk Ht (j & Ht1 & s & Hs & ->) Hfl Hf Hv Hvt Hg Hsg.
  unfold printPairValue.
  set (g' := if p then _ else _).
  assert (good k g' ∧ (given f = false → solid k g')) as [Hg' Hsg'].
  { assert (∀ h, good k h → good k (if given f then h ++ lineComment h (nindent t1) (comments t f) else h)) as Hc.
    { intros h Hh. destruct (given f); [|done]. rewrite (ok_comments _ _ Ht), <- (ok_comments _ _ Ht1).
      apply (lineComment_ok (k + s)); [lia|done|done|done]. }
    unfold g'. destruct p.
    - assert (solid k ((runes "? " ++ (if given f then g ++ lineComment g (nindent t1) (comments t f) else g)) ++
        LF :: replicate k SP ++ runes ":")) as H.
      { apply solid_break; [done| |by flat]. apply good_inside, solid_app; [apply solid_line; by flat|by apply Hc]. }
      rewrite <- app_assoc in H. rewrite (ok_indent _ _ Ht). split; [by left|done].
    - assert (solid k (g ++ runes ":")) as H by (apply solid_app_line; [auto|by flat]).
      split; [apply Hc; by left|]. by intros ->. }
  set (t2 := if _ && _ then withIndent _ _ else _).
  assert (∃ j, (k <= j)%nat ∧ ctxOk j t2 ∧ isFlow t2 = isFlow t) as (j & Hj & Ht2 & Hfl2).
  { unfold t2. set (t3 := match v with Some v => _ | None => _ end).
    assert (ctxOk (k + s) t3 ∧ isFlow t3 = isFlow t) as [Ht3 Hfl3].
    { unfold t3. destruct v; [destruct (negb p && _ && _)|]; split; auto with yamlctx. }
    clearbody t3. destruct (_ && _) eqn:E; [|exists (k + s)%nat; split_and!; [lia|done|done]].
    exists (k + s - 2)%nat. split_and!; [|rewrite (ok_indent _ _ Ht3), drop_replicate; by eapply ok_withIndent|done].
    rewrite Hs in E. unfold len in E. rewrite length_replicate in E. lia. }
  clearbody g' t2. destruct (printValue print v t2) as [|o'] eqn:Eo; [done|]. cbn [bindR].
  assert (textOk j t2 (otext o')) as Ho.
  { destruct v as [v|]; cbn [printValue] in Eo; [|simplify_eq; apply textOk_line, (ok_null _ _ Ht2)].
    apply (Hvt j t2 o'); [lia|done|done|done]. }
  pose proof (separated k j t2 p (given f) v g' (otext o') Hj Ht2 Hv Hg' Hsg' Ho) as Hsep.
  unfold textOk in *. rewrite Hfl2 in Hsep. destruct (isFlow t); [by intros [= <-]|].
  destruct (_ && _); intros [= <-]; [|done]. split; [|done]. cbn [otext].
  rewrite (ok_comments _ _ Ht), <- (ok_comments _ _ Ht2). apply (lineComment_ok j); [done|done| |apply Hsep].
  destruct v as [v|]; [by apply cleanNode_meta|constructor].
Qed.

(** A pair, the key of which has no comment that is printed twice. *)
Lemma pair_ok key v k t o : (0 < k)%nat → ctxOk k t → cleanNode key → cleanValue v →
  nodeText key → from_option nodeText True v → printPair print key v t = inr o → textOk k t (otext o).
Proof.
  intros Hk Ht Hck Hcv Hnk Hnv. unfold printPair. set (d := simpleKeys t). set (a := allNullValues t). set (f := comment (meta key)).
  assert (clean f) as Hf by (by apply cleanNode_meta).
  destruct (d && given f); [done|]. destruct (d && isCollection key) eqn:Edc; [done|].
  set (p := negb d && _). set (t1 := withIndent _ _).
  destruct (ok_step _ _ Ht) as [s Hs].
  assert (ctxOk (k + s) t1 ∧ isFlow t1 = isFlow t) as [Ht1 Hfl1].
  { split; [|done]. unfold t1. rewrite (ok_indent _ _ Ht), Hs, <- replicate_add. eapply ok_withIndent. eauto with yamlctx. }
  assert (implicitKey (nbase t1) = negb p && (d || negb a)) as Hik by done.
  destruct (print key t1) as [|o'] eqn:Eo; [done|]. cbn [bindR].
  destruct (Hnk (k + s)%nat t1 o') as [Ho Hflat]; [lia|done|done|done|]. apply (textOk_mono _ k) in Ho; [|lia].
  set (long := _ && (1024 <? _)). destruct (long && d); [done|].
  assert (textOk k t (otext o')) as Ho' by (unfold textOk in *; by rewrite Hfl1 in Ho).
  assert (solid k (runes "? ")) as Hq by (apply solid_line; by flat).
  destruct (isFlow t && (a || negb (isSome v))) eqn:E1.
  { intros <-%(inj inr). cbn [otext]. case_bool_decide; [apply textOk_line; by flat|]. destruct (p || long); [by apply textOk_app|done]. }
  destruct (negb (isFlow t) && _) eqn:E2.
  { apply andb_prop in E2 as [Hfl%negb_true_iff _]. intros <-%(inj inr). split; [|by rewrite Hfl].
    assert (good k (runes "? " ++ otext o')) as Hg by (apply solid_app; [done|apply Ho']).
    destruct (_ && negb (ocomment o')); [|done]. cbn [otext]. rewrite (ok_comments _ _ Ht), <- (ok_comments _ _ Ht1).
    apply (lineComment_ok (k + s)); [lia|done|done|done]. }
  apply pairValue_ok; try done.
  - exists (k + s)%nat. split; [by apply ok_withIas|]. by exists s.
  - destruct (ocomment o'); [constructor|done].
  - apply Ho'.
  - intros [Hp _]%orb_false_iff. apply solid_line, Hflat; rewrite ?Hik, ?Hp; cbn [negb andb].
    + destruct d, a, (isFlow t); try done; by destruct (isSome v).
    + unfold p in Hp. destruct d; [done|]. cbn [negb andb] in Hp. by destruct (isCollection key); rewrite ?orb_true_r in Hp.
Qed.

(** ** Collections *)

(** A text without its first characters. *)
Lemma drop_lines k s : Forall (strictLine k) (Js.split LF s) → ∀ n, good k (drop n s).
Proof.
  intros Hs n. destruct (Js.split LF (drop n s)) as [|x ys] eqn:E; [by apply split_nonempty in E|].
  apply (lines_good k (drop n s) x ys); [done|].
  destruct (split_app LF (take n s) (drop n s)) as (ps & p & q & qs & H1 & H2 & H3). rewrite take_drop in H3.
  rewrite E in H2. simplify_eq. rewrite H3 in Hs. apply Forall_app in Hs as [_ Hs]. by apply Forall_cons in Hs as [_ ?].
Qed.

Lemma trimStart_drop s : ∃ n, trimStart s = drop n s.
Proof.
  induction s as [|c s [n IH]]; [by exists 0%nat|]. cbn [trimStart]. destruct (isSpaceJs c); [by exists (S n)|by exists 0%nat].
Qed.

Lemma clean_drop n c : clean c → clean (drop n c).
Proof. apply Forall_drop. Qed.

Lemma addComment_ok k t lines c keep : ctxOk k t → clean c → Forall (good k) lines → Forall (good k) (addComment t lines c keep).
Proof.
  intros Ht Hc Hl. unfold addComment. set (c' := if _ && _ then strip c else c).
  assert (clean c') by (unfold c', strip; destruct (_ && _); [by apply clean_drop|done]).
  destruct (given c'); [|done]. apply Forall_app. split; [done|]. constructor; [|constructor].
  destruct (trimStart_drop (indentComment (comments t c') (nindent t))) as [n ->].
  apply drop_lines. by eapply comment_lines_indented.
Qed.

(** Lines put together with breaks before them. *)
Lemma bind_lines k j ls : (k <= j)%nat → Forall (good k) ls → ∀ a, good k a →
  good k (a ++ (ls ≫= λ x, if given x then LF :: replicate j SP ++ x else [LF])).
Proof.
  intros Hkj. induction 1 as [|x ls Hx _ IH]; intros a Ha; [by rewrite app_nil_r|].
  rewrite bind_cons, app_assoc. apply IH. destruct (given x); [|by apply good_newline].
  by apply good_break; [|apply good_inside|].
Qed.

Lemma joinLines_ok k ls : Forall (good k) ls → good k (joinLines (replicate k SP) ls).
Proof. destruct 1 as [|l ls Hl Hls]; [left; apply solid_line; by flat|]. by apply bind_lines. Qed.

Section items.
Context {A : Type} (ops : itemOps A).

(** An item whose comments are clean and whose text stays inside. *)
Definition itemOk (i : A) : Prop :=
  clean (commentBefore (headMeta ops i)) ∧ clean (blockComment ops i) ∧ clean (flowComment ops i) ∧
  ∀ k t o, (0 < k)%nat → ctxOk k t → printItem ops i t = inr o → textOk k t (otext o).

Lemma blockItems_ok k j t u prefix items : (0 < k <= j)%nat → ctxOk k t → ctxOk j u → LF ∉ prefix → Forall itemOk items →
  ∀ d lines r, Forall (good k) lines → blockItems ops t u prefix (nindent u) d lines items = inr r → Forall (good k) (fst r).
Proof.
  intros Hkj Ht Hu Hp Hi. revert u Hu. induction Hi as [|i items (Hb & Hbc & _ & Hpr) _ IH]; intros u Hu d lines r Hl;
    [by intros <-%(inj inr)|].
  cbn [blockItems]. destruct (printItem ops i u) as [|o] eqn:Eo; [done|]. cbn [bindR].
  apply (Hpr j) in Eo as Ho; [|lia|done]. apply (textOk_mono _ k) in Ho as [Ho _]; [|lia].
  set (c := if ocomment o then [] else blockComment ops i).
  assert (clean c) by (unfold c; destruct (ocomment o); [constructor|done]).
  apply (IH (withIas (oias o) u)); [auto with yamlctx|].
  apply Forall_app. split.
  - apply addComment_ok; [done|done|]. destruct (_ && _); [|done]. apply Forall_app. split; [done|].
    constructor; [|constructor]. left. apply solid_line. by flat.
  - constructor; [|constructor]. apply solid_app; [by apply solid_line|]. destruct (given c); [|done].
    rewrite (ok_comments _ _ Ht), <- (ok_comments _ _ Hu). apply (lineComment_ok j); [lia|done|done|done].
Qed.

Lemma blockCollection_ok m k j t prefix start end_ items o : (0 < k <= j)%nat → ctxOk k t → clean (comment m) →
  LF ∉ prefix → LF ∉ start → LF ∉ end_ → Forall itemOk items →
  blockCollection ops m t prefix start end_ (replicate j SP) items = inr o → good k (otext o).
Proof.
  intros Hkj Ht Hm Hp Hs He Hi. unfold blockCollection.
  assert (ctxOk j (withIndent (replicate j SP) t)) as Hu by (by eapply ok_withIndent).
  change (replicate j SP) with (nindent (withIndent (replicate j SP) t)) at 2.
  destruct (blockItems _ _ _ _ _ _ _ _) as [|[lines d]] eqn:E; [done|]. cbn [bindR].
  apply (blockItems_ok k j) in E; [|done|done|done|done|done|constructor]. cbn [fst] in E.
  set (p := match lines with [] => _ | _ => _ end).
  assert (good k p) as Hg.
  { unfold p. destruct lines as [|l ls]; [left; apply solid_line; by flat|]. rewrite (ok_indent _ _ Ht). by apply joinLines_ok. }
  clearbody p. intros <-%(inj inr). destruct (given (comment m)); [|done]. cbn [otext].
  apply break_lines; [by apply good_inside|]. by eapply comment_lines_indented.
Qed.

Lemma flowItems_ok k j t c items : (0 < k <= j)%nat → ctxOk k t → ctxOk j c → isFlow c = true → Forall itemOk items →
  ∀ l u d r, Forall (good k) d → (l = false → Forall (λ x, LF ∉ x) d) → u = length d →
  flowItems ops t c (nindent c) l u d items = inr r →
  Forall (good k) (fst r) ∧ (snd r = false → Forall (λ x, LF ∉ x) (fst r)).
Proof.
  intros Hkj Ht Hc Hfl Hi. revert c Hc Hfl. induction Hi as [|i items (Hb & _ & Hfc & Hpr) _ IH]; intros c Hc Hfl l u d r Hd Hl Hu;
    [by intros <-%(inj inr)|].
  cbn [flowItems]. destruct (printItem ops i c) as [|o] eqn:Eo; [done|]. cbn [bindR].
  apply (Hpr j) in Eo as Ho; [|lia|done]. apply (textOk_mono _ k) in Ho as [_ Ho]; [|lia]. specialize (Ho Hfl).
  set (d1 := addComment t _ _ false).
  assert (Forall (good k) d1 ∧ ∃ e, d1 = d ++ e) as [Hd1 [e He]].
  { split.
    - apply addComment_ok; [done|done|]. destruct (spaceBefore _); [|done]. apply Forall_app. split; [done|].
      constructor; [|constructor]. left. apply solid_line. by flat.
    - unfold d1, addComment. rewrite andb_false_r.
      destruct (spaceBefore _), (given _); rewrite <- ?app_assoc; [by eauto..|]. exists []. by rewrite app_nil_r. }
  set (a := if ocomment o then [] else flowComment ops i).
  assert (clean a ∧ (given (flowComment ops i) = false → given a = false)) as [Ha Ha'].
  { unfold a. destruct (ocomment o); [split; [constructor|done]|done]. }
  set (l1 := l || _ || _ || _ || _). set (sl := match items with [] => _ | _ => _ end).
  assert (solid k (fst sl) ∧ (snd sl = false → l1 = false) ∧ ((LF ∉ otext o) → LF ∉ fst sl)) as (Hsl & Hsl1 & Hsl2).
  { assert (solid k (otext o ++ runes ",")) as Hcomma by (apply solid_app_line; [done|by flat]).
    assert (∀ b : bool, solid k (if b then otext o ++ runes "," else otext o) ∧
      (LF ∉ otext o → LF ∉ if b then otext o ++ runes "," else otext o)) as Hlast by (intros []; split; auto; intros; by flat).
    unfold sl. destruct items; [|split_and!; [done|done|apply (Hlast true)]]. destruct (trailingComma t); [|done].
    cbn [fst snd]. split_and!; [apply Hlast| |apply Hlast]. by intros [? _]%orb_false_iff. }
  clearbody sl. destruct sl as [s l2]. cbn [fst snd] in *.
  apply (IH (withIas (oias o) c)); [auto with yamlctx|done| | |done].
  - apply Forall_app. split; [done|]. constructor; [|constructor]. destruct (given a); [|by left].
    rewrite (ok_comments _ _ Ht), <- (ok_comments _ _ Hc). apply (lineComment_ok j); [lia|done|done|by left].
  - intros ->. specialize (Hsl1 eq_refl). apply orb_false_iff in Hsl1 as [Hs1 Hs2%no_break].
    apply orb_false_iff in Hs1 as [Hs1 Hs3%bool_decide_eq_false]. apply orb_false_iff in Hs1 as [Hs1 Hs4].
    apply orb_false_iff in Hs1 as [Hs1 _]. rewrite (Ha' Hs4), He. rewrite He, length_app, Hu in Hs3.
    destruct e; [|simpl in Hs3; lia]. rewrite app_nil_r. apply Forall_app. split; [auto|]. constructor; [auto|constructor].
Qed.

Lemma join_flat d : Forall (λ x, LF ∉ x) d → LF ∉ join [SP] d.
Proof.
  induction 1 as [|x d Hx Hd IH]; [by flat|]. destruct d as [|y d]; [done|]. rewrite join_cons by done. by flat.
Qed.

Lemma flowCollection_ok k j t start end_ items o : (0 < k <= j)%nat → ctxOk k t →
  LF ∉ start → LF ∉ end_ → Forall itemOk items →
  flowCollection ops t start end_ (replicate j SP) items = inr o → solid k (otext o).
Proof.
  intros Hkj Ht Hs He Hi. unfold flowCollection. destruct (ok_step _ _ Ht) as [s Hst].
  rewrite Hst, <- replicate_add.
  assert (ctxOk (j + s) (setFlow (withIndent (replicate (j + s) SP) t))) as Hc by (apply ok_setFlow; by eapply ok_withIndent).
  destruct (flowItems _ _ _ _ _ _ _ _) as [|[d l]] eqn:E; [done|]. cbn [bindR].
  apply (flowItems_ok k (j + s)) in E as [Hd Hl]; [|lia|done|done|done|done|constructor|constructor|done]. cbn [fst snd] in *.
  rewrite (proj2 (Z.ltb_ge 0 _) (ok_width _ _ Ht)). cbn [andb]. rewrite orb_false_r. intros <-%(inj inr).
  destruct d as [|x d]; [apply solid_line; cbn [otext]; by flat|]. destruct l; cbn [otext].
  - rewrite app_assoc, (ok_indent _ _ Ht). apply solid_break; [done| |done]. apply good_inside.
    rewrite (list_bind_ext _ (λ x, if given x then LF :: replicate (s + k) SP ++ x else [LF]) (x :: d) (x :: d));
      [apply bind_lines; [lia|done|by left; apply solid_line]| |done].
    intros y. by rewrite replicate_add, <- app_assoc.
  - apply solid_line. pose proof (ok_padding _ _ Ht). pose proof (join_flat _ (Hl eq_refl)). flat.
Qed.

Lemma collection_ok m f k j t prefix start end_ items o : (0 < k <= j)%nat → ctxOk k t → clean (comment m) →
  LF ∉ prefix → LF ∉ start → LF ∉ end_ → Forall itemOk items →
  printCollection ops m f t prefix start end_ (replicate j SP) items = inr o → textOk k t (otext o).
Proof.
  intros Hkj Ht Hm Hp Hs He Hi. unfold printCollection, textOk, isFlow. destruct (flow3 t) as [fl|]; cbn [default from_option id].
  2: destruct f as [[]|]; cbn [default from_option id].
  all: try destruct fl; intros H.
  all: try (apply (flowCollection_ok k j) in H; [split; [by left|done]|done..]).
  all: apply (blockCollection_ok _ k j) in H; done.
Qed.

End items.

(** ** Nodes *)

Lemma withProps_ok k t props n s : ctxOk k t → LF ∉ props → textOk k t s → textOk k t (withProps props n t s).
Proof.
  intros Ht Hp Hs. unfold withProps. case_bool_decide; [done|]. destruct (_ || _).
  - rewrite app_assoc. apply textOk_app; [apply solid_line; by flat|done].
  - change ([LF] ++ nindent t ++ s) with (LF :: nindent t ++ s). rewrite (ok_indent _ _ Ht).
    apply textOk_break; [done|by apply inside_line|done].
Qed.

(** The context of the text after the properties. *)
Lemma ok_afterProps k t props : ctxOk k t →
  let t' := if given props then withIas (Some (default 0 (ias t) + len props + 1)) t else t in
  ctxOk k t' ∧ isFlow t' = isFlow t ∧ implicitKey (nbase t') = implicitKey (nbase t).
Proof. intros Ht. cbv zeta. destruct (given props); auto with yamlctx. Qed.

Lemma scalar_ok k t props n s : ctxOk k t → LF ∉ props → isCollection n = false →
  textOk k t s ∧ (implicitKey (nbase t) = true → LF ∉ s) →
  textOk k t (withProps props n t s) ∧ (implicitKey (nbase t) = true → isCollection n = false → LF ∉ withProps props n t s).
Proof.
  intros Ht Hp Hn [H1 H2]. split; [by apply withProps_ok|]. intros Hi _. specialize (H2 Hi). unfold withProps. rewrite Hn.
  case_bool_decide; [done|]. cbn [negb orb]. flat.
Qed.

Lemma stringText_ok k t e p : (0 < k)%nat → ctxOk k t → stringifyString e (stringCtx t) = Some p →
  textOk k t (text p) ∧ (implicitKey (nbase t) = true → LF ∉ text p).
Proof.
  intros Hk Ht H. apply (string_ok (stringCtx t) k) in H; [|done|apply Ht|apply Ht|apply Ht].
  unfold textOk. destruct H as [[H1 H2]|(H1 & H2 & H3)].
  - split; [split; [by left|done]|done].
  - split; [split; [done|]|intros Hi; change (implicitKey (nbase t) = false) in H2; by rewrite Hi in H2].
    intros Hf. change (isFlow t = false) in H3. by rewrite Hf in H3.
Qed.

(** The properties of the node and the context [t'] after them. *)
Ltac with_props t' :=
  lazymatch goal with
  | Ht : ctxOk ?k ?t, Hc : cleanNode _ |- context [printProps ?m ?t] =>
    let props := fresh "props" in
    destruct (printProps m t) as [|props] eqn:Ep; [done|]; cbn [bindR];
    apply (props_flat _ _ k) in Ep; [|done];
    destruct (ok_afterProps k t props Ht) as (Ht' & Hfl & Hik);
    pose proof (cleanNode_meta _ Hc) as [Hm _]; cbn [meta] in Hm;
    set (t' := if given props then _ else t) in *; clearbody t'; unfold textOk; rewrite <- Hfl, <- Hik; fold (textOk k t')
  end.

Lemma node_text n : nodeText n.
Proof.
  induction n as [m ty v|m s|m f items IH|m f items IH] using node_nested; intros k t o Hk Ht Hc; cbn [print]; with_props t'.
  - destruct (stringifyString _ _) as [p|] eqn:E; [|done]. cbn [bindR]. intros <-%(inj inr). cbn [otext].
    apply scalar_ok; [done|done|done|]. by eapply stringText_ok.
  - intros <-%(inj inr). cbn [otext]. apply scalar_ok; [done|done|done|]. destruct Hc as [_ Hs].
    split; [by apply textOk_line|done].
  - set (t2 := if _ && _ then setAllNull true t' else t').
    assert (ctxOk k t2 ∧ isFlow t2 = isFlow t') as [Ht2 Hfl2] by (unfold t2; destruct (_ && _); auto with yamlctx).
    destruct (printCollection _ _ _ _ _ _ _ _ _) as [|o'] eqn:E; [done|]. cbn [bindR]. intros <-%(inj inr). split; [|done].
    cbn [otext]. apply withProps_ok; [done|done|]. rewrite (ok_indent _ _ Ht2) in E.
    apply (collection_ok _ _ _ k k) in E; [unfold textOk in *; by rewrite Hfl2 in E|lia|done|done|by flat|by flat|by flat|].
    apply cleanNode_map in Hc. apply Forall_forall. intros i Hin. rewrite Forall_forall in IH, Hc.
    destruct (IH i Hin) as [IHk IHv], (Hc i Hin) as [Hck Hcv]. destruct (cleanNode_meta _ Hck) as [Hk1 Hk2].
    split_and!; [done|constructor| |destruct i as [key v]; intros; by eapply pair_ok].
    destruct i as [key [v|]]; [by apply cleanNode_meta|done].
  - destruct (printCollection _ _ _ _ _ _ _ _ _) as [|o'] eqn:E; [done|]. cbn [bindR]. intros <-%(inj inr). split; [|done].
    cbn [otext]. apply withProps_ok; [done|done|]. rewrite (ok_indent _ _ Ht') in E.
    change [SP; SP] with (replicate 2 SP) in E. rewrite <- replicate_add in E.
    apply (collection_ok _ _ _ k (k + 2)) in E; [done|lia|done|done|by flat|by flat|by flat|].
    apply cleanNode_seq in Hc. apply Forall_forall. intros i Hin. rewrite Forall_forall in IH, Hc.
    destruct (cleanNode_meta _ (Hc i Hin)) as [Hi1 Hi2]. split_and!; try done.
    intros k' t'' o'' Hk' Ht'' Hp. apply (IH i Hin k' t'' o''); auto.
Qed.
