(* ===== verification/YamlNodesTotal.v ===== *)
(** * Printing YAML nodes succeeds

    Without folding, every node whose anchors are allowed is printed, unless simple
    keys are asked for: the loops have enough fuel and nothing is thrown.  With
    YamlNodesProps.v this gives the text of every such node. *)

From Stdlib Require Import ZArith Lia.
From stdpp Require Import base numbers strings gmap option list.
From S2P Require Import Prelude Js YamlLexer YamlLexerProps YamlScalars YamlScalarsProps YamlBlock YamlPrint YamlPrintProps YamlNodes YamlNodesProps.

Open Scope Z_scope.

Import Yaml Scalars Block Print Nodes.

(** ** Strings *)

Lemma newlineRun_length s : (length (snd (newlineRun s)) <= length s)%nat.
Proof.
  induction (well_founded_ltof _ (@length Z) s) as [s _ IH]. unfold ltof in IH.
  destruct s as [|b [|n r]]; [done|done|]. cbn [newlineRun]. destruct (_ && _ && _); [|done].
  specialize (IH r). destruct (newlineRun r) as [k r']. cbn [snd length] in *. lia.
Qed.

Lemma printLoop_total multi ind fuel : ∀ rest out, (length rest < fuel)%nat → is_Some (printLoop fuel multi ind rest out).
Proof.
  induction fuel as [|fuel IH]; intros rest out H; [lia|]. cbn [printLoop]. destruct rest as [|t r1]; [done|].
  set (rest' := if _ && _ then r1 else _).
  assert (length rest' <= S (length r1))%nat as Hl by (unfold rest'; destruct (_ && _); simpl; lia). clearbody rest'.
  simpl in H. destruct rest' as [|u [|c r2]]; [done|done|]. simpl in Hl. pose proof (newlineRun_length r2).
  pose proof (length_drop r2 4) as Hd. destruct (newlineRun r2) as [k r3]. cbn [snd] in *.
  repeat case_match; apply IH; simpl; lia.
Qed.

Section strings_total.
Context (t : PrintCtx) (Hw : optLineWidth (base t) <= 0).

Lemma double_total e : is_Some (doubleQuotedString e (base t)).
Proof using Hw.
  unfold doubleQuotedString. destruct (doubleQuotedAsJSON _); [done|].
  destruct (printLoop_total (negb (implicitKey (base t)) && (doubleQuotedMinMultiLineLength (base t) <=? len (quoteJSON e)))
    (contentIndent (base t) e) (S (length (quoteJSON e))) (quoteJSON e) []) as [o ->]; [lia|].
  destruct (implicitKey (base t)); [done|]. by rewrite unfolded_text.
Qed.

Lemma single_total e : is_Some (singleQuotedString e (base t)).
Proof using Hw.
  unfold singleQuotedString. destruct (_ || _ || _); [apply double_total|].
  destruct (implicitKey (base t)); [done|]. by rewrite unfolded_text.
Qed.

Lemma quoted_total e : is_Some (quotedString e (base t)).
Proof using Hw.
  unfold quotedString. pose proof (double_total e). pose proof (single_total e). by repeat case_match.
Qed.

Lemma just_total r : is_Some r → is_Some (just <$> r).
Proof. by intros [x ->]. Qed.

Lemma keepIndented_total fuel : ∀ b s, (length s < fuel)%nat → is_Some (keepIndented fuel b s).
Proof.
  induction fuel as [|fuel IH]; intros b s H; [lia|]. cbn [keepIndented]. destruct s as [|c r]; [done|]. simpl in H.
  assert (∀ r' k, (length (drop k r') < fuel)%nat →
    is_Some (let '(q, rest) := afterIndented (drop k r') in t ← keepIndented fuel false rest; Some (take k r' ++ q ++ t))) as Hline.
  { intros r' k Hr. unfold afterIndented. destruct (eqc _ _).
    - destruct (IH false (drop (Z.to_nat (countWhile blankBreak (drop k r'))) (drop k r'))) as [x ->]; [|done].
      rewrite length_drop. lia.
    - by destruct (IH false (drop k r')) as [x ->]. }
  destruct (b && isBlank c) eqn:Eb.
  - apply Hline. apply andb_prop in Eb as [_ Eb].
    assert (isLineBreak c = false) as Hc by (unfold isBlank, isLineBreak, SP, TAB, LF, CR in *; lia).
    cbn [countWhile]. rewrite Hc. cbn [negb]. rewrite length_drop. simpl.
    pose proof (countWhile_range (λ c, negb (isLineBreak c)) r). lia.
  - destruct ((c =? LF) && _); [apply Hline; rewrite length_drop; lia|]. by destruct (IH false r) as [x ->]; [lia|].
Qed.

Lemma doubleRuns_length b s : (length (doubleRuns b s) <= 2 * length s)%nat.
Proof. revert b. induction s as [|c s IH]; intros b; [done|]. cbn [doubleRuns]. pose proof (IH true). pose proof (IH false).
  destruct (c =? LF); [destruct b|]; simpl; lia. Qed.

Lemma block_total e : is_Some (blockString e t).
Proof using Hw.
  unfold blockString. destruct (_ || _); [apply just_total, quoted_total|]. set (l := match indent (base t) with [] => _ | _ => _ end).
  set (literal := if bool_decide (blockQuote t = LITERAL_BLOCK) then true else _). case_bool_decide; [done|]. destruct (trailing _) as [n0 p]. destruct (chompMark _ _) as [d keep].
  destruct literal; [done|]. set (n1 := drop _ n0).
  destruct (keepIndented_total (S (S (2 * length n1))) true (doubleRuns false n1)) as [f ->].
  { pose proof (doubleRuns_length false n1). lia. }
  cbn [mbind option_bind]. rewrite unfolded_text by done. done.
Qed.

End strings_total.

Lemma plain_total t e : optLineWidth (base t) <= 0 → is_Some (plainString e t).
Proof.
  intros Hw. unfold plainString. pose proof (just_total _ (quoted_total t Hw (value_ e))). pose proof (block_total t Hw e).
  assert (is_Some (setForced <$> blockString e (force t))) by (destruct (block_total (force t) Hw e) as [x ->]; done).
  assert (is_Some (plainText (value_ e) t)).
  { unfold plainText. destruct (_ && _); [done|]. destruct (implicitKey _); [done|]. by rewrite unfolded_text. }
  by repeat case_match.
Qed.

Lemma string_total t e : optLineWidth (base t) <= 0 → is_Some (stringifyString e t).
Proof.
  intros Hw. assert (∀ ty, ∃ r, stringAs (Some ty) e t = Some r ∧ is_Some r) as Has.
  { intros ty. pose proof (just_total _ (quoted_total t Hw (value_ e))). pose proof (just_total _ (double_total t Hw (value_ e))).
    pose proof (just_total _ (single_total t Hw (value_ e))). pose proof (block_total t Hw e). pose proof (plain_total t e Hw).
    destruct ty; cbn [stringAs]; eexists; (split; [done|]); try done; by destruct (_ || _). }
  unfold stringifyString. destruct (if _ && _ then Some QUOTE_DOUBLE else type_ e) as [ty|]; [by destruct (Has ty) as (r & -> & Hr)|].
  change (stringAs None e t) with (None : option (option Printed)). cbv beta iota.
  match goal with |- context [stringAs (Some ?ty) e t] => by destruct (Has ty) as (r & -> & Hr) end.
Qed.

(** ** Nodes *)

(** The anchor, if any, has none of the characters that are not allowed. *)
Definition anchorOk (m : Meta) : Prop := from_option (λ a, badAnchor a = false) True (anchor m).

Fixpoint anchorsOk (n : node) : Prop :=
  anchorOk (meta n) ∧
  match n with
  | Str _ _ _ | Other _ _ => True
  | MapNode _ _ items =>
    foldr (λ i P, anchorsOk (fst i) ∧ match snd i with Some v => anchorsOk v | None => True end ∧ P) True items
  | SeqNode _ _ items => foldr (λ i P, anchorsOk i ∧ P) True items
  end.

Definition anchorsValue (v : option node) : Prop := match v with Some v => anchorsOk v | None => True end.

Lemma anchorsOk_map m f items : anchorsOk (MapNode m f items) → Forall (λ i, anchorsOk (fst i) ∧ anchorsValue (snd i)) items.
Proof. intros [_ H]. induction items as [|i items IH]; [constructor|]. destruct H as (? & ? & H). constructor; auto. Qed.

Lemma anchorsOk_seq m f items : anchorsOk (SeqNode m f items) → Forall anchorsOk items.
Proof. intros [_ H]. induction items as [|i items IH]; [constructor|]. destruct H as (? & H). constructor; auto. Qed.

(** A context in which nothing is thrown. *)
Definition freeCtx (t : NCtx) : Prop := optLineWidth (nbase t) <= 0 ∧ simpleKeys t = false.

Definition done_ {A} (r : Res A) : Prop := ∃ o, r = inr o.

Lemma done_bind {A B} (x : Res A) (f : A → Res B) : done_ x → (∀ a, done_ (f a)) → done_ (bindR x f).
Proof. intros [a ->] H. apply H. Qed.

Lemma done_inr {A} (a : A) : done_ (inr a : Res A).
Proof. by exists a. Qed.

Create HintDb yamldone.
#[local] Hint Resolve done_bind done_inr : yamldone.

Lemma props_done m t : anchorOk m → done_ (printProps m t).
Proof.
  intros H. unfold printProps. destruct (negb _); [apply done_inr|]. apply done_bind; [|by eauto with yamldone].
  unfold anchorOk in H. destruct (anchor m) as [[|x a]|]; [apply done_inr| |apply done_inr]. cbn [from_option] in H. rewrite H. apply done_inr.
Qed.

Definition prints_ (n : node) : Prop := ∀ t, freeCtx t → done_ (print n t).

Lemma pairValue_done t t1 p f g v : freeCtx t1 → from_option prints_ True v → done_ (printPairValue print t t1 p f g v).
Proof.
  intros Ht Hv. unfold printPairValue. apply done_bind; [|by eauto with yamldone].
  destruct v as [v|]; [|apply done_inr]. apply Hv. by repeat case_match.
Qed.

Lemma pair_done k v t : freeCtx t → prints_ k → from_option prints_ True v → done_ (printPair print k v t).
Proof.
  intros Ht Hk Hv. unfold printPair. rewrite (proj2 Ht). cbn [andb]. apply done_bind; [by apply Hk|]. intros o.
  rewrite andb_false_r. destruct (_ && _); [apply done_inr|]. destruct (_ && _); [apply done_inr|]. by apply pairValue_done.
Qed.

Section items_done.
Context {A : Type} (ops : itemOps A).

Definition itemDone (i : A) : Prop := ∀ t, freeCtx t → done_ (printItem ops i t).

Lemma blockItems_done t prefix ind items : Forall itemDone items →
  ∀ u d lines, freeCtx u → done_ (blockItems ops t u prefix ind d lines items).
Proof.
  induction 1 as [|i items Hi _ IH]; intros u d lines Hu; [apply done_inr|]. cbn [blockItems].
  apply done_bind; [by apply Hi|]. intros o. by apply IH.
Qed.

Lemma flowItems_done t ind items : Forall itemDone items →
  ∀ c l u d, freeCtx c → done_ (flowItems ops t c ind l u d items).
Proof.
  induction 1 as [|i items Hi _ IH]; intros c l u d Hc; [apply done_inr|]. cbn [flowItems].
  apply done_bind; [by apply Hi|]. intros o. destruct items; [destruct (trailingComma t)|]; by apply IH.
Qed.

Lemma collection_done m f t prefix start end_ ind items : freeCtx t → Forall itemDone items →
  done_ (printCollection ops m f t prefix start end_ ind items).
Proof.
  intros Ht Hi. unfold printCollection. destruct (default _ _).
  - apply done_bind; [by apply flowItems_done|]. intros [d l]. apply done_inr.
  - apply done_bind; [by apply blockItems_done|]. intros [lines d]. apply done_inr.
Qed.

End items_done.

Lemma node_done n : anchorsOk n → prints_ n.
Proof.
  induction n as [m ty v|m s|m f items IH|m f items IH] using node_nested; intros Hn t Ht; cbn [print];
    (apply done_bind; [apply props_done; by destruct Hn|intros props]);
    (apply done_bind; [|intros; apply done_inr]);
    set (t' := if given props then _ else t);
    (assert (freeCtx t') as Ht' by (unfold t'; by destruct (given props))); clearbody t'.
  - destruct (string_total (stringCtx t') {| comment_ := comment m; type_ := ty; value_ := v |} (proj1 Ht')) as [p ->]. apply done_inr.
  - apply done_inr.
  - apply collection_done; [by destruct (_ && _)|]. apply anchorsOk_map in Hn. apply Forall_forall. intros [k v] Hi u Hu.
    rewrite Forall_forall in IH, Hn. destruct (IH _ Hi) as [IHk IHv], (Hn _ Hi) as [Hk Hv].
    apply pair_done; [done|auto|]. destruct v; [by apply IHv|done].
  - apply collection_done; [done|]. apply anchorsOk_seq in Hn. apply Forall_forall. intros i Hi. rewrite Forall_forall in IH, Hn.
    intros u Hu. by apply IH; auto.
Qed.

(** ** The text of a node *)

(** C29: A printed node keeps to its indentation.  When lines are not folded and no
    simple keys are asked for, every node whose anchors are allowed is printed, in
    whatever style its texts, keys and collections ask for, and every line of the
    text after the first is made of spaces or indented at least as far as the node:
    no text, comment, anchor or tag in it is on a line of its parent.  Comments have no
    breaks but line feeds, and the tags and other scalars have none. *)
Theorem printed_node_inside n k t : ctxOk k t → cleanNode n → anchorsOk n → simpleKeys t = false →
  ∃ o, print n t = inr o ∧ inside k (otext o).
Proof.
  intros Ht Hc Ha Hs. destruct (node_done n Ha t) as [o Ho]; [split; [apply Ht|done]|]. exists o. split; [done|].
  destruct k as [|k]; [apply solid_zero|]. by apply good_inside, (node_text n (S k) t o); [lia|..].
Qed.

(** ** Instances *)

Definition noMeta : Meta := {| comment := []; commentBefore := []; spaceBefore := false; anchor := None; tag := None |}.
Definition withComment (c : string) : Meta :=
  {| comment := runes c; commentBefore := []; spaceBefore := false; anchor := Some (runes "x"); tag := None |}.

(** The default options without folding, at an indentation. *)
Definition nodeCtx (k : nat) : NCtx := {|
  pctx := setBase (λ c, setCtx false (replicate k SP) None c) (printCtx 2 0);
  flow3 := None; allNullValues := false; simpleKeys := false; indentSeq := true; trailingComma := false;
  flowCollectionPadding := [SP]; nullStr := runes "null"; tagString := λ _, runes "!t"; hasDirectives := true |}.

Definition word (s : string) : node := Str noMeta None (runes s).

(** A map of a text of two lines, a sequence with an anchor and a comment, and an empty
    map. *)
Definition sampleNode : node :=
  MapNode noMeta None [
    (word "doc", Some (Str noMeta None (runes "one" ++ [LF] ++ runes "two" ++ [LF])));
    (word "steps", Some (SeqNode (withComment "why") None [word "a"; word "b"]));
    (word "env", Some (MapNode noMeta None []))].

Lemma printed_node_inside_witness :
  (∃ o, print sampleNode (nodeCtx 2) = inr o ∧ inside 2 (otext o)) ∧
  (otext <$> (match print sampleNode (nodeCtx 2) with inr o => Some o | inl _ => None end)) =
    Some (join [LF] (runes <$> ["doc: |"; "    one"; "    two"; "  steps: &x"; "    - a"; "    - b"; "    #why"; "  env: {}"])).
Proof.
  split; [|vm_compute; reflexivity].
  apply (printed_node_inside sampleNode 2 (nodeCtx 2)).
  - split; [done|by exists 2%nat|vm_compute; congruence|done|by vm_compute; set_solver|by vm_compute; set_solver|].
    intros g. by vm_compute; set_solver.
  - assert (∀ c, forallb (λ x, negb (isLineBreak x)) c = true → clean c) as Hc.
    { intros c Hc%Is_true_true%forallb_True. eapply Forall_impl; [exact Hc|]. cbn beta. intros x Hx Hb. by rewrite Hb in Hx. }
    repeat (split || apply I || (apply Hc; vm_compute; reflexivity)).
  - repeat (split || apply I).
  - reflexivity.
Defined.

(** ** Documents *)

Lemma join_app sep l1 l2 : l1 ≠ [] → l2 ≠ [] → join sep (l1 ++ l2) = join sep l1 ++ sep ++ join sep l2.
Proof.
  intros H1 H2. induction l1 as [|x [|y l1] IH]; [done|by cbn [app]; rewrite join_cons|].
  change ((x :: y :: l1) ++ l2) with (x :: ((y :: l1) ++ l2)).
  rewrite (join_cons sep x ((y :: l1) ++ l2)), (join_cons sep x (y :: l1)), IH by done. by rewrite <- !app_assoc.
Qed.

(** The lines of a document whose directives are [d]: comments, the directives, and a
    line that starts with the mark. *)
Definition marked (d : jstr) (ls : list jstr) : Prop :=
  ∃ pre x post, ls = pre ++ d :: x :: post ∧
    Forall (λ c, Forall (λ y, y = [] ∨ head y = Some (ch "#")) (Js.split LF c)) pre ∧
    (x = runes "---" ∨ ∃ y, x = runes "--- " ++ y).

Lemma marked_app d ls more : marked d ls → marked d (ls ++ more).
Proof.
  intros (pre & x & post & -> & Hp & Hx). exists pre, x, (post ++ more). split; [|done].
  by rewrite <- app_assoc.
Qed.

Lemma indent_zero c : clean c → Forall (λ y, y = [] ∨ head y = Some (ch "#")) (Js.split LF (indentComment (stringifyComment c) [])).
Proof.
  intros Hc. destruct (comment_lines c Hc) as [_ Hl]. unfold indentComment.
  destruct (_ && _) eqn:E; [|done]. apply andb_prop in E as [_ E]. destruct (stringifyComment c) as [|x s]; [done|].
  apply andb_prop in E as [<-%Z.eqb_eq E]. cbn [Js.split] in Hl. change (LF =? LF) with true in Hl. by apply Forall_cons in Hl as [_ ?].
Qed.

Lemma head_marked e asked t d : comments t = stringifyComment → clean (docCommentBefore e) →
  directives e = Some d → d ≠ [] → asked ≠ Some false →
  snd (documentHead e asked t) = true ∧ ∃ pre, fst (documentHead e asked t) = pre ++ [d; runes "---"] ∧
    Forall (λ c, Forall (λ y, y = [] ∨ head y = Some (ch "#")) (Js.split LF c)) pre.
Proof.
  intros Hcs Hc Hd Hne Ha. unfold documentHead. rewrite Hd, Hcs.
  assert (given d = true) as -> by (unfold given; by rewrite bool_decide_eq_false_2).
  destruct asked as [[]|]; [|done|]; cbn [app length]; rewrite bool_decide_eq_false_2 by done;
    destruct (given (docCommentBefore e)); (split; [done|]); cbn [fst].
  1,3: exists [indentComment (stringifyComment (docCommentBefore e)) []; []]; (split; [done|]);
    (constructor; [by apply indent_zero|]); (constructor; [|constructor]); (constructor; [by left|constructor]).
  all: by exists [].
Qed.

Lemma body_marked e t n d ls keep printed : marked d n → documentBody e t n true = inr (ls, keep, printed) → marked d ls.
Proof.
  intros Hn. unfold documentBody. destruct (contents e) as [c|]; [|intros [= <- _ _]; by apply marked_app].
  destruct (print _ _) as [|o]; [done|]. cbn [bindR].
  set (x := if given _ then otext o ++ _ else otext o). rewrite andb_true_r.
  set (n2 := if given (commentBefore _) then _ else _).
  assert (marked d n2) as Hn2 by (unfold n2; repeat case_match; try done; by repeat apply marked_app).
  clearbody n2. intros [= <- _ _]. destruct (last n2) as [l|] eqn:El; [|by apply marked_app].
  destruct (_ && _) eqn:E; [|by apply marked_app]. apply andb_prop in E as [_ ->%bool_decide_eq_true].
  destruct Hn2 as (pre & y & post & -> & Hp & Hy). destruct post as [|z post _] using rev_ind.
  - change (pre ++ [d; y]) with (pre ++ [d] ++ [y]). rewrite app_assoc, removelast_last.
    exists pre, (runes "--- " ++ x), []. split; [by rewrite <- app_assoc|]. eauto.
  - change (pre ++ d :: y :: post ++ [z]) with (pre ++ (d :: y :: post) ++ [z]). rewrite app_assoc, removelast_last.
    apply marked_app. by exists pre, y, post.
Qed.

(** Directives are marked.  When a document has directives and no mark is
    refused, they are printed after the comment before the document only, every line of
    which is empty or starts with the comment mark, and are ended by the line of the
    mark "---". *)
Theorem directives_marked e asked t d s : comments t = stringifyComment → clean (docCommentBefore e) →
  directives e = Some d → d ≠ [] → asked ≠ Some false → printDocument e asked t = inr s →
  ∃ pre x post, s = (if bool_decide (pre = []) then [] else join [LF] pre ++ [LF]) ++ d ++ [LF] ++ x ++ post ∧
    Forall (λ c, Forall (λ y, y = [] ∨ head y = Some (ch "#")) (Js.split LF c)) pre ∧
    (x = runes "---" ∨ ∃ y, x = runes "--- " ++ y) ∧ head post = Some LF.
Proof.
  intros Hcs Hc Hd Hne Ha. destruct (head_marked e asked t d) as [Hr (pre0 & Hh & Hp0)]; try done. unfold printDocument.
  destruct (documentHead e asked t) as [n r]. cbn [fst snd] in *. subst r n.
  destruct (documentBody _ _ _ _) as [|[[ls keep] printed]] eqn:E; [done|]. cbn [bindR]. intros <-%(inj inr).
  apply (body_marked _ _ _ d) in E; [|by exists pre0, (runes "---"), []; auto].
  assert (marked d (documentTail e t ls keep printed)) as (pre & x & post & -> & Hp & Hx).
  { unfold documentTail. repeat case_match; try done; by repeat apply marked_app. }
  exists pre, x, ((if bool_decide (post = []) then [] else [LF] ++ join [LF] post) ++ [LF]).
  split_and!; [|done|done|by case_bool_decide].
  assert (join [LF] (d :: x :: post) = d ++ [LF] ++ x ++ if bool_decide (post = []) then [] else [LF] ++ join [LF] post) as Hj.
  { rewrite join_cons by done. case_bool_decide; [subst post; by rewrite app_nil_r|]. by rewrite join_cons. }
  destruct pre as [|c pre].
  - change ([] ++ d :: x :: post) with (d :: x :: post). rewrite bool_decide_eq_true_2 by done. rewrite Hj. by rewrite <- !app_assoc.
  - rewrite join_app, bool_decide_eq_false_2 by done. rewrite Hj. by rewrite <- !app_assoc.
Qed.

Definition sampleDocument : Document := {|
  docComment := runes "end"; docCommentBefore := runes "top"; contents := Some (Str noMeta None (runes "a" ++ [LF] ++ runes "b"));
  directives := Some (runes "%YAML 1.2"); docStart := true; docEnd := false |}.

Lemma directives_marked_witness :
  printDocument sampleDocument None (nodeCtx 0) =
    inr (join [LF] (runes <$> ["#top"; ""; "%YAML 1.2"; "--- |-"; "  a"; "  b"; ""; "#end"; ""])) ∧
  ∃ pre x post, join [LF] (runes <$> ["#top"; ""; "%YAML 1.2"; "--- |-"; "  a"; "  b"; ""; "#end"; ""]) =
      (if bool_decide (pre = []) then [] else join [LF] pre ++ [LF]) ++ runes "%YAML 1.2" ++ [LF] ++ x ++ post ∧
    Forall (λ c, Forall (λ y, y = [] ∨ head y = Some (ch "#")) (Js.split LF c)) pre ∧
    (x = runes "---" ∨ ∃ y, x = runes "--- " ++ y) ∧ head post = Some LF.
Proof.
  split; [vm_compute; reflexivity|]. apply (directives_marked sampleDocument None (nodeCtx 0)).
  - reflexivity.
  - repeat (constructor; [vm_compute; congruence|]). constructor.
  - reflexivity.
  - discriminate.
  - discriminate.
  - vm_compute. reflexivity.
Defined.
