(* ===== verification/YamlRoundTrip.v ===== *)
(** * A YAML document of one string is read back

    The printer and the reader of the web UI put together: a document whose contents are a
    string of one line, printed by [printDocument] of YamlNodes.v in any flow style, is read by
    the lexer, the parser and the composer of YamlLexer.v, YamlParser.v and YamlCompose.v. *)

From Stdlib Require Import ZArith Lia.
From stdpp Require Import base numbers strings gmap option list.
From S2P Require Import Prelude Js YamlLexer YamlLexerProps YamlScalars YamlScalarsProps YamlBlock YamlPrint YamlPrintProps YamlParser YamlTags YamlCompose YamlNodes.

Open Scope Z_scope.

Import Yaml.

(** ** Positions in a text put together *)

Lemma len_app a b : len (a ++ b) = len a + len b.
Proof. unfold len. rewrite length_app. lia. Qed.

Lemma len_pos s : 0 <= len s.
Proof. unfold len. lia. Qed.

Lemma at_app a b k : 0 <= k → at_ (a ++ b) (len a + k) = at_ b k.
Proof.
  intros Hk. unfold at_, len. rewrite !(proj2 (Z.ltb_ge _ 0)) by lia.
  rewrite Z2Nat.inj_add, Nat2Z.id by lia. rewrite lookup_app_r by lia. f_equal. lia.
Qed.

Lemma at_app_here a b : at_ (a ++ b) (len a) = head b.
Proof. rewrite <- (Z.add_0_r (len a)), at_app by lia. by destruct b. Qed.

Lemma at_app_next a c b : at_ (a ++ c :: b) (len a + 1) = head b.
Proof. rewrite at_app by lia. by destruct b. Qed.

Lemma drop_at a b : drop (Z.to_nat (len a)) (a ++ b) = b.
Proof. unfold len. rewrite Nat2Z.id. by apply drop_app_length'. Qed.

Lemma indexOf_here a q b : indexOf (a ++ q :: b) q (len a) = len a.
Proof. unfold indexOf. rewrite drop_at. cbn [indexOf_]. rewrite Z.eqb_refl. lia. Qed.

Lemma indexOf_next a x q b : x ≠ q → indexOf (a ++ x :: b) q (len a) = indexOf (a ++ x :: b) q (len (a ++ [x])).
Proof.
  intros Hx. unfold indexOf. rewrite drop_at. change (a ++ x :: b) with (a ++ [x] ++ b). rewrite app_assoc, drop_at.
  cbn [indexOf_]. rewrite (proj2 (Z.eqb_neq _ _) Hx), len_app. change (len [x]) with 1.
  destruct (indexOf_ q b); cbn [option_map]; lia.
Qed.

Lemma indexOf_absent a q i : q ∉ a → indexOf a q i = -1.
Proof.
  intros Ha. unfold indexOf. destruct (indexOf_ q _) as [k|] eqn:E; [|done]. exfalso. apply indexOf__spec in E as [Hk E].
  unfold at_ in E. rewrite (proj2 (Z.ltb_ge k 0)) in E by lia. rewrite lookup_drop in E.
  by apply list_elem_of_lookup_2 in E.
Qed.

Lemma indexOf_after a q b : q ∉ a → indexOf (a ++ q :: b) q 0 = len a.
Proof.
  intros Ha. unfold indexOf. change (drop (Z.to_nat 0) (a ++ q :: b)) with (a ++ q :: b).
  enough (indexOf_ q (a ++ q :: b) = Some (len a)) as -> by lia.
  induction a as [|x a IH]; cbn [app indexOf_]; [by rewrite Z.eqb_refl|].
  apply not_elem_of_cons in Ha as [Hx Ha]. rewrite (proj2 (Z.eqb_neq x q)) by congruence. rewrite IH by done.
  cbn [option_map]. unfold len. cbn [length]. f_equal. lia.
Qed.

Lemma slice_all a b : slice (a ++ b) 0 (len a) = a.
Proof. unfold slice, len. rewrite Z.sub_0_r, Nat2Z.id. change (drop (Z.to_nat 0) (a ++ b)) with (a ++ b). by apply take_app_length'. Qed.

(** ** The end of a quoted text *)

Lemma singleEnd_text v tl : head tl ≠ Some (ch "'") → ∀ a b fuel, (length v < fuel)%nat →
  b = a ++ Scalars.doubleQuotes v ++ ch "'" :: tl →
  singleEnd fuel b (indexOf b (ch "'") (len a)) = Some (len a + len (Scalars.doubleQuotes v)).
Proof.
  intros Htl. unfold Scalars.doubleQuotes. induction v as [|c v IH]; intros a b fuel Hf Hb; (destruct fuel as [|fuel]; [lia|]).
  - subst b. csimpl. rewrite indexOf_here. cbn [singleEnd]. rewrite at_app_next.
    assert (eqc (head tl) (ch "'") = false) as ->.
    { destruct (head tl) as [x|]; [|done]. apply Z.eqb_neq. congruence. }
    rewrite andb_false_r. f_equal. change (len []) with 0. lia.
  - cbn [length] in Hf. csimpl in *. destruct (Z.eqb_spec c (ch "'")) as [->|Hc].
    + assert (indexOf b (ch "'") (len a) = len a) as -> by (rewrite Hb; apply indexOf_here).
      cbn [singleEnd]. assert (at_ b (len a + 1) = Some (ch "'")) as -> by (rewrite Hb; apply at_app_next).
      rewrite (proj2 (Z.eqb_neq (len a) (-1))) by (pose proof (len_pos a); lia). cbn [negb eqc andb]. rewrite Z.eqb_refl.
      specialize (IH (a ++ [ch "'"; ch "'"]) b fuel ltac:(lia)). rewrite len_app in IH. change (len [ch "'"; ch "'"]) with 2 in IH.
      rewrite IH by (rewrite Hb; by rewrite <- !app_assoc). f_equal. rewrite len_app. change (len [ch "'"; ch "'"]) with 2. lia.
    + assert (indexOf b (ch "'") (len a) = indexOf b (ch "'") (len (a ++ [c]))) as -> by (rewrite Hb; by apply indexOf_next).
      etrans; [apply (IH (a ++ [c]) b (S fuel)); [lia|rewrite Hb; by rewrite <- !app_assoc]|].
      rewrite !len_app. change (len [c]) with 1. f_equal. lia.
Qed.

(** The text of a double-quoted scalar after the first quote: characters, and escapes of any
    character, up to the last quote. *)
Inductive escaped : jstr → Prop :=
  | escaped_end : escaped [DQ]
  | escaped_raw c o : c ≠ DQ → c ≠ BACKSLASH → c ≠ LF → escaped o → escaped (c :: o)
  | escaped_pair c o : c ≠ LF → escaped o → escaped (BACKSLASH :: c :: o).

(** The backslashes at the end of a text. *)
Definition tailSlashes (a : jstr) : Z := countWhile (Z.eqb BACKSLASH) (reverse a).

Lemma backslashes_tail a : ∀ b fuel, (length a <= fuel)%nat → backslashes fuel (a ++ b) (len a - 1) = tailSlashes a.
Proof.
  unfold tailSlashes. induction a as [|c a IH] using rev_ind; intros b fuel Hf.
  - change (len [] - 1) with (-1). destruct fuel; [done|]. unfold at_. done.
  - rewrite length_app in Hf. cbn [length] in Hf. destruct fuel as [|fuel]; [lia|]. cbn [backslashes].
    rewrite len_app. change (len [c]) with 1. replace (len a + 1 - 1) with (len a) by lia.
    rewrite <- app_assoc. rewrite at_app_here. cbn [app head eqc]. rewrite reverse_snoc. cbn [countWhile]. rewrite Z.eqb_sym.
    destruct (BACKSLASH =? c); [|done]. by rewrite (IH (c :: b) fuel) by lia.
Qed.

Lemma tailSlashes_snoc a c : tailSlashes (a ++ [c]) = if c =? BACKSLASH then 1 + tailSlashes a else 0.
Proof. unfold tailSlashes. rewrite reverse_snoc. cbn [countWhile]. by rewrite Z.eqb_sym. Qed.

Lemma doubleEnd_text o : escaped o → ∀ a tl fuel, tailSlashes a mod 2 = 0 → (length o <= fuel)%nat →
  doubleEnd fuel (a ++ o ++ tl) (indexOf (a ++ o ++ tl) DQ (len a)) = Some (len a + len o - 1).
Proof.
  induction 1 as [|c o H1 H2 H3 _ IH|c o H1 _ IH]; intros a tl fuel Ha Hf.
  - cbn [app]. rewrite indexOf_here. destruct fuel as [|fuel]; [simpl in Hf; lia|]. cbn [doubleEnd].
    rewrite (proj2 (Z.eqb_neq (len a) (-1))) by (pose proof (len_pos a); lia).
    rewrite backslashes_tail by (rewrite length_app; lia). rewrite Ha. cbn. f_equal. change (len [DQ]) with 1. lia.
  - cbn [app length] in *. rewrite indexOf_next by done. change (a ++ c :: o ++ tl) with (a ++ [c] ++ o ++ tl). rewrite app_assoc.
    rewrite IH; [|rewrite tailSlashes_snoc, (proj2 (Z.eqb_neq _ _) H2); done|lia].
    f_equal. rewrite len_app. unfold len. cbn [length]. lia.
  - cbn [app length] in *. rewrite indexOf_next by done.
    change (a ++ BACKSLASH :: c :: o ++ tl) with (a ++ [BACKSLASH] ++ c :: o ++ tl). rewrite app_assoc.
    assert (Hs : tailSlashes ((a ++ [BACKSLASH]) ++ [c]) mod 2 = 0).
    { rewrite !tailSlashes_snoc. destruct (c =? BACKSLASH); [|done]. change (BACKSLASH =? BACKSLASH) with true. cbv iota.
      rewrite <- Ha. replace (1 + (1 + tailSlashes a)) with (tailSlashes a + 1 * 2) by lia. by rewrite Z.mod_add. }
    assert (Hgo : ∀ fuel, (length o <= fuel)%nat → doubleEnd fuel ((a ++ [BACKSLASH]) ++ c :: o ++ tl)
      (indexOf ((a ++ [BACKSLASH]) ++ c :: o ++ tl) DQ (len ((a ++ [BACKSLASH]) ++ [c]))) = Some (len a + len (BACKSLASH :: c :: o) - 1)).
    { intros f Hf'. change ((a ++ [BACKSLASH]) ++ c :: o ++ tl) with ((a ++ [BACKSLASH]) ++ [c] ++ o ++ tl). rewrite (app_assoc _ [c]).
      rewrite (IH _ _ _ Hs Hf'). f_equal. rewrite !len_app. unfold len. cbn [length]. lia. }
    destruct (decide (c = DQ)) as [->|Hc]; [|rewrite indexOf_next by done; apply Hgo; lia].
    rewrite indexOf_here. destruct fuel as [|fuel]; [lia|]. cbn [doubleEnd].
    rewrite (proj2 (Z.eqb_neq (len _) (-1))) by (pose proof (len_pos (a ++ [BACKSLASH])); lia).
    rewrite backslashes_tail by (rewrite !length_app; cbn [length]; lia).
    rewrite tailSlashes_snoc. change (BACKSLASH =? BACKSLASH) with true. cbv iota.
    rewrite <- Zplus_mod_idemp_r, Ha. cbn. specialize (Hgo fuel ltac:(lia)). rewrite (len_app _ [DQ]) in Hgo. exact Hgo.
Qed.

(** ** What the printer makes of a string of one line *)

Lemma escaped_raws l o : Forall (λ c, c ≠ DQ ∧ c ≠ BACKSLASH ∧ c ≠ LF) l → escaped o → escaped (l ++ o).
Proof. induction 1 as [|c l (H1 & H2 & H3) _ IH]; intros Ho; [done|]. by constructor; auto. Qed.

Lemma hex4_raw c : Forall (λ d, d ≠ DQ ∧ d ≠ BACKSLASH ∧ d ≠ LF) (hex4 c).
Proof.
  assert (∀ d, 0 <= d < 16 → let x := if d <? 10 then 48 + d else 87 + d in x ≠ DQ ∧ x ≠ BACKSLASH ∧ x ≠ LF) as Hd.
  { intros d Hd x. subst x. unfold DQ, BACKSLASH, LF. destruct (Z.ltb_spec d 10); lia. }
  unfold hex4. repeat (constructor; [apply Hd; try (apply Z.mod_pos_bound; lia)|]); try constructor.
Qed.

Lemma shortEscape_escaped h o : Forall (λ d, d ≠ DQ ∧ d ≠ BACKSLASH ∧ d ≠ LF) h → escaped o → escaped (Scalars.shortEscape h ++ o).
Proof.
  intros Hh Ho. unfold Scalars.shortEscape. repeat case_match; cbn [app]; try (constructor; [done|done]).
  - constructor; [done|]. apply escaped_raws; [by apply Forall_drop|done].
  - constructor; [done|]. by apply escaped_raws.
Qed.

Lemma printLoop_escaped multi ind ks : Forall chunkOk ks → NL ∉ ks → ∀ fuel out r,
  Scalars.printLoop fuel multi ind (lit ks) out = Some r → ∃ o, r = out ++ o ∧ escaped o.
Proof.
  induction 1 as [|k ks Hk Hks IH]; intros Hnl fuel out r; (destruct fuel as [|fuel]; [done|]).
  { intros [= <-]. exists [DQ]. split; [done|constructor]. }
  apply not_elem_of_cons in Hnl as [Hk0 Hnl]. specialize (IH Hnl fuel).
  assert (isNL ks = false) as Hn by (destruct ks as [|[] ?]; try done; exfalso; apply Hnl; left).
  pose proof (startsNewline_lit ks Hks) as Hs. rewrite Hn in Hs. rewrite lit_cons.
  destruct (lit_nonempty ks) as (d & r' & Hl). rewrite Hl in *.
  destruct k as [c|x a| |c]; cbn [json app]; cbn [Scalars.printLoop].
  - destruct Hk as (H1 & H2 & H3). rewrite Hs, andb_false_r. cbv zeta iota. rewrite (proj2 (Z.eqb_neq _ _) H3).
    intros (o & -> & Ho)%IH. exists (c :: o). rewrite <- app_assoc. split; [done|]. constructor; try done. unfold LF. lia.
  - destruct Hk as (H1 & H2 & H3 & _). change (BACKSLASH =? SP) with false. cbn [andb]. cbv zeta iota. change (BACKSLASH =? BACKSLASH) with true.
    rewrite (proj2 (Z.eqb_neq _ _) H2), (proj2 (Z.eqb_neq _ _) H3). cbv iota.
    intros (o & -> & Ho)%IH. exists (BACKSLASH :: x :: o). rewrite <- app_assoc. split; [done|]. constructor; [|done]. by intros ->.
  - done.
  - change (BACKSLASH =? SP) with false. cbn [andb]. cbv zeta iota. change (BACKSLASH =? BACKSLASH) with true. change (ch "u" =? ch "u") with true. cbv iota.
    rewrite (take_app_length' (hex4 c)), (drop_app_length' (hex4 c)) by done.
    intros (o & -> & Ho)%IH. exists (Scalars.shortEscape (hex4 c) ++ o). rewrite <- app_assoc. split; [done|].
    apply shortEscape_escaped; [apply hex4_raw|done].
Qed.

Lemma printLoop_first multi ind ks fuel :
  Scalars.printLoop (S fuel) multi ind (DQ :: lit ks) [] = Scalars.printLoop fuel multi ind (lit ks) [DQ].
Proof. cbn [Scalars.printLoop]. destruct (lit_nonempty ks) as (d & r' & ->). reflexivity. Qed.

Section one_line.
Context (v : jstr) (c : Scalars.Ctx).
Context (Hu : Forall isUnit v) (Hlf : LF ∉ v).
Context (Hind : Scalars.indent c = []) (Hw : Scalars.optLineWidth c <= 0) (Hj : Scalars.doubleQuotedAsJSON c = false).

Lemma one_line_unfolded : unfolded c = true.
Proof using Hw. unfold unfolded. apply orb_true_iff. right. by apply Z.leb_le. Qed.

Lemma one_line_clean : noSpaceLine v.
Proof using Hlf. intros a b E. apply Hlf. rewrite E, elem_of_app. right. left. Qed.

(** The printed text with quotes, and its value. *)
Definition quotedText (s : jstr) : Prop :=
  resolvesTo s v ∧ ((∃ o, s = DQ :: o ∧ escaped o) ∨ s = ch "'" :: Scalars.doubleQuotes v ++ [ch "'"]).

Lemma double_text : ∃ s, Scalars.doubleQuotedString v c = Some s ∧ quotedText s.
Proof using All.
  destruct (doubleQuoted_resolves v c Hu) as (s & Hs & Hr); [by rewrite Hind|apply one_line_unfolded|done|intros _; apply one_line_clean|].
  exists s. split; [done|]. split; [done|]. left. unfold Scalars.doubleQuotedString in Hs. rewrite Hj in Hs.
  destruct (quoteAll_chunks v Hu) as (ks & Hok & Hq & Hv).
  assert (quoteJSON v = DQ :: lit ks) as Hn by (unfold quoteJSON, lit; by rewrite Hq). rewrite Hn in Hs.
  assert (NL ∉ ks) as Hnl.
  { intros (l1 & l2 & ->)%list_elem_of_split. apply Hlf. rewrite Hv, bind_app, bind_cons, elem_of_app. right. left. }
  destruct (Scalars.printLoop _ _ _ _ _) as [r|] eqn:E; [|done].
  assert (r = s) as ->.
  { destruct (Scalars.implicitKey c); [by injection Hs|]. rewrite unfolded_text in Hs by done. by injection Hs. }
  rewrite printLoop_first in E.
  apply printLoop_escaped in E as (o & -> & Ho); [|done..]. by exists o.
Qed.

Lemma breakRuns_flat n s : LF ∉ s → Scalars.breakRuns n s = s.
Proof.
  induction s as [|x s IH]; [done|]. intros [Hx Hs]%not_elem_of_cons. cbn [Scalars.breakRuns].
  rewrite (proj2 (Z.eqb_neq x LF)) by congruence. cbn [andb]. by rewrite IH.
Qed.

Lemma doubledQuotes_oneLine : LF ∉ Scalars.doubleQuotes v.
Proof using Hlf.
  intros (x & H1 & Hx)%list_elem_of_bind. destruct (x =? ch "'"); apply Hlf; rewrite ?elem_of_cons, elem_of_nil in H1; naive_solver.
Qed.

Lemma single_text : CR ∉ v → ∃ s, Scalars.singleQuotedString v c = Some s ∧ quotedText s.
Proof using All.
  intros Hcr. destruct (singleQuoted_resolves v c Hu) as (s & Hs & Hr);
    [by rewrite Hind|apply one_line_unfolded|done|intros _; apply one_line_clean|apply Forall_forall; by intros x Hx ->|].
  unfold Scalars.singleQuotedString in *. destruct (_ || _ || _); [apply double_text|].
  exists s. split; [done|]. split; [done|]. right. rewrite breakRuns_flat in Hs by apply doubledQuotes_oneLine.
  destruct (Scalars.implicitKey c); [by injection Hs|]. rewrite unfolded_text in Hs by done. by injection Hs.
Qed.

Lemma quoted_text : CR ∉ v → ∃ s, Scalars.quotedString v c = Some s ∧ quotedText s.
Proof using All.
  intros Hcr. pose proof double_text. pose proof (single_text Hcr). unfold Scalars.quotedString. by repeat case_match.
Qed.

End one_line.

(** ** Reading the text of a plain scalar *)

(** A document ends with a line break or with its text. *)
Definition ending (tl : jstr) : Prop := tl = [] ∨ tl = [LF].

(** What [notPlain] leaves of a text of one line, from any place on. *)
Record plainRest (w : jstr) : Prop := {
  pr_colon : Print.adjacent_ (λ c, Print.isLF c || (c =? ch ":")) isBlank w = false;
  pr_hash : Print.adjacent_ Print.blankBreak (Z.eqb (ch "#")) w = false;
  pr_last : match last w with Some c => Print.blankBreak c || (c =? ch ":") | None => false end = false;
  pr_lf : LF ∉ w;
  pr_cr : CR ∉ w;
}.

Lemma plainRest_cons c w : plainRest (c :: w) → plainRest w.
Proof.
  intros [H1 H2 H3 H4 H5]. cbn [Print.adjacent_] in H1, H2. apply orb_false_iff in H1 as [_ H1], H2 as [_ H2].
  apply not_elem_of_cons in H4 as [_ H4], H5 as [_ H5]. constructor; try done. by destruct w as [|d w].
Qed.

Lemma blankBreak_empty c : c ≠ CR → isEmpty (Some c) = Print.blankBreak c.
Proof.
  intros Hc. unfold isEmpty, Print.blankBreak. rewrite (proj2 (Z.eqb_neq c CR)) by done.
  destruct (c =? SP), (c =? LF), (c =? TAB); done.
Qed.

Lemma plainScan_text s tl : ending tl → indentNext s = 0 → ∀ w a t fuel, buffer s = a ++ w ++ tl → plainRest w →
  (length (w ++ tl) < fuel)%nat →
  plainScan fuel s false t (len a - 1) = Some (if bool_decide (w = []) then t else len a + len w - 1, None).
Proof.
  intros Htl Hi. induction w as [|c w IH]; intros a t fuel Hb Hw Hf; (destruct fuel as [|fuel]; [lia|]); cbn [plainScan];
    replace (len a - 1 + 1) with (len a) by lia; rewrite Hb, at_app_here.
  - rewrite bool_decide_eq_true_2 by done. destruct Htl as [-> | ->]; cbn [app head]; [done|].
    change (LF =? ch ":") with false. change (isEmpty (Some LF)) with true. change (LF =? CR) with false. cbn [andb negb]. cbv zeta iota.
    rewrite at_app_next. cbn [head eqc orb andb]. change (LF =? LF) with true. cbv iota.
    unfold continueScalar. rewrite Hi. change (0 <? 0) with false. cbv iota zeta. rewrite Hb. cbn [app].
    assert (slice (a ++ [LF]) (len a + 1) (len a + 1 + 3) = []) as ->.
    { unfold slice. rewrite drop_ge; [by rewrite take_nil|]. rewrite length_app. unfold len. cbn [length]. lia. }
    cbn [bool_decide]. rewrite !bool_decide_eq_false_2 by done. cbn [orb andb].
    pose proof (len_pos a). rewrite (proj2 (Z.eqb_neq (len a + 1) (-1))) by lia.
    destruct fuel as [|fuel]; [simpl in Hf; lia|]. cbn [plainScan]. rewrite Hb. cbn [app].
    replace (Z.max (len a) (len a + 1 - 2) + 1) with (len a + 1) by lia. by rewrite at_app_next.
  - rewrite bool_decide_eq_false_2 by done. cbn [app head]. pose proof (plainRest_cons _ _ Hw) as Hw'. destruct Hw as [H1 H2 H3 H4 H5].
    apply not_elem_of_cons in H4 as [Hlf H4], H5 as [Hcr H5]. cbn [Print.adjacent_] in H1, H2. apply orb_false_iff in H1 as [H1 _], H2 as [H2 _].
    cbn [app length] in Hf.
    assert (Hgo : ∀ t', (w = [] → t' = len a) →
      plainScan fuel s false t' (len a) = Some (len a + len (c :: w) - 1, None)).
    { intros t' Ht'. pose proof (IH (a ++ [c]) t' fuel) as E. rewrite len_app in E. change (len [c]) with 1 in E.
      replace (len a + 1 - 1) with (len a) in E by lia. rewrite E; [|rewrite Hb; by rewrite <- app_assoc|done|lia].
      case_bool_decide as Hwn; [subst w; rewrite Ht' by done|]; do 2 f_equal; unfold len; cbn [length]; lia. }
    rewrite at_app_next. assert (Hne : (Print.blankBreak c || (c =? ch ":")) = true → w ≠ []) by (intros Hx ->; cbn [last] in H3; congruence).
    destruct (c =? ch ":") eqn:Ec.
    + destruct w as [|d w]; [exfalso; apply Hne; [apply orb_true_r|done]|]. cbn [app head].
      rewrite orb_true_r in H1. cbn [andb] in H1. apply not_elem_of_cons in H4 as [Hd _], H5 as [Hd' _].
      rewrite blankBreak_empty by congruence. unfold Print.blankBreak. rewrite (proj2 (Z.eqb_neq d LF)) by congruence.
      unfold isBlank in H1. rewrite orb_comm in H1. cbn [orb]. rewrite H1. cbn [orb andb]. apply Hgo. done.
    + rewrite blankBreak_empty by congruence. destruct (Print.blankBreak c) eqn:Eb; [|cbn [andb]; by apply Hgo].
      rewrite (proj2 (Z.eqb_neq c CR)) by congruence. cbn [andb negb]. cbv zeta iota. rewrite at_app_next.
      destruct w as [|d w]; [by exfalso; apply Hne|]. cbn [app head]. cbn [andb] in H2. cbn [eqc]. rewrite Z.eqb_sym, H2. cbn [orb andb].
      rewrite (proj2 (Z.eqb_neq c LF)) by congruence. by apply Hgo.
Qed.

(** ** Lexing *)

(** A text of one line that opens a scalar: nothing the lexer takes for something else. *)
Record opens (c : Z) (r : jstr) : Prop := {
  o_lf : LF ∉ c :: r;
  o_cr : last (c :: r) ≠ Some CR;
  o_plain : existsb (Z.eqb c) ([BOM; SP; TAB; CR; LF] ++ runes "#%!&") = false;
  o_start : startsWith (runes "---") (c :: r) = false;
  o_end : startsWith (runes "...") (c :: r) = false;
  o_mark : (c =? ch "-") || (c =? ch "?") || (c =? ch ":") = true → isEmpty (head r) = false;
}.

Section lexing.
Context (c : Z) (r tl : jstr) (Hs : opens c r) (Ht : ending tl).
Let w := c :: r.
Let b := w ++ tl.

(** The state at the start of the text of the document. *)
Definition atText : Lexer := {|
  atEnd := true; blockScalarIndent := -1; blockScalarKeep := false; buffer := b; flowKey := false; flowLevel := 0;
  indentNext := 0; indentValue := 0; lineEndPos := Some (indexOf b LF 0); next := None; pos := 0; out := [doc_mode] |}.

Lemma not_char x : existsb (Z.eqb x) ([BOM; SP; TAB; CR; LF] ++ runes "#%!&") = true → (c =? x) = false.
Proof using All.
  intros Hx. apply Z.eqb_neq. intros ->. rewrite (o_plain _ _ Hs) in Hx. done.
Qed.

Lemma end_of_text : indexOf b LF 0 = match tl with [] => -1 | _ => len w end.
Proof using All.
  destruct Ht as [-> | ->]; [apply indexOf_absent|apply indexOf_after]; [unfold b; rewrite app_nil_r|]; apply Hs.
Qed.

Lemma line_of_text (s : Lexer) : buffer s = b → pos s = 0 → atEnd s = true → (lineEndPos s = None ∨ lineEndPos s = Some (indexOf b LF 0)) →
  getLine s = Some (with_line (Some (indexOf b LF 0)) s, Some w).
Proof using All.
  intros Hb Hp He Hl. unfold getLine. rewrite Hb, Hp, He.
  assert ((if match lineEndPos s with None => true | Some e => negb (e =? -1) && (e <? 0) end then indexOf b LF 0 else default (-1) (lineEndPos s))
    = indexOf b LF 0) as ->.
  { destruct Hl as [-> | ->]; [done|]. by destruct (negb _ && _). }
  rewrite end_of_text. destruct Ht as [Etl|Etl]; subst b; rewrite Etl; cbv zeta iota.
  - by rewrite app_nil_r.
  - rewrite (proj2 (Z.eqb_neq (len w) (-1))) by (pose proof (len_pos w); lia).
    assert (eqc (at_ (w ++ [LF]) (len w - 1)) CR = false) as ->.
    { pose proof (o_cr _ _ Hs) as Hcr. fold w in Hcr. destruct (last w) as [x|] eqn:El; [|by apply last_None in El].
      apply last_Some in El as [w' El]. rewrite El, len_app. change (len [x]) with 1. rewrite <- app_assoc.
      replace (len w' + 1 - 1) with (len w') by lia. rewrite at_app_here. cbn. apply Z.eqb_neq. congruence. }
    unfold substring. pose proof (len_pos w). rewrite Z.max_r, Z.min_l, Z.max_r by lia. by rewrite slice_all.
Qed.

Lemma skip_none p : p c = false → skipWhile p b 0 = 0.
Proof using All. intros Hp. unfold skipWhile. change (drop (Z.to_nat 0) b) with (c :: r ++ tl). cbn [countWhile]. by rewrite Hp. Qed.

Lemma at_first : at_ b 0 = Some c.
Proof using All. done. Qed.

Lemma at_second : at_ b 1 = head (r ++ tl).
Proof using All. unfold b, w. cbn [app]. by destruct (r ++ tl). Qed.

Lemma no_marker x : startsWith (runes x) w = false → LF ∉ runes x → length (runes x) = 3%nat → slice b 0 3 ≠ runes x.
Proof using All.
  intros Hx Hn Hl E. unfold slice in E. change (take 3 b = runes x) in E.
  enough (∃ k, w = runes x ++ k) as [k Hk].
  { rewrite Hk in Hx. clear -Hx. induction (runes x) as [|y l IH]; [done|]. cbn in Hx. rewrite Z.eqb_refl in Hx. auto. }
  unfold b in E. destruct (decide (3 <= length w)%nat) as [H3|H3].
  - rewrite take_app_le in E by done. exists (drop 3 w). by rewrite <- E, take_drop.
  - destruct Ht as [-> | ->].
    + rewrite app_nil_r in E. rewrite <- E in Hl. rewrite length_take in Hl. lia.
    + exfalso. apply Hn. rewrite <- E. rewrite take_app_ge by lia. apply elem_of_app. right.
      destruct (3 - length w)%nat as [|n] eqn:En; [lia|]. left.
Qed.

Lemma mark_second : (c =? ch "-") || (c =? ch "?") || (c =? ch ":") = true → isEmpty (head (r ++ tl)) = false.
Proof using All. intros Hm%(o_mark _ _ Hs). by destruct r. Qed.

Lemma lineStart_text s : buffer s = b → pos s = 0 → atEnd s = true → indentNext s = 0 → indentValue s = 0 →
  parseLineStart s = Some (s, Some doc).
Proof using All.
  intros Hb Hp He Hi Hv. unfold parseLineStart, bindL, charAt, gets. rewrite Hb, Hp, He.
  change (at_ b (0 + 0)) with (Some c). cbv iota beta. rewrite andb_false_r. cbn [andb]. rewrite Hb, Hp. change (0 + 3) with 3.
  rewrite !bool_decide_eq_false_2; [|apply no_marker; [apply Hs|vm_compute; set_solver|done]..]. cbn [orb]. rewrite andb_false_r. cbn [andb].
  unfold pushSpaces. rewrite Hb, Hp, skip_none by (cbn [andb]; by rewrite not_char). change (0 <? 0 - 0) with false. cbv iota.
  unfold modify. rewrite Hb, Hp, Hi. change (0 - 0 <? 0) with false. cbn [andb].
  assert (with_indent (0 - 0) 0 s = s) as -> by (destruct s; simpl in *; by subst).
  unfold blockStart. rewrite Hb. cbn [length parseBlockStart]. unfold bindL, charAt, gets. rewrite Hb, Hp, He.
  change (at_ b (0 + 0)) with (Some c). cbn [negb].
  assert (match secondChar (slice b 0 (0 + 2)) with Some _ => false | None => false end = false) as -> by (by destruct (secondChar _)).
  cbn [eqc]. destruct ((c =? ch "-") || (c =? ch "?") || (c =? ch ":")) eqn:Em; cbn [andb]; [|done].
  pose proof (mark_second Em) as H2. change (slice b 0 (0 + 2)) with (take 2 (c :: r ++ tl)). destruct (r ++ tl) as [|d k]; [done|].
  change (take 2 (c :: d :: k)) with [c; d]. cbn [secondChar]. cbn [head] in H2.
  assert (isLead c = false) as ->.
  { unfold isLead. apply orb_prop in Em as [Em|Em]; [apply orb_prop in Em as [Em|Em]|]; apply Z.eqb_eq in Em as ->; done. }
  cbn [andb]. by rewrite H2.
Qed.

Lemma stream_text : parseStream (feed b false Yaml.initial) = Some (atText, Some doc).
Proof using All.
  unfold parseStream, bindL. rewrite line_of_text; [|done|done|done|by left]. cbv iota beta zeta.
  change (head w) with (Some c). cbn [eqc]. rewrite not_char by done. unfold retL. cbv iota beta.
  unfold streamLine, bindL, gets. change (head w) with (Some c). cbn [eqc]. rewrite not_char by done.
  assert (atLineEnd (with_line (Some (indexOf b LF 0)) (feed b false Yaml.initial)) = false) as ->.
  { unfold atLineEnd. cbn [buffer pos with_line feed]. change (buffer Yaml.initial ++ b) with b. change (pos Yaml.initial) with 0.
    rewrite skip_none by (unfold isBlank; by rewrite !not_char). change (at_ b 0) with (Some c). cbv iota beta. by rewrite !not_char. }
  unfold mark, modify. by rewrite lineStart_text.
Qed.

Lemma document_text : Yaml.parseDocument atText = docChar w 0 c atText.
Proof using All.
  unfold Yaml.parseDocument, bindL. unfold pushSpaces at 1. cbn [buffer pos atText].
  rewrite skip_none by (cbn [andb]; by rewrite !not_char). change (0 <? 0 - 0) with false. cbv iota beta.
  rewrite line_of_text; [|done|done|done|by right]. cbv iota beta.
  change (with_line (Some (indexOf b LF 0)) atText) with atText.
  enough (∀ f, pushIndicators (S f) atText = Some (atText, 0)) as Hi by (unfold indicators; by rewrite Hi).
  intros f. cbn [pushIndicators]. unfold bindL, charAt, gets. cbn [buffer atText pos].
  change (at_ b (0 + 0)) with (Some c). cbv iota beta. cbn [eqc]. rewrite !not_char by done.
  destruct ((c =? ch "-") || (c =? ch "?") || (c =? ch ":")) eqn:Em; [|done].
  cbn [flowLevel atText buffer pos]. change (0 <? 0) with false. change (0 + 1) with 1. rewrite at_second, mark_second by done. done.
Qed.

(** What follows the text. *)
Definition restLex : list lexeme := match tl with [] => [] | _ => [Src [LF]] end.

Lemma lineStart_end s : at_ (buffer s) (pos s) = None → 0 <= pos s → atEnd s = true → indentNext s = 0 → indentValue s = 0 →
  parseLineStart s = Some (s, Some doc).
Proof using.
  intros Hb Hp He Hi Hv. assert (len (buffer s) <= pos s) as Hl by (by apply at_None_range).
  assert (∀ k, slice (buffer s) (pos s) k = []) as Hsl.
  { intros k. unfold slice. rewrite drop_ge by (unfold len in Hl; lia). apply take_nil. }
  unfold parseLineStart, bindL, charAt, gets. rewrite Z.add_0_r, Hb, He. cbv iota beta. cbn [eqc orb andb negb].
  unfold pushSpaces. assert (∀ p, skipWhile p (buffer s) (pos s) = pos s) as Hsk.
  { intros p. unfold skipWhile. rewrite drop_ge by (unfold len in Hl; lia). cbn. lia. }
  rewrite Hsk, Z.sub_diag. change (0 <? 0) with false. cbv iota beta. unfold modify. rewrite Hi. change (0 <? 0) with false. cbn [andb].
  assert (with_indent 0 0 s = s) as -> by (destruct s; simpl in *; by subst).
  unfold blockStart. cbn [parseBlockStart]. unfold bindL, charAt, gets. rewrite Z.add_0_r, Hb, Hsl, He. done.
Qed.

Lemma break_text o : tl = [LF] → let s := with_pos (len w) o atText in
  parseNext doc s = Some (with_pos (len w + 1) [Src [LF]] s, Some doc).
Proof using All.
  intros Etl s. assert (b = w ++ [LF]) as Eb by (unfold b; by rewrite Etl). pose proof (len_pos w) as Hw0.
  assert (buffer s = w ++ [LF]) as Hbs by exact Eb. assert (pos s = len w) as Hps by done.
  cbn [parseNext]. unfold Yaml.parseDocument, bindL. unfold pushSpaces at 1. rewrite Hbs, Hps.
  assert (∀ p, p LF = false → skipWhile p (w ++ [LF]) (len w) = len w) as Hsk.
  { intros p Hp. unfold skipWhile. rewrite drop_at. cbn [countWhile]. rewrite Hp. lia. }
  rewrite Hsk by done. rewrite Z.sub_diag. change (0 <? 0) with false. cbv iota beta.
  unfold getLine. rewrite Hbs, Hps. change (lineEndPos s) with (Some (indexOf b LF 0)). rewrite end_of_text, Etl.
  rewrite Z.ltb_irrefl, andb_false_r. change (default (-1) (Some (len w))) with (len w). cbv iota. rewrite (proj2 (Z.eqb_neq (len w) (-1))) by lia.
  assert (with_line (Some (len w)) s = s) as ->.
  { unfold s, with_line, with_pos, atText. f_equal. rewrite end_of_text, Etl. done. }
  assert (eqc (at_ (w ++ [LF]) (len w - 1)) CR = false) as ->.
  { pose proof (o_cr _ _ Hs) as Hcr. fold w in Hcr. destruct (last w) as [x|] eqn:El; [|by apply last_None in El].
    apply last_Some in El as [w' El]. rewrite El, len_app. change (len [x]) with 1. rewrite <- app_assoc.
    replace (len w' + 1 - 1) with (len w') by lia. rewrite at_app_here. cbn. apply Z.eqb_neq. congruence. }
  assert (substring (w ++ [LF]) (len w) (len w) = []) as ->.
  { unfold substring. apply slice_nil. lia. }
  cbv iota beta. assert (∀ f, pushIndicators (S f) s = Some (s, 0)) as Hi.
  { intros f. cbn [pushIndicators]. unfold bindL, charAt, gets. rewrite Hbs, Hps, Z.add_0_r, at_app_here. done. }
  unfold indicators. rewrite Hi. cbv iota beta. change (at_ [] 0) with (@None Z). cbv iota.
  unfold pushNewline, bindL, charAt, gets. rewrite Hbs, Hps, Z.add_0_r, at_app_here. cbn [head eqc]. change (LF =? LF) with true. cbv iota.
  unfold pushCount. change (0 <? 1) with true. cbv iota. rewrite Hbs, Hps.
  assert (slice (w ++ [LF]) (len w) (len w + 1) = [LF]) as ->.
  { unfold slice. rewrite drop_at. by replace (len w + 1 - len w) with 1 by lia. }
  rewrite lineStart_end; [done| |cbn [pos with_pos]; lia|done..]. cbn [buffer pos with_pos]. rewrite Hbs. by rewrite at_app_next.
Qed.

Lemma rest_text o fuel : (1 < fuel)%nat →
  ∃ s, lexLoop fuel false doc (with_pos (len w) o atText) = Some (s, tt) ∧ out s = [doc_mode] ++ o ++ restLex.
Proof using All.
  intros Hf. destruct fuel as [|[|fuel]]; [lia|lia|]. unfold restLex. destruct Ht as [Etl|Etl]; cbn [lexLoop]; unfold bindL, gets; cbn [buffer pos with_pos atText orb].
  - assert ((len w + 1 <=? len b) = false) as -> by (apply Z.leb_gt; unfold b; rewrite Etl, app_nil_r; lia).
    eexists. split; [done|]. rewrite Etl, app_nil_r. done.
  - assert (len b = len w + 1) as El by (unfold b; rewrite Etl, len_app; done). rewrite El, Z.leb_refl.
    pose proof (break_text o Etl) as Hnext. cbv zeta in Hnext. set (s2 := with_pos (len w) o atText) in *.
    rewrite Hnext. cbv iota beta. cbn [buffer pos with_pos]. change (buffer s2) with b. rewrite El.
    rewrite (proj2 (Z.leb_gt _ _)) by lia. eexists. split; [done|]. rewrite Etl. cbn [out with_pos]. subst s2. cbn [out with_pos atText]. by rewrite <- !app_assoc.
Qed.

(** The whole text is lexed once its scalar is. *)
Lemma lexed o : docChar w 0 c atText = Some (with_pos (len w) o atText, Some doc) → lexAll b = Some ([doc_mode] ++ o ++ restLex).
Proof using All.
  intros Hd. unfold lexAll, lex. change (Yaml.next Yaml.initial) with (@None Mode). cbn [default].
  replace (2 * length b + 2)%nat with (S (S (2 * length (r ++ tl) + 2))) by (unfold b, w; cbn [app length]; lia).
  set (f := (2 * length (r ++ tl) + 2)%nat). assert (0 < len b) as Hl by (unfold b, w, len; cbn [app length]; lia).
  assert (2 <= f)%nat as Hf by (unfold f; lia). clearbody f.
  cbn [lexLoop parseNext]. unfold bindL at 1, gets. cbn [orb]. change (buffer (feed b false Yaml.initial)) with b. change (pos (feed b false Yaml.initial)) with 0.
  rewrite (proj2 (Z.leb_le _ _)) by lia. unfold bindL at 1. rewrite stream_text. cbv iota beta.
  unfold bindL at 1. cbn [buffer pos atText]. rewrite (proj2 (Z.leb_le _ _)) by lia. unfold bindL at 1. change (parseNext doc atText) with (Yaml.parseDocument atText). rewrite document_text, Hd. cbv iota beta.
  destruct (rest_text o f) as (s & -> & ->); [lia|done].
Qed.

End lexing.

(** A quoted scalar whose end is found. *)
Lemma quoted_lexed c r tl : opens c r → ending tl → r ≠ [] → (c = DQ ∨ c = ch "'") →
  (let b := (c :: r) ++ tl in let fuel := S (S (length b)) in
   if c =? ch "'" then singleEnd fuel b (indexOf b c 1) else doubleEnd fuel b (indexOf b c 1)) = Some (len (c :: r) - 1) →
  lexAll ((c :: r) ++ tl) = Some ([doc_mode; Src (c :: r)] ++ restLex tl).
Proof.
  intros Ho Ht Hr Hc He. cbv zeta in He. apply (lexed c r tl Ho Ht [Src (c :: r)]). set (w := c :: r) in *.
  assert (docChar w 0 c (atText c r tl) = parseQuotedScalar (atText c r tl)) as -> by (by destruct Hc as [-> | ->]).
  unfold parseQuotedScalar. cbn [buffer pos atText]. fold w. change (at_ (w ++ tl) 0) with (Some c). cbn [eqc]. change (0 + 1) with 1.
  rewrite He. assert (1 < len w) as Hl by (destruct r; [done|]; unfold w, len; cbn [length]; lia).
  assert (LF ∉ substring (w ++ tl) 0 (len w - 1)) as Hn.
  { unfold substring. rewrite Z.max_r, Z.min_l, Z.max_r by lia. unfold slice. change (drop (Z.to_nat 0) (w ++ tl)) with (w ++ tl).
    rewrite take_app_le by (unfold len in *; lia). intros Hin%elem_of_take. destruct Hin as (i & Hi & _).
    apply (o_lf _ _ Ho). by eapply list_elem_of_lookup_2. }
  rewrite (indexOf_absent _ LF 0 Hn). cbn [quotedBreak]. change (-1 =? -1) with true. cbv iota zeta. change (-1 =? -1) with true. cbv iota.
  rewrite (proj2 (Z.eqb_neq (len w - 1) (-1))) by lia. cbn [andb]. unfold bindL, pushToIndex, gets, retL.
  replace (len w - 1 + 1) with (len w) by lia. cbn [buffer pos atText]. fold w. rewrite slice_all. done.
Qed.

Lemma plain_lexed c r tl : opens c r → ending tl → plainRest (c :: r) → Print.oneOf ",[]{}#&*!|>'%@`" c = false → c ≠ DQ →
  lexAll ((c :: r) ++ tl) = Some ([doc_mode; scalar_mark; Src (c :: r)] ++ restLex tl).
Proof.
  intros Ho Ht Hp Hc Hq. apply (lexed c r tl Ho Ht [scalar_mark; Src (c :: r)]). set (w := c :: r) in *.
  assert (∀ x, Print.oneOf ",[]{}#&*!|>'%@`" x = true → (c =? x) = false) as Hx by (intros x Hx; apply Z.eqb_neq; congruence).
  assert (docChar w 0 c (atText c r tl) = parsePlainScalar (atText c r tl)) as ->.
  { unfold docChar. rewrite (proj2 (Z.eqb_neq c DQ) Hq). by rewrite !Hx by reflexivity. }
  unfold parsePlainScalar. cbn [flowLevel buffer pos atText]. change (0 <? 0) with false. fold w.
  pose proof (plainScan_text (atText c r tl) tl Ht eq_refl w [] (0 - 1) (S (S (length (w ++ tl)))) eq_refl Hp) as E.
  change (len [] - 1) with (0 - 1) in E. rewrite E by lia. rewrite bool_decide_eq_false_2 by done. cbn [atEnd atText negb].
  unfold mark, modify, bindL, pushToIndex, retL. change (len [] + len w - 1 + 1) with (len w - 1 + 1). replace (len w - 1 + 1) with (len w) by lia.
  cbn [buffer pos with_pos atText]. fold w. rewrite slice_all. done.
Qed.

(** ** Parsing *)

(** The line break after the scalar, as the token it ends with. *)
Definition endTokens (w tl : jstr) : option (list Cst.SourceToken) :=
  match tl with
  | [] => None
  | _ => Some [{| Cst.ty := newline; Cst.toffset := len w; Cst.tindent := 0; Cst.source := [LF] |}]
  end.

(** The document of one scalar of the type [y]. *)
Definition scalarDocument (y : TokenType) (w tl : jstr) : Cst.token :=
  Cst.Document 0 [] (Some (Cst.FlowScalar y 0 0 w (endTokens w tl))) None.

(** What the parser makes of the lexemes of such a document. *)
Lemma plain_steps w : Cst.yields <$> Cst.parseLexemes [doc_mode; scalar_mark; Src w] (Cst.addNewLines [0] Cst.initial) =
  Some [scalarDocument scalar w []].
Proof. vm_compute. reflexivity. Qed.

Lemma plain_break_steps w : Cst.yields <$> Cst.parseLexemes [doc_mode; scalar_mark; Src w; Src [LF]] (Cst.addNewLines [0] Cst.initial) =
  Some [scalarDocument scalar w [LF]].
Proof. vm_compute. reflexivity. Qed.

Lemma double_steps o : Cst.yields <$> Cst.parseLexemes [doc_mode; Src (DQ :: o)] (Cst.addNewLines [0] Cst.initial) =
  Some [scalarDocument double_quoted_scalar (DQ :: o) []].
Proof. vm_compute. reflexivity. Qed.

Lemma double_break_steps o : Cst.yields <$> Cst.parseLexemes [doc_mode; Src (DQ :: o); Src [LF]] (Cst.addNewLines [0] Cst.initial) =
  Some [scalarDocument double_quoted_scalar (DQ :: o) [LF]].
Proof. vm_compute. reflexivity. Qed.

Lemma single_steps o : Cst.yields <$> Cst.parseLexemes [doc_mode; Src (ch "'" :: o)] (Cst.addNewLines [0] Cst.initial) =
  Some [scalarDocument single_quoted_scalar (ch "'" :: o) []].
Proof. vm_compute. reflexivity. Qed.

Lemma single_break_steps o : Cst.yields <$> Cst.parseLexemes [doc_mode; Src (ch "'" :: o); Src [LF]] (Cst.addNewLines [0] Cst.initial) =
  Some [scalarDocument single_quoted_scalar (ch "'" :: o) [LF]].
Proof. vm_compute. reflexivity. Qed.

(** A text read as the document of one scalar. *)
Definition parsesAs (y : TokenType) (w tl : jstr) : Prop :=
  ∃ p, Cst.parse (w ++ tl) = Some p ∧ Cst.yields p = [scalarDocument y w tl].

Lemma parsesAs_lexed y w tl l : lexAll (w ++ tl) = Some l →
  Cst.yields <$> Cst.parseLexemes l (Cst.addNewLines [0] Cst.initial) = Some [scalarDocument y w tl] → parsesAs y w tl.
Proof.
  intros Hl Hp. unfold parsesAs, Cst.parse. rewrite Hl. cbn [mbind option_bind].
  destruct (Cst.parseLexemes _ _) as [p|]; [|done]. exists p. split; [done|]. by injection Hp.
Qed.

(** ** Composing *)

Section composing.
Context {num : Type} `{Tags.JsNumber num}.

(** A tag of the core schema other than that of strings claims the text: the test of the
    printer, on the schema the reader uses. *)
Definition schemaTag (s : jstr) : bool :=
  existsb (λ t : Tags.tag num, Compose.isDefault t && negb (bool_decide (Tags.tname t = Tags.yamlTag "str")) && Compose.testOf s t) Tags.coreTags.

(** The text is read as the string, without errors or warnings. *)
Definition readsString (s v : jstr) : Prop :=
  ∃ (d : Compose.Doc num) n, Compose.parseDocument Compose.defaultOptions s = inr (Some d) ∧
    Compose.contents d = Some n ∧ Compose.isScalarNode n = Some (Tags.VStr v) ∧ Compose.ddiags d = [].

(** The parts of a scalar that resolves to the string. *)
Definition scalarReads (y : TokenType) (w v : jstr) : Prop :=
  match y with
  | scalar => Scalars.plainValue w = (v, []) ∧ schemaTag v = false
  | single_quoted_scalar => Scalars.singleQuotedValue w = (v, [])
  | double_quoted_scalar => Scalars.doubleQuotedValue w = Some (inr (v, []))
  | _ => False
  end.

Lemma string_tag_untested (t : Tags.tag num) : t ∈ Tags.coreTags → Tags.tname t = Tags.yamlTag "str" → Tags.ttest t = None.
Proof.
  unfold Tags.coreTags. rewrite !elem_of_cons, elem_of_nil. intros Ht Hn.
  repeat (destruct Ht as [->|Ht]; [first [reflexivity|exfalso; vm_compute in Hn; congruence]|]). done.
Qed.

(** What no other tag claims is a string. *)
Lemma string_by_test v (s : Compose.St num) : schemaTag v = false → Compose.tags s = Tags.coreTags →
  Compose.findScalarTagByTest s v = Tags.strTag.
Proof.
  intros Hv Ht. unfold Compose.findScalarTagByTest. rewrite Ht.
  destruct (find _ _) as [t|] eqn:E; [|done]. exfalso. apply find_some in E as [Hin E].
  assert (Compose.isDefault t = true ∧ Compose.testOf v t = true) as [Hd Hm].
  { unfold Compose.isDefault. destruct (Tags.tdefault t); [done|done|]. by apply andb_prop in E as [_ ?]. }
  assert (schemaTag v = true); [|congruence]. apply existsb_exists. exists t. split; [done|]. rewrite Hd, Hm, andb_true_r. cbn [andb].
  apply negb_true_iff, bool_decide_eq_false. intros Hn. apply string_tag_untested in Hn; [|by apply list_elem_of_In].
  unfold Compose.testOf in Hm. by rewrite Hn in Hm.
Qed.

(** The first state of a document without directives. *)
Definition firstState : Compose.St num := {| Compose.errs := []; Compose.atKey := false; Compose.atRoot := true; Compose.tags := Tags.coreTags |}.

Definition flowStyle (y : TokenType) : Print.scalarType :=
  match y with scalar => Print.PLAIN | single_quoted_scalar => Print.QUOTE_SINGLE | _ => Print.QUOTE_DOUBLE end.

Lemma flowParts_reads y w v tl : ending tl → scalarReads y w v →
  ∃ e, Compose.flowParts true y 0 w (endTokens w tl) firstState =
    (firstState, inr {| Compose.text := v; Compose.style_ := Some (flowStyle y); Compose.scomment := []; Compose.srange := (0, len w, e) |}).
Proof.
  intros Ht Hv. assert (∀ st, ∃ e, Compose.flowRest true 0 w (endTokens w tl) v st firstState =
    (firstState, inr {| Compose.text := v; Compose.style_ := Some st; Compose.scomment := []; Compose.srange := (0, len w, e) |})) as Hr.
  { intros st. destruct Ht as [-> | ->]; eexists; reflexivity. }
  destruct y; try done; unfold Compose.flowParts; cbn [scalarReads] in Hv.
  - destruct Hv as [-> _]. apply Hr.
  - rewrite Hv. apply Hr.
  - rewrite Hv. apply Hr.
Qed.

Lemma bind_done {A B} (m : Compose.M num A) (f : A → Compose.M num B) s s' a : m s = (s', inr a) → (m ≫= f) s = f a s'.
Proof. intros E. unfold mbind, Compose.M_bind. by rewrite E. Qed.

Lemma composeScalar_reads c y w v tl : ending tl → scalarReads y w v → Compose.options c = Compose.defaultOptions →
  ∃ m, Compose.composeScalar c (Cst.FlowScalar y 0 0 w (endTokens w tl)) None firstState =
    (firstState, inr (Compose.NScalar m (Tags.VStr v) (Some (flowStyle y)) v None None)).
Proof.
  intros Ht Hv Hc. destruct (flowParts_reads y w v tl Ht Hv) as [e He].
  assert (Compose.scalarParts c (Cst.FlowScalar y 0 0 w (endTokens w tl)) firstState =
    (firstState, inr {| Compose.text := v; Compose.style_ := Some (flowStyle y); Compose.scomment := []; Compose.srange := (0, len w, e) |})) as Hp.
  { unfold Compose.scalarParts. rewrite (bind_done _ _ _ firstState firstState) by done. by rewrite Hc. }
  unfold Compose.composeScalar. rewrite (bind_done _ _ _ _ _ Hp). rewrite (bind_done _ _ _ firstState None) by done.
  rewrite (bind_done _ _ _ firstState firstState) by done. rewrite Hc. cbn [Compose.stringKeys Compose.defaultOptions andb Compose.truthy Compose.text].
  assert ((if Compose.isPlainToken (Cst.FlowScalar y 0 0 w (endTokens w tl)) then Compose.findScalarTagByTest firstState v else Tags.strTag) = Tags.strTag) as ->.
  { destruct y; try done. apply string_by_test; [apply Hv|done]. }
  rewrite (bind_done _ _ _ firstState (Compose.Tag Tags.strTag)) by done.
  rewrite (bind_done _ _ _ firstState (Tags.VStr v, None)) by done. eexists. reflexivity.
Qed.

(** ** The whole reader *)

Lemma composed_document y w v tl : ending tl → scalarReads y w v →
  ∃ (d : Compose.Doc num) n after, Compose.composeDoc Compose.defaultOptions Directives.new 0 []
      (Some (Cst.FlowScalar y 0 0 w (endTokens w tl))) None = (inr d, [], after) ∧
    Compose.contents d = Some n ∧ Compose.isScalarNode n = Some (Tags.VStr v).
Proof.
  intros Ht Hv. unfold Compose.composeDoc.
  destruct (Directives.atDocument Directives.new) as [ds after] eqn:Ed. injection Ed as <- <-.
  destruct (Compose.docCtx (num := num) _ _) as [c s] eqn:Ec. injection Ec as Ec <-. fold firstState.
  assert (Compose.options c = Compose.defaultOptions) as Hc by (by rewrite <- Ec). clear Ec.
  set (tok := Cst.FlowScalar y 0 0 w (endTokens w tl)).
  destruct (Compose.resolveProps [] false doc_start _ 0 0 true) as [p es] eqn:Ep. injection Ep as <- <-.
  set (p := {| Compose.comma_ := None |}).
  assert (∃ n, Compose.composeNode c tok p firstState = (firstState, inr n) ∧ Compose.isScalarNode n = Some (Tags.VStr v)) as (n & Hn & Hs).
  { destruct (composeScalar_reads c y w v tl Ht Hv Hc) as [m Hm].
    set (n := Compose.NScalar m (Tags.VStr v) (Some (flowStyle y)) v None None) in *. exists n. split; [|done]. clearbody n.
    destruct y; try done; cbn [Compose.composeNode tok]; rewrite (bind_done _ _ _ firstState firstState) by done;
      (rewrite (bind_done _ _ _ firstState (Some n)); [|by rewrite (bind_done _ _ _ _ _ Hm)]); reflexivity. }
  rewrite (bind_done _ _ _ firstState tt) by done. rewrite (bind_done _ _ _ firstState tt) by done. rewrite Hn.
  eexists _, n, _. split; [reflexivity|]. by split.
Qed.

Lemma reads_composed y w v tl : ending tl → parsesAs y w tl → scalarReads y w v → readsString (w ++ tl) v.
Proof.
  intros Ht (p & Hp & Hy) Hv. unfold readsString, Compose.parseDocument. rewrite Hp, Hy. cbn [Compose.composeTokens scalarDocument].
  destruct (composed_document y w v tl Ht Hv) as (d & n & after & Hd & Hn & Hs). unfold Compose.composerNext.
  unfold scalarDocument. change (Compose.cdirectives Compose.newComposer) with Directives.new. rewrite Hd.
  eexists _, n. split; [reflexivity|]. by split.
Qed.

(** ** Each style *)

Lemma escaped_flat o : escaped o → LF ∉ o.
Proof.
  induction 1 as [|c o H1 H2 H3 _ IH|c o H1 _ IH]; rewrite ?not_elem_of_cons; [split; [done|apply not_elem_of_nil]|by split|].
  split_and!; [done|by intros E; apply H1|done].
Qed.

Lemma escaped_last o : escaped o → last o = Some DQ.
Proof. induction 1 as [|c o _ _ _ _ IH|c o _ _ IH]; [done|by apply last_cons_some|by do 2 apply last_cons_some]. Qed.

Lemma quote_opens c r q : (c = DQ ∨ c = ch "'") → LF ∉ r → last r = Some q → q ≠ CR → opens c r.
Proof.
  intros Hc Hr Hl Hq. assert (last (c :: r) = Some q) as Hl' by (by apply last_cons_some).
  destruct Hc as [-> | ->]; split; try done; try (by rewrite not_elem_of_cons); congruence.
Qed.

Lemma quoted_document v s tl : quotedText v s → LF ∉ v → ending tl → readsString (s ++ tl) v.
Proof.
  intros [Hv Hs] Hlf Ht. unfold resolvesTo, Scalars.quotedValue in Hv. destruct Hs as [(o & -> & Ho)| ->].
  - assert (o ≠ []) as Hne by (by intros ->; inversion Ho).
    assert (opens DQ o) as Hop by (eapply quote_opens; [by left|by apply escaped_flat|by apply escaped_last|done]).
    apply (reads_composed double_quoted_scalar); [done| |exact Hv].
    eapply parsesAs_lexed; [apply quoted_lexed; [done|done|done|by left|]|destruct Ht as [-> | ->]; [apply double_steps|apply double_break_steps]].
    cbv zeta. change (DQ =? ch "'") with false. cbv iota. pose proof (doubleEnd_text o Ho [DQ] tl (S (S (length ((DQ :: o) ++ tl)))) eq_refl) as E.
    etrans; [apply E; cbn [app length]; rewrite length_app; lia|]. f_equal. unfold len. cbn [length]. lia.
  - set (o := Scalars.doubleQuotes v ++ [ch "'"]).
    assert (opens (ch "'") o) as Hop.
    { eapply (quote_opens _ _ (ch "'")); [by right| |unfold o; by rewrite last_snoc|done]. unfold o. rewrite elem_of_app, list_elem_of_singleton.
      intros [Hin|?]; [|done]. by apply (doubledQuotes_oneLine v Hlf). }
    apply (reads_composed single_quoted_scalar); [done| |].
    + eapply parsesAs_lexed; [apply quoted_lexed; [done|done|by destruct (Scalars.doubleQuotes v)|by right|]|destruct Ht as [-> | ->]; [apply single_steps|apply single_break_steps]].
      cbv zeta. change (ch "'" =? ch "'") with true. cbv iota.
      etrans; [apply (singleEnd_text v tl ltac:(by destruct Ht as [-> | ->]) [ch "'"])|].
      * cbn [app length]. unfold o. rewrite !length_app. assert (length v <= length (Scalars.doubleQuotes v))%nat; [|lia].
        clear. unfold Scalars.doubleQuotes. induction v as [|x v IH]; [done|]. csimpl. destruct (x =? ch "'"); cbn [app length]; lia.
      * unfold o. cbn [app]. by rewrite <- !app_assoc.
      * f_equal. unfold o, len. cbn [length]. rewrite length_app. cbn [length]. lia.
    + cbn [scalarReads]. change (eqc (head (ch "'" :: o)) (ch "'")) with true in Hv. cbv iota in Hv. by apply (inj Some), (inj inr) in Hv.
Qed.

Lemma linesOf_flat s : LF ∉ s → Scalars.linesOf s = (s, []).
Proof.
  induction s as [|x s IH]; [done|]. intros [Hx Hs]%not_elem_of_cons. cbn [Scalars.linesOf]. rewrite IH by done.
  by rewrite (proj2 (Z.eqb_neq x LF)) by congruence.
Qed.

Lemma plain_document v tl : Print.notPlain v = false → LF ∉ v → CR ∉ v → head v ≠ Some BOM →
  Scalars.containsDocumentMarker v = false → schemaTag v = false → ending tl → readsString (v ++ tl) v.
Proof.
  intros Hnp Hlf Hcr Hbom Hm Htag Ht. destruct v as [|c r]; [by vm_compute in Htag|].
  pose proof Hnp as Hp. unfold Print.notPlain in Hp.
  apply orb_false_iff in Hp as [Hp Hlast]. apply orb_false_iff in Hp as [Hp Hhash]. apply orb_false_iff in Hp as [Hp _].
  apply orb_false_iff in Hp as [Hp Hcolon]. apply orb_false_iff in Hp as [Hp Hmark]. apply orb_false_iff in Hp as [Hp Hdq].
  apply orb_false_iff in Hp as [Hbb Hone].
  assert (plainRest (c :: r)) as Hrest by done.
  pose proof (λ l' H, existsb_subset c (runes ",[]{}#&*!|>'%@`") l' H Hone) as Hsub.
  assert (c ≠ BOM) as Hb by (intros ->; by apply Hbom).
  assert (opens c r) as Hop.
  { unfold Print.blankBreak in Hbb. apply orb_false_iff in Hbb as [Hbb H3]. apply orb_false_iff in Hbb as [H1 H2].
    apply not_elem_of_cons in Hcr as [Hc1 Hc2], Hlf as [Hl1 Hl2].
    cbn [Scalars.containsDocumentMarker Scalars.documentMarkerFrom] in Hm. unfold Scalars.containsDocumentMarker in Hm. cbn [Scalars.documentMarkerFrom] in Hm.
    apply orb_false_iff in Hm as [Hm _]. cbn [andb] in Hm. apply orb_false_iff in Hm as [Hm Hm3]. apply orb_false_iff in Hm as [_ Hm2].
    split; try done.
    - by rewrite not_elem_of_cons.
    - intros E. apply last_Some_elem_of in E. apply elem_of_cons in E as [?|?]; [congruence|done].
    - rewrite existsb_app, (Hsub (runes "#%!&") eq_refl). cbn [existsb]. rewrite H1, H2, H3, (proj2 (Z.eqb_neq c BOM) Hb).
      by rewrite (proj2 (Z.eqb_neq c CR)) by congruence.
    - intros Hmk. destruct r as [|d r].
      + cbn [last] in Hlast. apply orb_false_iff in Hlast as [_ Hcol]. rewrite Hcol, orb_false_r in Hmk.
        rewrite andb_true_r in Hmark. change (Print.oneOf "?-" c) with ((c =? ch "?") || ((c =? ch "-") || false)) in Hmark. rewrite orb_false_r in Hmark. rewrite orb_comm in Hmk. congruence.
      + cbn [head]. rewrite blankBreak_empty by (apply not_elem_of_cons in Hc2; naive_solver).
        unfold Print.blankBreak. rewrite (proj2 (Z.eqb_neq d LF)) by (apply not_elem_of_cons in Hl2; naive_solver). cbn [orb].
        assert (isBlank d = false) as Hd; [|unfold isBlank in Hd; by rewrite orb_comm].
        destruct (isBlank d) eqn:Ed; [|done]. exfalso. rewrite andb_true_r in Hmark. change (Print.oneOf "?-" c) with ((c =? ch "?") || ((c =? ch "-") || false)) in Hmark. rewrite orb_false_r in Hmark.
        cbn [Print.adjacent_] in Hcolon. apply orb_false_iff in Hcolon as [Hcol _]. rewrite Ed, andb_true_r in Hcol.
        apply orb_false_iff in Hcol as [_ Hcol]. rewrite Hcol, orb_false_r, orb_comm in Hmk. congruence. }
  apply (reads_composed scalar); [done| |].
  - eapply parsesAs_lexed; [apply plain_lexed; try done; by apply Z.eqb_neq|destruct Ht as [-> | ->]; [apply plain_steps|apply plain_break_steps]].
  - split; [|done]. unfold Scalars.plainValue, Scalars.foldFlowLines. rewrite linesOf_flat by done. cbn [head].
    rewrite (Hsub (runes ",%|>@`") eq_refl). unfold Print.blankBreak in Hbb. apply orb_false_iff in Hbb as [Hbb _]. apply orb_false_iff in Hbb as [_ ->]. done.
Qed.

(** ** The printed document *)

(** A document of one string, without comments, anchor, tag, directives or marks. *)
Definition bare : Nodes.Meta :=
  {| Nodes.comment := []; Nodes.commentBefore := []; Nodes.spaceBefore := false; Nodes.anchor := None; Nodes.tag := None |}.

Definition stringDocument (ty : option Print.scalarType) (v : jstr) : Nodes.Document := {|
  Nodes.docComment := []; Nodes.docCommentBefore := []; Nodes.contents := Some (Nodes.Str bare ty v);
  Nodes.directives := Some []; Nodes.docStart := false; Nodes.docEnd := false |}.

(** The styles on one line. *)
Definition isFlowStyle (ty : Print.scalarType) : bool :=
  match ty with Print.BLOCK_FOLDED | Print.BLOCK_LITERAL => false | _ => true end.

(** A context at the top of a document, without folding, whose schema is the core schema. *)
Record topCtx (t : Nodes.NCtx) : Prop := {
  tc_indent : Nodes.nindent t = [];
  tc_key : Scalars.implicitKey (Nodes.nbase t) = false;
  tc_width : Scalars.optLineWidth (Nodes.nbase t) <= 0;
  tc_json : Scalars.doubleQuotedAsJSON (Nodes.nbase t) = false;
  tc_flow : Nodes.isFlow t = false;
  tc_schema : ∀ s, Print.otherTag (Nodes.pctx t) s = schemaTag s;
}.

Section printing.
Context (e : Print.Item) (t : Print.PrintCtx).
Let v := Print.value_ e.
Let c := Print.base t.
Context (Hu : Forall isUnit v) (Hlf : LF ∉ v) (Hbom : head v ≠ Some BOM) (Hmark : Scalars.containsDocumentMarker v = false).
Context (Hind : Scalars.indent c = []) (Hw : Scalars.optLineWidth c <= 0) (Hj : Scalars.doubleQuotedAsJSON c = false)
  (Hkey : Scalars.implicitKey c = false) (Hflow : Print.inFlow t = false) (Hact : Print.actualString t = true)
  (Htag : ∀ s, Print.otherTag t s = schemaTag s).

(** A printed text without a comment that is read back, alone or with a line break. *)
Definition printsAndReads (r : option Print.Printed) : Prop :=
  ∃ p, r = Some p ∧ Print.commentDone p = false ∧ ∀ tl, ending tl → readsString (Print.text p ++ tl) v.

Lemma quoted_both s : quotedText v s → printsAndReads (Some (Print.just s)).
Proof using All.
  intros Hs. exists (Print.just s). split_and!; [done|done|intros tl; by apply quoted_document].
Qed.

Lemma double_both : printsAndReads (Print.just <$> Scalars.doubleQuotedString v c).
Proof using All. destruct (double_text v c Hu Hlf Hind Hw Hj) as (s & -> & Hs). by apply quoted_both. Qed.

Lemma single_both : CR ∉ v → printsAndReads (Print.just <$> Scalars.singleQuotedString v c).
Proof using All. intros Hcr. destruct (single_text v c Hu Hlf Hind Hw Hj Hcr) as (s & -> & Hs). by apply quoted_both. Qed.

Lemma plain_both : CR ∉ v → printsAndReads (Print.plainString e t).
Proof using All.
  intros Hcr. assert (printsAndReads (Print.just <$> Scalars.quotedString v c)) as Hq.
  { destruct (quoted_text v c Hu Hlf Hind Hw Hj Hcr) as (s & -> & Hs). by apply quoted_both. }
  assert (existsb (Z.eqb LF) v = false) as Hm.
  { destruct (existsb (Z.eqb LF) v) eqn:E; [|done]. apply existsb_exists in E as (x & Hx & <-%Z.eqb_eq). by apply list_elem_of_In in Hx. }
  unfold Print.plainString. fold v c. rewrite Hkey, Hflow, Hm. cbn [andb orb negb]. destruct (Print.notPlain v) eqn:Enp; [done|].
  rewrite andb_false_r, Hmark. unfold Print.plainText. fold c. rewrite Hind, breakRuns_flat, Hact, Htag by done. cbn [andb].
  destruct (schemaTag v) eqn:Es; [done|]. rewrite Hkey, unfolded_text by done. eexists. split; [reflexivity|]. split; [done|].
  intros tl Ht. cbn [fst Print.text Print.just]. by apply plain_document.
Qed.

Lemma string_both : isFlowStyle (default (Print.defaultStringType t) (Print.type_ e)) = true → printsAndReads (Print.stringifyString e t).
Proof using All.
  intros Hty. unfold Print.stringifyString. fold v c. destruct (negb _ && Print.needsEscape v) eqn:En; [apply double_both|].
  assert (∀ ty, isFlowStyle ty = true → (ty = Print.QUOTE_DOUBLE ∨ CR ∉ v) → ∃ r, Print.stringAs (Some ty) e t = Some r ∧ printsAndReads r) as Has.
  { intros ty Hf Hor. pose proof double_both. destruct ty; try done; cbn [Print.stringAs]; fold v c; eexists; (split; [reflexivity|]);
      destruct Hor as [?|Hcr]; try done; [by apply plain_both|by apply single_both]. }
  destruct (Print.type_ e) as [ty|] eqn:Ety; cbn [default] in Hty.
  - destruct (Has ty Hty) as (r & -> & Hr); [|done]. case_bool_decide as Hq; [left; congruence|right]. by apply needsEscape_CR.
  - change (Print.stringAs None e t) with (None : option (option Print.Printed)). cbv beta iota. rewrite Hkey.
    destruct (Has (Print.defaultStringType t) Hty) as (r & -> & Hr); [|done]. right. by apply needsEscape_CR.
Qed.

End printing.

Lemma string_document_reads ty v t : topCtx t → Forall isUnit v → LF ∉ v → head v ≠ Some BOM →
  Scalars.containsDocumentMarker v = false → isFlowStyle (default (Print.defaultStringType (Nodes.pctx t)) ty) = true →
  ∃ s, Nodes.printDocument (stringDocument ty v) None t = inr s ∧ readsString s v.
Proof.
  intros [Hi Hk Hw Hj Hf Hs] Hu Hlf Hbom Hm Hty.
  set (t' := Nodes.setForceIndent false (Nodes.setDirectives true t)).
  destruct (string_both {| Print.comment_ := []; Print.type_ := ty; Print.value_ := v |} (Nodes.stringCtx t')) as (p & Hp & Hc & Hr); try done.
  exists (Print.text p ++ [LF]). split; [|apply Hr; by right].
  assert (Nodes.print (Nodes.Str bare ty v) t' =
    inr {| Nodes.otext := Print.text p; Nodes.ocomment := false; Nodes.okeep := Print.chompKeep p; Nodes.oias := Nodes.ias t' |}) as Hn.
  { change (Nodes.print (Nodes.Str bare ty v) t') with
      (Nodes.bindR
        (match Print.stringifyString {| Print.comment_ := []; Print.type_ := ty; Print.value_ := v |} (Nodes.stringCtx t') with
         | None => inl Nodes.OutOfFuel
         | Some p => inr {| Nodes.otext := Print.text p; Nodes.ocomment := Print.commentDone p; Nodes.okeep := Print.chompKeep p; Nodes.oias := Nodes.ias t' |}
         end)
        (λ o, inr {| Nodes.otext := Nodes.otext o; Nodes.ocomment := Nodes.ocomment o; Nodes.okeep := Nodes.okeep o; Nodes.oias := Nodes.ias t' |})).
    by rewrite Hp, Hc. }
  unfold Nodes.printDocument. change (Nodes.documentHead (stringDocument ty v) None t) with (@nil jstr, false). cbv iota beta.
  unfold Nodes.documentBody. change (Nodes.contents (stringDocument ty v)) with (Some (Nodes.Str bare ty v)). cbv iota beta zeta.
  change (Nodes.setForceIndent (Nodes.given (Nodes.docComment (stringDocument ty v))) (Nodes.setDirectives (Nodes.isSome (Nodes.directives (stringDocument ty v))) t)) with t'.
  rewrite Hn. reflexivity.
Qed.

End composing.

(** C28: A document of one string is read back.  Take a string of one line that does not
    start with a byte order mark or with what marks a document (the characters of [---],
    [...] or [%], also after U+2028 and U+2029), and print it as the contents of a document,
    with any of the styles of one line (plain, single or double quotes; the style given or
    the default one), without folding.  The lexer, the parser and the composer read the
    printed text as one document with no errors or warnings, whose contents are a string with
    the same value: nothing of it is taken for an indicator, a comment, a key or a scalar of
    another type. *)
Theorem string_document_roundtrip `{Tags.JsNumber num} ty v t :
  topCtx t → Forall isUnit v → LF ∉ v → head v ≠ Some BOM → Scalars.containsDocumentMarker v = false →
  isFlowStyle (default (Print.defaultStringType (Nodes.pctx t)) ty) = true →
  ∃ s (d : Compose.Doc num) n, Nodes.printDocument (stringDocument ty v) None t = inr s ∧
    Compose.parseDocument Compose.defaultOptions s = inr (Some d) ∧
    Compose.contents d = Some n ∧ Compose.isScalarNode n = Some (Tags.VStr v) ∧ Compose.ddiags d = [].
Proof.
  intros Ht Hu Hlf Hb Hm Hf. destruct (string_document_reads ty v t Ht Hu Hlf Hb Hm Hf) as (s & Hs & d & n & Hd).
  by exists s, d, n.
Qed.

(** ** Instances *)

Section instances.

(** Numbers as their text, enough to run the reader. *)
#[local] Instance textNumbers : Tags.JsNumber jstr := {|
  Tags.parseInt s r := s; Tags.parseFloat s := s; Tags.toNumber s := s; Tags.num_of_Z z := [z]; Tags.num_mul a b := a ++ b;
  Tags.num_add a b := a ++ b; Tags.num_inf := runes "inf"; Tags.num_ninf := runes "-inf"; Tags.num_nan := runes "nan";
  Tags.num_is a b := bool_decide (a = b); Tags.num_same a b := bool_decide (a = b) |}.

(** The default options, at an indentation step and a line width. *)
Definition options (step : nat) (width : Z) : Nodes.NCtx := {|
  Nodes.pctx := {|
    Print.base := {| Scalars.implicitKey := false; Scalars.indent := []; Scalars.ctxIndentAtStart := None; Scalars.doubleQuotedAsJSON := false;
      Scalars.doubleQuotedMinMultiLineLength := 40; Scalars.optLineWidth := width; Scalars.optMinContentWidth := 20; Scalars.singleQuote := None |};
    Print.blockQuote := Print.ANY_BLOCK; Print.commentString := Print.stringifyComment; Print.forceBlockIndent := false; Print.actualString := true;
    Print.indentStep := replicate step SP; Print.inFlow := false; Print.otherTag := schemaTag; Print.defaultKeyType := None; Print.defaultStringType := Print.PLAIN |};
  Nodes.flow3 := None; Nodes.allNullValues := false; Nodes.simpleKeys := false; Nodes.indentSeq := true; Nodes.trailingComma := false;
  Nodes.flowCollectionPadding := [SP]; Nodes.nullStr := runes "null"; Nodes.tagString := λ s, s; Nodes.hasDirectives := true |}.

(** A map with one key. *)
Definition keyed (ty : option Print.scalarType) (v : jstr) : Nodes.Document := {|
  Nodes.docComment := []; Nodes.docCommentBefore := [];
  Nodes.contents := Some (Nodes.MapNode bare None [(Nodes.Str bare None (runes "k"), Some (Nodes.Str bare ty v))]);
  Nodes.directives := Some []; Nodes.docStart := false; Nodes.docEnd := false |}.

(** The string read back of a printed document. *)
Definition readBack (e : Nodes.Document) (t : Nodes.NCtx) : option (Tags.value jstr) :=
  match Nodes.printDocument e None t with
  | inr s =>
    match Compose.parseDocument Compose.defaultOptions s with
    | inr (Some d) =>
      match Compose.contents d with
      | Some (Compose.NMap _ _ _ [Compose.EPair _ (Some n)]) => Compose.isScalarNode n
      | Some n => Compose.isScalarNode n
      | None => None
      end
    | _ => None
    end
  | inl _ => None
  end.

Definition trickyText : jstr := runes "it's - #1 of: [a, true]".

Example tricky_printed :
  Nodes.printDocument (stringDocument None trickyText) None (options 2 0) = inr (DQ :: trickyText ++ [DQ; LF]).
Proof. vm_compute. reflexivity. Qed.

Lemma string_document_roundtrip_witness :
  ∃ s (d : Compose.Doc jstr) n, Nodes.printDocument (stringDocument None trickyText) None (options 2 0) = inr s ∧
    Compose.parseDocument Compose.defaultOptions s = inr (Some d) ∧
    Compose.contents d = Some n ∧ Compose.isScalarNode n = Some (Tags.VStr trickyText) ∧ Compose.ddiags d = [].
Proof.
  apply (string_document_roundtrip None trickyText (options 2 0)).
  - split; reflexivity.
  - repeat (constructor; [unfold isUnit; vm_compute; split; congruence|]). constructor.
  - apply (bool_decide_unpack _). vm_compute. exact I.
  - discriminate.
  - reflexivity.
  - reflexivity.
Defined.

(** A byte order mark at the start of a string is printed as it is and lost: the reader takes
    it for the mark of the stream. *)
Theorem byte_order_mark_lost :
  readBack (stringDocument None (BOM :: runes "ab")) (options 2 0) = Some (Tags.VStr (runes "ab")).
Proof. vm_compute. reflexivity. Qed.

(** Three texts of a map are not read back.  With the default options a text of a space and a
    break loses the space: the block printed for it has no line that shows the indentation.
    With an indentation step of four, a text that starts with a space gains two spaces on each
    line: the indentation mark is always 2.  In a folded block a line of one space after a
    more indented line gains a break. *)
Theorem block_strings_corrupted :
  readBack (keyed None [SP; LF]) (options 2 80) = Some (Tags.VStr [LF]) ∧
  readBack (keyed None (runes " a" ++ [LF] ++ runes "b" ++ [LF])) (options 4 80) =
    Some (Tags.VStr (runes "   a" ++ [LF] ++ runes "  b" ++ [LF])) ∧
  readBack (keyed (Some Print.BLOCK_FOLDED) (runes "a" ++ [LF] ++ runes " b" ++ [LF; SP; LF] ++ runes "c")) (options 2 80) =
    Some (Tags.VStr (runes "a" ++ [LF] ++ runes " b" ++ [LF; LF; SP; LF] ++ runes "c")).
Proof. split_and!; vm_compute; reflexivity. Qed.

End instances.
